(* ===== verification/_CoqProject ===== *)
-Q . S2P
Prelude.v
RustStr.v
RustChar.v
JsonTree.v
JsonText.v
Contract.v
Review.v
ReviewFacts.v
Coverage.v
Stage.v
StageFacts.v
Publication.v
ContractExamples.v
GatewayCore.v
IpAddr.v
ProxyTrust.v
RateLimit.v
RateLimitFacts.v
Cors.v
GatewayExamples.v
InferenceError.v
LlmError.v
Circuit.v
Usage.v
Readiness.v
Supervision.v
ValidatorBudget.v
ValidatorAccounting.v
ControllerWire.v
ControllerWireFacts.v
ExecutionSecurity.v
ExecutionSecurityFacts.v
AgentDelegation.v
WorkflowExpression.v
WorkflowExpressionFacts.v
RetryPolicy.v
ExpressionStep.v
ExpressionStepFacts.v
ExpressionCompiler.v
ExpressionCompilerFacts.v
DefinitionPlan.v
DefinitionPlanFacts.v
ExpressionRequests.v
ExpressionRequestsFacts.v
HttpPath.v
RustF64.v
RuleEngine.v
AccessControl.v
AccessControlFacts.v
AccessHistoryFacts.v
AccessFilterFacts.v
AccessExamples.v
InvocationContract.v
InvocationFacts.v
LlmAuthorization.v
AuditWal.v
AuditWalFacts.v
AuditWalHistory.v
ReasoningSeal.v
ReasoningSealFacts.v
ReasoningSealExamples.v
Pii.v
PiiSubstitution.v
PiiFacts.v
PiiRoundtrip.v
PiiStream.v
PiiExamples.v
StreamEncoder.v
StreamEncoderFacts.v
StreamOutput.v
StreamProducer.v
StreamProducerFacts.v
StreamExamples.v
Deployment.v
Generation.v
GenerationFacts.v
GenerationResults.v
GenerationAudit.v
GenerationExamples.v
