(* ===== verification/Prelude.v ===== *)
(** * Light-Fabric: a verification library

    Light-Fabric is a workspace of Rust crates, frameworks and applications for
    gateways, agents and workflows.  This library models its decision cores, the
    code that admits, refuses, counts and charges, and proves what that code
    promises.  Pure functions of the source are functions here, state is passed
    explicitly, and [Result] is the type [result] below.

    ** Parts and files

    [Prelude] (this file): results, machine integers, ordered iteration, loops with
    early return, sums over the members of a system, and the tactics shared by all
    files.  [RustStr] and [RustChar]: the operations on Rust strings and their characters
    the sources use.  [JsonTree] and [JsonText]: the values of [serde_json] and the text it
    writes for strings and numbers.

    Development-workflow contract, [src/crates/development-workflow-contract/src]:
    - [Contract] models [lib.rs]: artifacts, identities, candidates and receipts.
    - [Review] models [review.rs] up to the ledger, [ReviewFacts] proves its theorems,
      [Coverage] models the publication gate ([ReviewCoverage]) and proves its own.
    - [Stage] models [stage.rs] (claims, acceptance, budget, VM release, documents,
      comments, non-progress), [StageFacts] proves its theorems.
    - [Publication] models [publication.rs]: plans, policies and effects.
    - [ContractExamples] holds concrete runs.

    Gateway policies, [src/crates/gateway-policy/src]:
    - [GatewayCore] models the rejection types of [light-security], the request and
      header traits of [lib.rs], and [config_util.rs].
    - [IpAddr] models the address parser and printer of the standard library.
    - [ProxyTrust] models [rate_limit/source.rs].
    - [RateLimit] models [rate_limit.rs], [RateLimitFacts] proves its theorems.
    - [Cors] models [cors.rs], [java_cors.rs] and [header.rs].
    - [GatewayExamples] holds concrete runs.

    LLM gateway, [src/crates/llm-gateway/src]:
    - [InferenceError] models the errors of [model-provider], [LlmError] models [error.rs].
    - [Circuit] models [routing/mod.rs], [Usage] models [usage/mod.rs], [Readiness] models
      [runtime/readiness.rs].
    - [LlmAuthorization] models [authorization.rs].
    - [AuditWal] models the write-ahead log [audit/wal.rs], [AuditWalFacts] proves what its
      operations do to a directory, [AuditWalHistory] what holds over its life with crashes.
    - [ReasoningSeal] models [reasoning_seal.rs], [ReasoningSealFacts] proves its theorems,
      [ReasoningSealExamples] has concrete primitives for them.
    - [Pii] models [pii.rs] without its vault: the masking of personal data in requests and
      its recovery in responses and streams.  [PiiSubstitution] relates recovery to the
      substitution of all tokens at once, [PiiFacts], [PiiRoundtrip] and [PiiStream] prove the
      theorems, [PiiExamples] runs the patterns.
    - [StreamEncoder] models the encoder and [StreamProducer] the task of
      [runtime/streaming.rs], from the first event of a provider to the frames of the client.
      [StreamEncoderFacts] bounds the frames, [StreamOutput] proves what the final response
      holds, [StreamProducerFacts] how a stream ends and what its client reads;
      [StreamExamples] has concrete streams.
    - [Deployment] models [runtime/snapshot.rs] and, of [src/crates/model-provider/src], the
      requests, responses and capabilities and what a conformance result proves.
      [Generation] models [execute_with_snapshot_protocol] of [runtime/mod.rs], a buffered
      request from admission to its settled response, and [admission.rs].
      [GenerationFacts] gives the grammar of the events a request leaves,
      [GenerationResults] and [GenerationAudit] prove what they say of providers, usage and
      audit, [GenerationExamples] runs requests.

    Validator process, [src/frameworks/light-lambda-runtime/src/validator_ipc]:
    - [Supervision] models [supervision.rs], [ownership.rs] and the start rate of
      [controller.rs].
    - [ValidatorBudget] models [budget.rs].
    - [ValidatorAccounting] models [accounting.rs] and the message checks and
      admission of [controller.rs].

    Controller wire, [src/crates/controller-wire/src]:
    - [ControllerWire] models [error.rs], [profile.rs], [frame.rs], [json.rs], [v1.rs] and
      [codec.rs]; [ControllerWireFacts] proves its theorems.

    Execution and agents:
    - [ExecutionSecurity] models [src/crates/execution-security/src/lib.rs],
      [ExecutionSecurityFacts] proves its theorems.
    - [AgentDelegation] models [src/crates/agent-delegation/src/lib.rs] and, in its module
      [Session], [src/crates/agent-session-policy/src/lib.rs].
    - [InvocationContract] models [src/crates/workflow-invocation-contract/src/lib.rs],
      [InvocationFacts] proves its theorems.

    Workflow expressions, [src/crates/workflow-expression/src]:
    - [WorkflowExpression] models [lib.rs], [error.rs], [scanner.rs] and [uri.rs],
      [WorkflowExpressionFacts] proves its theorems.
    - [RetryPolicy] models [retry_policy.rs].
    - [ExpressionStep] models [step.rs] and the measuring and conversion of [json.rs],
      [ExpressionStepFacts] proves its theorems.
    - [ExpressionCompiler] models [compiler.rs], the audit of an expression and the
      cache of compiled programs, [ExpressionCompilerFacts] proves its theorems.
    - [DefinitionPlan] models [validation.rs], the plan of checks of a workflow
      definition, [DefinitionPlanFacts] proves its theorems.
    - [ExpressionRequests] models the templates that the executor of
      [src/apps/light-workflow/src] takes from a task ([expression_requests.rs],
      [expression_runtime.rs], [expression_completion.rs], the server of an MCP call in
      [executor.rs]), [ExpressionRequestsFacts] proves which of them the validation covers.

    Access control, [src/crates/light-rule/src] and
    [src/frameworks/light-pingora/src/access_control.rs]:
    - [HttpPath] models the canonical request paths of [handler.rs], [RustF64] the 64-bit
      floating point numbers of the standard library.
    - [RuleEngine] models [light-rule]: rules, security profiles, the compile cache, the
      engine and the executor.
    - [AccessControl] models [access_control.rs]: configuration, policy selection,
      authorization, tool visibility and response filters.
    - [AccessControlFacts] proves the theorems of authorization, [AccessHistoryFacts] those
      of the caches, [AccessFilterFacts] those of the response filters; [AccessExamples]
      holds concrete runs.

    The parts meet where the code composes them: the publication gate reads the
    review ledger, stage acceptance reads ledger and publication receipts, the rate
    limiter asks the proxy policy for the client, the accounting reads the error
    evidence of the circuit, admission takes a lease of the authority and a credit of
    the budget, the resolver of a step scans templates and charges its outputs, the
    validation of a definition asks the scanner and the compiler about the templates that the
    executor later gives to the resolver, access control selects
    policies by canonical paths and runs their rules in the engine, a stream recovers
    personal data and seals reasoning state before its events are encoded, and a generation
    request masks personal data, opens sealed state, reserves usage, takes permits of
    circuits and asks for readiness.

    ** What the theorems show

    - Publication gate: a publication that passes has every required review and no
      open finding ([validate_publication_sound]); the ledger justifies every closed
      finding and only grows ([ledger_reachable_wf], [ledger_append_only]); on
      consistent input no operation panics.
    - Stages and effects: claims are exclusive, acceptance is sound, budgets hold,
      an effect is dispatched at most once, plans stay below their roots.
    - Rate limiting: admitted requests respect every sliding window, the retry time
      is exact, capacity fails closed, and no header chooses the client's identity.
    - Circuit and usage: the circuit opens at its threshold, reservations stay within
      the budget under every interleaving, and the envelope covers any attempts; a
      deployment is warmed by one probe at a time before it is eligible
      ([warmed_before_eligible]).
    - LLM gateway: an identity is verified only by tokens that say so ([identity_verified]);
      the audit log can be opened again after any history and a crash at any byte, unless it
      cuts the header of the newest segment, and then has exactly the complete records
      ([recovery_exact]), gives the sink every record that
      is not acknowledged ([replay_exact]) and removes only acknowledged ones
      ([acknowledge_exact]); a sealed state is opened again by every replica with the key,
      unless its envelope exceeds the estimate of its size, and only for the binding it was
      sealed for ([sealed_state_roundtrip], [sealed_state_bound]).
    - Personal data: every value the patterns find is covered by a token
      ([detections_masked]), recovery restores a masked request
      ([masked_request_recovered]), and a stream recovers what the whole text would, however
      it is cut into fragments ([stream_recovers_as_whole]).
    - Streams: a stream ends once and reports truthfully how ([stream_terminal_once]), its
      frames are numbered and bounded ([responses_frames_bounded]), the final response is the
      list of items the events describe ([final_response_assembled]), and with the recovery
      of personal data the client reads the provider's answer ([client_reads_recovered]).
    - Generation requests: providers get the masked request, each deployment of the route
      once and in order, and a further one only after a failure that is safe to retry
      ([dispatch_disciplined]); at most one of them may have accepted it
      ([accepted_at_most_once]); the reservation is settled or released once and the audit
      states the charge ([usage_settled_once]); the audit trail is in order and has its end
      ([audit_trail_complete]).  They hold whatever the other requests, the providers and the
      audit do, and when the request is dropped at any await of theirs.
    - Validator: the authority is fail-stop, the drain is final, the memory budget is
      never overrun and never leaks, events and metadata are measured exactly, and
      starts are rate limited.
    - Controller wire: frames round trip, are accepted only in canonical form, and carry
      only well-formed messages ([rkyv_frame_roundtrip], [decoded_frame_canonical],
      [wire_messages_well_formed]).
    - Execution and agents: protected paths are enforced, grants are used no more often
      than issued, redirects stay authorized; a token is accepted exactly when it is
      authentic and binds what it says.
    - Invocation contract: canonical JSON is equal exactly for equal values
      ([canonical_json_exact]), repeated keys and unsafe numbers are refused
      ([strict_parse_exact]), and the digest of an admitted request identifies its input.
    - Workflow expressions: the scanner terminates and loses nothing, placeholder values
      cannot change the structure of a URI, retry policies are validated and bounded, and
      a step returns values of the types its positions require, within its budget.  The
      audit admits exactly the well-scoped expressions within its limits, the cache keeps
      its budget and changes no answer, and a validated definition has only supported
      tasks and, but for the places the validation does not look at, no expression that the
      executor would refuse before running it ([validated_definition_admitted]).
    - Access control: two spellings of a path have one canonical form
      ([canonical_path_identity]), the policy selected is the one the documented precedence
      names ([policy_selection_exact]), access is granted only by the rules that govern an
      endpoint ([http_access_governed]) over a context the caller cannot forge
      ([rule_context_trusted]), no decision depends on what the engine cached before
      ([decisions_ignore_history]), and a filtered response is a restriction of the
      original ([http_response_restricted], [mcp_response_restricted]).

    ** Conventions and bounds

    Unsigned words are [N] with the wrap-around, saturation or check of the source
    written out; [usize] is 64 bits wide.  Strings are their bytes.  Ordered maps and
    sets are [gmap] and [gset], iterated in sorted order.  Clock readings are
    arguments.  Code outside the sources (SHA-256, serialization, IP networks, header
    values, JSON text) is a class or a section variable, with the documented facts it
    needs, and an instance witnesses them.  Loops that are not structural take fuel, and
    the fuel their callers give is proved enough: the nodes of an event in
    [ValidatorBudget], the bytes of a template or path in [WorkflowExpression], the depth
    of a definition in [RetryPolicy], the nodes of a value in [ExpressionStep], those of an
    expression in [ExpressionCompiler], the values of a document in [DefinitionPlan], the
    bytes of a segment in [AuditWal].

    Shared state is modelled by step relations.  The usage ledger, the readiness of a
    deployment and the memory budget have one step per atomic operation.  The authority, the drain and the
    start rate run under a mutex, so one operation is one step.  Operations of the
    circuit are single steps too, although each performs several atomic operations.
    A generation request runs in a world that an environment changes before each of its
    operations on it, and its events are logged; the destructors of what it holds run on
    every exit.

    ** What is not modelled

    Network, database and process code, asynchronous scheduling, serde visitors and
    derived code, and the logging around the decisions. Files are modelled only in the
    audit log, where every operation succeeds. Of the modelled crates: the remaining
    gateway policies, embedding requests, the compilation of snapshots, the providers, the
    sink and the vault of the LLM gateway, JWT verification, the process handling of the validator controller,
    the CEL functions and worker threads of the workflow expressions, the value profile
    and diagnostics of the rule engine, and the reading of access control files. *)

From stdpp Require Export base tactics list gmap strings sorting relations pretty.
From Stdlib Require Export Lia.

(** ** Fallible computations

    Rust's [Result<A, E>].  The [?] operator is the monadic bind, written with
    stdpp's [x ← c; k]. *)

Inductive result (E A : Type) :=
| Ok (a : A)
| Err (e : E).
Arguments Ok {_ _} _.
Arguments Err {_ _} _.

#[global] Instance result_ret E : MRet (result E) := λ A a, Ok a.
#[global] Instance result_bind E : MBind (result E) :=
  λ A B f c, match c with Ok a => f a | Err e => Err e end.
#[global] Instance result_fmap E : FMap (result E) :=
  λ A B f c, match c with Ok a => Ok (f a) | Err e => Err e end.

#[global] Instance result_eq_dec {E A} `{!EqDecision E} `{!EqDecision A} :
  EqDecision (result E A).
Proof. solve_decision. Defined.

(** [Result::map_err] and [Option::ok_or]. *)
Definition map_err {E F A} (f : E → F) (r : result E A) : result F A :=
  match r with Ok a => Ok a | Err e => Err (f e) end.
Definition ok_or {E A} (e : E) (o : option A) : result E A :=
  match o with Some a => Ok a | None => Err e end.
Definition is_ok {E A} (r : result E A) : bool :=
  match r with Ok _ => true | Err _ => false end.

(** A [for] loop whose body may return early with an error. *)
Fixpoint for_each {E S A} (f : S → A → result E S) (s : S) (l : list A) : result E S :=
  match l with
  | [] => Ok s
  | x :: l' => s' ← f s x; for_each f s' l'
  end.

(** ** Machine integers

    Unsigned machine words are [N] together with the bound their width sets. *)

Definition u16_max : N := 65535.
Definition u32_max : N := 4294967295.
Definition u64_max : N := 18446744073709551615.
Definition i64_max : Z := 9223372036854775807.

(** A [Uuid] is its 128 bits; [DateTime<Utc>] the nanoseconds since the epoch. *)
Abbreviation Uuid := N (only parsing).
Definition is_nil (u : Uuid) : bool := (u =? 0)%N.
Abbreviation DateTime := Z (only parsing).

(** [saturating_add], [saturating_mul], [checked_add] and [checked_mul] at a
    width with largest value [m]; [saturating_sub] is [N.sub]. *)
Definition sat_add (m a b : N) : N := N.min (a + b) m.
Definition sat_mul (m a b : N) : N := N.min (a * b) m.
Definition checked_add (m a b : N) : option N :=
  if (a + b <=? m)%N then Some (a + b)%N else None.
Definition checked_mul (m a b : N) : option N :=
  if (a * b <=? m)%N then Some (a * b)%N else None.
(** Atomic [fetch_add] and [fetch_sub] wrap around at the width. *)
Definition wrap_add (m a b : N) : N := ((a + b) mod (m + 1))%N.
Definition wrap_sub (m a b : N) : N := ((a + (m + 1 - b mod (m + 1))) mod (m + 1))%N.

(** ** Collections

    Ordered maps and sets of the standard library ([BTreeMap], [BTreeSet]) are
    stdpp's [gmap] and [gset]; their iteration order is recovered by sorting. *)

Class KeyOrd (K : Type) := key_le : relation K.
#[global] Instance string_key_ord : KeyOrd string := String.le.
#[global] Instance string_key_dec : RelDecision (key_le (K:=string)) := String.le_dec.

Section iteration.
Context {K : Type} `{!EqDecision K} `{!Countable K} `{!KeyOrd K} `{!RelDecision (key_le (K:=K))}.

Definition entry_le {V} : relation (K * V) := λ a b, key_le a.1 b.1.
#[local] Instance entry_le_dec {V} : RelDecision (entry_le (V:=V)) :=
  λ a b, decide (key_le a.1 b.1).

Definition bt_iter {V} (m : gmap K V) : list (K * V) :=
  merge_sort entry_le (map_to_list m).
Definition bt_keys {V} (m : gmap K V) : list K := (bt_iter m).*1.
Definition bt_values {V} (m : gmap K V) : list V := (bt_iter m).*2.
Definition bs_iter (s : gset K) : list K := merge_sort key_le (elements s).

Lemma bt_iter_perm {V} (m : gmap K V) : bt_iter m ≡ₚ map_to_list m.
Proof. apply merge_sort_Permutation. Qed.

Lemma elem_of_bt_iter {V} (m : gmap K V) k v : (k, v) ∈ bt_iter m ↔ m !! k = Some v.
Proof. by rewrite bt_iter_perm, elem_of_map_to_list. Qed.

Lemma elem_of_bt_keys {V} (m : gmap K V) k : k ∈ bt_keys m ↔ is_Some (m !! k).
Proof.
  unfold bt_keys. rewrite list_elem_of_fmap. split.
  - intros ([k' v] & -> & H%elem_of_bt_iter). by eexists.
  - intros [v H]. exists (k, v). by rewrite elem_of_bt_iter.
Qed.

Lemma elem_of_bt_values {V} (m : gmap K V) v : v ∈ bt_values m ↔ ∃ k, m !! k = Some v.
Proof.
  unfold bt_values. rewrite list_elem_of_fmap. split.
  - intros ([k v'] & -> & H%elem_of_bt_iter). by eexists.
  - intros [k H]. exists (k, v). by rewrite elem_of_bt_iter.
Qed.

Lemma length_bt_iter {V} (m : gmap K V) : length (bt_iter m) = size m.
Proof. by rewrite bt_iter_perm, length_map_to_list. Qed.

Lemma elem_of_bs_iter (s : gset K) k : k ∈ bs_iter s ↔ k ∈ s.
Proof. unfold bs_iter. by rewrite merge_sort_Permutation, elem_of_elements. Qed.
End iteration.

(** ** Stable sorting

    [slice::sort_by_key]: a stable sort, here by insertion, for a total preorder given as
    a boolean test. *)

Section stable_sort.
Context {A : Type} (leb : A → A → bool).

Fixpoint insert_sorted (x : A) (l : list A) : list A :=
  match l with
  | [] => [x]
  | y :: rest => if leb x y then x :: y :: rest else y :: insert_sorted x rest
  end.
Definition stable_sort (l : list A) : list A := foldr insert_sorted [] l.

Lemma insert_sorted_perm x l : insert_sorted x l ≡ₚ x :: l.
Proof.
  induction l as [|y l IH]; cbn; [done|]. case_match; [done|]. rewrite IH. apply Permutation_swap.
Qed.

Lemma stable_sort_perm l : stable_sort l ≡ₚ l.
Proof. induction l as [|x l IH]; cbn; [done|]. by rewrite insert_sorted_perm, IH. Qed.

Context (leb_total : ∀ x y, leb x y = true ∨ leb y x = true)
  (leb_trans : ∀ x y z, leb x y = true → leb y z = true → leb x z = true).

Lemma insert_sorted_sorted x l :
  StronglySorted (λ a b, leb a b = true) l → StronglySorted (λ a b, leb a b = true) (insert_sorted x l).
Proof.
  induction 1 as [|y l Hl IH Hy]; cbn; [repeat constructor|]. destruct (leb x y) eqn:E.
  - constructor; [by constructor|]. constructor; [done|]. eapply Forall_impl; [exact Hy|].
    intros z Hz. by eapply leb_trans.
  - constructor; [done|]. rewrite insert_sorted_perm. constructor; [|done].
    destruct (leb_total x y); congruence.
Qed.

Lemma stable_sort_sorted l : StronglySorted (λ a b, leb a b = true) (stable_sort l).
Proof. induction l as [|x l IH]; cbn; [constructor|by apply insert_sorted_sorted]. Qed.

(** Elements that compare equal keep their order. *)
Lemma insert_sorted_filter (P : A → bool) x l :
  (∀ a b, P a = true → P b = true → leb a b = true) →
  List.filter P (insert_sorted x l) = List.filter P (x :: l).
Proof.
  intros HP. induction l as [|y l IH]; cbn; [done|]. destruct (leb x y) eqn:E; [done|]. cbn.
  rewrite IH. cbn. destruct (P x) eqn:Px, (P y) eqn:Py; try done.
  rewrite (HP x y) in E by done. done.
Qed.

Lemma stable_sort_stable (P : A → bool) l :
  (∀ a b, P a = true → P b = true → leb a b = true) →
  List.filter P (stable_sort l) = List.filter P l.
Proof.
  intros HP. induction l as [|x l IH]; [done|].
  change (stable_sort (x :: l)) with (insert_sorted x (stable_sort l)).
  rewrite insert_sorted_filter by done. cbn [List.filter]. by rewrite IH.
Qed.

(** Sorting commutes with a selection. *)
Lemma insert_sorted_select (P : A → Prop) `{∀ x, Decision (P x)} x l :
  StronglySorted (λ a b, leb a b = true) l →
  filter P (insert_sorted x l) = if decide (P x) then insert_sorted x (filter P l) else filter P l.
Proof.
  induction 1 as [|y l Hl IH Hy]; cbn [insert_sorted]; [by rewrite filter_cons, filter_nil|].
  destruct (leb x y) eqn:E.
  - rewrite filter_cons. destruct (decide (P x)); [|done]. rewrite filter_cons.
    case_match; cbn [insert_sorted]; [by rewrite E|].
    assert (Forall (λ b, leb x b = true) (filter P l)) as HF.
    { apply Forall_forall. intros z [_ Hz]%list_elem_of_filter. rewrite Forall_forall in Hy.
      by eapply leb_trans; [|apply Hy]. }
    destruct (filter P l) as [|z k]; [done|]. apply Forall_cons in HF as [Hz _]. cbn. by rewrite Hz.
  - rewrite !filter_cons, IH. repeat case_match; cbn [insert_sorted]; by rewrite ?E.
Qed.
Lemma stable_sort_select (P : A → Prop) `{∀ x, Decision (P x)} l :
  stable_sort (filter P l) = filter P (stable_sort l).
Proof.
  induction l as [|x l IH]; [done|]. rewrite filter_cons. cbn [stable_sort foldr].
  change (foldr insert_sorted [] l) with (stable_sort l).
  rewrite insert_sorted_select by apply stable_sort_sorted. rewrite <- IH. by case_match.
Qed.
End stable_sort.

(** ** Inversion of successful computations *)

#[global] Instance Ok_inj {E A} : Inj (=) (=) (@Ok E A).
Proof. by intros ?? [= ->]. Qed.

Lemma bind_Ok {E A B} (c : result E A) (k : A → result E B) b :
  (x ← c; k x) = Ok b ↔ ∃ a, c = Ok a ∧ k a = Ok b.
Proof. destruct c; cbn; naive_solver. Qed.

Lemma bind_Err {E A B} (c : result E A) (k : A → result E B) e :
  (x ← c; k x) = Err e ↔ c = Err e ∨ ∃ a, c = Ok a ∧ k a = Err e.
Proof. destruct c; cbn; naive_solver. Qed.

(** A check followed by the rest. *)
Lemma check_Ok {E B} (c : result E unit) (k : result E B) b :
  (_ ← c; k) = Ok b ↔ c = Ok () ∧ k = Ok b.
Proof. destruct c as [[]|]; cbn; naive_solver. Qed.

Lemma map_err_Ok {E F A} (f : E → F) (r : result E A) a : map_err f r = Ok a ↔ r = Ok a.
Proof. destruct r; cbn; naive_solver. Qed.

Lemma ok_or_Ok {E A} (e : E) (o : option A) a : ok_or e o = Ok a ↔ o = Some a.
Proof. destruct o; cbn; naive_solver. Qed.

Lemma is_ok_true {E A} (r : result E A) : is_ok r = true ↔ ∃ a, r = Ok a.
Proof. destruct r; cbn; naive_solver. Qed.

(** The value of a successful computation, for examples. *)
Definition ok_value {E A} (d : A) (r : result E A) : A := match r with Ok a => a | Err _ => d end.

Lemma ok_value_eq {E A} (d : A) (r : result E A) : is_ok r = true → r = Ok (ok_value d r).
Proof. by destruct r. Qed.

(** Decompose every hypothesis that says a monadic computation succeeded. *)
Ltac inv_ok :=
  repeat match goal with
  | H : mbind _ _ = Ok _ |- _ => apply bind_Ok in H; destruct H as (? & ? & ?)
  | H : map_err _ _ = Ok _ |- _ => apply map_err_Ok in H
  | H : ok_or _ _ = Ok _ |- _ => apply ok_or_Ok in H
  | H : Err _ = Ok _ |- _ => discriminate H
  | H : Ok _ = Ok _ |- _ => injection H as H
  | x : unit |- _ => destruct x
  end.

(** A loop preserves what each of its steps preserves. *)
Lemma for_each_inv {E S A} (P : S → Prop) (f : S → A → result E S) l s s' :
  (∀ s x s', x ∈ l → P s → f s x = Ok s' → P s') →
  P s → for_each f s l = Ok s' → P s'.
Proof.
  revert s. induction l as [|x l IH]; cbn; intros s Hf Hs H; inv_ok; [by subst|].
  apply (IH x0); [|eapply Hf; eauto; left|done].
  intros. eapply Hf; eauto. by right.
Qed.

(** A failing loop fails in one of its steps, from a state that keeps the invariant. *)
Lemma for_each_Err {E S A} (P : S → Prop) (f : S → A → result E S) l s e :
  (∀ s x s', x ∈ l → P s → f s x = Ok s' → P s') →
  P s → for_each f s l = Err e → ∃ s' x, P s' ∧ x ∈ l ∧ f s' x = Err e.
Proof.
  revert s. induction l as [|x l IH]; intros s Hf Hs H; [done|].
  apply bind_Err in H as [H|(s1 & H1 & H)].
  { exists s, x. split_and!; [done|left|done]. }
  apply IH in H as (s' & y & ? & ? & ?).
  - exists s', y. split_and!; [done|by right|done].
  - intros. eapply Hf; eauto. by right.
  - eapply Hf; eauto. left.
Qed.

Lemma for_each_app {E S A} (f : S → A → result E S) l1 l2 s :
  for_each f s (l1 ++ l2) = (s' ← for_each f s l1; for_each f s' l2).
Proof. revert s. induction l1 as [|x l1 IH]; cbn; intros s; [done|]. by destruct (f s x); cbn. Qed.

(** A loop over checks succeeds exactly when every check does. *)
Definition check_all {E A} (f : A → result E unit) (l : list A) : result E unit :=
  for_each (λ _ x, f x) () l.

Lemma check_all_Ok {E A} (f : A → result E unit) l :
  check_all f l = Ok () ↔ ∀ x, x ∈ l → f x = Ok ().
Proof.
  unfold check_all. induction l as [|x l IH]; cbn.
  { split; [intros _ x; by rewrite elem_of_nil|done]. }
  rewrite bind_Ok. split.
  - intros ([] & Hx & Hl) y [->|Hy]%elem_of_cons; [done|]. by apply IH.
  - intros H. exists (). split; [apply H; left|]. apply IH. intros y Hy. apply H. by right.
Qed.

Lemma check_all_Err {E A} (f : A → result E unit) l e :
  check_all f l = Err e → ∃ x, x ∈ l ∧ f x = Err e.
Proof.
  intros (_ & x & _ & Hx & He)%(for_each_Err (λ _, True)); [by exists x|done|done].
Qed.

(** ** Lists *)

Lemma forallb_Forall {A} (f : A → bool) l : forallb f l = true ↔ Forall (λ x, f x = true) l.
Proof. induction l as [|x l IH]; cbn; [done|]. by rewrite andb_true_iff, IH, Forall_cons. Qed.

Lemma Forall2_trans_at {A} (P : A → Prop) (R S T : A → A → Prop) l k m :
  (∀ x y z, P y → R x y → S y z → T x z) → Forall P k → Forall2 R l k → Forall2 S k m → Forall2 T l m.
Proof.
  intros H Hk Hl. revert m. induction Hl as [|x y l k Hxy _ IH]; intros m Hm.
  - by apply Forall2_nil_inv_l in Hm as ->.
  - apply Forall2_cons_inv_l in Hm as (z & m' & Hz & Hm & ->). apply Forall_cons in Hk as [Hy Hk].
    constructor; eauto.
Qed.

Lemma Forall2_elem_r {A B} (P : A → B → Prop) l k : Forall2 P l k → Forall2 (λ x y, P x y ∧ y ∈ k) l k.
Proof.
  induction 1 as [|x y l k Hxy _ IH]; constructor; [split; [done|left]|].
  eapply Forall2_impl; [exact IH|]. intros ? ? [? ?]. split; [done|by right].
Qed.

Lemma NoDup_fmap_elem {A B} (f : A → B) l x y : NoDup (f <$> l) → x ∈ l → y ∈ l → f x = f y → x = y.
Proof.
  induction l as [|z l IH]; [by intros _ ?%not_elem_of_nil|].
  rewrite fmap_cons. intros [Hz Hl]%NoDup_cons [->|Hx]%elem_of_cons [->|Hy]%elem_of_cons E; auto.
  - destruct Hz. rewrite E. by apply list_elem_of_fmap_2.
  - destruct Hz. rewrite <- E. by apply list_elem_of_fmap_2.
Qed.

Lemma filter_all {A} (P : A → Prop) `{∀ x, Decision (P x)} l : Forall P l → filter P l = l.
Proof. induction 1 as [|x l Hx _ IH]; [done|]. by rewrite filter_cons_True, IH. Qed.

Lemma stable_sort_ext {A} (leb leb' : A → A → bool) l :
  (∀ a b, leb a b = leb' a b) → stable_sort leb l = stable_sort leb' l.
Proof.
  intros H. unfold stable_sort. induction l as [|x l IH]; cbn; [done|]. rewrite IH. clear IH.
  induction (foldr _ _ l) as [|y k IH]; cbn; [done|]. by rewrite H, IH.
Qed.
(** The greatest element goes last. *)
Lemma stable_sort_snoc {A} (leb : A → A → bool) l x :
  Forall (λ a, leb a x = true) l → stable_sort leb (l ++ [x]) = stable_sort leb l ++ [x].
Proof.
  unfold stable_sort. induction 1 as [|a l Ha _ IH]; [done|]. cbn. rewrite IH. clear IH.
  induction (foldr _ _ l) as [|y k IH]; cbn; [by rewrite Ha|]. case_match; [done|]. by rewrite IH.
Qed.
(** Sorting commutes with a map the order does not see. *)
Lemma insert_sorted_fmap {A B} (f : A → B) leb x l :
  insert_sorted leb (f x) (f <$> l) = f <$> insert_sorted (λ a b, leb (f a) (f b)) x l.
Proof. induction l as [|y l IH]; cbn; [done|]. case_match; cbn; [done|]. by rewrite <- IH. Qed.
Lemma stable_sort_fmap {A B} (f : A → B) leb l :
  stable_sort leb (f <$> l) = f <$> stable_sort (λ a b, leb (f a) (f b)) l.
Proof.
  induction l as [|x l IH]; [done|]. cbn [fmap list_fmap stable_sort foldr].
  unfold stable_sort in *. rewrite IH. apply insert_sorted_fmap.
Qed.

(** ** Booleans *)

Create HintDb fabric.
Create Rewrite HintDb fabric_bool.
#[export] Hint Rewrite andb_true_iff orb_true_iff negb_true_iff andb_false_iff orb_false_iff
  negb_false_iff bool_decide_eq_true bool_decide_eq_false
  N.eqb_eq N.ltb_lt N.leb_le N.eqb_neq N.ltb_ge N.leb_gt
  Z.eqb_eq Z.ltb_lt Z.leb_le Z.eqb_neq Z.ltb_ge Z.leb_gt : fabric_bool.

(** Turn boolean tests of the code into propositions, in hypotheses and goal. *)
Ltac bool_prop := autorewrite with fabric_bool in *.

(** ** Sums over the members of a system

    Threads that share a counter are a list; a step replaces one of them. *)

Fixpoint total {A} (f : A → N) (l : list A) : N :=
  match l with [] => 0 | x :: rest => f x + total f rest end.

Lemma total_insert {A} (f : A → N) l i x x' :
  l !! i = Some x → (total f (<[i := x']> l) + f x = total f l + f x')%N.
Proof.
  revert i. induction l as [|y l IH]; intros [|i] H; [done|done| |].
  - injection H as ->. change (<[0 := x']> (x :: l)) with (x' :: l). cbn [total]. lia.
  - change (<[S i := x']> (y :: l)) with (y :: <[i := x']> l). cbn [total].
    specialize (IH i H). lia.
Qed.

Lemma total_le {A} (f g : A → N) l : (∀ x, f x <= g x)%N → (total f l <= total g l)%N.
Proof. intros H. induction l as [|x l IH]; cbn; [lia|]. specialize (H x). lia. Qed.

Lemma total_app {A} (f : A → N) l1 l2 : total f (l1 ++ l2) = (total f l1 + total f l2)%N.
Proof. induction l1 as [|x l1 IH]; cbn; [done|]. rewrite IH. lia. Qed.

Lemma total_lookup {A} (f : A → N) l i x : l !! i = Some x → (f x <= total f l)%N.
Proof.
  revert i. induction l as [|y l IH]; intros [|i] H; [done|done| |].
  - injection H as ->. cbn. lia.
  - cbn. specialize (IH i H). lia.
Qed.

Lemma total_fmap {A B} (f : B → N) (g : A → B) l :
  total f (g <$> l) = total (λ x, f (g x)) l.
Proof. induction l; cbn; [done|]. by rewrite IHl. Qed.

Lemma total_perm {A} (f : A → N) l1 l2 : l1 ≡ₚ l2 → total f l1 = total f l2.
Proof. induction 1; cbn; lia. Qed.

Lemma total_bind {A B} (f : B → N) (g : A → list B) l :
  total f (l ≫= g) = total (λ x, total f (g x)) l.
Proof. induction l as [|x l IH]; [done|]. rewrite bind_cons, total_app, IH. done. Qed.

Lemma total_ext {A} (f g : A → N) l : (∀ x, f x = g x) → total f l = total g l.
Proof. intros H. induction l as [|x l IH]; cbn; [done|]. by rewrite H, IH. Qed.

(** ** Reachability *)

(** A predicate that holds initially and is kept by every step holds of every
    reachable state. *)
Lemma rtc_invariant {A} (R : relation A) (P : A → Prop) x y :
  (∀ a b, P a → R a b → P b) → P x → rtc R x y → P y.
Proof. intros HR Hx H. induction H; eauto. Qed.

(** ** Machine-integer lemmas *)

Lemma sat_add_le m a b : (sat_add m a b <= m)%N.
Proof. unfold sat_add. lia. Qed.

Lemma checked_add_Some m a b c : checked_add m a b = Some c ↔ (c = a + b ∧ c <= m)%N.
Proof. unfold checked_add. case_match; bool_prop; naive_solver lia. Qed.

Lemma checked_mul_Some m a b c : checked_mul m a b = Some c ↔ (c = a * b ∧ c <= m)%N.
Proof. unfold checked_mul. case_match; bool_prop; naive_solver lia. Qed.

Lemma wrap_add_small m a b : (a + b <= m)%N → wrap_add m a b = (a + b)%N.
Proof. intros. unfold wrap_add. apply N.mod_small. lia. Qed.

Lemma wrap_sub_small m a b : (b <= a)%N → (a <= m)%N → wrap_sub m a b = (a - b)%N.
Proof.
  intros. unfold wrap_sub. rewrite (N.mod_small b) by lia.
  replace (a + (m + 1 - b))%N with ((a - b) + 1 * (m + 1))%N by lia.
  rewrite N.Div0.mod_add, N.mod_small; lia.
Qed.
#[export] Hint Resolve sat_add_le : fabric.
