(* ===== verification/RustStr.v ===== *)
(** * Rust strings

    A Rust [str] is its UTF-8 bytes: [string], one [ascii] per byte.  This file
    gives the standard-library operations the components use ([trim], [split],
    [starts_with], [to_ascii_lowercase], [parse], ...) on that representation. *)

From S2P Require Import Prelude.
From Stdlib Require Import Ascii.


(** ** Bytes *)

Definition byte (c : ascii) : N := N_of_ascii c.
Definition in_range (lo hi n : N) : bool := (lo <=? n)%N && (n <=? hi)%N.

Definition is_ascii_digit (c : ascii) : bool := in_range 48 57 (byte c).
Definition is_ascii_uppercase (c : ascii) : bool := in_range 65 90 (byte c).
Definition is_ascii_lowercase (c : ascii) : bool := in_range 97 122 (byte c).
Definition is_ascii_alphabetic (c : ascii) : bool := is_ascii_uppercase c || is_ascii_lowercase c.
Definition is_ascii_alphanumeric (c : ascii) : bool := is_ascii_alphabetic c || is_ascii_digit c.
Definition ascii_lower (c : ascii) : ascii :=
  if is_ascii_uppercase c then ascii_of_N (byte c + 32) else c.

Definition bytes (s : string) : list ascii := String.list_ascii_of_string s.
Definition of_bytes (l : list ascii) : string := String.string_of_list_ascii l.

(** ** Basic observations *)

Definition slen (s : string) : N := N.of_nat (String.length s).
Definition is_empty (s : string) : bool := match s with EmptyString => true | _ => false end.
Definition starts_with (s p : string) : bool := String.prefix p s.
Definition strip_prefix (p s : string) : option string :=
  if String.prefix p s
  then Some (String.substring (String.length p) (String.length s - String.length p) s)
  else None.
Definition ends_with (s p : string) : bool :=
  (String.length p <=? String.length s)%nat &&
  bool_decide (String.substring (String.length s - String.length p) (String.length p) s = p).

Fixpoint contains (s p : string) : bool :=
  String.prefix p s || match s with EmptyString => false | String _ s' => contains s' p end.
Definition contains_byte (s : string) (c : ascii) : bool := existsb (Ascii.eqb c) (bytes s).

(** ** Case *)

Definition to_ascii_lowercase (s : string) : string := of_bytes (ascii_lower <$> bytes s).
Definition eq_ignore_ascii_case (a b : string) : bool :=
  bool_decide (to_ascii_lowercase a = to_ascii_lowercase b).

(** ** Splitting *)

Fixpoint split (c : ascii) (s : string) : list string :=
  match s with
  | EmptyString => [""]
  | String a s' =>
      if Ascii.eqb a c then "" :: split c s'
      else match split c s' with
           | [] => [String a ""]
           | p :: ps => String a p :: ps
           end
  end.

Fixpoint split_once (c : ascii) (s : string) : option (string * string) :=
  match s with
  | EmptyString => None
  | String a s' =>
      if Ascii.eqb a c then Some ("", s')
      else match split_once c s' with
           | Some (l, r) => Some (String a l, r)
           | None => None
           end
  end.

(** [str::rsplit_once]: at the last occurrence. *)
Fixpoint rsplit_once (c : ascii) (s : string) : option (string * string) :=
  match s with
  | EmptyString => None
  | String a s' =>
      match rsplit_once c s' with
      | Some (l, r) => Some (String a l, r)
      | None => if Ascii.eqb a c then Some ("", s') else None
      end
  end.

(** [str::split] on any of several bytes. *)
Fixpoint split_any (cs : list ascii) (s : string) : list string :=
  match s with
  | EmptyString => [""]
  | String a s' =>
      if existsb (Ascii.eqb a) cs then "" :: split_any cs s'
      else match split_any cs s' with
           | [] => [String a ""]
           | p :: ps => String a p :: ps
           end
  end.

(** ** Whitespace and control characters

    [char::is_whitespace] is Unicode's White_Space, [char::is_control] is the
    category Cc; both are read off the UTF-8 bytes. *)

Definition ws1 (a : ascii) : bool := in_range 9 13 (byte a) || (byte a =? 32)%N.
Definition ws2 (a b : ascii) : bool :=
  (byte a =? 194)%N && ((byte b =? 133)%N || (byte b =? 160)%N).
Definition ws3 (a b c : ascii) : bool :=
  (byte a =? 225)%N && (byte b =? 154)%N && (byte c =? 128)%N
  || (byte a =? 226)%N && (byte b =? 128)%N &&
     (in_range 128 138 (byte c) || (byte c =? 168)%N || (byte c =? 169)%N || (byte c =? 175)%N)
  || (byte a =? 226)%N && (byte b =? 129)%N && (byte c =? 159)%N
  || (byte a =? 227)%N && (byte b =? 128)%N && (byte c =? 128)%N.

(** Drop leading characters recognised by their one, two or three bytes. *)
Fixpoint drop_chars (w1 : ascii → bool) (w2 : ascii → ascii → bool)
    (w3 : ascii → ascii → ascii → bool) (l : list ascii) : list ascii :=
  match l with
  | a :: l1 =>
      if w1 a then drop_chars w1 w2 w3 l1 else
      match l1 with
      | b :: l2 =>
          if w2 a b then drop_chars w1 w2 w3 l2 else
          match l2 with
          | c :: l3 => if w3 a b c then drop_chars w1 w2 w3 l3 else l
          | [] => l
          end
      | [] => l
      end
  | [] => []
  end.

Definition trim (s : string) : string :=
  of_bytes (rev (drop_chars ws1 (λ a b, ws2 b a) (λ a b c, ws3 c b a)
    (rev (drop_chars ws1 ws2 ws3 (bytes s))))).

(** [value.trim().is_empty()]. *)
Definition blank (s : string) : bool := is_empty (trim s).

Fixpoint has_control (l : list ascii) : bool :=
  match l with
  | [] => false
  | a :: l1 =>
      (byte a <? 32)%N || (byte a =? 127)%N
      || (byte a =? 194)%N && match l1 with b :: _ => in_range 128 159 (byte b) | [] => false end
      || has_control l1
  end.

(** ** Decimal numbers *)

Fixpoint digits_value (acc : N) (l : list ascii) : option N :=
  match l with
  | [] => Some acc
  | a :: l' => if is_ascii_digit a then digits_value (acc * 10 + (byte a - 48)) l' else None
  end.

(** [str::parse] at an unsigned width with largest value [m]: an optional plus
    sign, at least one digit, no overflow. *)
Definition parse_uint (m : N) (s : string) : option N :=
  let ds := match bytes s with a :: l => if (byte a =? 43)%N then l else a :: l | [] => [] end in
  match ds with
  | [] => None
  | _ => n ← digits_value 0 ds; if (n <=? m)%N then Some n else None
  end.

(** [format!] with a number: plain, and zero-padded to a width. *)
Definition dec (n : N) : string := pretty n.
Fixpoint zeros (n : nat) : string := match n with O => "" | S n' => String "0" (zeros n') end.
Definition dec0 (width : nat) (n : N) : string :=
  zeros (width - String.length (dec n)) +:+ dec n.

(** [Vec<String>::join]. *)
Definition join (sep : string) (l : list string) : string := String.concat sep l.

(** [trim_end_matches] with a character. *)
Fixpoint drop_byte (c : ascii) (l : list ascii) : list ascii :=
  match l with a :: l' => if Ascii.eqb a c then drop_byte c l' else l | [] => [] end.
Definition trim_end_byte (c : ascii) (s : string) : string :=
  of_bytes (rev (drop_byte c (rev (bytes s)))).

(** The hexadecimal SHA-256 digest of the [sha2] and [hex] crates. *)
Class Sha256 := sha256_hex : list ascii → string.
(** Two different byte strings with one digest. *)
Definition sha256_collision {sha : Sha256} : Prop :=
  ∃ x y : list ascii, x ≠ y ∧ sha256_hex x = sha256_hex y.

(** ** Digits

    [char::to_digit], and the upper-case hexadecimal digit of a number below 16. *)

Definition digit_value (radix : N) (c : ascii) : option N :=
  let n := byte c in
  let v := if is_ascii_digit c then Some (n - 48)%N
           else if is_ascii_lowercase c then Some (n - 87)%N
           else if is_ascii_uppercase c then Some (n - 55)%N else None in
  match v with Some d => if (d <? radix)%N then Some d else None | None => None end.
Definition hex_upper (n : N) : ascii := ascii_of_N (if (n <? 10)%N then 48 + n else 55 + n).

(** ** Machine words as bytes

    [to_le_bytes] of a word of [n] bytes and [from_le_bytes]; the big endian
    forms are their reversals. *)

Fixpoint le_bytes (n : nat) (v : N) : list ascii :=
  match n with
  | O => []
  | S n' => ascii_of_N (v mod 256) :: le_bytes n' (v / 256)
  end.
Fixpoint le_value (l : list ascii) : N :=
  match l with [] => 0 | a :: l' => byte a + 256 * le_value l' end.

Definition be_bytes (n : nat) (v : N) : list ascii := rev (le_bytes n v).
Definition be_value (l : list ascii) : N := le_value (rev l).

(** ** UTF-8

    [std::str::from_utf8]: the well-formed byte sequences of the Unicode standard. *)

Definition is_cont (c : ascii) : bool := in_range 128 191 (byte c).

(** The second byte allowed after a first byte of three or four. *)
Definition second_of_3 (a b : N) : bool :=
  (a =? 224)%N && in_range 160 191 b || in_range 225 236 a && in_range 128 191 b
  || (a =? 237)%N && in_range 128 159 b || in_range 238 239 a && in_range 128 191 b.
Definition second_of_4 (a b : N) : bool :=
  (a =? 240)%N && in_range 144 191 b || in_range 241 243 a && in_range 128 191 b
  || (a =? 244)%N && in_range 128 143 b.

Fixpoint utf8_valid (l : list ascii) : bool :=
  match l with
  | [] => true
  | a :: l1 =>
      if (byte a <? 128)%N then utf8_valid l1 else
      match l1 with
      | [] => false
      | b :: l2 =>
          if in_range 194 223 (byte a) then is_cont b && utf8_valid l2 else
          match l2 with
          | [] => false
          | c :: l3 =>
              if second_of_3 (byte a) (byte b) then is_cont c && utf8_valid l3 else
              match l3 with
              | [] => false
              | d :: l4 => second_of_4 (byte a) (byte b) && is_cont c && is_cont d && utf8_valid l4
              end
          end
      end
  end.

(** [String::from_utf8_lossy]: each maximal part of an ill-formed sequence becomes the
    replacement character. *)
Definition replacement : list ascii := ascii_of_N <$> [239; 191; 189]%N.
Fixpoint from_utf8_lossy (l : list ascii) : list ascii :=
  match l with
  | [] => []
  | a :: l1 =>
      if (byte a <? 128)%N then a :: from_utf8_lossy l1 else
      match l1 with
      | [] => replacement
      | b :: l2 =>
          if in_range 194 223 (byte a) then
            if is_cont b then a :: b :: from_utf8_lossy l2
            else replacement ++ from_utf8_lossy l1
          else
          if second_of_3 (byte a) (byte b) then
            match l2 with
            | [] => replacement
            | c :: l3 =>
                if is_cont c then a :: b :: c :: from_utf8_lossy l3
                else replacement ++ from_utf8_lossy l2
            end
          else
          if second_of_4 (byte a) (byte b) then
            match l2 with
            | [] => replacement
            | c :: l3 =>
                if is_cont c then
                  match l3 with
                  | [] => replacement
                  | d :: l4 =>
                      if is_cont d then a :: b :: c :: d :: from_utf8_lossy l4
                      else replacement ++ from_utf8_lossy l3
                  end
                else replacement ++ from_utf8_lossy l2
            end
          else replacement ++ from_utf8_lossy l1
      end
  end.

(** [str::replace] of two bytes by one. *)
Fixpoint replace_pair (a b c : ascii) (l : list ascii) : list ascii :=
  match l with
  | x :: (y :: rest) as more =>
      if Ascii.eqb x a && Ascii.eqb y b then c :: replace_pair a b c rest
      else x :: replace_pair a b c more
  | _ => l
  end.

(** ** Lemmas *)

Lemma bytes_of_bytes l : bytes (of_bytes l) = l.
Proof. apply String.list_ascii_of_string_of_list_ascii. Qed.

Lemma of_bytes_bytes s : of_bytes (bytes s) = s.
Proof. apply String.string_of_list_ascii_of_string. Qed.

Lemma length_bytes s : N.of_nat (length (bytes s)) = slen s.
Proof.
  unfold slen, bytes. f_equal. induction s as [|a s IH]; [done|]. simpl. by rewrite IH.
Qed.

Lemma prefix_app p s : String.prefix p s = true ↔ ∃ t, s = p +:+ t.
Proof.
  revert s. induction p as [|a p IH]; intros s; cbn.
  { destruct s; split; eauto. }
  destruct s as [|b s]; cbn.
  { split; [done|]. intros [t Ht]. done. }
  destruct (ascii_dec a b) as [->|Hne].
  - rewrite IH. split; intros [t Ht]; exists t; [by rewrite Ht|by injection Ht].
  - split; [done|]. intros [t Ht]. by injection Ht.
Qed.

Lemma starts_with_app s p : starts_with s p = true ↔ ∃ t, s = p +:+ t.
Proof. apply prefix_app. Qed.

Lemma length_sapp s t : String.length (s +:+ t) = (String.length s + String.length t)%nat.
Proof. induction s as [|a s IH]; [done|]. change (S (String.length (s +:+ t)) = S (String.length s + String.length t)). by rewrite IH. Qed.

(** Two prefixes of one string with equal lengths are equal. *)
Lemma prefix_same_length p q s :
  starts_with s p = true → starts_with s q = true →
  String.length p = String.length q → p = q.
Proof.
  intros (t & ->)%starts_with_app (u & Hu)%starts_with_app Hlen.
  revert q Hu Hlen. induction p as [|a p IH]; intros [|b q] Hu Hlen; cbn in *; try lia; [done|].
  injection Hu as -> Hu. f_equal. apply (IH q); [done|lia].
Qed.

Lemma is_empty_true s : is_empty s = true ↔ s = "".
Proof. destruct s; cbn; naive_solver. Qed.

Lemma is_empty_false s : is_empty s = false ↔ s ≠ "".
Proof. destruct s; cbn; naive_solver. Qed.
#[export] Hint Rewrite is_empty_true is_empty_false : fabric_bool.

(** Concatenating the pieces of a split with the separator gives the string back. *)
Lemma split_nonempty c s : split c s ≠ [].
Proof. destruct s as [|a s]; cbn; [done|]. case_match; [done|]. by case_match. Qed.

Lemma concat_split c s : String.concat (String c "") (split c s) = s.
Proof.
  induction s as [|a s IH]; cbn; [done|].
  destruct (Ascii.eqb_spec a c) as [->|Hne].
  - pose proof (split_nonempty c s). cbn. destruct (split c s) eqn:E; [done|].
    rewrite IH. done.
  - pose proof (split_nonempty c s). destruct (split c s) as [|p ps] eqn:E; [done|].
    cbn in *. destruct ps; cbn in *; by rewrite <- IH.
Qed.

(** Pieces never contain the separator. *)
Lemma split_pieces c s p : p ∈ split c s → contains_byte p c = false.
Proof.
  unfold contains_byte, bytes. revert p. induction s as [|a s IH]; cbn; intros p.
  { by intros ->%list_elem_of_singleton. }
  destruct (Ascii.eqb_spec a c) as [->|Hne].
  { intros [->|Hp]%elem_of_cons; [done|]. by apply IH. }
  pose proof (split_nonempty c s). destruct (split c s) as [|q qs] eqn:E; [done|].
  intros [->|Hp]%elem_of_cons.
  - cbn. rewrite (IH q) by left. destruct (Ascii.eqb_spec c a); [congruence|done].
  - apply IH. by right.
Qed.

(** Splitting undoes joining pieces that do not contain the separator. *)
Lemma split_single c s : contains_byte s c = false → split c s = [s].
Proof.
  unfold contains_byte, bytes. induction s as [|a s IH]; cbn; [done|].
  rewrite Ascii.eqb_sym. intros [-> Hs]%orb_false_iff. by rewrite IH.
Qed.

Lemma sapp_cons a s t : String a s +:+ t = String a (s +:+ t).
Proof. done. Qed.

Lemma split_app_sep c a b : split c (a +:+ String c b) = split c a ++ split c b.
Proof.
  induction a as [|x a IH]; [|rewrite sapp_cons]; cbn.
  { change ("" +:+ String c b) with (String c b). cbn. destruct (Ascii.eqb_spec c c); done. }
  destruct (Ascii.eqb x c); rewrite IH; [done|].
  pose proof (split_nonempty c a). by destruct (split c a).
Qed.

Lemma split_join c l :
  l ≠ [] → Forall (λ p, contains_byte p c = false) l → split c (join (String c "") l) = l.
Proof.
  intros Hne Hl. induction Hl as [|p l Hp Hl IH]; [done|]. destruct l as [|q l].
  - by apply split_single.
  - change (join (String c "") (p :: q :: l)) with (p +:+ String c (join (String c "") (q :: l))).
    rewrite split_app_sep, split_single by done. by rewrite IH.
Qed.

Lemma join_app c l1 l2 :
  l1 ≠ [] → l2 ≠ [] →
  join (String c "") (l1 ++ l2) = join (String c "") l1 +:+ String c (join (String c "") l2).
Proof.
  intros H1 H2. induction l1 as [|x l1 IH]; [done|]. destruct l1 as [|y l1].
  - cbn [app]. by destruct l2.
  - change (join (String c "") ((x :: y :: l1) ++ l2))
      with (x +:+ String c (join (String c "") ((y :: l1) ++ l2))).
    rewrite IH by done.
    change (join (String c "") (x :: y :: l1)) with (x +:+ String c (join (String c "") (y :: l1))).
    generalize (join (String c "") (y :: l1)), (join (String c "") l2). intros u v. clear.
    induction x as [|a x IH]; [done|]. rewrite !sapp_cons. by f_equal.
Qed.

(** Case folding keeps the separators, so it commutes with splitting. *)
Lemma ascii_lower_idem c : ascii_lower (ascii_lower c) = ascii_lower c.
Proof. by destruct c as [[] [] [] [] [] [] [] []]. Qed.

Lemma to_ascii_lowercase_cons a s :
  to_ascii_lowercase (String a s) = String (ascii_lower a) (to_ascii_lowercase s).
Proof. done. Qed.

Lemma to_ascii_lowercase_idem s : to_ascii_lowercase (to_ascii_lowercase s) = to_ascii_lowercase s.
Proof.
  induction s as [|a s IH]; [done|]. by rewrite !to_ascii_lowercase_cons, IH, ascii_lower_idem.
Qed.

Lemma ascii_lower_slash a : Ascii.eqb (ascii_lower a) "/" = Ascii.eqb a "/".
Proof. by destruct a as [[] [] [] [] [] [] [] []]. Qed.

Lemma split_lowercase s :
  split "/" (to_ascii_lowercase s) = to_ascii_lowercase <$> split "/" s.
Proof.
  induction s as [|a s IH]; [done|]. rewrite to_ascii_lowercase_cons. cbn [split].
  rewrite ascii_lower_slash, IH. destruct (Ascii.eqb a "/"); [done|].
  by destruct (split "/" s).
Qed.

Lemma slen_app s t : slen (s +:+ t) = (slen s + slen t)%N.
Proof. unfold slen. rewrite length_sapp. lia. Qed.

Lemma slen_String c s : slen (String c s) = (1 + slen s)%N.
Proof. unfold slen. cbn. lia. Qed.

Lemma bytes_app s t : bytes (s +:+ t) = bytes s ++ bytes t.
Proof. unfold bytes. induction s; [done|]. rewrite sapp_cons. cbn. congruence. Qed.

Lemma digit_value_hex_upper n : (n < 16)%N → digit_value 16 (hex_upper n) = Some n.
Proof.
  intros H. assert (Forall (λ n, digit_value 16 (hex_upper n) = Some n) (N.of_nat <$> seq 0 16))
    as HF by (repeat constructor).
  rewrite Forall_forall in HF. apply HF, list_elem_of_fmap. exists (N.to_nat n).
  rewrite elem_of_seq. lia.
Qed.

(** ** Words and bytes *)

Lemma length_le_bytes n v : length (le_bytes n v) = n.
Proof. revert v. induction n; intros v; cbn; auto. Qed.

Lemma byte_lt c : (byte c < 256)%N.
Proof. apply N_ascii_bounded. Qed.

Lemma byte_ascii n : (n < 256)%N → byte (ascii_of_N n) = n.
Proof. apply N_ascii_embedding. Qed.

Lemma ascii_byte c : ascii_of_N (byte c) = c.
Proof. apply ascii_N_embedding. Qed.

Lemma le_value_bytes n v : (v < 256 ^ N.of_nat n)%N → le_value (le_bytes n v) = v.
Proof.
  revert v. induction n as [|n IH]; intros v Hv; [cbn in *; lia|].
  rewrite Nat2N.inj_succ, N.pow_succ_r' in Hv. cbn [le_bytes le_value].
  rewrite byte_ascii by (apply N.mod_lt; lia).
  rewrite IH by (apply N.Div0.div_lt_upper_bound; lia).
  rewrite N.add_comm. symmetry. apply N.Div0.div_mod.
Qed.

Lemma le_bytes_value l : le_bytes (length l) (le_value l) = l.
Proof.
  induction l as [|a l IH]; [done|]. cbn [length le_bytes le_value].
  pose proof (byte_lt a).
  assert (Hm : ((byte a + 256 * le_value l) mod 256 = byte a)%N)
    by (rewrite N.mul_comm, N.Div0.mod_add; by apply N.mod_small).
  assert (Hd : ((byte a + 256 * le_value l) / 256 = le_value l)%N)
    by (rewrite N.mul_comm, N.div_add by lia; rewrite N.div_small by lia; lia).
  by rewrite Hm, Hd, IH, ascii_byte.
Qed.

Lemma le_value_lt l : (le_value l < 256 ^ N.of_nat (length l))%N.
Proof.
  induction l as [|a l IH]; [cbn; lia|]. cbn [length le_value].
  rewrite Nat2N.inj_succ, N.pow_succ_r'. pose proof (byte_lt a). lia.
Qed.

Lemma le_bytes_inj n v w :
  (v < 256 ^ N.of_nat n)%N → (w < 256 ^ N.of_nat n)%N → le_bytes n v = le_bytes n w → v = w.
Proof.
  intros Hv Hw H. by rewrite <- (le_value_bytes n v Hv), H, le_value_bytes.
Qed.

(** ** Splitting at the last separator *)

Lemma contains_byte_app s t c : contains_byte (s +:+ t) c = contains_byte s c || contains_byte t c.
Proof. unfold contains_byte. by rewrite bytes_app, existsb_app. Qed.

Lemma contains_byte_cons a s c : contains_byte (String a s) c = Ascii.eqb c a || contains_byte s c.
Proof. done. Qed.

Lemma rsplit_once_None c s : rsplit_once c s = None ↔ contains_byte s c = false.
Proof.
  induction s as [|a s IH]; [done|]. rewrite contains_byte_cons. cbn [rsplit_once].
  destruct (rsplit_once c s) as [[l r]|].
  - split; [done|]. intros [_ H]%orb_false_iff. by apply IH in H.
  - rewrite (Ascii.eqb_sym c a). destruct (Ascii.eqb a c); cbn; [naive_solver|tauto].
Qed.

Lemma rsplit_once_Some c s l r :
  rsplit_once c s = Some (l, r) ↔ s = l +:+ String c r ∧ contains_byte r c = false.
Proof.
  revert l r. induction s as [|a s IH]; intros l r; cbn [rsplit_once].
  { split; [done|]. intros [H _]. by destruct l. }
  destruct (rsplit_once c s) as [[l' r']|] eqn:E.
  - destruct (proj1 (IH l' r') eq_refl) as [-> Hr']. split.
    + by intros [= <- <-].
    + intros [H Hr]. destruct l as [|b l]; [injection H as -> <-|injection H as -> H].
      * rewrite contains_byte_app, contains_byte_cons, Ascii.eqb_refl, orb_true_r in Hr. done.
      * apply (conj H), IH in Hr. congruence.
  - apply rsplit_once_None in E. destruct (Ascii.eqb_spec a c) as [->|Hne].
    + split; [by intros [= <- <-]|]. intros [H Hr]. destruct l as [|b l].
      * by injection H as ->.
      * injection H as -> ->. rewrite contains_byte_app, contains_byte_cons, Ascii.eqb_refl in E.
        by rewrite orb_true_r in E.
    + split; [done|]. intros [H Hr]. destruct l as [|b l]; injection H as -> ->; [done|].
      rewrite contains_byte_app, contains_byte_cons, Ascii.eqb_refl in E. by rewrite orb_true_r in E.
Qed.

(** ** Appending *)

Lemma sapp_assoc s t u : (s +:+ t) +:+ u = s +:+ (t +:+ u).
Proof. induction s as [|a s IH]; [done|]. rewrite !sapp_cons. by rewrite IH. Qed.

Lemma sapp_nil s : s +:+ "" = s.
Proof. induction s as [|a s IH]; [done|]. by rewrite sapp_cons, IH. Qed.

Lemma substring_whole s n : String.length s ≤ n → String.substring 0 n s = s.
Proof.
  revert n. induction s as [|a s IH]; intros [|n]; cbn; intros; [done|done|lia|].
  f_equal. apply IH. lia.
Qed.

Lemma contains_byte_false s c : contains_byte s c = false ↔ c ∉ bytes s.
Proof.
  unfold contains_byte. rewrite <- not_true_iff_false, existsb_exists. apply not_iff_compat.
  split; [intros (x & Hx & ->%Ascii.eqb_eq); by apply list_elem_of_In|].
  intros H%list_elem_of_In. exists c. by rewrite Ascii.eqb_refl.
Qed.

(** ** Lossy decoding *)

Lemma from_utf8_lossy_valid l : utf8_valid l = true → from_utf8_lossy l = l.
Proof.
  remember (length l) as n eqn:Hn. revert l Hn.
  induction (lt_wf n) as [n _ IH]. intros [|a l1] -> H; [done|]. cbn in *.
  destruct (byte a <? 128)%N; [f_equal; eapply IH; [|done|done]; cbn; lia|].
  destruct l1 as [|b l2]; [done|]. destruct (in_range 194 223 (byte a)).
  { apply andb_true_iff in H as [-> H]. do 2 f_equal. eapply IH; [|done|done]; cbn; lia. }
  destruct l2 as [|c l3]; [done|]. destruct (second_of_3 (byte a) (byte b)).
  { apply andb_true_iff in H as [-> H]. do 3 f_equal. eapply IH; [|done|done]; cbn; lia. }
  destruct l3 as [|d l4]; [done|]. rewrite !andb_true_iff in H. destruct H as [[[-> ->] ->] H].
  do 4 f_equal. eapply IH; [|done|done]; cbn; lia.
Qed.

Lemma sapp_inj s t u : s +:+ t = s +:+ u → t = u.
Proof. induction s as [|a s IH]; [done|]. rewrite !sapp_cons. intros [= H]. auto. Qed.

Lemma substring_app p t :
  String.substring (String.length p) (String.length (p +:+ t) - String.length p) (p +:+ t) = t.
Proof.
  rewrite length_sapp. replace (_ - _)%nat with (String.length t) by lia.
  induction p as [|a p IH]; [by apply substring_whole|]. exact IH.
Qed.

Lemma strip_prefix_Some p s t : strip_prefix p s = Some t ↔ s = p +:+ t.
Proof.
  unfold strip_prefix. destruct (String.prefix p s) eqn:E.
  - apply prefix_app in E as [u ->]. rewrite substring_app. split; [by intros [= ->]|].
    by intros ->%sapp_inj.
  - split; [done|]. intros ->. assert (String.prefix p (p +:+ t) = true); [|congruence].
    apply prefix_app. by exists t.
Qed.

(** ** Big endian words *)

Lemma length_be_bytes n v : length (be_bytes n v) = n.
Proof. unfold be_bytes. by rewrite length_rev, length_le_bytes. Qed.

Lemma be_value_bytes n v : (v < 256 ^ N.of_nat n)%N → be_value (be_bytes n v) = v.
Proof. intros H. unfold be_value, be_bytes. rewrite rev_involutive. by apply le_value_bytes. Qed.
