(* ===== verification/RustChar.v ===== *)
(** * Characters of Rust strings

    [char] is a Unicode scalar value.  [str::chars], [char::encode_utf8] and
    [str::encode_utf16] of the standard library, with the facts that a well-formed string
    is determined by its characters and by its UTF-16 code units. *)

From S2P Require Import Prelude RustStr.
From Stdlib Require Import Ascii.

#[local] Open Scope N_scope.

(** ** UTF-8 *)

(** [str::chars], which assumes that the bytes are well formed. *)
Fixpoint chars (l : list ascii) : list N :=
  match l with
  | [] => []
  | a :: l1 =>
      if byte a <? 128 then byte a :: chars l1 else
      match l1 with
      | [] => []
      | b :: l2 =>
          if byte a <? 224 then ((byte a - 192) * 64 + (byte b - 128)) :: chars l2 else
          match l2 with
          | [] => []
          | c :: l3 =>
              if byte a <? 240
              then ((byte a - 224) * 4096 + (byte b - 128) * 64 + (byte c - 128)) :: chars l3 else
              match l3 with
              | [] => []
              | d :: l4 =>
                  ((byte a - 240) * 262144 + (byte b - 128) * 4096 + (byte c - 128) * 64
                   + (byte d - 128)) :: chars l4
              end
          end
      end
  end.

Definition encode_utf8 (c : N) : list ascii :=
  ascii_of_N <$>
  if c <? 128 then [c] else
  if c <? 2048 then [192 + c / 64; 128 + c mod 64] else
  if c <? 65536 then [224 + c / 4096; 128 + (c / 64) mod 64; 128 + c mod 64] else
  [240 + c / 262144; 128 + (c / 4096) mod 64; 128 + (c / 64) mod 64; 128 + c mod 64].

Definition scalar (c : N) : bool := (c <? 55296) || in_range 57344 1114111 c.

(** [char::is_whitespace] and [str::split_whitespace]. *)
Definition is_whitespace (c : N) : bool :=
  in_range 9 13 c || (c =? 32) || (c =? 133) || (c =? 160) || (c =? 5760) || in_range 8192 8202 c
  || (c =? 8232) || (c =? 8233) || (c =? 8239) || (c =? 8287) || (c =? 12288).

Fixpoint words (word : list N) (l : list N) : list (list N) :=
  let finished := match word with [] => [] | _ => [word] end in
  match l with
  | [] => finished
  | c :: rest => if is_whitespace c then finished ++ words [] rest else words (word ++ [c]) rest
  end.
Definition split_whitespace (s : string) : list string :=
  (λ word, of_bytes (word ≫= encode_utf8)) <$> words [] (chars (bytes s)).

(** ** UTF-16 *)

Definition encode_utf16 (c : N) : list N :=
  if c <? 65536 then [c]
  else [55296 + (c - 65536) / 1024; 56320 + (c - 65536) mod 1024].
Definition utf16_units (s : string) : list N := chars (bytes s) ≫= encode_utf16.

(** [Iterator::cmp]. *)
Fixpoint lex_cmp (l k : list N) : comparison :=
  match l, k with
  | [], [] => Eq
  | [], _ => Lt
  | _, [] => Gt
  | a :: l, b :: k => match a ?= b with Eq => lex_cmp l k | o => o end
  end.

(** ** Lemmas *)

(** The digits of a number in base 64. *)
Lemma div64 x y : y < 64 → (x * 64 + y) / 64 = x.
Proof. intros. rewrite N.div_add_l, N.div_small by lia. lia. Qed.
Lemma mod64 x y : y < 64 → (x * 64 + y) mod 64 = y.
Proof. intros. rewrite N.add_comm, N.Div0.mod_add. by apply N.mod_small. Qed.
Lemma div4096 x y z : y < 64 → z < 64 → (x * 4096 + y * 64 + z) / 4096 = x.
Proof. intros. symmetry. apply (N.div_unique _ 4096 x (y * 64 + z)); lia. Qed.
Lemma div262144 w x y z :
  x < 64 → y < 64 → z < 64 → (w * 262144 + x * 4096 + y * 64 + z) / 262144 = w.
Proof. intros. symmetry. apply (N.div_unique _ 262144 w (x * 4096 + y * 64 + z)); lia. Qed.

(** The first character of a well-formed sequence is a scalar value and is encoded by the
    bytes it was read from. *)
Lemma chars_cons a l :
  utf8_valid (a :: l) = true →
  ∃ c rest, scalar c = true ∧ chars (a :: l) = c :: chars rest ∧ a :: l = encode_utf8 c ++ rest
    ∧ utf8_valid rest = true.
Proof.
  pose proof (byte_lt a) as Ha. intros H. cbn [utf8_valid] in H. cbn [chars]. unfold scalar.
  destruct (N.ltb_spec (byte a) 128).
  { exists (byte a), l. unfold encode_utf8.
    rewrite (proj2 (N.ltb_lt _ 128)), (proj2 (N.ltb_lt _ 55296)) by lia. cbn.
    by rewrite ascii_byte. }
  destruct l as [|b l]; [done|]. pose proof (byte_lt b) as Hb.
  unfold in_range, is_cont, second_of_3, second_of_4, in_range in *.
  destruct ((194 <=? byte a) && (byte a <=? 223)) eqn:E2.
  { apply andb_true_iff in E2 as [? ?]. apply andb_true_iff in H as [Hc H].
    apply andb_true_iff in Hc as [? ?]. rewrite N.leb_le in *.
    rewrite (proj2 (N.ltb_lt (byte a) 224)) by lia.
    exists ((byte a - 192) * 64 + (byte b - 128)), l. unfold encode_utf8.
    rewrite (proj2 (N.ltb_ge _ 128)), (proj2 (N.ltb_lt _ 2048)), (proj2 (N.ltb_lt _ 55296)) by lia.
    rewrite div64, mod64 by lia. cbn. split_and!; try done.
    replace (192 + (byte a - 192)) with (byte a) by lia.
    replace (128 + (byte b - 128)) with (byte b) by lia. by rewrite !ascii_byte. }
  destruct l as [|c l]; [done|]. pose proof (byte_lt c) as Hc.
  match type of H with (if ?t then _ else _) = true => destruct t eqn:E3 end.
  { apply andb_true_iff in H as [Hcc H]. apply andb_true_iff in Hcc as [? ?].
    rewrite !orb_true_iff, !andb_true_iff, !N.eqb_eq, !N.leb_le in E3. rewrite N.leb_le in *.
    rewrite (proj2 (N.ltb_ge (byte a) 224)), (proj2 (N.ltb_lt (byte a) 240)) by lia.
    exists ((byte a - 224) * 4096 + (byte b - 128) * 64 + (byte c - 128)), l. unfold encode_utf8.
    rewrite (proj2 (N.ltb_ge _ 128)), (proj2 (N.ltb_ge _ 2048)), (proj2 (N.ltb_lt _ 65536)) by lia.
    rewrite div4096 by lia.
    replace (_ * 4096 + _ * 64 + _) with (((byte a - 224) * 64 + (byte b - 128)) * 64 + (byte c - 128))
      by lia.
    rewrite div64, !mod64 by lia. cbn. split_and!; try done.
    - rewrite orb_true_iff, andb_true_iff, N.ltb_lt, !N.leb_le. lia.
    - replace (224 + (byte a - 224)) with (byte a) by lia.
      replace (128 + (byte b - 128)) with (byte b) by lia.
      replace (128 + (byte c - 128)) with (byte c) by lia. by rewrite !ascii_byte. }
  destruct l as [|d l]; [done|]. pose proof (byte_lt d) as Hd.
  rewrite !andb_true_iff, !orb_true_iff, !andb_true_iff, !N.eqb_eq, !N.leb_le in H.
  destruct H as [[[H4 [? ?]] [? ?]] H].
  rewrite (proj2 (N.ltb_ge (byte a) 224)), (proj2 (N.ltb_ge (byte a) 240)) by lia.
  exists ((byte a - 240) * 262144 + (byte b - 128) * 4096 + (byte c - 128) * 64 + (byte d - 128)), l.
  unfold encode_utf8.
  rewrite (proj2 (N.ltb_ge _ 128)), (proj2 (N.ltb_ge _ 2048)), (proj2 (N.ltb_ge _ 65536)) by lia.
  rewrite div262144 by lia.
  replace (_ * 262144 + _ * 4096 + _ * 64 + _)
    with (((byte a - 240) * 64 + (byte b - 128)) * 4096 + (byte c - 128) * 64 + (byte d - 128)) by lia.
  rewrite div4096 by lia.
  replace (_ * 4096 + _ * 64 + _)
    with ((((byte a - 240) * 64 + (byte b - 128)) * 64 + (byte c - 128)) * 64 + (byte d - 128)) by lia.
  rewrite div64, !mod64 by lia. cbn. split_and!; try done.
  - rewrite orb_true_iff, andb_true_iff, N.ltb_lt, !N.leb_le. lia.
  - replace (240 + (byte a - 240)) with (byte a) by lia.
    replace (128 + (byte b - 128)) with (byte b) by lia.
    replace (128 + (byte c - 128)) with (byte c) by lia.
    replace (128 + (byte d - 128)) with (byte d) by lia. by rewrite !ascii_byte.
Qed.

Lemma length_encode_utf8 c : (0 < length (encode_utf8 c))%nat.
Proof. unfold encode_utf8. rewrite length_fmap. repeat case_match; cbn; lia. Qed.

(** A well-formed sequence is the encoding of its characters, which are scalar values. *)
Lemma utf8_chars l :
  utf8_valid l = true → chars l ≫= encode_utf8 = l ∧ Forall (λ c, scalar c = true) (chars l).
Proof.
  remember (length l) as n eqn:Hn. revert l Hn. induction (lt_wf n) as [n _ IH].
  intros [|a l] -> H; [done|]. destruct (chars_cons a l H) as (c & rest & Hc & -> & E & Hrest).
  rewrite E. pose proof (length_encode_utf8 c).
  destruct (IH (length rest)) with (l := rest) as [H1 H2]; [|done|done|].
  - rewrite E, length_app. lia.
  - rewrite bind_cons, H1. split; [done|by constructor].
Qed.

Lemma chars_inj l k :
  utf8_valid l = true → utf8_valid k = true → chars l = chars k → l = k.
Proof. intros [Hl _]%utf8_chars [Hk _]%utf8_chars E. by rewrite <- Hl, <- Hk, E. Qed.

(** ** Lexicographic order *)

Definition lex_leb (l k : list N) : bool := match lex_cmp l k with Gt => false | _ => true end.

Lemma lex_leb_cons a b l k : lex_leb (a :: l) (b :: k) = (a <? b) || (a =? b) && lex_leb l k.
Proof.
  unfold lex_leb. cbn. destruct (N.compare_spec a b).
  - subst. by rewrite N.ltb_irrefl, N.eqb_refl.
  - by rewrite (proj2 (N.ltb_lt _ _)).
  - rewrite (proj2 (N.ltb_ge a b)), (proj2 (N.eqb_neq a b)) by lia. done.
Qed.

Lemma lex_leb_total l k : lex_leb l k = true ∨ lex_leb k l = true.
Proof.
  revert k. induction l as [|a l IH]; intros [|b k]; [by left|by left|by right|].
  rewrite !lex_leb_cons, !orb_true_iff, !andb_true_iff, !N.ltb_lt, !N.eqb_eq.
  destruct (IH k); destruct (N.lt_trichotomy a b) as [|[|]]; auto.
Qed.

Lemma lex_leb_trans l k m : lex_leb l k = true → lex_leb k m = true → lex_leb l m = true.
Proof.
  revert k m. induction l as [|a l IH]; intros [|b k] [|c m]; try done.
  rewrite !lex_leb_cons, !orb_true_iff, !andb_true_iff, !N.ltb_lt, !N.eqb_eq.
  intros [|[-> H1]] [|[-> H2]]; [left; lia..|by left|right; eauto].
Qed.

Lemma lex_leb_antisym l k : lex_leb l k = true → lex_leb k l = true → l = k.
Proof.
  revert k. induction l as [|a l IH]; intros [|b k]; try done.
  rewrite !lex_leb_cons, !orb_true_iff, !andb_true_iff, !N.ltb_lt, !N.eqb_eq.
  intros [|[-> H1]] [|[? H2]]; try lia. f_equal. auto.
Qed.

(** ** UTF-16 determines the string *)

Fixpoint decode_utf16 (l : list N) : list N :=
  match l with
  | [] => []
  | u :: rest =>
      if in_range 55296 56319 u then
        match rest with
        | [] => [u]
        | v :: rest => (65536 + (u - 55296) * 1024 + (v - 56320)) :: decode_utf16 rest
        end
      else u :: decode_utf16 rest
  end.

Lemma decode_encode_utf16 c l :
  scalar c = true → decode_utf16 (encode_utf16 c ++ l) = c :: decode_utf16 l.
Proof.
  unfold scalar, encode_utf16, in_range. rewrite orb_true_iff, andb_true_iff, N.ltb_lt, !N.leb_le.
  intros Hc. destruct (N.ltb_spec c 65536); cbn [app decode_utf16]; unfold in_range.
  - by rewrite (proj2 (andb_false_iff _ _)) by (rewrite !N.leb_gt; lia).
  - pose proof (N.Div0.div_mod (c - 65536) 1024) as Hd.
    assert ((c - 65536) mod 1024 < 1024) by (by apply N.mod_lt).
    assert ((c - 65536) / 1024 < 1024) by (apply N.Div0.div_lt_upper_bound; lia).
    rewrite (proj2 (andb_true_iff _ _)) by (rewrite !N.leb_le; lia).
    f_equal. generalize dependent ((c - 65536) / 1024). generalize dependent ((c - 65536) mod 1024).
    intros. lia.
Qed.

Lemma utf16_units_inj s t :
  utf8_valid (bytes s) = true → utf8_valid (bytes t) = true → utf16_units s = utf16_units t → s = t.
Proof.
  intros Hs Ht E. rewrite <- (of_bytes_bytes s), <- (of_bytes_bytes t). f_equal.
  apply chars_inj; [done..|].
  assert (∀ l, Forall (λ c, scalar c = true) l → decode_utf16 (l ≫= encode_utf16) = l) as Hd.
  { induction 1 as [|c l Hc _ IH]; [done|]. by rewrite bind_cons, decode_encode_utf16, IH. }
  apply utf8_chars in Hs as [_ Hs]. apply utf8_chars in Ht as [_ Ht].
  rewrite <- (Hd _ Hs), <- (Hd _ Ht). unfold utf16_units in E. by rewrite E.
Qed.
