(* ===== verification/JsonTree.v ===== *)
(** * JSON documents

    The data model of [serde_json]: documents as trees, the accessors of
    [serde_json::Value] the sources use, and an induction principle.  The parser and
    the text of numbers are parameters of the files that need them. *)

From S2P Require Import Prelude RustStr.
From Stdlib Require Import Ascii.

(** [serde_json::Number]: a [u64], a negative [i64], or the bits of an [f64]. *)
Inductive JNum := PosInt (n : N) | NegInt (n : Z) | Float (bits : N).
#[global] Instance JNum_eq_dec : EqDecision JNum.
Proof. solve_decision. Defined.

(** A finite double, from its bits. *)
Definition is_finite (bits : N) : bool := negb ((bits / 2 ^ 52) mod 2048 =? 2047)%N.

(** Members of an object are in the order the source iterates over them.  A parsed
    value has each key once; a streaming deserializer also sees repeated keys. *)
Inductive Json :=
| JNull
| JBool (b : bool)
| JNumber (n : JNum)
| JString (s : string)
| JArray (items : list Json)
| JObject (members : list (string * Json)).

(** ** Accessors *)

Definition as_str (j : Json) : option string := match j with JString s => Some s | _ => None end.
Definition as_bool (j : Json) : option bool := match j with JBool b => Some b | _ => None end.
Definition as_u64 (j : Json) : option N :=
  match j with JNumber (PosInt n) => Some n | _ => None end.
Definition as_i64 (j : Json) : option Z :=
  match j with
  | JNumber (PosInt n) => if (Z.of_N n <=? i64_max)%Z then Some (Z.of_N n) else None
  | JNumber (NegInt z) => Some z
  | _ => None
  end.
Definition as_array (j : Json) : option (list Json) :=
  match j with JArray l => Some l | _ => None end.
Definition as_object (j : Json) : option (list (string * Json)) :=
  match j with JObject m => Some m | _ => None end.
Definition is_object (j : Json) : bool := match j with JObject _ => true | _ => false end.

Fixpoint member (key : string) (m : list (string * Json)) : option Json :=
  match m with
  | [] => None
  | (k, v) :: rest => if decide (k = key) then Some v else member key rest
  end.
(** [Value::get] with a string index. *)
Definition get (key : string) (j : Json) : option Json :=
  match j with JObject m => member key m | _ => None end.

(** [Value::pointer]: the tokens of a JSON pointer and the index a token denotes in an
    array. *)
Definition pointer_token (s : string) : string :=
  of_bytes (replace_pair "~" "0" "~" (replace_pair "~" "1" "/" (bytes s))).
Definition pointer_tokens (pointer : string) : option (list string) :=
  if is_empty pointer then Some [] else
  if negb (starts_with pointer "/") then None else
  Some (pointer_token <$> tail (split "/" pointer)).
Definition parse_index (token : string) : option nat :=
  if starts_with token "+" || starts_with token "0" && negb (bool_decide (token = "0"))
  then None else N.to_nat <$> parse_uint u64_max token.
Definition pointer_step (j : Json) (token : string) : option Json :=
  match j with
  | JObject m => member token m
  | JArray l => i ← parse_index token; l !! i
  | _ => None
  end.
Definition json_pointer (pointer : string) (j : Json) : option Json :=
  tokens ← pointer_tokens pointer; foldl (λ o t, j ← o; pointer_step j t) (Some j) tokens.

(** ** Induction *)

Section json_induction.
Context (P : Json → Prop) (Hnull : P JNull) (Hbool : ∀ b, P (JBool b)) (Hnum : ∀ n, P (JNumber n))
  (Hstr : ∀ s, P (JString s)) (Harr : ∀ l, Forall P l → P (JArray l))
  (Hobj : ∀ m, Forall (λ x, P x.2) m → P (JObject m)).

Fixpoint Json_tree_ind (j : Json) : P j :=
  match j with
  | JNull => Hnull
  | JBool b => Hbool b
  | JNumber n => Hnum n
  | JString s => Hstr s
  | JArray l =>
      Harr l ((fix go l : Forall P l :=
                 match l with
                 | [] => Forall_nil_2 _
                 | x :: rest => Forall_cons_2 _ _ _ (Json_tree_ind x) (go rest)
                 end) l)
  | JObject m =>
      Hobj m ((fix go m : Forall (λ x, P x.2) m :=
                 match m with
                 | [] => Forall_nil_2 _
                 | x :: rest => Forall_cons_2 _ _ _ (Json_tree_ind x.2) (go rest)
                 end) m)
  end.
End json_induction.

(** Nesting depth of a document. *)
Fixpoint json_depth (j : Json) : N :=
  match j with
  | JArray l => foldr (λ x d, N.max (json_depth x + 1) d) 0%N l
  | JObject m => foldr (λ x d, N.max (json_depth x.2 + 1) d) 0%N m
  | _ => 0
  end.

Lemma member_elem_of key m v : member key m = Some v → (key, v) ∈ m.
Proof.
  induction m as [|[k w] m IH]; cbn; [done|].
  case_decide; [intros; simplify_eq; left|right; auto].
Qed.

(** ** Objects of [serde_json]

    [serde_json::Map] is an ordered map: its members are sorted by key. *)

Fixpoint obj_replace (k : string) (v : Json) (m : list (string * Json)) : list (string * Json) :=
  match m with
  | [] => []
  | (k', v') :: rest => if decide (k' = k) then (k, v) :: rest else (k', v') :: obj_replace k v rest
  end.
Fixpoint obj_place (k : string) (v : Json) (m : list (string * Json)) : list (string * Json) :=
  match m with
  | [] => [(k, v)]
  | (k', v') :: rest => if decide (String.le k k') then (k, v) :: m else (k', v') :: obj_place k v rest
  end.
Definition obj_insert (k : string) (v : Json) (m : list (string * Json)) : list (string * Json) :=
  match member k m with Some _ => obj_replace k v m | None => obj_place k v m end.
(** [map.entry(k).or_insert_with(..)]. *)
Definition obj_or_insert (k : string) (v : Json) (m : list (string * Json)) : list (string * Json) :=
  match member k m with Some _ => m | None => obj_place k v m end.
Definition obj_remove (k : string) (m : list (string * Json)) : list (string * Json) :=
  filter (λ x, x.1 ≠ k) m.

Lemma member_obj_replace k v m k' :
  member k' (obj_replace k v m) = if decide (k = k') then (λ _, v) <$> member k m else member k' m.
Proof.
  induction m as [|[k0 v0] m IH]; cbn; [by case_decide|].
  repeat (case_decide; cbn); subst; try done; rewrite ?IH, ?decide_True, ?decide_False by done; done.
Qed.
Lemma member_obj_place k v m k' :
  member k m = None → member k' (obj_place k v m) = if decide (k = k') then Some v else member k' m.
Proof.
  induction m as [|[k0 v0] m IH]; cbn; [done|].
  repeat (case_decide; cbn); subst; try done; intros; rewrite ?IH, ?decide_True, ?decide_False by done; done.
Qed.

(** An insertion is visible under its key and nowhere else. *)
Lemma member_obj_insert k v m k' :
  member k' (obj_insert k v m) = if decide (k = k') then Some v else member k' m.
Proof.
  unfold obj_insert. destruct (member k m) eqn:E; [|by apply member_obj_place].
  rewrite member_obj_replace, E. done.
Qed.

(** ** Equality up to the order of members *)

Inductive json_equiv : Json → Json → Prop :=
| json_equiv_same j : json_equiv j j
| json_equiv_array l l' : Forall2 json_equiv l l' → json_equiv (JArray l) (JArray l')
| json_equiv_object m n m' :
    m ≡ₚ n → Forall2 (λ a b, a.1 = b.1 ∧ json_equiv a.2 b.2) n m' →
    json_equiv (JObject m) (JObject m').

Lemma json_equiv_members m :
  Forall2 (λ a b : string * Json, a.1 = b.1 ∧ json_equiv a.2 b.2) m m.
Proof. induction m; constructor; [split; [done|apply json_equiv_same]|done]. Qed.

Lemma json_equiv_sym x y : json_equiv x y → json_equiv y x.
Proof.
  revert y. induction x as [| | | |l IH|m IH] using Json_tree_ind; intros y H;
    try (inversion H; subst; apply json_equiv_same).
  - inversion H as [|? l' Hl|]; subst; [apply json_equiv_same|]. apply json_equiv_array.
    clear H. induction Hl as [|a b l l' Hab _ IHl]; [done|]. apply Forall_cons in IH as [Ha IH].
    constructor; auto.
  - inversion H as [| |? n m' Hm Hn]; subst; [apply json_equiv_same|].
    assert (Forall2 (λ a b, a.1 = b.1 ∧ json_equiv a.2 b.2) m' n) as Hn'.
    { rewrite Hm in IH. clear H Hm. induction Hn as [|a b n m' [Hk Hab] _ IHn]; [done|].
      apply Forall_cons in IH as [Ha IH]. constructor; [split; [done|auto]|auto]. }
    apply Forall2_flip in Hn'. destruct (Permutation_Forall2 (symmetry Hm) Hn') as (n' & Hp & Hf).
    eapply json_equiv_object; [exact Hp|]. by apply Forall2_flip.
Qed.

Lemma json_equiv_trans x y z : json_equiv x y → json_equiv y z → json_equiv x z.
Proof.
  revert x z. induction y as [| | | |l IH|m IH] using Json_tree_ind; intros x z Hx Hz;
    try (inversion Hx; subst; assumption).
  - inversion Hx as [|l1 ? H1|]; subst; [done|]. inversion Hz as [|? l2 H2|]; subst; [done|].
    apply json_equiv_array.
    eapply (Forall2_trans_at (λ y, ∀ x z, json_equiv x y → json_equiv y z → json_equiv x z));
      [by intros a b c Hb; apply Hb|done..].
  - inversion Hx as [| |m1 n1 ? Hp1 H1]; subst; [done|].
    inversion Hz as [| |? n2 m2 Hp2 H2]; subst; [done|].
    apply Forall2_flip in H1. destruct (Permutation_Forall2 Hp2 H1) as (n & Hp & Hn).
    apply Forall2_flip in Hn. eapply json_equiv_object; [by rewrite Hp1|].
    eapply (Forall2_trans_at (λ y, ∀ x z, json_equiv x y.2 → json_equiv y.2 z → json_equiv x z));
      [|rewrite Hp2 in IH; exact IH|done..].
    intros a b c Hb [-> ?] [-> ?]. split; [done|]. by eapply Hb.
Qed.

#[global] Instance json_equivalence : Equivalence json_equiv.
Proof. split; red; [apply json_equiv_same|apply json_equiv_sym|apply json_equiv_trans]. Qed.

Lemma json_equiv_permuted m n m' n' :
  m ≡ₚ n → m' ≡ₚ n' → Forall2 (λ a b, a.1 = b.1 ∧ json_equiv a.2 b.2) n n' →
  json_equiv (JObject m) (JObject m').
Proof.
  intros Hm Hm' HF. transitivity (JObject n'); [by eapply json_equiv_object|].
  eapply json_equiv_object; [symmetry; exact Hm'|apply json_equiv_members].
Qed.

Lemma member_None k m : member k m = None ↔ k ∉ m.*1.
Proof.
  induction m as [|[k' v] m IH]; cbn.
  { split; [intros _; apply not_elem_of_nil|done]. }
  rewrite not_elem_of_cons, <- IH. case_decide; [|naive_solver]. split; [done|]. by intros [].
Qed.

Lemma obj_place_perm k v m : obj_place k v m ≡ₚ (k, v) :: m.
Proof.
  induction m as [|[k' v'] m IH]; cbn; [done|]. case_decide; [done|]. rewrite IH. apply Permutation_swap.
Qed.

Lemma member_Some k m v : NoDup m.*1 → member k m = Some v ↔ (k, v) ∈ m.
Proof.
  intros Hd. split; [apply member_elem_of|]. induction m as [|[k' v'] m IH]; cbn.
  { by intros ?%not_elem_of_nil. }
  apply NoDup_cons in Hd as [Hk Hd]. intros [[= -> ->]|H]%elem_of_cons; [by rewrite decide_True|].
  rewrite decide_False; [auto|]. intros ->. apply Hk. apply list_elem_of_fmap. by exists (k, v).
Qed.

Lemma member_perm k m n : NoDup m.*1 → m ≡ₚ n → member k m = member k n.
Proof.
  intros Hd Hp. apply option_eq. intros v. rewrite !member_Some; [by rewrite Hp| |done].
  by rewrite <- Hp.
Qed.

Lemma member_filter (P : string * Json → Prop) `{∀ x, Decision (P x)} k m :
  (∀ v, P (k, v)) → member k (filter P m) = member k m.
Proof.
  intros Hk. induction m as [|[k' v] m IH]; [done|]. rewrite filter_cons. cbn.
  destruct (decide (P (k', v))) as [HP|HP]; cbn; rewrite IH; [done|].
  rewrite decide_False; [done|]. intros ->. by apply HP.
Qed.

(** Equal documents have equal members. *)
Lemma json_equiv_member k m m' :
  NoDup m.*1 → json_equiv (JObject m) (JObject m') → option_Forall2 json_equiv (member k m) (member k m').
Proof.
  intros Hd H. inversion H as [| |? n ? Hp HF]; subst.
  { destruct (member k m'); constructor. reflexivity. }
  rewrite (member_perm k m n) by done. clear H Hp Hd.
  induction HF as [|[k1 v1] [k2 v2] n m' [E Hv] _ IH]; cbn in *; [constructor|]. subst k2.
  case_decide; [by constructor|done].
Qed.
