(* ===== verification/JsonText.v ===== *)
(** * The text of JSON documents

    The strings [serde_json] writes, and the unique readability of its text: what a writer
    emits determines the value and the text that follows. *)

From S2P Require Import Prelude RustStr JsonTree.
From Stdlib Require Import Ascii.

(** ** Strings *)

Definition hex (n : N) : ascii := ascii_of_N (if (n <? 10)%N then 48 + n else 87 + n).
Definition backslash (n : N) : string := String (ascii_of_N 92) (String (ascii_of_N n) EmptyString).

(** JSON escapes: short forms where there is one, six characters for the other
    control characters. *)
Definition escape_byte (c : ascii) : string :=
  let b := byte c in
  if (b =? 34)%N then backslash 34 else
  if (b =? 92)%N then backslash 92 else
  if (b =? 8)%N then backslash 98 else
  if (b =? 9)%N then backslash 116 else
  if (b =? 10)%N then backslash 110 else
  if (b =? 12)%N then backslash 102 else
  if (b =? 13)%N then backslash 114 else
  if (b <=? 31)%N
  then backslash 117 +:+ "00" +:+ String (hex (b / 16)) (String (hex (b mod 16)) EmptyString)
  else String c EmptyString.

Fixpoint escape (s : string) : string :=
  match s with EmptyString => EmptyString | String c s' => escape_byte c +:+ escape s' end.

(** [serde_json::to_string] of a string. *)
Definition json_string (s : string) : string :=
  String (ascii_of_N 34) (escape s +:+ String (ascii_of_N 34) EmptyString).

(** A sequence of texts between brackets. *)
Definition enclosed (opening closing : ascii) (items : list string) : string :=
  String opening (String.concat "," items +:+ String closing EmptyString).

(** ** Reading back *)

(** One character of a string and the text after it. *)
Definition unescape (s : string) : option (ascii * string) :=
  match s with
  | EmptyString => None
  | String c rest =>
      if (byte c =? 34)%N then None else
      if negb (byte c =? 92)%N then Some (c, rest) else
      match rest with
      | EmptyString => None
      | String e rest =>
          let short n := Some (ascii_of_N n, rest) in
          match byte e with
          | 98 => short 8 | 116 => short 9 | 110 => short 10 | 102 => short 12 | 114 => short 13
          | 117 =>
              match rest with
              | String _ (String _ (String h (String l rest))) =>
                  h ← digit_value 16 h; l ← digit_value 16 l; Some (ascii_of_N (h * 16 + l), rest)
              | _ => None
              end
          | n => short n
          end%N
      end
  end.

Lemma unescape_escape_byte c t : unescape (escape_byte c +:+ t) = Some (c, t).
Proof. by destruct c as [[] [] [] [] [] [] [] []]. Qed.

Lemma escape_readable s s' t t' :
  escape s +:+ String (ascii_of_N 34) t = escape s' +:+ String (ascii_of_N 34) t' → s = s' ∧ t = t'.
Proof.
  revert s'. induction s as [|c s IH]; intros [|c' s'] E; cbn [escape] in E.
  - by injection E.
  - apply (f_equal unescape) in E. by rewrite sapp_assoc, unescape_escape_byte in E.
  - apply (f_equal unescape) in E. by rewrite sapp_assoc, unescape_escape_byte in E.
  - apply (f_equal unescape) in E. rewrite !sapp_assoc, !unescape_escape_byte in E.
    injection E as -> E. apply IH in E as [-> ->]. done.
Qed.

Lemma json_string_app s t :
  json_string s +:+ t = String (ascii_of_N 34) (escape s +:+ String (ascii_of_N 34) t).
Proof. unfold json_string. by rewrite sapp_cons, sapp_assoc. Qed.

Lemma json_string_readable s s' t t' :
  json_string s +:+ t = json_string s' +:+ t' → s = s' ∧ t = t'.
Proof. rewrite !json_string_app. intros [= E]. by apply escape_readable in E. Qed.

(** ** Numbers *)

Definition no_digit (t : string) : bool :=
  match t with EmptyString => true | String c _ => negb (is_ascii_digit c) end.

Lemma digits_readable l l' (t t' : list ascii) :
  Forall (λ c, is_ascii_digit c = true) l → Forall (λ c, is_ascii_digit c = true) l' →
  (∀ c r, t = c :: r → is_ascii_digit c = false) → (∀ c r, t' = c :: r → is_ascii_digit c = false) →
  l ++ t = l' ++ t' → l = l' ∧ t = t'.
Proof.
  intros Hl Hl' Ht Ht'. revert l' Hl'. induction Hl as [|c l Hc _ IH]; intros l' Hl' E.
  - destruct Hl' as [|c' l' Hc' _]; [done|]. cbn in E. apply Ht in E. congruence.
  - destruct Hl' as [|c' l' Hc' Hl']; cbn in E.
    + symmetry in E. apply Ht' in E. congruence.
    + injection E as -> E. by apply IH in E as [-> ->].
Qed.

Lemma pretty_N_char_digit n : (n < 10)%N → is_ascii_digit (pretty_N_char n) = true.
Proof.
  intros H. assert (n ∈ [0; 1; 2; 3; 4; 5; 6; 7; 8; 9]%N) as Hn.
  { rewrite !elem_of_cons. lia. }
  repeat (apply elem_of_cons in Hn as [->|Hn]; [reflexivity|]). by apply not_elem_of_nil in Hn.
Qed.

Lemma dec_digits n : Forall (λ c, is_ascii_digit c = true) (bytes (dec n)).
Proof.
  unfold dec, pretty, pretty_N. case_decide; [by repeat constructor|].
  assert (∀ n s, Forall (λ c, is_ascii_digit c = true) (bytes s) →
            Forall (λ c, is_ascii_digit c = true) (bytes (pretty_N_go n s))) as Hgo; [|by apply Hgo].
  intros m. induction (N.lt_wf_0 m) as [m _ IH]. intros s Hs.
  destruct (decide (0 < m)%N) as [Hm|Hm].
  - rewrite pretty_N_go_step by done. apply IH; [apply N.div_lt; lia|].
    constructor; [|done]. apply pretty_N_char_digit. by apply N.mod_lt.
  - replace m with 0%N by lia. by rewrite pretty_N_go_0.
Qed.

Lemma bytes_inj s t : bytes s = bytes t → s = t.
Proof. intros E. by rewrite <- (of_bytes_bytes s), E, of_bytes_bytes. Qed.

Lemma dec_readable n n' t t' :
  no_digit t = true → no_digit t' = true → dec n +:+ t = dec n' +:+ t' → n = n' ∧ t = t'.
Proof.
  intros Ht Ht' E. apply (f_equal bytes) in E. rewrite !bytes_app in E.
  apply digits_readable in E as [E1 E2]; [|apply dec_digits|apply dec_digits| |].
  - split; [|by apply bytes_inj]. apply bytes_inj in E1. by apply (inj pretty) in E1.
  - intros c r Hr. destruct t as [|x t]; [done|]. injection Hr as -> _. by apply negb_true_iff.
  - intros c r Hr. destruct t' as [|x t']; [done|]. injection Hr as -> _. by apply negb_true_iff.
Qed.

(** ** Sequences *)

Section sequences.
Context {A : Type} (text : A → string) (closing : ascii).
Context (Hcomma : closing ≠ ","%char) (Hdigit : is_ascii_digit closing = false).

(** [x] is readable against the elements of [ys]: its text determines it up to [R]. *)
Definition readable (R : A → A → Prop) (x : A) (ys : list A) : Prop :=
  ∀ y t t', y ∈ ys → no_digit t = true → no_digit t' = true →
  text x +:+ t = text y +:+ t' → R x y ∧ t = t'.

Lemma concat_cons x l t :
  String.concat "," (text <$> (x :: l)) +:+ String closing t =
  text x +:+ match l with
             | [] => String closing t
             | _ => String "," (String.concat "," (text <$> l) +:+ String closing t)
             end.
Proof. destruct l as [|y l]; [done|]. cbn [fmap list_fmap String.concat]. by rewrite sapp_assoc. Qed.

Lemma sequence_readable (R : A → A → Prop) l l' t t' :
  (∀ x, x ∈ l → readable R x l') →
  (∀ x u v, x ∈ l ++ l' → text x +:+ u ≠ String closing v) →
  String.concat "," (text <$> l) +:+ String closing t
    = String.concat "," (text <$> l') +:+ String closing t' →
  Forall2 R l l' ∧ t = t'.
Proof.
  revert l'. induction l as [|x l IH]; intros [|x' l'] Hread Hstart E.
  - by injection E as ->.
  - rewrite concat_cons in E. by destruct (Hstart x' _ _ ltac:(left) (eq_sym E)).
  - rewrite concat_cons in E. destruct (Hstart x _ _ ltac:(left) E).
  - rewrite !concat_cons in E.
    assert (∀ k u, no_digit (match k with [] => String closing u
              | _ => String "," (String.concat "," (text <$> k) +:+ String closing u) end) = true) as Hend.
    { intros [] u; cbn; [by rewrite Hdigit|done]. }
    destruct (Hread x ltac:(left) x' _ _ ltac:(left) (Hend l t) (Hend l' t') E) as [HR Et].
    destruct l as [|y l], l' as [|y' l']; try (by injection Et).
    + injection Et as ->. by repeat constructor.
    + injection Et as Et. destruct (IH (y' :: l')) as [HF ->]; [| |exact Et|by split; [constructor|]].
      * intros z Hz w u u' Hw. apply Hread; [by right|by right].
      * intros z u v Hz. apply Hstart. apply elem_of_app in Hz as [Hz|Hz]; apply elem_of_app;
          [by left; right|by right; right].
Qed.
End sequences.
