(* ===== verification/Contract.v ===== *)
(** * Development-workflow contract: shared wire types and checks

    Model of [crates/development-workflow-contract/src/lib.rs].  SHA-256 and the
    JSON serializer are not part of the repository: they are the parameters
    [sha256_hex] and [to_json]. *)

From S2P Require Import Prelude RustStr.
From Stdlib Require Import Ascii.


(** ** Errors

    [ContractError] carries the message of the failed check.  [Panic] is the
    outcome of an [unwrap] or an index that finds nothing. *)

Inductive contract_error :=
| ContractError (msg : string)
| Panic (what : string).
#[global] Instance contract_error_eq_dec : EqDecision contract_error.
Proof. solve_decision. Defined.

Abbreviation Result := (result contract_error).

Definition require (condition : bool) (message : string) : Result unit :=
  if condition then Ok () else Err (ContractError message).

(** ** Identifiers *)

Class Serialize (T : Type) := to_json : T → option string.

(** [u64::to_be_bytes]. *)
Definition to_be_bytes (v : N) : list ascii := rev (le_bytes 8 v).

(** The bytes [identity] feeds to the hash: every part framed by its length. *)
Definition frame (part : string) : list ascii := to_be_bytes (slen part) ++ bytes part.
Definition framed (parts : list string) : list ascii := concat (frame <$> parts).

Definition identity {sha : Sha256} (domain : string) (parts : list string) : string :=
  "sha256:" +:+ sha256_hex (framed (domain :: parts)).

Definition hex_byte (b : ascii) : bool := is_ascii_digit b || in_range 97 102 (byte b).

Definition digest_valid (value : string) : bool :=
  match strip_prefix "sha256:" value with
  | Some v => (slen v =? 64)%N && forallb hex_byte (bytes v)
  | None => false
  end.

Definition fingerprint {sha : Sha256} {T} `{!Serialize T} (value : T) : Result string :=
  json ← ok_or (ContractError "invalid wire value") (to_json value);
  Ok (identity "development-workflow/v1" [json]).

Definition git_oid (value : string) : bool :=
  ((slen value =? 40)%N || (slen value =? 64)%N) && forallb hex_byte (bytes value).

(** ** Artifact references *)

Record ArtifactRef := { art_id : string; art_digest : string }.
#[global] Instance ArtifactRef_eq_dec : EqDecision ArtifactRef.
Proof. solve_decision. Defined.

Definition ArtifactRef_validate (a : ArtifactRef) : Result unit :=
  require (negb (blank (art_id a)) && digest_valid (art_digest a)) "invalid artifact reference".

(** ** Candidate snapshots *)

Record RepositorySnapshot := {
  rs_base_commit : string;
  rs_tree : string;
  rs_content_manifest : ArtifactRef;
}.
#[global] Instance RepositorySnapshot_eq_dec : EqDecision RepositorySnapshot.
Proof. solve_decision. Defined.

Record CandidateSnapshot := {
  cs_feature_run_id : string;
  cs_stage_execution_id : string;
  cs_task_id : string;
  cs_candidate_digest : string;
  cs_checkpoint_digest : string;
  cs_repositories : gmap string RepositorySnapshot;
  cs_package : ArtifactRef;
}.
#[global] Instance CandidateSnapshot_eq_dec : EqDecision CandidateSnapshot.
Proof. solve_decision. Defined.

Definition validate_repository (entry : string * RepositorySnapshot) : Result unit :=
  let (repo, snapshot) := entry in
  _ ← require (negb (is_empty repo) && git_oid (rs_base_commit snapshot)
               && git_oid (rs_tree snapshot)) "invalid repository snapshot";
  ArtifactRef_validate (rs_content_manifest snapshot).

Definition CandidateSnapshot_validate (s : CandidateSnapshot) : Result unit :=
  _ ← require (negb (is_empty (cs_feature_run_id s))
               && negb (is_empty (cs_stage_execution_id s))
               && negb (is_empty (cs_task_id s))) "missing snapshot binding";
  _ ← require (digest_valid (cs_candidate_digest s) && digest_valid (cs_checkpoint_digest s))
        "invalid snapshot digest";
  _ ← require (bool_decide (cs_repositories s ≠ ∅)) "missing repository snapshots";
  _ ← ArtifactRef_validate (cs_package s);
  check_all validate_repository (bt_iter (cs_repositories s)).

(** ** Deltas *)

Record DeltaReceipt := {
  dr_before : string;
  dr_after : string;
  dr_full_delta : ArtifactRef;
  dr_changed_paths : gset string;
  dr_affected_phases : gset string;
  dr_cross_repository_contract : bool;
  dr_requirements_or_design : bool;
  dr_security_or_public_api : bool;
  dr_migration : bool;
  dr_uncertain_impact : bool;
  dr_outside_fix_scope : bool;
}.

Definition DeltaReceipt_broad (d : DeltaReceipt) : bool :=
  bool_decide (size (dr_affected_phases d) ≠ 1)
  || dr_cross_repository_contract d
  || dr_requirements_or_design d
  || dr_security_or_public_api d
  || dr_migration d
  || dr_uncertain_impact d
  || dr_outside_fix_scope d.

(** ** Validation receipts *)

Record ValidationReceipt := {
  vr_candidate : string;
  vr_required_checks : gset string;
  vr_passed_checks : gmap string ArtifactRef;
}.

Definition ValidationReceipt_validate (v : ValidationReceipt) (candidate : string) : Result unit :=
  _ ← require (bool_decide (vr_candidate v = candidate) && digest_valid candidate)
        "stale validation";
  _ ← require (bool_decide (vr_required_checks v ≠ ∅)) "required checks must be declared";
  _ ← require (forallb (λ c, bool_decide (is_Some (vr_passed_checks v !! c)))
                 (bs_iter (vr_required_checks v))) "missing or skipped required check";
  check_all ArtifactRef_validate (bt_values (vr_passed_checks v)).

(** ** Inversion *)

Lemma require_Ok c m : require c m = Ok () ↔ c = true.
Proof. unfold require. destruct c; naive_solver. Qed.
#[export] Hint Rewrite require_Ok : fabric_bool.

Lemma require_not_panic c m w : require c m ≠ Err (Panic w).
Proof. unfold require. by destruct c. Qed.

(** Break a successful run into the checks it passed. *)
Ltac inv_checks :=
  repeat (inv_ok;
    match goal with
    | H : require _ _ = Ok _ |- _ => apply require_Ok in H
    | H : _ && _ = true |- _ => apply andb_true_iff in H; destruct H
    | H : bool_decide _ = true |- _ => apply bool_decide_eq_true in H
    | H : negb _ = true |- _ => apply negb_true_iff in H
    end); inv_ok.

(** ** Absence of panics *)

Definition panics {A} (r : Result A) : Prop := ∃ w, r = Err (Panic w).

Lemma panics_bind {A B} (c : Result A) (k : A → Result B) :
  panics (x ← c; k x) → panics c ∨ ∃ a, c = Ok a ∧ panics (k a).
Proof. intros (w & [H|(a & ? & H)]%bind_Err); [left|right]; unfold panics; eauto. Qed.

Lemma Ok_no_panic {A} (a : A) : ¬ panics (Ok a).
Proof. by intros [w H]. Qed.

Lemma require_no_panic c m : ¬ panics (require c m).
Proof. intros [w H]. by apply require_not_panic in H. Qed.

Lemma ok_or_no_panic {A} m (o : option A) : ¬ panics (ok_or (ContractError m) o).
Proof. intros [w H]. by destruct o. Qed.

Lemma ArtifactRef_validate_no_panic a : ¬ panics (ArtifactRef_validate a).
Proof. apply require_no_panic. Qed.

Lemma check_all_no_panic {A} (f : A → Result unit) l :
  (∀ x, x ∈ l → ¬ panics (f x)) → ¬ panics (check_all f l).
Proof.
  intros Hf [w H]. apply (for_each_Err (λ _, True)) in H as (_ & x & _ & Hx & H); [|done..].
  apply (Hf x Hx). by exists w.
Qed.

Lemma for_each_no_panic {S A} (P : S → Prop) (f : S → A → Result S) l s :
  (∀ s x s', x ∈ l → P s → f s x = Ok s' → P s') →
  (∀ s x, x ∈ l → P s → ¬ panics (f s x)) → P s → ¬ panics (for_each f s l).
Proof.
  intros Hp Hf Hs [w H]. eapply for_each_Err in H as (s' & x & ? & Hx & H); [|done|done].
  apply (Hf s' x Hx); [done|]. by exists w.
Qed.

Lemma fingerprint_no_panic {sha : Sha256} {T} `{!Serialize T} (v : T) : ¬ panics (fingerprint v).
Proof. intros [H|(a & _ & H)]%panics_bind; [by apply ok_or_no_panic in H|by apply Ok_no_panic in H]. Qed.
#[export] Hint Resolve Ok_no_panic require_no_panic ok_or_no_panic ArtifactRef_validate_no_panic
  check_all_no_panic fingerprint_no_panic : fabric.

(** Follow a panic through a sequence of checks; the checks themselves never panic. *)
Ltac chase_panic :=
  repeat match goal with
  | H : panics (mbind _ _) |- _ => apply panics_bind in H as [H|(? & ? & H)]
  | H : panics ?r |- _ => assert (¬ panics r) by auto with fabric; contradiction
  end.

(** A valid artifact reference, as the code accepts it. *)
Definition artifact_ok (a : ArtifactRef) : Prop := ArtifactRef_validate a = Ok ().

(** What an accepted validation receipt guarantees of its candidate. *)
Definition checks_passed (v : ValidationReceipt) (candidate : string) : Prop :=
  vr_candidate v = candidate ∧ digest_valid candidate = true ∧ vr_required_checks v ≠ ∅ ∧
  (∀ c, c ∈ vr_required_checks v →
     ∃ e, vr_passed_checks v !! c = Some e ∧ artifact_ok e).

Lemma ValidationReceipt_validate_sound v c :
  ValidationReceipt_validate v c = Ok () → checks_passed v c.
Proof.
  unfold ValidationReceipt_validate, checks_passed. intros H. inv_checks.
  repeat split; try done. intros k Hk.
  match goal with H : forallb _ _ = true |- _ => rewrite forallb_forall in H; rename H into Hf end.
  specialize (Hf k). rewrite <- list_elem_of_In, elem_of_bs_iter, bool_decide_eq_true in Hf.
  destruct (Hf Hk) as [e He]. exists e. split; [done|].
  rewrite check_all_Ok in *. match goal with H : ∀ x, x ∈ bt_values _ → _ |- _ => apply H end.
  rewrite elem_of_bt_values. by exists k.
Qed.

(** ** Framing is injective *)

Lemma frame_app_inj p q r s :
  (slen p <= u64_max)%N → (slen q <= u64_max)%N →
  frame p ++ r = frame q ++ s → p = q ∧ r = s.
Proof.
  unfold frame, to_be_bytes. intros Hp Hq H. rewrite <- !app_assoc in H.
  apply app_inj_1 in H as [H1 H2]; [|by rewrite !length_rev, !length_le_bytes].
  apply (f_equal (@rev ascii)) in H1. rewrite !rev_involutive in H1.
  apply le_bytes_inj in H1; [|unfold u64_max in *; change (256 ^ N.of_nat 8)%N with 18446744073709551616%N; lia..].
  assert (length (bytes p) = length (bytes q)) as Hl.
  { apply Nat2N.inj. by rewrite !length_bytes. }
  apply app_inj_1 in H2 as [H2 ->]; [|done]. split; [|done].
  by rewrite <- (of_bytes_bytes p), H2, of_bytes_bytes.
Qed.

Lemma framed_inj ps qs :
  Forall (λ p, slen p <= u64_max)%N ps → Forall (λ p, slen p <= u64_max)%N qs →
  framed ps = framed qs → ps = qs.
Proof.
  unfold framed. intros Hps. revert qs.
  assert (Hne : ∀ p, frame p ≠ []).
  { intros p Hp. apply (f_equal length) in Hp. unfold frame, to_be_bytes in Hp.
    rewrite length_app, length_rev, length_le_bytes in Hp. cbn in Hp. lia. }
  induction Hps as [|p ps Hp Hps IH]; intros [|q qs] Hqs H; cbn -[frame] in H.
  - done.
  - symmetry in H. apply app_eq_nil in H as [H _]. by apply Hne in H.
  - apply app_eq_nil in H as [H _]. by apply Hne in H.
  - apply Forall_cons in Hqs as [Hq Hqs].
    apply frame_app_inj in H as [-> H]; [|done..]. f_equal. by apply IH.
Qed.

Lemma identity_inj {sha : Sha256} d1 d2 ps1 ps2 :
  Forall (λ p, slen p <= u64_max)%N (d1 :: ps1) →
  Forall (λ p, slen p <= u64_max)%N (d2 :: ps2) →
  identity d1 ps1 = identity d2 ps2 → (d1 = d2 ∧ ps1 = ps2) ∨ sha256_collision.
Proof.
  unfold identity. intros H1 H2 H. apply (inj (String.append _)) in H.
  destruct (decide (framed (d1 :: ps1) = framed (d2 :: ps2))) as [E|E].
  - left. apply framed_inj in E; [|done..]. by injection E.
  - right. by eexists _, _.
Qed.

(** Identifiers are domain separated: two calls of [identity] give the same
    identifier only if domain and parts agree, or SHA-256 maps two different byte
    strings to one digest.  In particular no choice of parts can be regrouped or
    shifted into another.  (Parts are shorter than 2^64 bytes, as every Rust
    string is.) *)
Theorem identity_domain_separated {sha : Sha256} d1 d2 ps1 ps2 :
  Forall (λ p, slen p <= u64_max)%N (d1 :: ps1) →
  Forall (λ p, slen p <= u64_max)%N (d2 :: ps2) →
  identity d1 ps1 = identity d2 ps2 →
  (d1 = d2 ∧ ps1 = ps2) ∨
  ∃ x y : list ascii, x ≠ y ∧ sha256_hex x = sha256_hex y.
Proof. apply identity_inj. Qed.

(** ** A concrete digest for examples *)

(** A polynomial digest in decimal: 64 lower-case hexadecimal digits. *)
Definition sample_sha : Sha256 := λ l,
  dec0 64 (foldl (λ acc b, (acc * 257 + byte b + 1) mod 10 ^ 60) 7 l)%N.
