(* ===== verification/Review.v ===== *)
(** * The finding ledger

    Model of the first half of
    [crates/development-workflow-contract/src/review.rs]: findings, review
    allocation, review results, remediations and human dispositions.  A ledger
    operation returns the new ledger; on an error the ledger is the old one,
    because the code checks before it writes, or writes to a clone. *)

From S2P Require Import Prelude RustStr Contract.

(** ** Data *)

Inductive Reviewer := Codex | Claude.
#[global] Instance Reviewer_eq_dec : EqDecision Reviewer.
Proof. solve_decision. Defined.
#[global] Instance Reviewer_countable : Countable Reviewer.
Proof.
  refine (inj_countable' (λ r, match r with Codex => false | Claude => true end)
    (λ b, if b then Claude else Codex) _). by intros [].
Defined.

Inductive Severity := Blocking | Advisory.
#[global] Instance Severity_eq_dec : EqDecision Severity.
Proof. solve_decision. Defined.

Inductive FindingState := Open | Disputed | Resolved | Waived | Deferred.
#[global] Instance FindingState_eq_dec : EqDecision FindingState.
Proof. solve_decision. Defined.

Record Finding := {
  f_id : string;
  f_reviewer : Reviewer;
  f_repository : string;
  f_location : string;
  f_failure : string;
  f_resolution : string;
  f_evidence : ArtifactRef;
  f_severity : Severity;
  f_state : FindingState;
  f_history : list string;
}.

Record NewFinding := {
  nf_local_id : string;
  nf_repository : string;
  nf_location : string;
  nf_failure : string;
  nf_resolution : string;
  nf_evidence : ArtifactRef;
  nf_severity : Severity;
  nf_duplicate_of : option string;
  nf_duplicate_reason : option string;
}.
#[global] Instance NewFinding_eq_dec : EqDecision NewFinding.
Proof. solve_decision. Defined.

Inductive Disposition := StillOpen | VerifiedResolved | Reopened.
#[global] Instance Disposition_eq_dec : EqDecision Disposition.
Proof. solve_decision. Defined.

Record ExistingFinding := {
  ef_existing_finding_id : string;
  ef_disposition : Disposition;
  ef_evidence : ArtifactRef;
}.
#[global] Instance ExistingFinding_eq_dec : EqDecision ExistingFinding.
Proof. solve_decision. Defined.

Record ReviewBinding := {
  rb_feature_run_id : string;
  rb_review_id : string;
  rb_stage_execution_id : string;
  rb_reviewer : Reviewer;
  rb_session_id : string;
  rb_candidate : string;
  rb_repositories : gset string;
}.
#[global] Instance ReviewBinding_eq_dec : EqDecision ReviewBinding.
Proof. solve_decision. Defined.

Record ReviewResult := {
  rr_binding : ReviewBinding;
  rr_accepted : bool;
  rr_evidence : ArtifactRef;
  rr_existing_findings : list ExistingFinding;
  rr_new_findings : list NewFinding;
}.
#[global] Instance ReviewResult_eq_dec : EqDecision ReviewResult.
Proof. solve_decision. Defined.

Record ReviewReceipt := {
  rc_request_digest : string;
  rc_result : ReviewResult;
  rc_canonical_ids : gmap string string;
}.

Record Remediation := {
  rm_turn_id : string;
  rm_candidate : string;
  rm_finding_id : string;
  rm_changed_paths : gset string;
  rm_evidence : ArtifactRef;
  rm_dispute : bool;
}.
#[global] Instance Remediation_eq_dec : EqDecision Remediation.
Proof. solve_decision. Defined.

Record HumanDisposition := {
  hd_decision_id : string;
  hd_finding_id : string;
  hd_deferred : bool;
  hd_reason : string;
  hd_tracking_reference : string;
  hd_authority : ArtifactRef;
}.
#[global] Instance HumanDisposition_eq_dec : EqDecision HumanDisposition.
Proof. solve_decision. Defined.

Record FindingLedger := {
  fl_feature_run_id : string;
  fl_findings : gmap string Finding;
  fl_allocated_reviews : gmap string ReviewBinding;
  fl_reviews : gmap string ReviewReceipt;
  fl_remediations : gmap string Remediation;
  fl_human_dispositions : gmap string HumanDisposition;
}.

(** ** Field updates *)

Definition set_state (st : FindingState) (f : Finding) : Finding :=
  {| f_id := f_id f; f_reviewer := f_reviewer f; f_repository := f_repository f;
     f_location := f_location f; f_failure := f_failure f; f_resolution := f_resolution f;
     f_evidence := f_evidence f; f_severity := f_severity f; f_state := st;
     f_history := f_history f |}.
Definition push_history (h : string) (f : Finding) : Finding :=
  {| f_id := f_id f; f_reviewer := f_reviewer f; f_repository := f_repository f;
     f_location := f_location f; f_failure := f_failure f; f_resolution := f_resolution f;
     f_evidence := f_evidence f; f_severity := f_severity f; f_state := f_state f;
     f_history := f_history f ++ [h] |}.

(** [matches!(state, Open | Disputed)]. *)
Definition unresolved (st : FindingState) : bool :=
  match st with Open | Disputed => true | _ => false end.

Definition disposition_debug (d : Disposition) : string :=
  match d with
  | StillOpen => "StillOpen" | VerifiedResolved => "VerifiedResolved" | Reopened => "Reopened"
  end.

Definition FindingLedger_new (feature_run_id : string) : FindingLedger :=
  {| fl_feature_run_id := feature_run_id; fl_findings := ∅; fl_allocated_reviews := ∅;
     fl_reviews := ∅; fl_remediations := ∅; fl_human_dispositions := ∅ |}.

Definition FindingLedger_closed (l : FindingLedger) : bool :=
  forallb (λ f, bool_decide (f_severity f = Advisory) || negb (unresolved (f_state f)))
    (bt_values (fl_findings l)).

(** ** Operations *)

Definition allocate_review (l : FindingLedger) (binding : ReviewBinding) :
    Result FindingLedger :=
  _ ← require (bool_decide (rb_feature_run_id binding = fl_feature_run_id l)
               && negb (is_empty (rb_review_id binding))
               && negb (is_empty (rb_stage_execution_id binding))
               && negb (is_empty (rb_session_id binding))
               && digest_valid (rb_candidate binding)
               && bool_decide (rb_repositories binding ≠ ∅)) "invalid review allocation";
  match fl_allocated_reviews l !! rb_review_id binding with
  | Some old =>
      _ ← require (bool_decide (old = binding)) "review allocation conflict"; Ok l
  | None =>
      Ok {| fl_feature_run_id := fl_feature_run_id l; fl_findings := fl_findings l;
            fl_allocated_reviews := <[rb_review_id binding := binding]> (fl_allocated_reviews l);
            fl_reviews := fl_reviews l; fl_remediations := fl_remediations l;
            fl_human_dispositions := fl_human_dispositions l |}
  end.

(** The state a disposition moves a finding to. *)
Definition disposed_state (d : Disposition) (st : FindingState) : Result FindingState :=
  match d with
  | StillOpen =>
      _ ← require (unresolved st) "closed finding must explicitly reopen"; Ok st
  | VerifiedResolved => Ok Resolved
  | Reopened =>
      _ ← require (match st with Resolved | Waived | Deferred => true | _ => false end)
            "only closed findings reopen"; Ok Open
  end.

(** First loop of [apply_review]: one disposition of an existing finding. *)
Definition apply_existing (binding : ReviewBinding)
    (acc : gmap string Finding * gset string) (item : ExistingFinding) :
    Result (gmap string Finding * gset string) :=
  let '(findings, touched) := acc in
  _ ← ArtifactRef_validate (ef_evidence item);
  _ ← require (bool_decide (ef_existing_finding_id item ∉ touched))
        "conflicting finding dispositions";
  f ← ok_or (ContractError "unknown canonical finding")
        (findings !! ef_existing_finding_id item);
  _ ← require (bool_decide (f_repository f ∈ rb_repositories binding)
               && bool_decide (f_reviewer f = rb_reviewer binding))
        "finding outside reviewer scope";
  st ← disposed_state (ef_disposition item) (f_state f);
  let f' := push_history ("review:" +:+ rb_review_id binding +:+ ":"
              +:+ disposition_debug (ef_disposition item) +:+ ":"
              +:+ art_digest (ef_evidence item)) (set_state st f) in
  Ok (<[ef_existing_finding_id item := f']> findings,
      {[ef_existing_finding_id item]} ∪ touched).

Section with_sha.
Context {sha : Sha256}.

Definition finding_identity (feature review local : string) : string :=
  identity "finding/v1" [feature; review; local].

(** Second loop: one new finding, either an alias of a finding of the ledger as
    it was before the review ([pre]) or a fresh one. *)
Definition apply_new (feature : string) (pre : gmap string Finding) (touched : gset string)
    (binding : ReviewBinding) (acc : gmap string Finding * gmap string string)
    (item : NewFinding) : Result (gmap string Finding * gmap string string) :=
  let '(findings, canonical_ids) := acc in
  _ ← require (negb (blank (nf_local_id item)) && negb (blank (nf_location item))
               && negb (blank (nf_failure item)) && negb (blank (nf_resolution item))
               && bool_decide (nf_repository item ∈ rb_repositories binding))
        "invalid new finding";
  _ ← require (bool_decide (canonical_ids !! nf_local_id item = None))
        "duplicate local finding ID";
  _ ← ArtifactRef_validate (nf_evidence item);
  match nf_duplicate_of item with
  | Some existing =>
      _ ← require (match nf_duplicate_reason item with
                   | Some r => negb (blank r) | None => false end)
            "duplicate explanation required";
      old ← ok_or (ContractError "unknown duplicate reference") (pre !! existing);
      _ ← require (bool_decide (f_repository old = nf_repository item)
                   && bool_decide (f_reviewer old = rb_reviewer binding)
                   && unresolved (f_state old)
                   && bool_decide (existing ∉ touched)) "ambiguous duplicate reference";
      f ← ok_or (Panic "next.findings.get_mut(existing).unwrap()") (findings !! existing);
      reason ← ok_or (Panic "item.duplicate_reason.unwrap()") (nf_duplicate_reason item);
      let f' := push_history ("alias:" +:+ rb_review_id binding +:+ ":"
                  +:+ nf_local_id item +:+ ":" +:+ reason) f in
      Ok (<[existing := f']> findings, <[nf_local_id item := existing]> canonical_ids)
  | None =>
      _ ← require (bool_decide (nf_duplicate_reason item = None))
            "duplicate reason without reference";
      let id := finding_identity feature (rb_review_id binding) (nf_local_id item) in
      _ ← require (bool_decide (findings !! id = None)) "finding identity collision";
      let f := {| f_id := id; f_reviewer := rb_reviewer binding;
                  f_repository := nf_repository item; f_location := nf_location item;
                  f_failure := nf_failure item; f_resolution := nf_resolution item;
                  f_evidence := nf_evidence item; f_severity := nf_severity item;
                  f_state := Open;
                  f_history := ["created:" +:+ rb_review_id binding +:+ ":"
                                +:+ nf_local_id item] |} in
      Ok (<[id := f]> findings, <[nf_local_id item := id]> canonical_ids)
  end.

Context `{!Serialize ReviewResult}.

Definition apply_review (l : FindingLedger) (res : ReviewResult) :
    Result (FindingLedger * ReviewReceipt) :=
  let binding := rr_binding res in
  let review_id := rb_review_id binding in
  _ ← require (bool_decide (fl_allocated_reviews l !! review_id = Some binding))
        "unallocated or changed review binding";
  request_digest ← fingerprint res;
  match fl_reviews l !! review_id with
  | Some old =>
      _ ← require (bool_decide (rc_request_digest old = request_digest))
            "review replay conflict";
      Ok (l, old)
  | None =>
      _ ← ArtifactRef_validate (rr_evidence res);
      '(findings, touched) ←
         for_each (apply_existing binding) (fl_findings l, ∅) (rr_existing_findings res);
      '(findings, canonical_ids) ←
         for_each (apply_new (fl_feature_run_id l) (fl_findings l) touched binding)
           (findings, ∅) (rr_new_findings res);
      let next := {| fl_feature_run_id := fl_feature_run_id l; fl_findings := findings;
                     fl_allocated_reviews := fl_allocated_reviews l;
                     fl_reviews := fl_reviews l; fl_remediations := fl_remediations l;
                     fl_human_dispositions := fl_human_dispositions l |} in
      _ ← require (negb (rr_accepted res) || FindingLedger_closed next)
            "accepted verdict has unresolved findings";
      let receipt := {| rc_request_digest := request_digest; rc_result := res;
                        rc_canonical_ids := canonical_ids |} in
      Ok ({| fl_feature_run_id := fl_feature_run_id l; fl_findings := findings;
             fl_allocated_reviews := fl_allocated_reviews l;
             fl_reviews := <[review_id := receipt]> (fl_reviews l);
             fl_remediations := fl_remediations l;
             fl_human_dispositions := fl_human_dispositions l |}, receipt)
  end.

Definition remediation_key (l : FindingLedger) (item : Remediation) : string :=
  identity "remediation/v1" [fl_feature_run_id l; rm_turn_id item; rm_finding_id item].

Definition remediate (l : FindingLedger) (item : Remediation) : Result FindingLedger :=
  _ ← require (negb (is_empty (rm_turn_id item)) && digest_valid (rm_candidate item))
        "invalid remediation";
  _ ← ArtifactRef_validate (rm_evidence item);
  let key := remediation_key l item in
  match fl_remediations l !! key with
  | Some old => _ ← require (bool_decide (old = item)) "remediation replay conflict"; Ok l
  | None =>
      f ← ok_or (ContractError "unknown remediation finding")
            (fl_findings l !! rm_finding_id item);
      _ ← require (unresolved (f_state f)) "remediation requires open finding";
      _ ← require (rm_dispute item || bool_decide (rm_changed_paths item ≠ ∅))
            "fix has no changed paths";
      let f' := push_history ("remediation:" +:+ rm_turn_id item +:+ ":"
                  +:+ art_digest (rm_evidence item))
                  (if rm_dispute item then set_state Disputed f else f) in
      Ok {| fl_feature_run_id := fl_feature_run_id l;
            fl_findings := <[rm_finding_id item := f']> (fl_findings l);
            fl_allocated_reviews := fl_allocated_reviews l; fl_reviews := fl_reviews l;
            fl_remediations := <[key := item]> (fl_remediations l);
            fl_human_dispositions := fl_human_dispositions l |}
  end.
End with_sha.

Definition dispose_by_human (l : FindingLedger) (item : HumanDisposition) :
    Result FindingLedger :=
  _ ← require (negb (is_empty (hd_decision_id item)) && negb (blank (hd_reason item))
               && negb (blank (hd_tracking_reference item)))
        "human disposition needs reason and tracking";
  _ ← ArtifactRef_validate (hd_authority item);
  match fl_human_dispositions l !! hd_decision_id item with
  | Some old => _ ← require (bool_decide (old = item)) "human disposition conflict"; Ok l
  | None =>
      f ← ok_or (ContractError "unknown human finding") (fl_findings l !! hd_finding_id item);
      _ ← require (unresolved (f_state f)) "finding already closed";
      let f' := push_history ("human:" +:+ hd_decision_id item +:+ ":"
                  +:+ art_digest (hd_authority item))
                  (set_state (if hd_deferred item then Deferred else Waived) f) in
      Ok {| fl_feature_run_id := fl_feature_run_id l;
            fl_findings := <[hd_finding_id item := f']> (fl_findings l);
            fl_allocated_reviews := fl_allocated_reviews l; fl_reviews := fl_reviews l;
            fl_remediations := fl_remediations l;
            fl_human_dispositions :=
              <[hd_decision_id item := item]> (fl_human_dispositions l) |}
  end.
