(* ===== verification/ReviewFacts.v ===== *)
(** * Properties of the finding ledger

    The operations of [Review] as a transition system: an append-only audit
    trail, a well-formedness invariant, evidence for every closed finding, what
    implementers cannot do, replay, and freedom from panics. *)

From S2P Require Import Prelude RustStr Contract Review.

(** ** How findings evolve *)

(** The descriptive fields of a finding never change and its history only grows. *)
Definition finding_evolves (f f' : Finding) : Prop :=
  f_id f' = f_id f ∧ f_reviewer f' = f_reviewer f ∧ f_repository f' = f_repository f ∧
  f_location f' = f_location f ∧ f_failure f' = f_failure f ∧
  f_resolution f' = f_resolution f ∧ f_evidence f' = f_evidence f ∧
  f_severity f' = f_severity f ∧ f_history f `prefix_of` f_history f'.

Definition findings_evolve (m m' : gmap string Finding) : Prop :=
  ∀ k f, m !! k = Some f → ∃ f', m' !! k = Some f' ∧ finding_evolves f f'.

#[global] Instance finding_evolves_preorder : PreOrder finding_evolves.
Proof.
  split; [by intros f; unfold finding_evolves; repeat split|].
  unfold finding_evolves. intros f g h ?? . destruct_and!. repeat split; try congruence.
  by etrans.
Qed.

#[global] Instance findings_evolve_preorder : PreOrder findings_evolve.
Proof.
  split; [by intros m k f ?; eexists|].
  intros m1 m2 m3 H12 H23 k f Hf. destruct (H12 k f Hf) as (f' & Hf' & ?).
  destruct (H23 k f' Hf') as (f'' & ? & ?). exists f''. split; [done|]. by etrans.
Qed.

Lemma findings_evolve_insert m k f f' :
  m !! k = Some f → finding_evolves f f' → findings_evolve m (<[k:=f']> m).
Proof.
  intros Hk Hf k0 f0 H0. destruct (decide (k = k0)) as [->|Hne]; simplify_map_eq; eauto.
  exists f0. split; [done|reflexivity].
Qed.

Lemma findings_evolve_fresh m k f : m !! k = None → findings_evolve m (<[k:=f]> m).
Proof.
  intros Hk k0 f0 H0. exists f0. split; [|reflexivity].
  rewrite lookup_insert_ne; [done|congruence].
Qed.

Lemma push_history_evolves h f : finding_evolves f (push_history h f).
Proof. unfold finding_evolves; cbn. repeat split. by apply prefix_app_r. Qed.

Lemma set_state_evolves st f : finding_evolves f (set_state st f).
Proof. by unfold finding_evolves; cbn. Qed.
#[export] Hint Resolve push_history_evolves set_state_evolves findings_evolve_insert
  findings_evolve_fresh : fabric.

(** ** The two loops of a review *)

Lemma apply_existing_inv binding fs touched item fs' touched' :
  apply_existing binding (fs, touched) item = Ok (fs', touched') →
  ∃ f st h, fs !! ef_existing_finding_id item = Some f ∧
    artifact_ok (ef_evidence item) ∧ f_reviewer f = rb_reviewer binding ∧
    f_repository f ∈ rb_repositories binding ∧
    disposed_state (ef_disposition item) (f_state f) = Ok st ∧
    fs' = <[ef_existing_finding_id item := push_history h (set_state st f)]> fs ∧
    touched' = {[ef_existing_finding_id item]} ∪ touched.
Proof.
  unfold apply_existing. intros H. inv_checks. subst. simplify_eq.
  eexists _, _, _. split_and!; eauto.
Qed.

Section with_sha.
Context {sha : Sha256}.

Lemma apply_new_inv feature pre touched binding fs ids item fs' ids' :
  apply_new feature pre touched binding (fs, ids) item = Ok (fs', ids') →
  (∃ k f h, nf_duplicate_of item = Some k ∧ fs !! k = Some f ∧
     fs' = <[k := push_history h f]> fs) ∨
  (∃ f, let k := finding_identity feature (rb_review_id binding) (nf_local_id item) in
     fs' = <[k := f]> fs ∧ fs !! k = None ∧ f_id f = k ∧ f_state f = Open ∧
     f_severity f = nf_severity item ∧ f_reviewer f = rb_reviewer binding).
Proof.
  unfold apply_new. intros H. inv_checks. destruct (nf_duplicate_of item) as [k|].
  - left. inv_checks. simplify_eq. eauto 10.
  - right. inv_checks. simplify_eq. eexists. split_and!; done.
Qed.

Lemma apply_existing_evolves binding items fs touched fs' touched' :
  for_each (apply_existing binding) (fs, touched) items = Ok (fs', touched') →
  findings_evolve fs fs'.
Proof.
  intros H. eapply (for_each_inv (λ s, findings_evolve fs s.1)) in H; [done| |reflexivity].
  intros [m t] item [m' t'] _ Hm (f & st & h & Hf & _ & _ & _ & _ & -> & _)%apply_existing_inv.
  cbn in *. etrans; [done|]. eapply findings_evolve_insert; [done|]. etrans; auto with fabric.
Qed.

Lemma apply_new_evolves feature pre touched binding items fs ids fs' ids' :
  for_each (apply_new feature pre touched binding) (fs, ids) items = Ok (fs', ids') →
  findings_evolve fs fs'.
Proof.
  intros H. eapply (for_each_inv (λ s, findings_evolve fs s.1)) in H; [done| |reflexivity].
  intros [m t] item [m' t'] _ Hm [(k & f & h & _ & Hf & ->)|(f & -> & Hk & _)]%apply_new_inv;
    cbn in *; (etrans; [done|]); eauto with fabric.
Qed.

Context `{!Serialize ReviewResult}.

(** ** The transition system *)

Inductive ledger_step : relation FindingLedger :=
| step_allocate l b l' : allocate_review l b = Ok l' → ledger_step l l'
| step_review l res l' rc : apply_review l res = Ok (l', rc) → ledger_step l l'
| step_remediate l item l' : remediate l item = Ok l' → ledger_step l l'
| step_human l item l' : dispose_by_human l item = Ok l' → ledger_step l l'.

(** What a review changes, on its non-replay branch. *)
Lemma apply_review_inv l res l' rc :
  apply_review l res = Ok (l', rc) →
  fl_allocated_reviews l !! rb_review_id (rr_binding res) = Some (rr_binding res) ∧
  ∃ digest, fingerprint res = Ok digest ∧
  ((fl_reviews l !! rb_review_id (rr_binding res) = Some rc ∧
    rc_request_digest rc = digest ∧ l' = l) ∨
   (∃ fs touched ids, fl_reviews l !! rb_review_id (rr_binding res) = None ∧
      artifact_ok (rr_evidence res) ∧
      for_each (apply_existing (rr_binding res)) (fl_findings l, ∅)
        (rr_existing_findings res) = Ok (fs, touched) ∧
      for_each (apply_new (fl_feature_run_id l) (fl_findings l) touched (rr_binding res))
        (fs, ∅) (rr_new_findings res) = Ok (fl_findings l', ids) ∧
      (rr_accepted res = true → FindingLedger_closed l' = true) ∧
      rc = {| rc_request_digest := digest; rc_result := res; rc_canonical_ids := ids |} ∧
      fl_feature_run_id l' = fl_feature_run_id l ∧
      fl_allocated_reviews l' = fl_allocated_reviews l ∧
      fl_reviews l' = <[rb_review_id (rr_binding res) := rc]> (fl_reviews l) ∧
      fl_remediations l' = fl_remediations l ∧
      fl_human_dispositions l' = fl_human_dispositions l)).
Proof.
  unfold apply_review. intros H. inv_checks. split; [done|]. eexists. split; [done|].
  destruct (fl_reviews l !! rb_review_id (rr_binding res)) as [old|] eqn:E.
  - left. inv_checks. simplify_eq. done.
  - right. inv_ok. match goal with H : (let '(_, _) := ?p in _) = _ |- _ => destruct p end.
    inv_ok. match goal with H : (let '(_, _) := ?p in _) = _ |- _ => destruct p end.
    inv_checks. simplify_eq. eexists _, _, _. split_and!; eauto. intros Ha.
    match goal with H : negb _ || _ = true |- _ => by rewrite Ha in H end.
Qed.

(** ** The audit trail is append-only *)

Definition ledger_extends (l l' : FindingLedger) : Prop :=
  fl_feature_run_id l' = fl_feature_run_id l ∧
  findings_evolve (fl_findings l) (fl_findings l') ∧
  fl_allocated_reviews l ⊆ fl_allocated_reviews l' ∧
  fl_reviews l ⊆ fl_reviews l' ∧
  fl_remediations l ⊆ fl_remediations l' ∧
  fl_human_dispositions l ⊆ fl_human_dispositions l'.

#[local] Instance ledger_extends_preorder : PreOrder ledger_extends.
Proof.
  split; [by intros l; split_and!|].
  intros l1 l2 l3 (?&?&?&?&?&?) (?&?&?&?&?&?). split_and!; [congruence|by etrans..].
Qed.

Lemma remediate_inv l item l' :
  remediate l item = Ok l' →
  l' = l ∨
  ∃ f f', fl_findings l !! rm_finding_id item = Some f ∧ unresolved (f_state f) = true ∧
    finding_evolves f f' ∧
    f_state f' = (if rm_dispute item then Disputed else f_state f) ∧
    fl_remediations l !! remediation_key l item = None ∧
    l' = {| fl_feature_run_id := fl_feature_run_id l;
            fl_findings := <[rm_finding_id item := f']> (fl_findings l);
            fl_allocated_reviews := fl_allocated_reviews l; fl_reviews := fl_reviews l;
            fl_remediations := <[remediation_key l item := item]> (fl_remediations l);
            fl_human_dispositions := fl_human_dispositions l |}.
Proof.
  unfold remediate. intros H. inv_ok. case_match; inv_checks; simplify_eq; [by left|].
  right. eexists _, _. split_and!; [done|done|..|done|reflexivity].
  - etrans; [|apply push_history_evolves]. destruct (rm_dispute item); auto with fabric. reflexivity.
  - by destruct (rm_dispute item).
Qed.

Lemma dispose_by_human_inv l item l' :
  dispose_by_human l item = Ok l' →
  l' = l ∨
  ∃ f f', fl_findings l !! hd_finding_id item = Some f ∧ unresolved (f_state f) = true ∧
    finding_evolves f f' ∧
    f_state f' = (if hd_deferred item then Deferred else Waived) ∧
    artifact_ok (hd_authority item) ∧
    fl_human_dispositions l !! hd_decision_id item = None ∧
    l' = {| fl_feature_run_id := fl_feature_run_id l;
            fl_findings := <[hd_finding_id item := f']> (fl_findings l);
            fl_allocated_reviews := fl_allocated_reviews l; fl_reviews := fl_reviews l;
            fl_remediations := fl_remediations l;
            fl_human_dispositions :=
              <[hd_decision_id item := item]> (fl_human_dispositions l) |}.
Proof.
  unfold dispose_by_human. intros H. inv_ok. case_match; inv_checks; simplify_eq; [by left|].
  right. eexists _, _. split_and!; [done|done|..|done|done|reflexivity]; [|done].
  etrans; auto with fabric.
Qed.

Lemma allocate_review_inv l b l' :
  allocate_review l b = Ok l' →
  l' = l ∨
  fl_allocated_reviews l !! rb_review_id b = None ∧
  rb_feature_run_id b = fl_feature_run_id l ∧ digest_valid (rb_candidate b) = true ∧
  rb_repositories b ≠ ∅ ∧
  l' = {| fl_feature_run_id := fl_feature_run_id l; fl_findings := fl_findings l;
          fl_allocated_reviews := <[rb_review_id b := b]> (fl_allocated_reviews l);
          fl_reviews := fl_reviews l; fl_remediations := fl_remediations l;
          fl_human_dispositions := fl_human_dispositions l |}.
Proof.
  unfold allocate_review. intros H. inv_checks. case_match; inv_checks; simplify_eq; [by left|].
  by right.
Qed.

Lemma ledger_step_extends l l' : ledger_step l l' → ledger_extends l l'.
Proof.
  intros [l0 b l1 H|l0 res l1 rc H|l0 item l1 H|l0 item l1 H].
  - apply allocate_review_inv in H as [->|(Hn & _ & _ & _ & ->)]; [reflexivity|].
    split_and!; cbn; try done. by apply insert_subseteq.
  - apply apply_review_inv in H as (_ & d & _ & [(_ & _ & ->)|(fs & t & ids & Hn & _ & H1 & H2 & _ & _ & E1 & E2 & E3 & E4 & E5)]);
      [reflexivity|].
    unfold ledger_extends. rewrite E1, E2, E3, E4, E5.
    split_and!; try done; [|by apply insert_subseteq].
    etrans; [by eapply apply_existing_evolves|by eapply apply_new_evolves].
  - apply remediate_inv in H as [->|(f & f' & Hf & _ & ? & _ & Hn & ->)]; [reflexivity|].
    split_and!; cbn; try done; [by eapply findings_evolve_insert|by apply insert_subseteq].
  - apply dispose_by_human_inv in H as [->|(f & f' & Hf & _ & ? & _ & _ & Hn & ->)]; [reflexivity|].
    split_and!; cbn; try done; [by eapply findings_evolve_insert|by apply insert_subseteq].
Qed.

(** ** Well-formed ledgers *)

(** [res] verified that finding [k] (with its original reviewer) is resolved. *)
Definition verifies_resolved (res : ReviewResult) (k : string) (f : Finding) : Prop :=
  rb_reviewer (rr_binding res) = f_reviewer f ∧
  ∃ item, item ∈ rr_existing_findings res ∧ ef_existing_finding_id item = k ∧
    ef_disposition item = VerifiedResolved ∧ artifact_ok (ef_evidence item).

(** Evidence for the state of a finding: a closed finding was resolved by one of
    the review results [R] or disposed of by one of the human decisions [hs]. *)
Definition justified (R : ReviewResult → Prop) (hs : gmap string HumanDisposition)
    (k : string) (f : Finding) : Prop :=
  match f_state f with
  | Open | Disputed => True
  | Resolved => ∃ res, R res ∧ verifies_resolved res k f
  | Waived => ∃ d h, hs !! d = Some h ∧ hd_finding_id h = k ∧ hd_deferred h = false ∧
                artifact_ok (hd_authority h)
  | Deferred => ∃ d h, hs !! d = Some h ∧ hd_finding_id h = k ∧ hd_deferred h = true ∧
                  artifact_ok (hd_authority h)
  end.

Definition persisted (reviews : gmap string ReviewReceipt) (res : ReviewResult) : Prop :=
  ∃ id rc, reviews !! id = Some rc ∧ rc_result rc = res.

Record ledger_wf (l : FindingLedger) : Prop := {
  wf_finding_key : ∀ k f, fl_findings l !! k = Some f → f_id f = k;
  wf_allocated : ∀ k b, fl_allocated_reviews l !! k = Some b →
    rb_review_id b = k ∧ rb_feature_run_id b = fl_feature_run_id l ∧
    digest_valid (rb_candidate b) = true ∧ rb_repositories b ≠ ∅;
  wf_review : ∀ k rc, fl_reviews l !! k = Some rc →
    fl_allocated_reviews l !! k = Some (rr_binding (rc_result rc)) ∧
    artifact_ok (rr_evidence (rc_result rc));
  wf_human : ∀ k h, fl_human_dispositions l !! k = Some h → hd_decision_id h = k;
  wf_closed : ∀ k f, fl_findings l !! k = Some f →
    justified (persisted (fl_reviews l)) (fl_human_dispositions l) k f;
}.

Lemma justified_weaken (R R' : ReviewResult → Prop) hs hs' k f :
  (∀ r, R r → R' r) → hs ⊆ hs' → justified R hs k f → justified R' hs' k f.
Proof.
  unfold justified. intros HR Hhs. destruct (f_state f); try done.
  - intros (r & ? & ?). eauto.
  - intros (d & h & ? & ?). exists d, h. split; [by eapply lookup_weaken|done].
  - intros (d & h & ? & ?). exists d, h. split; [by eapply lookup_weaken|done].
Qed.

(** Keys and justification, the part of the invariant a review rewrites. *)
Definition findings_wf (R : ReviewResult → Prop) hs (m : gmap string Finding) : Prop :=
  ∀ k f, m !! k = Some f → f_id f = k ∧ justified R hs k f.

Lemma findings_wf_insert R hs m k f :
  findings_wf R hs m → f_id f = k → justified R hs k f → findings_wf R hs (<[k:=f]> m).
Proof. intros Hm ?? k' f' [[<- <-]|[? ?]]%lookup_insert_Some; eauto. Qed.

Lemma disposed_state_justified R hs res item f st h :
  R res → item ∈ rr_existing_findings res → artifact_ok (ef_evidence item) →
  f_reviewer f = rb_reviewer (rr_binding res) →
  disposed_state (ef_disposition item) (f_state f) = Ok st →
  justified R hs (ef_existing_finding_id item) f →
  justified R hs (ef_existing_finding_id item) (push_history h (set_state st f)).
Proof.
  unfold disposed_state. intros HR Hin Hev Hrev Hst Hj.
  destruct (ef_disposition item) eqn:Ed; inv_checks; simplify_eq; cbn.
  - done.
  - exists res. split; [done|]. split; [done|]. exists item. done.
  - done.
Qed.

Lemma apply_existing_wf R hs res fs touched fs' touched' :
  R res → findings_wf R hs fs →
  for_each (apply_existing (rr_binding res)) (fs, touched) (rr_existing_findings res)
    = Ok (fs', touched') →
  findings_wf R hs fs'.
Proof.
  intros HR Hwf H. eapply (for_each_inv (λ s, findings_wf R hs s.1)) in H; [done| |done].
  intros [m t] item [m' t'] Hin Hm (f & st & h & Hf & Hev & Hr & _ & Hst & -> & _)%apply_existing_inv.
  cbn in *. destruct (Hm _ _ Hf). apply findings_wf_insert; [done|done|].
  by eapply disposed_state_justified.
Qed.

Lemma apply_new_wf R hs feature pre touched binding items fs ids fs' ids' :
  findings_wf R hs fs →
  for_each (apply_new feature pre touched binding) (fs, ids) items = Ok (fs', ids') →
  findings_wf R hs fs'.
Proof.
  intros Hwf H. eapply (for_each_inv (λ s, findings_wf R hs s.1)) in H; [done| |done].
  intros [m t] item [m' t'] _ Hm [(k & f & h & _ & Hf & ->)|(f & -> & Hk & Hid & Hst & _)]%apply_new_inv;
    cbn in *.
  - destruct (Hm _ _ Hf). by apply findings_wf_insert.
  - apply findings_wf_insert; [done|done|]. unfold justified. by rewrite Hst.
Qed.

Lemma ledger_wf_findings l :
  ledger_wf l → findings_wf (persisted (fl_reviews l)) (fl_human_dispositions l) (fl_findings l).
Proof. intros Hwf k f Hf. split; [by eapply wf_finding_key|by eapply wf_closed]. Qed.

Lemma persisted_insert reviews id rc res :
  reviews !! id = None → persisted reviews res → persisted (<[id:=rc]> reviews) res.
Proof. intros Hn (id' & rc' & H & ?). exists id', rc'. by rewrite lookup_insert_ne by congruence. Qed.

Lemma ledger_wf_new id : ledger_wf (FindingLedger_new id).
Proof. split; cbn; intros *; by rewrite lookup_empty. Qed.

Lemma allocate_review_wf l b l' : ledger_wf l → allocate_review l b = Ok l' → ledger_wf l'.
Proof.
  intros Hwf [->|(Hn & Hfr & Hd & Hr & ->)]%allocate_review_inv; [done|].
  split; cbn; [apply Hwf|..|apply Hwf|apply Hwf].
  - intros k b' [[<- <-]|[? ?]]%lookup_insert_Some; [done|]. by apply (wf_allocated _ Hwf).
  - intros k rc Hk. destruct (wf_review _ Hwf _ _ Hk). split; [|done].
    rewrite lookup_insert_ne; [done|]. intros <-. congruence.
Qed.

Lemma apply_review_wf l res l' rc : ledger_wf l → apply_review l res = Ok (l', rc) → ledger_wf l'.
Proof.
  intros Hwf (Hb & d & _ & [(_ & _ & ->)|(fs & t & ids & Hn & Hev & H1 & H2 & _ & -> & E1 & E2 & E3 & E4 & E5)])%apply_review_inv;
    [done|].
  set (rc := Build_ReviewReceipt d res ids) in *.
  assert (Hj : findings_wf (persisted (fl_reviews l')) (fl_human_dispositions l') (fl_findings l')).
  { rewrite E3, E5. eapply apply_new_wf; [|exact H2]. eapply apply_existing_wf; [| |exact H1].
    - exists (rb_review_id (rr_binding res)), rc. by rewrite lookup_insert_eq.
    - intros k f Hf. destruct (ledger_wf_findings _ Hwf _ _ Hf). split; [done|].
      eapply justified_weaken; [|done|done]. intros r. by apply persisted_insert. }
  split.
  - intros k f Hf. by destruct (Hj k f Hf).
  - rewrite E1, E2. apply Hwf.
  - rewrite E2, E3. intros k rc' [[<- <-]|[? ?]]%lookup_insert_Some; [done|]. by apply Hwf.
  - rewrite E5. apply Hwf.
  - intros k f Hf. by destruct (Hj k f Hf).
Qed.

Lemma remediate_wf l item l' : ledger_wf l → remediate l item = Ok l' → ledger_wf l'.
Proof.
  intros Hwf [->|(f & f' & Hf & Hu & Hev & Hst & Hn & ->)]%remediate_inv; [done|].
  assert (Hj : findings_wf (persisted (fl_reviews l)) (fl_human_dispositions l)
                 (<[rm_finding_id item := f']> (fl_findings l))).
  { apply findings_wf_insert; [by apply ledger_wf_findings| |].
    - destruct Hev as [-> _]. by apply Hwf.
    - unfold justified. rewrite Hst. destruct (rm_dispute item); [done|]. by destruct (f_state f). }
  split; cbn; [intros; by eapply Hj|apply Hwf..|intros; by eapply Hj].
Qed.

Lemma dispose_by_human_wf l item l' :
  ledger_wf l → dispose_by_human l item = Ok l' → ledger_wf l'.
Proof.
  intros Hwf [->|(f & f' & Hf & Hu & Hev & Hst & Hau & Hn & ->)]%dispose_by_human_inv; [done|].
  assert (Hj : findings_wf (persisted (fl_reviews l))
                 (<[hd_decision_id item := item]> (fl_human_dispositions l))
                 (<[hd_finding_id item := f']> (fl_findings l))).
  { apply findings_wf_insert.
    - intros k g Hg. destruct (ledger_wf_findings _ Hwf _ _ Hg). split; [done|].
      eapply justified_weaken; [done|by apply insert_subseteq|done].
    - destruct Hev as [-> _]. by apply Hwf.
    - unfold justified. rewrite Hst. destruct (hd_deferred item) eqn:E;
        exists (hd_decision_id item), item; by rewrite lookup_insert_eq. }
  split; cbn; [intros; by eapply Hj|apply Hwf..| |intros; by eapply Hj].
  intros k h [[<- <-]|[? ?]]%lookup_insert_Some; [done|]. by apply Hwf.
Qed.

Lemma ledger_step_wf l l' : ledger_wf l → ledger_step l l' → ledger_wf l'.
Proof.
  intros Hwf H. revert Hwf.
  destruct H; eauto using allocate_review_wf, apply_review_wf, remediate_wf, dispose_by_human_wf.
Qed.

(** ** Properties *)

(** The ledger is an append-only audit trail: along any sequence of
    operations no finding disappears or changes its description, its history
    only grows, and no allocation, review receipt, remediation or human decision
    is removed or replaced. *)
Theorem ledger_append_only l l' : rtc ledger_step l l' → ledger_extends l l'.
Proof. induction 1; [reflexivity|]. etrans; [by apply ledger_step_extends|done]. Qed.

(** C2 Every ledger reachable from a new one is well formed; in particular each
    closed finding has its evidence on record: a persisted review by the finding's
    own reviewer that verified the resolution, or a human decision with a valid
    authority receipt. *)
Theorem ledger_reachable_wf id l : rtc ledger_step (FindingLedger_new id) l → ledger_wf l.
Proof.
  intros H. eapply (rtc_invariant ledger_step ledger_wf); [|apply ledger_wf_new|done].
  intros. by eapply ledger_step_wf.
Qed.

(** An implementer can record evidence or a dispute but never closes a
    finding: a remediation leaves the set of unresolved findings, and so the
    verdict of [closed], as it was. *)
Theorem remediate_never_closes l item l' :
  remediate l item = Ok l' →
  (∀ k f, fl_findings l !! k = Some f → ∃ f', fl_findings l' !! k = Some f' ∧
     unresolved (f_state f') = unresolved (f_state f)) ∧
  dom (fl_findings l') = dom (fl_findings l).
Proof.
  intros [->|(f & f' & Hf & Hu & Hev & Hst & Hn & ->)]%remediate_inv; [naive_solver|]. cbn. split.
  - intros k g Hg. destruct (decide (rm_finding_id item = k)) as [<-|Hne].
    + exists f'. rewrite lookup_insert_eq. split; [done|]. simplify_eq. rewrite Hst, Hu.
      by destruct (rm_dispute item).
    + exists g. by rewrite lookup_insert_ne.
  - rewrite dom_insert_L. apply elem_of_dom_2 in Hf. set_solver.
Qed.

(** Delivering the same review result again returns the stored receipt and
    changes nothing. *)
Theorem apply_review_replay l res l' rc :
  apply_review l res = Ok (l', rc) → apply_review l' res = Ok (l', rc).
Proof.
  intros H. pose proof H as (Hb & d & Hd & Hcase)%apply_review_inv.
  assert (Ha : fl_allocated_reviews l' !! rb_review_id (rr_binding res) = Some (rr_binding res)
               ∧ fl_reviews l' !! rb_review_id (rr_binding res) = Some rc
               ∧ rc_request_digest rc = d).
  { destruct Hcase as [(? & ? & ->)|(fs & t & ids & _ & _ & _ & _ & _ & -> & _ & -> & -> & _)];
      [done|]. by rewrite lookup_insert_eq. }
  destruct Ha as (Ha & Hr & Hrd). unfold apply_review. rewrite Ha, bool_decide_eq_true_2 by done. cbn. rewrite Hd. cbn.
  rewrite Hr. cbn. by rewrite bool_decide_eq_true_2.
Qed.

(** An accepted review leaves no blocking finding unresolved. *)
Theorem accepted_review_closes l res l' rc :
  apply_review l res = Ok (l', rc) → fl_reviews l !! rb_review_id (rr_binding res) = None →
  rr_accepted res = true →
  ∀ k f, fl_findings l' !! k = Some f → f_severity f = Blocking → unresolved (f_state f) = false.
Proof.
  intros (_ & d & _ & [(? & _)|(fs & t & ids & _ & _ & _ & _ & Hc & _)])%apply_review_inv Hn Hacc k f Hf Hs;
    [congruence|].
  specialize (Hc Hacc). unfold FindingLedger_closed in Hc. rewrite forallb_forall in Hc.
  specialize (Hc f). rewrite <- list_elem_of_In, elem_of_bt_values, Hs in Hc.
  specialize (Hc (ex_intro _ k Hf)). bool_prop. naive_solver.
Qed.

Lemma apply_new_no_panic feature pre touched binding fs ids item :
  findings_evolve pre fs → ¬ panics (apply_new feature pre touched binding (fs, ids) item).
Proof.
  intros Hm Hp. unfold apply_new in Hp. chase_panic.
  destruct (nf_duplicate_of item) as [k|]; chase_panic; inv_checks.
  - match goal with H : pre !! _ = Some _ |- _ => destruct (Hm _ _ H) as (f' & E & _) end.
    rewrite E in Hp. by apply Ok_no_panic in Hp.
  - destruct (nf_duplicate_reason item); [by apply Ok_no_panic in Hp|done].
Qed.

(** No ledger operation panics: the [unwrap] of an alias target always finds
    it, because the review's working copy keeps every finding of the ledger. *)
Theorem apply_review_no_panic l res : ¬ panics (apply_review l res).
Proof.
  unfold apply_review. intros H. apply panics_bind in H as [H|([] & _ & H)]; [by chase_panic|].
  apply panics_bind in H as [H|(d & _ & H)]; [by chase_panic|].
  destruct (fl_reviews l !! rb_review_id (rr_binding res)); [by chase_panic|].
  apply panics_bind in H as [H|([] & _ & H)]; [by chase_panic|].
  apply panics_bind in H as [H|([fs touched] & Hex & H)].
  { revert H. apply (for_each_no_panic (λ _, True)); [done| |done].
    intros [m t] item _ _ Hp. unfold apply_existing, disposed_state in Hp. chase_panic.
    destruct (ef_disposition item); chase_panic. }
  apply panics_bind in H as [H|([fs' ids] & _ & H)]; [|chase_panic].
  revert H. apply (for_each_no_panic (λ s, findings_evolve (fl_findings l) s.1)).
  - intros [m ids] item [m' ids'] _ Hs Hx. etrans; [done|].
    apply (apply_new_evolves (fl_feature_run_id l) (fl_findings l) touched (rr_binding res)
      [item] m ids m' ids'). cbn [for_each]. by rewrite Hx.
  - intros [m ids] item _ Hm Hp. by apply apply_new_no_panic in Hp.
  - cbn. by eapply apply_existing_evolves.
Qed.
End with_sha.
