(* ===== verification/Coverage.v ===== *)
(** * Review coverage of a candidate

    Model of the second half of
    [crates/development-workflow-contract/src/review.rs]
    ([ReviewCoverage::validate_publication]), an abstract specification of
    coverage, and the proof that an accepted publication is covered. *)

From S2P Require Import Prelude RustStr Contract Review.

(** ** Data *)

Record ReviewVerdict := {
  v_reviewer : Reviewer;
  v_review_id : string;
  v_session_id : string;
  v_candidate : string;
  v_accepted : bool;
  v_evidence : ArtifactRef;
}.

Record CoverageTransition := {
  ct_delta : DeltaReceipt;
  ct_validation : ValidationReceipt;
  ct_active_reviewer : Reviewer;
  ct_reviews : list ReviewVerdict;
  ct_closed_finding_ids : gset string;
  ct_carried_reviewers : gset Reviewer;
}.

Record ReviewCoverage := {
  rv_baseline : string;
  rv_snapshots : gmap string CandidateSnapshot;
  rv_full_reviews : list ReviewVerdict;
  rv_transitions : list CoverageTransition;
}.

(** The local variables of [validate_publication]: the full reviews not yet
    placed ([full_reviews[full_index..]]), and the maps and sets it builds. *)
Record cover_state := {
  st_remaining : list ReviewVerdict;
  st_head : string;
  st_visited : gset string;
  st_sessions : gmap Reviewer string;
  st_accepted : gmap Reviewer bool;
  st_review_ids : gset string;
}.

(** ** Checks *)

Definition verify_verdict (review : ReviewVerdict) (ledger : FindingLedger) : Result unit :=
  _ ← ArtifactRef_validate (v_evidence review);
  saved ← ok_or (ContractError "review has no persisted result")
            (fl_reviews ledger !! v_review_id review);
  let saved := rc_result saved in
  require (bool_decide (rb_reviewer (rr_binding saved) = v_reviewer review)
           && bool_decide (rb_session_id (rr_binding saved) = v_session_id review)
           && bool_decide (rb_candidate (rr_binding saved) = v_candidate review)
           && bool_decide (rr_accepted saved = v_accepted review)
           && bool_decide (rr_evidence saved = v_evidence review))
    "verdict differs from immutable review result".

Definition snapshot (c : ReviewCoverage) (digest feature : string) : Result unit :=
  s ← ok_or (ContractError "missing durable snapshot evidence") (rv_snapshots c !! digest);
  _ ← CandidateSnapshot_validate s;
  require (bool_decide (cs_candidate_digest s = digest)
           && bool_decide (cs_feature_run_id s = feature)) "snapshot binding mismatch".

Definition review_scope (c : ReviewCoverage) (review : ReviewVerdict) (ledger : FindingLedger) :
    Result unit :=
  s ← ok_or (ContractError "missing reviewed snapshot") (rv_snapshots c !! v_candidate review);
  baseline ← ok_or (Panic "self.snapshots[&self.baseline]") (rv_snapshots c !! rv_baseline c);
  rc ← ok_or (Panic "ledger.reviews[&review.review_id]")
         (fl_reviews ledger !! v_review_id review);
  let binding := rr_binding (rc_result rc) in
  require (bool_decide (rb_stage_execution_id binding = cs_stage_execution_id s)
           && bool_decide (cs_stage_execution_id s = cs_stage_execution_id baseline)
           && bool_decide (cs_task_id s = cs_task_id baseline)
           && forallb (λ repo, bool_decide (repo ∈ rb_repositories binding))
                (bt_keys (cs_repositories s))) "review does not cover candidate scope".

(** The [while] loop that places the full reviews of the current head. *)
Fixpoint place_full_reviews (c : ReviewCoverage) (ledger : FindingLedger) (first : bool)
    (remaining : list ReviewVerdict) (st : cover_state) : Result cover_state :=
  match remaining with
  | [] =>
      Ok {| st_remaining := []; st_head := st_head st; st_visited := st_visited st;
            st_sessions := st_sessions st; st_accepted := st_accepted st;
            st_review_ids := st_review_ids st |}
  | review :: rest =>
      if decide (v_candidate review = st_head st) then
        _ ← require (first || bool_decide (st_accepted st !! Codex = Some true))
              "Claude full review precedes Codex closure";
        _ ← verify_verdict review ledger;
        _ ← review_scope c review ledger;
        _ ← require (bool_decide (v_review_id review ∉ st_review_ids st)) "review ID reused";
        place_full_reviews c ledger false rest
          {| st_remaining := rest; st_head := st_head st; st_visited := st_visited st;
             st_sessions := <[v_reviewer review := v_session_id review]> (st_sessions st);
             st_accepted := <[v_reviewer review := v_accepted review]> (st_accepted st);
             st_review_ids := {[v_review_id review]} ∪ st_review_ids st |}
      else Ok {| st_remaining := remaining; st_head := st_head st; st_visited := st_visited st;
                 st_sessions := st_sessions st; st_accepted := st_accepted st;
                 st_review_ids := st_review_ids st |}
  end.

(** One review of a fix: [reviewed] and [review_ids] are the sets it grows. *)
Definition fix_review (c : ReviewCoverage) (ledger : FindingLedger) (after : string)
    (sessions : gmap Reviewer string) (acc : gset Reviewer * gset string)
    (review : ReviewVerdict) : Result (gset Reviewer * gset string) :=
  let '(reviewed, review_ids) := acc in
  _ ← verify_verdict review ledger;
  _ ← review_scope c review ledger;
  _ ← require (bool_decide (v_candidate review = after) && v_accepted review
               && bool_decide (sessions !! v_reviewer review = Some (v_session_id review)))
        "fix review must resume its bound reviewer";
  _ ← require (bool_decide (v_reviewer review ∉ reviewed)
               && bool_decide (v_review_id review ∉ review_ids)) "duplicate transition review";
  Ok ({[v_reviewer review]} ∪ reviewed, {[v_review_id review]} ∪ review_ids).

(** Every reviewer with a session either reviewed the fix or is carried over it. *)
Definition carry_role (t : CoverageTransition) (reviewed : gset Reviewer)
    (accepted : gmap Reviewer bool) (role : Reviewer) : Result (gmap Reviewer bool) :=
  _ ← (if decide (role ∈ reviewed) then Ok () else
         require (negb (DeltaReceipt_broad (ct_delta t))
                  && bool_decide (role ∈ ct_carried_reviewers t)
                  && bool_decide (accepted !! role = Some true))
           "missing required broader review or carry-forward");
  Ok (<[role := true]> accepted).

(** [sessions.keys()] in the derived order of [Reviewer]. *)
Definition session_roles (sessions : gmap Reviewer string) : list Reviewer :=
  filter (λ r, is_Some (sessions !! r)) [Codex; Claude].

(** [transition.reviews.iter().any(..)]: some review verified the closure of [id]. *)
Fixpoint closure_evidence (ledger : FindingLedger) (id : string) (reviews : list ReviewVerdict) :
    Result bool :=
  match reviews with
  | [] => Ok false
  | review :: rest =>
      rc ← ok_or (Panic "ledger.reviews[&review.review_id]")
             (fl_reviews ledger !! v_review_id review);
      if existsb (λ item, bool_decide (ef_existing_finding_id item = id)
                          && bool_decide (ef_disposition item = VerifiedResolved))
           (rr_existing_findings (rc_result rc))
      then Ok true else closure_evidence ledger id rest
  end.

Definition check_closure (ledger : FindingLedger) (t : CoverageTransition) (id : string) :
    Result unit :=
  f ← ok_or (ContractError "unknown closure finding") (fl_findings ledger !! id);
  _ ← require (negb (unresolved (f_state f))) "finding closure not verified";
  found ← closure_evidence ledger id (ct_reviews t);
  require found "closure lacks transition reviewer evidence".

(** The body of the loop over transitions. *)
Definition cover_transition (c : ReviewCoverage) (ledger : FindingLedger)
    (checks : ValidationReceipt) (st : cover_state) (t : CoverageTransition) :
    Result cover_state :=
  let delta := ct_delta t in
  _ ← require (bool_decide (dr_before delta = st_head st)
               && bool_decide (dr_before delta ≠ dr_after delta)
               && bool_decide (dr_after delta ∉ st_visited st))
        "missing, repeated or forked coverage transition";
  _ ← snapshot c (dr_after delta) (fl_feature_run_id ledger);
  _ ← ArtifactRef_validate (dr_full_delta delta);
  _ ← require (bool_decide (dr_changed_paths delta ≠ ∅)) "missing complete delta paths";
  _ ← ValidationReceipt_validate (ct_validation t) (dr_after delta);
  _ ← require (bool_decide (vr_required_checks (ct_validation t) = vr_required_checks checks))
        "coverage check policy changed";
  '(reviewed, review_ids) ←
     for_each (fix_review c ledger (dr_after delta) (st_sessions st))
       (∅, st_review_ids st) (ct_reviews t);
  _ ← require (bool_decide (ct_active_reviewer t ∈ reviewed))
        "active fix reviewer has not accepted";
  _ ← require (bool_decide (reviewed ## ct_carried_reviewers t))
        "review cannot also be carried";
  accepted ← for_each (carry_role t reviewed) (st_accepted st) (session_roles (st_sessions st));
  _ ← check_all (check_closure ledger t) (bs_iter (ct_closed_finding_ids t));
  Ok {| st_remaining := st_remaining st; st_head := dr_after delta;
        st_visited := {[dr_after delta]} ∪ st_visited st; st_sessions := st_sessions st;
        st_accepted := accepted; st_review_ids := review_ids |}.

(** [full_index == 0]: no full review has been placed yet. *)
Definition none_placed (c : ReviewCoverage) (st : cover_state) : bool :=
  (length (st_remaining st) =? length (rv_full_reviews c))%nat.

(** Place the full reviews of the head, then take the transition. *)
Definition cover_step (c : ReviewCoverage) (ledger : FindingLedger) (checks : ValidationReceipt)
    (st : cover_state) (t : CoverageTransition) : Result cover_state :=
  st' ← place_full_reviews c ledger (none_placed c st) (st_remaining st) st;
  cover_transition c ledger checks st' t.

Definition validate_publication (c : ReviewCoverage) (current : string)
    (ledger : FindingLedger) (checks : ValidationReceipt) : Result unit :=
  _ ← require (FindingLedger_closed ledger) "unresolved finding blocks publication";
  first ← match rv_full_reviews c with
    | [r0; r1] =>
        _ ← require (bool_decide (v_reviewer r0 = Codex) && bool_decide (v_reviewer r1 = Claude))
              "sequential full reviews required";
        Ok r0
    | _ => Err (ContractError "sequential full reviews required")
    end;
  _ ← require (bool_decide (v_candidate first = rv_baseline c)) "full review baseline mismatch";
  _ ← snapshot c (rv_baseline c) (fl_feature_run_id ledger);
  st ← for_each (cover_step c ledger checks)
         {| st_remaining := rv_full_reviews c; st_head := rv_baseline c;
            st_visited := {[rv_baseline c]}; st_sessions := ∅; st_accepted := ∅;
            st_review_ids := ∅ |} (rv_transitions c);
  st ← place_full_reviews c ledger (none_placed c st) (st_remaining st) st;
  _ ← require (bool_decide (st_remaining st = []) && bool_decide (st_head st = current)
               && bool_decide (map_Forall (λ _ a, a = true) (st_accepted st)))
        "current candidate lacks accepted coverage";
  ValidationReceipt_validate checks current.

(** ** Specification *)

(** A persisted, accepted review of exactly this candidate by [role]. *)
Definition accepted_by (ledger : FindingLedger) (role : Reviewer) (candidate : string) : Prop :=
  ∃ id rc, fl_reviews ledger !! id = Some rc ∧
    rb_reviewer (rr_binding (rc_result rc)) = role ∧
    rb_candidate (rr_binding (rc_result rc)) = candidate ∧
    rr_accepted (rc_result rc) = true.

(** [role] vouches for [candidate]: a persisted, accepted review of exactly that
    candidate, carried forward only over transitions that are not broad and that
    name the role as carried. *)
Inductive covered (c : ReviewCoverage) (ledger : FindingLedger) (role : Reviewer) :
    string → Prop :=
| covered_review candidate : accepted_by ledger role candidate → covered c ledger role candidate
| covered_carry t :
    t ∈ rv_transitions c →
    covered c ledger role (dr_before (ct_delta t)) →
    DeltaReceipt_broad (ct_delta t) = false →
    role ∈ ct_carried_reviewers t →
    covered c ledger role (dr_after (ct_delta t)).

(** The transitions lead from [head] to [current] without a gap. *)
Fixpoint linked (head : string) (ts : list CoverageTransition) (current : string) : Prop :=
  match ts with
  | [] => head = current
  | t :: ts' => dr_before (ct_delta t) = head ∧ linked (dr_after (ct_delta t)) ts' current
  end.

Definition candidate_after (t : CoverageTransition) : string := dr_after (ct_delta t).

(** Every transition has durable snapshot and delta evidence, passed the same
    required checks, and was accepted by the reviewer whose findings it fixed. *)
Definition transition_ok (c : ReviewCoverage) (ledger : FindingLedger)
    (checks : ValidationReceipt) (t : CoverageTransition) : Prop :=
  is_Some (rv_snapshots c !! dr_after (ct_delta t)) ∧
  artifact_ok (dr_full_delta (ct_delta t)) ∧
  checks_passed (ct_validation t) (dr_after (ct_delta t)) ∧
  vr_required_checks (ct_validation t) = vr_required_checks checks ∧
  accepted_by ledger (ct_active_reviewer t) (dr_after (ct_delta t)).

(** ** Soundness *)

Lemma verify_verdict_accepted review ledger :
  verify_verdict review ledger = Ok () → v_accepted review = true →
  accepted_by ledger (v_reviewer review) (v_candidate review).
Proof.
  unfold verify_verdict. intros H Ha. inv_checks. eexists _, _. split_and!; eauto; congruence.
Qed.

(** Loop invariant of [validate_publication]. *)
Record cover_inv (c : ReviewCoverage) (ledger : FindingLedger) (st : cover_state) : Prop := {
  ci_covered : ∀ r, st_accepted st !! r = Some true → covered c ledger r (st_head st);
  ci_dom : dom (st_accepted st) = dom (st_sessions st);
  ci_placed : ∀ v, v ∈ rv_full_reviews c →
    v ∈ st_remaining st ∨ v_reviewer v ∈ dom (st_accepted st);
}.

Lemma place_full_reviews_inv c ledger first remaining st st' :
  remaining = st_remaining st → cover_inv c ledger st →
  place_full_reviews c ledger first remaining st = Ok st' →
  cover_inv c ledger st' ∧ st_head st' = st_head st ∧ st_visited st' = st_visited st.
Proof.
  revert first st. induction remaining as [|v rest IH]; intros first st Hrem Hinv H; cbn in H.
  { injection H as <-. destruct Hinv as [? ? Hpl]. rewrite <- Hrem in Hpl. done. }
  case_decide; [|injection H as <-; destruct Hinv as [? ? Hpl]; rewrite <- Hrem in Hpl; done].
  inv_checks. destruct Hinv as [Hcov Hdom Hpl].
  match goal with H : place_full_reviews _ _ _ _ _ = _ |- _ => apply IH in H; [done|done|] end.
  split; cbn.
  - intros r [[<- Ha]|[_ Hr]]%lookup_insert_Some; [|by apply Hcov].
    rewrite <- H0. apply covered_review. by apply verify_verdict_accepted.
  - by rewrite !dom_insert_L, Hdom.
  - intros w Hw. rewrite dom_insert_L. destruct (Hpl w Hw) as [Hin|Hin]; [|set_solver].
    rewrite <- Hrem in Hin. apply elem_of_cons in Hin as [->|?]; set_solver.
Qed.

Lemma fix_reviews_inv c ledger after sessions reviews reviewed ids reviewed' ids' :
  for_each (fix_review c ledger after sessions) (reviewed, ids) reviews = Ok (reviewed', ids') →
  ∀ r, r ∈ reviewed' → r ∈ reviewed ∨ accepted_by ledger r after.
Proof.
  intros H. refine (for_each_inv (λ s : gset Reviewer * gset string, ∀ r, r ∈ s.1 →
    r ∈ reviewed ∨ accepted_by ledger r after) _ _ _ (reviewed', ids') _ _ H); [|by left].
  intros [rs js] v [rs' js'] _ Hinv Hv r Hr. unfold fix_review in Hv. inv_checks. simplify_eq.
  cbn in Hr. apply elem_of_union in Hr as [->%elem_of_singleton|Hr]; [|by apply Hinv].
  right. by apply verify_verdict_accepted.
Qed.

Lemma carry_roles_inv c ledger t reviewed roles accepted accepted' :
  NoDup roles → t ∈ rv_transitions c →
  (∀ r, r ∈ reviewed → accepted_by ledger r (dr_after (ct_delta t))) →
  (∀ r, r ∈ roles → accepted !! r = Some true → covered c ledger r (dr_before (ct_delta t))) →
  for_each (carry_role t reviewed) accepted roles = Ok accepted' →
  (∀ r, r ∈ roles → covered c ledger r (dr_after (ct_delta t))) ∧
  (∀ r, accepted' !! r = if decide (r ∈ roles) then Some true else accepted !! r).
Proof.
  intros Hnd Ht Hrev. revert accepted. induction Hnd as [|r roles Hr Hnd IH];
    intros accepted Hcov H; cbn in H.
  { injection H as ->. split; [intros r Hr; by apply elem_of_nil in Hr|].
    intros r. by rewrite decide_False by apply not_elem_of_nil. }
  apply bind_Ok in H as (acc1 & Hc & Hl). unfold carry_role in Hc.
  apply bind_Ok in Hc as ([] & Hc & [= <-]). apply IH in Hl as [H1 H2]; clear IH.
  2: { intros q Hq. rewrite lookup_insert_ne by set_solver. apply Hcov. by right. }
  split.
  - intros q [->|Hq]%elem_of_cons; [|by apply H1]. case_decide; [apply covered_review; by apply Hrev|].
    inv_checks. eapply covered_carry; [done|..|done|done]. apply Hcov; [left|done].
  - intros q. rewrite H2. destruct (decide (q = r)) as [->|Hne].
    + rewrite decide_False, lookup_insert_eq, decide_True by set_solver. done.
    + rewrite lookup_insert_ne by done.
      destruct (decide (q ∈ roles)); [rewrite decide_True by set_solver|rewrite decide_False by set_solver]; done.
Qed.

Lemma session_roles_NoDup sessions : NoDup (session_roles sessions).
Proof. apply NoDup_filter. repeat constructor; set_solver. Qed.

Lemma elem_of_session_roles sessions r : r ∈ session_roles sessions ↔ r ∈ dom sessions.
Proof.
  unfold session_roles. rewrite list_elem_of_filter, elem_of_dom. destruct r; set_solver.
Qed.

Lemma cover_transition_inv c ledger checks st t st' :
  cover_inv c ledger st → t ∈ rv_transitions c →
  cover_transition c ledger checks st t = Ok st' →
  cover_inv c ledger st' ∧ transition_ok c ledger checks t ∧
  dr_before (ct_delta t) = st_head st ∧ st_head st' = dr_after (ct_delta t) ∧
  (dr_after (ct_delta t) ∉ st_visited st) ∧ st_visited st' = {[dr_after (ct_delta t)]} ∪ st_visited st.
Proof.
  unfold cover_transition. intros [Hcov Hdom Hpl] Ht H. inv_checks.
  match goal with H : (let '(_, _) := ?p in _) = _ |- _ => destruct p as [reviewed ids] end.
  inv_checks. subst st'.
  match goal with H : for_each (fix_review _ _ _ _) _ _ = _ |- _ => rename H into Hfix end.
  match goal with H : for_each (carry_role _ _) _ _ = _ |- _ => rename H into Hcarry end.
  assert (Hrev : ∀ r, r ∈ reviewed → accepted_by ledger r (dr_after (ct_delta t))).
  { intros r Hr. destruct (fix_reviews_inv _ _ _ _ _ _ _ _ _ Hfix r Hr); set_solver. }
  apply (carry_roles_inv c ledger) in Hcarry as [Hafter Hacc];
    [|apply session_roles_NoDup|done|done|intros r _ Hr; rewrite H; by apply Hcov].
  assert (Hroles : ∀ r, r ∈ session_roles (st_sessions st) ↔ r ∈ dom (st_accepted st)).
  { intros r. by rewrite elem_of_session_roles, Hdom. }
  split; [split; cbn|].
  - intros r Hr. rewrite Hacc in Hr. case_decide as Hin; [by apply Hafter|].
    rewrite Hroles in Hin. by apply elem_of_dom_2 in Hr.
  - rewrite <- Hdom. apply set_eq. intros r. rewrite !elem_of_dom, Hacc.
    case_decide as Hin; [|done]. rewrite Hroles, elem_of_dom in Hin. naive_solver.
  - intros v Hv. destruct (Hpl v Hv) as [|Hin]; [by left|right].
    apply elem_of_dom. rewrite Hacc. rewrite <- Hroles in Hin. by rewrite decide_True.
  - split_and!; try done. unfold snapshot in *. inv_checks.
    split_and!; [eauto|done|by apply ValidationReceipt_validate_sound|done|by apply Hrev].
Qed.

Lemma cover_steps_inv c ledger checks ts st st' :
  (∀ t, t ∈ ts → t ∈ rv_transitions c) → cover_inv c ledger st →
  for_each (cover_step c ledger checks) st ts = Ok st' →
  cover_inv c ledger st' ∧ linked (st_head st) ts (st_head st') ∧
  Forall (transition_ok c ledger checks) ts ∧
  NoDup (candidate_after <$> ts) ∧ (∀ t, t ∈ ts → dr_after (ct_delta t) ∉ st_visited st).
Proof.
  revert st. induction ts as [|t ts IH]; intros st Hts Hinv H; cbn in H.
  { injection H as <-. split_and!; try done; [constructor|]. intros t Ht. by apply elem_of_nil in Ht. }
  apply bind_Ok in H as (st2 & Hst & Hl). apply bind_Ok in Hst as (st1 & Hp & Ht).
  apply place_full_reviews_inv in Hp as (Hinv1 & Hh & Hv); [|done|done].
  apply cover_transition_inv in Ht as (Hinv2 & Hok & Hb & Ha & Hnew & Hvis); [|done|apply Hts; left].
  apply IH in Hl as (Hinv' & Hlink & Hall & Hnd & Hnv); [|intros; apply Hts; by right|done].
  rewrite Hvis in Hnv. rewrite Ha in Hlink. rewrite Hh in Hb. rewrite Hv in *.
  split_and!; [done|done|by constructor| |].
  - rewrite fmap_cons, NoDup_cons. split; [|done]. intros (u & Hu & Hin)%list_elem_of_fmap.
    specialize (Hnv u Hin). unfold candidate_after in Hu. set_solver.
  - intros u [->|Hu]%elem_of_cons; [done|]. specialize (Hnv u Hu). set_solver.
Qed.

(** C1 A publication passes [validate_publication] only if its candidate is
    covered: no blocking finding is open, the transitions link the baseline to
    the candidate without gaps or repeated candidates, each transition has its
    snapshot, delta, checks and active reviewer's acceptance on record, both
    reviewers vouch for the candidate (by a persisted accepted review, carried
    forward only over non-broad changes), and its required checks passed. *)
Theorem validate_publication_sound c current ledger checks :
  validate_publication c current ledger checks = Ok () →
  FindingLedger_closed ledger = true ∧
  linked (rv_baseline c) (rv_transitions c) current ∧
  NoDup (rv_baseline c :: (candidate_after <$> rv_transitions c)) ∧
  Forall (transition_ok c ledger checks) (rv_transitions c) ∧
  (∀ role, covered c ledger role current) ∧
  checks_passed checks current.
Proof.
  unfold validate_publication. intros H.
  apply bind_Ok in H as ([] & Hclosed%require_Ok & H).
  apply bind_Ok in H as (r0 & Hfull & H).
  apply bind_Ok in H as ([] & _ & H). apply bind_Ok in H as ([] & _ & H).
  apply bind_Ok in H as (st & Hsteps & H). apply bind_Ok in H as (st' & Hlast & H).
  apply bind_Ok in H as ([] & Hend & H). inv_checks.
  apply cover_steps_inv in Hsteps as (Hinv & Hlink & Hall & Hnd & Hnv); cbn in *; [|done|].
  2: { split; cbn; [intros r Hr; by rewrite lookup_empty in Hr|by rewrite !dom_empty_L|by left]. }
  apply place_full_reviews_inv in Hlast as ([Hcov _ Hpl] & Hh & _); [|done|done].
  match goal with H : st_head st' = current |- _ => rename H into Hcur end.
  match goal with H : st_remaining st' = [] |- _ => rename H into Hrem end.
  match goal with H : map_Forall _ _ |- _ => rename H into Hacc end.
  rewrite Hcur in *. rewrite <- Hh in Hlink. split_and!; try done.
  - rewrite NoDup_cons. split; [|done]. intros (t & Ht & Hin)%list_elem_of_fmap.
    specialize (Hnv t Hin). unfold candidate_after in Ht. set_solver.
  - intros role. apply Hcov.
    assert (∃ v, v ∈ rv_full_reviews c ∧ v_reviewer v = role) as (v & Hv & <-).
    { destruct (rv_full_reviews c) as [|a [|b [|]]]; try discriminate. inv_checks.
      destruct role; [exists a|exists b]; set_solver. }
    destruct (Hpl v Hv) as [Hin|[x Hx]%elem_of_dom].
    + rewrite Hrem in Hin. by apply elem_of_nil in Hin.
    + rewrite Hx. f_equal. by apply (Hacc (v_reviewer v)).
  - by apply ValidationReceipt_validate_sound.
Qed.

(** ** Absence of panics *)

Lemma verify_verdict_persisted review ledger :
  verify_verdict review ledger = Ok () → is_Some (fl_reviews ledger !! v_review_id review).
Proof. unfold verify_verdict. intros H. inv_checks. eauto. Qed.

Lemma verify_verdict_no_panic review ledger : ¬ panics (verify_verdict review ledger).
Proof. unfold verify_verdict. intros H. chase_panic. Qed.

Lemma CandidateSnapshot_validate_no_panic s : ¬ panics (CandidateSnapshot_validate s).
Proof.
  unfold CandidateSnapshot_validate. intros H. chase_panic. revert H. apply check_all_no_panic.
  intros [repo r] _ H. unfold validate_repository in H. chase_panic.
Qed.

Lemma ValidationReceipt_validate_no_panic v c : ¬ panics (ValidationReceipt_validate v c).
Proof. unfold ValidationReceipt_validate. intros H. chase_panic. Qed.
#[local] Hint Resolve verify_verdict_no_panic CandidateSnapshot_validate_no_panic
  ValidationReceipt_validate_no_panic : fabric.

Lemma snapshot_no_panic c d f : ¬ panics (snapshot c d f).
Proof. unfold snapshot. intros H. chase_panic. Qed.
#[local] Hint Resolve snapshot_no_panic : fabric.

Lemma review_scope_no_panic c review ledger :
  is_Some (rv_snapshots c !! rv_baseline c) → is_Some (fl_reviews ledger !! v_review_id review) →
  ¬ panics (review_scope c review ledger).
Proof.
  intros [b Hb] [rc Hrc] H. unfold review_scope in H. rewrite Hb, Hrc in H. cbn in H. chase_panic.
Qed.

Lemma place_full_reviews_no_panic c ledger first remaining st :
  is_Some (rv_snapshots c !! rv_baseline c) →
  ¬ panics (place_full_reviews c ledger first remaining st).
Proof.
  intros Hb. revert first st. induction remaining as [|v rest IH]; intros first st H;
    [by apply Ok_no_panic in H|]. cbn in H. case_decide; [|by apply Ok_no_panic in H].
  apply panics_bind in H as [H|([] & _ & H)]; [by chase_panic|].
  apply panics_bind in H as [H|([] & Hv & H)]; [by chase_panic|].
  apply panics_bind in H as [H|([] & _ & H)].
  { revert H. apply review_scope_no_panic; [done|]. by apply verify_verdict_persisted. }
  apply panics_bind in H as [H|([] & _ & H)]; [by chase_panic|]. by apply IH in H.
Qed.

Lemma fix_review_no_panic c ledger after sessions acc review :
  is_Some (rv_snapshots c !! rv_baseline c) →
  ¬ panics (fix_review c ledger after sessions acc review).
Proof.
  intros Hb H. unfold fix_review in H. destruct acc as [reviewed ids].
  apply panics_bind in H as [H|([] & Hv & H)]; [by chase_panic|].
  apply panics_bind in H as [H|([] & _ & H)]; [|by chase_panic].
  revert H. apply review_scope_no_panic; [done|]. by apply verify_verdict_persisted.
Qed.

Lemma fix_reviews_persisted c ledger after sessions reviews acc acc' :
  for_each (fix_review c ledger after sessions) acc reviews = Ok acc' →
  ∀ v, v ∈ reviews → is_Some (fl_reviews ledger !! v_review_id v).
Proof.
  revert acc. induction reviews as [|v reviews IH]; intros acc H w Hw; [by apply elem_of_nil in Hw|].
  apply bind_Ok in H as (acc1 & H1 & H). apply elem_of_cons in Hw as [->|Hw]; [|by eapply IH].
  unfold fix_review in H1. destruct acc. inv_ok. by apply verify_verdict_persisted.
Qed.

Lemma closure_evidence_no_panic ledger id reviews :
  (∀ v, v ∈ reviews → is_Some (fl_reviews ledger !! v_review_id v)) →
  ¬ panics (closure_evidence ledger id reviews).
Proof.
  induction reviews as [|v reviews IH]; intros Hv H; [by apply Ok_no_panic in H|]. cbn in H.
  destruct (Hv v) as [rc Hrc]; [left|]. rewrite Hrc in H. cbn in H.
  case_match; [by apply Ok_no_panic in H|]. apply IH in H; [done|]. intros w Hw. apply Hv. by right.
Qed.

Lemma cover_transition_no_panic c ledger checks st t :
  is_Some (rv_snapshots c !! rv_baseline c) → ¬ panics (cover_transition c ledger checks st t).
Proof.
  intros Hb H. unfold cover_transition in H.
  do 6 (apply panics_bind in H as [H|([] & _ & H)]; [by chase_panic|]).
  apply panics_bind in H as [H|([reviewed ids] & Hfix & H)].
  { revert H. apply (for_each_no_panic (λ _, True)); [done| |done].
    intros acc v _ _. by apply fix_review_no_panic. }
  do 2 (apply panics_bind in H as [H|([] & _ & H)]; [by chase_panic|]).
  apply panics_bind in H as [H|(accepted & _ & H)].
  { revert H. apply (for_each_no_panic (λ _, True)); [done| |done].
    intros acc r _ _ Hp. unfold carry_role in Hp. apply panics_bind in Hp as [Hp|(_ & _ & Hp)]; [|by chase_panic].
    case_decide; by chase_panic. }
  apply panics_bind in H as [H|([] & _ & H)]; [|by chase_panic].
  revert H. apply check_all_no_panic. intros id _ H. unfold check_closure in H.
  apply panics_bind in H as [H|(f & _ & H)]; [by chase_panic|].
  apply panics_bind in H as [H|([] & _ & H)]; [by chase_panic|].
  apply panics_bind in H as [H|(found & _ & H)]; [|by chase_panic].
  revert H. apply closure_evidence_no_panic. by eapply fix_reviews_persisted.
Qed.

(** [validate_publication] never panics: every index it takes
    ([snapshots[&baseline]], [reviews[&review_id]]) was checked before. *)
Theorem validate_publication_no_panic c current ledger checks :
  ¬ panics (validate_publication c current ledger checks).
Proof.
  unfold validate_publication. intros H.
  apply panics_bind in H as [H|([] & _ & H)]; [by chase_panic|].
  apply panics_bind in H as [H|(r0 & _ & H)].
  { destruct (rv_full_reviews c) as [|a [|b [|]]]; try (by destruct H). by chase_panic. }
  apply panics_bind in H as [H|([] & _ & H)]; [by chase_panic|].
  apply panics_bind in H as [H|([] & Hs & H)]; [by chase_panic|].
  assert (Hb : is_Some (rv_snapshots c !! rv_baseline c)).
  { unfold snapshot in Hs. inv_ok. eauto. }
  apply panics_bind in H as [H|(st & _ & H)].
  { revert H. apply (for_each_no_panic (λ _, True)); [done| |done]. intros st t _ _ Hp.
    apply panics_bind in Hp as [Hp|(st' & _ & Hp)];
      [by apply place_full_reviews_no_panic in Hp|by apply cover_transition_no_panic in Hp]. }
  apply panics_bind in H as [H|(st' & _ & H)]; [by apply place_full_reviews_no_panic in H|].
  by chase_panic.
Qed.
