(* ===== verification/Stage.v ===== *)
(** * Stages of a development workflow

    Model of [crates/development-workflow-contract/src/stage.rs]: stage claims,
    results and their acceptance, the turn budget, design sign-off, the VM
    reservation, document and publication receipts, non-progress detection and
    comment updates. *)

From S2P Require Import Prelude RustStr Contract Review.

(** ** Stages and requirements *)

Inductive StageKind := Intake | Design | Plan | Implement | Finalize.
#[global] Instance StageKind_eq_dec : EqDecision StageKind.
Proof. solve_decision. Defined.

Record StageSelector := { ss_kind : StageKind; ss_phase_id : option string }.
#[global] Instance StageSelector_eq_dec : EqDecision StageSelector.
Proof. solve_decision. Defined.

Definition StageSelector_validate (s : StageSelector) : Result unit :=
  require (if decide (ss_kind s = Implement)
           then match ss_phase_id s with Some v => negb (is_empty v) | None => false end
           else bool_decide (ss_phase_id s = None)) "invalid stage phase".

Inductive CompletionTarget := PrReady | Merged | Deployed.

Record RequirementArtifact := {
  ra_version : N;
  ra_content : ArtifactRef;
  ra_scope : list string;
  ra_non_goals : list string;
  ra_acceptance_criteria : list string;
  ra_repositories : gset string;
  ra_ownership_unknown : bool;
  ra_compatibility_concerns : list string;
  ra_sources : list ArtifactRef;
  ra_unresolved_decisions : list string;
  ra_completion_target : CompletionTarget;
  ra_completion_checks : gset string;
}.

Definition RequirementArtifact_validate_accepted (r : RequirementArtifact) : Result unit :=
  _ ← ArtifactRef_validate (ra_content r);
  _ ← require ((0 <? ra_version r)%N && bool_decide (ra_scope r ≠ [])
               && bool_decide (ra_acceptance_criteria r ≠ [])
               && (bool_decide (ra_repositories r ≠ ∅) || ra_ownership_unknown r)
               && bool_decide (ra_completion_checks r ≠ ∅)
               && bool_decide (ra_unresolved_decisions r = [])) "requirements incomplete";
  check_all ArtifactRef_validate (ra_sources r).

Record PhaseDefinition := {
  pd_phase_id : string;
  pd_scope : ArtifactRef;
  pd_repositories : gset string;
  pd_dependencies : gset string;
  pd_required_checks : gset string;
  pd_exit_criteria : list string;
}.

(** ** Claims *)

Record StageClaim := {
  sc_feature_run_id : string;
  sc_transition_id : string;
  sc_predecessor_version : N;
  sc_stage : StageSelector;
  sc_inputs : gmap string ArtifactRef;
  sc_definition : ArtifactRef;
  sc_workspace_binding : ArtifactRef;
  sc_deadline_epoch_seconds : N;
}.

Record StageClaimReceipt := {
  cr_claim_id : string;
  cr_request_digest : string;
  cr_stage_execution_id : string;
  cr_workflow_instance_id : string;
  cr_process_id : string;
  cr_feature_version : N;
}.
#[global] Instance StageClaimReceipt_eq_dec : EqDecision StageClaimReceipt.
Proof. solve_decision. Defined.

Inductive FeatureState :=
| ReadyForNextStage | Active | ReplanRequired | HumanResolutionRequired
| ReauthorizationRequired | VmReleasePending | Completed | Cancelled | Failed.
#[global] Instance FeatureState_eq_dec : EqDecision FeatureState.
Proof. solve_decision. Defined.

Record IssueRef := { is_repository : string; is_number : N; is_url : string }.

Record PublicationReceipt := {
  pr_intent_id : string;
  pr_repository : string;
  pr_candidate_digest : string;
  pr_task_id : string;
  pr_commit : string;
  pr_parent_commit : string;
  pr_remote_ref : string;
  pr_pull_request_number : N;
  pr_pull_request_url : string;
  pr_target_branch : string;
  pr_permalink : string;
  pr_verification : ArtifactRef;
}.

Record StageResult := {
  sr_feature_run_id : string;
  sr_claim : StageClaimReceipt;
  sr_stage : StageSelector;
  sr_inputs : gmap string ArtifactRef;
  sr_outputs : gmap string ArtifactRef;
  sr_candidate : CandidateSnapshot;
  sr_validation : ValidationReceipt;
  sr_review_ids : gset string;
  sr_finding_ids : gset string;
  sr_native_checkpoint : option ArtifactRef;
  sr_publication_receipts : list PublicationReceipt;
  sr_accepted : bool;
}.

(** ** Turn budget data *)

Inductive TurnKind := Author | TurnReview | TurnRemediation | ValidationFix | OutputRepair.
#[global] Instance TurnKind_eq_dec : EqDecision TurnKind.
Proof. solve_decision. Defined.

Record TurnCharge := {
  tc_logical_turn_id : string;
  tc_stage_execution_id : string;
  tc_budget_scope : string;
  tc_kind : TurnKind;
  tc_remediation_round_id : option string;
}.
#[global] Instance TurnCharge_eq_dec : EqDecision TurnCharge.
Proof. solve_decision. Defined.

Record BudgetLedger := {
  bl_maximum_turns : N;
  bl_maximum_remediation_rounds : N;
  bl_deadline_epoch_seconds : N;
  bl_charges : gmap string TurnCharge;
}.

(** ** The feature run *)

Record VmReservation := {
  vm_vm_id : string;
  vm_runner_binding : ArtifactRef;
  vm_feature_run_id : string;
  vm_generation : N;
  vm_acquired_epoch_seconds : N;
  vm_release_pending : bool;
  vm_released : bool;
}.

Record FeatureRun := {
  fr_schema_version : N;
  fr_feature_run_id : string;
  fr_issue : IssueRef;
  fr_version : N;
  fr_state : FeatureState;
  fr_transition_id : string;
  fr_allowed_stage : StageSelector;
  fr_accepted_inputs : gmap string ArtifactRef;
  fr_active_claim : option StageClaimReceipt;
  fr_claims : gmap string StageClaimReceipt;
  fr_accepted_results : list StageResult;
  fr_budgets : BudgetLedger;
  fr_vm : VmReservation;
}.

Inductive ClaimDecision :=
| Replay (receipt : StageClaimReceipt)
| Admit (claim_id request_digest : string).

Section claims.
Context {sha : Sha256} `{!Serialize StageSelector} `{!Serialize StageClaim}.

Definition StageClaim_identity (c : StageClaim) : Result string :=
  _ ← StageSelector_validate (sc_stage c);
  stage ← fingerprint (sc_stage c);
  Ok (identity "stage-claim/v1"
        [sc_feature_run_id c; sc_transition_id c; dec (sc_predecessor_version c); stage]).

Definition check_claim (f : FeatureRun) (claim : StageClaim) (now : N) : Result ClaimDecision :=
  _ ← require ((fr_schema_version f =? 1)%N
               && bool_decide (sc_feature_run_id claim = fr_feature_run_id f))
        "feature identity/version mismatch";
  claim_id ← StageClaim_identity claim;
  request_digest ← fingerprint claim;
  match fr_claims f !! claim_id with
  | Some old =>
      _ ← require (bool_decide (cr_request_digest old = request_digest)) "claim input conflict";
      Ok (Replay old)
  | None =>
      _ ← require (bool_decide (fr_state f = ReadyForNextStage)
                   && bool_decide (fr_active_claim f = None)) "feature already owned or blocked";
      _ ← require (bool_decide (vm_feature_run_id (fr_vm f) = fr_feature_run_id f)
                   && negb (vm_released (fr_vm f)) && negb (vm_release_pending (fr_vm f)))
            "VM slot unavailable";
      _ ← require ((sc_predecessor_version claim =? fr_version f)%N
                   && bool_decide (sc_transition_id claim = fr_transition_id f)
                   && bool_decide (sc_stage claim = fr_allowed_stage f)
                   && bool_decide (sc_inputs claim = fr_accepted_inputs f))
            "stale or disallowed stage handoff";
      _ ← require ((now <? sc_deadline_epoch_seconds claim)%N
                   && (sc_deadline_epoch_seconds claim <=?
                       bl_deadline_epoch_seconds (fr_budgets f))%N)
            "stage deadline widens or expired";
      _ ← ArtifactRef_validate (sc_definition claim);
      _ ← ArtifactRef_validate (sc_workspace_binding claim);
      _ ← check_all ArtifactRef_validate (bt_values (sc_inputs claim));
      Ok (Admit claim_id request_digest)
  end.
End claims.

(** ** Results *)

Definition validate_handoff (r : StageResult) (feature : FeatureRun) : Result unit :=
  _ ← require (sr_accepted r
               && bool_decide (sr_feature_run_id r = fr_feature_run_id feature)
               && bool_decide (sr_inputs r = fr_accepted_inputs feature)
               && bool_decide (fr_active_claim feature = Some (sr_claim r))
               && bool_decide (sr_stage r = fr_allowed_stage feature)) "stale stage result";
  _ ← CandidateSnapshot_validate (sr_candidate r);
  _ ← require (bool_decide (cs_feature_run_id (sr_candidate r) = sr_feature_run_id r)
               && bool_decide (cs_stage_execution_id (sr_candidate r)
                               = cr_stage_execution_id (sr_claim r)))
        "snapshot belongs to another stage";
  _ ← ValidationReceipt_validate (sr_validation r) (cs_candidate_digest (sr_candidate r));
  _ ← require (bool_decide (sr_outputs r ≠ ∅)
               && (bool_decide (ss_kind (sr_stage r) = Finalize)
                   || bool_decide (sr_review_ids r ≠ ∅)))
        "stage result lacks output or review evidence";
  _ ← check_all ArtifactRef_validate (bt_values (sr_outputs r));
  match sr_native_checkpoint r with
  | Some checkpoint => ArtifactRef_validate checkpoint
  | None => Ok ()
  end.

Inductive SignoffDecision := Approved | ChangesRequested | Rejected.
#[global] Instance SignoffDecision_eq_dec : EqDecision SignoffDecision.
Proof. solve_decision. Defined.

Record DesignSignoff := {
  ds_feature_run_id : string;
  ds_design_digest : string;
  ds_decision : SignoffDecision;
  ds_authority : ArtifactRef;
}.

Definition validate_signoff (required : bool) (feature design : string)
    (signoff : option DesignSignoff) : Result unit :=
  _ ← require (digest_valid design) "invalid design digest";
  if negb required then Ok () else
  decision ← ok_or (ContractError "design sign-off pending") signoff;
  _ ← ArtifactRef_validate (ds_authority decision);
  _ ← require (bool_decide (ds_feature_run_id decision = feature)
               && bool_decide (ds_design_digest decision = design)) "stale design sign-off";
  require (bool_decide (ds_decision decision = Approved)) "design sign-off not approved".

Definition PublicationReceipt_validate (p : PublicationReceipt) : Result unit :=
  _ ← ArtifactRef_validate (pr_verification p);
  require (negb (is_empty (pr_intent_id p)) && negb (is_empty (pr_repository p))
           && negb (is_empty (pr_task_id p)) && digest_valid (pr_candidate_digest p)
           && git_oid (pr_commit p) && git_oid (pr_parent_commit p)
           && starts_with (pr_remote_ref p) "refs/heads/"
           && bool_decide (pr_remote_ref p ≠ "refs/heads/develop")
           && bool_decide (pr_remote_ref p ≠ "refs/heads/master")
           && bool_decide (pr_remote_ref p ≠ "refs/heads/main")
           && (0 <? pr_pull_request_number p)%N
           && starts_with (pr_pull_request_url p) "https://"
           && bool_decide (pr_target_branch p = "develop")
           && contains (pr_permalink p) (pr_commit p)) "invalid publication receipt".

Record StageAcceptancePolicy := {
  ap_required_reviewers : gset Reviewer;
  ap_required_checks : gset string;
  ap_require_design_signoff : bool;
  ap_required_publication_intents : gset string;
}.

(** A review named by the result: bound to its candidate and stage. *)
Definition accept_review (r : StageResult) (ledger : FindingLedger) (roles : gset Reviewer)
    (id : string) : Result (gset Reviewer) :=
  rc ← ok_or (ContractError "missing stage review result") (fl_reviews ledger !! id);
  let res := rc_result rc in
  _ ← require (rr_accepted res
               && bool_decide (rb_candidate (rr_binding res)
                               = cs_candidate_digest (sr_candidate r))
               && bool_decide (rb_stage_execution_id (rr_binding res)
                               = cr_stage_execution_id (sr_claim r))
               && forallb (λ repo, bool_decide (repo ∈ rb_repositories (rr_binding res)))
                    (bt_keys (cs_repositories (sr_candidate r))))
        "stage review binding mismatch";
  Ok ({[rb_reviewer (rr_binding res)]} ∪ roles).

Definition accept_receipt (r : StageResult) (intents : gset string) (p : PublicationReceipt) :
    Result (gset string) :=
  _ ← PublicationReceipt_validate p;
  _ ← require (bool_decide (pr_candidate_digest p = cs_candidate_digest (sr_candidate r))
               && bool_decide (pr_intent_id p ∉ intents))
        "publication candidate/identity mismatch";
  Ok ({[pr_intent_id p]} ∪ intents).

(** The finalize stage may go without required reviewers when every accepted
    result before it is an intake or design result and the last is a reviewed
    design. *)
Definition reviewed_design_history (feature : FeatureRun) : bool :=
  match last (fr_accepted_results feature) with
  | Some source =>
      sr_accepted source && bool_decide (ss_kind (sr_stage source) = Design)
      && bool_decide (sr_review_ids source ≠ ∅)
  | None => false
  end
  && forallb (λ source, sr_accepted source
       && match ss_kind (sr_stage source) with Intake | Design => true | _ => false end)
       (fr_accepted_results feature).

Definition validate_acceptance (r : StageResult) (feature : FeatureRun)
    (policy : StageAcceptancePolicy) (ledger : FindingLedger)
    (signoff : option DesignSignoff) : Result unit :=
  _ ← validate_handoff r feature;
  _ ← require (bool_decide (fl_feature_run_id ledger = sr_feature_run_id r)
               && FindingLedger_closed ledger) "stage has unresolved findings";
  _ ← require ((bool_decide (ap_required_reviewers policy ≠ ∅)
                || bool_decide (ss_kind (sr_stage r) = Finalize)
                   && reviewed_design_history feature)
               && bool_decide (ap_required_checks policy ≠ ∅)
               && bool_decide (ap_required_checks policy
                               = vr_required_checks (sr_validation r)))
        "stage validation policy mismatch";
  roles ← for_each (accept_review r ledger) ∅ (bs_iter (sr_review_ids r));
  _ ← require (bool_decide (ap_required_reviewers policy ⊆ roles))
        "required stage reviewer missing";
  _ ← require (forallb (λ id, bool_decide (is_Some (fl_findings ledger !! id)))
                 (bs_iter (sr_finding_ids r))) "unknown stage finding";
  _ ← (if ap_require_design_signoff policy then
         design ← ok_or (ContractError "missing accepted design")
                    (match sr_outputs r !! "design" with
                     | Some d => Some d
                     | None => sr_inputs r !! "design"
                     end);
         validate_signoff true (sr_feature_run_id r) (art_digest design) signoff
       else Ok ());
  intents ← for_each (accept_receipt r) ∅ (sr_publication_receipts r);
  require (bool_decide (ap_required_publication_intents policy ⊆ intents))
    "required publication incomplete".

(** ** Turn budget *)

Definition BudgetLedger_new (maximum_turns deadline : N) : BudgetLedger :=
  {| bl_maximum_turns := maximum_turns; bl_maximum_remediation_rounds := 3;
     bl_deadline_epoch_seconds := deadline; bl_charges := ∅ |}.

(** The distinct remediation rounds charged to a scope. *)
Definition scope_rounds (l : BudgetLedger) (scope : string) : gset string :=
  list_to_set (omap (λ c, if decide (tc_budget_scope c = scope)
                          then tc_remediation_round_id c else None)
                 (bt_values (bl_charges l))).

Definition charge (l : BudgetLedger) (c : TurnCharge) (now : N) : Result BudgetLedger :=
  _ ← require (negb (is_empty (tc_logical_turn_id c))
               && negb (is_empty (tc_stage_execution_id c))
               && negb (is_empty (tc_budget_scope c))) "invalid logical turn";
  match bl_charges l !! tc_logical_turn_id c with
  | Some old => _ ← require (bool_decide (old = c)) "logical turn replay conflict"; Ok l
  | None =>
      _ ← require ((now <? bl_deadline_epoch_seconds l)%N
                   && (N.of_nat (size (bl_charges l)) <? bl_maximum_turns l)%N)
            "human resolution required: turn/deadline budget exhausted";
      _ ← require (bool_decide (tc_kind c ≠ TurnRemediation)
                   || match tc_remediation_round_id c with
                      | Some id => negb (is_empty id) | None => false end)
            "remediation requires round identity";
      _ ← match tc_remediation_round_id c with
          | Some round =>
              _ ← require (negb (is_empty round)) "empty remediation round";
              let rounds := scope_rounds l (tc_budget_scope c) in
              require (bool_decide (round ∈ rounds)
                       || (N.of_nat (size rounds) <? bl_maximum_remediation_rounds l)%N)
                "human resolution required: remediation budget exhausted"
          | None => Ok ()
          end;
      Ok {| bl_maximum_turns := bl_maximum_turns l;
            bl_maximum_remediation_rounds := bl_maximum_remediation_rounds l;
            bl_deadline_epoch_seconds := bl_deadline_epoch_seconds l;
            bl_charges := <[tc_logical_turn_id c := c]> (bl_charges l) |}
  end.

(** ** VM reservation *)

Record VmReleaseReceipt := {
  vrr_vm_id : string;
  vrr_feature_run_id : string;
  vrr_generation : N;
  vrr_terminal_state : FeatureState;
  vrr_dispatch_fenced : ArtifactRef;
  vrr_execution_and_effect_receipts : gmap string ArtifactRef;
}.

Definition validate_release (v : VmReservation) (r : VmReleaseReceipt)
    (outstanding : gset string) : Result unit :=
  _ ← require (bool_decide (vrr_vm_id r = vm_vm_id v)
               && bool_decide (vrr_feature_run_id r = vm_feature_run_id v)
               && (vrr_generation r =? vm_generation v)%N) "stale VM release";
  _ ← require (match vrr_terminal_state r with
               | Completed | Cancelled | Failed => true | _ => false end)
        "nonterminal feature retains VM";
  _ ← ArtifactRef_validate (vrr_dispatch_fenced r);
  _ ← require (forallb (λ id, bool_decide (is_Some (vrr_execution_and_effect_receipts r !! id)))
                 (bs_iter outstanding)) "VM release pending execution/effect fencing";
  check_all ArtifactRef_validate (bt_values (vrr_execution_and_effect_receipts r)).

(** ** Documents and comments *)

Record DocumentRevision := {
  dv_feature_run_id : string;
  dv_document_id : string;
  dv_revision : N;
  dv_accepted_content : ArtifactRef;
  dv_supersedes : option ArtifactRef;
  dv_publication_task_id : string;
}.

Inductive CommentPurpose :=
| Status
| Round (stage_execution_id : string) (round : N)
| Publication (artifact_id : string) (revision : N) (repository action : string).
#[global] Instance CommentPurpose_eq_dec : EqDecision CommentPurpose.
Proof. solve_decision. Defined.

Record CommentIntent := {
  ci_feature_run_id : string;
  ci_purpose : CommentPurpose;
  ci_version : N;
  ci_body : ArtifactRef;
}.
#[global] Instance CommentIntent_eq_dec : EqDecision CommentIntent.
Proof. solve_decision. Defined.

Section documents.
Context {sha : Sha256} `{!Serialize CommentPurpose}.

Definition DocumentRevision_task_identity (d : DocumentRevision) : string :=
  identity "document-publication/v1"
    [dv_feature_run_id d; dv_document_id d; dec (dv_revision d)].

Definition DocumentRevision_validate (d : DocumentRevision) : Result unit :=
  _ ← ArtifactRef_validate (dv_accepted_content d);
  _ ← require (negb (is_empty (dv_feature_run_id d)) && negb (is_empty (dv_document_id d))
               && (0 <? dv_revision d)%N
               && bool_decide (dv_publication_task_id d = DocumentRevision_task_identity d))
        "invalid document publication identity";
  match dv_supersedes d with Some old => ArtifactRef_validate old | None => Ok () end.

Definition CommentIntent_identity (c : CommentIntent) : Result string :=
  _ ← require (negb (is_empty (ci_feature_run_id c)) && (0 <? ci_version c)%N)
        "invalid comment intent";
  _ ← ArtifactRef_validate (ci_body c);
  purpose ← fingerprint (ci_purpose c);
  Ok (identity "comment/v1" [ci_feature_run_id c; purpose]).

Definition check_update (c previous : CommentIntent) : Result unit :=
  id ← CommentIntent_identity c;
  id' ← CommentIntent_identity previous;
  _ ← require (bool_decide (id = id')) "comment identity mismatch";
  if decide (c = previous) then Ok () else
  require (match ci_purpose c with Status => true | _ => false end
           && (ci_version previous <? ci_version c)%N) "stale or immutable comment update".
End documents.

(** ** Non-progress *)

Record NonProgress := {
  np_rounds : gmap string (gset string);
  np_counts : gmap string N;
  np_decisions : gmap string bool;
}.
Definition NonProgress_default : NonProgress :=
  {| np_rounds := ∅; np_counts := ∅; np_decisions := ∅ |}.

Definition still_open_ids (res : ReviewResult) : gset string :=
  list_to_set (omap (λ i, if decide (ef_disposition i = StillOpen)
                          then Some (ef_existing_finding_id i) else None)
                 (rr_existing_findings res)).

(** Drop the counter of every finding the review did not leave open. *)
Definition drop_closed (counts : gmap string N) (items : list ExistingFinding) : gmap string N :=
  foldl (λ m i, if decide (ef_disposition i = StillOpen) then m
                else delete (ef_existing_finding_id i) m) counts items.

(** [*counts.entry(id).or_default() += 1] for each id. *)
Definition bump (counts : gmap string N) (ids : list string) : gmap string N :=
  foldl (λ m id, <[id := (default 0 (m !! id) + 1)%N]> m) counts ids.

(** [ids.iter().any(|id| counts[id] >= limit)]. *)
Fixpoint any_at_limit (limit : N) (counts : gmap string N) (ids : list string) : Result bool :=
  match ids with
  | [] => Ok false
  | id :: rest =>
      n ← ok_or (Panic "self.counts[id]") (counts !! id);
      if (limit <=? n)%N then Ok true else any_at_limit limit counts rest
  end.

Definition observe (np : NonProgress) (review_id : string) (ledger : FindingLedger) (limit : N) :
    Result (NonProgress * bool) :=
  _ ← require (0 <? limit)%N "non-progress threshold must be positive";
  match np_decisions np !! review_id with
  | Some decision => Ok (np, decision)
  | None =>
      rc ← ok_or (ContractError "unknown non-progress review") (fl_reviews ledger !! review_id);
      let res := rc_result rc in
      let ids := still_open_ids res in
      let counts := bump (drop_closed (np_counts np) (rr_existing_findings res)) (bs_iter ids) in
      decision ← any_at_limit limit counts (bs_iter ids);
      Ok ({| np_rounds := <[review_id := ids]> (np_rounds np); np_counts := counts;
             np_decisions := <[review_id := decision]> (np_decisions np) |}, decision)
  end.
