(* ===== verification/StageFacts.v ===== *)
(** * Stages: properties

    The turn budget, stage claims, acceptance of a stage result, release of a
    VM, non-progress detection and comment updates, as modelled in [Stage]. *)

From S2P Require Import Prelude RustStr Contract Review Stage.

(** ** Turn budget *)

Definition budget_step (l l' : BudgetLedger) : Prop := ∃ c now, charge l c now = Ok l'.

Lemma elem_of_scope_rounds l scope r :
  r ∈ scope_rounds l scope ↔
  ∃ k c, bl_charges l !! k = Some c ∧ tc_budget_scope c = scope ∧ tc_remediation_round_id c = Some r.
Proof.
  unfold scope_rounds. rewrite elem_of_list_to_set, list_elem_of_omap. split.
  - intros (c & (k & Hk)%elem_of_bt_values & H). case_decide; [|done]. naive_solver.
  - intros (k & c & Hk & Hs & Hr). exists c. rewrite elem_of_bt_values. split; [by exists k|].
    by rewrite decide_True.
Qed.

(** A successful charge is a replay that changes nothing, or the insertion of a
    new turn within every limit. *)
Lemma charge_inv l c now l' :
  charge l c now = Ok l' →
  (bl_charges l !! tc_logical_turn_id c = Some c ∧ l' = l) ∨
  (bl_charges l !! tc_logical_turn_id c = None ∧
   (now < bl_deadline_epoch_seconds l)%N ∧
   (N.of_nat (size (bl_charges l)) < bl_maximum_turns l)%N ∧
   (tc_kind c = TurnRemediation → is_Some (tc_remediation_round_id c)) ∧
   (∀ r, tc_remediation_round_id c = Some r → r ∈ scope_rounds l (tc_budget_scope c) ∨
      (N.of_nat (size (scope_rounds l (tc_budget_scope c))) < bl_maximum_remediation_rounds l)%N) ∧
   l' = {| bl_maximum_turns := bl_maximum_turns l;
           bl_maximum_remediation_rounds := bl_maximum_remediation_rounds l;
           bl_deadline_epoch_seconds := bl_deadline_epoch_seconds l;
           bl_charges := <[tc_logical_turn_id c := c]> (bl_charges l) |}).
Proof.
  unfold charge. intros H. apply bind_Ok in H as ([] & _ & H).
  destruct (bl_charges l !! tc_logical_turn_id c) as [old|] eqn:E.
  { left. inv_checks. by subst. }
  right. apply bind_Ok in H as ([] & H1 & H). apply bind_Ok in H as ([] & H2 & H).
  apply bind_Ok in H as ([] & H3 & H). inv_checks. bool_prop.
  split_and!; try done.
  - intros Hk. destruct H2 as [H2|H2]; [done|]. destruct (tc_remediation_round_id c); [by eexists|done].
  - intros r Hr. rewrite Hr in H3. inv_checks. by bool_prop.
Qed.

(** The bounds of a budget and the shape of its charges. *)
Record budget_wf (l : BudgetLedger) : Prop := {
  bwf_turns : (N.of_nat (size (bl_charges l)) <= bl_maximum_turns l)%N;
  bwf_rounds : ∀ scope,
    (N.of_nat (size (scope_rounds l scope)) <= bl_maximum_remediation_rounds l)%N;
  bwf_keys : ∀ k c, bl_charges l !! k = Some c → tc_logical_turn_id c = k;
  bwf_remediation : ∀ k c, bl_charges l !! k = Some c → tc_kind c = TurnRemediation →
    is_Some (tc_remediation_round_id c);
}.

Lemma budget_wf_new m d : budget_wf (BudgetLedger_new m d).
Proof.
  split; cbn; [apply N.le_0_l|intros; apply N.le_0_l|intros; by simplify_map_eq..].
Qed.

Lemma scope_rounds_insert l l' c scope :
  bl_charges l !! tc_logical_turn_id c = None →
  bl_charges l' = <[tc_logical_turn_id c := c]> (bl_charges l) →
  scope_rounds l' scope =
    (if decide (tc_budget_scope c = scope)
     then from_option singleton ∅ (tc_remediation_round_id c) else ∅) ∪ scope_rounds l scope.
Proof.
  intros Hnew Hl'. apply set_eq. intros r. rewrite elem_of_union, !elem_of_scope_rounds, Hl'. split.
  - intros (k & c' & [[<- <-]|[Hk Hc']]%lookup_insert_Some & Hs & Hr).
    + left. rewrite decide_True by done. rewrite Hr. cbn. set_solver.
    + right. eauto.
  - intros [H|(k & c' & Hk & H)].
    + case_decide; [|set_solver]. destruct (tc_remediation_round_id c) eqn:E; cbn in H; [|set_solver].
      exists (tc_logical_turn_id c), c. rewrite lookup_insert_eq. set_solver.
    + exists k, c'. rewrite lookup_insert_ne; [done|]. congruence.
Qed.

Lemma charge_wf l c now l' : budget_wf l → charge l c now = Ok l' → budget_wf l'.
Proof.
  intros [Ht Hr Hk Hm] [[_ ->]|(Hnew & _ & Hsz & Hkind & Hround & ->)]%charge_inv; [by split|].
  split; cbn -[N.of_nat].
  - rewrite map_size_insert_None by done. lia.
  - intros scope. erewrite scope_rounds_insert by done. case_decide as Hs.
    2:{ rewrite (left_id_L ∅ (∪)). apply Hr. }
    subst scope. specialize (Hr (tc_budget_scope c)).
    destruct (tc_remediation_round_id c) as [r|] eqn:E; cbn -[N.of_nat].
    2:{ by rewrite (left_id_L ∅ (∪)). }
    destruct (Hround r) as [Hin|Hlt]; [done| |].
    + by rewrite subseteq_union_1_L by set_solver.
    + destruct (decide (r ∈ scope_rounds l (tc_budget_scope c))).
      { by rewrite subseteq_union_1_L by set_solver. }
      rewrite size_union, size_singleton by set_solver. lia.
  - intros k c' [[<- <-]|[_ H]]%lookup_insert_Some; eauto.
  - intros k c' [[<- <-]|[_ H]]%lookup_insert_Some; eauto.
Qed.

Lemma charge_keeps l c now l' k d :
  charge l c now = Ok l' → bl_charges l !! k = Some d → bl_charges l' !! k = Some d.
Proof.
  intros [[_ ->]|(Hnew & _ & _ & _ & _ & ->)]%charge_inv Hk; [done|]. cbn.
  rewrite lookup_insert_ne; [done|]. congruence.
Qed.

Lemma charge_recorded l c now l' :
  charge l c now = Ok l' → bl_charges l' !! tc_logical_turn_id c = Some c.
Proof. intros [[? ->]|(_ & _ & _ & _ & _ & ->)]%charge_inv; [done|]. apply lookup_insert_eq. Qed.

Lemma charge_fields l c now l' :
  charge l c now = Ok l' →
  negb (is_empty (tc_logical_turn_id c)) && negb (is_empty (tc_stage_execution_id c))
  && negb (is_empty (tc_budget_scope c)) = true.
Proof. unfold charge. intros H. apply bind_Ok in H as ([] & H & _). by apply require_Ok in H. Qed.

Lemma budget_limits_kept l l' :
  rtc budget_step l l' →
  bl_maximum_turns l' = bl_maximum_turns l ∧
  bl_maximum_remediation_rounds l' = bl_maximum_remediation_rounds l.
Proof.
  apply (rtc_invariant _ (λ x, bl_maximum_turns x = _ ∧ bl_maximum_remediation_rounds x = _)); [|done].
  intros a b Ha (c & now & [[_ ->]|(_ & _ & _ & _ & _ & ->)]%charge_inv); done.
Qed.

(** C6 Whatever turns are charged, in whatever order and at whatever times, a
    budget never holds more turns than its maximum, nor more than three distinct
    remediation rounds in one budget scope, and every remediation turn names its
    round. *)
Theorem budget_never_exceeded m d l :
  rtc budget_step (BudgetLedger_new m d) l →
  (N.of_nat (size (bl_charges l)) <= m)%N ∧
  (∀ scope, size (scope_rounds l scope) ≤ 3) ∧
  (∀ k c, bl_charges l !! k = Some c → tc_kind c = TurnRemediation →
     is_Some (tc_remediation_round_id c)).
Proof.
  intros H. destruct (budget_limits_kept _ _ H) as [Hm Hr]. cbn in Hm, Hr.
  apply (rtc_invariant _ budget_wf) in H as [H1 H2 H3 H4];
    [|intros a b Ha (c & now & Hc); by eapply charge_wf|apply budget_wf_new].
  rewrite Hm in H1. split_and!; [done| |done]. intros scope. specialize (H2 scope). lia.
Qed.

(** Charging is idempotent per logical turn: once a turn is charged, and after
    any further charges, at any time (even past the deadline and with the budget
    exhausted), the same charge succeeds without changing the ledger, and a
    different charge under the same turn identifier is refused. *)
Theorem charge_idempotent l c now l1 l2 now' c' :
  charge l c now = Ok l1 → rtc budget_step l1 l2 →
  tc_logical_turn_id c' = tc_logical_turn_id c →
  (c' = c → charge l2 c' now' = Ok l2) ∧
  (c' ≠ c → is_ok (charge l2 c' now') = false).
Proof.
  intros Hc Hstep Hid. pose proof (charge_fields _ _ _ _ Hc) as Hf.
  assert (bl_charges l2 !! tc_logical_turn_id c = Some c) as Hl2.
  { refine (rtc_invariant _ (λ x, bl_charges x !! tc_logical_turn_id c = Some c) _ _ _ _ Hstep).
    - intros a b Ha (d & n & Hd). by eapply charge_keeps.
    - by eapply charge_recorded. }
  split.
  - intros ->. unfold charge. rewrite Hf, Hl2. cbn. by rewrite bool_decide_true.
  - intros Hne. destruct (charge l2 c' now') eqn:H; [|done].
    apply charge_inv in H as [[H _]|[H _]]; rewrite Hid, Hl2 in H; congruence.
Qed.

(** ** Claims *)

Section claims.
Context {sha : Sha256} `{!Serialize StageSelector} `{!Serialize StageClaim}.

(** What holds of a feature when it admits a claim. *)
Record claim_admissible (f : FeatureRun) (c : StageClaim) (now : N) : Prop := {
  adm_feature : sc_feature_run_id c = fr_feature_run_id f;
  adm_ready : fr_state f = ReadyForNextStage ∧ fr_active_claim f = None;
  adm_vm : vm_feature_run_id (fr_vm f) = fr_feature_run_id f ∧
           vm_released (fr_vm f) = false ∧ vm_release_pending (fr_vm f) = false;
  adm_current : sc_predecessor_version c = fr_version f ∧ sc_transition_id c = fr_transition_id f;
  adm_stage : sc_stage c = fr_allowed_stage f ∧ sc_inputs c = fr_accepted_inputs f;
  adm_time : (now < sc_deadline_epoch_seconds c <= bl_deadline_epoch_seconds (fr_budgets f))%N;
  adm_inputs : ∀ k a, sc_inputs c !! k = Some a → artifact_ok a;
}.

Lemma check_claim_Admit f c now id dg :
  check_claim f c now = Ok (Admit id dg) →
  StageClaim_identity c = Ok id ∧ fingerprint c = Ok dg ∧ fr_schema_version f = 1%N ∧
  fr_claims f !! id = None ∧ claim_admissible f c now.
Proof.
  unfold check_claim. intros H. apply bind_Ok in H as ([] & H1 & H).
  apply bind_Ok in H as (id' & Hid & H). apply bind_Ok in H as (dg' & Hdg & H).
  destruct (fr_claims f !! id') as [old|] eqn:E; inv_checks; [done|]. simplify_eq.
  bool_prop. split_and!; try done. split; try done.
  intros k a Hk. rewrite check_all_Ok in *.
  match goal with H : ∀ x, x ∈ bt_values _ → _ |- _ => apply H end.
  rewrite elem_of_bt_values. by exists k.
Qed.

Lemma check_claim_Replay f c now r :
  check_claim f c now = Ok (Replay r) →
  ∃ id, StageClaim_identity c = Ok id ∧ fr_claims f !! id = Some r ∧
        fingerprint c = Ok (cr_request_digest r).
Proof.
  unfold check_claim. intros H. apply bind_Ok in H as ([] & H1 & H).
  apply bind_Ok in H as (id' & Hid & H). apply bind_Ok in H as (dg' & Hdg & H).
  destruct (fr_claims f !! id') as [old|] eqn:E; inv_checks; [|done]. simplify_eq. eauto.
Qed.

(** C5 A stage is claimed at most once.  A claim is admitted only for the
    feature's current version, transition, stage and inputs, within the deadline,
    with the VM held and no claim active.  Once the admitted claim is persisted
    with its receipt as the active claim, the same request replays that receipt at
    any later time, no request whatever is admitted beside it, and a request that
    does succeed is byte-for-byte the request of the receipt it is given. *)
Theorem claim_exclusive f claim now id dg f' receipt claim' now' :
  check_claim f claim now = Ok (Admit id dg) →
  fr_schema_version f' = 1%N → fr_feature_run_id f' = fr_feature_run_id f →
  fr_claims f' !! id = Some receipt → cr_request_digest receipt = dg →
  fr_active_claim f' = Some receipt →
  claim_admissible f claim now ∧
  check_claim f' claim now' = Ok (Replay receipt) ∧
  (∀ d, check_claim f' claim' now' = Ok d →
     ∃ r id', d = Replay r ∧ StageClaim_identity claim' = Ok id' ∧ fr_claims f' !! id' = Some r ∧
       fingerprint claim' = Ok (cr_request_digest r)).
Proof.
  intros (Hid & Hdg & Hs & _ & Hadm)%check_claim_Admit Hs' Hf Hc Hr Ha.
  split_and!; [done| |].
  - unfold check_claim. rewrite Hs'.
    rewrite (bool_decide_true (sc_feature_run_id claim = _))
      by (by rewrite Hf, (adm_feature _ _ _ Hadm)).
    rewrite Hid, Hdg. cbn. rewrite Hc, bool_decide_true by done. done.
  - intros [r|id' dg'] Hd.
    + apply check_claim_Replay in Hd as (id' & ? & ? & ?). naive_solver.
    + apply check_claim_Admit in Hd as (_ & _ & _ & _ & [_ [_ Hn] _ _ _ _ _]). congruence.
Qed.
End claims.

(** ** Acceptance of a stage result *)

(** A persisted review that accepted the result's candidate in its stage. *)
Definition stage_review (r : StageResult) (ledger : FindingLedger) (role : Reviewer) : Prop :=
  ∃ id rc, id ∈ sr_review_ids r ∧ fl_reviews ledger !! id = Some rc ∧
    rb_reviewer (rr_binding (rc_result rc)) = role ∧ rr_accepted (rc_result rc) = true ∧
    rb_candidate (rr_binding (rc_result rc)) = cs_candidate_digest (sr_candidate r) ∧
    rb_stage_execution_id (rr_binding (rc_result rc)) = cr_stage_execution_id (sr_claim r) ∧
    (∀ repo, is_Some (cs_repositories (sr_candidate r) !! repo) →
       repo ∈ rb_repositories (rr_binding (rc_result rc))).

Lemma accept_reviews_inv r ledger ids roles roles' :
  (∀ id, id ∈ ids → id ∈ sr_review_ids r) →
  (∀ role, role ∈ roles → stage_review r ledger role) →
  for_each (accept_review r ledger) roles ids = Ok roles' →
  ∀ role, role ∈ roles' → stage_review r ledger role.
Proof.
  intros Hids Hroles H.
  refine (for_each_inv (λ s, ∀ role, role ∈ s → stage_review r ledger role) _ _ _ _ _ Hroles H).
  intros s id s' Hid Hs Hstep. unfold accept_review in Hstep.
  apply bind_Ok in Hstep as (rc & Hrc & Hstep). inv_checks. subst s'.
  match goal with H : forallb _ _ = true |- _ => rewrite forallb_forall in H; rename H into Hf end.
  intros role [->%elem_of_singleton|Hin]%elem_of_union; [|by apply Hs].
  exists id, rc. split_and!; eauto. intros repo Hrepo. specialize (Hf repo).
  rewrite <- list_elem_of_In, elem_of_bt_keys, bool_decide_eq_true in Hf. auto.
Qed.

(** A valid publication receipt of the result's candidate. *)
Definition published (r : StageResult) (intent : string) : Prop :=
  ∃ p, p ∈ sr_publication_receipts r ∧ pr_intent_id p = intent ∧
       PublicationReceipt_validate p = Ok () ∧
       pr_candidate_digest p = cs_candidate_digest (sr_candidate r).

Lemma accept_receipts_inv r ps intents intents' :
  (∀ p, p ∈ ps → p ∈ sr_publication_receipts r) →
  (∀ i, i ∈ intents → published r i) →
  for_each (accept_receipt r) intents ps = Ok intents' →
  (∀ i, i ∈ intents' → published r i) ∧
  NoDup (pr_intent_id <$> ps) ∧ (∀ p, p ∈ ps → pr_intent_id p ∉ intents).
Proof.
  revert intents. induction ps as [|p ps IH]; intros intents Hps Hi H; cbn in H.
  { inv_ok. subst. split_and!; [done|constructor|]. intros p. by rewrite elem_of_nil. }
  apply bind_Ok in H as (i1 & H1 & H). unfold accept_receipt in H1. inv_checks. subst i1.
  apply IH in H as (IH1 & IH2 & IH3).
  - split_and!; [done| |].
    + cbn. constructor; [|done]. intros (q & Hq & Hin)%list_elem_of_fmap.
      apply (IH3 q Hin). set_solver.
    + intros q [->|Hq]%elem_of_cons; [done|]. specialize (IH3 q Hq). set_solver.
  - intros q Hq. apply Hps. by right.
  - intros i [->%elem_of_singleton|Hin]%elem_of_union; [|by apply Hi].
    exists p. split_and!; try done. apply Hps. left.
Qed.

(** The design a sign-off is about: the result's output, else its input. *)
Definition design_of (r : StageResult) : option ArtifactRef :=
  match sr_outputs r !! "design" with Some d => Some d | None => sr_inputs r !! "design" end.

Record stage_accepted (r : StageResult) (f : FeatureRun) (policy : StageAcceptancePolicy)
    (ledger : FindingLedger) (signoff : option DesignSignoff) : Prop := {
  sa_owner : fr_active_claim f = Some (sr_claim r) ∧ sr_feature_run_id r = fr_feature_run_id f ∧
             sr_stage r = fr_allowed_stage f ∧ sr_inputs r = fr_accepted_inputs f;
  sa_candidate : CandidateSnapshot_validate (sr_candidate r) = Ok () ∧
    cs_stage_execution_id (sr_candidate r) = cr_stage_execution_id (sr_claim r);
  sa_closed : fl_feature_run_id ledger = sr_feature_run_id r ∧ FindingLedger_closed ledger = true;
  sa_checks : checks_passed (sr_validation r) (cs_candidate_digest (sr_candidate r)) ∧
    ap_required_checks policy = vr_required_checks (sr_validation r) ∧
    ap_required_checks policy ≠ ∅;
  sa_reviewed : ∀ role, role ∈ ap_required_reviewers policy → stage_review r ledger role;
  sa_unreviewed : ap_required_reviewers policy = ∅ →
    ss_kind (sr_stage r) = Finalize ∧ reviewed_design_history f = true;
  sa_findings : ∀ id, id ∈ sr_finding_ids r → is_Some (fl_findings ledger !! id);
  sa_signoff : ap_require_design_signoff policy = true →
    ∃ d s, design_of r = Some d ∧ signoff = Some s ∧ ds_decision s = Approved ∧
           ds_design_digest s = art_digest d ∧ ds_feature_run_id s = sr_feature_run_id r;
  sa_published : ∀ i, i ∈ ap_required_publication_intents policy → published r i;
  sa_intents : NoDup (pr_intent_id <$> sr_publication_receipts r);
}.

Lemma validate_signoff_sound feature design signoff :
  validate_signoff true feature design signoff = Ok () →
  ∃ s, signoff = Some s ∧ ds_decision s = Approved ∧ ds_design_digest s = design ∧
       ds_feature_run_id s = feature.
Proof. unfold validate_signoff. cbn. intros H. inv_checks. subst. eauto. Qed.

(** C3 An accepted stage result is owned by the feature's active claim and bound
    to its inputs; its candidate passed every check the policy requires; every
    reviewer the policy requires accepted exactly this candidate in this stage;
    no finding is open; a required sign-off approves exactly this design; every
    required publication has a valid receipt of this candidate, and no intent is
    published twice.  Reviewers may be absent from the policy only when finalizing
    a history of accepted intake and design results ending in a reviewed design. *)
Theorem validate_acceptance_sound r f policy ledger signoff :
  validate_acceptance r f policy ledger signoff = Ok () →
  stage_accepted r f policy ledger signoff.
Proof.
  unfold validate_acceptance. intros H.
  apply bind_Ok in H as ([] & Hh & H). apply bind_Ok in H as ([] & H1 & H).
  apply bind_Ok in H as ([] & H2 & H). apply bind_Ok in H as (roles & H3 & H).
  apply bind_Ok in H as ([] & H4 & H). apply bind_Ok in H as ([] & H5 & H).
  apply bind_Ok in H as ([] & H6 & H). apply bind_Ok in H as (intents & H7 & H).
  unfold validate_handoff in Hh. inv_checks. bool_prop.
  eapply accept_receipts_inv in H7 as (H7 & H7' & _); [|done|set_solver].
  split; try done.
  - split_and!; [by apply ValidationReceipt_validate_sound|done..].
  - intros role Hrole. eapply accept_reviews_inv; [| |exact H3|set_solver]; [|set_solver].
    intros id. by rewrite elem_of_bs_iter.
  - naive_solver.
  - intros id Hid. rewrite forallb_forall in H5. specialize (H5 id).
    rewrite <- list_elem_of_In, elem_of_bs_iter, bool_decide_eq_true in H5. auto.
  - intros Hreq. rewrite Hreq in H6. apply bind_Ok in H6 as (d & Hd & H6). inv_ok.
    apply validate_signoff_sound in H6 as (s & ?). naive_solver.
  - intros i Hi. apply H7. set_solver.
Qed.

(** ** Release of a VM *)

(** A VM is released exactly on a receipt for this VM, feature and generation
    in a terminal state, with a valid dispatch fence and a valid evidence for
    every outstanding execution or effect. *)
Theorem validate_release_iff v r outstanding :
  validate_release v r outstanding = Ok () ↔
  vrr_vm_id r = vm_vm_id v ∧ vrr_feature_run_id r = vm_feature_run_id v ∧
  vrr_generation r = vm_generation v ∧
  (vrr_terminal_state r = Completed ∨ vrr_terminal_state r = Cancelled ∨
   vrr_terminal_state r = Failed) ∧
  artifact_ok (vrr_dispatch_fenced r) ∧
  outstanding ⊆ dom (vrr_execution_and_effect_receipts r) ∧
  map_Forall (λ _, artifact_ok) (vrr_execution_and_effect_receipts r).
Proof.
  unfold validate_release. rewrite !check_Ok, !require_Ok, check_all_Ok. bool_prop.
  rewrite forallb_forall. split.
  - intros (((-> & ->) & ->) & H2 & H3 & H4 & H5). split_and!; try done.
    + destruct (vrr_terminal_state r); naive_solver.
    + intros id Hid. specialize (H4 id).
      rewrite <- list_elem_of_In, elem_of_bs_iter, bool_decide_eq_true in H4.
      apply elem_of_dom. auto.
    + intros k a Hk. apply H5. rewrite elem_of_bt_values. eauto.
  - intros (-> & -> & -> & Hst & Hf & Hout & Hall). split_and!; try done.
    + destruct (vrr_terminal_state r); naive_solver.
    + intros id Hid. apply bool_decide_eq_true, elem_of_dom, Hout.
      by rewrite <- elem_of_bs_iter, list_elem_of_In.
    + intros a (k & Hk)%elem_of_bt_values. by apply (Hall k).
Qed.

(** ** Non-progress *)

Definition disposed (res : ReviewResult) (id : string) : bool :=
  existsb (λ i, bool_decide (ef_existing_finding_id i = id)
                && bool_decide (ef_disposition i ≠ StillOpen)) (rr_existing_findings res).

(** The number of reviews, latest first, that left a finding open since a review
    last gave it another disposition. *)
Fixpoint streak (id : string) (history : list ReviewResult) : N :=
  match history with
  | [] => 0
  | res :: older =>
      (if decide (id ∈ still_open_ids res) then 1 else 0)
      + (if disposed res id then 0 else streak id older)
  end.

(** The states a tracker reaches, with the reviews it has observed, latest first. *)
Inductive observed : NonProgress → list ReviewResult → Prop :=
| observed_none : observed NonProgress_default []
| observed_review np h id ledger limit rc np' d :
    observed np h → np_decisions np !! id = None → fl_reviews ledger !! id = Some rc →
    observe np id ledger limit = Ok (np', d) → observed np' (rc_result rc :: h).

Lemma lookup_drop_closed m items id :
  drop_closed m items !! id =
  if existsb (λ i, bool_decide (ef_existing_finding_id i = id)
                   && bool_decide (ef_disposition i ≠ StillOpen)) items
  then None else m !! id.
Proof.
  revert m. induction items as [|i items IH]; intros m; cbn; [done|].
  unfold drop_closed in IH. rewrite IH. case_decide as Hd.
  - rewrite (bool_decide_false (_ ≠ _)) by (by intros ?). by rewrite andb_false_r.
  - rewrite (bool_decide_true (_ ≠ _)), andb_true_r by done.
    case_bool_decide as Hk; cbn.
    + subst. rewrite lookup_delete_eq. by case_match.
    + by rewrite lookup_delete_ne.
Qed.

Lemma lookup_bump m ids id :
  NoDup ids →
  bump m ids !! id = if decide (id ∈ ids) then Some (default 0 (m !! id) + 1)%N else m !! id.
Proof.
  revert m. induction ids as [|i ids IH]; intros m Hnd; cbn.
  { case_decide as H; [by apply elem_of_nil in H|done]. }
  apply NoDup_cons in Hnd as [Hi Hnd]. unfold bump in IH. rewrite IH by done.
  destruct (decide (id = i)) as [->|Hne].
  - rewrite decide_False, decide_True by (done || left). by rewrite lookup_insert_eq.
  - rewrite lookup_insert_ne by done.
    destruct (decide (id ∈ ids)); [rewrite decide_True by (by right)|rewrite decide_False]; try done.
    by intros [->|?]%elem_of_cons.
Qed.

Lemma any_at_limit_spec limit counts ids :
  (∀ id, id ∈ ids → is_Some (counts !! id)) →
  ∃ d, any_at_limit limit counts ids = Ok d ∧
       (d = true ↔ ∃ id, id ∈ ids ∧ (limit <= default 0 (counts !! id))%N).
Proof.
  induction ids as [|i ids IH]; intros Hall; cbn.
  { exists false. split; [done|]. split; [done|]. intros (id & H & _). by apply elem_of_nil in H. }
  destruct (Hall i) as [n Hn]; [left|]. rewrite Hn. cbn.
  destruct (limit <=? n)%N eqn:E; bool_prop.
  - exists true. split; [done|]. split; [|done]. intros _. exists i. rewrite Hn. split; [left|done].
  - destruct IH as (d & Hd & Hiff); [intros; apply Hall; by right|]. exists d. split; [done|].
    rewrite Hiff. split; intros (id & Hid & Hle); exists id.
    + split; [by right|done].
    + apply elem_of_cons in Hid as [->|Hid]; [|done]. rewrite Hn in Hle. cbn in Hle. lia.
Qed.

Lemma bs_iter_NoDup (s : gset string) : NoDup (bs_iter s).
Proof. unfold bs_iter. rewrite merge_sort_Permutation. apply NoDup_elements. Qed.

(** The counters after a review, in terms of the counters before it. *)
Lemma counts_after m res id :
  default 0%N (bump (drop_closed m (rr_existing_findings res)) (bs_iter (still_open_ids res)) !! id)
  = ((if decide (id ∈ still_open_ids res) then 1 else 0)
     + (if disposed res id then 0 else default 0 (m !! id)))%N.
Proof.
  rewrite lookup_bump, lookup_drop_closed by apply bs_iter_NoDup. fold (disposed res id).
  rewrite (decide_ext _ _ _ _ (elem_of_bs_iter (still_open_ids res) id)).
  destruct (disposed res id); case_decide; cbn; lia.
Qed.

Lemma observe_spec np id ledger limit rc :
  (0 < limit)%N → np_decisions np !! id = None → fl_reviews ledger !! id = Some rc →
  ∃ np' d, observe np id ledger limit = Ok (np', d) ∧
    np_counts np' = bump (drop_closed (np_counts np) (rr_existing_findings (rc_result rc)))
                      (bs_iter (still_open_ids (rc_result rc))) ∧
    np_decisions np' = <[id := d]> (np_decisions np) ∧
    (d = true ↔ ∃ k, k ∈ still_open_ids (rc_result rc) ∧
                     (limit <= default 0 (np_counts np' !! k))%N).
Proof.
  intros Hl Hd Hrc. unfold observe. rewrite Hd, Hrc. rewrite (proj2 (N.ltb_lt _ _) Hl). cbn.
  edestruct (any_at_limit_spec limit
    (bump (drop_closed (np_counts np) (rr_existing_findings (rc_result rc)))
       (bs_iter (still_open_ids (rc_result rc))))
    (bs_iter (still_open_ids (rc_result rc)))) as (d & -> & Hiff).
  { intros k Hk. rewrite lookup_bump by apply bs_iter_NoDup. rewrite decide_True by done. by eexists. }
  eexists _, d. split_and!; try done. cbn. rewrite Hiff. by setoid_rewrite elem_of_bs_iter.
Qed.

Lemma observed_counts np h :
  observed np h → ∀ k, default 0%N (np_counts np !! k) = streak k h.
Proof.
  induction 1 as [|np h id ledger limit rc np' d _ IH Hd Hrc Hobs]; intros k; [done|].
  assert (0 < limit)%N as Hl.
  { unfold observe in Hobs. apply bind_Ok in Hobs as ([] & H & _). inv_checks. by bool_prop. }
  destruct (observe_spec np id ledger limit rc) as (np1 & d1 & Hobs' & Hc & _); [done..|].
  rewrite Hobs in Hobs'. simplify_eq. rewrite Hc, counts_after, IH. done.
Qed.

(** Non-progress is reported exactly when a finding the review leaves open has
    now been left open by [limit] reviews since it last got another disposition.
    The report never fails for a persisted review, and observing the same review
    again returns the same answer without counting it twice. *)
Theorem observe_reports_streaks np h id ledger limit rc :
  observed np h → (0 < limit)%N →
  np_decisions np !! id = None → fl_reviews ledger !! id = Some rc →
  ∃ np' d, observe np id ledger limit = Ok (np', d) ∧
    (d = true ↔ ∃ k, k ∈ still_open_ids (rc_result rc) ∧
                     (limit <= streak k (rc_result rc :: h))%N) ∧
    (∀ ledger' limit', (0 < limit')%N → observe np' id ledger' limit' = Ok (np', d)).
Proof.
  intros Hobs Hl Hd Hrc.
  destruct (observe_spec np id ledger limit rc) as (np' & d & Ho & _ & Hdec & Hiff); [done..|].
  exists np', d. split_and!; [done| |].
  - rewrite Hiff. by setoid_rewrite (observed_counts np' (rc_result rc :: h));
      [|by eapply observed_review].
  - intros ledger' limit' Hl'. unfold observe. rewrite (proj2 (N.ltb_lt _ _) Hl'). cbn.
    by rewrite Hdec, lookup_insert_eq.
Qed.

(** ** Comments *)

Section comments.
Context {sha : Sha256} `{!Serialize CommentPurpose}.

(** Successive contents of one comment. *)
Definition comment_step (previous next : CommentIntent) : Prop := check_update next previous = Ok ().

Lemma check_update_inv c p :
  check_update c p = Ok () → c = p ∨ (ci_purpose c = Status ∧ (ci_version p < ci_version c)%N).
Proof.
  unfold check_update. intros H. apply bind_Ok in H as (? & _ & H). apply bind_Ok in H as (? & _ & H).
  apply bind_Ok in H as ([] & _ & H). case_decide; [by left|]. right. inv_checks. bool_prop.
  destruct (ci_purpose c); naive_solver.
Qed.

(** Across any sequence of accepted updates the version of a comment never
    decreases, two contents with one version are the same, and a round or
    publication comment is the one first posted. *)
Theorem comments_monotone c c' :
  rtc comment_step c c' →
  (ci_version c <= ci_version c')%N ∧
  (ci_version c = ci_version c' → c = c') ∧
  (ci_purpose c' ≠ Status → c = c').
Proof.
  intros H. apply (rtc_invariant comment_step (λ x,
    (ci_version c < ci_version x)%N ∧ ci_purpose x = Status ∨ c = x)) in H; [|clear c' H|by right].
  - destruct H as [[??]|<-]; split_and!; [lia|lia|done|lia|done..].
  - intros a b Ha [->|[Hs Hv]]%check_update_inv; [done|].
    left. split; [|done]. destruct Ha as [[??]|<-]; lia.
Qed.
End comments.
