(* ===== verification/Publication.v ===== *)
(** * Publication effects

    Model of [crates/development-workflow-contract/src/publication.rs]: the plan
    of an external effect and its policy check, and the state machine of a
    dispatched effect. *)

From S2P Require Import Prelude RustStr Contract.
From Stdlib Require Import Ascii.

Inductive Destination :=
| Issue (title : string)
| Comment (issue : N)
| Document (branch path : string) (expected_blob : option string).
#[global] Instance Destination_eq_dec : EqDecision Destination.
Proof. solve_decision. Defined.

Record PublicationPlan := {
  pp_feature_id : string;
  pp_slot : string;
  pp_revision : N;
  pp_candidate_digest : string;
  pp_repository : string;
  pp_destination : Destination;
  pp_content : ArtifactRef;
}.

Record PublicationPolicy := {
  po_repositories : gset string;
  po_document_branches : gset string;
  po_document_paths : gset string;
  po_allow_issues : bool;
  po_allow_comments : bool;
}.

Record PublicationDelivery := {
  pdl_key : string;
  pdl_plan : PublicationPlan;
  pdl_body : string;
}.

Record ProviderPublicationReceipt := {
  ppr_key : string;
  ppr_request_digest : string;
  ppr_provider_id : string;
  ppr_resource_url : string;
  ppr_commit : option string;
}.

(** ** Names that cannot escape *)

Definition safe_path (value : string) : bool :=
  negb (is_empty value) && (slen value <=? 512)%N
  && negb (existsb (contains_byte value) ["092"; "%"; "?"; "#"]%char)
  && negb (has_control (bytes value))
  && forallb (λ part, negb (is_empty part) && bool_decide (part ≠ ".")
                      && bool_decide (part ≠ "..") && bool_decide (part ≠ ".git"))
       (split "/" value).

Definition safe_branch (value : string) : bool :=
  safe_path value
  && negb (bool_decide (value ∈ ["main"; "master"; "develop"; "HEAD"]))
  && negb (starts_with value "-")
  && negb (starts_with value "refs/")
  && negb (contains value "..")
  && negb (contains value "@{")
  && negb (existsb (contains_byte value) [" "; "~"; "^"; ":"; "*"; "["]%char)
  && forallb (λ part, negb (starts_with part ".") && negb (ends_with part ".")
                      && negb (ends_with part ".lock")) (split "/" value).

(** [b.is_ascii_alphanumeric()], or a dash, underscore or dot. *)
Definition slot_byte (b : ascii) : bool :=
  is_ascii_alphanumeric b || existsb (Ascii.eqb b) ["-"; "_"; "."]%char.

(** ** Plans *)

Definition PublicationPlan_validate (p : PublicationPlan) (policy : PublicationPolicy)
    (accepted_candidate : string) : Result unit :=
  _ ← require (negb (is_empty (pp_feature_id p)) && (slen (pp_feature_id p) <=? 128)%N
               && negb (is_empty (pp_slot p)) && (slen (pp_slot p) <=? 128)%N
               && forallb slot_byte (bytes (pp_slot p))
               && (0 <? pp_revision p)%N) "invalid publication slot";
  _ ← require (digest_valid (pp_candidate_digest p)
               && bool_decide (pp_candidate_digest p = accepted_candidate))
        "publication candidate is not accepted";
  _ ← ArtifactRef_validate (pp_content p);
  let parts := split "/" (pp_repository p) in
  _ ← require ((length parts =? 2)%nat
               && forallb (λ s, negb (is_empty s) && bool_decide (s ≠ ".")
                                && bool_decide (s ≠ "..") && forallb slot_byte (bytes s)) parts
               && bool_decide (pp_repository p ∈ po_repositories policy))
        "publication repository is not pinned";
  match pp_destination p with
  | Issue title =>
      require (po_allow_issues policy && negb (blank title) && (slen title <=? 256)%N
               && negb (has_control (bytes title))) "issue publication denied"
  | Comment issue =>
      require (po_allow_comments policy && (0 <? issue)%N) "comment publication denied"
  | Document branch path expected_blob =>
      _ ← require (bool_decide (branch ∈ po_document_branches policy) && safe_branch branch)
            "document branch is not pinned";
      _ ← require (bool_decide (path ∈ po_document_paths policy) && safe_path path)
            "document path is not pinned";
      require (match expected_blob with Some value => git_oid value | None => true end)
        "invalid document compare-and-swap blob"
  end.

(** ** Effects *)

Inductive EffectState :=
| Prepared
| InFlight
| Unknown
| Confirmed (provider_id : string) (verification : ArtifactRef).
#[global] Instance EffectState_eq_dec : EqDecision EffectState.
Proof. solve_decision. Defined.

Record PublicationEffect := {
  pe_id : string;
  pe_request_digest : string;
  pe_state : EffectState;
}.

Definition set_effect_state (st : EffectState) (e : PublicationEffect) : PublicationEffect :=
  {| pe_id := pe_id e; pe_request_digest := pe_request_digest e; pe_state := st |}.

Definition begin_ (e : PublicationEffect) : Result PublicationEffect :=
  _ ← require (bool_decide (pe_state e = Prepared)) "publication must reconcile before redispatch";
  Ok (set_effect_state InFlight e).

Definition mark_unknown (e : PublicationEffect) : Result PublicationEffect :=
  _ ← require (match pe_state e with InFlight | Unknown => true | _ => false end)
        "effect is not in flight";
  Ok (set_effect_state Unknown e).

Definition confirm (e : PublicationEffect) (provider_id : string) (verification : ArtifactRef) :
    Result PublicationEffect :=
  _ ← ArtifactRef_validate verification;
  _ ← require (negb (is_empty provider_id) && (slen provider_id <=? 512)%N)
        "invalid publication provider identity";
  let next := Confirmed provider_id verification in
  match pe_state e with
  | InFlight | Unknown => Ok (set_effect_state next e)
  | old => if decide (old = next) then Ok e
           else Err (ContractError "publication confirmation conflict")
  end.

Section effects.
Context {sha : Sha256} `{!Serialize PublicationPlan} `{!Serialize PublicationDelivery}.

Definition PublicationDelivery_request_digest (d : PublicationDelivery) : Result string :=
  fingerprint d.

Definition effect_id (p : PublicationPlan) : string :=
  identity "publication-effect/v1" [pp_feature_id p; pp_slot p; dec (pp_revision p)].

Definition prepare (plan : PublicationPlan) (policy : PublicationPolicy) (candidate : string) :
    Result PublicationEffect :=
  _ ← PublicationPlan_validate plan policy candidate;
  digest ← fingerprint plan;
  Ok {| pe_id := effect_id plan; pe_request_digest := digest; pe_state := Prepared |}.

(** The digest is computed only when the identifiers agree. *)
Definition check_replay (e : PublicationEffect) (plan : PublicationPlan) : Result unit :=
  same ← (if decide (pe_id e = effect_id plan)
          then digest ← fingerprint plan; Ok (bool_decide (pe_request_digest e = digest))
          else Ok false);
  require same "publication replay changed immutable request".
End effects.

(** ** Paths stay below their root *)

(** Lexical resolution of a path below a root: an empty or dot segment stays,
    a double dot goes up and leaves the root when nothing is above. *)
Fixpoint resolve_below (stack : list string) (parts : list string) : option (list string) :=
  match parts with
  | [] => Some (rev stack)
  | part :: rest =>
      if bool_decide (part = "") || bool_decide (part = ".") then resolve_below stack rest
      else if bool_decide (part = "..") then
        match stack with _ :: up => resolve_below up rest | [] => None end
      else resolve_below (part :: stack) rest
  end.

Lemma resolve_below_plain stack parts :
  Forall (λ p, p ≠ "" ∧ p ≠ "." ∧ p ≠ "..") parts →
  resolve_below stack parts = Some (rev stack ++ parts).
Proof.
  intros H. revert stack. induction H as [|p parts (H1 & H2 & H3) _ IH]; intros stack; cbn.
  { by rewrite app_nil_r. }
  rewrite !bool_decide_false by done. cbn. rewrite IH. cbn. by rewrite <- app_assoc.
Qed.

Lemma safe_path_parts value :
  safe_path value = true →
  Forall (λ p, (p ≠ "" ∧ p ≠ "." ∧ p ≠ "..") ∧ p ≠ ".git") (split "/" value).
Proof.
  unfold safe_path. intros H. inv_checks. apply Forall_forall. intros p Hp.
  match goal with H : forallb _ _ = true |- _ => rewrite forallb_forall in H; specialize (H p) end.
  rewrite <- list_elem_of_In in *.
  match goal with H : p ∈ _ → _ |- _ => specialize (H Hp) end.
  inv_checks. rewrite is_empty_false in *. by split_and!.
Qed.

(** Where a destination may write. *)
Definition destination_confined (policy : PublicationPolicy) (d : Destination) : Prop :=
  match d with
  | Issue title => po_allow_issues policy = true ∧ blank title = false
  | Comment issue => po_allow_comments policy = true ∧ (0 < issue)%N
  | Document branch path _ =>
      branch ∈ po_document_branches policy ∧ path ∈ po_document_paths policy ∧
      (branch ∉ ["main"; "master"; "develop"; "HEAD"]) ∧
      (∀ name, name ∈ [branch; path] →
         resolve_below [] (split "/" name) = Some (split "/" name) ∧ (".git" ∉ split "/" name))
  end.

(** A validated plan publishes the accepted candidate to a pinned repository
    of the form owner/name.  A document goes to a pinned path on a pinned branch
    that is no trunk branch; both names resolve lexically to themselves below any
    root, so neither can leave it or enter a [.git] directory. *)
Theorem validated_plan_confined p policy candidate :
  PublicationPlan_validate p policy candidate = Ok () →
  pp_candidate_digest p = candidate ∧ digest_valid candidate = true ∧
  artifact_ok (pp_content p) ∧ pp_repository p ∈ po_repositories policy ∧
  (∃ owner name, split "/" (pp_repository p) = [owner; name] ∧
     resolve_below [] [owner; name] = Some [owner; name]) ∧
  destination_confined policy (pp_destination p).
Proof.
  unfold PublicationPlan_validate. rewrite !check_Ok, !require_Ok.
  intros (_ & H2 & H3 & H4 & H5). inv_checks. subst. split_and!; try done.
  - destruct (split "/" (pp_repository p)) as [|o [|n [|??]]]; try done. exists o, n.
    split; [done|]. match goal with H : forallb _ [o; n] = true |- _ => cbn in H end.
    inv_checks. rewrite is_empty_false in *.
    apply (resolve_below_plain []). by repeat constructor.
  - destruct (pp_destination p) as [title|issue|branch path blob]; cbn in *;
      [inv_checks; by bool_prop..|].
    rewrite !check_Ok, !require_Ok in H5. destruct H5 as (H5 & H6 & _).
    unfold safe_branch in H5. inv_checks. bool_prop. split_and!; try done.
    intros name Hn. assert (safe_path name = true) as Hs by set_solver.
    apply safe_path_parts in Hs. split.
    + by apply (resolve_below_plain []), (Forall_impl _ _ _ Hs); intros ? [??].
    + intros Hg. rewrite Forall_forall in Hs. by destruct (Hs ".git" Hg).
Qed.

(** ** Lifetime of an effect *)

Inductive effect_op :=
| OpBegin
| OpUnknown
| OpConfirm (provider_id : string) (verification : ArtifactRef).
#[global] Instance effect_op_eq_dec : EqDecision effect_op.
Proof. solve_decision. Defined.

Definition effect_apply (e : PublicationEffect) (o : effect_op) : Result PublicationEffect :=
  match o with
  | OpBegin => begin_ e
  | OpUnknown => mark_unknown e
  | OpConfirm p v => confirm e p v
  end.

(** A sequence of calls: a refused call leaves the effect as it was.  Returns the
    final effect and the calls that were accepted. *)
Fixpoint effect_run (e : PublicationEffect) (ops : list effect_op) :
    PublicationEffect * list effect_op :=
  match ops with
  | [] => (e, [])
  | o :: rest =>
      match effect_apply e o with
      | Ok e' => let (f, acc) := effect_run e' rest in (f, o :: acc)
      | Err _ => effect_run e rest
      end
  end.

(** The calls a state still accepts. *)
Lemma effect_apply_inv e o e' :
  effect_apply e o = Ok e' →
  pe_id e' = pe_id e ∧ pe_request_digest e' = pe_request_digest e ∧
  match pe_state e with
  | Prepared => o = OpBegin ∧ pe_state e' = InFlight
  | InFlight | Unknown =>
      (o = OpUnknown ∧ pe_state e' = Unknown) ∨
      (∃ p v, o = OpConfirm p v ∧ pe_state e' = Confirmed p v)
  | Confirmed p v => o = OpConfirm p v ∧ e' = e
  end.
Proof.
  destruct o as [| |p v]; cbn; unfold begin_, mark_unknown, confirm; intros H.
  - inv_checks. subst. by rewrite H.
  - inv_checks. subst. destruct (pe_state e); naive_solver.
  - rewrite !check_Ok in H. destruct H as (_ & _ & H).
    destruct (pe_state e) eqn:E; try case_decide; simplify_eq; naive_solver.
Qed.

Lemma effect_run_identity e ops f acc :
  effect_run e ops = (f, acc) → pe_id f = pe_id e ∧ pe_request_digest f = pe_request_digest e.
Proof.
  revert e acc. induction ops as [|o ops IH]; cbn; intros e acc Hrun; [by simplify_eq|].
  destruct (effect_apply e o) as [e'|] eqn:E; [|by eapply IH].
  destruct (effect_run e' ops) eqn:R. simplify_eq.
  apply effect_apply_inv in E as (<- & <- & _). by eapply IH.
Qed.

Lemma effect_run_confirmed e ops f acc p v :
  pe_state e = Confirmed p v → effect_run e ops = (f, acc) →
  f = e ∧ Forall (λ o, o = OpConfirm p v) acc.
Proof.
  revert acc. induction ops as [|o ops IH]; cbn; intros acc Hs H; [by simplify_eq|].
  destruct (effect_apply e o) as [e'|] eqn:E; [|by apply IH].
  apply effect_apply_inv in E as (_ & _ & E). rewrite Hs in E. destruct E as [-> ->].
  destruct (effect_run e ops) as [f' acc'] eqn:R. simplify_eq.
  destruct (IH acc') as [-> ?]; [done..|]. split; [done|]. by constructor.
Qed.

Lemma effect_run_dispatched e ops f acc :
  pe_state e = InFlight ∨ pe_state e = Unknown → effect_run e ops = (f, acc) →
  pe_state f ≠ Prepared ∧ (OpBegin ∉ acc) ∧ pe_id f = pe_id e ∧
  pe_request_digest f = pe_request_digest e ∧
  (∀ p v, OpConfirm p v ∈ acc → pe_state f = Confirmed p v).
Proof.
  revert e acc. induction ops as [|o ops IH]; cbn; intros e acc Hs H.
  { simplify_eq. split_and!; [by destruct Hs as [->| ->]|set_solver..]. }
  destruct (effect_apply e o) as [e'|] eqn:E; [|by apply IH].
  destruct (effect_run e' ops) as [f' acc'] eqn:R. simplify_eq.
  apply effect_apply_inv in E as (Hid & Hdg & E).
  assert ((o = OpUnknown ∧ pe_state e' = Unknown) ∨
          (∃ p v, o = OpConfirm p v ∧ pe_state e' = Confirmed p v)) as [[-> Hu]|(p & v & -> & Hc)]
    by (destruct Hs as [Hs|Hs]; by rewrite Hs in E).
  - destruct (IH e' acc') as (? & ? & ? & ? & Hcf); [by right|done|]. rewrite <- Hid, <- Hdg.
    split_and!; try done; [set_solver|]. intros p v [?|?]%elem_of_cons; [done|by apply Hcf].
  - destruct (effect_run_confirmed _ _ _ _ _ _ Hc R) as [-> Hall]. rewrite Forall_forall in Hall.
    split_and!; [by rewrite Hc| |done..|].
    + intros [?|Hin]%elem_of_cons; [done|]. by apply Hall in Hin.
    + intros p' v' [?|Hin]%elem_of_cons; [by simplify_eq|]. apply Hall in Hin. by simplify_eq.
Qed.

(** C4 An external effect is dispatched at most once.  Whatever calls are made on
    a prepared effect, in whatever order and however often, the accepted ones are
    none at all, or one [begin] followed by calls that contain no further [begin];
    the identifier and request digest never change, and once a confirmation is
    accepted the effect stays confirmed with that provider identity and proof. *)
Theorem effect_dispatched_once e ops f acc :
  pe_state e = Prepared → effect_run e ops = (f, acc) →
  pe_id f = pe_id e ∧ pe_request_digest f = pe_request_digest e ∧
  ((acc = [] ∧ f = e) ∨
   (∃ rest, acc = OpBegin :: rest ∧ (OpBegin ∉ rest) ∧ pe_state f ≠ Prepared)) ∧
  (∀ p v, OpConfirm p v ∈ acc → pe_state f = Confirmed p v).
Proof.
  revert acc. induction ops as [|o ops IH]; cbn; intros acc Hs H.
  { simplify_eq. split_and!; try done; [by left|set_solver]. }
  destruct (effect_apply e o) as [e'|] eqn:E; [|by apply IH].
  destruct (effect_run e' ops) as [f' acc'] eqn:R. simplify_eq.
  apply effect_apply_inv in E as (Hid & Hdg & E). rewrite Hs in E. destruct E as [-> Hi].
  destruct (effect_run_dispatched _ _ _ _ (or_introl Hi) R) as (? & ? & ? & ? & Hc).
  split_and!; [congruence..| |].
  - right. by exists acc'.
  - intros p v [?|?]%elem_of_cons; [done|by apply Hc].
Qed.

(** ** Replay *)

Section replay.
Context {sha : Sha256} `{!Serialize PublicationPlan}.

Definition wire_bounded (p : PublicationPlan) : Prop :=
  Forall (λ s, slen s <= u64_max)%N [pp_feature_id p; pp_slot p; dec (pp_revision p)] ∧
  (∀ j, to_json p = Some j → slen j <= u64_max)%N.

Lemma fingerprint_inj {T} `{!Serialize T} (a b : T) d :
  (∀ j, to_json a = Some j → slen j <= u64_max)%N →
  (∀ j, to_json b = Some j → slen j <= u64_max)%N →
  fingerprint a = Ok d → fingerprint b = Ok d → to_json a = to_json b ∨ sha256_collision.
Proof.
  unfold fingerprint. intros Ha Hb H1 H2.
  apply bind_Ok in H1 as (ja & ?%ok_or_Ok & H1). apply bind_Ok in H2 as (jb & ?%ok_or_Ok & H2).
  injection H1 as H1. injection H2 as H2. rewrite <- H2 in H1.
  apply identity_inj in H1 as [[_ H1]|H1]; [|by right|repeat constructor; auto; done..].
  left. congruence.
Qed.

(** A replay is accepted only for the request the effect was prepared for:
    whatever happened to a prepared effect since, a plan that passes
    [check_replay] has the same feature, slot, revision and serialized request,
    unless SHA-256 maps two different byte strings to one digest. *)
Theorem replay_is_same_request plan policy candidate e ops f acc plan' :
  prepare plan policy candidate = Ok e → effect_run e ops = (f, acc) →
  wire_bounded plan → wire_bounded plan' →
  check_replay f plan' = Ok () →
  (pp_feature_id plan' = pp_feature_id plan ∧ pp_slot plan' = pp_slot plan ∧
   pp_revision plan' = pp_revision plan ∧ to_json plan' = to_json plan) ∨ sha256_collision.
Proof.
  intros Hp Hrun [Hb1 Hb2] [Hb1' Hb2'] Hr.
  unfold prepare in Hp. apply bind_Ok in Hp as ([] & _ & Hp).
  apply bind_Ok in Hp as (dg & Hdg & Hp). injection Hp as <-.
  apply effect_run_identity in Hrun as [Hid Hd]. cbn in Hid, Hd.
  unfold check_replay in Hr. apply bind_Ok in Hr as (same & Hs & Hr).
  apply require_Ok in Hr as ->. case_decide as Heq; [|done].
  apply bind_Ok in Hs as (dg' & Hdg' & Hs). injection Hs as Hs%bool_decide_eq_true.
  rewrite Hid in Heq. rewrite Hd in Hs. subst dg'.
  apply identity_inj in Heq as [[_ Heq]|Hc]; [|by right|by constructor..].
  destruct (fingerprint_inj plan plan' dg) as [Hj|Hc]; [done..| |by right].
  left. injection Heq as ? ? Hrev. apply (inj pretty) in Hrev. done.
Qed.
End replay.
