(* ===== verification/ContractExamples.v ===== *)
(** * The development-workflow contract at work

    A feature run with two reviewers, evaluated step by step: the theorems of
    [Contract], [ReviewFacts], [Coverage], [StageFacts] and [Publication] applied
    to concrete values. *)

From S2P Require Import Prelude RustStr Contract Review ReviewFacts Coverage Stage StageFacts Publication.
From Stdlib Require Import Ascii.

(** ** Concrete parameters *)

#[local] Existing Instance sample_sha.
#[local] Instance review_json : Serialize ReviewResult :=
  λ r, Some (rb_review_id (rr_binding r) +:+ "/" +:+ rb_candidate (rr_binding r)).
#[local] Instance selector_json : Serialize StageSelector :=
  λ s, Some (match ss_kind s with Intake => "intake" | Design => "design" | Plan => "plan"
             | Implement => "implement" | Finalize => "finalize" end).
#[local] Instance claim_json : Serialize StageClaim := λ c, Some (sc_transition_id c).
#[local] Instance purpose_json : Serialize CommentPurpose :=
  λ p, Some (match p with Status => "status" | Round _ _ => "round" | Publication _ _ _ _ => "publication" end).
#[local] Instance plan_json : Serialize PublicationPlan :=
  λ p, Some (pp_slot p +:+ "/" +:+ art_digest (pp_content p)).

Definition digest_of (name : string) : string := "sha256:" +:+ sample_sha (bytes name).
Definition art (name : string) : ArtifactRef := {| art_id := name; art_digest := digest_of name |}.
Definition cand1 : string := digest_of "first candidate".
Definition cand2 : string := digest_of "fixed candidate".

(** ** The ledger of the run *)

Definition binding (id : string) (role : Reviewer) (cand : string) : ReviewBinding :=
  {| rb_feature_run_id := "run"; rb_review_id := id; rb_stage_execution_id := "exec";
     rb_reviewer := role; rb_session_id := match role with Codex => "s1" | Claude => "s2" end;
     rb_candidate := cand; rb_repositories := {["repo"]} |}.

(** Codex finds a defect in the first candidate. *)
Definition review1 : ReviewResult :=
  {| rr_binding := binding "r1" Codex cand1; rr_accepted := false; rr_evidence := art "e1";
     rr_existing_findings := [];
     rr_new_findings := [ {| nf_local_id := "n1"; nf_repository := "repo"; nf_location := "a.rs";
       nf_failure := "overflow"; nf_resolution := "saturate"; nf_evidence := art "e2";
       nf_severity := Blocking; nf_duplicate_of := None; nf_duplicate_reason := None |} ] |}.
Definition finding1 : string := finding_identity "run" "r1" "n1".

(** It is remediated, and Codex verifies the fix on the second candidate. *)
Definition fix1 : Remediation :=
  {| rm_turn_id := "turn"; rm_candidate := cand2; rm_finding_id := finding1;
     rm_changed_paths := {["a.rs"]}; rm_evidence := art "e3"; rm_dispute := false |}.
Definition review2 : ReviewResult :=
  {| rr_binding := binding "r2" Codex cand2; rr_accepted := true; rr_evidence := art "e4";
     rr_existing_findings := [ {| ef_existing_finding_id := finding1;
       ef_disposition := VerifiedResolved; ef_evidence := art "e5" |} ];
     rr_new_findings := [] |}.
(** Claude accepts the second candidate. *)
Definition review3 : ReviewResult :=
  {| rr_binding := binding "r3" Claude cand2; rr_accepted := true; rr_evidence := art "e6";
     rr_existing_findings := []; rr_new_findings := [] |}.

Definition ledger0 : FindingLedger := FindingLedger_new "run".
Definition allocated1 : FindingLedger := ok_value ledger0 (allocate_review ledger0 (rr_binding review1)).
Definition no_receipt : ReviewReceipt :=
  {| rc_request_digest := ""; rc_result := review1; rc_canonical_ids := ∅ |}.
Definition review_of (l : FindingLedger) (r : ReviewResult) : FindingLedger * ReviewReceipt :=
  ok_value (l, no_receipt) (apply_review l r).
Definition reviewed1 : FindingLedger := (review_of allocated1 review1).1.
Definition remediated1 : FindingLedger := ok_value reviewed1 (remediate reviewed1 fix1).
Definition allocated2 : FindingLedger :=
  ok_value remediated1 (allocate_review remediated1 (rr_binding review2)).
Definition reviewed2 : FindingLedger := (review_of allocated2 review2).1.
Definition allocated3 : FindingLedger :=
  ok_value reviewed2 (allocate_review reviewed2 (rr_binding review3)).
Definition reviewed3 : FindingLedger := (review_of allocated3 review3).1.

Lemma review_of_eq l r :
  is_ok (apply_review l r) = true → apply_review l r = Ok ((review_of l r).1, (review_of l r).2).
Proof. intros H. rewrite (ok_value_eq (l, no_receipt) _ H) at 1. by rewrite <- surjective_pairing. Qed.

Lemma sample_run : rtc ledger_step ledger0 reviewed3.
Proof.
  apply (rtc_l _ _ allocated1).
  { apply (step_allocate _ (rr_binding review1)), ok_value_eq. by vm_compute. }
  apply (rtc_l _ _ reviewed1).
  { apply (step_review _ review1 _ (review_of allocated1 review1).2), review_of_eq. by vm_compute. }
  apply (rtc_l _ _ remediated1).
  { apply (step_remediate _ fix1), ok_value_eq. by vm_compute. }
  apply (rtc_l _ _ allocated2).
  { apply (step_allocate _ (rr_binding review2)), ok_value_eq. by vm_compute. }
  apply (rtc_l _ _ reviewed2).
  { apply (step_review _ review2 _ (review_of allocated2 review2).2), review_of_eq. by vm_compute. }
  apply (rtc_l _ _ allocated3).
  { apply (step_allocate _ (rr_binding review3)), ok_value_eq. by vm_compute. }
  apply (rtc_l _ _ reviewed3); [|done].
  apply (step_review _ review3 _ (review_of allocated3 review3).2), review_of_eq. by vm_compute.
Qed.

Lemma identity_domain_separated_witness :
  identity "a" ["b"] = identity "a" ["b"] ∧
  (("a" = "a" ∧ ["b"] = ["b"]) ∨
   ∃ x y : list ascii, x ≠ y ∧ sha256_hex x = sha256_hex y).
Proof.
  split; [reflexivity|].
  apply (identity_domain_separated "a" "a" ["b"] ["b"]); [repeat constructor; done..|reflexivity].
Defined.

Lemma ledger_append_only_witness : ledger_extends ledger0 reviewed3.
Proof. apply (ledger_append_only ledger0 reviewed3), sample_run. Defined.

(** The finding is closed in the final ledger, so its evidence is on record. *)
Lemma ledger_reachable_wf_witness :
  f_state <$> (fl_findings reviewed3 !! finding1) = Some Resolved ∧ ledger_wf reviewed3.
Proof. split; [by vm_compute|]. apply (ledger_reachable_wf "run" reviewed3), sample_run. Defined.

Lemma remediate_never_closes_witness :
  remediate reviewed1 fix1 = Ok remediated1 ∧
  dom (fl_findings remediated1) = dom (fl_findings reviewed1).
Proof.
  assert (H : remediate reviewed1 fix1 = Ok remediated1) by (apply ok_value_eq; by vm_compute).
  split; [exact H|]. exact (proj2 (remediate_never_closes reviewed1 fix1 remediated1 H)).
Defined.

Lemma apply_review_replay_witness :
  apply_review reviewed1 review1 = Ok (reviewed1, (review_of allocated1 review1).2).
Proof.
  apply (apply_review_replay allocated1 review1), review_of_eq. by vm_compute.
Defined.

Lemma accepted_review_closes_witness :
  ∃ f, fl_findings reviewed2 !! finding1 = Some f ∧ f_severity f = Blocking ∧
       unresolved (f_state f) = false.
Proof.
  destruct (fl_findings reviewed2 !! finding1) as [f|] eqn:E; [|by vm_compute in E].
  assert (Hs : f_severity <$> (fl_findings reviewed2 !! finding1) = Some Blocking) by (by vm_compute).
  rewrite E in Hs. injection Hs as Hs. exists f. split; [reflexivity|]. split; [exact Hs|].
  refine (accepted_review_closes allocated2 review2 reviewed2 (review_of allocated2 review2).2
    _ _ _ finding1 f E Hs).
  - apply review_of_eq. by vm_compute.
  - by vm_compute.
  - reflexivity.
Defined.

(** ** Publication of the fixed candidate *)

Definition oid : string := "0123456789012345678901234567890123456789".
Definition candidate_of (digest : string) : CandidateSnapshot :=
  {| cs_feature_run_id := "run"; cs_stage_execution_id := "exec"; cs_task_id := "task";
     cs_candidate_digest := digest; cs_checkpoint_digest := digest;
     cs_repositories := {["repo" := {| rs_base_commit := oid; rs_tree := oid;
       rs_content_manifest := art "m" |} ]};
     cs_package := art "p" |}.
Definition checks_of (digest : string) : ValidationReceipt :=
  {| vr_candidate := digest; vr_required_checks := {["tests"]};
     vr_passed_checks := {["tests" := art "log"]} |}.
Definition verdict_of (r : ReviewResult) : ReviewVerdict :=
  {| v_reviewer := rb_reviewer (rr_binding r); v_review_id := rb_review_id (rr_binding r);
     v_session_id := rb_session_id (rr_binding r); v_candidate := rb_candidate (rr_binding r);
     v_accepted := rr_accepted r; v_evidence := rr_evidence r |}.
Definition coverage : ReviewCoverage :=
  {| rv_baseline := cand1;
     rv_snapshots := {[cand1 := candidate_of cand1; cand2 := candidate_of cand2]};
     rv_full_reviews := [verdict_of review1; verdict_of review3];
     rv_transitions := [ {|
       ct_delta := {| dr_before := cand1; dr_after := cand2; dr_full_delta := art "delta";
         dr_changed_paths := {["a.rs"]}; dr_affected_phases := {["phase"]};
         dr_cross_repository_contract := false; dr_requirements_or_design := false;
         dr_security_or_public_api := false; dr_migration := false;
         dr_uncertain_impact := false; dr_outside_fix_scope := false |};
       ct_validation := checks_of cand2; ct_active_reviewer := Codex;
       ct_reviews := [verdict_of review2]; ct_closed_finding_ids := {[finding1]};
       ct_carried_reviewers := ∅ |} ] |}.

Lemma validate_publication_sound_witness :
  linked cand1 (rv_transitions coverage) cand2 ∧ covered coverage reviewed3 Claude cand2.
Proof.
  pose proof (validate_publication_sound coverage cand2 reviewed3 (checks_of cand2)
    ltac:(by vm_compute)) as (_ & H1 & _ & _ & H2 & _).
  split; [exact H1|apply H2].
Defined.

(** ** Turns, claims and acceptance *)

Definition turn (id : string) (round : option string) : TurnCharge :=
  {| tc_logical_turn_id := id; tc_stage_execution_id := "exec"; tc_budget_scope := "scope";
     tc_kind := match round with Some _ => TurnRemediation | None => Author end;
     tc_remediation_round_id := round |}.
Definition budget0 : BudgetLedger := BudgetLedger_new 2 100.
Definition budget1 : BudgetLedger := ok_value budget0 (charge budget0 (turn "t1" None) 10).
Definition budget2 : BudgetLedger := ok_value budget1 (charge budget1 (turn "t2" (Some "round")) 20).

Lemma budget_never_exceeded_witness :
  size (bl_charges budget2) = 2 ∧ (N.of_nat (size (bl_charges budget2)) <= 2)%N.
Proof.
  split; [by vm_compute|]. apply (budget_never_exceeded 2 100 budget2).
  apply (rtc_l _ _ budget1); [exists (turn "t1" None), 10%N; apply ok_value_eq; by vm_compute|].
  apply (rtc_l _ _ budget2); [|done].
  exists (turn "t2" (Some "round")), 20%N. apply ok_value_eq. by vm_compute.
Defined.

(** The budget is exhausted and the deadline past, and the first turn replays. *)
Lemma charge_idempotent_witness : charge budget2 (turn "t1" None) 999 = Ok budget2.
Proof.
  apply (charge_idempotent budget0 (turn "t1" None) 10 budget1 budget2 999 (turn "t1" None));
    [apply ok_value_eq; by vm_compute| |reflexivity|reflexivity].
  apply (rtc_l _ _ budget2); [|done].
  exists (turn "t2" (Some "round")), 20%N. apply ok_value_eq. by vm_compute.
Defined.

Definition design_stage : StageSelector := {| ss_kind := Design; ss_phase_id := None |}.
Definition inputs : gmap string ArtifactRef := {["requirements" := art "req"]}.
Definition claim0 : StageClaim :=
  {| sc_feature_run_id := "run"; sc_transition_id := "tr"; sc_predecessor_version := 3;
     sc_stage := design_stage; sc_inputs := inputs; sc_definition := art "def";
     sc_workspace_binding := art "ws"; sc_deadline_epoch_seconds := 90 |}.
Definition feature (state : FeatureState) (active : option StageClaimReceipt)
    (claims : gmap string StageClaimReceipt) : FeatureRun :=
  {| fr_schema_version := 1; fr_feature_run_id := "run";
     fr_issue := {| is_repository := "o/r"; is_number := 1; is_url := "u" |};
     fr_version := 3; fr_state := state; fr_transition_id := "tr";
     fr_allowed_stage := design_stage; fr_accepted_inputs := inputs;
     fr_active_claim := active; fr_claims := claims; fr_accepted_results := [];
     fr_budgets := budget0;
     fr_vm := {| vm_vm_id := "vm"; vm_runner_binding := art "runner"; vm_feature_run_id := "run";
                 vm_generation := 1; vm_acquired_epoch_seconds := 0;
                 vm_release_pending := false; vm_released := false |} |}.
Definition claim_id0 : string := ok_value "" (StageClaim_identity claim0).
Definition claim_digest0 : string := ok_value "" (fingerprint claim0).
Definition receipt0 : StageClaimReceipt :=
  {| cr_claim_id := claim_id0; cr_request_digest := claim_digest0; cr_stage_execution_id := "exec";
     cr_workflow_instance_id := "w"; cr_process_id := "p"; cr_feature_version := 4 |}.
Definition owned : FeatureRun := feature Active (Some receipt0) {[claim_id0 := receipt0]}.

Lemma claim_exclusive_witness :
  check_claim (feature ReadyForNextStage None ∅) claim0 5 = Ok (Admit claim_id0 claim_digest0) ∧
  check_claim owned claim0 1000 = Ok (Replay receipt0).
Proof.
  assert (H : check_claim (feature ReadyForNextStage None ∅) claim0 5
              = Ok (Admit claim_id0 claim_digest0)) by (by vm_compute).
  split; [exact H|].
  apply (claim_exclusive (feature ReadyForNextStage None ∅) claim0 5 claim_id0 claim_digest0
    owned receipt0 claim0 1000 H); by vm_compute.
Defined.

Definition result0 : StageResult :=
  {| sr_feature_run_id := "run"; sr_claim := receipt0; sr_stage := design_stage;
     sr_inputs := inputs; sr_outputs := {["design" := art "design"]};
     sr_candidate := candidate_of cand2; sr_validation := checks_of cand2;
     sr_review_ids := {["r2"; "r3"]}; sr_finding_ids := {[finding1]};
     sr_native_checkpoint := None;
     sr_publication_receipts := [ {| pr_intent_id := "pr"; pr_repository := "o/r";
       pr_candidate_digest := cand2; pr_task_id := "task"; pr_commit := oid;
       pr_parent_commit := oid; pr_remote_ref := "refs/heads/feature";
       pr_pull_request_number := 7; pr_pull_request_url := "https://host/pr/7";
       pr_target_branch := "develop"; pr_permalink := "https://host/" +:+ oid;
       pr_verification := art "v" |} ];
     sr_accepted := true |}.
Definition policy0 : StageAcceptancePolicy :=
  {| ap_required_reviewers := {[Codex; Claude]}; ap_required_checks := {["tests"]};
     ap_require_design_signoff := true; ap_required_publication_intents := {["pr"]} |}.
Definition signoff0 : DesignSignoff :=
  {| ds_feature_run_id := "run"; ds_design_digest := digest_of "design";
     ds_decision := Approved; ds_authority := art "human" |}.

Lemma validate_acceptance_sound_witness :
  stage_accepted result0 owned policy0 reviewed3 (Some signoff0).
Proof. apply (validate_acceptance_sound result0 owned policy0 reviewed3 (Some signoff0)). by vm_compute. Defined.

(** ** Non-progress *)

Definition still_open (id : string) : ReviewReceipt :=
  {| rc_request_digest := ""; rc_canonical_ids := ∅;
     rc_result := {| rr_binding := binding id Codex cand1; rr_accepted := false;
       rr_evidence := art "e"; rr_new_findings := [];
       rr_existing_findings := [ {| ef_existing_finding_id := "f"; ef_disposition := StillOpen;
         ef_evidence := art "e" |} ] |} |}.
Definition stuck_ledger : FindingLedger :=
  {| fl_feature_run_id := "run"; fl_findings := ∅; fl_allocated_reviews := ∅;
     fl_reviews := {["a" := still_open "a"; "b" := still_open "b"]};
     fl_remediations := ∅; fl_human_dispositions := ∅ |}.
Definition tracked : NonProgress :=
  (ok_value (NonProgress_default, false) (observe NonProgress_default "a" stuck_ledger 2)).1.

(** The second review that leaves the finding open reaches the threshold of two. *)
Lemma observe_reports_streaks_witness :
  ∃ np d, observe tracked "b" stuck_ledger 2 = Ok (np, d) ∧ d = true.
Proof.
  destruct (observe_reports_streaks tracked [rc_result (still_open "a")] "b" stuck_ledger 2
    (still_open "b")) as (np & d & H & Hd & _).
  - apply (observed_review NonProgress_default [] "a" stuck_ledger 2 (still_open "a") tracked false);
      [constructor|by vm_compute..].
  - by vm_compute.
  - by vm_compute.
  - by vm_compute.
  - exists np, d. split; [exact H|]. apply Hd. exists "f". by vm_compute.
Defined.

(** ** Comments and publication effects *)

Definition status_comment (version : N) : CommentIntent :=
  {| ci_feature_run_id := "run"; ci_purpose := Status; ci_version := version; ci_body := art "body" |}.

Lemma comments_monotone_witness :
  (ci_version (status_comment 1) <= ci_version (status_comment 4))%N.
Proof.
  apply (comments_monotone (status_comment 1) (status_comment 4)).
  apply (rtc_l _ _ (status_comment 4)); [by vm_compute|done].
Defined.

Definition plan0 : PublicationPlan :=
  {| pp_feature_id := "run"; pp_slot := "design-doc"; pp_revision := 1;
     pp_candidate_digest := cand2; pp_repository := "networknt/light-fabric";
     pp_destination := Document "feature/design" "docs/design.md" None; pp_content := art "doc" |}.
Definition publication_policy : PublicationPolicy :=
  {| po_repositories := {["networknt/light-fabric"]}; po_document_branches := {["feature/design"]};
     po_document_paths := {["docs/design.md"]}; po_allow_issues := false;
     po_allow_comments := false |}.

Lemma validated_plan_confined_witness :
  resolve_below [] (split "/" "docs/design.md") = Some ["docs"; "design.md"].
Proof.
  pose proof (validated_plan_confined plan0 publication_policy cand2 ltac:(by vm_compute))
    as (_ & _ & _ & _ & _ & _ & _ & _ & H).
  apply (H "docs/design.md"). right. left.
Defined.

Definition no_effect : PublicationEffect :=
  {| pe_id := ""; pe_request_digest := ""; pe_state := Prepared |}.
Definition effect0 : PublicationEffect := ok_value no_effect (prepare plan0 publication_policy cand2).
(** A second dispatch and a conflicting confirmation are refused. *)
Definition calls : list effect_op :=
  [OpUnknown; OpBegin; OpBegin; OpUnknown; OpConfirm "42" (art "proof"); OpBegin;
   OpConfirm "43" (art "proof")].

Lemma effect_dispatched_once_witness :
  (effect_run effect0 calls).2 = [OpBegin; OpUnknown; OpConfirm "42" (art "proof")] ∧
  pe_state (effect_run effect0 calls).1 = Confirmed "42" (art "proof").
Proof.
  split; [by vm_compute|].
  apply (effect_dispatched_once effect0 calls (effect_run effect0 calls).1 (effect_run effect0 calls).2).
  - by vm_compute.
  - apply surjective_pairing.
  - replace (effect_run effect0 calls).2 with [OpBegin; OpUnknown; OpConfirm "42" (art "proof")]
      by (by vm_compute).
    right. right. left.
Defined.

Lemma replay_is_same_request_witness :
  check_replay (effect_run effect0 calls).1 plan0 = Ok () ∧
  ((pp_feature_id plan0 = pp_feature_id plan0 ∧ pp_slot plan0 = pp_slot plan0 ∧
    pp_revision plan0 = pp_revision plan0 ∧ to_json plan0 = to_json plan0) ∨ sha256_collision).
Proof.
  assert (H : check_replay (effect_run effect0 calls).1 plan0 = Ok ()) by (by vm_compute).
  split; [exact H|].
  assert (Hb : wire_bounded plan0).
  { split; [repeat constructor; by vm_compute|]. intros j [= <-]. by vm_compute. }
  apply (replay_is_same_request plan0 publication_policy cand2 effect0 calls
    (effect_run effect0 calls).1 (effect_run effect0 calls).2 plan0).
  - apply ok_value_eq. by vm_compute.
  - apply surjective_pairing.
  - exact Hb.
  - exact Hb.
  - exact H.
Defined.
