(* ===== verification/GatewayCore.v ===== *)
(** * Gateway policy: shared pieces

    The rejection and principal types of [crates/light-security/src/lib.rs], the
    header interface of [crates/gateway-policy/src/lib.rs] and the configuration
    helpers of [crates/gateway-policy/src/config_util.rs].

    The [http], [serde_yaml] and [serde_json] crates are not part of the
    repository; what the code uses of them is the classes [HttpLib] and [YamlLib]
    and the type parameter of [AuthPrincipal]. *)

From S2P Require Import Prelude RustStr.
From Stdlib Require Import Ascii.

(** ** Rejections and principals *)

Record HandlerRejection := {
  hr_status : N;
  hr_code : string;
  hr_message : string;
  hr_headers : list (string * string);
}.

Definition HandlerRejection_new (status : N) (code message : string) : HandlerRejection :=
  {| hr_status := status; hr_code := code; hr_message := message; hr_headers := [] |}.
Definition with_header (r : HandlerRejection) (name value : string) : HandlerRejection :=
  {| hr_status := hr_status r; hr_code := hr_code r; hr_message := hr_message r;
     hr_headers := hr_headers r ++ [(name, value)] |}.
Definition unauthorized (message : string) : HandlerRejection :=
  with_header (HandlerRejection_new 401 "ERR10002" message) "www-authenticate" "Bearer".
Definition forbidden (message : string) : HandlerRejection :=
  HandlerRejection_new 403 "ERR10007" message.

Record AuthPrincipal (J : Type) := {
  au_client_id : option string;
  au_user_id : option string;
  au_issuer : option string;
  au_email : option string;
  au_host : option string;
  au_role : option string;
  au_claims : J;
}.
Arguments au_client_id {_} _.
Arguments au_user_id {_} _.
Arguments au_issuer {_} _.
Arguments au_host {_} _.
Arguments au_role {_} _.
Arguments au_claims {_} _.

(** ** Request headers

    The values a request carries under a name, in order, and the conversion of a
    header value to text. *)

Class HttpLib := {
  HeaderMap : Type;
  get_all : HeaderMap → string → list string;
  to_str : string → option string;
}.

Section http.
Context {http : HttpLib}.

(** [headers.get(name)] is the first value, [contains_key] that there is one. *)
Definition get (h : HeaderMap) (name : string) : option string := head (get_all h name).
Definition contains_key (h : HeaderMap) (name : string) : bool :=
  bool_decide (get_all h name ≠ []).

Definition request_header (h : HeaderMap) (name : string) : option string :=
  value ← get h name; to_str value.
End http.

(** ** Writing headers

    The adapter's [HeaderWriter]: an insertion may fail, and may have changed the
    headers when it does. *)

Class HeaderWriter (W E : Type) := {
  insert_header : string → string → W → W * result E unit;
  remove_header : string → W → W;
}.

(** A sequence of insertions that stops at the first failure. *)
Fixpoint insert_all {W E} `{!HeaderWriter W E} (entries : list (string * string)) (w : W) :
    W * result E unit :=
  match entries with
  | [] => (w, Ok ())
  | (name, value) :: rest =>
      match insert_header name value w with
      | (w', Ok _) => insert_all rest w'
      | (w', Err e) => (w', Err e)
      end
  end.

(** ** Longest prefix *)

(** [Iterator::max_by_key]: the last of the elements with the greatest key. *)
Definition max_step {A} (key : A → N) (best : option A) (x : A) : option A :=
  match best with
  | None => Some x
  | Some b => if (key b <=? key x)%N then Some x else Some b
  end.
Definition max_by_key {A} (key : A → N) (l : list A) : option A := foldl (max_step key) None l.

Definition best_prefix {T} (values : gmap string T) (path : string) : option (string * T) :=
  max_by_key (λ e, slen e.1) (filter (λ e, starts_with path e.1 = true) (bt_iter values)).

(** ** Lists and maps in configuration *)

Inductive yaml_shape (Y : Type) :=
| YNull
| YBool (b : bool)
| YNumber (as_u64 : option N) (text : string)
| YString (s : string)
| YSequence (l : list Y)
| YMapping (l : list (Y * Y))
| YTagged.
Arguments YNull {_}.
Arguments YBool {_} _.
Arguments YNumber {_} _ _.
Arguments YString {_} _.
Arguments YSequence {_} _.
Arguments YMapping {_} _.
Arguments YTagged {_}.

Class YamlLib := {
  yaml : Type;
  yaml_case : yaml → yaml_shape yaml;
  (** [serde_yaml::from_str] to a value, with the error's text *)
  yaml_from_str : string → result string yaml;
  (** [serde_yaml::from_str::<Vec<String>>] *)
  yaml_strings : string → option (list string);
  (** the [Debug] text of a value *)
  yaml_debug : yaml → string;
}.

Section config.
Context {Y : YamlLib}.

Definition parse_string_list (value : string) : list string :=
  let value := trim value in
  if is_empty value then []
  else if starts_with value "[" then default [] (yaml_strings value)
  else filter (λ item, is_empty item = false) (trim <$> split "," value).

Definition yaml_scalar_to_string (value : yaml) : result string string :=
  match yaml_case value with
  | YNull => Ok ""
  | YBool b => Ok (if b then "true" else "false")
  | YNumber _ text => Ok text
  | YString s => Ok s
  | _ => Err ("expected scalar map value, got " +:+ yaml_debug value)
  end.

(** [Value::as_str]. *)
Definition yaml_as_str (value : yaml) : option string :=
  match yaml_case value with YString s => Some s | _ => None end.

Definition parse_yaml_string_map (value : yaml) : result string (gmap string string) :=
  match yaml_case value with
  | YMapping mapping =>
      for_each (λ (values : gmap string string) '(key, v),
          key ← ok_or "map key must be a string" (yaml_as_str key);
          s ← yaml_scalar_to_string v;
          Ok (<[key := s]> values)) ∅ mapping
  | YNull => Ok ∅
  | _ => Err ("expected map value, got " +:+ yaml_debug value)
  end.

(** One entry of a key/value list; blank entries are skipped. *)
Definition parse_entry (values : gmap string string) (entry : string) :
    result string (gmap string string) :=
  let entry := trim entry in
  if is_empty entry then Ok values else
  '(key, value) ← ok_or ("invalid key/value entry `" +:+ entry +:+ "`")
                    (match split_once "=" entry with
                     | Some kv => Some kv
                     | None => split_once ":" entry
                     end);
  let key := trim key in
  if is_empty key then Err "map key must not be empty"
  else Ok (<[key := trim value]> values).

Definition parse_string_map (value : string) : result string (gmap string string) :=
  let value := trim value in
  if is_empty value then Ok ∅
  else if starts_with value "{" then
    y ← yaml_from_str value; parse_yaml_string_map y
  else for_each parse_entry ∅ (split_any [","; "&"]%char value).
End config.

(** ** Facts *)

Lemma foldl_max_step {A} (key : A → N) l b :
  ∃ x, foldl (max_step key) (Some b) l = Some x ∧ (x = b ∨ x ∈ l) ∧
       (key b <= key x)%N ∧ ∀ y, y ∈ l → (key y <= key x)%N.
Proof.
  revert b. induction l as [|a l IH]; cbn; intros b.
  { exists b. split_and!; [done|by left|lia|]. intros y Hy. by apply elem_of_nil in Hy. }
  destruct (key b <=? key a)%N eqn:E; bool_prop.
  - destruct (IH a) as (x & -> & H1 & H2 & H3). exists x. split_and!; [done|set_solver|lia|].
    intros y [->|Hy]%elem_of_cons; [lia|auto].
  - destruct (IH b) as (x & -> & H1 & H2 & H3). exists x. split_and!; [done|set_solver|lia|].
    intros y [->|Hy]%elem_of_cons; [lia|auto].
Qed.

Lemma max_by_key_None {A} (key : A → N) l : max_by_key key l = None ↔ l = [].
Proof.
  unfold max_by_key. destruct l as [|a l]; [done|]. cbn.
  destruct (foldl_max_step key l a) as (x & -> & _). done.
Qed.

Lemma max_by_key_Some {A} (key : A → N) l x :
  max_by_key key l = Some x → x ∈ l ∧ ∀ y, y ∈ l → (key y <= key x)%N.
Proof.
  unfold max_by_key. destruct l as [|a l]; [done|]. cbn.
  destruct (foldl_max_step key l a) as (z & -> & H1 & H2 & H3). intros [= ->]. split; [set_solver|].
  intros y [->|Hy]%elem_of_cons; auto.
Qed.

Lemma best_prefix_Some {T} (values : gmap string T) path p v :
  best_prefix values path = Some (p, v) →
  values !! p = Some v ∧ starts_with path p = true ∧
  ∀ q w, values !! q = Some w → starts_with path q = true → q ≠ p → (slen q < slen p)%N.
Proof.
  unfold best_prefix. intros [Hin Hmax]%max_by_key_Some.
  apply list_elem_of_filter in Hin as [Hp Hin%elem_of_bt_iter]. cbn in *.
  split_and!; [done..|]. intros q w Hq Hs Hne.
  assert (slen q <= slen p)%N as Hle.
  { apply (Hmax (q, w)), list_elem_of_filter. by rewrite elem_of_bt_iter. }
  apply N.le_neq. split; [done|]. intros Hl. apply Hne.
  apply (prefix_same_length q p path); [done|done|]. unfold slen in Hl. lia.
Qed.

Lemma best_prefix_None {T} (values : gmap string T) path :
  best_prefix values path = None ↔
  ∀ q w, values !! q = Some w → starts_with path q = false.
Proof.
  unfold best_prefix. rewrite max_by_key_None. split.
  - intros H q w Hq. apply not_true_is_false. intros Hs.
    assert ((q, w) ∈ filter (λ e : string * T, starts_with path e.1 = true) (bt_iter values)) as Hin.
    { apply list_elem_of_filter. by rewrite elem_of_bt_iter. }
    rewrite H in Hin. by apply elem_of_nil in Hin.
  - intros H. apply elem_of_nil_inv. intros [q w] [Hs Hin%elem_of_bt_iter]%list_elem_of_filter.
    cbn in Hs. by rewrite (H q w) in Hs.
Qed.
