(* ===== verification/IpAddr.v ===== *)
(** * IP addresses of the standard library

    [std::net::IpAddr]: textual form, parsing and the classification methods the
    gateway uses.  An IPv4 address is its four octets, an IPv6 address its eight
    16-bit segments. *)

From S2P Require Import Prelude RustStr.
From Stdlib Require Import Ascii.

Record Ipv4Addr := Ipv4 { o1 : N; o2 : N; o3 : N; o4 : N }.
#[global] Instance Ipv4Addr_eq_dec : EqDecision Ipv4Addr.
Proof. solve_decision. Defined.

Inductive IpAddr :=
| V4 (a : Ipv4Addr)
| V6 (segments : list N).
#[global] Instance IpAddr_eq_dec : EqDecision IpAddr.
Proof. solve_decision. Defined.

#[global] Instance Ipv4Addr_countable : Countable Ipv4Addr.
Proof.
  refine (inj_countable' (λ a, (o1 a, o2 a, o3 a, o4 a)) (λ '(a, b, c, d), Ipv4 a b c d) _).
  by intros [].
Defined.
#[global] Instance IpAddr_countable : Countable IpAddr.
Proof.
  refine (inj_countable' (λ a, match a with V4 v => inl v | V6 s => inr s end)
            (λ x, match x with inl v => V4 v | inr s => V6 s end) _).
  by intros [].
Defined.

Definition ipv4_wf (a : Ipv4Addr) : Prop :=
  (o1 a < 256 ∧ o2 a < 256 ∧ o3 a < 256 ∧ o4 a < 256)%N.
Definition ip_wf (a : IpAddr) : Prop :=
  match a with
  | V4 v => ipv4_wf v
  | V6 segments => length segments = 8 ∧ Forall (λ s, s < 65536)%N segments
  end.

(** ** Classification *)

Definition to_ipv4_mapped (segments : list N) : option Ipv4Addr :=
  match segments with
  | [0; 0; 0; 0; 0; 65535; ab; cd]%N =>
      Some (Ipv4 (ab / 256) (ab mod 256) (cd / 256) (cd mod 256))
  | _ => None
  end.

Definition is_unspecified (a : IpAddr) : bool :=
  match a with
  | V4 v => bool_decide (v = Ipv4 0 0 0 0)
  | V6 segments => forallb (N.eqb 0) segments
  end.

Definition is_multicast (a : IpAddr) : bool :=
  match a with
  | V4 v => in_range 224 239 (o1 v)
  | V6 segments => match segments with s :: _ => (N.land s 65280 =? 65280)%N | [] => false end
  end.

Definition is_loopback (a : IpAddr) : bool :=
  match a with
  | V4 v => (o1 v =? 127)%N
  | V6 segments => bool_decide (segments = [0; 0; 0; 0; 0; 0; 0; 1]%N)
  end.

Definition is_private (v : Ipv4Addr) : bool :=
  (o1 v =? 10)%N || (o1 v =? 172)%N && in_range 16 31 (o2 v)
  || (o1 v =? 192)%N && (o2 v =? 168)%N.
Definition is_link_local (v : Ipv4Addr) : bool := (o1 v =? 169)%N && (o2 v =? 254)%N.
Definition is_broadcast (v : Ipv4Addr) : bool := bool_decide (v = Ipv4 255 255 255 255).

(** The IPv6 ranges [fc00::/7] and [fe80::/10]. *)
Definition is_unique_local (segments : list N) : bool :=
  match segments with s :: _ => (N.land s 65024 =? 64512)%N | [] => false end.
Definition is_unicast_link_local (segments : list N) : bool :=
  match segments with s :: _ => (N.land s 65472 =? 65152)%N | [] => false end.

(** ** Printing *)

Definition hex_digit (n : N) : ascii :=
  ascii_of_N (if (n <? 10)%N then 48 + n else 87 + n).
(** [{:x}] of a 16-bit number: no leading zeros. *)
Definition hex16 (n : N) : string :=
  let d3 := (n / 4096)%N in let d2 := (n / 256 mod 16)%N in
  let d1 := (n / 16 mod 16)%N in let d0 := (n mod 16)%N in
  of_bytes (hex_digit <$>
    (if (0 <? d3)%N then [d3; d2; d1; d0]
     else if (0 <? d2)%N then [d2; d1; d0]
     else if (0 <? d1)%N then [d1; d0] else [d0])).

Definition show_ipv4 (a : Ipv4Addr) : string :=
  join "." [dec (o1 a); dec (o2 a); dec (o3 a); dec (o4 a)].

(** The first longest run of zero segments, as start and length. *)
Fixpoint zero_run (i : nat) (longest current : nat * nat) (segments : list N) : nat * nat :=
  match segments with
  | [] => longest
  | s :: rest =>
      if (s =? 0)%N then
        let current := match current with (st, O) => (i, 1) | (st, n) => (st, S n) end in
        zero_run (S i) (if (longest.2 <? current.2)%nat then current else longest) current rest
      else zero_run (S i) longest (0, 0) rest
  end.

Definition show_segments (segments : list N) : string := join ":" (hex16 <$> segments).

Definition show_ip (a : IpAddr) : string :=
  match a with
  | V4 v => show_ipv4 v
  | V6 segments =>
      match to_ipv4_mapped segments with
      | Some v => "::ffff:" +:+ show_ipv4 v
      | None =>
          let '(start, len) := zero_run 0 (0, 0) (0, 0) segments in
          if (1 <? len)%nat
          then show_segments (take start segments) +:+ "::"
               +:+ show_segments (drop (start + len) segments)
          else show_segments segments
      end
  end.

(** ** Parsing

    The recursive-descent parser of [core::net::parser] over the remaining
    bytes; a failed alternative leaves the input where it was. *)

(** The digits in front, most significant first, and the rest. *)
Fixpoint read_digits (radix : N) (l : list ascii) : list N * list ascii :=
  match l with
  | c :: l' =>
      match digit_value radix c with
      | Some d => let (ds, rest) := read_digits radix l' in (d :: ds, rest)
      | None => ([], l)
      end
  | [] => ([], [])
  end.

(** [read_number]: between one and [max_digits] digits, at most [max], and no
    leading zero unless allowed. *)
Definition read_number (radix max_digits max : N) (allow_zero_prefix : bool) (l : list ascii) :
    option (N * list ascii) :=
  let (ds, rest) := read_digits radix l in
  let n := foldl (λ acc d, acc * radix + d)%N 0%N ds in
  if (length ds =? 0)%nat || (max_digits <? N.of_nat (length ds))%N || (max <? n)%N
     || negb allow_zero_prefix && (1 <? length ds)%nat
        && match ds with 0%N :: _ => true | _ => false end
  then None else Some (n, rest).

Definition read_given_char (c : ascii) (l : list ascii) : option (list ascii) :=
  match l with a :: l' => if Ascii.eqb a c then Some l' else None | [] => None end.

(** [read_separator]: the separator is expected from the second item on. *)
Definition read_separator {A} (sep : ascii) (index : nat)
    (inner : list ascii → option (A * list ascii)) (l : list ascii) : option (A * list ascii) :=
  l ← (match index with O => Some l | S _ => read_given_char sep l end); inner l.

Definition read_octet : list ascii → option (N * list ascii) := read_number 10 3 255 false.
Definition read_ipv4_addr (l : list ascii) : option (Ipv4Addr * list ascii) :=
  '(a, l) ← read_separator "." 0 read_octet l;
  '(b, l) ← read_separator "." 1 read_octet l;
  '(c, l) ← read_separator "." 2 read_octet l;
  '(d, l) ← read_separator "." 3 read_octet l;
  Some (Ipv4 a b c d, l).

(** [read_groups]: up to [limit] groups from position [i]; a trailing embedded
    IPv4 address takes the place of two groups.  Returns the groups, whether the
    embedded form was read, and the rest. *)
Fixpoint read_groups (limit i : nat) (l : list ascii) : list N * bool * list ascii :=
  match limit with
  | O => ([], false, l)
  | S limit' =>
      match (if (1 <? limit)%nat then read_separator ":" i read_ipv4_addr l else None) with
      | Some (v, rest) => ([(o1 v * 256 + o2 v)%N; (o3 v * 256 + o4 v)%N], true, rest)
      | None =>
          match read_separator ":" i (read_number 16 4 65535 true) l with
          | Some (g, rest) =>
              let '(gs, v4, rest) := read_groups limit' (S i) rest in (g :: gs, v4, rest)
          | None => ([], false, l)
          end
      end
  end.

Definition read_ipv6_addr (l : list ascii) : option (list N * list ascii) :=
  let '(head, head_ipv4, rest) := read_groups 8 0 l in
  if (length head =? 8)%nat then Some (head, rest)
  else if head_ipv4 then None
  else
    rest ← read_given_char ":" rest;
    rest ← read_given_char ":" rest;
    let '(tail, _, rest) := read_groups (8 - (length head + 1)) 0 rest in
    Some (head ++ replicate (8 - length tail - length head) 0%N ++ tail, rest).

Definition parse_ip (s : string) : option IpAddr :=
  let l := bytes s in
  '(a, rest) ← (match read_ipv4_addr l with
                | Some (v, rest) => Some (V4 v, rest)
                | None => '(gs, rest) ← read_ipv6_addr l; Some (V6 gs, rest)
                end);
  match rest with [] => Some a | _ => None end.
