(* ===== verification/ProxyTrust.v ===== *)
(** * Trusted proxies

    Model of [crates/gateway-policy/src/rate_limit/source.rs]: which client
    address a request counts against.  The [ipnet] crate is the class
    [IpNetLib]. *)

From S2P Require Import Prelude RustStr GatewayCore IpAddr.
From Stdlib Require Import Ascii.

Class IpNetLib := {
  IpNet : Type;
  (** [str::parse::<IpNet>] *)
  net_parse : string → option IpNet;
  (** [IpNet::new] *)
  net_new : IpAddr → N → option IpNet;
  net_addr : IpNet → IpAddr;
  net_prefix_len : IpNet → N;
  net_contains : IpNet → IpAddr → bool;
}.

Section proxy.
Context {http : HttpLib} {nets : IpNetLib}.

Record TrustedProxyPolicy := { networks : list IpNet }.
Definition TrustedProxyPolicy_default : TrustedProxyPolicy := {| networks := [] |}.

(** A network of IPv4-mapped addresses is rewritten to the IPv4 network. *)
Definition trusted_network (value : string) : result string IpNet :=
  network ← ok_or "limit.yml: invalid trusted proxy CIDR" (net_parse value);
  network ← (match net_addr network with
             | V6 segments =>
                 if (96 <=? net_prefix_len network)%N then
                   match to_ipv4_mapped segments with
                   | Some address =>
                       ok_or "limit.yml: invalid trusted proxy CIDR"
                         (net_new (V4 address) (net_prefix_len network - 96))
                   | None => Ok network
                   end
                 else Ok network
             | V4 _ => Ok network
             end);
  if (net_prefix_len network =? 0)%N
  then Err "limit.yml: unrestricted proxy trust is forbidden" else Ok network.

Definition TrustedProxyPolicy_new (cidrs : list string) : result string TrustedProxyPolicy :=
  if (64 <? length cidrs)%nat then Err "limit.yml: too many trusted proxy CIDRs" else
  networks ← for_each (λ acc value, n ← trusted_network value; Ok (acc ++ [n])) [] cidrs;
  Ok {| networks := networks |}.

Definition policy_is_empty (p : TrustedProxyPolicy) : bool :=
  match networks p with [] => true | _ => false end.

Definition trusts (p : TrustedProxyPolicy) (address : IpAddr) : bool :=
  existsb (λ n, net_contains n address) (networks p).

Definition canonical (address : IpAddr) : IpAddr :=
  match address with
  | V6 segments => match to_ipv4_mapped segments with Some v => V4 v | None => address end
  | V4 _ => address
  end.

Definition parse (value : string) : result string IpAddr :=
  address ← ok_or "trusted proxy client address is invalid" (parse_ip (trim value));
  let address := canonical address in
  if is_unspecified address || is_multicast address
  then Err "trusted proxy client address is invalid" else Ok address.

(** The outcome of walking the hops: an early [return], or the loop's state. *)
Inductive walk :=
| Return (r : result string IpAddr)
| Walking (current : IpAddr) (hops : N).

(** The inner loop over the hops of one header value, right to left. *)
Fixpoint walk_hops (p : TrustedProxyPolicy) (current : IpAddr) (hops : N) (values : list string) :
    walk :=
  match values with
  | [] => Walking current hops
  | hop :: rest =>
      if negb (trusts p current) then Return (Ok current)
      else
        let hops := (hops + 1)%N in
        if (64 <? hops)%N then Return (Err "trusted proxy chain has too many hops") else
        match parse hop with
        | Err e => Return (Err e)
        | Ok current =>
            if negb (trusts p current) then Return (Ok current)
            else walk_hops p current hops rest
        end
  end.

(** The outer loop over the header values, last one first. *)
Fixpoint walk_values (p : TrustedProxyPolicy) (current : IpAddr) (hops bytes_ : N)
    (values : list string) : walk :=
  match values with
  | [] => Walking current hops
  | value :: rest =>
      let bytes_ := sat_add u64_max bytes_ (slen value) in
      if (8192 <? bytes_)%N then Return (Err "trusted proxy chain is too large") else
      match to_str value with
      | None => Return (Err "trusted proxy chain is invalid")
      | Some text =>
          match walk_hops p current hops (rev (split "," text)) with
          | Return r => Return r
          | Walking current hops => walk_values p current hops bytes_ rest
          end
      end
  end.

Definition resolve (p : TrustedProxyPolicy) (headers : HeaderMap) (peer : option IpAddr)
    (akamai : bool) : result string IpAddr :=
  if akamai && policy_is_empty p then Err "Akamai rate limiting requires trustedProxyCidrs" else
  peer ← ok_or "client source address is unavailable" peer;
  let peer := canonical peer in
  if negb (trusts p peer) then
    if akamai then Err "Akamai client address requires a trusted proxy peer" else Ok peer
  else if akamai then
    match get_all headers "true-client-ip" with
    | [] => Err "trusted proxy client address is missing"
    | [value] =>
        text ← ok_or "trusted proxy client address is invalid" (to_str value);
        parse text
    | _ => Err "trusted proxy client address is ambiguous"
    end
  else
    match walk_values p peer 0 0 (rev (get_all headers "x-forwarded-for")) with
    | Return r => r
    | Walking current hops =>
        if (hops =? 0)%N || trusts p current
        then Err "trusted proxy chain has no client address" else Ok current
    end.

(** ** Reference: the first untrusted hop from the right *)

(** All hops the proxies reported, nearest first. *)
Definition reported (values : list string) : list string :=
  concat ((λ v, rev (split "," v)) <$> rev values).

Fixpoint first_untrusted (p : TrustedProxyPolicy) (budget : nat) (hops : list string) :
    result string IpAddr :=
  match hops, budget with
  | [], _ => Err "trusted proxy chain has no client address"
  | _ :: _, O => Err "trusted proxy chain has too many hops"
  | hop :: rest, S budget' =>
      a ← parse hop; if trusts p a then first_untrusted p budget' rest else Ok a
  end.

Fixpoint total_len (values : list string) : N :=
  match values with [] => 0 | v :: rest => slen v + total_len rest end.

Lemma total_len_app l k : total_len (l ++ k) = (total_len l + total_len k)%N.
Proof. induction l as [|v l IH]; cbn; [done|]. rewrite IH. lia. Qed.

Lemma total_len_rev l : total_len (rev l) = total_len l.
Proof. induction l as [|v l IH]; cbn; [done|]. rewrite total_len_app, IH. cbn. lia. Qed.

Lemma walk_hops_spec p current hops values rest :
  trusts p current = true → (hops <= 64)%N →
  match walk_hops p current hops values with
  | Return r => first_untrusted p (64 - N.to_nat hops) (values ++ rest) = r
  | Walking current' hops' =>
      trusts p current' = true ∧ (hops' <= 64)%N ∧ hops' = (hops + N.of_nat (length values))%N ∧
      first_untrusted p (64 - N.to_nat hops) (values ++ rest)
      = first_untrusted p (64 - N.to_nat hops') rest
  end.
Proof.
  revert current hops. induction values as [|v values IH]; intros current hops Ht Hh; cbn.
  { split_and!; [done..|lia|done]. }
  rewrite Ht. cbn. destruct (64 <? hops + 1)%N eqn:E; bool_prop.
  { by replace (64 - N.to_nat hops) with 0 by lia. }
  replace (64 - N.to_nat hops) with (S (64 - N.to_nat (hops + 1))) by lia. cbn.
  destruct (parse v) as [a|e]; cbn; [|done].
  destruct (trusts p a) eqn:Ha; cbn; [|done].
  specialize (IH a (hops + 1)%N Ha ltac:(lia)). case_match; [done|].
  destruct IH as (H1 & H2 & H3 & H4). split_and!; [done..|lia|done].
Qed.

Lemma walk_values_spec p current hops bytes_ values :
  trusts p current = true → (hops <= 64)%N →
  (bytes_ + total_len values <= 8192)%N →
  Forall (λ v, to_str v = Some v) values →
  match walk_values p current hops bytes_ values with
  | Return r => r
  | Walking current' hops' =>
      if (hops' =? 0)%N || trusts p current'
      then Err "trusted proxy chain has no client address" else Ok current'
  end = first_untrusted p (64 - N.to_nat hops)
          (concat ((λ v, rev (split "," v)) <$> values)).
Proof.
  revert current hops bytes_. induction values as [|v values IH];
    intros current hops bytes_ Ht Hh Hb Hall.
  { cbn. rewrite Ht, orb_true_r. by destruct (64 - N.to_nat hops). }
  apply Forall_cons in Hall as [Hv Hall]. cbn in Hb |- *.
  assert (sat_add u64_max bytes_ (slen v) = bytes_ + slen v)%N as ->
    by (unfold sat_add, u64_max; lia).
  destruct (8192 <? bytes_ + slen v)%N eqn:E; bool_prop; [lia|]. rewrite Hv.
  pose proof (walk_hops_spec p current hops (rev (split "," v))
    (concat ((λ v, rev (split "," v)) <$> values)) Ht Hh) as Hw.
  destruct (walk_hops p current hops (rev (split "," v))) as [r|c' h'].
  - by rewrite Hw.
  - destruct Hw as (H1 & H2 & _ & ->). apply IH; [done..|lia|done].
Qed.

(** Within the size limits (8192 bytes of text header values), the client of a
    request from a trusted peer is exactly the first hop, counting from the peer,
    that is not a trusted proxy; the request is refused if a hop before it is
    malformed, if more than 64 hops are trusted, or if there is no such hop.  The
    client of a request from an untrusted peer is the peer, whatever the headers
    say. *)
Theorem resolve_first_untrusted p headers peer :
  let values := get_all headers "x-forwarded-for" in
  (total_len values <= 8192)%N → Forall (λ v, to_str v = Some v) values →
  resolve p headers (Some peer) false =
    if trusts p (canonical peer) then first_untrusted p 64 (reported values)
    else Ok (canonical peer).
Proof.
  intros values Hlen Hall. unfold resolve. cbn.
  destruct (trusts p (canonical peer)) eqn:Ht; cbn; [|done].
  apply (walk_values_spec p (canonical peer) 0 0 (rev values)); [done|lia| |by apply Forall_rev].
  rewrite total_len_rev. lia.
Qed.

(** A hop list whose first untrusted hop is [a]. *)
Definition client_hop (p : TrustedProxyPolicy) (a : IpAddr) (hops : list string) : Prop :=
  ∃ nearer hop farther, hops = nearer ++ hop :: farther ∧
    Forall (λ h, ∃ b, parse h = Ok b ∧ trusts p b = true) nearer ∧
    parse hop = Ok a ∧ trusts p a = false.

Lemma walk_hops_sound p current hops values :
  trusts p current = true →
  match walk_hops p current hops values with
  | Return (Ok a) => client_hop p a values
  | Return (Err _) => True
  | Walking current' _ =>
      trusts p current' = true ∧ Forall (λ h, ∃ b, parse h = Ok b ∧ trusts p b = true) values
  end.
Proof.
  revert current hops. induction values as [|v values IH]; intros current hops Ht; cbn; [done|].
  rewrite Ht. cbn. destruct (64 <? hops + 1)%N; [done|]. destruct (parse v) as [a|e] eqn:Hv; [|done].
  destruct (trusts p a) eqn:Ha; cbn.
  - specialize (IH a (hops + 1)%N Ha). destruct (walk_hops _ _ _ _) as [[b|]|]; [|done|].
    + destruct IH as (n & h & f & -> & Hn & H). exists (v :: n), h, f. split; [done|]. split; [|done].
      constructor; [by exists a|done].
    + destruct IH as [H1 H2]. split; [done|]. constructor; [by exists a|done].
  - exists [], v, values. split_and!; [done|constructor|done|done].
Qed.

Lemma walk_values_sound p current hops bytes_ values :
  trusts p current = true →
  match walk_values p current hops bytes_ values with
  | Return (Ok a) =>
      client_hop p a (concat ((λ v, rev (split "," v)) <$> omap to_str values))
  | Return (Err _) => True
  | Walking current' _ => trusts p current' = true
  end.
Proof.
  revert current hops bytes_. induction values as [|v values IH]; intros current hops bytes_ Ht; [done|].
  cbn. destruct (8192 <? _)%N; [done|]. destruct (to_str v) as [text|]; [|done]. cbn.
  pose proof (walk_hops_sound p current hops (rev (split "," text)) Ht) as Hw.
  destruct (walk_hops _ _ _ _) as [[a|]|c' h'].
  - destruct Hw as (n & h & f & -> & H). eexists n, h, _. split; [|exact H].
    rewrite <- app_assoc. reflexivity.
  - done.
  - destruct Hw as [Hc Hall]. specialize (IH c' h' (sat_add u64_max bytes_ (slen v)) Hc).
    destruct (walk_values _ _ _ _ _) as [[a|]|]; [|done|done].
    destruct IH as (n & h & f & -> & Hn & H). eexists (_ ++ n), h, f.
    split; [by rewrite <- app_assoc|]. split; [|exact H]. by apply Forall_app.
Qed.

(** C29 No header can make the gateway count a request against a client the
    trusted proxies did not report.  Whatever headers a request carries, a
    resolved address is the peer itself when the peer is no trusted proxy, and
    otherwise an untrusted hop such that every hop between it and the peer is a
    trusted proxy; in Akamai mode the peer is trusted and the address is that of
    its single True-Client-IP value. *)
Theorem resolve_not_spoofable p headers peer akamai a :
  resolve p headers (Some peer) akamai = Ok a →
  (akamai = false ∧ trusts p (canonical peer) = false ∧ a = canonical peer) ∨
  (akamai = false ∧ trusts p (canonical peer) = true ∧
     client_hop p a (concat ((λ v, rev (split "," v)) <$>
       omap to_str (rev (get_all headers "x-forwarded-for"))))) ∨
  (akamai = true ∧ trusts p (canonical peer) = true ∧
     ∃ value text, get_all headers "true-client-ip" = [value] ∧ to_str value = Some text ∧
       parse text = Ok a).
Proof.
  unfold resolve. intros H. destruct (akamai && policy_is_empty p) eqn:Ha; [done|].
  cbn in H. destruct (trusts p (canonical peer)) eqn:Ht; cbn in H.
  - right. destruct akamai.
    + right. destruct (get_all headers "true-client-ip") as [|v [|??]] eqn:E; [done| |done].
      inv_ok. split_and!; [done..|]. eauto.
    + left. split_and!; [done..|].
      pose proof (walk_values_sound p (canonical peer) 0 0
        (rev (get_all headers "x-forwarded-for")) Ht) as Hw.
      destruct (walk_values _ _ _ _ _) as [[b|]|]; simplify_eq; [done|].
      rewrite Hw, orb_true_r in H. done.
  - left. destruct akamai; [done|]. by simplify_eq.
Qed.

(** A configured policy trusts at most 64 networks, none of them all of an
    address family. *)
Theorem trusted_networks_bounded cidrs p :
  TrustedProxyPolicy_new cidrs = Ok p →
  length (networks p) ≤ 64 ∧ length (networks p) = length cidrs ∧
  Forall (λ n, net_prefix_len n ≠ 0%N) (networks p).
Proof.
  unfold TrustedProxyPolicy_new. case_match eqn:E; [done|]. apply Nat.ltb_ge in E.
  intros H. apply bind_Ok in H as (ns & H & [= <-]). cbn.
  enough (∀ acc, Forall (λ n, net_prefix_len n ≠ 0%N) acc →
    for_each (λ acc value, n ← trusted_network value; Ok (acc ++ [n])) acc cidrs = Ok ns →
    length ns = length acc + length cidrs ∧ Forall (λ n, net_prefix_len n ≠ 0%N) ns) as Hgen.
  { destruct (Hgen [] ltac:(constructor) H) as [Hl Hf]. cbn in Hl. split_and!; [lia|done|done]. }
  clear. induction cidrs as [|c cidrs IH]; intros acc Hacc H; cbn in H; inv_ok.
  { subst. split; [cbn; lia|done]. }
  subst. match goal with H : for_each _ _ _ = _ |- _ => apply IH in H as [Hl Hf] end.
  - rewrite length_app in Hl. cbn in *. split; [lia|done].
  - apply Forall_app. split; [done|]. constructor; [|done].
    match goal with H : trusted_network _ = _ |- _ => unfold trusted_network in H end.
    inv_ok. case_match eqn:Ez; [done|]. inv_ok. subst. by bool_prop.
Qed.
End proxy.
