(* ===== verification/RateLimit.v ===== *)
(** * Rate limiting

    Model of [crates/gateway-policy/src/rate_limit.rs]: quota parsing, the
    selection of a bucket key and its quotas, the sliding-window counters and the
    two entry points.  The clock ([now_epoch_seconds]) is an argument; the mutex
    makes each check one step on the map of buckets. *)

From S2P Require Import Prelude RustStr GatewayCore IpAddr ProxyTrust.
From Stdlib Require Import Ascii.

(** ** Configuration *)

Inductive LimitKey := Server | Address | Client | User | Akamai | HeaderClientId.

Record LimitQuota := { lq_limit : N; lq_window_seconds : N }.
#[global] Instance LimitQuota_eq_dec : EqDecision LimitQuota.
Proof. solve_decision. Defined.

Record LimitConfig := {
  lc_enabled : bool;
  lc_concurrent_request : N;
  lc_queue_size : N;
  lc_error_code : N;
  lc_rate_limit : list LimitQuota;
  lc_headers_always_set : bool;
  lc_key : LimitKey;
  lc_trusted_proxy_cidrs : list string;
  lc_server : gmap string (list LimitQuota);
  lc_address : gmap string (list LimitQuota);
  lc_client : gmap string (list LimitQuota);
  lc_user : gmap string (list LimitQuota);
}.

Definition default_error_code : N := 429.

Definition LimitConfig_default : LimitConfig :=
  {| lc_enabled := false; lc_concurrent_request := 0; lc_queue_size := 0;
     lc_error_code := default_error_code; lc_rate_limit := []; lc_headers_always_set := false;
     lc_key := Server; lc_trusted_proxy_cidrs := []; lc_server := ∅; lc_address := ∅;
     lc_client := ∅; lc_user := ∅ |}.

(** [queueSize]: the legacy value -1 means none. *)
Definition legacy_queue_size (value : Z) : result string N :=
  if (value =? -1)%Z then Ok 0%N
  else if (0 <=? value)%Z then Ok (Z.to_N value)
  else Err ("limit queueSize must be -1 or nonnegative, got " +:+ pretty value).

(** ** Quotas as text *)

Definition window_seconds_for_unit (unit : string) : result string N :=
  let u := to_ascii_lowercase unit in
  if bool_decide (u ∈ ["s"; "sec"; "second"; "seconds"]) then Ok 1%N
  else if bool_decide (u ∈ ["m"; "min"; "minute"; "minutes"]) then Ok 60%N
  else if bool_decide (u ∈ ["h"; "hour"; "hours"]) then Ok (60 * 60)%N
  else if bool_decide (u ∈ ["d"; "day"; "days"]) then Ok (60 * 60 * 24)%N
  else Err ("unsupported limit quota unit `" +:+ unit +:+ "`").

Definition parse_quota (value : string) : result string LimitQuota :=
  let value := trim value in
  let '(limit, unit) := default (value, "s") (split_once "/" value) in
  limit ← ok_or ("invalid limit quota `" +:+ value +:+ "`") (parse_uint u64_max (trim limit));
  window ← window_seconds_for_unit (trim unit);
  Ok {| lq_limit := limit; lq_window_seconds := window |}.

(** [iter.map(f).collect::<Result<Vec<_>, _>>()]. *)
Definition collect {E A B} (f : A → result E B) (l : list A) : result E (list B) :=
  for_each (λ acc x, y ← f x; Ok (acc ++ [y])) [] l.

(** What the code uses of [serde_yaml] to read quotas from values. *)
Class QuotaYaml `{Y : YamlLib} := {
  quotas_from_str : string → result string (list LimitQuota);
  quota_from_value : yaml → result string LimitQuota;
}.

Section parsing.
Context `{QY : QuotaYaml}.

Definition parse_quota_list (value : string) : result string (list LimitQuota) :=
  let value := trim value in
  if is_empty value then Ok []
  else if starts_with value "[" then quotas_from_str value
  else collect parse_quota
         (filter (λ item, is_empty item = false) (trim <$> split_any [","; " "]%char value)).

Definition parse_quota_value (value : yaml) : result string (list LimitQuota) :=
  match yaml_case value with
  | YNull => Ok []
  | YString s => parse_quota_list s
  | YNumber as_u64 _ =>
      limit ← ok_or "limit quota number must be unsigned" as_u64;
      Ok [ {| lq_limit := limit; lq_window_seconds := 1 |} ]
  | YSequence values =>
      collect (λ v, match yaml_case v with
                    | YString s => parse_quota s
                    | _ => quota_from_value v
                    end) values
  | _ => quota ← quota_from_value value; Ok [quota]
  end.

Definition parse_quota_map_value (value : yaml) : result string (gmap string (list LimitQuota)) :=
  match yaml_case value with
  | YMapping map =>
      for_each (λ (values : gmap string (list LimitQuota)) '(key, v),
          key ← ok_or "limit map key must be a string" (yaml_as_str key);
          quotas ← parse_quota_value v;
          Ok (<[key := quotas]> values)) ∅ map
  | YNull => Ok ∅
  | _ => Err ("expected limit quota map, got " +:+ yaml_debug value)
  end.
End parsing.

(** ** Buckets *)

Record Bucket := { bk_entries : list N; bk_expires_at : N }.
Definition Bucket_default : Bucket := {| bk_entries := []; bk_expires_at := 0 |}.
Abbreviation Buckets := (gmap string Bucket).

Definition MAX_RATE_LIMIT_BUCKETS : N := 4096.
Definition MAX_RATE_LIMIT_KEY_BYTES : N := 4096.

(** [!state.contains_key(&key) && state.len() >= MAX_RATE_LIMIT_BUCKETS]. *)
Definition no_room (state : Buckets) (key : string) : bool :=
  bool_decide (state !! key = None) && (MAX_RATE_LIMIT_BUCKETS <=? N.of_nat (size state))%N.

(** The bucket of [key], created if absent, with its expiry extended; [None] when
    the key is too long or, expired buckets dropped, there is no room. *)
Definition bucket_entries (state : Buckets) (key : string) (now window : N) :
    Buckets * option (list N) :=
  if (MAX_RATE_LIMIT_KEY_BYTES <? slen key)%N then (state, None) else
  let state := if no_room state key
               then filter (λ kb, (now < bk_expires_at kb.2)%N) state else state in
  if no_room state key then (state, None) else
  let bucket := default Bucket_default (state !! key) in
  let bucket := {| bk_entries := bk_entries bucket;
                   bk_expires_at := N.max (bk_expires_at bucket)
                                      (sat_add u64_max now (N.max window 1)) |} in
  (<[key := bucket]> state, Some (bk_entries bucket)).

(** Write through the [&mut VecDeque] that [bucket_entries] returned. *)
Definition put_entries (state : Buckets) (key : string) (entries : list N) : Buckets :=
  match state !! key with
  | Some b => <[key := {| bk_entries := entries; bk_expires_at := bk_expires_at b |}]> state
  | None => state
  end.

(** [quotas.iter().map(|quota| quota.window_seconds).max().unwrap_or(1)]. *)
Definition max_window (quotas : list LimitQuota) : N :=
  match quotas with
  | [] => 1
  | q :: rest => foldl (λ m q, N.max m (lq_window_seconds q)) (lq_window_seconds q) rest
  end.

(** The entries younger than a window. *)
Definition within (now window timestamp : N) : bool := (now - timestamp <? window)%N.
Definition count_within (now window : N) (entries : list N) : N :=
  N.of_nat (length (filter (λ t, within now window t = true) entries)).

Fixpoint prune (now window : N) (entries : list N) : list N :=
  match entries with
  | t :: rest => if within now window t then entries else prune now window rest
  | [] => []
  end.

Definition first_exceeded (now : N) (entries : list N) (quotas : list LimitQuota) :
    option (LimitQuota * N) :=
  match filter (λ q, (lq_limit q <= count_within now (lq_window_seconds q) entries)%N) quotas with
  | q :: _ => Some (q, count_within now (lq_window_seconds q) entries)
  | [] => None
  end.

Definition evaluate_counter (entries : list N) (quotas : list LimitQuota) (now : N)
    (allow_initial_empty : bool) : list N * option (LimitQuota * N) :=
  let initially_empty := bool_decide (entries = []) in
  let entries := prune now (max_window quotas) entries in
  match (if allow_initial_empty && initially_empty then None
         else first_exceeded now entries quotas) with
  | Some r => (entries, Some r)
  | None => (entries ++ [now], None)
  end.

(** ** Response headers *)

Record RateLimitHeaders := {
  rh_limit : N;
  rh_remaining : N;
  rh_reset : N;
  rh_retry_after : option N;
}.

Definition headers_for_quota (quota : LimitQuota) (count : N) (entries : list N) (now : N)
    (rejected : bool) : RateLimitHeaders :=
  let oldest := default now
    (head (filter (λ t, within now (lq_window_seconds quota) t = true) entries)) in
  let reset := N.max (lq_window_seconds quota - (now - oldest)) 1 in
  let used := if rejected then count else N.min count (lq_limit quota) in
  {| rh_limit := lq_limit quota; rh_remaining := lq_limit quota - used; rh_reset := reset;
     rh_retry_after := if rejected then Some reset else None |}.

Definition apply_rate_limit_headers {W E} `{!HeaderWriter W E} (headers : RateLimitHeaders)
    (w : W) : W * result E unit :=
  insert_all ([("X-RateLimit-Limit", dec (rh_limit headers));
               ("X-RateLimit-Remaining", dec (rh_remaining headers));
               ("X-RateLimit-Reset", dec (rh_reset headers))] ++
              match rh_retry_after headers with
              | Some r => [("Retry-After", dec r)] | None => [] end) w.

(** ** Keys and quotas of a request *)

Definition non_empty (values : list LimitQuota) : option (list LimitQuota) :=
  match values with [] => None | _ => Some values end.

Definition best_path_quotas (map : gmap string (list LimitQuota)) (request_path : string) :
    option (list LimitQuota) :=
  snd <$> max_by_key (λ e, slen e.1)
    (filter (λ e, starts_with request_path e.1 = true ∧ e.2 ≠ []) (bt_iter map)).

Definition direct_quotas (map : gmap string (list LimitQuota)) (direct_key request_path : string) :
    option (list LimitQuota) :=
  quotas ← (match map !! (direct_key +:+ "#" +:+ request_path) with
            | Some q => Some q
            | None => map !! direct_key
            end);
  non_empty quotas.

Definition or_else {A} (a b : option A) : option A := match a with Some x => Some x | None => b end.

Section checks.
Context {http : HttpLib} {nets : IpNetLib} {J : Type}.

Definition source_trust (c : LimitConfig) : result string TrustedProxyPolicy :=
  trust ← TrustedProxyPolicy_new (lc_trusted_proxy_cidrs c);
  if lc_enabled c && match lc_key c with Akamai => true | _ => false end && policy_is_empty trust
  then Err "limit.yml: Akamai requires trustedProxyCidrs" else Ok trust.

(** The configuration and its proxy trust; the buckets are passed separately. *)
Record RateLimitRuntime := {
  rt_config : LimitConfig;
  rt_source_trust : result string TrustedProxyPolicy;
}.
Definition RateLimitRuntime_new (config : LimitConfig) : RateLimitRuntime * Buckets :=
  ({| rt_config := config; rt_source_trust := source_trust config |}, ∅).

Definition keyed (prefix id : string) (quotas : option (list LimitQuota)) :
    option (string * list LimitQuota) :=
  q ← quotas; Some (prefix +:+ id, q).

Definition rate_limit_key_and_quotas_with_trust (headers : HeaderMap) (config : LimitConfig)
    (principal : option (AuthPrincipal J)) (request_path : string)
    (peer_address : option IpAddr) (trust : TrustedProxyPolicy) :
    result HandlerRejection (option (string * list LimitQuota)) :=
  let fallback := non_empty (lc_rate_limit config) in
  match lc_key config with
  | Server => Ok (keyed "server" "" (or_else (best_path_quotas (lc_server config) request_path) fallback))
  | Address =>
      address ← map_err (HandlerRejection_new 400 "ERR10002") (resolve trust headers peer_address false);
      let address := show_ip address in
      Ok (keyed "address:" address
            (or_else (direct_quotas (lc_address config) address request_path) fallback))
  | Client =>
      client_id ← ok_or (unauthorized "client id is required for client rate limiting")
                    (principal ≫= au_client_id);
      Ok (keyed "client:" client_id
            (or_else (direct_quotas (lc_client config) client_id request_path) fallback))
  | User =>
      user_id ← ok_or (unauthorized "user id is required for user rate limiting")
                  (principal ≫= au_user_id);
      Ok (keyed "user:" user_id
            (or_else (direct_quotas (lc_user config) user_id request_path) fallback))
  | Akamai =>
      address ← map_err (HandlerRejection_new 400 "ERR10002") (resolve trust headers peer_address true);
      let address := show_ip address in
      Ok (keyed "akamai:" address
            (or_else (direct_quotas (lc_address config) address request_path) fallback))
  | HeaderClientId =>
      principal ← ok_or (unauthorized
          "verified authentication is required for header client rate limiting") principal;
      client_id ← ok_or (unauthorized "verified client id is required for client rate limiting")
                    (au_client_id principal);
      Ok (keyed "client:" client_id
            (or_else (direct_quotas (lc_client config) client_id request_path) fallback))
  end.

(** ** The check *)

Inductive decision :=
| Exhausted
| Exceeded (quota : LimitQuota) (count : N) (entries : list N)
| Granted (entries : list N).

(** The critical section of a check: find the bucket, evaluate, record. *)
Definition check_bucket (state : Buckets) (key : string) (quotas : list LimitQuota) (now : N)
    (allow_initial_empty : bool) : Buckets * decision :=
  match bucket_entries state key now (max_window quotas) with
  | (state, None) => (state, Exhausted)
  | (state, Some entries) =>
      match evaluate_counter entries quotas now allow_initial_empty with
      | (entries, Some (quota, count)) => (put_entries state key entries, Exceeded quota count entries)
      | (entries, None) => (put_entries state key entries, Granted entries)
      end
  end.

Definition exceeded_rejection (config : LimitConfig) (headers : RateLimitHeaders) : HandlerRejection :=
  with_header (with_header (with_header (with_header
    (HandlerRejection_new (lc_error_code config) "ERR10077" "rate limit exceeded")
    "X-RateLimit-Limit" (dec (rh_limit headers)))
    "X-RateLimit-Remaining" (dec (rh_remaining headers)))
    "X-RateLimit-Reset" (dec (rh_reset headers)))
    "Retry-After" (dec (default (rh_reset headers) (rh_retry_after headers))).

Definition check_rate_limit_with_source_ip (state : Buckets) (headers : HeaderMap)
    (runtime : RateLimitRuntime) (principal : option (AuthPrincipal J)) (request_path : string)
    (peer_address : option IpAddr) (now : N) :
    Buckets * result HandlerRejection (option RateLimitHeaders) :=
  let config := rt_config runtime in
  if negb (lc_enabled config) then (state, Ok None) else
  match (trust ← map_err (HandlerRejection_new 500 "ERR10002") (rt_source_trust runtime);
         rate_limit_key_and_quotas_with_trust headers config principal request_path
           peer_address trust) with
  | Err e => (state, Err e)
  | Ok None => (state, Ok None)
  | Ok (Some (_, [])) => (state, Ok None)
  | Ok (Some (key, (quota0 :: _) as quotas)) =>
      match check_bucket state key quotas now false with
      | (state, Exhausted) =>
          (state, Err (with_header (HandlerRejection_new (lc_error_code config) "ERR10077"
                         "rate limit capacity exhausted") "Retry-After" "1"))
      | (state, Exceeded quota count entries) =>
          (state, Err (exceeded_rejection config (headers_for_quota quota count entries now true)))
      | (state, Granted entries) =>
          if lc_headers_always_set config then
            (state, Ok (Some (headers_for_quota quota0
               (count_within now (lq_window_seconds quota0) entries) entries now false)))
          else (state, Ok None)
      end
  end.

Definition check_rate_limit (state : Buckets) (headers : HeaderMap)
    (runtime : RateLimitRuntime) (principal : option (AuthPrincipal J)) (request_path : string)
    (peer_address : option string) (now : N) :
    Buckets * result HandlerRejection (option RateLimitHeaders) :=
  check_rate_limit_with_source_ip state headers runtime principal request_path
    (peer_address ≫= parse_ip) now.
End checks.

Record SelectedQuotaDecision := { sq_allowed : bool; sq_count : N; sq_reset : option N }.

Definition check_selected_rate_limit (state : Buckets) (label : string) (quota : LimitQuota)
    (now : N) : Buckets * SelectedQuotaDecision :=
  match check_bucket state ("lambda-selected:" +:+ label) [quota] now true with
  | (state, Exhausted) =>
      (state, {| sq_allowed := false; sq_count := lq_limit quota; sq_reset := Some 1%N |})
  | (state, Exceeded _ count entries) =>
      (state, {| sq_allowed := false; sq_count := count;
                 sq_reset := if (lq_window_seconds quota =? 1)%N then Some 1%N
                             else (λ first, lq_window_seconds quota - (now - first))%N <$> head entries |})
  | (state, Granted entries) =>
      (state, {| sq_allowed := true; sq_count := N.of_nat (length entries); sq_reset := None |})
  end.
