(* ===== verification/RateLimitFacts.v ===== *)
(** * Rate limiting: properties

    The quotas of an identity hold over every sliding window of every run, live
    counters survive capacity pressure, and the advertised retry time is exact. *)

From S2P Require Import Prelude RustStr GatewayCore IpAddr ProxyTrust RateLimit.
From Stdlib Require Import Ascii.

(** ** Counting *)

(** [a] falls in the window of length [w] that ends at [t]. *)
Definition in_window (t w a : N) : Prop := (a <= t < a + w)%N.
#[global] Instance in_window_dec t w a : Decision (in_window t w a).
Proof. unfold in_window. apply _. Defined.

Definition window_count (t w : N) (times : list N) : nat := length (filter (in_window t w) times).

Lemma length_filter_mono {A} (P Q : A → Prop) `{!∀ x, Decision (P x), !∀ x, Decision (Q x)} l :
  (∀ x, x ∈ l → P x → Q x) → length (filter P l) ≤ length (filter Q l).
Proof.
  induction l as [|x l IH]; intros Himp; [done|]. rewrite !filter_cons.
  specialize (IH ltac:(intros; apply Himp; [by right|done])).
  destruct (decide (P x)) as [HP|HP].
  - rewrite decide_True by (apply Himp; [left|done]). cbn. lia.
  - case_decide; cbn; lia.
Qed.

Lemma length_filter_none {A} (P : A → Prop) `{!∀ x, Decision (P x)} l :
  (∀ x, x ∈ l → ¬ P x) → length (filter P l) = 0.
Proof.
  induction l as [|x l IH]; intros Hno; [done|]. rewrite filter_cons, decide_False.
  - apply IH. intros. apply Hno. by right.
  - apply Hno. left.
Qed.

Lemma max_window_ge quotas q : q ∈ quotas → (lq_window_seconds q <= max_window quotas)%N.
Proof.
  destruct quotas as [|q0 quotas]; [by intros ?%elem_of_nil|]. cbn.
  assert (∀ l m, (m <= foldl (λ m q, N.max m (lq_window_seconds q)) m l)%N ∧
    ∀ q, q ∈ l → (lq_window_seconds q <= foldl (λ m q, N.max m (lq_window_seconds q)) m l)%N) as Hg.
  { induction l as [|x l IH]; intros m; cbn.
    - split; [lia|]. by intros ? ?%elem_of_nil.
    - destruct (IH (N.max m (lq_window_seconds x))) as [H1 H2]. split; [lia|].
      intros y [->|Hy]%elem_of_cons; [lia|auto]. }
  destruct (Hg quotas (lq_window_seconds q0)) as [H1 H2].
  intros [->|Hq]%elem_of_cons; auto.
Qed.

(** Pruning drops a prefix of entries outside the window. *)
Lemma prune_spec now w entries :
  ∃ old, entries = old ++ prune now w entries ∧ Forall (λ a, (a + w <= now)%N ∨ w = 0%N) old.
Proof.
  induction entries as [|t entries IH]; cbn; [by exists []|].
  unfold within. destruct (now - t <? w)%N eqn:E; [by exists []|]. bool_prop.
  destruct IH as (old & H & Hf). exists (t :: old). split; [cbn; congruence|].
  constructor; [lia|done].
Qed.

Lemma count_within_prune now w W entries :
  (w <= W)%N → count_within now w (prune now W entries) = count_within now w entries.
Proof.
  intros Hle. destruct (prune_spec now W entries) as (old & H & Hf).
  rewrite H at 2. unfold count_within. rewrite filter_app, length_app.
  rewrite (length_filter_none _ old); [done|]. rewrite Forall_forall in Hf.
  intros a Ha Hw. unfold within in Hw. bool_prop. destruct (Hf a Ha); lia.
Qed.

Lemma first_exceeded_None now entries quotas :
  first_exceeded now entries quotas = None →
  ∀ q, q ∈ quotas → (count_within now (lq_window_seconds q) entries < lq_limit q)%N.
Proof.
  unfold first_exceeded. case_match eqn:E; [|done]. intros _ q Hq.
  apply N.nle_gt. intros Hle.
  assert (q ∈ filter (λ q, (lq_limit q <= count_within now (lq_window_seconds q) entries)%N) quotas)
    as Hin by (by apply list_elem_of_filter).
  rewrite E in Hin. by apply elem_of_nil in Hin.
Qed.

(** ** One check *)

(** What [bucket_entries] does to the buckets. *)
Lemma bucket_entries_spec state key now window state' r :
  bucket_entries state key now window = (state', r) →
  (∀ k b, k ≠ key → state' !! k = Some b → state !! k = Some b) ∧
  (∀ k b, k ≠ key → state !! k = Some b → (now < bk_expires_at b)%N → state' !! k = Some b) ∧
  match r with
  | None => state !! key = None ∧ state' !! key = None ∨ (MAX_RATE_LIMIT_KEY_BYTES < slen key)%N ∧ state' = state
  | Some entries =>
      (slen key <= MAX_RATE_LIMIT_KEY_BYTES)%N ∧
      entries = bk_entries (default Bucket_default (state !! key)) ∧
      state' !! key = Some {| bk_entries := entries;
        bk_expires_at := N.max (bk_expires_at (default Bucket_default (state !! key)))
                           (sat_add u64_max now (N.max window 1)) |}
  end ∧
  ((N.of_nat (size state) <= MAX_RATE_LIMIT_BUCKETS)%N → (N.of_nat (size state') <= MAX_RATE_LIMIT_BUCKETS)%N).
Proof.
  unfold bucket_entries. destruct (MAX_RATE_LIMIT_KEY_BYTES <? slen key)%N eqn:Ek; bool_prop.
  { intros [= <- <-]. split_and!; auto. }
  cbv zeta. set (st1 := if no_room state key then filter (λ kb, (now < bk_expires_at kb.2)%N) state else state).
  assert (∀ k b, st1 !! k = Some b → state !! k = Some b) as Hsub.
  { intros k b. unfold st1. case_match; [|done]. by intros [??]%map_lookup_filter_Some. }
  assert (∀ k b, state !! k = Some b → (now < bk_expires_at b)%N → st1 !! k = Some b) as Hlive.
  { intros k b. unfold st1. case_match; [|done]. intros. by apply map_lookup_filter_Some. }
  assert (st1 !! key = state !! key) as Hkey.
  { unfold st1. destruct (no_room state key) eqn:Hf; [|done]. unfold no_room in Hf. bool_prop.
    destruct Hf as [Hn _]. rewrite Hn. apply map_lookup_filter_None. by left. }
  assert ((N.of_nat (size state) <= MAX_RATE_LIMIT_BUCKETS)%N → (N.of_nat (size st1) <= MAX_RATE_LIMIT_BUCKETS)%N) as Hsz.
  { unfold st1. case_match; [|done]. intros Hs.
    pose proof (map_subseteq_size _ _ (map_filter_subseteq (λ kb, (now < bk_expires_at kb.2)%N) state)). lia. }
  destruct (no_room st1 key) eqn:Hf1; unfold no_room in Hf1; intros [= <- <-].
  - bool_prop. destruct Hf1 as [Hn _]. split_and!; auto. left. by rewrite <- Hkey.
  - split_and!; try done.
    + intros k b Hne. rewrite lookup_insert_ne by done. apply Hsub.
    + intros k b Hne. rewrite lookup_insert_ne by done. apply Hlive.
    + by rewrite Hkey.
    + rewrite lookup_insert_eq, Hkey. done.
    + intros Hs. specialize (Hsz Hs). destruct (decide (st1 !! key = None)) as [Hn|Hn].
      * rewrite map_size_insert_None by done. rewrite bool_decide_true in Hf1 by done.
        cbn -[N.leb] in Hf1. bool_prop. lia.
      * apply not_eq_None_Some in Hn. by rewrite map_size_insert_Some.
Qed.

Lemma put_entries_lookup state key entries b :
  state !! key = Some b →
  put_entries state key entries !! key
    = Some {| bk_entries := entries; bk_expires_at := bk_expires_at b |} ∧
  (∀ k, k ≠ key → put_entries state key entries !! k = state !! k) ∧
  size (put_entries state key entries) = size state.
Proof.
  intros Hb. unfold put_entries. rewrite Hb. split_and!.
  - apply lookup_insert_eq.
  - intros k Hne. by rewrite lookup_insert_ne.
  - by rewrite map_size_insert_Some.
Qed.

Definition bucket_of (state : Buckets) (key : string) : Bucket :=
  default Bucket_default (state !! key).

(** The effect of one check on its own bucket and on the others. *)
Lemma check_bucket_spec state key quotas now allow state' d :
  check_bucket state key quotas now allow = (state', d) →
  (∀ k b, k ≠ key → state' !! k = Some b → state !! k = Some b) ∧
  (∀ k b, k ≠ key → state !! k = Some b → (now < bk_expires_at b)%N → state' !! k = Some b) ∧
  ((N.of_nat (size state) <= MAX_RATE_LIMIT_BUCKETS)%N →
   (N.of_nat (size state') <= MAX_RATE_LIMIT_BUCKETS)%N) ∧
  let pruned := prune now (max_window quotas) (bk_entries (bucket_of state key)) in
  let expires := N.max (bk_expires_at (bucket_of state key))
                   (sat_add u64_max now (N.max (max_window quotas) 1)) in
  match d with
  | Exhausted => state' !! key = state !! key
  | Exceeded q c entries =>
      entries = pruned ∧ first_exceeded now pruned quotas = Some (q, c) ∧
      state' !! key = Some {| bk_entries := pruned; bk_expires_at := expires |}
  | Granted entries =>
      entries = pruned ++ [now] ∧ (allow = false → first_exceeded now pruned quotas = None) ∧
      state' !! key = Some {| bk_entries := pruned ++ [now]; bk_expires_at := expires |}
  end ∧
  (d ≠ Exhausted → (slen key <= MAX_RATE_LIMIT_KEY_BYTES)%N).
Proof.
  unfold check_bucket. destruct (bucket_entries _ _ _ _) as [st1 [entries|]] eqn:Hb;
    apply bucket_entries_spec in Hb as (Hsub & Hlive & Hr & Hsz).
  2:{ intros [= <- <-]. split_and!; try done. cbn. destruct Hr as [[H1 H2]|[_ ->]]; congruence. }
  destruct Hr as (Hk & -> & Hst). fold (bucket_of state key) in Hst |- *.
  unfold evaluate_counter.
  set (pruned := prune now (max_window quotas) (bk_entries (bucket_of state key))).
  destruct (if allow && _ then None else first_exceeded now pruned quotas) as [[q c]|] eqn:Hf.
  - intros [= <- <-]. destruct (put_entries_lookup st1 key pruned _ Hst) as (Hp1 & Hp2 & Hp3).
    rewrite Hp3. split_and!; try done.
    + intros k b Hne. rewrite Hp2 by done. eauto.
    + intros k b Hne. rewrite Hp2 by done. eauto.
    + by case_match.
  - intros [= <- <-]. destruct (put_entries_lookup st1 key (pruned ++ [now]) _ Hst) as (Hp1 & Hp2 & Hp3).
    rewrite Hp3. split_and!; try done.
    + intros k b Hne. rewrite Hp2 by done. eauto.
    + intros k b Hne. rewrite Hp2 by done. eauto.
    + intros ->. done.
Qed.

Lemma check_bucket_present state key quotas now allow state' d :
  is_Some (state !! key) → (slen key <= MAX_RATE_LIMIT_KEY_BYTES)%N →
  check_bucket state key quotas now allow = (state', d) → d ≠ Exhausted.
Proof.
  intros [b Hb] Hk Had ->. unfold check_bucket in Had.
  destruct (bucket_entries _ _ _ _) as [st1 [es|]] eqn:He.
  { destruct (evaluate_counter _ _ _ _) as [? [[??]|]]; done. }
  apply bucket_entries_spec in He as (_ & _ & [[H _]|[Hlong _]] & _); [congruence|lia].
Qed.

(** ** The counters of one identity *)

Definition expired (w now a : N) : Prop := (a + w <= now)%N ∨ w = 0%N.

(** [log] holds the times at which requests of [key] were admitted so far, [w] the
    longest window of its quotas, [now] the current time. *)
Definition bucket_inv (key : string) (w : N) (state : Buckets) (log : list N) (now : N) : Prop :=
  match state !! key with
  | Some b =>
      (∃ old, log = old ++ bk_entries b ∧ Forall (expired w now) old) ∧
      Forall (λ a, (N.min (a + N.max w 1) u64_max <= bk_expires_at b)%N) (bk_entries b)
  | None => Forall (expired w now) log
  end.

Lemma expired_later w now now' l :
  (now <= now')%N → Forall (expired w now) l → Forall (expired w now') l.
Proof. intros Hle H. apply (Forall_impl _ _ _ H). unfold expired. lia. Qed.

Lemma bucket_inv_other key w state log now key' quotas now' allow state' d :
  bucket_inv key w state log now → (now <= now')%N → (now' < u64_max)%N → key' ≠ key →
  check_bucket state key' quotas now' allow = (state', d) → bucket_inv key w state' log now'.
Proof.
  unfold bucket_inv. intros Hinv Hle Hmax Hne (Hsub & Hlive & _)%check_bucket_spec.
  destruct (state !! key) as [b|] eqn:E.
  - destruct Hinv as [(old & -> & Hold) Hexp].
    destruct (decide (now' < bk_expires_at b)%N) as [Hl|Hl].
    + rewrite (Hlive key b) by done. split; [|done]. exists old. split; [done|].
      by eapply expired_later.
    + assert (Forall (expired w now') (old ++ bk_entries b)) as Hall.
      { apply Forall_app. split; [by eapply expired_later|]. apply (Forall_impl _ _ _ Hexp).
        unfold expired. lia. }
      destruct (state' !! key) as [b'|] eqn:E'; [|done].
      apply Hsub in E'; [|done]. simplify_eq. split; [|done]. exists old.
      split; [done|]. by eapply expired_later.
  - destruct (state' !! key) as [b'|] eqn:E'; [|by eapply expired_later].
    apply Hsub in E'; [|done]. congruence.
Qed.

Lemma bucket_inv_default key w state log now :
  bucket_inv key w state log now →
  ∃ old, log = old ++ bk_entries (bucket_of state key) ∧ Forall (expired w now) old ∧
    Forall (λ a, (N.min (a + N.max w 1) u64_max <= bk_expires_at (bucket_of state key))%N)
      (bk_entries (bucket_of state key)).
Proof.
  unfold bucket_inv, bucket_of. destruct (state !! key) as [b|]; cbn.
  - intros [(old & H & Hf) Hx]. eauto.
  - intros H. exists log. rewrite app_nil_r. eauto.
Qed.

(** The log after a check of [key] itself. *)
Definition logged (log : list N) (now : N) (d : decision) : list N :=
  match d with Granted _ => log ++ [now] | _ => log end.

Lemma bucket_inv_own key quotas state log now now' allow state' d :
  let w := max_window quotas in
  bucket_inv key w state log now → (now <= now')%N →
  check_bucket state key quotas now' allow = (state', d) →
  bucket_inv key w state' (logged log now' d) now'.
Proof.
  intros w Hinv Hle (_ & _ & _ & Hd & _)%check_bucket_spec. cbn in Hd.
  pose proof (bucket_inv_default _ _ _ _ _ Hinv) as (old & Hlog & Hold & Hexp).
  destruct (prune_spec now' w (bk_entries (bucket_of state key))) as (mid & Hmid & Hmf).
  fold w in Hd. set (pruned := prune now' w _) in *.
  assert (log = (old ++ mid) ++ pruned ∧ Forall (expired w now') (old ++ mid)) as [Hl Hf].
  { split; [by rewrite Hlog, Hmid, app_assoc|]. apply Forall_app. split; [by eapply expired_later|done]. }
  assert (Forall (λ a, (N.min (a + N.max w 1) u64_max <=
    N.max (bk_expires_at (bucket_of state key)) (sat_add u64_max now' (N.max w 1)))%N) pruned) as Hp.
  { rewrite Hmid in Hexp. apply Forall_app in Hexp as [_ Hexp]. apply (Forall_impl _ _ _ Hexp). lia. }
  destruct d as [|q c es|es]; cbn.
  - unfold bucket_inv in *. rewrite Hd. destruct (state !! key) as [b|]; [|by eapply expired_later].
    destruct Hinv as [(o & ? & ?) ?]. split; [|done]. exists o. split; [done|]. by eapply expired_later.
  - destruct Hd as (_ & _ & Hst). unfold bucket_inv. rewrite Hst. cbn. split; [|done]. eauto.
  - destruct Hd as (_ & _ & Hst). unfold bucket_inv. rewrite Hst. cbn. split.
    + exists (old ++ mid). split; [by rewrite Hl, <- app_assoc|done].
    + apply Forall_app. split; [done|]. constructor; [|done]. unfold sat_add. lia.
Qed.

(** An admission finds fewer than [limit] earlier admissions in the window that
    ends now. *)
Lemma admitted_below_limit key quotas state log now now' state' es q :
  bucket_inv key (max_window quotas) state log now → (now <= now')%N →
  Forall (λ a, a <= now)%N log →
  check_bucket state key quotas now' false = (state', Granted es) → q ∈ quotas →
  (N.of_nat (length (filter (λ a, now' < a + lq_window_seconds q)%N log)) < lq_limit q)%N.
Proof.
  intros Hinv Hle Hpast (_ & _ & _ & (_ & Hf & _) & _)%check_bucket_spec Hq.
  pose proof (bucket_inv_default _ _ _ _ _ Hinv) as (old & Hlog & Hold & _).
  pose proof (first_exceeded_None _ _ _ (Hf eq_refl) q Hq) as Hlt.
  rewrite count_within_prune in Hlt by (by apply max_window_ge).
  eapply N.le_lt_trans; [|exact Hlt]. unfold count_within. rewrite Hlog, filter_app, length_app.
  rewrite (length_filter_none _ old).
  - match goal with |- (N.of_nat ?x <= N.of_nat ?y)%N => enough (x ≤ y) by lia end.
    apply length_filter_mono. intros a Hin Ha. unfold within. apply N.ltb_lt.
    rewrite Hlog, Forall_app in Hpast. destruct Hpast as [_ Hpast].
    rewrite Forall_forall in Hpast. specialize (Hpast a Hin). cbn in *. lia.
  - rewrite Hlog, Forall_app in Hpast. destruct Hpast as [Hpast _].
    rewrite Forall_forall in Hold, Hpast. intros a Ha Hw. pose proof (max_window_ge _ _ Hq).
    specialize (Hpast a Ha). destruct (Hold a Ha); cbn in *; lia.
Qed.

Lemma window_count_snoc t w log a :
  window_count t w (log ++ [a]) =
  window_count t w log + (if decide (in_window t w a) then 1 else 0).
Proof.
  unfold window_count. rewrite filter_app, length_app. f_equal.
  rewrite filter_cons, filter_nil. by case_decide.
Qed.

(** Adding an admission keeps every window within the limit. *)
Lemma window_limit_snoc log now q :
  (N.of_nat (length (filter (λ a, now < a + lq_window_seconds q)%N log)) < lq_limit q)%N →
  (∀ t, (N.of_nat (window_count t (lq_window_seconds q) log) <= lq_limit q)%N) →
  ∀ t, (N.of_nat (window_count t (lq_window_seconds q) (log ++ [now])) <= lq_limit q)%N.
Proof.
  intros Hlt Hall t. rewrite window_count_snoc. case_decide as Hw; [|specialize (Hall t); lia].
  assert (window_count t (lq_window_seconds q) log ≤
          length (filter (λ a, now < a + lq_window_seconds q)%N log)) as Hle; [|lia].
  apply length_filter_mono. unfold in_window in *. lia.
Qed.

(** ** Runs of the gateway *)

Section runs.
Context {http : HttpLib} {nets : IpNetLib} {J : Type}.

Record request := {
  rq_headers : HeaderMap;
  rq_principal : option (AuthPrincipal J);
  rq_path : string;
  rq_peer : option IpAddr;
}.

(** The two kinds of check that share the buckets. *)
Inductive call :=
| Request (rq : request)
| Selected (label : string) (quota : LimitQuota).

(** The bucket a call counts against, with its quotas and whether an empty bucket
    admits; [None] when the call is not limited or refused before counting. *)
Definition target (rt : RateLimitRuntime) (c : call) : option (string * list LimitQuota * bool) :=
  match c with
  | Request rq =>
      if negb (lc_enabled (rt_config rt)) then None else
      match (trust ← map_err (HandlerRejection_new 500 "ERR10002") (rt_source_trust rt);
             rate_limit_key_and_quotas_with_trust (rq_headers rq) (rt_config rt)
               (rq_principal rq) (rq_path rq) (rq_peer rq) trust) with
      | Ok (Some (key, (_ :: _) as quotas)) => Some (key, quotas, false)
      | _ => None
      end
  | Selected label quota => Some ("lambda-selected:" +:+ label, [quota], true)
  end.

(** A call at a time: the new buckets and whether it was let through. *)
Definition serve (rt : RateLimitRuntime) (state : Buckets) (now : N) (c : call) : Buckets * bool :=
  match c with
  | Request rq =>
      let (state', r) := check_rate_limit_with_source_ip state (rq_headers rq) rt
        (rq_principal rq) (rq_path rq) (rq_peer rq) now in (state', is_ok r)
  | Selected label quota =>
      let (state', d) := check_selected_rate_limit state label quota now in (state', sq_allowed d)
  end.

Lemma serve_target rt state now c :
  serve rt state now c =
  match target rt c with
  | Some (key, quotas, allow) =>
      let (state', d) := check_bucket state key quotas now allow in
      (state', match d with Granted _ => true | _ => false end)
  | None => (state, (serve rt state now c).2)
  end.
Proof.
  destruct c as [rq|label quota]; cbn.
  - unfold check_rate_limit_with_source_ip. destruct (lc_enabled (rt_config rt)); cbn; [|done].
    destruct (_ ≫= _) as [[[key [|q quotas]]|]|e]; try done.
    destruct (check_bucket _ _ _ _ _) as [state' [| |]]; [done..|]. by destruct (lc_headers_always_set _).
  - unfold check_selected_rate_limit. by destruct (check_bucket _ _ _ _ _) as [state' [| |]].
Qed.

(** The calls let through, with their times, in a run of timed calls. *)
Fixpoint serve_all (rt : RateLimitRuntime) (state : Buckets) (calls : list (N * call)) :
    Buckets * list (N * call) :=
  match calls with
  | [] => (state, [])
  | (now, c) :: rest =>
      let (state', ok) := serve rt state now c in
      let (final, passed) := serve_all rt state' rest in
      (final, if ok then (now, c) :: passed else passed)
  end.

(** The times at which calls of [key] were let through. *)
Definition times_of (rt : RateLimitRuntime) (key : string) (passed : list (N * call)) : list N :=
  omap (λ '(now, c), match target rt c with
                     | Some (k, _, _) => if decide (k = key) then Some now else None
                     | None => None
                     end) passed.

(** Times do not decrease, and stay below the largest 64-bit value. *)
Fixpoint clocked (from : N) (calls : list (N * call)) : Prop :=
  match calls with
  | [] => True
  | (now, _) :: rest => (from <= now < u64_max)%N ∧ clocked now rest
  end.

(** Every call of [key] is a request check, and is counted against the same quotas. *)
Definition uniform (rt : RateLimitRuntime) (key : string) (quotas : list LimitQuota)
    (calls : list (N * call)) : Prop :=
  ∀ now c q allow, (now, c) ∈ calls → target rt c = Some (key, q, allow) →
    q = quotas ∧ allow = false.

(** What holds of an identity's counters at a time of a run. *)
Record limited (key : string) (quotas : list LimitQuota) (state : Buckets) (log : list N)
    (now : N) : Prop := {
  li_bucket : bucket_inv key (max_window quotas) state log now;
  li_past : Forall (λ a, a <= now)%N log;
  li_sorted : StronglySorted N.le log;
  li_limit : ∀ q, q ∈ quotas → ∀ t,
    (N.of_nat (window_count t (lq_window_seconds q) log) <= lq_limit q)%N;
}.

Lemma limited_later key quotas state log now now' :
  (now <= now')%N → limited key quotas state log now → limited key quotas state log now'.
Proof.
  intros Hle [Hb Hp Hs Hl]. split; [|apply (Forall_impl _ _ _ Hp); cbn; lia|done..].
  unfold bucket_inv in *. destruct (state !! key).
  - destruct Hb as [(old & ? & ?) ?]. split; [|done]. exists old. split; [done|].
    by eapply expired_later.
  - by eapply expired_later.
Qed.

Lemma sorted_snoc l (a : N) :
  StronglySorted N.le l → Forall (λ x, x <= a)%N l → StronglySorted N.le (l ++ [a]).
Proof.
  induction 1 as [|x l Hs IH Hx]; intros Ha; cbn; [by repeat constructor|].
  apply Forall_cons in Ha as [Hxa Ha]. constructor; [by apply IH|].
  apply Forall_app. split; [done|]. by repeat constructor.
Qed.

Lemma limited_own key quotas state log now now' state' d :
  limited key quotas state log now → (now <= now')%N →
  check_bucket state key quotas now' false = (state', d) →
  limited key quotas state' (logged log now' d) now'.
Proof.
  intros Hlim Hle Had. pose proof (limited_later _ _ _ _ _ _ Hle Hlim) as [_ Hp Hs Hl].
  destruct Hlim as [Hb Hp0 _ _]. split; [by eapply bucket_inv_own|..]; destruct d; try done; cbn.
  - apply Forall_app. split; [done|]. constructor; [lia|done].
  - by apply sorted_snoc.
  - intros q Hq. apply window_limit_snoc; [|by apply Hl]. by eapply admitted_below_limit.
Qed.

Lemma limited_other key quotas state log now key' q0 now' allow state' d :
  limited key quotas state log now → (now <= now')%N → (now' < u64_max)%N → key' ≠ key →
  check_bucket state key' q0 now' allow = (state', d) → limited key quotas state' log now'.
Proof.
  intros Hlim Hle Hmax Hne Had. pose proof (limited_later _ _ _ _ _ _ Hle Hlim) as [_ Hp Hs Hl].
  destruct Hlim as [Hb _ _ _]. split; [|done..]. by eapply bucket_inv_other.
Qed.

Fixpoint clock_end (from : N) (calls : list (N * call)) : N :=
  match calls with [] => from | (now, _) :: rest => clock_end now rest end.

Lemma serve_all_limited rt key quotas calls state log now :
  clocked now calls → uniform rt key quotas calls → limited key quotas state log now →
  limited key quotas (serve_all rt state calls).1
    (log ++ times_of rt key (serve_all rt state calls).2) (clock_end now calls).
Proof.
  revert state log now. induction calls as [|[now' c] calls IH];
    intros state log now Hck Hu Hlim; [cbn; by rewrite app_nil_r|].
  destruct Hck as [Hnow Hck].
  assert (uniform rt key quotas calls) as Hu'
    by (intros n c0 q0 a0 Hin; apply (Hu n); by right).
  cbn. rewrite serve_target. destruct (target rt c) as [[[k q0] allow]|] eqn:Ht.
  - destruct (check_bucket state k q0 now' allow) as [state' d] eqn:Had.
    destruct (decide (k = key)) as [->|Hne].
    + destruct (Hu now' c q0 allow) as [-> ->]; [left|done|].
      apply limited_own with (log := log) (now := now) in Had; [|done|lia].
      specialize (IH state' _ now' Hck Hu' Had).
      destruct (serve_all rt state' calls) as [final passed], d; cbn in *; [done..|].
      rewrite Ht, decide_True by done. by rewrite cons_middle, app_assoc.
    + apply limited_other with (key := key) (quotas := quotas) (log := log) (now := now) in Had;
        [|done|lia..|done]. specialize (IH state' log now' Hck Hu' Had).
      destruct (serve_all rt state' calls) as [final passed], d; cbn in *; [done..|].
      by rewrite Ht, decide_False.
  - apply limited_later with (now' := now') in Hlim; [|lia].
    specialize (IH state log now' Hck Hu' Hlim).
    destruct (serve_all rt state calls) as [final passed]. cbn in *.
    case_match; cbn; [|done]. by rewrite Ht.
Qed.

Lemma limited_initial key quotas : limited key quotas ∅ [] 0.
Proof.
  split; [|constructor|constructor|intros q _ t; cbn; lia].
  unfold bucket_inv. rewrite lookup_empty. constructor.
Qed.

(** C7 Quotas hold over every sliding window.  In any run of request checks and
    selected-quota checks, in any order and at any non-decreasing times, of a
    gateway that starts with no counters, the requests let through for an identity of
    request checks whose quotas do not change number at most [limit] in every window of
    [window_seconds], for each of its quotas; in particular neither selected-quota
    checks nor the eviction of other identities under capacity pressure forget a counted
    request.  It is not about the keys of the selected-quota checks themselves, for which a
    call that finds no counted request is let through whatever the limit. *)
Theorem rate_limit_enforced config calls key quotas q t :
  let (rt, state) := RateLimitRuntime_new config in
  clocked 0 calls → uniform rt key quotas calls → q ∈ quotas →
  (N.of_nat (window_count t (lq_window_seconds q)
     (times_of rt key (serve_all rt state calls).2)) <= lq_limit q)%N.
Proof.
  cbn. intros Hck Hu Hq.
  apply (li_limit _ _ _ _ _ (serve_all_limited _ key quotas calls ∅ [] 0 Hck Hu
    (limited_initial key quotas)) q Hq).
Qed.

(** There is room for every bucket, and its key is not too long. *)
Definition bounded (state : Buckets) : Prop :=
  (N.of_nat (size state) <= MAX_RATE_LIMIT_BUCKETS)%N ∧
  ∀ k, is_Some (state !! k) → (slen k <= MAX_RATE_LIMIT_KEY_BYTES)%N.

Lemma check_bucket_bounded state key quotas now allow state' d :
  bounded state → check_bucket state key quotas now allow = (state', d) → bounded state'.
Proof.
  intros [Hs1 Hs2] (Hsub & _ & Hsz & Hd & Hk)%check_bucket_spec.
  split; [by apply Hsz|]. intros k' [b Hb]. destruct (decide (k' = key)) as [->|Hne]; [|eauto].
  destruct d; [rewrite Hd in Hb; eauto|by apply Hk..].
Qed.

Lemma serve_all_bounded rt state calls : bounded state → bounded (serve_all rt state calls).1.
Proof.
  revert state. induction calls as [|[now c] calls IH]; intros state Hst; [done|].
  cbn. rewrite serve_target. destruct (target rt c) as [[[k q0] allow]|].
  - destruct (check_bucket state k q0 now allow) as [st' d] eqn:Had. apply check_bucket_bounded in Had; [|done].
    specialize (IH st' Had). by destruct (serve_all rt st' calls).
  - specialize (IH state Hst). by destruct (serve_all rt state calls).
Qed.

(** Under capacity pressure the gateway fails closed on new identities and
    never touches a live one: there are never more than 4096 buckets, a check of
    one identity leaves every other unexpired bucket as it is, and an identity
    that has a bucket is never refused for lack of room. *)
Theorem capacity_fails_closed config calls rt0 state0 key quotas now allow state' d :
  RateLimitRuntime_new config = (rt0, state0) →
  let state := (serve_all rt0 state0 calls).1 in
  check_bucket state key quotas now allow = (state', d) →
  (N.of_nat (size state') <= MAX_RATE_LIMIT_BUCKETS)%N ∧
  (∀ k b, k ≠ key → state !! k = Some b → (now < bk_expires_at b)%N → state' !! k = Some b) ∧
  (d = Exhausted → state !! key = None).
Proof.
  intros [= <- <-] state Had.
  assert (bounded state) as [Hsz Hkeys].
  { apply serve_all_bounded. split; [unfold MAX_RATE_LIMIT_BUCKETS; rewrite map_size_empty; lia|].
    intros k [b Hb]. by rewrite lookup_empty in Hb. }
  assert (Hspec := Had). apply check_bucket_spec in Hspec as (_ & Hlive & Hs' & _ & _).
  split_and!; [by apply Hs'|done|]. intros ->.
  destruct (state !! key) eqn:E; [|done].
  by eapply check_bucket_present in Had; [|by eexists|apply Hkeys; by eexists].
Qed.

(** ** Retry times *)

Lemma sorted_app_r l k : StronglySorted N.le (l ++ k) → StronglySorted N.le k.
Proof. induction l as [|x l IH]; cbn; [done|]. inversion 1; auto. Qed.

(** In a sorted list whose first entry is in the window, all are. *)
Lemma all_within now w o rest :
  StronglySorted N.le (o :: rest) → within now w o = true →
  filter (λ t, within now w t = true) (o :: rest) = o :: rest ∧ prune now w (o :: rest) = o :: rest.
Proof.
  intros Hs Ho. split; [|cbn; by rewrite Ho]. apply filter_all.
  inversion Hs as [|?? _ Hf]; subst. constructor; [done|]. apply (Forall_impl _ _ _ Hf).
  unfold within in *. bool_prop. intros t Ht. bool_prop. lia.
Qed.

Lemma prune_sorted_all now w entries :
  StronglySorted N.le entries →
  filter (λ t, within now w t = true) (prune now w entries) = prune now w entries.
Proof.
  intros Hs. induction entries as [|o rest IH]; cbn; [done|].
  destruct (within now w o) eqn:E; [by apply all_within|]. apply IH. by inversion Hs.
Qed.

Lemma first_exceeded_single now entries q r :
  first_exceeded now entries [q] = r →
  match r with
  | Some (q', c) => q' = q ∧ c = count_within now (lq_window_seconds q) entries ∧ (lq_limit q <= c)%N
  | None => (count_within now (lq_window_seconds q) entries < lq_limit q)%N
  end.
Proof.
  unfold first_exceeded. rewrite filter_cons, filter_nil. case_decide; intros <-; [done|].
  by apply N.nle_gt.
Qed.

Definition is_exceeded (d : decision) : bool := match d with Exceeded _ _ _ => true | _ => false end.
Definition is_admitted (d : decision) : bool := match d with Granted _ => true | _ => false end.

(** A rejection by a single quota leaves exactly [limit] sorted entries, all in
    the window. *)
Lemma rejected_entries key q state log now now' state' q' c es :
  limited key [q] state log now → (now <= now')%N → (0 < lq_limit q)%N →
  check_bucket state key [q] now' false = (state', Exceeded q' c es) →
  ∃ o rest, es = o :: rest ∧ q' = q ∧ StronglySorted N.le (o :: rest) ∧ (o <= now')%N ∧
    within now' (lq_window_seconds q) o = true ∧
    N.of_nat (length (o :: rest)) = lq_limit q ∧ bk_entries (bucket_of state' key) = o :: rest.
Proof.
  intros Hlim Hle Hpos (_ & _ & _ & (-> & Hf & Hst) & _)%check_bucket_spec.
  destruct Hlim as [Hb Hp Hs Hl].
  apply bucket_inv_default in Hb as (old & Hlog & _ & _).
  apply first_exceeded_single in Hf as (-> & Hc & Hlc). cbn in Hst, Hc.
  set (es := prune now' (lq_window_seconds q) (bk_entries (bucket_of state key))) in *.
  destruct (prune_spec now' (lq_window_seconds q) (bk_entries (bucket_of state key))) as (mid & Hm & _).
  fold es in Hm. rewrite Hm, app_assoc in Hlog.
  assert (StronglySorted N.le es) as Hse by (rewrite Hlog in Hs; by apply sorted_app_r in Hs).
  assert (filter (λ t, within now' (lq_window_seconds q) t = true) es = es) as Hall.
  { unfold es. apply prune_sorted_all. rewrite Hm. rewrite Hlog, <- app_assoc in Hs.
    by apply sorted_app_r in Hs. }
  unfold count_within in Hc. rewrite Hall in Hc.
  assert (N.of_nat (length es) <= lq_limit q)%N as Hub.
  { specialize (Hl q ltac:(left) now'). unfold window_count in Hl. rewrite Hlog, filter_app, length_app in Hl.
    rewrite <- Hall in Hl at 1.
    assert (length es ≤ length (filter (in_window now' (lq_window_seconds q)) es)); [|rewrite Hall in Hl; lia].
    rewrite <- Hall at 1. apply length_filter_mono. intros a Ha Hw. rewrite Hlog in Hp.
    apply Forall_app in Hp as [_ Hp]. rewrite Forall_forall in Hp. specialize (Hp a Ha). cbn in Hp.
    unfold within in Hw. unfold in_window. bool_prop. lia. }
  destruct es as [|o rest] eqn:Ees; [cbn in *; lia|]. exists o, rest.
  rewrite Hlog in Hp. apply Forall_app in Hp as [_ Hp]. apply Forall_cons in Hp as [Hpo _].
  split_and!; try done; try lia.
  - assert (o ∈ filter (λ t, within now' (lq_window_seconds q) t = true) (o :: rest)) as Ho
      by (rewrite Hall; left).
    by apply list_elem_of_filter in Ho as [Ho _].
  - unfold bucket_of. by rewrite Hst.
Qed.

(** The advertised retry time is exact for an identity with one quota.  After
    any run, if a request is rejected and the identity makes no other request, then
    any request before [Retry-After] seconds have passed is rejected too, and the
    first one at that time is admitted. *)
Theorem retry_after_exact config calls rt0 state0 key q now state' q' c es :
  RateLimitRuntime_new config = (rt0, state0) →
  clocked 0 calls → uniform rt0 key [q] calls → (0 < lq_limit q)%N →
  (clock_end 0 calls <= now)%N →
  check_bucket (serve_all rt0 state0 calls).1 key [q] now false = (state', Exceeded q' c es) →
  let retry := rh_reset (headers_for_quota q' c es now true) in
  rh_retry_after (headers_for_quota q' c es now true) = Some retry ∧
  (∀ d, (d < retry)%N → is_exceeded (check_bucket state' key [q] (now + d) false).2 = true) ∧
  is_admitted (check_bucket state' key [q] (now + retry) false).2 = true.
Proof.
  intros [= <- <-] Hck Hu Hpos Hnow Had retry. cbn in Had.
  pose proof (serve_all_limited _ key [q] calls ∅ [] 0 Hck Hu (limited_initial key [q])) as Hlim.
  assert (is_Some (state' !! key) ∧ (slen key <= MAX_RATE_LIMIT_KEY_BYTES)%N) as [Hin Hkey].
  { apply check_bucket_spec in Had as (_ & _ & _ & (_ & _ & Hst) & Hk). split; [by rewrite Hst|by apply Hk]. }
  destruct (rejected_entries _ _ _ _ _ _ _ _ _ _ Hlim Hnow Hpos Had)
    as (o & rest & -> & -> & Hs & Ho & Hw & Hlen & Hb).
  destruct (all_within now (lq_window_seconds q) o rest Hs Hw) as [Hfilter _].
  assert (retry = o + lq_window_seconds q - now)%N as ->.
  { unfold retry, headers_for_quota. rewrite Hfilter. cbn. unfold within in Hw. bool_prop. lia. }
  unfold within in Hw. bool_prop. split_and!.
  - unfold headers_for_quota. cbn [rh_retry_after]. rewrite Hfilter. cbn. f_equal. lia.
  - intros d Hd. destruct (check_bucket state' key [q] (now + d) false) as [st2 d2] eqn:Had2.
    pose proof (check_bucket_present _ _ _ _ _ _ _ Hin Hkey Had2) as Hne.
    apply check_bucket_spec in Had2 as (_ & _ & _ & Hd2 & _). rewrite Hb in Hd2. cbn [max_window foldl] in Hd2.
    destruct (all_within (now + d) (lq_window_seconds q) o rest Hs) as [Hf2 Hp2].
    { unfold within. apply N.ltb_lt. lia. }
    rewrite Hp2 in Hd2. destruct d2; [done|done|]. destruct Hd2 as (_ & Hn & _).
    specialize (Hn eq_refl). apply first_exceeded_single in Hn. cbn in Hn.
    unfold count_within in Hn. rewrite Hf2 in Hn. lia.
  - destruct (check_bucket state' key [q] _ false) as [st2 d2] eqn:Had2.
    pose proof (check_bucket_present _ _ _ _ _ _ _ Hin Hkey Had2) as Hne.
    apply check_bucket_spec in Had2 as (_ & _ & _ & Hd2 & _). rewrite Hb in Hd2. cbn [max_window foldl] in Hd2.
    destruct d2; [done| |done]. destruct Hd2 as (_ & Hx & _).
    apply first_exceeded_single in Hx as (_ & -> & Hx). rewrite count_within_prune in Hx by lia.
    unfold count_within in Hx. rewrite filter_cons, decide_False in Hx.
    + pose proof (length_filter (λ t, within (now + (o + lq_window_seconds q - now))
        (lq_window_seconds q) t = true) rest). cbn [length] in Hlen. lia.
    + unfold within. rewrite N.ltb_lt. lia.
Qed.
End runs.

(** ** Selection of quotas *)

(** Path quotas go by the longest configured prefix: the quotas chosen for a
    request path are those of the unique longest prefix of the path that has any,
    and none are chosen only if no configured prefix of the path has any. *)
Theorem best_path_quotas_longest map path :
  match best_path_quotas map path with
  | Some quotas =>
      quotas ≠ [] ∧ ∃ p, map !! p = Some quotas ∧ starts_with path p = true ∧
        ∀ p' quotas', map !! p' = Some quotas' → starts_with path p' = true → quotas' ≠ [] →
          p' ≠ p → (slen p' < slen p)%N
  | None => ∀ p quotas, map !! p = Some quotas → starts_with path p = true → quotas = []
  end.
Proof.
  unfold best_path_quotas. destruct (max_by_key _ _) as [[p qs]|] eqn:E; cbn.
  - apply max_by_key_Some in E as [Hin Hmax].
    apply list_elem_of_filter in Hin as [[Hs Hne] Hin%elem_of_bt_iter]. cbn in *.
    split; [done|]. exists p. split_and!; [done..|]. intros p' qs' Hp' Hs' Hne' Hdiff.
    assert (slen p' <= slen p)%N as Hle.
    { apply (Hmax (p', qs')), list_elem_of_filter. by rewrite elem_of_bt_iter. }
    apply N.le_neq. split; [done|]. intros Hl. apply Hdiff.
    apply (prefix_same_length p' p path); [done..|]. unfold slen in Hl. lia.
  - apply max_by_key_None in E. intros p qs Hp Hs. destruct (decide (qs = [])) as [|Hne]; [done|].
    assert ((p, qs) ∈ filter (λ e : string * list LimitQuota,
      starts_with path e.1 = true ∧ e.2 ≠ []) (bt_iter map)) as Hin.
    { apply list_elem_of_filter. by rewrite elem_of_bt_iter. }
    rewrite E in Hin. by apply elem_of_nil in Hin.
Qed.
