(* ===== verification/Cors.v ===== *)
(** * Cross-origin requests and header rules

    Model of [crates/gateway-policy/src/cors.rs], [java_cors.rs] and
    [header.rs].  The [url] crate is the class [UrlLib]. *)

From S2P Require Import Prelude RustStr GatewayCore.
From Stdlib Require Import Ascii.

(** What the code reads off a parsed URL. *)
Record url := { url_scheme : string; url_host_str : option string; url_port : option N }.
Class UrlLib := url_parse : string → option url.

(** ** CORS *)

Record CorsPathPrefix := { cpp_allowed_origins : list string; cpp_allowed_methods : list string }.

Record CorsConfig := {
  cc_enabled : bool;
  cc_allowed_origins : list string;
  cc_allowed_methods : list string;
  cc_path_prefix_allowed : gmap string CorsPathPrefix;
}.
Definition CorsConfig_default : CorsConfig :=
  {| cc_enabled := true; cc_allowed_origins := []; cc_allowed_methods := [];
     cc_path_prefix_allowed := ∅ |}.

Record CorsResponseHeaders := {
  crh_allow_origin : option string;
  crh_allow_methods : list string;
  crh_allow_headers : string;
}.
Definition CorsResponseHeaders_default : CorsResponseHeaders :=
  {| crh_allow_origin := None; crh_allow_methods := []; crh_allow_headers := "" |}.

Inductive CorsRequestOutcome :=
| Continue (headers : option CorsResponseHeaders)
| Respond (status : N) (headers : CorsResponseHeaders).

Definition DEFAULT_ALLOWED_HEADERS : string := "Content-Type, WWW-Authenticate, Authorization".
Definition PREFLIGHT_MAX_AGE_SECONDS : N := 3600.

Definition policy_for_path (c : CorsConfig) (request_path : string) : CorsPathPrefix :=
  match max_by_key (λ e, slen e.1)
          (filter (λ e, starts_with request_path e.1 = true) (bt_iter (cc_path_prefix_allowed c))) with
  | Some (_, policy) => policy
  | None => {| cpp_allowed_origins := cc_allowed_origins c;
               cpp_allowed_methods := cc_allowed_methods c |}
  end.

Definition is_default_port (scheme : string) (port : N) : bool :=
  eq_ignore_ascii_case scheme "http" && (port =? 80)%N
  || eq_ignore_ascii_case scheme "https" && (port =? 443)%N.

Definition host_has_port (host : string) : bool :=
  if starts_with host "[" then contains host "]:"
  else match rsplit_once ":" host with
       | Some (_, port) => match parse_uint u16_max port with Some _ => true | None => false end
       | None => false
       end.

(** The request head the policies read. *)
Record RequestHead `{http : HttpLib} := { rh_headers : HeaderMap; rh_method : string }.

Section cors.
Context {http : HttpLib} {urls : UrlLib}.

Definition is_cors_request (r : RequestHead) : bool :=
  contains_key (rh_headers r) "origin"
  || contains_key (rh_headers r) "access-control-request-headers"
  || contains_key (rh_headers r) "access-control-request-method".

Definition is_preflight_request (r : RequestHead) : bool :=
  eq_ignore_ascii_case (rh_method r) "OPTIONS".

Definition first_request_header (r : RequestHead) (name : string) : option string :=
  value ← get (rh_headers r) name; to_str value.

Definition sanitize_default_port (origin : string) : string :=
  match url_parse origin with
  | None => origin
  | Some u =>
      match url_host_str u with
      | None => origin
      | Some host =>
          let scheme := to_ascii_lowercase (url_scheme u) in
          let sanitized := scheme +:+ "://" +:+ host in
          match url_port u with
          | Some port => if is_default_port scheme port then sanitized
                         else sanitized +:+ ":" +:+ dec port
          | None => sanitized
          end
      end
  end.

Definition default_origin (r : RequestHead) (server_scheme : string) (server_port : N) :
    option string :=
  host ← first_request_header r "host";
  let host := trim (default host (head (split "," host))) in
  if is_empty host then None
  else if host_has_port host || is_default_port server_scheme server_port
  then Some (server_scheme +:+ "://" +:+ host)
  else Some (server_scheme +:+ "://" +:+ host +:+ ":" +:+ dec server_port).

Definition match_origin (origin : string) (allowed_origins : list string) (r : RequestHead)
    (server_scheme : string) (server_port : N) : option string :=
  let normalized_origin := sanitize_default_port origin in
  if existsb (λ allowed, eq_ignore_ascii_case (sanitize_default_port allowed) normalized_origin)
       allowed_origins
  then Some origin
  else
    d ← default_origin r server_scheme server_port;
    if eq_ignore_ascii_case (sanitize_default_port d) normalized_origin then Some origin else None.

Definition evaluate_cors_request (r : RequestHead) (config : CorsConfig) (request_path : string)
    (server_scheme : string) (server_port : N) : CorsRequestOutcome :=
  if negb (cc_enabled config) || negb (is_cors_request r) then Continue None else
  let policy := policy_for_path config request_path in
  let origin := first_request_header r "origin" in
  let allow_origin :=
    o ← origin; match_origin o (cpp_allowed_origins policy) r server_scheme server_port in
  if bool_decide (is_Some origin) && bool_decide (allow_origin = None)
  then Respond 403 CorsResponseHeaders_default
  else
    let headers := {| crh_allow_origin := allow_origin;
                      crh_allow_methods := cpp_allowed_methods policy;
                      crh_allow_headers := default DEFAULT_ALLOWED_HEADERS
                        (first_request_header r "access-control-request-headers") |} in
    if is_preflight_request r then Respond 200 headers else Continue (Some headers).

Definition apply_cors_response {W E} `{!HeaderWriter W E} (headers : CorsResponseHeaders) (w : W) :
    W * result E unit :=
  insert_all
    (match crh_allow_origin headers with
     | Some origin =>
         [("access-control-allow-origin", origin);
          ("vary", "Origin, Access-Control-Request-Method, Access-Control-Request-Headers")]
     | None => []
     end ++
     (match crh_allow_methods headers with
      | [] => []
      | methods => [("access-control-allow-methods", join ", " methods)]
      end) ++
     [("access-control-allow-headers", crh_allow_headers headers);
      ("access-control-allow-credentials", "true");
      ("access-control-max-age", dec PREFLIGHT_MAX_AGE_SECONDS)]) w.

(** ** Soundness of CORS answers *)

(** An origin the policy of a path accepts: up to case and default port it is one
    of the allowed origins or the origin the request was sent to. *)
Definition origin_accepted (r : RequestHead) (config : CorsConfig) (path scheme : string)
    (port : N) (origin : string) : Prop :=
  (∃ allowed, allowed ∈ cpp_allowed_origins (policy_for_path config path) ∧
     eq_ignore_ascii_case (sanitize_default_port allowed) (sanitize_default_port origin) = true) ∨
  (∃ d, default_origin r scheme port = Some d ∧
     eq_ignore_ascii_case (sanitize_default_port d) (sanitize_default_port origin) = true).

Lemma match_origin_spec r config path scheme port origin :
  match_origin origin (cpp_allowed_origins (policy_for_path config path)) r scheme port
    = Some origin ∧ origin_accepted r config path scheme port origin ∨
  match_origin origin (cpp_allowed_origins (policy_for_path config path)) r scheme port
    = None ∧ ¬ origin_accepted r config path scheme port origin.
Proof.
  unfold match_origin, origin_accepted. destruct (existsb _ _) eqn:E.
  - left. split; [done|]. left. apply existsb_exists in E as (a & Ha & Hb).
    exists a. by rewrite list_elem_of_In.
  - assert (¬ ∃ allowed, allowed ∈ cpp_allowed_origins (policy_for_path config path) ∧
      eq_ignore_ascii_case (sanitize_default_port allowed) (sanitize_default_port origin) = true) as Hno.
    { intros (a & Ha & Hb). rewrite list_elem_of_In in Ha. apply not_true_iff_false in E. apply E.
      apply existsb_exists. eauto. }
    destruct (default_origin r scheme port) as [d|]; cbn; [|right; naive_solver].
    destruct (eq_ignore_ascii_case (sanitize_default_port d) (sanitize_default_port origin)) eqn:Ed;
      [left|right]; (split; [done|]); naive_solver congruence.
Qed.

(** The response headers an outcome carries. *)
Definition outcome_headers (o : CorsRequestOutcome) : option CorsResponseHeaders :=
  match o with Continue h => h | Respond _ h => Some h end.

(** A cross-origin answer never grants an origin the policy does not accept.
    An answer that names an origin names exactly the request's own, and the policy
    of the path accepts it; a request whose origin is not accepted gets a bare 403;
    an accepted preflight is answered, any other request goes on. *)
Theorem cors_answer_sound r config path scheme port :
  cc_enabled config = true → is_cors_request r = true →
  let outcome := evaluate_cors_request r config path scheme port in
  (∀ h o, outcome_headers outcome = Some h → crh_allow_origin h = Some o →
     first_request_header r "origin" = Some o ∧ origin_accepted r config path scheme port o) ∧
  (∀ o, first_request_header r "origin" = Some o →
     ¬ origin_accepted r config path scheme port o →
     outcome = Respond 403 CorsResponseHeaders_default) ∧
  (∀ o, first_request_header r "origin" = Some o → origin_accepted r config path scheme port o →
     ∃ h, crh_allow_origin h = Some o ∧
       crh_allow_methods h = cpp_allowed_methods (policy_for_path config path) ∧
       outcome = if is_preflight_request r then Respond 200 h else Continue (Some h)).
Proof.
  intros He Hc outcome. unfold outcome, evaluate_cors_request. rewrite He, Hc. cbn.
  destruct (first_request_header r "origin") as [o|]; cbn.
  - destruct (match_origin_spec r config path scheme port o) as [[-> Ha]|[-> Ha]]; cbn.
    + split_and!; [|naive_solver|].
      * intros h o' Hh Ho. destruct (is_preflight_request r); cbn in Hh; simplify_eq; cbn in Ho;
          by simplify_eq.
      * intros o' [= <-] _. eexists. split_and!; [..|destruct (is_preflight_request r); reflexivity]; done.
    + split_and!; [|naive_solver..]. intros h o' [= <-] Ho. done.
  - split_and!; [|done..]. intros h o' Hh Ho.
    destruct (is_preflight_request r); injection Hh as <-; done.
Qed.
End cors.

(** ** Origins as the Lambda runtime compares them *)

Module JavaCors.

(** [str::parse::<i32>]: an optional sign and digits, in range. *)
Definition parse_i32 (s : string) : option Z :=
  match bytes s with
  | a :: l =>
      let neg := (byte a =? 45)%N in
      let ds := if neg || (byte a =? 43)%N then l else a :: l in
      match ds with
      | [] => None
      | _ => n ← digits_value 0 ds;
             let z := if neg then (- Z.of_N n)%Z else Z.of_N n in
             if (-2147483648 <=? z)%Z && (z <=? 2147483647)%Z then Some z else None
      end
  | [] => None
  end.

(** [origin[from..]] and [origin[..to]]. *)
Definition slice_from (from : nat) (s : string) : string :=
  String.substring from (String.length s - from) s.
Definition slice_to (to : nat) (s : string) : string := String.substring 0 to s.

Inductive InvalidOrigin := invalid_origin.

Definition sanitize_default_port (origin : string) : result InvalidOrigin string :=
  match String.index 0 "://" origin with
  | None => Ok origin
  | Some scheme_end =>
      let scheme := slice_to scheme_end origin in
      let from := scheme_end + 3 in
      from ← (match String.index 0 "[" (slice_from from origin) with
              | Some bracket =>
                  end_ ← ok_or invalid_origin
                           (String.index 0 "]" (slice_from (from + bracket) origin));
                  Ok (from + bracket + end_)
              | None => Ok from
              end);
      match String.index 0 ":" (slice_from from origin) with
      | Some colon =>
          let colon := from + colon in
          port ← ok_or invalid_origin (parse_i32 (slice_from (colon + 1) origin));
          if bool_decide (scheme = "http") && (port =? 80)%Z
             || bool_decide (scheme = "https") && (port =? 443)%Z
          then Ok (slice_to colon origin) else Ok origin
      | None => Ok origin
      end
  end.

Definition origin_allowed (origin : string) (allowed : list string) : result InvalidOrigin bool :=
  match allowed with
  | [] => Ok false
  | _ =>
      sanitized ← sanitize_default_port origin;
      Ok (existsb (λ candidate, eq_ignore_ascii_case candidate sanitized) allowed)
  end.
End JavaCors.

(** ** Header rules *)

Record HeaderMutation := { hm_remove : list string; hm_update : gmap string string }.
Record HeaderPathPrefixConfig := { hp_request : HeaderMutation; hp_response : HeaderMutation }.
Record HeaderConfig := {
  hc_enabled : bool;
  hc_request : HeaderMutation;
  hc_response : HeaderMutation;
  hc_path_prefix_header : gmap string HeaderPathPrefixConfig;
}.

Section headers.
Context {W E : Type} `{!HeaderWriter W E}.

(** [apply_request_mutation] and [apply_response_mutation]: removals, then
    updates in the order of their names. *)
Definition apply_mutation (mutation : HeaderMutation) (w : W) : W * result E unit :=
  let w := foldl (λ w name, remove_header name w) w (hm_remove mutation) in
  insert_all (bt_iter (hm_update mutation)) w.

(** The mutation of all paths, then the one of the longest matching prefix. *)
Definition apply_header (select : HeaderPathPrefixConfig → HeaderMutation)
    (general : HeaderMutation) (config : HeaderConfig) (request_path : string) (w : W) :
    W * result E unit :=
  if negb (hc_enabled config) then (w, Ok ()) else
  match apply_mutation general w with
  | (w, Err e) => (w, Err e)
  | (w, Ok _) =>
      match best_prefix (hc_path_prefix_header config) request_path with
      | Some (_, prefix_config) => apply_mutation (select prefix_config) w
      | None => (w, Ok ())
      end
  end.

Definition apply_header_request (config : HeaderConfig) : string → W → W * result E unit :=
  apply_header hp_request (hc_request config) config.
Definition apply_header_response (config : HeaderConfig) : string → W → W * result E unit :=
  apply_header hp_response (hc_response config) config.
End headers.

(** Headers seen through their values: names compare without case, an insertion
    replaces, a removal removes. *)
Class LawfulHeaders (W E : Type) `{!HeaderWriter W E} := {
  header_value : W → string → option string;
  insert_law : ∀ n v w w' m, insert_header n v w = (w', Ok ()) →
    header_value w' m = if eq_ignore_ascii_case n m then Some v else header_value w m;
  remove_law : ∀ n w m,
    header_value (remove_header n w) m
    = if eq_ignore_ascii_case n m then None else header_value w m;
}.

(** The value a mutation gives a header: the last matching update, else nothing
    if a removal matches, else what it was. *)
Definition mutated (mutation : HeaderMutation) (name : string) (old : option string) :
    option string :=
  match last (filter (λ e, eq_ignore_ascii_case e.1 name = true) (bt_iter (hm_update mutation))) with
  | Some (_, v) => Some v
  | None => if existsb (λ n, eq_ignore_ascii_case n name) (hm_remove mutation) then None else old
  end.

Section lawful.
Context {W E : Type} `{!HeaderWriter W E} `{!LawfulHeaders W E}.

Lemma remove_all_value names w m :
  header_value (foldl (λ w name, remove_header name w) w names) m
  = if existsb (λ n, eq_ignore_ascii_case n m) names then None else header_value w m.
Proof.
  revert w. induction names as [|n names IH]; intros w; [done|]. cbn. rewrite IH, remove_law.
  destruct (eq_ignore_ascii_case n m); cbn; by case_match.
Qed.

Lemma insert_all_value entries w w' m :
  insert_all entries w = (w', Ok ()) →
  header_value w' m =
  match last (filter (λ e : string * string, eq_ignore_ascii_case e.1 m = true) entries) with
  | Some (_, v) => Some v
  | None => header_value w m
  end.
Proof.
  revert w. induction entries as [|[n v] entries IH]; intros w H; cbn in H; [by simplify_eq|].
  destruct (insert_header n v w) as [w1 [[]|e]] eqn:Hi; [|done].
  rewrite (IH _ H), (insert_law _ _ _ _ m Hi), filter_cons. cbn.
  destruct (eq_ignore_ascii_case n m).
  - rewrite decide_True by done.
    destruct (filter _ entries) as [|e es] eqn:Ef; [done|]. cbn [last].
    destruct (last (e :: es)) as [[? ?]|] eqn:El; [done|]. by apply last_None in El.
  - by rewrite decide_False.
Qed.

Lemma apply_mutation_value mutation w w' m :
  apply_mutation mutation w = (w', Ok ()) →
  header_value w' m = mutated mutation m (header_value w m).
Proof.
  unfold apply_mutation, mutated. intros H. rewrite (insert_all_value _ _ _ m H).
  by rewrite remove_all_value.
Qed.

(** Header rules have their declared effect on every header.  With an adapter
    whose headers behave as such, a successful application gives every header name
    the value the general rules and then the rules of the longest matching path
    prefix assign to it: the last matching update, else nothing if it is removed,
    else what it was; disabled rules change nothing. *)
Theorem header_rules_effect config path w w' m :
  apply_header_request config path w = (w', Ok ()) →
  header_value w' m =
  if negb (hc_enabled config) then header_value w m else
  let general := mutated (hc_request config) m (header_value w m) in
  match best_prefix (hc_path_prefix_header config) path with
  | Some (_, p) => mutated (hp_request p) m general
  | None => general
  end.
Proof.
  unfold apply_header_request, apply_header. intros H.
  destruct (hc_enabled config); cbn in *; [|by simplify_eq].
  destruct (apply_mutation (hc_request config) w) as [w1 [[]|e]] eqn:H1; [|done].
  rewrite <- (apply_mutation_value _ _ _ m H1).
  destruct (best_prefix (hc_path_prefix_header config) path) as [[? p]|].
  - by apply apply_mutation_value.
  - by simplify_eq.
Qed.
End lawful.
