(* ===== verification/GatewayExamples.v ===== *)
(** * Gateway policies at work

    Concrete headers, networks and clocks: the theorems of [ProxyTrust],
    [RateLimitFacts] and [Cors] applied to concrete values, and the run in which
    two windows share one counter. *)

From S2P Require Import Prelude RustStr GatewayCore IpAddr ProxyTrust RateLimit RateLimitFacts Cors.
From Stdlib Require Import Ascii.

(** ** Concrete parameters *)

#[local] Instance sample_http : HttpLib := {|
  HeaderMap := list (string * string);
  get_all h name := (filter (λ e, e.1 = name) h).*2;
  to_str v := Some v |}.

Definition ip_bits (a : IpAddr) : N :=
  match a with
  | V4 v => foldl (λ acc o, acc * 256 + o)%N 0%N [o1 v; o2 v; o3 v; o4 v]
  | V6 segments => foldl (λ acc s, acc * 65536 + s)%N 0%N segments
  end.
Definition ip_width (a : IpAddr) : N := match a with V4 _ => 32 | V6 _ => 128 end.
Definition make_net (a : IpAddr) (len : N) : option (IpAddr * N) :=
  if (len <=? ip_width a)%N then Some (a, len) else None.

#[local] Instance sample_nets : IpNetLib := {|
  IpNet := IpAddr * N;
  net_parse s := '(a, len) ← split_once "/" s;
                 a ← parse_ip a; len ← parse_uint 255 len; make_net a len;
  net_new := make_net;
  net_addr := fst;
  net_prefix_len := snd;
  net_contains n a :=
    (ip_width n.1 =? ip_width a)%N
    && (N.shiftr (ip_bits n.1) (ip_width a - n.2) =? N.shiftr (ip_bits a) (ip_width a - n.2))%N |}.

(** ** Proxies *)

Definition trusted : TrustedProxyPolicy :=
  ok_value TrustedProxyPolicy_default
    (TrustedProxyPolicy_new ["203.0.113.0/24"; "::ffff:192.0.2.0/120"]).
Definition proxy_peer : IpAddr := V4 (Ipv4 203 0 113 9).
Definition forwarded : HeaderMap :=
  [("x-forwarded-for", "spoofed, 198.51.100.7, 192.0.2.8")].

Lemma resolve_first_untrusted_witness :
  resolve trusted forwarded (Some proxy_peer) false = Ok (V4 (Ipv4 198 51 100 7)).
Proof.
  rewrite (resolve_first_untrusted trusted forwarded proxy_peer); [by vm_compute| |].
  - by vm_compute.
  - repeat constructor.
Defined.

Lemma resolve_not_spoofable_witness :
  client_hop trusted (V4 (Ipv4 198 51 100 7)) [" 192.0.2.8"; " 198.51.100.7"; "spoofed"].
Proof.
  destruct (resolve_not_spoofable trusted forwarded proxy_peer false (V4 (Ipv4 198 51 100 7)))
    as [(_ & H & _)|[(_ & _ & H)|(H & _)]].
  - by vm_compute.
  - by vm_compute in H.
  - replace (concat _) with [" 192.0.2.8"; " 198.51.100.7"; "spoofed"] in H by (by vm_compute).
    exact H.
  - discriminate H.
Defined.

Lemma trusted_networks_bounded_witness :
  length (networks trusted) = 2 ∧ length (networks trusted) ≤ 64.
Proof.
  split; [by vm_compute|].
  refine (proj1 (trusted_networks_bounded ["203.0.113.0/24"; "::ffff:192.0.2.0/120"] trusted _)).
  apply ok_value_eq. by vm_compute.
Defined.

(** ** Quotas *)

Definition quota (limit window : N) : LimitQuota := {| lq_limit := limit; lq_window_seconds := window |}.
Definition config_with (server : gmap string (list LimitQuota)) : LimitConfig :=
  {| lc_enabled := true; lc_concurrent_request := 0; lc_queue_size := 0; lc_error_code := 429;
     lc_rate_limit := []; lc_headers_always_set := false; lc_key := Server;
     lc_trusted_proxy_cidrs := []; lc_server := server; lc_address := ∅; lc_client := ∅;
     lc_user := ∅ |}.
Definition to_path (now : N) (path : string) : N * call :=
  (now, Request {| rq_headers := [] : HeaderMap; rq_principal := None : option (AuthPrincipal unit);
                   rq_path := path; rq_peer := None |}).

(** One quota of two requests per minute, and four requests. *)
Definition one_quota : LimitConfig := config_with {["/" := [quota 2 60]]}.
Definition four_calls : list (N * call) :=
  [to_path 10 "/a"; to_path 20 "/b"; to_path 30 "/a"; to_path 71 "/a"].

Lemma one_quota_uniform : uniform (RateLimitRuntime_new one_quota).1 "server" [quota 2 60] four_calls.
Proof.
  intros now c q allow Hin Ht.
  repeat (apply elem_of_cons in Hin as [Hin|Hin]; [injection Hin as -> ->; vm_compute in Ht; by simplify_eq|]).
  by apply elem_of_nil in Hin.
Qed.

Lemma rate_limit_enforced_witness :
  times_of (RateLimitRuntime_new one_quota).1 "server"
    (serve_all (RateLimitRuntime_new one_quota).1 ∅ four_calls).2 = [10; 20; 71]%N ∧
  (N.of_nat (window_count 75 60 (times_of (RateLimitRuntime_new one_quota).1 "server"
    (serve_all (RateLimitRuntime_new one_quota).1 ∅ four_calls).2)) <= 2)%N.
Proof.
  split; [by vm_compute|].
  refine (rate_limit_enforced one_quota four_calls "server" [quota 2 60] (quota 2 60) 75 _ _ _).
  - by vm_compute.
  - exact one_quota_uniform.
  - left.
Defined.

Definition before : Buckets := (serve_all (RateLimitRuntime_new one_quota).1 ∅ (take 2 four_calls)).1.

Lemma capacity_fails_closed_witness :
  (N.of_nat (size (check_bucket before "address:192.0.2.1" [quota 1 1] 30 false).1) <= 4096)%N.
Proof.
  apply (capacity_fails_closed one_quota (take 2 four_calls) (RateLimitRuntime_new one_quota).1 ∅
    "address:192.0.2.1" [quota 1 1] 30 false
    (check_bucket before "address:192.0.2.1" [quota 1 1] 30 false).1
    (check_bucket before "address:192.0.2.1" [quota 1 1] 30 false).2).
  - reflexivity.
  - apply surjective_pairing.
Defined.

(** The third request is told to wait 40 seconds, until the first one leaves the
    window. *)
Lemma retry_after_exact_witness :
  is_admitted (check_bucket (check_bucket before "server" [quota 2 60] 30 false).1 "server" [quota 2 60] 70 false).2
  = true.
Proof.
  apply (retry_after_exact one_quota (take 2 four_calls) (RateLimitRuntime_new one_quota).1 ∅
    "server" (quota 2 60) 30 (check_bucket before "server" [quota 2 60] 30 false).1 (quota 2 60) 2 [10; 20]%N).
  - reflexivity.
  - by vm_compute.
  - intros now c q allow Hin. apply one_quota_uniform with (now := now).
    rewrite <- (take_drop 2 four_calls). apply elem_of_app. left. exact Hin.
  - by vm_compute.
  - by vm_compute.
  - by vm_compute.
Defined.

(** ** Two windows in one bucket

    Paths with different quotas share the bucket of the server key, and each check
    discards the entries older than its own windows. *)

Definition two_windows : LimitConfig :=
  config_with {["/fast" := [quota 100 1]; "/slow" := [quota 2 3600]]}.
Definition interleaved : list (N * call) :=
  [to_path 10 "/slow"; to_path 20 "/fast"; to_path 30 "/slow"; to_path 40 "/fast";
   to_path 50 "/slow"; to_path 60 "/fast"; to_path 70 "/slow"].

(** The quota of two requests per hour lets four through within a minute, because
    each request to the other path prunes the shared bucket to its one-second
    window. *)
Lemma shared_bucket_forgets :
  times_of (RateLimitRuntime_new two_windows).1 "server"
    (List.filter (λ nc, match nc.2 with Request rq => bool_decide (rq_path rq = "/slow") | _ => false end)
      (serve_all (RateLimitRuntime_new two_windows).1 ∅ interleaved).2) = [10; 30; 50; 70]%N.
Proof. by vm_compute. Qed.

(** ** Cross-origin requests and header rules *)

(** A parser for the origins used here: scheme, host and optional port. *)
#[local] Instance sample_urls : UrlLib := λ s,
  match String.index 0 "://" s with
  | Some i =>
      let rest := String.substring (i + 3) (String.length s - (i + 3)) s in
      Some match split_once ":" rest with
           | Some (host, port) => {| url_scheme := String.substring 0 i s; url_host_str := Some host;
                                     url_port := parse_uint 65535 port |}
           | None => {| url_scheme := String.substring 0 i s; url_host_str := Some rest;
                        url_port := None |}
           end
  | None => None
  end.

Definition cors_config : CorsConfig :=
  {| cc_enabled := true; cc_allowed_origins := []; cc_allowed_methods := [];
     cc_path_prefix_allowed := {["/api" := {| cpp_allowed_origins := ["https://app.example"];
                                             cpp_allowed_methods := ["GET"; "POST"] |}]} |}.
Definition from_origin (origin : string) : RequestHead :=
  {| rh_headers := [("origin", origin); ("host", "api.example")] : HeaderMap; rh_method := "GET" |}.

Lemma cors_answer_sound_witness :
  (∃ h, outcome_headers (evaluate_cors_request (from_origin "https://APP.example:443") cors_config
          "/api/x" "https" 443) = Some h ∧
        crh_allow_origin h = Some "https://APP.example:443") ∧
  evaluate_cors_request (from_origin "https://evil.example") cors_config "/api/x" "https" 443
    = Respond 403 CorsResponseHeaders_default.
Proof.
  split.
  - destruct (cors_answer_sound (from_origin "https://APP.example:443") cors_config "/api/x" "https" 443)
      as (_ & _ & H); [reflexivity|by vm_compute|].
    destruct (H "https://APP.example:443") as (h & H1 & _ & H2); [by vm_compute| |].
    + left. exists "https://app.example". split; [left|by vm_compute].
    + exists h. rewrite H2. split; [by vm_compute|exact H1].
  - by vm_compute.
Defined.

(** Headers as an association list with names compared without case. *)
#[local] Instance sample_writer : HeaderWriter (list (string * string)) string := {|
  insert_header n v w :=
    ((n, v) :: List.filter (λ e, negb (eq_ignore_ascii_case n e.1)) w, Ok ());
  remove_header n w := List.filter (λ e, negb (eq_ignore_ascii_case n e.1)) w |}.

Fixpoint sample_value (w : list (string * string)) (m : string) : option string :=
  match w with
  | [] => None
  | (k, v) :: w' => if eq_ignore_ascii_case k m then Some v else sample_value w' m
  end.

Lemma sample_value_filter n w m :
  sample_value (List.filter (λ e, negb (eq_ignore_ascii_case n e.1)) w) m
  = if eq_ignore_ascii_case n m then None else sample_value w m.
Proof.
  induction w as [|[k v] w IH]; cbn; [by case_match|].
  destruct (eq_ignore_ascii_case n k) eqn:Hn; cbn; rewrite IH; clear IH;
    destruct (eq_ignore_ascii_case n m) eqn:Hm, (eq_ignore_ascii_case k m) eqn:Hk; try done;
    unfold eq_ignore_ascii_case in *; bool_prop; congruence.
Qed.

#[local] Instance sample_lawful : LawfulHeaders (list (string * string)) string.
Proof.
  refine {| header_value := sample_value |}.
  - intros n v w w' m [= <-]. cbn. destruct (eq_ignore_ascii_case n m) eqn:E; [done|].
    by rewrite sample_value_filter, E.
  - intros. apply sample_value_filter.
Defined.

Definition header_config : HeaderConfig :=
  {| hc_enabled := true;
     hc_request := {| hm_remove := ["Cookie"]; hm_update := {["X-Env" := "test"]} |};
     hc_response := {| hm_remove := []; hm_update := ∅ |};
     hc_path_prefix_header :=
       {["/api" := {| hp_request := {| hm_remove := []; hm_update := {["x-env" := "api"]} |};
                      hp_response := {| hm_remove := []; hm_update := ∅ |} |}]} |}.
Definition incoming : list (string * string) := [("cookie", "secret"); ("accept", "*/*")].

Lemma header_rules_effect_witness :
  header_value (apply_header_request header_config "/api/x" incoming).1 "X-ENV" = Some "api" ∧
  header_value (apply_header_request header_config "/api/x" incoming).1 "cookie" = None.
Proof.
  assert (H : apply_header_request header_config "/api/x" incoming
    = ((apply_header_request header_config "/api/x" incoming).1, Ok ())) by (by vm_compute).
  split.
  - rewrite (header_rules_effect header_config "/api/x" incoming _ "X-ENV" H). by vm_compute.
  - rewrite (header_rules_effect header_config "/api/x" incoming _ "cookie" H). by vm_compute.
Defined.
