(* ===== verification/InferenceError.v ===== *)
(** * Errors of a model provider

    Model of [crates/model-provider/src/inference/error.rs]: the categories of a failed
    request, whether it may be retried, and what is known about its acceptance by the
    provider.  The parser of an HTTP date and the clock are arguments; instants are
    nanoseconds since the epoch. *)

From S2P Require Import Prelude RustStr.

Inductive InferenceErrorCategory :=
| InvalidRequest | Authentication | PermissionDenied | RateLimited | TimeoutBeforeAcceptance
| TimeoutAfterPossibleAcceptance | ProviderOverload | Network | SecurityInvariant | Protocol
| Cancelled_ | UnsupportedFeature.

Inductive RetryDisposition := Never | Safe | Conditional.
#[global] Instance RetryDisposition_eq_dec : EqDecision RetryDisposition.
Proof. solve_decision. Defined.

Inductive AcceptanceEvidence := NotAccepted | PossiblyAccepted | Accepted.
#[global] Instance AcceptanceEvidence_eq_dec : EqDecision AcceptanceEvidence.
Proof. solve_decision. Defined.

Record InferenceError := {
  ie_category : InferenceErrorCategory;
  ie_provider_status : option N;
  ie_retry : RetryDisposition;
  ie_acceptance : AcceptanceEvidence;
  ie_retry_after_ms : option N;
  ie_detail : string;
}.

(** ** Constructors *)

Definition error_of (category : InferenceErrorCategory) (status : option N) (retry : RetryDisposition)
    (acceptance : AcceptanceEvidence) (detail : string) : InferenceError :=
  {| ie_category := category; ie_provider_status := status; ie_retry := retry; ie_acceptance := acceptance;
     ie_retry_after_ms := None; ie_detail := detail |}.
Definition invalid_request (detail : string) : InferenceError :=
  error_of InvalidRequest None Never NotAccepted detail.
Definition model_not_found (status : N) (detail : string) : InferenceError :=
  error_of InvalidRequest (Some status) Safe NotAccepted detail.
Definition unsupported (detail : string) : InferenceError :=
  error_of UnsupportedFeature None Never NotAccepted detail.
Definition cancelled : InferenceError :=
  error_of Cancelled_ None Never PossiblyAccepted "provider request cancelled".
Definition timeout_before_acceptance : InferenceError :=
  error_of TimeoutBeforeAcceptance None Safe NotAccepted "provider timed out before acceptance".
Definition timeout_after_possible_acceptance : InferenceError :=
  error_of TimeoutAfterPossibleAcceptance None Conditional PossiblyAccepted
    "provider timed out after possible acceptance".
Definition network (detail : string) : InferenceError :=
  error_of Network None Conditional PossiblyAccepted detail.
Definition security_invariant (detail : string) : InferenceError :=
  error_of SecurityInvariant None Never NotAccepted detail.
Definition provider_protocol (status : option N) (detail : string) : InferenceError :=
  error_of Protocol status Never PossiblyAccepted detail.
Definition protocol (detail : string) : InferenceError := provider_protocol None detail.

Section status.
Context (parse_from_rfc2822 : string → option Z) (now : Z).

Definition parse_retry_after (value : string) : option N :=
  match parse_uint u64_max (trim value) with
  | Some seconds => checked_mul u64_max seconds 1000
  | None =>
      target ← parse_from_rfc2822 (trim value);
      let millis := Z.to_N (Z.max 0 (target - now) / 1000000) in
      if (millis <=? u64_max)%N then Some millis else None
  end.

Definition status_disposition (status : N) :
    InferenceErrorCategory * RetryDisposition * AcceptanceEvidence :=
  if bool_decide (status ∈ [400; 404; 409; 422]%N) then (InvalidRequest, Never, NotAccepted)
  else if (status =? 401)%N then (Authentication, Never, NotAccepted)
  else if (status =? 403)%N then (PermissionDenied, Never, NotAccepted)
  else if (status =? 429)%N then (RateLimited, Safe, NotAccepted)
  else if in_range 500 599 status then (ProviderOverload, Conditional, PossiblyAccepted)
  else (Protocol, Never, PossiblyAccepted).
Definition from_status (status : N) (retry_after : option string) (detail : string) : InferenceError :=
  let '(category, retry, acceptance) := status_disposition status in
  {| ie_category := category; ie_provider_status := Some status; ie_retry := retry;
     ie_acceptance := acceptance; ie_retry_after_ms := retry_after ≫= parse_retry_after;
     ie_detail := detail |}.

(** The errors of the crate. *)
Inductive raised : InferenceError → Prop :=
  | raised_invalid_request d : raised (invalid_request d)
  | raised_model_not_found s d : raised (model_not_found s d)
  | raised_unsupported d : raised (unsupported d)
  | raised_cancelled : raised cancelled
  | raised_timeout_before : raised timeout_before_acceptance
  | raised_timeout_after : raised timeout_after_possible_acceptance
  | raised_network d : raised (network d)
  | raised_security_invariant d : raised (security_invariant d)
  | raised_protocol s d : raised (provider_protocol s d)
  | raised_status s r d : raised (from_status s r d).

(** A request is offered for a retry elsewhere only when its provider has not accepted it. *)
Lemma safe_retry_not_accepted e : raised e → ie_retry e = Safe → ie_acceptance e = NotAccepted.
Proof.
  destruct 1; try done. unfold from_status, status_disposition. by repeat case_match; simplify_eq/=.
Qed.
End status.
