(* ===== verification/LlmError.v ===== *)
(** * Errors of the LLM gateway

    Model of [crates/llm-gateway/src/error.rs] and of the error of
    [crates/llm-gateway/src/reasoning_seal.rs]: the errors of the gateway and the status and
    code a client sees. *)

From S2P Require Import Prelude InferenceError.

Inductive ReasoningSealError :=
| Disabled | TooLarge | TooManyItems | Invalid | Required | Tampered | Stale | RouteUnavailable
| KeyUnavailable | KeyConfigInvalid.
Definition ReasoningSealError_code (error : ReasoningSealError) : string :=
  match error with
  | Disabled => "reasoning_state_disabled"
  | TooLarge => "reasoning_state_too_large"
  | TooManyItems => "reasoning_state_too_many_items"
  | Invalid => "reasoning_state_invalid"
  | Required => "reasoning_state_required"
  | Tampered => "reasoning_state_tampered"
  | Stale => "reasoning_state_stale"
  | RouteUnavailable => "reasoning_route_unavailable"
  | KeyUnavailable => "reasoning_key_unavailable"
  | KeyConfigInvalid => "reasoning_key_config_invalid"
  end.

Inductive LlmGatewayError :=
| Config (message : string)
| RouteNotFound
| AliasNotFound
| UnsupportedCapability (message : string)
| NoReadyDeployment
| Invariant (message : string)
| Forbidden
| InvalidRequest (message : string)
| MethodNotAllowed
| UnsupportedMediaType
| PayloadTooLarge
| Capacity
| Budget
| AuditUnavailable
| ProviderUnavailable
| Provider (error : InferenceError)
| ReasoningState (error : ReasoningSealError).

Record PublicErrorMapping := { pm_status : N; pm_code : string }.
Definition public (status : N) (code : string) : PublicErrorMapping := {| pm_status := status; pm_code := code |}.

Definition provider_public_mapping (category : InferenceErrorCategory) : PublicErrorMapping :=
  match category with
  | InferenceError.InvalidRequest | UnsupportedFeature => public 400 "provider_error"
  | Authentication | PermissionDenied => public 502 "provider_error"
  | RateLimited => public 429 "rate_limit_exceeded"
  | TimeoutBeforeAcceptance | TimeoutAfterPossibleAcceptance => public 504 "provider_error"
  | ProviderOverload | Network | SecurityInvariant | Protocol | Cancelled_ => public 502 "provider_error"
  end.

Definition public_mapping (error : LlmGatewayError) : PublicErrorMapping :=
  match error with
  | InvalidRequest _ => public 400 "invalid_request"
  | MethodNotAllowed => public 405 "method_not_allowed"
  | UnsupportedMediaType => public 415 "unsupported_media_type"
  | PayloadTooLarge => public 413 "payload_too_large"
  | Forbidden => public 403 "permission_denied"
  | RouteNotFound => public 404 "route_not_found"
  | AliasNotFound => public 404 "model_not_found"
  | UnsupportedCapability _ => public 400 "unsupported_feature"
  | NoReadyDeployment => public 503 "model_unavailable"
  | Invariant _ => public 500 "internal_error"
  | Capacity => public 429 "capacity_exhausted"
  | Budget => public 429 "budget_exhausted"
  | Provider error => provider_public_mapping (ie_category error)
  | ReasoningState error =>
      match error with
      | TooLarge => public 413 (ReasoningSealError_code error)
      | RouteUnavailable => public 409 (ReasoningSealError_code error)
      | KeyUnavailable | KeyConfigInvalid | Disabled => public 503 (ReasoningSealError_code error)
      | TooManyItems | Invalid | Required | Tampered | Stale => public 400 (ReasoningSealError_code error)
      end
  | Config _ | AuditUnavailable | ProviderUnavailable => public 503 "service_unavailable"
  end.
Definition public_status (error : LlmGatewayError) : N := pm_status (public_mapping error).
Definition public_code (error : LlmGatewayError) : string := pm_code (public_mapping error).

(** A failure of the provider's credentials never looks like one of the client's. *)
Lemma provider_credentials_hidden e :
  ie_category e = Authentication ∨ ie_category e = PermissionDenied → public_status (Provider e) = 502%N.
Proof. unfold public_status, public_mapping. by intros [-> | ->]. Qed.
