(* ===== verification/Circuit.v ===== *)
(** * The passive circuit breaker of the LLM gateway

    Model of [crates/llm-gateway/src/routing/mod.rs].  Each method of the circuit
    is one step; a permit is live from [acquire] until it reports a success or a
    failure or is dropped.  Times are milliseconds since the circuit's epoch
    ([elapsed_ms]), durations are nanoseconds. *)

From S2P Require Import Prelude RustStr InferenceError.

(** ** Errors of a provider *)

Definition circuit_failure (error : InferenceError) : bool :=
  match ie_category error with
  | RateLimited | ProviderOverload | Network | TimeoutBeforeAcceptance
  | TimeoutAfterPossibleAcceptance => true
  | _ => false
  end.

Definition retryable (error : InferenceError) : bool := bool_decide (ie_retry error = Safe).

(** ** Durations *)

Definition from_millis (ms : N) : N := ms * 1000000.
Definition as_millis (nanos : N) : N := nanos / 1000000.
(** [as_millis().min(u64::MAX as u128) as u64]. *)
Definition clamp_u64 (n : N) : N := N.min n u64_max.
(** [elapsed_ms]: instants are nanoseconds on one clock. *)
Definition elapsed_ms (epoch now : N) : N := clamp_u64 (as_millis (now - epoch)).

(** ** The circuit *)

Record PassiveCircuit := {
  pc_threshold : N;
  pc_cooldown : N;
  pc_epoch : N;
  pc_failures : N;
  pc_open_until_ms : N;
  pc_probe_active : bool;
}.

(** A permit, and whether it is the half-open probe. *)
Record CircuitPermit := { cp_half_open : bool }.

Definition PassiveCircuit_new (threshold cooldown epoch : N) : PassiveCircuit :=
  {| pc_threshold := N.max threshold 1; pc_cooldown := cooldown; pc_epoch := epoch;
     pc_failures := 0; pc_open_until_ms := 0; pc_probe_active := false |}.

Definition store (failures open_until_ms : N) (probe_active : bool) (c : PassiveCircuit) :
    PassiveCircuit :=
  {| pc_threshold := pc_threshold c; pc_cooldown := pc_cooldown c; pc_epoch := pc_epoch c;
     pc_failures := failures; pc_open_until_ms := open_until_ms; pc_probe_active := probe_active |}.

Definition acquire (c : PassiveCircuit) (now : N) : PassiveCircuit * option CircuitPermit :=
  let until := pc_open_until_ms c in
  if (until =? 0)%N then (c, Some {| cp_half_open := false |})
  else if (elapsed_ms (pc_epoch c) now <? until)%N then (c, None)
  else if pc_probe_active c then (c, None)
  else (store (pc_failures c) until true c, Some {| cp_half_open := true |}).

(** [acquire_owned]: the same decision; an [OwnedCircuitPermit] holds the circuit by
    [Arc] and reports and drops like the borrowed permit. *)
Definition acquire_owned (c : PassiveCircuit) (now : N) : PassiveCircuit * option CircuitPermit :=
  let until := pc_open_until_ms c in
  if (until =? 0)%N then (c, Some {| cp_half_open := false |}) else
  if (elapsed_ms (pc_epoch c) now <? until)%N then (c, None) else
  match pc_probe_active c with
  | true => (c, None)
  | false => (store (pc_failures c) until true c, Some {| cp_half_open := true |})
  end.

Lemma acquire_owned_same c now : acquire_owned c now = acquire c now.
Proof. done. Qed.

Definition success (c : PassiveCircuit) : PassiveCircuit := store 0 0 false c.

Definition failure (c : PassiveCircuit) (error : InferenceError) (now : N) : PassiveCircuit :=
  if negb (circuit_failure error) then c else
  let failures := wrap_add u32_max (pc_failures c) 1 in
  if (pc_threshold c <=? failures)%N || negb (pc_open_until_ms c =? 0)%N then
    let retry_after := N.max (default (pc_cooldown c) (from_millis <$> ie_retry_after_ms error))
                         (pc_cooldown c) in
    let until := N.max (sat_add u64_max (elapsed_ms (pc_epoch c) now)
                          (clamp_u64 (as_millis retry_after))) 1 in
    store failures until false c
  else store failures (pc_open_until_ms c) (pc_probe_active c) c.

(** [Drop] of a permit. *)
Definition drop_permit (c : PassiveCircuit) (p : CircuitPermit) : PassiveCircuit :=
  if cp_half_open p then store (pc_failures c) (pc_open_until_ms c) false c else c.

(** [CircuitPermit::success] and [failure] consume the permit, which is then dropped. *)
Definition permit_success (c : PassiveCircuit) (p : CircuitPermit) : PassiveCircuit :=
  drop_permit (success c) p.
Definition permit_failure (c : PassiveCircuit) (p : CircuitPermit) (error : InferenceError)
    (now : N) : PassiveCircuit :=
  drop_permit (failure c error now) p.

(** ** Opening *)

(** The circuit after a series of circuit failures at given times. *)
Definition fail_all (c : PassiveCircuit) (failures : list (InferenceError * N)) : PassiveCircuit :=
  foldl (λ c '(e, now), failure c e now) c failures.

Definition is_open (c : PassiveCircuit) (now : N) : Prop :=
  (elapsed_ms (pc_epoch c) now < pc_open_until_ms c)%N.

Lemma failure_counts c e now :
  circuit_failure e = true → (pc_failures c < u32_max)%N →
  pc_failures (failure c e now) = (pc_failures c + 1)%N ∧
  pc_threshold (failure c e now) = pc_threshold c ∧
  pc_epoch (failure c e now) = pc_epoch c ∧ pc_cooldown (failure c e now) = pc_cooldown c.
Proof.
  intros He Hf. unfold failure. rewrite He. cbn -[N.leb].
  rewrite wrap_add_small by lia. by case_match.
Qed.

Lemma fail_all_counts c fs :
  Forall (λ en, circuit_failure en.1 = true) fs →
  (pc_failures c + N.of_nat (length fs) < u32_max)%N →
  pc_failures (fail_all c fs) = (pc_failures c + N.of_nat (length fs))%N ∧
  pc_threshold (fail_all c fs) = pc_threshold c ∧
  pc_epoch (fail_all c fs) = pc_epoch c ∧ pc_cooldown (fail_all c fs) = pc_cooldown c.
Proof.
  intros Hall. revert c. induction Hall as [|[e now] fs He _ IH]; intros c Hlt; cbn in *.
  { split_and!; [lia|done..]. }
  destruct (failure_counts c e now He ltac:(lia)) as (H1 & H2 & H3 & H4).
  destruct (IH (failure c e now)) as (K1 & K2 & K3 & K4); [lia|].
  unfold fail_all in *. split_and!; [rewrite K1; lia|congruence..].
Qed.

Lemma fail_all_closed c fs :
  Forall (λ en, circuit_failure en.1 = true) fs → pc_open_until_ms c = 0%N →
  (pc_failures c + N.of_nat (length fs) < pc_threshold c)%N → (pc_threshold c <= u32_max)%N →
  pc_open_until_ms (fail_all c fs) = 0%N.
Proof.
  intros Hall. revert c. induction Hall as [|[e now] fs He _ IH]; intros c Hu Hlt Hm; cbn in *; [done|].
  apply IH.
  - unfold failure. rewrite He. cbn -[N.leb]. rewrite wrap_add_small, Hu by lia. cbn -[N.leb].
    destruct (pc_threshold c <=? pc_failures c + 1)%N eqn:E; cbn -[N.leb]; bool_prop; [lia|done].
  - destruct (failure_counts c e now He ltac:(lia)) as (-> & -> & _). lia.
  - destruct (failure_counts c e now He ltac:(lia)) as (_ & -> & _). done.
Qed.

(** The circuit opens after exactly [threshold] circuit failures without a
    success.  Fewer leave it closed, so requests are admitted; with the last one
    it refuses every request for at least the cooldown, or the provider's longer
    [retry_after], counted from that failure. *)
Theorem circuit_opens_at_threshold threshold cooldown epoch fs e now later :
  Forall (λ en, circuit_failure en.1 = true) fs → circuit_failure e = true →
  N.of_nat (length fs) = (N.max threshold 1 - 1)%N → (N.max threshold 1 < u32_max)%N →
  (elapsed_ms epoch now + clamp_u64 (as_millis
     (N.max (default cooldown (from_millis <$> ie_retry_after_ms e)) cooldown)) <= u64_max)%N →
  let before := fail_all (PassiveCircuit_new threshold cooldown epoch) fs in
  let opened := failure before e now in
  (acquire before later).2 = Some {| cp_half_open := false |} ∧
  ((elapsed_ms epoch later < elapsed_ms epoch now + clamp_u64 (as_millis
     (N.max (default cooldown (from_millis <$> ie_retry_after_ms e)) cooldown)))%N →
   (acquire opened later).2 = None).
Proof.
  intros Hall He Hlen Hm Hsat before opened.
  destruct (fail_all_counts (PassiveCircuit_new threshold cooldown epoch) fs Hall) as (Hf & Ht & Hep & Hcd);
    [cbn; lia|].
  pose proof (fail_all_closed (PassiveCircuit_new threshold cooldown epoch) fs Hall eq_refl) as Hu.
  cbn -[N.max] in *. specialize (Hu ltac:(lia) ltac:(lia)). fold before in Hf, Ht, Hep, Hcd, Hu.
  split.
  - unfold acquire. by rewrite Hu.
  - intros Hlt. unfold opened, failure. rewrite He. cbn -[N.leb N.max].
    rewrite wrap_add_small, Hf, Ht by lia.
    assert ((N.max threshold 1 <=? 0 + N.of_nat (length fs) + 1)%N = true) as -> by (apply N.leb_le; lia).
    cbn -[N.leb N.max]. unfold acquire. cbn -[N.max N.eqb N.ltb]. rewrite Hep, Hcd.
    set (until := N.max _ 1).
    assert (elapsed_ms epoch later < until)%N as Hl by (unfold until, sat_add in *; lia).
    rewrite (proj2 (N.eqb_neq until 0)) by lia. by rewrite (proj2 (N.ltb_lt _ _) Hl).
Qed.

(** ** Probes *)

(** A circuit with its live permits and the number of stale reports so far: a
    permit issued by a closed circuit that reports to an open one. *)
Record system := {
  sy_circuit : PassiveCircuit;
  sy_live : list CircuitPermit;
  sy_stale : nat;
}.

Definition stale (c : PassiveCircuit) (p : CircuitPermit) : nat :=
  if negb (cp_half_open p) && negb (pc_open_until_ms c =? 0)%N then 1 else 0.

Inductive circuit_step : relation system :=
| step_acquire c live n now c' p (owned : bool) :
    (if owned then acquire_owned c now else acquire c now) = (c', Some p) →
    circuit_step {| sy_circuit := c; sy_live := live; sy_stale := n |}
                 {| sy_circuit := c'; sy_live := p :: live; sy_stale := n |}
| step_success c l1 p l2 n :
    circuit_step {| sy_circuit := c; sy_live := l1 ++ p :: l2; sy_stale := n |}
                 {| sy_circuit := permit_success c p; sy_live := l1 ++ l2; sy_stale := n + stale c p |}
| step_failure c l1 p l2 n e now :
    circuit_step {| sy_circuit := c; sy_live := l1 ++ p :: l2; sy_stale := n |}
                 {| sy_circuit := permit_failure c p e now; sy_live := l1 ++ l2;
                    sy_stale := n + stale c p |}
| step_drop c l1 p l2 n :
    circuit_step {| sy_circuit := c; sy_live := l1 ++ p :: l2; sy_stale := n |}
                 {| sy_circuit := drop_permit c p; sy_live := l1 ++ l2; sy_stale := n |}.

Definition probes (live : list CircuitPermit) : nat :=
  length (filter (λ p, cp_half_open p = true) live).
Arguments probes : simpl never.

Record probe_inv (s : system) : Prop := {
  pi_bound : probes (sy_live s) ≤ sy_stale s + (if pc_probe_active (sy_circuit s) then 1 else 0);
  pi_closed : pc_open_until_ms (sy_circuit s) = 0%N → pc_probe_active (sy_circuit s) = false;
}.

Lemma probes_middle l1 p l2 :
  probes (l1 ++ p :: l2) = probes (l1 ++ l2) + (if cp_half_open p then 1 else 0).
Proof.
  unfold probes. rewrite !filter_app, !length_app, filter_cons.
  destruct (cp_half_open p); case_decide; cbn; lia || done.
Qed.

(** Reporting to a closed circuit finds no probe to disturb; a report to an open
    one by a permit that is no probe is stale. *)
Lemma probe_inv_report c c' l1 p l2 n :
  probe_inv {| sy_circuit := c; sy_live := l1 ++ p :: l2; sy_stale := n |} →
  (pc_open_until_ms c' = 0%N → pc_probe_active c' = false) →
  (cp_half_open p = true → pc_probe_active c' = false) →
  (pc_open_until_ms c = 0%N → pc_probe_active c' = false) →
  probe_inv {| sy_circuit := c'; sy_live := l1 ++ l2; sy_stale := n + stale c p |}.
Proof.
  intros [Hb Hc] H1 H2 H3. split; [|done]. cbn in *. rewrite probes_middle in Hb. unfold stale.
  destruct (cp_half_open p) eqn:Hp; cbn.
  - rewrite H2 by done. destruct (pc_probe_active c); lia.
  - destruct (pc_open_until_ms c =? 0)%N eqn:E; cbn; bool_prop.
    + rewrite Hc in Hb by done. lia.
    + destruct (pc_probe_active c), (pc_probe_active c'); lia.
Qed.

Lemma failure_probe c e now :
  (pc_open_until_ms c = 0%N → pc_probe_active c = false) →
  (pc_open_until_ms (failure c e now) = 0%N → pc_probe_active (failure c e now) = false) ∧
  (pc_open_until_ms c = 0%N → pc_probe_active (failure c e now) = false).
Proof.
  intros Hc. unfold failure. case_match; [done|]. cbv zeta. case_match; cbn; done.
Qed.

Lemma circuit_step_inv s s' : probe_inv s → circuit_step s s' → probe_inv s'.
Proof.
  intros Hinv Hstep. destruct Hstep as [c live n now c' p owned Ha|c l1 p l2 n|c l1 p l2 n e now|c l1 p l2 n].
  - replace (if owned then acquire_owned c now else acquire c now) with (acquire c now) in Ha
      by (by destruct owned).
    unfold acquire in Ha. destruct Hinv as [Hb Hc]. cbn in *.
    destruct (pc_open_until_ms c =? 0)%N eqn:E0; [|destruct (_ <? _)%N; [done|]];
      [|destruct (pc_probe_active c) eqn:Ep; [done|]]; injection Ha as <- <-.
    + split; [|done]. cbn. pose proof (probes_middle [] {| cp_half_open := false |} live) as Hm. cbn in Hm. lia.
    + split; [|intros Hu; by bool_prop]. cbn.
      pose proof (probes_middle [] {| cp_half_open := true |} live) as Hm. cbn in Hm. lia.
  - eapply probe_inv_report; [done|unfold permit_success, drop_permit; by case_match..].
  - destruct (failure_probe c e now (pi_closed _ Hinv)) as [H1 H2].
    eapply probe_inv_report; [done|unfold permit_failure, drop_permit; case_match; by auto..].
  - destruct Hinv as [Hb Hc]. cbn in *. rewrite probes_middle in Hb.
    unfold drop_permit. destruct (cp_half_open p); split; cbn; try done.
    + destruct (pc_probe_active c); lia.
    + lia.
Qed.

(** In any interleaving of requests, the number of half-open probes in flight
    is at most one more than the number of stale reports, that is, of requests
    admitted before the circuit opened that report after it opened.  With no such
    report there is at most one probe. *)
Theorem probes_bounded threshold cooldown epoch s :
  rtc circuit_step {| sy_circuit := PassiveCircuit_new threshold cooldown epoch;
                      sy_live := []; sy_stale := 0 |} s →
  probes (sy_live s) ≤ sy_stale s + 1.
Proof.
  intros H. apply (rtc_invariant _ probe_inv) in H as [Hb _]; [|intros; by eapply circuit_step_inv|].
  - destruct (pc_probe_active (sy_circuit s)); lia.
  - by split.
Qed.

(** ** A second probe *)

Definition overload : InferenceError :=
  {| ie_category := ProviderOverload; ie_provider_status := None; ie_retry := Never;
     ie_acceptance := NotAccepted; ie_retry_after_ms := None; ie_detail := "" |}.
Definition ms (n : N) : N := n * 1000000.
Definition closed_permit : CircuitPermit := {| cp_half_open := false |}.
Definition probe_permit : CircuitPermit := {| cp_half_open := true |}.

(** A circuit with threshold one and a ten millisecond cooldown. *)
Definition c0 : PassiveCircuit := PassiveCircuit_new 1 (ms 10) 0.
(** Two requests are admitted; the first fails at 0 ms and opens the circuit. *)
Definition c1 : PassiveCircuit := permit_failure c0 closed_permit overload 0.
(** At 20 ms a probe is admitted; the second request fails and reopens. *)
Definition c2 : PassiveCircuit := (acquire c1 (ms 20)).1.
Definition c3 : PassiveCircuit := permit_failure c2 closed_permit overload (ms 20).
(** At 40 ms, with the first probe still in flight, another one is admitted. *)
Definition c4 : PassiveCircuit := (acquire c3 (ms 40)).1.

Lemma second_probe_run :
  rtc circuit_step {| sy_circuit := c0; sy_live := []; sy_stale := 0 |}
    {| sy_circuit := c4; sy_live := [probe_permit; probe_permit]; sy_stale := 1 |}.
Proof.
  eapply rtc_l; [apply (step_acquire c0 [] 0 0 c0 closed_permit false); by vm_compute|].
  eapply rtc_l; [apply (step_acquire c0 _ 0 0 c0 closed_permit false); by vm_compute|].
  eapply rtc_l; [apply (step_failure c0 [] closed_permit [closed_permit] 0 overload 0)|].
  eapply rtc_l; [apply (step_acquire c1 _ _ (ms 20) c2 probe_permit false); by vm_compute|].
  eapply rtc_l; [apply (step_failure c2 [probe_permit] closed_permit [] _ overload (ms 20))|].
  eapply rtc_l; [apply (step_acquire c3 _ _ (ms 40) c4 probe_permit false); by vm_compute|]. done.
Qed.

(** Two half-open probes are in flight at once after one stale failure. *)
Lemma two_probes_in_flight :
  ∃ s, rtc circuit_step {| sy_circuit := PassiveCircuit_new 1 (ms 10) 0; sy_live := [];
                           sy_stale := 0 |} s ∧ probes (sy_live s) = 2.
Proof. eexists. split; [exact second_probe_run|]. by vm_compute. Qed.

Lemma probes_bounded_witness : probes [probe_permit; probe_permit] ≤ 1 + 1.
Proof.
  apply (probes_bounded 1 (ms 10) 0
    {| sy_circuit := c4; sy_live := [probe_permit; probe_permit]; sy_stale := 1 |}).
  exact second_probe_run.
Defined.

Lemma circuit_opens_at_threshold_witness :
  (acquire (fail_all (PassiveCircuit_new 2 (ms 10) 0) [(overload, 0%N)]) (ms 5)).2 = Some closed_permit ∧
  (acquire (failure (fail_all (PassiveCircuit_new 2 (ms 10) 0) [(overload, 0%N)]) overload (ms 3)) (ms 5)).2
    = None.
Proof.
  destruct (circuit_opens_at_threshold 2 (ms 10) 0 [(overload, 0%N)] overload (ms 3) (ms 5)) as [H1 H2].
  - by repeat constructor.
  - reflexivity.
  - reflexivity.
  - by vm_compute.
  - by vm_compute.
  - split; [exact H1|]. apply H2. by vm_compute.
Defined.
