(* ===== verification/Usage.v ===== *)
(** * Usage accounting of the LLM gateway

    Model of [crates/llm-gateway/src/usage/mod.rs]: prices and costs, the
    reservation envelope of several attempts, and the budget ledger under
    interleaved requests, one step per atomic operation. *)

From S2P Require Import Prelude RustStr InferenceError LlmError Circuit.

(** ** Prices *)

Record GenerationPrice := {
  gp_version : N;
  gp_input_micros_per_million : N;
  gp_output_micros_per_million : N;
}.
Record EmbeddingPrice := { ep_version : N; ep_input_micros_per_million : N }.
Inductive OperationPrice := Generate (p : GenerationPrice) | Embed (p : EmbeddingPrice).
Definition OperationPrice_version (p : OperationPrice) : N :=
  match p with Generate v => gp_version v | Embed v => ep_version v end.

(** The errors this module returns. *)
Definition cost (price : GenerationPrice) (input_tokens output_tokens : N) : N :=
  sat_add u64_max
    (sat_add u64_max (sat_mul u64_max input_tokens (gp_input_micros_per_million price))
       (sat_mul u64_max output_tokens (gp_output_micros_per_million price)))
    999999 / 1000000.

Definition cost_embedding (price : EmbeddingPrice) (input_tokens output_tokens : N) :
    result LlmGatewayError N :=
  if negb (output_tokens =? 0)%N then Err (Invariant "embedding usage reported output tokens") else
  scaled ← ok_or (Invariant "embedding cost arithmetic overflow")
             (value ← checked_mul u64_max input_tokens (ep_input_micros_per_million price);
              checked_add u64_max value 999999);
  Ok (scaled / 1000000)%N.

Definition worst_case_cost (price : GenerationPrice) (input_tokens output_tokens attempts : N) : N :=
  sat_mul u64_max (cost price input_tokens output_tokens) attempts.

(** ** Attempts *)

#[local] Instance ge_dec : RelDecision (λ a b : N, (b <= a)%N).
Proof. intros a b. apply _. Defined.

(** The costs in decreasing order. *)
Definition sorted_desc (costs : list N) : list N := merge_sort (λ a b : N, (b <= a)%N) costs.

(** [try_fold(0_u64, u64::checked_add)]. *)
Definition checked_sum (l : list N) : option N :=
  foldl (λ acc c, a ← acc; checked_add u64_max a c) (Some 0%N) l.

Definition maximum_attempt_envelope (costs : list N) (max_attempts : nat) : option N :=
  checked_sum (take max_attempts (sorted_desc costs)).

(** ** Reconciliation *)

Record NormalizedUsage := {
  nu_input_tokens : option N;
  nu_output_tokens : option N;
  nu_cached_input_tokens : option N;
  nu_reasoning_tokens : option N;
}.
Record ReconciledUsage := { ru_charged_micros : N; ru_complete : bool; ru_price_version : N }.

(** The charge for a request that reserved [reserved], and whether it is final. *)
Definition ambiguous_charge (acceptance : AcceptanceEvidence) (reserved ambiguous : N) : N * bool :=
  if decide (acceptance = NotAccepted) then (0%N, true)
  else if (reserved =? 0)%N then (0%N, false)
  else (N.max (N.min ambiguous reserved) 1, false).

Definition generation_charge (price : GenerationPrice) (usage : option NormalizedUsage)
    (acceptance : AcceptanceEvidence) (reserved ambiguous : N) : N * bool :=
  match usage with
  | Some {| nu_input_tokens := Some i; nu_output_tokens := Some o |} => (cost price i o, true)
  | _ => ambiguous_charge acceptance reserved ambiguous
  end.

Definition embedding_charge (price : EmbeddingPrice) (usage : option NormalizedUsage)
    (acceptance : AcceptanceEvidence) (reserved ambiguous : N) : result LlmGatewayError (N * bool) :=
  match usage with
  | Some u =>
      if match nu_output_tokens u with Some t => negb (t =? 0)%N | None => false end
      then Err (Invariant "embedding usage reported output tokens")
      else match nu_input_tokens u with
           | Some i => c ← cost_embedding price i 0; Ok (c, true)
           | None => Ok (ambiguous_charge acceptance reserved ambiguous)
           end
  | None => Ok (ambiguous_charge acceptance reserved ambiguous)
  end.

(** ** The ledger *)

Record UsageLedger := { ul_reserved_micros : N; ul_charged_micros : N }.
Definition UsageLedger_default : UsageLedger := {| ul_reserved_micros := 0; ul_charged_micros := 0 |}.

Definition add_reserved (m : N) (l : UsageLedger) : UsageLedger :=
  {| ul_reserved_micros := wrap_add u64_max (ul_reserved_micros l) m;
     ul_charged_micros := ul_charged_micros l |}.
Definition sub_reserved (m : N) (l : UsageLedger) : UsageLedger :=
  {| ul_reserved_micros := wrap_sub u64_max (ul_reserved_micros l) m;
     ul_charged_micros := ul_charged_micros l |}.
Definition add_charged (c : N) (l : UsageLedger) : UsageLedger :=
  {| ul_reserved_micros := ul_reserved_micros l;
     ul_charged_micros := wrap_add u64_max (ul_charged_micros l) c |}.

(** The decision of [reserve], from the value [fetch_add] returned. *)
Definition within_budget (previous maximum : N) (budget : option N) : bool :=
  negb match budget with
       | Some b => (b <? sat_add u64_max previous maximum)%N
       | None => false
       end.

(** [UsageReservation::reserve], [reconcile_with_ambiguous_bound],
    [reconcile_embedding] and [Drop] without interference. *)
Definition reserve (l : UsageLedger) (maximum : N) (budget : option N) :
    UsageLedger * result LlmGatewayError N :=
  let previous := ul_reserved_micros l in
  let l := add_reserved maximum l in
  if within_budget previous maximum budget then (l, Ok maximum)
  else (sub_reserved maximum l, Err Budget).

Definition settle (l : UsageLedger) (reserved charge : N) : UsageLedger :=
  add_charged charge (sub_reserved reserved l).

Definition reconcile_with_ambiguous_bound (l : UsageLedger) (reserved : N) (price : GenerationPrice)
    (usage : option NormalizedUsage) (acceptance : AcceptanceEvidence) (ambiguous : N) :
    UsageLedger * ReconciledUsage :=
  let '(charged, complete) := generation_charge price usage acceptance reserved ambiguous in
  (settle l reserved charged,
   {| ru_charged_micros := charged; ru_complete := complete; ru_price_version := gp_version price |}).

Definition reconcile (l : UsageLedger) (reserved : N) (price : GenerationPrice)
    (usage : option NormalizedUsage) (acceptance : AcceptanceEvidence) :
    UsageLedger * ReconciledUsage :=
  reconcile_with_ambiguous_bound l reserved price usage acceptance reserved.

Definition drop_reservation (l : UsageLedger) (reserved : N) : UsageLedger := sub_reserved reserved l.

(** An error returns before the counters change; the reservation is then dropped. *)
Definition reconcile_embedding (l : UsageLedger) (reserved : N) (price : EmbeddingPrice)
    (usage : option NormalizedUsage) (acceptance : AcceptanceEvidence) (ambiguous : N) :
    UsageLedger * result LlmGatewayError ReconciledUsage :=
  match embedding_charge price usage acceptance reserved ambiguous with
  | Ok (charged, complete) =>
      (settle l reserved charged,
       Ok {| ru_charged_micros := charged; ru_complete := complete;
             ru_price_version := ep_version price |})
  | Err e => (drop_reservation l reserved, Err e)
  end.

(** ** Interleaved requests

    Each request goes through the atomic operations of the functions above, one at
    a time, interleaved with the others. *)

Inductive phase :=
| Idle
| Reserving (maximum : N) (granted : bool)
| Holding (reserved : N)
| Settling (charge : N).

Section interleaving.
(** The budget of the ledger, and a bound on what one request may reserve. *)
Context (budget : option N) (largest : N).

Inductive usage_step : relation (UsageLedger * list phase) :=
| step_fetch_add l ts i m :
    ts !! i = Some Idle → (m <= largest)%N →
    usage_step (l, ts) (add_reserved m l,
      <[i := Reserving m (within_budget (ul_reserved_micros l) m budget)]> ts)
| step_granted l ts i m :
    ts !! i = Some (Reserving m true) → usage_step (l, ts) (l, <[i := Holding m]> ts)
| step_refused l ts i m :
    ts !! i = Some (Reserving m false) → usage_step (l, ts) (sub_reserved m l, <[i := Idle]> ts)
| step_settle l ts i m c :
    ts !! i = Some (Holding m) → usage_step (l, ts) (sub_reserved m l, <[i := Settling c]> ts)
| step_drop_held l ts i m :
    ts !! i = Some (Holding m) → usage_step (l, ts) (drop_reservation l m, <[i := Idle]> ts)
| step_charge l ts i c :
    ts !! i = Some (Settling c) → usage_step (l, ts) (add_charged c l, <[i := Idle]> ts).

(** Micros counted in [reserved_micros], and those of granted reservations. *)
Definition counted (t : phase) : N :=
  match t with Reserving m _ | Holding m => m | _ => 0 end.
Definition granted (t : phase) : N :=
  match t with Reserving m true | Holding m => m | _ => 0 end.

Record usage_inv (s : UsageLedger * list phase) : Prop := {
  ui_counted : ul_reserved_micros s.1 = total counted s.2;
  ui_bounded : Forall (λ t, counted t <= largest)%N s.2;
  ui_budget : ∀ b, budget = Some b → (total granted s.2 <= b)%N;
}.

Lemma total_counted_bound ts :
  Forall (λ t, counted t <= largest)%N ts → (total counted ts <= N.of_nat (length ts) * largest)%N.
Proof. induction 1; cbn [total length]; lia. Qed.

(** Replacing a phase keeps the invariant when the counter follows. *)
Lemma usage_inv_update l l' ts i t t' :
  usage_inv (l, ts) → ts !! i = Some t → (counted t' <= largest)%N →
  (ul_reserved_micros l' + counted t = ul_reserved_micros l + counted t')%N →
  (∀ b, budget = Some b → (total granted (<[i := t']> ts) <= b)%N) →
  usage_inv (l', <[i := t']> ts).
Proof.
  intros [H1 H2 _] Hi Hb Hr Hg. cbn in *. split; cbn; [|by apply Forall_insert|done].
  pose proof (total_insert counted ts i t t' Hi). lia.
Qed.

Lemma usage_step_inv s s' :
  (N.of_nat (length s.2) * largest <= u64_max)%N →
  usage_inv s → usage_step s s' → usage_inv s' ∧ length s'.2 = length s.2.
Proof.
  intros Hn Hinv Hstep. pose proof Hinv as [H1 H2 H3].
  pose proof (total_counted_bound s.2 H2) as Htot.
  assert (total granted s.2 <= total counted s.2)%N as Hgc
    by (apply total_le; intros []; cbn; try case_match; lia).
  destruct Hstep as [l ts i m Hi Hm|l ts i m Hi|l ts i m Hi|l ts i m c Hi|l ts i m Hi|l ts i c Hi];
    cbn in *; (split; [|by rewrite length_insert]).
  - assert (total counted ts + m <= u64_max)%N as Hroom.
    { assert (Forall (λ t, counted t <= largest)%N (<[i := Reserving m true]> ts)) as Hf
        by (by apply Forall_insert).
      apply total_counted_bound in Hf. rewrite length_insert in Hf.
      pose proof (total_insert counted ts i _ (Reserving m true) Hi). cbn in *. lia. }
    eapply usage_inv_update; [done|exact Hi|done| |].
    + cbn. rewrite wrap_add_small by lia. lia.
    + intros b Hb. specialize (H3 b Hb).
      pose proof (total_insert granted ts i _ (Reserving m (within_budget (ul_reserved_micros l) m budget)) Hi) as Ht.
      cbn in Ht. unfold within_budget in *. rewrite Hb in Ht |- *.
      destruct (b <? sat_add u64_max (ul_reserved_micros l) m)%N eqn:E; cbn in *; bool_prop; [lia|].
      unfold sat_add in E. lia.
  - eapply usage_inv_update; [done|exact Hi| |done|].
    + rewrite Forall_lookup in H2. apply (H2 _ _ Hi).
    + intros b Hb. pose proof (total_insert granted ts i _ (Holding m) Hi). specialize (H3 b Hb).
      cbn in *. lia.
  - pose proof (total_insert counted ts i _ Idle Hi) as Hc. cbn in Hc.
    eapply usage_inv_update; [done|exact Hi|cbn; lia| |].
    + cbn. rewrite wrap_sub_small by lia. lia.
    + intros b Hb. pose proof (total_insert granted ts i _ Idle Hi). specialize (H3 b Hb). cbn in *. lia.
  - pose proof (total_insert counted ts i _ (Settling c) Hi) as Hc. cbn in Hc.
    eapply usage_inv_update; [done|exact Hi|cbn; lia| |].
    + cbn. rewrite wrap_sub_small by lia. lia.
    + intros b Hb. pose proof (total_insert granted ts i _ (Settling c) Hi). specialize (H3 b Hb). cbn in *. lia.
  - pose proof (total_insert counted ts i _ Idle Hi) as Hc. cbn in Hc.
    eapply usage_inv_update; [done|exact Hi|cbn; lia| |].
    + cbn. rewrite wrap_sub_small by lia. lia.
    + intros b Hb. pose proof (total_insert granted ts i _ Idle Hi). specialize (H3 b Hb). cbn in *. lia.
  - eapply usage_inv_update; [done|exact Hi|cbn; lia|done|].
    intros b Hb. pose proof (total_insert granted ts i _ Idle Hi). specialize (H3 b Hb). cbn in *. lia.
Qed.

(** Granted reservations never exceed the budget, whatever the interleaving of
    the atomic operations of [n] concurrent requests, as long as [n] times the
    largest reservation fits in 64 bits; the counter equals the micros of the
    requests in flight, so it returns to zero when none is. *)
Theorem reservations_within_budget n l ts :
  (N.of_nat n * largest <= u64_max)%N →
  rtc usage_step (UsageLedger_default, replicate n Idle) (l, ts) →
  (∀ b, budget = Some b → (total granted ts <= b)%N) ∧
  ul_reserved_micros l = total counted ts ∧
  (Forall (λ t, t = Idle) ts → ul_reserved_micros l = 0%N).
Proof.
  intros Hn H.
  assert (∀ k, total counted (replicate k Idle) = 0%N ∧ total granted (replicate k Idle) = 0%N) as Hz.
  { induction k as [|k [IH1 IH2]]; cbn; [done|]. by rewrite IH1, IH2. }
  apply (rtc_invariant _ (λ s, usage_inv s ∧ length s.2 = n)) in H as [[H1 H2 H3] Hl]; cbn in *.
  - split_and!; [done|done|]. intros Hidle. rewrite H1. clear -Hidle.
    induction Hidle as [|t ts -> _ IH]; cbn; lia.
  - intros a b [Ha Hla] Hs. rewrite <- Hla in Hn. destruct (usage_step_inv a b Hn Ha Hs). split; [done|lia].
  - rewrite length_replicate. split; [|done]. split; cbn.
    + by destruct (Hz n).
    + apply Forall_replicate. cbn. lia.
    + intros b _. destruct (Hz n) as [_ ->]. lia.
Qed.
End interleaving.

(** ** Costs *)

(** A generation is charged its exact price in millionths, rounded up to a whole
    micro, as long as the price in millionths fits in 64 bits with the rounding. *)
Theorem cost_is_ceiling price i o :
  let exact := (i * gp_input_micros_per_million price + o * gp_output_micros_per_million price)%N in
  (exact + 999999 <= u64_max)%N →
  (exact <= cost price i o * 1000000 < exact + 1000000)%N.
Proof.
  intros exact Hfit. unfold cost, sat_mul, sat_add.
  assert (N.min (N.min (N.min (i * gp_input_micros_per_million price) u64_max
      + N.min (o * gp_output_micros_per_million price) u64_max) u64_max + 999999) u64_max
    = exact + 999999)%N as -> by (unfold exact in *; lia).
  clearbody exact. pose proof (N.Div0.div_mod (exact + 999999) 1000000) as Hdm.
  pose proof (N.mod_lt (exact + 999999) 1000000 ltac:(done)) as Hlt.
  set (q := ((exact + 999999) / 1000000)%N) in *. set (r := ((exact + 999999) mod 1000000)%N) in *.
  clearbody q r. lia.
Qed.

Lemma cost_mono price i o i' o' :
  (i <= i')%N → (o <= o')%N → (cost price i o <= cost price i' o')%N.
Proof.
  intros Hi Ho. unfold cost. apply N.Div0.div_le_mono. unfold sat_add, sat_mul.
  pose proof (N.mul_le_mono_r _ _ (gp_input_micros_per_million price) Hi).
  pose proof (N.mul_le_mono_r _ _ (gp_output_micros_per_million price) Ho). lia.
Qed.

Lemma cost_bound price i o : (cost price i o <= u64_max)%N.
Proof.
  unfold cost. match goal with |- (sat_add ?m ?a ?b / _ <= _)%N => pose proof (sat_add_le m a b) as H;
    generalize dependent (sat_add m a b) end.
  intros n Hn. etrans; [|exact Hn]. apply N.Div0.div_le_upper_bound. lia.
Qed.

(** A request never settles for more than it reserved: if the reservation is
    the worst-case cost of at least one attempt at token limits the provider kept
    to, or the provider reported no complete usage, the charge is at most the
    reservation; a request the provider did not accept is not charged. *)
Theorem charge_within_reservation price usage acceptance ambiguous max_in max_out attempts :
  (1 <= attempts)%N →
  (∀ u i o, usage = Some u → nu_input_tokens u = Some i → nu_output_tokens u = Some o →
     (i <= max_in ∧ o <= max_out)%N) →
  let reserved := worst_case_cost price max_in max_out attempts in
  ((generation_charge price usage acceptance reserved ambiguous).1 <= reserved)%N ∧
  (usage = None → acceptance = NotAccepted →
   generation_charge price usage acceptance reserved ambiguous = (0%N, true)).
Proof.
  intros Hatt Hlim reserved.
  assert ((ambiguous_charge acceptance reserved ambiguous).1 <= reserved)%N as Hamb.
  { unfold ambiguous_charge. case_decide; cbn; [lia|].
    destruct (reserved =? 0)%N eqn:E; cbn -[N.max N.min]; bool_prop; lia. }
  split.
  - unfold generation_charge. destruct usage as [[[i|] [o|] ? ?]|]; try done. cbn.
    destruct (Hlim _ i o eq_refl eq_refl eq_refl) as [Hi Ho].
    pose proof (cost_mono price _ _ _ _ Hi Ho). pose proof (cost_bound price max_in max_out).
    unfold reserved, worst_case_cost, sat_mul. apply N.min_glb; [|lia].
    etrans; [done|]. rewrite <- (N.mul_1_r (cost price max_in max_out)) at 1.
    by apply N.mul_le_mono_l.
  - intros -> ->. done.
Qed.

(** ** Envelope of several attempts *)

Fixpoint sum (l : list N) : N := match l with [] => 0 | c :: rest => c + sum rest end.

Lemma sum_perm l k : l ≡ₚ k → sum l = sum k.
Proof. induction 1; cbn; lia. Qed.

Lemma checked_sum_spec l :
  checked_sum l = if (sum l <=? u64_max)%N then Some (sum l) else None.
Proof.
  unfold checked_sum.
  assert (∀ l, foldl (λ acc c, a ← acc; checked_add u64_max a c) None l = None) as Hnone.
  { induction l0 as [|c l0 IH]; cbn; [done|]. exact IH. }
  enough (∀ acc, (acc <= u64_max)%N →
    foldl (λ acc c, a ← acc; checked_add u64_max a c) (Some acc) l
    = if (acc + sum l <=? u64_max)%N then Some (acc + sum l)%N else None) as Hgen
    by (apply Hgen; lia).
  induction l as [|c l IH]; intros acc Hacc; cbn -[N.leb N.add].
  { rewrite N.add_0_r. by rewrite (proj2 (N.leb_le _ _) Hacc). }
  unfold checked_add at 2. destruct (acc + c <=? u64_max)%N eqn:E; bool_prop.
  - rewrite IH by done. by rewrite N.add_assoc.
  - rewrite Hnone. case_match eqn:E2; [|done]. bool_prop. lia.
Qed.

(** The greatest elements of a decreasing list add up to at least as much as any
    other choice of as many. *)
Lemma sum_take_max s k l :
  StronglySorted (λ a b, b <= a)%N s → l ⊆+ s → length l ≤ k → (sum l <= sum (take k s))%N.
Proof.
  intros Hs. revert k l. induction Hs as [|x s Hs IH Hx]; intros k l Hl Hk.
  { apply submseteq_nil_r in Hl as ->. by rewrite take_nil. }
  apply submseteq_cons_r in Hl as [Hl|(l' & Hp & Hl)].
  - destruct l as [|y l]; [apply N.le_0_l|]. destruct k as [|k]; cbn in Hk; [lia|]. cbn.
    assert (y ∈ s) as Hy by (eapply elem_of_submseteq; [left|done]).
    rewrite Forall_forall in Hx. specialize (Hx y Hy). cbn in Hx.
    assert (l ⊆+ s) as Hl' by (etrans; [by apply submseteq_cons|done]).
    specialize (IH k l Hl' ltac:(lia)). lia.
  - pose proof (Permutation_length Hp) as Hlen. cbn in Hlen.
    destruct k as [|k]; [lia|]. rewrite (sum_perm _ _ Hp). cbn.
    specialize (IH k l' Hl ltac:(lia)). lia.
Qed.

#[local] Instance ge_total : Total (λ a b : N, (b <= a)%N).
Proof. intros a b. lia. Qed.
#[local] Instance ge_trans : Transitive (λ a b : N, (b <= a)%N).
Proof. intros a b c. lia. Qed.

(** The reservation envelope covers every choice of attempts, and no less would
    do: it is the greatest total cost of at most [max_attempts] distinct
    candidates, in whatever order they are tried or skipped, and it is refused
    exactly when that total does not fit in 64 bits. *)
Theorem envelope_covers_any_attempts costs k :
  (∃ best, best ⊆+ costs ∧ length best ≤ k ∧
     (∀ l, l ⊆+ costs → length l ≤ k → (sum l <= sum best)%N) ∧
     maximum_attempt_envelope costs k
       = if (sum best <=? u64_max)%N then Some (sum best) else None).
Proof.
  exists (take k (sorted_desc costs)).
  assert (sorted_desc costs ≡ₚ costs) as Hp by apply merge_sort_Permutation.
  split_and!.
  - etrans; [apply sublist_submseteq, sublist_take|by apply Permutation_submseteq].
  - rewrite length_take. lia.
  - intros l Hl Hk. apply sum_take_max; [|by rewrite Hp|done].
    apply StronglySorted_merge_sort; apply _.
  - apply checked_sum_spec.
Qed.

(** ** Examples *)

Definition sample_price : GenerationPrice :=
  {| gp_version := 1; gp_input_micros_per_million := 2500000; gp_output_micros_per_million := 10000000 |}.

Lemma cost_is_ceiling_witness :
  cost sample_price 3 1 = 18%N ∧ (17500000 <= cost sample_price 3 1 * 1000000 < 18500000)%N.
Proof. split; [by vm_compute|]. apply (cost_is_ceiling sample_price 3 1). by vm_compute. Defined.

Definition reported_usage : NormalizedUsage :=
  {| nu_input_tokens := Some 3%N; nu_output_tokens := Some 1%N; nu_cached_input_tokens := None;
     nu_reasoning_tokens := None |}.

Lemma charge_within_reservation_witness :
  (cost sample_price 3 1 <= worst_case_cost sample_price 10 10 2)%N.
Proof.
  apply (charge_within_reservation sample_price (Some reported_usage) Accepted 0 10 10 2).
  - by vm_compute.
  - intros u i o [= <-] [= <-] [= <-]. by vm_compute.
Defined.

(** Two requests race for a budget of ten micros: one is granted, one refused. *)
Definition raced : UsageLedger := add_reserved 6 (add_reserved 7 UsageLedger_default).

Lemma reservations_within_budget_witness :
  (total granted [Reserving 7 true; Reserving 6 false] <= 10)%N ∧ ul_reserved_micros raced = 13%N.
Proof.
  destruct (reservations_within_budget (Some 10%N) 7 2 raced [Reserving 7 true; Reserving 6 false])
    as (H & _ & _).
  - by vm_compute.
  - eapply rtc_l; [apply (step_fetch_add (Some 10%N) 7 UsageLedger_default [Idle; Idle] 0 7); done|].
    eapply rtc_l; [apply (step_fetch_add (Some 10%N) 7 _ _ 1 6); done|]. done.
  - split; [by apply H|by vm_compute].
Defined.
