(* ===== verification/Readiness.v ===== *)
(** * Readiness of a deployment

    Model of [crates/llm-gateway/src/runtime/readiness.rs]: the atomic state of a
    deployment's readiness, the controllers that start warmups and probes, and the probes
    that publish their outcome, one step per atomic operation.  When a controller ticks, how
    long a probe takes and what a provider answers are left open. *)

From S2P Require Import Prelude InferenceError.

Inductive DeploymentReadinessState := Unqualified | Warming | Ready | NotReady | Failed.
#[export] Instance DeploymentReadinessState_eq_dec : EqDecision DeploymentReadinessState.
Proof. solve_decision. Defined.

Record DeploymentReadiness := { dr_state : DeploymentReadinessState; dr_probe_in_flight : bool }.
Definition DeploymentReadiness_new (state : DeploymentReadinessState) : DeploymentReadiness :=
  {| dr_state := state; dr_probe_in_flight := false |}.
Definition is_ready (r : DeploymentReadiness) : bool := bool_decide (dr_state r = Ready).

(** ** Atomic operations *)

Definition set_readiness (state : DeploymentReadinessState) (r : DeploymentReadiness) : DeploymentReadiness :=
  {| dr_state := state; dr_probe_in_flight := dr_probe_in_flight r |}.
Definition set_probe (b : bool) (r : DeploymentReadiness) : DeploymentReadiness :=
  {| dr_state := dr_state r; dr_probe_in_flight := b |}.
(** [compare_exchange] on the state: whether it was the expected one. *)
Definition exchange (old new : DeploymentReadinessState) (r : DeploymentReadiness) : DeploymentReadiness * bool :=
  if decide (dr_state r = old) then (set_readiness new r, true) else (r, false).
(** [begin_warmup] without interference. *)
Definition begin_warmup (r : DeploymentReadiness) : DeploymentReadiness * bool :=
  match exchange Unqualified Warming r with
  | (r, true) => (r, true)
  | (r, false) => if decide (dr_state r = NotReady) then exchange NotReady Warming r else (r, false)
  end.
Definition warmup_succeeded (r : DeploymentReadiness) : DeploymentReadiness * bool := exchange Warming Ready r.
Definition mark_not_ready : DeploymentReadiness → DeploymentReadiness := set_readiness NotReady.
Definition security_failed : DeploymentReadiness → DeploymentReadiness := set_readiness Failed.
Definition try_begin_probe (r : DeploymentReadiness) : DeploymentReadiness * bool :=
  if dr_probe_in_flight r then (r, false) else (set_probe true r, true).
Definition finish_probe : DeploymentReadiness → DeploymentReadiness := set_probe false.

(** ** Controllers and probes *)

(** Where a controller is in its handling of the deployment, or a probe it spawned. *)
Inductive task :=
| Waiting
| Loaded (was_ready : bool)
| Reserved
| Retrying
| Rejecting
| Probing (was_ready : bool)
| Finishing.

(** The outcome a probe publishes, from the answer of the provider. *)
Inductive verdict := Succeeded | Refused | Unavailable.
Definition verdict_of (answer : result InferenceError unit) : verdict :=
  match answer with
  | Ok _ => Succeeded
  | Err e => match ie_category e with SecurityInvariant | PermissionDenied => Refused | _ => Unavailable end
  end.
Definition publish_verdict (was_ready : bool) (v : verdict) (r : DeploymentReadiness) : DeploymentReadiness :=
  match v with
  | Succeeded => if was_ready then r else (warmup_succeeded r).1
  | Refused => security_failed r
  | Unavailable => mark_not_ready r
  end.

(** The deployment, the tasks, and the verdicts published so far, the last one first. *)
Record system := { sy_readiness : DeploymentReadiness; sy_tasks : list task; sy_published : list verdict }.
Definition with_task (i : nat) (t : task) (r : DeploymentReadiness) (s : system) : system :=
  {| sy_readiness := r; sy_tasks := <[i := t]> (sy_tasks s); sy_published := sy_published s |}.

Inductive step : relation system :=
| step_load s i :
    sy_tasks s !! i = Some Waiting →
    step s (with_task i (Loaded (is_ready (sy_readiness s))) (sy_readiness s) s)
(** A probe of a ready deployment that is not due. *)
| step_not_due s i :
    sy_tasks s !! i = Some (Loaded true) → step s (with_task i Waiting (sy_readiness s) s)
| step_busy s i w r :
    sy_tasks s !! i = Some (Loaded w) → try_begin_probe (sy_readiness s) = (r, false) →
    step s (with_task i Waiting r s)
| step_probe_ready s i r :
    sy_tasks s !! i = Some (Loaded true) → try_begin_probe (sy_readiness s) = (r, true) →
    step s {| sy_readiness := r; sy_tasks := <[i := Waiting]> (sy_tasks s) ++ [Probing true];
              sy_published := sy_published s |}
| step_reserve s i r :
    sy_tasks s !! i = Some (Loaded false) → try_begin_probe (sy_readiness s) = (r, true) →
    step s (with_task i Reserved r s)
| step_warm s i r :
    sy_tasks s !! i = Some Reserved → exchange Unqualified Warming (sy_readiness s) = (r, true) →
    step s {| sy_readiness := r; sy_tasks := <[i := Waiting]> (sy_tasks s) ++ [Probing false];
              sy_published := sy_published s |}
| step_warm_failed s i r :
    sy_tasks s !! i = Some Reserved → exchange Unqualified Warming (sy_readiness s) = (r, false) →
    step s (with_task i (if decide (dr_state r = NotReady) then Retrying else Rejecting) r s)
| step_rewarm s i r :
    sy_tasks s !! i = Some Retrying → exchange NotReady Warming (sy_readiness s) = (r, true) →
    step s {| sy_readiness := r; sy_tasks := <[i := Waiting]> (sy_tasks s) ++ [Probing false];
              sy_published := sy_published s |}
| step_rewarm_failed s i r :
    sy_tasks s !! i = Some Retrying → exchange NotReady Warming (sy_readiness s) = (r, false) →
    step s (with_task i Rejecting r s)
| step_reject s i :
    sy_tasks s !! i = Some Rejecting → step s (with_task i Waiting (finish_probe (sy_readiness s)) s)
(** No permit of the account or of the deployment. *)
| step_no_capacity s i w :
    sy_tasks s !! i = Some (Probing w) →
    step s (with_task i Finishing (if w then sy_readiness s else mark_not_ready (sy_readiness s)) s)
| step_publish s i w answer :
    sy_tasks s !! i = Some (Probing w) →
    step s {| sy_readiness := publish_verdict w (verdict_of answer) (sy_readiness s);
              sy_tasks := <[i := Finishing]> (sy_tasks s);
              sy_published := verdict_of answer :: sy_published s |}
| step_finish s i :
    sy_tasks s !! i = Some Finishing →
    step s {| sy_readiness := finish_probe (sy_readiness s); sy_tasks := delete i (sy_tasks s);
              sy_published := sy_published s |}.

(** [n] controllers of a deployment that starts in [state]. *)
Definition controllers (state : DeploymentReadinessState) (n : nat) : system :=
  {| sy_readiness := DeploymentReadiness_new state; sy_tasks := replicate n Waiting; sy_published := [] |}.

(** ** One probe at a time *)

(** Tasks between a successful [try_begin_probe] and [finish_probe], and those of them
    that will still publish the outcome of a warmup. *)
Definition holds_slot (t : task) : bool :=
  match t with Waiting | Loaded _ => false | Reserved | Retrying | Rejecting | Probing _ | Finishing => true end.
Definition warms (t : task) : bool := match t with Probing false => true | _ => false end.
Definition count_tasks (f : task → bool) (l : list task) : N := total (λ t, if f t then 1%N else 0%N) l.

Record readiness_inv (s : system) : Prop := {
  ri_slot : count_tasks holds_slot (sy_tasks s) = if dr_probe_in_flight (sy_readiness s) then 1%N else 0%N;
  ri_warming : count_tasks warms (sy_tasks s) = if decide (dr_state (sy_readiness s) = Warming) then 1%N else 0%N;
}.

Lemma total_delete {A} (f : A → N) l i x : l !! i = Some x → (total f (delete i l) + f x = total f l)%N.
Proof.
  revert i. induction l as [|y l IH]; intros [|i] H; [done|done| |].
  - injection H as ->. change (delete 0 (x :: l)) with l. cbn [total]. lia.
  - change (delete (S i) (y :: l)) with (y :: delete i l). cbn [total]. specialize (IH i H). lia.
Qed.
Lemma warms_holds t : ((if warms t then 1 else 0) <= (if holds_slot t then 1 else 0))%N.
Proof. by destruct t as [|[]| | | |[]|]. Qed.

Definition slot_count (r : DeploymentReadiness) : N := if dr_probe_in_flight r then 1 else 0.
Definition warming_count (r : DeploymentReadiness) : N := if decide (dr_state r = Warming) then 1 else 0.
Definition one_if (b : bool) : N := if b then 1 else 0.

(** A step replaces one task and adds at most one. *)
Lemma inv_replace s i t t' extra r published :
  readiness_inv s → sy_tasks s !! i = Some t →
  (slot_count r + one_if (holds_slot t)
   = slot_count (sy_readiness s) + one_if (holds_slot t') + count_tasks holds_slot extra)%N →
  (warming_count r + one_if (warms t)
   = warming_count (sy_readiness s) + one_if (warms t') + count_tasks warms extra)%N →
  readiness_inv {| sy_readiness := r; sy_tasks := <[i := t']> (sy_tasks s) ++ extra; sy_published := published |}.
Proof.
  intros [H1 H2] Hi H3 H4. unfold slot_count, warming_count, one_if, count_tasks in *.
  pose proof (total_insert (λ t, if holds_slot t then 1%N else 0%N) _ _ _ t' Hi).
  pose proof (total_insert (λ t, if warms t then 1%N else 0%N) _ _ _ t' Hi).
  split; cbn [sy_readiness sy_tasks]; unfold count_tasks; rewrite total_app; lia.
Qed.
Lemma inv_with_task s i t t' r :
  readiness_inv s → sy_tasks s !! i = Some t →
  (slot_count r + one_if (holds_slot t) = slot_count (sy_readiness s) + one_if (holds_slot t'))%N →
  (warming_count r + one_if (warms t) = warming_count (sy_readiness s) + one_if (warms t'))%N →
  readiness_inv (with_task i t' r s).
Proof.
  intros. unfold with_task. rewrite <- (app_nil_r (<[i := t']> _)).
  eapply inv_replace; [done..| |]; unfold count_tasks; cbn [total]; lia.
Qed.

(** The task that holds the slot is the only one, and it is the one that warms. *)
Lemma slot_holder s i t :
  readiness_inv s → sy_tasks s !! i = Some t → holds_slot t = true →
  slot_count (sy_readiness s) = 1%N ∧ warming_count (sy_readiness s) = one_if (warms t).
Proof.
  intros [H1 H2] Hi Ht. unfold slot_count, warming_count, one_if. unfold count_tasks in *.
  pose proof (total_delete (λ t, if holds_slot t then 1%N else 0%N) _ _ _ Hi) as E1.
  pose proof (total_delete (λ t, if warms t then 1%N else 0%N) _ _ _ Hi) as E2. cbn beta in E1, E2.
  pose proof (total_le _ _ (delete i (sy_tasks s)) warms_holds) as Hle. rewrite Ht in E1.
  destruct (dr_probe_in_flight _); [|lia]. split; [done|]. lia.
Qed.

(** Compare the counts before and after a step. *)
Ltac solve_counts :=
  unfold slot_count, warming_count, one_if, count_tasks, mark_not_ready, security_failed, finish_probe in *;
  cbn [holds_slot warms total sy_readiness dr_state dr_probe_in_flight set_readiness set_probe] in *;
  repeat case_decide; repeat case_match; simplify_eq/=; try congruence; try lia.

(** The effect of an atomic operation on the branch it took. *)
Ltac inv_atomic E :=
  unfold try_begin_probe, exchange in E;
  match type of E with
  | context [decide ?P] => destruct (decide P)
  | context [dr_probe_in_flight ?r] => destruct (dr_probe_in_flight r) eqn:?
  end; simplify_eq.

Lemma readiness_step s s' : step s s' → readiness_inv s → readiness_inv s'.
Proof.
  intros Hstep Hinv. pose proof (slot_holder s) as Hh.
  destruct Hstep as [s i Hi|s i Hi|s i w r Hi E|s i r Hi E|s i r Hi E|s i r Hi E|s i r Hi E|s i r Hi E|s i r Hi E
    |s i Hi|s i w Hi|s i w answer Hi|s i Hi].
  all: try (pose proof (Hh i _ Hinv Hi eq_refl) as [Hs Hw]).
  all: try inv_atomic E.
  all: try (eapply inv_with_task; [done|done|solve_counts..]).
  all: try (eapply inv_replace; [done|done|solve_counts..]).
  - rewrite <- (app_nil_r (<[i := Finishing]> _)). eapply inv_replace; [done|done|..].
    + unfold publish_verdict, warmup_succeeded, exchange. destruct (verdict_of answer), w; solve_counts.
    + unfold publish_verdict, warmup_succeeded, exchange. destruct (verdict_of answer), w; solve_counts.
  - destruct Hinv as [H1 H2]. unfold slot_count, warming_count in *.
    unfold count_tasks in *.
    pose proof (total_delete (λ t, if holds_slot t then 1%N else 0%N) _ _ _ Hi) as E1.
    pose proof (total_delete (λ t, if warms t then 1%N else 0%N) _ _ _ Hi) as E2. cbn in E1, E2.
    split; cbn [sy_readiness sy_tasks finish_probe set_probe dr_state dr_probe_in_flight]; unfold count_tasks; lia.
Qed.

(** ** Eligibility *)

Record published_inv (initial : DeploymentReadinessState) (s : system) : Prop := {
  pi_ready : dr_state (sy_readiness s) = Ready →
    head (sy_published s) = Some Succeeded ∨ sy_published s = [] ∧ initial = Ready;
}.

Lemma published_step initial s s' : step s s' → readiness_inv s → published_inv initial s → published_inv initial s'.
Proof.
  intros Hstep Hinv [Hp]. pose proof (slot_holder s) as Hh.
  destruct Hstep as [s i Hi|s i Hi|s i w r Hi E|s i r Hi E|s i r Hi E|s i r Hi E|s i r Hi E|s i r Hi E|s i r Hi E
    |s i Hi|s i w Hi|s i w answer Hi|s i Hi]; split; cbn [with_task sy_readiness sy_published] in *.
  all: try inv_atomic E.
  all: try done.
  - by destruct w.
  - unfold publish_verdict. destruct (verdict_of answer); [by left|done..].
Qed.

(** A refusal that no probe of a ready deployment can overwrite. *)
Definition saw_ready (t : task) : bool := match t with Loaded true | Probing true => true | _ => false end.
Definition refused (s : system) : Prop :=
  dr_state (sy_readiness s) = Failed ∧ Forall (λ t, saw_ready t = false ∧ warms t = false) (sy_tasks s).

Lemma refused_step s s' : step s s' → refused s → refused s'.
Proof.
  intros Hstep [Hf Ht].
  assert (∀ i t, sy_tasks s !! i = Some t → saw_ready t = false ∧ warms t = false) as Hl
    by (by rewrite Forall_lookup in Ht).
  destruct Hstep as [s i Hi|s i Hi|s i w r Hi E|s i r Hi E|s i r Hi E|s i r Hi E|s i r Hi E|s i r Hi E|s i r Hi E
    |s i Hi|s i w Hi|s i w answer Hi|s i Hi]; unfold with_task; destruct (Hl _ _ Hi) as [H1 H2]; try done.
  all: try (destruct w; done).
  all: try inv_atomic E; try congruence.
  all: split; cbn [sy_readiness sy_tasks]; try done; try (by apply Forall_insert).
  - apply Forall_insert; [done|]. unfold is_ready. by rewrite Hf.
  - apply Forall_insert; [done|]. by case_decide.
  - by apply Forall_delete.
Qed.

(** Some task is a warmup exactly when they count one. *)
Lemma total_warms s :
  readiness_inv s →
  count_tasks warms (sy_tasks s) = 1%N ↔ ∃ i, sy_tasks s !! i = Some (Probing false).
Proof.
  intros [H1 H2]. unfold count_tasks in *. split.
  - clear H1 H2. induction (sy_tasks s) as [|t l IH]; cbn [total]; [done|]. destruct (warms t) eqn:E.
    + intros _. exists 0. by destruct t as [|[]| | | |[]|].
    + rewrite N.add_0_l. intros [i Hi]%IH. by exists (S i).
  - intros [i Hi]. pose proof (total_lookup (λ t, if warms t then 1%N else 0%N) _ _ _ Hi) as H. cbn in H.
    case_decide; lia.
Qed.

(** C40 A deployment is warmed before it is eligible, whatever the interleaving of the
    controllers and of the probes they start: at most one probe is in flight, the
    deployment is warming exactly while a probe is going to publish the outcome of its
    warmup, so it is never stranded there, and a deployment that did not start ready is
    ready only when the last verdict published was a success.  A probe always ends with a
    verdict here: one that panics is not covered. *)
Theorem warmed_before_eligible initial n s :
  initial ≠ Warming → rtc step (controllers initial n) s →
  (count_tasks holds_slot (sy_tasks s) <= 1)%N ∧
  (dr_state (sy_readiness s) = Warming ↔ ∃ i, sy_tasks s !! i = Some (Probing false)) ∧
  (is_ready (sy_readiness s) = true →
   head (sy_published s) = Some Succeeded ∨ sy_published s = [] ∧ initial = Ready).
Proof.
  intros Hw H.
  apply (rtc_invariant _ (λ s, readiness_inv s ∧ published_inv initial s)) in H as [[H1 H2] [H3]].
  - split_and!.
    + rewrite H1. destruct (dr_probe_in_flight _); lia.
    + rewrite <- (total_warms s) by done. rewrite H2. case_decide; naive_solver.
    + unfold is_ready. rewrite bool_decide_eq_true. apply H3.
  - intros a b [Ha Hp] Hs. split; [by eapply readiness_step|by eapply published_step].
  - split; [|by split; right]. assert (∀ f, f Waiting = false → count_tasks f (replicate n Waiting) = 0%N) as Hz.
    { intros f Hf. unfold count_tasks. clear -Hf. induction n as [|k IH]; cbn [replicate total]; [done|]. rewrite Hf. exact IH. }
    split; cbn [controllers sy_readiness sy_tasks]; rewrite Hz by done; [done|]. cbn. by case_decide.
Qed.

(** ** Examples *)

(** Warmup of a deployment under one controller. *)
Definition warmed_up : system :=
  {| sy_readiness := {| dr_state := Ready; dr_probe_in_flight := false |}; sy_tasks := [Waiting];
     sy_published := [Succeeded] |}.
Lemma warm_up : rtc step (controllers Unqualified 1) warmed_up.
Proof.
  eapply rtc_l; [by apply (step_load _ 0)|]. eapply rtc_l; [by eapply (step_reserve _ 0)|].
  eapply rtc_l; [by eapply (step_warm _ 0)|]. eapply rtc_l; [by apply (step_publish _ 1 false (Ok ()))|].
  eapply rtc_l; [by apply (step_finish _ 1)|]. done.
Qed.
Lemma warmed_before_eligible_witness :
  is_ready (sy_readiness warmed_up) = true ∧ head (sy_published warmed_up) = Some Succeeded.
Proof.
  destruct (warmed_before_eligible Unqualified 1 warmed_up) as (_ & _ & H); [done|apply warm_up|].
  split; [done|]. by destruct H as [H|[_ [=]]].
Defined.

(** A refusal on security grounds is final as long as no controller or probe still acts on
    having seen the deployment ready. *)
Lemma refusal_final s s' : refused s → rtc step s s' → dr_state (sy_readiness s') = Failed.
Proof. intros Hr H. apply (rtc_invariant _ refused) in H as [H _]; [done| |done]. eauto using refused_step. Qed.

(** One that does can make it eligible again: a second probe, started by a controller that
    loaded the state before the refusal, times out and overwrites it. *)
Example refusal_overwritten :
  ∃ s s' : system, dr_state (sy_readiness s) = Failed ∧ sy_published s = [Refused; Succeeded]
    ∧ rtc step warmed_up s ∧ rtc step s s' ∧ is_ready (sy_readiness s') = true.
Proof.
  eexists {| sy_readiness := {| dr_state := Failed; dr_probe_in_flight := false |};
             sy_tasks := [Loaded true]; sy_published := [Refused; Succeeded] |},
         {| sy_readiness := {| dr_state := Ready; dr_probe_in_flight := false |};
             sy_tasks := [Waiting]; sy_published := [Succeeded; Unavailable; Refused; Succeeded] |}.
  split_and!; [done|done| | |done].
  - eapply rtc_l; [by apply (step_load _ 0)|]. eapply rtc_l; [by eapply (step_probe_ready _ 0)|].
    eapply rtc_l; [by apply (step_load _ 0)|].
    eapply rtc_l; [by apply (step_publish _ 1 true (Err (security_invariant "pin mismatch")))|].
    eapply rtc_l; [by apply (step_finish _ 1)|]. done.
  -
    eapply rtc_l; [by eapply (step_probe_ready _ 0)|].
    eapply rtc_l; [by apply (step_publish _ 1 true (Err timeout_before_acceptance))|].
    eapply rtc_l; [by apply (step_finish _ 1)|].
    eapply rtc_l; [by apply (step_load _ 0)|]. eapply rtc_l; [by eapply (step_reserve _ 0)|].
    eapply rtc_l; [by eapply (step_warm_failed _ 0)|]. eapply rtc_l; [by eapply (step_rewarm _ 0)|].
    eapply rtc_l; [by apply (step_publish _ 1 false (Ok ()))|].
    eapply rtc_l; [by apply (step_finish _ 1)|]. done.
Qed.
