(* ===== verification/Supervision.v ===== *)
(** * Supervision of the validator process

    Model of [frameworks/light-lambda-runtime/src/validator_ipc]: the fail-stop
    authority of [supervision.rs] with its owner and request leases, the drain of
    [ownership.rs] with its work tickets, and the start rate of [controller.rs].
    Every operation runs under its mutex, so that a run is a sequence of whole
    operations; a token ([Owner], [Request], [Work]) is a live value that an
    operation creates and a drop removes. *)

From S2P Require Import Prelude.

(** [std::sync::Mutex]: a value and whether a thread panicked while holding it. *)
Record Mutex (A : Type) := { mx_value : A; mx_poisoned : bool }.
Arguments mx_value {_} _.
Arguments mx_poisoned {_} _.
Arguments Build_Mutex {_} _ _.

Definition Mutex_new {A} (a : A) : Mutex A := Build_Mutex a false.
Definition poison {A} (m : Mutex A) : Mutex A := Build_Mutex (mx_value m) true.
Definition store {A} (m : Mutex A) (a : A) : Mutex A := Build_Mutex a (mx_poisoned m).

(** The failures of the validator controller. *)
Inductive Failure :=
| Frame | ParentBudget | RequestedQuota | AllocatorRefused | EngineResource | EngineInternal
| AdapterInvariant | Protocol | Deadline | Cancelled | Death | NoReady | Rate_ | Stale.

Module Authority.

Inductive Refusal := Busy | Closed | InvalidPolicy.

Inductive Phase := Idle | Reserved | Started | Ready | Reaped | Quarantined.
#[global] Instance Phase_eq_dec : EqDecision Phase.
Proof. solve_decision. Defined.

Record State := { st_phase : Phase; st_requests : N }.
Definition Authority := Mutex State.
Definition Authority_new : Authority := Mutex_new {| st_phase := Idle; st_requests := 0 |}.

Definition phase (a : Authority) : Phase :=
  if mx_poisoned a then Quarantined else st_phase (mx_value a).

Definition set_phase (p : Phase) (a : Authority) : Authority :=
  store a {| st_phase := p; st_requests := st_requests (mx_value a) |}.
Definition set_requests (n : N) (a : Authority) : Authority :=
  store a {| st_phase := st_phase (mx_value a); st_requests := n |}.

(** [authority] is the address its [Arc] points to. *)
Record Owner := { ow_authority : positive; ow_started : bool; ow_finished : bool }.
Record Request := { rq_authority : positive }.

Definition reserve_owner (self : positive) (a : Authority) : Authority * result Refusal Owner :=
  if mx_poisoned a then (a, Err Closed) else
  match st_phase (mx_value a) with
  | Idle =>
      (set_phase Reserved a,
       Ok {| ow_authority := self; ow_started := false; ow_finished := false |})
  | Reserved | Started | Ready => (a, Err Busy)
  | Reaped | Quarantined => (a, Err Closed)
  end.

Definition reserve_request (self : positive) (a : Authority) : Authority * result Refusal Request :=
  if mx_poisoned a then (a, Err Closed) else
  if negb (bool_decide (st_phase (mx_value a) = Ready)) then (a, Err Closed) else
  if (2 <=? st_requests (mx_value a))%N then (a, Err Busy) else
  (set_requests (st_requests (mx_value a) + 1) a, Ok {| rq_authority := self |}).

Definition started (a : Authority) (o : Owner) : Authority * Owner * result Refusal unit :=
  if mx_poisoned a then (a, o, Err Closed) else
  if ow_started o || negb (bool_decide (st_phase (mx_value a) = Reserved)) then (a, o, Err Closed)
  else (set_phase Started a,
        {| ow_authority := ow_authority o; ow_started := true; ow_finished := ow_finished o |},
        Ok ()).

Definition ready (a : Authority) (o : Owner) : Authority * Owner * result Refusal unit :=
  if mx_poisoned a then (a, o, Err Closed) else
  if negb (ow_started o) || negb (bool_decide (st_phase (mx_value a) = Started))
  then (a, o, Err Closed)
  else (set_phase Ready a, o, Ok ()).

Definition drop_owner (a : Authority) (o : Owner) : Authority :=
  if ow_finished o || mx_poisoned a then a
  else set_phase (if ow_started o then Quarantined else Idle) a.

(** [waited] consumes its owner, which is dropped after the lock is released. *)
Definition waited (a : Authority) (o : Owner) (wait_ok : bool) : Authority * result Refusal unit :=
  if mx_poisoned a then (drop_owner a o, Err Closed) else
  if negb (ow_started o) ||
     negb (bool_decide (st_phase (mx_value a) = Started) || bool_decide (st_phase (mx_value a) = Ready))
  then (drop_owner a o, Err Closed) else
  let o := {| ow_authority := ow_authority o; ow_started := ow_started o; ow_finished := true |} in
  if wait_ok then (drop_owner (set_phase Reaped a) o, Ok ())
  else (drop_owner (set_phase Quarantined a) o, Err Closed).

Definition belongs_to (r : Request) (authority : positive) : bool :=
  bool_decide (rq_authority r = authority).

Definition drop_request (a : Authority) : Authority :=
  if mx_poisoned a then a else set_requests (wrap_sub u64_max (st_requests (mx_value a)) 1) a.

(** ** Runs of one authority

    A world holds the authority, its live owners and requests, and the number of
    generations that were started. *)

Record world := { w_authority : Authority; w_owners : list Owner; w_requests : list Request;
                  w_generations : nat }.
Definition initial : world :=
  {| w_authority := Authority_new; w_owners := []; w_requests := []; w_generations := 0 |}.

Section runs.
Context (self : positive).

Inductive authority_step : relation world :=
| step_reserve_owner a os rs g a' r :
    reserve_owner self a = (a', r) →
    authority_step {| w_authority := a; w_owners := os; w_requests := rs; w_generations := g |}
      {| w_authority := a'; w_owners := match r with Ok o => o :: os | Err _ => os end;
         w_requests := rs; w_generations := g |}
| step_reserve_request a os rs g a' r :
    reserve_request self a = (a', r) →
    authority_step {| w_authority := a; w_owners := os; w_requests := rs; w_generations := g |}
      {| w_authority := a'; w_owners := os;
         w_requests := match r with Ok q => q :: rs | Err _ => rs end; w_generations := g |}
| step_started a os1 o os2 rs g a' o' r :
    started a o = (a', o', r) →
    authority_step
      {| w_authority := a; w_owners := os1 ++ o :: os2; w_requests := rs; w_generations := g |}
      {| w_authority := a'; w_owners := os1 ++ o' :: os2; w_requests := rs;
         w_generations := if is_ok r then S g else g |}
| step_ready a os1 o os2 rs g a' o' r :
    ready a o = (a', o', r) →
    authority_step
      {| w_authority := a; w_owners := os1 ++ o :: os2; w_requests := rs; w_generations := g |}
      {| w_authority := a'; w_owners := os1 ++ o' :: os2; w_requests := rs; w_generations := g |}
| step_waited a os1 o os2 rs g ok a' r :
    waited a o ok = (a', r) →
    authority_step
      {| w_authority := a; w_owners := os1 ++ o :: os2; w_requests := rs; w_generations := g |}
      {| w_authority := a'; w_owners := os1 ++ os2; w_requests := rs; w_generations := g |}
| step_drop_owner a os1 o os2 rs g :
    authority_step
      {| w_authority := a; w_owners := os1 ++ o :: os2; w_requests := rs; w_generations := g |}
      {| w_authority := drop_owner a o; w_owners := os1 ++ os2; w_requests := rs;
         w_generations := g |}
| step_drop_request a os rs1 q rs2 g :
    authority_step
      {| w_authority := a; w_owners := os; w_requests := rs1 ++ q :: rs2; w_generations := g |}
      {| w_authority := drop_request a; w_owners := os; w_requests := rs1 ++ rs2;
         w_generations := g |}
| step_poison a os rs g :
    authority_step {| w_authority := a; w_owners := os; w_requests := rs; w_generations := g |}
      {| w_authority := poison a; w_owners := os; w_requests := rs; w_generations := g |}.

(** The owners and generations each phase allows. *)
Definition owners_ok (p : Phase) (os : list Owner) (g : nat) : Prop :=
  match p with
  | Idle => os = [] ∧ g = 0
  | Reserved => (∃ o, os = [o] ∧ ow_started o = false ∧ ow_finished o = false) ∧ g = 0
  | Started | Ready => (∃ o, os = [o] ∧ ow_started o = true ∧ ow_finished o = false) ∧ g = 1
  | Reaped | Quarantined => os = [] ∧ g = 1
  end.

Record authority_inv (w : world) : Prop := {
  ai_requests : if mx_poisoned (w_authority w)
    then (N.of_nat (length (w_requests w)) <= st_requests (mx_value (w_authority w)))%N
    else N.of_nat (length (w_requests w)) = st_requests (mx_value (w_authority w));
  ai_bound : (st_requests (mx_value (w_authority w)) <= 2)%N;
  ai_owners : if mx_poisoned (w_authority w)
    then length (w_owners w) <= 1 ∧ w_generations w <= 1
    else owners_ok (st_phase (mx_value (w_authority w))) (w_owners w) (w_generations w);
}.

Lemma owners_ok_bounds p os g : owners_ok p os g → length os <= 1 ∧ g <= 1.
Proof. destruct p; intros [Ho ->]; [..|]; try (destruct Ho as (o & -> & _)); subst; cbn; lia. Qed.

(** A phase with a live owner has exactly that one. *)
Lemma owners_ok_live p os1 o os2 g :
  owners_ok p (os1 ++ o :: os2) g →
  os1 = [] ∧ os2 = [] ∧ ow_finished o = false ∧
  (p = Reserved ∧ ow_started o = false ∧ g = 0 ∨
   (p = Started ∨ p = Ready) ∧ ow_started o = true ∧ g = 1).
Proof.
  assert (Hnil : os1 ++ o :: os2 ≠ []) by (by destruct os1).
  destruct p; intros [Ho ->]; try done;
    destruct Ho as (o' & Ho & ? & ?);
    (destruct os1 as [|x [|y os1]]; cbn in Ho; [injection Ho as -> ->|done|done]); naive_solver.
Qed.

(** A poisoned authority only loses tokens. *)
Lemma authority_inv_poisoned a os rs g :
  authority_inv {| w_authority := a; w_owners := os; w_requests := rs; w_generations := g |} →
  ∀ os' rs', length os' <= length os → length rs' <= length rs →
  authority_inv {| w_authority := poison a; w_owners := os'; w_requests := rs'; w_generations := g |}.
Proof.
  intros [Hr Hb Ho] os' rs' Hos Hrs. cbn in *. split; cbn; [|done|].
  - destruct (mx_poisoned a); lia.
  - destruct (mx_poisoned a); [lia|]. apply owners_ok_bounds in Ho. lia.
Qed.

Lemma poison_id (a : Authority) : mx_poisoned a = true → poison a = a.
Proof. destruct a; cbn; by intros ->. Qed.

(** Every operation on a poisoned authority leaves it and creates no token. *)
Lemma poisoned_step w w' :
  mx_poisoned (w_authority w) = true → authority_inv w → authority_step w w' → authority_inv w'.
Proof.
  intros Hp Hinv Hs. destruct Hs; cbn in Hp;
    cbv [reserve_owner reserve_request started ready waited drop_owner drop_request] in *;
    rewrite ?Hp, ?orb_true_r in *; simplify_eq/=;
    rewrite <- (poison_id _ Hp) at 1;
    apply (authority_inv_poisoned _ _ _ _ Hinv); rewrite ?length_app; cbn; lia.
Qed.

(** The one live owner of an authority that is not poisoned moves it along. *)
Lemma live_owner_step p n os1 o os2 g :
  owners_ok p (os1 ++ o :: os2) g →
  let a := Build_Mutex {| st_phase := p; st_requests := n |} false in
  let keeps a' os' g' := mx_poisoned a' = false ∧ st_requests (mx_value a') = n ∧
                         owners_ok (st_phase (mx_value a')) os' g' in
  keeps (started a o).1.1 (os1 ++ (started a o).1.2 :: os2)
        (if is_ok (started a o).2 then S g else g) ∧
  keeps (ready a o).1.1 (os1 ++ (ready a o).1.2 :: os2) g ∧
  (∀ ok, keeps (waited a o ok).1 (os1 ++ os2) g) ∧
  keeps (drop_owner a o) (os1 ++ os2) g.
Proof.
  intros (-> & -> & Hf & Hcase)%owners_ok_live a keeps. destruct o as [self' s f]; cbn in Hf; subst f.
  unfold keeps, a. destruct Hcase as [(-> & Hs & ->)|([-> | ->] & Hs & ->)]; cbn in Hs; subst s.
  all: split_and!; try (intros []); cbn; try done; split; try done; by eexists.
Qed.

Lemma authority_step_inv w w' : authority_inv w → authority_step w w' → authority_inv w'.
Proof.
  intros Hinv Hs. destruct (mx_poisoned (w_authority w)) eqn:Hp; [by eapply poisoned_step|].
  destruct Hinv as [Hr Hb Ho]; rewrite Hp in Hr, Ho.
  destruct Hs as [a os rs g a' r H|a os rs g a' r H|a os1 o os2 rs g a' o' r H
    |a os1 o os2 rs g a' o' r H|a os1 o os2 rs g ok a' r H|a os1 o os2 rs g|a os rs1 q rs2 g|a os rs g];
    destruct a as [[p n] b]; cbn in Hp, Hr, Hb, Ho; subst b.
  - destruct p; cbn in H; simplify_eq; split; cbn; try done.
    destruct Ho as [-> ->]. split; [by eexists|done].
  - cbv [reserve_request] in H; cbn in H.
    destruct (bool_decide (p = Ready)), (2 <=? n)%N eqn:Hn; cbn in H; simplify_eq; split; cbn; try done;
      bool_prop; lia.
  - pose proof (live_owner_step p n os1 o os2 g Ho) as (Hk & _); rewrite H in Hk; cbn in Hk.
    destruct Hk as (Hpo & Hn & Hok). split; cbn; rewrite ?Hpo, ?Hn; done.
  - pose proof (live_owner_step p n os1 o os2 g Ho) as (_ & Hk & _); rewrite H in Hk; cbn in Hk.
    destruct Hk as (Hpo & Hn & Hok). split; cbn; rewrite ?Hpo, ?Hn; done.
  - pose proof (live_owner_step p n os1 o os2 g Ho) as (_ & _ & Hk & _); specialize (Hk ok).
    rewrite H in Hk; cbn in Hk. destruct Hk as (Hpo & Hn & Hok). split; cbn; rewrite ?Hpo, ?Hn; done.
  - pose proof (live_owner_step p n os1 o os2 g Ho) as (_ & _ & _ & Hk); cbn in Hk.
    destruct Hk as (Hpo & Hn & Hok). split; cbn; rewrite ?Hpo, ?Hn; done.
  - rewrite length_app in Hr; cbn in Hr.
    split; cbn; rewrite ?(wrap_sub_small u64_max n 1) by (unfold u64_max; lia); [|lia|done].
    rewrite length_app. lia.
  - split; cbn; [lia|done|by eapply owners_ok_bounds].
Qed.

Lemma authority_inv_initial : authority_inv initial.
Proof. by split; cbn. Qed.

(** A generation that ended, well or not, ended for good. *)
Definition ended (a : Authority) : Prop := phase a = Reaped ∨ phase a = Quarantined.

Lemma ended_refuses a : ended a → reserve_owner self a = (a, Err Closed) ∧
  reserve_request self a = (a, Err Closed).
Proof.
  unfold ended, phase, reserve_owner, reserve_request. destruct (mx_poisoned a); [done|].
  by intros [-> | ->].
Qed.

Lemma ended_step w w' :
  authority_inv w → ended (w_authority w) → authority_step w w' → ended (w_authority w').
Proof.
  intros Hinv He Hs. pose proof (ended_refuses _ He) as [Ho Hq].
  destruct (mx_poisoned (w_authority w)) eqn:Hp.
  { right. unfold phase. destruct Hs; cbn in Hp; 
    cbv [reserve_owner reserve_request started ready waited drop_owner drop_request] in *;
    rewrite ?Hp, ?orb_true_r in *; simplify_eq/=; by rewrite ?Hp. }
  destruct Hinv as [_ _ Hos]. rewrite Hp in Hos. unfold ended, phase in He; rewrite Hp in He.
  destruct Hs; cbn in *; rewrite ?Ho, ?Hq in *; simplify_eq/=.
  all: try (destruct He as [He|He]; rewrite He in Hos; destruct Hos as [Hos _]; by destruct os1).
  all: unfold ended, phase, drop_request, poison; cbn; rewrite ?Hp; cbn; rewrite ?Hp; auto.
Qed.

Lemma ended_forever w w' :
  authority_inv w → ended (w_authority w) → rtc authority_step w w' →
  authority_inv w' ∧ ended (w_authority w').
Proof.
  intros Hi He. apply (rtc_invariant authority_step (λ w, authority_inv w ∧ ended (w_authority w))).
  - intros ? ? [? ?] ?. eauto using authority_step_inv, ended_step.
  - done.
Qed.

(** C28 The authority is fail-stop.  However its operations interleave, at most one
    owner and at most two requests are live, at most one generation is ever started,
    and once that generation was reaped or lost the authority is closed for good:
    every later state refuses every owner and every request. *)
Theorem authority_fail_stop w :
  rtc authority_step initial w →
  length (w_owners w) <= 1 ∧ length (w_requests w) <= 2 ∧ w_generations w <= 1 ∧
  (ended (w_authority w) → ∀ w', rtc authority_step w w' →
     (reserve_owner self (w_authority w')).2 = Err Closed ∧
     (reserve_request self (w_authority w')).2 = Err Closed).
Proof.
  intros Hw. assert (Hi : authority_inv w)
    by (eapply (rtc_invariant _ _ _ _ authority_step_inv); [apply authority_inv_initial|done]).
  pose proof Hi as [Hr Hb Ho]. split_and!.
  - destruct (mx_poisoned _); [apply Ho|apply owners_ok_bounds in Ho; lia].
  - destruct (mx_poisoned _); lia.
  - destruct (mx_poisoned _); [apply Ho|apply owners_ok_bounds in Ho; lia].
  - intros He w' Hw'. destruct (ended_forever w w' Hi He Hw') as [_ He'].
    by destruct (ended_refuses _ He') as [-> ->].
Qed.
End runs.
End Authority.

(** A generation that is started, becomes ready, serves a request and is reaped. *)
Definition reaped_run : Authority.world :=
  {| Authority.w_authority := Mutex_new {| Authority.st_phase := Authority.Reaped;
                                           Authority.st_requests := 1 |};
     Authority.w_owners := []; Authority.w_requests := [{| Authority.rq_authority := 1 |}];
     Authority.w_generations := 1 |}.

Lemma authority_fail_stop_witness :
  Authority.ended (Authority.w_authority reaped_run) ∧
  (Authority.reserve_owner 1 (Authority.w_authority reaped_run)).2 = Err Authority.Closed.
Proof.
  assert (Hr : rtc (Authority.authority_step 1) Authority.initial reaped_run).
  { eapply rtc_l; [by eapply Authority.step_reserve_owner|].
    eapply rtc_l; [by eapply (Authority.step_started 1 _ [] _ [])|].
    eapply rtc_l; [by eapply (Authority.step_ready 1 _ [] _ [])|].
    eapply rtc_l; [by eapply Authority.step_reserve_request|].
    eapply rtc_l; [by eapply (Authority.step_waited 1 _ [] _ [] _ _ true)|].
    apply rtc_refl. }
  assert (He : Authority.ended (Authority.w_authority reaped_run)) by (left; reflexivity).
  split; [exact He|].
  exact (proj1 (proj2 (proj2 (proj2 (Authority.authority_fail_stop 1 reaped_run Hr))) He _
    (rtc_refl _ _))).
Defined.

(** ** Review values *)

Module Policy.

Record Policy := {
  po_platform_bytes : N;
  po_parent_requested_bytes : N;
  po_worker_requested_bytes : N;
  po_headroom_bytes : N;
  po_worker_address_space_bytes : N;
  po_lifetime_cpu_seconds : N;
}.

Definition Policy_validate (p : Policy) : result Authority.Refusal unit :=
  if bool_decide (0%N ∈ [po_platform_bytes p; po_parent_requested_bytes p;
                         po_worker_requested_bytes p; po_headroom_bytes p;
                         po_worker_address_space_bytes p; po_lifetime_cpu_seconds p])
     || (po_worker_address_space_bytes p <? po_worker_requested_bytes p)%N
  then Err Authority.InvalidPolicy else
  planned ← ok_or Authority.InvalidPolicy
    (n ← checked_add u64_max (po_parent_requested_bytes p) (po_worker_requested_bytes p);
     checked_add u64_max n (po_headroom_bytes p));
  if (po_platform_bytes p <? planned)%N then Err Authority.InvalidPolicy else Ok ().

End Policy.

(** ** The drain *)

Module Drain.

Record Snapshot := {
  sn_captures : N;
  sn_metadata : N;
  sn_owners : N;
  sn_closed : bool;
  sn_uncertain : bool;
}.

Inductive Kind := Capture | Metadata | Owner.
#[global] Instance Kind_eq_dec : EqDecision Kind.
Proof. solve_decision. Defined.

Definition Drain := Mutex Snapshot.
Definition Drain_new : Drain :=
  Mutex_new {| sn_captures := 0; sn_metadata := 0; sn_owners := 0; sn_closed := false;
               sn_uncertain := false |}.

Definition count (k : Kind) (s : Snapshot) : N :=
  match k with Capture => sn_captures s | Metadata => sn_metadata s | Owner => sn_owners s end.

Definition set_count (k : Kind) (n : N) (s : Snapshot) : Snapshot :=
  {| sn_captures := if decide (k = Capture) then n else sn_captures s;
     sn_metadata := if decide (k = Metadata) then n else sn_metadata s;
     sn_owners := if decide (k = Owner) then n else sn_owners s;
     sn_closed := sn_closed s; sn_uncertain := sn_uncertain s |}.

Definition set_flags (closed uncertain : bool) (s : Snapshot) : Snapshot :=
  {| sn_captures := sn_captures s; sn_metadata := sn_metadata s; sn_owners := sn_owners s;
     sn_closed := closed; sn_uncertain := uncertain |}.

(** [snapshot] also records that the lock was poisoned. *)
Definition snapshot (d : Drain) : Drain * Snapshot :=
  let s := if mx_poisoned d then set_flags true true (mx_value d) else mx_value d in
  (store d s, s).

Definition close (d : Drain) : Drain :=
  store d (set_flags true (mx_poisoned d || sn_uncertain (mx_value d)) (mx_value d)).

Definition uncertain (d : Drain) : Drain := store d (set_flags true true (mx_value d)).

Definition is_closed (d : Drain) : bool := sn_closed (snapshot d).2.

(** A [Work] ticket is its kind. *)
Definition enter (d : Drain) (kind : Kind) : Drain * result Failure Kind :=
  if mx_poisoned d then (d, Err NoReady) else
  if sn_closed (mx_value d) || sn_uncertain (mx_value d) then (d, Err NoReady) else
  if negb (count kind (mx_value d) =? 0)%N then (d, Err NoReady) else
  (store d (set_count kind 1 (mx_value d)), Ok kind).

Definition drop_work (d : Drain) (kind : Kind) : Drain :=
  store d (set_count kind (wrap_sub u64_max (count kind (mx_value d)) 1) (mx_value d)).

(** [publish] runs [f] under the lock; [now] is the clock it reads there. *)
Definition publish {T} (d : Drain) (now deadline : N) (f : T) : result Failure T :=
  if mx_poisoned d then Err NoReady else
  if (deadline <=? now)%N then Err Deadline else
  if sn_closed (mx_value d) || sn_uncertain (mx_value d) then Err NoReady else Ok f.

(** One turn of the loop of [shutdown], after [close]: a result, or wait for a change. *)
Definition shutdown_poll (d : Drain) : Drain * option (result Failure Snapshot) :=
  let '(d, s) := snapshot d in
  (d, if sn_uncertain s then Some (Err NoReady)
      else if (sn_captures s =? 0)%N && (sn_metadata s =? 0)%N && (sn_owners s =? 0)%N
      then Some (Ok s) else None).

(** An [Initialization] closes its drain when it is dropped while armed. *)
Definition drop_initialization (d : Drain) (armed : bool) : Drain := if armed then close d else d.

Definition Initialization_publish {T} (d : Drain) (now deadline : N) (f : T) :
    Drain * result Failure T :=
  match publish d now deadline f with
  | Ok r => (drop_initialization d false, Ok r)
  | Err e => (drop_initialization d true, Err e)
  end.

Definition handoff (d : Drain) : Drain := drop_initialization d false.

(** ** Runs of one drain, with its live tickets and the number of publications *)

Record world := { w_drain : Drain; w_tickets : list Kind; w_published : nat }.
Definition initial : world := {| w_drain := Drain_new; w_tickets := []; w_published := 0 |}.

Inductive drain_step : relation world :=
| step_enter d ts n k d' r :
    enter d k = (d', r) →
    drain_step {| w_drain := d; w_tickets := ts; w_published := n |}
      {| w_drain := d'; w_tickets := match r with Ok t => t :: ts | Err _ => ts end;
         w_published := n |}
| step_drop_work d ts1 k ts2 n :
    drain_step {| w_drain := d; w_tickets := ts1 ++ k :: ts2; w_published := n |}
      {| w_drain := drop_work d k; w_tickets := ts1 ++ ts2; w_published := n |}
| step_close d ts n :
    drain_step {| w_drain := d; w_tickets := ts; w_published := n |}
      {| w_drain := close d; w_tickets := ts; w_published := n |}
| step_uncertain d ts n :
    drain_step {| w_drain := d; w_tickets := ts; w_published := n |}
      {| w_drain := uncertain d; w_tickets := ts; w_published := n |}
| step_snapshot d ts n :
    drain_step {| w_drain := d; w_tickets := ts; w_published := n |}
      {| w_drain := (snapshot d).1; w_tickets := ts; w_published := n |}
| step_publish d ts n now deadline :
    drain_step {| w_drain := d; w_tickets := ts; w_published := n |}
      {| w_drain := d; w_tickets := ts;
         w_published := if is_ok (publish d now deadline ()) then S n else n |}
| step_initialization d ts n now deadline d' r :
    Initialization_publish d now deadline () = (d', r) →
    drain_step {| w_drain := d; w_tickets := ts; w_published := n |}
      {| w_drain := d'; w_tickets := ts; w_published := if is_ok r then S n else n |}
| step_poison d ts n :
    drain_step {| w_drain := d; w_tickets := ts; w_published := n |}
      {| w_drain := poison d; w_tickets := ts; w_published := n |}.

(** Tickets of one kind. *)
Definition tickets (k : Kind) (ts : list Kind) : nat := length (filter (k =.) ts).
Arguments tickets : simpl never.

(** Each count is the number of live tickets of its kind, at most one; uncertainty
    implies closure. *)
Record drain_inv (w : world) : Prop := {
  di_count : ∀ k, count k (mx_value (w_drain w)) = N.of_nat (tickets k (w_tickets w));
  di_single : ∀ k, tickets k (w_tickets w) <= 1;
  di_uncertain : sn_uncertain (mx_value (w_drain w)) = true → sn_closed (mx_value (w_drain w)) = true;
}.

Lemma count_set_count k k' n s :
  count k' (set_count k n s) = if decide (k = k') then n else count k' s.
Proof. destruct k, k'; done. Qed.

Lemma count_set_flags k c u s : count k (set_flags c u s) = count k s.
Proof. by destruct k. Qed.

Lemma tickets_cons k t ts : tickets k (t :: ts) = (if decide (k = t) then 1 else 0) + tickets k ts.
Proof. unfold tickets. rewrite filter_cons. by destruct (decide (k = t)). Qed.

Lemma tickets_app k ts1 ts2 : tickets k (ts1 ++ ts2) = tickets k ts1 + tickets k ts2.
Proof. unfold tickets. by rewrite filter_app, length_app. Qed.

(** Operations that only close keep the invariant. *)
Lemma drain_inv_flags d ts n n' c u b :
  drain_inv {| w_drain := d; w_tickets := ts; w_published := n |} →
  (u = true → c = true) →
  drain_inv {| w_drain := Build_Mutex (set_flags c u (mx_value d)) b; w_tickets := ts;
               w_published := n' |}.
Proof. intros [Hc Hs Hu] ?. split; cbn in *; [|done|done]. intros k. by rewrite count_set_flags. Qed.

Lemma drain_inv_same d ts n n' b :
  drain_inv {| w_drain := d; w_tickets := ts; w_published := n |} →
  drain_inv {| w_drain := Build_Mutex (mx_value d) b; w_tickets := ts; w_published := n' |}.
Proof. intros [Hc Hs Hu]. by split. Qed.

Lemma Mutex_eta {A} (m : Mutex A) : Build_Mutex (mx_value m) (mx_poisoned m) = m.
Proof. by destruct m. Qed.

Lemma drain_inv_close d ts n n' :
  drain_inv {| w_drain := d; w_tickets := ts; w_published := n |} →
  drain_inv {| w_drain := close d; w_tickets := ts; w_published := n' |}.
Proof. intros H. by eapply drain_inv_flags. Qed.

Lemma drain_step_inv w w' : drain_inv w → drain_step w w' → drain_inv w'.
Proof.
  intros Hi Hs. destruct Hs as [d ts n k d' r H|d ts1 k ts2 n|d ts n|d ts n|d ts n|d ts n now dl
    |d ts n now dl d' r H|d ts n].
  - unfold enter in H. destruct (mx_poisoned d); simplify_eq; [done|].
    destruct (_ || _); simplify_eq; [done|].
    destruct (count k (mx_value d) =? 0)%N eqn:Hk; simplify_eq/=; [|done].
    bool_prop. destruct Hi as [Hc Hs Hu]. cbn in *.
    assert (Hz : tickets k ts = 0) by (specialize (Hc k); lia).
    split; cbn; [|intros k'; rewrite tickets_cons; specialize (Hs k'); case_decide; subst; lia|done].
    intros k'. rewrite count_set_count, tickets_cons, (Hc k').
    repeat case_decide; subst; congruence || lia.
  - destruct Hi as [Hc Hs Hu]. cbn in *.
    assert (H1 : ∀ k', tickets k' (ts1 ++ k :: ts2) =
                        (if decide (k' = k) then 1 else 0) + tickets k' (ts1 ++ ts2)).
    { intros k'. rewrite !tickets_app, tickets_cons. lia. }
    split; cbn; [|intros k'; specialize (Hs k'); rewrite H1 in Hs; lia|done].
    intros k'. rewrite count_set_count. pose proof (Hc k') as Hk'. pose proof (Hs k') as Hsk.
    rewrite H1 in Hk', Hsk. destruct (decide (k = k')) as [->|Hne].
    + rewrite decide_True in Hk', Hsk by done. rewrite Hk', wrap_sub_small by (unfold u64_max; lia). lia.
    + rewrite decide_False in Hk' by congruence. lia.
  - by eapply drain_inv_close.
  - by eapply drain_inv_flags.
  - unfold snapshot, store; cbn. destruct (mx_poisoned d); [by eapply drain_inv_flags|].
    by eapply drain_inv_same.
  - rewrite <- (Mutex_eta d) at 1. by eapply drain_inv_same.
  - unfold Initialization_publish, drop_initialization in H. destruct (publish _ _ _ _); simplify_eq.
    + rewrite <- (Mutex_eta d'). by eapply drain_inv_same.
    + by eapply drain_inv_close.
  - by eapply drain_inv_same.
Qed.

Lemma drain_inv_reachable w : rtc drain_step initial w → drain_inv w.
Proof.
  apply (rtc_invariant _ _ _ _ drain_step_inv). split; [by intros []|intros []; unfold tickets; cbn; lia|done].
Qed.

(** Closed for admission: by a flag, or by a poisoned lock. *)
Definition refuses (d : Drain) : Prop := mx_poisoned d = true ∨ sn_closed (mx_value d) = true.

Lemma refuses_no_ticket d k : refuses d → enter d k = (d, Err NoReady).
Proof. unfold enter. intros [-> | ->]; [done|]. by destruct (mx_poisoned d). Qed.

Lemma refuses_no_publication {T} d now deadline (f : T) :
  refuses d → is_ok (publish d now deadline f) = false.
Proof.
  unfold publish. intros [-> | ->]; [done|]. by destruct (mx_poisoned d), (deadline <=? now)%N.
Qed.

(** A closed drain stays closed, gains no ticket and publishes nothing more. *)
Lemma refuses_step w w' :
  refuses (w_drain w) → drain_step w w' →
  refuses (w_drain w') ∧ (∀ k, tickets k (w_tickets w') <= tickets k (w_tickets w)) ∧
  w_published w' = w_published w.
Proof.
  intros Hr Hs. destruct Hs as [d ts n k d' r H|d ts1 k ts2 n|d ts n|d ts n|d ts n|d ts n now dl
    |d ts n now dl d' r H|d ts n]; cbn in Hr |- *.
  - rewrite refuses_no_ticket in H by done. by simplify_eq/=.
  - split_and!; [by destruct Hr; [left|right]| |done].
    intros k'. rewrite !tickets_app, tickets_cons. lia.
  - split_and!; [by right|done|done].
  - split_and!; [by right|done|done].
  - split_and!; [|done|done]. destruct Hr as [Hr|Hr]; [by left|right; cbn]. by destruct (mx_poisoned d).
  - by rewrite refuses_no_publication.
  - unfold Initialization_publish in H. pose proof (refuses_no_publication d now dl () Hr) as Hp.
    destruct (publish _ _ _ _); [done|]. simplify_eq/=. split_and!; [by right|done|done].
  - split_and!; [by left|done|done].
Qed.

(** Shutdown is final.  When the loop of [shutdown] reports success on a closed
    drain, no work is in flight; and from then on no ticket is ever granted and
    nothing is ever published, whatever operations follow. *)
Theorem drained_is_final w d' s :
  rtc drain_step initial w → sn_closed (mx_value (w_drain w)) = true →
  shutdown_poll (w_drain w) = (d', Some (Ok s)) →
  w_tickets w = [] ∧
  ∀ w', rtc drain_step w w' → w_tickets w' = [] ∧ w_published w' = w_published w.
Proof.
  intros Hw Hc Hp. pose proof (drain_inv_reachable w Hw) as [Hcount _ _].
  assert (Hz : ∀ k, tickets k (w_tickets w) = 0).
  { unfold shutdown_poll, snapshot in Hp. destruct (mx_poisoned (w_drain w)); cbn in Hp; [done|].
    destruct (sn_uncertain _); [done|]. destruct (_ && _) eqn:H0; [|done]. bool_prop.
    intros k. specialize (Hcount k). destruct k; cbn in Hcount; lia. }
  assert (Hnil : ∀ ts, (∀ k, tickets k ts = 0) → ts = []).
  { intros [|t ts] H0; [done|]. specialize (H0 t). rewrite tickets_cons, decide_True in H0 by done. lia. }
  split; [by apply Hnil|]. intros w' Hrun.
  assert (Hkeep : refuses (w_drain w') ∧ (∀ k, tickets k (w_tickets w') = 0) ∧
                  w_published w' = w_published w).
  { revert Hrun. apply (rtc_invariant drain_step (λ v, refuses (w_drain v) ∧
      (∀ k, tickets k (w_tickets v) = 0) ∧ w_published v = w_published w)).
    - intros a b (Ha & Hta & Hpa) Hab. destruct (refuses_step a b Ha Hab) as (Hb & Htb & Hpb).
      split_and!; [done| |congruence]. intros k. specialize (Htb k). specialize (Hta k). lia.
    - split_and!; [by right|done|done]. }
  destruct Hkeep as (_ & Ht & ?). split; [by apply Hnil|done].
Qed.
End Drain.

(** One metadata job enters, the drain is closed, the job ends. *)
Definition drained_run : Drain.world :=
  {| Drain.w_drain := Mutex_new {| Drain.sn_captures := 0; Drain.sn_metadata := 0;
                                   Drain.sn_owners := 0; Drain.sn_closed := true;
                                   Drain.sn_uncertain := false |};
     Drain.w_tickets := []; Drain.w_published := 0 |}.

Lemma drained_is_final_witness :
  Drain.w_tickets drained_run = [].
Proof.
  assert (Hr : rtc Drain.drain_step Drain.initial drained_run).
  { eapply rtc_l; [by eapply (Drain.step_enter _ _ _ Drain.Metadata)|].
    eapply rtc_l; [eapply Drain.step_close|].
    eapply rtc_l; [eapply (Drain.step_drop_work _ [] Drain.Metadata [])|].
    apply rtc_refl. }
  refine (proj1 (Drain.drained_is_final drained_run _ _ Hr eq_refl eq_refl)).
Defined.

(** ** The start rate

    Instants and durations in nanoseconds. *)

Module StartRate.

Record Rate := { ra_starts : list N; ra_last : N; ra_pending : N }.
Definition window : N := 30 * 1000000000.

Definition Rate_new (now : N) : Rate := {| ra_starts := []; ra_last := now; ra_pending := 0 |}.

(** The pops at the front of the deque. *)
Fixpoint prune_starts (starts : list N) (now : N) : list N :=
  match starts with
  | t :: rest => if (t + window <=? now)%N then prune_starts rest now else starts
  | [] => []
  end.

Definition Rate_reserve (r : Rate) (now : N) : Rate * bool :=
  let now := N.max now (ra_last r) in
  let starts := prune_starts (ra_starts r) now in
  if (2 <=? N.of_nat (length starts) + ra_pending r)%N
  then ({| ra_starts := starts; ra_last := now; ra_pending := ra_pending r |}, false)
  else ({| ra_starts := starts ++ [now]; ra_last := now; ra_pending := ra_pending r |}, true).

Definition Rate_begin (r : Rate) (now : N) : Rate * bool :=
  match Rate_reserve r now with
  | (r, false) => (r, false)
  | (r, true) =>
      ({| ra_starts := removelast (ra_starts r); ra_last := ra_last r; ra_pending := ra_pending r + 1 |},
       true)
  end.

Definition Rate_finish (r : Rate) (now : N) : Rate :=
  let now := N.max now (ra_last r) in
  {| ra_starts := ra_starts r ++ [now]; ra_last := now; ra_pending := wrap_sub u64_max (ra_pending r) 1 |}.

(** A run, with the attempts in flight and the times at which attempts ended.  An
    attempt in flight is a [RateAttempt]; dropping it ends the attempt. *)
Record world := { w_rate : Rate; w_attempts : N; w_ended : list N }.

Inductive rate_step : relation world :=
| step_begin r n log now r' b :
    Rate_begin r now = (r', b) →
    rate_step {| w_rate := r; w_attempts := n; w_ended := log |}
      {| w_rate := r'; w_attempts := if b then n + 1 else n; w_ended := log |}
| step_finish r n log now :
    (0 < n)%N →
    rate_step {| w_rate := r; w_attempts := n; w_ended := log |}
      {| w_rate := Rate_finish r now; w_attempts := n - 1; w_ended := log ++ [ra_last (Rate_finish r now)] |}.

Definition initial (now : N) : world := {| w_rate := Rate_new now; w_attempts := 0; w_ended := [] |}.

(** Attempts that ended in the window that starts at [x]. *)
Definition ended_within (x : N) (log : list N) : nat :=
  length (filter (λ t, x <= t < x + window)%N log).
Arguments ended_within : simpl never.

Record rate_inv (w : world) : Prop := {
  ri_pending : ra_pending (w_rate w) = w_attempts w;
  ri_room : (N.of_nat (length (ra_starts (w_rate w))) + ra_pending (w_rate w) <= 2)%N;
  ri_log : ∃ old, w_ended w = old ++ ra_starts (w_rate w) ∧
             Forall (λ t, t + window <= ra_last (w_rate w))%N old;
  ri_past : Forall (λ t, t <= ra_last (w_rate w))%N (w_ended w);
  ri_windows : ∀ x, ended_within x (w_ended w) <= 2;
}.

Lemma prune_suffix starts now :
  ∃ gone, starts = gone ++ prune_starts starts now ∧ Forall (λ t, t + window <= now)%N gone.
Proof.
  induction starts as [|t starts (gone & IH & Hg)]; cbn [prune_starts]; [by exists []|].
  destruct (t + window <=? now)%N eqn:Ht; [|by exists []].
  bool_prop. exists (t :: gone). split; [cbn; by f_equal|]. by constructor.
Qed.

(** A failed or successful [Rate_begin] prunes, and a successful one finds room. *)
Lemma begin_spec r now r' b :
  Rate_begin r now = (r', b) →
  ra_last r' = N.max now (ra_last r) ∧ ra_starts r' = prune_starts (ra_starts r) (N.max now (ra_last r)) ∧
  if b then (N.of_nat (length (ra_starts r')) + ra_pending r' <= 2)%N ∧
            ra_pending r' = (ra_pending r + 1)%N
  else ra_pending r' = ra_pending r.
Proof.
  unfold Rate_begin, Rate_reserve. destruct (2 <=? _)%N eqn:H2; intros; simplify_eq/=; [done|].
  bool_prop. rewrite removelast_last. split_and!; try done; lia.
Qed.

(** A new end of an attempt keeps every window within its bound. *)
Lemma ended_within_snoc x log t :
  ended_within x (log ++ [t]) =
  ended_within x log + if decide (x <= t < x + window)%N then 1 else 0.
Proof.
  unfold ended_within. rewrite filter_app, length_app. f_equal.
  rewrite filter_cons. by case_decide.
Qed.

(** The ends a window reaching past the last instant sees are still in the deque. *)
Lemma ended_within_recent x old starts last :
  Forall (λ t, t + window <= last)%N old → (last < x + window)%N →
  ended_within x (old ++ starts) <= length starts.
Proof.
  intros Hold Hx. unfold ended_within. rewrite filter_app, length_app.
  assert (Hnone : filter (λ t, x <= t < x + window)%N old = []).
  { induction Hold as [|t old Ht Hold IH]; [done|]. rewrite filter_cons.
    rewrite decide_False; [done|lia]. }
  rewrite Hnone. cbn. apply length_filter.
Qed.

Lemma rate_step_inv w w' : rate_inv w → rate_step w w' → rate_inv w'.
Proof.
  intros [Hp Hr (old & Hlog & Hold) Hpast Hw] Hs.
  destruct Hs as [r n log now r' b Hb|r n log now Hn]; cbn in *.
  - apply begin_spec in Hb as (Hl & Hst & Hb).
    destruct (prune_suffix (ra_starts r) (N.max now (ra_last r))) as (gone & Hsplit & Hg).
    assert (Hlen : length (ra_starts r') <= length (ra_starts r))
      by (rewrite Hsplit, Hst, length_app; lia).
    split; cbn; [destruct b; lia|destruct b; lia| | |done].
    + exists (old ++ gone). rewrite Hst, Hl, <- app_assoc, <- Hsplit. split; [done|].
      apply Forall_app. split; [|done]. eapply Forall_impl; [done|]. cbn. lia.
    + eapply Forall_impl; [done|]. cbn. lia.
  - assert (Hpend : wrap_sub u64_max (ra_pending r) 1 = (n - 1)%N)
      by (rewrite wrap_sub_small, Hp; unfold u64_max; lia).
    split; cbn; rewrite ?Hpend; [done|rewrite length_app; cbn; lia| | |].
    + exists old. rewrite Hlog, <- app_assoc. split; [done|].
      eapply Forall_impl; [done|]. cbn. lia.
    + apply Forall_app. split; [|by repeat constructor; lia].
      eapply Forall_impl; [done|]. cbn. lia.
    + intros x. rewrite ended_within_snoc. case_decide; [|specialize (Hw x); lia].
      rewrite Hlog. pose proof (ended_within_recent x old (ra_starts r) (ra_last r) Hold). lia.
Qed.

(** The controller never starts its child more often than the rate allows: at
    most two attempts are in flight, and whatever the clock readings and however
    long the attempts take, at most two attempts end within any thirty seconds. *)
Theorem starts_rate_limited now0 w :
  rtc rate_step (initial now0) w →
  (w_attempts w <= 2)%N ∧ ∀ x, length (filter (λ t, x <= t < x + window)%N (w_ended w)) <= 2.
Proof.
  intros Hrun. assert (Hi : rate_inv w).
  { revert Hrun. apply (rtc_invariant _ _ _ _ rate_step_inv). split; cbn; [done|lia| |done|].
    - by exists [].
    - intros x. unfold ended_within. cbn. lia. }
  destruct Hi as [Hp Hr _ _ Hw]. split; [lia|exact Hw].
Qed.
End StartRate.

(** Two attempts that end at once; a third is refused. *)
Definition rate_run : StartRate.world :=
  {| StartRate.w_rate := {| StartRate.ra_starts := [7; 9]%N; StartRate.ra_last := 10;
                            StartRate.ra_pending := 0 |};
     StartRate.w_attempts := 0; StartRate.w_ended := [7; 9]%N |}.

Lemma starts_rate_limited_witness :
  (StartRate.w_attempts rate_run <= 2)%N ∧ (StartRate.Rate_begin (StartRate.w_rate rate_run) 10).2 = false.
Proof.
  assert (Hr : rtc StartRate.rate_step (StartRate.initial 5) rate_run).
  { eapply rtc_l; [by eapply (StartRate.step_begin _ _ _ 6)|].
    eapply rtc_l; [by eapply (StartRate.step_finish _ _ _ 7)|].
    eapply rtc_l; [by eapply (StartRate.step_begin _ _ _ 8)|].
    eapply rtc_l; [by eapply (StartRate.step_finish _ _ _ 9)|].
    eapply rtc_l; [by eapply (StartRate.step_begin _ _ _ 10)|].
    apply rtc_refl. }
  split; [|reflexivity]. exact (proj1 (StartRate.starts_rate_limited 5 rate_run Hr)).
Defined.
