(* ===== verification/ValidatorBudget.v ===== *)
(** * The memory budget of the validator controller

    Model of [frameworks/light-lambda-runtime/src/validator_ipc/budget.rs] and
    [accounting.rs]: the shared budget whose counter is advanced by a
    compare-and-exchange loop, the credits that hold its bytes, the iterative
    measure of an event, and the reservations for metadata.  [usize] is 64 bits
    wide and so are references; the sizes of the other Rust types are a parameter. *)

From S2P Require Import Prelude RustStr JsonText Supervision.

Record Budget := { bu_limit : N; bu_used : N; bu_peak : N }.
Definition Budget_new (limit : N) : Budget := {| bu_limit := limit; bu_used := 0; bu_peak := 0 |}.

Definition set_used (u : N) (b : Budget) : Budget :=
  {| bu_limit := bu_limit b; bu_used := u; bu_peak := bu_peak b |}.
Definition raise_peak (n : N) (b : Budget) : Budget :=
  {| bu_limit := bu_limit b; bu_used := bu_used b; bu_peak := N.max (bu_peak b) n |}.
Definition sub_used (n : N) (b : Budget) : Budget := set_used (wrap_sub u64_max (bu_used b) n) b.

(** The value the loop of [add] wants to store over [old]. *)
Definition next_used (limit old bytes : N) : result Failure N :=
  ok_or ParentBudget
    (n ← checked_add u64_max old bytes; if (n <=? limit)%N then Some n else None).

(** [add] when no other thread runs: the first exchange succeeds. *)
Definition add (b : Budget) (bytes : N) : Budget * result Failure unit :=
  match next_used (bu_limit b) (bu_used b) bytes with
  | Ok next => (raise_peak next (set_used next b), Ok ())
  | Err e => (b, Err e)
  end.

(** A credit is the number of bytes it holds. *)
Definition Credit := N.
Definition reserve (b : Budget) (bytes : N) : Budget * result Failure Credit :=
  match add b bytes with (b, Ok _) => (b, Ok bytes) | (b, Err e) => (b, Err e) end.
Definition grow (b : Budget) (c : Credit) (n : N) : Budget * result Failure Credit :=
  match add b n with (b, Ok _) => (b, Ok (c + n)%N) | (b, Err e) => (b, Err e) end.
Definition release (b : Budget) (c : Credit) (n : N) : Budget * Credit :=
  (sub_used n b, wrap_sub u64_max c n).
Definition drop_credit (b : Budget) (c : Credit) : Budget := sub_used c b.

(** ** Threads that share a budget

    One step per atomic operation.  A thread owns a credit ([held] bytes) and may be
    inside [add] on its behalf: about to exchange what it loaded, or between the
    exchange and the update of the peak. *)

Inductive add_state := Quiet | Exchange (bytes old : N) | Exchanged (bytes next : N).
Record thread := { th_held : N; th_add : add_state }.
Definition idle : thread := {| th_held := 0; th_add := Quiet |}.

Inductive budget_step : relation (Budget * list thread) :=
| step_load b ts i h n :
    ts !! i = Some {| th_held := h; th_add := Quiet |} →
    budget_step (b, ts) (b, <[i := {| th_held := h; th_add := Exchange n (bu_used b) |}]> ts)
| step_refuse b ts i h n old e :
    ts !! i = Some {| th_held := h; th_add := Exchange n old |} →
    next_used (bu_limit b) old n = Err e →
    budget_step (b, ts) (b, <[i := {| th_held := h; th_add := Quiet |}]> ts)
| step_exchange b ts i h n old next :
    ts !! i = Some {| th_held := h; th_add := Exchange n old |} →
    next_used (bu_limit b) old n = Ok next → bu_used b = old →
    budget_step (b, ts) (set_used next b, <[i := {| th_held := h; th_add := Exchanged n next |}]> ts)
| step_retry b ts i h n old next :
    ts !! i = Some {| th_held := h; th_add := Exchange n old |} →
    next_used (bu_limit b) old n = Ok next → bu_used b ≠ old →
    budget_step (b, ts) (b, <[i := {| th_held := h; th_add := Exchange n (bu_used b) |}]> ts)
| step_peak b ts i h n next :
    ts !! i = Some {| th_held := h; th_add := Exchanged n next |} →
    budget_step (b, ts) (raise_peak next b, <[i := {| th_held := (h + n)%N; th_add := Quiet |}]> ts)
| step_release b ts i h n :
    ts !! i = Some {| th_held := h; th_add := Quiet |} → (n <= h)%N →
    budget_step (b, ts) (sub_used n b, <[i := {| th_held := (h - n)%N; th_add := Quiet |}]> ts).

(** Bytes a thread has taken from the budget, and what it will report as peak. *)
Definition taken (t : thread) : N :=
  th_held t + match th_add t with Exchanged n _ => n | _ => 0 end.
Definition reported (t : thread) : N := match th_add t with Exchanged _ next => next | _ => 0 end.


(** The counter is what the threads took, within the limit; it is covered by the
    peak, or by a peak a thread is about to report. *)
Record budget_inv (limit : N) (s : Budget * list thread) : Prop := {
  bi_limit : bu_limit s.1 = limit;
  bi_used : bu_used s.1 = total taken s.2;
  bi_bound : (bu_used s.1 <= limit)%N;
  bi_peak : (bu_peak s.1 <= limit)%N;
  bi_reported : ∀ i t, s.2 !! i = Some t → (reported t <= limit)%N;
  bi_covered : (bu_used s.1 <= bu_peak s.1)%N ∨
               ∃ i t, s.2 !! i = Some t ∧ (bu_used s.1 <= reported t)%N;
}.

Lemma next_used_Ok limit old bytes next :
  next_used limit old bytes = Ok next ↔ (next = old + bytes ∧ next <= limit ∧ next <= u64_max)%N.
Proof.
  unfold next_used. rewrite ok_or_Ok. destruct (checked_add _ _ _) as [n|] eqn:Hn; cbn.
  - apply checked_add_Some in Hn as [-> Hn]. case_match; bool_prop; naive_solver lia.
  - unfold checked_add in Hn. case_match; [done|]. bool_prop. naive_solver lia.
Qed.

(** A thread that has nothing to report can be replaced. *)
Lemma covered_replace b b' (ts : list thread) i t t' :
  ts !! i = Some t → (bu_used b' <= bu_used b)%N → (bu_peak b <= bu_peak b')%N →
  (reported t <= N.max (bu_peak b') (reported t'))%N →
  (bu_used b <= bu_peak b)%N ∨ (∃ j u, ts !! j = Some u ∧ (bu_used b <= reported u)%N) →
  (bu_used b' <= bu_peak b')%N ∨
  (∃ j u, <[i := t']> ts !! j = Some u ∧ (bu_used b' <= reported u)%N).
Proof.
  intros Hi Hu Hp Hr [H|(j & u & Hj & H)]; [left; lia|].
  destruct (decide (i = j)) as [<-|Hne].
  - simplify_eq. destruct (decide (bu_used b' <= bu_peak b')%N); [by left|right].
    exists i, t'. rewrite list_lookup_insert_eq by (by eapply lookup_lt_Some). split; [done|lia].
  - right. exists j, u. rewrite list_lookup_insert_ne by done. split; [done|lia].
Qed.

Lemma reported_replace limit (ts : list thread) i t' :
  (∀ j t, ts !! j = Some t → (reported t <= limit)%N) → (reported t' <= limit)%N →
  ∀ j t, <[i := t']> ts !! j = Some t → (reported t <= limit)%N.
Proof. intros H Ht' j t [(-> & -> & _)|[_ Hj]]%list_lookup_insert_Some; [done|by eapply H]. Qed.

(** A step that leaves the budget alone and the thread with what it took. *)
Lemma budget_inv_quiet limit b ts i t t' :
  budget_inv limit (b, ts) → ts !! i = Some t → taken t' = taken t → reported t = 0%N →
  reported t' = 0%N → budget_inv limit (b, <[i := t']> ts).
Proof.
  intros [] Hi Ht Hr Hr'. split; cbn in *; try done.
  - pose proof (total_insert taken ts i t t' Hi). lia.
  - eapply reported_replace; [done|lia].
  - eapply (covered_replace b b); try done; lia.
Qed.

Lemma budget_step_inv limit s s' :
  (limit <= u64_max)%N → budget_inv limit s → budget_step s s' → budget_inv limit s'.
Proof.
  intros Hm Hinv Hs.
  destruct Hs as [b ts i h n Hi|b ts i h n old e Hi|b ts i h n old next Hi Hn Hold
    |b ts i h n old next Hi|b ts i h n next Hi|b ts i h n Hi Hle];
    try (by eapply budget_inv_quiet).
  - destruct Hinv as [Hlim Hu Hb Hp Hr Hc]. cbn in *. apply next_used_Ok in Hn as (-> & Hn & _).
    pose proof (total_insert taken ts i _ {| th_held := h; th_add := Exchanged n (old + n) |} Hi) as Ht.
    unfold taken in Ht at 2 4; cbn in Ht. split; cbn; [done|lia|lia|done|eapply reported_replace; [done|cbn; lia]|].
    right. exists i. eexists. split; [apply list_lookup_insert_eq; by eapply lookup_lt_Some|cbn; lia].
  - destruct Hinv as [Hlim Hu Hb Hp Hr Hc]. cbn in *. pose proof (Hr i _ Hi) as Hrep. cbn in Hrep.
    pose proof (total_insert taken ts i _ {| th_held := h + n; th_add := Quiet |} Hi) as Ht.
    unfold taken in Ht at 2 4; cbn in Ht. split; cbn; [done|lia|lia|lia|eapply reported_replace; [done|cbn; lia]|].
    apply (covered_replace b (raise_peak next b) _ _ _ _ Hi); cbn; try done; lia.
  - destruct Hinv as [Hlim Hu Hb Hp Hr Hc]. cbn in *.
    pose proof (total_insert taken ts i _ {| th_held := h - n; th_add := Quiet |} Hi) as Ht.
    pose proof (total_lookup taken ts i _ Hi) as Hle'. unfold taken in Ht at 2 4, Hle' at 1; cbn in Ht, Hle'.
    assert (Hsub : wrap_sub u64_max (bu_used b) n = (bu_used b - n)%N) by (apply wrap_sub_small; lia).
    split; cbn; rewrite ?Hsub; [done|lia|lia|done|eapply reported_replace; [done|cbn; lia]|].
    rewrite <- Hsub. apply (covered_replace b (sub_used n b) _ _ _ _ Hi); cbn; try done; lia.
Qed.

(** C22 The budget is never overrun, whatever the interleaving of the threads' loads,
    exchanges, retries, releases and drops: the counter is exactly the bytes the
    threads hold or are about to hold, it and the recorded peak stay within the
    limit, and when no thread is inside [add] the counter is the sum of the live
    credits and the peak covers it. *)
Theorem parent_budget_never_overrun limit k b ts :
  (limit <= u64_max)%N → rtc budget_step (Budget_new limit, replicate k idle) (b, ts) →
  bu_used b = total taken ts ∧ (bu_used b <= limit)%N ∧ (bu_peak b <= limit)%N ∧
  (Forall (λ t, th_add t = Quiet) ts → bu_used b = total th_held ts ∧ (bu_used b <= bu_peak b)%N).
Proof.
  intros Hm Hrun. assert (Hi : budget_inv limit (b, ts)).
  { revert Hrun. apply (rtc_invariant budget_step (budget_inv limit)).
    { intros ? ? ? ?. by eapply budget_step_inv. }
    assert (Hz : total taken (replicate k idle) = 0%N) by (clear; induction k as [|k IH]; [done|by cbn; rewrite IH]).
    split; cbn; [done|by rewrite Hz|lia|lia| |left; lia]. intros i t [-> _]%lookup_replicate. cbn. lia. }
  destruct Hi as [Hl Hu Hb Hp Hr Hc]. cbn in *. split_and!; [done..|].
  intros Hq. split.
  - rewrite Hu. clear -Hq. induction Hq as [|t ts Ht Hq IH]; cbn; [done|].
    rewrite IH. unfold taken. rewrite Ht. lia.
  - destruct Hc as [?|(i & t & Hi & Ht)]; [done|]. rewrite Forall_lookup in Hq.
    specialize (Hq i t Hi). unfold reported in Ht. rewrite Hq in Ht. lia.
Qed.

(** Two threads race for ten bytes: the second loses the exchange, retries and is refused. *)
Definition raced_budget : Budget := {| bu_limit := 10; bu_used := 6; bu_peak := 6 |}.

Lemma parent_budget_never_overrun_witness :
  bu_used raced_budget = total taken [{| th_held := 6; th_add := Quiet |}; idle] ∧
  (bu_peak raced_budget <= 10)%N.
Proof.
  assert (Hr : rtc budget_step (Budget_new 10, replicate 2 idle)
                 (raced_budget, [{| th_held := 6; th_add := Quiet |}; idle])).
  { eapply rtc_l; [by apply (step_load _ _ 0 0 6)|].
    eapply rtc_l; [by apply (step_load _ _ 1 0 5)|].
    eapply rtc_l; [by apply (step_exchange _ _ 0 0 6 0 6)|].
    eapply rtc_l; [by apply (step_retry _ _ 1 0 5 0 5)|].
    eapply rtc_l; [by apply (step_refuse _ _ 1 0 5 6 ParentBudget)|].
    eapply rtc_l; [by apply (step_peak _ _ 0 0 6 6)|].
    apply rtc_refl. }
  destruct (parent_budget_never_overrun 10 2 _ _ ltac:(by vm_compute) Hr) as (Hu & _ & Hp & _).
  split; [exact Hu|exact Hp].
Defined.

(** ** Measuring an event *)

Definition FRAME : N := 4194304.

(** Sizes of Rust types on the pinned build. *)
Class Layout := { size_value : N; size_string : N }.
Definition size_usize : N := 8.
Definition size_ref : N := 8.

(** JSON numbers and the text [serde_json] writes for them. *)
Class JsonNumber := { num : Type; num_text : num → string }.

(** [serde_json::Value]; strings and arrays carry their capacities. *)
Inductive Value `{!JsonNumber} :=
| Null
| Bool (b : bool)
| Number (n : num)
| VString (s : string) (capacity : N)
| Array (items : list Value) (capacity : N)
| Object (members : list (string * N * Value)).

Section measure.
Context {LO : Layout} {JN : JsonNumber}.
(** Whether the allocator grants [try_reserve_exact] this many more slots. *)
Context (alloc : N → bool).

Definition MAP_NODE : N := 11 * (size_string + size_value) + 15 * size_usize.

(** Bytes a string byte takes in JSON text. *)
Definition escaped (c : Ascii.ascii) : N :=
  let b := byte c in
  if ((b =? 34) || (b =? 92) || (b =? 8) || (b =? 9) || (b =? 10) || (b =? 12) || (b =? 13))%N then 2
  else if (b <=? 31)%N then 6 else 1.

(** The [try_fold] of [quote]. *)
Fixpoint quote_bytes (n : N) (l : list Ascii.ascii) : result Failure N :=
  match l with
  | [] => Ok n
  | c :: rest =>
      n ← ok_or Frame (m ← checked_add u64_max n (escaped c); if (m <=? FRAME)%N then Some m else None);
      quote_bytes n rest
  end.

Definition quote (s : string) : result Failure N :=
  if (FRAME <? slen s)%N then Err Frame else quote_bytes 2 (bytes s).

(** Adding to a byte count that must fit in a frame. *)
Definition add_framed (n m : N) : result Failure N :=
  ok_or Frame (k ← checked_add u64_max n m; if (k <=? FRAME)%N then Some k else None).

(** The keys of an object: text and capacity. *)
Definition measure_key (acc : N * N) (member : string * N * Value) : result Failure (N * N) :=
  let '(key, key_capacity, _) := member in
  q ← quote key;
  bytes ← add_framed acc.1 (q + 1);
  capacity ← ok_or ParentBudget (checked_add u64_max acc.2 key_capacity);
  Ok (bytes, capacity).

(** The text and the capacity of one node, without its children. *)
Definition measure_node (v : Value) : result Failure (N * N) :=
  match v with
  | Null => Ok (4, 0)%N
  | Bool b => Ok (if b then 4 else 5, 0)%N
  | Number n => if (FRAME <? slen (num_text n))%N then Err Frame else Ok (slen (num_text n), 0%N)
  | VString s capacity => n ← quote s; Ok (n, capacity)
  | Array a capacity =>
      c ← ok_or ParentBudget (checked_mul u64_max capacity size_value);
      Ok (2 + (N.of_nat (length a) - 1), c)%N
  | Object m =>
      c ← ok_or ParentBudget (n ← checked_add u64_max (N.of_nat (length m)) 1;
                              checked_mul u64_max n MAP_NODE);
      for_each measure_key (2 + (N.of_nat (length m) - 1), c)%N m
  end.

Definition children (v : Value) : list Value :=
  match v with Array a _ => a | Object m => m.*2 | _ => [] end.

(** The state of the loop.  [sc_todo] has the last element of the vector first. *)
Record scan := {
  sc_budget : Budget;
  sc_retained : Credit;
  sc_scratch : Credit;
  sc_todo : list Value;
  sc_capacity : N;
  sc_wire : N;
}.

(** Growing the work list before the children of a node are pushed. *)
Definition ensure_room (s : scan) (needed : N) : scan * result Failure unit :=
  if (needed <=? sc_capacity s)%N then (s, Ok ()) else
  match checked_mul u64_max needed size_ref with
  | None => (s, Err ParentBudget)
  | Some new =>
      let set b c cap := {| sc_budget := b; sc_retained := sc_retained s; sc_scratch := c;
                            sc_todo := sc_todo s; sc_capacity := cap; sc_wire := sc_wire s |} in
      match grow (sc_budget s) (sc_scratch s) new with
      | (b, Err e) => (set b (sc_scratch s) (sc_capacity s), Err e)
      | (b, Ok c) =>
          if alloc (needed - N.of_nat (length (sc_todo s)))
          then let '(b, c) := release b c (sc_capacity s * size_ref) in (set b c needed, Ok ())
          else (set b c (sc_capacity s), Err ParentBudget)
      end
  end.

(** One turn of the loop, for the popped value [v]; [s] holds the rest of the list. *)
Definition scan_node (s : scan) (v : Value) : scan * result Failure unit :=
  match measure_node v with
  | Err e => (s, Err e)
  | Ok (bytes, capacity) =>
      match add_framed (sc_wire s) bytes with
      | Err e => (s, Err e)
      | Ok wire =>
          let set b r := {| sc_budget := b; sc_retained := r; sc_scratch := sc_scratch s;
                            sc_todo := sc_todo s; sc_capacity := sc_capacity s; sc_wire := wire |} in
          match grow (sc_budget s) (sc_retained s) capacity with
          | (b, Err e) => (set b (sc_retained s), Err e)
          | (b, Ok r) =>
              match checked_add u64_max (N.of_nat (length (sc_todo s)))
                      (N.of_nat (length (children v))) with
              | None => (set b r, Err ParentBudget)
              | Some needed =>
                  match ensure_room (set b r) needed with
                  | (s, Err e) => (s, Err e)
                  | (s, Ok _) =>
                      ({| sc_budget := sc_budget s; sc_retained := sc_retained s;
                          sc_scratch := sc_scratch s; sc_todo := rev (children v) ++ sc_todo s;
                          sc_capacity := sc_capacity s; sc_wire := sc_wire s |}, Ok ())
                  end
              end
          end
      end
  end.

Definition pop (s : scan) (rest : list Value) : scan :=
  {| sc_budget := sc_budget s; sc_retained := sc_retained s; sc_scratch := sc_scratch s;
     sc_todo := rest; sc_capacity := sc_capacity s; sc_wire := sc_wire s |}.

(** The loop; [None] when the fuel is used up. *)
Fixpoint scan_loop (fuel : nat) (s : scan) : option (scan * result Failure unit) :=
  match sc_todo s with
  | [] => Some (s, Ok ())
  | v :: rest =>
      match fuel with
      | O => None
      | S fuel =>
          match scan_node (pop s rest) v with
          | (s, Err e) => Some (s, Err e)
          | (s, Ok _) => scan_loop fuel s
          end
      end
  end.

(** Every return drops the credits that are not handed out. *)
Definition retain_event (fuel : nat) (b : Budget) (v : Value) :
    option (Budget * result Failure Credit) :=
  match reserve b (size_value + 4096) with
  | (b, Err e) => Some (b, Err e)
  | (b, Ok retained) =>
      match reserve b size_ref with
      | (b, Err e) => Some (drop_credit b retained, Err e)
      | (b, Ok scratch) =>
          if negb (alloc 1) then Some (drop_credit (drop_credit b scratch) retained, Err ParentBudget)
          else
          match scan_loop fuel {| sc_budget := b; sc_retained := retained; sc_scratch := scratch;
                                  sc_todo := [v]; sc_capacity := 1; sc_wire := 0 |} with
          | None => None
          | Some (s, Err e) =>
              Some (drop_credit (drop_credit (sc_budget s) (sc_scratch s)) (sc_retained s), Err e)
          | Some (s, Ok _) => Some (drop_credit (sc_budget s) (sc_scratch s), Ok (sc_retained s))
          end
      end
  end.
End measure.

(** ** The compact text of a value and the measures of a tree *)

Section text.
Context {LO : Layout} {JN : JsonNumber}.

Fixpoint compact (v : Value) : string :=
  match v with
  | Null => "null"
  | Bool b => if b then "true" else "false"
  | Number n => num_text n
  | VString s _ => json_string s
  | Array a _ => "[" +:+ String.concat "," (map compact a) +:+ "]"
  | Object m =>
      "{" +:+ String.concat "," (map (λ x, json_string x.1.1 +:+ ":" +:+ compact x.2) m) +:+ "}"
  end.

(** The text and the capacity of a node without its children, and a measure summed
    over a tree. *)
Definition node_text (v : Value) : N :=
  match v with
  | Null => 4
  | Bool b => if b then 4 else 5
  | Number n => slen (num_text n)
  | VString s _ => slen (json_string s)
  | Array a _ => 2 + (N.of_nat (length a) - 1)
  | Object m => 2 + (N.of_nat (length m) - 1) + total (λ x, slen (json_string x.1.1) + 1)%N m
  end.

Definition node_capacity (v : Value) : N :=
  match v with
  | Null | Bool _ | Number _ => 0
  | VString _ c => c
  | Array _ c => c * size_value
  | Object m => (N.of_nat (length m) + 1) * MAP_NODE + total (λ x, x.1.2) m
  end.

Fixpoint tree_sum (f : Value → N) (v : Value) : N :=
  f v + match v with
        | Array a _ => total (tree_sum f) a
        | Object m => total (λ x, tree_sum f x.2) m
        | _ => 0
        end.
Definition nodes (v : Value) : N := tree_sum (λ _, 1%N) v.
Definition total_capacity (v : Value) : N := tree_sum node_capacity v.

Lemma total_map {A B} (f : B → N) (g : A → B) l : total f (map g l) = total (λ x, f (g x)) l.
Proof. induction l as [|x l IH]; cbn; [done|by rewrite IH]. Qed.

Lemma total_plus {A} (f g : A → N) l : total (λ x, f x + g x)%N l = (total f l + total g l)%N.
Proof. induction l as [|x l IH]; cbn; [done|rewrite IH; lia]. Qed.

Lemma slen_concat l :
  slen (String.concat "," l) = (total slen l + (N.of_nat (length l) - 1))%N.
Proof.
  induction l as [|x [|y l] IH]; [done|cbn; lia|].
  change (String.concat "," (x :: y :: l)) with (x +:+ "," +:+ String.concat "," (y :: l)).
  rewrite !slen_app, IH. cbn [total length]. change (slen ",") with 1%N. lia.
Qed.

Lemma slen_escape_byte c : slen (escape_byte c) = escaped c.
Proof.
  unfold escape_byte, escaped. destruct (byte c =? 34)%N, (byte c =? 92)%N, (byte c =? 8)%N,
    (byte c =? 9)%N, (byte c =? 10)%N, (byte c =? 12)%N, (byte c =? 13)%N; try done.
  cbn [orb]. by destruct (byte c <=? 31)%N.
Qed.

Lemma slen_json_string s : slen (json_string s) = (2 + total escaped (bytes s))%N.
Proof.
  unfold json_string. rewrite slen_String, slen_app. change (slen (String _ EmptyString)) with 1%N.
  enough (slen (escape s) = total escaped (bytes s)) by lia.
  induction s as [|c s IH]; [done|]. cbn [escape]. rewrite slen_app, slen_escape_byte, IH. done.
Qed.

Lemma tree_sum_node f v : tree_sum f v = (f v + total (tree_sum f) (children v))%N.
Proof.
  destruct v as [| | | |a c|m]; try done. cbn [tree_sum children]. f_equal.
  unfold fmap. by rewrite total_map.
Qed.

(** The length of the text is the sum of the texts of its nodes. *)
Lemma slen_compact v : slen (compact v) = (node_text v + total (λ w, slen (compact w)) (children v))%N.
Proof.
  destruct v as [|[]| | |a c|m]; cbn [compact node_text children total]; try done; try lia.
  - rewrite !slen_app, slen_concat, total_map, length_map.
    change (slen "[") with 1%N; change (slen "]") with 1%N. lia.
  - rewrite !slen_app, slen_concat, total_map, length_map. unfold fmap. rewrite total_map.
    change (slen "{") with 1%N; change (slen "}") with 1%N.
    rewrite <- (N.add_assoc _ _ (total _ (_ : list (string * N * Value)))), <- total_plus.
    assert (He : ∀ l : list (string * N * Value),
      total (λ x, slen (json_string x.1.1 +:+ ":" +:+ compact x.2)) l =
      total (λ x, slen (json_string x.1.1) + 1 + slen (compact x.2))%N l).
    { induction l as [|x l IH]; cbn [total]; [done|].
      rewrite IH, !slen_app. change (slen ":") with 1%N. lia. }
    rewrite He. lia.
Qed.
End text.

(** ** What measuring returns *)

Section measuring.
Context {LO : Layout} {JN : JsonNumber} (alloc : N → bool).

Lemma add_framed_spec n m :
  add_framed n m = if (n + m <=? FRAME)%N then Ok (n + m)%N else Err Frame.
Proof.
  unfold add_framed, checked_add. destruct (n + m <=? FRAME)%N eqn:Hf; bool_prop.
  - rewrite (proj2 (N.leb_le (n + m) u64_max)) by (unfold FRAME, u64_max in *; lia). cbn.
    by rewrite (proj2 (N.leb_le _ _)).
  - destruct (n + m <=? u64_max)%N; cbn; [|done]. by rewrite (proj2 (N.leb_gt _ _)).
Qed.

Lemma quote_bytes_spec l n :
  (n <= FRAME)%N →
  quote_bytes n l = if (n + total escaped l <=? FRAME)%N then Ok (n + total escaped l)%N else Err Frame.
Proof.
  revert n. induction l as [|c l IH]; intros n Hn; cbn [quote_bytes total].
  { rewrite N.add_0_r. by rewrite (proj2 (N.leb_le _ _)). }
  change (ok_or Frame _) with (add_framed n (escaped c)). rewrite add_framed_spec.
  destruct (n + escaped c <=? FRAME)%N eqn:Hc; bool_prop; cbn.
  - rewrite IH by done. by rewrite N.add_assoc.
  - by rewrite (proj2 (N.leb_gt _ _)) by lia.
Qed.

Lemma escaped_pos c : (1 <= escaped c)%N.
Proof. unfold escaped. repeat case_match; lia. Qed.

Lemma quote_spec s :
  quote s = if (slen (json_string s) <=? FRAME)%N then Ok (slen (json_string s)) else Err Frame.
Proof.
  unfold quote. rewrite slen_json_string.
  assert (Hlen : (slen s <= total escaped (bytes s))%N).
  { induction s as [|c s IH]; [done|]. rewrite slen_String. unfold bytes in *. cbn [String.list_ascii_of_string total].
    pose proof (escaped_pos c). lia. }
  destruct (FRAME <? slen s)%N eqn:Hs; bool_prop.
  - by rewrite (proj2 (N.leb_gt _ _)) by lia.
  - by rewrite quote_bytes_spec by done.
Qed.

(** The keys of an object are measured exactly, or do not fit. *)
Lemma measure_keys_spec m t c :
  match for_each measure_key (t, c) m with
  | Ok r => r = (t + total (λ x, slen (json_string x.1.1) + 1) m, c + total (λ x, x.1.2) m)%N
  | Err e => e = Frame ∧ (FRAME < t + total (λ x, slen (json_string x.1.1) + 1) m)%N ∨
             e = ParentBudget ∧ (u64_max < c + total (λ x, x.1.2) m)%N
  end.
Proof.
  revert t c. induction m as [|[[k kc] w] m IH]; intros t c; cbn [for_each total].
  { by rewrite !N.add_0_r. }
  unfold measure_key at 2. cbn [fst snd]. rewrite quote_spec.
  destruct (slen (json_string k) <=? FRAME)%N eqn:Hk; bool_prop; cbn [mbind result_bind]; [|left; split; [done|lia]].
  rewrite add_framed_spec.
  destruct (t + (slen (json_string k) + 1) <=? FRAME)%N eqn:Ht; bool_prop; cbn [mbind result_bind];
    [|left; split; [done|lia]].
  unfold checked_add. destruct (c + kc <=? u64_max)%N eqn:Hc; bool_prop; cbn [ok_or mbind result_bind];
    [|right; split; [done|lia]].
  specialize (IH (t + (slen (json_string k) + 1))%N (c + kc)%N).
  destruct (for_each _ _ m) as [r|e]; [rewrite IH; f_equal; lia|].
  destruct IH as [[-> ?]|[-> ?]]; [left|right]; split; done || lia.
Qed.

(** A node is measured exactly, or its text does not fit in a frame, or its capacity
    in a machine word. *)
Lemma measure_node_spec v :
  match measure_node v with
  | Ok r => r = (node_text v, node_capacity v)
  | Err e => e = Frame ∧ (FRAME < node_text v)%N ∨ e = ParentBudget ∧ (u64_max < node_capacity v)%N
  end.
Proof.
  destruct v as [|b|n|s c|a c|m]; cbn [measure_node node_text node_capacity]; try done.
  - destruct (FRAME <? slen (num_text n))%N eqn:Hn; bool_prop; auto.
  - rewrite quote_spec. destruct (slen (json_string s) <=? FRAME)%N eqn:Hs; bool_prop; cbn; auto.
  - unfold checked_mul. destruct (c * size_value <=? u64_max)%N eqn:Hc; bool_prop; cbn; auto.
  - unfold checked_add, checked_mul.
    assert (Hm : (1 <= MAP_NODE)%N) by (unfold MAP_NODE, size_usize; lia).
    destruct (N.of_nat (length m) + 1 <=? u64_max)%N eqn:H1; bool_prop; cbn [mbind option_bind];
      [|right; split; [done|nia]].
    destruct ((N.of_nat (length m) + 1) * MAP_NODE <=? u64_max)%N eqn:H2; bool_prop;
      cbn [ok_or mbind result_bind]; [|right; split; [done|lia]].
    apply (measure_keys_spec m).
Qed.

(** ** Accounting of the loop *)

(** [base] bytes belong to others; the rest of the counter is the two credits, and
    the scratch credit is the room of the work list. *)
Record scan_inv (base limit : N) (s : scan) : Prop := {
  si_limit : bu_limit (sc_budget s) = limit;
  si_used : bu_used (sc_budget s) = (base + sc_retained s + sc_scratch s)%N;
  si_bound : (bu_used (sc_budget s) <= limit)%N;
}.

Lemma add_cases b n :
  (bu_limit b <= u64_max)%N →
  (∃ b', add b n = (b', Ok ()) ∧ bu_limit b' = bu_limit b ∧ bu_used b' = (bu_used b + n)%N ∧
         (bu_used b + n <= bu_limit b)%N) ∨
  (add b n = (b, Err ParentBudget) ∧ (bu_limit b < bu_used b + n)%N).
Proof.
  intros Hl. unfold add. destruct (next_used _ _ _) as [next|e] eqn:Hn.
  - apply next_used_Ok in Hn as (-> & ? & ?). left. eexists. done.
  - right. unfold next_used, checked_add in Hn.
    destruct (bu_used b + n <=? u64_max)%N eqn:H1; cbn in Hn.
    + destruct (bu_used b + n <=? bu_limit b)%N eqn:H2; simplify_eq/=. bool_prop. done.
    + simplify_eq/=. bool_prop. split; [done|lia].
Qed.

Lemma sub_used_spec b n :
  (n <= bu_used b)%N → (bu_used b <= u64_max)%N → bu_used (sub_used n b) = (bu_used b - n)%N.
Proof. intros. cbn. by apply wrap_sub_small. Qed.

(** Making room charges the new list before it drops the charge of the old one. *)
Lemma ensure_room_spec base limit s needed s' r :
  (limit <= u64_max)%N → scan_inv base limit s → sc_scratch s = (sc_capacity s * size_ref)%N →
  ensure_room alloc s needed = (s', r) →
  scan_inv base limit s' ∧ sc_retained s' = sc_retained s ∧ sc_todo s' = sc_todo s ∧
  sc_wire s' = sc_wire s ∧
  match r with
  | Ok _ => sc_scratch s' = (sc_capacity s' * size_ref)%N ∧ sc_capacity s' = N.max (sc_capacity s) needed
  | Err e => e = ParentBudget ∧
      ((limit < bu_used (sc_budget s) + needed * size_ref)%N ∨ ∃ n, alloc n = false)
  end.
Proof.
  intros Hm [Hl Hu Hb] Hs H. unfold ensure_room in H.
  destruct (needed <=? sc_capacity s)%N eqn:Hn; bool_prop.
  { simplify_eq. split_and!; try done. lia. }
  unfold checked_mul in H. destruct (needed * size_ref <=? u64_max)%N eqn:H1; bool_prop.
  2:{ simplify_eq. split_and!; try done. left. lia. }
  unfold grow, release in H.
  destruct (add_cases (sc_budget s) (needed * size_ref)) as [(b' & Ha & Hl' & Hu' & Hb')|[Ha Hb']];
    [lia| |]; rewrite Ha in H.
  2:{ simplify_eq. split_and!; cbn; try done. left. lia. }
  destruct (alloc _) eqn:Hal; simplify_eq; cbn.
  2:{ split_and!; try done; [split; cbn; lia|by eauto]. }
  assert (H2 : (sc_capacity s * size_ref <= bu_used b')%N) by lia.
  split_and!; try done.
  - split; cbn; [lia| |]; rewrite ?wrap_sub_small; lia.
  - rewrite wrap_sub_small; lia.
  - lia.
Qed.

Lemma scan_node_spec base limit s v s' r :
  (limit <= u64_max)%N → scan_inv base limit s → sc_scratch s = (sc_capacity s * size_ref)%N →
  scan_node alloc s v = (s', r) →
  let needed := (N.of_nat (length (sc_todo s)) + N.of_nat (length (children v)))%N in
  scan_inv base limit s' ∧
  match r with
  | Ok _ =>
      sc_retained s' = (sc_retained s + node_capacity v)%N ∧
      sc_wire s' = (sc_wire s + node_text v)%N ∧ (sc_wire s' <= FRAME)%N ∧
      sc_todo s' = rev (children v) ++ sc_todo s ∧
      sc_scratch s' = (sc_capacity s' * size_ref)%N ∧ sc_capacity s' = N.max (sc_capacity s) needed
  | Err e => e = Frame ∧ (FRAME < sc_wire s + node_text v)%N ∨
      e = ParentBudget ∧ ((limit < bu_used (sc_budget s) + node_capacity v + needed * size_ref)%N ∨
                          ∃ n, alloc n = false)
  end.
Proof.
  intros Hm Hinv Hs H needed. unfold scan_node in H. pose proof (measure_node_spec v) as Hv.
  destruct (measure_node v) as [[t c]|e].
  2:{ simplify_eq. split; [done|]. destruct Hv as [Hv|[-> Hv]]; [left; split; [apply Hv|lia]|right].
      split; [done|left; lia]. }
  injection Hv as -> ->. rewrite add_framed_spec in H.
  destruct (sc_wire s + node_text v <=? FRAME)%N eqn:Hw; bool_prop.
  2:{ simplify_eq. split; [done|by left]. }
  pose proof Hinv as [Hl Hu Hb]. unfold grow in H.
  destruct (add_cases (sc_budget s) (node_capacity v)) as [(b' & Ha & Hl' & Hu' & Hb')|[Ha Hb']];
    [lia| |]; rewrite Ha in H.
  2:{ simplify_eq. split; [by split|right]. split; [done|left; lia]. }
  set (s1 := {| sc_budget := b' |}) in H.
  assert (Hinv1 : scan_inv base limit s1) by (split; cbn; lia).
  unfold checked_add in H. fold needed in H.
  destruct (needed <=? u64_max)%N eqn:Hn; bool_prop.
  2:{ simplify_eq. split; [done|right]. split; [done|left]. unfold size_ref. lia. }
  destruct (ensure_room alloc s1 needed) as [s2 r2] eqn:He.
  apply (ensure_room_spec base limit) in He as (Hinv2 & Hr2 & Ht2 & Hw2 & He); [|done..].
  destruct r2 as [u|e]; simplify_eq.
  - destruct He as [Hsc Hcap]. split; [by destruct Hinv2; split|]. cbn in *. rewrite Ht2, Hr2, Hw2.
    split_and!; done.
  - split; [done|right]. destruct He as [-> [He|He]]; (split; [done|]); [left|by right].
    cbn in He. lia.
Qed.

Lemma total_rev {A} (f : A → N) l : total f (rev l) = total f l.
Proof. induction l as [|x l IH]; cbn [rev total]; [done|]. rewrite total_app, IH. cbn. lia. Qed.

Lemma nodes_pos v : (1 <= nodes v)%N.
Proof. unfold nodes. rewrite tree_sum_node. lia. Qed.

Lemma total_nodes_length l : (N.of_nat (length l) <= total nodes l)%N.
Proof. induction l as [|v l IH]; cbn [length total]; [lia|]. pose proof (nodes_pos v). lia. Qed.

(** The loop ends when the fuel covers the nodes to visit, and measures them exactly. *)
Lemma scan_loop_spec base limit K fuel s :
  (limit <= u64_max)%N → scan_inv base limit s → sc_scratch s = (sc_capacity s * size_ref)%N →
  (sc_wire s <= FRAME)%N → (sc_capacity s <= K)%N → (total nodes (sc_todo s) <= K)%N →
  (total nodes (sc_todo s) <= N.of_nat fuel)%N →
  ∃ s' r, scan_loop alloc fuel s = Some (s', r) ∧ scan_inv base limit s' ∧
  match r with
  | Ok _ =>
      sc_retained s' = (sc_retained s + total total_capacity (sc_todo s))%N ∧
      (sc_wire s + total (λ w, slen (compact w)) (sc_todo s) <= FRAME)%N
  | Err e =>
      e = Frame ∧ (FRAME < sc_wire s + total (λ w, slen (compact w)) (sc_todo s))%N ∨
      e = ParentBudget ∧ ((limit < base + sc_retained s + total total_capacity (sc_todo s) +
                                   2 * (K * size_ref))%N ∨ ∃ n, alloc n = false)
  end.
Proof.
  intros Hm. revert s. induction fuel as [|fuel IH]; intros s Hinv Hs Hw Hcap HK Hf;
    cbn [scan_loop]; destruct (sc_todo s) as [|v rest] eqn:Ht; cbn [total] in *.
  - exists s, (Ok ()). split_and!; done || lia.
  - pose proof (nodes_pos v). lia.
  - exists s, (Ok ()). split_and!; done || lia.
  - destruct (scan_node alloc (pop s rest) v) as [s1 r1] eqn:Hn.
    assert (Hinvp : scan_inv base limit (pop s rest)) by (by destruct Hinv; split).
    apply (scan_node_spec base limit) in Hn as [Hinv1 Hn]; [|done..]. cbn in Hn.
    pose proof (total_nodes_length rest). pose proof (total_nodes_length (children v)).
    pose proof (slen_compact v) as Hsv.
    assert (Hnv : nodes v = (1 + total nodes (children v))%N)
      by exact (tree_sum_node (λ _, 1%N) v).
    assert (Hcv : total_capacity v = (node_capacity v + total total_capacity (children v))%N)
      by exact (tree_sum_node node_capacity v).
    destruct r1 as [u|e].
    + destruct Hn as (Hr & Hw1 & HF & Ht1 & Hs1 & Hc1).
      destruct (IH s1) as (s' & r & Hloop & Hinv' & Hr'); rewrite ?Ht1, ?total_app, ?total_rev in *;
        [done|done|done|lia|lia|lia|].
      exists s', r. split_and!; [done|done|]. destruct r as [|e]; [split; [lia|lia]|].
      destruct Hr' as [[-> ?]|[-> [?|?]]]; [left; split; [done|lia]|right; split; [done|left; lia]|].
      right. eauto.
    + exists s1, (Err e). split_and!; [done|done|].
      destruct Hn as [[-> ?]|[-> [Hlim|?]]]; [left; split; [done|lia]|right; split; [done|left]|right; eauto].
      destruct Hinv as [_ Hu _]. rewrite Hu, Hs in Hlim. unfold size_ref in *. lia.
Qed.

Lemma drop_credit_used b c :
  (c <= bu_used b)%N → (bu_used b <= bu_limit b)%N → (bu_limit b <= u64_max)%N →
  bu_used (drop_credit b c) = (bu_used b - c)%N ∧ bu_limit (drop_credit b c) = bu_limit b.
Proof. intros. split; [apply sub_used_spec; lia|done]. Qed.

(** An event is measured exactly and nothing leaks.  The loop ends with as much
    fuel as the event has nodes.  When it succeeds, the credit is the fixed overhead
    plus every capacity of the tree, it is all the budget was charged, and the
    compact JSON text of the event fits in a frame.  When it fails, the budget is
    back at what it was, and either the text does not fit in a frame, or the budget
    has no room for the tree and twice the work list, or the allocator refused. *)
Theorem retain_event_accounts fuel b v :
  (bu_used b <= bu_limit b)%N → (bu_limit b <= u64_max)%N → (nodes v <= N.of_nat fuel)%N →
  ∃ b' r, retain_event alloc fuel b v = Some (b', r) ∧ bu_limit b' = bu_limit b ∧
  match r with
  | Ok c => c = (size_value + 4096 + total_capacity v)%N ∧ bu_used b' = (bu_used b + c)%N ∧
            (slen (compact v) <= FRAME)%N
  | Err e => bu_used b' = bu_used b ∧
      (e = Frame ∧ (FRAME < slen (compact v))%N ∨
       e = ParentBudget ∧ ((bu_limit b < bu_used b + (size_value + 4096) + total_capacity v +
                                          2 * (nodes v * size_ref))%N ∨ ∃ n, alloc n = false))
  end.
Proof.
  intros Hb Hm Hf. pose proof (nodes_pos v) as Hpos. unfold retain_event, reserve.
  destruct (add_cases b (size_value + 4096)) as [(b1 & -> & Hl1 & Hu1 & Hb1)|[-> Hb1]]; [done| |].
  2:{ eexists _, _. split; [done|]. split_and!; [done..|right]. split; [done|left; lia]. }
  destruct (add_cases b1 size_ref) as [(b2 & -> & Hl2 & Hu2 & Hb2)|[-> Hb2]]; [lia| |].
  2:{ destruct (drop_credit_used b1 (size_value + 4096)) as [Hd Hdl]; [lia..|].
      eexists _, _. split; [done|]. split_and!; [lia|lia|right]. split; [done|left]. unfold size_ref in *. lia. }
  destruct (alloc 1) eqn:Ha; cbn [negb].
  2:{ destruct (drop_credit_used b2 size_ref) as [Hd Hdl]; [lia..|].
      destruct (drop_credit_used (drop_credit b2 size_ref) (size_value + 4096)) as [Hd2 Hdl2]; [lia..|].
      eexists _, _. split; [done|]. split_and!; [lia|lia|right]. eauto. }
  edestruct (scan_loop_spec (bu_used b) (bu_limit b) (nodes v) fuel
    {| sc_budget := b2; sc_retained := (size_value + 4096)%N; sc_scratch := size_ref; sc_todo := [v];
       sc_capacity := 1; sc_wire := 0 |}) as (s & r & -> & Hinv & Hr); cbn [sc_budget sc_retained
    sc_scratch sc_todo sc_capacity sc_wire total] in *; try done; try lia; [split; cbn; lia|].
  destruct Hinv as [Hl Hu Hbd].
  destruct (drop_credit_used (sc_budget s) (sc_scratch s)) as [Hd Hdl]; [lia..|].
  destruct r as [u|e].
  { eexists _, _. split; [done|]. split_and!; [lia|lia|lia|lia]. }
  destruct (drop_credit_used (drop_credit (sc_budget s) (sc_scratch s)) (sc_retained s)) as [Hd2 Hdl2];
    [lia..|].
  eexists _, _. split; [done|]. split_and!; [lia|lia|].
  destruct Hr as [[-> ?]|[-> [?|?]]]; [left; split; [done|lia]|right; split; [done|left; lia]|].
  right. eauto.
Qed.
End measuring.

(** A small event on a budget of 16384 bytes. *)
#[local] Instance sample_layout : Layout := {| size_value := 32; size_string := 24 |}.
#[local] Instance sample_number : JsonNumber := {| num := N; num_text := pretty |}.
Definition sample_event : Value :=
  Object [("id", 2%N, Number 7%N); ("tags", 4%N, Array [VString "a" 1; Null] 4)].

Lemma retain_event_accounts_witness :
  ∃ b' c, retain_event (λ _, true) 5 (Budget_new 16384) sample_event = Some (b', Ok c) ∧
          c = (32 + 4096 + total_capacity sample_event)%N ∧ bu_used b' = c.
Proof.
  destruct (retain_event_accounts (λ _, true) 5 (Budget_new 16384) sample_event) as (b' & r & H & _ & Hr);
    [by vm_compute..|].
  destruct r as [c|e]; [exists b', c; destruct Hr as (-> & -> & _); by split_and!|].
  assert (Hok : match retain_event (λ _, true) 5 (Budget_new 16384) sample_event with
                | Some (_, Ok _) => true | _ => false end = true) by (by vm_compute).
  by rewrite H in Hok.
Defined.
