(* ===== verification/ValidatorAccounting.v ===== *)
(** * Metadata accounting and admission of the validator controller

    Model of [frameworks/light-lambda-runtime/src/validator_ipc/accounting.rs] (the
    preflight of JSON metadata and the reservations made for it) and of the message
    checks and the request admission of [controller.rs].  The JSON parser is a
    parameter. *)

From S2P Require Import Prelude RustStr JsonTree Supervision ValidatorBudget.

(** [serde_json::Deserializer] over a byte slice up to its end. *)
Class JsonParser := { parse_json : string → option Json }.

Module Metadata.

Definition MAX_NODES : N := 65536.
Definition MAX_DEPTH : N := 64.

Record Tree := { tr_nodes : N; tr_owned : N }.
Definition Tree_default : Tree := {| tr_nodes := 0; tr_owned := 0 |}.

Definition Tree_add (t : Tree) (bytes : N) : option Tree :=
  o ← checked_add u64_max (tr_owned t) bytes; Some {| tr_nodes := tr_nodes t; tr_owned := o |}.

(** Adding [n] times [size], both checked. *)
Definition Tree_add_mul (t : Tree) (n size : N) : option Tree :=
  b ← checked_mul u64_max n size; Tree_add t b.

Section metadata.
Context {LO : Layout}.

(** [Walk::deserialize] with the visitor's methods; [None] for any error. *)
Fixpoint walk_json (depth : N) (t : Tree) (j : Json) : option Tree :=
  if (MAX_DEPTH <? depth)%N || (tr_nodes t =? MAX_NODES)%N then None else
  t ← Tree_add {| tr_nodes := tr_nodes t + 1; tr_owned := tr_owned t |} size_value;
  match j with
  | JNull | JBool _ | JNumber _ => Some t
  | JString s => Tree_add_mul t (slen s) 2
  | JArray items =>
      t ← (fix go t items := match items with
                             | [] => Some t
                             | x :: rest => t ← walk_json (depth + 1) t x; go t rest
                             end) t items;
      Tree_add_mul t (N.of_nat (length items)) (3 * size_value)
  | JObject members =>
      t ← (fix go t members := match members with
                               | [] => Some t
                               | (k, x) :: rest =>
                                   t ← Tree_add_mul t (slen k) 2; t ← walk_json (depth + 1) t x; go t rest
                               end) t members;
      Tree_add_mul t (N.of_nat (length members) + 1) MAP_NODE
  end.

Record MetadataLimits := { ml_max_wire_bytes : N; ml_max_peak_bytes : N; ml_max_retained_bytes : N }.

Definition validate_limits (l : MetadataLimits) (parent_limit : N) : result Failure unit :=
  if (ml_max_wire_bytes l =? 0)%N || (FRAME <? ml_max_wire_bytes l)%N ||
     (ml_max_retained_bytes l =? 0)%N || (ml_max_peak_bytes l <? ml_max_retained_bytes l)%N ||
     (parent_limit <? ml_max_peak_bytes l)%N
  then Err AdapterInvariant else Ok ().

Definition admit_metadata (l : MetadataLimits) (first transient retained : N) : result Failure unit :=
  peak ← ok_or ParentBudget (n ← checked_add u64_max first transient; checked_add u64_max n retained);
  if (ml_max_peak_bytes l <? peak)%N || (ml_max_retained_bytes l <? retained)%N
  then Err ParentBudget else Ok ().

(** The estimates, from the length of the document and the walked tree. *)
Definition scratch_bytes (len : N) : option N :=
  n ← checked_mul u64_max len 3; checked_add u64_max n 4096.
Definition retained_bytes (len owned : N) : option N :=
  n ← checked_mul u64_max owned 6;
  m ← checked_mul u64_max len 32;
  n ← checked_add u64_max n m;
  checked_add u64_max n 4096.
Definition transient_bytes (owned scratch : N) : option N :=
  n ← checked_mul u64_max owned 2; checked_add u64_max n scratch.

Context {JP : JsonParser}.

(** What is computed between the first reservation and the others. *)
Definition preflight (bytes : string) (scratch : N) (limits : option MetadataLimits) :
    result Failure (N * N) :=
  tree ← ok_or Protocol (j ← parse_json bytes; walk_json 0 Tree_default j);
  retained ← ok_or ParentBudget (retained_bytes (slen bytes) (tr_owned tree));
  transient ← ok_or ParentBudget (transient_bytes (tr_owned tree) scratch);
  _ ← match limits with Some l => admit_metadata l scratch transient retained | None => Ok () end;
  Ok (transient, retained).

(** The checks before the first reservation. *)
Definition precheck (bytes : string) (limits : option MetadataLimits) : result Failure N :=
  if (FRAME <? slen bytes)%N then Err Frame else
  if match limits with Some l => (ml_max_wire_bytes l <? slen bytes)%N | None => false end
  then Err ParentBudget else
  scratch ← ok_or ParentBudget (scratch_bytes (slen bytes));
  if match limits with Some l => (ml_max_peak_bytes l <? scratch)%N | None => false end
  then Err ParentBudget else Ok scratch.

(** A reservation that is live when a call returns with an error is dropped. *)
Definition metadata_in (b : Budget) (bytes : string) (limits : option MetadataLimits) :
    Budget * result Failure (Credit * Credit) :=
  match precheck bytes limits with
  | Err e => (b, Err e)
  | Ok scratch =>
      match reserve b scratch with
      | (b, Err e) => (b, Err e)
      | (b, Ok first) =>
          match preflight bytes scratch limits with
          | Err e => (drop_credit b first, Err e)
          | Ok (transient, retained) =>
              match reserve b transient with
              | (b, Err e) => (drop_credit b first, Err e)
              | (b, Ok s) =>
                  match reserve b retained with
                  | (b, Err e) => (drop_credit (drop_credit b s) first, Err e)
                  | (b, Ok r) => (drop_credit b first, Ok (s, r))
                  end
              end
          end
      end
  end.

Definition metadata (b : Budget) (bytes : string) : Budget * result Failure (Credit * Credit) :=
  metadata_in b bytes None.

Definition metadata_limited (b : Budget) (bytes : string) (limits : MetadataLimits) :
    Budget * result Failure (Credit * Credit) :=
  match validate_limits limits (bu_limit b) with
  | Err e => (b, Err e)
  | Ok _ => metadata_in b bytes (Some limits)
  end.

Definition request_bound (bytes entries : N) : result Failure N :=
  ok_or ParentBudget
    (n ← checked_add u64_max entries 16;
     n ← checked_mul u64_max n MAP_NODE;
     n ← checked_add u64_max n bytes;
     n ← checked_mul u64_max n 16;
     checked_add u64_max n 4096).

(** [settings_bound]: [fixed] is the size of the settings record, [prefixes] the
    capacity of the vector of prefixes and those of its strings. *)
Definition settings_bound (fixed : N) (prefixes : option (N * list N)) : result Failure N :=
  let n := (fixed + 4 * size_usize)%N in
  match prefixes with
  | None => Ok n
  | Some (capacity, strings) =>
      c ← ok_or ParentBudget (checked_mul u64_max capacity size_string);
      n ← ok_or ParentBudget (checked_add u64_max n c);
      for_each (λ n s, ok_or ParentBudget (checked_add u64_max n s)) n strings
  end.
End metadata.

(** ** What the walk measures *)

Section walked.
Context {LO : Layout}.

(** Nodes and requested bytes of a document. *)
Fixpoint json_nodes (j : Json) : N :=
  1 + match j with
      | JArray l => total json_nodes l
      | JObject m => total (λ x, json_nodes x.2) m
      | _ => 0
      end.

Fixpoint json_owned (j : Json) : N :=
  size_value + match j with
               | JString s => slen s * 2
               | JArray l => total json_owned l + N.of_nat (length l) * (3 * size_value)
               | JObject m => total (λ x, slen x.1 * 2 + json_owned x.2)%N m +
                              (N.of_nat (length m) + 1) * MAP_NODE
               | _ => 0
               end.

Lemma Tree_add_Some t n t' :
  Tree_add t n = Some t' → tr_nodes t' = tr_nodes t ∧ tr_owned t' = (tr_owned t + n)%N.
Proof.
  unfold Tree_add. destruct (checked_add _ _ _) as [o|] eqn:Ho; cbn; intros; simplify_eq/=.
  apply checked_add_Some in Ho. naive_solver.
Qed.

Lemma Tree_add_mul_Some t n k t' :
  Tree_add_mul t n k = Some t' → tr_nodes t' = tr_nodes t ∧ tr_owned t' = (tr_owned t + n * k)%N.
Proof.
  unfold Tree_add_mul. destruct (checked_mul _ _ _) as [o|] eqn:Ho; cbn; [|done].
  apply checked_mul_Some in Ho as [-> _]. apply Tree_add_Some.
Qed.

(** A walk from [t] at [depth] that ends in [t'] has counted all of [j]. *)
Definition walked (depth : N) (t : Tree) (j : Json) (t' : Tree) : Prop :=
  tr_nodes t' = (tr_nodes t + json_nodes j)%N ∧ (tr_nodes t' <= MAX_NODES)%N ∧
  tr_owned t' = (tr_owned t + json_owned j)%N ∧ (depth + json_depth j <= MAX_DEPTH)%N.

Lemma walk_sound j : ∀ depth t t', (tr_nodes t <= MAX_NODES)%N →
  walk_json depth t j = Some t' → walked depth t j t'.
Proof.
  induction j as [|b|n|s|l IH|m IH] using Json_tree_ind; intros depth t t' Hn H; cbn [walk_json] in H;
    destruct (MAX_DEPTH <? depth)%N eqn:Hd, (tr_nodes t =? MAX_NODES)%N eqn:Hm; try done;
    cbn [orb] in H; bool_prop;
    destruct (Tree_add _ _) as [t1|] eqn:H1; cbn [mbind option_bind] in H; try done;
    apply Tree_add_Some in H1 as [Hn1 Ho1]; cbn in Hn1, Ho1.
  1-3: simplify_eq; unfold walked; cbn; lia.
  - apply Tree_add_mul_Some in H as [Hn2 Ho2]. unfold walked; cbn; lia.
  - destruct (_ t1 l) as [t2|] eqn:Hgo in H; [|done]. cbn in H.
    apply Tree_add_mul_Some in H as [Hn3 Ho3].
    assert (Hl : tr_nodes t2 = (tr_nodes t1 + total json_nodes l)%N ∧ (tr_nodes t2 <= MAX_NODES)%N ∧
      tr_owned t2 = (tr_owned t1 + total json_owned l)%N ∧
      (depth + foldr (λ x d, N.max (json_depth x + 1) d) 0%N l <= MAX_DEPTH)%N).
    { clear Hn3 Ho3. assert (Hb : (tr_nodes t1 <= MAX_NODES)%N) by lia. clear Hn1 Ho1.
      revert t1 Hgo Hb. induction IH as [|x l Hx IH IHl]; intros t1 Hgo Hb; cbn [total foldr].
      { simplify_eq. split_and!; lia. }
      destruct (walk_json (depth + 1) t1 x) as [t3|] eqn:H3; cbn in Hgo; [|done].
      apply Hx in H3 as (? & ? & ? & ?); [|done]. apply IHl in Hgo as (? & ? & ? & ?); [|done].
      split_and!; lia. }
    destruct Hl as (? & ? & ? & ?). unfold walked. cbn [json_nodes json_owned json_depth]. split_and!; lia.
  - destruct (_ t1 m) as [t2|] eqn:Hgo in H; [|done]. cbn in H.
    apply Tree_add_mul_Some in H as [Hn3 Ho3].
    assert (Hl : tr_nodes t2 = (tr_nodes t1 + total (λ x, json_nodes x.2) m)%N ∧
      (tr_nodes t2 <= MAX_NODES)%N ∧
      tr_owned t2 = (tr_owned t1 + total (λ x, slen x.1 * 2 + json_owned x.2)%N m)%N ∧
      (depth + foldr (λ x d, N.max (json_depth x.2 + 1) d) 0%N m <= MAX_DEPTH)%N).
    { clear Hn3 Ho3. assert (Hb : (tr_nodes t1 <= MAX_NODES)%N) by lia. clear Hn1 Ho1.
      revert t1 Hgo Hb. induction IH as [|[k x] m Hx IH IHm]; intros t1 Hgo Hb; cbn [total foldr fst snd].
      { simplify_eq. split_and!; lia. }
      destruct (Tree_add_mul t1 (slen k) 2) as [t4|] eqn:H4; cbn in Hgo; [|done].
      apply Tree_add_mul_Some in H4 as [? ?].
      destruct (walk_json (depth + 1) t4 x) as [t3|] eqn:H3; cbn in Hgo; [|done].
      apply Hx in H3 as (? & ? & ? & ?); [|lia]. apply IHm in Hgo as (? & ? & ? & ?); [|done].
      cbn [snd] in *. split_and!; lia. }
    destruct Hl as (? & ? & ? & ?). unfold walked. cbn [json_nodes json_owned json_depth]. split_and!; lia.
Qed.
End walked.

(** ** What a metadata reservation holds *)

Section reserved.
Context {LO : Layout} {JP : JsonParser}.

Lemma reserve_cases b n :
  (bu_limit b <= u64_max)%N →
  (∃ b', reserve b n = (b', Ok n) ∧ bu_limit b' = bu_limit b ∧ bu_used b' = (bu_used b + n)%N ∧
         (bu_used b' <= bu_limit b')%N ∧ bu_peak b' = N.max (bu_peak b) (bu_used b')) ∨
  reserve b n = (b, Err ParentBudget).
Proof.
  intros Hl. unfold reserve. destruct (add_cases b n Hl) as [(b' & Ha & Hl' & Hu & Hb)|[-> _]];
    [left|by right]. rewrite Ha. exists b'. split_and!; [done..|lia|].
  unfold add in Ha. destruct (next_used _ _ _); simplify_eq/=. done.
Qed.

Lemma admit_metadata_Ok l first transient retained :
  admit_metadata l first transient retained = Ok () →
  (first + transient + retained <= ml_max_peak_bytes l ∧ retained <= ml_max_retained_bytes l)%N.
Proof.
  unfold admit_metadata. intros (peak & Hp & H)%bind_Ok. apply ok_or_Ok in Hp.
  destruct (checked_add _ first _) as [n|] eqn:Hn; cbn in Hp; [|done].
  apply checked_add_Some in Hn as [-> _], Hp as [-> _].
  destruct (ml_max_peak_bytes l <? _)%N eqn:H1; [done|].
  destruct (ml_max_retained_bytes l <? _)%N eqn:H2; [done|]. bool_prop. lia.
Qed.

(** The document behind a successful preflight, and its estimates. *)
Lemma preflight_Ok bytes scratch limits transient retained :
  preflight bytes scratch limits = Ok (transient, retained) →
  (∃ j, parse_json bytes = Some j ∧ (json_nodes j <= MAX_NODES)%N ∧ (json_depth j <= MAX_DEPTH)%N ∧
        transient = (2 * json_owned j + scratch)%N ∧
        retained = (6 * json_owned j + 32 * slen bytes + 4096)%N) ∧
  ∀ l, limits = Some l →
    (scratch + transient + retained <= ml_max_peak_bytes l ∧ retained <= ml_max_retained_bytes l)%N.
Proof.
  unfold preflight. intros (tree & Ht & H)%bind_Ok. apply ok_or_Ok in Ht.
  apply bind_Ok in H as (r & Hr & H). apply ok_or_Ok in Hr.
  apply bind_Ok in H as (t & Htr & H). apply ok_or_Ok in Htr.
  apply check_Ok in H as [Hlim H]. simplify_eq/=. split.
  - destruct (parse_json bytes) as [j|]; cbn in Ht; [|done].
    apply walk_sound in Ht as (Hn & Hm & Ho & Hd); [|cbn; unfold MAX_NODES; lia]. cbn in Hn, Ho.
    exists j. split_and!; [done|lia|lia| |].
    + unfold transient_bytes in Htr. destruct (checked_mul _ _ _) as [n|] eqn:Hn1; [|done]. cbn in Htr.
      apply checked_mul_Some in Hn1 as [-> _]. apply checked_add_Some in Htr as [-> _]. lia.
    + unfold retained_bytes in Hr. destruct (checked_mul _ _ 6) as [n|] eqn:Hn1; [|done]. cbn in Hr.
      destruct (checked_mul _ _ 32) as [n2|] eqn:Hn2; [|done]. cbn in Hr.
      destruct (checked_add _ n n2) as [n3|] eqn:Hn3; [|done]. cbn in Hr.
      apply checked_mul_Some in Hn1 as [-> _], Hn2 as [-> _].
      apply checked_add_Some in Hn3 as [-> _], Hr as [-> _]. lia.
  - intros l ->. by apply admit_metadata_Ok.
Qed.

Lemma precheck_Ok bytes limits scratch :
  precheck bytes limits = Ok scratch →
  scratch = (3 * slen bytes + 4096)%N ∧ (slen bytes <= FRAME)%N ∧
  ∀ l, limits = Some l → (slen bytes <= ml_max_wire_bytes l ∧ scratch <= ml_max_peak_bytes l)%N.
Proof.
  unfold precheck. destruct (FRAME <? slen bytes)%N eqn:Hf; [done|].
  destruct (match limits with Some l => (ml_max_wire_bytes l <? slen bytes)%N | None => false end) eqn:Hw;
    [done|]. intros (n & Hs & H)%bind_Ok. apply ok_or_Ok in Hs.
  destruct (match limits with Some l => (ml_max_peak_bytes l <? n)%N | None => false end) eqn:Hp; [done|].
  simplify_eq/=. bool_prop. unfold scratch_bytes in Hs.
  destruct (checked_mul _ _ _) as [k|] eqn:Hk; cbn in Hs; [|done].
  apply checked_mul_Some in Hk as [-> _]. apply checked_add_Some in Hs as [-> _].
  split_and!; [lia|done|]. intros l ->. bool_prop. lia.
Qed.

(** Metadata is accepted only within its limits and never leaks.  On success the
    two reservations are exactly the estimates for the parsed document, which has
    at most 65536 nodes nested at most 64 deep, they are all the budget is charged,
    and under explicit limits the document, the retained bytes and the rise of the
    recorded peak respect them.  On any failure the budget is back at what it was. *)
Theorem metadata_within_limits b bytes limits b' r :
  (bu_used b <= bu_limit b)%N → (bu_limit b <= u64_max)%N →
  metadata_in b bytes limits = (b', r) →
  bu_limit b' = bu_limit b ∧
  match r with
  | Ok (scratch, retained) =>
      bu_used b' = (bu_used b + scratch + retained)%N ∧ (bu_used b' <= bu_limit b)%N ∧
      (∃ j, parse_json bytes = Some j ∧ (json_nodes j <= 65536)%N ∧ (json_depth j <= 64)%N ∧
            scratch = (2 * json_owned j + 3 * slen bytes + 4096)%N ∧
            retained = (6 * json_owned j + 32 * slen bytes + 4096)%N) ∧
      (∀ l, limits = Some l →
         (slen bytes <= ml_max_wire_bytes l)%N ∧ (retained <= ml_max_retained_bytes l)%N ∧
         (bu_peak b' <= N.max (bu_peak b) (bu_used b + ml_max_peak_bytes l))%N)
  | Err _ => bu_used b' = bu_used b
  end.
Proof.
  intros Hb Hm H. unfold metadata_in in H.
  destruct (precheck bytes limits) as [scratch|e] eqn:Hpre; [|by simplify_eq].
  apply precheck_Ok in Hpre as (Hs & Hlen & Hprel).
  destruct (reserve_cases b scratch Hm) as [(b1 & Hr1 & Hl1 & Hu1 & Hb1 & Hp1)|Hr1]; rewrite Hr1 in H;
    [|by simplify_eq].
  destruct (preflight bytes scratch limits) as [[transient retained]|e] eqn:Hpf.
  2:{ destruct (drop_credit_used b1 scratch) as [? ?]; [lia..|]. injection H as <- <-. lia. }
  apply preflight_Ok in Hpf as [(j & Hj & Hn & Hd & Ht & Hret) Hlim].
  destruct (reserve_cases b1 transient ltac:(lia)) as [(b2 & Hr2 & Hl2 & Hu2 & Hb2 & Hp2)|Hr2];
    rewrite Hr2 in H.
  2:{ destruct (drop_credit_used b1 scratch) as [? ?]; [lia..|]. injection H as <- <-. lia. }
  destruct (reserve_cases b2 retained ltac:(lia)) as [(b3 & Hr3 & Hl3 & Hu3 & Hb3 & Hp3)|Hr3];
    rewrite Hr3 in H.
  2:{ destruct (drop_credit_used b2 transient) as [? ?]; [lia..|].
      destruct (drop_credit_used (drop_credit b2 transient) scratch) as [? ?]; [lia..|].
      injection H as <- <-. lia. }
  destruct (drop_credit_used b3 scratch) as [Hd1 Hd2]; [lia..|]. injection H as <- <-.
  split; [lia|]. split_and!; [lia|lia| |].
  - exists j. unfold MAX_NODES, MAX_DEPTH in *. split_and!; done || lia.
  - intros l Hl. destruct (Hprel l Hl), (Hlim l Hl). split_and!; [done|done|].
    change (bu_peak (drop_credit b3 _)) with (bu_peak b3). lia.
Qed.
End reserved.
End Metadata.

(** A parser for the empty object, and a budget with room for it. *)
#[local] Instance empty_parser : JsonParser :=
  {| parse_json := λ s, if decide (s = "{}") then Some (JObject []) else None |}.
#[local] Instance accounting_layout : Layout := {| size_value := 32; size_string := 24 |}.
Definition sample_limits : Metadata.MetadataLimits :=
  {| Metadata.ml_max_wire_bytes := 16; Metadata.ml_max_peak_bytes := 40000;
     Metadata.ml_max_retained_bytes := 20000 |}.

Lemma metadata_within_limits_witness :
  bu_used (Metadata.metadata_in (Budget_new 65536) "{}" (Some sample_limits)).1 = 14406%N ∧
  (bu_peak (Metadata.metadata_in (Budget_new 65536) "{}" (Some sample_limits)).1 <= 40000)%N.
Proof.
  destruct (Metadata.metadata_within_limits (Budget_new 65536) "{}" (Some sample_limits)
    (Metadata.metadata_in (Budget_new 65536) "{}" (Some sample_limits)).1
    (Metadata.metadata_in (Budget_new 65536) "{}" (Some sample_limits)).2) as [_ Hr];
    [by vm_compute|by vm_compute|by vm_compute|].
  split; [by vm_compute|].
  replace (Metadata.metadata_in (Budget_new 65536) "{}" (Some sample_limits)).2
    with (@Ok Failure _ (5638%N, 8768%N)) in Hr by (by vm_compute).
  exact (proj2 (proj2 (proj2 (proj2 (proj2 Hr)) sample_limits eq_refl))).
Defined.

(** ** Messages of the validator process *)

Module Messages.

Record Ready := {
  re_ready : bool;
  re_request_schema_count : N;
  re_metadata_json : string;
  re_source_sha256 : string;
  re_raw_bytes : N;
  re_resource_bytes : N;
  re_resource_nodes : N;
  re_catalogue_bytes : N;
  re_engine_cache_entries : N;
  re_compiler_reservation_bytes : N;
  re_aggregate_compiler_input_bytes : N;
  re_roots : list string;
  re_compile_micros : N;
}.

Record Violation := { vi_code : string; vi_message : string; vi_description : string }.
Record Reply := { rp_status : N; rp_body : string; rp_violation : option Violation }.

Inductive Fault := FEngineResource | FEngineInternal | FAdapterInvariant.
Record Wire := { wi_status : option N; wi_body : option string; wi_violation : option Violation;
                 wi_failure : option Fault }.
Record Envelope := { en_status_code : N; en_code : string; en_message : string;
                     en_description : string; en_severity : string }.

(** The derived decoders, and the lower-case hexadecimal SHA-256 digest. *)
Class Codec := {
  decode_wire : string → option Wire;
  decode_envelope : string → option Envelope;
  sha256_hex : string → string;
}.

Definition ROOTS : N := 65536.

(** The visitor of [roots], over the elements of the array. *)
Fixpoint visit_roots (roots : list string) (bytes : N) (elements : list string) :
    option (list string) :=
  match elements with
  | [] => Some roots
  | root :: rest =>
      if (N.of_nat (length roots) =? ROOTS)%N then None else
      b ← checked_add u64_max bytes (slen root);
      if (FRAME <? b)%N then None else visit_roots (roots ++ [root]) b rest
  end.

Section messages.
Context {CO : Codec}.

Definition Ready_matches (r : Ready) (source : string) : bool :=
  re_ready r && (re_raw_bytes r =? slen source)%N
  && bool_decide (re_source_sha256 r = sha256_hex source)
  && (slen (re_metadata_json r) <=? FRAME)%N && (re_resource_bytes r <=? FRAME)%N
  && (re_resource_nodes r <=? 65536)%N && (re_catalogue_bytes r <=? 16777216)%N
  && (re_compiler_reservation_bytes r <=? 16777216)%N
  && (re_aggregate_compiler_input_bytes r <=? 16777216)%N
  && (re_request_schema_count r <=? N.of_nat (length (re_roots r)))%N
  && (N.of_nat (length (re_roots r)) <=? re_engine_cache_entries r)%N
  && (re_compile_micros r <=? 15000000)%N.

Definition Reply_parse (bytes : string) : result Failure Reply :=
  wire ← ok_or Protocol (decode_wire bytes);
  match wi_failure wire with
  | Some fault =>
      match wi_status wire, wi_body wire, wi_violation wire with
      | None, None, None =>
          Err match fault with
              | FEngineResource => EngineResource
              | FEngineInternal => EngineInternal
              | FAdapterInvariant => AdapterInvariant
              end
      | _, _, _ => Err Protocol
      end
  | None =>
      status ← ok_or Protocol (wi_status wire);
      body ← ok_or Protocol (wi_body wire);
      Ok {| rp_status := status; rp_body := body; rp_violation := wi_violation wire |}
  end.

Definition Reply_valid (r : Reply) : bool :=
  if (rp_status r =? 200)%N
  then bool_decide (rp_body r = "ok") && match rp_violation r with None => true | Some _ => false end
  else if negb (rp_status r =? 400)%N then false
  else match rp_violation r, decode_envelope (rp_body r) with
       | Some v, Some body =>
           (en_status_code body =? 400)%N && bool_decide (en_severity body = "ERROR")
           && bool_decide (en_code body = vi_code v) && bool_decide (en_message body = vi_message v)
           && bool_decide (en_description body = vi_description v)
       | _, _ => false
       end.

Definition Reply_decode (bytes : string) : result Failure Reply :=
  reply ← Reply_parse bytes;
  if Reply_valid reply then Ok reply else Err Protocol.
End messages.

(** Bytes reserved before a frame of [n] bytes with at most [roots] strings is read
    into a type of size [size]. *)
Definition parse_reservation {LO : Layout} (size n roots : N) : result Failure N :=
  ok_or ParentBudget
    (v ← checked_mul u64_max n 16;
     r ← checked_mul u64_max roots (3 * size_string);
     v ← checked_add u64_max v r;
     checked_add u64_max v (size + 4096)).
Definition Ready_parse_reservation {LO : Layout} (size n : N) := parse_reservation size n ROOTS.
Definition Reply_parse_reservation {LO : Layout} (size n : N) := parse_reservation size n 0.

(** [Counter::write], and [encode] for a value with the given text: it is counted,
    reserved, and written. *)
Definition Counter_write (count len : N) : option N :=
  n ← checked_add u64_max count len; if (FRAME <? n)%N then None else Some n.

Definition encode (alloc : N → bool) (text : string) (b : Budget) :
    Budget * result Failure (string * Credit) :=
  match Counter_write 0 (slen text) with
  | None => (b, Err Frame)
  | Some count =>
      match reserve b count with
      | (b, Err e) => (b, Err e)
      | (b, Ok credit) =>
          if alloc count then (b, Ok (text, credit)) else (drop_credit b credit, Err Frame)
      end
  end.

(** The marker byte on the resource signal, when one was read. *)
Definition resource_fault (marker : option N) : option Failure :=
  match marker with
  | Some 81%N => Some RequestedQuota
  | Some 65%N => Some AllocatorRefused
  | Some _ => Some Protocol
  | None => None
  end.
Definition classify_loss (failure : Failure) (marker : option N) : Failure :=
  match failure with
  | Death => match resource_fault marker with Some f => f | None => Death end
  | _ => failure
  end.
End Messages.

(** ** Admission of a request *)

Module Admission.

Record LeasedRequest := { lr_request : Authority.Request; lr_credit : Credit }.
Record Admission := { ad_request : option LeasedRequest }.

Definition legacy : Admission := {| ad_request := None |}.
Definition is_legacy (a : Admission) : bool := match ad_request a with None => true | Some _ => false end.

(** [lease] is the size charged for a lease; the authority is given with its address.
    When the budget refuses, the request lease is dropped. *)
Definition Admission_reserve (lease : N) (authority : option (positive * Authority.Authority))
    (b : Budget) : option (positive * Authority.Authority) * Budget * result Failure Admission :=
  match authority with
  | None => (None, b, Ok legacy)
  | Some (self, a) =>
      match Authority.reserve_request self a with
      | (a, Err _) => (Some (self, a), b, Err NoReady)
      | (a, Ok request) =>
          match reserve b lease with
          | (b, Err e) => (Some (self, Authority.drop_request a), b, Err e)
          | (b, Ok credit) =>
              (Some (self, a), b,
               Ok {| ad_request := Some {| lr_request := request; lr_credit := credit |} |})
          end
      end
  end.

Definition Admission_matches (ad : Admission) (authority : option positive) : bool :=
  match ad_request ad, authority with
  | None, None => true
  | Some r, Some authority => Authority.belongs_to (lr_request r) authority
  | _, _ => false
  end.

(** A refused admission leaves the authority and the budget as they were; a granted
    one is charged to both and matches the authority it came from. *)
Lemma Admission_reserve_spec lease self a b a' b' r :
  (bu_limit b <= u64_max)%N →
  Admission_reserve lease (Some (self, a)) b = (a', b', r) →
  match r with
  | Err _ => a' = Some (self, a) ∧ b' = b
  | Ok ad => Admission_matches ad (Some self) = true ∧ bu_used b' = (bu_used b + lease)%N ∧
      ∃ a1, a' = Some (self, a1) ∧
        Authority.st_requests (mx_value a1) = (Authority.st_requests (mx_value a) + 1)%N
  end.
Proof.
  intros Hm. unfold Admission_reserve, Authority.reserve_request.
  destruct (mx_poisoned a) eqn:Hp; [by intros; simplify_eq|].
  destruct (negb _); [by intros; simplify_eq|].
  destruct (2 <=? _)%N eqn:H2; [by intros; simplify_eq|]. bool_prop.
  destruct (Metadata.reserve_cases b lease Hm) as [(b1 & -> & _ & Hu & _)| ->]; intros; simplify_eq.
  - split_and!; [by apply bool_decide_true|done|]. by eexists.
  - split; [|done]. f_equal. f_equal. unfold Authority.drop_request, Authority.set_requests, store.
    destruct a as [[p n] q]; cbn in *. subst q. rewrite wrap_sub_small by (unfold u64_max; lia).
    do 2 f_equal. lia.
Qed.
End Admission.
