(* ===== verification/ControllerWire.v ===== *)
(** * Controller wire profiles

    Model of [crates/controller-wire/src]: the version 1 messages and their
    validation ([v1.rs]), message kinds and channels ([profile.rs]), the frame header
    ([frame.rs]), the archive frames ([codec.rs]) and the JSON frames ([json.rs]).
    The archive format of rkyv and the JSON parser are classes. *)

From S2P Require Import Prelude RustStr JsonTree IpAddr.
From Stdlib Require Import Ascii.

(** [&[u8]]; a [usize] is 64 bits wide. *)
Definition Bytes := list ascii.
Definition blen (b : Bytes) : N := N.of_nat (length b).

(** ** Errors *)

Inductive WireError :=
| Truncated (component : string) (expected actual : N)
| InvalidMagic
| UnsupportedVersion (v : N)
| UnsupportedFlags (f : N)
| UnknownMessageKind (k : N)
| InvalidLogicalChannel (kind : N) (channel : string)
| NonZeroReserved
| PayloadTooLarge (declared limit : N)
| LengthMismatch (declared actual : N)
| EmptyJson
| InvalidUtf8
| InvalidJson (message : string)
| JsonDepthExceeded (limit : N)
| InvalidArchive (kind : N) (reason : string)
| Semantic (field reason : string)
| PayloadLengthOverflow.

Abbreviation WireResult := (result WireError).

Definition category (e : WireError) : string :=
  match e with
  | Truncated _ _ _ => "truncated"
  | InvalidMagic => "invalid_magic"
  | UnsupportedVersion _ => "unsupported_version"
  | UnsupportedFlags _ => "unsupported_flags"
  | UnknownMessageKind _ => "unknown_message_kind"
  | InvalidLogicalChannel _ _ => "invalid_logical_channel"
  | NonZeroReserved => "nonzero_reserved"
  | PayloadTooLarge _ _ => "payload_too_large"
  | LengthMismatch _ _ => "length_mismatch"
  | EmptyJson => "empty_json"
  | InvalidUtf8 => "invalid_utf8"
  | InvalidJson _ => "invalid_json"
  | JsonDepthExceeded _ => "json_depth_exceeded"
  | InvalidArchive _ _ => "invalid_archive"
  | Semantic _ _ => "semantic_validation"
  | PayloadLengthOverflow => "payload_length_overflow"
  end.

(** ** Kinds and channels *)

Definition PROFILE_MAJOR_V1 : N := 1.

Inductive LogicalChannel := McpSession | SessionControl | Command | RuntimeEvents.
#[global] Instance LogicalChannel_eq_dec : EqDecision LogicalChannel.
Proof. solve_decision. Defined.

Definition channel_as_str (c : LogicalChannel) : string :=
  match c with
  | McpSession => "mcp-session"
  | SessionControl => "session-control"
  | Command => "command"
  | RuntimeEvents => "runtime-events"
  end.

Inductive MessageKindV1 :=
| KClientHello | KServerHello | KMetadataUpdate | KDiscoveryRequest | KDiscoveryResponse
| KDiscoveryChanged | KPing | KPong | KSessionError | KServerDraining | KClientGoodbye
| KServerGoodbye | KCommandRequest | KCommandResponse | KRuntimeNotification.

(** [kind as u16]. *)
Definition kind_code (k : MessageKindV1) : N :=
  match k with
  | KClientHello => 1 | KServerHello => 2 | KMetadataUpdate => 3 | KDiscoveryRequest => 4
  | KDiscoveryResponse => 5 | KDiscoveryChanged => 6 | KPing => 7 | KPong => 8
  | KSessionError => 9 | KServerDraining => 10 | KClientGoodbye => 11 | KServerGoodbye => 12
  | KCommandRequest => 100 | KCommandResponse => 101 | KRuntimeNotification => 200
  end.

Definition logical_channel (k : MessageKindV1) : LogicalChannel :=
  match k with
  | KCommandRequest | KCommandResponse => Command
  | KRuntimeNotification => RuntimeEvents
  | _ => SessionControl
  end.

Definition require_channel (k : MessageKindV1) (c : LogicalChannel) : WireResult unit :=
  if decide (logical_channel k = c) then Ok ()
  else Err (InvalidLogicalChannel (kind_code k) (channel_as_str c)).

Definition kind_try_from (v : N) : WireResult MessageKindV1 :=
  match v with
  | 1 => Ok KClientHello | 2 => Ok KServerHello | 3 => Ok KMetadataUpdate
  | 4 => Ok KDiscoveryRequest | 5 => Ok KDiscoveryResponse | 6 => Ok KDiscoveryChanged
  | 7 => Ok KPing | 8 => Ok KPong | 9 => Ok KSessionError | 10 => Ok KServerDraining
  | 11 => Ok KClientGoodbye | 12 => Ok KServerGoodbye | 100 => Ok KCommandRequest
  | 101 => Ok KCommandResponse | 200 => Ok KRuntimeNotification
  | other => Err (UnknownMessageKind other)
  end%N.

(** ** The frame header *)

Definition FRAME_HEADER_BYTES : nat := 16.
Definition RKYV_MAGIC : Bytes := bytes "LCRK".

Record FrameHeaderV1 := { fh_kind : MessageKindV1; fh_payload_len : N }.

Definition FrameHeader_new (kind : MessageKindV1) (payload_len : N) : WireResult FrameHeaderV1 :=
  if (payload_len <=? u32_max)%N then Ok {| fh_kind := kind; fh_payload_len := payload_len |}
  else Err PayloadLengthOverflow.

(** The array is written field by field; the last four bytes stay zero. *)
Definition FrameHeader_encode (h : FrameHeaderV1) : Bytes :=
  RKYV_MAGIC ++ [ascii_of_N PROFILE_MAJOR_V1; ascii_of_N 0]
  ++ le_bytes 2 (kind_code (fh_kind h)) ++ le_bytes 4 (fh_payload_len h)
  ++ replicate 4 (ascii_of_N 0).

(** [bytes[a..b]] within bounds. *)
Definition slice (a b : nat) (l : Bytes) : Bytes := take (b - a) (drop a l).
Definition byte_at (i : nat) (l : Bytes) : N := default 0%N (byte <$> l !! i).

Definition FrameHeader_decode (b : Bytes) (max_payload_bytes : N) : WireResult FrameHeaderV1 :=
  if (blen b <? N.of_nat FRAME_HEADER_BYTES)%N
  then Err (Truncated "rkyv frame header" (N.of_nat FRAME_HEADER_BYTES) (blen b)) else
  if negb (bool_decide (slice 0 4 b = RKYV_MAGIC)) then Err InvalidMagic else
  if negb (byte_at 4 b =? PROFILE_MAJOR_V1)%N then Err (UnsupportedVersion (byte_at 4 b)) else
  if negb (byte_at 5 b =? 0)%N then Err (UnsupportedFlags (byte_at 5 b)) else
  kind ← kind_try_from (le_value (slice 6 8 b));
  let payload_len := le_value (slice 8 12 b) in
  if negb (bool_decide (slice 12 16 b = replicate 4 (ascii_of_N 0))) then Err NonZeroReserved else
  if (max_payload_bytes <? payload_len)%N
  then Err (PayloadTooLarge payload_len max_payload_bytes)
  else Ok {| fh_kind := kind; fh_payload_len := payload_len |}.

(** ** JSON frames *)

(** [serde_json::from_str] into a [Value], with the text of its error. *)
Class JsonText := { json_from_str : string → result string Json }.

Definition JSON_LENGTH_PREFIX_BYTES : nat := 4.
Definition MAX_JSON_DEPTH : N := 64.

Fixpoint ensure_depth (j : Json) (depth : N) : WireResult unit :=
  if (MAX_JSON_DEPTH <? depth)%N then Err (JsonDepthExceeded MAX_JSON_DEPTH) else
  match j with
  | JArray l =>
      (fix go l := match l with
                   | [] => Ok ()
                   | x :: rest => _ ← ensure_depth x (depth + 1); go rest
                   end) l
  | JObject m =>
      (fix go m := match m with
                   | [] => Ok ()
                   | (_, x) :: rest => _ ← ensure_depth x (depth + 1); go rest
                   end) m
  | _ => Ok ()
  end.

Section json_frames.
Context {JT : JsonText}.

Definition validate_json (json : Bytes) (max_payload_bytes : N) : WireResult string :=
  match json with
  | [] => Err EmptyJson
  | _ =>
      if (max_payload_bytes <? blen json)%N
      then Err (PayloadTooLarge (blen json) max_payload_bytes) else
      if negb (utf8_valid json) then Err InvalidUtf8 else
      let text := of_bytes json in
      value ← map_err InvalidJson (json_from_str text);
      _ ← ensure_depth value 0;
      Ok text
  end.

Definition encode_json_frame (json : Bytes) (max_payload_bytes : N) : WireResult Bytes :=
  _ ← validate_json json max_payload_bytes;
  if (blen json <=? u32_max)%N then Ok (rev (le_bytes 4 (blen json)) ++ json)
  else Err PayloadLengthOverflow.

Definition decode_json_frame (frame : Bytes) (max_payload_bytes : N) : WireResult string :=
  if (blen frame <? N.of_nat JSON_LENGTH_PREFIX_BYTES)%N
  then Err (Truncated "JSON length prefix" (N.of_nat JSON_LENGTH_PREFIX_BYTES) (blen frame)) else
  let declared := le_value (rev (take 4 frame)) in
  if (max_payload_bytes <? declared)%N then Err (PayloadTooLarge declared max_payload_bytes) else
  let actual := (blen frame - N.of_nat JSON_LENGTH_PREFIX_BYTES)%N in
  if negb (actual =? declared)%N then Err (LengthMismatch declared actual) else
  validate_json (drop 4 frame) max_payload_bytes.
End json_frames.

(** ** Messages *)

Definition MAX_SERVICE_ID_BYTES : N := 256.
Definition MAX_ENV_TAG_BYTES : N := 128.
Definition MAX_VERSION_BYTES : N := 128.
Definition MAX_PROTOCOL_BYTES : N := 32.
Definition MAX_ADDRESS_BYTES : N := 253.
Definition MAX_TAGS : N := 64.
Definition MAX_TAG_COMPONENT_BYTES : N := 256.
Definition MAX_REQUEST_ID_BYTES : N := 128.
Definition MAX_TOOL_NAME_BYTES : N := 256.
Definition MAX_METHOD_BYTES : N := 256.
Definition MAX_ERROR_MESSAGE_BYTES : N := 1024.
Definition MAX_DISCOVERY_NODES : N := 10000.

Record WireTagV1 := { wt_key : string; wt_value : string }.
Record ClientHelloV1 := {
  ch_service_id : string;
  ch_env_tag : option string;
  ch_service_version : string;
  ch_application_protocol : string;
  ch_address : string;
  ch_port : N;
  ch_tags : list WireTagV1;
}.
Record ServerHelloV1 := {
  sh_runtime_instance_id : Uuid;
  sh_connection_id : Uuid;
  sh_heartbeat_interval_ms : N;
  sh_max_control_payload_bytes : N;
  sh_max_command_streams : N;
}.
Record MetadataUpdateV1 := {
  mu_service_version : option string;
  mu_application_protocol : option string;
  mu_port : option N;
  mu_tags : option (list WireTagV1);
}.
Record DiscoveryRequestV1 := {
  dr_request_id : string;
  dr_operation : N;
  dr_service_id : string;
  dr_env_tag : option string;
  dr_application_protocol : option string;
}.
Record DiscoveryNodeV1 := {
  dn_runtime_instance_id : Uuid;
  dn_service_id : string;
  dn_env_tag : option string;
  dn_environment : string;
  dn_service_version : string;
  dn_application_protocol : string;
  dn_address : string;
  dn_port : N;
  dn_tags : list WireTagV1;
  dn_connected_at_ms : Z;
  dn_last_seen_at_ms : Z;
  dn_connected : bool;
}.
Record DiscoverySnapshotV1 := {
  ds_service_id : string;
  ds_env_tag : option string;
  ds_application_protocol : option string;
  ds_nodes : list DiscoveryNodeV1;
}.
Record WireErrorV1 := { we_code : Z; we_message : string; we_data_json : option Bytes }.
Record DiscoveryResponseV1 := {
  drs_request_id : string;
  drs_snapshot : option DiscoverySnapshotV1;
  drs_error : option WireErrorV1;
}.
Record DiscoveryChangedV1 := { dc_snapshot : DiscoverySnapshotV1 }.
Record PingV1 := { pi_nonce : N; pi_timestamp_ms : Z }.
Record PongV1 := { po_nonce : N; po_timestamp_ms : Z }.
Record SessionErrorV1 := { se_error : WireErrorV1 }.
Record ServerDrainingV1 := { sd_deadline_ms : Z; sd_reason : string }.
Record ClientGoodbyeV1 := {
  cg_request_id : string; cg_runtime_instance_id : Uuid; cg_reason : string }.
Record ServerGoodbyeV1 := { sg_request_id : string; sg_runtime_instance_id : Uuid }.
Record CommandRequestV1 := {
  cq_request_id : string; cq_tool_name : string; cq_arguments_json : Bytes }.
Record CommandResponseV1 := {
  cr_request_id : string;
  cr_completed_at_ms : Z;
  cr_result_json : option Bytes;
  cr_error : option WireErrorV1;
}.
Record RuntimeNotificationV1 := { rn_method : string; rn_params_json : Bytes; rn_sequence : N }.

(** ** Field checks *)

Definition semantic (field reason : string) : WireError := Semantic field reason.

Definition bounded_string (field value : string) (max : N) : WireResult unit :=
  if (max <? slen value)%N
  then Err (semantic field ("must contain at most " +:+ dec max +:+ " UTF-8 bytes"))
  else Ok ().

Definition required_string (field value : string) (max : N) : WireResult unit :=
  if is_empty value then Err (semantic field "must not be empty")
  else bounded_string field value max.

Definition optional_string (field : string) (value : option string) (max : N) : WireResult unit :=
  match value with Some v => bounded_string field v max | None => Ok () end.

Definition optional_nonempty_string (field : string) (value : option string) (max : N) :
    WireResult unit :=
  match value with Some v => required_string field v max | None => Ok () end.

Definition nonzero_port (field : string) (value : N) : WireResult unit :=
  if (value =? 0)%N then Err (semantic field "must be greater than zero") else Ok ().

Definition nonzero_u32 (field : string) (value : N) : WireResult unit :=
  if (value =? 0)%N then Err (semantic field "must be greater than zero") else Ok ().

Definition nonnil_uuid (field : string) (value : Uuid) : WireResult unit :=
  if is_nil value then Err (semantic field "must not be nil") else Ok ().

Definition exactly_one (field : string) (first second : bool) : WireResult unit :=
  if xorb first second then Ok ()
  else Err (semantic field "exactly one success or error value must be present").

(** [value.strip_suffix('.').unwrap_or(value)]. *)
Definition strip_final_dot (value : string) : string :=
  match rev (bytes value) with
  | c :: rest => if Ascii.eqb c "." then of_bytes (rev rest) else value
  | [] => value
  end.

Definition valid_label (label : string) : bool :=
  negb (is_empty label) && (slen label <=? 63)%N
  && negb (starts_with label "-") && negb (ends_with label "-")
  && forallb (λ b, is_ascii_alphanumeric b || Ascii.eqb b "-") (bytes label).

Definition valid_dns_name (value : string) : bool :=
  let value := strip_final_dot value in
  negb (is_empty value) && forallb valid_label (split "." value).

Definition validate_address (address : string) : WireResult unit :=
  _ ← required_string "address" address MAX_ADDRESS_BYTES;
  if bool_decide (is_Some (parse_ip address)) || valid_dns_name address then Ok ()
  else Err (semantic "address" "must be an IP literal or DNS hostname").

Definition validate_tag (previous : option string) (tag : WireTagV1) : WireResult (option string) :=
  _ ← required_string "tag.key" (wt_key tag) MAX_TAG_COMPONENT_BYTES;
  _ ← bounded_string "tag.value" (wt_value tag) MAX_TAG_COMPONENT_BYTES;
  if match previous with Some key => bool_decide (String.le (wt_key tag) key) | None => false end
  then Err (semantic "tags" "keys must be sorted and unique")
  else Ok (Some (wt_key tag)).

Definition validate_tags (tags : list WireTagV1) : WireResult unit :=
  if (MAX_TAGS <? N.of_nat (length tags))%N
  then Err (semantic "tags" ("must contain at most " +:+ dec MAX_TAGS +:+ " entries")) else
  _ ← for_each validate_tag None tags; Ok ().

(** ** Validation of each message *)

(** [if let Some(x) = o { f(x)?; } Ok(())]. *)
Definition if_some {A} (o : option A) (f : A → WireResult unit) : WireResult unit :=
  match o with Some x => f x | None => Ok () end.

Definition validate_client_hello (m : ClientHelloV1) : WireResult unit :=
  _ ← required_string "service_id" (ch_service_id m) MAX_SERVICE_ID_BYTES;
  _ ← optional_string "env_tag" (ch_env_tag m) MAX_ENV_TAG_BYTES;
  _ ← required_string "service_version" (ch_service_version m) MAX_VERSION_BYTES;
  _ ← required_string "application_protocol" (ch_application_protocol m) MAX_PROTOCOL_BYTES;
  _ ← validate_address (ch_address m);
  _ ← nonzero_port "port" (ch_port m);
  validate_tags (ch_tags m).

Definition validate_server_hello (m : ServerHelloV1) : WireResult unit :=
  _ ← nonnil_uuid "runtime_instance_id" (sh_runtime_instance_id m);
  _ ← nonnil_uuid "connection_id" (sh_connection_id m);
  _ ← nonzero_u32 "heartbeat_interval_ms" (sh_heartbeat_interval_ms m);
  _ ← nonzero_u32 "max_control_payload_bytes" (sh_max_control_payload_bytes m);
  nonzero_u32 "max_command_streams" (sh_max_command_streams m).

Definition validate_client_goodbye (m : ClientGoodbyeV1) : WireResult unit :=
  _ ← required_string "request_id" (cg_request_id m) MAX_REQUEST_ID_BYTES;
  _ ← nonnil_uuid "runtime_instance_id" (cg_runtime_instance_id m);
  if bool_decide (cg_reason m ∈ ["interrupt"; "terminate"; "programmatic"]) then Ok ()
  else Err (semantic "reason" "must be interrupt, terminate, or programmatic").

Definition validate_server_goodbye (m : ServerGoodbyeV1) : WireResult unit :=
  _ ← required_string "request_id" (sg_request_id m) MAX_REQUEST_ID_BYTES;
  nonnil_uuid "runtime_instance_id" (sg_runtime_instance_id m).

Definition validate_metadata_update (m : MetadataUpdateV1) : WireResult unit :=
  _ ← optional_nonempty_string "service_version" (mu_service_version m) MAX_VERSION_BYTES;
  _ ← optional_nonempty_string "application_protocol" (mu_application_protocol m)
        MAX_PROTOCOL_BYTES;
  _ ← if_some (mu_port m) (nonzero_port "port");
  if_some (mu_tags m) validate_tags.

Definition validate_discovery_request (m : DiscoveryRequestV1) : WireResult unit :=
  _ ← required_string "request_id" (dr_request_id m) MAX_REQUEST_ID_BYTES;
  _ ← (if in_range 1 3 (dr_operation m) then Ok ()
       else Err (semantic "operation" "must be 1 (lookup), 2 (subscribe), or 3 (unsubscribe)"));
  _ ← required_string "service_id" (dr_service_id m) MAX_SERVICE_ID_BYTES;
  _ ← optional_string "env_tag" (dr_env_tag m) MAX_ENV_TAG_BYTES;
  optional_nonempty_string "application_protocol" (dr_application_protocol m) MAX_PROTOCOL_BYTES.

Definition validate_server_draining (m : ServerDrainingV1) : WireResult unit :=
  bounded_string "reason" (sd_reason m) MAX_ERROR_MESSAGE_BYTES.

Definition validate_discovery_node (m : DiscoveryNodeV1) : WireResult unit :=
  _ ← nonnil_uuid "node.runtime_instance_id" (dn_runtime_instance_id m);
  _ ← required_string "node.service_id" (dn_service_id m) MAX_SERVICE_ID_BYTES;
  _ ← optional_string "node.env_tag" (dn_env_tag m) MAX_ENV_TAG_BYTES;
  _ ← bounded_string "node.environment" (dn_environment m) MAX_ENV_TAG_BYTES;
  _ ← required_string "node.service_version" (dn_service_version m) MAX_VERSION_BYTES;
  _ ← required_string "node.application_protocol" (dn_application_protocol m) MAX_PROTOCOL_BYTES;
  _ ← validate_address (dn_address m);
  _ ← nonzero_port "node.port" (dn_port m);
  validate_tags (dn_tags m).

Definition validate_discovery_snapshot (m : DiscoverySnapshotV1) : WireResult unit :=
  _ ← required_string "service_id" (ds_service_id m) MAX_SERVICE_ID_BYTES;
  _ ← optional_string "env_tag" (ds_env_tag m) MAX_ENV_TAG_BYTES;
  _ ← optional_nonempty_string "application_protocol" (ds_application_protocol m)
        MAX_PROTOCOL_BYTES;
  if (MAX_DISCOVERY_NODES <? N.of_nat (length (ds_nodes m)))%N
  then Err (semantic "nodes" ("must contain at most " +:+ dec MAX_DISCOVERY_NODES +:+ " entries"))
  else check_all validate_discovery_node (ds_nodes m).

Section json_messages.
Context {JT : JsonText}.

Definition validate_json_bytes (max : N) (json : Bytes) : WireResult unit :=
  _ ← validate_json json max; Ok ().

Definition validate_wire_error (m : WireErrorV1) (max_json_bytes : N) : WireResult unit :=
  _ ← bounded_string "error.message" (we_message m) MAX_ERROR_MESSAGE_BYTES;
  if_some (we_data_json m) (validate_json_bytes max_json_bytes).

Definition validate_discovery_response (m : DiscoveryResponseV1) (max_json_bytes : N) :
    WireResult unit :=
  _ ← required_string "request_id" (drs_request_id m) MAX_REQUEST_ID_BYTES;
  _ ← exactly_one "discovery_response" (bool_decide (is_Some (drs_snapshot m)))
        (bool_decide (is_Some (drs_error m)));
  _ ← if_some (drs_snapshot m) validate_discovery_snapshot;
  if_some (drs_error m) (λ e, validate_wire_error e max_json_bytes).

Definition validate_command_request (m : CommandRequestV1) (max_json_bytes : N) :
    WireResult unit :=
  _ ← required_string "request_id" (cq_request_id m) MAX_REQUEST_ID_BYTES;
  _ ← required_string "tool_name" (cq_tool_name m) MAX_TOOL_NAME_BYTES;
  validate_json_bytes max_json_bytes (cq_arguments_json m).

Definition validate_command_response (m : CommandResponseV1) (max_json_bytes : N) :
    WireResult unit :=
  _ ← required_string "request_id" (cr_request_id m) MAX_REQUEST_ID_BYTES;
  _ ← exactly_one "command_response" (bool_decide (is_Some (cr_result_json m)))
        (bool_decide (is_Some (cr_error m)));
  _ ← if_some (cr_result_json m) (validate_json_bytes max_json_bytes);
  if_some (cr_error m) (λ e, validate_wire_error e max_json_bytes).

Definition validate_runtime_notification (m : RuntimeNotificationV1) (max_json_bytes : N) :
    WireResult unit :=
  _ ← required_string "method" (rn_method m) MAX_METHOD_BYTES;
  validate_json_bytes max_json_bytes (rn_params_json m).
End json_messages.

(** ** Archive frames *)

(** The message carried by a frame of a kind. *)
Definition payload (k : MessageKindV1) : Type :=
  match k with
  | KClientHello => ClientHelloV1
  | KServerHello => ServerHelloV1
  | KMetadataUpdate => MetadataUpdateV1
  | KDiscoveryRequest => DiscoveryRequestV1
  | KDiscoveryResponse => DiscoveryResponseV1
  | KDiscoveryChanged => DiscoveryChangedV1
  | KPing => PingV1
  | KPong => PongV1
  | KSessionError => SessionErrorV1
  | KServerDraining => ServerDrainingV1
  | KClientGoodbye => ClientGoodbyeV1
  | KServerGoodbye => ServerGoodbyeV1
  | KCommandRequest => CommandRequestV1
  | KCommandResponse => CommandResponseV1
  | KRuntimeNotification => RuntimeNotificationV1
  end.

(** [rkyv::to_bytes] and [rkyv::from_bytes] at each message type, and the round trip
    the format documents. *)
Class Rkyv := {
  to_bytes (k : MessageKindV1) : payload k → result string Bytes;
  from_bytes (k : MessageKindV1) : Bytes → result string (payload k);
}.
Class RkyvLaws `{!Rkyv} :=
  from_to_bytes k (v : payload k) b : to_bytes k v = Ok b → from_bytes k b = Ok v.

Inductive DecodedMessageV1 :=
| ClientHello (m : ClientHelloV1)
| ServerHello (m : ServerHelloV1)
| MetadataUpdate (m : MetadataUpdateV1)
| DiscoveryRequest (m : DiscoveryRequestV1)
| DiscoveryResponse (m : DiscoveryResponseV1)
| DiscoveryChanged (m : DiscoveryChangedV1)
| Ping (m : PingV1)
| Pong (m : PongV1)
| SessionError (m : SessionErrorV1)
| ServerDraining (m : ServerDrainingV1)
| ClientGoodbye (m : ClientGoodbyeV1)
| ServerGoodbye (m : ServerGoodbyeV1)
| CommandRequest (m : CommandRequestV1)
| CommandResponse (m : CommandResponseV1)
| RuntimeNotification (m : RuntimeNotificationV1).

Definition message_kind (m : DecodedMessageV1) : MessageKindV1 :=
  match m with
  | ClientHello _ => KClientHello
  | ServerHello _ => KServerHello
  | MetadataUpdate _ => KMetadataUpdate
  | DiscoveryRequest _ => KDiscoveryRequest
  | DiscoveryResponse _ => KDiscoveryResponse
  | DiscoveryChanged _ => KDiscoveryChanged
  | Ping _ => KPing
  | Pong _ => KPong
  | SessionError _ => KSessionError
  | ServerDraining _ => KServerDraining
  | ClientGoodbye _ => KClientGoodbye
  | ServerGoodbye _ => KServerGoodbye
  | CommandRequest _ => KCommandRequest
  | CommandResponse _ => KCommandResponse
  | RuntimeNotification _ => KRuntimeNotification
  end.

Section archive_frames.
Context {JT : JsonText} {RK : Rkyv}.

Definition validate_message (m : DecodedMessageV1) (max_json_bytes : N) : WireResult unit :=
  match m with
  | ClientHello v => validate_client_hello v
  | ServerHello v => validate_server_hello v
  | MetadataUpdate v => validate_metadata_update v
  | DiscoveryRequest v => validate_discovery_request v
  | DiscoveryResponse v => validate_discovery_response v max_json_bytes
  | DiscoveryChanged v => validate_discovery_snapshot (dc_snapshot v)
  | Ping _ => Ok ()
  | Pong _ => Ok ()
  | SessionError v => validate_wire_error (se_error v) max_json_bytes
  | ServerDraining v => validate_server_draining v
  | ClientGoodbye v => validate_client_goodbye v
  | ServerGoodbye v => validate_server_goodbye v
  | CommandRequest v => validate_command_request v max_json_bytes
  | CommandResponse v => validate_command_response v max_json_bytes
  | RuntimeNotification v => validate_runtime_notification v max_json_bytes
  end.

Definition encode (k : MessageKindV1) (v : payload k) : WireResult Bytes :=
  map_err (InvalidArchive 0) (to_bytes k v).

Definition decode (k : MessageKindV1) (b : Bytes) : WireResult (payload k) :=
  map_err (InvalidArchive (kind_code k)) (from_bytes k b).

Definition encode_payload (m : DecodedMessageV1) : WireResult Bytes :=
  match m with
  | ClientHello v => encode KClientHello v
  | ServerHello v => encode KServerHello v
  | MetadataUpdate v => encode KMetadataUpdate v
  | DiscoveryRequest v => encode KDiscoveryRequest v
  | DiscoveryResponse v => encode KDiscoveryResponse v
  | DiscoveryChanged v => encode KDiscoveryChanged v
  | Ping v => encode KPing v
  | Pong v => encode KPong v
  | SessionError v => encode KSessionError v
  | ServerDraining v => encode KServerDraining v
  | ClientGoodbye v => encode KClientGoodbye v
  | ServerGoodbye v => encode KServerGoodbye v
  | CommandRequest v => encode KCommandRequest v
  | CommandResponse v => encode KCommandResponse v
  | RuntimeNotification v => encode KRuntimeNotification v
  end.

Definition encode_rkyv_frame_v1 (message : DecodedMessageV1) (max_payload_bytes : N) :
    WireResult Bytes :=
  _ ← validate_message message max_payload_bytes;
  payload ← encode_payload message;
  if (max_payload_bytes <? blen payload)%N
  then Err (PayloadTooLarge (blen payload) max_payload_bytes) else
  header ← FrameHeader_new (message_kind message) (blen payload);
  Ok (FrameHeader_encode header ++ payload).

Definition decode_payload (k : MessageKindV1) (b : Bytes) : WireResult DecodedMessageV1 :=
  match k with
  | KClientHello => ClientHello <$> decode KClientHello b
  | KServerHello => ServerHello <$> decode KServerHello b
  | KMetadataUpdate => MetadataUpdate <$> decode KMetadataUpdate b
  | KDiscoveryRequest => DiscoveryRequest <$> decode KDiscoveryRequest b
  | KDiscoveryResponse => DiscoveryResponse <$> decode KDiscoveryResponse b
  | KDiscoveryChanged => DiscoveryChanged <$> decode KDiscoveryChanged b
  | KPing => Ping <$> decode KPing b
  | KPong => Pong <$> decode KPong b
  | KSessionError => SessionError <$> decode KSessionError b
  | KServerDraining => ServerDraining <$> decode KServerDraining b
  | KClientGoodbye => ClientGoodbye <$> decode KClientGoodbye b
  | KServerGoodbye => ServerGoodbye <$> decode KServerGoodbye b
  | KCommandRequest => CommandRequest <$> decode KCommandRequest b
  | KCommandResponse => CommandResponse <$> decode KCommandResponse b
  | KRuntimeNotification => RuntimeNotification <$> decode KRuntimeNotification b
  end.

Definition decode_rkyv_frame_v1_inner (frame : Bytes) (max_payload_bytes : N)
    (channel : option LogicalChannel) : WireResult DecodedMessageV1 :=
  header ← FrameHeader_decode frame max_payload_bytes;
  _ ← if_some channel (require_channel (fh_kind header));
  let actual := (blen frame - N.of_nat FRAME_HEADER_BYTES)%N in
  if negb (actual =? fh_payload_len header)%N
  then Err (LengthMismatch (fh_payload_len header) actual) else
  decoded ← decode_payload (fh_kind header) (drop FRAME_HEADER_BYTES frame);
  _ ← validate_message decoded max_payload_bytes;
  Ok decoded.

Definition decode_rkyv_frame_v1 (frame : Bytes) (max_payload_bytes : N) :
    WireResult DecodedMessageV1 :=
  decode_rkyv_frame_v1_inner frame max_payload_bytes None.

Definition decode_rkyv_frame_v1_on_channel (frame : Bytes) (max_payload_bytes : N)
    (channel : LogicalChannel) : WireResult DecodedMessageV1 :=
  decode_rkyv_frame_v1_inner frame max_payload_bytes (Some channel).
End archive_frames.
