(* ===== verification/ControllerWireFacts.v ===== *)
(** * Controller wire profiles: theorems

    Frames are canonical and round trip, on their own channel only; what a frame decodes
    to is a well-formed message; the JSON frames are a bijection onto the accepted
    documents. *)

From S2P Require Import Prelude RustStr JsonTree IpAddr ControllerWire.
From Stdlib Require Import Ascii.

(** ** Headers *)

Lemma kind_try_from_code k : kind_try_from (kind_code k) = Ok k.
Proof. by destruct k. Qed.

Lemma kind_try_from_Ok v k : kind_try_from v = Ok k ↔ kind_code k = v.
Proof.
  split; [|intros <-; apply kind_try_from_code].
  destruct v as [|p]; [done|].
  do 8 try (destruct p as [p|p|]; try done); cbn; intros [= <-]; done.
Qed.

Lemma kind_code_lt k : (kind_code k < 256 ^ N.of_nat 2)%N.
Proof. by destruct k. Qed.

Lemma length_header h : length (FrameHeader_encode h) = FRAME_HEADER_BYTES.
Proof. done. Qed.

Lemma FrameHeader_new_Ok k n h :
  FrameHeader_new k n = Ok h ↔ (n <= u32_max)%N ∧ h = {| fh_kind := k; fh_payload_len := n |}.
Proof.
  unfold FrameHeader_new. destruct (N.leb_spec n u32_max); [|by split; [done|]; intros [? _]; lia].
  split; [by intros [= <-]|by intros [_ ->]].
Qed.

(** The fields of a frame that starts with an encoded header. *)
Lemma header_fields h rest :
  let b := FrameHeader_encode h ++ rest in
  slice 0 4 b = RKYV_MAGIC ∧ byte_at 4 b = PROFILE_MAJOR_V1 ∧ byte_at 5 b = 0%N ∧
  slice 6 8 b = le_bytes 2 (kind_code (fh_kind h)) ∧ slice 8 12 b = le_bytes 4 (fh_payload_len h) ∧
  slice 12 16 b = replicate 4 (ascii_of_N 0).
Proof. done. Qed.

Lemma decode_encoded_header h rest max :
  (fh_payload_len h <= u32_max)%N →
  FrameHeader_decode (FrameHeader_encode h ++ rest) max =
    if (max <? fh_payload_len h)%N then Err (PayloadTooLarge (fh_payload_len h) max) else Ok h.
Proof.
  intros Hlen. destruct (header_fields h rest) as (Hm & Hv & Hf & Hk & Hl & Hr).
  unfold FrameHeader_decode. rewrite Hm, Hv, Hf, Hk, Hl, Hr.
  rewrite !bool_decide_true by done.
  assert ((blen (FrameHeader_encode h ++ rest) <? N.of_nat FRAME_HEADER_BYTES)%N = false) as ->.
  { apply N.ltb_ge. unfold blen. rewrite length_app, length_header. lia. }
  rewrite !le_value_bytes, kind_try_from_code by (first [apply kind_code_lt|unfold u32_max in Hlen; cbn; lia]).
  cbn. by destruct h, (_ <? _)%N.
Qed.

(** A header is accepted only in its encoded form. *)
Lemma decoded_header_canonical b max h :
  FrameHeader_decode b max = Ok h →
  take FRAME_HEADER_BYTES b = FrameHeader_encode h ∧ (fh_payload_len h <= max)%N ∧
  (fh_payload_len h <= u32_max)%N ∧ (N.of_nat FRAME_HEADER_BYTES <= blen b)%N.
Proof.
  unfold FrameHeader_decode. destruct (N.ltb_spec (blen b) (N.of_nat FRAME_HEADER_BYTES)) as [|Hlen]; [done|].
  case_bool_decide as Hm; [|done]. cbn [negb].
  destruct (N.eqb_spec (byte_at 4 b) PROFILE_MAJOR_V1) as [Hv|]; [|done]. cbn [negb].
  destruct (N.eqb_spec (byte_at 5 b) 0) as [Hf|]; [|done]. cbn [negb].
  intros (k & Hk%kind_try_from_Ok & H)%bind_Ok. cbv zeta in H.
  case_bool_decide as Hr; [|done]. cbn [negb] in H.
  destruct (N.ltb_spec max (le_value (slice 8 12 b))) as [|Hmax]; [done|]. injection H as <-.
  cbn [fh_kind fh_payload_len].
  assert (16 ≤ length b)%nat as Hnat by (unfold blen, FRAME_HEADER_BYTES in Hlen; lia).
  do 16 (destruct b as [|? b]; [cbn [length] in Hnat; lia|]).
  unfold slice, byte_at in *. cbn [take drop Nat.sub lookup list_lookup fmap option_fmap option_map default] in *.
  pose proof (le_value_lt [a7; a8; a9; a10]) as Hlt.
  split_and!; [|done| |exact Hlen].
  2:{ unfold u32_max. cbn in Hlt |- *. lia. }
  unfold FrameHeader_encode. cbn [fh_kind fh_payload_len]. rewrite Hk.
  rewrite (le_bytes_value [_; _]), (le_bytes_value [_; _; _; _]), <- Hr, <- Hm, <- Hv, <- Hf.
  cbn in *. rewrite !ascii_byte. done.
Qed.

(** ** JSON documents *)

Lemma ensure_depth_Ok j d : ensure_depth j d = Ok () ↔ (d + json_depth j <= MAX_JSON_DEPTH)%N.
Proof.
  revert d. induction j as [| | | |l IH|m IH] using Json_tree_ind; intros d;
    cbn [ensure_depth json_depth];
    destruct (N.ltb_spec MAX_JSON_DEPTH d); try (split; [done|lia]); try (split; [lia|done]).
  - induction IH as [|x l Hx _ IHl]; cbn [foldr]; [split; [lia|done]|].
    rewrite check_Ok, IHl, Hx. lia.
  - induction IH as [|[k x] m Hx _ IHm]; cbn [foldr snd] in *; [split; [lia|done]|].
    rewrite check_Ok, IHm, Hx. lia.
Qed.

Section json_facts.
Context {JT : JsonText}.

(** A document the codec accepts under a size limit. *)
Definition json_document (max : N) (json : Bytes) : Prop :=
  json ≠ [] ∧ (blen json <= max)%N ∧ utf8_valid json = true ∧
  ∃ v, json_from_str (of_bytes json) = Ok v ∧ (json_depth v <= MAX_JSON_DEPTH)%N.

Lemma validate_json_Ok json max t :
  validate_json json max = Ok t ↔ json_document max json ∧ t = of_bytes json.
Proof.
  unfold validate_json, json_document. destruct json as [|c json]; [naive_solver|].
  destruct (N.ltb_spec max (blen (c :: json))); [split; [done|]; intros [(_ & ? & _) _]; lia|].
  destruct (utf8_valid (c :: json)); cbn [negb]; [|naive_solver].
  rewrite bind_Ok. setoid_rewrite map_err_Ok. setoid_rewrite check_Ok.
  setoid_rewrite ensure_depth_Ok. setoid_rewrite N.add_0_l. naive_solver.
Qed.

(** JSON frames are exactly the encodings of the documents they decode to: a frame
    decodes to a text under a limit if and only if encoding that text under the same
    limit gives the frame. *)
Theorem json_frame_roundtrip frame max t :
  decode_json_frame frame max = Ok t ↔ encode_json_frame (bytes t) max = Ok frame.
Proof.
  unfold decode_json_frame, encode_json_frame. rewrite bind_Ok. setoid_rewrite validate_json_Ok.
  split.
  - destruct (N.ltb_spec (blen frame) (N.of_nat JSON_LENGTH_PREFIX_BYTES)) as [|Hlen]; [done|].
    cbv zeta. destruct (N.ltb_spec max (le_value (rev (take 4 frame)))); [done|].
    destruct (N.eqb_spec (blen frame - N.of_nat JSON_LENGTH_PREFIX_BYTES)
                (le_value (rev (take 4 frame)))) as [Heq|]; [|done]. cbn [negb].
    intros [Hdoc ->]%validate_json_Ok. rewrite bytes_of_bytes. eexists. split; [done|].
    assert (length (take 4 frame) = 4)%nat as H4.
    { rewrite length_take. unfold blen, JSON_LENGTH_PREFIX_BYTES in Hlen. lia. }
    assert (blen (drop 4 frame) = le_value (rev (take 4 frame))) as Hd.
    { rewrite <- Heq. unfold blen, JSON_LENGTH_PREFIX_BYTES. rewrite length_drop. lia. }
    pose proof (le_value_lt (rev (take 4 frame))) as Hlt. rewrite length_rev, H4 in Hlt.
    rewrite Hd. destruct (N.leb_spec (le_value (rev (take 4 frame))) u32_max) as [|Hov].
    + pose proof (le_bytes_value (rev (take 4 frame))) as Hback. rewrite length_rev, H4 in Hback.
      by rewrite Hback, rev_involutive, take_drop.
    + exfalso. unfold u32_max in Hov. cbn in Hlt, Hov. lia.
  - intros (t' & [Hdoc Ht] & H). destruct (N.leb_spec (blen (bytes t)) u32_max) as [Hle|]; [|done].
    set (b := bytes t) in *.
    assert (frame = rev (le_bytes 4 (blen b)) ++ b) as -> by congruence. clear H.
    assert (length (rev (le_bytes 4 (blen b))) = 4)%nat as H4 by by rewrite length_rev, length_le_bytes.
    rewrite take_app_length', drop_app_length', rev_involutive, le_value_bytes by
      first [done | unfold u32_max in Hle; cbn; lia].
    assert (blen (rev (le_bytes 4 (blen b)) ++ b) = 4 + blen b)%N as ->
      by (unfold blen at 1; rewrite length_app, H4; unfold blen; lia).
    change (N.of_nat JSON_LENGTH_PREFIX_BYTES) with 4%N.
    destruct (N.ltb_spec (4 + blen b) 4); [lia|]. cbv zeta.
    destruct Hdoc as (Hne & Hmax & Hutf). destruct (N.ltb_spec max (blen b)); [lia|].
    destruct (N.eqb_spec (4 + blen b - 4) (blen b)); [|lia]. cbn [negb].
    apply validate_json_Ok. split; [done|]. subst b. by rewrite of_bytes_bytes.
Qed.
End json_facts.

(** ** Archive frames *)

Section frame_facts.
Context {JT : JsonText} {RK : Rkyv}.

Lemma decode_encode_payload `{!RkyvLaws} m b :
  encode_payload m = Ok b → decode_payload (message_kind m) b = Ok m.
Proof.
  destruct m; cbn [encode_payload decode_payload message_kind]; unfold encode, decode;
    intros Hb%map_err_Ok; by rewrite (from_to_bytes _ _ _ Hb).
Qed.

Lemma decode_payload_kind k b m : decode_payload k b = Ok m → message_kind m = k.
Proof.
  destruct k; cbn [decode_payload]; destruct (decode _ b); cbn; intros H; by simplify_eq.
Qed.

Lemma encode_frame_Ok m max frame :
  encode_rkyv_frame_v1 m max = Ok frame ↔
  validate_message m max = Ok () ∧ ∃ b, encode_payload m = Ok b ∧ (blen b <= max)%N ∧
    (blen b <= u32_max)%N ∧
    frame = FrameHeader_encode {| fh_kind := message_kind m; fh_payload_len := blen b |} ++ b.
Proof.
  unfold encode_rkyv_frame_v1. rewrite check_Ok, bind_Ok. f_equiv. f_equiv; intros b. f_equiv.
  destruct (N.ltb_spec max (blen b)); [split; [done|lia]|].
  rewrite bind_Ok. setoid_rewrite FrameHeader_new_Ok. naive_solver.
Qed.

(** C24 Every frame the encoder produces decodes to the message it was made from, and is
    accepted on the logical channel of its kind and on no other. *)
Theorem rkyv_frame_roundtrip `{!RkyvLaws} m max frame channel :
  encode_rkyv_frame_v1 m max = Ok frame →
  decode_rkyv_frame_v1 frame max = Ok m ∧
  decode_rkyv_frame_v1_on_channel frame max channel =
    if decide (logical_channel (message_kind m) = channel) then Ok m
    else Err (InvalidLogicalChannel (kind_code (message_kind m)) (channel_as_str channel)).
Proof.
  intros (Hval & b & Hb & Hmax & Hu32 & ->)%encode_frame_Ok.
  unfold decode_rkyv_frame_v1, decode_rkyv_frame_v1_on_channel, decode_rkyv_frame_v1_inner.
  rewrite decode_encoded_header by done. cbn [fh_payload_len].
  destruct (N.ltb_spec max (blen b)); [lia|]. cbn [mbind result_bind fh_kind fh_payload_len if_some].
  rewrite drop_app_length' by done.
  rewrite (decode_encode_payload _ _ Hb). cbn [mbind result_bind]. rewrite Hval.
  assert ((blen (FrameHeader_encode {| fh_kind := message_kind m; fh_payload_len := blen b |} ++ b)
            - N.of_nat FRAME_HEADER_BYTES =? blen b)%N = true) as ->.
  { apply N.eqb_eq. unfold blen. rewrite length_app, length_header. lia. }
  split; [done|]. unfold require_channel. by case_decide.
Qed.

(** A frame is accepted only in canonical form: it is the header of the decoded
    message's kind and of the exact payload length, followed by a payload that decodes to
    the message, within the limit, on a channel the kind belongs to, and the message
    passes its validation. *)
Theorem decoded_frame_canonical frame max channel m :
  decode_rkyv_frame_v1_inner frame max channel = Ok m →
  ∃ b, frame = FrameHeader_encode {| fh_kind := message_kind m; fh_payload_len := blen b |} ++ b ∧
       decode_payload (message_kind m) b = Ok m ∧ (blen b <= max)%N ∧
       validate_message m max = Ok () ∧
       ∀ c, channel = Some c → logical_channel (message_kind m) = c.
Proof.
  unfold decode_rkyv_frame_v1_inner.
  intros (h & Hh & H)%bind_Ok. apply check_Ok in H as [Hch H]. cbv zeta in H.
  destruct (N.eqb_spec (blen frame - N.of_nat FRAME_HEADER_BYTES) (fh_payload_len h)) as [Heq|];
    [|done]. cbn [negb] in H.
  apply bind_Ok in H as (m' & Hm & H). apply check_Ok in H as [Hval [= ->]].
  pose proof (decode_payload_kind _ _ _ Hm) as Hk.
  apply decoded_header_canonical in Hh as (Htake & Hmax & _ & Hlen).
  exists (drop FRAME_HEADER_BYTES frame).
  assert (blen (drop FRAME_HEADER_BYTES frame) = fh_payload_len h) as Hb.
  { rewrite <- Heq. unfold blen in *. rewrite length_drop. lia. }
  rewrite Hb, Hk. split_and!; [|done..|].
  - rewrite <- (take_drop FRAME_HEADER_BYTES frame) at 1. rewrite Htake. by destruct h.
  - intros c ->. cbn in Hch. unfold require_channel in Hch. by case_decide.
Qed.
End frame_facts.

(** ** Well-formed messages *)

Definition short (max : N) (s : string) : Prop := (slen s <= max)%N.
Definition named (max : N) (s : string) : Prop := s ≠ "" ∧ short max s.
Definition opt {A} (P : A → Prop) (o : option A) : Prop := match o with Some x => P x | None => True end.
Definition one_of {A B} (a : option A) (b : option B) : Prop := is_Some a ∧ b = None ∨ a = None ∧ is_Some b.
Definition str_lt (a b : string) : Prop := ¬ String.le b a.

Definition host_byte (c : ascii) : Prop := is_ascii_alphanumeric c = true ∨ c = "-"%char.
Definition dns_label (l : string) : Prop :=
  named 63 l ∧ starts_with l "-" = false ∧ ends_with l "-" = false ∧ Forall host_byte (bytes l).
Definition dns_name (s : string) : Prop :=
  ∃ labels, labels ≠ [] ∧ Forall dns_label labels ∧
    (s = join "." labels ∨ s = join "." labels +:+ ".").
Definition address_wf (s : string) : Prop :=
  named MAX_ADDRESS_BYTES s ∧ (is_Some (parse_ip s) ∨ dns_name s).

Definition tag_wf (t : WireTagV1) : Prop :=
  named MAX_TAG_COMPONENT_BYTES (wt_key t) ∧ short MAX_TAG_COMPONENT_BYTES (wt_value t).
Definition tags_wf (l : list WireTagV1) : Prop :=
  (N.of_nat (length l) <= MAX_TAGS)%N ∧ Forall tag_wf l ∧ StronglySorted str_lt (wt_key <$> l).

Definition node_wf (m : DiscoveryNodeV1) : Prop :=
  dn_runtime_instance_id m ≠ 0%N ∧ named MAX_SERVICE_ID_BYTES (dn_service_id m) ∧
  opt (short MAX_ENV_TAG_BYTES) (dn_env_tag m) ∧ short MAX_ENV_TAG_BYTES (dn_environment m) ∧
  named MAX_VERSION_BYTES (dn_service_version m) ∧
  named MAX_PROTOCOL_BYTES (dn_application_protocol m) ∧ address_wf (dn_address m) ∧
  dn_port m ≠ 0%N ∧ tags_wf (dn_tags m).
Definition snapshot_wf (m : DiscoverySnapshotV1) : Prop :=
  named MAX_SERVICE_ID_BYTES (ds_service_id m) ∧ opt (short MAX_ENV_TAG_BYTES) (ds_env_tag m) ∧
  opt (named MAX_PROTOCOL_BYTES) (ds_application_protocol m) ∧
  (N.of_nat (length (ds_nodes m)) <= MAX_DISCOVERY_NODES)%N ∧ Forall node_wf (ds_nodes m).
Definition error_wf `{JsonText} (max : N) (e : WireErrorV1) : Prop :=
  short MAX_ERROR_MESSAGE_BYTES (we_message e) ∧ opt (json_document max) (we_data_json e).

Definition message_wf `{JsonText} (max : N) (m : DecodedMessageV1) : Prop :=
  match m with
  | ClientHello v =>
      named MAX_SERVICE_ID_BYTES (ch_service_id v) ∧ opt (short MAX_ENV_TAG_BYTES) (ch_env_tag v) ∧
      named MAX_VERSION_BYTES (ch_service_version v) ∧
      named MAX_PROTOCOL_BYTES (ch_application_protocol v) ∧ address_wf (ch_address v) ∧
      ch_port v ≠ 0%N ∧ tags_wf (ch_tags v)
  | ServerHello v =>
      sh_runtime_instance_id v ≠ 0%N ∧ sh_connection_id v ≠ 0%N ∧
      sh_heartbeat_interval_ms v ≠ 0%N ∧ sh_max_control_payload_bytes v ≠ 0%N ∧
      sh_max_command_streams v ≠ 0%N
  | MetadataUpdate v =>
      opt (named MAX_VERSION_BYTES) (mu_service_version v) ∧
      opt (named MAX_PROTOCOL_BYTES) (mu_application_protocol v) ∧
      opt (λ p, p ≠ 0%N) (mu_port v) ∧ opt tags_wf (mu_tags v)
  | DiscoveryRequest v =>
      named MAX_REQUEST_ID_BYTES (dr_request_id v) ∧ (1 <= dr_operation v <= 3)%N ∧
      named MAX_SERVICE_ID_BYTES (dr_service_id v) ∧ opt (short MAX_ENV_TAG_BYTES) (dr_env_tag v) ∧
      opt (named MAX_PROTOCOL_BYTES) (dr_application_protocol v)
  | DiscoveryResponse v =>
      named MAX_REQUEST_ID_BYTES (drs_request_id v) ∧ one_of (drs_snapshot v) (drs_error v) ∧
      opt snapshot_wf (drs_snapshot v) ∧ opt (error_wf max) (drs_error v)
  | DiscoveryChanged v => snapshot_wf (dc_snapshot v)
  | Ping _ | Pong _ => True
  | SessionError v => error_wf max (se_error v)
  | ServerDraining v => short MAX_ERROR_MESSAGE_BYTES (sd_reason v)
  | ClientGoodbye v =>
      named MAX_REQUEST_ID_BYTES (cg_request_id v) ∧ cg_runtime_instance_id v ≠ 0%N ∧
      cg_reason v ∈ ["interrupt"; "terminate"; "programmatic"]
  | ServerGoodbye v =>
      named MAX_REQUEST_ID_BYTES (sg_request_id v) ∧ sg_runtime_instance_id v ≠ 0%N
  | CommandRequest v =>
      named MAX_REQUEST_ID_BYTES (cq_request_id v) ∧ named MAX_TOOL_NAME_BYTES (cq_tool_name v) ∧
      json_document max (cq_arguments_json v)
  | CommandResponse v =>
      named MAX_REQUEST_ID_BYTES (cr_request_id v) ∧ one_of (cr_result_json v) (cr_error v) ∧
      opt (json_document max) (cr_result_json v) ∧ opt (error_wf max) (cr_error v)
  | RuntimeNotification v =>
      named MAX_METHOD_BYTES (rn_method v) ∧ json_document max (rn_params_json v)
  end.

Lemma bounded_string_Ok f s max : bounded_string f s max = Ok () ↔ short max s.
Proof. unfold bounded_string, short. destruct (N.ltb_spec max (slen s)); split; (done || lia). Qed.

Lemma required_string_Ok f s max : required_string f s max = Ok () ↔ named max s.
Proof.
  unfold required_string, named. destruct s; [by split; [|intros []]|]. cbn [is_empty].
  rewrite bounded_string_Ok. naive_solver.
Qed.

Lemma if_some_Ok {A} (f : A → WireResult unit) (P : A → Prop) o :
  (∀ x, f x = Ok () ↔ P x) → if_some o f = Ok () ↔ opt P o.
Proof. intros H. destruct o; cbn; [apply H|done]. Qed.

Lemma optional_string_Ok f o max : optional_string f o max = Ok () ↔ opt (short max) o.
Proof. destruct o; cbn; [apply bounded_string_Ok|done]. Qed.

Lemma optional_nonempty_string_Ok f o max :
  optional_nonempty_string f o max = Ok () ↔ opt (named max) o.
Proof. destruct o; cbn [optional_nonempty_string opt]; [apply required_string_Ok|done]. Qed.

Lemma nonzero_port_Ok f n : nonzero_port f n = Ok () ↔ n ≠ 0%N.
Proof. unfold nonzero_port. destruct (N.eqb_spec n 0); naive_solver. Qed.

Lemma nonzero_u32_Ok f n : nonzero_u32 f n = Ok () ↔ n ≠ 0%N.
Proof. unfold nonzero_u32. destruct (N.eqb_spec n 0); naive_solver. Qed.

Lemma nonnil_uuid_Ok f n : nonnil_uuid f n = Ok () ↔ n ≠ 0%N.
Proof. unfold nonnil_uuid, is_nil. destruct (N.eqb_spec n 0); naive_solver. Qed.

Lemma exactly_one_Ok {A B} f (a : option A) (b : option B) :
  exactly_one f (bool_decide (is_Some a)) (bool_decide (is_Some b)) = Ok () ↔ one_of a b.
Proof.
  unfold exactly_one, one_of.
  destruct a, b; cbn; (split; [intros H|intros [[[] ?]|[? []]]]); simplify_eq; eauto.
Qed.

(** *** Addresses *)

Lemma host_bytes_spec l :
  forallb (λ b, is_ascii_alphanumeric b || Ascii.eqb b "-") l = true ↔ Forall host_byte l.
Proof.
  induction l as [|c l IH]; cbn [forallb]; [by split; [constructor|]|].
  rewrite Forall_cons, andb_true_iff, IH. f_equiv.
  unfold host_byte. by rewrite orb_true_iff, Ascii.eqb_eq.
Qed.

Lemma valid_label_spec l : valid_label l = true ↔ dns_label l.
Proof.
  unfold valid_label, dns_label, named, short.
  rewrite !andb_true_iff, !negb_true_iff, is_empty_false, N.leb_le, host_bytes_spec. tauto.
Qed.

Lemma dns_label_no_dot l : dns_label l → contains_byte l "." = false.
Proof.
  intros (_ & _ & _ & Hl). unfold contains_byte. apply not_true_iff_false.
  intros (c & Hc & <-%Ascii.eqb_eq)%existsb_exists.
  rewrite Forall_forall in Hl. destruct (Hl _ (proj2 (list_elem_of_In _ _) Hc)) as [H|H]; done.
Qed.

Lemma strip_final_dot_app s : strip_final_dot (s +:+ ".") = s.
Proof.
  unfold strip_final_dot. rewrite bytes_app, rev_app_distr. cbn.
  by rewrite rev_involutive, of_bytes_bytes.
Qed.

Lemma strip_final_dot_cases s : s = strip_final_dot s ∨ s = strip_final_dot s +:+ ".".
Proof.
  unfold strip_final_dot. destruct (rev (bytes s)) as [|c rest] eqn:E; [by left|].
  destruct (Ascii.eqb_spec c ".") as [->|]; [right|by left].
  apply (f_equal (@rev ascii)) in E. rewrite rev_involutive in E. cbn in E.
  rewrite <- (of_bytes_bytes s), E, <- (of_bytes_bytes (_ +:+ _)), bytes_app, bytes_of_bytes. done.
Qed.

(** A dotted name does not end in a dot. *)
Lemma strip_final_dot_join labels :
  labels ≠ [] → Forall dns_label labels → strip_final_dot (join "." labels) = join "." labels.
Proof.
  intros Hne Hl. destruct (strip_final_dot_cases (join "." labels)) as [|E]; [done|exfalso].
  set (s := strip_final_dot _) in E.
  assert (split "." (join "." labels) = labels) as Hs.
  { apply (split_join "."); [done|]. eapply Forall_impl; [done|]. apply dns_label_no_dot. }
  assert ("" ∈ split "." (s +:+ ".")) as Hin.
  { rewrite (split_app_sep "." s ""). apply elem_of_app. right. by left. }
  rewrite <- E, Hs in Hin. rewrite Forall_forall in Hl. by destruct (Hl _ Hin) as [[? _] _].
Qed.

Lemma valid_dns_name_spec s : valid_dns_name s = true ↔ dns_name s.
Proof.
  unfold valid_dns_name, dns_name. rewrite andb_true_iff, negb_true_iff, is_empty_false, forallb_forall.
  split.
  - intros [Hne Hl]. exists (split "." (strip_final_dot s)). split; [apply split_nonempty|]. split.
    + apply Forall_forall. intros l Hin. apply valid_label_spec, Hl. by apply list_elem_of_In.
    + rewrite (concat_split "."). apply strip_final_dot_cases.
  - intros (labels & Hne & Hl & Hs).
    assert (strip_final_dot s = join "." labels) as ->.
    { destruct Hs as [->| ->]; [by apply strip_final_dot_join|by apply strip_final_dot_app]. }
    assert (split "." (join "." labels) = labels) as Hsp.
    { apply (split_join "."); [done|]. eapply Forall_impl; [done|]. apply dns_label_no_dot. }
    rewrite Hsp. split.
    + intros E. rewrite E in Hsp. cbn in Hsp. subst labels.
      apply Forall_cons in Hl as [[[? _] _] _]. done.
    + intros l Hin%list_elem_of_In. apply valid_label_spec. rewrite Forall_forall in Hl. auto.
Qed.

Lemma validate_address_Ok s : validate_address s = Ok () ↔ address_wf s.
Proof.
  unfold validate_address, address_wf. rewrite check_Ok, required_string_Ok. f_equiv.
  rewrite <- valid_dns_name_spec. case_bool_decide; cbn; [tauto|].
  destruct (valid_dns_name s); naive_solver.
Qed.

(** *** Tags *)

Lemma str_lt_trans a b c : str_lt a b → str_lt b c → str_lt a c.
Proof.
  unfold str_lt. intros Hab Hbc Hca.
  destruct (base.total String.le b c) as [H|H]; [|done]. apply Hab. by transitivity c.
Qed.

Lemma validate_tag_Ok previous t next :
  validate_tag previous t = Ok next ↔
  tag_wf t ∧ (∀ key, previous = Some key → str_lt key (wt_key t)) ∧ next = Some (wt_key t).
Proof.
  unfold validate_tag, tag_wf. rewrite !check_Ok, required_string_Ok, bounded_string_Ok.
  destruct previous as [key|]; [unfold str_lt; case_bool_decide|]; naive_solver.
Qed.

Lemma validate_tags_loop previous l :
  (∃ last, for_each validate_tag previous l = Ok last) ↔
  Forall tag_wf l ∧ StronglySorted str_lt (wt_key <$> l) ∧
  ∀ key, previous = Some key → Forall (str_lt key) (wt_key <$> l).
Proof.
  revert previous. induction l as [|t l IH]; intros previous.
  { split; [intros _; split_and!; by constructor|eauto]. }
  cbn [for_each fmap list_fmap]. setoid_rewrite bind_Ok. setoid_rewrite validate_tag_Ok.
  setoid_rewrite Forall_cons. split.
  - intros (last & next & (Ht & Hp & ->) & Hl).
    destruct (proj1 (IH _) (ex_intro _ last Hl)) as (Hwf & Hs & Hall). specialize (Hall _ eq_refl).
    split_and!; [done..|by constructor|]. intros key Hk. split; [auto|].
    eapply Forall_impl; [done|]. intros k. apply str_lt_trans. auto.
  - intros ([Ht Hwf] & Hs & Hp). apply StronglySorted_inv in Hs as [Hs Hlt].
    destruct (proj2 (IH (Some (wt_key t)))) as [last Hl].
    { split_and!; [done..|]. by intros ? [= <-]. }
    exists last, (Some (wt_key t)). split; [|done]. split_and!; [done| |done].
    intros key Hk. by apply Hp.
Qed.

Lemma validate_tags_Ok l : validate_tags l = Ok () ↔ tags_wf l.
Proof.
  unfold validate_tags, tags_wf.
  destruct (N.ltb_spec MAX_TAGS (N.of_nat (length l))); [split; [done|lia]|].
  rewrite bind_Ok. pose proof (validate_tags_loop None l). naive_solver.
Qed.

(** *** Messages *)

Lemma validate_discovery_node_Ok m : validate_discovery_node m = Ok () ↔ node_wf m.
Proof.
  unfold validate_discovery_node, node_wf.
  by rewrite !check_Ok, nonnil_uuid_Ok, !required_string_Ok, optional_string_Ok, bounded_string_Ok,
    validate_address_Ok, nonzero_port_Ok, validate_tags_Ok.
Qed.

Lemma validate_discovery_snapshot_Ok m : validate_discovery_snapshot m = Ok () ↔ snapshot_wf m.
Proof.
  unfold validate_discovery_snapshot, snapshot_wf.
  rewrite !check_Ok, required_string_Ok, optional_string_Ok, optional_nonempty_string_Ok.
  do 3 f_equiv. destruct (N.ltb_spec MAX_DISCOVERY_NODES (N.of_nat (length (ds_nodes m))));
    [split; [done|lia]|].
  rewrite check_all_Ok, Forall_forall. setoid_rewrite validate_discovery_node_Ok. naive_solver.
Qed.

Section message_facts.
Context {JT : JsonText}.

Lemma validate_json_bytes_Ok max b : validate_json_bytes max b = Ok () ↔ json_document max b.
Proof. unfold validate_json_bytes. rewrite bind_Ok. setoid_rewrite validate_json_Ok. naive_solver. Qed.

Lemma validate_wire_error_Ok e max : validate_wire_error e max = Ok () ↔ error_wf max e.
Proof.
  unfold validate_wire_error, error_wf. rewrite check_Ok, bounded_string_Ok.
  by rewrite (if_some_Ok _ (json_document max)) by apply validate_json_bytes_Ok.
Qed.

Lemma validate_message_Ok m max : validate_message m max = Ok () ↔ message_wf max m.
Proof.
  destruct m; cbn [validate_message message_wf];
    unfold validate_client_hello, validate_server_hello, validate_metadata_update,
      validate_discovery_request, validate_discovery_response, validate_server_draining,
      validate_client_goodbye, validate_server_goodbye, validate_command_request,
      validate_command_response, validate_runtime_notification;
    rewrite ?check_Ok, ?required_string_Ok, ?optional_string_Ok, ?optional_nonempty_string_Ok,
      ?bounded_string_Ok, ?validate_address_Ok, ?nonzero_port_Ok, ?validate_tags_Ok,
      ?nonnil_uuid_Ok, ?nonzero_u32_Ok, ?exactly_one_Ok, ?validate_json_bytes_Ok,
      ?validate_discovery_snapshot_Ok, ?validate_wire_error_Ok; try done.
  - do 2 f_equiv. by rewrite (if_some_Ok _ (λ p, p ≠ 0%N)), (if_some_Ok _ tags_wf)
      by (intros; first [apply nonzero_port_Ok|apply validate_tags_Ok]).
  - do 2 f_equiv. unfold in_range. destruct (N.leb_spec 1 (dr_operation m)),
      (N.leb_spec (dr_operation m) 3); cbn; split; (done || lia).
  - by rewrite (if_some_Ok _ snapshot_wf), (if_some_Ok _ (error_wf max))
      by (intros; first [apply validate_discovery_snapshot_Ok|apply validate_wire_error_Ok]).
  - do 2 f_equiv. case_bool_decide; naive_solver.
  - by rewrite (if_some_Ok _ (json_document max)), (if_some_Ok _ (error_wf max))
      by (intros; first [apply validate_json_bytes_Ok|apply validate_wire_error_Ok]).
Qed.

(** Every message a frame decodes to is well formed for its type: names are present
    and bounded, an address is an IP literal or a host name, ports and identifiers are
    not zero, at most 64 tags come in strictly ascending key order, a response carries
    exactly one of a result and an error, and every embedded document is bounded UTF-8
    JSON of depth at most 64. Conversely a well-formed message whose archive is within
    the limits can be sent. *)
Theorem wire_messages_well_formed {RK : Rkyv} max m :
  (∀ frame channel, decode_rkyv_frame_v1_inner frame max channel = Ok m → message_wf max m) ∧
  (∀ b, message_wf max m → encode_payload m = Ok b → (blen b <= N.min max u32_max)%N →
    is_Some (match encode_rkyv_frame_v1 m max with Ok f => Some f | Err _ => None end)).
Proof.
  split.
  - intros frame channel (h & _ & H)%bind_Ok. apply check_Ok in H as [_ H]. cbv zeta in H.
    case_match; [done|]. apply bind_Ok in H as (m' & _ & H). apply check_Ok in H as [Hval [= ->]].
    by apply validate_message_Ok.
  - intros b Hwf%validate_message_Ok Hb Hle.
    assert (encode_rkyv_frame_v1 m max = Ok (FrameHeader_encode
      {| fh_kind := message_kind m; fh_payload_len := blen b |} ++ b)) as ->; [|eauto].
    apply encode_frame_Ok. split; [done|]. exists b. split_and!; [done|lia..|done].
Qed.
End message_facts.

(** ** Instances

    A length-prefixed format for the pings and the commands that satisfies the round trip
    the archive format documents, and a reader of two documents. *)

Module WireInstance.

Definition put (l : Bytes) : Bytes := le_bytes 4 (blen l) ++ l.
Definition get_field (l : Bytes) : Bytes * Bytes :=
  let n := N.to_nat (le_value (take 4 l)) in (take n (drop 4 l), drop n (drop 4 l)).

Lemma get_put l rest : (blen l <= u32_max)%N → get_field (put l ++ rest) = (l, rest).
Proof.
  intros H. unfold get_field, put. rewrite <- app_assoc.
  rewrite take_app_length', drop_app_length' by by rewrite length_le_bytes.
  rewrite le_value_bytes by (unfold u32_max in H; cbn; lia).
  unfold blen. rewrite Nnat.Nat2N.id. by rewrite take_app_length, drop_app_length.
Qed.

Definition ping_bytes (p : PingV1) : result string Bytes :=
  if bool_decide (pi_nonce p < 256 ^ N.of_nat 8)%N && bool_decide (0 <= pi_timestamp_ms p < 2 ^ 63)%Z
  then Ok (le_bytes 8 (pi_nonce p) ++ le_bytes 8 (Z.to_N (pi_timestamp_ms p)))
  else Err "range".
Definition command_bytes (c : CommandRequestV1) : result string Bytes :=
  if (blen (bytes (cq_request_id c)) <=? u32_max)%N && (blen (bytes (cq_tool_name c)) <=? u32_max)%N
     && (blen (cq_arguments_json c) <=? u32_max)%N
  then Ok (put (bytes (cq_request_id c)) ++ put (bytes (cq_tool_name c))
           ++ put (cq_arguments_json c) ++ [])
  else Err "length".

#[local] Instance rkyv : Rkyv := {|
  to_bytes k := match k with
                | KPing => ping_bytes
                | KCommandRequest => command_bytes
                | _ => λ _, Err "unsupported"
                end;
  from_bytes k b := match k with
                    | KPing => Ok {| pi_nonce := le_value (take 8 b);
                                     pi_timestamp_ms := Z.of_N (le_value (drop 8 b)) |}
                    | KCommandRequest =>
                        let '(id, b) := get_field b in
                        let '(tool, b) := get_field b in
                        let '(args, _) := get_field b in
                        Ok {| cq_request_id := of_bytes id; cq_tool_name := of_bytes tool;
                              cq_arguments_json := args |}
                    | _ => Err "unsupported"
                    end |}.

#[local] Instance rkyv_laws : RkyvLaws.
Proof.
  intros [] v b; cbn -[put get_field le_bytes le_value N.pow Z.pow]; try done.
  - unfold ping_bytes. case_bool_decide as Hn; [|done]. case_bool_decide as Ht; [|done]. intros <-%(inj Ok).
    rewrite take_app_length', drop_app_length' by by rewrite length_le_bytes.
    rewrite !le_value_bytes by (first [done|cbn; lia]). rewrite Z2N.id by lia. by destruct v.
  - unfold command_bytes. destruct (_ && _) eqn:E; [|done]. bool_prop. destruct E as [[? ?] ?].
    intros <-%(inj Ok). rewrite !get_put by done. rewrite !of_bytes_bytes. by destruct v.
Qed.

#[local] Instance json_text : JsonText := {|
  json_from_str s := if bool_decide (s = "{}") then Ok (JObject [])
                     else if bool_decide (s = "null") then Ok JNull else Err "unsupported" |}.

Definition call : DecodedMessageV1 :=
  CommandRequest {| cq_request_id := "r-1"; cq_tool_name := "reload"; cq_arguments_json := bytes "{}" |}.
Definition call_frame : Bytes := ok_value [] (encode_rkyv_frame_v1 call 1024).

Lemma rkyv_frame_roundtrip_witness :
  decode_rkyv_frame_v1 call_frame 1024 = Ok call ∧
  decode_rkyv_frame_v1_on_channel call_frame 1024 RuntimeEvents =
    Err (InvalidLogicalChannel 100 "runtime-events").
Proof. apply (rkyv_frame_roundtrip call 1024 call_frame RuntimeEvents). by vm_compute. Defined.

Lemma decoded_frame_canonical_witness :
  ∃ b, call_frame = FrameHeader_encode {| fh_kind := message_kind call; fh_payload_len := blen b |} ++ b ∧
       decode_payload (message_kind call) b = Ok call ∧ (blen b <= 1024)%N ∧
       validate_message call 1024 = Ok () ∧
       ∀ c, Some Command = Some c → logical_channel (message_kind call) = c.
Proof. apply (decoded_frame_canonical call_frame 1024 (Some Command) call). by vm_compute. Defined.
End WireInstance.
