(* ===== verification/ExecutionSecurityFacts.v ===== *)
(** * Execution security: theorems

    Protected paths are enforced segment by segment, a grant is never used more often
    than it was issued for, redirects stay on the authorized destination, and the runner
    gets exactly the tools every party agrees on. *)

From S2P Require Import Prelude RustStr IpAddr ExecutionSecurity.
From Stdlib Require Import Ascii.

(** ** Paths as lists of segments *)

(** The segments of a path, without empty pieces and [.]. *)
Definition segments (raw : string) : list string :=
  filter (λ s, s ≠ "" ∧ s ≠ ".") (split "/" raw).
(** A relative path that names an entry below the root without climbing. *)
Definition relative (raw : string) : Prop :=
  contains_byte raw "000" = false ∧ contains_byte raw "\" = false ∧
  starts_with raw "/" = false ∧ head (split "/" raw) ≠ Some "." ∧
  (".." ∉ split "/" raw) ∧ segments raw ≠ [].

Lemma push_normal_Ok parts cs parts' :
  for_each push_normal parts cs = Ok parts' ↔
  ∃ l, cs = Normal <$> l ∧ Forall (λ s, s ≠ "" ∧ s ≠ ".") l ∧ parts' = parts ++ l.
Proof.
  revert parts. induction cs as [|c cs IH]; intros parts; cbn [for_each].
  { split; [intros [= <-]; exists []; by rewrite app_nil_r|].
    intros (l & Hl & _ & ->). destruct l; [by rewrite app_nil_r|done]. }
  rewrite bind_Ok. setoid_rewrite IH. split.
  - intros (p & Hp & l & -> & Hl & ->). destruct c as [| | |s]; try done. cbn in Hp.
    destruct (is_empty s || String.eqb s ".") eqn:E; [done|]. injection Hp as <-.
    apply orb_false_iff in E as [E1%is_empty_false E2%String.eqb_neq].
    exists (s :: l). rewrite <- app_assoc. split; [done|]. split; [by constructor|done].
  - intros ([|s l] & Hc & Hl & ->); [done|]. injection Hc as -> ->.
    apply Forall_cons in Hl as [[H1 H2] Hl]. exists (parts ++ [s]). split.
    + cbn. apply is_empty_false in H1. apply String.eqb_neq in H2. by rewrite H1, H2.
    + exists l. by rewrite <- app_assoc.
Qed.

Lemma omap_component (l : list string) :
  ".." ∉ l → omap component l = Normal <$> filter (λ s, s ≠ "" ∧ s ≠ ".") l.
Proof.
  induction l as [|s l IH]; [done|]. rewrite not_elem_of_cons. intros [Hs Hl].
  rewrite filter_cons. cbn [omap list_omap]. rewrite IH by done. unfold component.
  destruct (String.eqb_spec s "") as [->|Hne]; [by rewrite decide_False by tauto|].
  apply is_empty_false in Hne as He. rewrite He. cbn [orb].
  destruct (String.eqb_spec s ".") as [->|Hd]; [by rewrite decide_False by tauto|].
  destruct (String.eqb_spec s ".."); [congruence|]. by rewrite decide_True by done.
Qed.

Lemma omap_component_normal (l parts : list string) : omap component l = Normal <$> parts → ".." ∉ l.
Proof.
  revert parts. induction l as [|s l IH]; intros parts; [intros _; apply not_elem_of_nil|].
  cbn [omap list_omap]. rewrite not_elem_of_cons. unfold component at 1.
  destruct (String.eqb_spec s "..") as [->|Hne]; [by destruct parts|].
  destruct (is_empty s || String.eqb s "."); intros H.
  - split; [congruence|]. by eapply IH.
  - destruct parts as [|p parts]; [done|]. injection H as -> H. split; [congruence|]. by eapply IH.
Qed.

(** Normalization accepts the relative paths and joins their segments. *)
Lemma normalize_relative_Ok raw path :
  normalize_relative raw = Ok path ↔ relative raw ∧ path = join "/" (segments raw).
Proof.
  unfold normalize_relative, relative, is_absolute, components.
  destruct (contains_byte raw "000"); [naive_solver|]. destruct (contains_byte raw "\"); [naive_solver|].
  cbn [orb]. destruct (starts_with raw "/"); [naive_solver|]. rewrite bind_Ok.
  setoid_rewrite push_normal_Ok. unfold segments.
  destruct (split "/" raw) as [|first rest] eqn:Es; [by destruct (split_nonempty "/" raw)|].
  cbn [head]. destruct (String.eqb_spec first ".") as [->|Hdot].
  { split; [|naive_solver]. intros (? & (l & Hl & _) & _). by destruct l. }
  set (l := first :: rest) in *. split.
  - intros (parts & (l' & Hl & Hok & ->) & Hp). cbn [app] in Hp.
    pose proof (omap_component_normal _ _ Hl) as Hdd. rewrite omap_component in Hl by done.
    apply (list_fmap_eq_inj Normal) in Hl; [|by intros ?? [= ->]]. rewrite Hl.
    destruct l' as [|x l']; [done|]. injection Hp as <-. split_and!; [done..|congruence|done|done|done].
  - intros [(_ & _ & _ & _ & Hdd & Hne) ->]. exists (filter (λ s, s ≠ "" ∧ s ≠ ".") l). split.
    + exists (filter (λ s, s ≠ "" ∧ s ≠ ".") l). split; [by apply omap_component|].
      split; [|done]. apply Forall_forall. intros s Hs. by apply list_elem_of_filter in Hs as [? _].
    + by destruct (filter _ l).
Qed.

(** On strings, one path lies below another exactly when its segments extend the other's. *)
Lemma component_subsumes_spec a b :
  component_subsumes a b = true ↔ split "/" a `prefix_of` split "/" b.
Proof.
  unfold component_subsumes. rewrite orb_true_iff, bool_decide_eq_true. split.
  - intros [->|H]; [done|]. destruct (strip_prefix a b) as [r|] eqn:E; [|done].
    apply strip_prefix_Some in E as ->. apply starts_with_app in H as [t ->].
    change ("/" +:+ t) with (String "/" t). rewrite split_app_sep. by apply prefix_app_r.
  - intros [l Hl]. destruct l as [|x l].
    { left. rewrite app_nil_r in Hl. rewrite <- (concat_split "/" b), Hl. by rewrite concat_split. }
    right. assert (b = a +:+ String "/" (join "/" (x :: l))) as ->.
    { rewrite <- (concat_split "/" b), Hl. rewrite (join_app "/") by (done || apply split_nonempty).
      unfold join at 1. by rewrite concat_split. }
    rewrite (proj2 (strip_prefix_Some _ _ _) eq_refl). apply starts_with_app. by eexists.
Qed.

(** The segments of an entry of a policy, case-folded as the policy says. *)
Definition folded (p : ProtectedPathPolicy) (l : list string) : list string := fold_case p <$> l.

Lemma split_fold_case p s : split "/" (fold_case p s) = folded p (split "/" s).
Proof.
  unfold fold_case, folded. destruct (pp_case_sensitive p) eqn:E.
  - unfold fold_case. rewrite E. by rewrite list_fmap_id.
  - rewrite split_lowercase. apply list_fmap_ext. intros. unfold fold_case. by rewrite E.
Qed.

Lemma split_segments raw : relative raw → split "/" (join "/" (segments raw)) = segments raw.
Proof.
  intros (_ & _ & _ & _ & _ & Hne). apply (split_join "/"); [done|]. apply Forall_forall.
  intros s [_ Hs]%list_elem_of_filter. by eapply split_pieces.
Qed.

Lemma validate_change_Ok p raw :
  validate_change p raw = Ok () ↔
  relative raw ∧
  ((∃ a, a ∈ pp_explicit_allow p ∧ folded p (split "/" a) `prefix_of` folded p (segments raw)) ∨
   (∀ q, q ∈ pp_protected p → ¬ folded p (split "/" q) `prefix_of` folded p (segments raw) ∧
                              ¬ folded p (segments raw) `prefix_of` folded p (split "/" q))).
Proof.
  unfold validate_change. rewrite bind_Ok. setoid_rewrite normalize_relative_Ok. cbv zeta.
  assert (relative raw → ∀ s, (component_subsumes (fold_case p s) (fold_case p (join "/" (segments raw))) = true
      ↔ folded p (split "/" s) `prefix_of` folded p (segments raw)) ∧
    (component_subsumes (fold_case p (join "/" (segments raw))) (fold_case p s) = true
      ↔ folded p (segments raw) `prefix_of` folded p (split "/" s))) as Hsub.
  { intros Hrel s. rewrite !component_subsumes_spec, !split_fold_case. by rewrite split_segments. }
  split.
  - intros (path & [Hrel ->] & H). split; [done|]. specialize (Hsub Hrel).
    destruct (existsb _ _) eqn:E.
    + left. apply existsb_exists in E as (a & Ha & Hs). exists a.
      rewrite <- list_elem_of_In, elem_of_bs_iter in Ha. split; [done|]. by apply Hsub.
    + right. rewrite check_all_Ok in H. intros q Hq. specialize (H q Hq). cbv beta in H.
      destruct (component_subsumes _ _ || _) eqn:Eq; [done|]. apply orb_false_iff in Eq as [E1 E2].
      split; intros Hp%Hsub; congruence.
  - intros [Hrel H]. exists (join "/" (segments raw)). split; [done|]. specialize (Hsub Hrel).
    destruct (existsb _ _) eqn:E; [done|]. destruct H as [(a & Ha & Hp)|H].
    + exfalso. eapply not_true_iff_false; [exact E|]. apply existsb_exists. exists a.
      split; [by rewrite <- list_elem_of_In, elem_of_bs_iter|]. by apply Hsub.
    + apply check_all_Ok. intros q Hq. destruct (H q Hq) as [H1 H2].
      destruct (component_subsumes _ _ || _) eqn:Eq; [|done].
      apply orb_true_iff in Eq as [Eq|Eq]; apply Hsub in Eq; tauto.
Qed.

(** C23 A change set is accepted exactly when every path is relative, names at least one
    segment, does not begin with the segment [.], is free of [..], backslashes and NUL bytes,
    and either lies below an explicitly allowed path or
    neither lies below nor above any protected path, comparing segment by segment with
    the policy's case rule. *)
Theorem protected_paths_enforced p paths :
  validate_changes p paths = Ok () ↔
  ∀ raw, raw ∈ paths →
    relative raw ∧
    ((∃ a, a ∈ pp_explicit_allow p ∧ folded p (split "/" a) `prefix_of` folded p (segments raw)) ∨
     (∀ q, q ∈ pp_protected p → ¬ folded p (split "/" q) `prefix_of` folded p (segments raw) ∧
                                ¬ folded p (segments raw) `prefix_of` folded p (split "/" q))).
Proof. unfold validate_changes. rewrite check_all_Ok. by setoid_rewrite validate_change_Ok. Qed.

(** The built-in policy exists, and its entries are what the list names. *)
Lemma default_deny_total : pp_protected <$> default_deny = Some DEFAULT_PROTECTED_PATHS.
Proof. by vm_compute. Qed.

(** ** Grants over a history of calls *)

Inductive GrantOp :=
| OpIssue (grant : AttemptGrant)
| OpConsume (id execution_id : Uuid) (fence : N) (policy operation destination : string)
| OpRevoke (execution_id : Uuid).

(** One call at a time: the ledger after it and whether it succeeded. *)
Definition grant_call (l : GrantLedger) (call : DateTime * GrantOp) : GrantLedger * bool :=
  let r := match call.2 with
           | OpIssue g => issue call.1 g l
           | OpConsume id e f p o d => consume call.1 id e f p o d l
           | OpRevoke e => Ok (revoke_execution e l)
           end in
  match r with Ok l' => (l', true) | Err _ => (l, false) end.

(** The calls of a history that succeed. *)
Fixpoint succeeded (l : GrantLedger) (calls : list (DateTime * GrantOp)) : list GrantOp :=
  match calls with
  | [] => []
  | call :: rest =>
      let '(l', ok) := grant_call l call in
      if ok then call.2 :: succeeded l' rest else succeeded l' rest
  end.

Definition used (id : Uuid) (op : GrantOp) : N :=
  match op with OpConsume i _ _ _ _ _ => if decide (i = id) then 1 else 0 | _ => 0 end.
Definition issued (id : Uuid) (op : GrantOp) : N :=
  match op with
  | OpIssue g => if decide (ag_grant_id g = id) then ag_maximum_uses g else 0
  | _ => 0
  end.
Definition u32_grant (op : GrantOp) : Prop :=
  match op with OpIssue g => (ag_maximum_uses g <= u32_max)%N | _ => True end.

Definition remaining (l : GrantLedger) (id : Uuid) : N :=
  match l !! id with Some (g, uses) => (ag_maximum_uses g - uses)%N | None => 0 end.
Definition ledger_wf (l : GrantLedger) : Prop :=
  ∀ id g uses, l !! id = Some (g, uses) →
    ag_grant_id g = id ∧ (uses <= ag_maximum_uses g <= u32_max)%N.

Lemma issue_Ok now g l l' :
  issue now g l = Ok l' ↔
  ag_maximum_uses g ≠ 0%N ∧ (now < ag_expires_at g)%Z ∧ l' = <[ag_grant_id g := (g, 0%N)]> l.
Proof.
  unfold issue. destruct (N.eqb_spec (ag_maximum_uses g) 0); [naive_solver|]. cbn [orb].
  case_bool_decide; [split; [done|lia]|]. split; [intros [= <-]; split_and!; [done|lia|done]|].
  by intros (_ & _ & ->).
Qed.

Lemma consume_Ok now id e f p o d l l' :
  consume now id e f p o d l = Ok l' ↔
  ∃ g uses, l !! id = Some (g, uses) ∧ ag_execution_id g = e ∧ ag_fencing_token g = f ∧
    ag_policy_digest g = p ∧ ag_operation g = o ∧ ag_destination g = d ∧
    (now < ag_expires_at g)%Z ∧ (uses < ag_maximum_uses g)%N ∧
    l' = <[id := (g, wrap_add u32_max uses 1)]> l.
Proof.
  unfold consume. rewrite bind_Ok. setoid_rewrite ok_or_Ok. split.
  - intros ([g uses] & Hl & H). cbv beta iota in H. case_match eqn:E; [done|].
    injection H as <-.
    apply orb_false_iff in E as [E Eu%N.leb_gt]. repeat (apply orb_false_iff in E as [E ?]).
    exists g, uses. bool_prop. split_and!; (done || lia || idtac).
  - intros (g & uses & Hl & <- & <- & <- & <- & <- & Ht & Hu & ->). exists (g, uses). split; [done|].
    rewrite !N.eqb_refl, !bool_decide_true by done. cbn [negb orb].
    rewrite bool_decide_false by lia. cbn [orb]. by destruct (N.leb_spec (ag_maximum_uses g) uses); [lia|].
Qed.

Lemma grant_call_wf l call :
  ledger_wf l → u32_grant call.2 → ledger_wf (grant_call l call).1.
Proof.
  intros Hwf Hu. destruct call as [now [g|id e f p o d|e]]; unfold grant_call; cbn [fst snd].
  - destruct (issue now g l) as [l'|] eqn:E; [|done]. apply issue_Ok in E as (_ & _ & ->). cbn [fst].
    intros id g' uses [[<- [= <- <-]]|[_ H]]%lookup_insert_Some; [|by apply Hwf].
    split; [done|]. cbn in Hu. lia.
  - destruct (consume _ _ _ _ _ _ _ _) as [l'|] eqn:E; [|done].
    apply consume_Ok in E as (g & uses & Hl & _ & _ & _ & _ & _ & _ & Hlt & ->).
    apply Hwf in Hl as [Hid Hle]. cbn [fst]. intros i g' u [[<- [= <- <-]]|[_ H]]%lookup_insert_Some;
      [|by apply Hwf].
    split; [done|]. rewrite wrap_add_small by lia. lia.
  - intros i g u [H _]%map_lookup_filter_Some. by apply Hwf.
Qed.

(** Remaining uses pay for what a call uses, and only an issue adds to them. *)
Lemma grant_call_remaining l call id :
  ledger_wf l →
  let '(l', ok) := grant_call l call in
  ((if ok then used id call.2 else 0) + remaining l' id <=
     remaining l id + if ok then issued id call.2 else 0)%N.
Proof.
  intros Hwf. destruct call as [now [g|i e f p o d|e]]; unfold grant_call; cbn [fst snd used issued].
  - destruct (issue now g l) as [l'|] eqn:E; [|lia]. apply issue_Ok in E as (_ & _ & ->).
    unfold remaining. cbv beta iota. destruct (decide (ag_grant_id g = id)) as [<-|].
    + rewrite lookup_insert_eq. lia.
    + rewrite lookup_insert_ne by done. lia.
  - destruct (consume _ _ _ _ _ _ _ _) as [l'|] eqn:E; [|lia].
    apply consume_Ok in E as (g & uses & Hl & _ & _ & _ & _ & _ & _ & Hlt & ->).
    apply Hwf in Hl as Hw. unfold remaining. cbv beta iota.
    destruct (decide (i = id)) as [<-|].
    + rewrite lookup_insert_eq, Hl, wrap_add_small by lia. lia.
    + rewrite lookup_insert_ne by done. lia.
  - unfold remaining, revoke_execution. destruct (l !! id) as [[g u]|] eqn:El.
    + destruct (filter _ l !! id) as [[g' u']|] eqn:Ef; [|lia].
      apply map_lookup_filter_Some in Ef as [Ef _]. rewrite El in Ef. simplify_eq. lia.
    + rewrite (proj2 (map_lookup_filter_None _ _ _)) by (by left). lia.
Qed.

Lemma succeeded_bounded id calls l :
  ledger_wf l → Forall (λ call, u32_grant call.2) calls →
  (Prelude.total (used id) (succeeded l calls) <=
     remaining l id + Prelude.total (issued id) (succeeded l calls))%N.
Proof.
  intros Hwf Hu. revert l Hwf. induction Hu as [|call calls Hc _ IH]; intros l Hwf; cbn; [lia|].
  pose proof (grant_call_remaining l call id Hwf) as Hstep.
  pose proof (grant_call_wf l call Hwf Hc) as Hwf'.
  destruct (grant_call l call) as [l' []]; cbn in *; specialize (IH l' Hwf'); lia.
Qed.

(** Over every history of issues, uses and revocations, an attempt grant is used at
    most as often as the grants issued under its id allow in total, however calls with
    wrong bindings, expired grants and revoked executions are mixed in. *)
Theorem grant_uses_bounded id calls :
  Forall (λ call, u32_grant call.2) calls →
  (Prelude.total (used id) (succeeded GrantLedger_new calls) <=
     Prelude.total (issued id) (succeeded GrantLedger_new calls))%N.
Proof.
  intros Hu. pose proof (succeeded_bounded id calls GrantLedger_new) as H.
  change (remaining GrantLedger_new id) with 0%N in H. apply H; [by intros ???|done].
Qed.

(** After a revocation no use for that execution succeeds until a grant is issued for it. *)
Lemma revoked_execution_unusable l e calls :
  (∀ now g, (now, OpIssue g) ∈ calls → ag_execution_id g ≠ e) →
  ∀ i f p o d, OpConsume i e f p o d ∉ succeeded (revoke_execution e l) calls.
Proof.
  intros Hno i f p o d.
  assert (∀ id g u, revoke_execution e l !! id = Some (g, u) → ag_execution_id g ≠ e) as Hinv.
  { intros id g u [_ H]%map_lookup_filter_Some. done. }
  generalize dependent (revoke_execution e l). clear l.
  induction calls as [|[now op] calls IH]; intros l Hinv; cbn [succeeded]; [apply not_elem_of_nil|].
  destruct (grant_call l (now, op)) as [l' ok] eqn:E.
  assert (∀ id g u, l' !! id = Some (g, u) → ag_execution_id g ≠ e) as Hinv'.
  { destruct op as [g|i' e' f' p' o' d'|e']; unfold grant_call in E; cbn [fst snd] in E.
    - destruct (issue now g l) as [l0|] eqn:Ei; simplify_eq; [|done].
      apply issue_Ok in Ei as (_ & _ & ->). intros id g' u [[_ [= <- _]]|[_ H]]%lookup_insert_Some.
      + eapply Hno. by left.
      + by eapply Hinv.
    - destruct (consume _ _ _ _ _ _ _ _) as [l0|] eqn:Ec; simplify_eq; [|done].
      apply consume_Ok in Ec as (g & uses & Hl & _ & _ & _ & _ & _ & _ & _ & ->).
      intros id g' u [[_ [= <- _]]|[_ H]]%lookup_insert_Some; by eapply Hinv.
    - simplify_eq. intros id g u [H _]%map_lookup_filter_Some. by eapply Hinv. }
  assert (OpConsume i e f p o d ∉ succeeded l' calls) as Hrest.
  { apply IH; [|done]. intros n g Hg. eapply Hno. by right. }
  destruct ok; [|done]. cbn [snd]. apply not_elem_of_cons. split; [|done]. intros <-.
  unfold grant_call in E. cbn [fst snd] in E.
  destruct (consume _ _ _ _ _ _ _ _) as [l0|] eqn:Ec; simplify_eq.
  apply consume_Ok in Ec as (g & uses & Hl & He & _). by apply Hinv in Hl.
Qed.

(** ** Destinations *)

(** What the policy promises of a destination it hands out. *)
Definition permitted (p : DestinationPolicy) (d : AuthorizedDestination) : Prop :=
  ad_scheme d ∈ ["https"; "http"] ∧ ad_addresses d ≠ ∅ ∧
  (dp_allow_private_addresses p = false → ∀ a, a ∈ ad_addresses d → is_non_public a = false) ∧
  ∃ rule, rule ∈ dp_rules p ∧ to_ascii_lowercase (dr_scheme rule) = ad_scheme d ∧
    to_ascii_lowercase (trim_end_byte "." (dr_host rule)) = ad_host d ∧ ad_port d ∈ dr_ports rule ∧
    (dr_allowed_addresses rule = ∅ ∨ ad_addresses d ⊆ dr_allowed_addresses rule).
Definition same_origin (a b : AuthorizedDestination) : Prop :=
  ad_scheme a = ad_scheme b ∧ ad_host a = ad_host b ∧ ad_port a = ad_port b.

Section destination_facts.
Context {UP : UrlParser}.

Lemma rule_matches_spec s h port rule :
  rule_matches (to_ascii_lowercase s) (to_ascii_lowercase h) port rule = true →
  to_ascii_lowercase (dr_scheme rule) = to_ascii_lowercase s ∧
  to_ascii_lowercase (trim_end_byte "." (dr_host rule)) = to_ascii_lowercase h ∧
  port ∈ dr_ports rule.
Proof.
  unfold rule_matches, eq_ignore_ascii_case. rewrite !to_ascii_lowercase_idem, !andb_true_iff,
    !bool_decide_eq_true. tauto.
Qed.

Lemma authorize_permitted p raw resolved d :
  authorize p raw resolved = Ok d → permitted p d ∧ ad_addresses d = resolved.
Proof.
  unfold authorize. intros (url & _ & H)%bind_Ok. case_match; [done|]. cbv zeta in H.
  case_bool_decide as Hs; [|done]. cbn [negb] in H.
  apply bind_Ok in H as (host & _ & H). cbv zeta in H. apply bind_Ok in H as (port & _ & H).
  destruct (bool_decide (resolved = ∅) || _) eqn:Er; [done|]. apply orb_false_iff in Er as [Ee Ep].
  apply bind_Ok in H as (rule & [Hin Hm]%ok_or_Ok%List.find_some & H).
  destruct (negb _ && _) eqn:Ea in H; [done|]. injection H as <-.
  apply rule_matches_spec in Hm as (H1 & H2 & H3). unfold permitted. cbn. split; [|done].
  split_and!; [done|by apply bool_decide_eq_false in Ee| |].
  - intros Hpriv a Ha. rewrite Hpriv in Ep. cbn in Ep.
    apply not_true_iff_false. intros Hn. apply not_true_iff_false in Ep. apply Ep, existsb_exists.
    exists a. split; [|done]. by apply list_elem_of_In, elem_of_elements.
  - exists rule. apply list_elem_of_In in Hin. split_and!; [done..|].
    do 2 case_bool_decide; cbn in Ea; (by left) || (by right) || done.
Qed.

Lemma authorize_redirect_permitted p previous raw resolved d :
  authorize_redirect p previous raw resolved = Ok d →
  permitted p d ∧ same_origin d previous ∧ ad_addresses d = resolved.
Proof.
  unfold authorize_redirect, same_origin. intros (n & [Hn Hr]%authorize_permitted & H)%bind_Ok.
  do 3 (case_bool_decide; [|done]). cbn in H. by injection H as <-.
Qed.

(** A destination is authorized only over HTTP(S), by a rule naming its scheme, host
    and port, for a non-empty set of addresses the rule admits and, unless the policy
    says otherwise, none of them private; and however many redirects are followed and
    wherever their names resolve, every destination on the way stays on the scheme, host
    and port first authorized and satisfies the same conditions. *)
Theorem redirects_stay_authorized p raw resolved d d' :
  authorize p raw resolved = Ok d →
  rtc (λ a b, ∃ next addresses, authorize_redirect p a next addresses = Ok b) d d' →
  permitted p d ∧ permitted p d' ∧ same_origin d' d.
Proof.
  intros [Hd _]%authorize_permitted Hstar. split; [done|].
  eapply (rtc_invariant _ (λ x, permitted p x ∧ same_origin x d)) in Hstar; [done| |by split].
  intros a b [_ (? & ? & ?)] (next & addrs & (Hp & (? & ? & ?) & _)%authorize_redirect_permitted).
  split; [done|]. split_and!; congruence.
Qed.
End destination_facts.

(** The private test looks at the form of an address: an IPv4 address written as an
    IPv4-mapped IPv6 address passes it, whatever the IPv4 address is. *)
Lemma mapped_addresses_pass ab cd : is_non_public (V6 [0; 0; 0; 0; 0; 65535; ab; cd]%N) = false.
Proof.
  unfold is_non_public, is_loopback, is_unspecified, is_multicast, is_unique_local,
    is_unicast_link_local. rewrite bool_decide_false by done. done.
Qed.

(** ** Runner tools *)

(** Every party agrees on the tool. *)
Definition agreed (profile lease manifest live : gset Uuid) (t : RuntimeToolBinding) : Prop :=
  rt_placement t = "runner" ∧ rt_stable_ref t ∈ profile ∩ lease ∩ manifest ∩ live.
#[local] Instance agreed_dec profile lease manifest live t :
  Decision (agreed profile lease manifest live t).
Proof. unfold agreed. apply _. Defined.

Lemma intersect_tool_eq profile lease manifest live s t :
  intersect_tool profile lease manifest live s t =
    if decide (agreed profile lease manifest live t) then
      if decide (is_Some (s.1 !! rt_alias t)) then Err Alias
      else Ok (<[rt_alias t := rt_stable_ref t]> s.1, s.2 ++ [t])
    else Ok s.
Proof.
  unfold intersect_tool. destruct (String.eqb_spec (rt_placement t) "runner") as [E|E]; cbn [negb orb].
  2:{ rewrite decide_False; [done|]. by intros []. }
  repeat (case_bool_decide; cbn [negb orb];
          [|rewrite (decide_False (P:=agreed profile lease manifest live t)) by (intros []; set_solver); done]).
  rewrite (decide_True (P:=agreed profile lease manifest live t)) by (split; [done|set_solver]).
  by rewrite decide_bool_decide || (case_decide; case_bool_decide; done).
Qed.

Lemma intersect_loop profile lease manifest live l m acc :
  dom m = list_to_set (rt_alias <$> acc) →
  for_each (intersect_tool profile lease manifest live) (m, acc) l =
    let kept := filter (agreed profile lease manifest live) l in
    if decide (NoDup (rt_alias <$> kept) ∧ Forall (λ a, a ∉ rt_alias <$> acc) (rt_alias <$> kept))
    then Ok (foldl (λ m t, <[rt_alias t := rt_stable_ref t]> m) m kept, acc ++ kept)
    else Err Alias.
Proof.
  revert m acc. induction l as [|t l IH]; intros m acc Hdom; cbn [for_each].
  { rewrite filter_nil. cbn. rewrite decide_True by (split; constructor). by rewrite app_nil_r. }
  rewrite intersect_tool_eq, filter_cons. cbn [fst snd].
  case_decide as Ha; [|cbn; by apply IH].
  assert (is_Some (m !! rt_alias t) ↔ rt_alias t ∈ rt_alias <$> acc) as Hmem.
  { rewrite <- elem_of_dom, Hdom. by rewrite elem_of_list_to_set. }
  case_decide as Hal; cbn [mbind result_bind fmap list_fmap].
  - rewrite decide_False; [done|]. intros [_ Hf]. apply Forall_cons in Hf as [Hf _].
    by apply Hf, Hmem.
  - rewrite IH by (rewrite dom_insert_L, fmap_app, list_to_set_app_L, Hdom; cbn; set_solver).
    cbv zeta. rewrite fmap_app. cbn [fmap list_fmap].
    set (kept := filter _ l).
    assert ((NoDup (rt_alias <$> kept) ∧
             Forall (λ a, a ∉ (rt_alias <$> acc) ++ [rt_alias t]) (rt_alias <$> kept)) ↔
            (NoDup (rt_alias t :: (rt_alias <$> kept)) ∧
             Forall (λ a, a ∉ rt_alias <$> acc) (rt_alias t :: (rt_alias <$> kept)))) as Hiff.
    { rewrite NoDup_cons, Forall_cons, !Forall_forall. setoid_rewrite elem_of_app.
      setoid_rewrite list_elem_of_singleton. set_solver. }
    case_decide as H1; case_decide as H2; [by rewrite <- app_assoc|tauto..|done].
Qed.

(** The runner is given exactly the catalog entries that are placed on a runner and
    named by the profile, the lease, the manifest and the live set, in catalog order and
    with distinct aliases; if two of them share an alias nothing is given. *)
Theorem runner_tools_exact catalog profile lease manifest live :
  intersect_runner_tools catalog profile lease manifest live =
    let kept := filter (agreed profile lease manifest live) catalog in
    if decide (NoDup (rt_alias <$> kept)) then Ok kept else Err Alias.
Proof.
  unfold intersect_runner_tools. rewrite intersect_loop by done. cbv zeta.
  destruct (decide (NoDup (rt_alias <$> filter (agreed profile lease manifest live) catalog))).
  - rewrite decide_True; [done|]. split; [done|]. apply Forall_forall. intros a _. apply not_elem_of_nil.
  - rewrite decide_False; [done|]. by intros [].
Qed.

(** ** Instances *)

Module SecurityInstance.

(** A parser of the absolute form without credentials, port or fragment. *)
#[local] Instance parser : UrlParser := λ raw,
  rest ← strip_prefix "https://" raw;
  Some {| username := ""; password := None; fragment := None; scheme := "https";
          host_str := head (split "/" rest); port_or_known_default := Some 443%N |}.

Definition policy : DestinationPolicy :=
  {| dp_rules := [{| dr_scheme := "HTTPS"; dr_host := "Api.Example.Test."; dr_ports := {[443%N]};
                     dr_allowed_addresses := ∅ |}];
     dp_allow_private_addresses := false |}.
Definition first_address : gset IpAddr := {[V4 (Ipv4 203 0 113 7)]}.
Definition second_address : gset IpAddr := {[V4 (Ipv4 203 0 113 8)]}.
Definition reached (a : gset IpAddr) : AuthorizedDestination :=
  {| ad_scheme := "https"; ad_host := "api.example.test"; ad_port := 443; ad_addresses := a |}.

Lemma redirects_stay_authorized_witness :
  permitted policy (reached first_address) ∧ permitted policy (reached second_address) ∧
  same_origin (reached second_address) (reached first_address).
Proof.
  apply (redirects_stay_authorized policy "https://API.example.test/v1" first_address).
  - by vm_compute.
  - apply rtc_once. exists "https://api.example.test./v2", second_address. by vm_compute.
Defined.

Definition a_grant : AttemptGrant :=
  {| ag_grant_id := 7; ag_execution_id := 3; ag_fencing_token := 1; ag_policy_digest := "p";
     ag_operation := "push"; ag_destination := "origin"; ag_maximum_uses := 2; ag_expires_at := 100 |}.
Definition a_use : GrantOp := OpConsume 7 3 1 "p" "push" "origin".
Definition calls : list (DateTime * GrantOp) :=
  [(10%Z, OpIssue a_grant); (11%Z, a_use); (12%Z, OpConsume 7 3 2 "p" "push" "origin"); (13%Z, a_use);
   (14%Z, a_use); (15%Z, OpRevoke 3); (16%Z, a_use)].

Lemma grant_uses_bounded_witness :
  succeeded GrantLedger_new calls = [OpIssue a_grant; a_use; a_use; OpRevoke 3] ∧
  (Prelude.total (used 7) (succeeded GrantLedger_new calls) <=
     Prelude.total (issued 7) (succeeded GrantLedger_new calls))%N.
Proof.
  split; [by vm_compute|]. apply (grant_uses_bounded 7 calls).
  repeat (constructor; [by vm_compute|]). constructor.
Defined.

(** The built-in policy keeps a workflow definition from being edited and lets an
    ordinary source file change. *)
Example default_deny_examples :
  match default_deny with
  | Some p => validate_changes p ["src/main.rs"; "docs//./policy.md"] = Ok () ∧
              validate_changes p ["src/main.rs"; ".GitHub/./workflows/ci.yml"] =
                Err (Protected ".GitHub/workflows/ci.yml") ∧
              validate_changes p [".github"] = Err (Protected ".github") ∧
              validate_changes p ["src/../.git/config"] = Err Path
  | None => False
  end.
Proof. by vm_compute. Qed.
End SecurityInstance.
