(* ===== verification/AgentDelegation.v ===== *)
(** * Agent delegation tokens and session reuse

    Model of [crates/agent-delegation/src/lib.rs] and
    [crates/agent-session-policy/src/lib.rs].  HMAC, base64 and the JSON form of the
    claims are classes; each reading of the clock is an argument. *)

From S2P Require Import Prelude RustStr JsonTree.
From Stdlib Require Import Ascii.

(** ** Claims *)

Definition TOKEN_PREFIX : string := "lad1".
Definition MIN_SECRET_BYTES : N := 32.

Inductive DelegationKind := ToolsList | ToolCall | KnowledgeRetrieve | KnowledgeUpload.
#[global] Instance DelegationKind_eq_dec : EqDecision DelegationKind.
Proof. solve_decision. Defined.

Inductive DelegationError :=
| WeakSecret | Malformed | Signature | Issuer | Audience | Kind | Expired | Binding
| JsonError (message : string).

Record DelegationClaims := {
  token_id : Uuid;
  kind : DelegationKind;
  issuer : string;
  audience : string;
  caller_subject : string;
  caller_claims : Json;
  subject_id : string;
  subject_type : string;
  groups : option (list string);
  organizations : option (list string);
  agent_actor : string;
  agent_def_id : option Uuid;
  agent_policy_version : Z;
  host_id : Uuid;
  environment : option string;
  session_id : Uuid;
  turn_id : Uuid;
  action_attempt_id : option Uuid;
  tool_ref : option Uuid;
  tool_alias : option string;
  destination : option string;
  workflow_invocation_id : option Uuid;
  workflow_permit_depth : option N;
  workflow_execution_class : option string;
  workflow_budget_ledger_id : option Uuid;
  workflow_budget_generation : option N;
  data_boundary_digest : string;
  policy_digest : string;
  replay_id : Uuid;
  issued_at : Z;
  expires_at : Z;
}.

(** Subtraction of [i64] as optimized builds perform it. *)
Definition i64_wrap (z : Z) : Z := ((z + 2 ^ 63) mod 2 ^ 64 - 2 ^ 63)%Z.
Definition i64_sub (a b : Z) : Z := i64_wrap (a - b).

(** The validity window, with the readings of the clock of its two comparisons. *)
Definition outside_window (c : DelegationClaims) (now1 now2 : Z) : bool :=
  bool_decide (now1 + 30 < issued_at c)%Z || bool_decide (expires_at c <= now2)%Z
  || bool_decide (300 < i64_sub (expires_at c) (issued_at c))%Z.

Definition validate_binding (c : DelegationClaims) (expected_audience : string)
    (k : DelegationKind) (alias : option string) (now : Z) : result DelegationError unit :=
  if negb (bool_decide (audience c = expected_audience)) then Err Audience else
  if negb (bool_decide (kind c = k)) then Err Kind else
  if outside_window c now now then Err Expired else
  let some {A} (o : option A) := bool_decide (is_Some o) in
  if match k with
     | ToolsList => some (action_attempt_id c) || some (tool_alias c)
     | ToolCall => negb (some (action_attempt_id c)) || negb (some (tool_ref c))
                   || negb (bool_decide (tool_alias c = alias))
     | KnowledgeRetrieve | KnowledgeUpload =>
         some (action_attempt_id c) || some (tool_ref c) || some (tool_alias c)
         || negb (bool_decide (destination c = Some "knowledge"))
         || match environment c with Some e => is_empty e | None => true end
     end then Err Binding else
  if is_empty (policy_digest c) || is_empty (data_boundary_digest c) then Err Binding else
  if bool_decide (k ∈ [KnowledgeRetrieve; KnowledgeUpload])
     && (is_empty (subject_id c) || is_empty (subject_type c) || negb (some (groups c))
         || negb (some (organizations c)) || bool_decide (agent_policy_version c <= 0)%Z)
  then Err Binding else Ok ().

(** ** Signing and verification *)

(** [URL_SAFE_NO_PAD], [Hmac<Sha256>] ([None] where the key is refused) and
    [serde_json] on the claims. *)
Class TokenCrypto := {
  b64_encode : list ascii → string;
  b64_decode : string → option (list ascii);
  hmac_tag : list ascii → list ascii → option (list ascii);
  hmac_verify : list ascii → list ascii → list ascii → option bool;
  claims_to_vec : DelegationClaims → result string (list ascii);
  claims_from_slice : list ascii → result string DelegationClaims;
}.
(** The values of an [i64], and the seconds a [DateTime<Utc>] can have, whose years have at
    most six digits. *)
Definition is_i64 (z : Z) : Prop := (-(2 ^ 63) <= z < 2 ^ 63)%Z.
Definition is_timestamp (z : Z) : Prop := (-(2 ^ 43) <= z < 2 ^ 43)%Z.
(** What their documentation states: the alphabet of the encoding and its inverse,
    that verification compares with the tag, and that a parsed [i64] is one. *)
Class TokenLaws `{!TokenCrypto} := {
  b64_no_dot b : contains_byte (b64_encode b) "." = false;
  b64_inverse b : b64_decode (b64_encode b) = Some b;
  hmac_verify_tag key msg sig :
    hmac_verify key msg sig = (λ tag, bool_decide (tag = sig)) <$> hmac_tag key msg;
  claims_typed json c : claims_from_slice json = Ok c → is_i64 (issued_at c) ∧ is_i64 (expires_at c);
}.

Record DelegationSigner := { ds_secret : list ascii; ds_issuer : string }.
Record DelegationVerifier := {
  dv_secret : list ascii; dv_issuer : string; dv_audience : string }.

Definition DelegationSigner_new (secret : list ascii) (iss : string) :
    result DelegationError DelegationSigner :=
  if (N.of_nat (length secret) <? MIN_SECRET_BYTES)%N then Err WeakSecret
  else Ok {| ds_secret := secret; ds_issuer := iss |}.

Definition DelegationVerifier_new (secret : list ascii) (iss aud : string) :
    result DelegationError DelegationVerifier :=
  if (N.of_nat (length secret) <? MIN_SECRET_BYTES)%N then Err WeakSecret
  else Ok {| dv_secret := secret; dv_issuer := iss; dv_audience := aud |}.

(** [claims.issuer = self.issuer.clone()]. *)
Definition with_issuer (iss : string) (c : DelegationClaims) : DelegationClaims :=
  {| token_id := token_id c; kind := kind c; issuer := iss; audience := audience c;
     caller_subject := caller_subject c; caller_claims := caller_claims c;
     subject_id := subject_id c; subject_type := subject_type c; groups := groups c;
     organizations := organizations c; agent_actor := agent_actor c;
     agent_def_id := agent_def_id c; agent_policy_version := agent_policy_version c;
     host_id := host_id c; environment := environment c; session_id := session_id c;
     turn_id := turn_id c; action_attempt_id := action_attempt_id c; tool_ref := tool_ref c;
     tool_alias := tool_alias c; destination := destination c;
     workflow_invocation_id := workflow_invocation_id c;
     workflow_permit_depth := workflow_permit_depth c;
     workflow_execution_class := workflow_execution_class c;
     workflow_budget_ledger_id := workflow_budget_ledger_id c;
     workflow_budget_generation := workflow_budget_generation c;
     data_boundary_digest := data_boundary_digest c; policy_digest := policy_digest c;
     replay_id := replay_id c; issued_at := issued_at c; expires_at := expires_at c |}.

Section tokens.
Context {TC : TokenCrypto}.

Definition signing_input (payload : string) : string := TOKEN_PREFIX +:+ String "." payload.

Definition mint (s : DelegationSigner) (c : DelegationClaims) : result DelegationError string :=
  let c := with_issuer (ds_issuer s) c in
  json ← map_err JsonError (claims_to_vec c);
  let input := signing_input (b64_encode json) in
  tag ← ok_or WeakSecret (hmac_tag (ds_secret s) (bytes input));
  Ok (input +:+ String "." (b64_encode tag)).

(** The two readings of the clock are [now1] and [now2]. *)
Definition verify_token (v : DelegationVerifier) (now1 now2 : Z) (token : string) :
    result DelegationError DelegationClaims :=
  match split "." token with
  | prefix :: payload :: signature :: rest =>
      if negb (bool_decide (prefix = TOKEN_PREFIX)) || bool_decide (rest ≠ []) then Err Malformed else
      let input := prefix +:+ String "." payload in
      signature ← ok_or Malformed (b64_decode signature);
      valid ← ok_or WeakSecret (hmac_verify (dv_secret v) (bytes input) signature);
      if negb valid then Err Signature else
      json ← ok_or Malformed (b64_decode payload);
      c ← map_err JsonError (claims_from_slice json);
      if negb (bool_decide (issuer c = dv_issuer v)) then Err Issuer else
      if negb (bool_decide (audience c = dv_audience v)) then Err Audience else
      if outside_window c now1 now2 then Err Expired else Ok c
  | _ => Err Malformed
  end.

Definition verify (v : DelegationVerifier) (now1 now2 now3 : Z) (token : string)
    (k : DelegationKind) (alias : option string) : result DelegationError DelegationClaims :=
  c ← verify_token v now1 now2 token;
  _ ← validate_binding c (dv_audience v) k alias now3;
  Ok c.
End tokens.

(** ** Session reuse *)

Module Session.
Record SessionCompatibility := {
  sc_host_id : Uuid;
  sc_principal_id : string;
  sc_agent_def_id : Uuid;
  sc_base_revision : string;
  sc_adapter_id : string;
  sc_adapter_version : string;
  sc_backend_id : string;
  sc_compatibility_digest : string;
  sc_policy_digest : string;
  sc_credential_scope_digest : string;
}.
#[global] Instance SessionCompatibility_eq_dec : EqDecision SessionCompatibility.
Proof. solve_decision. Defined.

Record SessionExpiry := {
  agent_idle : DateTime;
  agent_maximum : DateTime;
  execution_policy : DateTime;
  backend_native : DateTime;
  broker_or_credential : DateTime;
}.
Inductive SessionError := Unavailable | Mismatch.

(** [[..].into_iter().min().unwrap()] of the five limits. *)
Definition limits (e : SessionExpiry) : list DateTime :=
  [agent_idle e; agent_maximum e; execution_policy e; backend_native e; broker_or_credential e].
Definition effective (e : SessionExpiry) : DateTime :=
  foldl Z.min (agent_idle e) (tail (limits e)).

Definition authorize_reuse (expected actual : SessionCompatibility) (expiry : SessionExpiry)
    (cleanup_pending : bool) (now : DateTime) : result SessionError unit :=
  if cleanup_pending || bool_decide (effective expiry <= now)%Z then Err Unavailable else
  if negb (bool_decide (expected = actual)) then Err Mismatch else Ok ().

Definition approval_hold_until (requested : DateTime) (expiry : SessionExpiry) (now : DateTime) :
    result SessionError DateTime :=
  let value := Z.min requested (effective expiry) in
  if bool_decide (value <= now)%Z then Err Unavailable else Ok value.

Lemma effective_lt now e : (now < effective e)%Z ↔ Forall (λ t, now < t)%Z (limits e).
Proof.
  unfold effective, limits. cbn [tail foldl]. rewrite !Forall_cons. split.
  - intros H. split_and!; [lia..|constructor].
  - intros (? & ? & ? & ? & ? & _). lia.
Qed.

(** A session is reused exactly for an identical binding, before the earliest of its five
    limits and with no cleanup pending, and an approval is held up to one of them at most. *)
Theorem session_reuse_fenced expected actual expiry cleanup_pending requested until now :
  (authorize_reuse expected actual expiry cleanup_pending now = Ok () ↔
     cleanup_pending = false ∧ Forall (λ t, now < t)%Z (limits expiry) ∧ expected = actual) ∧
  (approval_hold_until requested expiry now = Ok until ↔
     (now < until)%Z ∧ (until = requested ∧ Forall (λ t, requested <= t)%Z (limits expiry) ∨
                        until = effective expiry ∧ (effective expiry < requested)%Z)).
Proof.
  split.
  - rewrite <- effective_lt. unfold authorize_reuse. destruct cleanup_pending; cbn [orb]; [naive_solver|].
    case_bool_decide; [split; [done|]; intros (_ & ? & _); lia|].
    case_bool_decide; cbn [negb]; split; [intros _; split_and!; [done|lia|done]|done|done|by intros (_ & _ & ?)].
  - assert (Forall (λ t, requested <= t)%Z (limits expiry) ↔ (requested <= effective expiry)%Z) as ->.
    { unfold effective, limits. cbn [tail foldl]. rewrite !Forall_cons. split.
      - intros (? & ? & ? & ? & ? & _). lia.
      - intros H. split_and!; [lia..|constructor]. }
    unfold approval_hold_until. cbv zeta. case_bool_decide as H; [split; [done|lia]|].
    split; [intros [= <-]|intros [? [[-> ?]|[-> ?]]]; f_equal]; lia.
Qed.
End Session.

(** ** Theorems on tokens *)

Lemma i64_sub_exact a b : (-(2 ^ 63) <= a - b < 2 ^ 63)%Z → i64_sub a b = (a - b)%Z.
Proof.
  intros H. unfold i64_sub, i64_wrap. rewrite Z.mod_small by (cbn in *; lia). lia.
Qed.

(** Where the difference of two [i64] is not below their range, the wrapped difference is at
    most a small limit exactly when the difference is, or when it is too large for the type. *)
Lemma i64_sub_le a b limit :
  is_i64 a → is_i64 b → (-(2 ^ 63) <= a - b)%Z → (0 <= limit < 2 ^ 63)%Z →
  (i64_sub a b <= limit ↔ a - b <= limit ∨ 2 ^ 63 <= a - b)%Z.
Proof.
  unfold is_i64. intros Ha Hb Hd Hl. destruct (decide (a - b < 2 ^ 63)%Z) as [H|H].
  - rewrite i64_sub_exact by lia. lia.
  - assert (i64_sub a b = a - b - 2 ^ 64)%Z as ->; [|lia]. unfold i64_sub, i64_wrap.
    rewrite <- (Z.mod_unique (a - b + 2 ^ 63) (2 ^ 64) 1 (a - b - 2 ^ 63)); lia.
Qed.

(** The window in whole seconds: leeway for clocks that are behind, the expiry, and the
    lifetime, which the subtraction bounds except where it wraps. *)
Lemma window_exact c now1 now2 :
  is_i64 (issued_at c) → is_i64 (expires_at c) → is_timestamp now1 → is_timestamp now2 →
  outside_window c now1 now2 = false ↔
  (issued_at c <= now1 + 30 ∧ now2 < expires_at c ∧
   (expires_at c - issued_at c <= 300 ∨ 2 ^ 63 <= expires_at c - issued_at c))%Z.
Proof.
  unfold is_timestamp. intros Hi He H1 H2. unfold outside_window.
  rewrite !orb_false_iff, !bool_decide_eq_false, !Z.nlt_ge, Z.nle_gt. split.
  - intros [[Ha Hb] Hc]. split_and!; [done..|]. rewrite i64_sub_le in Hc by (done || lia). done.
  - intros (Ha & Hb & Hc). split_and!; [done..|]. rewrite i64_sub_le by (done || lia). done.
Qed.

Section token_facts.
Context {TC : TokenCrypto} {TL : TokenLaws}.

(** A token as text: prefix, payload and signature without further dots. *)
Definition token_text (payload signature : string) : string :=
  signing_input payload +:+ String "." signature.

Lemma split_token payload signature :
  contains_byte payload "." = false → contains_byte signature "." = false →
  split "." (token_text payload signature) = [TOKEN_PREFIX; payload; signature].
Proof.
  intros Hp Hs. unfold token_text, signing_input. rewrite !split_app_sep.
  by rewrite (split_single "." payload), (split_single "." signature).
Qed.

(** C39 A token is accepted exactly when it consists of the prefix, a payload and a
    signature that decodes to the HMAC of prefix and payload under the verifier's secret,
    and the payload decodes to claims of the verifier's issuer and audience that were issued
    at most 30 seconds after the present, expire after it, and live for at most 300 seconds,
    or for 2^63 seconds and more, where the difference of the two times wraps around. *)
Theorem verify_token_authentic v now1 now2 token c :
  is_timestamp now1 → is_timestamp now2 →
  verify_token v now1 now2 token = Ok c ↔
  ∃ payload signature tag json,
    token = token_text payload signature ∧
    contains_byte payload "." = false ∧ contains_byte signature "." = false ∧
    b64_decode signature = Some tag ∧
    hmac_tag (dv_secret v) (bytes (signing_input payload)) = Some tag ∧
    b64_decode payload = Some json ∧ claims_from_slice json = Ok c ∧
    issuer c = dv_issuer v ∧ audience c = dv_audience v ∧
    (issued_at c <= now1 + 30)%Z ∧ (now2 < expires_at c)%Z ∧
    (expires_at c - issued_at c <= 300 ∨ 2 ^ 63 <= expires_at c - issued_at c)%Z.
Proof.
  intros Hn1 Hn2. unfold verify_token. split.
  - pose proof (concat_split "." token) as Hjoin. pose proof (split_pieces "." token) as Hdots.
    destruct (split "." token) as [|prefix [|payload [|signature rest]]]; try done.
    case_bool_decide as Hp; [|done]. case_bool_decide as Hr; [done|]. cbn [negb orb]. intros H.
    assert (rest = []) as -> by (destruct rest; [done|by destruct Hr]). subst prefix. cbv zeta in H.
    apply bind_Ok in H as (tag & Htag%ok_or_Ok & H). apply bind_Ok in H as (valid & Hv%ok_or_Ok & H).
    destruct valid; [|done]. cbn [negb] in H.
    apply bind_Ok in H as (json & Hj%ok_or_Ok & H). apply bind_Ok in H as (c' & Hc%map_err_Ok & H).
    case_bool_decide as Hi; [|done]. case_bool_decide as Ha; [|done]. cbn [negb] in H.
    destruct (outside_window c' now1 now2) eqn:Hw; [done|]. injection H as ->.
    rewrite hmac_verify_tag in Hv. apply fmap_Some in Hv as (t & Ht & Hb).
    symmetry in Hb. apply bool_decide_eq_true in Hb as ->.
    exists payload, signature, tag, json. split; [by rewrite <- Hjoin|].
    destruct (claims_typed _ _ Hc) as [Ti Te]. apply window_exact in Hw; [|done..].
    split_and!; [apply Hdots; set_solver| apply Hdots; set_solver|done|done|done|done|done|done|apply Hw..].
  - intros (payload & signature & tag & json & -> & Hp & Hs & Ht & Hh & Hj & Hc & Hi & Ha & Hw).
    destruct (claims_typed _ _ Hc) as [Ti Te]. apply window_exact in Hw; [|done..].
    rewrite split_token by done. rewrite bool_decide_true by done.
    rewrite bool_decide_false by auto. cbn [negb orb]. rewrite Ht. cbn [ok_or mbind result_bind].
    change (TOKEN_PREFIX +:+ String "." payload) with (signing_input payload).
    rewrite hmac_verify_tag, Hh. cbn. rewrite bool_decide_true by done. cbn. rewrite Hj. cbn.
    rewrite Hc. cbn. rewrite !bool_decide_true by done. cbn. by rewrite Hw.
Qed.

(** What a signer mints, a verifier with the same secret and issuer and the audience
    of the claims accepts inside the validity window, and reads back the same claims under
    the signer's issuer. *)
Theorem mint_verify_roundtrip secret iss s v c token json now1 now2 :
  DelegationSigner_new secret iss = Ok s →
  DelegationVerifier_new secret iss (audience c) = Ok v →
  mint s c = Ok token →
  claims_to_vec (with_issuer iss c) = Ok json →
  claims_from_slice json = Ok (with_issuer iss c) →
  verify_token v now1 now2 token =
    if outside_window c now1 now2 then Err Expired else Ok (with_issuer iss c).
Proof.
  unfold DelegationSigner_new, DelegationVerifier_new.
  destruct (_ <? _)%N; [done|]. intros [= <-] [= <-] Hm Hto Hfrom. unfold mint in Hm. cbn [ds_issuer] in Hm.
  rewrite Hto in Hm. cbn [map_err mbind result_bind] in Hm.
  apply bind_Ok in Hm as (tag & Htag%ok_or_Ok & Ht). cbn [ds_secret] in Htag.
  apply (inj Ok) in Ht as <-. unfold verify_token.
  change (signing_input (b64_encode json) +:+ String "." (b64_encode tag))
    with (token_text (b64_encode json) (b64_encode tag)).
  rewrite split_token by apply b64_no_dot. rewrite bool_decide_true by done.
  rewrite bool_decide_false by auto. cbn [negb orb]. rewrite !b64_inverse. cbn [ok_or mbind result_bind dv_secret].
  change (TOKEN_PREFIX +:+ String "." (b64_encode json)) with (signing_input (b64_encode json)).
  rewrite hmac_verify_tag, Htag. cbn [fmap option_fmap option_map ok_or mbind result_bind].
  rewrite bool_decide_true by done. cbn [negb]. rewrite Hfrom. cbn [map_err mbind result_bind].
  rewrite !bool_decide_true by done. done.
Qed.
End token_facts.

(** What the claims must bind for each kind of request. *)
Definition bound_to (c : DelegationClaims) (k : DelegationKind) (alias : option string) : Prop :=
  match k with
  | ToolsList => action_attempt_id c = None ∧ tool_alias c = None
  | ToolCall => is_Some (action_attempt_id c) ∧ is_Some (tool_ref c) ∧ tool_alias c = alias
  | KnowledgeRetrieve | KnowledgeUpload =>
      action_attempt_id c = None ∧ tool_ref c = None ∧ tool_alias c = None ∧
      destination c = Some "knowledge" ∧ (∃ e, environment c = Some e ∧ e ≠ "") ∧
      subject_id c ≠ "" ∧ subject_type c ≠ "" ∧ is_Some (groups c) ∧ is_Some (organizations c) ∧
      (0 < agent_policy_version c)%Z
  end.

Lemma some_false {A} (o : option A) : bool_decide (is_Some o) = false ↔ o = None.
Proof. by rewrite bool_decide_eq_false, eq_None_not_Some. Qed.

Lemma env_present (o : option string) :
  match o with Some e => is_empty e | None => true end = false ↔ ∃ e, o = Some e ∧ e ≠ "".
Proof. destruct o as [e|]; [rewrite is_empty_false; naive_solver|naive_solver]. Qed.

Lemma validate_binding_Ok c aud k alias now :
  validate_binding c aud k alias now = Ok () ↔
  audience c = aud ∧ kind c = k ∧ outside_window c now now = false ∧ bound_to c k alias ∧
  policy_digest c ≠ "" ∧ data_boundary_digest c ≠ "".
Proof.
  unfold validate_binding. case_bool_decide; [|naive_solver]. cbn [negb].
  case_bool_decide; [|naive_solver]. cbn [negb].
  destruct (outside_window c now now); [naive_solver|]. cbv zeta.
  assert (∀ (b1 b2 b3 : bool), (if b1 then Err Binding else if b2 then Err Binding else
    if b3 then Err Binding else Ok ()) = Ok () ↔ b1 = false ∧ b2 = false ∧ b3 = false) as ->
    by (intros [] [] []; naive_solver).
  rewrite (orb_false_iff (is_empty (policy_digest c))), !is_empty_false.
  destruct k; cbn [bound_to];
    [rewrite (bool_decide_false (ToolsList ∈ _)) by set_solver
    |rewrite (bool_decide_false (ToolCall ∈ _)) by set_solver
    |rewrite (bool_decide_true (KnowledgeRetrieve ∈ _)) by set_solver
    |rewrite (bool_decide_true (KnowledgeUpload ∈ _)) by set_solver]; cbn [andb];
    rewrite ?orb_false_iff, ?negb_false_iff, ?some_false, ?env_present, ?is_empty_false,
      ?bool_decide_eq_true, ?bool_decide_eq_false, ?Z.nle_gt; tauto.
Qed.

Section scope.
Context {TC : TokenCrypto}.

Lemma verify_token_issuer v now1 now2 token c :
  verify_token v now1 now2 token = Ok c → issuer c = dv_issuer v.
Proof.
  unfold verify_token. destruct (split "." token) as [|prefix [|payload [|signature rest]]]; try done.
  case_match; [done|]. cbv zeta. intros Hok. inv_ok. case_match; [done|]. inv_ok.
  case_bool_decide as Hi; [|done]. cbn [negb] in *. repeat case_match; by simplify_eq.
Qed.

(** A verified delegation is bound to the verifier's issuer and audience and to the
    requested kind and tool, carries the digests and, for knowledge requests, the subject
    the kind needs, and, when it was issued after the epoch, expires in the future and at
    most 330 seconds after the verification. *)
Theorem delegation_scope v now1 now2 now3 token k alias c :
  verify v now1 now2 now3 token k alias = Ok c →
  (0 <= issued_at c)%Z → (-1 <= expires_at c <= i64_max)%Z →
  kind c = k ∧ issuer c = dv_issuer v ∧ audience c = dv_audience v ∧ bound_to c k alias ∧
  policy_digest c ≠ "" ∧ data_boundary_digest c ≠ "" ∧
  (now3 < expires_at c <= now3 + 330)%Z.
Proof.
  unfold verify. intros (c' & Hv & H)%bind_Ok Hiss Hexp.
  apply check_Ok in H as [(Ha & Hk & Hw & Hb & Hp & Hd)%validate_binding_Ok [= ->]].
  apply verify_token_issuer in Hv.
  apply orb_false_iff in Hw as [[H1%bool_decide_eq_false H2%bool_decide_eq_false]%orb_false_iff
    H3%bool_decide_eq_false].
  rewrite i64_sub_exact in H3 by (unfold i64_max in Hexp; cbn; lia).
  split_and!; (done || lia).
Qed.
End scope.

(** The subtraction of the lifetime test wraps: claims issued before the epoch can pass
    it whatever their expiry. *)
Lemma lifetime_test_wraps c :
  issued_at c = (-(2 ^ 63))%Z → expires_at c = i64_max →
  ∀ now, (0 <= now < i64_max)%Z → outside_window c now now = false.
Proof.
  intros Hi He now Hnow. unfold outside_window. rewrite Hi, He.
  rewrite !bool_decide_false; [done|..].
  - unfold i64_sub, i64_wrap, i64_max. vm_compute. done.
  - lia.
  - unfold i64_max in *. cbn. lia.
Qed.

(** ** Instances *)

Module DelegationInstance.

(** Two letters for each byte. *)
Definition put (c : ascii) (s : string) : string :=
  String (ascii_of_N (97 + byte c / 16)) (String (ascii_of_N (97 + byte c mod 16)) s).
Definition enc (l : list ascii) : string := foldr put "" l.
Fixpoint dec_pairs (s : string) : option (list ascii) :=
  match s with
  | EmptyString => Some []
  | String a (String b s') =>
      l ← dec_pairs s'; Some (ascii_of_N (16 * (byte a - 97) + (byte b - 97)) :: l)
  | _ => None
  end.

Lemma put_facts c : (∀ s, contains_byte (put c s) "." = contains_byte s ".") ∧
  ascii_of_N (16 * (97 + byte c / 16 - 97) + (97 + byte c mod 16 - 97)) = c ∧
  (97 + byte c / 16 < 256)%N ∧ (97 + byte c mod 16 < 256)%N.
Proof. by destruct c as [[] [] [] [] [] [] [] []]. Qed.

Definition sample : DelegationClaims :=
  {| token_id := 1; kind := ToolCall; issuer := "agent"; audience := "gateway"; caller_subject := "u";
     caller_claims := JNull; subject_id := "u"; subject_type := "USER"; groups := None;
     organizations := None; agent_actor := "a"; agent_def_id := None; agent_policy_version := 1;
     host_id := 2; environment := None; session_id := 3; turn_id := 4; action_attempt_id := Some 5%N;
     tool_ref := Some 6%N; tool_alias := Some "read"; destination := None;
     workflow_invocation_id := None; workflow_permit_depth := None; workflow_execution_class := None;
     workflow_budget_ledger_id := None; workflow_budget_generation := None;
     data_boundary_digest := "b"; policy_digest := "p"; replay_id := 7; issued_at := 1000;
     expires_at := 1060 |}.

#[local] Instance crypto : TokenCrypto := {|
  b64_encode := enc;
  b64_decode := dec_pairs;
  hmac_tag key msg := Some (take 4 key ++ msg);
  hmac_verify key msg sig := Some (bool_decide (take 4 key ++ msg = sig));
  claims_to_vec c := if bool_decide (token_id c = 1%N) then Ok (bytes "{}") else Err "unsupported";
  claims_from_slice b := if bool_decide (b = bytes "{}") then Ok sample else Err "unsupported" |}.

#[local] Instance laws : TokenLaws.
Proof.
  split.
  - intros b. change (contains_byte (enc b) "." = false). induction b as [|c b IH]; [done|].
    change (enc (c :: b)) with (put c (enc b)). by rewrite (proj1 (put_facts c)).
  - intros b. change (dec_pairs (enc b) = Some b). induction b as [|c b IH]; [done|].
    change (enc (c :: b)) with (put c (enc b)).
    destruct (put_facts c) as (_ & Hc & H1 & H2). unfold put. cbn [dec_pairs]. rewrite IH. cbn [mbind option_bind].
    by rewrite !byte_ascii, Hc by done.
  - done.
  - intros json c. cbn. case_bool_decide; [|done]. intros [= <-]. unfold is_i64. cbn. lia.
Qed.

Definition secret : list ascii := bytes "0123456789abcdef0123456789abcdef".
Definition signer : DelegationSigner := {| ds_secret := secret; ds_issuer := "agent" |}.
Definition verifier : DelegationVerifier :=
  {| dv_secret := secret; dv_issuer := "agent"; dv_audience := "gateway" |}.
Definition token : string := ok_value "" (mint signer sample).

Lemma mint_verify_roundtrip_witness : verify_token verifier 1010 1010 token = Ok sample.
Proof.
  apply (mint_verify_roundtrip secret "agent" signer verifier sample token (bytes "{}") 1010 1010);
    by vm_compute.
Defined.

Lemma delegation_scope_witness :
  kind sample = ToolCall ∧ issuer sample = "agent" ∧ audience sample = "gateway" ∧
  bound_to sample ToolCall (Some "read") ∧ policy_digest sample ≠ "" ∧
  data_boundary_digest sample ≠ "" ∧ (1010 < expires_at sample <= 1010 + 330)%Z.
Proof.
  apply (delegation_scope verifier 1010 1010 1010 token ToolCall (Some "read") sample).
  - by vm_compute.
  - by vm_compute.
  - split; by vm_compute.
Defined.

Lemma verify_token_authentic_witness :
  ∃ payload signature tag json,
    token = token_text payload signature ∧
    contains_byte payload "." = false ∧ contains_byte signature "." = false ∧
    b64_decode signature = Some tag ∧
    hmac_tag (dv_secret verifier) (bytes (signing_input payload)) = Some tag ∧
    b64_decode payload = Some json ∧ claims_from_slice json = Ok sample ∧
    issuer sample = dv_issuer verifier ∧ audience sample = dv_audience verifier ∧
    (issued_at sample <= 1010 + 30)%Z ∧ (1010 < expires_at sample)%Z ∧
    (expires_at sample - issued_at sample <= 300 ∨ 2 ^ 63 <= expires_at sample - issued_at sample)%Z.
Proof.
  apply (verify_token_authentic verifier 1010 1010 token sample).
  - unfold is_timestamp. lia.
  - unfold is_timestamp. lia.
  - by vm_compute.
Defined.
End DelegationInstance.
