(* ===== verification/WorkflowExpression.v ===== *)
(** * Workflow expressions: profile, templates and URIs

    Model of [crates/workflow-expression/src]: [error.rs], the profile, positions and
    limits of [lib.rs], the template scanner ([scanner.rs]) and the placeholders of
    endpoint URIs ([uri.rs]). *)

From S2P Require Import Prelude RustStr JsonTree.
From Stdlib Require Import Ascii.

(** ** Errors *)

Inductive Category :=
| Invalid | Unsupported | Limit | Evaluation | JsonProfile | ResultType | ProfileUnsupported.
#[global] Instance Category_eq_dec : EqDecision Category.
Proof. solve_decision. Defined.

Definition code (c : Category) : string :=
  match c with
  | Invalid => "EXPRESSION_INVALID"
  | Unsupported => "EXPRESSION_UNSUPPORTED"
  | Limit => "EXPRESSION_LIMIT"
  | Evaluation => "EXPRESSION_EVALUATION"
  | JsonProfile => "EXPRESSION_JSON_PROFILE"
  | ResultType => "EXPRESSION_RESULT_TYPE"
  | ProfileUnsupported => "EVALUATOR_PROFILE_UNSUPPORTED"
  end.

Inductive Phase := Admission | Runtime.

Record ExpressionError := {
  ee_category : Category;
  ee_phase : Phase;
  ee_span_index : option N;
  ee_offset : option N;
}.
Definition ExpressionError_new (c : Category) (p : Phase) : ExpressionError :=
  {| ee_category := c; ee_phase := p; ee_span_index := None; ee_offset := None |}.
Definition error_at (e : ExpressionError) (index offset : N) : ExpressionError :=
  {| ee_category := ee_category e; ee_phase := ee_phase e; ee_span_index := Some index;
     ee_offset := Some offset |}.
Definition admission (c : Category) : ExpressionError := ExpressionError_new c Admission.
Definition runtime (c : Category) : ExpressionError := ExpressionError_new c Runtime.

(** ** Profile, positions, limits *)

(** [Value::pointer] with a path of plain member names. *)
Definition pointer_get (keys : list string) (v : Json) : option Json :=
  foldl (λ o k, o ≫= get k) (Some v) keys.

Inductive Profile := LegacyV1 | CelWorkflowV2.
#[global] Instance Profile_eq_dec : EqDecision Profile.
Proof. solve_decision. Defined.

Definition resolve_profile (raw : Json) : result ExpressionError Profile :=
  match pointer_get ["document"; "metadata"; "lightExpressionProfile"] raw with
  | None => Ok LegacyV1
  | Some selector =>
      if negb (bool_decide (as_str selector = Some "cel-workflow-v2"))
      then Err (admission ProfileUnsupported) else
      match get "evaluate" raw ≫= as_object with
      | None => Err (admission ProfileUnsupported)
      | Some evaluate =>
          if negb (bool_decide (member "language" evaluate ≫= as_str = Some "cel"))
             || bool_decide (is_Some (member "mode" evaluate))
          then Err (admission ProfileUnsupported) else Ok CelWorkflowV2
      end
  end.

Inductive Kind := KJson | KString | KPredicate | KExport.
#[global] Instance Kind_eq_dec : EqDecision Kind.
Proof. solve_decision. Defined.

Inductive Position :=
| PSet | HttpBody | HttpQuery | HttpHeader | IdempotencyKey | JsonRpcUri | JsonRpcParams
| JsonRpcHeader | OpenRpcEndpoint | McpParams | McpResourceUri | A2aParameters | AgentInput
| AgentMockOutput | AgentInstructions | AgentPrompt | AskCategory | AskReason | AskAssignee
| AskRole | SwitchWhen | AssertValue | AssertEquals | AssertContains | AssertJsonEquals
| AssertJsonContains | AssertJsonPredicate | PExport | RunnerExport | WorkflowOutput.
#[global] Instance Position_eq_dec : EqDecision Position.
Proof. solve_decision. Defined.

Definition position_kind (p : Position) : Kind :=
  match p with
  | HttpQuery | HttpHeader | IdempotencyKey | JsonRpcUri | OpenRpcEndpoint | McpResourceUri
  | AgentInstructions | AgentPrompt | AskCategory | AskReason | AskAssignee | AskRole => KString
  | SwitchWhen | AssertJsonPredicate => KPredicate
  | PExport | RunnerExport => KExport
  | _ => KJson
  end.

Definition allows (p : Position) (name : string) : bool :=
  bool_decide (name ∈ ["context"; "workflow"])
  || (String.eqb name "output" && bool_decide (p ∈ [PExport; RunnerExport]))
  || (String.eqb name "value" && bool_decide (p = AssertJsonPredicate)).

Record Limits := {
  source_bytes : N;
  ast_nodes : N;
  ast_depth : N;
  comprehension_depth : N;
  input_bytes : N;
  input_nodes : N;
  input_depth : N;
  output_bytes : N;
  output_nodes : N;
  output_depth : N;
}.
Definition Limits_default : Limits :=
  {| source_bytes := 16384; ast_nodes := 2048; ast_depth := 64; comprehension_depth := 2;
     input_bytes := 2097152; input_nodes := 100000; input_depth := 64;
     output_bytes := 1048576; output_nodes := 100000; output_depth := 64 |}.

(** ** The template scanner

    A position [i] of the template is the rest of its bytes together with the offset.
    Literal text is copied byte by byte: [$] is not part of a longer character, so
    copying a character copies its bytes. *)

Inductive Segment :=
| Literal (text : string) (offset end_ : N)
| Span (source : string) (offset source_offset end_ index : N).

Definition is_quote (c : ascii) : bool := Ascii.eqb c "'" || (byte c =? 34)%N.
Definition is_raw_mark (c : ascii) : bool := Ascii.eqb c "r" || Ascii.eqb c "R".
Definition is_mark (c : ascii) : bool := is_raw_mark c || Ascii.eqb c "b" || Ascii.eqb c "B".

(** [quote_at]: how many prefix marks stand before an opening quote here, and whether the
    literal is raw. *)
Definition quote_at (rest : list ascii) : option (nat * bool) :=
  match rest with
  | c :: more =>
      if is_quote c then Some (0, false) else
      if negb (is_mark c) then None else
      match more with
      | d :: more' =>
          if is_mark d then
            match more' with
            | e :: _ => if is_quote e then Some (2, is_raw_mark c || is_raw_mark d) else None
            | [] => None
            end
          else if is_quote d then Some (1, is_raw_mark c) else None
      | [] => None
      end
  | [] => None
  end.

(** [b.get(i..i + 3) == Some(&[quote, quote, quote])]. *)
Definition triple_at (quote : ascii) (rest : list ascii) : bool :=
  bool_decide (take 3 rest = [quote; quote; quote]).

(** The loop over a string literal: the bytes up to and including the closing quote and
    what follows; [None] when it does not end. *)
Fixpoint string_body (raw triple : bool) (quote : ascii) (rest : list ascii) :
    option (list ascii * list ascii) :=
  match rest with
  | [] => None
  | c :: more =>
      if negb raw && Ascii.eqb c "\" then
        match more with
        | [] => None
        | d :: more' => p ← string_body raw triple quote more'; Some (c :: d :: p.1, p.2)
        end
      else if Ascii.eqb c quote && (negb triple || triple_at quote rest)
      then let width := if triple then 3 else 1 in Some (take width rest, drop width rest)
      else p ← string_body raw triple quote more; Some (c :: p.1, p.2)
  end.

(** A comment up to the end of the line. *)
Fixpoint comment_body (rest : list ascii) : list ascii * list ascii :=
  match rest with
  | [] => ([], [])
  | c :: more =>
      if (byte c =? 10)%N then ([], rest) else
      let p := comment_body more in (c :: p.1, p.2)
  end.

Definition closer (c : ascii) : option ascii :=
  if Ascii.eqb c "(" then Some ")"%char else if Ascii.eqb c "[" then Some "]"%char
  else if Ascii.eqb c "{" then Some "}"%char else None.
Definition is_closer (c : ascii) : bool :=
  Ascii.eqb c ")" || Ascii.eqb c "]" || Ascii.eqb c "}".

(** The body of a span: its source and what follows the closing brace; the inner [None]
    is [Category::Invalid], the outer one exhausted fuel. *)
Fixpoint span_body (fuel : nat) (stack : list ascii) (rest : list ascii) :
    option (option (list ascii * list ascii)) :=
  match fuel with
  | O => None
  | S fuel =>
      let continue stack' consumed rest' :=
        r ← span_body fuel stack' rest';
        Some (p ← r; Some (consumed ++ p.1, p.2)) in
      match rest with
      | [] => Some None
      | c :: more =>
          match quote_at rest with
          | Some (marks, raw) =>
              let open := drop marks rest in
              let quote := default c (head open) in
              let triple := triple_at quote open in
              let width := if triple then 3 else 1 in
              match string_body raw triple quote (drop width open) with
              | Some (body, rest') => continue stack (take (marks + width) rest ++ body) rest'
              | None => Some None
              end
          | None =>
              if bool_decide (take 2 rest = bytes "//") then
                let p := comment_body rest in continue stack p.1 p.2
              else
              match closer c with
              | Some close => continue (close :: stack) [c] more
              | None =>
                  if Ascii.eqb c "}" && bool_decide (stack = []) then Some (Some ([], more)) else
                  if is_closer c then
                    match stack with
                    | top :: stack' => if Ascii.eqb top c then continue stack' [c] more else Some None
                    | [] => Some None
                    end
                  else continue stack [c] more
              end
          end
      end
  end.

Record scan_state := {
  sc_segments : list Segment;
  sc_text : list ascii;
  sc_literal_start : N;
  sc_i : N;
  sc_index : N;
}.
Definition push_literal (s : scan_state) : list Segment :=
  match sc_text s with
  | [] => sc_segments s
  | _ => sc_segments s ++ [Literal (of_bytes (sc_text s)) (sc_literal_start s) (sc_i s)]
  end.
Definition copy_text (s : scan_state) (text : list ascii) (width : N) : scan_state :=
  {| sc_segments := sc_segments s; sc_text := sc_text s ++ text;
     sc_literal_start := sc_literal_start s; sc_i := (sc_i s + width)%N; sc_index := sc_index s |}.
Definition push_span (s : scan_state) (source : list ascii) : scan_state :=
  let end_ := (sc_i s + 2 + N.of_nat (length source) + 1)%N in
  {| sc_segments := push_literal s ++
       [Span (of_bytes source) (sc_i s) (sc_i s + 2) end_ (sc_index s)];
     sc_text := []; sc_literal_start := end_; sc_i := end_; sc_index := (sc_index s + 1)%N |}.

Fixpoint scan_loop (fuel : nat) (s : scan_state) (rest : list ascii) :
    option (result ExpressionError (list Segment)) :=
  match fuel with
  | O => None
  | S fuel =>
      match rest with
      | [] =>
          Some (Ok (match sc_text s, sc_segments s with
                    | [], _ :: _ => sc_segments s
                    | _, _ => sc_segments s ++
                        [Literal (of_bytes (sc_text s)) (sc_literal_start s) (sc_i s)]
                    end))
      | c :: more =>
          if bool_decide (take 3 rest = bytes "$${")
          then scan_loop fuel (copy_text s (bytes "${") 3) (drop 3 rest) else
          if negb (bool_decide (take 2 rest = bytes "${"))
          then scan_loop fuel (copy_text s [c] 1) more else
          let fail category := Err (error_at (admission category) (sc_index s) (sc_i s)) in
          if bool_decide (head (drop 2 rest) = Some "{"%char) then Some (fail Unsupported) else
          match span_body (S (length (drop 2 rest))) [] (drop 2 rest) with
          | None => None
          | Some None => Some (fail Invalid)
          | Some (Some (source, rest')) =>
              if is_empty (trim (of_bytes source)) then Some (fail Invalid)
              else scan_loop fuel (push_span s source) rest'
          end
      end
  end.

Definition scan_start : scan_state :=
  {| sc_segments := []; sc_text := []; sc_literal_start := 0; sc_i := 0; sc_index := 0 |}.
(** [scan]; one unit of fuel for each byte and one more is enough. *)
Definition scan (template : string) : option (result ExpressionError (list Segment)) :=
  scan_loop (S (length (bytes template))) scan_start (bytes template).

(** ** Endpoint URIs *)

(** The bytes before the first one that satisfies a test, and the rest from it on. *)
Fixpoint break (f : ascii → bool) (l : list ascii) : list ascii * list ascii :=
  match l with
  | [] => ([], [])
  | c :: more => if f c then ([], l) else let p := break f more in (c :: p.1, p.2)
  end.

(** [find] of a string: the bytes before its first occurrence. *)
Fixpoint find_sub (needle l : list ascii) : option (list ascii) :=
  if bool_decide (take (length needle) l = needle) then Some [] else
  match l with
  | [] => None
  | c :: more => p ← find_sub needle more; Some (c :: p)
  end.

Definition fail_uri {A} : result ExpressionError A := Err (runtime Invalid).

Definition valid_scheme (s : list ascii) : bool :=
  match s with
  | [] => false
  | c :: _ =>
      is_ascii_alphabetic c
      && forallb (λ b, is_ascii_alphanumeric b || Ascii.eqb b "+" || Ascii.eqb b "-"
                       || Ascii.eqb b ".") s
  end.
Definition is_brace (c : ascii) : bool := Ascii.eqb c "{" || Ascii.eqb c "}".

(** The part before the path, [uri[..prefix_end]], with its length computed on the part
    before the query or fragment. *)
Definition prefix_length (before : list ascii) : result ExpressionError nat :=
  match find_sub (bytes "://") before with
  | Some s =>
      if negb (valid_scheme s) then fail_uri else
      let authority := (break (Ascii.eqb "/") (drop (length s + 3) before)).1 in
      Ok (length s + 3 + length authority)
  | None =>
      if bool_decide (take 2 before = bytes "//")
      then Ok (2 + length (break (Ascii.eqb "/") (drop 2 before)).1)
      else if existsb (Ascii.eqb ":") (break (Ascii.eqb "/") before).1 then fail_uri else Ok 0
  end.

(** The prefix, path and suffix of a URI. *)
Definition split_uri (uri : string) :
    result ExpressionError (list ascii * list ascii * list ascii) :=
  if contains uri "${" then fail_uri else
  let '(before, suffix) := break (λ c, Ascii.eqb c "?" || Ascii.eqb c "#") (bytes uri) in
  n ← prefix_length before;
  if existsb is_brace (take n before) || existsb is_brace suffix then fail_uri else
  Ok (take n before, drop n before, suffix).

Definition valid_name (name : list ascii) : bool :=
  match name with
  | [] => false
  | c :: _ =>
      (is_ascii_alphabetic c || Ascii.eqb c "_")
      && forallb (λ b, is_ascii_alphanumeric b || Ascii.eqb b "_") name
  end.

(** The text of a placeholder's value; floating point numbers are refused. *)
Definition placeholder_text (v : Json) : option string :=
  match v with
  | JString s => Some s
  | JNumber (PosInt n) => Some (dec n)
  | JNumber (NegInt z) => Some ("-" +:+ dec (Z.abs_N z))
  | _ => None
  end.

Definition is_unreserved (b : ascii) : bool :=
  is_ascii_alphanumeric b || Ascii.eqb b "-" || Ascii.eqb b "." || Ascii.eqb b "_"
  || Ascii.eqb b "~".
Definition percent_byte (b : ascii) : list ascii :=
  if is_unreserved b then [b] else ["%"%char; hex_upper (byte b / 16); hex_upper (byte b mod 16)].
Definition percent_encode (s : string) : list ascii := bytes s ≫= percent_byte.

Fixpoint encode_loop (fuel : nat) (context : Json) (path out : list ascii) :
    option (result ExpressionError (list ascii)) :=
  match fuel with
  | O => None
  | S fuel =>
      match path with
      | [] => Some (Ok out)
      | c :: more =>
          if Ascii.eqb c "}" then Some fail_uri else
          if negb (Ascii.eqb c "{") then encode_loop fuel context more (out ++ [c]) else
          match break (Ascii.eqb "}") more with
          | (_, []) => Some fail_uri
          | (name, _ :: rest) =>
              if negb (valid_name name) then Some fail_uri else
              match get (of_bytes name) context ≫= placeholder_text with
              | None => Some fail_uri
              | Some text =>
                  if bool_decide (text ∈ [""; "."; ".."]) then Some fail_uri
                  else encode_loop fuel context rest (out ++ percent_encode text)
              end
          end
      end
  end.

(** [encode_path_placeholders]; a unit of fuel for each byte and one more is enough. *)
Definition encode_path_placeholders (uri : string) (context : Json) :
    option (result ExpressionError string) :=
  match split_uri uri with
  | Err e => Some (Err e)
  | Ok (prefix, path, suffix) =>
      r ← encode_loop (S (length path)) context path prefix;
      Some (out ← r; Ok (of_bytes (out ++ suffix)))
  end.

Fixpoint validate_loop (fuel : nat) (path : list ascii) : option (result ExpressionError unit) :=
  match fuel with
  | O => None
  | S fuel =>
      match path with
      | [] => Some (Ok ())
      | c :: more =>
          if Ascii.eqb c "}" then Some fail_uri else
          if negb (Ascii.eqb c "{") then validate_loop fuel more else
          match break (Ascii.eqb "}") more with
          | (_, []) => Some fail_uri
          | (name, _ :: rest) =>
              if negb (valid_name name) then Some fail_uri else validate_loop fuel rest
          end
      end
  end.

Definition validate_path_placeholders (uri : string) : option (result ExpressionError unit) :=
  match split_uri uri with
  | Err e => Some (Err e)
  | Ok (_, path, _) => validate_loop (S (length path)) path
  end.
