(* ===== verification/WorkflowExpressionFacts.v ===== *)
(** * Workflow expressions: theorems on templates and URIs

    The scanner terminates on every template and its segments tile the template and give
    it back when written out again; a placeholder value cannot change the structure of a
    URI. *)

From S2P Require Import Prelude RustStr JsonTree WorkflowExpression.
From Stdlib Require Import Ascii.

(** ** Progress of the inner loops *)

Lemma string_body_app raw triple q rest a b :
  string_body raw triple q rest = Some (a, b) → rest = a ++ b.
Proof.
  revert a b. induction rest as [rest IH] using (induction_ltof1 _ (@length ascii)); unfold ltof in IH.
  intros a b. destruct rest as [|c more]; cbn [string_body]; [done|].
  destruct (negb raw && Ascii.eqb c "\").
  - destruct more as [|d more]; [done|].
    intros ([p1 p2] & Hp & [= <- <-])%bind_Some. apply IH in Hp as ->; [done|cbn; lia].
  - destruct (_ && _).
    + intros [= <- <-]. by rewrite take_drop.
    + intros ([p1 p2] & Hp & [= <- <-])%bind_Some. apply IH in Hp as ->; [done|cbn; lia].
Qed.

Lemma comment_body_app rest : (comment_body rest).1 ++ (comment_body rest).2 = rest.
Proof.
  induction rest as [|c more IH]; [done|]. cbn. destruct (byte c =? 10)%N; [done|]. cbn. by rewrite IH.
Qed.

Lemma comment_body_progress c rest :
  byte c ≠ 10%N → length (comment_body (c :: rest)).2 < length (c :: rest).
Proof.
  intros Hc. cbn. destruct (N.eqb_spec (byte c) 10); [done|]. cbn.
  pose proof (f_equal length (comment_body_app rest)) as H. rewrite length_app in H. lia.
Qed.

(** Induction along the steps of a span: a string, a comment, an opening or a closing
    bracket, another byte. *)
Lemma span_body_app fuel stack rest source rest' :
  span_body fuel stack rest = Some (Some (source, rest')) → rest = source ++ "}"%char :: rest'.
Proof.
  revert stack rest source rest'. induction fuel as [|fuel IH]; intros stack rest source rest'; [done|].
  assert (∀ stack' consumed tail, rest = consumed ++ tail →
    (r ← span_body fuel stack' tail; Some (p ← r; Some (consumed ++ p.1, p.2))) =
      Some (Some (source, rest')) → rest = source ++ "}"%char :: rest') as Hcont.
  { intros stack' consumed tail -> ([[src tl]|] & Hr & H)%bind_Some; [|done]. cbn in H.
    injection H as <- <-. apply IH in Hr as ->. by rewrite <- app_assoc. }
  cbn [span_body]. destruct rest as [|c more]; [done|].
  destruct (quote_at (c :: more)) as [[marks raw]|].
  - cbv zeta. destruct (string_body _ _ _ _) as [[body tail]|] eqn:E; [|done].
    apply string_body_app in E. apply Hcont. rewrite <- app_assoc, <- E.
    rewrite drop_drop. by rewrite take_drop.
  - case_bool_decide.
    + apply Hcont. by rewrite comment_body_app.
    + destruct (closer c); [by apply Hcont|].
      destruct (Ascii.eqb_spec c "}") as [->|]; cbn [andb].
      * case_bool_decide; [by intros [= <- <-]|]. cbn [is_closer].
        destruct stack; [done|]. destruct (Ascii.eqb _ _); [by apply Hcont|done].
      * destruct (is_closer c); [|by apply Hcont].
        destruct stack; [done|]. destruct (Ascii.eqb _ _); [by apply Hcont|done].
Qed.

Lemma span_body_total fuel stack rest : length rest < fuel → span_body fuel stack rest ≠ None.
Proof.
  revert stack rest. induction fuel as [|fuel IH]; intros stack rest Hlen; [lia|].
  assert (∀ stack' (consumed tail : list ascii), length tail < length rest →
    (r ← span_body fuel stack' tail; Some (p ← r; Some (consumed ++ p.1, p.2))) ≠ None) as Hcont.
  { intros stack' consumed tail Ht. destruct (span_body fuel stack' tail) eqn:E; [done|].
    exfalso. eapply IH; [|exact E]. lia. }
  cbn [span_body]. destruct rest as [|c more]; [done|].
  destruct (quote_at (c :: more)) as [[marks raw]|] eqn:Eq.
  - cbv zeta. destruct (string_body _ _ _ _) as [[body tail]|] eqn:E; [|done].
    apply string_body_app in E. apply Hcont. apply (f_equal length) in E.
    rewrite !length_drop, length_app in E. cbn [length] in *. destruct (triple_at _ _); lia.
  - case_bool_decide as Hs.
    + apply Hcont. apply comment_body_progress. injection Hs as -> _. done.
    + assert (length more < length (c :: more)) by (cbn; lia).
      destruct (closer c); [by apply Hcont|]. destruct (_ && _); [done|].
      destruct (is_closer c); [|by apply Hcont].
      destruct stack; [done|]. destruct (Ascii.eqb _ _); [by apply Hcont|done].
Qed.

(** ** Templates written out from their segments *)

(** A literal with each [${] escaped as [$${]. *)
Fixpoint escape_text (l : list ascii) : list ascii :=
  match l with
  | [] => []
  | c :: more =>
      (if bool_decide (c = "$"%char ∧ head more = Some "{"%char) then ["$"%char] else [])
      ++ c :: escape_text more
  end.
Definition write_segment (s : Segment) : list ascii :=
  match s with
  | Literal text _ _ => escape_text (bytes text)
  | Span source _ _ _ _ => bytes "${" ++ bytes source ++ ["}"%char]
  end.
Definition write (segments : list Segment) : list ascii := concat (write_segment <$> segments).

(** Segments that cover the bytes from [start] to [stop] without gaps, with the spans
    numbered from [index] and no blank source. *)
Fixpoint tiles (start index : N) (segments : list Segment) (stop : N) (next : N) : Prop :=
  match segments with
  | [] => start = stop ∧ index = next
  | Literal text offset end_ :: rest =>
      offset = start ∧ end_ = (offset + N.of_nat (length (escape_text (bytes text))))%N ∧
      tiles end_ index rest stop next
  | Span source offset source_offset end_ i :: rest =>
      offset = start ∧ source_offset = (offset + 2)%N ∧
      end_ = (source_offset + N.of_nat (length (bytes source)) + 1)%N ∧ i = index ∧
      is_empty (trim source) = false ∧ tiles end_ (index + 1) rest stop next
  end.

Lemma tiles_app start n0 l1 l2 mid inext stop next :
  tiles start n0 l1 mid inext → tiles mid inext l2 stop next →
  tiles start n0 (l1 ++ l2) stop next.
Proof.
  revert start n0. induction l1 as [|[] l1 IH]; cbn; intros start n0; [by intros [<- <-]|..];
    intuition.
Qed.

Lemma write_cons s l : write (s :: l) = write_segment s ++ write l.
Proof. done. Qed.

Lemma write_app l1 l2 : write (l1 ++ l2) = write l1 ++ write l2.
Proof. unfold write. by rewrite fmap_app, concat_app. Qed.

Lemma escape_text_app a b :
  ¬ (last a = Some "$"%char ∧ head b = Some "{"%char) →
  escape_text (a ++ b) = escape_text a ++ escape_text b.
Proof.
  induction a as [|c a IH]; intros Hjoin; [done|].
  assert (head (a ++ b) = Some "{"%char ∧ c = "$"%char ↔ head a = Some "{"%char ∧ c = "$"%char) as Hhead.
  { destruct a; [|done]. cbn in *. naive_solver. }
  cbn [app escape_text]. rewrite IH, <- app_assoc.
  - f_equal. rewrite (bool_decide_ext _ (c = "$"%char ∧ head a = Some "{"%char)) by tauto. done.
  - intros [Hl Hb]. apply Hjoin. split; [|done]. destruct a; [done|by rewrite last_cons_cons].
Qed.

(** What the scanner has read is what its state writes out. *)
Record scan_inv (template : list ascii) (s : scan_state) (rest : list ascii) : Prop := {
  si_text : template = write (sc_segments s) ++ escape_text (sc_text s) ++ rest;
  si_open : last (sc_text s) = Some "$"%char → head rest ≠ Some "{"%char;
  si_tiles : tiles 0 0 (sc_segments s) (sc_literal_start s) (sc_index s);
  si_offset : sc_i s = (sc_literal_start s + N.of_nat (length (escape_text (sc_text s))))%N;
}.

Lemma tiles_length start n0 l stop next :
  tiles start n0 l stop next → stop = (start + N.of_nat (length (write l)))%N.
Proof.
  revert start n0. induction l as [|[] l IH]; intros start n0; cbn [tiles].
  - intros [<- _]. cbn. lia.
  - intros (-> & -> & H). apply IH in H. rewrite H, write_cons, length_app. cbn [write_segment]. lia.
  - intros (-> & -> & -> & -> & _ & H). apply IH in H. rewrite H, write_cons, length_app.
    cbn [write_segment]. rewrite !length_app. change (length (bytes "${")) with 2. cbn [length]. lia.
Qed.

Lemma scan_inv_position template s rest : scan_inv template s rest → drop (N.to_nat (sc_i s)) template = rest.
Proof.
  intros [-> _ Ht Ho]. apply tiles_length in Ht. rewrite Ho, Ht, app_assoc.
  apply drop_app_length'. rewrite length_app. lia.
Qed.

(** Closing the pending literal. *)
Lemma push_literal_inv template s rest :
  scan_inv template s rest →
  template = write (push_literal s) ++ rest ∧ tiles 0 0 (push_literal s) (sc_i s) (sc_index s).
Proof.
  intros [Htext _ Ht Ho]. unfold push_literal. destruct (sc_text s) as [|c text] eqn:E.
  - cbn in Ho. rewrite N.add_0_r in Ho. rewrite Ho. by split.
  - split.
    + rewrite Htext, write_app. unfold write at 3. cbn [fmap list_fmap concat write_segment].
      by rewrite bytes_of_bytes, app_nil_r, <- app_assoc.
    + eapply tiles_app; [done|]. cbn [tiles]. by rewrite bytes_of_bytes.
Qed.

Lemma copy_text_inv template s rest raw text rest' :
  scan_inv template s rest → rest = raw ++ rest' → escape_text text = raw →
  ¬ (last (sc_text s) = Some "$"%char ∧ head text = Some "{"%char) →
  (last (sc_text s ++ text) = Some "$"%char → head rest' ≠ Some "{"%char) →
  scan_inv template (copy_text s text (N.of_nat (length raw))) rest'.
Proof.
  intros [Htext _ Ht Ho] -> Hraw Hjoin Hopen. split; cbn [copy_text sc_segments sc_text sc_literal_start sc_i sc_index]; [|done|done|].
  - rewrite Htext, escape_text_app, Hraw by done. by rewrite <- !app_assoc.
  - rewrite Ho, escape_text_app, Hraw, length_app by done. lia.
Qed.

Lemma push_span_inv template s rest source rest' :
  scan_inv template s rest → rest = bytes "${" ++ source ++ "}"%char :: rest' →
  is_empty (trim (of_bytes source)) = false →
  scan_inv template (push_span s source) rest'.
Proof.
  intros Hinv -> Hb. destruct (push_literal_inv _ _ _ Hinv) as [Htext Ht].
  split; cbn [push_span sc_segments sc_text sc_literal_start sc_i sc_index escape_text app]; [|done| |cbn; lia].
  - rewrite Htext, write_app. unfold write at 3. cbn [fmap list_fmap concat write_segment].
    rewrite bytes_of_bytes, app_nil_r, <- !app_assoc. done.
  - eapply tiles_app; [done|]. cbn [tiles]. rewrite bytes_of_bytes. by split_and!.
Qed.

(** One step of the scanner at a template position. *)
Lemma scan_text_step template s c more :
  scan_inv template s (c :: more) → take 2 (c :: more) ≠ bytes "${" →
  scan_inv template (copy_text s [c] 1) more.
Proof.
  intros Hinv Hno. eapply (copy_text_inv template s (c :: more) [c] [c] more); [done|done| | |].
  - cbn. by rewrite bool_decide_false by naive_solver.
  - intros [Hl [= ->]]. by apply (si_open _ _ _ Hinv) in Hl.
  - rewrite last_snoc. intros [= ->] Hh. apply Hno. destruct more; cbn in *; by simplify_eq.
Qed.

Lemma scan_escape_step template s rest :
  scan_inv template s rest → take 3 rest = bytes "$${" →
  scan_inv template (copy_text s (bytes "${") 3) (drop 3 rest).
Proof.
  intros Hinv Ht. eapply (copy_text_inv template s rest (bytes "$${") (bytes "${")); [done| |done| |].
  - by rewrite <- Ht, take_drop.
  - by intros [_ ?].
  - change (bytes "${") with (["$"%char] ++ ["{"%char]). rewrite app_assoc, last_snoc. done.
Qed.

(** What a finished scan says of the template. *)
Definition scan_ok (template : list ascii) (r : result ExpressionError (list Segment)) : Prop :=
  match r with
  | Ok segments =>
      write segments = template ∧ segments ≠ [] ∧
      ∃ n, tiles 0 0 segments (N.of_nat (length template)) n
  | Err e =>
      ee_phase e = Admission ∧ ee_category e ∈ [Invalid; Unsupported] ∧
      ∃ i n, e = error_at (admission (ee_category e)) n i ∧
             take 2 (drop (N.to_nat i) template) = bytes "${"
  end.

Lemma scan_finish template s :
  scan_inv template s [] →
  scan_ok template (Ok (match sc_text s, sc_segments s with
                        | [], _ :: _ => sc_segments s
                        | _, _ => sc_segments s ++
                            [Literal (of_bytes (sc_text s)) (sc_literal_start s) (sc_i s)]
                        end)).
Proof.
  intros Hinv. destruct (push_literal_inv _ _ _ Hinv) as [Htext Ht]. rewrite app_nil_r in Htext.
  assert (N.of_nat (length template) = sc_i s) as Hend.
  { apply tiles_length in Ht. rewrite Htext. lia. }
  unfold scan_ok. rewrite Hend. unfold push_literal in *. destruct Hinv as [_ _ Hst Ho].
  destruct (sc_text s) as [|c text].
  - destruct (sc_segments s) as [|seg segs]; [|split_and!; [done..|by eexists]].
    destruct Hst as [Hs Hn]. cbn [escape_text length] in Ho. split_and!; [done..|].
    exists (sc_index s). cbn. split_and!; [done|lia|done|done].
  - split_and!; [done|by destruct (sc_segments s)|by eexists].
Qed.

Lemma template_loop_spec fuel template s rest :
  scan_inv template s rest → length rest < fuel →
  ∃ r, scan_loop fuel s rest = Some r ∧ scan_ok template r.
Proof.
  revert s rest. induction fuel as [|fuel IH]; intros s rest Hinv Hlen; [lia|].
  pose proof (scan_inv_position _ _ _ Hinv) as Hpos.
  cbn [scan_loop]. destruct rest as [|c more]; [eexists; split; [done|by apply scan_finish]|].
  case_bool_decide as H3.
  { apply IH; [by apply scan_escape_step|]. rewrite length_drop. cbn [length] in *. lia. }
  case_bool_decide as H2; cbn [negb].
  2:{ apply IH; [by apply scan_text_step|]. cbn [length] in *. lia. }
  assert (∀ category, category ∈ [Invalid; Unsupported] →
    scan_ok template (Err (error_at (admission category) (sc_index s) (sc_i s)))) as Hfail.
  { intros category Hc. cbn. split_and!; [done|done|]. exists (sc_i s), (sc_index s).
    by rewrite Hpos. }
  cbv zeta. case_bool_decide; [eexists; split; [done|]; apply Hfail; set_solver|].
  destruct (span_body _ _ _) as [[[source rest']|]|] eqn:Eb.
  - destruct (is_empty _) eqn:Eblank; [eexists; split; [done|]; apply Hfail; set_solver|].
    apply span_body_app in Eb.
    assert (c :: more = bytes "${" ++ source ++ "}"%char :: rest') as Hsplit
      by by rewrite <- Eb, <- H2, take_drop.
    apply IH; [by eapply push_span_inv|]. apply (f_equal length) in Hsplit.
    rewrite !length_app in Hsplit. cbn [length] in *. lia.
  - eexists. split; [done|]. apply Hfail. set_solver.
  - exfalso. eapply span_body_total; [|exact Eb]. lia.
Qed.

Lemma scan_start_inv template : scan_inv template scan_start template.
Proof. by split. Qed.

(** The scanner returns on every template: the fuel it is given covers the nested
    loops.  It fails only as an admission error of an unsupported or malformed span, at
    the offset of a [${] of the template. *)
Theorem scan_terminates template :
  ∃ r, scan template = Some r ∧
    ∀ e, r = Err e →
      ee_phase e = Admission ∧ ee_category e ∈ [Invalid; Unsupported] ∧
      ∃ i, ee_offset e = Some i ∧ take 2 (drop (N.to_nat i) (bytes template)) = bytes "${".
Proof.
  destruct (template_loop_spec (S (length (bytes template))) (bytes template) scan_start (bytes template))
    as (r & Hr & Hok); [apply scan_start_inv|lia|].
  exists r. split; [done|]. intros e ->. destruct Hok as (Hp & Hc & i & n & He & Ht).
  split_and!; [done|done|]. exists i. by rewrite He.
Qed.

(** C37 Scanning loses nothing: the segments of a template cover it from its first to its
    last byte without gaps, with consecutively numbered, non-blank spans, and writing
    them out again, literals with [${] escaped and spans in braces, gives the template
    back. *)
Theorem scan_roundtrip template segments :
  scan template = Some (Ok segments) →
  of_bytes (write segments) = template ∧ segments ≠ [] ∧
  ∃ n, tiles 0 0 segments (slen template) n.
Proof.
  destruct (template_loop_spec (S (length (bytes template))) (bytes template) scan_start (bytes template))
    as (r & Hr & Hok); [apply scan_start_inv|lia|].
  unfold scan. rewrite Hr. intros [= ->]. destruct Hok as (Hw & Hne & Ht).
  rewrite length_bytes in Ht. by rewrite Hw, of_bytes_bytes.
Qed.

Definition a_template : string := "id-$${x} ${ context.m['}'].f({'a': 1}) // '
 }$${${r''}!".
Lemma scan_roundtrip_witness :
  of_bytes (write (ok_value [] (default (Ok []) (scan a_template)))) = a_template ∧
  ok_value [] (default (Ok []) (scan a_template)) ≠ [] ∧
  ∃ n, tiles 0 0 (ok_value [] (default (Ok []) (scan a_template))) (slen a_template) n.
Proof. apply (scan_roundtrip a_template). by vm_compute. Defined.

(** ** URIs *)

Lemma break_spec f l :
  (break f l).1 ++ (break f l).2 = l ∧ Forall (λ c, f c = false) (break f l).1 ∧
  (∀ c rest, (break f l).2 = c :: rest → f c = true).
Proof.
  induction l as [|c l (IH1 & IH2 & IH3)]; cbn; [done|].
  destruct (f c) eqn:E; cbn; [naive_solver|]. rewrite IH1. split_and!; [done|by constructor|done].
Qed.

(** A path as literal bytes and placeholders. *)
Inductive Item := Lit (c : ascii) | Hole (name : list ascii).
Inductive items_of : list ascii → list Item → Prop :=
| items_nil : items_of [] []
| items_lit c more items :
    c ≠ "{"%char → c ≠ "}"%char → items_of more items → items_of (c :: more) (Lit c :: items)
| items_hole name rest items :
    valid_name name = true → items_of rest items →
    items_of ("{"%char :: name ++ "}"%char :: rest) (Hole name :: items).

(** The text a context gives to a placeholder. *)
Definition bound_text (context : Json) (name : list ascii) (text : string) : Prop :=
  get (of_bytes name) context ≫= placeholder_text = Some text ∧ text ∉ [""; "."; ".."].
(** The path with every placeholder replaced by its encoded text. *)
Inductive filled (context : Json) : list Item → list ascii → Prop :=
| filled_nil : filled context [] []
| filled_lit c items out : filled context items out → filled context (Lit c :: items) (c :: out)
| filled_hole name text items out :
    bound_text context name text → filled context items out →
    filled context (Hole name :: items) (percent_encode text ++ out).

Lemma valid_name_bytes name : valid_name name = true → Forall (λ c, Ascii.eqb "}" c = false) name.
Proof.
  destruct name as [|c name]; [done|]. intros [_ H]%andb_true_iff.
  rewrite forallb_forall in H. apply Forall_forall. intros d Hd%list_elem_of_In%H.
  destruct (Ascii.eqb_spec "}" d) as [<-|]; done.
Qed.

Lemma break_hole name rest :
  valid_name name = true → break (Ascii.eqb "}") (name ++ "}"%char :: rest) = (name, "}"%char :: rest).
Proof.
  intros H%valid_name_bytes. induction H as [|c name Hc _ IH]; [done|].
  cbn [app break]. by rewrite Hc, IH.
Qed.

Lemma break_hole_inv more name c rest :
  break (Ascii.eqb "}") more = (name, c :: rest) → more = name ++ "}"%char :: rest.
Proof.
  intros E. destruct (break_spec (Ascii.eqb "}") more) as (Happ & _ & H). rewrite E in *.
  specialize (H _ _ eq_refl). apply Ascii.eqb_eq in H as <-. done.
Qed.

Lemma encode_loop_sound fuel context path out out' :
  encode_loop fuel context path out = Some (Ok out') →
  ∃ items p, items_of path items ∧ filled context items p ∧ out' = out ++ p.
Proof.
  revert path out. induction fuel as [|fuel IH]; intros path out; [done|]. cbn [encode_loop].
  destruct path as [|c more].
  { intros [= <-]. exists [], []. rewrite app_nil_r. repeat constructor. }
  destruct (Ascii.eqb_spec c "}"); [done|]. destruct (Ascii.eqb_spec c "{") as [->|]; cbn [negb].
  - destruct (break _ more) as [name [|d rest]] eqn:E; [done|]. apply break_hole_inv in E as ->.
    destruct (valid_name name) eqn:Hv; [|done]. cbn [negb].
    destruct (_ ≫= placeholder_text) as [text|] eqn:Et; [|done]. case_bool_decide; [done|].
    intros (items & p & Hi & Hf & ->)%IH. exists (Hole name :: items), (percent_encode text ++ p).
    rewrite <- app_assoc. split_and!; [by constructor|by constructor|done].
  - intros (items & p & Hi & Hf & ->)%IH. exists (Lit c :: items), (c :: p).
    rewrite <- app_assoc. split_and!; [by constructor|by constructor|done].
Qed.

Lemma encode_loop_complete fuel context path items p out :
  items_of path items → filled context items p → length path < fuel →
  encode_loop fuel context path out = Some (Ok (out ++ p)).
Proof.
  intros Hi. revert fuel p out. induction Hi as [|c more items H1 H2 Hi IH|name rest items Hv Hi IH];
    intros [|fuel] p out Hf Hlen; cbn [length] in Hlen; try lia; cbn [encode_loop]; inversion Hf; subst.
  - by rewrite app_nil_r.
  - destruct (Ascii.eqb_spec c "}"); [done|]. destruct (Ascii.eqb_spec c "{"); [done|]. cbn [negb].
    erewrite IH by (done || lia). by rewrite <- app_assoc.
  - cbn [Ascii.eqb negb]. rewrite break_hole, Hv by done. cbn [negb].
    match goal with H : bound_text _ _ _ |- _ => destruct H as [Hg Hd] end.
    cbn. rewrite Hg, bool_decide_false by done. rewrite length_app in Hlen. cbn [length] in Hlen.
    erewrite IH by (done || lia). by rewrite <- app_assoc.
Qed.

Lemma encode_loop_total fuel context path out :
  length path < fuel → encode_loop fuel context path out ≠ None.
Proof.
  revert path out. induction fuel as [|fuel IH]; intros path out Hlen; [lia|]. cbn [encode_loop].
  destruct path as [|c more]; [done|]. cbn [length] in Hlen. destruct (Ascii.eqb c "}"); [done|].
  destruct (Ascii.eqb c "{"); cbn [negb]; [|apply IH; lia].
  destruct (break _ more) as [name [|d rest]] eqn:E; [done|]. apply break_hole_inv in E as ->.
  rewrite length_app in Hlen. cbn [length] in Hlen. repeat case_match; try done. apply IH. lia.
Qed.

Lemma validate_loop_spec fuel path :
  length path < fuel →
  ∃ r, validate_loop fuel path = Some r ∧ (r = Ok () ↔ ∃ items, items_of path items).
Proof.
  revert path. induction fuel as [|fuel IH]; intros path Hlen; [lia|]. cbn [validate_loop].
  destruct path as [|c more]; [eexists; split; [done|]; split; [eexists; constructor|done]|].
  cbn [length] in Hlen. destruct (Ascii.eqb_spec c "}") as [->|Hc].
  { eexists. split; [done|]. split; [done|]. intros [items Hi]. by inversion Hi. }
  destruct (Ascii.eqb_spec c "{") as [->|Ho]; cbn [negb].
  - destruct (break _ more) as [name [|d rest]] eqn:E.
    { eexists. split; [done|]. split; [done|]. intros [items Hi]. inversion Hi; subst; [done|].
      by rewrite break_hole in E. }
    destruct (valid_name name) eqn:Hv; cbn [negb].
    + apply break_hole_inv in E as ->. rewrite length_app in Hlen. cbn [length] in Hlen.
      destruct (IH rest) as (r & -> & Hr); [lia|]. eexists. split; [done|]. rewrite Hr. split.
      * intros [items Hi]. eexists. by constructor.
      * intros [items Hi]. inversion Hi as [| |name' rest' items' Hv' Hi' Heq]; subst; [done|].
        apply (f_equal (break (Ascii.eqb "}"))) in Heq. rewrite !break_hole in Heq by done.
        simplify_eq. eauto.
    + eexists. split; [done|]. split; [done|]. intros [items Hi].
      inversion Hi as [| |name' rest' items' Hv' Hi' Heq]; subst; [done|].
      rewrite break_hole in E by done. simplify_eq. congruence.
  - destruct (IH more) as (r & -> & Hr); [lia|]. eexists. split; [done|]. rewrite Hr. split.
    + intros [items Hi]. eexists. by constructor.
    + intros [items Hi]. inversion Hi; subst; [eauto|done].
Qed.

(** *** Segments of a path *)

(** The items between the slashes. *)
Fixpoint split_items (l : list Item) : list (list Item) :=
  match l with
  | [] => [[]]
  | Lit c :: rest =>
      if Ascii.eqb c "/" then [] :: split_items rest
      else match split_items rest with [] => [[Lit c]] | s :: ss => (Lit c :: s) :: ss end
  | hole :: rest => match split_items rest with [] => [[hole]] | s :: ss => (hole :: s) :: ss end
  end.

(** Bytes that cannot be mistaken for URI structure. *)
Definition path_byte (c : ascii) : Prop := c ≠ "/"%char ∧ c ≠ "?"%char ∧ c ≠ "#"%char.

Lemma percent_byte_safe b : Forall path_byte (percent_byte b) ∧ percent_byte b ≠ [].
Proof.
  unfold path_byte. apply (bool_decide_eq_true_1 _).
  by destruct b as [[] [] [] [] [] [] [] []]; vm_compute.
Qed.

Lemma percent_encode_safe s : Forall path_byte (percent_encode s).
Proof.
  unfold percent_encode. apply Forall_bind, Forall_forall. intros b _. apply percent_byte_safe.
Qed.

Lemma percent_byte_dot b rest q : percent_byte b ++ rest = "."%char :: q → b = "."%char ∧ rest = q.
Proof.
  unfold percent_byte. destruct (is_unreserved b); cbn; intros [= ? ?]; naive_solver.
Qed.

Lemma percent_encode_dots s n : percent_encode s = replicate n "."%char → bytes s = replicate n "."%char.
Proof.
  unfold percent_encode. generalize (bytes s) as l. clear s. induction n as [|n IH]; intros l.
  - destruct l as [|b l]; [done|]. cbn. intros [? _]%app_nil. by destruct (percent_byte_safe b).
  - destruct l as [|b l]; [done|]. cbn. intros [-> H]%percent_byte_dot. f_equal. by apply IH.
Qed.

Lemma split_safe a p :
  Forall path_byte a →
  split "/" (of_bytes (a ++ p)) =
    match split "/" (of_bytes p) with s :: ss => (of_bytes a +:+ s) :: ss | [] => [] end.
Proof.
  induction 1 as [|c a [Hc _] _ IH]; [cbn [app]; by destruct (split "/" (of_bytes p))|].
  change (of_bytes ((c :: a) ++ p)) with (String c (of_bytes (a ++ p))). cbn [split].
  rewrite IH. destruct (Ascii.eqb_spec c "/"); [done|].
  pose proof (split_nonempty "/" (of_bytes p)). by destruct (split "/" (of_bytes p)).
Qed.

Lemma bytes_sapp_of a s : bytes (of_bytes a +:+ s) = a ++ bytes s.
Proof. by rewrite bytes_app, bytes_of_bytes. Qed.

(** Filling in the placeholders fills in each segment on its own. *)
Lemma filled_segments context items p :
  filled context items p →
  Forall2 (λ seg s, filled context seg (bytes s)) (split_items items) (split "/" (of_bytes p)).
Proof.
  induction 1 as [|c items p Hf IH|name text items p Hb Hf IH].
  - repeat constructor.
  - change (of_bytes (c :: p)) with (String c (of_bytes p)). cbn [split_items split].
    destruct (Ascii.eqb c "/"); [by repeat constructor|].
    inversion IH as [Hi Hp|seg s segs ss Hs Hss Hi Hp];
      [by destruct (split_nonempty "/" (of_bytes p))|]. constructor; [by constructor|done].
  - rewrite split_safe by apply percent_encode_safe. cbn [split_items].
    inversion IH as [Hi Hp|seg s segs ss Hs Hss Hi Hp];
      [by destruct (split_nonempty "/" (of_bytes p))|]. constructor; [|done].
    rewrite bytes_sapp_of. by constructor.
Qed.

Lemma filled_dots context seg n :
  filled context seg (replicate n "."%char) → n ≤ 2 → ∀ name, Hole name ∉ seg.
Proof.
  remember (replicate n "."%char) as q eqn:Hq. intros Hf. revert n Hq.
  induction Hf as [|c items p Hf IH|h text items p [Hg Hd] Hf IH]; intros n Hq Hn name.
  - apply not_elem_of_nil.
  - destruct n as [|n]; [done|]. injection Hq as -> Hq. apply not_elem_of_cons. split; [done|].
    eapply IH; [done|lia].
  - exfalso. assert (∃ m, percent_encode text = replicate m "."%char ∧ m ≤ 2) as (m & Hm & Hle).
    { exists (length (percent_encode text)). apply (f_equal (take (length (percent_encode text)))) in Hq as Ht.
      rewrite take_app_length, take_replicate in Ht. apply (f_equal length) in Hq.
      rewrite length_app, length_replicate in Hq. rewrite Nat.min_l in Ht by lia. split; [done|lia]. }
    apply percent_encode_dots in Hm. apply Hd. rewrite <- (of_bytes_bytes text), Hm.
    destruct m as [|[|[|m]]]; [set_solver..|lia].
Qed.

Lemma filled_no_structure context items p path :
  items_of path items → Forall (λ c, c ≠ "?"%char ∧ c ≠ "#"%char) path → filled context items p →
  Forall (λ c, c ≠ "?"%char ∧ c ≠ "#"%char) p.
Proof.
  intros Hi. revert p. induction Hi as [|c more items _ _ Hi IH|name rest items _ Hi IH]; intros p Hp Hf;
    inversion Hf; subst.
  - constructor.
  - apply Forall_cons in Hp as [Hc Hp]. constructor; auto.
  - apply Forall_cons in Hp as [_ Hp]. apply Forall_app in Hp as [_ [_ Hp]%Forall_cons].
    apply Forall_app. split; [|auto]. eapply Forall_impl; [apply percent_encode_safe|].
    by intros c (_ & ? & ?).
Qed.

Lemma split_uri_path uri prefix path suffix :
  split_uri uri = Ok (prefix, path, suffix) →
  uri = of_bytes (prefix ++ path ++ suffix) ∧ Forall (λ c, c ≠ "?"%char ∧ c ≠ "#"%char) path.
Proof.
  unfold split_uri. destruct (contains uri "${"); [done|].
  destruct (break_spec (λ c, Ascii.eqb c "?" || Ascii.eqb c "#") (bytes uri)) as (Happ & Hno & _).
  destruct (break _ (bytes uri)) as [before rest]. cbn in Happ, Hno. intros (n & _ & H)%bind_Ok.
  destruct (_ || _); [done|]. injection H as <- <- <-.
  rewrite app_assoc, take_drop, Happ, of_bytes_bytes. split; [done|].
  apply Forall_drop. eapply Forall_impl; [done|]. intros c. cbn. rewrite orb_false_iff, !Ascii.eqb_neq. done.
Qed.

(** Substituting placeholder values cannot change the structure of a URI: what comes
    before and after the path is kept byte for byte, the path has the segments of the
    template, each with its own placeholders replaced by percent-encoded text, no query
    or fragment starts in it, and a segment with a placeholder is never empty, [.] or
    [..]. *)
Theorem uri_structure_preserved uri context out :
  encode_path_placeholders uri context = Some (Ok out) →
  ∃ prefix path path' suffix items,
    uri = of_bytes (prefix ++ path ++ suffix) ∧ out = of_bytes (prefix ++ path' ++ suffix) ∧
    items_of path items ∧ Forall (λ c, c ≠ "?"%char ∧ c ≠ "#"%char) path' ∧
    Forall2 (λ seg s, filled context seg (bytes s) ∧
                      ((∃ name, Hole name ∈ seg) → s ∉ [""; "."; ".."]))
            (split_items items) (split "/" (of_bytes path')).
Proof.
  unfold encode_path_placeholders. destruct (split_uri uri) as [[[prefix path] suffix]|e] eqn:Eu; [|done].
  intros (r & Hr & H)%bind_Some. apply (inj Some) in H. apply bind_Ok in H as (out' & -> & [= <-]).
  apply encode_loop_sound in Hr as (items & p & Hi & Hf & ->).
  apply split_uri_path in Eu as [Heq Hno].
  exists prefix, path, p, suffix, items. rewrite <- app_assoc.
  split_and!; [done..|by eapply filled_no_structure|].
  eapply Forall2_impl; [by apply filled_segments|]. intros seg s Hs. split; [done|].
  intros [name Hname] Hd. rewrite !elem_of_cons in Hd.
  assert (∃ n, bytes s = replicate n "."%char ∧ n ≤ 2) as (n & Hn & Hle).
  { destruct Hd as [->|[->|[->|[]%elem_of_nil]]]; [exists 0|exists 1|exists 2]; (split; [done|lia]). }
  cbv beta in Hs. rewrite Hn in Hs. by eapply filled_dots.
Qed.

(** The static check accepts exactly the URIs that can be filled in: substitution
    succeeds under a context if and only if the check succeeds and the context gives every
    placeholder of the path a string or integer other than the empty and the dot texts;
    and both always return. *)
Theorem placeholders_validated uri context :
  is_Some (validate_path_placeholders uri) ∧ is_Some (encode_path_placeholders uri context) ∧
  ((∃ out, encode_path_placeholders uri context = Some (Ok out)) ↔
   validate_path_placeholders uri = Some (Ok ()) ∧
   ∃ prefix path suffix items,
     split_uri uri = Ok (prefix, path, suffix) ∧ items_of path items ∧
     ∀ name, Hole name ∈ items → ∃ text, bound_text context name text).
Proof.
  unfold validate_path_placeholders, encode_path_placeholders.
  destruct (split_uri uri) as [[[prefix path] suffix]|e]; [|naive_solver].
  destruct (validate_loop_spec (S (length path)) path) as (r & Hr & Hok); [lia|].
  destruct (encode_loop (S (length path)) context path prefix) as [r'|] eqn:Er.
  2:{ exfalso. eapply encode_loop_total; [|exact Er]. lia. }
  rewrite Hr. split_and!; [done..|]. cbn [mbind option_bind]. split.
  - intros [out H]. apply (inj Some) in H. apply bind_Ok in H as (out' & -> & _).
    apply encode_loop_sound in Er as (items & p & Hi & Hf & _).
    rewrite (proj2 Hok) by eauto. split; [done|]. exists prefix, path, suffix, items.
    split_and!; [done..|]. clear -Hf. induction Hf; intros n; rewrite ?elem_of_cons.
    + by intros ?%elem_of_nil.
    + intros [?|?]; [done|auto].
    + intros [[= ->]|?]; [eauto|auto].
  - intros [_ (? & ? & ? & items & [= <- <- <-] & Hi & Hall)].
    assert (∃ p, filled context items p) as [p Hf].
    { clear -Hall. induction items as [|[c|h] items IH]; [eexists; constructor|..].
      - destruct IH as [p Hp]; [intros; apply Hall; by right|]. eexists. by constructor.
      - destruct IH as [p Hp]; [intros; apply Hall; by right|].
        destruct (Hall h) as [text Ht]; [by left|]. eexists. by econstructor. }
    rewrite (encode_loop_complete _ context path items p prefix) in Er by (done || lia).
    injection Er as <-. by eexists.
Qed.

Definition a_context : Json := JObject [("id", JString "a/b?.."); ("n", JNumber (NegInt (-7)))].
Lemma uri_structure_preserved_witness :
  ∃ prefix path path' suffix items,
    "https://h.test/v1/{id}/x-{n}?q=1" = of_bytes (prefix ++ path ++ suffix) ∧
    "https://h.test/v1/a%2Fb%3F../x--7?q=1" = of_bytes (prefix ++ path' ++ suffix) ∧
    items_of path items ∧ Forall (λ c, c ≠ "?"%char ∧ c ≠ "#"%char) path' ∧
    Forall2 (λ seg s, filled a_context seg (bytes s) ∧
                      ((∃ name, Hole name ∈ seg) → s ∉ [""; "."; ".."]))
            (split_items items) (split "/" (of_bytes path')).
Proof. apply (uri_structure_preserved _ a_context). by vm_compute. Defined.
