(* ===== verification/RetryPolicy.v ===== *)
(** * Retry policies of workflow definitions

    Model of [crates/workflow-expression/src/retry_policy.rs].  Whether a delay from now
    is a representable timestamp is a class. *)

From S2P Require Import Prelude RustStr JsonTree WorkflowExpression.
From Stdlib Require Import Ascii.

Record FixedRetry := { fr_attempts : N; fr_delay_ms : N }.
#[global] Instance FixedRetry_eq_dec : EqDecision FixedRetry.
Proof. solve_decision. Defined.

Record Diagnostic := { dg_error : ExpressionError; dg_task : option string; dg_field : string }.

(** [(i64::MAX / 1000) as u64]. *)
Definition MAX_RETRY_DELAY_MS : N := Z.to_N (i64_max / 1000).

Definition retry_error (field : string) (task : option string) (c : Category) : Diagnostic :=
  {| dg_error := {| ee_category := c; ee_phase := Admission; ee_span_index := None;
                    ee_offset := None |};
     dg_task := task; dg_field := field |}.

(** [str::replace] of a character by a string. *)
Definition replace_byte (c : ascii) (by_ : string) (s : string) : string :=
  of_bytes (bytes s ≫= λ a, if Ascii.eqb a c then bytes by_ else [a]).

(** [{parent}/{key}] with the key escaped as in a JSON pointer. *)
Definition path (parent key : string) : string :=
  parent +:+ "/" +:+ replace_byte "/" "~1" (replace_byte "~" "~0" key).

Definition keys (value : Json) (field : string) (task : option string) (allowed : list string) :
    result Diagnostic (list (string * Json)) :=
  map ← ok_or (retry_error field task Invalid) (as_object value);
  _ ← check_all (λ e, if bool_decide (e.1 ∈ allowed) then Ok ()
                      else Err (retry_error (path field e.1) task Unsupported)) map;
  Ok map.

(** [chrono::Duration::try_milliseconds] and [Utc::now().checked_add_signed]: the delays
    for which both give a value. *)
Class Scheduling := schedulable : N → bool.

Definition DELAY_UNITS : list (string * N) :=
  [("days", 86400000%N); ("hours", 3600000%N); ("minutes", 60000%N); ("seconds", 1000%N);
   ("milliseconds", 1%N)].

(** [limit.attempt.count], one attempt when it is absent. *)
Definition retry_attempts (policy : list (string * Json)) (field : string) (task : option string) :
    result Diagnostic N :=
  match member "limit" policy with
  | None => Ok 1%N
  | Some limit =>
      let limit_path := path field "limit" in
      limit ← keys limit limit_path task ["attempt"];
      match member "attempt" limit with
      | None => Ok 1%N
      | Some attempt =>
          let attempt_path := path limit_path "attempt" in
          attempt ← keys attempt attempt_path task ["count"];
          match member "count" attempt with
          | None => Ok 1%N
          | Some count =>
              ok_or (retry_error (path attempt_path "count") task Invalid)
                (n ← as_u64 count;
                 n ← (if (n <=? u16_max)%N then Some n else None);
                 if (0 <? n)%N then Some n else None)
          end
      end
  end.

Definition add_unit (delay : list (string * Json)) (delay_path : string) (task : option string)
    (delay_ms : N) (unit_factor : string * N) : result Diagnostic N :=
  match member unit_factor.1 delay with
  | None => Ok delay_ms
  | Some value =>
      ok_or (retry_error (path delay_path unit_factor.1) task Invalid)
        (n ← as_u64 value;
         n ← checked_mul u64_max n unit_factor.2;
         n ← checked_add u64_max delay_ms n;
         if (n <=? MAX_RETRY_DELAY_MS)%N then Some n else None)
  end.

Definition retry_delay (policy : list (string * Json)) (field : string) (task : option string) :
    result Diagnostic N :=
  match member "delay" policy with
  | None => Ok 0%N
  | Some delay =>
      let delay_path := path field "delay" in
      delay ← keys delay delay_path task (DELAY_UNITS.*1);
      for_each (add_unit delay delay_path task) 0%N DELAY_UNITS
  end.

(** What a [u64] of milliseconds is as a signed duration from now. *)
Definition delay_representable `{!Scheduling} (delay_ms : N) : bool :=
  bool_decide (Z.of_N delay_ms <= i64_max)%Z && schedulable delay_ms.

Section policies.
Context {SC : Scheduling}.

Definition resolve_retry_policy (raw value : Json) (field : string) (task : option string) :
    result Diagnostic FixedRetry :=
  '(value, field) ←
    match as_str value with
    | Some name =>
        component ← ok_or (retry_error field task Unsupported)
                      (pointer_get ["use"; "retries"] raw ≫= get name);
        Ok (component, path "/use/retries" name)
    | None => Ok (value, field)
    end;
  policy ← keys value field task ["limit"; "delay"];
  attempts ← retry_attempts policy field task;
  delay_ms ← retry_delay policy field task;
  if delay_representable delay_ms then Ok {| fr_attempts := attempts; fr_delay_ms := delay_ms |}
  else Err (retry_error (path field "delay") task Invalid).

(** The check of one task without its children: its own policy and its catch block. *)
Definition check_retry (raw task : Json) (field name : string) : result Diagnostic unit :=
  match get "retry" task with
  | None => Ok ()
  | Some retry =>
      if negb (bool_decide (get "call" task ≫= as_str = Some "http"))
      then Err (retry_error (path field "retry") (Some name) Unsupported) else
      _ ← resolve_retry_policy raw retry (path field "retry") (Some name); Ok ()
  end.

(** The result of a walk: a diagnostic, or [Exhausted] fuel. *)
Inductive Fault := Diag (d : Diagnostic) | Exhausted.

(** The body of the loop over the tasks, with the recursive call as an argument. *)
Definition walk_task (tasks : Json → string → result Fault unit) (raw task : Json)
    (field name : string) : result Fault unit :=
  let sub (children : option Json) (field : string) :=
    match children with Some children => tasks children field | None => Ok () end in
  _ ← map_err Diag (check_retry raw task field name);
  _ ← sub (get "do" task) (path field "do");
  _ ← sub (get "try" task) (path field "try");
  _ ← match get "catch" task with
      | None => Ok ()
      | Some catch =>
          if bool_decide (is_Some (get "retry" catch))
          then Err (Diag (retry_error (path (path field "catch") "retry") (Some name) Unsupported))
          else sub (get "do" catch) (path (path field "catch") "do")
      end;
  sub (pointer_get ["fork"; "branches"] task) (path (path field "fork") "branches").

(** [tasks]; the fuel bounds the nesting of task lists. *)
Fixpoint tasks (fuel : nat) (raw entries : Json) (field : string) : result Fault unit :=
  match fuel with
  | O => Err Exhausted
  | S fuel =>
      match as_array entries with
      | None => Ok ()
      | Some entries =>
          check_all (λ e,
            match as_object e.2 with
            | None => Ok ()
            | Some map =>
                check_all (λ t, walk_task (tasks fuel raw) raw t.2
                                  (path (path field (dec (N.of_nat e.1))) t.1) t.1) map
            end) (imap pair entries)
      end
  end.

Definition check_component (raw : Json) (component : string * Json) : result Diagnostic unit :=
  let '(name, policy) := component in
  if negb (is_object policy)
  then Err (retry_error (path "/use/retries" name) None Unsupported) else
  _ ← resolve_retry_policy raw policy (path "/use/retries" name) None; Ok ().

(** The nesting of the document bounds the nesting of its task lists. *)
Definition validate_retry_policies (raw : Json) : result Fault unit :=
  _ ← map_err Diag
        match pointer_get ["use"; "retries"] raw with
        | None => Ok ()
        | Some policies =>
            policies ← ok_or (retry_error "/use/retries" None Invalid) (as_object policies);
            check_all (check_component raw) policies
        end;
  match get "do" raw with
  | None => Ok ()
  | Some entries => tasks (S (N.to_nat (json_depth raw))) raw entries "/do"
  end.
End policies.

(** ** Theorems *)

Lemma json_depth_element l x : x ∈ l → (json_depth x < json_depth (JArray l))%N.
Proof.
  cbn. induction l as [|y l IH]; cbn; intros H; [by apply elem_of_nil in H|].
  apply elem_of_cons in H as [->|H]; [lia|]. specialize (IH H). lia.
Qed.

Lemma json_depth_member m k v : (k, v) ∈ m → (json_depth v < json_depth (JObject m))%N.
Proof.
  cbn. induction m as [|[k' w] m IH]; cbn; intros H; [by apply elem_of_nil in H|].
  apply elem_of_cons in H as [[= -> ->]|H]; [lia|]. specialize (IH H). lia.
Qed.

Lemma json_depth_get k j v : get k j = Some v → (json_depth v < json_depth j)%N.
Proof. destruct j; try done. cbn. intros H%member_elem_of. by eapply json_depth_member. Qed.

Section policy_facts.
Context {SC : Scheduling}.

Lemma keys_Ok value field task allowed m :
  keys value field task allowed = Ok m ↔ as_object value = Some m ∧ Forall (λ e, e.1 ∈ allowed) m.
Proof.
  unfold keys. rewrite bind_Ok. setoid_rewrite ok_or_Ok. setoid_rewrite check_Ok.
  setoid_rewrite check_all_Ok. setoid_rewrite Forall_forall. split.
  - intros (m' & Hm & Hall & [= ->]). split; [done|]. intros e He. specialize (Hall e He).
    cbv beta in Hall. by case_bool_decide.
  - intros [Hm Hall]. exists m. split_and!; [done| |done]. intros e He. rewrite bool_decide_true; auto.
Qed.

(** The number of milliseconds a delay object stands for. *)
Definition delay_total (delay : list (string * Json)) : N :=
  foldr (λ uf acc, (match member uf.1 delay ≫= as_u64 with Some n => n * uf.2 | None => 0 end + acc)%N)
    0%N DELAY_UNITS.

Lemma add_unit_Ok delay p task ms uf ms' :
  add_unit delay p task ms uf = Ok ms' →
  ms' = (ms + match member uf.1 delay ≫= as_u64 with Some n => n * uf.2 | None => 0 end)%N ∧
  (ms' = ms ∨ (ms' <= MAX_RETRY_DELAY_MS)%N).
Proof.
  unfold add_unit. destruct (member uf.1 delay) as [v|]; cbn [mbind option_bind].
  - intros (n & Hn & (a & Ha & (b & Hb & H)%bind_Some)%bind_Some)%ok_or_Ok%bind_Some.
    rewrite Hn. apply checked_mul_Some in Ha as [-> _]. apply checked_add_Some in Hb as [-> _].
    destruct (N.leb_spec (ms + n * uf.2) MAX_RETRY_DELAY_MS); [|done]. by simplify_eq; auto.
  - intros [= <-]. split; [lia|by left].
Qed.

Lemma retry_delay_Ok policy field task ms :
  retry_delay policy field task = Ok ms →
  (ms <= MAX_RETRY_DELAY_MS)%N ∧
  ms = match member "delay" policy ≫= as_object with Some d => delay_total d | None => 0%N end.
Proof.
  unfold retry_delay. destruct (member "delay" policy) as [delay|]; cbn [mbind option_bind].
  2:{ intros [= <-]. by split. }
  cbv zeta. intros (d & [Hd _]%keys_Ok & H)%bind_Ok. rewrite Hd.
  assert (∀ l acc, for_each (add_unit d (path field "delay") task) acc l = Ok ms →
    (acc <= MAX_RETRY_DELAY_MS)%N →
    (ms <= MAX_RETRY_DELAY_MS)%N ∧
    ms = (acc + foldr (λ uf acc, (match member uf.1 d ≫= as_u64 with Some n => n * uf.2 | None => 0 end + acc)%N)
                 0%N l)%N) as Hloop.
  { induction l as [|uf l IH]; intros acc; cbn [for_each foldr].
    - intros [= <-] Hacc. split; [done|lia].
    - intros (a & [Ha Hle]%add_unit_Ok & Hl)%bind_Ok Hacc. apply IH in Hl as [? ->]; [|naive_solver lia].
      split; [done|]. lia. }
  by apply Hloop in H.
Qed.

Lemma retry_attempts_Ok policy field task n :
  retry_attempts policy field task = Ok n → (1 <= n <= u16_max)%N.
Proof.
  unfold retry_attempts, u16_max. destruct (member "limit" policy); [|intros [= <-]; lia].
  cbv zeta. intros (limit & _ & H)%bind_Ok. destruct (member "attempt" limit); [|simplify_eq; lia].
  apply bind_Ok in H as (attempt & _ & H). destruct (member "count" attempt); [|simplify_eq; lia].
  apply ok_or_Ok, bind_Some in H as (k & _ & H). apply bind_Some in H as (k' & Hk & H).
  destruct (N.leb_spec k 65535); [|done]. destruct (N.ltb_spec 0 k'); [|done]. simplify_eq. lia.
Qed.

(** A policy the resolver accepts is bounded: between 1 and 65535 attempts, and a
    delay that is the exact sum of its units, without wrap-around, at most the largest
    interval the scheduler can store and representable from now. *)
Theorem retry_policy_bounded raw value field task p :
  resolve_retry_policy raw value field task = Ok p →
  (1 <= fr_attempts p <= u16_max)%N ∧ (fr_delay_ms p <= MAX_RETRY_DELAY_MS)%N ∧
  delay_representable (fr_delay_ms p) = true ∧
  ∃ inline policy, (as_str value = None ∧ inline = value ∨
      ∃ name, as_str value = Some name ∧ pointer_get ["use"; "retries"] raw ≫= get name = Some inline) ∧
    as_object inline = Some policy ∧ Forall (λ e, e.1 ∈ ["limit"; "delay"]) policy ∧
    fr_delay_ms p = match member "delay" policy ≫= as_object with Some d => delay_total d | None => 0%N end.
Proof.
  unfold resolve_retry_policy. intros ([inline f] & Hi & H)%bind_Ok.
  apply bind_Ok in H as (policy & [Hp Hk]%keys_Ok & H).
  apply bind_Ok in H as (attempts & Ha & H). apply bind_Ok in H as (ms & [Hle Hms]%retry_delay_Ok & H).
  destruct (delay_representable ms) eqn:Er; [|done]. injection H as <-. cbn [fr_attempts fr_delay_ms].
  apply retry_attempts_Ok in Ha. split_and!; [lia|lia|done|done|].
  exists inline, policy. split_and!; [|done..].
  destruct (as_str value) as [name|] eqn:Es.
  - right. exists name. split; [done|]. apply bind_Ok in Hi as (c & Hc%ok_or_Ok & [= -> _]). done.
  - left. by simplify_eq.
Qed.

(** *** The walk over the tasks *)

(** The lists of tasks directly inside a task. *)
Definition child (task children : Json) : Prop :=
  get "do" task = Some children ∨ get "try" task = Some children ∨
  get "catch" task ≫= get "do" = Some children ∨
  pointer_get ["fork"; "branches"] task = Some children.
(** The tasks of a list, at any depth. *)
Inductive reach : Json → string → Json → Prop :=
| reach_here entries l entry map name task :
    as_array entries = Some l → entry ∈ l → as_object entry = Some map → (name, task) ∈ map →
    reach entries name task
| reach_sub entries l entry map name task children name' task' :
    as_array entries = Some l → entry ∈ l → as_object entry = Some map → (name, task) ∈ map →
    child task children → reach children name' task' → reach entries name' task'.
(** The policy of a task is an HTTP call's and resolves, and its catch block has none. *)
Definition task_ok (raw task : Json) : Prop :=
  (∀ retry, get "retry" task = Some retry →
     get "call" task ≫= as_str = Some "http" ∧
     ∃ field name p, resolve_retry_policy raw retry field name = Ok p) ∧
  get "catch" task ≫= get "retry" = None.

Lemma retry_attempts_field policy field field' task task' n :
  retry_attempts policy field task = Ok n → retry_attempts policy field' task' = Ok n.
Proof.
  unfold retry_attempts. destruct (member "limit" policy) as [l|]; [|done]. cbv zeta.
  intros (m & Hm%keys_Ok & H)%bind_Ok. apply bind_Ok. exists m. split; [by apply keys_Ok|].
  destruct (member "attempt" m) as [a|]; [|done].
  apply bind_Ok in H as (m' & Hm'%keys_Ok & H). apply bind_Ok. exists m'. split; [by apply keys_Ok|].
  destruct (member "count" m'); [|done]. apply ok_or_Ok in H. by apply ok_or_Ok.
Qed.

Lemma retry_delay_field policy field field' task task' n :
  retry_delay policy field task = Ok n → retry_delay policy field' task' = Ok n.
Proof.
  unfold retry_delay. destruct (member "delay" policy) as [l|]; [|done]. cbv zeta.
  intros (m & Hm%keys_Ok & H)%bind_Ok. apply bind_Ok. exists m. split; [by apply keys_Ok|].
  clear Hm. revert H. generalize 0%N as acc. generalize DELAY_UNITS as us.
  induction us as [|uf us IH]; intros acc; cbn [for_each]; [done|].
  rewrite !bind_Ok. intros (a & Ha & Hl). exists a. split; [|by apply IH].
  unfold add_unit in *. destruct (member uf.1 m); [|done]. apply ok_or_Ok in Ha. by apply ok_or_Ok.
Qed.

(** The place of a policy only shows in its diagnostics. *)
Lemma resolve_retry_policy_field raw value field field' task task' p :
  resolve_retry_policy raw value field task = Ok p → resolve_retry_policy raw value field' task' = Ok p.
Proof.
  unfold resolve_retry_policy. intros ([inline f] & Hi & H)%bind_Ok.
  assert (∃ f', match as_str value with
    | Some name => component ← ok_or (retry_error field' task' Unsupported)
        (pointer_get ["use"; "retries"] raw ≫= get name); Ok (component, path "/use/retries" name)
    | None => Ok (value, field') end = Ok (inline, f')) as [f' ->].
  { destruct (as_str value); [|simplify_eq; eauto].
    apply bind_Ok in Hi as (c & Hc%ok_or_Ok & [= <- <-]). rewrite Hc. by eexists. }
  cbn [mbind result_bind]. apply bind_Ok in H as (policy & Hp%keys_Ok & H).
  rewrite (proj2 (keys_Ok _ _ _ _ _) Hp). cbn [mbind result_bind].
  apply bind_Ok in H as (a & Ha & H). rewrite (retry_attempts_field _ _ f' _ task' _ Ha). cbn [mbind result_bind].
  apply bind_Ok in H as (d & Hd & H). rewrite (retry_delay_field _ _ f' _ task' _ Hd). cbn [mbind result_bind].
  by destruct (delay_representable d).
Qed.

Lemma check_retry_Ok raw task field name :
  check_retry raw task field name = Ok () ↔
  ∀ retry, get "retry" task = Some retry →
     get "call" task ≫= as_str = Some "http" ∧
     ∃ field name p, resolve_retry_policy raw retry field name = Ok p.
Proof.
  unfold check_retry. destruct (get "retry" task) as [retry|]; [|naive_solver].
  case_bool_decide; cbn [negb]; [|naive_solver]. rewrite bind_Ok. split.
  - intros (p & Hp & _) r [= <-]. eauto.
  - intros H1. destruct (H1 retry eq_refl) as (_ & f & n & p & Hp). exists p.
    split; [by eapply resolve_retry_policy_field|done].
Qed.

Lemma walk_task_Ok rec raw task field name (P : Json → Prop) :
  (∀ c f, child task c → rec c f = Ok () ↔ P c) →
  walk_task rec raw task field name = Ok () ↔ task_ok raw task ∧ ∀ c, child task c → P c.
Proof.
  intros Hrec. unfold walk_task, task_ok. cbv zeta.
  rewrite !check_Ok, map_err_Ok, check_retry_Ok.
  assert (∀ o f, (∀ c, o = Some c → child task c) →
    match o with Some c => rec c f | None => Ok () end = Ok () ↔ ∀ c, o = Some c → P c) as Hsub.
  { intros [c|] f Hc; [rewrite Hrec by auto|]; naive_solver. }
  rewrite (Hsub (get "do" task)), (Hsub (get "try" task)), (Hsub (pointer_get _ task))
    by (unfold child; tauto).
  unfold child. destruct (get "catch" task) as [catch|] eqn:Ec; cbn [mbind option_bind].
  - case_bool_decide as Hr.
    + split; [naive_solver|]. intros [[_ Hn] _]. rewrite Hn in Hr. by destruct Hr.
    + rewrite (Hsub (get "do" catch)) by (unfold child; rewrite Ec; tauto).
      apply eq_None_not_Some in Hr. naive_solver.
  - naive_solver.
Qed.

Lemma child_depth task c : child task c → (json_depth c < json_depth task)%N.
Proof.
  intros [H|[H|[H|H]]]; [by apply json_depth_get in H..| |].
  - apply bind_Some in H as (catch & H1%json_depth_get & H2%json_depth_get). lia.
  - cbn in H. apply bind_Some in H as (fork & H1%json_depth_get & H2%json_depth_get). lia.
Qed.

Lemma tasks_Ok fuel raw entries field :
  (json_depth entries < N.of_nat fuel)%N →
  tasks fuel raw entries field = Ok () ↔ ∀ name task, reach entries name task → task_ok raw task.
Proof.
  revert entries field. induction fuel as [|fuel IH]; intros entries field Hd; [lia|]. cbn [tasks].
  destruct (as_array entries) as [l|] eqn:Ea.
  2:{ split; [|done]. intros _ name task Hr. by destruct Hr; simplify_eq. }
  destruct entries; try done. injection Ea as ->.
  assert (∀ e t map, e ∈ l → as_object e = Some map → t ∈ map → ∀ f,
    walk_task (tasks fuel raw) raw t.2 f t.1 = Ok () ↔
    task_ok raw t.2 ∧ ∀ c, child t.2 c → ∀ name task, reach c name task → task_ok raw task) as Hw.
  { intros e t map He Hm Ht f. apply walk_task_Ok. intros c f' Hc. apply IH.
    apply child_depth in Hc. apply json_depth_element in He. destruct e; try done. injection Hm as ->.
    destruct t as [k t]. apply json_depth_member in Ht. cbn [snd] in *. lia. }
  rewrite check_all_Ok. split.
  - intros Hall name task Hr.
    assert (∀ e map, e ∈ l → as_object e = Some map → ∀ t, t ∈ map → task_ok raw t.2 ∧
      ∀ c, child t.2 c → ∀ name task, reach c name task → task_ok raw task) as Hgood.
    { intros e map [i Hi]%list_elem_of_lookup Hm t Ht. specialize (Hall (i, e)).
      rewrite elem_of_lookup_imap in Hall. specialize (Hall (ex_intro _ i (ex_intro _ e (conj eq_refl Hi)))).
      cbn [fst snd] in Hall. rewrite Hm in Hall. rewrite check_all_Ok in Hall.
      eapply Hw; [by eapply list_elem_of_lookup_2|done|done|]. by apply Hall. }
    inversion Hr as [? l' e map n t Ha He Hm Ht|? l' e map n t c n' t' Ha He Hm Ht Hc Hr']; subst;
      injection Ha as <-; destruct (Hgood e map He Hm _ Ht) as [H1 H2]; [done|by eapply H2].
  - intros Hall [i e] (i' & e' & [= <- <-] & Hi)%elem_of_lookup_imap. cbn [fst snd].
    destruct (as_object e) as [map|] eqn:Hm; [|done]. apply check_all_Ok. intros t Ht.
    apply list_elem_of_lookup_2 in Hi. eapply Hw; [done..|]. destruct t as [n t]. split.
    + eapply Hall. by eapply reach_here.
    + intros c Hc n' t' Hr. eapply Hall. by eapply reach_sub.
Qed.

(** A definition passes exactly when [use.retries], if present, is an object of
    inline policies that resolve, and every task reachable through [do], [try], [catch]
    and [fork] blocks keeps a policy only on an HTTP call, where it resolves, and none on
    its catch block. *)
Theorem retry_policies_validated raw :
  validate_retry_policies raw = Ok () ↔
  (∀ policies, pointer_get ["use"; "retries"] raw = Some policies →
     ∃ m, as_object policies = Some m ∧
       ∀ name policy, (name, policy) ∈ m → is_object policy = true ∧
         ∃ field task p, resolve_retry_policy raw policy field task = Ok p) ∧
  (∀ entries name task, get "do" raw = Some entries → reach entries name task → task_ok raw task).
Proof.
  unfold validate_retry_policies. rewrite check_Ok, map_err_Ok. f_equiv.
  - destruct (pointer_get ["use"; "retries"] raw) as [policies|]; [|naive_solver].
    rewrite bind_Ok. setoid_rewrite ok_or_Ok. setoid_rewrite check_all_Ok.
    assert (∀ name policy, check_component raw (name, policy) = Ok () ↔ is_object policy = true ∧
      ∃ field task p, resolve_retry_policy raw policy field task = Ok p) as Hc.
    { intros name policy. unfold check_component. destruct (is_object policy); cbn [negb]; [|naive_solver].
      rewrite bind_Ok. split; [naive_solver|]. intros (_ & f & t & p & Hp). exists p.
      split; [by eapply resolve_retry_policy_field|done]. }
    split.
    + intros (m & Hm & Hall) ? [= <-]. exists m. split; [done|]. intros name policy Hin.
      by apply (Hc name), Hall.
    + intros H. destruct (H _ eq_refl) as (m & Hm & Hall). exists m. split; [done|].
      intros [name policy] Hin. by apply Hc, Hall with name.
  - destruct (get "do" raw) as [entries|] eqn:E; [|naive_solver].
    rewrite tasks_Ok by (apply json_depth_get in E; lia). naive_solver.
Qed.

(** The walk never runs out of fuel. *)
Lemma walk_task_not_exhausted rec raw task field name :
  (∀ c f, child task c → rec c f ≠ Err Exhausted) →
  walk_task rec raw task field name ≠ Err Exhausted.
Proof.
  intros Hrec. unfold walk_task. cbv zeta. unfold child in Hrec.
  intros [H|(_ & _ & H)]%bind_Err; [by destruct (check_retry _ _ _ _)|].
  apply bind_Err in H as [H|(_ & _ & H)]; [destruct (get "do" task); naive_solver|].
  apply bind_Err in H as [H|(_ & _ & H)]; [destruct (get "try" task); naive_solver|].
  apply bind_Err in H as [H|(_ & _ & H)].
  - destruct (get "catch" task) as [catch|]; [|done]. case_bool_decide; [done|].
    cbn in Hrec. destruct (get "do" catch); naive_solver.
  - destruct (pointer_get _ task); naive_solver.
Qed.

Lemma tasks_not_exhausted fuel raw entries field :
  (json_depth entries < N.of_nat fuel)%N → tasks fuel raw entries field ≠ Err Exhausted.
Proof.
  revert entries field. induction fuel as [|fuel IH]; intros entries field Hd; [lia|]. cbn [tasks].
  destruct (as_array entries) as [l|] eqn:Ea; [|done]. destruct entries; try done. injection Ea as ->.
  intros ([i e] & (i' & e' & [= <- <-] & Hi)%elem_of_lookup_imap & H)%check_all_Err. cbn [fst snd] in H.
  destruct (as_object e) as [map|] eqn:Hm; [|done]. apply check_all_Err in H as ([n t] & Ht & H).
  revert H. apply walk_task_not_exhausted. intros c f Hc. apply IH.
  apply list_elem_of_lookup_2, json_depth_element in Hi. destruct e; try done. injection Hm as ->.
  apply json_depth_member in Ht. apply child_depth in Hc. cbn [snd] in *. lia.
Qed.

(** The validation of a definition returns: the walk over nested task lists ends
    within the fuel given by the nesting of the document. *)
Theorem retry_validation_terminates raw : validate_retry_policies raw ≠ Err Exhausted.
Proof.
  unfold validate_retry_policies. intros [H|(_ & _ & H)]%bind_Err.
  - by destruct (match pointer_get _ raw with Some _ => _ | None => _ end).
  - destruct (get "do" raw) as [entries|] eqn:E; [|done]. revert H. apply tasks_not_exhausted.
    apply json_depth_get in E. lia.
Qed.
End policy_facts.

Module RetryInstance.
(** Delays of up to a century can be scheduled. *)
#[local] Instance century : Scheduling := λ ms, (ms <=? 3155760000000)%N.

Definition policy : Json :=
  JObject [("delay", JObject [("minutes", JNumber (PosInt 2)); ("seconds", JNumber (PosInt 30))]);
           ("limit", JObject [("attempt", JObject [("count", JNumber (PosInt 5))])])].
Definition definition : Json :=
  JObject [("do", JArray [JObject [("fetch", JObject [("call", JString "http"); ("retry", JString "std")])]]);
           ("use", JObject [("retries", JObject [("std", policy)])])].

Lemma retry_policy_bounded_witness :
  (1 <= 5 <= u16_max)%N ∧ (150000 <= MAX_RETRY_DELAY_MS)%N ∧ delay_representable 150000 = true ∧
  ∃ inline policy', (as_str (JString "std") = None ∧ inline = JString "std" ∨
      ∃ name, as_str (JString "std") = Some name ∧
              pointer_get ["use"; "retries"] definition ≫= get name = Some inline) ∧
    as_object inline = Some policy' ∧ Forall (λ e, e.1 ∈ ["limit"; "delay"]) policy' ∧
    150000%N = match member "delay" policy' ≫= as_object with Some d => delay_total d | None => 0%N end.
Proof.
  apply (retry_policy_bounded definition (JString "std") "/f" None
           {| fr_attempts := 5; fr_delay_ms := 150000 |}).
  by vm_compute.
Defined.

Example definition_accepted : validate_retry_policies definition = Ok ().
Proof. by vm_compute. Qed.
End RetryInstance.
