(* ===== verification/ExpressionStep.v ===== *)
(** * Workflow expressions: limits and the resolution of a step

    Model of the accounting of [crates/workflow-expression/src/json.rs] ([Capped],
    [encode], [measure], [validate_bindings], [validate_output], [OutputBudget]) and of
    [step.rs]: the fields of a task are resolved one by one, templates inside JSON values
    by recursion.  The chunks a JSON value is written in and the evaluation of a span by
    the CEL engine are classes; the cancellation flag is an oracle for the order in which
    it is read. *)

From S2P Require Import Prelude RustStr JsonTree WorkflowExpression RetryPolicy.
From Stdlib Require Import Ascii.

(** ** Bounded writing *)

(** The pieces [serde_json::to_writer] hands to a writer, in order. *)
Class JsonChunks := json_chunks : Json → list (list ascii).

Record Capped := { cp_bytes : list ascii; cp_cap : N }.

(** [Write::write]: all of the bytes or an error; [write_all] is then the same. *)
Definition write_capped (w : Capped) (chunk : list ascii) : result unit Capped :=
  if (cp_cap w - N.of_nat (length (cp_bytes w)) <? N.of_nat (length chunk))%N then Err ()
  else Ok {| cp_bytes := cp_bytes w ++ chunk; cp_cap := cp_cap w |}.

(** A piece of JSON text, with each double quote written as a single one. *)
Definition quoted (k : string) : list ascii :=
  (λ c, if Ascii.eqb c "'" then ascii_of_N 34 else c) <$> bytes k.

Section limits.
Context {JC : JsonChunks}.

Definition to_writer (w : Capped) (v : Json) : result unit Capped :=
  for_each write_capped w (json_chunks v).

Definition encode (v : Json) (cap : N) : result ExpressionError (list ascii) :=
  w ← map_err (λ _, runtime Limit) (to_writer {| cp_bytes := []; cp_cap := cap |} v);
  Ok (cp_bytes w).

(** ** Counting nodes *)

Definition by_key (m : list (string * Json)) : list (string * Json) :=
  merge_sort (λ a b, String.le a.1 b.1) m.

(** [measure]: the head of [todo] is the top of the stack; the outer [None] is exhausted
    fuel. *)
Fixpoint measure_loop (fuel : nat) (limits : Limits) (todo : list (Json * N)) (nodes : N) :
    option (result ExpressionError N) :=
  match todo with
  | [] => Some (Ok nodes)
  | (value, depth) :: todo =>
      match fuel with
      | O => None
      | S fuel =>
          let nodes := (nodes + 1)%N in
          if (input_nodes limits <? nodes)%N || (input_depth limits <? depth)%N
          then Some (Err (runtime Limit)) else
          match value with
          | JArray values =>
              measure_loop fuel limits (((λ v, (v, depth + 1)%N) <$> values) ++ todo) nodes
          | JObject values =>
              measure_loop fuel limits (((λ e, (e.2, depth + 1)%N) <$> by_key values) ++ todo) nodes
          | _ => measure_loop fuel limits todo nodes
          end
      end
  end.

(** All nodes of a document, itself included. *)
Fixpoint json_nodes (j : Json) : N :=
  match j with
  | JArray l => 1 + foldr (λ x n, json_nodes x + n) 0 l
  | JObject m => 1 + foldr (λ e n, json_nodes e.2 + n) 0 m
  | _ => 1
  end%N.

(** The fuel is one unit for each node. *)
Definition measure (value : Json) (start_depth nodes : N) (limits : Limits) :
    option (result ExpressionError N) :=
  measure_loop (N.to_nat (json_nodes value)) limits [(value, start_depth)] nodes.

(** Exhausted fuel, which the theorems exclude, would count as a limit. *)
Definition measured (r : option (result ExpressionError N)) : result ExpressionError N :=
  default (Err (runtime Limit)) r.

Definition output_as_input (limits : Limits) : Limits :=
  {| source_bytes := source_bytes limits; ast_nodes := ast_nodes limits;
     ast_depth := ast_depth limits; comprehension_depth := comprehension_depth limits;
     input_bytes := input_bytes limits; input_nodes := output_nodes limits;
     input_depth := output_depth limits; output_bytes := output_bytes limits;
     output_nodes := output_nodes limits; output_depth := output_depth limits |}.

Definition validate_output (value : Json) (limits : Limits) : result ExpressionError unit :=
  _ ← measured (measure value 0 0 (output_as_input limits));
  _ ← encode value (output_bytes limits);
  Ok ().

Definition validate_bindings (context workflow_input : Json) (output value : option Json)
    (limits : Limits) : result ExpressionError unit :=
  if negb (is_object context) then Err (runtime Evaluation) else
  let nodes := 2%N in
  if (input_nodes limits <? nodes)%N || (input_depth limits <? 1)%N then Err (runtime Limit) else
  nodes ← measured (measure context 1 nodes limits);
  nodes ← measured (measure workflow_input 2 nodes limits);
  _ ← for_each (λ nodes v, measured (measure v 1 nodes limits)) nodes
        (omap id [output; value]);
  let field (w : Capped) (kv : list ascii * option Json) :=
    match kv.2 with
    | Some v => w ← write_capped w kv.1; to_writer w v
    | None => Ok w
    end in
  _ ← map_err (λ _, runtime Limit)
        (w ← write_capped {| cp_bytes := []; cp_cap := input_bytes limits |}
               (quoted "{'context':");
         w ← to_writer w context;
         w ← write_capped w (quoted ",'workflow':{'input':");
         w ← to_writer w workflow_input;
         w ← write_capped w (quoted "}");
         w ← for_each field w [(quoted ",'output':", output); (quoted ",'value':", value)];
         write_capped w (quoted "}"));
  Ok ().

Record OutputBudget := { ob_nodes : N; ob_bytes : N }.
Definition OutputBudget_new : OutputBudget := {| ob_nodes := 0; ob_bytes := 0 |}.

(** [add]; on an error the step fails, so the counters are not read again. *)
Definition OutputBudget_add (b : OutputBudget) (value : Json) (limits : Limits) :
    result ExpressionError OutputBudget :=
  nodes ← measured (measure value 0 (ob_nodes b) (output_as_input limits));
  encoded ← encode value (output_bytes limits - ob_bytes b);
  bytes ← ok_or (runtime Limit) (checked_add u64_max (ob_bytes b) (N.of_nat (length encoded)));
  if (output_bytes limits <? bytes)%N then Err (runtime Limit)
  else Ok {| ob_nodes := nodes; ob_bytes := bytes |}.
End limits.

(** ** Values of the CEL engine *)

Inductive CelKey := KeyString (k : string) | KeyOther.
(** A map is the list of its entries in key order. *)
Inductive CelValue :=
| CNull
| CBool (b : bool)
| CInt (z : Z)
| CUInt (n : N)
| CFloat (bits : N)
| CString (s : string)
| CList (l : list CelValue)
| CMap (m : list (CelKey * CelValue))
| COther.

Definition json_of_i64 (z : Z) : Json :=
  JNumber (if (0 <=? z)%Z then PosInt (Z.to_N z) else NegInt z).

(** The elements of a list and the entries of a map, one after the other. *)
Definition convert_list (f : CelValue → N → result ExpressionError (Json * N)) :=
  fix go (l : list CelValue) (nodes : N) : result ExpressionError (list Json * N) :=
    match l with
    | [] => Ok ([], nodes)
    | v :: rest =>
        '(j, nodes) ← f v nodes; '(out, nodes) ← go rest nodes; Ok (j :: out, nodes)
    end.
Definition convert_map (f : CelValue → N → result ExpressionError (Json * N)) :=
  fix go (m : list (CelKey * CelValue)) (nodes : N) :
      result ExpressionError (list (string * Json) * N) :=
    match m with
    | [] => Ok ([], nodes)
    | (KeyString k, v) :: rest =>
        '(j, nodes) ← f v nodes; '(out, nodes) ← go rest nodes; Ok ((k, j) :: out, nodes)
    | (KeyOther, _) :: _ => Err (runtime JsonProfile)
    end.

(** [to_json], with the counter of nodes threaded through. *)
Fixpoint to_json (value : CelValue) (limits : Limits) (depth nodes : N) :
    result ExpressionError (Json * N) :=
  let nodes := (nodes + 1)%N in
  if (output_nodes limits <? nodes)%N || (output_depth limits <? depth)%N
  then Err (runtime Limit) else
  match value with
  | CNull => Ok (JNull, nodes)
  | CBool b => Ok (JBool b, nodes)
  | CInt z => Ok (json_of_i64 z, nodes)
  | CUInt n => Ok (JNumber (PosInt n), nodes)
  | CFloat bits =>
      if is_finite bits then Ok (JNumber (Float bits), nodes) else Err (runtime JsonProfile)
  | CString s =>
      if (output_bytes limits <? slen s)%N then Err (runtime Limit) else Ok (JString s, nodes)
  | CList l =>
      '(out, nodes) ← convert_list (λ v, to_json v limits (depth + 1)) l nodes;
      Ok (JArray out, nodes)
  | CMap m =>
      '(out, nodes) ← convert_map (λ v, to_json v limits (depth + 1)) m nodes;
      Ok (JObject out, nodes)
  | COther => Err (runtime JsonProfile)
  end.

(** ** Evaluation of a span *)

(** The variables of an evaluation. *)
Record Bindings := {
  bi_context : Json;
  bi_input : Json;
  bi_output : option Json;
  bi_value : option Json;
}.
Inductive CelFailure := FunctionError (message : string) | OtherFailure.

(** The CEL library: compiling a source for a position, the audit of a program and its
    execution under bindings. *)
Class CelEngine := {
  Program : Type;
  cel_compile : string → Position → Limits → result ExpressionError Program;
  cel_audit : Program → Position → Limits → result ExpressionError unit;
  cel_execute : Program → Bindings → result CelFailure CelValue;
}.

(** A program compiled for a position and limits passes the audit under them. *)
Class CelLaws (CE : CelEngine) : Prop :=
  compile_audited source position limits program :
    cel_compile source position limits = Ok program → cel_audit program position limits = Ok ().

Definition execution_error (e : CelFailure) : ExpressionError :=
  runtime match e with
          | FunctionError m =>
              if String.eqb m "EXPRESSION_LIMIT" then Limit
              else if String.eqb m "EXPRESSION_JSON_PROFILE" then JsonProfile else Evaluation
          | OtherFailure => Evaluation
          end.

Section steps.
Context {JC : JsonChunks} {CE : CelEngine}.

(** [evaluate] of a program compiled for [position] under [limits]. *)
Definition evaluate (program : Program) (position : Position) (limits : Limits)
    (bindings : Bindings) (kind : Kind) : result ExpressionError Json :=
  _ ← cel_audit program position limits;
  _ ← cel_audit program position limits;
  if negb (bool_decide (kind = position_kind position))
     && negb (bool_decide (position_kind position = KExport) && bool_decide (kind = KJson))
  then Err (runtime ResultType) else
  if (bool_decide (position ∈ [PExport; RunnerExport]) && negb (bool_decide (is_Some (bi_output bindings))))
     || (bool_decide (position = AssertJsonPredicate) && negb (bool_decide (is_Some (bi_value bindings))))
  then Err (runtime Evaluation) else
  value ← map_err execution_error (cel_execute program bindings);
  if (bool_decide (kind = KString) && negb match value with CString _ => true | _ => false end)
     || (bool_decide (kind = KPredicate) && negb match value with CBool _ => true | _ => false end)
  then Err (runtime ResultType) else
  '(json, _) ← to_json value limits 0 0;
  if bool_decide (position = WorkflowOutput) && negb (is_object json) then Err (runtime ResultType) else
  _ ← encode json (output_bytes limits);
  Ok json.

(** ** The resolver *)

Inductive WorkerError :=
| Expression (e : ExpressionError) | Configuration | Unavailable | Full | InvalidHandle
| IncompleteCleanup | BlockingInAsync.

(** The state of the resolver: the path of the value being resolved, which a failure
    leaves where it happened, and how often the flag has been read. *)
Record RState := { rs_path : string; rs_checks : nat }.
Definition M (A : Type) : Type := RState → result WorkerError A * RState.
#[global] Instance M_ret : MRet M := λ A a s, (Ok a, s).
#[global] Instance M_bind : MBind M := λ A B f m s,
  match m s with (Ok a, s) => f a s | (Err e, s) => (Err e, s) end.
Definition lift {A} (r : result ExpressionError A) : M A := λ s, (map_err Expression r, s).
Definition throw {A} (e : ExpressionError) : M A := λ s, (Err (Expression e), s).

(** The value of the flag at each of its reads. *)
Context (cancelled : nat → bool) (limits : Limits).

Definition check : M unit := λ s,
  (if cancelled (rs_checks s) then Err Unavailable else Ok (),
   {| rs_path := rs_path s; rs_checks := S (rs_checks s) |}).

(** A nested value: its path segment is dropped again when it resolves. *)
Definition in_path {A} (segment : string) (m : M A) : M A := λ s,
  match m {| rs_path := rs_path s +:+ "/" +:+ segment; rs_checks := rs_checks s |} with
  | (Ok a, s') => (Ok a, {| rs_path := rs_path s; rs_checks := rs_checks s' |})
  | (Err e, s') => (Err e, s')
  end.

Fixpoint sequence {A} (l : list (M A)) : M (list A) :=
  match l with
  | [] => mret []
  | m :: rest => a ← m; as_ ← sequence rest; mret (a :: as_)
  end.

(** [escape] of a key for a JSON pointer. *)
Definition escape (key : string) : string :=
  replace_byte "/" "~1" (replace_byte "~" "~0" key).

Definition span (source : string) (index offset : N) (position : Position) (bindings : Bindings) :
    M Json :=
  let at_ {A} (r : result ExpressionError A) : M A :=
    lift (map_err (λ e, error_at e index offset) r) in
  _ ← check;
  program ← at_ (cel_compile source position limits);
  _ ← check;
  result ← at_ (evaluate program position limits bindings (position_kind position));
  _ ← check;
  mret result.

(** [scan] never runs out of fuel. *)
Definition scanned (source : string) : result ExpressionError (list Segment) :=
  default (Err (admission Invalid)) (scan source).

(** A template that consists of one span. *)
Definition whole_span (source : string) (segments : list Segment) : option (string * N * N) :=
  match segments with
  | [Span src 0 source_offset end_ index] =>
      if (end_ =? slen source)%N then Some (src, index, source_offset) else None
  | _ => None
  end.

Definition append_segment (position : Position) (bindings : Bindings) (text : string)
    (segment : Segment) : M string :=
  _ ← check;
  match segment with
  | Literal s _ _ =>
      if (output_bytes limits <? sat_add u64_max (slen text) (slen s))%N then throw (runtime Limit)
      else mret (text +:+ s)
  | Span source _ source_offset _ index =>
      value ← span source index source_offset position bindings;
      match as_str value with
      | None => throw (error_at (runtime ResultType) index source_offset)
      | Some s =>
          if (output_bytes limits <? sat_add u64_max (slen text) (slen s))%N
          then throw (error_at (runtime Limit) index source_offset)
          else mret (text +:+ s)
      end
  end.

Fixpoint append_all (position : Position) (bindings : Bindings) (text : string)
    (segments : list Segment) : M string :=
  match segments with
  | [] => mret text
  | segment :: rest =>
      text ← append_segment position bindings text segment;
      append_all position bindings text rest
  end.

Definition resolve_text (source : string) (position : Position) (root : bool)
    (bindings : Bindings) : M Json :=
  segments ← lift (scanned source);
  let whole := whole_span source segments in
  if root && (bool_decide (position_kind position ∈ [KPredicate; KExport])
              || bool_decide (position = WorkflowOutput)) && negb (bool_decide (is_Some whole))
  then throw (admission Invalid) else
  let span_position := if bool_decide (position = WorkflowOutput) && negb root then PSet else position in
  match whole with
  | Some (src, index, source_offset) => span src index source_offset span_position bindings
  | None => text ← append_all span_position bindings "" segments; mret (JString text)
  end.

(** The checks on the result of a root value. *)
Definition finish_root (result : Json) (position : Position) : M Json :=
  _ ← lift (validate_output result limits);
  if bool_decide (position = WorkflowOutput) && negb (is_object result)
  then throw (runtime ResultType) else
  if bool_decide (position = JsonRpcHeader) then
    match as_object result with
    | None => throw (runtime ResultType)
    | Some map =>
        match List.find (λ e, negb (bool_decide (is_Some (as_str e.2)))) map with
        | Some (key, _) => λ s,
            (Err (Expression (runtime ResultType)),
             {| rs_path := rs_path s +:+ "/" +:+ escape key; rs_checks := rs_checks s |})
        | None => mret result
        end
    end
  else mret result.

(** The checks before and after a value is resolved. *)
Definition resolve_around (value : Json) (position : Position) (root : bool) (depth : N)
    (resolved : M Json) : M Json :=
  _ ← check;
  if (output_depth limits <? depth)%N then throw (runtime Limit) else
  if root && ((bool_decide (position_kind position = KPredicate)
                 && negb (bool_decide (is_Some (as_str value))))
              || (bool_decide (position = WorkflowOutput)
                  && negb (bool_decide (is_Some (as_str value))) && negb (is_object value)))
  then throw (runtime ResultType) else
  result ← resolved;
  _ ← check;
  if root then finish_root result position else mret result.

(** The members of an object are resolved in key order, so the recursive calls are sorted
    with their keys before they run. *)
Fixpoint resolve (value : Json) (position : Position) (root : bool) (depth : N)
    (bindings : Bindings) : M Json :=
  resolve_around value position root depth
    match value with
    | JString source => resolve_text source position root bindings
    | JArray a =>
        out ← sequence (imap (λ i m, in_path (dec (N.of_nat i)) m)
                ((λ v, resolve v position false (depth + 1) bindings) <$> a));
        mret (JArray out)
    | JObject o =>
        out ← sequence ((λ e, in_path (escape e.1) (v ← e.2; mret (e.1, v)))
                <$> merge_sort (λ a b, String.le a.1 b.1)
                      ((λ e, (e.1, resolve e.2 position false (depth + 1) bindings)) <$> o));
        mret (JObject out)
    | other => mret other
    end.
End steps.

(** ** Steps *)

(** The loop over [[index]] selectors; the fuel exceeds the length of the text. *)
Fixpoint select_indices (fuel : nat) (remainder : string) (current : Json) : option Json :=
  match fuel with
  | O => None
  | S fuel =>
      match split_once "[" remainder with
      | None => Some current
      | Some (_, after) =>
          '(index, rest) ← split_once "]" after;
          index ← parse_uint u64_max index;
          items ← as_array current;
          current ← items !! N.to_nat index;
          select_indices fuel rest current
      end
  end.

Definition select_segment (current : Json) (segment : string) : option Json :=
  match split_once "[" segment with
  | None => get segment current
  | Some (field, _) =>
      current ← (if is_empty field then Some current else get field current);
      select_indices (S (String.length segment)) segment current
  end.

Definition select (value : Json) (path : string) : option Json :=
  let path := default (trim path) (strip_prefix "$" (trim path)) in
  let path := default path (strip_prefix "." path) in
  foldl (λ current segment, c ← current; select_segment c segment) (Some value)
    (filter (λ s, s ≠ "") (split "." path)).

Record StepField := {
  sf_path : string;
  sf_position : Position;
  sf_template : Json;
  sf_value_from : option (N * string);
}.
Record StepRequest := {
  sr_bindings : Bindings;
  sr_limits : Limits;
  sr_fields : list StepField;
  sr_first_true : bool;
}.
Record StepError := { se_path : string; se_error : WorkerError }.

Section run.
Context {JC : JsonChunks} {CE : CelEngine} (cancelled : nat → bool).

Definition bind_value (b : Bindings) (v : Json) : Bindings :=
  {| bi_context := bi_context b; bi_input := bi_input b; bi_output := bi_output b;
     bi_value := Some v |}.

(** The bindings for a field that takes its value from an earlier result. *)
Definition field_bindings (request : StepRequest) (field : StepField) (values : list Json)
    (bindings : Bindings) : M Bindings :=
  match sf_value_from field with
  | None => mret bindings
  | Some (index, selector) =>
      if negb (bool_decide (sf_position field = AssertJsonPredicate)) then throw (runtime Invalid) else
      match values !! N.to_nat index with
      | None => throw (runtime Invalid)
      | Some source =>
          let value := default JNull (select source selector) in
          _ ← lift (validate_bindings (bi_context (sr_bindings request)) (bi_input (sr_bindings request))
                 (bi_output (sr_bindings request)) (Some value) (sr_limits request));
          mret (bind_value bindings value)
      end
  end.

Definition set_path (p : string) : M unit := λ s,
  (Ok (), {| rs_path := p; rs_checks := rs_checks s |}).

Fixpoint run_fields (request : StepRequest) (fields : list StepField) (bindings : Bindings)
    (budget : OutputBudget) (values : list Json) : M (list Json) :=
  match fields with
  | [] => mret values
  | field :: rest =>
      _ ← set_path (sf_path field);
      _ ← check cancelled;
      bindings ← field_bindings request field values bindings;
      value ← resolve cancelled (sr_limits request) (sf_template field) (sf_position field) true 0 bindings;
      budget ← lift (OutputBudget_add budget value (sr_limits request));
      let values := values ++ [value] in
      if sr_first_true request && match value with JBool true => true | _ => false end
      then mret values
      else run_fields request rest bindings budget values
  end.

(** The authored templates share one budget before anything is resolved. *)
Definition authored (request : StepRequest) : result ExpressionError OutputBudget :=
  for_each (λ b f, OutputBudget_add b (sf_template f) (sr_limits request)) OutputBudget_new
    (sr_fields request).

Definition run_inner (request : StepRequest) : M (list Json) :=
  _ ← check cancelled;
  _ ← lift (authored request);
  let b := sr_bindings request in
  _ ← lift (validate_bindings (bi_context b) (bi_input b) (bi_output b) (bi_value b) (sr_limits request));
  values ← run_fields request (sr_fields request) b OutputBudget_new [];
  _ ← check cancelled;
  mret values.

Definition run (request : StepRequest) : result StepError (list Json) :=
  let start := {| rs_path := match sr_fields request with f :: _ => sf_path f | [] => "" end;
                  rs_checks := 0 |} in
  match run_inner request start with
  | (Ok values, _) => Ok values
  | (Err e, s) => Err {| se_path := rs_path s; se_error := e |}
  end.
End run.
