(* ===== verification/ExpressionStepFacts.v ===== *)
(** * Workflow expressions: theorems on limits and steps

    The worklist measure agrees with counting the document, budgets add up, and a step
    that succeeds returns values of the types and within the limits its fields promise. *)

From S2P Require Import Prelude RustStr JsonTree WorkflowExpression WorkflowExpressionFacts RetryPolicy ExpressionStep.
From Stdlib Require Import Ascii.

(** ** Measuring *)

Definition todo_nodes (todo : list (Json * N)) : N := Prelude.total (λ e, json_nodes e.1) todo.

Lemma by_key_perm m : by_key m ≡ₚ m.
Proof. apply merge_sort_Permutation. Qed.

Lemma json_nodes_array l : json_nodes (JArray l) = (1 + Prelude.total (λ x, json_nodes x) l)%N.
Proof. cbn. f_equal. induction l; cbn; congruence. Qed.

Lemma json_nodes_object m : json_nodes (JObject m) = (1 + Prelude.total (λ e, json_nodes e.2) m)%N.
Proof. cbn. f_equal. induction m; cbn; congruence. Qed.

(** Every pending value fits below its depth. *)
Definition fits (limits : Limits) (e : Json * N) : Prop := (e.2 + json_depth e.1 <= input_depth limits)%N.

Lemma fits_array limits l d :
  fits limits (JArray l, d) ↔ (d <= input_depth limits)%N ∧ Forall (λ v, fits limits (v, d + 1)%N) l.
Proof.
  unfold fits. cbn. induction l as [|v l IH]; cbn; [rewrite Forall_nil; split; [intros; split; [lia|done]|lia]|].
  rewrite Forall_cons. cbn [fst snd]. split.
  - intros H. destruct (proj1 IH) as [? ?]; [lia|]. split_and!; [lia|lia|done].
  - intros (H1 & H2 & Hl). pose proof (proj2 IH (conj H1 Hl)). lia.
Qed.

Lemma fits_object limits m d :
  fits limits (JObject m, d) ↔ (d <= input_depth limits)%N ∧ Forall (λ e, fits limits (e.2, d + 1)%N) m.
Proof.
  unfold fits. cbn. induction m as [|[k v] m IH]; cbn; [rewrite Forall_nil; split; [intros; split; [lia|done]|lia]|].
  rewrite Forall_cons. cbn [fst snd]. split.
  - intros H. destruct (proj1 IH) as [? ?]; [lia|]. split_and!; [lia|lia|done].
  - intros (H1 & H2 & Hl). pose proof (proj2 IH (conj H1 Hl)). lia.
Qed.

Lemma json_nodes_pos j : (1 <= json_nodes j)%N.
Proof. destruct j; cbn; lia. Qed.

(** Taking a value off the stack and putting its children on it keeps the pending count
    one lower and the same depths. *)
Lemma measure_children value d todo children :
  match value with
  | JArray l => children = ((λ v, (v, d + 1)%N) <$> l)
  | JObject m => children = ((λ e, (e.2, d + 1)%N) <$> by_key m)
  | _ => children = []
  end →
  todo_nodes ((value, d) :: todo) = (1 + todo_nodes (children ++ todo))%N ∧
  ∀ limits, fits limits (value, d) ↔ (d <= input_depth limits)%N ∧ Forall (fits limits) children.
Proof.
  intros Hc. unfold todo_nodes. rewrite total_app. cbn [Prelude.total fst]. split.
  - destruct value; subst children; [done..| |].
    + rewrite total_fmap, json_nodes_array. cbn [fst]. lia.
    + rewrite total_fmap, json_nodes_object. cbn [fst]. rewrite (total_perm _ _ _ (by_key_perm _)). lia.
  - intros limits. destruct value; subst children;
      try (unfold fits; cbn; rewrite N.add_0_r; split; [by split|naive_solver]).
    + by rewrite fits_array, Forall_fmap.
    + by rewrite fits_object, Forall_fmap, by_key_perm.
Qed.

Lemma measure_loop_spec fuel limits todo nodes :
  (todo_nodes todo <= N.of_nat fuel)%N →
  ∃ r, measure_loop fuel limits todo nodes = Some r ∧ (∀ e, r = Err e → e = runtime Limit) ∧
    ∀ n, r = Ok n ↔ n = (nodes + todo_nodes todo)%N ∧ Forall (fits limits) todo ∧
                    (todo = [] ∨ (n <= input_nodes limits)%N).
Proof.
  revert todo nodes. induction fuel as [|fuel IH]; intros [|[v d] todo] nodes Hf.
  1,3: exists (Ok nodes); split_and!; [done|done|]; intros n; unfold todo_nodes; cbn [Prelude.total];
    rewrite N.add_0_r; split; [intros [= ->]; split_and!; [done|constructor|by left]|by intros (-> & _)].
  { exfalso. unfold todo_nodes in Hf. cbn in Hf. pose proof (json_nodes_pos v). lia. }
  assert (∃ children, match v with
    | JArray l => children = ((λ v, (v, d + 1)%N) <$> l)
    | JObject m => children = ((λ e, (e.2, d + 1)%N) <$> by_key m)
    | _ => children = [] end) as [children Hc] by (destruct v; by eexists).
  destruct (measure_children _ _ todo _ Hc) as [Hn Hfit].
  assert (measure_loop (S fuel) limits ((v, d) :: todo) nodes =
    if (input_nodes limits <? nodes + 1)%N || (input_depth limits <? d)%N then Some (Err (runtime Limit))
    else measure_loop fuel limits (children ++ todo) (nodes + 1)) as ->.
  { cbn [measure_loop]. destruct (_ || _); [done|]. by destruct v; subst children. }
  setoid_rewrite Forall_cons. setoid_rewrite Hfit. rewrite Hn.
  destruct (N.ltb_spec (input_nodes limits) (nodes + 1)).
  { eexists. split_and!; [done|naive_solver|]. intros n. split; [done|]. intros (-> & _ & [?|?]); [done|lia]. }
  destruct (N.ltb_spec (input_depth limits) d); cbn [orb].
  { eexists. split_and!; [done|naive_solver|]. intros n. split; [done|]. intros (_ & [[? _] _] & _). lia. }
  destruct (IH (children ++ todo) (nodes + 1)%N) as (r & -> & He & Hr); [lia|].
  exists r. split_and!; [done|done|]. intros n. rewrite Hr, Forall_app. split.
  - intros (-> & [? ?] & Ho). split_and!; [lia|done..|]. right. destruct Ho as [[-> ->]%app_nil|]; [|lia].
    unfold todo_nodes. cbn. lia.
  - intros (-> & [[_ ?] ?] & [?|Ho]); [done|]. split_and!; [lia|done..|]. by right.
Qed.

(** The measure of a value counts its nodes and bounds them and their depth. *)
Lemma measure_spec value depth nodes limits n :
  measured (measure value depth nodes limits) = Ok n ↔
  n = (nodes + json_nodes value)%N ∧ (n <= input_nodes limits)%N ∧
  (depth + json_depth value <= input_depth limits)%N.
Proof.
  unfold measure.
  destruct (measure_loop_spec (N.to_nat (json_nodes value)) limits [(value, depth)] nodes)
    as (r & -> & _ & Hr).
  { unfold todo_nodes. cbn [Prelude.total fst]. lia. }
  cbn [measured default from_option id]. rewrite Hr. unfold todo_nodes, fits. cbn [Prelude.total fst].
  rewrite N.add_0_r, Forall_singleton. cbn [fst snd]. naive_solver.
Qed.

(** ** Writing *)

Lemma write_capped_Ok w chunk w' :
  (N.of_nat (length (cp_bytes w)) <= cp_cap w)%N →
  write_capped w chunk = Ok w' ↔
  w' = {| cp_bytes := cp_bytes w ++ chunk; cp_cap := cp_cap w |} ∧
  (N.of_nat (length (cp_bytes w')) <= cp_cap w)%N.
Proof.
  intros Hw. unfold write_capped.
  destruct (N.ltb_spec (cp_cap w - N.of_nat (length (cp_bytes w))) (N.of_nat (length chunk))).
  - split; [done|]. intros [-> Hl]. cbn in Hl. rewrite length_app in Hl. lia.
  - split; [|by intros [-> _]]. intros <-%(inj Ok). split; [done|]. cbn. rewrite length_app. lia.
Qed.

Lemma write_all_Ok l w w' :
  (N.of_nat (length (cp_bytes w)) <= cp_cap w)%N →
  for_each write_capped w l = Ok w' ↔
  w' = {| cp_bytes := cp_bytes w ++ concat l; cp_cap := cp_cap w |} ∧
  (N.of_nat (length (cp_bytes w') ) <= cp_cap w)%N.
Proof.
  revert w. induction l as [|chunk l IH]; intros w Hw; cbn [for_each concat].
  { rewrite app_nil_r. destruct w; cbn in *. split; [intros <-%(inj Ok); by split|by intros [-> _]]. }
  rewrite bind_Ok. setoid_rewrite write_capped_Ok; [|done]. split.
  - intros (w1 & [-> H1] & H). rewrite IH in H by done. cbn in H. by rewrite <- app_assoc in H.
  - intros [-> Hl]. eexists. cbn in Hl. rewrite !length_app in Hl. split.
    + split; [done|]. cbn. rewrite length_app. lia.
    + rewrite IH by (cbn; rewrite length_app; lia). cbn. rewrite <- app_assoc, !length_app. by split; [|lia].
Qed.

Section accounting.
Context {JC : JsonChunks}.

Definition json_size (v : Json) : N := N.of_nat (length (concat (json_chunks v))).

Lemma encode_Ok v cap b :
  encode v cap = Ok b ↔ b = concat (json_chunks v) ∧ (json_size v <= cap)%N.
Proof.
  unfold encode, to_writer, json_size. rewrite bind_Ok. setoid_rewrite map_err_Ok.
  setoid_rewrite write_all_Ok; [|cbn; lia]. cbn. split.
  - intros (w & [-> Hle] & [= <-]). by split.
  - intros [-> Hle]. eexists. by split_and!.
Qed.

(** The limits a value handed out by a step keeps. *)
Definition within (limits : Limits) (v : Json) : Prop :=
  (json_nodes v <= output_nodes limits)%N ∧ (json_depth v <= output_depth limits)%N ∧
  (json_size v <= output_bytes limits)%N.

Lemma validate_output_Ok v limits : validate_output v limits = Ok () ↔ within limits v.
Proof.
  unfold validate_output, within. rewrite bind_Ok. setoid_rewrite measure_spec. setoid_rewrite bind_Ok.
  setoid_rewrite encode_Ok. cbn [input_nodes input_depth output_as_input]. split.
  - intros (n & (-> & ? & ?) & b & [_ ?] & _). split_and!; lia || done.
  - intros (? & ? & ?). eexists. split_and!; [done|lia|lia|]. eexists. by split_and!.
Qed.

Lemma OutputBudget_add_Ok b v limits b' :
  (ob_bytes b <= output_bytes limits <= u64_max)%N →
  OutputBudget_add b v limits = Ok b' ↔
  b' = {| ob_nodes := (ob_nodes b + json_nodes v)%N; ob_bytes := (ob_bytes b + json_size v)%N |} ∧
  (ob_nodes b' <= output_nodes limits)%N ∧ (json_depth v <= output_depth limits)%N ∧
  (ob_bytes b' <= output_bytes limits)%N.
Proof.
  intros Hb. unfold OutputBudget_add. rewrite bind_Ok. setoid_rewrite measure_spec.
  setoid_rewrite bind_Ok. setoid_rewrite encode_Ok. setoid_rewrite bind_Ok. setoid_rewrite ok_or_Ok.
  setoid_rewrite checked_add_Some. cbn [input_nodes input_depth output_as_input].
  split.
  - intros (n & (-> & ? & ?) & e & [-> ?] & s & [-> ?] & Hend).
    destruct (N.ltb_spec (output_bytes limits) (ob_bytes b + N.of_nat (length (concat (json_chunks v)))));
      [done|]. injection Hend as <-. cbn. unfold json_size in *. split_and!; lia || done.
  - intros (-> & Hn & Hd & Hs). cbn in Hn, Hs. unfold json_size in *.
    eexists. split_and!; [done|lia|lia|]. eexists. split_and!; [done|unfold json_size; lia|].
    eexists. split_and!; [done|lia|]. by destruct (N.ltb_spec (output_bytes limits)
      (ob_bytes b + N.of_nat (length (concat (json_chunks v))))); [lia|].
Qed.

Lemma budget_loop values limits b b' :
  (ob_bytes b <= output_bytes limits <= u64_max)%N →
  for_each (λ b v, OutputBudget_add b v limits) b values = Ok b' ↔
  b' = {| ob_nodes := (ob_nodes b + Prelude.total json_nodes values)%N;
          ob_bytes := (ob_bytes b + Prelude.total json_size values)%N |} ∧
  (values = [] ∨ (ob_nodes b' <= output_nodes limits)%N) ∧ (ob_bytes b' <= output_bytes limits)%N ∧
  Forall (λ v, json_depth v <= output_depth limits)%N values.
Proof.
  revert b. induction values as [|v values IH]; intros b Hb; cbn [for_each Prelude.total].
  { rewrite !N.add_0_r. destruct b as [bn bb]; cbn [ob_nodes ob_bytes] in *. split.
    - intros <-%(inj Ok). cbn [ob_nodes ob_bytes]. split_and!; [done|by left|lia|constructor].
    - by intros (-> & _). }
  rewrite bind_Ok. setoid_rewrite OutputBudget_add_Ok; [|done]. rewrite Forall_cons. split.
  - intros (b1 & (-> & Hn & Hd & Hs) & H). cbn in Hn, Hs. rewrite IH in H by (cbn; lia).
    destruct H as (-> & Ho & Hle & Hall). cbn [ob_nodes ob_bytes] in *.
    split_and!; [f_equal; lia|right; destruct Ho as [->|]; [change (Prelude.total json_nodes []) with 0%N|]; lia|lia|done|done].
  - intros (-> & [?|Hn] & Hle & Hd & Hall); [done|]. cbn in Hn, Hle. eexists. split.
    + split_and!; [done|cbn; lia|done|cbn; lia].
    + rewrite IH by (cbn; lia). cbn. split_and!; [f_equal; lia|right; lia|lia|done].
Qed.

(** A budget admits a sequence of values exactly when their nodes and encoded bytes
    stay, in total, within the limits and each of them is within the depth limit, and then
    holds exactly those totals: the worklist it counts with visits every node once, and
    the bounded writer fails only when the bytes do not fit. *)
Theorem output_budget_exact values limits b :
  (output_bytes limits <= u64_max)%N →
  for_each (λ b v, OutputBudget_add b v limits) OutputBudget_new values = Ok b ↔
  b = {| ob_nodes := Prelude.total json_nodes values; ob_bytes := Prelude.total json_size values |} ∧
  (values = [] ∨ (Prelude.total json_nodes values <= output_nodes limits)%N) ∧
  (Prelude.total json_size values <= output_bytes limits)%N ∧
  Forall (λ v, json_depth v <= output_depth limits)%N values.
Proof. intros Hu. rewrite budget_loop by (cbn; lia). cbn. naive_solver. Qed.
End accounting.

(** ** Results of the engine *)

Section cel_induction.
Context (P : CelValue → Prop)
  (Hleaf : ∀ v, match v with CList _ | CMap _ => False | _ => True end → P v)
  (Hlist : ∀ l, Forall P l → P (CList l)) (Hmap : ∀ m, Forall (λ e, P e.2) m → P (CMap m)).

Fixpoint CelValue_tree_ind (v : CelValue) : P v :=
  match v with
  | CList l =>
      Hlist l ((fix go l : Forall P l :=
                  match l with
                  | [] => Forall_nil_2 _
                  | x :: rest => Forall_cons_2 _ _ _ (CelValue_tree_ind x) (go rest)
                  end) l)
  | CMap m =>
      Hmap m ((fix go m : Forall (λ e, P e.2) m :=
                 match m with
                 | [] => Forall_nil_2 _
                 | x :: rest => Forall_cons_2 _ _ _ (CelValue_tree_ind x.2) (go rest)
                 end) m)
  | v => Hleaf v I
  end.
End cel_induction.

(** What the conversion of a value to JSON guarantees. *)
Definition converts (limits : Limits) (v : CelValue) : Prop :=
  ∀ d n j n', to_json v limits d n = Ok (j, n') →
    n' = (n + json_nodes j)%N ∧ (n' <= output_nodes limits)%N ∧
    (d + json_depth j <= output_depth limits)%N.

Lemma json_depth_array_le l d bound :
  (d <= bound)%N → Forall (λ v, d + 1 + json_depth v <= bound)%N l →
  (d + json_depth (JArray l) <= bound)%N.
Proof. cbn. intros Hd. induction 1; cbn; lia. Qed.

Lemma json_depth_object_le m d bound :
  (d <= bound)%N → Forall (λ e, d + 1 + json_depth e.2 <= bound)%N m →
  (d + json_depth (JObject m) <= bound)%N.
Proof. cbn. intros Hd. induction 1; cbn; lia. Qed.

Lemma convert_list_bounds limits d l k out n' :
  Forall (converts limits) l → (k <= output_nodes limits)%N →
  convert_list (λ v, to_json v limits (d + 1)) l k = Ok (out, n') →
  n' = (k + Prelude.total (λ x, json_nodes x) out)%N ∧ (n' <= output_nodes limits)%N ∧
  Forall (λ v, d + 1 + json_depth v <= output_depth limits)%N out.
Proof.
  intros Hl. revert k out n'. induction Hl as [|v l Hv _ IH]; intros k out n' Hk; cbn [convert_list].
  - intros [= <- <-]. cbn. split_and!; [lia|lia|constructor].
  - intros ([j k1] & (-> & Hk1 & Hd)%Hv & H)%bind_Ok.
    apply bind_Ok in H as ([out1 k2] & (-> & Hk2 & Hall)%IH & [= <- <-]); [|done].
    cbn. split_and!; [lia|lia|by constructor].
Qed.

Lemma convert_map_bounds limits d m k out n' :
  Forall (λ e, converts limits e.2) m → (k <= output_nodes limits)%N →
  convert_map (λ v, to_json v limits (d + 1)) m k = Ok (out, n') →
  n' = (k + Prelude.total (λ e, json_nodes e.2) out)%N ∧ (n' <= output_nodes limits)%N ∧
  Forall (λ e, d + 1 + json_depth e.2 <= output_depth limits)%N out.
Proof.
  intros Hm. revert k out n'. induction Hm as [|[[key|] v] m Hv _ IH]; intros k out n' Hk;
    cbn [convert_map]; [|intros H|done].
  - intros [= <- <-]. cbn. split_and!; [lia|lia|constructor].
  - apply bind_Ok in H as ([j k1] & (-> & Hk1 & Hd)%Hv & H).
    apply bind_Ok in H as ([out1 k2] & (-> & Hk2 & Hall)%IH & [= <- <-]); [|done].
    cbn. split_and!; [lia|lia|by constructor].
Qed.

Lemma to_json_bounds limits v : converts limits v.
Proof.
  induction v as [v Hv|l IH|m IH] using CelValue_tree_ind; intros d n j n';
    [destruct v; try done|..]; cbn [to_json]; cbv zeta;
    (destruct (N.ltb_spec (output_nodes limits) (n + 1)); [done|]);
    (destruct (N.ltb_spec (output_depth limits) d); [done|]); cbn [orb].
  all: try (repeat (case_match; try done); intros [= <- <-]; cbn; lia).
  - intros ([out n1] & (-> & Hle & Hall)%convert_list_bounds & [= <- <-])%bind_Ok; [|done|lia].
    rewrite json_nodes_array. split_and!; [lia|done|]. by apply json_depth_array_le.
  - intros ([out n1] & (-> & Hle & Hall)%convert_map_bounds & [= <- <-])%bind_Ok; [|done|lia].
    rewrite json_nodes_object. split_and!; [lia|done|]. by apply json_depth_object_le.
Qed.

Section results.
Context {JC : JsonChunks} {CE : CelEngine}.

(** The value of a span is of its kind and within the limits. *)
Lemma evaluate_typed program position limits b kind j :
  evaluate program position limits b kind = Ok j →
  within limits j ∧ (kind = KString → ∃ s, j = JString s) ∧ (kind = KPredicate → ∃ c, j = JBool c).
Proof.
  unfold evaluate. intros (_ & _ & H)%bind_Ok. apply bind_Ok in H as (_ & _ & H).
  case_match; [done|]. case_match; [done|]. apply bind_Ok in H as (value & _ & H).
  destruct ((_ && _) || _) eqn:Ek in H; [done|]. apply bind_Ok in H as ([json n] & Hj & H).
  case_match; [done|]. apply bind_Ok in H as (e & [_ He]%encode_Ok & [= ->]).
  apply orb_false_iff in Ek as [Es Ep]. apply andb_false_iff in Es, Ep.
  pose proof (to_json_bounds limits value _ _ _ _ Hj) as (-> & Hn & Hd). split_and!.
  - unfold within. split_and!; lia || done.
  - intros ->. destruct Es as [Es|Es]; [by rewrite bool_decide_true in Es|].
    destruct value; try done. cbn in Hj. repeat (case_match; try done). naive_solver.
  - intros ->. destruct Ep as [Ep|Ep]; [by rewrite bool_decide_true in Ep|].
    destruct value; try done. cbn in Hj. repeat (case_match; try done). naive_solver.
Qed.
End results.

(** ** Steps *)

Lemma M_bind_Ok {A B} (m : M A) (f : A → M B) s b s' :
  (m ≫= f) s = (Ok b, s') ↔ ∃ a s1, m s = (Ok a, s1) ∧ f a s1 = (Ok b, s').
Proof.
  unfold mbind, M_bind. destruct (m s) as [[a|e] s1]; [|naive_solver].
  split; [eauto|]. by intros (a' & s1' & [= <- <-] & H).
Qed.

Lemma lift_Ok {A} (r : result ExpressionError A) s a s' : lift r s = (Ok a, s') ↔ r = Ok a ∧ s' = s.
Proof. unfold lift. destruct r; cbn; naive_solver. Qed.

(** Sorting by a key commutes with mapping the rest. *)
Section sort_map.
Context {A B} (R : relation A) (S : relation B) (f : A → B)
  `{Rdec : ∀ a b, Decision (R a b)} `{Sdec : ∀ a b, Decision (S a b)} (Hf : ∀ a b, S (f a) (f b) ↔ R a b).

Lemma list_merge_fmap l1 l2 : list_merge S (f <$> l1) (f <$> l2) = f <$> list_merge R l1 l2.
Proof using Hf.
  revert l2. induction l1 as [|a l1 IH1]; intros l2; [by destruct l2|].
  induction l2 as [|b l2 IH2]; [done|]. cbn. destruct (decide (R a b)) as [H|H].
  - rewrite decide_True by by apply Hf. cbn. f_equal. apply (IH1 (b :: l2)).
  - rewrite decide_False by by rewrite Hf. cbn. by f_equal.
Qed.

Lemma merge_sort_fmap l : merge_sort S (f <$> l) = f <$> merge_sort R l.
Proof using Hf.
  set (up := λ o : option (list A), match o with Some k => Some (f <$> k) | None => None end).
  assert (∀ (st : list (option (list A))) k, merge_list_to_stack S (up <$> st) (f <$> k) =
    up <$> merge_list_to_stack R st k) as Hpush.
  { induction st as [|[l1|] st IH]; intros k; cbn; [done| |done]. by rewrite list_merge_fmap, IH. }
  assert (∀ st : list (option (list A)), merge_stack S (up <$> st) = f <$> merge_stack R st) as Hstack.
  { induction st as [|[l1|] st IH]; cbn; [done| |done]. by rewrite IH, list_merge_fmap. }
  unfold merge_sort. change (@nil (option (list B))) with (up <$> @nil (option (list A))).
  generalize (@nil (option (list A))) as st. induction l as [|a l IH]; intros st; cbn [merge_sort_aux fmap list_fmap];
    [apply Hstack|]. rewrite <- IH. f_equal. apply (Hpush st [a]).
Qed.
End sort_map.

Lemma Forall2_imap {A B} (P : A → B → Prop) (g : nat → B → B) l k :
  Forall2 (λ a b, ∀ i, P a (g i b)) l k → Forall2 P l (imap g k).
Proof.
  revert k g. induction l as [|a l IH]; intros [|b k] g H; [constructor|by inversion H..|].
  apply Forall2_cons in H as [Hab H]. cbn. constructor; [apply Hab|]. apply IH.
  eapply Forall2_impl; [exact H|]. intros x y Hi i. apply (Hi (S i)).
Qed.

(** The value a template resolves to: strings are replaced, everything else keeps its
    place; the members of an object come in key order. *)
Inductive shape : Json → Json → Prop :=
| shape_string t v : shape (JString t) v
| shape_same v : match v with JArray _ | JObject _ => False | _ => True end → shape v v
| shape_array l l' : Forall2 shape l l' → shape (JArray l) (JArray l')
| shape_object m m' :
    Forall2 (λ a b, a.1 = b.1 ∧ shape a.2 b.2) (by_key m) m' → shape (JObject m) (JObject m').

(** What a field promises about its value. *)
Definition typed (position : Position) (template v : Json) : Prop :=
  (position_kind position = KPredicate → ∃ c, v = JBool c) ∧
  (position_kind position = KString → is_Some (as_str template) → ∃ t, v = JString t) ∧
  (position = WorkflowOutput → is_object v = true) ∧
  (position = JsonRpcHeader → ∃ m, v = JObject m ∧ Forall (λ e, is_Some (as_str e.2)) m).

Section step_facts.
Context {JC : JsonChunks} {CE : CelEngine} (cancelled : nat → bool) (limits : Limits).

(** A computation that succeeds leaves the path alone, and every read of the flag it made
    found it clear. *)
Definition calm (s s' : RState) : Prop :=
  rs_path s' = rs_path s ∧ rs_checks s ≤ rs_checks s' ∧
  ∀ k, rs_checks s ≤ k < rs_checks s' → cancelled k = false.

#[local] Instance calm_preorder : PreOrder calm.
Proof.
  split.
  - intros s. unfold calm. split_and!; [done|done|lia].
  - intros a b c (Hp & Hle & Hk) (Hp' & Hle' & Hk'). unfold calm. split_and!; [congruence|lia|].
    intros k Hr. destruct (decide (k < rs_checks b)); [apply Hk|apply Hk']; lia.
Qed.

Lemma check_calm s s' : check cancelled s = (Ok (), s') → calm s s'.
Proof.
  unfold check, calm. destruct (cancelled (rs_checks s)) eqn:E; [done|]. intros [= <-]. cbn.
  split_and!; [done|lia|]. intros k Hk. by assert (k = rs_checks s) as -> by lia.
Qed.

Lemma in_path_calm {A} segment (m : M A) s a s' :
  in_path segment m s = (Ok a, s') →
  (∀ s1 s2, m s1 = (Ok a, s2) → calm s1 s2) → calm s s' ∧ ∃ s1 s2, m s1 = (Ok a, s2).
Proof.
  unfold in_path. destruct (m _) as [[a'|] s2] eqn:E; [|done]. intros [= -> <-] Hm.
  split; [|eauto]. destruct (Hm _ _ E) as (_ & Hle & Hk). unfold calm. cbn in *. by split_and!.
Qed.

Lemma sequence_calm {A B} (R : B → A → Prop) (ms : list (M A)) (l : list B) s out s' :
  Forall2 (λ b m, ∀ s a s', m s = (Ok a, s') → calm s s' ∧ R b a) l ms →
  sequence ms s = (Ok out, s') → calm s s' ∧ Forall2 R l out.
Proof.
  intros Hl. revert s out s'. induction Hl as [|b m l ms Hm _ IH]; intros s out s'; cbn [sequence].
  - intros [= <- <-]. by split; [reflexivity|].
  - intros (a & s1 & [Hc Hr]%Hm & H)%M_bind_Ok.
    apply M_bind_Ok in H as (as_ & s2 & [Hc' Hr']%IH & [= <- <-]).
    split; [by etrans|by constructor].
Qed.

Lemma span_typed source index offset position b s v s' :
  span cancelled limits source index offset position b s = (Ok v, s') →
  calm s s' ∧ within limits v ∧ (position_kind position = KString → ∃ t, v = JString t) ∧
  (position_kind position = KPredicate → ∃ c, v = JBool c).
Proof.
  unfold span. cbv zeta. intros ([] & s1 & H1%check_calm & H)%M_bind_Ok.
  apply M_bind_Ok in H as (program & s2 & [_ ->]%lift_Ok & H).
  apply M_bind_Ok in H as ([] & s3 & H3%check_calm & H).
  apply M_bind_Ok in H as (r & s4 & [Hr%map_err_Ok ->]%lift_Ok & H).
  apply M_bind_Ok in H as ([] & s5 & H5%check_calm & [= -> <-]).
  apply evaluate_typed in Hr as (Hw & Hs & Hp). split_and!; [|done..].
  etrans; [done|]. by etrans.
Qed.

Lemma append_all_calm position b segments text s t s' :
  append_all cancelled limits position b text segments s = (Ok t, s') → calm s s'.
Proof.
  revert text s. induction segments as [|segment rest IH]; intros text s; cbn [append_all].
  - intros [= _ <-]. reflexivity.
  - intros (t1 & s1 & H1 & H)%M_bind_Ok. apply IH in H. transitivity s1; [|done]. clear H.
    unfold append_segment in H1. apply M_bind_Ok in H1 as ([] & s2 & Hc%check_calm & H1).
    transitivity s2; [done|]. destruct segment.
    { case_match; [done|]. by injection H1 as _ <-. }
    apply M_bind_Ok in H1 as (v & s3 & [Hs _]%span_typed & H1). transitivity s3; [done|].
    destruct (as_str v); [|done]. case_match; [done|]. by injection H1 as _ <-.
Qed.

Lemma resolve_text_typed source position root b s v s' :
  resolve_text cancelled limits source position root b s = (Ok v, s') →
  calm s s' ∧ (position_kind position = KString → ∃ t, v = JString t) ∧
  (root = true → position_kind position = KPredicate → ∃ c, v = JBool c).
Proof.
  unfold resolve_text. intros (segments & s1 & [_ ->]%lift_Ok & H)%M_bind_Ok. cbv zeta in H.
  destruct (root && _ && _) eqn:Eroot in H; [done|].
  set (sp := if _ && _ then PSet else position) in H.
  assert (position_kind position ≠ KJson → sp = position) as Hsp.
  { intros Hk. subst sp. case_bool_decide as Hw; [|done]. subst position. done. }
  destruct (whole_span source segments) as [[[src index] offset]|].
  - apply span_typed in H as (Hc & _ & Hs & Hp). split_and!; [done|..].
    + intros Hk. apply Hs. by rewrite Hsp by congruence.
    + intros _ Hk. apply Hp. by rewrite Hsp by congruence.
  - apply M_bind_Ok in H as (t & s2 & Ht%append_all_calm & [= <- <-]). split_and!; [done|eauto|].
    intros -> Hk. exfalso. rewrite Hk in Eroot. rewrite bool_decide_true in Eroot by set_solver. done.
Qed.

Lemma finish_root_Ok position r s v s' :
  finish_root limits r position s = (Ok v, s') →
  s' = s ∧ v = r ∧ within limits r ∧ (position = WorkflowOutput → is_object r = true) ∧
  (position = JsonRpcHeader → ∃ m, r = JObject m ∧ Forall (λ e, is_Some (as_str e.2)) m).
Proof.
  unfold finish_root. intros ([] & s1 & [Hw%validate_output_Ok ->]%lift_Ok & H)%M_bind_Ok.
  case_bool_decide as Ho; cbn [andb] in H.
  - subst position. destruct (is_object r) eqn:E; [|done]. cbn [negb] in H.
    rewrite bool_decide_false in H by done. injection H as <- <-. by split_and!.
  - case_bool_decide as Hh; [|injection H as <- <-; by split_and!].
    destruct (as_object r) as [m|] eqn:E; [|done].
    destruct (List.find _ m) as [[k w]|] eqn:Ef; [done|]. injection H as <- <-. split_and!; [done..|].
    intros _. destruct r; try done. injection E as ->. exists m. split; [done|].
    apply Forall_forall. intros e He%list_elem_of_In. pose proof (List.find_none _ _ Ef e He) as Hn.
    cbv beta in Hn. by case_bool_decide.
Qed.

(** What a successful resolution checked before and after the value itself. *)
Lemma resolve_around_Ok value position root depth (m : M Json) s v s' :
  resolve_around cancelled limits value position root depth m s = (Ok v, s') →
  ∃ s1 s2, calm s s1 ∧ m s1 = (Ok v, s2) ∧ calm s2 s' ∧
    (root = true → within limits v ∧
       (position_kind position = KPredicate → is_Some (as_str value)) ∧
       (position = WorkflowOutput → is_object v = true) ∧
       (position = JsonRpcHeader → ∃ m, v = JObject m ∧ Forall (λ e, is_Some (as_str e.2)) m)).
Proof.
  unfold resolve_around. intros ([] & s1 & H1%check_calm & H)%M_bind_Ok. case_match; [done|].
  destruct (root && _) eqn:Er; [done|]. apply M_bind_Ok in H as (r & s2 & Hr & H).
  apply M_bind_Ok in H as ([] & s3 & H3%check_calm & H). exists s1, s2. destruct root.
  - apply finish_root_Ok in H as (-> & -> & Hw & Ho & Hh). split_and!; [done..|]. intros _.
    split_and!; [done| |done|done]. intros Hp. cbn in Er. apply orb_false_iff in Er as [Er _].
    rewrite bool_decide_true in Er by done. by case_bool_decide.
  - injection H as -> <-. by split_and!.
Qed.

(** Resolving a template keeps its shape: only strings are replaced, every other value
    stays in its place, arrays keep their length and objects their members, in key order;
    a success leaves the reported path where it was, and found the cancellation flag clear
    at every read. *)
Lemma resolve_shape value position root depth bs s v s' :
  resolve cancelled limits value position root depth bs s = (Ok v, s') → calm s s' ∧ shape value v.
Proof.
  revert position root depth bs s v s'. induction value as [|c|n|t|l IH|m IH] using Json_tree_ind;
    intros position root depth bs s v s'; cbn [resolve];
    intros (s1 & s2 & H1 & H & H2 & _)%resolve_around_Ok;
    (match goal with |- _ ∧ shape ?t _ => cut (calm s1 s2 ∧ shape t v) end;
      [intros [? ?]; split; [etrans; [done|]; by etrans|done]|]).
  1,2,3: injection H as <- <-; split; [reflexivity|by constructor].
  - apply resolve_text_typed in H as [? _]. split; [done|constructor].
  - apply M_bind_Ok in H as (out & s3 & Ho & [= <- <-]).
    eapply (sequence_calm shape _ l) in Ho as [Hc Hs]; [split; [done|by constructor]|].
    apply Forall2_imap. clear Ho. induction IH as [|x l Hx _ IHl]; cbn [fmap list_fmap]; constructor; [|done].
    intros i s4 a s5 Hi. eapply in_path_calm in Hi as [Hc (s6 & s7 & Ha)]; [|intros; by eapply Hx].
    split; [done|]. by eapply Hx.
  - apply M_bind_Ok in H as (out & s3 & Ho & [= <- <-]).
    rewrite (merge_sort_fmap (λ a b : string * Json, String.le a.1 b.1)
      (λ a b : string * M Json, String.le a.1 b.1)
      (λ e : string * Json, (e.1, resolve cancelled limits e.2 position false (depth + 1) bs : M Json)))
      in Ho by done.
    change (merge_sort (λ a b : string * Json, String.le a.1 b.1) m) with (by_key m) in Ho.
    assert (Forall (λ x, ∀ position root depth bs s v s',
      resolve cancelled limits x.2 position root depth bs s = (Ok v, s') → calm s s' ∧ shape x.2 v) (by_key m))
      as IH' by by rewrite by_key_perm. clear IH.
    eapply (sequence_calm (λ a b, a.1 = b.1 ∧ shape a.2 b.2) _ (by_key m)) in Ho as [Hc Hs];
      [split; [done|by constructor]|].
    clear Ho. induction IH' as [|x k Hx _ IHk]; cbn [fmap list_fmap]; constructor; [|done]. cbn [fst snd].
    assert (∀ s1 a s2, (v ← resolve cancelled limits x.2 position false (depth + 1) bs; mret (x.1, v)) s1 = (Ok a, s2) →
      calm s1 s2 ∧ x.1 = a.1 ∧ shape x.2 a.2) as Hmem.
    { intros t1 a t2 (w & t3 & [? ?]%Hx & [= <- <-])%M_bind_Ok. done. }
    intros s4 a s5 Hi. eapply in_path_calm in Hi as [Hc (s6 & s7 & Ha)]; [|intros; by eapply Hmem].
    split; [done|]. by eapply Hmem.
Qed.

Lemma resolve_typed value position bs s v s' :
  resolve cancelled limits value position true 0 bs s = (Ok v, s') →
  within limits v ∧ typed position value v.
Proof.
  destruct value; cbn [resolve]; intros (s1 & s2 & _ & H & _ & Hroot)%resolve_around_Ok;
    destruct (Hroot eq_refl) as (Hw & Hp & Ho & Hh); (split; [done|]);
    unfold typed; (split_and!; [| |done|done]);
    try (by intros Hk; destruct (Hp Hk)); try (by intros _ []).
  - intros Hk. apply resolve_text_typed in H as (_ & _ & Hb). by apply Hb.
  - intros Hk _. apply resolve_text_typed in H as (_ & Hs & _). by apply Hs.
Qed.
End step_facts.

Section run_facts.
Context {JC : JsonChunks} {CE : CelEngine} (cancelled : nat → bool).

(** What a step promises about the value of a field. *)
Definition field_value (limits : Limits) (field : StepField) (v : Json) : Prop :=
  shape (sf_template field) v ∧ typed (sf_position field) (sf_template field) v ∧ within limits v.

Lemma run_fields_Ok request fields bs budget values s values' s' :
  (output_bytes (sr_limits request) <= u64_max)%N →
  (ob_bytes budget <= output_bytes (sr_limits request))%N →
  run_fields cancelled request fields bs budget values s = (Ok values', s') →
  ∃ done_ rest new,
    fields = done_ ++ rest ∧ values' = values ++ new ∧
    Forall2 (field_value (sr_limits request)) done_ new ∧
    (new = [] ∨ (ob_nodes budget + Prelude.total json_nodes new <= output_nodes (sr_limits request))%N) ∧
    (ob_bytes budget + Prelude.total json_size new <= output_bytes (sr_limits request))%N ∧
    (rest = [] ∨ sr_first_true request = true ∧ last new = Some (JBool true)) ∧
    (∀ k, rs_checks s ≤ k < rs_checks s' → cancelled k = false) ∧ rs_checks s ≤ rs_checks s'.
Proof.
  intros Hu. revert bs budget values s.
  induction fields as [|field fields IH]; intros bs budget values s Hb; cbn [run_fields].
  { intros [= <- <-]. exists [], [], []. cbn.
    split_and!; [done|by rewrite app_nil_r|constructor|by left|lia|by left|lia|lia]. }
  intros ([] & s1 & [= <-] & H)%M_bind_Ok. apply M_bind_Ok in H as ([] & s2 & H2%check_calm & H).
  apply M_bind_Ok in H as (bs' & s3 & Hbs & H).
  assert (s3 = s2) as ->.
  { unfold field_bindings in Hbs. destruct (sf_value_from field) as [[i sel]|]; [|by injection Hbs as _ <-].
    case_match; [done|]. case_match; [|done]. cbv zeta in Hbs.
    apply M_bind_Ok in Hbs as ([] & ? & [_ ->]%lift_Ok & [= _ <-]). done. }
  apply M_bind_Ok in H as (v & s4 & Hv & H). pose proof (resolve_typed _ _ _ _ _ _ _ _ Hv) as [Hw Ht].
  apply resolve_shape in Hv as [(_ & Hle4 & Hk4) Hsh].
  apply M_bind_Ok in H as (budget' & s5 & [Hadd ->]%lift_Ok & H). cbv zeta in H.
  apply OutputBudget_add_Ok in Hadd as (-> & Hn & _ & Hs); [|lia]. cbn [ob_nodes ob_bytes] in Hn, Hs.
  destruct H2 as (_ & Hle2 & Hk2). cbn in Hle2, Hk2.
  assert (∀ k, rs_checks s ≤ k < rs_checks s4 → cancelled k = false) as Hk.
  { intros k Hr. destruct (decide (k < rs_checks s2)); [apply Hk2|apply Hk4]; lia. }
  assert (field_value (sr_limits request) field v) as Hfv by by unfold field_value.
  destruct (sr_first_true request && _) eqn:Estop.
  - injection H as <- <-. exists [field], fields, [v]. cbn.
    split_and!; [done|done|by constructor|right; lia|lia| |done|lia].
    right. apply andb_true_iff in Estop as [-> Etrue]. by destruct v as [|[]| | | |].
  - apply IH in H as (done_ & rest & new & -> & -> & Hf & Hn' & Hs' & Hrest & Hk' & Hle'); [|cbn; lia].
    cbn [ob_nodes ob_bytes] in Hn', Hs'. exists (field :: done_), rest, (v :: new).
    rewrite <- app_assoc. cbn [app Prelude.total]. split_and!.
    + done.
    + done.
    + by constructor.
    + right. destruct Hn' as [->|]; [change (Prelude.total json_nodes []) with 0%N|]; lia.
    + lia.
    + destruct Hrest as [|[? Hl]]; [by left|right]. split; [done|]. destruct new; [done|by rewrite last_cons_cons].
    + intros k Hr. destruct (decide (k < rs_checks s4)); [apply Hk|apply Hk']; lia.
    + lia.
Qed.

(** C25 A step that succeeds returns one value for each of its fields in order, stopping
    early only after a value that is the boolean true when asked to.  Each value has the shape of its
    template and the type of its position: a boolean for a predicate, a string where a
    string template stands in a string position, an object for the workflow output, an
    object of strings for RPC headers.  All values together stay within the node and byte
    limits, and the cancellation flag was clear at every read. *)
Theorem step_results_typed request values :
  (output_bytes (sr_limits request) <= u64_max)%N →
  run cancelled request = Ok values →
  ∃ fields rest s',
    sr_fields request = fields ++ rest ∧
    Forall2 (field_value (sr_limits request)) fields values ∧
    (values = [] ∨ (Prelude.total json_nodes values <= output_nodes (sr_limits request))%N) ∧
    (Prelude.total json_size values <= output_bytes (sr_limits request))%N ∧
    (rest = [] ∨ sr_first_true request = true ∧ last values = Some (JBool true)) ∧
    run_inner cancelled request
      {| rs_path := match sr_fields request with f :: _ => sf_path f | [] => "" end; rs_checks := 0 |} =
      (Ok values, s') ∧
    ∀ k, k < rs_checks s' → cancelled k = false.
Proof.
  intros Hu. unfold run. set (start := Build_RState _ _).
  destruct (run_inner cancelled request start) as [[vs|] s'] eqn:E; [|done]. intros [= <-].
  pose proof E as H. unfold run_inner in H.
  apply M_bind_Ok in H as ([] & s1 & H1%check_calm & H). apply M_bind_Ok in H as (bu & s2 & [_ ->]%lift_Ok & H).
  cbv zeta in H. apply M_bind_Ok in H as ([] & s3 & [_ ->]%lift_Ok & H).
  apply M_bind_Ok in H as (vs' & s4 & Hr & H). apply M_bind_Ok in H as ([] & s5 & H5%check_calm & [= -> <-]).
  apply run_fields_Ok in Hr as (fields & rest & new & Hf & -> & Hall & Hn & Hs & Hrest & Hk & Hle); [|done|cbn; lia].
  exists fields, rest, s5. split_and!; [done..|].
  destruct H1 as (_ & Hle1 & Hk1), H5 as (_ & Hle5 & Hk5). cbn in Hk1, Hle1. intros k Hlt.
  destruct (decide (k < rs_checks s1)); [apply Hk1; lia|].
  destruct (decide (k < rs_checks s4)); [apply Hk; lia|apply Hk5; lia].
Qed.
End run_facts.

Module StepInstance.
(** A printer of scalars and arrays, in pieces. *)
#[local] Instance chunks : JsonChunks :=
  fix go (j : Json) : list (list ascii) :=
    match j with
    | JBool true => [bytes "true"]
    | JBool false => [bytes "false"]
    | JString s => [quoted "'"; bytes s; quoted "'"]
    | JArray l => [bytes "["] ++ concat ((λ v, go v ++ [bytes ","]) <$> l) ++ [bytes "]"]
    | JObject m =>
        [bytes "{"] ++ concat ((λ e, [bytes e.1; bytes ":"] ++ go e.2 ++ [bytes ","]) <$> m) ++ [bytes "}"]
    | _ => [bytes "null"]
    end.

(** An engine that knows a constant and one variable. *)
#[local] Instance engine : CelEngine := {|
  Program := string;
  cel_compile source _ _ := Ok (trim source);
  cel_audit _ _ _ := Ok ();
  cel_execute program b :=
    if String.eqb program "true" then Ok (CBool true)
    else if String.eqb program "context.name"
    then match get "name" (bi_context b) with Some (JString s) => Ok (CString s) | _ => Err OtherFailure end
    else Err OtherFailure |}.

Definition request : StepRequest :=
  {| sr_bindings := {| bi_context := JObject [("name", JString "ada")]; bi_input := JNull;
                       bi_output := None; bi_value := None |};
     sr_limits := Limits_default;
     sr_fields := [{| sf_path := "/set"; sf_position := PSet;
                      sf_template := JArray [JString "hi ${context.name}!"; JBool false];
                      sf_value_from := None |};
                   {| sf_path := "/when"; sf_position := SwitchWhen;
                      sf_template := JString "${ true }"; sf_value_from := None |};
                   {| sf_path := "/never"; sf_position := SwitchWhen;
                      sf_template := JString "${ true }"; sf_value_from := None |}];
     sr_first_true := true |}.
Definition results : list Json := [JArray [JString "hi ada!"; JBool false]; JBool true].

Lemma step_results_typed_witness :
  ∃ fields rest s',
    sr_fields request = fields ++ rest ∧
    Forall2 (field_value (sr_limits request)) fields results ∧
    (results = [] ∨ (Prelude.total json_nodes results <= output_nodes (sr_limits request))%N) ∧
    (Prelude.total json_size results <= output_bytes (sr_limits request))%N ∧
    (rest = [] ∨ sr_first_true request = true ∧ last results = Some (JBool true)) ∧
    run_inner (λ _, false) request
      {| rs_path := match sr_fields request with f :: _ => sf_path f | [] => "" end; rs_checks := 0 |} =
      (Ok results, s') ∧
    ∀ k, k < rs_checks s' → (λ _ : nat, false) k = false.
Proof. apply (step_results_typed (λ _, false) request results); by vm_compute. Defined.

(** A flag set inside the first field stops the step, with the path reached. *)
Example cancelled_step :
  run (λ k, (12 <=? k)%nat) request = Err {| se_path := "/set/1"; se_error := Unavailable |}.
Proof. by vm_compute. Qed.

Lemma output_budget_exact_witness :
  for_each (λ b v, OutputBudget_add b v Limits_default) OutputBudget_new results =
    Ok {| ob_nodes := 4; ob_bytes := 22 |} ↔
  {| ob_nodes := 4; ob_bytes := 22 |} =
    {| ob_nodes := Prelude.total json_nodes results; ob_bytes := Prelude.total json_size results |} ∧
  (results = [] ∨ (Prelude.total json_nodes results <= output_nodes Limits_default)%N) ∧
  (Prelude.total json_size results <= output_bytes Limits_default)%N ∧
  Forall (λ v, json_depth v <= output_depth Limits_default)%N results.
Proof. apply (output_budget_exact results Limits_default). by vm_compute. Defined.
End StepInstance.
