(* ===== verification/ExpressionCompiler.v ===== *)
(** * Workflow expressions: the compiler

    Model of [crates/workflow-expression/src/compiler.rs]: the audit of a parsed CEL
    expression, compilation under limits, and the cache of compiled programs with the
    reference counts its eviction depends on.  The CEL parser is a class; of the syntax
    tree of the [cel] crate the model has the parts the audit reads. *)

From S2P Require Import Prelude RustStr JsonTree WorkflowExpression ExpressionStep.
From Stdlib Require Import Ascii.

(** ** Expressions *)

(** [cel::common::ast::Expr].  An entry of a map literal is [None] when it is not a
    [MapEntry]; [EOther] stands for literals and every other kind of node. *)
Inductive Expr :=
| EIdent (name : string)
| ECall (func_name : string) (target : option Expr) (args : list Expr)
| ESelect (operand : Expr)
| EList (elements : list Expr) (optional_indices : list N)
| EMap (entries : list (option (Expr * Expr * bool)))
| EComprehension (iter_range : Expr) (iter_var : string) (iter_var2 : option string)
    (accu_var : string) (accu_init loop_cond loop_step result_ : Expr)
| EStruct
| EUnspecified
| EOther.

Definition FUNCTIONS : list string :=
  ["_?_:_"; "_&&_"; "_||_"; "!_"; "@not_strictly_false"; "_+_"; "_-_"; "-_"; "_*_"; "_/_";
   "_%_"; "_==_"; "_!=_"; "_>_"; "_>=_"; "_<_"; "_<=_"; "_[_]"; "@in"; "size"; "contains";
   "startsWith"; "endsWith"; "int"; "uint"; "double"; "string"; "bytes"; "split"; "substring";
   "join"; "indexOf"; "jsonEncode"].
Definition MACROS : list string := ["map"; "filter"; "all"; "exists"; "exists_one"; "has"].

(** ** The audit *)

(** An expression still to be visited, with its depth, the comprehensions around it and
    the local variables in scope. *)
Record Work := { wk_expr : Expr; wk_depth : N; wk_nesting : N; wk_locals : list string }.

Definition map_children : list (option (Expr * Expr * bool)) → result ExpressionError (list Expr) :=
  fix go entries :=
    match entries with
    | [] => Ok []
    | None :: _ => Err (admission Unsupported)
    | Some (key, value, optional) :: rest =>
        if optional : bool then Err (admission Unsupported) else
        more ← go rest; Ok (key :: value :: more)
    end.

(** What a visited expression leaves on the stack, the next one first. *)
Definition visit (position : Position) (limits : Limits) (w : Work) :
    result ExpressionError (list Work) :=
  let locals := wk_locals w in
  let below scope nesting e :=
    {| wk_expr := e; wk_depth := (wk_depth w + 1)%N; wk_nesting := nesting; wk_locals := scope |} in
  let same := fmap (below locals (wk_nesting w)) in
  match wk_expr w with
  | EIdent name =>
      if negb (allows position name) && negb (bool_decide (name ∈ locals))
      then Err (admission Invalid) else Ok []
  | ECall func_name target args =>
      if bool_decide (func_name ∈ MACROS) then Err (admission Invalid) else
      if negb (bool_decide (func_name ∈ FUNCTIONS)) then Err (admission Unsupported) else
      Ok (same (option_list target ++ args))
  | ESelect operand => Ok (same [operand])
  | EList elements optional_indices =>
      if negb (bool_decide (optional_indices = [])) then Err (admission Unsupported)
      else Ok (same elements)
  | EMap entries => same <$> map_children entries
  | EComprehension iter_range iter_var iter_var2 accu_var accu_init loop_cond loop_step result_ =>
      if (comprehension_depth limits <=? wk_nesting w)%N then Err (admission Limit) else
      let result_scope := locals ++ [accu_var] in
      let loop_scope := result_scope ++ [iter_var] ++ option_list iter_var2 in
      let inner scope := below scope (wk_nesting w + 1)%N in
      Ok [inner locals iter_range; inner locals accu_init; inner loop_scope loop_cond;
          inner loop_scope loop_step; inner result_scope result_]
  | EStruct | EUnspecified => Err (admission Unsupported)
  | EOther => Ok []
  end.

Fixpoint audit_loop (fuel : nat) (position : Position) (limits : Limits) (todo : list Work)
    (nodes : N) : option (result ExpressionError N) :=
  match fuel with
  | O => None
  | S fuel =>
      match todo with
      | [] => Some (Ok nodes)
      | w :: rest =>
          let nodes := (nodes + 1)%N in
          if (ast_nodes limits <? nodes)%N || (ast_depth limits <? wk_depth w)%N
          then Some (Err (admission Limit)) else
          match visit position limits w with
          | Err e => Some (Err e)
          | Ok children => audit_loop fuel position limits (children ++ rest) nodes
          end
      end
  end.

(** The number of nodes of an expression. *)
Fixpoint expr_nodes (e : Expr) : N :=
  (1 + match e with
       | ECall _ target args =>
           match target with Some t => expr_nodes t | None => 0 end
           + Prelude.total expr_nodes args
       | ESelect operand => expr_nodes operand
       | EList elements _ => Prelude.total expr_nodes elements
       | EMap entries =>
           Prelude.total (λ entry,
             match entry with Some (k, v, _) => expr_nodes k + expr_nodes v | None => 0 end) entries
       | EComprehension r _ _ _ i c s res =>
           expr_nodes r + expr_nodes i + expr_nodes c + expr_nodes s + expr_nodes res
       | _ => 0
       end)%N.

(** Each turn of the loop takes one node off the stack. *)
Definition audit (root : Expr) (position : Position) (limits : Limits) :
    option (result ExpressionError N) :=
  audit_loop (S (N.to_nat (expr_nodes root))) position limits
    [{| wk_expr := root; wk_depth := 1; wk_nesting := 0; wk_locals := [] |}] 0.

(** [audit] never runs out of fuel. *)
Definition audited (root : Expr) (position : Position) (limits : Limits) :
    result ExpressionError N :=
  default (Err (admission Limit)) (audit root position limits).

(** ** Compilation *)

(** [cel::Program::compile] and the expression of the program. *)
Class CelParser := cel_parse : string → option Expr.

(** A compiled program, with the identity of the shared allocation that holds it. *)
Record Compiled := {
  cp_id : N;
  cp_program : Expr;
  cp_position : Position;
  cp_limits : Limits;
}.

(** [compile_with_limits], up to the allocation. *)
Definition compile_with_limits `{!CelParser} (source : string) (position : Position)
    (limits : Limits) : result ExpressionError Expr :=
  if (source_bytes limits <? slen source)%N then Err (admission Limit) else
  program ← ok_or (admission Invalid) (cel_parse source);
  _ ← audited program position limits;
  Ok program.

(** ** The cache *)

Record Entry := { en_profile : Profile; en_hash : string; en_id : N; en_program : Expr; en_bytes : N }.
Record CompileCache := {
  cc_entries : list Entry;
  cc_retired : list Entry;
  cc_bytes : N;
  cc_max_entries : N;
  cc_max_bytes : N;
}.

Definition MAX_ENTRIES : N := 128.
Definition MAX_BYTES : N := 16777216.

Definition with_budget (max_entries max_bytes : N) : CompileCache :=
  {| cc_entries := []; cc_retired := []; cc_bytes := 0;
     cc_max_entries := N.min max_entries MAX_ENTRIES; cc_max_bytes := N.min max_bytes MAX_BYTES |}.
Definition CompileCache_new : CompileCache := with_budget MAX_ENTRIES MAX_BYTES.

Definition set_retired (c : CompileCache) (retired : list Entry) (bytes : N) : CompileCache :=
  {| cc_entries := cc_entries c; cc_retired := retired; cc_bytes := bytes;
     cc_max_entries := cc_max_entries c; cc_max_bytes := cc_max_bytes c |}.
Definition cache_len (c : CompileCache) : N :=
  N.of_nat (length (cc_entries c) + length (cc_retired c)).

(** [Vec::swap_remove]. *)
Definition swap_remove {A} (i : nat) (l : list A) : list A :=
  match last l with
  | Some x => take (length l - 1) (<[i := x]> l)
  | None => l
  end.

Section cache.
(** The programs that something outside the cache holds: an entry is the only owner of
    its program, [Rc::strong_count] of one, exactly when it is not among them. *)
Context {CP : CelParser} {sha : Sha256} (held : N → bool).

Fixpoint collect_loop (fuel : nat) (i : nat) (retired : list Entry) (bytes : N) : list Entry * N :=
  match fuel with
  | O => (retired, bytes)
  | S fuel =>
      match retired !! i with
      | None => (retired, bytes)
      | Some entry =>
          if held (en_id entry) then collect_loop fuel (S i) retired bytes
          else collect_loop fuel i (swap_remove i retired) (wrap_sub u64_max bytes (en_bytes entry))
      end
  end.
(** Every turn either moves on or shortens the list. *)
Definition collect (c : CompileCache) : CompileCache :=
  let '(retired, bytes) := collect_loop (length (cc_retired c)) 0 (cc_retired c) (cc_bytes c) in
  set_retired c retired bytes.

(** What an entry with this many nodes is charged. *)
Definition entry_bytes (nodes : N) (source : string) : N :=
  sat_add u64_max
    (sat_mul u64_max nodes (sat_add u64_max 512 (sat_mul u64_max (slen source) 4))) 256.

Definition over_budget (c : CompileCache) (bytes : N) : bool :=
  (cc_max_entries c <=? cache_len c)%N || (cc_max_bytes c <? cc_bytes c + bytes)%N.

(** The eviction loop; each turn takes an entry from the front. *)
Fixpoint evict (fuel : nat) (c : CompileCache) (bytes : N) : CompileCache :=
  match fuel with
  | O => c
  | S fuel =>
      if over_budget c bytes then
        match cc_entries c with
        | [] => c
        | entry :: rest =>
            evict fuel
              (collect {| cc_entries := rest; cc_retired := cc_retired c ++ [entry];
                          cc_bytes := cc_bytes c; cc_max_entries := cc_max_entries c;
                          cc_max_bytes := cc_max_bytes c |}) bytes
        end
      else c
  end.

Definition matches_source (profile : Profile) (source : string) (entry : Entry) : bool :=
  bool_decide (en_profile entry = profile) && bool_decide (en_hash entry = sha256_hex (bytes source)).

(** [CompileCache::compile_with_limits]; [id] is the allocation of a new program. *)
Definition cache_compile (c : CompileCache) (id : N) (profile : Profile) (source : string)
    (position : Position) (limits : Limits) : CompileCache * result ExpressionError Compiled :=
  let c := collect c in
  if negb (bool_decide (profile = CelWorkflowV2)) then (c, Err (admission ProfileUnsupported)) else
  if (source_bytes limits <? slen source)%N then (c, Err (admission Limit)) else
  match List.find (matches_source profile source) (cc_entries c) with
  | Some entry =>
      (c, _ ← audited (en_program entry) position limits;
          Ok {| cp_id := en_id entry; cp_program := en_program entry; cp_position := position;
                cp_limits := limits |})
  | None =>
      match (program ← compile_with_limits source position limits;
             nodes ← audited program position limits; Ok (program, nodes)) with
      | Err e => (c, Err e)
      | Ok (program, nodes) =>
          let compiled := {| cp_id := id; cp_program := program; cp_position := position;
                             cp_limits := limits |} in
          let bytes := entry_bytes nodes source in
          if (0 <? cc_max_entries c)%N && (bytes <=? cc_max_bytes c)%N then
            let c := evict (length (cc_entries c)) c bytes in
            if over_budget c bytes then (c, Ok compiled) else
            ({| cc_entries := cc_entries c ++
                  [{| en_profile := profile; en_hash := sha256_hex (RustStr.bytes source);
                      en_id := id; en_program := program; en_bytes := bytes |}];
                cc_retired := cc_retired c; cc_bytes := (cc_bytes c + bytes)%N;
                cc_max_entries := cc_max_entries c; cc_max_bytes := cc_max_bytes c |},
             Ok compiled)
          else (c, Ok compiled)
      end
  end.
End cache.
