(* ===== verification/ExpressionCompilerFacts.v ===== *)
(** * Workflow expressions: theorems about the compiler

    The audit accepts exactly the well-scoped expressions within the limits, compilation
    through the cache gives what compilation without it gives, and the cache stays within
    its budgets.  The compiler implements the interface the step resolver relies on. *)

From S2P Require Import Prelude RustStr JsonTree WorkflowExpression ExpressionStep ExpressionCompiler.
From Stdlib Require Import Ascii.

(** ** What the audit accepts *)

Definition maximum {A} (f : A → N) (l : list A) : N := foldr (λ x m, N.max (f x) m) 0%N l.

(** The nesting of an expression, and of the comprehensions in it. *)
Fixpoint expr_depth (e : Expr) : N :=
  (1 + match e with
       | ECall _ target args =>
           N.max match target with Some t => expr_depth t | None => 0 end (maximum expr_depth args)
       | ESelect operand => expr_depth operand
       | EList elements _ => maximum expr_depth elements
       | EMap entries =>
           maximum (λ entry, match entry with
                             | Some (k, v, _) => N.max (expr_depth k) (expr_depth v)
                             | None => 0
                             end) entries
       | EComprehension r _ _ _ i c s res =>
           maximum (λ n, n) [expr_depth r; expr_depth i; expr_depth c; expr_depth s; expr_depth res]
       | _ => 0
       end)%N.

Fixpoint comprehensions (e : Expr) : N :=
  match e with
  | ECall _ target args =>
      N.max match target with Some t => comprehensions t | None => 0 end
        (maximum comprehensions args)
  | ESelect operand => comprehensions operand
  | EList elements _ => maximum comprehensions elements
  | EMap entries =>
      maximum (λ entry, match entry with
                        | Some (k, v, _) => N.max (comprehensions k) (comprehensions v)
                        | None => 0
                        end) entries
  | EComprehension r _ _ _ i c s res =>
      1 + maximum (λ n, n) [comprehensions r; comprehensions i; comprehensions c; comprehensions s;
                            comprehensions res]
  | _ => 0
  end%N.

(** Expressions that use only the variables of their position and of the comprehensions
    around them, only the known functions, and no optional elements. *)
Inductive scoped (p : Position) : list string → Expr → Prop :=
| scoped_ident locals x : allows p x = true ∨ x ∈ locals → scoped p locals (EIdent x)
| scoped_call locals f t args :
    f ∈ FUNCTIONS → (∀ e, e ∈ option_list t ++ args → scoped p locals e) →
    scoped p locals (ECall f t args)
| scoped_select locals e : scoped p locals e → scoped p locals (ESelect e)
| scoped_list locals l : (∀ e, e ∈ l → scoped p locals e) → scoped p locals (EList l [])
| scoped_map locals entries :
    (∀ k v, (k, v) ∈ entries → scoped p locals k ∧ scoped p locals v) →
    scoped p locals (EMap ((λ e, Some (e.1, e.2, false)) <$> entries))
| scoped_comprehension locals r x y a i c s res :
    scoped p locals r → scoped p locals i →
    scoped p (locals ++ [a] ++ [x] ++ option_list y) c →
    scoped p (locals ++ [a] ++ [x] ++ option_list y) s →
    scoped p (locals ++ [a]) res →
    scoped p locals (EComprehension r x y a i c s res)
| scoped_other locals : scoped p locals EOther.

Lemma maximum_cons {A} (f : A → N) x l : maximum f (x :: l) = N.max (f x) (maximum f l).
Proof. done. Qed.

Lemma maximum_le {A} (f : A → N) l n : (maximum f l <= n)%N ↔ ∀ x, x ∈ l → (f x <= n)%N.
Proof.
  induction l as [|y l IH].
  { split; [intros _ x Hx; by apply elem_of_nil in Hx|]. intros _. apply N.le_0_l. }
  rewrite maximum_cons. split.
  - intros H x [->|Hx]%elem_of_cons; [lia|]. apply IH; [lia|done].
  - intros H. pose proof (H y ltac:(left)). apply N.max_lub; [done|]. apply IH.
    intros x Hx. apply H. by right.
Qed.

(** What is left to do for an item of the stack. *)
Definition admissible (p : Position) (l : Limits) (w : Work) : Prop :=
  scoped p (wk_locals w) (wk_expr w) ∧
  (wk_depth w + expr_depth (wk_expr w) <= ast_depth l + 1)%N ∧
  (comprehensions (wk_expr w) = 0%N ∨
   (wk_nesting w + comprehensions (wk_expr w) <= comprehension_depth l)%N).

Lemma map_children_Ok entries out :
  map_children entries = Ok out →
  ∃ kvs : list (Expr * Expr), entries = (λ e, Some (e.1, e.2, false)) <$> kvs ∧
    out = kvs ≫= λ e, [e.1; e.2].
Proof.
  revert out. induction entries as [|[[[k v] []]|] entries IH]; intros out H; try done.
  { injection H as <-. by exists []. }
  apply bind_Ok in H as (more & Hm & [= <-]). apply IH in Hm as (kvs & -> & ->).
  by exists ((k, v) :: kvs).
Qed.

Lemma map_children_fmap (kvs : list (Expr * Expr)) :
  map_children ((λ e, Some (e.1, e.2, false)) <$> kvs) = Ok (kvs ≫= λ e, [e.1; e.2]).
Proof.
  induction kvs as [|[k v] kvs IH]; [done|]. cbn [fmap list_fmap]. cbn. by rewrite IH.
Qed.
Lemma maximum_app {A} (f : A → N) l1 l2 : maximum f (l1 ++ l2) = N.max (maximum f l1) (maximum f l2).
Proof. induction l1 as [|x l1 IH]; [symmetry; apply N.max_0_l|]. cbn [app]. rewrite !maximum_cons, IH. lia. Qed.

(** Work below an item that stays in its scope. *)
Definition below (w : Work) (e : Expr) : Work :=
  {| wk_expr := e; wk_depth := wk_depth w + 1; wk_nesting := wk_nesting w; wk_locals := wk_locals w |}%N.

Lemma admissible_below p l w es :
  (wk_depth w <= ast_depth l)%N →
  Forall (admissible p l) (below w <$> es) ↔
  (∀ e, e ∈ es → scoped p (wk_locals w) e) ∧
  (wk_depth w + maximum expr_depth es <= ast_depth l)%N ∧
  (maximum comprehensions es = 0%N ∨
   (wk_nesting w + maximum comprehensions es <= comprehension_depth l)%N).
Proof.
  intros Hd. induction es as [|e es IH].
  { split; [|by intros _; constructor]. intros _. change (maximum _ []) with 0%N.
    split_and!; [intros e He; by apply elem_of_nil in He|cbn; lia|by left]. }
  cbn [fmap list_fmap]. rewrite Forall_cons. cbn [fmap] in IH. rewrite IH.
  rewrite !maximum_cons. unfold admissible at 1. cbn [below wk_expr wk_locals wk_depth wk_nesting].
  setoid_rewrite elem_of_cons. split.
  - intros [(He & Hde & Hc) (Hes & Hds & Hcs)]. split_and!; [naive_solver|lia|]. lia.
  - intros (Hes & Hds & Hcs). split_and!; [naive_solver|lia|lia|naive_solver|lia|lia].
Qed.

(** The expressions directly below an expression. *)
Definition children (e : Expr) : list Expr :=
  match e with
  | ECall _ t args => option_list t ++ args
  | ESelect o => [o]
  | EList l _ => l
  | EMap entries => entries ≫= λ e, match e with Some (k, v, _) => [k; v] | None => [] end
  | EComprehension r _ _ _ i c s res => [r; i; c; s; res]
  | _ => []
  end.

Lemma maximum_bind {A B} (f : B → N) (g : A → list B) l :
  maximum f (l ≫= g) = maximum (λ x, maximum f (g x)) l.
Proof. induction l as [|x l IH]; [done|]. rewrite bind_cons, maximum_app, IH. done. Qed.

Lemma maximum_ext {A} (f g : A → N) l : (∀ x, f x = g x) → maximum f l = maximum g l.
Proof. intros H. induction l as [|x l IH]; [done|]. by rewrite !maximum_cons, H, IH. Qed.

Lemma expr_nodes_children e : expr_nodes e = (1 + Prelude.total expr_nodes (children e))%N.
Proof.
  destruct e as [x|f [t|] args|o|l oi|entries|r x y a i c s res| | |];
    cbn [expr_nodes children]; unfold option_list; cbn [option_rect app Prelude.total]; try lia.
  rewrite total_bind. f_equal. apply total_ext. intros [[[k v] ?]|]; cbn [Prelude.total]; lia.
Qed.

Lemma expr_depth_children e : expr_depth e = (1 + maximum expr_depth (children e))%N.
Proof.
  destruct e as [x|f [t|] args|o|l oi|entries|r x y a i c s res| | |];
    cbn [expr_depth children]; unfold option_list; cbn [option_rect app]; rewrite ?maximum_cons; try done.
  - by rewrite N.max_0_l.
  - change (maximum _ []) with 0%N. lia.
  - rewrite maximum_bind. f_equal. apply maximum_ext. intros [[[k v] ?]|]; rewrite ?maximum_cons; [|done].
    change (maximum _ []) with 0%N. lia.
Qed.

Lemma comprehensions_children e :
  comprehensions e =
    (match e with EComprehension _ _ _ _ _ _ _ _ => 1 | _ => 0 end +
     maximum comprehensions (children e))%N.
Proof.
  destruct e as [x|f [t|] args|o|l oi|entries|r x y a i c s res| | |];
    cbn [comprehensions children]; unfold option_list; cbn [option_rect app]; rewrite ?maximum_cons, ?N.add_0_l; try done.
  - by rewrite N.max_0_l.
  - change (maximum _ []) with 0%N. lia.
  - rewrite maximum_bind. apply maximum_ext. intros [[[k v] ?]|]; rewrite ?maximum_cons; [|done].
    change (maximum _ []) with 0%N. lia.
Qed.

Lemma functions_not_macros f : f ∈ FUNCTIONS → f ∉ MACROS.
Proof. unfold FUNCTIONS, MACROS. set_solver. Qed.

(** A node that does not change the scope: its own condition and its children. *)
Lemma admissible_plain p l w (own : Prop) :
  (wk_depth w <= ast_depth l)%N →
  match wk_expr w with EComprehension _ _ _ _ _ _ _ _ => False | _ => True end →
  (scoped p (wk_locals w) (wk_expr w) ↔
     own ∧ ∀ e, e ∈ children (wk_expr w) → scoped p (wk_locals w) e) →
  admissible p l w ↔ own ∧ Forall (admissible p l) (below w <$> children (wk_expr w)).
Proof.
  intros Hd Hplain Hs. rewrite admissible_below by done. unfold admissible.
  rewrite Hs, expr_depth_children, comprehensions_children.
  destruct (wk_expr w); try done; rewrite ?N.add_0_l; intuition lia.
Qed.

(** A comprehension: its condition and its parts, each in its own scope. *)
Lemma visit_comprehension p l w r x y a i c s res :
  wk_expr w = EComprehension r x y a i c s res → (wk_depth w <= ast_depth l)%N →
  admissible p l w ↔ ∃ ch, visit p l w = Ok ch ∧ Forall (admissible p l) ch.
Proof.
  intros He Hd. unfold visit. rewrite He. cbv zeta.
  destruct (N.leb_spec (comprehension_depth l) (wk_nesting w)) as [Hn|Hn].
  { split; [|by intros (ch & ? & _)]. intros (_ & _ & Hc). rewrite He, comprehensions_children in Hc. lia. }
  transitivity (Forall (admissible p l)
    [{| wk_expr := r; wk_depth := wk_depth w + 1; wk_nesting := wk_nesting w + 1; wk_locals := wk_locals w |};
     {| wk_expr := i; wk_depth := wk_depth w + 1; wk_nesting := wk_nesting w + 1; wk_locals := wk_locals w |};
     {| wk_expr := c; wk_depth := wk_depth w + 1; wk_nesting := wk_nesting w + 1;
        wk_locals := (wk_locals w ++ [a]) ++ [x] ++ option_list y |};
     {| wk_expr := s; wk_depth := wk_depth w + 1; wk_nesting := wk_nesting w + 1;
        wk_locals := (wk_locals w ++ [a]) ++ [x] ++ option_list y |};
     {| wk_expr := res; wk_depth := wk_depth w + 1; wk_nesting := wk_nesting w + 1;
        wk_locals := wk_locals w ++ [a] |}]%N); [|split; [intros H; by eexists|by intros (ch & [= <-] & H)]].
  unfold admissible at 1. rewrite He, expr_depth_children, comprehensions_children.
  cbn [children]. rewrite !maximum_cons. change (maximum _ []) with 0%N.
  rewrite !Forall_cons. unfold admissible. cbn [wk_expr wk_locals wk_depth wk_nesting].
  rewrite <- (assoc_L (++)). split.
  - intros (Hs & Hde & Hc). inversion Hs; subst. split_and!; try done; try lia; by constructor.
  - intros ((?&?&?) & (?&?&?) & (?&?&?) & (?&?&?) & (?&?&?) & _). split_and!; [by constructor|lia|lia].
Qed.

Lemma children_map (kvs : list (Expr * Expr)) :
  children (EMap ((λ e, Some (e.1, e.2, false)) <$> kvs)) = kvs ≫= λ e, [e.1; e.2].
Proof.
  induction kvs as [|[k v] kvs IH]; [done|]. cbn [children fmap list_fmap] in *.
  rewrite !bind_cons. by f_equal.
Qed.

Lemma scoped_map_iff p locals entries :
  scoped p locals (EMap entries) ↔
  (∃ kvs : list (Expr * Expr), entries = (λ e, Some (e.1, e.2, false)) <$> kvs) ∧
  ∀ e, e ∈ children (EMap entries) → scoped p locals e.
Proof.
  split.
  - inversion 1; subst. split; [by eexists|]. intros e. rewrite children_map, list_elem_of_bind.
    intros ([k v] & He & Hkv). apply H2 in Hkv as [? ?]. set_solver.
  - intros [[kvs ->] H]. constructor. intros k v Hkv. rewrite children_map in H.
    split; apply H; apply list_elem_of_bind; exists (k, v); set_solver.
Qed.

Lemma visit_spec p l w :
  (wk_depth w <= ast_depth l)%N →
  admissible p l w ↔ ∃ ch, visit p l w = Ok ch ∧ Forall (admissible p l) ch.
Proof.
  intros Hd. assert (Hplain := λ own, admissible_plain p l w own Hd).
  destruct (wk_expr w) as [x|f t args|o|es oi|entries|r x y a i c s res| | |] eqn:He;
    [| | | | |by eapply visit_comprehension| | |]; unfold visit; rewrite He; cbv zeta.
  - rewrite (Hplain (allows p x = true ∨ x ∈ wk_locals w) I).
    2:{ split; [inversion 1; split; [done|set_solver]|intros [? _]; by constructor]. }
    cbn [children fmap list_fmap].
    destruct (allows p x) eqn:Ha; cbn [negb andb]; [naive_solver|].
    case_bool_decide; naive_solver.
  - rewrite (Hplain (f ∈ FUNCTIONS) I).
    2:{ split; [by inversion 1|intros [? ?]; by constructor]. }
    pose proof (functions_not_macros f). repeat case_bool_decide; naive_solver.
  - rewrite (Hplain True I).
    2:{ split; [inversion 1; split; [done|]; set_solver|intros [_ H]; constructor; apply H; left]. }
    naive_solver.
  - rewrite (Hplain (oi = []) I).
    2:{ split; [by inversion 1|intros [-> ?]; by constructor]. }
    case_bool_decide; naive_solver.
  - rewrite (Hplain _ I (scoped_map_iff _ _ _)). split.
    + intros [[kvs ->] H]. rewrite children_map in H. rewrite map_children_fmap. by eexists.
    + intros (ch & Hv & Hch). destruct (map_children entries) as [out|] eqn:Em; [|done].
      injection Hv as <-. apply map_children_Ok in Em as (kvs & -> & ->).
      split; [by exists kvs|]. by rewrite children_map.
  - split; [intros (Hs & _)|naive_solver]. rewrite He in Hs. inversion Hs.
  - split; [intros (Hs & _)|naive_solver]. rewrite He in Hs. inversion Hs.
  - rewrite (Hplain True I).
    2:{ split; [intros _; split; [done|]; set_solver|intros _; constructor]. }
    naive_solver.
Qed.

(** Visiting an expression replaces it by what is below it. *)
Lemma visit_children p l w ch :
  visit p l w = Ok ch → wk_expr <$> ch = children (wk_expr w).
Proof.
  unfold visit. cbv zeta. destruct (wk_expr w) as [x|f t args|o|es oi|entries|r x y a i c s res| | |]; intros H.
  - case_match; [done|]. by injection H as <-.
  - repeat (case_match; [done|]). injection H as <-. rewrite <- list_fmap_compose. apply list_fmap_id.
  - by injection H as <-.
  - case_match; [done|]. injection H as <-. rewrite <- list_fmap_compose. apply list_fmap_id.
  - destruct (map_children entries) as [out|] eqn:Em; [|done]. injection H as <-.
    apply map_children_Ok in Em as (kvs & -> & ->). rewrite children_map, <- list_fmap_compose. apply list_fmap_id.
  - case_match; [done|]. by injection H as <-.
  - done.
  - done.
  - by injection H as <-.
Qed.

Lemma visit_nodes p l w ch :
  visit p l w = Ok ch →
  expr_nodes (wk_expr w) = (1 + Prelude.total (λ w, expr_nodes (wk_expr w)) ch)%N.
Proof.
  intros H%visit_children. by rewrite expr_nodes_children, <- H, total_fmap.
Qed.

Lemma visit_Err p l w e : visit p l w = Err e → ee_phase e = Admission.
Proof.
  unfold visit. cbv zeta. destruct (wk_expr w) as [x|f t args|o|es oi|entries|r x y a i c s res| | |]; intros H;
    repeat (case_match; [by simplify_eq|]); try by simplify_eq.
  revert H. destruct (map_children entries) as [|e'] eqn:Em; [done|]. intros [= <-].
  induction entries as [|[[[k v] []]|] entries IH]; cbn in Em; try by simplify_eq.
  apply IH. by destruct (map_children entries).
Qed.

Lemma audit_loop_spec fuel p l todo nodes :
  N.to_nat (Prelude.total (λ w, expr_nodes (wk_expr w)) todo) < fuel →
  ∃ r, audit_loop fuel p l todo nodes = Some r ∧
    (∀ e, r = Err e → ee_phase e = Admission) ∧
    ∀ n, r = Ok n ↔ n = (nodes + Prelude.total (λ w, expr_nodes (wk_expr w)) todo)%N ∧
      (todo = [] ∨ (n <= ast_nodes l)%N) ∧ Forall (admissible p l) todo.
Proof.
  revert todo nodes. induction fuel as [|fuel IH]; intros todo nodes Hf; [lia|]. cbn [audit_loop].
  destruct todo as [|w rest].
  { eexists. split_and!; [done|done|]. intros n. cbn [Prelude.total]. split.
    - intros [= <-]. split_and!; [lia|by left|constructor].
    - intros (-> & _). f_equal. lia. }
  cbn [Prelude.total] in *. pose proof (expr_nodes_children (wk_expr w)) as Hn.
  destruct (N.ltb_spec (ast_nodes l) (nodes + 1)) as [Hl|Hl];
    [|destruct (N.ltb_spec (ast_depth l) (wk_depth w)) as [Hd|Hd]]; cbn [orb].
  - eexists. split_and!; [done|by intros e [= <-]|]. intros n. split; [done|]. intros (-> & [?|?] & _); [done|lia].
  - eexists. split_and!; [done|by intros e [= <-]|]. intros n. split; [done|].
    intros (_ & _ & [(_ & H & _) _]%Forall_cons). rewrite expr_depth_children in H. lia.
  - pose proof (visit_spec p l w Hd) as Hv. destruct (visit p l w) as [ch|e] eqn:Ev.
    + pose proof (visit_nodes _ _ _ _ Ev) as Hw.
      destruct (IH (ch ++ rest) (nodes + 1)%N) as (r & Hr & He & Hok).
      { rewrite total_app. lia. }
      exists r. split_and!; [done|done|]. intros n. rewrite Hok, total_app, Forall_app, Forall_cons, Hv, Hw.
      split.
      * intros (-> & Hlim & Hch & Hrest). split_and!; [lia| |by eexists|done]. right.
        destruct Hlim as [[-> ->]%app_eq_nil|]; [cbn; lia|lia].
      * intros (-> & Hlim & (ch' & [= <-] & Hch) & Hrest). split_and!; [lia| |done|done]. right.
        destruct Hlim; [done|lia].
    + eexists. split_and!; [done|intros e' [= <-]; by eapply visit_Err|].
      intros n. split; [done|]. intros (_ & _ & [Ha _]%Forall_cons). apply Hv in Ha as (? & ? & _). done.
Qed.

(** C27 The audit returns on every expression, and accepts exactly those in which every
    variable belongs to the position or to a comprehension around it, every call is to a
    known function, nothing is optional and no node is a message or unspecified, and whose nodes, nesting and nested
    comprehensions are within the limits; it then gives the number of nodes.  Whatever it
    refuses is an admission error. *)
Theorem audit_well_scoped root p l :
  ∃ r, audit root p l = Some r ∧ audited root p l = r ∧
    (∀ e, r = Err e → ee_phase e = Admission) ∧
    ∀ n, r = Ok n ↔ n = expr_nodes root ∧ scoped p [] root ∧
      (expr_nodes root <= ast_nodes l)%N ∧ (expr_depth root <= ast_depth l)%N ∧
      (comprehensions root <= comprehension_depth l)%N.
Proof.
  unfold audited, audit.
  destruct (audit_loop_spec (S (N.to_nat (expr_nodes root))) p l
    [{| wk_expr := root; wk_depth := 1; wk_nesting := 0; wk_locals := [] |}] 0) as (r & Hr & He & Hok).
  { cbn [Prelude.total wk_expr]. lia. }
  exists r. rewrite Hr. split_and!; [done|done|done|]. intros n. rewrite Hok.
  cbn [Prelude.total wk_expr]. rewrite N.add_0_l, N.add_0_r, Forall_singleton. unfold admissible. cbn [wk_expr wk_locals wk_depth wk_nesting].
  split.
  - intros (-> & [?|?] & Hs & Hd & Hc); [done|]. split_and!; [done|done|done|lia|lia].
  - intros (-> & Hs & Hn & Hd & Hc). split_and!; [done|by right|done|lia|lia].
Qed.

(** ** The cache *)

Lemma swap_remove_perm {A} (l : list A) i e : l !! i = Some e → l ≡ₚ e :: swap_remove i l.
Proof.
  intros Hi. unfold swap_remove. destruct (last l) as [x|] eqn:Hx; [|by apply last_None in Hx as ->].
  apply last_Some in Hx as (l' & ->). rewrite length_app. cbn [length].
  replace (length l' + 1 - 1) with (length l') by lia.
  destruct (decide (i < length l')) as [Hlt|Hge].
  - rewrite insert_app_l, take_app_length' by (rewrite ?length_insert; lia).
    rewrite lookup_app_l in Hi by done. rewrite <- (take_drop_middle l' i e Hi) at 1.
    rewrite insert_take_drop by done. solve_Permutation.
  - assert (i = length l') as -> by (apply lookup_lt_Some in Hi; rewrite length_app in Hi; cbn in Hi; lia).
    rewrite list_lookup_middle in Hi by done. injection Hi as <-.
    rewrite insert_app_r_alt, Nat.sub_diag, take_app_length by lia. solve_Permutation.
Qed.

Lemma collect_loop_spec held fuel i retired bytes r b :
  collect_loop held fuel i retired bytes = (r, b) →
  (Prelude.total en_bytes retired <= bytes <= u64_max)%N →
  ∃ gone, retired ≡ₚ r ++ gone ∧ (bytes = b + Prelude.total en_bytes gone)%N ∧
    Forall (λ e, held (en_id e) = false) gone.
Proof.
  revert i retired bytes. induction fuel as [|fuel IH]; intros i retired bytes; cbn [collect_loop].
  { intros [= <- <-] _. exists []. rewrite app_nil_r. split_and!; [done|cbn; lia|done]. }
  destruct (retired !! i) as [e|] eqn:Hi.
  2:{ intros [= <- <-] _. exists []. rewrite app_nil_r. split_and!; [done|cbn; lia|done]. }
  destruct (held (en_id e)) eqn:Hh; [by apply IH|].
  intros H Hb. pose proof (swap_remove_perm _ _ _ Hi) as Hp.
  pose proof (total_perm en_bytes _ _ Hp) as Ht. cbn [Prelude.total] in Ht.
  rewrite wrap_sub_small in H by lia. apply IH in H as (gone & Hg & Hgb & Hf); [|lia].
  exists (e :: gone). split_and!; [rewrite Hp, Hg; solve_Permutation|cbn; lia|by constructor].
Qed.

Section cache_facts.
Context {CP : CelParser} {sha : Sha256}.

(** Every program the cache is charged for. *)
Definition all_entries (c : CompileCache) : list Entry := cc_entries c ++ cc_retired c.

(** An entry holds the program of a source with its digest. *)
Definition genuine (e : Entry) : Prop :=
  ∃ source, en_hash e = sha256_hex (bytes source) ∧ cel_parse source = Some (en_program e).

Record cache_ok (next : N) (c : CompileCache) : Prop := {
  ok_bytes : cc_bytes c = Prelude.total en_bytes (all_entries c);
  ok_max_bytes : (cc_bytes c <= cc_max_bytes c <= MAX_BYTES)%N;
  ok_max_entries : (cache_len c <= cc_max_entries c <= MAX_ENTRIES)%N;
  ok_ids : NoDup (en_id <$> all_entries c);
  ok_fresh : Forall (λ e, en_id e < next)%N (all_entries c);
  ok_genuine : Forall genuine (all_entries c);
}.

(** [c'] has some of the entries of [c], with all that are held and still live. *)
Record shrinks (held : N → bool) (c c' : CompileCache) : Prop := {
  sh_gone : ∃ gone, all_entries c ≡ₚ all_entries c' ++ gone ∧
    (cc_bytes c = cc_bytes c' + Prelude.total en_bytes gone)%N ∧
    Forall (λ e, held (en_id e) = false) gone;
  sh_max_bytes : cc_max_bytes c' = cc_max_bytes c;
  sh_max_entries : cc_max_entries c' = cc_max_entries c;
  sh_entries : cc_entries c' `suffix_of` cc_entries c;
}.

Lemma shrinks_refl held c : shrinks held c c.
Proof. split; [|done..]. exists []. rewrite app_nil_r. split_and!; [done|cbn; lia|done]. Qed.

Lemma shrinks_trans held c1 c2 c3 : shrinks held c1 c2 → shrinks held c2 c3 → shrinks held c1 c3.
Proof.
  intros [(g1 & Hp1 & Hb1 & Hf1) Hmb1 Hme1 He1] [(g2 & Hp2 & Hb2 & Hf2) Hmb2 Hme2 He2].
  split; [|congruence|congruence|by etrans]. exists (g2 ++ g1). rewrite total_app. split_and!; [|lia|by apply Forall_app].
  rewrite Hp1, Hp2. solve_Permutation.
Qed.

Lemma shrinks_ok next held c c' : cache_ok next c → shrinks held c c' → cache_ok next c'.
Proof.
  intros [Hb Hmb Hme Hid Hfr Hg] [(gone & Hp & Hbg & _) Hmb' Hme' _].
  pose proof (total_perm en_bytes _ _ Hp) as Ht. rewrite total_app in Ht.
  assert (Hl : length (all_entries c) = length (all_entries c') + length gone) by (rewrite Hp; apply length_app).
  unfold cache_len, all_entries in *. rewrite !length_app in Hl.
  rewrite Hp in Hid, Hfr, Hg. rewrite fmap_app in Hid. apply NoDup_app in Hid as (Hid & _ & _).
  apply Forall_app in Hfr as [Hfr _]. apply Forall_app in Hg as [Hg _].
  split; unfold cache_len, all_entries; [lia|lia|lia|done|done|done].
Qed.

Lemma shrinks_kept held c c' e :
  shrinks held c c' → e ∈ all_entries c → held (en_id e) = true → e ∈ all_entries c'.
Proof.
  intros [(gone & Hp & _ & Hf) _ _ _]. rewrite Hp, elem_of_app. intros [?|He] Hh; [done|].
  rewrite Forall_forall in Hf. apply Hf in He. congruence.
Qed.

Lemma collect_shrinks next held c : cache_ok next c → shrinks held c (collect held c).
Proof.
  intros [Hb Hmb _ _ _ _]. unfold collect. destruct (collect_loop _ _ _ _ _) as [r b] eqn:E.
  apply collect_loop_spec in E as (gone & Hp & Hbg & Hf).
  2:{ unfold all_entries in Hb. rewrite total_app in Hb. unfold MAX_BYTES in Hmb. unfold u64_max. lia. }
  split; cbn; [|done..]. exists gone. split_and!; [|lia|done]. unfold all_entries. cbn.
  rewrite Hp. solve_Permutation.
Qed.

Lemma evict_shrinks next held fuel c bytes : cache_ok next c → shrinks held c (evict held fuel c bytes).
Proof.
  revert c. induction fuel as [|fuel IH]; intros c Hc; cbn [evict]; [apply shrinks_refl|].
  destruct (over_budget c bytes); [|apply shrinks_refl].
  destruct (cc_entries c) as [|entry rest] eqn:Ee; [apply shrinks_refl|].
  set (c1 := {| cc_entries := rest |}).
  assert (H1 : shrinks held c c1).
  { split; cbn; [|done|done|rewrite Ee; by exists [entry]]. exists []. unfold all_entries, c1. cbn. rewrite Ee, app_nil_r.
    split_and!; [solve_Permutation|lia|done]. }
  pose proof (shrinks_ok _ _ _ _ Hc H1) as Hc1. pose proof (collect_shrinks _ held _ Hc1) as H2.
  eapply shrinks_trans; [done|]. eapply shrinks_trans; [done|]. apply IH. by eapply shrinks_ok.
Qed.

Lemma cache_compile_ok next held c profile source position limits c' r :
  cache_ok next c → cache_compile held c next profile source position limits = (c', r) →
  cache_ok (next + 1) c' ∧
  ∀ e, e ∈ all_entries c → held (en_id e) = true → e ∈ all_entries c'.
Proof.
  intros Hc. pose proof (collect_shrinks _ held _ Hc) as Hs. unfold cache_compile. cbv zeta.
  set (c1 := collect held c) in *.
  assert (Hweak : ∀ c2, shrinks held c c2 → cache_ok (next + 1) c2 ∧
    ∀ e, e ∈ all_entries c → held (en_id e) = true → e ∈ all_entries c2).
  { intros c2 H2. split; [|intros e; by apply shrinks_kept].
    destruct (shrinks_ok _ _ _ _ Hc H2) as [? ? ? ? Hfr ?]. split; [done..| |done].
    eapply Forall_impl; [exact Hfr|]. cbn. lia. }
  destruct (negb _); [intros [= <- _]; by apply Hweak|].
  destruct (_ <? slen source)%N; [intros [= <- _]; by apply Hweak|].
  destruct (List.find _ _) as [entry|]; [intros [= <- _]; by apply Hweak|].
  destruct (compile_with_limits source position limits) as [program|e] eqn:Ecomp; cbn [mbind result_bind];
    [|intros [= <- _]; by apply Hweak].
  destruct (audited program position limits) as [nodes|e]; cbn [mbind result_bind];
    [|intros [= <- _]; by apply Hweak].
  set (b := entry_bytes nodes source). case_match eqn:Hb; [|intros [= <- _]; by apply Hweak].
  pose proof (shrinks_ok _ _ _ _ Hc Hs) as Hc1.
  pose proof (evict_shrinks _ held (length (cc_entries c1)) _ b Hc1) as He.
  set (c2 := evict held (length (cc_entries c1)) c1 b) in *.
  pose proof (shrinks_trans _ _ _ _ Hs He) as H2. destruct (Hweak _ H2) as [[Hbt Hmb Hme Hid Hfr Hg] Hk].
  case_match eqn:Ho; [intros [= <- _]; by apply Hweak|]. intros [= <- _].
  apply orb_false_iff in Ho as [Hlen%N.leb_gt Hbytes%N.ltb_ge].
  set (entry := {| en_id := next |}).
  assert (Hp : all_entries {| cc_entries := cc_entries c2 ++ [entry]; cc_retired := cc_retired c2;
     cc_bytes := cc_bytes c2 + b; cc_max_entries := cc_max_entries c2; cc_max_bytes := cc_max_bytes c2 |}
     ≡ₚ entry :: all_entries c2) by (unfold all_entries; cbn; solve_Permutation).
  split.
  - split.
    + rewrite (total_perm _ _ _ Hp). cbn. rewrite Hbt. lia.
    + cbn. lia.
    + cbn. unfold cache_len in *. cbn. rewrite length_app. cbn. lia.
    + rewrite Hp. cbn. constructor; [|done]. intros (e & Hid' & Hin)%list_elem_of_fmap.
      destruct (shrinks_ok _ _ _ _ Hc H2) as [_ _ _ _ Hlt _]. rewrite Forall_forall in Hlt.
      apply Hlt in Hin. lia.
    + rewrite Hp. constructor; [cbn; lia|done].
    + rewrite Hp. constructor; [|done]. exists source. split; [done|]. cbn.
      unfold compile_with_limits in Ecomp. case_match; [done|]. inv_ok. by simplify_eq.
  - intros e Hin Hh. rewrite Hp. right. by apply Hk.
Qed.

Lemma cache_compile_transparent next held c profile source position limits c' r :
  cache_ok next c → cache_compile held c next profile source position limits = (c', r) →
  profile = CelWorkflowV2 →
  (cp_program <$> r = compile_with_limits source position limits ∧
   ∀ k, r = Ok k → cp_position k = position ∧ cp_limits k = limits) ∨ sha256_collision.
Proof.
  intros Hc. pose proof (collect_shrinks _ held _ Hc) as Hs.
  pose proof (shrinks_ok _ _ _ _ Hc Hs) as [_ _ _ _ _ Hg]. unfold cache_compile. cbv zeta.
  intros H ->. rewrite bool_decide_true in H by done. cbn [negb] in H.
  assert (Hc' : compile_with_limits source position limits =
    if (source_bytes limits <? slen source)%N then Err (admission Limit) else _) by done.
  destruct (source_bytes limits <? slen source)%N.
  { injection H as <- <-. left. by rewrite Hc'. }
  destruct (List.find _ _) as [entry|] eqn:Hf.
  - injection H as <- <-. apply List.find_some in Hf as [Hin Hm].
    unfold matches_source in Hm. bool_prop. destruct Hm as [_ Hh].
    rewrite Forall_forall in Hg. destruct (Hg entry) as (source' & Hh' & Hparse).
    { apply elem_of_app. left. by apply list_elem_of_In. }
    destruct (decide (source' = source)) as [->|Hne].
    + left. rewrite Hc', Hparse. cbn [ok_or mbind result_bind].
      destruct (audited (en_program entry) position limits); cbn; split; [done| |done|done].
      by intros k [= <-].
    + right. exists (bytes source'), (bytes source). split; [|congruence].
      intros E. apply Hne. by rewrite <- (of_bytes_bytes source'), E, of_bytes_bytes.
  - left. destruct (compile_with_limits source position limits) as [program|e] eqn:Ecomp;
      cbn [mbind result_bind] in H; [|by injection H as <- <-].
    assert (Ha : ∃ nodes, audited program position limits = Ok nodes).
    { symmetry in Hc'. inv_ok. simplify_eq. eauto. }
    destruct Ha as [nodes Ha]. rewrite Ha in H. cbn [mbind result_bind] in H.
    assert (∃ c2, (c2, Ok {| cp_id := next; cp_program := program; cp_position := position; cp_limits := limits |}) = (c', r))
      as (c2 & [= <- <-]).
    { revert H. repeat case_match; intros [= <- <-]; by eexists. }
    split; [done|]. by intros k [= <-].
Qed.

(** A worker: its cache, the programs its clients hold, and the next allocation. *)
Record worker := { wr_cache : CompileCache; wr_handles : list N; wr_next : N }.
Definition worker_held (w : worker) (id : N) : bool := bool_decide (id ∈ wr_handles w).

Inductive worker_step : worker → worker → Prop :=
| worker_compile w profile source position limits c r :
    cache_compile (worker_held w) (wr_cache w) (wr_next w) profile source position limits = (c, r) →
    worker_step w {| wr_cache := c; wr_next := wr_next w + 1;
                     wr_handles := match r with
                                   | Ok k => cp_id k :: wr_handles w
                                   | Err _ => wr_handles w
                                   end |}
| worker_release w before id after :
    wr_handles w = before ++ id :: after →
    worker_step w {| wr_cache := wr_cache w; wr_handles := before ++ after; wr_next := wr_next w |}
| worker_collect w :
    worker_step w {| wr_cache := collect (worker_held w) (wr_cache w);
                     wr_handles := wr_handles w; wr_next := wr_next w |}.

Definition worker_new (max_entries max_bytes : N) : worker :=
  {| wr_cache := with_budget max_entries max_bytes; wr_handles := []; wr_next := 0 |}.

Lemma worker_step_ok w w' :
  cache_ok (wr_next w) (wr_cache w) → worker_step w w' →
  cache_ok (wr_next w') (wr_cache w') ∧
  ∀ e, e ∈ all_entries (wr_cache w) → en_id e ∈ wr_handles w → e ∈ all_entries (wr_cache w').
Proof.
  intros Hc Hstep. assert (Hheld : ∀ id, id ∈ wr_handles w → worker_held w id = true)
    by (intros; by apply bool_decide_true).
  destruct Hstep as [w profile source position limits c r H|w before id after H|w]; cbn.
  - destruct (cache_compile_ok _ _ _ _ _ _ _ _ _ Hc H) as [? Hk]. auto.
  - done.
  - pose proof (collect_shrinks _ (worker_held w) _ Hc) as Hs. split; [by eapply shrinks_ok|].
    intros e He Hin. eapply shrinks_kept; eauto.
Qed.

Lemma worker_new_ok max_entries max_bytes :
  cache_ok 0 (wr_cache (worker_new max_entries max_bytes)).
Proof. split; cbn; try done; try (unfold cache_len; cbn); try lia; constructor. Qed.

Lemma worker_reachable_ok max_entries max_bytes w :
  rtc worker_step (worker_new max_entries max_bytes) w → cache_ok (wr_next w) (wr_cache w).
Proof.
  apply (rtc_invariant _ (λ w, cache_ok (wr_next w) (wr_cache w))); [|apply worker_new_ok].
  intros a b Ha Hstep. by apply (worker_step_ok a b).
Qed.

(** However compilations, releases and collections follow each other, the cache is
    charged exactly for the programs it retains, at most 128 of them and 16 MiB or the
    smaller budget it was given, so that the counter never wraps; and a program some client
    still holds is never dropped from the account. *)
Theorem cache_within_budget max_entries max_bytes w :
  rtc worker_step (worker_new max_entries max_bytes) w →
  cc_bytes (wr_cache w) = Prelude.total en_bytes (all_entries (wr_cache w)) ∧
  (cc_bytes (wr_cache w) <= cc_max_bytes (wr_cache w) <= MAX_BYTES)%N ∧
  (cache_len (wr_cache w) <= cc_max_entries (wr_cache w) <= MAX_ENTRIES)%N ∧
  ∀ w' e, worker_step w w' → e ∈ all_entries (wr_cache w) → en_id e ∈ wr_handles w →
    e ∈ all_entries (wr_cache w').
Proof.
  intros Hc%worker_reachable_ok. pose proof Hc as [? ? ? _ _ _]. split_and!; try done; try lia.
  intros w' e Hstep. by apply worker_step_ok.
Qed.

(** Caching is invisible: in every reachable state, what the cache returns for a source,
    a position and limits is what compiling the source afresh returns, errors included,
    unless two sources with one SHA-256 digest are known. *)
Theorem cache_transparent max_entries max_bytes w source position limits c r :
  rtc worker_step (worker_new max_entries max_bytes) w →
  cache_compile (worker_held w) (wr_cache w) (wr_next w) CelWorkflowV2 source position limits = (c, r) →
  (cp_program <$> r = compile_with_limits source position limits ∧
   ∀ k, r = Ok k → cp_position k = position ∧ cp_limits k = limits) ∨ sha256_collision.
Proof. intros Hc%worker_reachable_ok H. by eapply cache_compile_transparent. Qed.
End cache_facts.

(** ** The engine the step resolver uses *)

Definition compiler_engine (CP : CelParser) (execute : Expr → Bindings → result CelFailure CelValue) :
    CelEngine :=
  {| cel_compile := compile_with_limits;
     cel_audit := λ program position limits, _ ← audited program position limits; Ok ();
     cel_execute := execute |}.

#[global] Instance compiler_engine_laws CP execute : CelLaws (compiler_engine CP execute).
Proof.
  intros source position limits program. cbn [cel_audit cel_compile compiler_engine].
  unfold compile_with_limits.
  destruct (_ <? slen source)%N; [done|].
  intros (e & _ & (n & Hn & [= <-])%bind_Ok)%bind_Ok. by rewrite Hn.
Qed.

(** ** A run *)

Module CompilerInstance.
(** A parser of single identifiers and a digest that keeps the text. *)
#[local] Instance parse_names : CelParser := λ source, Some (EIdent source).
#[local] Instance plain_digest : Sha256 := of_bytes.

Definition first := cache_compile (λ _, false) (with_budget 1 2000) 0 CelWorkflowV2 "context" PSet Limits_default.
Definition second :=
  cache_compile (λ id, (id =? 0)%N) first.1 1 CelWorkflowV2 "workflow" PSet Limits_default.

Lemma first_run :
  rtc worker_step (worker_new 1 2000)
    {| wr_cache := first.1; wr_handles := [0%N]; wr_next := 1 |}.
Proof.
  apply rtc_once. apply (worker_compile (worker_new 1 2000) CelWorkflowV2 "context" PSet Limits_default first.1
    first.2). vm_compute. reflexivity.
Qed.

Lemma cache_within_budget_witness :
  (cc_bytes first.1 <= MAX_BYTES)%N ∧ length (cc_entries first.1) = 1.
Proof.
  destruct (cache_within_budget 1 2000 _ first_run) as (_ & H & _). split; [|vm_compute; reflexivity].
  cbn [wr_cache] in H. lia.
Defined.

(** The program of the first source is held, so the second is compiled without being kept. *)
Lemma cache_transparent_witness :
  (cp_program <$> second.2 = compile_with_limits "workflow" PSet Limits_default ∧
   ∀ k, second.2 = Ok k → cp_position k = PSet ∧ cp_limits k = Limits_default) ∨ sha256_collision.
Proof.
  apply (cache_transparent 1 2000 _ "workflow" PSet Limits_default second.1 second.2 first_run).
  vm_compute. reflexivity.
Defined.
End CompilerInstance.
