(* ===== verification/DefinitionPlan.v ===== *)
(** * Validation of workflow definitions

    Model of [crates/workflow-expression/src/validation.rs]: the checks derived from a raw
    definition, in document order, and their execution by the expression engine.  Each
    function returns the checks the method of the source pushes. *)

From S2P Require Import Prelude RustStr JsonTree WorkflowExpression RetryPolicy ExpressionStep.
From Stdlib Require Import Ascii.

(** ** Checks *)

Record Site := { si_source : string; si_position : Position; si_span : N; si_offset : N }.
Inductive Finding := FSite (s : Site) | FError (e : ExpressionError).
Record Check := { ck_field : string; ck_task : option string; ck_finding : Finding }.
Record DefinitionValidation := { dv_profile : Profile; dv_checks : list Check }.

Inductive ValidationError := VDiagnostic (d : Diagnostic) | VWorker (e : WorkerError).

Definition pointer (parent key : string) : string :=
  parent +:+ "/" +:+ replace_byte "/" "~1" (replace_byte "~" "~0" key).

Definition error (field : string) (task : option string) (category : Category) : list Check :=
  [{| ck_field := field; ck_task := task; ck_finding := FError (admission category) |}].

(** The entries of an array with their indices as path segments. *)
Definition indexed (l : list Json) : list (string * Json) :=
  imap (λ i v, (dec (N.of_nat i), v)) l.

(** ** Templates *)

(** Whether a template has to be one span. *)
Definition needs_whole (position : Position) : bool :=
  bool_decide (position_kind position ∈ [KPredicate; KExport])
  || bool_decide (position = WorkflowOutput).

(** The site of a segment, if it is a span. *)
Definition segment_check (field : string) (task : option string) (position : Position)
    (segment : Segment) : list Check :=
  match segment with
  | Literal _ _ _ => []
  | Span source _ source_offset _ index =>
      [{| ck_field := field; ck_task := task;
          ck_finding := FSite {| si_source := source; si_position := position; si_span := index;
                                 si_offset := source_offset |} |}]
  end.

Definition text (value : Json) (field : string) (task : option string) (position : Position)
    (required : bool) : list Check :=
  match as_str value with
  | None => error field task Invalid
  | Some t =>
      match scanned t with
      | Err e => [{| ck_field := field; ck_task := task; ck_finding := FError e |}]
      | Ok segments =>
          if required && needs_whole position && negb (bool_decide (is_Some (whole_span t segments)))
          then error field task Invalid
          else segments ≫= segment_check field task position
      end
  end.

Fixpoint json (value : Json) (field : string) (task : option string) (position : Position)
    (root : bool) (depth : N) : list Check :=
  if (output_depth Limits_default <? depth)%N then error field task Limit else
  if root && bool_decide (position = WorkflowOutput) && negb (is_object value)
     && negb (bool_decide (is_Some (as_str value)))
  then error field task Invalid else
  match value with
  | JString _ =>
      text value field task
        (if bool_decide (position = WorkflowOutput) && negb root then PSet else position) root
  | JObject o =>
      merge_sort (λ a b, String.le a.1 b.1)
        ((λ e, (e.1, json e.2 (pointer field e.1) task position false (depth + 1))) <$> o)
      ≫= snd
  | JArray a =>
      concat (imap (λ i f, f (pointer field (dec (N.of_nat i))))
        ((λ v p, json v p task position false (depth + 1)%N) <$> a))
  | _ =>
      if bool_decide (position_kind position ∈ [KString; KPredicate]) then error field task Invalid
      else []
  end.

Definition map_strings (value : Json) (field : string) (task : option string)
    (position : Position) : list Check :=
  match as_object value with
  | None => error field task Invalid
  | Some map => map ≫= λ e, text e.2 (pointer field e.1) task position true
  end.

Definition rpc_headers (value : Json) (field : string) (task : option string)
    (position : Position) : list Check :=
  match as_str value with
  | Some t =>
      if match scanned t with
         | Ok segments => bool_decide (is_Some (whole_span t segments))
         | Err _ => false
         end
      then text value field task position true
      else error field task Invalid
  | None =>
      match as_object value with
      | Some map => map ≫= λ e, text e.2 (pointer field e.1) task position true
      | None => error field task Invalid
      end
  end.

(** [validate_path_placeholders] never runs out of fuel. *)
Definition placeholders_ok (uri : string) : bool :=
  match validate_path_placeholders uri with Some (Ok _) => true | _ => false end.

Definition endpoint (value : Json) (field : string) (task : option string)
    (position : option Position) : list Check :=
  match (if bool_decide (is_Some (as_str value)) then Some (value, field)
         else uri ← get "uri" value; Some (uri, pointer field "uri")) with
  | None => error field task Invalid
  | Some (value, field) =>
      match position with
      | Some position => text value field task position true
      | None =>
          match as_str value with
          | Some uri => if placeholders_ok uri then [] else error field task Invalid
          | None => error field task Invalid
          end
      end
  end.

(** ** Tasks *)

(** [for key in keys { if object.contains_key(key) { error } }]. *)
Definition forbidden (keys : list string) (object : Json) (field : string) (task : option string) :
    list Check :=
  keys ≫= λ key,
    if bool_decide (is_Some (get key object)) then error (pointer field key) task Unsupported else [].

(** [for (key, position) in table { if let Some(value) = object.get(key) { ... } }]. *)
Definition each_present (table : list (string * Position)) (object : Json)
    (f : Json → string → Position → list Check) : list Check :=
  table ≫= λ e, match get e.1 object with Some value => f value e.1 e.2 | None => [] end.

(** An object with exactly one entry. *)
Definition single_entry (value : Json) : option (string * Json) :=
  match as_object value with Some [entry] => Some entry | _ => None end.

Definition task_export (task : Json) (field name : string) : list Check :=
  match get "export" task with
  | None => []
  | Some export =>
      let path := pointer (pointer field "export") "as" in
      match get "as" export ≫= as_object with
      | Some map =>
          map ≫= λ e, json e.2 (pointer path e.1) (Some name)
            (if bool_decide (is_Some (get "run" task)) then RunnerExport else PExport) true 0
      | None => error path (Some name) Unsupported
      end
  end.

(** The cases of a [switch]; [default] tells whether a default case has been seen. *)
Fixpoint switch_cases (cases : list Json) (i : nat) (default : bool) (path name : string) :
    list Check :=
  match cases with
  | [] => []
  | case :: rest =>
      let path_i := pointer path (dec (N.of_nat i)) in
      match single_entry case with
      | None => error path_i (Some name) Invalid ++ switch_cases rest (S i) default path name
      | Some (case_name, case) =>
          let case_path := pointer path_i case_name in
          (if negb (is_object case) || negb (bool_decide (is_Some (get "then" case ≫= as_str)))
           then error case_path (Some name) Invalid else []) ++
          (if bool_decide (case_name = "default") then
             (if default || negb (bool_decide (rest = [])) || bool_decide (is_Some (get "when" case))
              then error case_path (Some name) Invalid else [])
           else
             match get "when" case with
             | Some when_ => text when_ (pointer case_path "when") (Some name) SwitchWhen true
             | None => error case_path (Some name) Invalid
             end) ++
          switch_cases rest (S i) (default || bool_decide (case_name = "default")) path name
      end
  end.

Definition task_switch (task : Json) (field name : string) : list Check :=
  match get "switch" task with
  | None => []
  | Some switch =>
      let path := pointer field "switch" in
      match as_array switch with
      | Some cases => switch_cases cases 0 false path name
      | None => error path (Some name) Invalid
      end
  end.

(** One comparison of [assert.json]. *)
Definition json_comparison (path name : string) (entry : string * Json) : list Check :=
  let path := pointer (pointer path "json") entry.1 in
  let comparison := entry.2 in
  if bool_decide (is_Some (as_str comparison))
  then text comparison path (Some name) AssertJsonPredicate true
  else each_present [("equals", AssertJsonEquals); ("contains", AssertJsonContains)] comparison
         (λ value key position, json value (pointer path key) (Some name) position true 0).

Definition task_assert (task : Json) (field name : string) : list Check :=
  match get "assert" task with
  | None => []
  | Some assert =>
      let path := pointer field "assert" in
      forbidden ["schema"; "rule"] assert path (Some name) ++
      each_present [("value", AssertValue); ("equals", AssertEquals); ("contains", AssertContains)]
        assert (λ value key position, json value (pointer path key) (Some name) position true 0) ++
      match get "json" assert ≫= as_object with
      | Some comparisons => comparisons ≫= json_comparison path name
      | None => []
      end
  end.

Definition task_ask (task : Json) (field name : string) : list Check :=
  match get "ask" task ≫= get "assignment" with
  | None => []
  | Some assignment =>
      each_present [("categoryCode", AskCategory); ("reasonCode", AskReason);
                    ("assigneeId", AskAssignee); ("roleId", AskRole)] assignment
        (λ value key position,
           text value (pointer (pointer (pointer field "ask") "assignment") key) (Some name)
             position true)
  end.

(** The arguments a call passes on as JSON. *)
Definition call_positions (call : string) : list (string * Position) :=
  if bool_decide (call = "http") then [("body", HttpBody)] else
  if bool_decide (call ∈ ["jsonrpc"; "openrpc"]) then [("params", JsonRpcParams)] else
  if bool_decide (call = "mcp")
  then [("params", McpParams); ("parameters", McpParams); ("arguments", McpParams)] else
  if bool_decide (call = "a2a") then [("parameters", A2aParameters)] else
  if bool_decide (call = "agent") then [("input", AgentInput); ("mockOutput", AgentMockOutput)]
  else [].

Definition call_http (args : Json) (path name : string) : list Check :=
  forbidden ["output"] args path (Some name) ++
  match get "endpoint" args with
  | Some value => endpoint value (pointer path "endpoint") (Some name) None
  | None => []
  end ++
  each_present [("headers", HttpHeader); ("query", HttpQuery)] args
    (λ value key position, map_strings value (pointer path key) (Some name) position).

Definition call_jsonrpc (args : Json) (path name : string) : list Check :=
  match get "endpoint" args with
  | Some value => endpoint value (pointer path "endpoint") (Some name) (Some JsonRpcUri)
  | None => []
  end ++
  each_present [("headers", JsonRpcHeader)] args
    (λ value key position, rpc_headers value (pointer path key) (Some name) position).

Definition call_openrpc (args : Json) (path name : string) : list Check :=
  each_present [("headers", JsonRpcHeader)] args
    (λ value key position, rpc_headers value (pointer path key) (Some name) position) ++
  match get "document" args ≫= get "endpoint" with
  | Some value =>
      endpoint value (pointer (pointer path "document") "endpoint") (Some name) (Some OpenRpcEndpoint)
  | None => []
  end ++
  match get "server" args with
  | None => []
  | Some server =>
      if bool_decide (is_Some (as_str server))
      then text server (pointer path "server") (Some name) JsonRpcUri true
      else match get "url" server with
           | Some url => text url (pointer (pointer path "server") "url") (Some name) JsonRpcUri true
           | None => []
           end
  end.

Definition call_mcp (args : Json) (path name : string) : list Check :=
  (if bool_decide (is_Some (get "transport" args ≫= get "stdio"))
   then error (pointer (pointer path "transport") "stdio") (Some name) Unsupported else []) ++
  each_present [("resource", McpResourceUri)] args
    (λ value key position, text value (pointer path key) (Some name) position true).

Definition call_agent (args : Json) (path name : string) : list Check :=
  each_present [("instructions", AgentInstructions); ("prompt", AgentPrompt)] args
    (λ value key position, text value (pointer path key) (Some name) position true).

Definition task_call (task : Json) (field name : string) : list Check :=
  match get "call" task with
  | None => []
  | Some call =>
      let call := default "" (as_str call) in
      if negb (bool_decide (call ∈ ["http"; "jsonrpc"; "openrpc"; "mcp"; "a2a"; "agent"]))
      then error (pointer field "call") (Some name) Unsupported else
      match get "with" task with
      | Some (JObject members) =>
          let args := JObject members in
          let path := pointer field "with" in
          (if bool_decide (call ∈ ["http"; "mcp"; "a2a"])
           then each_present [("idempotencyKey", IdempotencyKey)] task
                  (λ value key position, text value (pointer field key) (Some name) position true)
           else []) ++
          each_present (call_positions call) args
            (λ value key position, json value (pointer path key) (Some name) position true 0) ++
          (if bool_decide (call = "http") then call_http args path name else
           if bool_decide (call = "jsonrpc") then call_jsonrpc args path name else
           if bool_decide (call = "openrpc") then call_openrpc args path name else
           if bool_decide (call = "mcp") then call_mcp args path name else
           if bool_decide (call = "agent") then call_agent args path name else [])
      | _ => error (pointer field "with") (Some name) Invalid
      end
  end.

(** One task.  [branches] gives the checks of a list of fork branches; inside a fork it is
    not used. *)
Definition task_with (branches : option Json → string → list Check) (inside_fork : bool)
    (value : Json) (field name : string) : list Check :=
  match value with
  | JObject _ =>
      let task := value in
      forbidden ["if"; "input"; "output"] task field (Some name) ++
      (if inside_fork then forbidden ["then"; "export"] task field (Some name) else []) ++
      forbidden ["agentTask"; "do"; "emit"; "for"; "listen"; "raise"; "try"] task field (Some name) ++
      task_export task field name ++
      match get "set" task with
      | Some v => json v (pointer field "set") (Some name) PSet true 0
      | None => []
      end ++
      task_switch task field name ++
      task_assert task field name ++
      task_ask task field name ++
      match get "fork" task with
      | None => []
      | Some fork =>
          let path := pointer field "fork" in
          if inside_fork then error path (Some name) Unsupported
          else branches (get "branches" fork) (pointer path "branches")
      end ++
      (if bool_decide (is_Some (get "run" task ≫= get "workflow"))
       then error (pointer (pointer field "run") "workflow") (Some name) Unsupported else []) ++
      task_call task field name
  | _ => error field (Some name) Invalid
  end.

Definition tasks_with (task : Json → string → string → list Check) (value : option Json)
    (field : string) : list Check :=
  match value ≫= as_array with
  | None => error field None Invalid
  | Some entries =>
      indexed entries ≫= λ e,
        let path := pointer field e.1 in
        match single_entry e.2 with
        | None => error path None Invalid
        | Some (name, t) => task t (pointer path name) name
        end
  end.

(** [tasks]: a fork is the only nesting, and is not allowed inside a fork. *)
Definition branch_tasks : option Json → string → list Check :=
  tasks_with (task_with (λ _ _, []) true).
Definition tasks : option Json → string → list Check :=
  tasks_with (task_with branch_tasks false).

(** ** The plan *)

(** Preorder ranks of the values of a document, and an error for every string that holds
    the opening of a foreign expression syntax. *)
Fixpoint rank_loop (fuel : nat) (todo : list (string * Json)) (ranks : gmap string N)
    (checks : list Check) : option (gmap string N * list Check) :=
  match fuel with
  | O => None
  | S fuel =>
      match todo with
      | [] => Some (ranks, checks)
      | (field, value) :: rest =>
          let ranks := <[field := N.of_nat (size ranks)]> ranks in
          match value with
          | JString s =>
              rank_loop fuel rest ranks
                (if contains s "${{" then checks ++ error field None Unsupported else checks)
          | JArray a => rank_loop fuel (((λ e, (pointer field e.1, e.2)) <$> indexed a) ++ rest) ranks checks
          | JObject o => rank_loop fuel (((λ e, (pointer field e.1, e.2)) <$> by_key o) ++ rest) ranks checks
          | _ => rank_loop fuel rest ranks checks
          end
      end
  end.

(** The name a segment of a path stands for. *)
Definition unescape (segment : string) : string :=
  of_bytes (replace_pair "~" "0" "~" (replace_pair "~" "1" "/" (bytes segment))).

(** The last position of [fork] followed by [branches]. *)
Fixpoint last_fork (parts : list string) : option nat :=
  match parts with
  | [] => None
  | a :: rest =>
      match last_fork rest with
      | Some i => Some (S i)
      | None =>
          if String.eqb a "fork" && bool_decide (head rest = Some "branches") then Some 0 else None
      end
  end.

(** The task a check belongs to, read off its field when the check does not name one. *)
Definition attribute (check : Check) : Check :=
  match ck_task check with
  | None =>
      if starts_with (ck_field check) "/do/" then
        let parts := split "/" (ck_field check) in
        {| ck_field := ck_field check; ck_finding := ck_finding check;
           ck_task := unescape <$> match last_fork parts with
                                   | Some i => parts !! (i + 3)
                                   | None => parts !! 3
                                   end |}
      else check
  | Some _ => check
  end.

Definition finding_rank (f : Finding) : N :=
  match f with FError _ => 0 | FSite s => si_span s + 1 end.
Definition check_key (ranks : gmap string N) (c : Check) : N * string * N :=
  (default u64_max (ranks !! ck_field c), ck_field c, finding_rank (ck_finding c)).
(** The derived order of tuples. *)
Definition key_leb (a b : N * string * N) : bool :=
  let '(ra, fa, na) := a in
  let '(rb, fb, nb) := b in
  if negb (ra =? rb)%N then (ra <? rb)%N else
  if negb (String.eqb fa fb) then String.leb fa fb else (na <=? nb)%N.

Section plan.
Context {SC : Scheduling}.

Definition profile_field : string := "/document/metadata/lightExpressionProfile".

(** The checks in the order in which the source collects them, given those of the ranking
    loop. *)
Definition collected (raw : Json) (foreign : list Check) : list Check :=
  foreign ++
  (if bool_decide (is_Some (pointer_get ["input"; "from"] raw))
   then error "/input/from" None Unsupported else []) ++
  (if bool_decide (is_Some (pointer_get ["output"; "schema"] raw))
   then error "/output/schema" None Unsupported else []) ++
  match pointer_get ["output"; "as"] raw with
  | Some value => json value "/output/as" None WorkflowOutput true 0
  | None => []
  end ++
  tasks (get "do" raw) "/do".

Definition retry_checks (raw : Json) : list Check :=
  match validate_retry_policies raw with
  | Err (Diag d) => error (dg_field d) (dg_task d) (ee_category (dg_error d))
  | _ => []
  end.

(** [DefinitionValidation::from_raw]; the fuel is the number of values of the document. *)
Definition from_raw (raw : Json) : option (result Diagnostic DefinitionValidation) :=
  match resolve_profile raw with
  | Err e => Some (Err {| dg_error := e; dg_task := None; dg_field := profile_field |})
  | Ok LegacyV1 => Some (Ok {| dv_profile := LegacyV1; dv_checks := [] |})
  | Ok CelWorkflowV2 =>
      '(ranks, foreign) ← rank_loop (S (N.to_nat (json_nodes raw))) [("", raw)] ∅ (retry_checks raw);
      Some (Ok {| dv_profile := CelWorkflowV2;
                  dv_checks := stable_sort (λ a b, key_leb (check_key ranks a) (check_key ranks b))
                                 (attribute <$> collected raw foreign) |})
  end.
End plan.

(** ** Running the plan *)

Section validation.
Context {CE : CelEngine}.
(** Whether the workers refuse or lose the [k]-th compilation. *)
Context (lost : nat → option WorkerError).

Fixpoint validate_from (k : nat) (checks : list Check) : result ValidationError unit :=
  match checks with
  | [] => Ok ()
  | check :: rest =>
      let diagnostic e :=
        Err (VDiagnostic {| dg_error := e; dg_field := ck_field check; dg_task := ck_task check |}) in
      match ck_finding check with
      | FError e => diagnostic e
      | FSite site =>
          match lost k with
          | Some e => Err (VWorker e)
          | None =>
              match cel_compile (si_source site) (si_position site) Limits_default with
              | Ok _ => validate_from (S k) rest
              | Err e => diagnostic (error_at e (si_span site) (si_offset site))
              end
          end
      end
  end.

Definition validate (plan : DefinitionValidation) : result ValidationError unit :=
  validate_from 0 (dv_checks plan).
End validation.
