(* ===== verification/DefinitionPlanFacts.v ===== *)
(** * Validation of workflow definitions: theorems

    Every template the validation checks resolves without errors of admission: the spans the
    step resolver evaluates were compiled by the validation, in the same position.  An
    accepted definition has only supported tasks, and a diagnostic is the first in the
    document. *)

From S2P Require Import Prelude RustStr JsonTree WorkflowExpression RetryPolicy ExpressionStep ExpressionStepFacts ExpressionCompiler ExpressionCompilerFacts DefinitionPlan.
From Stdlib Require Import Ascii.

(** ** Errors of the runtime phase *)

Create HintDb late.

(** A computation whose errors all belong to the runtime phase. *)
Definition late {A} (r : result ExpressionError A) : Prop := ∀ e, r = Err e → ee_phase e = Runtime.
Definition late_step {A} (m : M A) : Prop :=
  ∀ s e s', m s = (Err (Expression e), s') → ee_phase e = Runtime.

Lemma late_Ok {A} (a : A) : late (Ok a).
Proof. done. Qed.
Lemma late_Err {A} c : late (A:=A) (Err (runtime c)).
Proof. by intros e [= <-]. Qed.
Lemma late_bind {A B} (r : result ExpressionError A) (f : A → result ExpressionError B) :
  late r → (∀ a, late (f a)) → late (r ≫= f).
Proof. intros Hr Hf e [H|(a & _ & H)]%bind_Err; [by apply Hr|by eapply Hf]. Qed.
Lemma late_if {A} (b : bool) (r1 r2 : result ExpressionError A) : late r1 → late r2 → late (if b then r1 else r2).
Proof. by destruct b. Qed.
#[local] Hint Resolve late_Ok late_Err late_bind late_if : late.

Lemma late_step_bind {A B} (m : M A) (f : A → M B) :
  late_step m → (∀ a, late_step (f a)) → late_step (m ≫= f).
Proof.
  intros Hm Hf s e s'. unfold mbind, M_bind. destruct (m s) as [[a|e'] s1] eqn:Em.
  - apply Hf.
  - intros [= -> <-]. by eapply Hm.
Qed.
Lemma late_step_ret {A} (a : A) : late_step (mret a).
Proof. done. Qed.
Lemma late_step_throw {A} c : late_step (throw (A:=A) (runtime c)).
Proof. by intros s e s' [= <- _]. Qed.
Lemma late_step_lift {A} (r : result ExpressionError A) : late r → late_step (lift r).
Proof. intros Hr s e s'. unfold lift. destruct r; cbn; [done|]. intros [= <- _]. by apply Hr. Qed.
Lemma late_step_check cancelled : late_step (check cancelled).
Proof. intros s e s'. unfold check. by destruct (cancelled _). Qed.
Lemma late_step_in_path {A} segment (m : M A) : late_step m → late_step (in_path segment m).
Proof.
  intros Hm s e s'. unfold in_path. destruct (m _) as [[a|e'] s1] eqn:Em; [done|].
  intros [= -> <-]. by eapply Hm.
Qed.
Lemma late_step_if {A} (b : bool) (m1 m2 : M A) : late_step m1 → late_step m2 → late_step (if b then m1 else m2).
Proof. by destruct b. Qed.
Lemma late_step_sequence {A} (l : list (M A)) : Forall late_step l → late_step (sequence l).
Proof.
  induction 1 as [|m l Hm _ IH]; [done|]. cbn [sequence].
  apply late_step_bind; [done|intros a]. by apply late_step_bind.
Qed.
#[local] Hint Resolve late_step_bind late_step_ret late_step_throw late_step_lift late_step_check
  late_step_in_path late_step_if : late.

Section runtime.
Context {JC : JsonChunks} {CE : CelEngine}.

Lemma encode_late v cap : late (encode v cap).
Proof.
  unfold encode. apply late_bind; [|auto with late]. intros e.
  destruct (to_writer _ _); cbn; [done|]. by intros [= <-].
Qed.

Lemma measure_loop_late fuel limits todo nodes r :
  measure_loop fuel limits todo nodes = Some r → late r.
Proof.
  revert todo nodes. induction fuel as [|fuel IH]; intros [|[v d] todo] nodes; cbn [measure_loop].
  - by intros [= <-].
  - done.
  - by intros [= <-].
  - case_match; [intros [= <-]; auto with late|]. destruct v; apply IH.
Qed.

Lemma validate_output_late v limits : late (validate_output v limits).
Proof.
  unfold validate_output. apply late_bind; [|intros _; apply late_bind; [apply encode_late|auto with late]].
  unfold measured, measure. destruct (measure_loop _ _ _ _) eqn:E; cbn; [by eapply measure_loop_late|auto with late].
Qed.

Lemma convert_list_late f l n : Forall (λ v, ∀ n, late (f v n)) l → late (convert_list f l n).
Proof.
  intros Hl. revert n. induction Hl as [|v l Hv _ IH]; intros n; [done|]. cbn [convert_list].
  apply late_bind; [apply Hv|]. intros [j n1]. apply late_bind; [apply IH|]. intros [out n2]. done.
Qed.

Lemma convert_map_late f m n : Forall (λ e, ∀ n, late (f e.2 n)) m → late (convert_map f m n).
Proof.
  intros Hl. revert n. induction Hl as [|[[k|] v] l Hv _ IH]; intros n; [done| |apply late_Err]. cbn [convert_map].
  apply late_bind; [apply Hv|]. intros [j n1]. apply late_bind; [apply IH|]. intros [out n2]. done.
Qed.

Lemma to_json_late v limits d n : late (to_json v limits d n).
Proof.
  revert d n. induction v as [v Hv|l IH|m IH] using CelValue_tree_ind; intros d n;
    [destruct v; try done|..]; cbn [to_json]; cbv zeta; auto 6 with late.
  - apply late_if; [apply late_Err|]. apply late_bind; [|by intros []]. apply convert_list_late.
    eapply Forall_impl; [exact IH|]. auto.
  - apply late_if; [apply late_Err|]. apply late_bind; [|by intros []]. apply convert_map_late.
    eapply Forall_impl; [exact IH|]. auto.
Qed.

(** A program that passes its audit fails only at run time. *)
Lemma evaluate_late program position limits b kind :
  cel_audit program position limits = Ok () → late (evaluate program position limits b kind).
Proof.
  intros Ha. unfold evaluate. rewrite Ha. cbn [mbind result_bind].
  apply late_if; [apply late_Err|]. apply late_if; [apply late_Err|]. apply late_bind.
  { intros e. unfold map_err. destruct (cel_execute program b) as [|f]; [done|]. intros [= <-].
    destruct f; cbn; repeat case_match; done. }
  intros v. apply late_if; [apply late_Err|]. apply late_bind; [apply to_json_late|]. intros [j n].
  apply late_if; [apply late_Err|]. apply late_bind; [apply encode_late|done].
Qed.
End runtime.

(** ** Resolving what was planned *)

Lemma late_step_lift_Ok {A B} (a : A) (f : A → M B) : late_step (f a) → late_step (lift (Ok a) ≫= f).
Proof. intros Hf s e s'. apply Hf. Qed.

Section planned.
Context {JC : JsonChunks} {CE : CelEngine} {CL : CelLaws CE}.

(** The checks of a plan that validation passes: no errors, and every site compiles. *)
Definition passes (c : Check) : Prop :=
  match ck_finding c with
  | FSite s => ∃ program, cel_compile (si_source s) (si_position s) Limits_default = Ok program
  | FError _ => False
  end.
Definition planned (checks : list Check) : Prop := Forall passes checks.

Lemma planned_error field task c : ¬ planned (error field task c).
Proof. by intros [H _]%Forall_cons. Qed.

Context (cancelled : nat → bool).

Lemma span_late source i o position b :
  (∃ program, cel_compile source position Limits_default = Ok program) →
  late_step (span cancelled Limits_default source i o position b).
Proof.
  intros [program Hp]. unfold span. cbv zeta. rewrite Hp. cbn [map_err].
  assert (He : late (map_err (λ e, error_at e i o)
                       (evaluate program position Limits_default b (position_kind position)))).
  { intros e. destruct (evaluate _ _ _ _ _) as [|e'] eqn:E; cbn; [done|]. intros [= <-].
    change (ee_phase e' = Runtime). eapply (evaluate_late program); [|exact E]. by apply compile_audited in Hp. }
  apply late_step_bind; [auto with late|intros _].
  apply late_step_lift_Ok. auto 10 with late.
Qed.

Lemma append_all_late field task position b segments t :
  planned (segments ≫= segment_check field task position) →
  late_step (append_all cancelled Limits_default position b t segments).
Proof.
  revert t. induction segments as [|[s o e|source o so e i] segments IH]; intros t; [done| |].
  - intros H. cbn [append_all append_segment]. apply late_step_bind; [|intros t'; by apply IH].
    unfold append_segment. apply late_step_bind; [auto with late|intros _; auto with late].
  - rewrite bind_cons. intros [[Hp _]%Forall_cons Hr]%Forall_app. cbn [append_all append_segment].
    apply late_step_bind; [|intros t'; by apply IH].
    apply late_step_bind; [auto with late|intros _].
    apply late_step_bind; [by apply span_late|intros v].
    assert (Hat : ∀ c, late_step (throw (A:=string) (error_at (runtime c) i so)))
      by (by intros c s e' s' [= <- _]).
    destruct (as_str v); auto with late.
Qed.

Lemma resolve_text_late source field task position root b :
  planned (text (JString source) field task
    (if bool_decide (position = WorkflowOutput) && negb root then PSet else position) root) →
  late_step (resolve_text cancelled Limits_default source position root b).
Proof.
  unfold resolve_text, text. cbn [as_str]. destruct (scanned source) as [segments|e].
  2:{ by intros [? _]%Forall_cons. }
  intros Hp. apply late_step_lift_Ok. cbv zeta. set (p' := if _ && _ then PSet else position) in *.
  destruct (whole_span source segments) as [[[src i] o]|] eqn:Ew.
  - rewrite bool_decide_true, !andb_false_r in * by done.
    destruct segments as [|[|src' [|] so en ix] [|]]; try done. cbn in Ew. case_match; [|done].
    injection Ew as -> -> ->. apply Forall_cons in Hp as [Hp _]. by apply span_late.
  - rewrite bool_decide_false, !andb_true_r in * by (by intros [? ?]).
    destruct root; cbn [andb negb] in *.
    + subst p'. cbn [negb] in *. rewrite !andb_false_r in *. unfold needs_whole in Hp. destruct (_ || _); [by apply planned_error in Hp|].
      apply late_step_bind; [by eapply append_all_late|done].
    + apply late_step_bind; [by eapply append_all_late|done].
Qed.

Lemma finish_root_late r position : late_step (finish_root Limits_default r position).
Proof.
  unfold finish_root. apply late_step_bind; [apply late_step_lift, validate_output_late|intros _].
  apply late_step_if; [auto with late|]. apply late_step_if; [|auto with late].
  destruct (as_object r); [|auto with late].
  destruct (List.find _ _) as [[key ?]|]; [|auto with late]. by intros s e s' [= <- _].
Qed.

Lemma resolve_around_late value position root depth m :
  late_step m → late_step (resolve_around cancelled Limits_default value position root depth m).
Proof.
  intros Hm. unfold resolve_around. pose proof (λ r, finish_root_late r position).
  apply late_step_bind; [auto with late|intros _]. auto 10 with late.
Qed.

(** A value planned as JSON resolves without admission errors, wherever it stands. *)
Lemma json_late v field task position root depth b :
  planned (json v field task position root depth) →
  late_step (resolve cancelled Limits_default v position root depth b).
Proof.
  revert field root depth. induction v as [| | |s|l IH|o IH] using Json_tree_ind; intros field root depth;
    cbn [json resolve]; (destruct (_ <? depth)%N; [by intros ?%planned_error|]);
    (destruct (root && _ && _ && _); [by intros ?%planned_error|]); intros Hp;
    apply resolve_around_late; try done.
  - by eapply resolve_text_late.
  - apply late_step_bind; [|done]. apply late_step_sequence, Forall_forall.
    intros m (i & m' & -> & Hm)%elem_of_lookup_imap. apply late_step_in_path.
    rewrite list_lookup_fmap_Some in Hm. destruct Hm as (v & -> & Hv).
    rewrite Forall_forall in IH. apply (IH v) with (field := pointer field (dec (N.of_nat i))).
    { by eapply list_elem_of_lookup_2. }
    apply Forall_concat in Hp. rewrite Forall_forall in Hp. apply Hp.
    apply elem_of_lookup_imap. exists i, (λ p, json v p task position false (depth + 1)%N).
    split; [done|]. apply list_lookup_fmap_Some. eauto.
  - apply late_step_bind; [|done]. apply late_step_sequence, Forall_forall.
    intros m ([k m'] & -> & Hm)%list_elem_of_fmap. rewrite merge_sort_Permutation in Hm.
    apply list_elem_of_fmap in Hm as ([k' v] & [= -> ->] & Hv). apply late_step_in_path.
    apply late_step_bind; [|done]. rewrite Forall_forall in IH.
    apply (IH (k', v) Hv (pointer field k')). unfold planned in Hp. rewrite Forall_bind, merge_sort_Permutation in Hp.
    rewrite Forall_forall in Hp. apply (Hp (k', json v (pointer field k') task position false (depth + 1))).
    apply list_elem_of_fmap. by exists (k', v).
Qed.

Lemma text_late v field task position b :
  planned (text v field task position true) →
  late_step (resolve cancelled Limits_default v position true 0 b).
Proof.
  destruct v; try by intros ?%planned_error. intros Hp. cbn [resolve].
  apply resolve_around_late. eapply (resolve_text_late _ field task).
  cbn [negb]. by rewrite andb_false_r.
Qed.

(** A member of an object that is checked as text may stand inside a JSON template. *)
Lemma text_json v field task position depth :
  planned (text v field task position true) → position ≠ WorkflowOutput →
  needs_whole position = false → (depth <= output_depth Limits_default)%N →
  planned (json v field task position false depth).
Proof.
  intros Hp Hne Hw Hd. destruct v; try by apply planned_error in Hp. cbn [json andb].
  destruct (N.ltb_spec (output_depth Limits_default) depth); [lia|].
  rewrite bool_decide_false by done. cbn [andb]. unfold text in *. cbn [as_str andb] in *.
  by rewrite Hw in Hp.
Qed.

Lemma rpc_headers_late v field task b :
  planned (rpc_headers v field task JsonRpcHeader) →
  late_step (resolve cancelled Limits_default v JsonRpcHeader true 0 b).
Proof.
  unfold rpc_headers. destruct v as [| | |s| |map]; cbn [as_str as_object]; try by intros ?%planned_error.
  - case_match; [apply text_late|by intros ?%planned_error].
  - intros Hp. eapply (json_late _ field task). cbn [json]. cbn [andb].
    destruct (N.ltb_spec (output_depth Limits_default) 0); [done|].
    rewrite bool_decide_false by done. cbn [andb]. unfold planned in *. apply Forall_bind in Hp. apply Forall_bind.
    rewrite merge_sort_Permutation, Forall_fmap. eapply Forall_impl; [exact Hp|].
    intros [k v]. cbn [fst snd compose]. intros Hv. by apply text_json.
Qed.
End planned.

(** ** Where the templates of a definition stand *)

(** The tasks of a definition: those of its [do] list, and those of the branches of a fork
    in it. *)
Inductive task_at (raw : Json) : bool → Json → Prop :=
| task_top entries entry name task :
    get "do" raw = Some (JArray entries) → entry ∈ entries →
    single_entry entry = Some (name, task) → task_at raw false task
| task_branch outer fork branches entry name task :
    task_at raw false outer → get "fork" outer = Some fork →
    get "branches" fork = Some (JArray branches) → entry ∈ branches →
    single_entry entry = Some (name, task) → task_at raw true task.

(** The arguments of a call of a given kind. *)
Definition call_args (task : Json) (call : string) : option Json :=
  if bool_decide (get "call" task ≫= as_str = Some call) then get "with" task else None.

(** An endpoint is a string or an object with a [uri]. *)
Definition endpoint_uri (v : Json) : option Json :=
  if bool_decide (is_Some (as_str v)) then Some v else get "uri" v.

(** The templates of a task that the validation checks, and the positions it checks them for. *)
Inductive checked_template (task : Json) : Json → Position → Prop :=
| tpl_set v : get "set" task = Some v → checked_template task v PSet
| tpl_export m k v :
    pointer_get ["export"; "as"] task ≫= as_object = Some m → (k, v) ∈ m →
    checked_template task v (if bool_decide (is_Some (get "run" task)) then RunnerExport else PExport)
| tpl_when cases case name c v :
    get "switch" task ≫= as_array = Some cases → case ∈ cases →
    single_entry case = Some (name, c) → name ≠ "default" → get "when" c = Some v →
    checked_template task v SwitchWhen
| tpl_assert key p v :
    (key, p) ∈ [("value", AssertValue); ("equals", AssertEquals); ("contains", AssertContains)] →
    pointer_get ["assert"; key] task = Some v → checked_template task v p
| tpl_predicate m k s :
    pointer_get ["assert"; "json"] task ≫= as_object = Some m → (k, JString s) ∈ m →
    checked_template task (JString s) AssertJsonPredicate
| tpl_comparison m k c key p v :
    pointer_get ["assert"; "json"] task ≫= as_object = Some m → (k, c) ∈ m →
    (key, p) ∈ [("equals", AssertJsonEquals); ("contains", AssertJsonContains)] →
    get key c = Some v → checked_template task v p
| tpl_ask key p v :
    (key, p) ∈ [("categoryCode", AskCategory); ("reasonCode", AskReason);
                ("assigneeId", AskAssignee); ("roleId", AskRole)] →
    pointer_get ["ask"; "assignment"; key] task = Some v → checked_template task v p
| tpl_idempotency call v :
    call ∈ ["http"; "mcp"; "a2a"] → is_Some (call_args task call) →
    get "idempotencyKey" task = Some v → checked_template task v IdempotencyKey
| tpl_argument call key p v :
    (key, p) ∈ call_positions call → call_args task call ≫= get key = Some v → checked_template task v p
| tpl_http key p m k v :
    (key, p) ∈ [("headers", HttpHeader); ("query", HttpQuery)] →
    (call_args task "http" ≫= get key) ≫= as_object = Some m → (k, v) ∈ m → checked_template task v p
| tpl_rpc_headers call v :
    call ∈ ["jsonrpc"; "openrpc"] → call_args task call ≫= get "headers" = Some v →
    checked_template task v JsonRpcHeader
| tpl_rpc_endpoint v :
    (call_args task "jsonrpc" ≫= get "endpoint") ≫= endpoint_uri = Some v →
    checked_template task v JsonRpcUri
| tpl_openrpc_endpoint v :
    (call_args task "openrpc" ≫= pointer_get ["document"; "endpoint"]) ≫= endpoint_uri = Some v →
    checked_template task v OpenRpcEndpoint
| tpl_server s :
    call_args task "openrpc" ≫= get "server" = Some (JString s) →
    checked_template task (JString s) JsonRpcUri
| tpl_server_url v :
    call_args task "openrpc" ≫= pointer_get ["server"; "url"] = Some v → checked_template task v JsonRpcUri
| tpl_resource v :
    call_args task "mcp" ≫= get "resource" = Some v → checked_template task v McpResourceUri
| tpl_agent key p v :
    (key, p) ∈ [("instructions", AgentInstructions); ("prompt", AgentPrompt)] →
    call_args task "agent" ≫= get key = Some v → checked_template task v p.

Lemma pointer_get_cons k ks v : pointer_get (k :: ks) v = get k v ≫= pointer_get ks.
Proof.
  unfold pointer_get. cbn [foldl mbind option_bind]. destruct (get k v) as [w|]; [done|].
  induction ks as [|k' ks IH]; [done|exact IH].
Qed.
Lemma pointer_get_nil v : pointer_get [] v = Some v.
Proof. done. Qed.

(** Follow the path of a template: split chained lookups and replace the known ones. *)
Ltac walk :=
  repeat match goal with
  | H : pointer_get (_ :: _) _ = Some _ |- _ => rewrite pointer_get_cons in H
  | H : pointer_get [] _ = Some _ |- _ => rewrite pointer_get_nil in H; injection H as H; subst
  | H : (pointer_get _ _ ≫= _) = Some _ |- _ => rewrite ?pointer_get_cons, ?pointer_get_nil in H
  | H : (_ ≫= _) = Some _ |- _ => apply bind_Some in H as (? & ? & ?)
  | H : is_Some _ |- _ => destruct H as [? ?]
  | H : as_object ?v = Some _, H' : context [as_object ?v] |- _ => rewrite H in H'
  | H : as_array ?v = Some _, H' : context [as_array ?v] |- _ => rewrite H in H'
  | H : get ?k ?v = Some _, H' : context [get ?k ?v] |- _ => rewrite H in H'; cbn [mbind option_bind] in H'
  end.

Section templates.
Context {JC : JsonChunks} {CE : CelEngine} {CL : CelLaws CE} (cancelled : nat → bool).

Definition resolves_late (v : Json) (p : Position) : Prop :=
  ∀ b, late_step (resolve cancelled Limits_default v p true 0 b).

Lemma planned_app l1 l2 : planned (l1 ++ l2) ↔ planned l1 ∧ planned l2.
Proof. apply Forall_app. Qed.

Lemma planned_bind {A} (f : A → list Check) l x : planned (l ≫= f) → x ∈ l → planned (f x).
Proof. unfold planned. rewrite Forall_bind, Forall_forall. intros H Hx. by apply H. Qed.

Lemma planned_present table object f key p v :
  planned (each_present table object f) → (key, p) ∈ table → get key object = Some v →
  planned (f v key p).
Proof.
  unfold each_present. intros H Hin Hv. apply (planned_bind _ _ _ H) in Hin. cbn [fst snd] in Hin.
  by rewrite Hv in Hin.
Qed.

Lemma planned_forbidden keys object field task key :
  planned (forbidden keys object field task) → key ∈ keys → get key object = None.
Proof.
  unfold forbidden. intros H Hin. apply (planned_bind _ _ _ H) in Hin.
  case_bool_decide; [by apply planned_error in Hin|]. destruct (get key object) eqn:E; [|done].
  exfalso. eauto.
Qed.

Lemma export_late task field name v p m k :
  planned (task_export task field name) →
  pointer_get ["export"; "as"] task ≫= as_object = Some m → (k, v) ∈ m →
  p = (if bool_decide (is_Some (get "run" task)) then RunnerExport else PExport) → resolves_late v p.
Proof.
  unfold task_export. intros Hp Hm Hin -> b. walk.
  apply (planned_bind _ _ _ Hp) in Hin. by eapply json_late.
Qed.

Lemma switch_late task field name cases case cname c v :
  planned (task_switch task field name) →
  get "switch" task ≫= as_array = Some cases → case ∈ cases →
  single_entry case = Some (cname, c) → cname ≠ "default" → get "when" c = Some v →
  resolves_late v SwitchWhen.
Proof.
  unfold task_switch. intros Hp Hc Hin Hs Hne Hw b. walk. revert Hp Hin. clear H H0.
  generalize 0 at 1, false at 1. intros i d. revert i d.
  induction cases as [|x0 cases IH]; intros i d Hp Hin; [by apply elem_of_nil in Hin|].
  cbn [switch_cases] in Hp. apply elem_of_cons in Hin as [<-|Hin].
  - rewrite Hs in Hp. rewrite (bool_decide_false (cname = "default")), Hw in Hp by done.
    rewrite !planned_app in Hp. destruct Hp as (_ & Hp & _). by eapply text_late.
  - destruct (single_entry x0) as [[n c0]|]; rewrite !planned_app in Hp; naive_solver.
Qed.

Lemma assert_late task field name v p :
  planned (task_assert task field name) →
  (∃ key, (key, p) ∈ [("value", AssertValue); ("equals", AssertEquals); ("contains", AssertContains)] ∧
     pointer_get ["assert"; key] task = Some v) ∨
  (∃ m k, pointer_get ["assert"; "json"] task ≫= as_object = Some m ∧
     ((∃ s, (k, JString s) ∈ m ∧ v = JString s ∧ p = AssertJsonPredicate) ∨
      ∃ c key, (k, c) ∈ m ∧ get key c = Some v ∧
        (key, p) ∈ [("equals", AssertJsonEquals); ("contains", AssertJsonContains)])) →
  resolves_late v p.
Proof.
  unfold task_assert. intros Hp Ht b. destruct Ht as [(key & Hin & Hv)|(m & k & Hm & Ht)]; walk;
    rewrite !planned_app in Hp; destruct Hp as (_ & Hp & Hj).
  - eapply planned_present in Hp; [|done|done]. by eapply json_late.
  - walk. destruct Ht as [(s & Hin & -> & ->)|(c & key & Hin & Hv & Hk)];
      apply (planned_bind _ _ _ Hj) in Hin; unfold json_comparison in Hin; cbn [fst snd] in Hin.
    + rewrite bool_decide_true in Hin by done. by eapply text_late.
    + rewrite bool_decide_false in Hin by (destruct c; naive_solver).
      eapply planned_present in Hin; [|done|done]. by eapply json_late.
Qed.

Lemma ask_late task field name key p v :
  planned (task_ask task field name) →
  (key, p) ∈ [("categoryCode", AskCategory); ("reasonCode", AskReason);
              ("assigneeId", AskAssignee); ("roleId", AskRole)] →
  pointer_get ["ask"; "assignment"; key] task = Some v → resolves_late v p.
Proof.
  unfold task_ask. intros Hp Hk Hv b. walk.
  eapply planned_present in Hp; [|done|done]. by eapply text_late.
Qed.

(** What the checks of a call say of its arguments. *)
Lemma call_planned task field name call args :
  planned (task_call task field name) → call_args task call = Some args →
  call ∈ ["http"; "jsonrpc"; "openrpc"; "mcp"; "a2a"; "agent"] ∧
  let path := pointer field "with" in
  planned (if bool_decide (call ∈ ["http"; "mcp"; "a2a"])
           then each_present [("idempotencyKey", IdempotencyKey)] task
                  (λ value key position, text value (pointer field key) (Some name) position true)
           else []) ∧
  planned (each_present (call_positions call) args
    (λ value key position, json value (pointer path key) (Some name) position true 0)) ∧
  planned (if bool_decide (call = "http") then call_http args path name else
           if bool_decide (call = "jsonrpc") then call_jsonrpc args path name else
           if bool_decide (call = "openrpc") then call_openrpc args path name else
           if bool_decide (call = "mcp") then call_mcp args path name else
           if bool_decide (call = "agent") then call_agent args path name else []).
Proof.
  unfold task_call, call_args. intros Hp Ha. case_bool_decide as Hc; [|done].
  apply bind_Some in Hc as (c & Hc & Hs). rewrite Hc in Hp. cbv zeta in Hp. rewrite Hs in Hp. cbn [default from_option id] in Hp.
  destruct (decide (call ∈ ["http"; "jsonrpc"; "openrpc"; "mcp"; "a2a"; "agent"])) as [Hin|Hin].
  2:{ rewrite (bool_decide_false (call ∈ ["http"; "jsonrpc"; "openrpc"; "mcp"; "a2a"; "agent"])) in Hp by done.
      by apply planned_error in Hp. }
  rewrite (bool_decide_true (call ∈ ["http"; "jsonrpc"; "openrpc"; "mcp"; "a2a"; "agent"])) in Hp by done.
  cbn [negb] in Hp. rewrite Ha in Hp. split; [done|].
  destruct args; try by apply planned_error in Hp. by rewrite !planned_app in Hp.
Qed.

Lemma endpoint_late v field task p b uri :
  planned (endpoint v field task (Some p)) → endpoint_uri v = Some uri →
  late_step (resolve cancelled Limits_default uri p true 0 b).
Proof.
  unfold endpoint, endpoint_uri. case_bool_decide.
  - intros Hp [= <-]. by eapply text_late.
  - intros Hp Hu. rewrite Hu in Hp. cbn [mbind option_bind] in Hp. by eapply text_late.
Qed.

(** The specific part of a call. *)
Lemma call_part task field name call args :
  planned (task_call task field name) → call_args task call = Some args →
  let path := pointer field "with" in
  (call = "http" → planned (call_http args path name)) ∧
  (call = "jsonrpc" → planned (call_jsonrpc args path name)) ∧
  (call = "openrpc" → planned (call_openrpc args path name)) ∧
  (call = "mcp" → planned (call_mcp args path name)) ∧
  (call = "agent" → planned (call_agent args path name)).
Proof.
  intros Hp Ha. destruct (call_planned _ _ _ _ _ Hp Ha) as (_ & _ & _ & H). cbv zeta.
  split_and!; intros ->; exact H.
Qed.

Lemma rpc_call_late task field name v call :
  planned (task_call task field name) → call ∈ ["jsonrpc"; "openrpc"] →
  call_args task call ≫= get "headers" = Some v → resolves_late v JsonRpcHeader.
Proof.
  intros Hp Hin Hv b. apply bind_Some in Hv as (args & Ha & Hv).
  destruct (call_part _ _ _ _ _ Hp Ha) as (_ & Hj & Ho & _).
  apply elem_of_cons in Hin as [->| ->%list_elem_of_singleton].
  - specialize (Hj eq_refl). unfold call_jsonrpc in Hj. rewrite planned_app in Hj. destruct Hj as [_ Hj].
    eapply planned_present in Hj; [|left|done]. by eapply rpc_headers_late.
  - specialize (Ho eq_refl). unfold call_openrpc in Ho. rewrite !planned_app in Ho. destruct Ho as [Ho _].
    eapply planned_present in Ho; [|left|done]. by eapply rpc_headers_late.
Qed.

Lemma http_call_late task field name key p m k v :
  planned (task_call task field name) → (key, p) ∈ [("headers", HttpHeader); ("query", HttpQuery)] →
  (call_args task "http" ≫= get key) ≫= as_object = Some m → (k, v) ∈ m → resolves_late v p.
Proof.
  intros Hp Hk Hm Hin b. apply bind_Some in Hm as (o & (args & Ha & Ho)%bind_Some & Hm).
  destruct (call_part _ _ _ _ _ Hp Ha) as (Hh & _). specialize (Hh eq_refl).
  unfold call_http in Hh. rewrite !planned_app in Hh. destruct Hh as (_ & _ & Hh).
  eapply planned_present in Hh; [|done|done]. unfold map_strings in Hh. rewrite Hm in Hh.
  apply (planned_bind _ _ _ Hh) in Hin. by eapply text_late.
Qed.

Lemma openrpc_call_late task field name v p :
  planned (task_call task field name) →
  ((call_args task "openrpc" ≫= pointer_get ["document"; "endpoint"]) ≫= endpoint_uri = Some v ∧
     p = OpenRpcEndpoint) ∨
  (∃ server, call_args task "openrpc" ≫= get "server" = Some server ∧ p = JsonRpcUri ∧
     ((∃ s, server = JString s ∧ v = JString s) ∨ get "url" server = Some v)) →
  resolves_late v p.
Proof.
  intros Hp Ht b. assert (∃ args, call_args task "openrpc" = Some args) as [args Ha].
  { destruct (call_args task "openrpc"); [eauto|]. destruct Ht as [[? _]|(? & ? & _)]; done. }
  destruct (call_part _ _ _ _ _ Hp Ha) as (_ & _ & Ho & _). specialize (Ho eq_refl).
  unfold call_openrpc in Ho. rewrite !planned_app in Ho. destruct Ho as (_ & He & Hs).
  rewrite Ha in Ht. cbn [mbind option_bind] in Ht. destruct Ht as [[Hv ->]|(server & Hv & -> & Ht)].
  - walk. by eapply endpoint_late.
  - rewrite Hv in Hs. destruct Ht as [(s & -> & ->)|Hu].
    + rewrite bool_decide_true in Hs by done. by eapply text_late.
    + rewrite bool_decide_false in Hs by (destruct server; naive_solver). rewrite Hu in Hs. by eapply text_late.
Qed.

Lemma template_late branches inside task field name v p :
  planned (task_with branches inside task field name) → checked_template task v p → resolves_late v p.
Proof.
  intros Hp Ht. destruct task as [| | | | |members]; try by apply planned_error in Hp.
  cbn [task_with] in Hp. set (task := JObject members) in *. cbv zeta in Hp. rewrite !planned_app in Hp.
  destruct Hp as (_ & _ & _ & Hexp & Hset & Hsw & Has & Hask & _ & _ & Hcall).
  destruct Ht as [v Hv|m k v Hm Hin|cases case cname c v Hc Hin Hs Hne Hw|key p v Hk Hv|m k s Hm Hin
    |m k c key p v Hm Hin Hk Hv|key p v Hk Hv|call v Hin [args Ha] Hv|call key p v Hk Hv|key p m k v Hk Hm Hin
    |call v Hin Hv|v Hv|v Hv|s Hv|v Hv|v Hv|key p v Hk Hv].
  - intros b. rewrite Hv in Hset. by eapply json_late.
  - by eapply export_late.
  - by eapply switch_late.
  - eapply assert_late; eauto.
  - eapply assert_late; [done|]. right. exists m, k. split; [done|]. left. eauto.
  - eapply assert_late; [done|]. right. exists m, k. split; [done|]. right. eauto.
  - by eapply ask_late.
  - intros b. destruct (call_planned _ _ _ _ _ Hcall Ha) as (_ & Hi & _). rewrite bool_decide_true in Hi by done.
    eapply planned_present in Hi; [|left|done]. by eapply text_late.
  - intros b. apply bind_Some in Hv as (args & Ha & Hv).
    destruct (call_planned _ _ _ _ _ Hcall Ha) as (_ & _ & Hi & _).
    eapply planned_present in Hi; [|done|done]. by eapply json_late.
  - by eapply http_call_late.
  - by eapply rpc_call_late.
  - intros b. apply bind_Some in Hv as (e & (args & Ha & He)%bind_Some & Hv).
    destruct (call_part _ _ _ _ _ Hcall Ha) as (_ & Hj & _). specialize (Hj eq_refl).
    unfold call_jsonrpc in Hj. rewrite planned_app, He in Hj. destruct Hj as [Hj _]. by eapply endpoint_late.
  - eapply openrpc_call_late; eauto.
  - eapply openrpc_call_late; [done|]. right. eexists. split_and!; [done|done|]. left. eauto.
  - apply bind_Some in Hv as (args & Ha & Hv). eapply openrpc_call_late; [done|]. right. walk.
    eexists. rewrite Ha. split_and!; [done|done|]. by right.
  - intros b. apply bind_Some in Hv as (args & Ha & Hv).
    destruct (call_part _ _ _ _ _ Hcall Ha) as (_ & _ & _ & Hm & _). specialize (Hm eq_refl).
    unfold call_mcp in Hm. rewrite planned_app in Hm. destruct Hm as [_ Hm].
    eapply planned_present in Hm; [|left|done]. by eapply text_late.
  - intros b. apply bind_Some in Hv as (args & Ha & Hv).
    destruct (call_part _ _ _ _ _ Hcall Ha) as (_ & _ & _ & _ & Hm). specialize (Hm eq_refl).
    eapply planned_present in Hm; [|done|done]. by eapply text_late.
Qed.
End templates.

(** ** Accepted definitions *)

Section accepted.
Context {JC : JsonChunks} {CE : CelEngine} {CL : CelLaws CE} {SC : Scheduling}.

Lemma elem_of_indexed l v : v ∈ l → ∃ i, (i, v) ∈ indexed l.
Proof.
  intros (i & Hi)%list_elem_of_lookup. exists (dec (N.of_nat i)). unfold indexed.
  apply (elem_of_lookup_imap_2 (λ i v, (dec (N.of_nat i), v)) l v i Hi).
Qed.

Lemma tasks_with_planned task value field entries entry name t :
  planned (tasks_with task value field) → value = Some (JArray entries) → entry ∈ entries →
  single_entry entry = Some (name, t) → ∃ field', planned (task t field' name).
Proof.
  unfold tasks_with. intros Hp -> (i & Hin)%elem_of_indexed Hs. cbn [mbind option_bind as_array] in Hp.
  apply (planned_bind _ _ _ Hp) in Hin. cbn [fst snd] in Hin. rewrite Hs in Hin. eauto.
Qed.

(** Every task of the definition has been checked. *)
Lemma task_at_planned raw inside task :
  planned (tasks (get "do" raw) "/do") → task_at raw inside task →
  ∃ branches field name, planned (task_with branches inside task field name) ∧
    (inside = false → branches = branch_tasks).
Proof.
  intros Hp. induction 1 as [entries entry name task Hdo Hin Hs|outer fork branches entry name task _ IH Hf Hb Hin Hs].
  - destruct (tasks_with_planned _ _ _ _ _ _ _ Hp Hdo Hin Hs) as [field H]. eauto 10.
  - destruct IH as (br & field & oname & Ho & Hbr). rewrite Hbr in Ho by done.
    destruct outer as [| | | | |members]; try done. cbn [task_with] in Ho. cbv zeta in Ho.
    rewrite !planned_app in Ho. destruct Ho as (_ & _ & _ & _ & _ & _ & _ & _ & Hfork & _).
    rewrite Hf in Hfork. destruct (tasks_with_planned _ _ _ _ _ _ _ Hfork Hb Hin Hs) as [field' H].
    eexists _, _, _. split; [exact H|done].
Qed.

Lemma validate_from_Ok lost k checks : validate_from lost k checks = Ok () → planned checks.
Proof.
  revert k. induction checks as [|c checks IH]; intros k; [constructor|]. cbn [validate_from].
  unfold planned in *. intros H. constructor.
  - unfold passes. destruct (ck_finding c); [|done]. destruct (lost k); [done|].
    destruct (cel_compile _ _ _); [eauto|done].
  - destruct (ck_finding c); [|done]. destruct (lost k); [done|].
    destruct (cel_compile _ _ _); [eauto|done].
Qed.

Lemma attribute_passes c : passes (attribute c) ↔ passes c.
Proof. unfold attribute. destruct (ck_task c); [done|]. by destruct (starts_with _ _). Qed.

Lemma from_raw_checks raw plan :
  from_raw raw = Some (Ok plan) → dv_profile plan = CelWorkflowV2 →
  ∃ ranks foreign,
    rank_loop (S (N.to_nat (json_nodes raw))) [("", raw)] ∅ (retry_checks raw) = Some (ranks, foreign) ∧
    dv_checks plan = stable_sort (λ a b, key_leb (check_key ranks a) (check_key ranks b))
                       (attribute <$> collected raw foreign).
Proof.
  unfold from_raw. destruct (resolve_profile raw) as [[|]|]; [by intros [= <-]| |done].
  intros ([ranks foreign] & Hr & [= <-])%bind_Some _. eauto.
Qed.

(** The plan of an accepted definition passes, whatever the order of its checks. *)
Lemma accepted_planned raw plan lost :
  from_raw raw = Some (Ok plan) → dv_profile plan = CelWorkflowV2 → validate lost plan = Ok () →
  ∃ ranks foreign,
    rank_loop (S (N.to_nat (json_nodes raw))) [("", raw)] ∅ (retry_checks raw) = Some (ranks, foreign) ∧
    planned (collected raw foreign).
Proof.
  intros Hf Hprof Hv. destruct (from_raw_checks _ _ Hf Hprof) as (ranks & foreign & Hr & Hc).
  exists ranks, foreign. split; [done|]. unfold validate in Hv. apply validate_from_Ok in Hv.
  unfold planned in *. rewrite Hc, stable_sort_perm, Forall_fmap in Hv.
  eapply Forall_impl; [exact Hv|]. intros c. apply attribute_passes.
Qed.
End accepted.

(** ** Pointers *)

(** The escaping of a key, byte by byte. *)
Definition escaped_byte (a : ascii) : list ascii :=
  if Ascii.eqb a "~" then ["~"; "0"]%char else if Ascii.eqb a "/" then ["~"; "1"]%char else [a].
Definition escape_key (key : string) : string := replace_byte "/" "~1" (replace_byte "~" "~0" key).

Lemma bytes_escape_key key : bytes (escape_key key) = bytes key ≫= escaped_byte.
Proof.
  unfold escape_key, replace_byte. rewrite !bytes_of_bytes.
  induction (bytes key) as [|a l IH]; [done|]. rewrite !bind_cons, bind_app, IH. f_equal.
  unfold escaped_byte. destruct (Ascii.eqb_spec a "~") as [->|Hne]; [done|]. cbn [mbind list_bind].
  by rewrite app_nil_r.
Qed.

Lemma replace_pair_skip a b c x l :
  Ascii.eqb x a = false → replace_pair a b c (x :: l) = x :: replace_pair a b c l.
Proof. intros Hx. destruct l as [|y l]; [done|]. cbn [replace_pair]. by rewrite Hx. Qed.

Lemma unescape_escape key : unescape (escape_key key) = key.
Proof.
  unfold unescape. rewrite bytes_escape_key.
  assert (H1 : ∀ l, replace_pair "~" "1" "/" (l ≫= escaped_byte) =
    l ≫= λ a, if Ascii.eqb a "~" then ["~"; "0"]%char else [a]).
  { induction l as [|a l IH]; [done|]. rewrite !bind_cons. unfold escaped_byte at 1.
    destruct (Ascii.eqb_spec a "~") as [->|Hne].
    - cbn [app]. change (replace_pair "~" "1" "/" ("~" :: "0" :: (l ≫= escaped_byte)))%char
        with ("~" :: replace_pair "~" "1" "/" ("0" :: (l ≫= escaped_byte)))%char.
      by rewrite replace_pair_skip, IH.
    - destruct (Ascii.eqb_spec a "/") as [->|Hne'].
      + cbn [app]. change (replace_pair "~" "1" "/" ("~" :: "1" :: (l ≫= escaped_byte)))%char
          with ("/" :: replace_pair "~" "1" "/" (l ≫= escaped_byte))%char. by rewrite IH.
      + cbn [app]. rewrite replace_pair_skip, IH; [done|]. by apply Ascii.eqb_neq. }
  assert (H2 : ∀ l, replace_pair "~" "0" "~"
    (l ≫= λ a, if Ascii.eqb a "~" then ["~"; "0"]%char else [a]) = l).
  { induction l as [|a l IH]; [done|]. rewrite bind_cons. destruct (Ascii.eqb_spec a "~") as [->|Hne].
    - cbn [app]. change (replace_pair "~" "0" "~" ("~" :: "0" :: ?r))%char with ("~" :: replace_pair "~" "0" "~" r)%char.
      by rewrite IH.
    - cbn [app]. rewrite replace_pair_skip, IH; [done|]. by apply Ascii.eqb_neq. }
  by rewrite H1, H2, of_bytes_bytes.
Qed.

#[global] Instance escape_key_inj : Inj (=) (=) escape_key.
Proof. intros k1 k2 H. by rewrite <- (unescape_escape k1), H, unescape_escape. Qed.

Lemma escape_key_no_slash key : contains_byte (escape_key key) "/" = false.
Proof.
  unfold contains_byte. rewrite bytes_escape_key. induction (bytes key) as [|a l IH]; [done|].
  rewrite bind_cons, existsb_app, IH, orb_false_r. unfold escaped_byte.
  destruct (Ascii.eqb_spec a "~") as [->|]; [done|]. destruct (Ascii.eqb_spec a "/") as [->|Hne]; [done|].
  cbn [existsb]. rewrite orb_false_r. apply Ascii.eqb_neq. congruence.
Qed.

(** The segments of a pointer. *)
Lemma split_pointer field key : split "/" (pointer field key) = split "/" field ++ [escape_key key].
Proof.
  unfold pointer. fold (escape_key key). change ("/" +:+ escape_key key) with (String "/" (escape_key key)).
  rewrite split_app_sep. f_equal. apply split_single, escape_key_no_slash.
Qed.

(** ** Document order *)

(** The values of a document with their pointers, in the order of the ranks: a value before
    the values in it, the members of an object by key. *)
Fixpoint preorder (field : string) (v : Json) : list (string * Json) :=
  (field, v) ::
  match v with
  | JArray l => concat (imap (λ i f, f (pointer field (dec (N.of_nat i)))) ((λ v p, preorder p v) <$> l))
  | JObject m =>
      merge_sort (λ a b, String.le a.1 b.1) ((λ e, (e.1, preorder (pointer field e.1) e.2)) <$> m) ≫= snd
  | _ => []
  end.

Definition preorder_all (field : string) (entries : list (string * Json)) : list (string * Json) :=
  entries ≫= λ e, preorder (pointer field e.1) e.2.

Lemma preorder_array field l : preorder field (JArray l) = (field, JArray l) :: preorder_all field (indexed l).
Proof.
  cbn [preorder]. f_equal. unfold preorder_all, indexed.
  assert (∀ name : nat → string,
    concat (imap (λ i f, f (pointer field (name i))) ((λ v p, preorder p v) <$> l)) =
    imap (λ i v, (name i, v)) l ≫= λ e, preorder (pointer field e.1) e.2) as H;
    [|apply (H (λ i, dec (N.of_nat i)))].
  induction l as [|v l IH]; intros name; [done|]. cbn [fmap list_fmap imap concat].
  rewrite bind_cons. f_equal. apply (IH (λ i, name (S i))).
Qed.

Lemma preorder_object field m : preorder field (JObject m) = (field, JObject m) :: preorder_all field (by_key m).
Proof.
  cbn [preorder]. f_equal. unfold preorder_all, by_key.
  rewrite (merge_sort_fmap (λ a b : string * Json, String.le a.1 b.1) (λ a b : string * list (string * Json), String.le a.1 b.1)
    (λ e, (e.1, preorder (pointer field e.1) e.2))) by done.
  induction (merge_sort _ m) as [|e l IH]; [done|]. rewrite fmap_cons, !bind_cons. by f_equal.
Qed.

(** Each object of a parsed document has distinct keys. *)
Inductive unique_keys : Json → Prop :=
| unique_array l : Forall unique_keys l → unique_keys (JArray l)
| unique_object m : NoDup m.*1 → Forall (λ e, unique_keys e.2) m → unique_keys (JObject m)
| unique_scalar v : match v with JArray _ | JObject _ => False | _ => True end → unique_keys v.

Lemma preorder_prefix field v f w : (f, w) ∈ preorder field v → split "/" field `prefix_of` split "/" f.
Proof.
  revert field. induction v as [| | |s|l IH|m IH] using Json_tree_ind; intros field;
    try by intros [[= -> ->]|H%elem_of_nil]%elem_of_cons.
  - rewrite preorder_array. intros [[= -> ->]|H]%elem_of_cons; [done|].
    apply list_elem_of_bind in H as ([k x] & Hx & Hin). unfold indexed in Hin. apply elem_of_lookup_imap in Hin as (i & y & [= -> ->] & Hy).
    rewrite Forall_forall in IH. apply (IH y) in Hx; [|by eapply list_elem_of_lookup_2].
    rewrite split_pointer in Hx. etrans; [|exact Hx]. by exists [escape_key (dec (N.of_nat i))].
  - rewrite preorder_object. intros [[= -> ->]|H]%elem_of_cons; [done|].
    apply list_elem_of_bind in H as ([k x] & Hx & Hin). rewrite by_key_perm in Hin.
    rewrite Forall_forall in IH. apply (IH (k, x) Hin) in Hx.
    cbn [fst] in Hx. rewrite split_pointer in Hx. etrans; [|exact Hx]. by exists [escape_key k].
Qed.

Lemma preorder_all_nodup field entries :
  NoDup entries.*1 → Forall (λ e, NoDup (preorder (pointer field e.1) e.2).*1) entries →
  NoDup (preorder_all field entries).*1.
Proof.
  intros Hk Hv. induction Hv as [|[k v] entries Hv _ IH]; [constructor|].
  cbn [fmap list_fmap fst] in Hk. apply NoDup_cons in Hk as [Hk Hks]. unfold preorder_all in *.
  rewrite bind_cons, fmap_app. apply NoDup_app. split_and!; [done| |by apply IH].
  intros f ([f1 w1] & -> & H1)%list_elem_of_fmap ([f2 w2] & Hf & H2)%list_elem_of_fmap. cbn [fst snd] in *. subst f2.
  apply list_elem_of_bind in H2 as ([k' v'] & H2 & Hin). apply preorder_prefix in H1, H2.
  cbn [fst snd] in *. rewrite split_pointer in H1, H2. destruct H1 as [t1 H1], H2 as [t2 H2].
  rewrite H1, <- !(assoc_L (++)) in H2. apply app_inv_head in H2. injection H2 as Hkk _.
  apply (inj escape_key) in Hkk. subst k'. apply Hk, list_elem_of_fmap. by exists (k, v').
Qed.

Lemma dec_inj i j : dec (N.of_nat i) = dec (N.of_nat j) → i = j.
Proof. unfold dec. intros H%(inj pretty). lia. Qed.

Lemma indexed_nodup l : NoDup (indexed l).*1.
Proof.
  unfold indexed. rewrite fmap_imap. apply NoDup_alt. intros i j x Hi Hj.
  rewrite list_lookup_imap in Hi, Hj. destruct (l !! i), (l !! j); try done. cbn in Hi, Hj.
  apply dec_inj. congruence.
Qed.

Lemma preorder_all_below field entries f w : (f, w) ∈ preorder_all field entries → f ≠ field.
Proof.
  intros ([k x] & [t Ht]%preorder_prefix & _)%list_elem_of_bind ->. rewrite split_pointer in Ht.
  apply (f_equal length) in Ht. rewrite !length_app in Ht. cbn in Ht. lia.
Qed.

Lemma preorder_nodup field v : unique_keys v → NoDup (preorder field v).*1.
Proof.
  intros Hu. revert field. induction v as [| | |s|l IH|m IH] using Json_tree_ind; intros field;
    try by apply NoDup_singleton.
  - rewrite preorder_array. cbn [fmap list_fmap fst]. inversion Hu as [? Hl|?|? H]; subst; [|done].
    constructor; [intros ([f w] & -> & H)%list_elem_of_fmap; by apply preorder_all_below in H|].
    apply preorder_all_nodup; [apply indexed_nodup|]. apply Forall_forall. intros [k x] Hin.
    unfold indexed in Hin. apply elem_of_lookup_imap in Hin as (i & y & [= -> ->] & Hy).
    rewrite Forall_forall in IH, Hl. apply list_elem_of_lookup_2 in Hy. by apply IH, Hl.
  - rewrite preorder_object. cbn [fmap list_fmap fst]. inversion Hu as [?|? Hk Hl|? H]; subst; [|done].
    constructor; [intros ([f w] & -> & H)%list_elem_of_fmap; by apply preorder_all_below in H|].
    apply preorder_all_nodup; [by rewrite by_key_perm|]. apply Forall_forall. intros [k x] Hin.
    rewrite by_key_perm in Hin. rewrite Forall_forall in IH, Hl. by apply (IH _ Hin), (Hl _ Hin).
Qed.

(** ** The ranking loop *)

(** The checks it adds: one for every string that holds the foreign opening. *)
Definition foreign_checks (values : list (string * Json)) : list Check :=
  values ≫= λ e, match e.2 with
                  | JString s => if contains s "${{" then error e.1 None Unsupported else []
                  | _ => []
                  end.
Definition add_rank (ranks : gmap string N) (e : string * Json) : gmap string N :=
  <[e.1 := N.of_nat (size ranks)]> ranks.

Lemma total_indexed f l : Prelude.total (λ e, f e.2) (indexed l) = Prelude.total f l.
Proof.
  assert (∀ name : nat → string, Prelude.total (λ e, f e.2) (imap (λ i v, (name i, v)) l) = Prelude.total f l)
    as H; [|apply (H (λ i, dec (N.of_nat i)))].
  induction l as [|v l IH]; intros name; [done|]. cbn [imap Prelude.total snd]. f_equal.
  apply (IH (λ i, name (S i))).
Qed.

Lemma rank_loop_spec fuel todo ranks checks :
  N.to_nat (Prelude.total (λ e, json_nodes e.2) todo) < fuel →
  let visited := todo ≫= λ e, preorder e.1 e.2 in
  rank_loop fuel todo ranks checks =
    Some (foldl add_rank ranks visited, checks ++ foreign_checks visited).
Proof.
  revert todo ranks checks. induction fuel as [|fuel IH]; intros todo ranks checks Hf; [lia|].
  cbv zeta. destruct todo as [|[field v] todo]; [cbn; by rewrite app_nil_r|].
  cbn [rank_loop Prelude.total snd] in *. rewrite bind_cons. cbn [fst snd].
  assert (Hbind : ∀ entries : list (string * Json),
    ((λ e, (pointer field e.1, e.2)) <$> entries) ≫= (λ e, preorder e.1 e.2) = preorder_all field entries).
  { intros entries. unfold preorder_all. induction entries as [|e entries IHe]; [done|].
    rewrite fmap_cons, !bind_cons, IHe. done. }
  destruct v as [| | |s|l|m].
  1-3: cbn in Hf; rewrite IH by lia; done.
  - cbn in Hf. rewrite IH by lia. unfold foreign_checks. cbn [preorder app]. rewrite bind_cons. cbn [fst snd foldl].
    case_match; [|by rewrite app_nil_l]. by rewrite <- (assoc_L (++)).
  - rewrite json_nodes_array in Hf. rewrite IH.
    + rewrite bind_app, Hbind, preorder_array. done.
    + rewrite total_app, total_fmap. cbn [snd]. rewrite (total_indexed (λ x, json_nodes x)). lia.
  - rewrite json_nodes_object in Hf. rewrite IH.
    + rewrite bind_app, Hbind, preorder_object. done.
    + rewrite total_app, total_fmap. cbn [snd]. rewrite (total_perm _ _ _ (by_key_perm m)). lia.
Qed.

Lemma foldl_ranks l :
  NoDup l.*1 →
  let ranks := foldl add_rank ∅ l in
  size ranks = length l ∧
  (∀ i f v, l !! i = Some (f, v) → ranks !! f = Some (N.of_nat i)) ∧
  (∀ f, f ∉ l.*1 → ranks !! f = None).
Proof.
  induction l as [|[f v] l IH] using rev_ind; intros Hnd; cbv zeta.
  { split_and!; [apply map_size_empty|done|intros; apply lookup_empty]. }
  rewrite fmap_app in *. apply NoDup_app in Hnd as (Hl & Hd & _). destruct (IH Hl) as (Hs & Hin & Hout).
  rewrite foldl_app. cbn [foldl]. unfold add_rank at 1 3 5. cbn [fst].
  assert (Hf : f ∉ l.*1) by (intros H; apply (Hd f H); cbn; left). split_and!.
  - rewrite map_size_insert_None by auto. rewrite Hs, length_app. cbn. lia.
  - intros i f' v' Hi. rewrite lookup_app in Hi. destruct (l !! i) as [[f1 v1]|] eqn:E.
    + injection Hi as -> ->. rewrite lookup_insert_ne; [by eapply Hin|]. intros ->. apply Hf.
      apply list_elem_of_fmap. exists (f', v'). split; [done|]. by eapply list_elem_of_lookup_2.
    + apply lookup_ge_None in E. destruct (i - length l) as [|n] eqn:En; [|done]. injection Hi as -> ->.
      rewrite lookup_insert_eq, Hs. f_equal. lia.
  - intros f'. rewrite not_elem_of_app. intros [Hn Hne]. rewrite lookup_insert_ne by set_solver. by apply Hout.
Qed.

Lemma key_leb_spec ra fa na rb fb nb :
  key_leb (ra, fa, na) (rb, fb, nb) = true ↔
  (ra < rb)%N ∨ ra = rb ∧ (fa ≠ fb ∧ String.le fa fb ∨ fa = fb ∧ (na <= nb)%N).
Proof.
  unfold key_leb, String.le. destruct (N.eqb_spec ra rb) as [->|Hr]; cbn [negb].
  - destruct (String.eqb_spec fa fb) as [->|Hf]; cbn [negb].
    + rewrite N.leb_le. naive_solver lia.
    + rewrite Is_true_true. naive_solver lia.
  - rewrite N.ltb_lt. naive_solver lia.
Qed.

Lemma key_leb_total a b : key_leb a b = true ∨ key_leb b a = true.
Proof.
  destruct a as [[ra fa] na], b as [[rb fb] nb]. rewrite !key_leb_spec.
  destruct (N.lt_trichotomy ra rb) as [|[->|]]; [auto| |auto].
  destruct (decide (fa = fb)) as [->|Hne]; [destruct (N.le_ge_cases na nb); auto 10|].
  destruct (base.total String.le fa fb); auto 10.
Qed.

Lemma key_leb_trans a b c : key_leb a b = true → key_leb b c = true → key_leb a c = true.
Proof.
  destruct a as [[ra fa] na], b as [[rb fb] nb], c as [[rc fc] nc]. rewrite !key_leb_spec.
  intros [?|[-> H1]] [?|[-> H2]]; [left; lia..|]. right. split; [done|].
  destruct H1 as [[Hne1 H1]|[-> H1]], H2 as [[Hne2 H2]|[-> H2]]; [|by left..|right; split; [done|lia]].
  left. split; [|by etrans]. intros ->. apply Hne1. by apply (anti_symm String.le).
Qed.

Lemma length_preorder field v : N.of_nat (length (preorder field v)) = json_nodes v.
Proof.
  assert (Hall : ∀ entries f, Forall (λ e, ∀ f, N.of_nat (length (preorder f e.2)) = json_nodes e.2) entries →
    N.of_nat (length (preorder_all f entries)) = Prelude.total (λ e, json_nodes e.2) entries).
  { intros entries f. unfold preorder_all. induction 1 as [|e entries He _ IH]; [done|].
    rewrite bind_cons, length_app, Nat2N.inj_add, He, IH. done. }
  revert field. induction v as [| | |s|l IH|m IH] using Json_tree_ind; intros field; try done.
  - rewrite preorder_array, json_nodes_array. cbn [length]. rewrite Nat2N.inj_succ, Hall.
    + rewrite (total_indexed (λ x, json_nodes x)). lia.
    + apply Forall_forall. intros e (i & v & -> & Hv%list_elem_of_lookup_2)%elem_of_lookup_imap.
      rewrite Forall_forall in IH. by apply IH.
  - rewrite preorder_object, json_nodes_object. cbn [length]. rewrite Nat2N.inj_succ, Hall.
    + rewrite (total_perm _ _ _ (by_key_perm m)). lia.
    + by rewrite by_key_perm.
Qed.

Section diagnostics.
Context {JC : JsonChunks} {CE : CelEngine} {CL : CelLaws CE} {SC : Scheduling}.

(** What validation reports of a check that does not pass. *)
Definition reports (d : Diagnostic) (c : Check) : Prop :=
  dg_field d = ck_field c ∧ dg_task d = ck_task c ∧
  match ck_finding c with
  | FError e => dg_error d = e
  | FSite s => ∃ e, cel_compile (si_source s) (si_position s) Limits_default = Err e ∧
                    dg_error d = error_at e (si_span s) (si_offset s)
  end.

Lemma validate_from_Err lost k checks d :
  validate_from lost k checks = Err (VDiagnostic d) →
  ∃ before c after, checks = before ++ c :: after ∧ planned before ∧ ¬ passes c ∧ reports d c.
Proof.
  revert k. induction checks as [|c checks IH]; intros k; [done|]. cbn [validate_from]. cbv zeta.
  unfold reports, passes. destruct (ck_finding c) as [s|e] eqn:Ef.
  2:{ intros [= <-]. exists [], c, checks. rewrite Ef. split_and!; try done; [constructor|by intros []]. }
  destruct (lost k); [done|]. destruct (cel_compile _ _ _) as [program|e] eqn:Ec.
  - intros (before & c' & after & -> & Hb & Hc & Hd)%IH. exists (c :: before), c', after.
    split_and!; try done; [|by apply Hd..]. constructor; [|done]. unfold passes. rewrite Ef. eauto.
  - intros [= <-]. exists [], c, checks. rewrite Ef. split_and!; try done; [constructor| |naive_solver].
    intros [? ?]. congruence.
Qed.

(** The first of several failing checks in the order of the plan is first in the document. *)
Lemma rank_order raw ranks foreign c c' i v :
  unique_keys raw → (json_nodes raw <= u64_max)%N →
  rank_loop (S (N.to_nat (json_nodes raw))) [("", raw)] ∅ foreign.1 = Some (ranks, foreign.2) →
  key_leb (check_key ranks c) (check_key ranks c') = true →
  preorder "" raw !! i = Some (ck_field c', v) →
  ∃ j w, j ≤ i ∧ preorder "" raw !! j = Some (ck_field c, w).
Proof.
  intros Hu Hmax Hr Hk Hi. rewrite rank_loop_spec in Hr by (cbn; lia). cbn [mbind list_bind] in Hr.
  injection Hr as <- _. rewrite app_nil_r in Hk. cbn [fst snd] in Hk.
  destruct (foldl_ranks (preorder "" raw) (preorder_nodup _ _ Hu)) as (_ & Hin & Hout).
  pose proof (lookup_lt_Some _ _ _ Hi) as Hlt. pose proof (length_preorder "" raw) as Hlen.
  unfold check_key in Hk. rewrite (Hin _ _ _ Hi) in Hk. cbn [default from_option id] in Hk.
  apply key_leb_spec in Hk.
  destruct (decide (ck_field c ∈ (preorder "" raw).*1)) as [Hc|Hc].
  - apply list_elem_of_fmap in Hc as ([f w] & Hfw & Hc). apply list_elem_of_lookup in Hc as [j Hj].
    cbn [fst] in Hfw. rewrite Hfw in *. exists j, w. split; [|done]. rewrite (Hin _ _ _ Hj) in Hk. cbn [default from_option id] in Hk. lia.
  - rewrite (Hout _ Hc) in Hk. cbn [default from_option id] in Hk. lia.
Qed.

(** Validation reports the first problem of the document: a diagnostic is that of a
    check which does not pass, and of all checks that do not pass and stand on a value of
    the document, the reported one stands on a value at or before theirs, where members
    are ordered by key and array elements by index. *)
Theorem diagnostic_first_in_document raw plan lost d :
  unique_keys raw → (json_nodes raw <= u64_max)%N →
  from_raw raw = Some (Ok plan) → validate lost plan = Err (VDiagnostic d) →
  ∃ c, c ∈ dv_checks plan ∧ ¬ passes c ∧ reports d c ∧
    ∀ c' i v, c' ∈ dv_checks plan → ¬ passes c' → preorder "" raw !! i = Some (ck_field c', v) →
      ∃ j w, j ≤ i ∧ preorder "" raw !! j = Some (ck_field c, w).
Proof.
  intros Hu Hmax Hf Hv. assert (dv_profile plan = CelWorkflowV2) as Hprof.
  { unfold from_raw in Hf. destruct (resolve_profile raw) as [[|]|]; [by injection Hf as <-| |done].
    by apply bind_Some in Hf as ([? ?] & _ & [= <-]). }
  destruct (from_raw_checks _ _ Hf Hprof) as (ranks & foreign & Hr & Hc). unfold validate in Hv.
  apply validate_from_Err in Hv as (before & c & after & Hs & Hb & Hnp & Hrep).
  exists c. split_and!; [rewrite Hs; set_solver|done|done|]. intros c' i v Hin Hnp' Hi.
  pose proof (stable_sort_sorted _ (λ a b, key_leb_total (check_key ranks a) (check_key ranks b))
    (λ a b c, key_leb_trans (check_key ranks a) (check_key ranks b) (check_key ranks c))
    (attribute <$> collected raw foreign)) as Hsorted.
  rewrite <- Hc, Hs in Hsorted. apply StronglySorted_app in Hsorted as (_ & _ & Hsorted).
  apply StronglySorted_inv in Hsorted as [_ Hle]. rewrite Hs, elem_of_app, elem_of_cons in Hin.
  destruct Hin as [Hin|[->|Hin]].
  - exfalso. unfold planned in Hb. rewrite Forall_forall in Hb. by apply Hnp', Hb.
  - eauto.
  - rewrite Forall_forall in Hle. eapply (rank_order raw ranks (_, _)); eauto.
Qed.
End diagnostics.

(** ** What an accepted definition looks like *)

Definition UNSUPPORTED : list string :=
  ["if"; "input"; "output"; "agentTask"; "do"; "emit"; "for"; "listen"; "raise"; "try"].
Definition CALLS : list string := ["http"; "jsonrpc"; "openrpc"; "mcp"; "a2a"; "agent"].

Record supported (inside : bool) (task : Json) : Prop := {
  su_object : is_object task = true;
  su_keys key : key ∈ UNSUPPORTED → get key task = None;
  su_branch key : inside = true → key ∈ ["then"; "export"; "fork"] → get key task = None;
  su_run : pointer_get ["run"; "workflow"] task = None;
  su_call call : get "call" task = Some call →
    ∃ name members, call = JString name ∧ name ∈ CALLS ∧ get "with" task = Some (JObject members);
  su_switch switch : get "switch" task = Some switch →
    ∃ cases, switch = JArray cases ∧
      ∀ i case, cases !! i = Some case →
        ∃ name c, single_entry case = Some (name, c) ∧ is_Some (get "then" c ≫= as_str) ∧
          if decide (name = "default") then S i = length cases ∧ get "when" c = None
          else is_Some (get "when" c ≫= as_str);
  su_endpoint v : call_args task "http" ≫= get "endpoint" = Some v →
    ∃ uri, endpoint_uri v = Some (JString uri) ∧ validate_path_placeholders uri = Some (Ok ());
}.

Section shape.
Context {JC : JsonChunks} {CE : CelEngine} {CL : CelLaws CE} {SC : Scheduling}.

Lemma planned_if (b : bool) field task c : planned (if b then error field task c else []) → b = false.
Proof. destruct b; [by intros ?%planned_error|done]. Qed.

Lemma planned_text v field task p : planned (text v field task p true) → is_Some (as_str v).
Proof. unfold text. destruct (as_str v); [eauto|by intros ?%planned_error]. Qed.

Lemma switch_cases_supported cases i default path name k case :
  planned (switch_cases cases i default path name) → cases !! k = Some case →
  ∃ cname c, single_entry case = Some (cname, c) ∧ is_Some (get "then" c ≫= as_str) ∧
    if decide (cname = "default") then S k = length cases ∧ get "when" c = None
    else is_Some (get "when" c ≫= as_str).
Proof.
  revert i default k. induction cases as [|x cases IH]; intros i default k; [done|].
  cbn [switch_cases]. cbv zeta. destruct (single_entry x) as [[cname c]|] eqn:Es; rewrite !planned_app.
  2:{ by intros [?%planned_error _]. }
  intros (Hthen%planned_if & Hwhen & Hrest) Hk. destruct k as [|k].
  - injection Hk as <-. exists cname, c. apply orb_false_iff in Hthen as [_ Hthen].
    rewrite negb_false_iff, bool_decide_eq_true in Hthen. split_and!; [done|done|].
    destruct (decide (cname = "default")) as [->|Hne].
    + rewrite bool_decide_true in Hwhen by done. apply planned_if in Hwhen.
      rewrite !orb_false_iff, negb_false_iff, bool_decide_eq_true, bool_decide_eq_false in Hwhen.
      destruct Hwhen as [[_ ->] Hw]. split; [done|]. destruct (get "when" c); [|done]. exfalso; eauto.
    + rewrite bool_decide_false in Hwhen by done. destruct (get "when" c); [|by apply planned_error in Hwhen].
      cbn [mbind option_bind]. by eapply planned_text.
  - destruct (IH _ _ _ Hrest Hk) as (n & c' & Hs & Ht & Hd). exists n, c'. split_and!; [done|done|].
    destruct (decide (n = "default")); [|done]. destruct Hd as [Hlen ?]. cbn [length]. by rewrite <- Hlen.
Qed.

Lemma call_supported task field name call :
  planned (task_call task field name) → get "call" task = Some call →
  ∃ s members, call = JString s ∧ s ∈ CALLS ∧ get "with" task = Some (JObject members).
Proof.
  unfold task_call. intros Hcall Hc. rewrite Hc in Hcall. cbv zeta in Hcall. fold CALLS in Hcall.
  destruct (decide (default "" (as_str call) ∈ CALLS)) as [Hin|Hin].
  - rewrite (bool_decide_true (_ ∈ CALLS)) in Hcall by done. cbn [negb] in Hcall.
    destruct call as [| | |s| |]; try (unfold CALLS in Hin; set_solver).
    destruct (get "with" task) as [[| | | | |args]|]; try by apply planned_error in Hcall. eauto 10.
  - rewrite (bool_decide_false (_ ∈ CALLS)) in Hcall by done. by apply planned_error in Hcall.
Qed.

Lemma endpoint_supported task field name v :
  planned (task_call task field name) → call_args task "http" ≫= get "endpoint" = Some v →
  ∃ uri, endpoint_uri v = Some (JString uri) ∧ validate_path_placeholders uri = Some (Ok ()).
Proof.
  intros Hcall (args & Ha & Hv)%bind_Some. destruct (call_part _ _ _ _ _ Hcall Ha) as (Hh & _).
  specialize (Hh eq_refl). unfold call_http in Hh. rewrite !planned_app, Hv in Hh. destruct Hh as (_ & Hh & _).
  assert (Hok : ∀ u f, planned (match as_str u with
      | Some uri => if placeholders_ok uri then [] else error f (Some name) Invalid
      | None => error f (Some name) Invalid end) →
    ∃ uri, u = JString uri ∧ validate_path_placeholders uri = Some (Ok ())).
  { intros u f. destruct u; cbn [as_str]; try by intros ?%planned_error. unfold placeholders_ok.
    destruct (validate_path_placeholders s) as [[[]|]|] eqn:E; [eauto|by intros ?%planned_error..]. }
  unfold endpoint, endpoint_uri in *. case_bool_decide.
  - apply Hok in Hh as (uri & -> & ?). eauto.
  - destruct (get "uri" v) as [u|]; cbn [mbind option_bind] in *; [|by apply planned_error in Hh].
    apply Hok in Hh as (uri & -> & ?). eauto.
Qed.

Lemma task_supported branches inside task field name :
  planned (task_with branches inside task field name) → supported inside task.
Proof.
  intros Hp. destruct task as [| | | | |members]; try by apply planned_error in Hp.
  cbn [task_with] in Hp. set (task := JObject members) in *. cbv zeta in Hp. rewrite !planned_app in Hp.
  destruct Hp as (Hk1 & Hin & Hk2 & _ & _ & Hsw & _ & _ & Hfork & Hrun%planned_if & Hcall). split.
  - done.
  - intros key Hkey. assert (key ∈ ["if"; "input"; "output"] ∨
      key ∈ ["agentTask"; "do"; "emit"; "for"; "listen"; "raise"; "try"]) as [?|?]
      by (unfold UNSUPPORTED in Hkey; set_solver).
    + by apply (planned_forbidden _ _ _ _ key Hk1).
    + by apply (planned_forbidden _ _ _ _ key Hk2).
  - intros key -> Hkey. assert (key ∈ ["then"; "export"] ∨ key = "fork") as [?| ->] by set_solver.
    + by apply (planned_forbidden _ _ _ _ key Hin).
    + destruct (get "fork" task); [by apply planned_error in Hfork|done].
  - rewrite !pointer_get_cons. apply bool_decide_eq_false in Hrun.
    destruct (get "run" task) as [r|]; [|done]. cbn [mbind option_bind] in *. rewrite pointer_get_cons.
    destruct (get "workflow" r); [|done]. exfalso; eauto.
  - intros call Hc. by eapply call_supported.
  - intros switch Hs. unfold task_switch in Hsw. rewrite Hs in Hsw. cbv zeta in Hsw.
    destruct switch; cbn [as_array] in Hsw; try by apply planned_error in Hsw. eexists. split; [done|].
    intros i case.
    by eapply switch_cases_supported.
  - intros v Hv. by eapply endpoint_supported.
Qed.

(** An accepted definition uses only what the executor supports: no string opens the
    foreign expression syntax, no retry policy is refused, and every task, in the [do] list
    or in a branch, is an object without unsupported keywords, with forks at the top level
    only, known calls with an argument object, switch cases that name their target, have a
    condition, and end in at most one default, and endpoint URIs with valid
    placeholders. *)
Theorem accepted_definition_supported raw plan lost :
  from_raw raw = Some (Ok plan) → dv_profile plan = CelWorkflowV2 → validate lost plan = Ok () →
  (∀ f s, (f, JString s) ∈ preorder "" raw → contains s "${{" = false) ∧
  (∀ d, validate_retry_policies raw ≠ Err (Diag d)) ∧
  pointer_get ["input"; "from"] raw = None ∧ pointer_get ["output"; "schema"] raw = None ∧
  ∀ inside task, task_at raw inside task → supported inside task.
Proof.
  intros Hf Hprof Hv. destruct (accepted_planned _ _ _ Hf Hprof Hv) as (ranks & foreign & Hr & Hp).
  rewrite rank_loop_spec in Hr by (cbn; lia). cbn [mbind list_bind] in Hr. injection Hr as _ <-.
  rewrite app_nil_r in Hp. cbn [fst snd] in Hp. unfold collected in Hp. rewrite !planned_app in Hp.
  destruct Hp as ((Hretry & Hforeign) & Hin%planned_if & Hout%planned_if & _ & Htasks).
  apply bool_decide_eq_false, eq_None_not_Some in Hin, Hout. split_and!; [| |done|done|].
  - intros f s Hfs. apply (planned_bind _ _ _ Hforeign) in Hfs. by apply planned_if in Hfs.
  - intros d Hd. unfold retry_checks in Hretry. rewrite Hd in Hretry. by apply planned_error in Hretry.
  - intros inside task Hat. destruct (task_at_planned _ _ _ Htasks Hat) as (branches & field & name & Hp & _).
    by eapply task_supported.
Qed.
End shape.

(** Deriving a plan always ends. *)
Lemma from_raw_total {SC : Scheduling} raw : is_Some (from_raw raw).
Proof.
  unfold from_raw. destruct (resolve_profile raw) as [[|]|]; [eauto| |eauto].
  rewrite rank_loop_spec by (cbn; lia). cbn [mbind option_bind]. eauto.
Qed.

(** ** Runs *)

Module PlanInstance.
#[local] Instance chunks : JsonChunks := λ _, [].
#[local] Instance schedule : Scheduling := λ _, true.
(** Expressions are single names, and evaluating one fails. *)
#[local] Instance engine : CelEngine :=
  compiler_engine (λ source, Some (EIdent source)) (λ _ _, Err OtherFailure).
#[local] Instance engine_laws : CelLaws engine := compiler_engine_laws _ _.

Definition definition (value : Json) : Json :=
  JObject
    [("document", JObject [("metadata", JObject [("lightExpressionProfile", JString "cel-workflow-v2")])]);
     ("evaluate", JObject [("language", JString "cel")]);
     ("do", JArray [JObject [("greet", JObject [("set", JObject [("text", value)])])]])].

Definition good : Json := definition (JString "hello ${context}").
Definition bad : Json := definition (JString "hello ${nobody}").
Definition no_plan : DefinitionValidation := {| dv_profile := LegacyV1; dv_checks := [] |}.
Definition plan_of (raw : Json) : DefinitionValidation :=
  match from_raw raw with Some (Ok plan) => plan | _ => no_plan end.

Lemma good_accepted : validate (λ _, None) (plan_of good) = Ok ().
Proof. vm_compute. reflexivity. Qed.

Lemma greet_at : task_at good false (JObject [("set", JObject [("text", JString "hello ${context}")])]).
Proof. eapply task_top; [reflexivity|left|reflexivity]. Qed.

Definition no_bindings : Bindings :=
  {| bi_context := JObject []; bi_input := JNull; bi_output := None; bi_value := None |}.

Lemma bad_unique : unique_keys bad.
Proof.
  repeat first [apply unique_scalar; exact I | apply unique_array | apply unique_object | apply Forall_nil_2
    | apply Forall_cons_2 | progress cbn | apply NoDup_cons_2 | apply NoDup_nil_2 | set_solver].
Qed.

Definition unknown_name : Diagnostic :=
  {| dg_error := error_at (admission Invalid) 0 8; dg_task := Some "greet";
     dg_field := "/do/0/greet/set/text" |}.

Lemma diagnostic_first_in_document_witness :
  ∃ c, c ∈ dv_checks (plan_of bad) ∧ ¬ passes c ∧ reports unknown_name c ∧
    ∀ c' i v, c' ∈ dv_checks (plan_of bad) → ¬ passes c' →
      preorder "" bad !! i = Some (ck_field c', v) →
      ∃ j w, j ≤ i ∧ preorder "" bad !! j = Some (ck_field c, w).
Proof.
  apply (diagnostic_first_in_document bad (plan_of bad) (λ _, None) unknown_name).
  - exact bad_unique.
  - vm_compute. discriminate.
  - vm_compute. reflexivity.
  - vm_compute. reflexivity.
Defined.

Lemma accepted_definition_supported_witness :
  supported false (JObject [("set", JObject [("text", JString "hello ${context}")])]).
Proof.
  apply (accepted_definition_supported good (plan_of good) (λ _, None)).
  - vm_compute. reflexivity.
  - vm_compute. reflexivity.
  - exact good_accepted.
  - exact greet_at.
Defined.

(** A value with members [fork] and [branches] is taken for a fork: the problem of the
    task [greet] is attributed to a task that does not exist. *)
Example value_taken_for_fork :
  (λ c, (ck_field c, ck_task c)) <$>
    dv_checks (plan_of (definition
      (JObject [("fork", JObject [("branches", JArray [JObject [("x", JString "${{ a }}")]])])]))) =
  [("/do/0/greet/set/text/fork/branches/0/x", Some "x");
   ("/do/0/greet/set/text/fork/branches/0/x", Some "greet")].
Proof. vm_compute. reflexivity. Qed.
End PlanInstance.
