(* ===== verification/ExpressionRequests.v ===== *)
(** * The batches of expressions a task executor evaluates

    Model of where the executor of [apps/light-workflow/src] takes templates from: the
    requests of calls and questions ([expression_requests.rs]), the values of [set],
    [switch] and [assert] tasks and the exports of a task ([expression_runtime.rs]), and the
    output of a workflow ([expression_completion.rs]).  A task is the JSON value it was
    authored as, with what [w5_prepare] puts into an MCP call before.  The variables that it
    puts into the URL of an OpenRPC server are not modelled; it leaves the URL of a server
    without variables as it is. *)

From S2P Require Import Prelude RustStr JsonTree WorkflowExpression RetryPolicy ExpressionStep DefinitionPlan.

(** ** Kinds of tasks *)

Inductive TaskKind :=
| KFor | KLegacyAgent | KAsk | KAssert | KCall | KSet | KFork | KRun | KSwitch | KTry | KEmit | KRaise
| KWait | KListen | KDo.
#[export] Instance TaskKind_eq_dec : EqDecision TaskKind.
Proof. solve_decision. Defined.
Definition has (key : string) (value : Json) : bool := bool_decide (is_Some (get key value)).
(** The order in which [TaskDefinition] is deserialized. *)
Definition task_kind (value : Json) : option TaskKind :=
  if has "for" value then Some KFor else
  if has "agent" value && has "goal" value then Some KLegacyAgent else
  if has "ask" value then Some KAsk else
  if has "assert" value then Some KAssert else
  if has "call" value then Some KCall else
  if has "set" value then Some KSet else
  if has "fork" value then Some KFork else
  if has "run" value then Some KRun else
  if has "switch" value then Some KSwitch else
  if has "try" value then Some KTry else
  if has "emit" value then Some KEmit else
  if has "raise" value then Some KRaise else
  if has "wait" value then Some KWait else
  if has "listen" value then Some KListen else
  if has "do" value then Some KDo else None.

(** ** Requests *)

Definition field (path : string) (position : Position) (template : Json) : StepField :=
  {| sf_path := path; sf_position := position; sf_template := template; sf_value_from := None |}.
Definition add_field (task : Json) (path : string) (position : Position) : list StepField :=
  match json_pointer path task with Some value => [field path position value] | None => [] end.
Definition add_endpoint (task : Json) (path : string) (position : Position) : list StepField :=
  let path := match json_pointer path task with
              | Some (JObject _) => path +:+ "/uri"
              | _ => path
              end in
  add_field task path position.
(** The members of an object, each on its own. *)
Definition add_members (task : Json) (path : string) (position : Position) : list StepField :=
  match json_pointer path task ≫= as_object with
  | Some map => map ≫= λ e, add_field task (path +:+ "/" +:+ escape e.1) position
  | None => []
  end.

Definition names_uri (server : Json) : bool :=
  match as_str server with Some s => contains s "://" || contains s "${" | None => false end.
Definition openrpc_fields (task : Json) : list StepField :=
  add_endpoint task "/with/document/endpoint" OpenRpcEndpoint ++
  (if match json_pointer "/with/server" task with Some s => names_uri s | None => false end
   then add_field task "/with/server" JsonRpcUri else []) ++
  add_field task "/with/server/url" JsonRpcUri ++ add_endpoint task "/with/server/endpoint" JsonRpcUri.
Definition call_fields (task : Json) (call : string) : list StepField :=
  if bool_decide (call = "http") then
    add_field task "/with/body" HttpBody ++ add_members task "/with/query" HttpQuery
    ++ add_members task "/with/headers" HttpHeader else
  if bool_decide (call ∈ ["jsonrpc"; "openrpc"]) then
    add_field task "/with/params" JsonRpcParams ++ add_field task "/with/headers" JsonRpcHeader ++
    (if bool_decide (call = "jsonrpc") then add_endpoint task "/with/endpoint" JsonRpcUri
     else openrpc_fields task) else
  if bool_decide (call = "mcp") then
    add_field task "/with/parameters" McpParams ++ add_field task "/with/arguments" McpParams
    ++ add_field task "/with/resource" McpResourceUri ++ add_endpoint task "/with/server/endpoint" JsonRpcUri
    ++ add_endpoint task "/with/transport/http/endpoint" JsonRpcUri
    ++ add_field task "/with/transport/http/headers" JsonRpcHeader else
  if bool_decide (call = "a2a") then add_field task "/with/parameters" A2aParameters else
  if bool_decide (call = "agent") then
    add_field task "/with/input" AgentInput ++ add_field task "/with/mockOutput" AgentMockOutput
    ++ add_field task "/with/instructions" AgentInstructions ++ add_field task "/with/prompt" AgentPrompt
  else [].
Definition ask_fields (task : Json) : list StepField :=
  add_field task "/ask/assignment/categoryCode" AskCategory ++ add_field task "/ask/assignment/reasonCode" AskReason
  ++ add_field task "/ask/assignment/assigneeId" AskAssignee ++ add_field task "/ask/assignment/roleId" AskRole.
Definition by_path (l : list StepField) : list StepField :=
  merge_sort (λ a b, String.le (sf_path a) (sf_path b)) l.
(** [expression_requests::fields]. *)
Definition fields (task : Json) : list StepField :=
  by_path (add_field task "/idempotencyKey" IdempotencyKey ++
           match get "call" task ≫= as_str with Some call => call_fields task call | None => [] end ++
           ask_fields task).

(** A member of a type [Option<_>]: [null] is absent. *)
Definition optional (key : string) (value : Json) : option Json :=
  match get key value with Some JNull | None => None | Some v => Some v end.

(** [McpArguments]: [params] is another name of [parameters], and both together are refused. *)
Definition mcp_arguments (args : Json) : option (list (string * Json)) :=
  m ← as_object args;
  match member "params" m, member "parameters" m with
  | Some _, Some _ => None
  | Some v, None => Some (obj_insert "parameters" v (obj_remove "params" m))
  | None, _ => Some m
  end.
(** The server of a call is that of its transport, its own, or that of a session of the
    definition. *)
Definition resolve_mcp_server (definition args : Json) : option Json :=
  match optional "transport" args with
  | Some transport =>
      match optional "stdio" transport, optional "http" transport with
      | None, Some http =>
          endpoint ← get "endpoint" http;
          Some (JObject [("endpoint", endpoint); ("transport", JString "streamable-http")])
      | _, _ => None
      end
  | None =>
      match optional "server" args with
      | Some server => Some server
      | None =>
          name ← match optional "session" args ≫= as_str with
                 | Some name => Some name
                 | None => optional "serverRef" args ≫= as_str
                 end;
          session ← (get "use" definition ≫= get "mcpSessions") ≫= get name;
          server ← get "server" session;
          match server with JString _ => None | _ => Some server end
      end
  end.
(** The task whose templates [w5_prepare] evaluates.  A question has no member of a call. *)
Definition w5_prepare (definition task : Json) : option Json :=
  m ← as_object task;
  if bool_decide (task_kind task = Some KAsk) then Some (JObject (obj_remove "call" m)) else
  if bool_decide (get "call" task ≫= as_str = Some "mcp") then
    args ← get "with" task ≫= mcp_arguments;
    server ← resolve_mcp_server definition (JObject args);
    Some (JObject (obj_insert "with" (JObject (obj_insert "server" server args)) m))
  else Some task.

(** ** Values *)

(** [SetValue]: an object or an expression. *)
Definition set_fields (task : Json) : option (list StepField) :=
  match get "set" task with
  | Some (JObject m) => Some [field "/set" PSet (JObject m)]
  | Some (JString s) => Some [field "/set" PSet (JString s)]
  | _ => None
  end.

(** The conditions of a switch; a case that is not well formed ends the step. *)
Fixpoint switch_fields (i : nat) (cases : list Json) : option (list StepField) :=
  match cases with
  | [] => Some []
  | entry :: rest =>
      '(name, case) ← single_entry entry;
      if bool_decide (name = "default") then
        if negb (bool_decide (rest = [])) || bool_decide (is_Some (get "when" case ≫= as_str))
           || bool_decide (get "then" case ≫= as_str = None)
        then None else switch_fields (S i) rest
      else
        _ ← get "then" case ≫= as_str;
        when ← get "when" case ≫= as_str;
        fields ← switch_fields (S i) rest;
        Some (field ("/switch/" +:+ dec (N.of_nat i) +:+ "/" +:+ name +:+ "/when") SwitchWhen (JString when) :: fields)
  end.

(** [assert.contains] and [assert.equals], and those of a comparison. *)
Definition compared (value : Json) (path : string) (contains equals : Position) : list StepField :=
  match optional "contains" value with Some v => [field (path +:+ "/contains") contains v] | None => [] end ++
  match optional "equals" value with Some v => [field (path +:+ "/equals") equals v] | None => [] end.
(** [AssertComparison]: an object or an expression, which reads the value that is selected. *)
Definition comparison_fields (e : string * Json) : list StepField :=
  let path := "/assert/json/" +:+ escape e.1 in
  match e.2 with
  | JString source =>
      [{| sf_path := path; sf_position := AssertJsonPredicate; sf_template := JString source;
          sf_value_from := Some (0%N, e.1) |}]
  | comparison => compared comparison path AssertJsonContains AssertJsonEquals
  end.
Definition default_value : Json := JString "${context}".
Definition assert_fields (task : Json) : option (list StepField) :=
  assertion ← get "assert" task;
  Some (field "/assert/value" AssertValue (default default_value (optional "value" assertion))
        :: by_path (compared assertion "/assert" AssertContains AssertEquals ++
                    match get "json" assertion ≫= as_object with
                    | Some items => items ≫= comparison_fields
                    | None => []
                    end)).

(** What [w5_prepare] or [w4_execute] evaluates for a task. *)
Definition step_fields (definition task : Json) : option (list StepField) :=
  match task_kind task with
  | Some (KAsk | KCall) => fields <$> w5_prepare definition task
  | Some KSet => set_fields task
  | Some KSwitch => (get "switch" task ≫= as_array) ≫= switch_fields 0
  | Some KAssert => assert_fields task
  | _ => None
  end.

(** ** Exports and the output *)

(** [w4_exports]. *)
Definition export_fields (task : Json) : option (list StepField) :=
  exports ← (get "export" task ≫= get "as") ≫= as_object;
  let position := if bool_decide (task_kind task = Some KRun) then RunnerExport else PExport in
  Some ((λ e, field ("/export/as/" +:+ escape e.1) position e.2)
          <$> merge_sort (λ a b, String.le a.1 b.1) exports).

Definition output_fields (raw : Json) : option (list StepField) :=
  template ← get "output" raw ≫= optional "as";
  Some [field "/output/as" WorkflowOutput template].
