(* ===== verification/ExpressionRequestsFacts.v ===== *)
(** * The batches of a validated definition

    What the executor evaluates ([ExpressionRequests]) against what the validation checks
    ([DefinitionPlan]): the batches of an accepted definition fail only at run time, but for
    templates at a few places the validation does not look at. *)

From S2P Require Import Prelude RustStr JsonTree WorkflowExpression RetryPolicy ExpressionStep ExpressionStepFacts ExpressionCompiler.
From S2P Require Import ExpressionCompilerFacts DefinitionPlan DefinitionPlanFacts ExpressionRequests.
From Stdlib Require Import Ascii.

(** ** Pointers *)

Lemma pointer_step_get j token : parse_index token = None → pointer_step j token = get token j.
Proof. intros H. destruct j; cbn; [done..| |done]. by rewrite H. Qed.

(** A pointer without indices goes through the members of objects. *)
Definition plain (path : string) (keys : list string) : Prop :=
  pointer_tokens path = Some keys ∧ Forall (λ k, parse_index k = None) keys.
Lemma plain_get path keys j : plain path keys → json_pointer path j = pointer_get keys j.
Proof.
  intros [Ht Hk]. unfold json_pointer, pointer_get. rewrite Ht. cbn [mbind option_bind].
  clear Ht. generalize (Some j). induction Hk as [|k keys Hk _ IH]; intros o; [done|]. cbn [foldl].
  rewrite <- IH. by destruct o as [v|]; cbn [mbind option_bind]; rewrite ?pointer_step_get.
Qed.

Lemma escape_escape_key key : escape key = escape_key key.
Proof. done. Qed.
Lemma pointer_token_escape key : pointer_token (escape key) = key.
Proof. rewrite escape_escape_key. apply unescape_escape. Qed.

Lemma member_pointer rest keys key j :
  pointer_tokens (String "/" rest) = Some keys →
  json_pointer (pointer (String "/" rest) key) j
  = json_pointer (String "/" rest) j ≫= λ v, pointer_step v key.
Proof.
  intros Hk. unfold json_pointer. rewrite Hk. cbn [mbind option_bind].
  assert (pointer_tokens (pointer (String "/" rest) key) = Some (keys ++ [key])) as ->.
  { unfold pointer_tokens in *.
    replace (is_empty (pointer (String "/" rest) key)) with false by done.
    replace (starts_with (pointer (String "/" rest) key) "/") with true by (by destruct rest).
    replace (starts_with (String "/" rest) "/") with true in Hk by (by destruct rest).
    cbn [is_empty negb] in Hk |- *. injection Hk as <-. rewrite split_pointer. f_equal.
    change (split "/" (String "/" rest)) with ("" :: split "/" rest). cbn [tail app].
    rewrite fmap_app. f_equal. cbn. f_equal. apply pointer_token_escape. }
  cbn [mbind option_bind]. by rewrite foldl_app.
Qed.

Lemma elem_of_add task path keys p f :
  plain path keys → f ∈ add_field task path p → ∃ v, pointer_get keys task = Some v ∧ f = field path p v.
Proof.
  intros Hp. unfold add_field. rewrite (plain_get _ _ _ Hp). destruct (pointer_get keys task) as [v|]; [|by intros ?%elem_of_nil].
  intros ->%list_elem_of_singleton. by exists v.
Qed.
Lemma elem_of_add_endpoint task path keys p f :
  plain path keys → plain (path +:+ "/uri") (keys ++ ["uri"]) → f ∈ add_endpoint task path p →
  sf_position f = p ∧ sf_path f ∈ [path; path +:+ "/uri"] ∧
  ∃ v, pointer_get keys task = Some v ∧
    (is_object v = true ∧ get "uri" v = Some (sf_template f) ∨ is_object v = false ∧ sf_template f = v).
Proof.
  intros Hp Hu. unfold add_endpoint. rewrite (plain_get _ _ _ Hp).
  destruct (pointer_get keys task) as [v|] eqn:Ev.
  - destruct (is_object v) eqn:Eo.
    + destruct v; try done. intros (u & Huri & ->)%(elem_of_add _ _ _ _ _ Hu). cbn. split_and!; [done|set_solver|].
      eexists. split; [done|]. left. split; [done|]. unfold pointer_get in *. rewrite foldl_app, Ev in Huri. exact Huri.
    + assert (f ∈ add_field task path p → sf_position f = p ∧ sf_path f ∈ [path; path +:+ "/uri"] ∧
        ∃ v0, Some v = Some v0 ∧ (is_object v0 = true ∧ get "uri" v0 = Some (sf_template f) ∨
          is_object v0 = false ∧ sf_template f = v0)) as H.
      { intros (u & Hv & ->)%(elem_of_add _ _ _ _ _ Hp). cbn. split_and!; [done|set_solver|].
        exists v. split; [done|]. right. split; [done|congruence]. }
      by destruct v.
  - intros (u & Hv & _)%(elem_of_add _ _ _ _ _ Hp). congruence.
Qed.
Lemma elem_of_add_members task rest keys p f :
  plain (String "/" rest) keys → f ∈ add_members task (String "/" rest) p →
  ∃ m k v, pointer_get keys task ≫= as_object = Some m ∧ (k, v) ∈ m
    ∧ f = field (pointer (String "/" rest) k) p v.
Proof.
  intros Hp. unfold add_members. rewrite (plain_get _ _ _ Hp).
  destruct (pointer_get keys task ≫= as_object) as [m|] eqn:Em; [|by intros ?%elem_of_nil].
  intros ([k w] & Hf & Hin)%list_elem_of_bind. cbn [fst] in Hf.
  change (String "/" rest +:+ "/" +:+ escape k) with (pointer (String "/" rest) k) in Hf. unfold add_field in Hf.
  rewrite (member_pointer rest keys) in Hf by apply Hp. rewrite (plain_get _ _ _ Hp) in Hf.
  apply bind_Some in Em as (o & Eo & Em). rewrite Eo in Hf. destruct o; try done. injection Em as ->.
  cbn [mbind option_bind pointer_step] in Hf. destruct (member k m) as [v|] eqn:Ev; [|by apply elem_of_nil in Hf].
  apply list_elem_of_singleton in Hf as ->. exists m, k, v. split_and!; [done|by apply member_elem_of|done].
Qed.

(** ** Where the validation does not look *)

(** The endpoint of a server of an MCP or OpenRPC call and the transport of an MCP call; the
    idempotency key of other calls and of questions; the URL of an OpenRPC server with
    variables, which the executor puts into it; exports of a task with a member [run]
    that is of another kind, which are checked as those of a runner; and the value of an
    assertion that has none, which is a constant of the executor. *)
Definition unvalidated (task : Json) (f : StepField) : bool :=
  bool_decide (sf_path f ∈ ["/with/server/endpoint"; "/with/server/endpoint/uri"; "/with/transport/http/endpoint";
                            "/with/transport/http/endpoint/uri"; "/with/transport/http/headers"])
  || bool_decide (sf_path f = "/idempotencyKey")
     && match get "call" task ≫= as_str with
        | Some call => negb (bool_decide (call ∈ ["http"; "mcp"; "a2a"]))
        | None => true
        end
  || bool_decide (sf_path f = "/with/server/url")
     && bool_decide (is_Some (json_pointer "/with/server/variables" task))
  || bool_decide (sf_position f = PExport) && has "run" task
  || bool_decide (sf_path f = "/assert/value") && bool_decide (get "assert" task ≫= optional "value" = None).

Ltac plainly := split; [vm_compute; reflexivity|repeat constructor].
(** A field whose path the validation does not look at. *)
Ltac not_checked H := unfold unvalidated in H; rewrite bool_decide_true in H by set_solver; done.
(** Read a field off the list it was added to. *)
Ltac read_field H :=
  lazymatch type of H with
  | _ ∈ _ ++ _ => apply elem_of_app in H as [H|H]; [read_field H|read_field H]
  | _ ∈ [] => by apply elem_of_nil in H
  | _ ∈ add_field _ _ _ => eapply elem_of_add in H as (?v & ?Hv & ->); [|plainly]
  | _ ∈ add_members _ _ _ => eapply elem_of_add_members in H as (?m & ?k & ?v & ?Hm & ?Hin & ->); [|plainly]
  | _ ∈ add_endpoint _ _ _ => eapply elem_of_add_endpoint in H as (?Hp & ?Hpath & ?v & ?Hv & ?Ht); [|plainly|plainly]
  | _ => idtac
  end.

Section fields.
Context {JC : JsonChunks} {CE : CelEngine} {CL : CelLaws CE} (cancelled : nat → bool).

Definition field_late (f : StepField) : Prop := resolves_late cancelled (sf_template f) (sf_position f).

(** The arguments of a planned call. *)
Lemma planned_call task path name call :
  planned (task_call task path name) → get "call" task ≫= as_str = Some call →
  ∃ args, call_args task call = Some args ∧ get "with" task = Some args.
Proof.
  unfold task_call, call_args. intros Hp Hc. rewrite bool_decide_true by done.
  apply bind_Some in Hc as (c & Hc & Hs). rewrite Hc in Hp. cbv zeta in Hp. rewrite Hs in Hp.
  cbn [default from_option id] in Hp. destruct (negb _); [by apply planned_error in Hp|].
  destruct (get "with" task) as [args|]; [eauto|by apply planned_error in Hp].
Qed.

(** An endpoint the validation accepts is a string or has a [uri]. *)
Lemma planned_endpoint v path name p t b :
  planned (endpoint v path name (Some p)) →
  is_object v = true ∧ get "uri" v = Some t ∨ is_object v = false ∧ t = v →
  late_step (resolve cancelled Limits_default t p true 0 b).
Proof.
  intros Hp Ht. eapply endpoint_late; [exact Hp|]. unfold endpoint, endpoint_uri in *.
  destruct Ht as [[Ho Ht]|[Ho ->]].
  - rewrite bool_decide_false; [done|]. destruct v; naive_solver.
  - destruct v; try done; cbn in Hp; by apply planned_error in Hp.
Qed.

Lemma ask_fields_late branches inside task path name f :
  planned (task_with branches inside task path name) → f ∈ ask_fields task → field_late f.
Proof.
  intros Hp Hf. unfold ask_fields in Hf. read_field Hf; (eapply template_late; [exact Hp|]);
    (eapply tpl_ask; [|exact Hv]); repeat constructor.
Qed.

(** What a planned call gives for each of its fields. *)
Record planned_task (task : Json) (path name call : string) : Prop := {
  pt_call : get "call" task ≫= as_str = Some call;
  pt_planned : planned (task_call task path name);
  pt_args keys v : pointer_get ("with" :: keys) task = Some v → call_args task call ≫= pointer_get keys = Some v;
  pt_template v p : checked_template task v p → resolves_late cancelled v p;
}.
Lemma planned_task_of branches inside task path name call :
  planned (task_with branches inside task path name) → planned (task_call task path name) →
  get "call" task ≫= as_str = Some call → planned_task task path name call.
Proof.
  intros Hp Hcall Hc. destruct (planned_call _ _ _ _ Hcall Hc) as (args & Ha & Hw). split; [done..| |].
  - intros keys v. by rewrite pointer_get_cons, Hw, Ha.
  - intros v p. by apply (template_late cancelled branches inside task path name).
Qed.
Lemma planned_argument task path name call key p v :
  planned_task task path name call → (key, p) ∈ call_positions call →
  pointer_get ["with"; key] task = Some v → resolves_late cancelled v p.
Proof.
  intros Ht Hk Hv. apply (pt_template _ _ _ _ Ht), (tpl_argument _ call key); [done|].
  exact (pt_args _ _ _ _ Ht [key] v Hv).
Qed.

Lemma http_fields_late task path name f :
  planned_task task path name "http" → f ∈ call_fields task "http" → field_late f.
Proof.
  intros Ht Hf. change (call_fields task "http") with (add_field task "/with/body" HttpBody
    ++ add_members task "/with/query" HttpQuery ++ add_members task "/with/headers" HttpHeader) in Hf. read_field Hf.
  - eapply (planned_argument _ _ _ "http" "body"); [done|left|done].
  - apply (pt_template _ _ _ _ Ht), (tpl_http _ "query" HttpQuery m k); [right; left| |done].
    apply bind_Some in Hm as (o & Ho & Hm). by rewrite (pt_args _ _ _ _ Ht ["query"] o Ho : _ ≫= get "query" = _).
  - apply (pt_template _ _ _ _ Ht), (tpl_http _ "headers" HttpHeader m k); [left| |done].
    apply bind_Some in Hm as (o & Ho & Hm). by rewrite (pt_args _ _ _ _ Ht ["headers"] o Ho : _ ≫= get "headers" = _).
Qed.

Lemma jsonrpc_fields_late task path name f :
  planned_task task path name "jsonrpc" → f ∈ call_fields task "jsonrpc" → field_late f.
Proof.
  intros Ht Hf. change (call_fields task "jsonrpc") with (add_field task "/with/params" JsonRpcParams
    ++ add_field task "/with/headers" JsonRpcHeader ++ add_endpoint task "/with/endpoint" JsonRpcUri) in Hf. read_field Hf.
  - eapply (planned_argument _ _ _ "jsonrpc" "params"); [done|left|done].
  - apply (pt_template _ _ _ _ Ht), (tpl_rpc_headers _ "jsonrpc"); [left|].
    exact (pt_args _ _ _ _ Ht ["headers"] v Hv).
  - intros b. rewrite Hp. apply (pt_args _ _ _ _ Ht) in Hv. apply bind_Some in Hv as (args & Ha & He).
    destruct (call_part _ _ _ _ _ (pt_planned _ _ _ _ Ht) Ha) as (_ & Hj & _). specialize (Hj eq_refl).
    unfold call_jsonrpc in Hj. rewrite planned_app in Hj. destruct Hj as [Hj _].
    change (get "endpoint" args = Some v) in He. rewrite He in Hj. eapply planned_endpoint; [exact Hj|naive_solver].
Qed.

Lemma openrpc_fields_late task path name f :
  planned_task task path name "openrpc" → f ∈ call_fields task "openrpc" → unvalidated task f = false → field_late f.
Proof.
  intros Ht Hf Hu. change (call_fields task "openrpc") with (add_field task "/with/params" JsonRpcParams
    ++ add_field task "/with/headers" JsonRpcHeader ++ openrpc_fields task) in Hf. unfold openrpc_fields in Hf. read_field Hf.
  - eapply (planned_argument _ _ _ "openrpc" "params"); [done|left|done].
  - apply (pt_template _ _ _ _ Ht), (tpl_rpc_headers _ "openrpc"); [right; left|].
    exact (pt_args _ _ _ _ Ht ["headers"] v Hv).
  - intros b. rewrite Hp. apply (pt_args _ _ _ _ Ht) in Hv. apply bind_Some in Hv as (args & Ha & He).
    destruct (call_part _ _ _ _ _ (pt_planned _ _ _ _ Ht) Ha) as (_ & _ & Ho & _). specialize (Ho eq_refl).
    unfold call_openrpc in Ho. rewrite !planned_app in Ho. destruct Ho as (_ & Ho & _).
    change (get "document" args ≫= get "endpoint" = Some v) in He. rewrite He in Ho.
    eapply planned_endpoint; [exact Ho|naive_solver].
  - destruct (json_pointer "/with/server" task) as [server|] eqn:Es; [|by apply elem_of_nil in Hf].
    destruct (names_uri server) eqn:En; [|by apply elem_of_nil in Hf]. read_field Hf.
    erewrite plain_get in Es by plainly. assert (server = v) as -> by congruence.
    unfold names_uri in En. destruct v; try done. apply (pt_template _ _ _ _ Ht), tpl_server.
    exact (pt_args _ _ _ _ Ht ["server"] _ Hv).
  - apply (pt_template _ _ _ _ Ht), tpl_server_url. by apply (pt_args _ _ _ _ Ht ["server"; "url"]).
  - not_checked Hu.
Qed.

Lemma agent_fields_late task path name f :
  planned_task task path name "agent" → f ∈ call_fields task "agent" → field_late f.
Proof.
  intros Ht Hf. change (call_fields task "agent") with (add_field task "/with/input" AgentInput
    ++ add_field task "/with/mockOutput" AgentMockOutput ++ add_field task "/with/instructions" AgentInstructions
    ++ add_field task "/with/prompt" AgentPrompt) in Hf. read_field Hf.
  - eapply (planned_argument _ _ _ "agent" "input"); [done|left|done].
  - eapply (planned_argument _ _ _ "agent" "mockOutput"); [done|right; left|done].
  - apply (pt_template _ _ _ _ Ht), (tpl_agent _ "instructions"); [left|exact (pt_args _ _ _ _ Ht ["instructions"] v Hv)].
  - apply (pt_template _ _ _ _ Ht), (tpl_agent _ "prompt"); [right; left|exact (pt_args _ _ _ _ Ht ["prompt"] v Hv)].
Qed.

Lemma call_fields_late task path name call f :
  planned_task task path name call → call ≠ "mcp" → f ∈ call_fields task call → unvalidated task f = false →
  field_late f.
Proof.
  intros Ht Hmcp Hf Hu. pose proof Hf as Hf'. unfold call_fields in Hf'.
  case_bool_decide as E1; [subst; by eapply http_fields_late|].
  case_bool_decide as E2.
  { apply elem_of_cons in E2 as [->| ->%list_elem_of_singleton]; [by eapply jsonrpc_fields_late|by eapply openrpc_fields_late]. }
  case_bool_decide as E3; [done|].
  case_bool_decide as E4.
  { subst. clear Hf. read_field Hf'. eapply (planned_argument _ _ _ "a2a" "parameters"); [done|left|done]. }
  case_bool_decide as E5; [subst; by eapply agent_fields_late|]. by apply elem_of_nil in Hf'.
Qed.

Lemma key_late branches inside task path name f :
  planned (task_with branches inside task path name) → planned (task_call task path name) →
  f ∈ add_field task "/idempotencyKey" IdempotencyKey → unvalidated task f = false → field_late f.
Proof.
  intros Hp Hcall Hf Hu. read_field Hf. unfold unvalidated in Hu. cbn [sf_path field] in Hu. rewrite !orb_false_iff in Hu.
  destruct Hu as [[[[_ Hu] _] _] _]. rewrite bool_decide_true in Hu by done. cbn [andb] in Hu.
  destruct (get "call" task ≫= as_str) as [call|] eqn:Ec; [|done].
  apply negb_false_iff, bool_decide_eq_true in Hu.
  destruct (planned_call _ _ _ _ Hcall Ec) as (args & Ha & _).
  eapply template_late; [exact Hp|]. apply (tpl_idempotency _ call); [done|by rewrite Ha|exact Hv].
Qed.

(** ** Requests of calls and questions *)

Lemma member_obj_remove k k' m : member k (obj_remove k' m) = if decide (k = k') then None else member k m.
Proof.
  unfold obj_remove. induction m as [|[k0 v0] m IH]; [by case_decide|].
  rewrite filter_cons. cbn [fst]. repeat (case_decide; cbn [member]); subst; rewrite ?IH; repeat case_decide; subst; done.
Qed.
Lemma mcp_arguments_get args m key :
  mcp_arguments args = Some m → key ∉ ["params"; "parameters"] → member key m = get key args.
Proof.
  unfold mcp_arguments. intros (m0 & Ha & H)%bind_Some Hk. destruct args; try done. injection Ha as ->. cbn [get].
  repeat case_match; simplify_eq; [|done..].
  rewrite member_obj_insert, member_obj_remove, !decide_False by set_solver. done.
Qed.
Lemma mcp_arguments_parameters args m v :
  mcp_arguments args = Some m → member "parameters" m = Some v →
  get "params" args = Some v ∨ get "parameters" args = Some v.
Proof.
  unfold mcp_arguments. intros (m0 & Ha & H)%bind_Some. destruct args; try done. injection Ha as ->. cbn [get].
  repeat case_match; simplify_eq; rewrite ?member_obj_insert; naive_solver.
Qed.

(** Fields that do not belong to a call are read from the members they start with. *)
Lemma add_same t task path key keys p :
  plain path (key :: keys) → get key t = get key task → add_field t path p = add_field task path p.
Proof. intros Hp H. unfold add_field. by rewrite !(plain_get _ _ _ Hp), !pointer_get_cons, H. Qed.
Lemma other_fields_same t task :
  get "idempotencyKey" t = get "idempotencyKey" task → get "ask" t = get "ask" task →
  add_field t "/idempotencyKey" IdempotencyKey = add_field task "/idempotencyKey" IdempotencyKey ∧ ask_fields t = ask_fields task.
Proof.
  intros Hk Ha. split; [eapply add_same; [plainly|done]|].
  unfold ask_fields. by repeat (erewrite (add_same t task) by (plainly || exact Ha)).
Qed.
Lemma elem_of_fields task f :
  f ∈ fields task ↔ f ∈ add_field task "/idempotencyKey" IdempotencyKey
    ∨ f ∈ match get "call" task ≫= as_str with Some call => call_fields task call | None => [] end
    ∨ f ∈ ask_fields task.
Proof. unfold fields, by_path. by rewrite merge_sort_Permutation, !elem_of_app. Qed.

Lemma prepared_mcp_late t task path name args server f :
  planned_task task path name "mcp" → get "with" task ≫= mcp_arguments = Some args →
  get "with" t = Some (JObject (obj_insert "server" server args)) →
  f ∈ call_fields t "mcp" → unvalidated task f = false → field_late f.
Proof.
  intros Ht (w & Ew & Ha)%bind_Some Hw Hf Hu.
  assert (∀ key v, pointer_get ["with"; key] t = Some v → key ≠ "server" → member key args = Some v) as Hget.
  { intros key v Hv Hk. rewrite pointer_get_cons, Hw in Hv. change (member key (obj_insert "server" server args) = Some v) in Hv.
    by rewrite member_obj_insert, decide_False in Hv. }
  assert (∀ key v, get key w = Some v → pointer_get ["with"; key] task = Some v) as Hback.
  { intros key v Hv. by rewrite pointer_get_cons, Ew. }
  change (call_fields t "mcp") with (add_field t "/with/parameters" McpParams
    ++ add_field t "/with/arguments" McpParams ++ add_field t "/with/resource" McpResourceUri
    ++ add_endpoint t "/with/server/endpoint" JsonRpcUri
    ++ add_endpoint t "/with/transport/http/endpoint" JsonRpcUri
    ++ add_field t "/with/transport/http/headers" JsonRpcHeader) in Hf. read_field Hf.
  - apply Hget in Hv as [Hv|Hv]%(mcp_arguments_parameters _ _ _ Ha); [..|done].
    + eapply (planned_argument _ _ _ "mcp" "params"); [done|left|by apply Hback].
    + eapply (planned_argument _ _ _ "mcp" "parameters"); [done|right; left|by apply Hback].
  - apply Hget in Hv; [|done]. rewrite (mcp_arguments_get _ _ _ Ha) in Hv by set_solver.
    eapply (planned_argument _ _ _ "mcp" "arguments"); [done|right; right; left|by apply Hback].
  - apply Hget in Hv; [|done]. rewrite (mcp_arguments_get _ _ _ Ha) in Hv by set_solver.
    apply (pt_template _ _ _ _ Ht), tpl_resource. by apply (pt_args _ _ _ _ Ht ["resource"]), Hback.
  - not_checked Hu.
  - not_checked Hu.
  - not_checked Hu.
Qed.

Lemma prepared_fields_late branches inside definition task t path name f :
  planned (task_with branches inside task path name) → planned (task_call task path name) →
  w5_prepare definition task = Some t → f ∈ fields t → unvalidated task f = false → field_late f.
Proof.
  intros Hp Hcall Ht Hf Hu. unfold w5_prepare in Ht. apply bind_Some in Ht as (m & Em & Ht).
  destruct task as [| | | | |m']; try done. injection Em as ->.
  assert (∀ t', get "idempotencyKey" t' = get "idempotencyKey" (JObject m) → get "ask" t' = get "ask" (JObject m) →
    f ∈ fields t' → (∀ call, get "call" t' ≫= as_str = Some call → f ∈ call_fields t' call → field_late f) →
    field_late f) as Hother.
  { intros t' Hk Ha Hf' Hc. apply elem_of_fields in Hf'. destruct (other_fields_same _ _ Hk Ha) as [Ek Ea].
    rewrite Ek, Ea in Hf'.
    destruct Hf' as [Hf'|[Hf'|Hf']]; [| |by eapply ask_fields_late].
    - by eapply key_late.
    - destruct (get "call" t' ≫= as_str) as [call|]; [by eapply Hc|by apply elem_of_nil in Hf']. }
  case_bool_decide as Ek; [|case_bool_decide as Ec].
  - injection Ht as <-. eapply Hother; [| |exact Hf|]; [cbn [get]; by rewrite member_obj_remove..|].
    intros call. cbn [get]. by rewrite member_obj_remove.
  - apply bind_Some in Ht as (args & Ha & (server & _ & [= <-])%bind_Some).
    eapply Hother; [| |exact Hf|]; [cbn [get]; by rewrite member_obj_insert..|].
    intros call Hc Hf'. assert (call = "mcp") as ->.
    { cbn [get] in Hc, Ec. rewrite member_obj_insert, decide_False in Hc by done. congruence. }
    eapply prepared_mcp_late; [by eapply planned_task_of|done| |exact Hf'|done]. cbn [get]. by rewrite member_obj_insert.
  - injection Ht as <-. eapply Hother; [done|done|exact Hf|]. intros call Hc Hf'.
    eapply call_fields_late; [by eapply planned_task_of| |exact Hf'|done]. congruence.
Qed.

(** ** Values, exports and the output *)

Lemma switch_fields_late branches inside task path name all i cases fs f :
  planned (task_with branches inside task path name) → get "switch" task ≫= as_array = Some all →
  (∀ c, c ∈ cases → c ∈ all) → switch_fields i cases = Some fs → f ∈ fs → field_late f.
Proof.
  intros Hp Hall. revert i fs. induction cases as [|entry cases IH]; intros i fs Hin Hs Hf.
  { injection Hs as <-. by apply elem_of_nil in Hf. }
  cbn [switch_fields] in Hs. apply bind_Some in Hs as ([cname case] & He & Hs).
  assert (∀ c, c ∈ cases → c ∈ all) as Hin' by (intros c Hc; apply Hin; by right).
  case_bool_decide as Hd; [case_match; [done|by eapply IH]|].
  apply bind_Some in Hs as (then_ & _ & Hs). apply bind_Some in Hs as (when & Hw & Hs).
  apply bind_Some in Hs as (fs' & Hfs & [= <-]). apply elem_of_cons in Hf as [->|Hf]; [|by eapply IH].
  apply bind_Some in Hw as (v & Hw & Hv). destruct v; try done. injection Hv as ->.
  eapply template_late; [exact Hp|]. eapply (tpl_when _ all entry cname case); [done|apply Hin; left|done..].
Qed.

Lemma optional_get key v w : optional key v = Some w → get key v = Some w.
Proof. unfold optional. destruct (get key v) as [[]|]; naive_solver. Qed.

Lemma elem_of_compared v path p q f :
  f ∈ compared v path p q → ∃ key w, (key, sf_position f) ∈ [("equals", q); ("contains", p)]
    ∧ get key v = Some w ∧ sf_template f = w.
Proof.
  unfold compared. intros [Hf|Hf]%elem_of_app.
  - destruct (optional "contains" v) as [w|] eqn:E; [|by apply elem_of_nil in Hf].
    apply list_elem_of_singleton in Hf as ->. exists "contains", w. split_and!; [right; left|by apply optional_get|done].
  - destruct (optional "equals" v) as [w|] eqn:E; [|by apply elem_of_nil in Hf].
    apply list_elem_of_singleton in Hf as ->. exists "equals", w. split_and!; [left|by apply optional_get|done].
Qed.

Lemma comparison_fields_late branches inside task path name m e f :
  planned (task_with branches inside task path name) →
  pointer_get ["assert"; "json"] task ≫= as_object = Some m → e ∈ m → f ∈ comparison_fields e → field_late f.
Proof.
  intros Hp Hm He Hf. destruct e as [k c]. unfold comparison_fields in Hf. cbn [fst snd] in Hf.
  assert (f ∈ compared c ("/assert/json/" +:+ escape k) AssertJsonContains AssertJsonEquals → field_late f) as Hcmp.
  { intros (key & w & Hk & Hg & <-)%elem_of_compared. eapply template_late; [exact Hp|].
    by eapply (tpl_comparison _ m k c key). }
  destruct c; try by apply Hcmp. apply list_elem_of_singleton in Hf as ->.
  eapply template_late; [exact Hp|]. by eapply (tpl_predicate _ m k).
Qed.

Lemma assert_fields_late branches inside task path name fs f :
  planned (task_with branches inside task path name) → assert_fields task = Some fs → f ∈ fs →
  unvalidated task f = false → field_late f.
Proof.
  unfold assert_fields. intros Hp (a & Ea & [= <-])%bind_Some Hf Hu. apply elem_of_cons in Hf as [->|Hf].
  - unfold unvalidated in Hu. rewrite !orb_false_iff in Hu. destruct Hu as [_ Hu].
    rewrite bool_decide_true in Hu by done. apply bool_decide_eq_false in Hu. rewrite Ea in Hu. cbn [mbind option_bind] in Hu.
    destruct (optional "value" a) as [v|] eqn:Ev; [|done]. eapply template_late; [exact Hp|].
    apply (tpl_assert _ "value"); [left|]. rewrite !pointer_get_cons, Ea. cbn [mbind option_bind].
    rewrite pointer_get_cons. by rewrite (optional_get _ _ _ Ev).
  - unfold by_path in Hf. rewrite merge_sort_Permutation in Hf. apply elem_of_app in Hf as [Hf|Hf].
    + apply elem_of_compared in Hf as (key & w & Hk & Hg & <-). eapply template_late; [exact Hp|].
      apply (tpl_assert _ key); [by right|]. by rewrite !pointer_get_cons, Ea.
    + destruct (get "json" a ≫= as_object) as [m|] eqn:Em; [|by apply elem_of_nil in Hf].
      apply list_elem_of_bind in Hf as (e & Hf & He). eapply comparison_fields_late; [done| |done|done].
      by rewrite !pointer_get_cons, Ea.
Qed.

(** What a task evaluates when it is executed. *)
Lemma step_fields_late branches inside definition task path name fs f :
  planned (task_with branches inside task path name) → step_fields definition task = Some fs → f ∈ fs →
  unvalidated task f = false → field_late f.
Proof.
  intros Hp Hs Hf Hu.
  assert (planned (task_call task path name)) as Hcall.
  { destruct task; try by apply planned_error in Hp. cbn [task_with] in Hp. cbv zeta in Hp.
    rewrite !planned_app in Hp. apply Hp. }
  unfold step_fields in Hs. destruct (task_kind task) as [[]|]; try done.
  - apply fmap_Some in Hs as (t & Ht & ->). by eapply prepared_fields_late.
  - by eapply assert_fields_late.
  - apply fmap_Some in Hs as (t & Ht & ->). by eapply prepared_fields_late.
  - unfold set_fields in Hs. destruct (get "set" task) as [v|] eqn:Ev; [|done].
    assert (fs = [field "/set" PSet v]) as -> by (destruct v; naive_solver).
    apply list_elem_of_singleton in Hf as ->. eapply template_late; [exact Hp|]. by apply tpl_set.
  - apply bind_Some in Hs as (cases & Hc & Hs). by eapply switch_fields_late.
Qed.

Lemma export_fields_late branches inside task path name fs f :
  planned (task_with branches inside task path name) → export_fields task = Some fs → f ∈ fs →
  unvalidated task f = false → field_late f.
Proof.
  unfold export_fields. intros Hp (m & Hm & [= <-])%bind_Some Hf Hu.
  apply list_elem_of_fmap in Hf as ([k v] & -> & Hf). rewrite merge_sort_Permutation in Hf.
  assert ((if bool_decide (task_kind task = Some KRun) then RunnerExport else PExport)
    = (if bool_decide (is_Some (get "run" task)) then RunnerExport else PExport)) as Epos.
  { unfold unvalidated in Hu. rewrite !orb_false_iff in Hu. destruct Hu as [[_ Hu] _]. cbn [sf_position field] in Hu.
    unfold has in Hu. destruct (decide (task_kind task = Some KRun)) as [Hk|Hk].
    - rewrite !bool_decide_true; [done| |done]. unfold task_kind, has in Hk. repeat case_match; try done.
      by eapply bool_decide_eq_true_1.
    - rewrite (bool_decide_false (task_kind task = _)) in * by done. rewrite bool_decide_true in Hu by done.
      cbn [andb] in Hu. by rewrite Hu. }
  unfold field_late. cbn [sf_template sf_position field fst snd]. rewrite Epos.
  eapply template_late; [exact Hp|]. eapply (tpl_export _ m k); [|done].
  rewrite !pointer_get_cons. destruct (get "export" task) as [x|]; [|done]. cbn [mbind option_bind] in *.
  rewrite pointer_get_cons. by destruct (get "as" x).
Qed.

(** ** Batches *)

#[local] Hint Resolve late_Ok late_Err late_bind late_if : late.
#[local] Hint Resolve late_step_bind late_step_ret late_step_throw late_step_lift late_step_check late_step_if : late.

Lemma for_each_late {S A} (g : S → A → result ExpressionError S) l :
  (∀ s x, late (g s x)) → ∀ s, late (for_each g s l).
Proof. intros Hg. induction l as [|x l IH]; intros s; cbn [for_each]; auto with late. Qed.
Lemma measured_late v d n limits : late (measured (measure v d n limits)).
Proof.
  unfold measured, measure. destruct (measure_loop _ _ _ _) eqn:E; cbn; [by eapply measure_loop_late|auto with late].
Qed.
Lemma validate_bindings_late context input output value limits : late (validate_bindings context input output value limits).
Proof.
  unfold validate_bindings. apply late_if; [apply late_Err|]. cbv zeta. apply late_if; [apply late_Err|].
  apply late_bind; [apply measured_late|intros n1]. apply late_bind; [apply measured_late|intros n2].
  apply late_bind; [apply for_each_late; intros; apply measured_late|intros _].
  apply late_bind; [|auto with late]. intros e. unfold map_err. case_match; [done|]. by intros [= <-].
Qed.
Lemma OutputBudget_add_late budget v limits : late (OutputBudget_add budget v limits).
Proof.
  unfold OutputBudget_add. apply late_bind; [apply measured_late|intros n].
  apply late_bind; [apply encode_late|intros t]. apply late_bind; [|auto with late].
  unfold ok_or. case_match; auto with late.
Qed.

Lemma field_bindings_late request f values b : late_step (field_bindings request f values b).
Proof.
  unfold field_bindings. destruct (sf_value_from f) as [[index selector]|]; [|auto with late].
  apply late_step_if; [auto with late|]. destruct (values !! _); [|auto with late].
  apply late_step_bind; [apply late_step_lift, validate_bindings_late|auto with late].
Qed.

Lemma run_fields_late request fs :
  sr_limits request = Limits_default → Forall field_late fs →
  ∀ b budget values, late_step (run_fields cancelled request fs b budget values).
Proof.
  intros Hl. induction 1 as [|f fs Hf _ IH]; intros b budget values; cbn [run_fields]; [apply late_step_ret|].
  apply late_step_bind; [by intros s e s'|intros _]. apply late_step_bind; [apply late_step_check|intros _].
  apply late_step_bind; [apply field_bindings_late|intros b']. rewrite Hl.
  apply late_step_bind; [apply Hf|intros v].
  apply late_step_bind; [apply late_step_lift, OutputBudget_add_late|intros budget'].
  apply late_step_if; [apply late_step_ret|apply IH].
Qed.

Lemma run_late request path e :
  sr_limits request = Limits_default → Forall field_late (sr_fields request) →
  run cancelled request = Err {| se_path := path; se_error := Expression e |} → ee_phase e = Runtime.
Proof.
  intros Hl Hf. unfold run. destruct (run_inner _ _ _) as [[values|e'] s'] eqn:E; [done|]. intros [= _ ->].
  assert (late_step (run_inner cancelled request)) as H; [|by eapply H]. unfold run_inner.
  apply late_step_bind; [apply late_step_check|intros _].
  apply late_step_bind; [apply late_step_lift, for_each_late; intros; apply OutputBudget_add_late|intros _]. cbv zeta.
  apply late_step_bind; [apply late_step_lift, validate_bindings_late|intros _].
  apply late_step_bind; [by apply run_fields_late|intros values].
  apply late_step_bind; [apply late_step_check|intros _; apply late_step_ret].
Qed.
End fields.

(** ** Accepted definitions *)

(** The batches the executor evaluates for a definition, with the task they belong to. *)
Inductive batch_of (raw : Json) : Json → list StepField → Prop :=
| batch_step inside task fs : task_at raw inside task → step_fields raw task = Some fs → batch_of raw task fs
| batch_export task fs : task_at raw false task → export_fields task = Some fs → batch_of raw task fs
| batch_output fs : output_fields raw = Some fs → batch_of raw raw fs.

Section accepted.
Context {JC : JsonChunks} {CE : CelEngine} {CL : CelLaws CE} {SC : Scheduling} (cancelled : nat → bool).

Lemma batch_late raw plan lost task fs :
  from_raw raw = Some (Ok plan) → dv_profile plan = CelWorkflowV2 → validate lost plan = Ok () →
  batch_of raw task fs → Forall (λ f, unvalidated task f = false) fs → Forall (field_late cancelled) fs.
Proof.
  intros Hf Hprof Hv Hb Hu. destruct (accepted_planned _ _ _ Hf Hprof Hv) as (ranks & foreign & _ & Hp).
  unfold collected in Hp. rewrite !planned_app in Hp. destruct Hp as (_ & _ & _ & Hout & Htasks).
  rewrite Forall_forall in Hu. apply Forall_forall. intros f Hin.
  destruct Hb as [inside task fs Hat Hs|task fs Hat Hs|fs Hs].
  - destruct (task_at_planned _ _ _ Htasks Hat) as (branches & path & name & Hp & _).
    eapply step_fields_late; eauto.
  - destruct (task_at_planned _ _ _ Htasks Hat) as (branches & path & name & Hp & _).
    eapply export_fields_late; eauto.
  - unfold output_fields in Hs. apply bind_Some in Hs as (v & Hs & [= <-]).
    apply list_elem_of_singleton in Hin as ->. apply bind_Some in Hs as (o & Ho & Hs%optional_get).
    rewrite !pointer_get_cons, Ho in Hout. cbn [mbind option_bind] in Hout. rewrite pointer_get_cons, Hs in Hout.
    intros b. cbn [mbind option_bind] in Hout. rewrite pointer_get_nil in Hout. by eapply json_late.
Qed.

(** C26 A definition that passed validation never fails admission when it runs.  Every batch of
    templates the executor takes from it, for the request of a call or a question, for a
    set, switch or assert task, for the exports of a task or for the output of the workflow,
    is evaluated to values, cancelled, or ends with an error of the runtime phase, never with a
    malformed template, an expression that does not compile, or one that uses a variable
    its position does not have.  Excepted are batches with a field that is not validated: the
    endpoint of a server of an MCP or OpenRPC call, the endpoint and the headers of an MCP
    transport, the URL of an OpenRPC server with variables, the idempotency key of a question
    or of a call that is not HTTP, MCP or A2A, exports of a task that has a run member and is of another kind, and the default value of
    an assertion. *)
Theorem validated_definition_admitted raw plan lost task fs bindings first_true path e :
  from_raw raw = Some (Ok plan) → dv_profile plan = CelWorkflowV2 → validate lost plan = Ok () →
  batch_of raw task fs → Forall (λ f, unvalidated task f = false) fs →
  run cancelled {| sr_bindings := bindings; sr_limits := Limits_default; sr_fields := fs; sr_first_true := first_true |}
    = Err {| se_path := path; se_error := Expression e |} →
  ee_phase e = Runtime.
Proof.
  intros Hf Hprof Hv Hb Hu Hr. refine (run_late cancelled _ path e _ _ Hr); [done|]. cbn. by eapply batch_late.
Qed.
End accepted.

(** ** Runs *)

Module RequestsInstance.
#[local] Existing Instance PlanInstance.chunks.
#[local] Existing Instance PlanInstance.schedule.
#[local] Existing Instance PlanInstance.engine.
#[local] Existing Instance PlanInstance.engine_laws.

(** A definition with one call. *)
Definition calling (members : list (string * Json)) : Json :=
  JObject
    [("document", JObject [("metadata", JObject [("lightExpressionProfile", JString "cel-workflow-v2")])]);
     ("evaluate", JObject [("language", JString "cel")]);
     ("do", JArray [JObject [("first", JObject members)]])].
Definition request_of (fs : list StepField) : StepRequest :=
  {| sr_bindings := PlanInstance.no_bindings; sr_limits := Limits_default; sr_fields := fs; sr_first_true := false |}.
Definition accepted (raw : Json) : Prop := validate (λ _, None) (PlanInstance.plan_of raw) = Ok ().
Definition phase_of (r : result StepError (list Json)) : option (string * Phase) :=
  match r with
  | Err {| se_path := path; se_error := Expression e |} => Some (path, ee_phase e)
  | _ => None
  end.

(** The evaluation of the parameters fails at run time. *)
Definition mcp_call : list (string * Json) :=
  [("call", JString "mcp"); ("with", JObject [("tool", JString "t"); ("params", JString "${context}");
     ("server", JObject [("command", JString "c")])])].
Definition mcp_fields : list StepField := [field "/with/parameters" McpParams (JString "${context}")].
Lemma mcp_batch : batch_of (calling mcp_call) (JObject mcp_call) mcp_fields.
Proof.
  apply (batch_step _ false).
  - eapply task_top; [reflexivity|left|reflexivity].
  - vm_compute. reflexivity.
Qed.
Definition failed : ExpressionError := error_at (runtime Evaluation) 0 2.
Lemma validated_definition_admitted_witness : ee_phase failed = Runtime.
Proof.
  apply (validated_definition_admitted (λ _, false) (calling mcp_call) (PlanInstance.plan_of (calling mcp_call))
    (λ _, None) (JObject mcp_call) mcp_fields PlanInstance.no_bindings false "/with/parameters" failed).
  - vm_compute. reflexivity.
  - vm_compute. reflexivity.
  - vm_compute. reflexivity.
  - exact mcp_batch.
  - repeat constructor.
  - vm_compute. reflexivity.
Defined.

(** The endpoint of an MCP server, the headers of its transport, and the idempotency key of a
    JSON-RPC call are accepted with an unknown variable, and refused when they run. *)
Definition bad : Json := JString "${nobody}".
Definition bad_endpoint : list (string * Json) :=
  [("call", JString "mcp"); ("with", JObject [("server", JObject [("endpoint", bad)])])].
Definition bad_headers : list (string * Json) :=
  [("call", JString "mcp");
   ("with", JObject [("transport", JObject [("http", JObject [("endpoint", JString "e"); ("headers", JObject [("x-user", bad)])])])])].
Definition bad_key : list (string * Json) :=
  [("call", JString "jsonrpc"); ("idempotencyKey", bad); ("with", JObject [("method", JString "m")])].
Example unvalidated_templates :
  Forall (λ x : list (string * Json) * string,
    accepted (calling x.1)
    ∧ phase_of (run (λ _, false) (request_of (default [] (step_fields (calling x.1) (JObject x.1))))) = Some (x.2, Admission))
  [(bad_endpoint, "/with/server/endpoint"); (bad_headers, "/with/transport/http/headers/x-user");
   (bad_key, "/idempotencyKey")].
Proof. repeat constructor; vm_compute; reflexivity. Qed.
End RequestsInstance.
