(* ===== verification/HttpPath.v ===== *)
(** * Canonical HTTP paths

    Model of the canonical form of request paths and policy patterns,
    [canonical_http_path] and [canonical_http_pattern] of
    [frameworks/light-pingora/src/handler.rs].  It is the identity under which access
    control policies are selected: escapes are decoded once, spellings that other
    servers could read differently are refused, and what remains is written in one way. *)

From S2P Require Import Prelude RustStr.
From Stdlib Require Import Ascii.

(** ** The canonical form *)

Definition is_ascii_control (b : ascii) : bool := (byte b <? 32)%N || (byte b =? 127)%N.

(** The bytes a decoded segment may hold. *)
Definition admissible_byte (b : ascii) : result string unit :=
  if Ascii.eqb b ";" then Err "path parameters are unsupported on access-control chains" else
  if Ascii.eqb b "/" || Ascii.eqb b "\" || Ascii.eqb b "%" || is_ascii_control b
  then Err "separator, percent or control character" else Ok ().

(** The loop over the bytes of a segment. *)
Fixpoint decode_segment (l : list ascii) : result string (list ascii) :=
  match l with
  | [] => Ok []
  | c :: rest =>
      if Ascii.eqb c "%" then
        match rest with
        | h :: (l :: rest) =>
            hi ← ok_or "malformed escape" (digit_value 16 h);
            lo ← ok_or "malformed escape" (digit_value 16 l);
            let b := ascii_of_N (hi * 16 + lo) in
            _ ← admissible_byte b;
            decoded ← decode_segment rest;
            Ok (b :: decoded)
        | _ => Err "malformed escape"
        end
      else
        _ ← admissible_byte c;
        decoded ← decode_segment rest;
        Ok (c :: decoded)
  end.

Definition unescaped_byte (b : ascii) : bool :=
  is_ascii_alphanumeric b || contains_byte "-._~!$&'()+,;=:@*" b.
Definition encode_byte (b : ascii) : list ascii :=
  if unescaped_byte b then [b]
  else ["%"%char; hex_upper (byte b / 16); hex_upper (byte b mod 16)].

Definition canonical_segment (pattern : bool) (segment : string) : result string string :=
  if is_empty segment then Err "repeated slash" else
  if pattern && (bool_decide (segment = "*")
                 || starts_with segment "{" && ends_with segment "}") then Ok segment else
  decoded ← decode_segment (bytes segment);
  if negb (utf8_valid decoded) then Err "invalid UTF-8" else
  if bool_decide (decoded = bytes ".") || bool_decide (decoded = bytes "..")
  then Err "dot segment" else
  Ok (of_bytes (decoded ≫= encode_byte)).

Fixpoint canonical_segments (pattern : bool) (segments : list string) : result string string :=
  match segments with
  | [] => Ok ""
  | segment :: rest =>
      s ← canonical_segment pattern segment;
      out ← canonical_segments pattern rest;
      Ok ("/" +:+ s +:+ out)
  end.

(** [path.strip_suffix('/').unwrap_or(path)[1..].split('/')] of a path that starts with a
    slash. *)
Definition strip_suffix_slash (s : string) : string :=
  match rsplit_once "/" s with Some (l, "") => l | _ => s end.
Definition raw_segments (path : string) : list string :=
  split "/" (String.substring 1 (String.length path) (strip_suffix_slash path)).

Definition canonical_http_path_impl (path : string) (pattern : bool) : result string string :=
  if bool_decide (path = "/") then Ok path else
  if negb (starts_with path "/") then Err "path must start with slash" else
  canonical_segments pattern (raw_segments path).

Definition canonical_http_path (path : string) : result string string :=
  canonical_http_path_impl path false.
Definition canonical_http_pattern (path : string) : result string string :=
  canonical_http_path_impl path true.

(** ** What the canonical form identifies *)

(** Percent decoding without any test; a malformed escape stands for itself. *)
Fixpoint unescape (l : list ascii) : list ascii :=
  match l with
  | [] => []
  | c :: rest =>
      if Ascii.eqb c "%" then
        match rest with
        | h :: (l :: rest') =>
            match digit_value 16 h, digit_value 16 l with
            | Some hi, Some lo => ascii_of_N (hi * 16 + lo) :: unescape rest'
            | _, _ => c :: unescape rest
            end
        | _ => c :: unescape rest
        end
      else c :: unescape rest
  end.

(** The decoded segments of a path, a final slash aside. *)
Definition segments_of (path : string) : list (list ascii) :=
  (λ s, unescape (bytes s)) <$> raw_segments path.

(** What every server reads as the same ordinary path segment. *)
Definition safe_byte (b : ascii) : Prop :=
  b ≠ ";"%char ∧ b ≠ "/"%char ∧ b ≠ "\"%char ∧ b ≠ "%"%char ∧ is_ascii_control b = false.
Definition safe_segment (d : list ascii) : Prop :=
  d ≠ [] ∧ d ≠ bytes "." ∧ d ≠ bytes ".." ∧ utf8_valid d = true ∧ Forall safe_byte d.

Lemma admissible_byte_Ok b : admissible_byte b = Ok () ↔ safe_byte b.
Proof.
  unfold admissible_byte, safe_byte.
  destruct (Ascii.eqb_spec b ";"), (Ascii.eqb_spec b "/"), (Ascii.eqb_spec b "\"),
    (Ascii.eqb_spec b "%"), (is_ascii_control b); cbn; naive_solver.
Qed.

Lemma decode_segment_Ok l d : decode_segment l = Ok d → d = unescape l ∧ Forall safe_byte d.
Proof.
  revert d. remember (length l) as n eqn:Hn. revert l Hn.
  induction (lt_wf n) as [n _ IH]. intros [|c rest] -> d; cbn [decode_segment unescape].
  { by intros [= <-]. }
  destruct (Ascii.eqb c "%").
  - destruct rest as [|h [|l rest]]; try done. intros H.
    apply bind_Ok in H as (hi & ->%ok_or_Ok & H). apply bind_Ok in H as (lo & ->%ok_or_Ok & H).
    apply check_Ok in H as [Hb%admissible_byte_Ok (d' & Hd & [= <-])%bind_Ok].
    apply (IH (length rest)) in Hd as [-> ?]; [by auto|cbn; lia|done].
  - intros [Hb%admissible_byte_Ok (d' & Hd & [= <-])%bind_Ok]%check_Ok.
    apply (IH (length rest)) in Hd as [-> ?]; [by auto|cbn; lia|done].
Qed.

Lemma decode_encode_byte b l d :
  safe_byte b → decode_segment l = Ok d → decode_segment (encode_byte b ++ l) = Ok (b :: d).
Proof.
  intros Hb Hl. pose proof (byte_lt b). unfold encode_byte. destruct (unescaped_byte b); cbn [app decode_segment].
  - destruct (Ascii.eqb_spec b "%") as [->|]; [by destruct Hb as (_ & _ & _ & ? & _)|].
    apply admissible_byte_Ok in Hb. by rewrite Hb, Hl.
  - change (Ascii.eqb "%" "%") with true. cbn match.
    rewrite !digit_value_hex_upper by (apply N.mod_lt || apply N.Div0.div_lt_upper_bound; lia).
    cbn [ok_or mbind result_bind].
    assert (ascii_of_N (byte b / 16 * 16 + byte b mod 16) = b) as ->.
    { rewrite (N.mul_comm _ 16), <- N.div_mod by done. apply ascii_byte. }
    apply admissible_byte_Ok in Hb. by rewrite Hb, Hl.
Qed.

Lemma decode_encode d : Forall safe_byte d → decode_segment (d ≫= encode_byte) = Ok d.
Proof. induction 1; cbn; [done|]. by apply decode_encode_byte. Qed.

(** The one spelling of a decoded segment. *)
Definition encoded (d : list ascii) : string := of_bytes (d ≫= encode_byte).

Lemma encoded_inj d d' :
  Forall safe_byte d → Forall safe_byte d' → encoded d = encoded d' → d = d'.
Proof.
  intros Hd Hd' H. apply (f_equal bytes) in H. unfold encoded in H. rewrite !bytes_of_bytes in H.
  apply decode_encode in Hd, Hd'. congruence.
Qed.

Lemma encode_byte_avoids b c x :
  safe_byte b → c ∈ ["/"; "{"; "}"]%char → x ∈ encode_byte b → x ≠ c.
Proof.
  intros Hb Hc Hx ->. pose proof (byte_lt b).
  unfold encode_byte in Hx. destruct (unescaped_byte b) eqn:E.
  - apply list_elem_of_singleton in Hx as ->. destruct Hb as (_ & ? & _).
    repeat (apply elem_of_cons in Hc as [->|Hc]; [done|]). by apply not_elem_of_nil in Hc.
  - assert (∀ n, (n < 16)%N → hex_upper n ≠ c) as Hhex.
    { intros n Hn Heq. pose proof (digit_value_hex_upper n Hn) as Hd. rewrite Heq in Hd.
      repeat (apply elem_of_cons in Hc as [->|Hc]; [done|]). by apply not_elem_of_nil in Hc. }
    apply elem_of_cons in Hx as [->|Hx].
    { repeat (apply elem_of_cons in Hc as [[=]|Hc]). by apply not_elem_of_nil in Hc. }
    apply elem_of_cons in Hx as [->|Hx%list_elem_of_singleton]; [|subst c];
      eapply Hhex; try done; apply N.mod_lt || apply N.Div0.div_lt_upper_bound; lia.
Qed.

Lemma encoded_avoids d c :
  Forall safe_byte d → c ∈ ["/"; "{"; "}"]%char → contains_byte (encoded d) c = false.
Proof.
  intros Hd Hc. rewrite contains_byte_false. unfold encoded. rewrite bytes_of_bytes.
  intros (b & Hx & Hb)%list_elem_of_bind. rewrite Forall_forall in Hd.
  by apply (encode_byte_avoids b c c (Hd b Hb) Hc Hx).
Qed.

Lemma encoded_empty d : is_empty (encoded d) = true → d = [].
Proof.
  destruct d as [|b d]; [done|]. unfold encoded, encode_byte. cbn. by destruct (unescaped_byte b).
Qed.

Lemma canonical_segment_Ok s t :
  canonical_segment false s = Ok t →
  safe_segment (unescape (bytes s)) ∧ t = encoded (unescape (bytes s)).
Proof.
  unfold canonical_segment. destruct (is_empty s) eqn:Es; [done|]. cbn [andb].
  intros (d & [-> Hd]%decode_segment_Ok & H)%bind_Ok. unfold safe_segment.
  destruct (utf8_valid _) eqn:Eu; [|done]. cbn [negb] in H.
  repeat case_bool_decide; try done. injection H as <-. split_and!; try done.
  destruct s as [|a s]; [done|]. cbn. repeat case_match; done.
Qed.

(** Canonical segments are fixed points, also as patterns. *)
Lemma canonical_segment_encoded pattern d :
  safe_segment d → canonical_segment pattern (encoded d) = Ok (encoded d).
Proof.
  intros (Hne & Hd1 & Hd2 & Hu & Hs). unfold canonical_segment.
  destruct (is_empty (encoded d)) eqn:Es; [by apply encoded_empty in Es|].
  case_match; [done|]. unfold encoded at 1. rewrite bytes_of_bytes, decode_encode by done.
  cbn. by rewrite Hu, !bool_decide_eq_false_2.
Qed.

(** ** Paths *)

Fixpoint slashed (segments : list string) : string :=
  match segments with [] => "" | s :: rest => "/" +:+ s +:+ slashed rest end.

Lemma slashed_join s l : slashed (s :: l) = "/" +:+ join "/" (s :: l).
Proof.
  revert s. induction l as [|t l IH]; intros s; [cbn [slashed join]; by rewrite sapp_nil|].
  change (slashed (s :: t :: l)) with ("/" +:+ s +:+ slashed (t :: l)). by rewrite IH.
Qed.

Lemma canonical_segments_fixed pattern l :
  Forall (λ s, canonical_segment pattern s = Ok s) l → canonical_segments pattern l = Ok (slashed l).
Proof. induction 1 as [|s l Hs _ IH]; cbn; [done|]. by rewrite Hs, IH. Qed.

Lemma canonical_segments_Ok l c :
  canonical_segments false l = Ok c →
  Forall safe_segment ((λ s, unescape (bytes s)) <$> l)
  ∧ c = slashed (encoded <$> ((λ s, unescape (bytes s)) <$> l)).
Proof.
  revert c. induction l as [|s l IH]; intros c; cbn; [by intros [= <-]|].
  intros (t & [Hs ->]%canonical_segment_Ok & (out & [Hl ->]%IH & [= <-])%bind_Ok)%bind_Ok.
  split; [by constructor|done].
Qed.

Lemma slashed_app l l' : slashed (l ++ l') = slashed l +:+ slashed l'.
Proof. induction l as [|s l IH]; cbn [app slashed]; [done|]. by rewrite IH, !sapp_assoc. Qed.

Lemma raw_segments_slashed l :
  l ≠ [] → Forall (λ s, s ≠ "" ∧ contains_byte s "/" = false) l → raw_segments (slashed l) = l.
Proof.
  intros Hne Hl. unfold raw_segments. assert (strip_suffix_slash (slashed l) = slashed l) as ->.
  { unfold strip_suffix_slash. destruct l as [|s l _] using rev_ind; [done|].
    apply Forall_app in Hl as [_ [[Hs1 Hs2] _]%Forall_cons].
    assert (rsplit_once "/" (slashed (l ++ [s])) = Some (slashed l, s)) as ->; [|by destruct s].
    apply rsplit_once_Some. split; [|done]. rewrite slashed_app. cbn [slashed].
    by rewrite sapp_nil. }
  destruct l as [|s l]; [done|]. rewrite slashed_join.
  change ("/" +:+ join "/" (s :: l)) with (String "/" (join "/" (s :: l))).
  cbn [String.substring String.length]. rewrite substring_whole by lia. apply split_join; [done|].
  eapply Forall_impl; [exact Hl|]. by intros x [].
Qed.

Lemma unescape_encoded d : Forall safe_byte d → unescape (bytes (encoded d)) = d.
Proof.
  intros Hd%decode_encode. unfold encoded. rewrite bytes_of_bytes.
  by apply decode_segment_Ok in Hd as [<- _].
Qed.

Lemma encoded_segment d :
  safe_segment d → encoded d ≠ "" ∧ contains_byte (encoded d) "/" = false.
Proof.
  intros (Hne & _ & _ & _ & Hs). split; [|apply encoded_avoids; [done|by left]].
  intros H. by apply Hne, encoded_empty; rewrite H.
Qed.

(** A canonical path other than the root is the spelling of safe segments. *)
Lemma canonical_http_path_Ok p c :
  canonical_http_path p = Ok c →
  p = "/" ∧ c = "/"
  ∨ segments_of p ≠ [] ∧ Forall safe_segment (segments_of p)
    ∧ c = slashed (encoded <$> segments_of p).
Proof.
  unfold canonical_http_path, canonical_http_path_impl. case_bool_decide as Hp; [naive_solver|].
  destruct (starts_with p "/"); [|done]. cbn [negb]. intros [Hs ->]%canonical_segments_Ok. right.
  split_and!; [|done..]. intros H%fmap_nil_inv. by apply split_nonempty in H.
Qed.

Lemma raw_segments_encoded l :
  l ≠ [] → Forall safe_segment l → raw_segments (slashed (encoded <$> l)) = encoded <$> l.
Proof.
  intros Hne Hl. apply raw_segments_slashed; [by intros H%fmap_nil_inv|].
  rewrite Forall_fmap. eapply Forall_impl; [exact Hl|]. apply encoded_segment.
Qed.

Lemma segments_of_slashed l :
  l ≠ [] → Forall safe_segment l → segments_of (slashed (encoded <$> l)) = l.
Proof.
  intros Hne Hl. unfold segments_of. rewrite raw_segments_encoded by done. rewrite <- list_fmap_compose.
  rewrite <- (list_fmap_id l) at 2. apply list_fmap_ext. intros i d Hd. cbn. apply unescape_encoded.
  rewrite Forall_lookup in Hl. by apply Hl in Hd as (_ & _ & _ & _ & ?).
Qed.

(** Spellings of safe segments are canonical, as paths and as patterns. *)
Lemma canonical_slashed pattern l :
  l ≠ [] → Forall safe_segment l →
  canonical_http_path_impl (slashed (encoded <$> l)) pattern = Ok (slashed (encoded <$> l)).
Proof.
  intros Hne Hl. unfold canonical_http_path_impl. case_bool_decide; [done|].
  assert (starts_with (slashed (encoded <$> l)) "/" = true) as ->.
  { destruct l; [done|]. apply starts_with_app. by eexists. }
  cbn [negb]. rewrite raw_segments_encoded by done. apply canonical_segments_fixed.
  rewrite Forall_fmap. eapply Forall_impl; [exact Hl|]. intros d. apply canonical_segment_encoded.
Qed.

(** A path has the decoded segments of its canonical form. *)
Lemma canonical_segments_of p c : canonical_http_path p = Ok c → segments_of c = segments_of p.
Proof.
  intros [[-> ->]|(? & ? & ->)]%canonical_http_path_Ok; [done|by apply segments_of_slashed].
Qed.

(** The canonical form of a path is an identity: it is its own canonical form, it is the
    root or has only segments that are not empty, no dot segments, valid UTF-8 and free of
    separators, parameters, percent signs and control characters after decoding, and two
    accepted paths have the same canonical form exactly when they have the same decoded
    segments, whatever escapes and final slash they are written with. *)
Theorem canonical_path_identity p c :
  canonical_http_path p = Ok c →
  canonical_http_path c = Ok c
  ∧ (c = "/" ∨ Forall safe_segment (segments_of p))
  ∧ ∀ q c', canonical_http_path q = Ok c' → (c' = c ↔ segments_of q = segments_of p).
Proof.
  intros Hp. pose proof (canonical_segments_of _ _ Hp) as Ep. apply canonical_http_path_Ok in Hp.
  split_and!.
  - destruct Hp as [[-> ->]|(? & ? & ->)]; [done|by apply canonical_slashed].
  - tauto.
  - intros q c' Hq. pose proof (canonical_segments_of _ _ Hq) as Eq.
    apply canonical_http_path_Ok in Hq. split; [by intros ->; congruence|intros H].
    assert (¬ Forall safe_segment (segments_of "/")) as Hroot by (by intros [[] _]%Forall_cons).
    destruct Hp as [[-> ->]|(Hp1 & Hp2 & ->)], Hq as [[-> ->]|(Hq1 & Hq2 & ->)]; congruence.
Qed.

Lemma canonical_path_identity_witness :
  segments_of "/caf%C3%A9/b/" = segments_of "/caf%c3%a9/%62"
  ∧ canonical_http_path "/caf%c3%a9/%62" = Ok "/caf%C3%A9/b".
Proof.
  split; [|reflexivity].
  apply (proj2 (proj2 (canonical_path_identity "/caf%c3%a9/%62" "/caf%C3%A9/b" eq_refl))
           "/caf%C3%A9/b/" "/caf%C3%A9/b" eq_refl).
  reflexivity.
Defined.
