(* ===== verification/RustF64.v ===== *)
(** * The [f64] type

    The floating-point operations of the standard library the sources use: conversion from
    integers and bit patterns, [str::parse::<f64>] and the comparisons.  A number is a
    [spec_float] of the binary64 format, rounded to nearest even. *)

From S2P Require Import Prelude RustStr.
From Stdlib Require Import Ascii ZArith SpecFloat.

Definition prec : Z := 53.
Definition emax : Z := 1024.

(** [n as f64] of an integer. *)
Definition f64_of_Z (z : Z) : spec_float := binary_normalize prec emax z 0 false.

(** [f64::from_bits]. *)
Definition f64_of_bits (bits : N) : spec_float :=
  let sign := N.testbit bits 63 in
  let exponent := ((bits / 2 ^ 52) mod 2048)%N in
  let fraction := (bits mod 2 ^ 52)%N in
  if (exponent =? 2047)%N then
    if (fraction =? 0)%N then S754_infinity sign else S754_nan
  else if (exponent =? 0)%N then
    match fraction with N0 => S754_zero sign | Npos m => S754_finite sign m (-1074) end
  else
    match (fraction + 2 ^ 52)%N with
    | N0 => S754_zero sign
    | Npos m => S754_finite sign m (Z.of_N exponent - 1075)
    end.

(** [m * 10 ^ e], correctly rounded. *)
Definition f64_of_decimal (sign : bool) (m : N) (e : Z) : spec_float :=
  match m with
  | N0 => S754_zero sign
  | Npos m =>
      match e with
      | Zneg p => SFdiv prec emax (S754_finite sign m 0) (S754_finite false (10 ^ p)%positive 0)
      | _ => binary_normalize prec emax ((if sign then Z.neg m else Z.pos m) * 10 ^ e) 0 sign
      end
  end.

(** ** Parsing *)

Fixpoint span_digits (l : list ascii) : list ascii * list ascii :=
  match l with
  | c :: rest =>
      if is_ascii_digit c then let '(ds, rest) := span_digits rest in (c :: ds, rest) else ([], l)
  | [] => ([], [])
  end.
Definition decimal (l : list ascii) : N := foldl (λ a c, a * 10 + (byte c - 48))%N 0%N l.

Definition read_sign (l : list ascii) : bool * list ascii :=
  match l with
  | c :: rest =>
      if Ascii.eqb c "-" then (true, rest) else if Ascii.eqb c "+" then (false, rest) else (false, l)
  | [] => (false, [])
  end.

(** The exponent after the digits, and nothing after it. *)
Definition read_exponent (l : list ascii) : option Z :=
  match l with
  | [] => Some 0%Z
  | c :: rest =>
      if negb (Ascii.eqb c "e" || Ascii.eqb c "E") then None else
      let '(negative, rest) := read_sign rest in
      match span_digits rest with
      | ((_ :: _) as ds, []) => Some (if negative then - Z.of_N (decimal ds) else Z.of_N (decimal ds))%Z
      | _ => None
      end
  end.

(** [str::parse::<f64>]. *)
Definition parse_f64 (s : string) : option spec_float :=
  let '(sign, l) := read_sign (bytes s) in
  let word := to_ascii_lowercase (of_bytes l) in
  if bool_decide (word = "inf") || bool_decide (word = "infinity") then Some (S754_infinity sign) else
  if bool_decide (word = "nan") then Some S754_nan else
  let '(whole, l) := span_digits l in
  let '(fraction, l) :=
    match l with
    | c :: rest => if Ascii.eqb c "." then span_digits rest else ([], l)
    | [] => ([], [])
    end in
  match whole ++ fraction with
  | [] => None
  | ds =>
      e ← read_exponent l;
      Some (f64_of_decimal sign (decimal ds) (e - Z.of_nat (length fraction)))
  end.

(** ** Comparison *)

Definition f64_eqb (x y : spec_float) : bool := SFeqb x y.
Definition f64_ltb (x y : spec_float) : bool := SFltb x y.
Definition f64_leb (x y : spec_float) : bool := SFleb x y.

(** The decimal text of a number and its bits agree. *)
Example parse_f64_examples :
  parse_f64 "0.1" = Some (f64_of_bits 4591870180066957722)
  ∧ parse_f64 "1e23" = Some (f64_of_bits 4950912855330343670)
  ∧ parse_f64 "-.5E1" = Some (f64_of_Z (-5))
  ∧ parse_f64 "9007199254740993" = Some (f64_of_Z 9007199254740992)
  ∧ parse_f64 "5e-324" = Some (f64_of_bits 1)
  ∧ parse_f64 "1e400" = Some (S754_infinity false)
  ∧ parse_f64 "." = None ∧ parse_f64 "" = None ∧ parse_f64 "1e" = None ∧ parse_f64 "+" = None.
Proof. vm_compute. repeat split. Qed.
