(* ===== verification/RuleEngine.v ===== *)
(** * The rule engine

    Model of [crates/light-rule/src]: rules and their configuration ([models.rs]), the
    reserved context keys ([context.rs]), the action registry ([action.rs]), the engine
    with its compile cache and security profiles ([engine.rs]), and the executor of the
    rules of an endpoint ([executor.rs]).  The CEL interpreter and Unicode case folding
    are classes.  Diagnostics are not modelled: they only reach the log. *)

From S2P Require Import Prelude RustStr JsonTree.
From Stdlib Require Import Ascii.

(** ** Stateful computations

    A computation over a state that persists when it fails, as the mutable borrows of the
    source do. *)

Definition St (S E A : Type) : Type := S → S * result E A.
#[global] Instance St_ret {S E} : MRet (St S E) := λ A a s, (s, Ok a).
#[global] Instance St_bind {S E} : MBind (St S E) := λ A B f m s,
  match m s with (s, Ok a) => f a s | (s, Err e) => (s, Err e) end.
Definition throw {S E A} (e : E) : St S E A := λ s, (s, Err e).
Definition lift {S E A} (r : result E A) : St S E A := λ s, (s, r).

(** ** Rules *)

Record RuleCondition := {
  cd_condition_id : option string;
  cd_condition_desc : option string;
  cd_operator : option string;
  cd_operand : option string;
  cd_expected : option Json;
  cd_join_code : option string;
}.

Record RuleAction := {
  ac_action_id : option string;
  ac_action_desc : option string;
  ac_action_ref : string;
  ac_action_values : option Json;
}.

Record Rule := {
  rule_id : string;
  rule_name : string;
  rule_type : string;
  rule_common : string;
  host_id : option string;
  rule_desc : option string;
  rule_version : option string;
  rule_author : option string;
  rule_updated_at : option string;
  condition_language : option string;
  condition_security_profile : option string;
  access_control_effect : option string;
  rule_expression : option string;
  rule_conditions : option (list RuleCondition);
  rule_actions : option (list RuleAction);
}.

(** [EndpointConfig::Map], the only constructor. *)
Definition EndpointConfig : Type := gmap string Json.
Record RuleConfig := {
  rule_bodies : gmap string Rule;
  endpoint_rules : gmap string EndpointConfig;
}.

Definition RESERVED_RULE_CONTEXT_KEYS : list string :=
  ["auditInfo"; "headers"; "endpoint"; "toolName"; "toolArguments"; "correlationId"; "permission";
   "responseBody"; "responseBodyJson"; "statusCode"; "accessControl"].
Definition is_reserved_rule_context_key (key : string) : bool :=
  bool_decide (key ∈ RESERVED_RULE_CONTEXT_KEYS).

(** ** The CEL interpreter *)

(** [str::to_lowercase] of the Unicode tables. *)
Class UnicodeCase := to_lowercase : string → string.

(** Of the values of the [cel] crate the engine distinguishes these. *)
Inductive CelValue := CelBool (b : bool) | CelString (s : string) | CelOther (id : N).

(** The variables and functions an expression is evaluated with.  An empty context has no
    functions of its own, the default one has the standard library of CEL. *)
Record CelContext := {
  cx_standard : bool;
  cx_functions : list (string * (CelValue → CelValue → CelValue));
  cx_variables : gmap string Json;
}.

(** [Program::execute] under [catch_unwind]. *)
Inductive CelRun := Returned (v : CelValue) | Failed (message : string) | Panicked (message : string).

Class CelInterpreter := {
  CelProgram : Type;
  program_compile : string → result string CelProgram;
  program_has_variable : CelProgram → string → bool;
  program_has_function : CelProgram → string → bool;
  program_execute : CelProgram → CelContext → CelRun;
  value_from_json : Json → result string unit;
  value_debug : CelValue → string;
}.

(** ** Errors and profiles *)

Inductive RuleEngineError :=
| MissingCelExpression
| UnsupportedConditionLanguage (language : string)
| UnsupportedConditionSecurityProfile (profile : string)
| InternalAdminProfileDisabled
| CelSecurityPolicy (message : string)
| CelCompile (message : string)
| CelEvaluate (message : string)
| CelNonBoolean (value : string)
| CelCostExceeded (actual maximum : N)
| CelValueConversion (message : string).

(** [Box<dyn Error>]: an error of the engine or one of the conversion of a variable. *)
Inductive BoxError := EngineError (e : RuleEngineError) | SerializationError (message : string).

Definition RuleEngineError_to_string (e : RuleEngineError) : string :=
  match e with
  | MissingCelExpression => "CEL expression is required when conditionLanguage is cel"
  | UnsupportedConditionLanguage l => "Unsupported conditionLanguage: " +:+ l
  | UnsupportedConditionSecurityProfile p => "Unsupported conditionSecurityProfile: " +:+ p
  | InternalAdminProfileDisabled =>
      "CEL conditionSecurityProfile internal-admin is disabled by runtime policy"
  | CelSecurityPolicy m => "CEL security policy violation: " +:+ m
  | CelCompile m => "Failed to compile CEL expression: " +:+ m
  | CelEvaluate m => "Failed to evaluate CEL expression: " +:+ m
  | CelNonBoolean v => "CEL expression must return a boolean, got " +:+ v
  | CelCostExceeded actual maximum =>
      "CEL expression cost " +:+ dec actual +:+ " exceeds maximum " +:+ dec maximum
  | CelValueConversion m => "CEL result cannot be represented by the workflow JSON profile: " +:+ m
  end.
Definition error_to_string (e : BoxError) : string :=
  match e with EngineError e => RuleEngineError_to_string e | SerializationError m => m end.

Definition STRICT_CEL_ROOTS : list string :=
  ["auditInfo"; "headers"; "toolArguments"; "endpoint"; "toolName"; "correlationId"; "roles";
   "row"; "col"; "statusCode"; "permission"].

Inductive CelSecurityProfile := Strict | Standard | InternalAdmin.
#[global] Instance CelSecurityProfile_eq_dec : EqDecision CelSecurityProfile.
Proof. solve_decision. Defined.

(** [value.map(str::trim).filter(|value| !value.is_empty())]. *)
Definition trimmed (value : option string) : option string :=
  value ← value; let value := trim value in if is_empty value then None else Some value.

Section engine.
Context `{uni : UnicodeCase} `{cel : CelInterpreter}.

Definition requested (value : option string) : result RuleEngineError CelSecurityProfile :=
  let value := to_lowercase (default "strict" (trimmed value)) in
  if bool_decide (value = "strict") then Ok Strict else
  if bool_decide (value = "standard") then Ok Standard else
  if bool_decide (value = "internal-admin") then Ok InternalAdmin else
  Err (UnsupportedConditionSecurityProfile value).

Definition cache_name (p : CelSecurityProfile) : string :=
  match p with Strict => "strict" | Standard => "standard" | InternalAdmin => "internal-admin" end.

Definition is_response_phase (rule_type : string) : bool :=
  eq_ignore_ascii_case rule_type "res-tra" || eq_ignore_ascii_case rule_type "res-fil".
Definition effective_cel_profile (requested : CelSecurityProfile) (rule_type : string) :
    CelSecurityProfile :=
  if is_response_phase rule_type then Strict else requested.

(** ** Evaluation contexts *)

Definition is_cel_identifier (value : string) : bool :=
  if bool_decide (value ∈ ["true"; "false"; "null"; "in"]) then false else
  match bytes value with
  | [] => false
  | first :: rest =>
      (Ascii.eqb first "_" || is_ascii_alphabetic first)
      && forallb (λ c, Ascii.eqb c "_" || is_ascii_alphanumeric c) rest
  end.

Definition cel_contains_ignore_case (this expected : CelValue) : CelValue :=
  match this, expected with
  | CelString actual, CelString expected =>
      CelBool (contains (to_lowercase actual) (to_lowercase expected))
  | _, _ => CelBool false
  end.

Definition add_variable (key : string) (value : Json) (cx : CelContext) :
    result BoxError CelContext :=
  _ ← map_err SerializationError (value_from_json value);
  Ok {| cx_standard := cx_standard cx; cx_functions := cx_functions cx;
        cx_variables := <[key := value]> (cx_variables cx) |}.

(** Whether a member of the context becomes a variable. *)
Definition exposed (profile : CelSecurityProfile) (key : string) : bool :=
  is_cel_identifier key && negb (bool_decide (key = "context"))
  && (negb (bool_decide (profile = Strict)) || bool_decide (key ∈ STRICT_CEL_ROOTS)).

Definition build_cel_context (profile : CelSecurityProfile) (context : Json) :
    result BoxError CelContext :=
  let empty :=
    {| cx_standard := negb (bool_decide (profile = Strict));
       cx_functions := [("contains_ignore_case", cel_contains_ignore_case);
                        ("containsIgnoreCase", cel_contains_ignore_case)];
       cx_variables := ∅ |} in
  cx ← match context with
       | JObject map =>
           cx ← for_each (λ cx '(key, value),
                  if exposed profile key then add_variable key value cx else Ok cx) empty map;
           if bool_decide (profile = Strict) && negb (bool_decide (is_Some (member "permission" map)))
           then add_variable "permission" (JObject []) cx else Ok cx
       | _ =>
           if bool_decide (profile = Strict) then add_variable "permission" (JObject []) empty
           else Ok empty
       end;
  if bool_decide (profile = Strict) then Ok cx else add_variable "context" context cx.

(** ** Compilation *)

Definition CelCache : Type := gmap string CelProgram.

Definition cache_key (rule_id : string) (profile : CelSecurityProfile) (expression : string) : string :=
  rule_id +:+ ":" +:+ cache_name profile +:+ ":" +:+ expression.

Definition compile_cel_program (rule_id expression : string) (profile : CelSecurityProfile) :
    St CelCache BoxError CelProgram := λ cache,
  let key := cache_key rule_id profile expression in
  match cache !! key with
  | Some program => (cache, Ok program)
  | None =>
      match program_compile expression with
      | Ok program => (<[key := program]> cache, Ok program)
      | Err message => (cache, Err (EngineError (CelCompile message)))
      end
  end.

Definition validate_cel_program (program : CelProgram) (profile : CelSecurityProfile) :
    result BoxError unit :=
  if negb (bool_decide (profile = Strict)) then Ok () else
  if program_has_variable program "context" then
    Err (EngineError (CelSecurityPolicy
      "strict profile does not expose full context; use curated root variables")) else
  if program_has_function program "matches" then
    Err (EngineError (CelSecurityPolicy "strict profile does not allow regex matches")) else
  Ok ().

Definition execute_cel_safely (program : CelProgram) (cx : CelContext) : result BoxError CelValue :=
  match program_execute program cx with
  | Returned v => Ok v
  | Failed message => Err (EngineError (CelEvaluate message))
  | Panicked message => Err (EngineError (CelEvaluate ("CEL interpreter panicked: " +:+ message)))
  end.

(** The part [evaluate_cel_predicate] and [retain_cel_predicate_rows] share: the program and
    the context of an expression under a requested profile. *)
Definition prepare (expression_id expression : string) (requested_profile : option string)
    (rule_type : string) (context : Json) : St CelCache BoxError (CelProgram * CelContext) :=
  let expression := trim expression in
  if is_empty expression then throw (EngineError MissingCelExpression) else
  requested_profile ← lift (map_err EngineError (requested requested_profile));
  if bool_decide (requested_profile = InternalAdmin)
  then throw (EngineError InternalAdminProfileDisabled) else
  let profile := effective_cel_profile requested_profile rule_type in
  program ← compile_cel_program expression_id expression profile;
  _ ← lift (validate_cel_program program profile);
  cx ← lift (build_cel_context profile context);
  mret (program, cx).

Definition evaluate_cel_predicate (expression_id expression : string)
    (requested_profile : option string) (rule_type : string) (context : Json) :
    St CelCache BoxError bool :=
  '(program, cx) ← prepare expression_id expression requested_profile rule_type context;
  value ← lift (execute_cel_safely program cx);
  match value with
  | CelBool result => mret result
  | other => throw (EngineError (CelNonBoolean (value_debug other)))
  end.

(** The closure of [items.retain]: a row is kept only by an expression that returns true. *)
Definition keeps_row (program : CelProgram) (cx : CelContext) (item : Json) : bool :=
  match add_variable "row" item cx with
  | Err _ => false
  | Ok row_context =>
      match execute_cel_safely program row_context with
      | Ok (CelBool result) => result
      | _ => false
      end
  end.

Definition retain_cel_predicate_rows (expression_id expression : string)
    (requested_profile : option string) (rule_type : string) (base_context : Json)
    (items : list Json) : St CelCache BoxError (list Json) :=
  '(program, cx) ← prepare expression_id expression requested_profile rule_type base_context;
  mret (List.filter (keeps_row program cx) items).

Definition evaluate_cel_expression (rule : Rule) (context : Json) : St CelCache BoxError bool :=
  expression ← lift (ok_or (EngineError MissingCelExpression) (trimmed (rule_expression rule)));
  evaluate_cel_predicate (rule_id rule) expression (condition_security_profile rule)
    (rule_type rule) context.

(** ** Execution

    [A] is the state the registered actions keep between calls.  Actions see that state
    and the rule context. *)

Section execution.
Context {A : Type}.

Record Run := { rn_cache : CelCache; rn_actions : A; rn_context : Json }.

Definition RuleActionPlugin : Type := option Json → St (A * Json) BoxError bool.
Definition ActionRegistry : Type := gmap string RuleActionPlugin.

Definition on_cache {X} (m : St CelCache BoxError X) : St Run BoxError X := λ s,
  let '(c, r) := m (rn_cache s) in
  ({| rn_cache := c; rn_actions := rn_actions s; rn_context := rn_context s |}, r).
Definition on_actions {X} (m : St (A * Json) BoxError X) : St Run BoxError X := λ s,
  let '((a, j), r) := m (rn_actions s, rn_context s) in
  ({| rn_cache := rn_cache s; rn_actions := a; rn_context := j |}, r).
Definition get_context : St Run BoxError Json := λ s, (s, Ok (rn_context s)).

Section registry.
Context (registry : ActionRegistry).

Fixpoint execute_actions (actions : list RuleAction) : St Run BoxError bool :=
  match actions with
  | [] => mret true
  | action :: rest =>
      match registry !! ac_action_ref action with
      | Some plugin =>
          res ← on_actions (plugin (ac_action_values action));
          if res : bool then execute_actions rest else mret false
      | None => mret false
      end
  end.

Definition conditions_passed (rule : Rule) : St Run BoxError bool :=
  let language := to_lowercase <$> trimmed (condition_language rule) in
  let has_expression := bool_decide (is_Some (trimmed (rule_expression rule))) in
  let has_native := match rule_conditions rule with Some (_ :: _) => true | _ => false end in
  let evaluate := (context ← get_context; on_cache (evaluate_cel_expression rule context)) in
  match language with
  | Some language =>
      if bool_decide (language = "cel") then evaluate
      else throw (EngineError (UnsupportedConditionLanguage language))
  | None =>
      if has_expression then evaluate else
      if negb has_native then mret true else
      throw (EngineError (UnsupportedConditionLanguage "native"))
  end.

Definition execute_rule (rule : Rule) : St Run BoxError bool :=
  passed ← conditions_passed rule;
  if negb passed then mret false else
  match rule_actions rule with
  | Some actions => execute_actions actions
  | None => mret true
  end.

(** ** The executor of endpoint rules *)

Section executor.
Context (config : RuleConfig).

Definition executor_execute_rule (rule_id : string) : St Run BoxError bool :=
  match rule_bodies config !! rule_id with
  | Some rule => execute_rule rule
  | None => mret false
  end.

Fixpoint execute_all (rule_ids : list string) : St Run BoxError bool :=
  match rule_ids with
  | [] => mret true
  | rule_id :: rest =>
      res ← executor_execute_rule rule_id;
      if res : bool then execute_all rest else mret false
  end.

Fixpoint execute_any (rule_ids : list string) : St Run BoxError bool :=
  match rule_ids with
  | [] => mret false
  | rule_id :: rest =>
      res ← executor_execute_rule rule_id;
      if res : bool then mret true else execute_any rest
  end.

(** The spawned tasks share the engine and each has its own copy of the input; they are
    listed here in the order in which they are joined. *)
Fixpoint execute_parallel (rule_ids : list string) : St Run BoxError bool := λ s,
  match rule_ids with
  | [] => (s, Ok true)
  | rule_id :: rest =>
      let '(s1, res) := executor_execute_rule rule_id s in
      let '(s2, others) :=
        execute_parallel rest {| rn_cache := rn_cache s1; rn_actions := rn_actions s1;
                                 rn_context := rn_context s |} in
      (s2, others ← others; Ok (match res with Ok true => others | _ => false end))
  end.

Definition execute_rules (rule_ids : list string) (logic : string) : St Run BoxError bool :=
  match rule_ids with
  | [] => mret true
  | _ =>
      if eq_ignore_ascii_case logic "all" then execute_all rule_ids else
      if eq_ignore_ascii_case logic "any" then execute_any rule_ids else
      execute_parallel rule_ids
  end.

(** Members of the permission become members of the context, unless the runtime owns the
    key. *)
Definition promote (permission m : list (string * Json)) : list (string * Json) :=
  foldl (λ m '(k, v), if is_reserved_rule_context_key k then m else obj_insert k v m) m permission.

Definition apply_permission (permission : Json) (input : Json) : Json :=
  match input with
  | JObject m =>
      JObject (obj_insert "permission" permission
        (match permission with JObject p => promote p m | _ => m end))
  | _ => input
  end.

Definition execute_endpoint_rules (service_entry rule_type : string) : St Run BoxError bool :=
  match endpoint_rules config !! service_entry with
  | None => mret true
  | Some map =>
      match map !! rule_type ≫= as_array with
      | None => mret true
      | Some rule_ids_arr =>
          let rule_ids := omap as_str rule_ids_arr in
          let permission := default (JObject []) (map !! "permission") in
          let logic :=
            if bool_decide (rule_type = "req-tra") || bool_decide (rule_type = "res-tra")
            then "all" else "parallel" in
          λ s, execute_rules rule_ids logic
                 {| rn_cache := rn_cache s; rn_actions := rn_actions s;
                    rn_context := apply_permission permission (rn_context s) |}
      end
  end.
End executor.
End registry.
End execution.
End engine.
Arguments Run {_} _.
