(* ===== verification/AccessControl.v ===== *)
(** * Access control of the gateway

    Model of [frameworks/light-pingora/src/access_control.rs]: the selection of a policy for
    an HTTP request or a tool, the rule context, authorization and tool visibility, and the
    row and column filters of responses.  The engine that executes rules is [RuleEngine],
    the canonical path [HttpPath].  The text of JSON documents and of floating-point
    numbers is a class. *)

From S2P Require Import Prelude RustStr RustF64 GatewayCore JsonTree HttpPath RuleEngine.
From Stdlib Require Import Ascii ZArith SpecFloat.

(** ** Configuration *)

Inductive ToolsListAccessControlMode := ModeNone | ModePermission | ModeCel.
#[global] Instance ToolsListAccessControlMode_eq_dec : EqDecision ToolsListAccessControlMode.
Proof. solve_decision. Defined.
Inductive ToolsListUnknownRuleFallback := UnknownHidden | UnknownVisible.
#[global] Instance ToolsListUnknownRuleFallback_eq_dec : EqDecision ToolsListUnknownRuleFallback.
Proof. solve_decision. Defined.

Record ToolsListAccessControlConfig := {
  tl_mode : ToolsListAccessControlMode;
  tl_unknown_rule_fallback : ToolsListUnknownRuleFallback;
  tl_max_cel_evaluations : N;
  tl_max_cache_entries : N;
  tl_claim_mappings : gmap string (list string);
}.
Definition ToolsListAccessControlConfig_default : ToolsListAccessControlConfig :=
  {| tl_mode := ModeNone; tl_unknown_rule_fallback := UnknownHidden;
     tl_max_cel_evaluations := 100; tl_max_cache_entries := 2000; tl_claim_mappings := ∅ |}.

Record AccessControlConfig := {
  ac_enabled : bool;
  ac_access_rule_logic : string;
  ac_default_deny : bool;
  ac_default_include : bool;
  ac_skip_path_prefixes : list string;
  ac_log_full_cel_context : bool;
  ac_claim_mappings : gmap string (list string);
  ac_tools_list_access_control : ToolsListAccessControlConfig;
  ac_body_read_timeout_millis : N;
  ac_max_buffered_body_bytes : N;
}.
Definition default_body_read_timeout_millis : N := 10000.
Definition default_max_buffered_body_bytes : N := 256 * 1024 * 1024.
Definition AccessControlConfig_default : AccessControlConfig :=
  {| ac_enabled := true; ac_access_rule_logic := "any"; ac_default_deny := true;
     ac_default_include := false; ac_skip_path_prefixes := []; ac_log_full_cel_context := false;
     ac_claim_mappings := ∅; ac_tools_list_access_control := ToolsListAccessControlConfig_default;
     ac_body_read_timeout_millis := default_body_read_timeout_millis;
     ac_max_buffered_body_bytes := default_max_buffered_body_bytes |}.

Inductive AccessDecision := Allowed | Denied (reason : string).
#[global] Instance AccessDecision_eq_dec : EqDecision AccessDecision.
Proof. solve_decision. Defined.
Inductive ToolVisibility := Visible | Hidden.
#[global] Instance ToolVisibility_eq_dec : EqDecision ToolVisibility.
Proof. solve_decision. Defined.

Inductive AccessControlResponseFilterError :=
| InvalidJson (message : string)
| RuleNotFound (rule_id : string)
| RuleRejected (rule_id : string)
| RuleExecution (rule_id message : string)
| MissingFilteredBody
| Serialization (message : string).

Definition REQUEST_ACCESS : string := "req-acc".
Definition RESPONSE_FILTER : string := "res-fil".
Definition RESPONSE_BODY : string := "responseBody".
Definition RESPONSE_BODY_JSON : string := "responseBodyJson".
Definition RESPONSE_TARGET : string := "responseTarget".
Definition RESPONSE_ROW_FILTER_DENIED : string := "responseRowFilterDenied".
Definition RESPONSE_COLUMN_FILTER_ACTION : string := "ResponseColumnFilterAction".
Definition RESPONSE_ROW_FILTER_ACTION : string := "ResponseRowFilterAction".
Definition RESPONSE_CEL_ROW_FILTER_ACTION : string := "ResponseCelRowFilterAction".
Definition ROLE_BASED_ACCESS_CONTROL_ACTION : string := "RoleBasedAccessControlAction".
Definition PUBLIC_ACCESS_RULE_ID : string := "allow-public-access".
Definition PUBLIC_ACCESS_EFFECT : string := "public".
Definition MAX_RESPONSE_TARGET_LENGTH : N := 1024.
Definition MAX_RESPONSE_TARGET_SEGMENTS : nat := 16.
Definition CREDENTIAL_HEADERS : list string :=
  ["authorization"; "proxy-authorization"; "cookie"; "set-cookie"; "x-api-key"].

(** ** Values as text *)

Class JsonCodec := {
  json_to_string : Json → string;
  json_from_str : string → result string Json;
  float_to_string : N → string;
}.

Section access_control.
Context `{codec : JsonCodec}.

Definition number_to_string (n : JNum) : string :=
  match n with
  | PosInt n => dec n
  | NegInt z => "-" +:+ dec (Z.abs_N z)
  | Float bits => float_to_string bits
  end.
Definition bool_to_string (b : bool) : string := if b then "true" else "false".

Definition value_to_string (value : Json) : option string :=
  match value with
  | JString s => Some s
  | JNumber n => Some (number_to_string n)
  | JBool b => Some (bool_to_string b)
  | JArray _ | JObject _ => Some (json_to_string value)
  | JNull => None
  end.

Definition LIST_SEPARATORS : list ascii := [","; " "; "010"; "009"]%char.

(** [.map(str::trim).filter(|value| !value.is_empty())]. *)
Definition non_blank (l : list string) : list string := omap (λ s, trimmed (Some s)) l.

(** A value that starts with a bracket and is a JSON array. *)
Definition as_json_array (value : string) : option (list Json) :=
  if starts_with value "[" then
    match json_from_str value with Ok (JArray values) => Some values | _ => None end
  else None.

Definition list_tokens (value : string) : list string :=
  let value := trim value in
  if is_empty value then [] else
  match as_json_array value with
  | Some values => non_blank (omap value_to_string values)
  | None => non_blank (split_any LIST_SEPARATORS value)
  end.

Definition parse_string_rule_ids (value : string) : list string :=
  let value := trim value in
  if is_empty value then [] else
  match as_json_array value with
  | Some values => omap as_str values
  | None => non_blank (split_any LIST_SEPARATORS value)
  end.

Fixpoint values_to_token_set (value : Json) : gset string :=
  match value with
  | JArray values => foldr (λ v acc, values_to_token_set v ∪ acc) ∅ values
  | JString value => list_to_set (list_tokens value)
  | JNumber n => {[ number_to_string n ]}
  | JBool b => {[ bool_to_string b ]}
  | JObject _ | JNull => ∅
  end.

(** ** Claims and permissions *)

Definition Principal : Type := AuthPrincipal Json.
Definition ClaimMappings : Type := gmap string (list string).

Definition or_insert_text (k : string) (v : option string) (m : list (string * Json)) :
    list (string * Json) :=
  match v with Some v => obj_or_insert k (JString v) m | None => m end.

Definition normalized_claims (auth : option Principal) : Json :=
  match auth with
  | None => JObject []
  | Some principal =>
      match au_claims principal with
      | JObject m =>
          JObject (or_insert_text "client_id" (au_client_id principal)
            (or_insert_text "uid" (au_user_id principal)
              (or_insert_text "role" (au_role principal) m)))
      | claims => claims
      end
  end.

Definition default_claim_names_for_permission (permission_key : string) : list string :=
  if bool_decide (permission_key = "roles") then ["role"; "roles"] else
  if bool_decide (permission_key = "groups") then ["scp"; "grp"; "group"; "groups"] else
  if bool_decide (permission_key = "positions") then ["pos"; "position"; "positions"] else
  if bool_decide (permission_key = "attributes") then ["att"; "attribute"; "attributes"] else
  if bool_decide (permission_key = "users") then ["uid"; "user_id"; "sub"] else [].

Definition claim_names_for_permission (permission_key : string) (mappings : ClaimMappings) :
    list string :=
  match non_blank (default [] (mappings !! permission_key)) with
  | [] => default_claim_names_for_permission permission_key
  | configured => configured
  end.

Definition effective_claim_mappings (config : option AccessControlConfig) : ClaimMappings :=
  match config with
  | None => ∅
  | Some config =>
      ac_claim_mappings config ∪ tl_claim_mappings (ac_tools_list_access_control config)
  end.

Definition permission_dimension_matches (permission : Json) (permission_key : string)
    (auth : option Principal) (claim_names : list string) : bool :=
  let permission_values := default ∅ (values_to_token_set <$> get permission_key permission) in
  if bool_decide (permission_values = ∅) then false else
  let claims := normalized_claims auth in
  let claim_values :=
    ⋃ (values_to_token_set <$> omap (λ name, get name claims) claim_names) : gset string in
  negb (bool_decide (claim_values = ∅))
  && existsb (λ permission, bool_decide (permission ∈ claim_values)) (bs_iter permission_values).

Definition PERMISSION_CHECKS : list string :=
  ["roles"; "groups"; "positions"; "attributes"; "users"].

(** The loop returns at the first configured dimension that does not match. *)
Fixpoint check_dimensions (permission : Json) (auth : option Principal) (mappings : ClaimMappings)
    (checks : list string) (matched_any : bool) : bool :=
  match checks with
  | [] => matched_any
  | key :: rest =>
      if bool_decide (is_Some (get key permission)) then
        if permission_dimension_matches permission key auth (claim_names_for_permission key mappings)
        then check_dimensions permission auth mappings rest true else false
      else check_dimensions permission auth mappings rest matched_any
  end.
Definition permission_matches_claims (permission : Json) (auth : option Principal)
    (mappings : ClaimMappings) : bool :=
  check_dimensions permission auth mappings PERMISSION_CHECKS false.

(** ** Rules and their visibility *)

Definition rule_ids_for (endpoint_rules : EndpointConfig) (rule_type : string) : list string :=
  match endpoint_rules !! rule_type with
  | Some (JArray values) =>
      omap (λ value, match as_str value with
                     | Some s => Some s
                     | None => get "ruleId" value ≫= as_str
                     end) values
  | Some (JString value) => parse_string_rule_ids value
  | Some (JObject m) => option_list (member "ruleId" m ≫= as_str)
  | _ => []
  end.

Definition permission_for (endpoint_rules : EndpointConfig) : option (list (string * Json)) :=
  endpoint_rules !! "permission" ≫= as_object.

Definition is_row_filter_action (action_ref : string) : bool :=
  bool_decide (action_ref = RESPONSE_ROW_FILTER_ACTION)
  || bool_decide (action_ref = RESPONSE_CEL_ROW_FILTER_ACTION)
  || ends_with action_ref ("." +:+ RESPONSE_ROW_FILTER_ACTION)
  || ends_with action_ref ("." +:+ RESPONSE_CEL_ROW_FILTER_ACTION).
Definition is_column_filter_action (action_ref : string) : bool :=
  bool_decide (action_ref = RESPONSE_COLUMN_FILTER_ACTION)
  || ends_with action_ref ("." +:+ RESPONSE_COLUMN_FILTER_ACTION).

Definition action_matches (action : RuleAction) (action_name : string) : bool :=
  bool_decide (ac_action_ref action = action_name)
  || ends_with (ac_action_ref action) ("." +:+ action_name).
Definition rule_has_action (rule : Rule) (action_name : string) : bool :=
  existsb (λ action, action_matches action action_name) (default [] (rule_actions rule)).

Definition none_or_empty {A} (o : option (list A)) : bool :=
  match o with None | Some [] => true | _ => false end.

Definition is_canonical_public_rule (rule : Rule) : bool :=
  bool_decide (rule_id rule = PUBLIC_ACCESS_RULE_ID)
  && bool_decide (rule_type rule = REQUEST_ACCESS)
  && eq_ignore_ascii_case (rule_common rule) "y"
  && bool_decide (access_control_effect rule = Some PUBLIC_ACCESS_EFFECT)
  && bool_decide (condition_language rule = Some "cel")
  && bool_decide (condition_security_profile rule = Some "strict")
  && bool_decide (trim <$> rule_expression rule = Some "true")
  && none_or_empty (rule_conditions rule)
  && none_or_empty (rule_actions rule).

Definition rule_has_authorizing_effect (rule : Rule) : bool :=
  match access_control_effect rule with
  | Some effect =>
      negb (bool_decide (to_ascii_lowercase (trim effect) ∈ ["telemetry"; "none"]))
  | None => true
  end.

Definition expression_mentions (rule : Rule) (text : string) : bool :=
  match rule_expression rule with Some expression => contains expression text | None => false end.
Definition is_role_access_rule (rule : Rule) : bool :=
  contains (rule_id rule) "role" || expression_mentions rule "permission.roles"
  || rule_has_action rule ROLE_BASED_ACCESS_CONTROL_ACTION.
Definition is_group_access_rule (rule : Rule) : bool :=
  contains (rule_id rule) "group" || contains (rule_id rule) "scp"
  || expression_mentions rule "permission.groups".

Inductive RuleVisibilityMatch := Matched (b : bool) | Ignored | Unknown.

Definition rule_visibility_match (rule : Rule) (permission : Json) (auth : option Principal)
    (mappings : ClaimMappings) : RuleVisibilityMatch :=
  if negb (bool_decide (rule_type rule = REQUEST_ACCESS)) then Ignored else
  if negb (rule_has_authorizing_effect rule) then Ignored else
  if is_canonical_public_rule rule then Matched true else
  if is_role_access_rule rule then
    Matched (permission_dimension_matches permission "roles" auth
               (claim_names_for_permission "roles" mappings)) else
  if is_group_access_rule rule then
    Matched (permission_dimension_matches permission "groups" auth
               (claim_names_for_permission "groups" mappings)) else
  Unknown.

(** ** The rule context *)

Definition headers_to_json (headers : list (string * string)) : Json :=
  JObject (foldl (λ values '(name, value),
    let name := to_ascii_lowercase name in
    if bool_decide (name ∈ CREDENTIAL_HEADERS) then values
    else obj_insert name (JString value) values) [] headers).

Definition audit_info (auth : option Principal) (correlation_id : option string) : Json :=
  JObject [("correlationId", match correlation_id with Some id => JString id | None => JNull end);
           ("subject_claims", JObject [("ClaimsMap", normalized_claims auth)])].

Definition build_rule_context (tool_name endpoint : string) (headers : list (string * string))
    (auth : option Principal) (arguments : Json) (correlation_id : option string)
    (permission : option (list (string * Json))) : Json :=
  let context := obj_insert "auditInfo" (audit_info auth correlation_id) [] in
  let context := obj_insert "headers" (headers_to_json headers) context in
  let context := obj_insert "endpoint" (JString endpoint) context in
  let context := obj_insert "toolName" (JString tool_name) context in
  let context := obj_insert "toolArguments" arguments context in
  let context := match correlation_id with
                 | Some id => obj_insert "correlationId" (JString id) context
                 | None => context
                 end in
  let context := obj_insert "permission" (JObject (default [] permission)) context in
  JObject (promote (default [] permission) context).

Definition insert_access_control_context (context : list (string * Json)) (default_include : bool) :
    list (string * Json) :=
  obj_insert "accessControl" (JObject [("defaultInclude", JBool default_include)]) context.

(** ** Endpoints *)

Definition split_endpoint (endpoint : string) : string * string :=
  default (endpoint, "call") (rsplit_once "@" endpoint).

Definition trim_matches (c : ascii) (s : string) : string :=
  trim_end_byte c (of_bytes (drop_byte c (bytes s))).
Definition path_segments (path : string) : list string :=
  List.filter (λ s, negb (is_empty s)) (split "/" (trim_matches "/" path)).

Definition segment_matches (pattern segment : string) : bool :=
  starts_with pattern "{" && ends_with pattern "}" || bool_decide (pattern = segment).
Definition path_template_matches (pattern path : string) : bool :=
  let pattern_segments := path_segments pattern in
  let path_segments := path_segments path in
  if negb (length pattern_segments =? length path_segments)%nat then false else
  forallb (λ '(pattern, segment), segment_matches pattern segment)
    (zip pattern_segments path_segments).

(** [path.strip_prefix(pattern).is_some_and(|suffix| suffix.starts_with('/'))]. *)
Definition below_prefix (pattern path : string) : bool :=
  match strip_prefix pattern path with Some suffix => starts_with suffix "/" | None => false end.

Definition endpoint_pattern_matches (pattern endpoint : string) : bool :=
  if bool_decide (pattern = endpoint) then true else
  let '(pattern_path, pattern_method) := split_endpoint pattern in
  let '(endpoint_path, endpoint_method) := split_endpoint endpoint in
  if negb (eq_ignore_ascii_case pattern_method endpoint_method) then false else
  if bool_decide (pattern_path = endpoint_path) then true else
  if below_prefix pattern_path endpoint_path then true else
  path_template_matches pattern_path endpoint_path.

(** ** Claims of a rule context *)

Definition claim_value (context : Json) (names : list string) : option string :=
  head (omap (λ name,
    json_pointer ("/auditInfo/subject_claims/ClaimsMap/" +:+ name) context ≫= value_to_string) names).

Definition permission_key_of (dimension : string) : string :=
  if bool_decide (dimension = "role") then "roles" else
  if bool_decide (dimension = "group") then "groups" else
  if bool_decide (dimension = "position") then "positions" else
  if bool_decide (dimension = "attribute") then "attributes" else
  if bool_decide (dimension = "user") then "users" else dimension.

Definition claim_for_dimension (context : Json) (dimension : string) (mappings : ClaimMappings) :
    option string :=
  let claim_names :=
    match claim_names_for_permission (permission_key_of dimension) mappings with
    | [] => [dimension]
    | names => names
    end in
  let claim_values :=
    list_to_set (omap (λ name, claim_value context [name]) claim_names ≫= list_tokens) : gset string in
  if bool_decide (claim_values = ∅) then None else Some (join " " (bs_iter claim_values)).

Definition permission_matches (actual : option string) (required : string) : bool :=
  match actual with
  | None => false
  | Some actual => bool_decide (required ∈ list_tokens actual)
  end.

Definition has_any_configured_permission (actual configured : option string) : bool :=
  match actual, configured with
  | Some actual, Some configured =>
      existsb (λ permission, permission_matches (Some actual) permission) (list_tokens configured)
  | _, _ => false
  end.

(** ** Row filters *)

Record RowFilter := { rf_col_name : string; rf_operator : string; rf_col_value : string }.

Definition ROW_OPERATORS : list string := ["="; "!="; "<"; ">"; "<="; ">="; "in"; "not in"; "range"].

Definition as_f64 (value : Json) : option spec_float :=
  match value with
  | JNumber (PosInt n) => Some (f64_of_Z (Z.of_N n))
  | JNumber (NegInt z) => Some (f64_of_Z z)
  | JNumber (Float bits) => Some (f64_of_bits bits)
  | _ => None
  end.

(** The comparison of numbers, [None] for an operator that compares text. *)
Definition compare_number (actual : spec_float) (operator expected : string) : option bool :=
  if bool_decide (operator = "range") then
    Some (match list_tokens expected with
          | [lo; hi] =>
              match parse_f64 lo, parse_f64 hi with
              | Some min, Some max => f64_leb min actual && f64_leb actual max
              | _, _ => false
              end
          | _ => false
          end)
  else if bool_decide (operator ∈ ["="; "!="; "<"; ">"; "<="; ">="]) then
    Some (match parse_f64 expected with
          | None => false
          | Some expected =>
              if bool_decide (operator = "=") then f64_eqb actual expected else
              if bool_decide (operator = "!=") then negb (f64_eqb actual expected) else
              if bool_decide (operator = "<") then f64_ltb actual expected else
              if bool_decide (operator = ">") then f64_ltb expected actual else
              if bool_decide (operator = "<=") then f64_leb actual expected else
              f64_leb expected actual
          end)
  else None.

Definition compare_text (actual operator expected : string) : bool :=
  if bool_decide (operator = "=") then bool_decide (actual = expected) else
  if bool_decide (operator = "!=") then negb (bool_decide (actual = expected)) else
  if bool_decide (operator = "in") then bool_decide (actual ∈ list_tokens expected) else
  if bool_decide (operator = "not in") then negb (bool_decide (actual ∈ list_tokens expected)) else
  false.

Definition compare_row_value (value : Json) (operator expected : string) : bool :=
  match as_f64 value ≫= λ actual, compare_number actual operator expected with
  | Some result => result
  | None =>
      match value with
      | JString actual => compare_text actual operator expected
      | JNumber n => compare_text (number_to_string n) operator expected
      | JBool b => compare_text (bool_to_string b) operator expected
      | JNull | JArray _ | JObject _ => false
      end
  end.

Definition row_filter (filter : Json) (context : Json) : option RowFilter :=
  col_value ← get "colValue" filter ≫= value_to_string;
  col_value ← match strip_prefix "@" col_value with
              | Some claim => claim_value context [claim]
              | None => Some col_value
              end;
  col_name ← get "colName" filter ≫= as_str;
  let col_name := trim col_name in
  if is_empty col_name then None else
  operator ← match get "operator" filter with Some operator => as_str operator | None => Some "=" end;
  if negb (bool_decide (operator ∈ ROW_OPERATORS)) then None else
  Some {| rf_col_name := col_name; rf_operator := operator; rf_col_value := col_value |}.

Definition row_filter_list (value context : Json) : option (list RowFilter) :=
  filters ← as_array value;
  match filters with
  | [] => None
  | _ => mapM (λ filter, row_filter filter context) filters
  end.

(** The entries of a row or column configuration that apply to the caller: those whose
    permission is among the claims of their dimension. *)
Definition matching_entries (context config : Json) (mappings : ClaimMappings) : list Json :=
  '(dimension, configured) ← default [] (as_object config);
  match claim_for_dimension context dimension mappings, as_object configured with
  | Some claim, Some permission_map =>
      (filter (λ e, permission_matches (Some claim) e.1 = true) permission_map).*2
  | _, _ => []
  end.

Definition matching_row_filters (context row_config : Json) (mappings : ClaimMappings) :
    list (list RowFilter) :=
  (λ filters, default [] (row_filter_list filters context))
    <$> matching_entries context row_config mappings.

Definition row_matches (item : Json) (filters : list RowFilter) : bool :=
  match as_object item with
  | None => false
  | Some map =>
      match filters with
      | [] => false
      | _ => forallb (λ f, match member (rf_col_name f) map with
                           | None => false
                           | Some value => compare_row_value value (rf_operator f) (rf_col_value f)
                           end) filters
      end
  end.

Definition row_matches_filter_groups (item : Json) (groups : list (list RowFilter))
    (default_include : bool) : bool :=
  match groups with
  | [] => default_include
  | _ => forallb (row_matches item) groups
  end.

Definition row_filter_root_supported (body : Json) : bool :=
  is_object body
  || match as_array body with Some items => forallb is_object items | None => false end.

(** [row_filter_items_mut]: the rows of a body and how the body is rebuilt from rows. *)
Definition row_filter_items (body : Json) : option (list Json * (list Json → Json)) :=
  match body with
  | JArray items => Some (items, JArray)
  | JObject m =>
      items ← member "items" m ≫= as_array;
      Some (items, λ items, JObject (obj_replace "items" (JArray items) m))
  | _ => None
  end.

Definition apply_row_filter_groups (body : Json) (groups : list (list RowFilter))
    (default_include : bool) : Json * bool :=
  let keep item := row_matches_filter_groups item groups default_include in
  match row_filter_items body with
  | Some (items, rebuild) => (rebuild (List.filter keep items), false)
  | None => if is_object body && negb (keep body) then (JObject [], true) else (body, false)
  end.

(** ** Column filters *)

Definition column_field_list (value : Json) : option (bool * list string) :=
  value ← value_to_string value;
  let '(remove, value) := match strip_prefix "!" value with
                          | Some value => (true, value)
                          | None => (false, value)
                          end in
  match list_tokens value with [] => None | fields => Some (remove, fields) end.

Definition matching_column_filters (context col_config : Json) (mappings : ClaimMappings) :
    list (bool * list string) :=
  omap column_field_list (matching_entries context col_config mappings).

Definition apply_column_specs_to_object (item : list (string * Json))
    (specs : list (bool * list string)) : list (string * Json) :=
  foldl (λ item '(remove, field_names),
    if remove : bool then foldl (λ item field, obj_remove field item) item field_names
    else filter (λ e, e.1 ∈ field_names) item) item specs.

Definition apply_specs_to_item (specs : list (bool * list string)) (item : Json) : Json :=
  match item with JObject m => JObject (apply_column_specs_to_object m specs) | _ => item end.

Definition apply_column_filter_specs (body : Json) (specs : list (bool * list string)) : Json * bool :=
  match row_filter_items body with
  | Some (items, rebuild) =>
      if existsb (λ item, negb (is_object item)) items then (body, false)
      else (rebuild (apply_specs_to_item specs <$> items), true)
  | None =>
      match body with
      | JObject m => (JObject (apply_column_specs_to_object m specs), true)
      | _ => (body, false)
      end
  end.

(** ** The part of the response a filter works on *)

(** [Value::pointer_mut]: a change at the place a list of tokens leads to. *)
Fixpoint pointer_update {X} (tokens : list string) (f : Json → Json * X) (j : Json) :
    option (Json * X) :=
  match tokens with
  | [] => Some (f j)
  | token :: rest =>
      match j with
      | JObject m =>
          v ← member token m;
          '(v', x) ← pointer_update rest f v;
          Some (JObject (obj_replace token v' m), x)
      | JArray l =>
          i ← parse_index token;
          v ← l !! i;
          '(v', x) ← pointer_update rest f v;
          Some (JArray (<[i := v']> l), x)
      | _ => None
      end
  end.

(** [response_filter_target_mut], with what is done at the target. *)
Definition with_response_target {X} (context : Json) (f : Json → Json * X) : option (Json * X) :=
  let target := default "" (trim <$> (get RESPONSE_TARGET context ≫= as_str)) in
  if (MAX_RESPONSE_TARGET_LENGTH <? slen target)%N
     || negb (is_empty target) && negb (starts_with target "/")
     || (MAX_RESPONSE_TARGET_SEGMENTS <? length (tail (split "/" target)))%nat
  then None else
  m ← as_object context;
  body ← member RESPONSE_BODY_JSON m;
  tokens ← pointer_tokens target;
  '(body', x) ← pointer_update tokens f body;
  Some (JObject (obj_replace RESPONSE_BODY_JSON body' m), x).

Definition mark_response_row_filter_denied (context : Json) : Json :=
  match context with
  | JObject m =>
      match member "accessControl" m with
      | Some (JObject ac) =>
          JObject (obj_replace "accessControl"
            (JObject (obj_insert RESPONSE_ROW_FILTER_DENIED (JBool true) ac)) m)
      | _ => context
      end
  | _ => context
  end.
Definition response_row_filter_denied (context : Json) : bool :=
  default false (ac ← get "accessControl" context; v ← get RESPONSE_ROW_FILTER_DENIED ac; as_bool v).

Definition ROW_CONTEXT_KEYS : list string :=
  ["auditInfo"; "headers"; "endpoint"; "toolName"; "toolArguments"; "correlationId"; "permission";
   "roles"; "col"].
Definition row_expression_base_context (context : Json) : Json :=
  match context with
  | JObject map =>
      JObject (foldl (λ base key, match member key map with
                                  | Some value => obj_insert key value base
                                  | None => base
                                  end) [] ROW_CONTEXT_KEYS)
  | _ => JObject []
  end.

(** ** Actions

    The state of the registered actions is the compile cache of the engine of the CEL row
    filter. *)

Context `{uni : UnicodeCase} `{cel : CelInterpreter}.

Definition Plugin : Type := RuleActionPlugin (A := CelCache).

Definition role_based_access_control (mappings : ClaimMappings) : Plugin := λ _ '(rows, context),
  let caller_roles := claim_for_dimension context "role" mappings in
  let endpoint_roles := get "roles" context ≫= value_to_string in
  ((rows, context), Ok (has_any_configured_permission caller_roles endpoint_roles)).

Definition response_column_filter (mappings : ClaimMappings) : Plugin := λ _ '(rows, context),
  match get "col" context with
  | None => ((rows, context), Ok false)
  | Some col_config =>
      let specs := matching_column_filters context col_config mappings in
      match with_response_target context (λ body, apply_column_filter_specs body specs) with
      | None => ((rows, context), Ok false)
      | Some (context, done) => ((rows, context), Ok done)
      end
  end.

Definition response_row_filter (mappings : ClaimMappings) : Plugin := λ _ '(rows, context),
  match get "row" context with
  | None => ((rows, context), Ok true)
  | Some row_config =>
      let groups := matching_row_filters context row_config mappings in
      let default_include :=
        default false (json_pointer "/accessControl/defaultInclude" context ≫= as_bool) in
      match with_response_target context (λ body,
              if negb (row_filter_root_supported body) then (body, None)
              else let '(body, denied) := apply_row_filter_groups body groups default_include in
                   (body, Some denied)) with
      | None | Some (_, None) => ((rows, context), Ok false)
      | Some (context, Some denied) =>
          ((rows, if denied : bool then mark_response_row_filter_denied context else context), Ok true)
      end
  end.

(** The body after the filter, the cache, and whether a single object was denied. *)
Definition apply_cel_row_filter (base_context : Json) (row_expression : string)
    (profile : option string) (rows : CelCache) (body : Json) :
    Json * (CelCache * result BoxError bool) :=
  let retain items :=
    retain_cel_predicate_rows RESPONSE_CEL_ROW_FILTER_ACTION row_expression profile
      RESPONSE_FILTER base_context items rows in
  match row_filter_items body with
  | Some (items, rebuild) =>
      match retain items with
      | (rows, Ok items) => (rebuild items, (rows, Ok false))
      | (rows, Err e) => (body, (rows, Err e))
      end
  | None =>
      if negb (is_object body) then (body, (rows, Ok false)) else
      match retain [body] with
      | (rows, Ok []) => (JObject [], (rows, Ok true))
      | (rows, Ok (item :: _)) => (item, (rows, Ok false))
      | (rows, Err e) => (JNull, (rows, Err e))
      end
  end.

Definition response_cel_row_filter : Plugin := λ action_values '(rows, context),
  match trimmed ((action_values ≫= get "rowExpression") ≫= as_str) with
  | None => ((rows, context), Ok false)
  | Some row_expression =>
      let profile := (action_values ≫= get "conditionSecurityProfile") ≫= as_str in
      let base_context := row_expression_base_context context in
      match with_response_target context
              (apply_cel_row_filter base_context row_expression profile rows) with
      | None => ((rows, context), Ok false)
      | Some (context, (rows, Err e)) => ((rows, context), Err e)
      | Some (context, (rows, Ok denied)) =>
          ((rows, if denied : bool then mark_response_row_filter_denied context else context), Ok true)
      end
  end.

Definition default_action_registry (mappings : ClaimMappings) : ActionRegistry (A := CelCache) :=
  <["ResponseCelRowFilterAction" := response_cel_row_filter]>
  (<["com.networknt.rule.ResponseCelRowFilterAction" := response_cel_row_filter]>
  (<["ResponseRowFilterAction" := response_row_filter mappings]>
  (<["com.networknt.rule.ResponseRowFilterAction" := response_row_filter mappings]>
  (<["ResponseColumnFilterAction" := response_column_filter mappings]>
  (<["com.networknt.rule.ResponseColumnFilterAction" := response_column_filter mappings]>
  (<["RoleBasedAccessControlAction" := role_based_access_control mappings]>
  (<["com.networknt.rule.RoleBasedAccessControlAction" := role_based_access_control mappings]> ∅))))))).

(** ** The runtime *)

Record AccessControlRuntime := {
  rt_access : option AccessControlConfig;
  rt_rules : RuleConfig;
  rt_registry : ActionRegistry (A := CelCache);
  rt_claim_mappings : ClaimMappings;
  rt_http_policy_keys : gmap string (list string);
  rt_http_policy_patterns : gmap string (result string string);
}.

Definition http_keys (rules : RuleConfig) : list string :=
  List.filter (λ key, starts_with key "/") (bt_keys (endpoint_rules rules)).

Definition AccessControlRuntime_new (access : option AccessControlConfig) (rules : RuleConfig) :
    AccessControlRuntime :=
  let '(patterns, keys) :=
    foldl (λ '(patterns, keys) key,
        let method := to_ascii_lowercase (split_endpoint key).2 in
        (<[key := canonical_http_pattern (split_endpoint key).1]> patterns,
         <[method := default [] (keys !! method) ++ [key]]> keys))
      (∅ : gmap string (result string string), ∅ : gmap string (list string)) (http_keys rules) in
  let mappings := effective_claim_mappings access in
  {| rt_access := access; rt_rules := rules; rt_registry := default_action_registry mappings;
     rt_claim_mappings := mappings; rt_http_policy_keys := keys; rt_http_policy_patterns := patterns |}.

Definition validate_http_acl_configuration (access : option AccessControlConfig) (rules : RuleConfig) :
    result string unit :=
  if match access with
     | Some config =>
         (ac_body_read_timeout_millis config =? 0)%N || (ac_max_buffered_body_bytes config =? 0)%N
     | None => false
     end then
    Err "access-control bodyReadTimeoutMillis and maxBufferedBodyBytes must be positive" else
  match List.find (λ key, starts_with key "/" && contains_byte (split_endpoint key).1 "*")
          (bt_keys (endpoint_rules rules)) with
  | Some key =>
      Err ("unsupported wildcard ACL key " +:+ key +:+ "; migrate ACL rules to exact paths, full-path templates, or literal prefixes; keep wildcard HANDLER routes unchanged")
  | None => Ok ()
  end.

(** The end of [load_access_control_runtime], after the two files are read. *)
Definition finish_load (access : option AccessControlConfig) (rules : RuleConfig) :
    result string (option AccessControlRuntime) :=
  _ ← validate_http_acl_configuration access rules;
  let no_rules := bool_decide (rule_bodies rules = ∅) && bool_decide (endpoint_rules rules = ∅) in
  let access := match access with
                | None => if no_rules then None else Some AccessControlConfig_default
                | Some config => Some config
                end in
  match access with
  | None => Ok None
  | Some _ => Ok (Some (AccessControlRuntime_new access rules))
  end.

Section runtime.
Context (r : AccessControlRuntime).

Definition enabled_config : option AccessControlConfig :=
  config ← rt_access r; if ac_enabled config then Some config else None.
Definition authorization_enabled : bool := bool_decide (is_Some enabled_config).
Definition body_capture_limits : N * N :=
  match rt_access r with
  | Some config => (ac_body_read_timeout_millis config, ac_max_buffered_body_bytes config)
  | None => (default_body_read_timeout_millis, default_max_buffered_body_bytes)
  end.
Definition default_deny : bool := default false (ac_default_deny <$> rt_access r).
Definition default_include : bool := default false (ac_default_include <$> rt_access r).

Definition tools_list_access_control : ToolsListAccessControlConfig :=
  let config :=
    default ToolsListAccessControlConfig_default (ac_tools_list_access_control <$> rt_access r) in
  {| tl_mode := tl_mode config; tl_unknown_rule_fallback := tl_unknown_rule_fallback config;
     tl_max_cel_evaluations := tl_max_cel_evaluations config;
     tl_max_cache_entries := tl_max_cache_entries config;
     tl_claim_mappings := rt_claim_mappings r |}.

Definition config_skips_target (config : AccessControlConfig) (target : string) : bool :=
  existsb (λ prefix, starts_with target prefix) (ac_skip_path_prefixes config).
Definition active_config_for_endpoint (endpoint : string) : option AccessControlConfig :=
  config ← enabled_config;
  if config_skips_target config endpoint then None else Some config.
Definition active_config_for_mcp_tool (tool_name endpoint : string) : option AccessControlConfig :=
  config ← active_config_for_endpoint endpoint;
  if config_skips_target config tool_name then None else Some config.

Definition find_service_entry (endpoint : string) : option (string * EndpointConfig) :=
  match endpoint_rules (rt_rules r) !! endpoint with
  | Some map => Some (endpoint, map)
  | None =>
      max_by_key (λ e, slen e.1)
        (List.filter (λ e, endpoint_pattern_matches e.1 endpoint) (bt_iter (endpoint_rules (rt_rules r))))
  end.

Definition validate_request_policy (endpoint : string) : result string unit :=
  match enabled_config with
  | None => Err "access-control is not enabled"
  | Some config =>
      if negb (ac_default_deny config) then Err "access-control defaultDeny must be true" else
      if config_skips_target config endpoint then
        Err ("access-control endpoint `" +:+ endpoint +:+ "` must not be skipped") else
      match endpoint_rules (rt_rules r) !! endpoint with
      | None => Err ("access-control endpoint `" +:+ endpoint +:+ "` is not configured")
      | Some endpoint_rules =>
          match rule_ids_for endpoint_rules REQUEST_ACCESS with
          | [] => Err ("access-control endpoint `" +:+ endpoint +:+ "` has no req-acc rule")
          | rule_ids =>
              match List.find (λ rule_id,
                      negb (bool_decide (is_Some (rule_bodies (rt_rules r) !! rule_id)))) rule_ids with
              | Some rule_id =>
                  Err ("access-control endpoint `" +:+ endpoint +:+ "` references unavailable rule `"
                       +:+ rule_id +:+ "`")
              | None => Ok ()
              end
          end
      end
  end.

(** ** Executing rules *)

Definition Running : Type := Run CelCache.
Definition execute (rule : Rule) : St Running BoxError bool := execute_rule (rt_registry r) rule.

(** [engine.execute_rule(..).await.unwrap_or(false)]. *)
Definition execute_rule_id (rule_id : string) (s : Running) : Running * bool :=
  match rule_bodies (rt_rules r) !! rule_id with
  | None => (s, false)
  | Some rule => let '(s, res) := execute rule s in (s, match res with Ok b => b | Err _ => false end)
  end.

Definition request_rule_set_valid (rule_ids : list string) : bool :=
  if negb (bool_decide (PUBLIC_ACCESS_RULE_ID ∈ rule_ids)) then true else
  (length rule_ids =? 1)%nat
  && match rule_bodies (rt_rules r) !! PUBLIC_ACCESS_RULE_ID with
     | Some rule => is_canonical_public_rule rule
     | None => false
     end.

Fixpoint require_all (rule_ids : list string) (s : Running) : Running * bool :=
  match rule_ids with
  | [] => (s, true)
  | rule_id :: rest =>
      let '(s, passed) := execute_rule_id rule_id s in
      if passed : bool then require_all rest s else (s, false)
  end.

(** Every rule runs on its own copy of the context, kept when the rule passes. *)
Fixpoint require_any (rule_ids : list string) (s : Running) : Running * bool :=
  match rule_ids with
  | [] => (s, false)
  | rule_id :: rest =>
      let '(s', passed) := execute_rule_id rule_id s in
      if passed : bool then (s', true) else
      require_any rest {| rn_cache := rn_cache s'; rn_actions := rn_actions s';
                          rn_context := rn_context s |}
  end.

Definition execute_rule_ids (rule_ids : list string) (logic : string) (s : Running) : Running * bool :=
  match rule_ids with
  | [] => (s, true)
  | _ =>
      if negb (request_rule_set_valid rule_ids) then (s, false) else
      if eq_ignore_ascii_case logic "all" then require_all rule_ids s else require_any rule_ids s
  end.

(** ** Authorization *)

(** The compile caches of the engine and of the CEL row filter. *)
Record Engines := { eg_cache : CelCache; eg_rows : CelCache }.
Definition start (e : Engines) (context : Json) : Running :=
  {| rn_cache := eg_cache e; rn_actions := eg_rows e; rn_context := context |}.
Definition engines_of (s : Running) : Engines :=
  {| eg_cache := rn_cache s; eg_rows := rn_actions s |}.

Definition no_rule_defined (config : AccessControlConfig) (endpoint : string) : AccessDecision :=
  if ac_default_deny config
  then Denied ("Access denied: no access control rule defined for " +:+ endpoint) else Allowed.
Definition denied_by_rule (endpoint : string) : AccessDecision :=
  Denied ("Access denied by access control rule for " +:+ endpoint).
Definition decided (allowed : bool) (endpoint : string) : AccessDecision :=
  if allowed then Allowed else denied_by_rule endpoint.

(** The part [authorize_tool] and [authorize_http_endpoint] share. *)
Definition authorize_entry (config : AccessControlConfig) (tool_name endpoint : string)
    (headers : list (string * string)) (auth : option Principal) (arguments : Json)
    (correlation_id : option string) (e : Engines) : Engines * AccessDecision :=
  match find_service_entry endpoint with
  | None => (e, no_rule_defined config endpoint)
  | Some (_, endpoint_rules) =>
      match rule_ids_for endpoint_rules REQUEST_ACCESS with
      | [] => (e, no_rule_defined config endpoint)
      | rule_ids =>
          let context := build_rule_context tool_name endpoint headers auth arguments correlation_id
                           (permission_for endpoint_rules) in
          let '(s, allowed) :=
            execute_rule_ids rule_ids (ac_access_rule_logic config) (start e context) in
          (engines_of s, decided allowed endpoint)
      end
  end.

Definition authorize_tool (tool_name endpoint : string) (headers : list (string * string))
    (auth : option Principal) (arguments : Json) (correlation_id : option string) (e : Engines) :
    Engines * AccessDecision :=
  match active_config_for_mcp_tool tool_name endpoint with
  | None => (e, Allowed)
  | Some config => authorize_entry config tool_name endpoint headers auth arguments correlation_id e
  end.

Definition authorize_http_endpoint (endpoint : string) (headers : list (string * string))
    (auth : option Principal) (request_data : Json) (correlation_id : option string) (e : Engines) :
    Engines * AccessDecision :=
  match active_config_for_endpoint endpoint with
  | None => (e, Allowed)
  | Some config => authorize_entry config "http" endpoint headers auth request_data correlation_id e
  end.

(** ** Visibility of tools *)

Definition unknown_rule_visible (config : AccessControlConfig) : bool :=
  bool_decide (tl_unknown_rule_fallback (ac_tools_list_access_control config) = UnknownVisible).
Definition visible (b : bool) : ToolVisibility := if b then Visible else Hidden.
Definition all_or_any (config : AccessControlConfig) (outcomes : list bool) : bool :=
  if eq_ignore_ascii_case (ac_access_rule_logic config) "all"
  then forallb id outcomes else existsb id outcomes.

(** What a rule says about the claims of the caller; a rule without a body is unknown. *)
Definition rule_outcome (permission : Json) (auth : option Principal) (rule_id : string) :
    option RuleVisibilityMatch :=
  rule ← rule_bodies (rt_rules r) !! rule_id;
  Some (rule_visibility_match rule permission auth (rt_claim_mappings r)).

Definition visible_outcome (config : AccessControlConfig) (outcome : option RuleVisibilityMatch) :
    option bool :=
  match outcome with
  | None | Some Unknown => Some (unknown_rule_visible config)
  | Some (Matched b) => Some b
  | Some Ignored => None
  end.

Definition permission_value (endpoint_rules : EndpointConfig) : Json :=
  JObject (default [] (permission_for endpoint_rules)).

Definition tool_visible (tool_name endpoint : string) (auth : option Principal) : ToolVisibility :=
  match active_config_for_mcp_tool tool_name endpoint with
  | None => Visible
  | Some config =>
      if bool_decide (tl_mode (ac_tools_list_access_control config) = ModeNone) then Visible else
      match find_service_entry endpoint with
      | None => visible (negb (ac_default_deny config))
      | Some (_, endpoint_rules) =>
          match endpoint_rules !! "visibility" with
          | Some visibility =>
              visible (permission_matches_claims visibility auth (rt_claim_mappings r))
          | None =>
              match rule_ids_for endpoint_rules REQUEST_ACCESS with
              | [] => visible (negb (ac_default_deny config))
              | rule_ids =>
                  if negb (request_rule_set_valid rule_ids) then Hidden else
                  match omap (λ id, visible_outcome config
                                      (rule_outcome (permission_value endpoint_rules) auth id))
                          rule_ids with
                  | [] => visible (negb (ac_default_deny config))
                  | outcomes => visible (all_or_any config outcomes)
                  end
              end
          end
      end
  end.

Definition claim_outcome (config : AccessControlConfig) (outcome : option RuleVisibilityMatch) :
    option bool :=
  match outcome with
  | None => Some (unknown_rule_visible config)
  | Some (Matched b) => Some b
  | Some Ignored | Some Unknown => None
  end.

Definition authorize_tool_by_claims (tool_name endpoint : string) (auth : option Principal) :
    AccessDecision :=
  match active_config_for_mcp_tool tool_name endpoint with
  | None => Allowed
  | Some config =>
      match find_service_entry endpoint with
      | None => no_rule_defined config endpoint
      | Some (_, endpoint_rules) =>
          match endpoint_rules !! "visibility" with
          | Some visibility =>
              decided (permission_matches_claims visibility auth (rt_claim_mappings r)) endpoint
          | None =>
              match rule_ids_for endpoint_rules REQUEST_ACCESS with
              | [] => no_rule_defined config endpoint
              | rule_ids =>
                  if negb (request_rule_set_valid rule_ids) then
                    Denied ("Access denied by invalid public access rule for " +:+ endpoint) else
                  let results := (λ id, claim_outcome config
                    (rule_outcome (permission_value endpoint_rules) auth id)) <$> rule_ids in
                  let outcomes := omap id results in
                  let deferred_to_arguments := existsb (λ o, negb (bool_decide (is_Some o))) results in
                  let all := eq_ignore_ascii_case (ac_access_rule_logic config) "all" in
                  decided
                    (if all && deferred_to_arguments then forallb id outcomes else
                     if deferred_to_arguments then true else
                     match outcomes with
                     | [] => negb (ac_default_deny config)
                     | _ => if all then forallb id outcomes else existsb id outcomes
                     end) endpoint
              end
          end
      end
  end.

(** ** Response filters *)

Definition response_filter_priority (rule_id : string) : N :=
  match rule_bodies (rt_rules r) !! rule_id with
  | None => 2
  | Some rule =>
      match rule_actions rule with
      | None => 2
      | Some actions =>
          if existsb (λ action, is_row_filter_action (ac_action_ref action)) actions then 0 else
          if existsb (λ action, is_column_filter_action (ac_action_ref action)) actions then 1 else 2
      end
  end.

Definition response_filter_rule_ids (endpoint_rules : EndpointConfig) : list string :=
  stable_sort (λ a b, response_filter_priority a <=? response_filter_priority b)%N
    (rule_ids_for endpoint_rules RESPONSE_FILTER).

Definition has_response_filter (endpoint : string) : bool :=
  match active_config_for_endpoint endpoint with
  | None => false
  | Some _ =>
      match find_service_entry endpoint with
      | Some (_, endpoint_rules) =>
          match response_filter_rule_ids endpoint_rules with [] => false | _ => true end
      | None => false
      end
  end.

(** The loop over the filter rules; it stops at the first rule that does not pass. *)
Fixpoint run_filters (rule_ids : list string) (s : Running) :
    Running * result AccessControlResponseFilterError unit :=
  match rule_ids with
  | [] => (s, Ok ())
  | rule_id :: rest =>
      match rule_bodies (rt_rules r) !! rule_id with
      | None => (s, Err (RuleNotFound rule_id))
      | Some rule =>
          match execute rule s with
          | (s, Ok true) => run_filters rest s
          | (s, Ok false) => (s, Err (RuleRejected rule_id))
          | (s, Err error) => (s, Err (RuleExecution rule_id (error_to_string error)))
          end
      end
  end.

(** The rule context with the response; [context] is an object. *)
Definition with_response (context : Json) (text : string) (body : Json) (status : N) : Json :=
  match context with
  | JObject m =>
      JObject (insert_access_control_context
        (obj_insert "statusCode" (JNumber (PosInt status))
          (obj_insert RESPONSE_BODY_JSON body
            (obj_insert RESPONSE_BODY (JString text) m))) default_include)
  | _ => context
  end.

Definition filter_http_response (endpoint : string) (headers : list (string * string))
    (auth : option Principal) (request_data : Json) (correlation_id : option string)
    (status_code : N) (response_body : string) (e : Engines) :
    Engines * result AccessControlResponseFilterError (option string) :=
  match active_config_for_endpoint endpoint with
  | None => (e, Ok None)
  | Some _ =>
      match find_service_entry endpoint with
      | None => (e, Ok None)
      | Some (service_entry, endpoint_rules) =>
          match response_filter_rule_ids endpoint_rules with
          | [] => (e, Ok None)
          | rule_ids =>
              if is_empty response_body then (e, Ok (Some "")) else
              match json_from_str response_body with
              | Err error => (e, Err (InvalidJson error))
              | Ok body_json =>
                  let context :=
                    with_response
                      (build_rule_context "http" service_entry headers auth request_data
                         correlation_id (permission_for endpoint_rules))
                      (of_bytes (from_utf8_lossy (bytes response_body))) body_json status_code in
                  let '(s, res) := run_filters rule_ids (start e context) in
                  (engines_of s,
                   _ ← res;
                   filtered_body ← ok_or MissingFilteredBody (get RESPONSE_BODY_JSON (rn_context s));
                   Ok (Some (json_to_string filtered_body)))
              end
          end
      end
  end.

Inductive FilterTargetKind := Structured | Text (index : nat).
Record FilterTarget := { ft_kind : FilterTargetKind; ft_body : Json }.

Definition FilterTarget_from_result (result : Json) : option FilterTarget :=
  object ← as_object result;
  match member "structuredContent" object with
  | Some structured => Some {| ft_kind := Structured; ft_body := structured |}
  | None =>
      content ← member "content" object ≫= as_array;
      match content with
      | [item] =>
          item ← as_object item;
          if negb (bool_decide (member "type" item ≫= as_str = Some "text")) then None else
          text ← member "text" item ≫= as_str;
          match json_from_str text with
          | Ok body => Some {| ft_kind := Text 0; ft_body := body |}
          | Err _ => None
          end
      | _ => None
      end
  end.

Definition mcp_filter_error_result (message : string) : Json :=
  JObject [("content", JArray [JObject [("text", JString message); ("type", JString "text")]]);
           ("isError", JBool true)].

(** A change of the members of one content item of a result, where there is one. *)
Definition on_content_item (index : nat) (f : list (string * Json) → list (string * Json))
    (result : Json) : Json :=
  match result with
  | JObject m =>
      match member "content" m with
      | Some (JArray content) =>
          match content !! index with
          | Some (JObject item) =>
              JObject (obj_replace "content" (JArray (<[index := JObject (f item)]> content)) m)
          | _ => result
          end
      | _ => result
      end
  | _ => result
  end.

Definition update_text_content (text : string) (result : Json) : Json :=
  on_content_item 0 (λ item,
    if bool_decide (member "type" item ≫= as_str = Some "text")
    then obj_insert "text" (JString text) item else item) result.

Definition FilterTarget_apply (target : FilterTarget) (result filtered_body : Json) : Json :=
  let filtered_text := json_to_string filtered_body in
  match ft_kind target with
  | Structured =>
      update_text_content filtered_text
        (match result with
         | JObject m => JObject (obj_insert "structuredContent" filtered_body m)
         | _ => result
         end)
  | Text index => on_content_item index (obj_insert "text" (JString filtered_text)) result
  end.

Definition FILTER_FAILED : string := "Access control response filter failed".

Definition filter_mcp_response (tool_name endpoint : string) (headers : list (string * string))
    (auth : option Principal) (arguments : Json) (correlation_id : option string) (result : Json)
    (e : Engines) : Engines * Json :=
  match active_config_for_mcp_tool tool_name endpoint with
  | None => (e, result)
  | Some _ =>
      match find_service_entry endpoint with
      | None => (e, result)
      | Some (service_entry, endpoint_rules) =>
          match response_filter_rule_ids endpoint_rules with
          | [] => (e, result)
          | rule_ids =>
              match FilterTarget_from_result result with
              | None => (e, mcp_filter_error_result FILTER_FAILED)
              | Some target =>
                  let context :=
                    with_response
                      (build_rule_context tool_name service_entry headers auth arguments
                         correlation_id (permission_for endpoint_rules))
                      (json_to_string (ft_body target)) (ft_body target) 200 in
                  let '(s, res) := run_filters rule_ids (start e context) in
                  (engines_of s,
                   match res with
                   | Err _ => mcp_filter_error_result FILTER_FAILED
                   | Ok _ =>
                       if response_row_filter_denied (rn_context s)
                       then mcp_filter_error_result "Access denied by response filter" else
                       match get RESPONSE_BODY_JSON (rn_context s) with
                       | None => mcp_filter_error_result FILTER_FAILED
                       | Some filtered_body => FilterTarget_apply target result filtered_body
                       end
                   end)
              end
          end
      end
  end.

(** ** Selection of the policy of an HTTP request *)

Record Selection := {
  sl_exact : option string;
  sl_template : option string;
  sl_template_count : N;
  sl_prefix : option string;
  sl_prefix_ambiguous : bool;
  sl_exact_ambiguous : bool;
}.
Definition Selection_empty : Selection :=
  {| sl_exact := None; sl_template := None; sl_template_count := 0; sl_prefix := None;
     sl_prefix_ambiguous := false; sl_exact_ambiguous := false |}.

(** [self.http_policy_patterns[key]]; every key of [http_policy_keys] has a pattern. *)
Definition http_policy_pattern (key : string) : result string string :=
  default (Err "missing pattern") (rt_http_policy_patterns r !! key).
Definition pattern_length (key : string) : N :=
  match http_policy_pattern key with Ok p => slen p | Err _ => 0 end.

(** The policy prefix selected so far and a longer, equally long or shorter one. *)
Definition select_prefix (s : Selection) (key pattern : string) : Selection :=
  let keep := {| sl_exact := sl_exact s; sl_template := sl_template s;
                 sl_template_count := sl_template_count s; sl_prefix := Some key;
                 sl_prefix_ambiguous := false; sl_exact_ambiguous := sl_exact_ambiguous s |} in
  match sl_prefix s with
  | Some previous =>
      if (slen pattern <? pattern_length previous)%N then s else
      if (pattern_length previous =? slen pattern)%N then
        {| sl_exact := sl_exact s; sl_template := sl_template s;
           sl_template_count := sl_template_count s; sl_prefix := sl_prefix s;
           sl_prefix_ambiguous := true; sl_exact_ambiguous := sl_exact_ambiguous s |}
      else keep
  | None => keep
  end.

Definition select_key (path method : string) (s : Selection) (key : string) : result string Selection :=
  pattern ← map_err (λ reason, "Access denied: unsupported ACL path " +:+ key +:+ ": " +:+ reason)
              (http_policy_pattern key);
  if negb (eq_ignore_ascii_case (split_endpoint key).2 method) then Ok s else
  if contains_byte pattern "*" then
    Err ("Access denied: unsupported wildcard ACL key " +:+ key +:+ "; migrate to exact paths, templates or literal prefixes")
  else if bool_decide (pattern = path) then
    Ok {| sl_exact := Some key; sl_template := sl_template s;
          sl_template_count := sl_template_count s; sl_prefix := sl_prefix s;
          sl_prefix_ambiguous := sl_prefix_ambiguous s;
          sl_exact_ambiguous := sl_exact_ambiguous s || bool_decide (is_Some (sl_exact s)) |}
  else if contains_byte pattern "{" then
    Ok (if path_template_matches pattern path then
          {| sl_exact := sl_exact s; sl_template := Some key;
             sl_template_count := sl_template_count s + 1; sl_prefix := sl_prefix s;
             sl_prefix_ambiguous := sl_prefix_ambiguous s;
             sl_exact_ambiguous := sl_exact_ambiguous s |}
        else s)
  else Ok (if below_prefix pattern path then select_prefix s key pattern else s).

Definition ambiguous_policies (endpoint : string) : string :=
  "Access denied: ambiguous access control policies for " +:+ endpoint.

Definition finish_selection (endpoint : string) (s : Selection) : result string string :=
  if sl_exact_ambiguous s then Err (ambiguous_policies endpoint) else
  match sl_exact s with
  | Some exact => Ok exact
  | None =>
      if (1 <? sl_template_count s)%N then Err (ambiguous_policies endpoint) else
      match sl_template s with
      | Some template => Ok template
      | None =>
          if sl_prefix_ambiguous s then Err (ambiguous_policies endpoint) else
          match sl_prefix s with Some prefix => Ok prefix | None => Ok endpoint end
      end
  end.

Definition resolve_http_policy (path method : string) : result string string :=
  let path := match split_once "?" path with Some (path, _) => path | None => path end in
  path ← map_err (λ reason, "Access denied: noncanonical path: " +:+ reason)
           (canonical_http_path path);
  let endpoint := path +:+ "@" +:+ to_ascii_lowercase method in
  match active_config_for_endpoint endpoint with
  | None => Ok endpoint
  | Some _ =>
      s ← for_each (select_key path method) Selection_empty
            (default [] (rt_http_policy_keys r !! to_ascii_lowercase method));
      finish_selection endpoint s
  end.
End runtime.
End access_control.
