(* ===== verification/AccessControlFacts.v ===== *)
(** * Access control: selection and authorization

    Theorems on [AccessControl]: which policy governs an HTTP request, that a request is
    allowed only by the rules of that policy, what the rule context contains, and that a
    decision does not depend on what the engine has compiled before. *)

From S2P Require Import Prelude RustStr RustF64 GatewayCore JsonTree HttpPath RuleEngine AccessControl.
From Stdlib Require Import Ascii.

(** ** The keys of a method *)

Section keys.
Context `{codec : JsonCodec} `{uni : UnicodeCase} `{cel : CelInterpreter}.
Context (access : option AccessControlConfig) (rules : RuleConfig).
Abbreviation r := (AccessControlRuntime_new access rules).

(** The keys a request with a method is matched against, in order. *)
Definition method_keys (method : string) : list string :=
  List.filter (λ key, eq_ignore_ascii_case (split_endpoint key).2 method) (http_keys rules).

Definition key_pattern (key : string) : result string string :=
  canonical_http_pattern (split_endpoint key).1.

Lemma new_fold keys (patterns : gmap string (result string string)) (by_method : gmap string (list string)) :
  let out := foldl (λ '(patterns, keys) key,
        let method := to_ascii_lowercase (split_endpoint key).2 in
        (<[key := canonical_http_pattern (split_endpoint key).1]> patterns,
         <[method := default [] (keys !! method) ++ [key]]> keys)) (patterns, by_method) keys in
  (∀ key, key ∈ keys → out.1 !! key = Some (key_pattern key))
  ∧ (∀ key, key ∉ keys → out.1 !! key = patterns !! key)
  ∧ ∀ method, default [] (out.2 !! to_ascii_lowercase method)
      = default [] (by_method !! to_ascii_lowercase method)
        ++ List.filter (λ key, eq_ignore_ascii_case (split_endpoint key).2 method) keys.
Proof.
  revert patterns by_method. induction keys as [|k keys IH]; intros patterns by_method; cbn [foldl].
  { cbn. split_and!; [by intros ? ?%not_elem_of_nil|done|]. intros. by rewrite app_nil_r. }
  cbn zeta. edestruct IH as (H1 & H2 & H3). split_and!.
  - intros key [->|Hk]%elem_of_cons; [|by apply H1].
    destruct (decide (k ∈ keys)) as [Hk|Hk]; [by apply H1|]. rewrite H2 by done. cbn.
    by rewrite lookup_insert_eq.
  - intros key [Hne Hk]%not_elem_of_cons. rewrite H2 by done. cbn. by rewrite lookup_insert_ne.
  - intros method. rewrite H3. cbn [List.filter]. unfold eq_ignore_ascii_case at 2.
    case_bool_decide as E; cbn [snd].
    + rewrite E, lookup_insert_eq. cbn. by rewrite <- app_assoc.
    + by rewrite lookup_insert_ne.
Qed.

Lemma http_policy_pattern_new key : key ∈ http_keys rules → http_policy_pattern r key = key_pattern key.
Proof.
  intros Hk. unfold http_policy_pattern, AccessControlRuntime_new.
  destruct (new_fold (http_keys rules) ∅ ∅) as (H & _ & _).
  destruct (foldl _ _ _) as [patterns keys]. cbn in *. by rewrite H.
Qed.

Lemma http_policy_keys_new method :
  default [] (rt_http_policy_keys r !! to_ascii_lowercase method) = method_keys method.
Proof.
  unfold AccessControlRuntime_new. destruct (new_fold (http_keys rules) ∅ ∅) as (_ & _ & H).
  specialize (H method). destruct (foldl _ _ _) as [patterns keys]. cbn in *. exact H.
Qed.

Lemma filter_snoc {A} (f : A → bool) l x :
  List.filter f (l ++ [x]) = List.filter f l ++ (if f x then [x] else []).
Proof. by rewrite List.filter_app. Qed.

Lemma elem_of_filter_bool {A} (f : A → bool) l x : x ∈ List.filter f l ↔ f x = true ∧ x ∈ l.
Proof. rewrite !list_elem_of_In, filter_In. tauto. Qed.

Lemma elem_of_method_keys method key :
  key ∈ method_keys method ↔
  is_Some (endpoint_rules rules !! key) ∧ starts_with key "/" = true
  ∧ eq_ignore_ascii_case (split_endpoint key).2 method = true.
Proof.
  unfold method_keys, http_keys. rewrite !elem_of_filter_bool, elem_of_bt_keys. tauto.
Qed.

Lemma NoDup_method_keys method : NoDup (method_keys method).
Proof.
  unfold method_keys, http_keys. do 2 apply NoDup_ListNoDup, List.NoDup_filter, NoDup_ListNoDup.
  unfold bt_keys. rewrite bt_iter_perm. apply NoDup_fst_map_to_list.
Qed.

(** ** The selection loop *)

Section selection.
Context (path method : string).

Definition usable (key : string) : Prop :=
  ∃ p, key_pattern key = Ok p ∧ contains_byte p "*" = false.
Definition exactb (key : string) : bool :=
  match key_pattern key with Ok p => bool_decide (p = path) | Err _ => false end.
Definition templateb (key : string) : bool :=
  match key_pattern key with
  | Ok p => negb (bool_decide (p = path)) && (contains_byte p "{" && path_template_matches p path)
  | Err _ => false
  end.
Definition prefixb (key : string) : bool :=
  match key_pattern key with
  | Ok p => negb (bool_decide (p = path)) && (negb (contains_byte p "{") && below_prefix p path)
  | Err _ => false
  end.
Definition key_len (key : string) : N := match key_pattern key with Ok p => slen p | Err _ => 0 end.

(** The best prefix so far, and whether another one is as long. *)
Definition prefix_inv (ps : list string) (best : option string) (ambiguous : bool) : Prop :=
  match best with
  | None => ps = [] ∧ ambiguous = false
  | Some k =>
      k ∈ ps ∧ (∀ k', k' ∈ ps → key_len k' <= key_len k)%N
      ∧ (ambiguous = false → ∀ k', k' ∈ ps → k' ≠ k → key_len k' < key_len k)%N
      ∧ (ambiguous = true → ∃ k', k' ∈ ps ∧ k' ≠ k ∧ key_len k' = key_len k)
  end.

Record selection_inv (ks : list string) (s : Selection) : Prop := {
  si_exact : sl_exact s = last (List.filter exactb ks);
  si_exact_ambiguous : sl_exact_ambiguous s = (1 <? length (List.filter exactb ks))%nat;
  si_template : sl_template s = last (List.filter templateb ks);
  si_template_count : sl_template_count s = N.of_nat (length (List.filter templateb ks));
  si_prefix : prefix_inv (List.filter prefixb ks) (sl_prefix s) (sl_prefix_ambiguous s);
}.

Lemma prefix_step ps s k :
  (∀ k', k' ∈ ps → k' ∈ http_keys rules) → k ∉ ps → key_pattern k = Ok (ok_value "" (key_pattern k)) →
  prefix_inv ps (sl_prefix s) (sl_prefix_ambiguous s) →
  let s' := select_prefix r s k (ok_value "" (key_pattern k)) in
  prefix_inv (ps ++ [k]) (sl_prefix s') (sl_prefix_ambiguous s')
  ∧ sl_exact s' = sl_exact s ∧ sl_exact_ambiguous s' = sl_exact_ambiguous s
  ∧ sl_template s' = sl_template s ∧ sl_template_count s' = sl_template_count s.
Proof.
  intros Hin Hk Hp Hinv. cbn zeta. set (p := ok_value "" (key_pattern k)) in *.
  assert (key_len k = slen p) as Hlen by (unfold key_len; by rewrite Hp).
  unfold select_prefix. destruct (sl_prefix s) as [b|] eqn:Eb; cbn in Hinv.
  - destruct Hinv as (Hb & Hmax & Hno & Hyes).
    assert (pattern_length r b = key_len b) as ->.
    { unfold pattern_length, key_len. by rewrite http_policy_pattern_new by auto. }
    assert (b ≠ k) by (by intros ->).
    assert (∀ P : string → Prop, (∀ k', k' ∈ ps → P k') → P k → ∀ k', k' ∈ ps ++ [k] → P k') as Hall.
    { intros P H1 H2 k' [Hk'| ->%list_elem_of_singleton]%elem_of_app; auto. }
    destruct (N.ltb_spec (slen p) (key_len b)) as [Hlt|Hge]; [|destruct (N.eqb_spec (key_len b) (slen p))].
    + rewrite Eb. cbn. split_and!; try done.
      * apply elem_of_app. by left.
      * apply (Hall (λ k', key_len k' <= key_len b)%N); [done|lia].
      * intros Ha. apply (Hall (λ k', k' ≠ b → key_len k' < key_len b)%N); [auto|lia].
      * intros (k' & ? & ?)%Hyes. exists k'. split; [|done]. apply elem_of_app. by left.
    + cbn. split_and!; try done.
      * apply elem_of_app. by left.
      * apply (Hall (λ k', key_len k' <= key_len b)%N); [done|lia].
      * intros _. exists k. split; [apply elem_of_app; right; by apply list_elem_of_singleton|].
        split; [done|lia].
    + cbn. split_and!; try done.
      * apply elem_of_app. right. by apply list_elem_of_singleton.
      * apply (Hall (λ k', key_len k' <= key_len k)%N); [|lia]. intros k' Hk'. apply Hmax in Hk'. lia.
      * intros _. apply (Hall (λ k', k' ≠ k → key_len k' < key_len k)%N); [|done].
        intros k' Hk' _. apply Hmax in Hk'. lia.
  - destruct Hinv as [-> _]. cbn. split_and!; try done.
    + by apply list_elem_of_singleton.
    + by intros ? ->%list_elem_of_singleton.
    + by intros _ ? ->%list_elem_of_singleton.
Qed.

Lemma select_key_step ks s k :
  (∀ k', k' ∈ ks → k' ∈ http_keys rules) → k ∈ method_keys method → k ∉ ks → usable k →
  selection_inv ks s →
  ∃ s', select_key r path method s k = Ok s' ∧ selection_inv (ks ++ [k]) s'.
Proof.
  intros Hin Hk Hks (p & Hp & Hstar) [H1 H2 H3 H4 H5].
  pose proof Hk as (Hdom & Hslash & Hm)%elem_of_method_keys.
  assert (k ∈ http_keys rules) as Hkey.
  { unfold http_keys. rewrite elem_of_filter_bool, elem_of_bt_keys. done. }
  unfold select_key. rewrite http_policy_pattern_new, Hp by done.
  cbn [map_err mbind result_bind]. rewrite Hm, Hstar. cbn [negb].
  assert (exactb k = bool_decide (p = path)) as Ex by (unfold exactb; by rewrite Hp).
  assert (templateb k = negb (bool_decide (p = path))
            && (contains_byte p "{" && path_template_matches p path)) as Et
    by (unfold templateb; by rewrite Hp).
  assert (prefixb k = negb (bool_decide (p = path))
            && (negb (contains_byte p "{") && below_prefix p path)) as Epr
    by (unfold prefixb; by rewrite Hp).
  case_bool_decide as Hpath; [|destruct (contains_byte p "{"); [destruct (path_template_matches p path)|
    destruct (below_prefix p path)]]; cbn in Ex, Et, Epr.
  - eexists. split; [done|]. split; rewrite filter_snoc, ?Ex, ?Et, ?Epr, ?app_nil_r; try done.
    + by rewrite last_snoc.
    + cbn [sl_exact_ambiguous]. rewrite H2, H1, length_app. cbn [length].
      destruct (List.filter exactb ks) as [|a l]; [done|].
      rewrite bool_decide_eq_true_2 by (rewrite last_is_Some; done).
      rewrite orb_true_r. symmetry. apply Nat.ltb_lt. cbn. lia.
  - eexists. split; [done|]. split; rewrite filter_snoc, ?Ex, ?Et, ?Epr, ?app_nil_r; try done.
    + by rewrite last_snoc.
    + cbn [sl_template_count]. rewrite H4, length_app. cbn [length]. lia.
  - eexists. split; [done|]. by split; rewrite filter_snoc, ?Ex, ?Et, ?Epr, ?app_nil_r.
  - destruct (prefix_step (List.filter prefixb ks) s k) as (P1 & P2 & P3 & P4 & P5); [..|done|].
    { intros k' [_ ?]%elem_of_filter_bool. auto. }
    { by intros [_ ?]%elem_of_filter_bool. }
    { by rewrite Hp. }
    rewrite Hp in P1, P2, P3, P4, P5. cbn [ok_value] in *. eexists. split; [done|].
    split; rewrite filter_snoc, ?Ex, ?Et, ?Epr, ?app_nil_r; congruence.
  - eexists. split; [done|]. by split; rewrite filter_snoc, ?Ex, ?Et, ?Epr, ?app_nil_r.
Qed.

Lemma select_keys_Ok ks done_ s :
  (∀ k, k ∈ done_ ++ ks → k ∈ method_keys method) → NoDup (done_ ++ ks) →
  Forall usable ks → selection_inv done_ s →
  ∃ s', for_each (select_key r path method) s ks = Ok s' ∧ selection_inv (done_ ++ ks) s'.
Proof.
  revert done_ s. induction ks as [|k ks IH]; intros done_ s Hin Hnd Hu Hs.
  { exists s. by rewrite app_nil_r. }
  apply Forall_cons in Hu as [Hk Hu].
  destruct (select_key_step done_ s k) as (s1 & H1 & Hs1); [| | |done|done|].
  - intros k' Hk'. assert (k' ∈ method_keys method) as Hm by (apply Hin, elem_of_app; by left).
    by apply elem_of_filter_bool in Hm as [_ ?].
  - apply Hin, elem_of_app. right. left.
  - intros Hk'. apply NoDup_app in Hnd as (_ & Hd & _). apply (Hd k Hk'). left.
  - cbn [for_each]. rewrite H1. cbn [mbind result_bind].
    destruct (IH (done_ ++ [k]) s1) as (s2 & H2 & Hs2); [by rewrite <- app_assoc|by rewrite <- app_assoc|done|done|].
    exists s2. by rewrite <- app_assoc in Hs2.
Qed.

Lemma select_keys_usable ks s s' :
  (∀ k, k ∈ ks → k ∈ method_keys method) →
  for_each (select_key r path method) s ks = Ok s' → Forall usable ks.
Proof.
  revert s. induction ks as [|k ks IH]; intros s Hin H; [done|]. cbn [for_each] in H.
  apply bind_Ok in H as (s1 & Hk & H). constructor; [|by eapply IH; [set_solver|]].
  assert (k ∈ method_keys method) as Hm by (apply Hin; left).
  pose proof Hm as (_ & _ & Hmethod)%elem_of_method_keys. apply elem_of_filter_bool in Hm as [_ Hm].
  unfold select_key in Hk. rewrite http_policy_pattern_new in Hk by done.
  apply bind_Ok in Hk as (p & Hp%map_err_Ok & Hk). rewrite Hmethod in Hk. cbn [negb] in Hk.
  exists p. split; [done|]. by destruct (contains_byte p "*").
Qed.

Lemma selection_start : selection_inv [] Selection_empty.
Proof. by split. Qed.

(** What the outcome of the loop selects. *)
Lemma finish_selection_Ok ks s endpoint e :
  selection_inv ks s →
  finish_selection endpoint s = Ok e ↔
  let E := List.filter exactb ks in let T := List.filter templateb ks in
  let P := List.filter prefixb ks in
  E = [e] ∨ E = [] ∧ T = [e]
  ∨ E = [] ∧ T = [] ∧ e ∈ P ∧ (∀ k, k ∈ P → k ≠ e → key_len k < key_len e)%N
  ∨ E = [] ∧ T = [] ∧ P = [] ∧ e = endpoint.
Proof.
  intros [H1 H2 H3 H4 H5]. cbn zeta. unfold finish_selection. rewrite H1, H2, H3, H4. clear H1 H2 H3 H4.
  destruct (List.filter exactb ks) as [|a [|a' E]]; [|naive_solver|cbn; naive_solver].
  destruct (List.filter templateb ks) as [|b [|b' T]]; cbn [length last Nat.ltb]; [|cbn; naive_solver|].
  2:{ assert ((1 <? N.of_nat (S (S (length T))))%N = true) as -> by (apply N.ltb_lt; lia).
      cbn. naive_solver. }
  cbn. generalize dependent (List.filter prefixb ks). intros P H5.
  destruct (sl_prefix s) as [k|]; cbn in H5.
  - destruct H5 as (Hk & Hmax & Hno & Hyes). destruct (sl_prefix_ambiguous s).
    + split; [done|]. destruct Hyes as (k' & Hk' & Hne & Hlen); [done|].
      intros [?|[[]|[(_ & _ & He & Hlt)|(_ & _ & -> & _)]]]; [done|done| |].
      * destruct (decide (k = e)) as [->|Hke]; [apply Hlt in Hk'; [lia|done]|].
        apply Hlt in Hk; [|done]. apply Hmax in He. lia.
      * by apply not_elem_of_nil in Hk.
    + split; [intros [= <-]; right; right; left; by auto|].
      intros [?|[[]|[(_ & _ & He & Hlt)|(_ & _ & -> & _)]]]; [done|done| |].
      * destruct (decide (k = e)) as [->|Hke]; [done|].
        apply Hlt in Hk; [|done]. apply Hmax in He. lia.
      * by apply not_elem_of_nil in Hk.
  - destruct H5 as [-> ->]. split; [intros [= <-]; naive_solver|].
    intros [?|[[]|[(_ & _ & []%not_elem_of_nil & _)|(_ & _ & _ & ->)]]]; done.
Qed.
End selection.
End keys.

(** ** The policy of a request *)

Definition by_template (path key : string) : Prop :=
  ∃ p, key_pattern key = Ok p ∧ contains_byte p "{" = true ∧ path_template_matches p path = true.
Definition by_prefix (path key : string) : Prop :=
  ∃ p, key_pattern key = Ok p ∧ below_prefix p path = true.

(** The policy key that governs a canonical path: the one exact pattern, else the one
    template, else the longest prefix, else none. *)
Inductive governs (rules : RuleConfig) (path method : string) : string → Prop :=
| governs_exact k :
    k ∈ method_keys rules method → key_pattern k = Ok path →
    (∀ k', k' ∈ method_keys rules method → key_pattern k' = Ok path → k' = k) →
    governs rules path method k
| governs_template k :
    (∀ k', k' ∈ method_keys rules method → key_pattern k' ≠ Ok path) →
    k ∈ method_keys rules method → by_template path k →
    (∀ k', k' ∈ method_keys rules method → by_template path k' → k' = k) →
    governs rules path method k
| governs_prefix k :
    (∀ k', k' ∈ method_keys rules method → key_pattern k' ≠ Ok path ∧ ¬ by_template path k') →
    k ∈ method_keys rules method → by_prefix path k →
    (∀ k', k' ∈ method_keys rules method → by_prefix path k' → k' ≠ k →
           (key_len k' < key_len k)%N) →
    governs rules path method k
| governs_none :
    (∀ k', k' ∈ method_keys rules method →
           key_pattern k' ≠ Ok path ∧ ¬ by_template path k' ∧ ¬ by_prefix path k') →
    governs rules path method (path +:+ "@" +:+ to_ascii_lowercase method).

Lemma contains_byte_slashed l c :
  c ≠ "/"%char → contains_byte (slashed l) c = existsb (λ s, contains_byte s c) l.
Proof.
  intros Hc. induction l as [|s l IH]; cbn [slashed existsb]; [done|].
  rewrite !contains_byte_app, IH. rewrite contains_byte_cons.
  destruct (Ascii.eqb_spec c "/"); [done|]. done.
Qed.

Lemma canonical_no_brace p c : canonical_http_path p = Ok c → contains_byte c "{" = false.
Proof.
  intros [[-> ->]|(_ & Hs & ->)]%canonical_http_path_Ok; [done|].
  rewrite contains_byte_slashed by done. apply not_true_iff_false. rewrite existsb_exists.
  intros (s & (d & -> & Hd)%list_elem_of_In%list_elem_of_fmap & H).
  rewrite Forall_forall in Hs. apply Hs in Hd as (_ & _ & _ & _ & Hd).
  rewrite encoded_avoids in H; [done|done|]. by right; left.
Qed.

Lemma below_prefix_app p path : below_prefix p path = true ↔ ∃ rest, path = p +:+ String "/" rest.
Proof.
  unfold below_prefix, strip_prefix. destruct (String.prefix p path) eqn:E.
  - apply prefix_app in E as [t ->]. rewrite substring_app. split.
    + intros (rest & ->)%starts_with_app. by exists rest.
    + intros [rest H]. apply sapp_inj in H as ->. apply starts_with_app. by exists rest.
  - split; [done|]. intros [rest ->]. assert (String.prefix p (p +:+ String "/" rest) = true); [|congruence].
    apply prefix_app. by eexists.
Qed.

Section resolution.
Context `{codec : JsonCodec} `{uni : UnicodeCase} `{cel : CelInterpreter}.
Context (access : option AccessControlConfig) (rules : RuleConfig).
Abbreviation r := (AccessControlRuntime_new access rules).

(** The path of a request without its query. *)
Definition without_query (path : string) : string :=
  match split_once "?" path with Some (path, _) => path | None => path end.
Definition endpoint_of (path method : string) : string := path +:+ "@" +:+ to_ascii_lowercase method.

Section canonical.
Context (path method : string) (Hbrace : contains_byte path "{" = false).

Lemma exactb_true k : exactb path k = true ↔ key_pattern k = Ok path.
Proof.
  unfold exactb. destruct (key_pattern k); [|done]. rewrite bool_decide_eq_true. naive_solver.
Qed.

Lemma templateb_true k : templateb path k = true ↔ by_template path k.
Proof.
  unfold templateb, by_template. destruct (key_pattern k) as [p|]; [|naive_solver].
  rewrite !andb_true_iff, negb_true_iff, bool_decide_eq_false. split; [naive_solver|].
  intros (? & [= <-] & H1 & H2). split_and!; try done. congruence.
Qed.

Lemma prefixb_true k : prefixb path k = true ↔ by_prefix path k.
Proof.
  unfold prefixb, by_prefix. destruct (key_pattern k) as [p|]; [|naive_solver].
  rewrite !andb_true_iff, !negb_true_iff, bool_decide_eq_false. split; [naive_solver|].
  intros (? & [= <-] & [rest E]%below_prefix_app). split_and!.
  - intros ->. apply (f_equal String.length) in E. rewrite length_sapp in E. cbn in E. lia.
  - rewrite E, contains_byte_app in Hbrace. by apply orb_false_iff in Hbrace as [? _].
  - apply below_prefix_app. by exists rest.
Qed.
End canonical.

Lemma filter_nil {A} (f : A → bool) l : List.filter f l = [] ↔ ∀ x, x ∈ l → f x ≠ true.
Proof.
  split.
  - intros H x Hx Hf. assert (x ∈ List.filter f l) as Hin by by apply elem_of_filter_bool.
    rewrite H in Hin. by apply not_elem_of_nil in Hin.
  - intros H. destruct (List.filter f l) as [|x k] eqn:E; [done|].
    assert (x ∈ List.filter f l) as [Hf Hx]%elem_of_filter_bool by (rewrite E; left).
    by apply H in Hx.
Qed.

Lemma filter_one {A} (f : A → bool) l x :
  NoDup l → List.filter f l = [x] ↔ x ∈ l ∧ f x = true ∧ ∀ y, y ∈ l → f y = true → y = x.
Proof.
  intros Hnd. split.
  - intros H. assert (∀ y, y ∈ List.filter f l ↔ y = x) as Hy
      by (intros y; rewrite H; apply list_elem_of_singleton).
    setoid_rewrite elem_of_filter_bool in Hy. destruct (Hy x) as [_ [? ?]]; [done|]. naive_solver.
  - intros (Hx & Hf & Huniq). assert (NoDup (List.filter f l)) as Hnd'
      by (by apply NoDup_ListNoDup, List.NoDup_filter, NoDup_ListNoDup).
    assert (∀ y, y ∈ List.filter f l → y = x) as Hall
      by (intros y [? ?]%elem_of_filter_bool; auto).
    assert (x ∈ List.filter f l) as Hin by by apply elem_of_filter_bool.
    destruct (List.filter f l) as [|a [|b k]]; [by apply not_elem_of_nil in Hin|f_equal; apply Hall; left|].
    apply NoDup_cons in Hnd' as [Ha _]. destruct Ha.
    rewrite (Hall a), (Hall b) by (repeat constructor). left.
Qed.

(** The cases of the selection are those of [governs]. *)
Lemma governs_filters c method e :
  contains_byte c "{" = false →
  let ks := method_keys rules method in
  let E := List.filter (exactb c) ks in let T := List.filter (templateb c) ks in
  let P := List.filter (prefixb c) ks in
  (E = [e] ∨ E = [] ∧ T = [e]
   ∨ E = [] ∧ T = [] ∧ e ∈ P ∧ (∀ k, k ∈ P → k ≠ e → key_len k < key_len e)%N
   ∨ E = [] ∧ T = [] ∧ P = [] ∧ e = endpoint_of c method) ↔ governs rules c method e.
Proof.
  intros Hc. cbn zeta. rewrite !filter_one, !filter_nil by apply NoDup_method_keys.
  setoid_rewrite (elem_of_filter_bool (prefixb c)). setoid_rewrite exactb_true.
  setoid_rewrite (templateb_true c Hc). setoid_rewrite (prefixb_true c Hc). split.
  - intros [(? & ? & ?)|[(? & ? & ? & ?)|[(? & ? & [? ?] & ?)|(? & ? & ? & ->)]]].
    + by apply governs_exact.
    + by apply governs_template.
    + apply governs_prefix; naive_solver.
    + apply governs_none. naive_solver.
  - destruct 1; naive_solver.
Qed.

Lemma resolve_http_policy_Ok path method e :
  match canonical_http_path (without_query path) with
  | Err _ => ∃ reason, resolve_http_policy r path method = Err reason
  | Ok c =>
      is_Some (active_config_for_endpoint r (endpoint_of c method)) →
      resolve_http_policy r path method = Ok e ↔
      (∀ k, k ∈ method_keys rules method → usable k) ∧ governs rules c method e
  end.
Proof.
  unfold resolve_http_policy, without_query.
  destruct (canonical_http_path _) as [c|reason] eqn:Hc; cbn [map_err mbind result_bind]; [|by eexists].
  intros [config Hactive]. unfold endpoint_of in *. rewrite Hactive, http_policy_keys_new.
  apply canonical_no_brace in Hc.
  rewrite <- governs_filters by done. split.
  - intros (s & Hs & Hfin)%bind_Ok.
    pose proof (select_keys_usable access rules c method _ _ _ (λ k Hk, Hk) Hs) as Hu.
    split; [by apply Forall_forall|].
    destruct (select_keys_Ok access rules c method (method_keys rules method) [] Selection_empty)
      as (s' & Hs' & Hinv); [done|apply NoDup_method_keys|done|apply selection_start|].
    assert (s' = s) as -> by congruence. by apply (finish_selection_Ok c _ _ _ _ Hinv) in Hfin.
  - intros [Hu He].
    destruct (select_keys_Ok access rules c method (method_keys rules method) [] Selection_empty)
      as (s & Hs & Hinv); [done|apply NoDup_method_keys|by apply Forall_forall|apply selection_start|].
    apply bind_Ok. exists s. split; [done|]. by apply (finish_selection_Ok c _ _ _ _ Hinv).
Qed.

(** C10 For a path outside the skipped prefixes the resolver returns a key exactly when
    that key governs the path and every policy of the method is usable: an exact pattern
    wins over templates, a template over prefixes, the longest prefix over shorter ones,
    two candidates of the winning kind are an error, and without a candidate the path
    itself is returned.  A path without a canonical form is always an error. *)
Theorem policy_selection_exact path method e :
  match canonical_http_path (without_query path) with
  | Err _ => ∃ reason, resolve_http_policy r path method = Err reason
  | Ok c =>
      is_Some (active_config_for_endpoint r (endpoint_of c method)) →
      resolve_http_policy r path method = Ok e ↔
      (∀ k, k ∈ method_keys rules method → usable k) ∧ governs rules c method e
  end.
Proof. apply resolve_http_policy_Ok. Qed.
End resolution.

(** ** Segments of paths and patterns *)

Definition non_empty (l : list string) : list string := List.filter (λ s, negb (is_empty s)) l.

Lemma non_empty_app l l' : non_empty (l ++ l') = non_empty l ++ non_empty l'.
Proof. apply List.filter_app. Qed.

Lemma drop_byte_slashes l : ∃ n, l = replicate n "/"%char ++ drop_byte "/" l.
Proof.
  induction l as [|a l [n IH]]; [by exists 0%nat|]. cbn. destruct (Ascii.eqb_spec a "/") as [->|].
  - exists (S n). cbn. by rewrite <- IH.
  - by exists 0%nat.
Qed.

Lemma non_empty_slashes_before n s :
  non_empty (split "/" (of_bytes (replicate n "/"%char) +:+ s)) = non_empty (split "/" s).
Proof. induction n as [|n IH]; [done|]. exact IH. Qed.

Lemma non_empty_slashes_after n s :
  non_empty (split "/" (s +:+ of_bytes (replicate n "/"%char))) = non_empty (split "/" s).
Proof.
  destruct n as [|n]; [by rewrite sapp_nil|].
  change (of_bytes (replicate (S n) "/"%char)) with (String "/" (of_bytes (replicate n "/"%char))).
  rewrite split_app_sep, non_empty_app. rewrite <- (sapp_nil (of_bytes _)), non_empty_slashes_before.
  by rewrite app_nil_r.
Qed.

Lemma of_bytes_app l l' : of_bytes (l ++ l') = of_bytes l +:+ of_bytes l'.
Proof. induction l as [|a l IH]; [done|]. exact (f_equal (String a) IH). Qed.

Lemma non_empty_drop_front l :
  non_empty (split "/" (of_bytes (drop_byte "/" l))) = non_empty (split "/" (of_bytes l)).
Proof.
  destruct (drop_byte_slashes l) as [n Hn]. generalize dependent (drop_byte "/" l). intros d ->.
  by rewrite of_bytes_app, non_empty_slashes_before.
Qed.

Lemma rev_replicate {A} n (x : A) : rev (replicate n x) = replicate n x.
Proof.
  induction n as [|n IH]; [done|]. cbn [replicate rev]. rewrite IH.
  symmetry. apply (replicate_cons_app n).
Qed.

Lemma non_empty_drop_back l :
  non_empty (split "/" (of_bytes (rev (drop_byte "/" (rev l))))) = non_empty (split "/" (of_bytes l)).
Proof.
  destruct (drop_byte_slashes (rev l)) as [n Hn]. generalize dependent (drop_byte "/" (rev l)).
  intros d Hd. rewrite <- (rev_involutive l), Hd, rev_app_distr, rev_replicate.
  by rewrite of_bytes_app, non_empty_slashes_after.
Qed.

Lemma path_segments_split path : path_segments path = non_empty (split "/" path).
Proof.
  unfold path_segments, trim_matches, trim_end_byte. rewrite bytes_of_bytes.
  etransitivity; [apply non_empty_drop_back|]. by rewrite non_empty_drop_front, of_bytes_bytes.
Qed.

Lemma non_empty_all l : Forall (λ s, s ≠ "") l → non_empty l = l.
Proof.
  induction 1 as [|s l Hs _ IH]; [done|]. apply is_empty_false in Hs.
  unfold non_empty in *. cbn [List.filter]. by rewrite Hs, IH.
Qed.

Lemma path_segments_slashed l :
  Forall (λ s, s ≠ "" ∧ contains_byte s "/" = false) l → path_segments (slashed l) = l.
Proof.
  intros Hl. rewrite path_segments_split. destruct l as [|s l]; [done|].
  rewrite slashed_join. change ("/" +:+ join "/" (s :: l)) with ("" +:+ String "/" (join "/" (s :: l))).
  rewrite split_app_sep, non_empty_app, split_join; [|done|by eapply Forall_impl; [exact Hl|]; intros ? []].
  apply non_empty_all. eapply Forall_impl; [exact Hl|]. by intros ? [].
Qed.

(** The segments of a pattern are those its canonical form is made of. *)
Lemma path_segments_raw pp :
  starts_with pp "/" = true → path_segments pp = non_empty (raw_segments pp).
Proof.
  intros [t ->]%starts_with_app. rewrite path_segments_split. unfold raw_segments, strip_suffix_slash.
  change ("/" +:+ t) with (String "/" t).
  destruct (rsplit_once "/" (String "/" t)) as [[l b]|] eqn:E; [destruct b as [|x b]|].
  - apply rsplit_once_Some in E as [E _]. destruct l as [|a l].
    + injection E as ->. done.
    + injection E as <- ->. change (String "/" (l +:+ "/")) with ("" +:+ String "/" (l +:+ String "/" "")).
      rewrite !split_app_sep, !non_empty_app. cbn [split non_empty List.filter negb is_empty app].
      rewrite app_nil_r. cbn [String.substring]. rewrite substring_whole; [done|].
      rewrite length_sapp. cbn [String.length]. rewrite length_sapp. lia.
  - change (String "/" t) with ("" +:+ String "/" t) at 1. rewrite split_app_sep, non_empty_app.
    cbn [String.substring]. rewrite substring_whole by (cbn; lia). done.
  - change (String "/" t) with ("" +:+ String "/" t) at 1. rewrite split_app_sep, non_empty_app.
    cbn [String.substring]. rewrite substring_whole by (cbn; lia). done.
Qed.

Lemma canonical_segments_inv pattern segs out :
  canonical_segments pattern segs = Ok out →
  ∃ ts, out = slashed ts ∧ Forall2 (λ s t, canonical_segment pattern s = Ok t) segs ts.
Proof.
  revert out. induction segs as [|s segs IH]; intros out; cbn [canonical_segments].
  { intros [= <-]. by exists []. }
  intros (t & Ht & (out' & (ts & -> & Hts)%IH & [= <-])%bind_Ok)%bind_Ok.
  exists (t :: ts). split; [done|by constructor].
Qed.

Lemma canonical_segment_nonempty pattern s t : canonical_segment pattern s = Ok t → s ≠ "".
Proof. unfold canonical_segment. intros H ->. done. Qed.

(** The segments of a canonical path. *)
Lemma canonical_path_segments p c :
  canonical_http_path p = Ok c →
  c = "/" ∧ path_segments c = [] ∨
  ∃ l, l ≠ [] ∧ Forall safe_segment l ∧ c = slashed (encoded <$> l) ∧ path_segments c = encoded <$> l.
Proof.
  intros [[-> ->]|(H1 & H2 & ->)]%canonical_http_path_Ok; [by left|right].
  eexists. split_and!; [done..|]. apply path_segments_slashed. rewrite Forall_fmap.
  eapply Forall_impl; [exact H2|]. apply encoded_segment.
Qed.

Lemma canonical_as_pattern p c : canonical_http_path p = Ok c → canonical_http_pattern c = Ok c.
Proof.
  intros [[-> ->]|(H1 & H2 & ->)]%canonical_http_path_Ok; [done|]. by apply canonical_slashed.
Qed.

Lemma join_slashed l : join "/" ("" :: l) = slashed l.
Proof. destruct l as [|s l]; [done|]. by rewrite slashed_join. Qed.

Lemma split_slashed l :
  Forall (λ s, contains_byte s "/" = false) l → split "/" (slashed l) = "" :: l.
Proof. intros Hl. rewrite <- join_slashed. apply split_join; [done|]. by constructor. Qed.

(** A pattern a canonical path lies below is canonical itself. *)
Lemma below_prefix_canonical p c pp :
  canonical_http_path p = Ok c → pp ≠ "" → below_prefix pp c = true →
  canonical_http_pattern pp = Ok pp.
Proof.
  intros Hc%canonical_path_segments Hne [rest E]%below_prefix_app.
  destruct Hc as [[-> _]|(l & Hl & Hs & -> & _)].
  { destruct pp as [|a pp]; [done|]. injection E as -> E. by destruct pp. }
  assert (Forall (λ s, contains_byte s "/" = false) (encoded <$> l)) as Hslash.
  { rewrite Forall_fmap. eapply Forall_impl; [exact Hs|]. intros d Hd. by apply encoded_segment. }
  apply (f_equal (split "/")) in E. rewrite split_slashed, split_app_sep in E by done.
  pose proof (split_nonempty "/" pp) as Hsp. destruct (split "/" pp) as [|a ss] eqn:Epp; [done|].
  injection E as <- E. assert (pp = slashed ss) as ->.
  { by rewrite <- (concat_split "/" pp), Epp, <- join_slashed. }
  apply fmap_app_inv in E as (l1 & l2 & -> & _ & ->).
  apply canonical_slashed; [by intros ->|]. by apply Forall_app in Hs as [? _].
Qed.

Lemma forallb_zip {A B} (f : A → B → bool) l k :
  length l = length k →
  forallb (λ '(x, y), f x y) (zip l k) = true ↔ Forall2 (λ x y, f x y = true) l k.
Proof.
  revert k. induction l as [|x l IH]; intros [|y k] [=]; cbn; [by split|].
  rewrite andb_true_iff, IH, Forall2_cons by done. done.
Qed.

Lemma path_template_matches_Forall2 pp path :
  path_template_matches pp path = true ↔
  Forall2 (λ s d, segment_matches s d = true) (path_segments pp) (path_segments path).
Proof.
  unfold path_template_matches.
  destruct (Nat.eqb_spec (length (path_segments pp)) (length (path_segments path))) as [Hlen|Hlen]; cbn [negb].
  - by apply forallb_zip.
  - split; [done|]. by intros ?%Forall2_length.
Qed.

(** A segment that matches a canonical one is a parameter or that one. *)
Lemma matching_segment_fixed s d t :
  safe_segment d → segment_matches s (encoded d) = true → canonical_segment true s = Ok t →
  t = s ∧ (s = encoded d ∨ contains_byte s "{" = true).
Proof.
  intros Hd [Hm|Hm%bool_decide_eq_true]%orb_true_iff Ht.
  - pose proof (canonical_segment_nonempty _ _ _ Ht) as Hne.
    unfold canonical_segment in Ht. apply is_empty_false in Hne. rewrite Hne, Hm, orb_true_r in Ht.
    injection Ht as <-. split; [done|]. right.
    apply andb_true_iff in Hm as [[rest ->]%starts_with_app _]. done.
  - subst s. rewrite canonical_segment_encoded in Ht by done. injection Ht as <-. by split; [|left].
Qed.

Lemma matching_segments_fixed segs ts l :
  Forall safe_segment l → Forall2 (λ s d, segment_matches s (encoded d) = true) segs l →
  Forall2 (λ s t, canonical_segment true s = Ok t) segs ts →
  ts = segs ∧ (segs = encoded <$> l ∨ existsb (λ s, contains_byte s "{") segs = true).
Proof.
  intros Hl Hm. revert ts. induction Hm as [|s d segs l Hm _ IH]; intros ts Hts.
  { apply Forall2_nil_inv_l in Hts as ->. by split; [|left]. }
  apply Forall2_cons_inv_l in Hts as (t & ts' & Ht & Hts & ->).
  apply Forall_cons in Hl as [Hd Hl]. destruct (matching_segment_fixed s d t) as [-> H1]; [done..|].
  destruct (IH Hl ts' Hts) as [-> H2]. split; [done|]. cbn.
  destruct H1 as [->| ->]; [|by right]. destruct H2 as [->| ->]; [by left|right; apply orb_true_r].
Qed.

(** A pattern that matches a canonical path as a template does so in canonical form, and is
    that path or has a parameter. *)
Lemma template_canonical p c pp q :
  canonical_http_path p = Ok c → starts_with pp "/" = true → canonical_http_pattern pp = Ok q →
  path_template_matches pp c = true →
  path_template_matches q c = true ∧ (q = c ∨ contains_byte q "{" = true).
Proof.
  intros Hc%canonical_path_segments Hpp Hq Hm. unfold canonical_http_pattern, canonical_http_path_impl in Hq.
  case_bool_decide as Hroot.
  { injection Hq as <-. split; [by subst|]. left. subst pp. unfold path_template_matches in Hm.
    change (path_segments "/") with (@nil string) in Hm.
    destruct Hc as [[-> _]|(l & Hl & _ & _ & E)]; [done|]. rewrite E in Hm. by destruct l. }
  rewrite Hpp in Hq. cbn [negb] in Hq. apply canonical_segments_inv in Hq as (ts & -> & Hts).
  assert (path_segments pp = raw_segments pp) as Epp.
  { rewrite path_segments_raw by done. apply non_empty_all.
    apply Forall_forall. intros s Hs%list_elem_of_lookup. destruct Hs as [i Hi].
    eapply Forall2_lookup_l in Hts as (t & _ & Ht); [|exact Hi]. by eapply canonical_segment_nonempty. }
  apply path_template_matches_Forall2 in Hm. rewrite Epp in Hm.
  destruct Hc as [[-> E]|(l & Hl & Hs & -> & E)]; rewrite E in Hm.
  { apply Forall2_nil_inv_r in Hm. by destruct (split_nonempty "/" _ Hm). }
  rewrite Forall2_fmap_r in Hm. destruct (matching_segments_fixed _ _ _ Hs Hm Hts) as [-> Hor].
  assert (path_segments (slashed (raw_segments pp)) = raw_segments pp) as Eq.
  { apply path_segments_slashed, Forall_forall. intros s Hin. split.
    - apply list_elem_of_lookup in Hin as [i Hi].
      eapply Forall2_lookup_l in Hts as (t & _ & Ht); [|exact Hi]. by eapply canonical_segment_nonempty.
    - by eapply split_pieces. }
  split.
  - apply path_template_matches_Forall2. by rewrite Eq, E, Forall2_fmap_r.
  - destruct Hor as [<-|Hor]; [by left|right]. by rewrite contains_byte_slashed.
Qed.

(** ** Requests are decided by the policy that governs them *)

Lemma contains_byte_lowercase s : contains_byte (to_ascii_lowercase s) "@" = contains_byte s "@".
Proof.
  induction s as [|a s IH]; [done|]. rewrite to_ascii_lowercase_cons, !contains_byte_cons, IH.
  f_equal. by destruct a as [[] [] [] [] [] [] [] []].
Qed.

Lemma split_endpoint_of c method :
  contains_byte method "@" = false → split_endpoint (endpoint_of c method) = (c, to_ascii_lowercase method).
Proof.
  intros Hm. unfold split_endpoint, endpoint_of.
  assert (rsplit_once "@" (c +:+ "@" +:+ to_ascii_lowercase method) = Some (c, to_ascii_lowercase method)) as ->;
    [|done].
  apply rsplit_once_Some. by rewrite contains_byte_lowercase.
Qed.

Lemma eq_ignore_ascii_case_lower a b :
  eq_ignore_ascii_case a (to_ascii_lowercase b) = eq_ignore_ascii_case a b.
Proof. unfold eq_ignore_ascii_case. by rewrite to_ascii_lowercase_idem. Qed.

Section governed.
Context `{codec : JsonCodec} `{uni : UnicodeCase} `{cel : CelInterpreter}.
Context (access : option AccessControlConfig) (rules : RuleConfig).
Abbreviation r := (AccessControlRuntime_new access rules).
Context (Hkeys : ∀ k, is_Some (endpoint_rules rules !! k) → starts_with k "/" = true).

Lemma split_endpoint_slash k : starts_with k "/" = true → starts_with (split_endpoint k).1 "/" = true.
Proof.
  intros [t ->]%starts_with_app. unfold split_endpoint.
  destruct (rsplit_once "@" ("/" +:+ t)) as [[l b]|] eqn:E; apply starts_with_app; [|by exists t].
  apply rsplit_once_Some in E as [E _]. destruct l as [|a l]; [by injection E|].
  injection E as <- _. by exists l.
Qed.

Lemma rt_rules_new : rt_rules r = rules.
Proof. unfold AccessControlRuntime_new. by destruct (foldl _ _ _). Qed.
Lemma rt_access_new : rt_access r = access.
Proof. unfold AccessControlRuntime_new. by destruct (foldl _ _ _). Qed.

Lemma unmatched_no_entry path c method :
  canonical_http_path path = Ok c → contains_byte method "@" = false →
  (∀ k, k ∈ method_keys rules method → usable k) →
  (∀ k, k ∈ method_keys rules method →
        key_pattern k ≠ Ok c ∧ ¬ by_template c k ∧ ¬ by_prefix c k) →
  find_service_entry r (endpoint_of c method) = None.
Proof.
  intros Hc Hm Hu Hno.
  assert (∀ k, is_Some (endpoint_rules rules !! k) → endpoint_pattern_matches k (endpoint_of c method) = false)
    as Hfalse.
  { intros k Hk. pose proof (Hkeys k Hk) as Hslash. apply not_true_iff_false. intros Hmatch.
    assert (eq_ignore_ascii_case (split_endpoint k).2 method = true
            ∧ ((split_endpoint k).1 = c ∨ below_prefix (split_endpoint k).1 c = true
               ∨ path_template_matches (split_endpoint k).1 c = true)) as [Hmethod Hcases].
    { unfold endpoint_pattern_matches in Hmatch. case_bool_decide as Heq.
      { rewrite Heq, split_endpoint_of by done. cbn. rewrite <- eq_ignore_ascii_case_lower.
        unfold eq_ignore_ascii_case. rewrite bool_decide_eq_true_2 by done. auto. }
      rewrite split_endpoint_of in Hmatch by done. destruct (split_endpoint k) as [pp pm]. cbn.
      rewrite eq_ignore_ascii_case_lower in Hmatch. destruct (eq_ignore_ascii_case pm method); [|done].
      cbn [negb] in Hmatch. case_bool_decide; [by auto|]. destruct (below_prefix pp c); auto. }
    assert (k ∈ method_keys rules method) as Hin by by apply elem_of_method_keys.
    destruct (Hno k Hin) as (He & Ht & Hp), (Hu k Hin) as (q & Hq & _). unfold key_pattern in *.
    apply split_endpoint_slash in Hslash. destruct Hcases as [E|[E|E]].
    - apply He. rewrite E. by eapply canonical_as_pattern.
    - apply Hp. eexists. split; [|exact E]. eapply below_prefix_canonical; [done| |done].
      intros E0. by rewrite E0 in Hslash.
    - destruct (template_canonical path c _ q Hc Hslash Hq E) as [Hmq [->|Hb]]; [done|].
      apply Ht. by exists q. }
  unfold find_service_entry. rewrite rt_rules_new.
  destruct (endpoint_rules rules !! endpoint_of c method) eqn:E.
  - assert (endpoint_pattern_matches (endpoint_of c method) (endpoint_of c method) = true) as Ht
      by (unfold endpoint_pattern_matches; by rewrite bool_decide_eq_true_2).
    rewrite Hfalse in Ht; [done|by eexists].
  - apply max_by_key_None, filter_nil. intros [k m] Hin%elem_of_bt_iter. cbn.
    rewrite Hfalse; [done|by eexists].
Qed.

(** ** Authorization *)

(** Every rule of a list passes, each in the context the one before left. *)
Fixpoint all_pass (ids : list string) (s : Running) : Prop :=
  match ids with
  | [] => True
  | id :: rest =>
      ∃ rule s', rule_bodies rules !! id = Some rule ∧ execute r rule s = (s', Ok true)
                 ∧ all_pass rest s'
  end.

(** What it takes to pass a list of request rules in a context. *)
Definition rules_pass (logic : string) (ids : list string) (s : Running) : Prop :=
  request_rule_set_valid r ids = true
  ∧ if eq_ignore_ascii_case logic "all" then all_pass ids s
    else ∃ id rule e s', id ∈ ids ∧ rule_bodies rules !! id = Some rule
           ∧ execute r rule (start e (rn_context s)) = (s', Ok true).

Lemma execute_rule_id_true id s s' :
  execute_rule_id r id s = (s', true) →
  ∃ rule, rule_bodies rules !! id = Some rule ∧ execute r rule s = (s', Ok true).
Proof.
  unfold execute_rule_id. rewrite rt_rules_new. destruct (rule_bodies rules !! id) as [rule|]; [|done].
  intros H. exists rule. destruct (execute r rule s) as [s1 [[]|]]; by simplify_eq.
Qed.

Lemma require_all_true ids s s' : require_all r ids s = (s', true) → all_pass ids s.
Proof.
  revert s. induction ids as [|id ids IH]; intros s; cbn [require_all all_pass]; [done|].
  destruct (execute_rule_id r id s) as [s1 []] eqn:E; [|done]. intros H.
  apply execute_rule_id_true in E as (rule & ? & ?). exists rule, s1. by eauto.
Qed.

Lemma require_any_true ids s s' :
  require_any r ids s = (s', true) →
  ∃ id rule e s1, id ∈ ids ∧ rule_bodies rules !! id = Some rule
    ∧ execute r rule (start e (rn_context s)) = (s1, Ok true).
Proof.
  revert s. induction ids as [|id ids IH]; intros s; cbn [require_any]; [done|].
  destruct (execute_rule_id r id s) as [s1 []] eqn:E; intros H.
  - apply execute_rule_id_true in E as (rule & ? & ?). destruct s as [c a j].
    exists id, rule, {| eg_cache := c; eg_rows := a |}, s1. by split; [left|].
  - apply IH in H as (i & rule & e & s2 & ? & ?). exists i, rule, e, s2. by split; [right|].
Qed.

Lemma execute_rule_ids_true ids logic s s' :
  ids ≠ [] → execute_rule_ids r ids logic s = (s', true) → rules_pass logic ids s.
Proof.
  unfold execute_rule_ids, rules_pass. destruct ids as [|id ids]; [done|]. intros _.
  destruct (request_rule_set_valid r (id :: ids)); [|done]. cbn [negb].
  destruct (eq_ignore_ascii_case logic "all"); intros H; split; try done.
  - by eapply require_all_true.
  - by eapply require_any_true.
Qed.

(** Under default-deny an entry is passed only by the rules of the entry found for it. *)
Lemma authorize_entry_Allowed config tool e headers auth arguments id eng eng' :
  ac_default_deny config = true →
  authorize_entry r config tool e headers auth arguments id eng = (eng', Allowed) →
  ∃ k m, find_service_entry r e = Some (k, m) ∧ rule_ids_for m REQUEST_ACCESS ≠ []
    ∧ rules_pass (ac_access_rule_logic config) (rule_ids_for m REQUEST_ACCESS)
        (start eng (build_rule_context tool e headers auth arguments id (permission_for m))).
Proof.
  intros Hdeny. unfold authorize_entry, no_rule_defined. rewrite Hdeny.
  destruct (find_service_entry r e) as [[k m]|]; [|done].
  destruct (rule_ids_for m REQUEST_ACCESS) as [|i ids] eqn:Eids; [done|].
  destruct (execute_rule_ids _ _ _ _) as [s []] eqn:E; [|done]. intros _. exists k, m.
  rewrite Eids. split_and!; [done..|]. by eapply execute_rule_ids_true.
Qed.

(** C8 When every policy key is a path, a default-deny gateway allows a request only by the
    rules of the key that governs its canonical path: the key is configured, it has request
    rules, a public rule stands alone, and all or one of the rules, as configured, exist and
    return true in the context built from this request.  The other way is a configured skip
    prefix of the key. *)
Theorem http_access_governed config path c method e headers auth data id eng eng' :
  contains_byte method "@" = false →
  canonical_http_path (without_query path) = Ok c →
  active_config_for_endpoint r (endpoint_of c method) = Some config →
  ac_default_deny config = true →
  resolve_http_policy r path method = Ok e →
  authorize_http_endpoint r e headers auth data id eng = (eng', Allowed) →
  config_skips_target config e = true ∨
  governs rules c method e ∧
  ∃ m, endpoint_rules rules !! e = Some m ∧ rule_ids_for m REQUEST_ACCESS ≠ []
    ∧ rules_pass (ac_access_rule_logic config) (rule_ids_for m REQUEST_ACCESS)
        (start eng (build_rule_context "http" e headers auth data id (permission_for m))).
Proof.
  intros Hm Hc Hactive Hdeny He Hauth.
  pose proof (resolve_http_policy_Ok access rules path method e) as Hsel. rewrite Hc in Hsel.
  apply Hsel in He as [Hu Hgov]; [clear Hsel|by eexists].
  unfold authorize_http_endpoint, active_config_for_endpoint in *.
  destruct (enabled_config r) as [config'|]; [|done]. cbn [mbind option_bind] in *.
  assert (config' = config) as -> by (destruct (config_skips_target config' _); congruence).
  destruct (config_skips_target config e) eqn:Eskip; [by left|right]. split; [done|].
  apply authorize_entry_Allowed in Hauth as (k & m & Hfind & Hids & Hpass); [|done].
  assert (endpoint_rules rules !! e = Some m) as Hlook; [|by exists m].
  assert (e ∈ method_keys rules method ∨ find_service_entry r e = None) as [Hin|Hnone]; [| |congruence].
  - destruct Hgov as [| | |Hno]; [by left..|]. right. by eapply unmatched_no_entry.
  - apply elem_of_method_keys in Hin as [[m' Hm'] _]. unfold find_service_entry in Hfind.
    rewrite rt_rules_new, Hm' in Hfind. by simplify_eq.
Qed.
End governed.

(** ** The rule context *)

Section context.
Context `{codec : JsonCodec}.

Lemma member_promote p m k :
  is_reserved_rule_context_key k = true → member k (promote p m) = member k m.
Proof.
  intros Hk. revert m. induction p as [|[k' v] p IH]; intros m; [done|].
  change (promote ((k', v) :: p) m)
    with (promote p (if is_reserved_rule_context_key k' then m else obj_insert k' v m)).
  rewrite IH. destruct (is_reserved_rule_context_key k') eqn:E; [done|].
  rewrite member_obj_insert, decide_False; [done|]. by intros ->; rewrite Hk in E.
Qed.

Lemma member_headers headers m name v :
  member name (foldl (λ values '(name, value),
    let name := to_ascii_lowercase name in
    if bool_decide (name ∈ CREDENTIAL_HEADERS) then values
    else obj_insert name (JString value) values) m headers) = Some v →
  member name m = Some v ∨
  (name ∉ CREDENTIAL_HEADERS)
  ∧ ∃ n value, (n, value) ∈ headers ∧ to_ascii_lowercase n = name ∧ v = JString value.
Proof.
  revert m. induction headers as [|[n value] headers IH]; intros m; cbn [foldl]; [by left|].
  intros [H|(H1 & n' & value' & Hin & H2)]%IH; [|right; split; [done|]; exists n', value'; set_solver].
  case_bool_decide as Hc; [by left|]. rewrite member_obj_insert in H. case_decide as Hn; [|by left].
  right. simplify_eq. split; [done|]. exists n, value. set_solver.
Qed.

Lemma member_or_insert_text k o m k' v :
  member k' m = Some v → member k' (or_insert_text k o m) = Some v.
Proof.
  intros Hm. unfold or_insert_text, obj_or_insert. destruct o; [|done].
  destruct (member k m) eqn:E; [done|]. rewrite member_obj_place by done.
  case_decide; [congruence|done].
Qed.

(** C38 What rules see of a request comes from the runtime: permission entries of the
    configuration never replace a reserved member of the context, the claims are those of
    the authenticated principal, no claim of the token is replaced by another field of the
    principal, and of the headers only those that carry no credentials are there, under
    their lower-case names and with a value the request has for them. *)
Theorem rule_context_trusted tool endpoint headers auth arguments id permission :
  let context := build_rule_context tool endpoint headers auth arguments id permission in
  (∀ k, is_reserved_rule_context_key k = true → k ≠ "permission" →
        get k context = get k (build_rule_context tool endpoint headers auth arguments id None))
  ∧ get "permission" context = Some (JObject (default [] permission))
  ∧ json_pointer "/auditInfo/subject_claims/ClaimsMap" context = Some (normalized_claims auth)
  ∧ (∀ p m k v, auth = Some p → au_claims p = JObject m → member k m = Some v →
                get k (normalized_claims auth) = Some v)
  ∧ ∃ h, get "headers" context = Some h ∧
      ∀ name v, get name h = Some v →
        (name ∉ CREDENTIAL_HEADERS)
        ∧ ∃ n value, (n, value) ∈ headers ∧ to_ascii_lowercase n = name ∧ v = JString value.
Proof.
  cbn zeta. unfold build_rule_context. split_and!.
  - intros k Hk Hne. cbn [get]. rewrite !member_promote by done.
    by rewrite !member_obj_insert, !(decide_False (P := "permission" = k)).
  - cbn [get]. rewrite member_promote by done. by rewrite member_obj_insert, decide_True.
  - unfold json_pointer.
    change (pointer_tokens "/auditInfo/subject_claims/ClaimsMap")
      with (Some ["auditInfo"; "subject_claims"; "ClaimsMap"]).
    cbn [mbind option_bind foldl pointer_step]. rewrite member_promote by done.
    rewrite member_obj_insert, decide_False by done.
    destruct id; rewrite !member_obj_insert, ?decide_False by done; done.
  - intros p m k v -> Hp Hv. unfold normalized_claims. rewrite Hp. cbn [get].
    by repeat apply member_or_insert_text.
  - exists (headers_to_json headers). split.
    + cbn [get]. rewrite member_promote by done. rewrite member_obj_insert, decide_False by done.
      destruct id; rewrite !member_obj_insert, ?decide_False by done; done.
    + intros name v Hv. unfold headers_to_json in Hv. cbn [get] in Hv.
      by apply member_headers in Hv as [?|?].
Qed.
End context.
