(* ===== verification/AccessHistoryFacts.v ===== *)
(** * Access control: decisions do not depend on history

    The engine keeps a cache of compiled expressions, filled by the requests served before.
    Here the decisions and filtered responses are proved to be those of an engine that has
    compiled nothing, as long as no rule identifier contains the separator of the cache
    key. *)

From S2P Require Import Prelude RustStr GatewayCore JsonTree RuleEngine AccessControl AccessControlFacts.
From Stdlib Require Import Ascii.

(** ** Computations that agree on related states *)

Definition agree {S Y} (R : relation S) (m : S → S * Y) : Prop :=
  ∀ s1 s2, R s1 s2 → (m s1).2 = (m s2).2 ∧ R (m s1).1 (m s2).1.

Section agree.
Context {S E : Type} (R : relation S).
Abbreviation agree := (agree R).

Lemma agree_ret {X} (x : X) : agree (mret x : St S E X).
Proof. by intros s1 s2 H. Qed.
Lemma agree_throw {X} e : agree (throw e : St S E X).
Proof. by intros s1 s2 H. Qed.
Lemma agree_lift {X} (r : result E X) : agree (lift r : St S E X).
Proof. by intros s1 s2 H. Qed.
Lemma agree_bind {X Y} (m : St S E X) (k : X → St S E Y) :
  agree m → (∀ x, agree (k x)) → agree (m ≫= k : St S E Y).
Proof.
  intros Hm Hk s1 s2 H. apply Hm in H as [Hr HR]. unfold mbind, St_bind.
  destruct (m s1) as [s1' r1], (m s2) as [s2' r2]. cbn in *. subst r2. destruct r1; [|done].
  by apply Hk.
Qed.
Lemma agree_if {X} (b : bool) (m n : St S E X) : agree m → agree n → agree (if b then m else n).
Proof. by destruct b. Qed.
End agree.
Create HintDb agree.
#[export] Hint Resolve agree_ret agree_throw agree_lift agree_bind agree_if : agree.

(** ** The compile cache *)

(** An identifier that keeps cache keys apart. *)
Definition separated (id : string) : Prop := contains_byte id ":" = false.

Lemma separated_inj s t s' t' :
  separated s → separated s' → s +:+ String ":" t = s' +:+ String ":" t' → s = s' ∧ t = t'.
Proof.
  unfold separated. revert s'. induction s as [|a s IH]; intros [|a' s'] Hs Hs' H; rewrite ?sapp_cons in H.
  - by injection H.
  - injection H as <- _. by rewrite contains_byte_cons in Hs'.
  - injection H as -> _. by rewrite contains_byte_cons in Hs.
  - injection H as -> H. rewrite contains_byte_cons in Hs, Hs'.
    apply orb_false_iff in Hs as [_ Hs], Hs' as [_ Hs']. by destruct (IH s' Hs Hs' H) as [-> ->].
Qed.

Lemma cache_key_inj id p e id' p' e' :
  separated id → separated id' → cache_key id p e = cache_key id' p' e' → e = e'.
Proof.
  intros Hid Hid' H. apply separated_inj in H as [_ H]; [|done..].
  by apply separated_inj in H as [_ ?]; [|by destruct p|by destruct p'].
Qed.

Section history.
Context `{codec : JsonCodec} `{uni : UnicodeCase} `{cel : CelInterpreter}.

(** Every program in the cache is the compiled form of the expression in its key. *)
Definition genuine (cache : CelCache) : Prop :=
  ∀ key p, cache !! key = Some p →
    ∃ id profile expression, separated id ∧ key = cache_key id profile expression
      ∧ program_compile expression = Ok p.
Definition genuine2 (c1 c2 : CelCache) : Prop := genuine c1 ∧ genuine c2.

Lemma genuine_empty : genuine (∅ : gmap string CelProgram).
Proof. intros key p H. destruct (lookup_empty_Some (M := gmap string) _ _ H). Qed.

Lemma compile_genuine id expression profile cache :
  separated id → genuine cache →
  (compile_cel_program id expression profile cache).2
    = map_err (λ m, EngineError (CelCompile m)) (program_compile expression)
  ∧ genuine (compile_cel_program id expression profile cache).1.
Proof.
  intros Hid Hg. unfold compile_cel_program, CelCache in *.
  destruct (cache !! cache_key id profile expression) as [p|] eqn:E.
  - apply Hg in E as (id' & profile' & expression' & Hid' & Hkey%cache_key_inj & Hp); [|done..].
    subst expression'. cbn. by rewrite Hp.
  - destruct (program_compile expression) as [p|] eqn:Hp; [|done]. cbn. split; [done|].
    intros key q. unfold CelCache in *. rewrite lookup_insert. case_decide as Hk; [|apply Hg].
    intros [= <-]. by exists id, profile, expression.
Qed.

Lemma agree_compile id expression profile :
  separated id → agree genuine2 (compile_cel_program id expression profile).
Proof.
  intros Hid c1 c2 [H1 H2]. destruct (compile_genuine id expression profile c1 Hid H1) as [-> ?].
  destruct (compile_genuine id expression profile c2 Hid H2) as [-> ?]. by repeat split.
Qed.
#[local] Hint Resolve agree_compile : agree.

Lemma agree_prepare id expression profile type context :
  separated id → agree genuine2 (prepare id expression profile type context).
Proof. intros Hid. unfold prepare. auto 20 with agree. Qed.
#[local] Hint Resolve agree_prepare : agree.

Lemma agree_evaluate rule context :
  separated (rule_id rule) → agree genuine2 (evaluate_cel_expression rule context).
Proof.
  intros Hid. unfold evaluate_cel_expression, evaluate_cel_predicate.
  apply agree_bind; [auto with agree|intros expression].
  apply agree_bind; [auto with agree|intros [program cx]].
  apply agree_bind; [auto with agree|]. intros []; auto with agree.
Qed.

Lemma agree_retain id expression profile type base items :
  separated id → agree genuine2 (retain_cel_predicate_rows id expression profile type base items).
Proof.
  intros Hid. unfold retain_cel_predicate_rows. apply agree_bind; [auto with agree|].
  intros []. auto with agree.
Qed.
#[local] Hint Resolve agree_evaluate agree_retain : agree.

(** ** Rules *)

(** States of a run that differ only in what has been compiled. *)
Definition acts (x1 x2 : CelCache * Json) : Prop := genuine2 x1.1 x2.1 ∧ x1.2 = x2.2.
Definition runs (s1 s2 : Running) : Prop :=
  genuine2 (rn_cache s1) (rn_cache s2) ∧ genuine2 (rn_actions s1) (rn_actions s2)
  ∧ rn_context s1 = rn_context s2.

Lemma agree_on_cache {X} (m : St CelCache BoxError X) :
  agree genuine2 m → agree runs (on_cache (A := CelCache) m).
Proof.
  intros Hm s1 s2 (Hc & Ha & Hj). apply Hm in Hc as [Hr Hc]. unfold on_cache.
  destruct (m (rn_cache s1)), (m (rn_cache s2)). split; [exact Hr|exact (conj Hc (conj Ha Hj))].
Qed.

Lemma agree_on_actions {X} (m : St (CelCache * Json) BoxError X) :
  agree acts m → agree runs (on_actions m).
Proof.
  intros Hm s1 s2 (Hc & Ha & Hj). unfold on_actions.
  destruct (Hm (rn_actions s1, rn_context s1) (rn_actions s2, rn_context s2)) as [Hr [Ha' Hj']]; [done|].
  destruct (m (rn_actions s1, rn_context s1)) as [[] ?], (m (rn_actions s2, rn_context s2)) as [[] ?].
  split; [exact Hr|exact (conj Hc (conj Ha' Hj'))].
Qed.

Lemma agree_conditions rule :
  separated (rule_id rule) → agree runs (conditions_passed (A := CelCache) rule).
Proof.
  intros Hid. unfold conditions_passed.
  assert (agree runs (context ← get_context; on_cache (evaluate_cel_expression rule context))) as He.
  { apply agree_bind; [|intros; by apply agree_on_cache; auto with agree].
    intros s1 s2 Hs. split; [|done]. unfold get_context. cbn. f_equal. apply Hs. }
  destruct (to_lowercase <$> trimmed (condition_language rule)); repeat apply agree_if;
    auto with agree.
Qed.

Section registry.
Context (registry : ActionRegistry (A := CelCache)).
Context (Hregistry : ∀ ref plugin, registry !! ref = Some plugin → ∀ v, agree acts (plugin v)).

Lemma agree_actions actions : agree runs (execute_actions registry actions).
Proof.
  induction actions as [|action actions IH]; cbn [execute_actions]; [auto with agree|].
  destruct (registry !! ac_action_ref action) as [plugin|] eqn:E; [|auto with agree].
  apply agree_bind; [eapply agree_on_actions, Hregistry, E|]. intros []; auto with agree.
Qed.

Lemma agree_execute_rule rule : separated (rule_id rule) → agree runs (execute_rule registry rule).
Proof.
  intros Hid. unfold execute_rule. apply agree_bind; [by apply agree_conditions|].
  intros []; cbn [negb]; [|auto with agree].
  destruct (rule_actions rule); [apply agree_actions|auto with agree].
Qed.
End registry.

(** ** The actions of the gateway *)

Lemma agree_role mappings v : agree acts (role_based_access_control mappings v).
Proof. intros [a1 j1] [a2 j2] [Ha Hj]. cbn in *. subst j2. exact (conj eq_refl (conj Ha eq_refl)). Qed.

Lemma agree_column mappings v : agree acts (response_column_filter mappings v).
Proof.
  intros [a1 j1] [a2 j2] [Ha Hj]. cbn in *. subst j2.
  repeat case_match; exact (conj eq_refl (conj Ha eq_refl)).
Qed.

Lemma agree_row mappings v : agree acts (response_row_filter mappings v).
Proof.
  intros [a1 j1] [a2 j2] [Ha Hj]. cbn in *. subst j2.
  repeat case_match; exact (conj eq_refl (conj Ha eq_refl)).
Qed.

Lemma agree_apply_cel base expression profile a1 a2 body :
  genuine2 a1 a2 →
  let out1 := apply_cel_row_filter base expression profile a1 body in
  let out2 := apply_cel_row_filter base expression profile a2 body in
  out1.1 = out2.1 ∧ out1.2.2 = out2.2.2 ∧ genuine2 out1.2.1 out2.2.1.
Proof.
  intros Ha. cbn zeta. unfold apply_cel_row_filter.
  assert (∀ items, let m := retain_cel_predicate_rows RESPONSE_CEL_ROW_FILTER_ACTION expression profile
                              RESPONSE_FILTER base items in
            (m a1).2 = (m a2).2 ∧ genuine2 (m a1).1 (m a2).1) as Hm.
  { intros items. by apply agree_retain. }
  cbn zeta in Hm. destruct (row_filter_items body) as [[items rebuild]|].
  - destruct (Hm items) as [Hr Hg]. destruct (retain_cel_predicate_rows _ _ _ _ _ _ a1) as [c1 r1].
    destruct (retain_cel_predicate_rows _ _ _ _ _ _ a2) as [c2 r2]. cbn in Hr, Hg. subst r2.
    by destruct r1.
  - destruct (is_object body); [|done]. destruct (Hm [body]) as [Hr Hg].
    destruct (retain_cel_predicate_rows _ _ _ _ _ _ a1) as [c1 r1].
    destruct (retain_cel_predicate_rows _ _ _ _ _ _ a2) as [c2 r2]. cbn in Hr, Hg. subst r2.
    by destruct r1 as [[]|].
Qed.

Lemma pointer_update_rel {X} (Rx : relation X) tokens (f1 f2 : Json → Json * X) j :
  (∀ j, (f1 j).1 = (f2 j).1 ∧ Rx (f1 j).2 (f2 j).2) →
  option_Forall2 (λ a b, a.1 = b.1 ∧ Rx a.2 b.2) (pointer_update tokens f1 j) (pointer_update tokens f2 j).
Proof.
  intros Hf. revert j. induction tokens as [|t tokens IH]; intros j; cbn [pointer_update].
  { constructor. apply Hf. }
  destruct j as [| | | |l|m]; try constructor.
  - destruct (parse_index t) as [i|]; [|constructor]. cbn. destruct (l !! i) as [v|]; [|constructor]. cbn.
    destruct (IH v) as [[] [] [E Hx]|]; [|constructor]. cbn in *. subst. by constructor.
  - destruct (member t m) as [v|]; [|constructor]. cbn.
    destruct (IH v) as [[] [] [E Hx]|]; [|constructor]. cbn in *. subst. by constructor.
Qed.

Lemma with_response_target_rel {X} (Rx : relation X) context (f1 f2 : Json → Json * X) :
  (∀ j, (f1 j).1 = (f2 j).1 ∧ Rx (f1 j).2 (f2 j).2) →
  option_Forall2 (λ a b, a.1 = b.1 ∧ Rx a.2 b.2)
    (with_response_target context f1) (with_response_target context f2).
Proof.
  intros Hf. unfold with_response_target. case_match; [constructor|].
  destruct (as_object context) as [m|]; [|constructor]. cbn.
  destruct (member RESPONSE_BODY_JSON m) as [body|]; [|constructor]. cbn.
  destruct (pointer_tokens _) as [tokens|]; [|constructor]. cbn.
  destruct (pointer_update_rel Rx tokens f1 f2 body Hf) as [[] [] [E Hx]|]; [|constructor].
  cbn in *. subst. by constructor.
Qed.

Lemma agree_cel_row v : agree acts (response_cel_row_filter v).
Proof.
  intros [a1 j1] [a2 j2] [Ha Hj]. cbn [fst snd] in *. subst j2. unfold response_cel_row_filter.
  destruct (trimmed _) as [expression|]; [|exact (conj eq_refl (conj Ha eq_refl))]. cbn zeta.
  destruct (with_response_target_rel (λ x y : CelCache * result BoxError bool, x.2 = y.2 ∧ genuine2 x.1 y.1)
    j1 (apply_cel_row_filter (row_expression_base_context j1) expression
          ((v ≫= get "conditionSecurityProfile") ≫= as_str) a1)
       (apply_cel_row_filter (row_expression_base_context j1) expression
          ((v ≫= get "conditionSecurityProfile") ≫= as_str) a2))
    as [[c1 [r1 x1]] [c2 [r2 x2]] [E [Hx Hg]]|].
  - intros j. by apply agree_apply_cel.
  - cbn in *. subst. destruct x2; exact (conj eq_refl (conj Hg eq_refl)).
  - exact (conj eq_refl (conj Ha eq_refl)).
Qed.

Lemma agree_registry mappings ref plugin :
  default_action_registry mappings !! ref = Some plugin → ∀ v, agree acts (plugin v).
Proof.
  unfold default_action_registry, ActionRegistry. rewrite !lookup_insert_Some, lookup_empty.
  intros H v. repeat (destruct H as [[_ <-]|[_ H]];
    [auto using agree_role, agree_column, agree_row, agree_cel_row|]). done.
Qed.

(** ** The runtime *)

Section runtime.
Context (access : option AccessControlConfig) (rules : RuleConfig).
Context (Hids : ∀ id rule, rule_bodies rules !! id = Some rule → separated (rule_id rule)).
Abbreviation r := (AccessControlRuntime_new access rules).

Lemma agree_execute id rule : rule_bodies rules !! id = Some rule → agree runs (execute r rule).
Proof.
  intros Hrule%Hids. unfold execute, AccessControlRuntime_new. destruct (foldl _ _ _).
  apply agree_execute_rule; [|done]. apply agree_registry.
Qed.

Lemma agree_execute_rule_id id : agree runs (execute_rule_id r id).
Proof.
  intros s1 s2 Hs. unfold execute_rule_id. rewrite rt_rules_new.
  destruct (rule_bodies rules !! id) as [rule|] eqn:E; [|done].
  destruct (agree_execute _ _ E s1 s2 Hs) as [Hr Hs']. clear Hs. rename Hs' into Hs.
  destruct (execute r rule s1) as [t1 o1], (execute r rule s2) as [t2 o2]. cbn in *. by subst.
Qed.

Lemma agree_require_all ids : agree runs (require_all r ids).
Proof.
  induction ids as [|id ids IH]; intros s1 s2 Hs; cbn [require_all]; [done|].
  destruct (agree_execute_rule_id id s1 s2 Hs) as [Hr Hs']. clear Hs. rename Hs' into Hs.
  destruct (execute_rule_id r id s1) as [s1' b], (execute_rule_id r id s2) as [s2' b2].
  cbn in *. subst b2. destruct b; [by apply IH|done].
Qed.

Lemma agree_require_any ids : agree runs (require_any r ids).
Proof.
  induction ids as [|id ids IH]; intros s1 s2 Hs; cbn [require_any]; [done|].
  pose proof Hs as (_ & _ & Hj). destruct (agree_execute_rule_id id s1 s2 Hs) as [Hr Hs']. clear Hs. rename Hs' into Hs.
  destruct (execute_rule_id r id s1) as [s1' b], (execute_rule_id r id s2) as [s2' b2].
  cbn in *. subst b2. destruct b; [done|]. apply IH. destruct Hs as (Hc & Ha & _). by split_and!.
Qed.

Lemma agree_execute_rule_ids ids logic : agree runs (execute_rule_ids r ids logic).
Proof.
  unfold execute_rule_ids. destruct ids as [|id ids]; [by intros s1 s2|].
  destruct (request_rule_set_valid r (id :: ids)); [|by intros s1 s2]. cbn [negb].
  destruct (eq_ignore_ascii_case logic "all"); [apply agree_require_all|apply agree_require_any].
Qed.

Lemma agree_run_filters ids : agree runs (run_filters r ids).
Proof.
  induction ids as [|id ids IH]; intros s1 s2 Hs; cbn [run_filters]; [done|].
  rewrite rt_rules_new. destruct (rule_bodies rules !! id) as [rule|] eqn:E; [|done].
  destruct (agree_execute _ _ E s1 s2 Hs) as [Hr Hs']. clear Hs. rename Hs' into Hs.
  destruct (execute r rule s1) as [s1' b], (execute r rule s2) as [s2' b2].
  cbn in *. subst b2. destruct b as [[]|]; [by apply IH|done|done].
Qed.

(** ** Serving requests *)

Definition genuine_engines (e : Engines) : Prop := genuine (eg_cache e) ∧ genuine (eg_rows e).
Definition engines2 (e1 e2 : Engines) : Prop := genuine_engines e1 ∧ genuine_engines e2.

Lemma start_runs e1 e2 context : engines2 e1 e2 → runs (start e1 context) (start e2 context).
Proof. intros [[H1 H2] [H3 H4]]. exact (conj (conj H1 H3) (conj (conj H2 H4) eq_refl)). Qed.

Lemma runs_engines s1 s2 : runs s1 s2 → engines2 (engines_of s1) (engines_of s2).
Proof. intros ([H1 H3] & [H2 H4] & _). exact (conj (conj H1 H2) (conj H3 H4)). Qed.

Lemma agree_authorize_entry config tool endpoint headers auth arguments id :
  agree engines2 (authorize_entry r config tool endpoint headers auth arguments id).
Proof.
  intros e1 e2 He. unfold authorize_entry. destruct (find_service_entry r endpoint) as [[k m]|]; [|done].
  destruct (rule_ids_for m REQUEST_ACCESS) as [|i ids]; [done|]. cbn zeta.
  set (context := build_rule_context _ _ _ _ _ _ _).
  destruct (agree_execute_rule_ids (i :: ids) (ac_access_rule_logic config) _ _
              (start_runs e1 e2 context He)) as [Hr Hs].
  destruct (execute_rule_ids _ _ _ (start e1 _)) as [t1 o1], (execute_rule_ids _ _ _ (start e2 _)) as [t2 o2].
  cbn in *. subst. split; [done|]. by apply runs_engines.
Qed.

Lemma agree_authorize_http endpoint headers auth data id :
  agree engines2 (authorize_http_endpoint r endpoint headers auth data id).
Proof.
  unfold authorize_http_endpoint. intros e1 e2 He. destruct (active_config_for_endpoint r endpoint); [|done].
  by apply agree_authorize_entry.
Qed.

Lemma agree_authorize_tool tool endpoint headers auth arguments id :
  agree engines2 (authorize_tool r tool endpoint headers auth arguments id).
Proof.
  unfold authorize_tool. intros e1 e2 He. destruct (active_config_for_mcp_tool r tool endpoint); [|done].
  by apply agree_authorize_entry.
Qed.

Lemma agree_filter_http endpoint headers auth data id status body :
  agree engines2 (filter_http_response r endpoint headers auth data id status body).
Proof.
  intros e1 e2 He. unfold filter_http_response.
  destruct (active_config_for_endpoint r endpoint); [|done].
  destruct (find_service_entry r endpoint) as [[k m]|]; [|done].
  destruct (response_filter_rule_ids r m) as [|i ids]; [done|].
  destruct (is_empty body); [done|]. destruct (json_from_str body) as [j|]; [|done]. cbn zeta.
  set (context := with_response r _ _ _ _).
  destruct (agree_run_filters (i :: ids) _ _ (start_runs e1 e2 context He)) as [Hr Hs].
  destruct (run_filters _ _ (start e1 _)) as [t1 o1], (run_filters _ _ (start e2 _)) as [t2 o2].
  cbn [fst snd] in *. subst o2. split; [|by apply runs_engines]. by destruct Hs as (_ & _ & ->).
Qed.

Lemma agree_filter_mcp tool endpoint headers auth arguments id result :
  agree engines2 (filter_mcp_response r tool endpoint headers auth arguments id result).
Proof.
  intros e1 e2 He. unfold filter_mcp_response.
  destruct (active_config_for_mcp_tool r tool endpoint); [|done].
  destruct (find_service_entry r endpoint) as [[k m]|]; [|done].
  destruct (response_filter_rule_ids r m) as [|i ids]; [done|].
  destruct (FilterTarget_from_result result) as [target|]; [|done]. cbn zeta.
  set (context := with_response r _ _ _ _).
  destruct (agree_run_filters (i :: ids) _ _ (start_runs e1 e2 context He)) as [Hr Hs].
  destruct (run_filters _ _ (start e1 _)) as [t1 o1], (run_filters _ _ (start e2 _)) as [t2 o2].
  cbn [fst snd] in *. subst o2. split; [|by apply runs_engines]. by destruct Hs as (_ & _ & ->).
Qed.

(** The engines a gateway can have after serving requests. *)
Definition fresh : Engines := {| eg_cache := ∅; eg_rows := ∅ |}.
Inductive serves : relation Engines :=
| serves_http endpoint headers auth data id e :
    serves e (authorize_http_endpoint r endpoint headers auth data id e).1
| serves_tool tool endpoint headers auth arguments id e :
    serves e (authorize_tool r tool endpoint headers auth arguments id e).1
| serves_http_response endpoint headers auth data id status body e :
    serves e (filter_http_response r endpoint headers auth data id status body e).1
| serves_mcp_response tool endpoint headers auth arguments id result e :
    serves e (filter_mcp_response r tool endpoint headers auth arguments id result e).1.

Lemma agree_genuine {Y} (m : Engines → Engines * Y) e :
  agree engines2 m → genuine_engines e → genuine_engines (m e).1.
Proof. intros Hm He. by destruct (Hm e e (conj He He)) as [_ [? _]]. Qed.

Lemma served_genuine e : rtc serves fresh e → genuine_engines e.
Proof.
  apply rtc_invariant; [|split; apply genuine_empty].
  intros e1 e2 H1 H2. destruct H2;
    (apply agree_genuine; [|done]); auto using agree_authorize_http, agree_authorize_tool,
      agree_filter_http, agree_filter_mcp.
Qed.

(** Whatever requests a gateway has served, it decides every request and filters every
    response as an engine that has compiled nothing, when no rule identifier contains a
    colon.  The compile cache of the engine and that of the row filter do not show. *)
Theorem decisions_ignore_history e :
  rtc serves fresh e →
  (∀ endpoint headers auth data id,
     (authorize_http_endpoint r endpoint headers auth data id e).2
     = (authorize_http_endpoint r endpoint headers auth data id fresh).2)
  ∧ (∀ tool endpoint headers auth arguments id,
       (authorize_tool r tool endpoint headers auth arguments id e).2
       = (authorize_tool r tool endpoint headers auth arguments id fresh).2)
  ∧ (∀ endpoint headers auth data id status body,
       (filter_http_response r endpoint headers auth data id status body e).2
       = (filter_http_response r endpoint headers auth data id status body fresh).2)
  ∧ (∀ tool endpoint headers auth arguments id result,
       (filter_mcp_response r tool endpoint headers auth arguments id result e).2
       = (filter_mcp_response r tool endpoint headers auth arguments id result fresh).2).
Proof.
  intros He%served_genuine. assert (engines2 e fresh) as H2 by (by split; [|split; apply genuine_empty]).
  split_and!; intros.
  - by apply agree_authorize_http.
  - by apply agree_authorize_tool.
  - by apply agree_filter_http.
  - by apply agree_filter_mcp.
Qed.
End runtime.
End history.
