(* ===== verification/AccessFilterFacts.v ===== *)
(** * Access control: filtered responses

    Theorems on the row and column filters of [AccessControl]: a filtered body is a
    restriction of the body of the response, whatever rules are configured, filters fail
    closed, and row filters run before column filters. *)

From S2P Require Import Prelude RustStr GatewayCore JsonTree RuleEngine AccessControl AccessControlFacts.
From Stdlib Require Import Ascii.

(** ** Restrictions of a document *)

(** [restricts new old]: [new] is [old] without some elements of arrays and members of
    objects, at any depth. *)
Inductive restricts : Json → Json → Prop :=
| restricts_refl j : restricts j j
| restricts_array new kept old :
    sublist kept old → Forall2 restricts new kept → restricts (JArray new) (JArray old)
| restricts_object new kept old :
    sublist kept old → Forall2 (λ a b, a.1 = b.1 ∧ restricts a.2 b.2) new kept →
    restricts (JObject new) (JObject old).

Lemma sublist_Forall {A} (P : A → Prop) (l k : list A) : sublist l k → Forall P k → Forall P l.
Proof. induction 1; intros; decompose_Forall_hyps; auto. Qed.

Lemma sublist_Forall2 {A} (R : A → A → Prop) (l k : list A) (m : list A) :
  sublist l k → Forall2 R k m → ∃ m', sublist m' m ∧ Forall2 R l m'.
Proof.
  intros Hl. revert m. induction Hl as [|x l k _ IH|x l k _ IH]; intros m Hm.
  - apply Forall2_nil_inv_l in Hm as ->. by exists [].
  - apply Forall2_cons_inv_l in Hm as (y & m' & Hy & Hm & ->).
    destruct (IH m' Hm) as (m'' & ? & ?). exists (y :: m''). split; [by constructor|by constructor].
  - apply Forall2_cons_inv_l in Hm as (y & m' & Hy & Hm & ->).
    destruct (IH m' Hm) as (m'' & ? & ?). exists m''. split; [by constructor|done].
Qed.

#[global] Instance restricts_preorder : PreOrder restricts.
Proof.
  split; [exact restricts_refl|].
  intros x y z Hxy Hyz. revert x z Hxy Hyz.
  induction y as [| | | |l IH|m IH] using Json_tree_ind; intros x z Hxy Hyz;
    try (inversion Hxy; subst; assumption).
  - inversion Hxy as [|new kept ? Hsub Hnew|]; subst; [done|].
    inversion Hyz as [|? kept2 old Hsub2 Hl|]; subst; [done|].
    destruct (sublist_Forall2 _ _ _ _ Hsub Hl) as (kept' & Hsub' & Hkept').
    eapply restricts_array; [by etransitivity|].
    eapply (Forall2_trans_at (λ y, ∀ x z, restricts x y → restricts y z → restricts x z)); [|..|done|done].
    + intros a b c Hb. apply Hb.
    + by eapply sublist_Forall.
  - inversion Hxy as [| |new kept ? Hsub Hnew]; subst; [done|].
    inversion Hyz as [| |? kept2 old Hsub2 Hl]; subst; [done|].
    destruct (sublist_Forall2 _ _ _ _ Hsub Hl) as (kept' & Hsub' & Hkept').
    eapply restricts_object; [by etransitivity|].
    eapply (Forall2_trans_at (λ y, ∀ x z, restricts x y.2 → restricts y.2 z → restricts x z)); [|..|done|done].
    + intros a b c Hb [-> ?] [-> ?]. split; [done|]. by eapply Hb.
    + by eapply sublist_Forall.
Qed.

Lemma Forall2_refl_restricts m : Forall2 (λ a b : string * Json, a.1 = b.1 ∧ restricts a.2 b.2) m m.
Proof. induction m; constructor; [by split|done]. Qed.

Lemma restricts_replace k v v' m :
  member k m = Some v → restricts v' v → restricts (JObject (obj_replace k v' m)) (JObject m).
Proof.
  intros Hk Hv. apply (restricts_object _ m); [done|].
  induction m as [|[k0 v0] m IH]; [done|]. cbn in *. case_decide as E.
  - simplify_eq. constructor; [done|]. apply Forall2_refl_restricts.
  - constructor; [by split|]. by apply IH.
Qed.

Lemma restricts_filter_members (f : list (string * Json)) m :
  sublist f m → restricts (JObject f) (JObject m).
Proof. intros H. apply (restricts_object _ f); [done|]. apply Forall2_refl_restricts. Qed.

Lemma restricts_index i v v' l :
  l !! i = Some v → restricts v' v → restricts (JArray (<[i := v']> l)) (JArray l).
Proof.
  intros Hi Hv. apply (restricts_array _ l); [done|].
  apply Forall2_same_length_lookup_2; [by rewrite length_insert|].
  intros j x y Hx Hy. destruct (decide (i = j)) as [->|Hne].
  - rewrite list_lookup_insert_eq in Hx by (by eapply lookup_lt_Some). by simplify_eq.
  - rewrite list_lookup_insert_ne in Hx by done. by simplify_eq.
Qed.

Lemma filter_sublist_bool {A} (f : A → bool) l : sublist (List.filter f l) l.
Proof. induction l as [|x l IH]; cbn; [done|]. destruct (f x); by constructor. Qed.

(** A change that restricts the target restricts the document. *)
Lemma pointer_update_restricts {X} (Q : X → Prop) tokens (f : Json → Json * X) j j' x :
  (∀ j, Q (f j).2 → restricts (f j).1 j) → pointer_update tokens f j = Some (j', x) → Q x →
  restricts j' j.
Proof.
  intros Hf. revert j j'. induction tokens as [|t tokens IH]; intros j j'; cbn [pointer_update].
  { intros [= E] Hx. specialize (Hf j). rewrite E in Hf. by apply Hf. }
  intros H Hx. destruct j as [| | | |l|m]; try done.
  - destruct (parse_index t) as [i|]; [|done]. cbn in H. destruct (l !! i) as [v|] eqn:E; [|done].
    cbn in H. destruct (pointer_update tokens f v) as [[v' x']|] eqn:Ev; [|done].
    injection H as <- <-. eapply restricts_index; [done|]. by eapply IH.
  - destruct (member t m) as [v|] eqn:E; [|done]. cbn in H.
    destruct (pointer_update tokens f v) as [[v' x']|] eqn:Ev; [|done].
    injection H as <- <-. eapply restricts_replace; [done|]. by eapply IH.
Qed.

(** A context whose response body restricts that of another one. *)
Definition body_restricts (context' context : Json) : Prop :=
  ∀ body', get RESPONSE_BODY_JSON context' = Some body' →
  ∃ body, get RESPONSE_BODY_JSON context = Some body ∧ restricts body' body.

#[global] Instance body_restricts_preorder : PreOrder body_restricts.
Proof.
  split; [by intros c body H; exists body|]. intros a b c Hab Hbc body H.
  apply Hab in H as (body1 & H1 & ?). apply Hbc in H1 as (body2 & H2 & ?). exists body2.
  split; [done|]. by etransitivity.
Qed.

Lemma with_response_target_restricts {X} (Q : X → Prop) context (f : Json → Json * X) context' x :
  (∀ j, Q (f j).2 → restricts (f j).1 j) → with_response_target context f = Some (context', x) → Q x →
  body_restricts context' context.
Proof.
  intros Hf H Hx. unfold with_response_target in H. case_match; [done|].
  destruct context as [| | | | |m]; try done. cbn [as_object mbind option_bind] in H.
  destruct (member RESPONSE_BODY_JSON m) as [body|] eqn:E; [|done]. cbn in H.
  destruct (pointer_tokens _) as [tokens|]; [|done]. cbn in H.
  destruct (pointer_update tokens f body) as [[body' x']|] eqn:Eu; [|done]. injection H as <- <-.
  intros b Hb. cbn [get] in *. rewrite member_obj_replace, decide_True, E in Hb by done.
  injection Hb as <-. exists body. split; [done|]. by eapply pointer_update_restricts.
Qed.

Lemma mark_denied_restricts context : body_restricts (mark_response_row_filter_denied context) context.
Proof.
  unfold mark_response_row_filter_denied. destruct context as [| | | | |m]; try done.
  destruct (member "accessControl" m) as [[]|]; try done. intros body Hb. cbn [get] in *.
  rewrite member_obj_replace, decide_False in Hb by done. by exists body.
Qed.

(** ** Rows and columns *)

Section filters.
Context `{codec : JsonCodec} `{uni : UnicodeCase} `{cel : CelInterpreter}.

Lemma row_filter_items_restricts body items rebuild items' :
  row_filter_items body = Some (items, rebuild) → restricts (JArray items') (JArray items) →
  restricts (rebuild items') body.
Proof.
  intros H Hr. destruct body as [| | | |l|m]; try done; cbn [row_filter_items] in H.
  - by simplify_eq.
  - destruct (member "items" m) as [v|] eqn:E; [|done]. cbn in H.
    destruct v as [| | | |l|]; try done. cbn in H. injection H as <- <-. by eapply restricts_replace.
Qed.

Lemma restricts_rows (keep : Json → bool) items :
  restricts (JArray (List.filter keep items)) (JArray items).
Proof.
  apply (restricts_array _ (List.filter keep items)); [apply filter_sublist_bool|].
  by apply Forall_Forall2_diag, Forall_true.
Qed.

Lemma apply_row_filter_groups_restricts body groups include :
  restricts (apply_row_filter_groups body groups include).1 body.
Proof.
  unfold apply_row_filter_groups. destruct (row_filter_items body) as [[items rebuild]|] eqn:E.
  - eapply row_filter_items_restricts; [done|]. apply restricts_rows.
  - case_match eqn:Ek; [|done]. destruct body; try done. cbn. apply restricts_filter_members.
    apply sublist_nil_l.
Qed.

Lemma apply_column_specs_sublist specs m : sublist (apply_column_specs_to_object m specs) m.
Proof.
  unfold apply_column_specs_to_object. revert m.
  induction specs as [|[remove fields] specs IH]; intros m; cbn [foldl]; [done|].
  etransitivity; [apply IH|]. destruct remove; [|apply sublist_filter].
  revert m. induction fields as [|f fields IHf]; intros m; cbn [foldl]; [done|].
  etransitivity; [apply IHf|]. apply sublist_filter.
Qed.

Lemma apply_column_filter_specs_restricts body specs :
  restricts (apply_column_filter_specs body specs).1 body.
Proof.
  unfold apply_column_filter_specs. destruct (row_filter_items body) as [[items rebuild]|] eqn:E.
  - case_match; [done|]. eapply row_filter_items_restricts; [done|].
    apply (restricts_array _ items); [done|]. apply Forall2_fmap_l, Forall_Forall2_diag, Forall_true.
    intros [| | | | |m]; cbn [apply_specs_to_item]; try apply restricts_refl. apply restricts_filter_members, apply_column_specs_sublist.
  - destruct body; try apply restricts_refl. apply restricts_filter_members, apply_column_specs_sublist.
Qed.

Lemma retain_rows id expression profile type base items cache cache' items' :
  retain_cel_predicate_rows id expression profile type base items cache = (cache', Ok items') →
  ∃ keep, items' = List.filter keep items.
Proof.
  unfold retain_cel_predicate_rows, mbind, St_bind.
  destruct (prepare _ _ _ _ _ _) as [c [[program cx]|]]; [|done]. intros [= <- <-]. by eexists.
Qed.

Lemma apply_cel_row_filter_restricts base expression profile rows body :
  is_ok (apply_cel_row_filter base expression profile rows body).2.2 = true →
  restricts (apply_cel_row_filter base expression profile rows body).1 body.
Proof.
  unfold apply_cel_row_filter. destruct (row_filter_items body) as [[items rebuild]|] eqn:E.
  - destruct (retain_cel_predicate_rows _ _ _ _ _ _ _) as [c [items'|]] eqn:Er; [|done]. intros _.
    apply retain_rows in Er as [keep ->]. eapply row_filter_items_restricts; [done|]. apply restricts_rows.
  - destruct (is_object body) eqn:Eo; [|done]. cbn [negb].
    destruct (retain_cel_predicate_rows _ _ _ _ _ _ _) as [c [items'|]] eqn:Er; [|done]. intros _.
    apply retain_rows in Er as [keep ->]. cbn. destruct (keep body); [done|].
    destruct body; try done. apply restricts_filter_members, sublist_nil_l.
Qed.

(** ** Actions *)

(** An action that passes leaves a restriction of the body. *)
Definition restricting (plugin : Plugin) : Prop :=
  ∀ v a context a' context',
    plugin v (a, context) = ((a', context'), Ok true) → body_restricts context' context.

Lemma role_restricting mappings : restricting (role_based_access_control mappings).
Proof. intros v a c a' c'. unfold role_based_access_control. by intros [= <- <- _]. Qed.

Lemma column_restricting mappings : restricting (response_column_filter mappings).
Proof.
  intros v a c a' c'. unfold response_column_filter. destruct (get "col" c); [|done].
  destruct (with_response_target _ _) as [[c1 done_]|] eqn:E; [|done]. intros [= <- <- _].
  eapply (with_response_target_restricts (λ _, True)); [|done|done].
  intros body _. apply apply_column_filter_specs_restricts.
Qed.

Lemma row_restricting mappings : restricting (response_row_filter mappings).
Proof.
  intros v a c a' c'. unfold response_row_filter. destruct (get "row" c); [|by intros [= <- <-]].
  destruct (with_response_target _ _) as [[c1 [denied|]]|] eqn:E; [|done|done].
  intros [= <- <-]. etransitivity; [|eapply (with_response_target_restricts (λ _, True)); [|done|done]].
  - destruct denied; [apply mark_denied_restricts|done].
  - intros body _. cbn beta. destruct (row_filter_root_supported body); [|apply restricts_refl]. cbn [negb].
    match goal with |- context [apply_row_filter_groups body ?g ?i] =>
      pose proof (apply_row_filter_groups_restricts body g i) as H;
      destruct (apply_row_filter_groups body g i) end.
    exact H.
Qed.

Lemma cel_row_restricting : restricting response_cel_row_filter.
Proof.
  intros v a c a' c'. unfold response_cel_row_filter. destruct (trimmed _) as [expression|]; [|done]. cbn zeta.
  destruct (with_response_target _ _) as [[c1 [rows [denied|]]]|] eqn:E; [|done|done].
  intros [= <- <-].
  etransitivity; [|eapply (with_response_target_restricts (λ x, is_ok x.2 = true)); [|done|done]].
  - destruct denied; [apply mark_denied_restricts|done].
  - intros body. apply apply_cel_row_filter_restricts.
Qed.

Lemma registry_restricting mappings ref plugin :
  default_action_registry mappings !! ref = Some plugin → restricting plugin.
Proof.
  unfold default_action_registry, ActionRegistry. rewrite !lookup_insert_Some, lookup_empty.
  intros H. repeat (destruct H as [[_ <-]|[_ H]];
    [auto using role_restricting, column_restricting, row_restricting, cel_row_restricting|]). done.
Qed.

(** ** Rules and responses *)

Lemma conditions_context rule (s : Running) :
  rn_context (conditions_passed (A := CelCache) rule s).1 = rn_context s.
Proof.
  assert (∀ s : Running, rn_context ((context ← get_context (A := CelCache);
            on_cache (evaluate_cel_expression rule context)) s).1 = rn_context s) as He.
  { intros s0. unfold mbind, St_bind, get_context, on_cache.
    by destruct (evaluate_cel_expression rule (rn_context s0) (rn_cache s0)). }
  unfold conditions_passed. destruct (to_lowercase <$> _); repeat case_match; done.
Qed.

Section registry.
Context (registry : ActionRegistry (A := CelCache)).
Context (Hregistry : ∀ ref plugin, registry !! ref = Some plugin → restricting plugin).

Lemma actions_restrict actions s s' :
  execute_actions registry actions s = (s', Ok true) → body_restricts (rn_context s') (rn_context s).
Proof.
  revert s. induction actions as [|action actions IH]; intros s; cbn [execute_actions].
  { by intros [= <-]. }
  destruct (registry !! ac_action_ref action) as [plugin|] eqn:E; [|done].
  unfold mbind, St_bind, on_actions.
  destruct (plugin (ac_action_values action) (rn_actions s, rn_context s)) as [[a j] [[]|]] eqn:Ep; [|done|done].
  intros H%IH. etransitivity; [exact H|]. by eapply Hregistry.
Qed.

Lemma rule_restricts rule s s' :
  execute_rule registry rule s = (s', Ok true) → body_restricts (rn_context s') (rn_context s).
Proof.
  unfold execute_rule, mbind, St_bind. pose proof (conditions_context rule s) as Hc.
  destruct (conditions_passed rule s) as [s1 [[]|]]; [|done|done]. cbn in *.
  destruct (rule_actions rule) as [actions|].
  - intros H%actions_restrict. by rewrite <- Hc.
  - intros [= <-]. by rewrite Hc.
Qed.
End registry.

Section responses.
Context (access : option AccessControlConfig) (rules : RuleConfig).
Abbreviation r := (AccessControlRuntime_new access rules).

Lemma execute_restricts rule s s' :
  execute r rule s = (s', Ok true) → body_restricts (rn_context s') (rn_context s).
Proof.
  unfold execute, AccessControlRuntime_new. destruct (foldl _ _ _).
  apply rule_restricts, registry_restricting.
Qed.

(** The rules all exist and pass, each on the state its predecessors left. *)
Inductive passes : list string → Running → Running → Prop :=
| passes_nil s : passes [] s s
| passes_cons id rule ids s1 s2 s3 :
    rule_bodies rules !! id = Some rule → execute r rule s1 = (s2, Ok true) →
    passes ids s2 s3 → passes (id :: ids) s1 s3.

Lemma passes_restricts ids s s' : passes ids s s' → body_restricts (rn_context s') (rn_context s).
Proof.
  induction 1 as [s|id rule ids s1 s2 s3 _ Hex _ IH]; [done|].
  etransitivity; [exact IH|]. by eapply execute_restricts.
Qed.

Lemma run_filters_passes ids s s' : run_filters r ids s = (s', Ok ()) → passes ids s s'.
Proof.
  revert s. induction ids as [|id ids IH]; intros s; cbn [run_filters].
  { intros [= <-]. constructor. }
  rewrite rt_rules_new. destruct (rule_bodies rules !! id) as [rule|] eqn:E; [|done].
  destruct (execute r rule s) as [s1 [[]|]] eqn:Ex; [|done|done].
  intros H%IH. by econstructor.
Qed.

Lemma with_response_body context text body status body' :
  get RESPONSE_BODY_JSON (with_response r context text body status) = Some body' →
  is_object context = true → body' = body.
Proof.
  destruct context as [| | | | |m]; try done. cbn [with_response get].
  unfold insert_access_control_context. rewrite !member_obj_insert.
  rewrite decide_False, decide_False, decide_True by done. by intros [= ->].
Qed.

(** C9 Whatever rules are configured, a response filter only removes: it leaves a response
    alone only when no filter is configured for it, and otherwise it returns an error or a
    document obtained from the body by dropping elements of arrays and members of objects.
    That document is the one the configured filter rules leave, all of which exist and
    pass, in their order, starting from the body. *)
Theorem http_response_restricted endpoint headers auth data id status body e :
  match (filter_http_response r endpoint headers auth data id status body e).2 with
  | Ok None => has_response_filter r endpoint = false
  | Ok (Some text) =>
      has_response_filter r endpoint = true ∧
      (body = "" ∧ text = "" ∨
       ∃ k m j j' context s, find_service_entry r endpoint = Some (k, m)
         ∧ json_from_str body = Ok j ∧ get RESPONSE_BODY_JSON context = Some j
         ∧ passes (response_filter_rule_ids r m) (start e context) s
         ∧ get RESPONSE_BODY_JSON (rn_context s) = Some j'
         ∧ text = json_to_string j' ∧ restricts j' j)
  | Err _ => has_response_filter r endpoint = true
  end.
Proof.
  unfold filter_http_response, has_response_filter.
  destruct (active_config_for_endpoint r endpoint); [|done].
  destruct (find_service_entry r endpoint) as [[k m]|]; [|done].
  destruct (response_filter_rule_ids r m) as [|i ids] eqn:Eids; [done|].
  destruct (is_empty body) eqn:Eb; [split; [done|]; left; by apply is_empty_true in Eb|].
  destruct (json_from_str body) as [j|] eqn:Ej; [|done]. cbn zeta.
  set (context := with_response r _ _ _ _).
  destruct (run_filters r (i :: ids) (start e context)) as [s [[]|]] eqn:Er; [|done]. cbn.
  destruct (get RESPONSE_BODY_JSON (rn_context s)) as [j'|] eqn:Ej'; [|done]. cbn.
  split; [done|]. right. apply run_filters_passes in Er.
  destruct (passes_restricts _ _ _ Er j' Ej') as (j0 & Hj0 & Hrestr).
  pose proof (with_response_body _ _ _ _ _ Hj0 eq_refl) as ->.
  exists k, m, j, j', context, s. by rewrite Eids.
Qed.

(** The filter rules that apply to the result of a tool. *)
Definition mcp_filters (tool endpoint : string) : list string :=
  match active_config_for_mcp_tool r tool endpoint, find_service_entry r endpoint with
  | Some _, Some (_, m) => response_filter_rule_ids r m
  | _, _ => []
  end.

(** The filter of a tool result leaves it alone only when no filter is configured.
    Otherwise the result is a constant error, or the payload of the result is replaced by a
    document obtained from it by dropping elements of arrays and members of objects. *)
Theorem mcp_response_restricted tool endpoint headers auth arguments id result e :
  let out := (filter_mcp_response r tool endpoint headers auth arguments id result e).2 in
  mcp_filters tool endpoint = [] ∧ out = result
  ∨ mcp_filters tool endpoint ≠ [] ∧
    (out = mcp_filter_error_result FILTER_FAILED
     ∨ out = mcp_filter_error_result "Access denied by response filter"
     ∨ ∃ target j, FilterTarget_from_result result = Some target ∧ restricts j (ft_body target)
         ∧ out = FilterTarget_apply target result j).
Proof.
  cbn zeta. unfold filter_mcp_response, mcp_filters.
  destruct (active_config_for_mcp_tool r tool endpoint); [|by left].
  destruct (find_service_entry r endpoint) as [[k m]|]; [|by left].
  destruct (response_filter_rule_ids r m) as [|i ids] eqn:Eids; [by left|]. right. split; [done|].
  destruct (FilterTarget_from_result result) as [target|]; [|by left]. cbn zeta.
  set (context := with_response r _ _ _ _).
  destruct (run_filters r (i :: ids) (start e context)) as [s [[]|]] eqn:Er; [|by left]. cbn [snd].
  destruct (response_row_filter_denied (rn_context s)); [by right; left|].
  destruct (get RESPONSE_BODY_JSON (rn_context s)) as [j'|] eqn:Ej'; [|by left].
  right. right. apply run_filters_passes, passes_restricts in Er.
  apply Er in Ej' as (j0 & Hj0 & Hrestr). apply with_response_body in Hj0 as ->; [|done].
  by exists target, j'.
Qed.

(** ** The order of filters *)

Lemma priority_total x y :
  (response_filter_priority r x <=? response_filter_priority r y)%N = true
  ∨ (response_filter_priority r y <=? response_filter_priority r x)%N = true.
Proof. rewrite !N.leb_le. lia. Qed.
Lemma priority_trans x y z :
  (response_filter_priority r x <=? response_filter_priority r y)%N = true →
  (response_filter_priority r y <=? response_filter_priority r z)%N = true →
  (response_filter_priority r x <=? response_filter_priority r z)%N = true.
Proof. rewrite !N.leb_le. lia. Qed.

Lemma sorted_lookup {A} (R : A → A → Prop) l i j x y :
  StronglySorted R l → (i < j)%nat → l !! i = Some x → l !! j = Some y → R x y.
Proof.
  intros Hs. revert i j. induction Hs as [|a l _ IH Ha]; intros i j Hij Hi Hj; [done|].
  destruct j as [|j]; [lia|]. destruct i as [|i]; cbn in *.
  - simplify_eq. rewrite Forall_forall in Ha. eapply Ha, list_elem_of_lookup_2, Hj.
  - eapply (IH i j); [lia|done..].
Qed.

Definition has_action (f : string → bool) (id : string) : Prop :=
  ∃ rule actions, rule_bodies rules !! id = Some rule ∧ rule_actions rule = Some actions
    ∧ existsb (λ a, f (ac_action_ref a)) actions = true.

(** The filters of an endpoint run in an order in which no rule without a row filter
    comes before a rule with one, so columns are removed only after the rows that need them
    have been selected; no rule is lost or repeated, and rules of one kind keep the order
    of the configuration. *)
Theorem row_filters_first m i j x y :
  response_filter_rule_ids r m ≡ₚ rule_ids_for m RESPONSE_FILTER
  ∧ (∀ p, List.filter (λ a, response_filter_priority r a =? p)%N (response_filter_rule_ids r m)
          = List.filter (λ a, response_filter_priority r a =? p)%N (rule_ids_for m RESPONSE_FILTER))
  ∧ (response_filter_rule_ids r m !! i = Some x → response_filter_rule_ids r m !! j = Some y →
     has_action is_row_filter_action y → ¬ has_action is_row_filter_action x → j < i)%nat.
Proof.
  unfold response_filter_rule_ids. split_and!.
  - apply stable_sort_perm.
  - intros p. apply stable_sort_stable. intros a b Ha%N.eqb_eq Hb%N.eqb_eq. apply N.leb_le. lia.
  - intros Hi Hj Hy Hx.
    pose proof (stable_sort_sorted _ priority_total priority_trans (rule_ids_for m RESPONSE_FILTER)) as Hs.
    assert (response_filter_priority r y = 0)%N as Ey.
    { unfold response_filter_priority. rewrite rt_rules_new. destruct Hy as (rule & actions & -> & -> & ->). done. }
    assert (0 < response_filter_priority r x)%N as Ex.
    { unfold response_filter_priority. rewrite rt_rules_new.
      destruct (rule_bodies rules !! x) as [rule|] eqn:E1; [|lia].
      destruct (rule_actions rule) as [actions|] eqn:E2; [|lia].
      destruct (existsb (λ a, is_row_filter_action (ac_action_ref a)) actions) eqn:E3;
        [destruct Hx; by exists rule, actions|]. case_match; lia. }
    destruct (lt_eq_lt_dec i j) as [[Hlt|Heq]|]; [| |done].
    + eapply sorted_lookup in Hs; [|exact Hlt|exact Hi|exact Hj]. apply N.leb_le in Hs. lia.
    + subst. simplify_eq. lia.
Qed.
End responses.
End filters.
