(* ===== verification/AccessExamples.v ===== *)
(** * Access control: concrete runs

    Instances of the classes [RuleEngine] and [AccessControl] are parametrized by, the
    witnesses of their theorems, and runs that show behaviour the theorems exclude or do
    not cover. *)

From S2P Require Import Prelude RustStr GatewayCore JsonTree HttpPath RuleEngine AccessControl AccessControlFacts AccessHistoryFacts AccessFilterFacts.
From Stdlib Require Import Ascii.

Module AccessInstance.

#[global] Instance lowercase : UnicodeCase := to_ascii_lowercase.

(** An interpreter of three expressions: a constant, and the presence of a variable. *)
Definition run (p : string) (cx : CelContext) : CelRun :=
  if bool_decide (p = "true") then Returned (CelBool true) else
  if bool_decide (p = "false") then Returned (CelBool false) else
  match strip_prefix "has " p with
  | Some name => Returned (CelBool (bool_decide (is_Some (cx_variables cx !! name))))
  | None => Failed "no such expression"
  end.
#[global] Instance interpreter : CelInterpreter := {|
  CelProgram := string;
  program_compile := λ e, if is_empty e then Err "empty" else Ok e;
  program_has_variable := λ p name, bool_decide (p = "has " +:+ name);
  program_has_function := λ _ _, false;
  program_execute := run;
  value_from_json := λ _, Ok ();
  value_debug := λ _, "value";
|}.

Definition row (id owner : string) : Json :=
  JObject [("id", JString id); ("owner", JString owner); ("secret", JString "s")].
Definition document : Json := JArray [row "1" "ann"; row "2" "bob"].

(** A printer, and a parser of a few printed documents. *)
Fixpoint show (j : Json) : string :=
  match j with
  | JNull => "null"
  | JBool b => bool_to_string b
  | JNumber (PosInt n) => dec n
  | JNumber (NegInt z) => "-" +:+ dec (Z.abs_N z)
  | JNumber (Float bits) => "f" +:+ dec bits
  | JString s => "'" +:+ s +:+ "'"
  | JArray l => "[" +:+ join "," (show <$> l) +:+ "]"
  | JObject m => "{" +:+ join "," ((λ '(k, v), "'" +:+ k +:+ "':" +:+ show v) <$> m) +:+ "}"
  end.
#[global] Instance codec : JsonCodec := {|
  json_to_string := show;
  json_from_str := λ s, ok_or "no such document" (List.find (λ j, bool_decide (show j = s)) [document]);
  float_to_string := λ bits, "f" +:+ dec bits;
|}.

Definition rule (id type expression : string) (actions : list string) : Rule :=
  {| rule_id := id; rule_name := id; rule_type := type; rule_common := "N"; host_id := None;
     rule_desc := None; rule_version := None; rule_author := None; rule_updated_at := None;
     condition_language := Some "cel"; condition_security_profile := None;
     access_control_effect := None; rule_expression := Some expression; rule_conditions := None;
     rule_actions := Some ((λ a, {| ac_action_id := None; ac_action_desc := None;
                                    ac_action_ref := a; ac_action_values := None |}) <$> actions) |}.

(** Callers with the role of a row and column configuration see their own rows without the
    secret. *)
Definition api_policy : EndpointConfig :=
  <["req-acc" := JArray [JString "has-claims"]]>
  (<["res-fil" := JArray [JString "columns"; JString "rows"]]>
  (<["permission" := JObject
      [("col", JObject [("role", JObject [("user", JString "!secret")])]);
       ("row", JObject [("role", JObject [("user",
          JArray [JObject [("colName", JString "owner"); ("colValue", JString "@uid")]])])])]]> ∅)).

Definition rules : RuleConfig :=
  {| rule_bodies :=
       <["has-claims" := rule "has-claims" "req-acc" "has auditInfo" []]>
       (<["columns" := rule "columns" "res-fil" "true" ["ResponseColumnFilterAction"]]>
       (<["rows" := rule "rows" "res-fil" "true" ["ResponseRowFilterAction"]]> ∅));
     endpoint_rules := <["/api/{id}@get" := api_policy]> (<["/api@get" := ∅]> ∅) |}.
Definition access : option AccessControlConfig := Some AccessControlConfig_default.
Definition runtime : AccessControlRuntime := AccessControlRuntime_new access rules.

Definition ann : option Principal :=
  Some {| au_client_id := None; au_user_id := Some "ann"; au_issuer := None; au_email := None;
          au_host := None; au_role := Some "user"; au_claims := JObject [] |}.

(** ** Witnesses *)

Lemma policy_selection_exact_witness :
  is_Some (active_config_for_endpoint runtime (endpoint_of "/api/7" "GET"))
  ∧ resolve_http_policy runtime "/api/7/?q=1" "GET" = Ok "/api/{id}@get"
  ∧ governs rules "/api/7" "GET" "/api/{id}@get".
Proof.
  assert (is_Some (active_config_for_endpoint runtime (endpoint_of "/api/7" "GET"))) as Ha
    by (eexists; vm_compute; reflexivity).
  assert (resolve_http_policy runtime "/api/7/?q=1" "GET" = Ok "/api/{id}@get") as Hr
    by (vm_compute; reflexivity).
  split_and!; [exact Ha|exact Hr|].
  pose proof (policy_selection_exact access rules "/api/7/?q=1" "GET" "/api/{id}@get") as H.
  assert (canonical_http_path (without_query "/api/7/?q=1") = Ok "/api/7") as E
    by (vm_compute; reflexivity).
  rewrite E in H. apply H; assumption.
Defined.

Lemma rules_are_paths k : is_Some (endpoint_rules rules !! k) → starts_with k "/" = true.
Proof.
  cbn [endpoint_rules rules]. intros [v [[<- _]|[_ [[<- _]|[_ H]]%lookup_insert_Some]]%lookup_insert_Some];
    [reflexivity|reflexivity|by rewrite lookup_empty in H].
Qed.

Lemma http_access_governed_witness :
  ∃ m, endpoint_rules rules !! "/api/{id}@get" = Some m ∧ rule_ids_for m REQUEST_ACCESS ≠ [].
Proof.
  destruct (http_access_governed access rules rules_are_paths AccessControlConfig_default
              "/api/7/?q=1" "/api/7" "GET" "/api/{id}@get" [] ann JNull None fresh
              (authorize_http_endpoint runtime "/api/{id}@get" [] ann JNull None fresh).1)
    as [H|(_ & m & Hm & Hids & _)]; [vm_compute; reflexivity..| | |].
  - rewrite (surjective_pairing (authorize_http_endpoint _ _ _ _ _ _ _)). f_equal.
  - vm_compute in H. discriminate H.
  - exists m. split; assumption.
Defined.

Lemma rules_separated id r : rule_bodies rules !! id = Some r → separated (rule_id r).
Proof.
  cbn [rule_bodies rules].
  intros [[_ <-]|[_ [[_ <-]|[_ [[_ <-]|[_ H]]%lookup_insert_Some]]%lookup_insert_Some]]%lookup_insert_Some;
    [reflexivity..|by rewrite lookup_empty in H].
Qed.

Lemma decisions_ignore_history_witness :
  (authorize_http_endpoint runtime "/api/{id}@get" [] ann JNull None
     (filter_http_response runtime "/api/{id}@get" [] ann JNull None 200 (show document) fresh).1).2
  = Allowed.
Proof.
  transitivity (authorize_http_endpoint runtime "/api/{id}@get" [] ann JNull None fresh).2;
    [|vm_compute; reflexivity].
  apply (proj1 (decisions_ignore_history access rules rules_separated _
                   (rtc_once _ _ (serves_http_response access rules _ _ _ _ _ _ _ _)))).
Defined.

(** ** Runs *)

(** A caller gets their own rows without the secret; an unknown path is denied. *)
Example filtered_rows :
  (filter_http_response runtime "/api/{id}@get" [] ann JNull None 200 (show document) fresh).2
    = Ok (Some (show (JArray [JObject [("id", JString "1"); ("owner", JString "ann")]])))
  ∧ (authorize_http_endpoint runtime "/other@get" [] ann JNull None fresh).2
    = Denied "Access denied: no access control rule defined for /other@get".
Proof. split; vm_compute; reflexivity. Qed.

(** A key without a leading slash is not among the candidates of the resolver, but it is
    found when the resolver has selected none: the key [@get] then governs every path. *)
Definition slashless : AccessControlRuntime :=
  AccessControlRuntime_new access
    {| rule_bodies := rule_bodies rules; endpoint_rules := <["@get" := api_policy]> ∅ |}.
Example slashless_key_matches :
  resolve_http_policy slashless "/anything" "GET" = Ok "/anything@get"
  ∧ (authorize_http_endpoint slashless "/anything@get" [] ann JNull None fresh).2 = Allowed.
Proof. split; vm_compute; reflexivity. Qed.

(** Two rules whose cache keys are equal: the second one runs the program of the first. *)
Example colliding_cache_keys :
  let '(cache, _) := compile_cel_program "x" "a?b?c:strict:false" Strict ∅ in
  (compile_cel_program "x:strict:a?b?c" "false" Strict cache).2 = Ok "a?b?c:strict:false".
Proof. vm_compute. reflexivity. Qed.

(** The structured content of a tool result is filtered, and the text of the first content
    item is replaced; the other items are returned as they are. *)
Definition tool_result : Json :=
  JObject [("content", JArray [JObject [("text", JString (show document)); ("type", JString "text")];
                               JObject [("text", JString (show document)); ("type", JString "text")]]);
           ("structuredContent", document)].
Example second_item_unfiltered :
  let filtered := JArray [JObject [("id", JString "1"); ("owner", JString "ann")]] in
  (filter_mcp_response runtime "tool" "/api/{id}@get" [] ann JNull None tool_result fresh).2
  = JObject [("content", JArray [JObject [("text", JString (show filtered)); ("type", JString "text")];
                                 JObject [("text", JString (show document)); ("type", JString "text")]]);
             ("structuredContent", filtered)].
Proof. vm_compute. reflexivity. Qed.
End AccessInstance.
