(* ===== verification/InvocationContract.v ===== *)
(** * The workflow invocation contract

    Model of [crates/workflow-invocation-contract/src/lib.rs]: the states and records of a
    workflow invocation with their validations, the strict reading of JSON, the canonical
    text of a document with its digest, and the claims that survive a token refresh.
    SHA-256, the JSON tokenizer and the text of floating point numbers are classes.  Times
    are [DateTime] values. *)

From S2P Require Import Prelude RustStr RustChar JsonTree JsonText.
From Stdlib Require Import Ascii.

Definition CONTRACT_VERSION : N := 1.
Definition CANONICAL_INPUT_PROFILE : string := "rfc8785-safe-json-v1".
Definition MAX_SAFE_INTEGER : N := 9007199254740991.

(** ** States and modes *)

Inductive InvocationState :=
  Accepted | Running | Waiting | Compensating | Completed | Failed | Cancelled.
Definition is_terminal (s : InvocationState) : bool :=
  match s with Completed | Failed | Cancelled => true | _ => false end.

Inductive EffectState := NoEffect | Possible | Confirmed.
Inductive InvocationMode := Sync | Async.
#[global] Instance InvocationMode_eq_dec : EqDecision InvocationMode.
Proof. solve_decision. Defined.
Inductive AuthorityLeaseProfile := WorkflowBacked | PortalExecutionV1.

Definition WORKFLOW_BACKED_MAX_ASYNC_LEASE_MS : N := 604800000.
Definition PRIVATE_MAX_AUTHORITY_LEASE_MS : N := 2592000000.

Definition authority_lease_allowed (profile : AuthorityLeaseProfile) (mode : InvocationMode)
    (duration_ms : N) : bool :=
  match profile, mode with
  | WorkflowBacked, Sync => in_range 1 30000 duration_ms
  | WorkflowBacked, Async => in_range 1 WORKFLOW_BACKED_MAX_ASYNC_LEASE_MS duration_ms
  | PortalExecutionV1, Async => in_range 1 PRIVATE_MAX_AUTHORITY_LEASE_MS duration_ms
  | PortalExecutionV1, Sync => false
  end.

Inductive ExecutionClass := Interactive | Standard | Batch.
#[global] Instance ExecutionClass_eq_dec : EqDecision ExecutionClass.
Proof. solve_decision. Defined.
Inductive ResultTextMode := CompactJson | Summary.
Inductive IdempotencyKind := Derived | Explicit | Business.
Inductive CancellationPolicy := BeforeEffectsOnly | Cooperative | CancellationDisabled.
Inductive SchemaCompatibility := Exact | BackwardCompatible.
Inductive BindingLifecycle := Draft | Active | Retired | Revoked.

(** [ContractError]; the message of a [serde_json] error is not kept. *)
Inductive ContractError :=
| UnsupportedVersion (version : N)
| UnsupportedCanonicalProfile (profile : string)
| InvalidDigest
| InvalidDeadline
| InvalidReplayWindow
| InvalidBudget
| DelegationDepth
| SyncExecutionClass
| MissingCorrelationId
| InvalidCallerClaims
| InvalidPreparedStart
| InvalidBinding
| InvalidMcpResult
| InputDigestMismatch
| TenantMismatch
| NestedToolDenied
| DuplicateKey (key : string)
| UnsupportedNumber
| JsonError.

Definition refuse_if (c : bool) (e : ContractError) : result ContractError unit :=
  if c then Err e else Ok ().

Definition hex_byte (b : ascii) : bool := is_ascii_digit b || in_range 97 102 (byte b).
Definition validate_digest (value : string) : result ContractError unit :=
  match strip_prefix "sha256:" value with
  | None => Err InvalidDigest
  | Some hex =>
      refuse_if (negb (slen hex =? 64)%N || negb (forallb hex_byte (bytes hex))) InvalidDigest
  end.

(** ** Numbers of the safe profile *)

Definition validate_number (number : JNum) : result ContractError unit :=
  match number with
  | NegInt value => refuse_if (MAX_SAFE_INTEGER <? Z.abs_N value)%N UnsupportedNumber
  | PosInt value => refuse_if (MAX_SAFE_INTEGER <? value)%N UnsupportedNumber
  | Float _ => Err UnsupportedNumber
  end.
Fixpoint validate_safe_numbers (value : Json) : result ContractError unit :=
  match value with
  | JNumber number => validate_number number
  | JArray items => check_all validate_safe_numbers items
  | JObject object => check_all (λ x, validate_safe_numbers x.2) object
  | _ => Ok ()
  end.

(** ** Strict reading *)

(** [serde_json::Deserializer]: the document of a text as a visitor sees it, members in the
    order of the text and repeated keys included, or nothing for malformed text and for text
    with trailing characters. *)
Class JsonReader := read_document : string → option Json.

(** [StrictValueVisitor]: arrays and objects, whose elements [visit] reads. *)
Section visitor.
Context (visit : Json → result ContractError Json).

Fixpoint visit_seq (sequence : list Json) : result ContractError (list Json) :=
  match sequence with
  | [] => Ok []
  | item :: rest => value ← visit item; values ← visit_seq rest; Ok (value :: values)
  end.

Fixpoint visit_map (keys : list string) (object map : list (string * Json)) :
    result ContractError (list (string * Json)) :=
  match map with
  | [] => Ok object
  | (key, item) :: rest =>
      if bool_decide (key ∈ keys) then Err JsonError else
      value ← visit item;
      visit_map (key :: keys) (obj_insert key value object) rest
  end.
End visitor.

Fixpoint strict_value (document : Json) : result ContractError Json :=
  match document with
  | JArray items => values ← visit_seq strict_value items; Ok (JArray values)
  | JObject members => object ← visit_map strict_value [] [] members; Ok (JObject object)
  | JNumber (Float bits) => if is_finite bits then Ok document else Err JsonError
  | _ => Ok document
  end.

Definition parse_strict_json {reader : JsonReader} (input : string) : result ContractError Json :=
  document ← ok_or JsonError (read_document input);
  value ← strict_value document;
  _ ← validate_safe_numbers value;
  Ok value.

(** ** Canonical text *)

(** [Number::to_string] of a floating point number, which the safe profile never reaches. *)
Class FloatText := float_text : N → string.

Definition number_to_string {ft : FloatText} (number : JNum) : string :=
  match number with
  | PosInt n => dec n
  | NegInt z => "-" +:+ dec (Z.abs_N z)
  | Float bits => float_text bits
  end.

(** [utf16_cmp] as the order of a sort. *)
Definition utf16_leb (left right : string) : bool := lex_leb (utf16_units left) (utf16_units right).

(** The entries are sorted by their keys alone, so that the text of a member may be written
    before the sort. *)
Fixpoint write_canonical {ft : FloatText} (value : Json) : string :=
  match value with
  | JNull => "null"
  | JBool true => "true"
  | JBool false => "false"
  | JNumber number => number_to_string number
  | JString s => json_string s
  | JArray items => enclosed "[" "]" (write_canonical <$> items)
  | JObject object =>
      let entries := (λ '(key, item), (key, write_canonical item)) <$> object in
      enclosed "{" "}" ((λ '(key, text), json_string key +:+ ":" +:+ text)
                          <$> stable_sort (λ a b, utf16_leb a.1 b.1) entries)
  end.

Definition canonical_json_bytes {ft : FloatText} (value : Json) : result ContractError (list ascii) :=
  _ ← validate_safe_numbers value; Ok (bytes (write_canonical value)).
Definition canonical_sha256 {ft : FloatText} {sha : Sha256} (value : Json) : result ContractError string :=
  text ← canonical_json_bytes value; Ok ("sha256:" +:+ sha256_hex text).

(** ** Claims of a subject *)

Definition VOLATILE_SUBJECT_CLAIMS : list string :=
  ["exp"; "iat"; "nbf"; "jti"; "nonce"; "auth_time"; "sid"; "at_hash"; "c_hash"; "csrf"].

Definition stable_subject_claims (claims : Json) : Json :=
  match claims with
  | JObject m => JObject (filter (λ x, x.1 ∉ VOLATILE_SUBJECT_CLAIMS) m)
  | _ => claims
  end.

Definition accepted_subject_claims_match {ft : FloatText} {sha : Sha256} (accepted : Json)
    (recorded_digest current_digest : string) : result ContractError bool :=
  if negb (is_object accepted) then Ok false else
  digest ← canonical_sha256 accepted;
  if negb (bool_decide (digest = recorded_digest)) then Ok false else
  digest ← canonical_sha256 (stable_subject_claims accepted);
  Ok (bool_decide (digest = current_digest)).

(** ** Records *)

Record InvocationBudget := {
  maximum_task_attempts : N;
  maximum_nested_calls : N;
  maximum_delegation_depth : N;
  maximum_parallelism : N;
  maximum_request_bytes : N;
  maximum_intermediate_bytes : N;
  maximum_result_bytes : N;
  maximum_cost_units : N;
}.
Definition InvocationBudget_validate (b : InvocationBudget) : result ContractError unit :=
  refuse_if ((maximum_task_attempts b =? 0) || (maximum_parallelism b =? 0)
             || (maximum_request_bytes b =? 0) || (maximum_intermediate_bytes b =? 0)
             || (maximum_result_bytes b =? 0))%N InvalidBudget.

Record WorkflowToolBindingSnapshot := {
  wb_contract_version : N;
  wb_binding_id : Uuid;
  wb_host_id : Uuid;
  wb_stable_tool_ref : Uuid;
  wb_logical_tool_name : string;
  wb_authorization_endpoint_key : string;
  wb_workflow_definition_id : Uuid;
  wb_workflow_version : string;
  wb_definition_digest : string;
  wb_input_schema_digest : string;
  wb_output_schema_digest : string;
  wb_policy_digest : string;
  wb_response_policy_digest : string;
  wb_mode : InvocationMode;
  wb_root_execution_class : ExecutionClass;
  wb_result_text_mode : ResultTextMode;
  wb_cancellation_policy : CancellationPolicy;
  wb_result_replay_ms : N;
  wb_maximum_delegation_depth : N;
  wb_lifecycle : BindingLifecycle;
}.
Definition WorkflowToolBindingSnapshot_validate (b : WorkflowToolBindingSnapshot) :
    result ContractError unit :=
  _ ← refuse_if (negb (wb_contract_version b =? CONTRACT_VERSION)%N)
        (UnsupportedVersion (wb_contract_version b));
  _ ← refuse_if (blank (wb_logical_tool_name b) || blank (wb_authorization_endpoint_key b)
                 || blank (wb_workflow_version b)) InvalidBinding;
  _ ← check_all validate_digest
        [wb_definition_digest b; wb_input_schema_digest b; wb_output_schema_digest b;
         wb_policy_digest b; wb_response_policy_digest b];
  refuse_if (bool_decide (wb_mode b = Sync)
             && negb (bool_decide (wb_root_execution_class b = Interactive))) SyncExecutionClass.

Record WorkflowToolDependencySnapshot := {
  wd_contract_version : N;
  wd_host_id : Uuid;
  wd_outer_binding_id : Uuid;
  wd_nested_stable_tool_ref : Uuid;
  wd_nested_version_target_id : Uuid;
  wd_nested_contract_digest : string;
  wd_compatibility : SchemaCompatibility;
  wd_logical_authorization_endpoint_key : string;
}.
Definition WorkflowToolDependencySnapshot_validate (d : WorkflowToolDependencySnapshot) :
    result ContractError unit :=
  _ ← refuse_if (negb (wd_contract_version d =? CONTRACT_VERSION)%N)
        (UnsupportedVersion (wd_contract_version d));
  _ ← validate_digest (wd_nested_contract_digest d);
  refuse_if (blank (wd_logical_authorization_endpoint_key d)) InvalidBinding.

Record IdempotencyBinding := {
  ib_kind : IdempotencyKind;
  ib_scoped_key_digest : string;
  ib_input_digest : string;
  ib_in_flight_until : DateTime;
  ib_result_replay_until : DateTime;
}.

Record StartInvocationRequest := {
  si_renewable_grant_id : option Uuid;
  si_parent_action_id : option Uuid;
  si_contract_version : N;
  si_workflow_instance_id : Uuid;
  si_stable_tool_ref : Uuid;
  si_workflow_definition_id : Uuid;
  si_workflow_version : string;
  si_definition_digest : string;
  si_schema_digest : string;
  si_policy_digest : string;
  si_response_policy_digest : string;
  si_mode : InvocationMode;
  si_cancellation_policy : CancellationPolicy;
  si_execution_class : ExecutionClass;
  si_permit_depth : N;
  si_deadline_ts : DateTime;
  si_canonical_input_profile : string;
  si_normalized_input_digest : string;
  si_input : Json;
  si_caller_claims : Json;
  si_idempotency : IdempotencyBinding;
  si_budget : InvocationBudget;
  si_correlation_id : string;
}.
Definition StartInvocationRequest_validate {ft : FloatText} {sha : Sha256}
    (r : StartInvocationRequest) (now : DateTime) : result ContractError unit :=
  let idempotency := si_idempotency r in
  _ ← refuse_if (negb (si_contract_version r =? CONTRACT_VERSION)%N)
        (UnsupportedVersion (si_contract_version r));
  _ ← refuse_if (negb (bool_decide (si_canonical_input_profile r = CANONICAL_INPUT_PROFILE)))
        (UnsupportedCanonicalProfile (si_canonical_input_profile r));
  _ ← check_all validate_digest
        [si_definition_digest r; si_schema_digest r; si_policy_digest r; si_response_policy_digest r;
         si_normalized_input_digest r; ib_scoped_key_digest idempotency; ib_input_digest idempotency];
  _ ← refuse_if ((si_deadline_ts r <=? now)%Z
                 || (ib_in_flight_until idempotency <? si_deadline_ts r)%Z) InvalidDeadline;
  _ ← refuse_if (ib_result_replay_until idempotency <? ib_in_flight_until idempotency)%Z
        InvalidReplayWindow;
  _ ← refuse_if (maximum_delegation_depth (si_budget r) <? si_permit_depth r)%N DelegationDepth;
  _ ← refuse_if (match si_parent_action_id r with
                 | Some id => is_nil id || (si_permit_depth r =? 0)%N
                 | None => false
                 end) DelegationDepth;
  _ ← refuse_if (bool_decide (si_mode r = Sync)
                 && negb (bool_decide (si_execution_class r = Interactive))) SyncExecutionClass;
  _ ← refuse_if (blank (si_correlation_id r)) MissingCorrelationId;
  _ ← refuse_if (negb (is_object (si_caller_claims r))) InvalidCallerClaims;
  _ ← InvocationBudget_validate (si_budget r);
  actual ← canonical_sha256 (si_input r);
  refuse_if (negb (bool_decide (actual = si_normalized_input_digest r))
             || negb (bool_decide (actual = ib_input_digest idempotency))) InputDigestMismatch.

Record McpTextContent := { mt_content_type : string; mt_text : string }.
Record WorkflowMcpResult := {
  wm_content : list McpTextContent;
  wm_structured_content : Json;
  wm_is_error : bool;
}.
Definition WorkflowMcpResult_validate (r : WorkflowMcpResult) : result ContractError unit :=
  match wm_content r with
  | [content] =>
      refuse_if (negb (bool_decide (mt_content_type content = "text"))
                 || negb (is_object (wm_structured_content r))) InvalidMcpResult
  | _ => Err InvalidMcpResult
  end.

Record WorkflowDelegationClaims := {
  dc_contract_version : N;
  dc_token_id : Uuid;
  dc_invocation_id : Uuid;
  dc_host_id : Uuid;
  dc_principal_subject : string;
  dc_end_user_subject : string;
  dc_outer_stable_tool_ref : Uuid;
  dc_allowed_nested_tool_refs : list Uuid;
  dc_audiences : list string;
  dc_operations : list string;
  dc_data_boundary_digest : string;
  dc_policy_digest : string;
  dc_execution_class : ExecutionClass;
  dc_permit_depth : N;
  dc_remaining_delegation_depth : N;
  dc_budget_ledger_id : Uuid;
  dc_budget_generation : N;
  dc_deadline_ts : DateTime;
}.
Definition validate_nested (c : WorkflowDelegationClaims) (expected_host nested_tool : Uuid)
    (expected_depth : N) (now : DateTime) : result ContractError unit :=
  _ ← refuse_if (negb (dc_contract_version c =? CONTRACT_VERSION)%N)
        (UnsupportedVersion (dc_contract_version c));
  _ ← refuse_if (negb (dc_host_id c =? expected_host)%N) TenantMismatch;
  _ ← refuse_if (dc_deadline_ts c <=? now)%Z InvalidDeadline;
  _ ← refuse_if (negb (dc_permit_depth c =? expected_depth)%N
                 || (dc_remaining_delegation_depth c =? 0)%N) DelegationDepth;
  _ ← refuse_if (negb (bool_decide (nested_tool ∈ dc_allowed_nested_tool_refs c))) NestedToolDenied;
  _ ← validate_digest (dc_data_boundary_digest c);
  validate_digest (dc_policy_digest c).
