(* ===== verification/InvocationFacts.v ===== *)
(** * Theorems on the workflow invocation contract

    Canonical text identifies a document up to the order of members; what a valid request,
    an accepted set of claims and a delegation bind follows from it. *)

From S2P Require Import Prelude RustStr RustChar JsonTree JsonText InvocationContract.
From Stdlib Require Import Ascii.

(** ** Well-formed documents

    What [serde_json::Value] and [String] guarantee by their types: the keys of an object
    are distinct and well-formed UTF-8, and a [NegInt] is negative. *)

Fixpoint json_wf (j : Json) : Prop :=
  match j with
  | JNumber (NegInt z) => (z < 0)%Z
  | JArray l => foldr (λ x P, json_wf x ∧ P) True l
  | JObject m =>
      NoDup m.*1 ∧ foldr (λ x P, (utf8_valid (bytes x.1) = true ∧ json_wf x.2) ∧ P) True m
  | _ => True
  end.

Lemma foldr_and {A} (P : A → Prop) l : foldr (λ x Q, P x ∧ Q) True l ↔ Forall P l.
Proof. induction l as [|x l IH]; cbn; [done|]. rewrite IH. by rewrite Forall_cons. Qed.

Definition safe (j : Json) : Prop := validate_safe_numbers j = Ok ().

Lemma safe_array l : safe (JArray l) ↔ Forall safe l.
Proof. unfold safe. cbn. rewrite check_all_Ok, Forall_forall. done. Qed.
Lemma safe_object m : safe (JObject m) ↔ Forall (λ x, safe x.2) m.
Proof. unfold safe. cbn. rewrite check_all_Ok, Forall_forall. done. Qed.

Section canonical.
Context {ft : FloatText}.

(** ** The text of an object *)

Definition entry_text (x : string * Json) : string := json_string x.1 +:+ ":" +:+ write_canonical x.2.
Definition sorted_members (m : list (string * Json)) : list (string * Json) :=
  stable_sort (λ a b, utf16_leb a.1 b.1) m.

Lemma write_object m :
  write_canonical (JObject m) = enclosed "{" "}" (entry_text <$> sorted_members m).
Proof.
  cbn. f_equal. unfold sorted_members.
  rewrite (stable_sort_fmap (λ '(key, item), (key, write_canonical item)) (λ a b, utf16_leb a.1 b.1)).
  rewrite (stable_sort_ext _ (λ a b, utf16_leb a.1 b.1)) by (by intros [] []).
  rewrite <- list_fmap_compose. by apply list_fmap_ext; intros _ [k v] _.
Qed.

(** ** Unique readability *)

Definition starts (j : Json) (c : ascii) : Prop :=
  match j with
  | JNull => c = "n"%char
  | JBool b => c = if b then "t"%char else "f"%char
  | JNumber _ => is_ascii_digit c = true ∨ c = "-"%char
  | JString _ => c = ascii_of_N 34
  | JArray _ => c = "["%char
  | JObject _ => c = "{"%char
  end.

Lemma dec_start n : ∃ c r, dec n = String c r ∧ is_ascii_digit c = true.
Proof.
  pose proof (dec_digits n) as H. destruct (dec n) as [|c r] eqn:E.
  - exfalso. revert E. unfold dec, pretty, pretty_N. case_decide; [done|].
    rewrite pretty_N_go_step by lia. intros E. apply (f_equal String.length) in E. revert E.
    generalize (pretty_N_char (n `mod` 10)). intros c.
    assert (∀ m s, (String.length s ≤ String.length (pretty_N_go m s))%nat) as Hlen.
    { intros m. induction (N.lt_wf_0 m) as [m _ IH]. intros s. destruct (decide (0 < m)%N).
      - rewrite pretty_N_go_step by done. etransitivity; [|apply IH; apply N.div_lt; lia]. cbn. lia.
      - replace m with 0%N by lia. by rewrite pretty_N_go_0. }
    specialize (Hlen (n `div` 10)%N (String c "")). cbn in *. lia.
  - apply Forall_cons in H as [H _]. by exists c, r.
Qed.

Lemma write_starts j : safe j → ∃ c r, write_canonical j = String c r ∧ starts j c.
Proof.
  destruct j as [|b|[n|z|bits]|s|l|m]; intros H; cbn [starts]; [by eexists _, _| |..].
  - destruct b; by eexists _, _.
  - destruct (dec_start n) as (c & r & E & Hc). exists c, r. split; [done|by left].
  - by eexists _, _; split; [|by right].
  - done.
  - by eexists _, _.
  - by eexists _, _.
  - by eexists _, _.
Qed.

Lemma write_not_closing j c t u :
  safe j → is_ascii_digit c = false → c ∈ ["]"; "}"]%char → write_canonical j +:+ t ≠ String c u.
Proof.
  intros Hj Hd Hc E. destruct (write_starts j Hj) as (c' & r & Ej & Hs). rewrite Ej in E.
  injection E as -> _. rewrite !elem_of_cons in Hc.
  destruct Hc as [->|[->|[]%not_elem_of_nil]]; destruct j as [|[]| | | |]; cbn in Hs; try done;
    by destruct Hs.
Qed.

Lemma enclosed_app opening closing items t :
  enclosed opening closing items +:+ t = String opening (String.concat "," items +:+ String closing t).
Proof. unfold enclosed. by rewrite sapp_cons, sapp_assoc. Qed.

Lemma number_readable n n' t t' :
  safe (JNumber n) → safe (JNumber n') → json_wf (JNumber n) → json_wf (JNumber n') →
  no_digit t = true → no_digit t' = true →
  number_to_string n +:+ t = number_to_string n' +:+ t' → n = n' ∧ t = t'.
Proof.
  intros Hs Hs' Hw Hw' Ht Ht'.
  destruct n as [n|z|]; [| |done]; destruct n' as [n'|z'|]; try done; cbn [number_to_string].
  - intros E. by apply dec_readable in E as [-> ->].
  - destruct (dec_start n) as (c & r & -> & Hc). intros [= -> _]. done.
  - destruct (dec_start n') as (c & r & -> & Hc). intros [= <- _]. done.
  - rewrite !sapp_cons. intros [= E]. apply dec_readable in E as [E ->]; [|done..].
    cbn in Hw, Hw'. split; [|done]. f_equal. lia.
Qed.

Lemma canonical_readable v w t t' :
  safe v → safe w → json_wf v → json_wf w → no_digit t = true → no_digit t' = true →
  write_canonical v +:+ t = write_canonical w +:+ t' → json_equiv v w ∧ t = t'.
Proof.
  revert w t t'. induction v as [|b|n|s|l IH|m IH] using Json_tree_ind;
    intros w t t' Hv Hw Wv Ww Ht Ht' E;
    destruct (write_starts _ Hv) as (c & r & Ev & Sv);
    destruct (write_starts _ Hw) as (c' & r' & Ew & Sw);
    assert (c = c') as <- by (rewrite Ev, Ew in E; by injection E).
  all: destruct w as [|b'|n'|s'|l'|m']; cbn [starts] in Sv, Sw; try (subst; done);
    try (destruct b; subst; done); try (destruct b'; subst; done);
    try (destruct Sv; subst; done); try (destruct Sw; subst; done);
    try (destruct b, Sw; subst; done); try (destruct b', Sv; subst; done).
  - by split; [|injection E].
  - destruct b, b'; subst; try done; by split; [|injection E].
  - by apply number_readable in E as [-> ->].
  - by apply json_string_readable in E as [-> ->].
  - cbn [write_canonical] in E. rewrite !enclosed_app in E. injection E as E.
    cbn in Wv, Ww. rewrite foldr_and in Wv, Ww. apply safe_array in Hv, Hw.
    rewrite Forall_forall in *.
    apply (sequence_readable write_canonical "]" ltac:(done) ltac:(done) json_equiv) in E as [HF ->].
    + split; [by constructor|done].
    + intros x Hx y u u' Hy Hu Hu'. apply IH; auto.
    + intros x u u' Hx. apply write_not_closing; [|done|set_solver].
      apply elem_of_app in Hx as [?|?]; auto.
  - rewrite !write_object, !enclosed_app in E. injection E as E.
    destruct Wv as [_ Wv], Ww as [_ Ww]. rewrite foldr_and in Wv, Ww. apply safe_object in Hv, Hw.
    rewrite Forall_forall in *.
    pose proof (stable_sort_perm (λ a b : string * Json, utf16_leb a.1 b.1) m) as Pm.
    pose proof (stable_sort_perm (λ a b : string * Json, utf16_leb a.1 b.1) m') as Pm'.
    apply (sequence_readable entry_text "}" ltac:(done) ltac:(done)
             (λ a b, a.1 = b.1 ∧ json_equiv a.2 b.2)) in E as [HF ->].
    + split; [|done]. by eapply json_equiv_permuted; [symmetry; exact Pm|symmetry; exact Pm'|].
    + intros x Hx y u u' Hy Hu Hu' Exy. unfold sorted_members in *.
      rewrite Pm in Hx. rewrite Pm' in Hy. unfold entry_text in Exy. rewrite !sapp_assoc in Exy.
      apply json_string_readable in Exy as [Hk Exy]. rewrite !sapp_cons in Exy. injection Exy as Exy.
      destruct (IH x Hx y.2 u u') as [? ->]; auto; [by apply (Wv x)|by apply (Ww y)].
    + intros x u u' Hx. unfold entry_text. by rewrite sapp_assoc, json_string_app.
Qed.

(** ** Independence of the order of members *)

Lemma utf16_leb_total {V} (x y : string * V) : utf16_leb x.1 y.1 = true ∨ utf16_leb y.1 x.1 = true.
Proof. apply lex_leb_total. Qed.
Lemma utf16_leb_trans {V} (x y z : string * V) :
  utf16_leb x.1 y.1 = true → utf16_leb y.1 z.1 = true → utf16_leb x.1 z.1 = true.
Proof. apply lex_leb_trans. Qed.

(** Entries with distinct well-formed keys have one sorted order. *)
Lemma sorted_entries_unique {V} (l k : list (string * V)) :
  NoDup l.*1 → Forall (λ x, utf8_valid (bytes x.1) = true) l → l ≡ₚ k →
  stable_sort (λ a b, utf16_leb a.1 b.1) l = stable_sort (λ a b, utf16_leb a.1 b.1) k.
Proof.
  intros Hd Hv Hp. eapply StronglySorted_unique_strong;
    [|apply stable_sort_sorted; [apply utf16_leb_total|apply utf16_leb_trans]..|].
  - intros [k1 v1] [k2 v2]. rewrite !stable_sort_perm, <- Hp. intros H1 H2 Hle Hge.
    rewrite Forall_forall in Hv.
    assert (k1 = k2) as <-.
    { apply utf16_units_inj; [by apply (Hv _ H1)|by apply (Hv _ H2)|]. by apply lex_leb_antisym. }
    apply list_elem_of_lookup in H1 as [i Hi]. apply list_elem_of_lookup in H2 as [j Hj].
    assert (i = j) as <-; [|congruence].
    eapply (NoDup_lookup l.*1); [done|..]; rewrite list_lookup_fmap; [by rewrite Hi|by rewrite Hj].
  - by rewrite !stable_sort_perm.
Qed.

Lemma canonical_respects v w : json_wf v → json_equiv v w → write_canonical v = write_canonical w.
Proof.
  revert w. induction v as [|b|n|s|l IH|m IH] using Json_tree_ind; intros w Wv H;
    inversion H as [|? l' HF|? n' m' Hp HF]; subst; try done; cbn [write_canonical].
  - cbn in Wv. rewrite foldr_and in Wv. f_equal. clear H.
    induction HF as [|a b l l' Hab _ IHl]; [done|].
    apply Forall_cons in IH as [Ha IH], Wv as [Wa Wv]. cbn. f_equal; auto.
  - destruct Wv as [Hd Wv]. rewrite foldr_and in Wv. do 2 f_equal.
    set (e := λ '(key, item), (key, write_canonical item)).
    assert (e <$> n' = e <$> m') as <-.
    { rewrite Hp in IH, Wv. clear H Hp Hd. induction HF as [|[k x] [k' y] n' m' [Hk Hab] _ IHl]; [done|].
      apply Forall_cons in IH as [Ha IH], Wv as [Wa Wv]. cbn in *. subst.
      f_equal; [f_equal; apply Ha; [by apply Wa|done]|auto]. }
    apply sorted_entries_unique; [| |by rewrite Hp].
    + rewrite <- list_fmap_compose. erewrite list_fmap_ext; [exact Hd|by intros _ [] _].
    + apply Forall_fmap. eapply Forall_impl; [exact Wv|]. intros [] []. done.
Qed.
End canonical.

(** C21 Canonical text is faithful: two documents of the safe profile have the same canonical
    bytes exactly when they are equal up to the order of the members of their objects. *)
Theorem canonical_json_exact {ft : FloatText} v w text text' :
  json_wf v → json_wf w →
  canonical_json_bytes v = Ok text → canonical_json_bytes w = Ok text' →
  text = text' ↔ json_equiv v w.
Proof.
  unfold canonical_json_bytes. intros Wv Ww Hv Hw. inv_ok. subst. split.
  - intros E%bytes_inj. apply (canonical_readable v w "" ""); try done. by rewrite !sapp_nil.
  - intros E. by rewrite (canonical_respects v w).
Qed.

(** ** Strict reading *)

(** What a reader guarantees of a document: its keys are well-formed UTF-8 and a [NegInt] is
    negative.  Keys may be repeated. *)
Fixpoint raw_wf (j : Json) : Prop :=
  match j with
  | JNumber (NegInt z) => (z < 0)%Z
  | JArray l => foldr (λ x P, raw_wf x ∧ P) True l
  | JObject m => foldr (λ x P, (utf8_valid (bytes x.1) = true ∧ raw_wf x.2) ∧ P) True m
  | _ => True
  end.
Class JsonReaderLaws `{JsonReader} : Prop :=
  read_document_wf input document : read_document input = Some document → raw_wf document.

Fixpoint unique_keys (j : Json) : Prop :=
  match j with
  | JArray l => foldr (λ x P, unique_keys x ∧ P) True l
  | JObject m => NoDup m.*1 ∧ foldr (λ x P, unique_keys x.2 ∧ P) True m
  | _ => True
  end.

Section visits.
Context (visit : Json → result ContractError Json).

Lemma visit_seq_Ok l values :
  visit_seq visit l = Ok values ↔ Forall2 (λ x v, visit x = Ok v) l values.
Proof.
  revert values. induction l as [|x l IH]; intros values; cbn.
  - split; [by intros [= <-]|]. by intros ->%Forall2_nil_inv_l.
  - rewrite bind_Ok. setoid_rewrite bind_Ok. split.
    + intros (v & Hv & vs & Hvs%IH & [= <-]). by constructor.
    + intros (v & vs & Hv & Hvs%IH & ->)%Forall2_cons_inv_l. naive_solver.
Qed.

Lemma visit_map_Ok keys object members object' :
  NoDup keys → keys ≡ₚ object.*1 → visit_map visit keys object members = Ok object' →
  ∃ values, Forall2 (λ a b, a.1 = b.1 ∧ visit a.2 = Ok b.2) members values
    ∧ object' ≡ₚ object ++ values ∧ NoDup (object'.*1).
Proof.
  revert keys object. induction members as [|[k x] members IH]; intros keys object Hd Hk H; cbn in H.
  { injection H as <-. exists []. rewrite app_nil_r, <- Hk. done. }
  case_bool_decide as E; [done|]. inv_ok.
  assert (k ∉ object.*1) as Ek by (by rewrite <- Hk).
  unfold obj_insert in *. rewrite (proj2 (member_None k object) Ek) in *.
  destruct (IH (k :: keys) (obj_place k x0 object)) as (values & HF & Hp & Hn); [..|done|].
  - by constructor.
  - by rewrite obj_place_perm, Hk.
  - exists ((k, x0) :: values). split_and!; [by constructor| |done].
    rewrite Hp, obj_place_perm. cbn. apply Permutation_middle.
Qed.

Lemma visit_map_total keys object members :
  NoDup (keys ++ members.*1) → Forall (λ a, ∃ v, visit a.2 = Ok v) members →
  ∃ object', visit_map visit keys object members = Ok object'.
Proof.
  revert keys object. induction members as [|[k x] members IH]; intros keys object Hd HF; cbn.
  { by eexists. }
  apply Forall_cons in HF as [[v Hv] HF]. cbn in Hd, Hv.
  rewrite bool_decide_eq_false_2, Hv.
  - cbn. apply IH; [|done]. cbn. by rewrite Permutation_middle.
  - apply NoDup_app in Hd as (_ & Hd & _). intros Hk. apply (Hd k Hk). left.
Qed.
End visits.

Lemma strict_value_array l : strict_value (JArray l) = (values ← visit_seq strict_value l; Ok (JArray values)).
Proof. done. Qed.
Lemma strict_value_object m :
  strict_value (JObject m) = (object ← visit_map strict_value [] [] m; Ok (JObject object)).
Proof. done. Qed.

Lemma strict_value_Ok document v :
  raw_wf document → strict_value document = Ok v →
  json_wf v ∧ json_equiv document v ∧ unique_keys document.
Proof.
  revert v. induction document as [|b|n|s|l IH|m IH] using Json_tree_ind; intros v W H;
    try (injection H as <-; done).
  - destruct n; cbn in H; [..|case_match]; by inv_ok; subst.
  - rewrite strict_value_array in H. apply bind_Ok in H as (values & H%visit_seq_Ok & [= <-]).
    cbn in W. rewrite foldr_and in W. cbn [json_wf unique_keys]. rewrite !foldr_and.
    assert (Forall json_wf values ∧ Forall2 json_equiv l values ∧ Forall unique_keys l) as (? & ? & ?);
      [|by split_and!; [|constructor|]].
    induction H as [|x v l values Hx _ IHl]; [done|].
    apply Forall_cons in IH as [Ix IH], W as [Wx W].
    destruct (Ix v Wx Hx) as (? & ? & ?). destruct (IHl IH W) as (? & ? & ?). by split_and!; constructor.
  - rewrite strict_value_object in H. apply bind_Ok in H as (object & H & [= <-]).
    apply visit_map_Ok in H as (values & HF & Hp & Hd); [|constructor|done]. cbn in W, Hp.
    rewrite foldr_and in W. cbn [json_wf unique_keys]. rewrite !foldr_and.
    assert (Forall (λ x, utf8_valid (bytes x.1) = true ∧ json_wf x.2) values
      ∧ Forall2 (λ a b, a.1 = b.1 ∧ json_equiv a.2 b.2) m values
      ∧ Forall (λ x, unique_keys x.2) m ∧ m.*1 = values.*1) as (? & ? & ? & E).
    { clear Hp. induction HF as [|[k x] [k' v] m values [Hk Hx] _ IHm]; [done|].
      apply Forall_cons in IH as [Ix IH], W as [[Wk Wx] W]. cbn in *. subst k'.
      destruct (Ix v Wx Hx) as (? & ? & ?). destruct (IHm IH W) as (? & ? & ? & E).
      split_and!; [by constructor..|]. by rewrite E. }
    split_and!; [done|by rewrite Hp|by eapply json_equiv_permuted|by rewrite E, <- Hp|done].
Qed.

Lemma strict_value_total document :
  unique_keys document → safe document → ∃ v, strict_value document = Ok v.
Proof.
  induction document as [|b|n|s|l IH|m IH] using Json_tree_ind; intros U S; try (by eexists).
  - destruct n; [by eexists..|done].
  - cbn in U. rewrite foldr_and in U. apply safe_array in S. rewrite strict_value_array.
    assert (∃ values, visit_seq strict_value l = Ok values) as [values ->]; [|by eexists].
    assert (∃ values, Forall2 (λ x v, strict_value x = Ok v) l values) as [values HF];
      [|exists values; by apply visit_seq_Ok].
    induction l as [|x l IHl]; [by eexists|].
    apply Forall_cons in IH as [Hx IH], U as [Ux U], S as [Sx S].
    destruct IHl as [values HF]; [done..|]. destruct (Hx Ux Sx) as [v Hv].
    exists (v :: values). by constructor.
  - destruct U as [Hd U]. rewrite foldr_and in U. apply safe_object in S. rewrite strict_value_object.
    destruct (visit_map_total strict_value [] [] m) as [object ->]; [done| |by eexists].
    rewrite Forall_forall in *. intros x Hx. by apply IH; [|apply U|apply S].
Qed.

Lemma json_equiv_safe v w : json_equiv v w → safe v → safe w.
Proof.
  revert w. induction v as [|b|n|s|l IH|m IH] using Json_tree_ind; intros w H;
    inversion H as [|? l' HF|? n' m' Hp HF]; subst; try done.
  - rewrite !safe_array. clear H. induction HF as [|x y l l' Hxy _ IHl]; [done|].
    apply Forall_cons in IH as [Hx IH]. rewrite !Forall_cons. naive_solver.
  - rewrite !safe_object, Hp. rewrite Hp in IH. clear H Hp.
    induction HF as [|x y l l' [_ Hxy] _ IHl]; [done|].
    apply Forall_cons in IH as [Hx IH]. rewrite !Forall_cons. naive_solver.
Qed.

(** C36 Strict reading accepts exactly the documents without repeated keys whose numbers are
    safe integers.  The value it returns is the document up to the order of members, it is
    well formed, and it has a canonical text. *)
Theorem strict_parse_exact {reader : JsonReader} {laws : JsonReaderLaws} {ft : FloatText} input :
  (is_ok (parse_strict_json input) = true ↔
     ∃ document, read_document input = Some document ∧ unique_keys document ∧ safe document)
  ∧ ∀ v, parse_strict_json input = Ok v →
      json_wf v ∧ is_ok (canonical_json_bytes v) = true
      ∧ ∀ document, read_document input = Some document → json_equiv document v.
Proof.
  assert (∀ v, parse_strict_json input = Ok v →
    ∃ document, read_document input = Some document ∧ strict_value document = Ok v ∧ safe v) as Hinv.
  { unfold parse_strict_json. intros v H. inv_ok. by subst; eexists. }
  split; [split|].
  - intros [v (document & Hr & Hs & Hv)%Hinv]%is_ok_true. exists document.
    destruct (strict_value_Ok document v) as (? & E & ?); [by eapply read_document_wf|done|].
    split_and!; [done..|]. by eapply json_equiv_safe; [symmetry|].
  - intros (document & Hr & Hu & Hs). destruct (strict_value_total document) as [v Hv]; [done..|].
    destruct (strict_value_Ok document v) as (? & E & ?); [by eapply read_document_wf|done|].
    unfold parse_strict_json. rewrite Hr. cbn. rewrite Hv. cbn.
    by rewrite (json_equiv_safe _ _ E Hs).
  - intros v (document & Hr & Hs & Hv)%Hinv.
    destruct (strict_value_Ok document v) as (? & E & ?); [by eapply read_document_wf|done|].
    split_and!; [done| |].
    + unfold canonical_json_bytes. by rewrite Hv.
    + intros d' Hd. by simplify_eq.
Qed.

(** ** Digests *)

Lemma json_equiv_wf v w : json_equiv v w → json_wf v → json_wf w.
Proof.
  revert w. induction v as [|b|n|s|l IH|m IH] using Json_tree_ind; intros w H;
    inversion H as [|? l' HF|? n' m' Hp HF]; subst; try done; cbn [json_wf]; rewrite !foldr_and.
  - clear H. induction HF as [|x y l l' Hxy _ IHl]; [done|].
    apply Forall_cons in IH as [Hx IH]. rewrite !Forall_cons. naive_solver.
  - rewrite Hp. rewrite Hp in IH. clear H Hp. intros [Hd W].
    assert (n'.*1 = m'.*1) as <-.
    { clear -HF. induction HF as [|x y l l' [E _] _ IHl]; cbn; [done|]. by rewrite E, IHl. }
    split; [done|]. clear Hd. induction HF as [|x y l l' [E Hxy] _ IHl]; [done|].
    apply Forall_cons in IH as [Hx IH], W as [[Wk Wx] W]. rewrite E in Wk.
    constructor; [split; [done|by apply Hx]|auto].
Qed.

Lemma unsafe_error j e : validate_safe_numbers j = Err e → e = UnsupportedNumber.
Proof.
  induction j as [|b|n|s|l IH|m IH] using Json_tree_ind; intros H; try done.
  - destruct n; cbn in H; unfold refuse_if in H; repeat case_match; congruence.
  - apply check_all_Err in H as (x & Hx & H). rewrite Forall_forall in IH. by apply (IH x).
  - apply check_all_Err in H as (x & Hx & H). rewrite Forall_forall in IH. by apply (IH x).
Qed.

Section digests.
Context {ft : FloatText} {sha : Sha256}.

Lemma canonical_digest_binds v w d :
  json_wf v → json_wf w → canonical_sha256 v = Ok d → canonical_sha256 w = Ok d →
  json_equiv v w ∨ sha256_collision.
Proof.
  unfold canonical_sha256, canonical_json_bytes. intros Wv Ww Hv Hw. inv_ok. subst.
  match goal with H : _ +:+ _ = _ +:+ _ |- _ => apply sapp_inj in H as E end.
  destruct (decide (write_canonical v = write_canonical w)) as [Ew|Ne].
  - left. apply (canonical_readable v w "" ""); try done. by rewrite !sapp_nil.
  - right. exists (bytes (write_canonical v)), (bytes (write_canonical w)).
    split; [by intros ?%bytes_inj|done].
Qed.

Lemma canonical_digest_respects v w :
  json_wf v → json_equiv v w → canonical_sha256 v = canonical_sha256 w.
Proof.
  intros Wv E. unfold canonical_sha256, canonical_json_bytes.
  rewrite (canonical_respects v w) by done.
  assert (validate_safe_numbers v = validate_safe_numbers w) as ->; [|done].
  destruct (validate_safe_numbers v) as [[]|e] eqn:Hv; [by rewrite (json_equiv_safe v w E Hv)|].
  destruct (validate_safe_numbers w) as [[]|e'] eqn:Hw.
  - symmetry in E. apply (json_equiv_safe _ _ E) in Hw. unfold safe in Hw. congruence.
  - apply unsafe_error in Hv as ->, Hw as ->. done.
Qed.

(** ** Requests *)

Definition digest_wf (s : string) : Prop :=
  ∃ hex, s = "sha256:" +:+ hex ∧ slen hex = 64%N ∧ Forall (λ b, hex_byte b = true) (bytes hex).

Lemma refuse_if_Ok c e : refuse_if c e = Ok () ↔ c = false.
Proof. by destruct c. Qed.

Lemma validate_digest_Ok s : validate_digest s = Ok () ↔ digest_wf s.
Proof.
  unfold validate_digest, digest_wf. setoid_rewrite <- strip_prefix_Some.
  destruct (strip_prefix "sha256:" s) as [h|]; [|split; [done|]; by intros (? & ? & _)].
  rewrite refuse_if_Ok, orb_false_iff, !negb_false_iff, N.eqb_eq, forallb_Forall.
  naive_solver.
Qed.

(** A request that may start an invocation at [now]. *)
Definition start_valid (r : StartInvocationRequest) (now : DateTime) : Prop :=
  let i := si_idempotency r in
  si_contract_version r = CONTRACT_VERSION ∧ si_canonical_input_profile r = CANONICAL_INPUT_PROFILE
  ∧ Forall digest_wf [si_definition_digest r; si_schema_digest r; si_policy_digest r;
       si_response_policy_digest r; ib_scoped_key_digest i]
  ∧ (now < si_deadline_ts r ≤ ib_in_flight_until i)%Z
  ∧ (ib_in_flight_until i ≤ ib_result_replay_until i)%Z
  ∧ (si_permit_depth r ≤ maximum_delegation_depth (si_budget r))%N
  ∧ (∀ parent, si_parent_action_id r = Some parent → parent ≠ 0%N ∧ (0 < si_permit_depth r)%N)
  ∧ (si_mode r = Sync → si_execution_class r = Interactive)
  ∧ blank (si_correlation_id r) = false ∧ is_object (si_caller_claims r) = true
  ∧ (0 < maximum_task_attempts (si_budget r) ∧ 0 < maximum_parallelism (si_budget r)
     ∧ 0 < maximum_request_bytes (si_budget r) ∧ 0 < maximum_intermediate_bytes (si_budget r)
     ∧ 0 < maximum_result_bytes (si_budget r))%N
  ∧ digest_wf (si_normalized_input_digest r) ∧ si_normalized_input_digest r = ib_input_digest i
  ∧ canonical_sha256 (si_input r) = Ok (ib_input_digest i).

Lemma check_digests_Ok l : check_all validate_digest l = Ok () ↔ Forall digest_wf l.
Proof. rewrite check_all_Ok, Forall_forall. by setoid_rewrite validate_digest_Ok. Qed.

Lemma parent_Ok parent depth :
  match parent with Some id => is_nil id || (depth =? 0)%N | None => false end = false
  ↔ ∀ id, parent = Some id → id ≠ 0%N ∧ (0 < depth)%N.
Proof.
  destruct parent as [id|]; [|done]. unfold is_nil. rewrite orb_false_iff, !N.eqb_neq.
  split; [intros [? ?] ? [= <-]; lia|]. intros H. specialize (H id eq_refl). lia.
Qed.

Lemma sync_Ok mode class :
  bool_decide (mode = Sync) && negb (bool_decide (class = Interactive)) = false
  ↔ (mode = Sync → class = Interactive).
Proof. destruct mode, class; cbn; naive_solver. Qed.

Lemma budget_Ok b :
  InvocationBudget_validate b = Ok () ↔
  (0 < maximum_task_attempts b ∧ 0 < maximum_parallelism b ∧ 0 < maximum_request_bytes b
   ∧ 0 < maximum_intermediate_bytes b ∧ 0 < maximum_result_bytes b)%N.
Proof. unfold InvocationBudget_validate. rewrite refuse_if_Ok, !orb_false_iff, !N.eqb_neq. lia. Qed.

(** A request to start an invocation is valid exactly when its version and profile are
    the supported ones, its digests are well formed, its windows are ordered from now on, its
    depth is within its budget and positive below a parent, its budget has no zero bound, and
    its two input digests are the canonical digest of its input. *)
Theorem start_request_exact r now :
  StartInvocationRequest_validate r now = Ok () ↔ start_valid r now.
Proof.
  unfold StartInvocationRequest_validate, start_valid. cbn zeta.
  rewrite !check_Ok, bind_Ok, budget_Ok. setoid_rewrite refuse_if_Ok.
  rewrite check_digests_Ok, parent_Ok, sync_Ok. repeat setoid_rewrite Forall_cons.
  setoid_rewrite orb_false_iff. setoid_rewrite negb_false_iff. setoid_rewrite bool_decide_eq_true.
  rewrite N.eqb_eq, Z.leb_gt, !Z.ltb_ge, N.ltb_ge.
  split.
  - intros (Hv & Hp & (D1 & D2 & D3 & D4 & D5 & D6 & D7 & _) & [T1 T2] & T3 & Hd & Hparent & Hs & Hc & Ho & Hb
      & actual & Ha & Hn & Hi). subst actual. rewrite <- Hi. split_and!; try done; tauto.
  - intros (Hv & Hp & (D1 & D2 & D3 & D4 & D5 & _) & [T1 T2] & T3 & Hd & Hparent & Hs & Hc & Ho & Hb
      & Hn & Hi & Ha). rewrite Hi in *. split_and!; try done; try tauto. by eexists.
Qed.

(** The input digest of a valid request identifies its input: two valid requests carry
    the same digest exactly when their inputs are equal up to the order of members, unless
    two different texts have one SHA-256 digest. *)
Theorem input_digest_identifies r r' now now' :
  json_wf (si_input r) → json_wf (si_input r') →
  StartInvocationRequest_validate r now = Ok () → StartInvocationRequest_validate r' now' = Ok () →
  sha256_collision ∨
  (ib_input_digest (si_idempotency r) = ib_input_digest (si_idempotency r') ↔
     json_equiv (si_input r) (si_input r')).
Proof.
  intros W W' H H'.
  assert (∀ q t, StartInvocationRequest_validate q t = Ok () →
            canonical_sha256 (si_input q) = Ok (ib_input_digest (si_idempotency q))) as Hd.
  { intros q t Hq. unfold StartInvocationRequest_validate in Hq. cbn zeta in Hq.
    rewrite !check_Ok, bind_Ok in Hq. destruct Hq as (_ & _ & _ & _ & _ & _ & _ & _ & _ & _ & _ & d & -> & Hq).
    by apply refuse_if_Ok, orb_false_iff in Hq as [_ ->%negb_false_iff%bool_decide_eq_true]. }
  apply Hd in H, H'. destruct (decide (ib_input_digest (si_idempotency r) = ib_input_digest (si_idempotency r'))) as [E|Ne].
  - rewrite <- E in H'. destruct (canonical_digest_binds _ _ _ W W' H H'); [right|by left]. naive_solver.
  - right. split; [done|]. intros E%canonical_digest_respects; [|done]. congruence.
Qed.

(** ** Claims *)

Lemma stable_claims_wf claims : json_wf claims → json_wf (stable_subject_claims claims).
Proof.
  destruct claims as [| | | | |m]; try done. cbn. rewrite !foldr_and. intros [Hd W]. split.
  - eapply sublist_NoDup; [exact Hd|]. apply fmap_sublist, sublist_filter.
  - rewrite Forall_forall in *. intros x [_ Hx]%list_elem_of_filter. auto.
Qed.

Lemma get_stable_claims name claims :
  name ∉ VOLATILE_SUBJECT_CLAIMS → get name (stable_subject_claims claims) = get name claims.
Proof.
  intros H. destruct claims as [| | | | |m]; try done. cbn.
  by apply member_filter.
Qed.

(** The claims accepted with an invocation are matched against the digest recorded with
    them and the digest of the current claims.  The match succeeds exactly when the accepted
    claims are the recorded ones and agree with the current ones up to volatile claims; every
    other claim then has its accepted value.  Otherwise two texts share a SHA-256 digest. *)
Theorem accepted_claims_exact accepted original claims recorded current :
  json_wf accepted → json_wf original → json_wf claims →
  canonical_sha256 original = Ok recorded →
  canonical_sha256 (stable_subject_claims claims) = Ok current →
  sha256_collision ∨
  ((accepted_subject_claims_match accepted recorded current = Ok true ↔
     is_object accepted = true ∧ json_equiv accepted original
     ∧ json_equiv (stable_subject_claims accepted) (stable_subject_claims claims))
   ∧ (accepted_subject_claims_match accepted recorded current = Ok true →
      ∀ name, name ∉ VOLATILE_SUBJECT_CLAIMS →
      option_Forall2 json_equiv (get name accepted) (get name claims))).
Proof.
  intros Wa Wo Wc Ho Hc.
  assert (accepted_subject_claims_match accepted recorded current = Ok true →
    sha256_collision ∨ is_object accepted = true ∧ json_equiv accepted original
      ∧ json_equiv (stable_subject_claims accepted) (stable_subject_claims claims)) as Hm.
  { unfold accepted_subject_claims_match. destruct (is_object accepted); [|done]. cbn [negb].
    intros H. apply bind_Ok in H as (d & Hd & H). case_bool_decide as E; [|done]. cbn in H. subst d.
    apply bind_Ok in H as (d & Hd' & [= E]). apply bool_decide_eq_true in E as ->.
    destruct (canonical_digest_binds _ _ _ Wa Wo Hd Ho); [|by left].
    destruct (canonical_digest_binds _ _ _ (stable_claims_wf _ Wa) (stable_claims_wf _ Wc) Hd' Hc);
      [by right|by left]. }
  assert (is_object accepted = true ∧ json_equiv accepted original
      ∧ json_equiv (stable_subject_claims accepted) (stable_subject_claims claims) →
    accepted_subject_claims_match accepted recorded current = Ok true) as Hr.
  { intros (Hobj & E1 & E2). unfold accepted_subject_claims_match. rewrite Hobj. cbn [negb].
    rewrite (canonical_digest_respects _ _ Wa E1), Ho. cbn. rewrite bool_decide_true by done. cbn.
    rewrite (canonical_digest_respects _ _ (stable_claims_wf _ Wa) E2), Hc. cbn.
    by rewrite bool_decide_true. }
  assert (∀ name, is_object accepted = true →
    json_equiv (stable_subject_claims accepted) (stable_subject_claims claims) →
    name ∉ VOLATILE_SUBJECT_CLAIMS →
    option_Forall2 json_equiv (get name accepted) (get name claims)) as Hg.
  { intros name Hobj E Hn. rewrite <- (get_stable_claims name accepted), <- (get_stable_claims name claims) by done.
    apply stable_claims_wf in Wa. destruct accepted as [| | | | |m]; try done. cbn [stable_subject_claims] in *.
    destruct (stable_subject_claims claims) as [| | | | |m'] eqn:Ec; try (by inversion E).
    apply json_equiv_member; [apply Wa|done]. }
  destruct (accepted_subject_claims_match accepted recorded current) as [[]|].
  - destruct (Hm eq_refl) as [|(? & ? & ?)]; [by left|right]. naive_solver.
  - right. split; [|done]. split; [done|]. by intros [=]%Hr.
  - right. split; [|done]. split; [done|]. by intros [=]%Hr.
Qed.
End digests.

(** ** Concrete runs *)

Module InvocationInstance.

#[local] Instance floats : FloatText := λ _, "0.5".
(** The first 32 bytes in hexadecimal, filled up with zeros. *)
#[local] Instance digest : Sha256 := λ text,
  of_bytes (take 64 ((text ≫= λ b, [hex (byte b / 16); hex (byte b mod 16)]) ++ replicate 64 "0"%char)).

Definition input : Json :=
  JObject [("count", JNumber (PosInt 1)); ("customer", JString "C-1"); ("delta", JNumber (NegInt (-2)))].
Definition reordered : Json :=
  JObject [("delta", JNumber (NegInt (-2))); ("customer", JString "C-1"); ("count", JNumber (PosInt 1))].

(** A reader of the one text the examples use. *)
#[local] Instance reader : JsonReader := λ text,
  if bool_decide (text = "reordered") then Some reordered else
  if bool_decide (text = "repeated") then Some (JObject [("a", JNull); ("a", JBool true)]) else None.
#[local] Instance reader_laws : JsonReaderLaws.
Proof.
  intros text document. unfold read_document, reader. repeat case_bool_decide; intros [= <-]; by vm_compute.
Qed.

Lemma wf_input : json_wf input.
Proof. cbn. split_and!; [|done..]. by apply (bool_decide_unpack _). Qed.
Lemma wf_reordered : json_wf reordered.
Proof. cbn. split_and!; [|done..]. by apply (bool_decide_unpack _). Qed.

Lemma canonical_json_exact_witness :
  json_equiv input reordered ∧ canonical_json_bytes input = canonical_json_bytes reordered.
Proof.
  split; [|reflexivity].
  apply (proj1 (canonical_json_exact input reordered
    (bytes (write_canonical input)) (bytes (write_canonical reordered))
    wf_input wf_reordered eq_refl eq_refl)). reflexivity.
Defined.

Lemma strict_parse_exact_witness :
  parse_strict_json "reordered" = Ok input ∧ json_wf input ∧ parse_strict_json "repeated" = Err JsonError.
Proof.
  assert (parse_strict_json "reordered" = Ok input) as H by (by vm_compute).
  split; [exact H|]. split; [|by vm_compute].
  exact (proj1 (proj2 (strict_parse_exact "reordered") input H)).
Defined.

Definition some_digest : string := "sha256:" +:+ digest [].
Definition budget : InvocationBudget := {|
  maximum_task_attempts := 8; maximum_nested_calls := 8; maximum_delegation_depth := 1;
  maximum_parallelism := 1; maximum_request_bytes := 65536; maximum_intermediate_bytes := 262144;
  maximum_result_bytes := 131072; maximum_cost_units := 0 |}.
Definition request (value : Json) : StartInvocationRequest :=
  let d := ok_value "" (canonical_sha256 value) in {|
  si_renewable_grant_id := None; si_parent_action_id := None; si_contract_version := 1;
  si_workflow_instance_id := 1; si_stable_tool_ref := 2; si_workflow_definition_id := 3;
  si_workflow_version := "1.0.0"; si_definition_digest := some_digest; si_schema_digest := some_digest;
  si_policy_digest := some_digest; si_response_policy_digest := some_digest; si_mode := Sync;
  si_cancellation_policy := BeforeEffectsOnly; si_execution_class := Interactive; si_permit_depth := 0;
  si_deadline_ts := 30; si_canonical_input_profile := CANONICAL_INPUT_PROFILE;
  si_normalized_input_digest := d; si_input := value; si_caller_claims := JObject [];
  si_idempotency := {| ib_kind := Derived; ib_scoped_key_digest := some_digest; ib_input_digest := d;
                       ib_in_flight_until := 60; ib_result_replay_until := 90 |};
  si_budget := budget; si_correlation_id := "corr-1" |}.

Lemma input_digest_identifies_witness :
  StartInvocationRequest_validate (request input) 0 = Ok ()
  ∧ StartInvocationRequest_validate (request reordered) 1 = Ok ()
  ∧ (sha256_collision ∨
     (ib_input_digest (si_idempotency (request input))
        = ib_input_digest (si_idempotency (request reordered)) ↔ json_equiv input reordered)).
Proof.
  assert (StartInvocationRequest_validate (request input) 0 = Ok ()) as H by (by vm_compute).
  assert (StartInvocationRequest_validate (request reordered) 1 = Ok ()) as H' by (by vm_compute).
  split; [exact H|]. split; [exact H'|].
  exact (input_digest_identifies (request input) (request reordered) 0 1 wf_input wf_reordered H H').
Defined.

Definition issued : Json :=
  JObject [("csrf", JString "old"); ("roles", JArray [JString "reader"]); ("sub", JString "user-1")].
Definition refreshed : Json :=
  JObject [("csrf", JString "new"); ("roles", JArray [JString "reader"]); ("sub", JString "user-1")].

Lemma wf_claims csrf :
  json_wf (JObject [("csrf", JString csrf); ("roles", JArray [JString "reader"]); ("sub", JString "user-1")]).
Proof. cbn. split_and!; [|done..]. by apply (bool_decide_unpack _). Qed.

Lemma accepted_claims_exact_witness :
  let recorded := ok_value "" (canonical_sha256 issued) in
  let current := ok_value "" (canonical_sha256 (stable_subject_claims refreshed)) in
  accepted_subject_claims_match issued recorded current = Ok true
  ∧ (sha256_collision ∨ option_Forall2 json_equiv (get "roles" issued) (get "roles" refreshed)).
Proof.
  cbn zeta. split; [by vm_compute|].
  destruct (accepted_claims_exact issued issued refreshed
    (ok_value "" (canonical_sha256 issued))
    (ok_value "" (canonical_sha256 (stable_subject_claims refreshed)))
    (wf_claims "old") (wf_claims "old") (wf_claims "new") ltac:(by vm_compute) ltac:(by vm_compute))
    as [H|[_ H]]; [by left|right].
  apply H; [by vm_compute|]. by apply (bool_decide_unpack _).
Defined.
End InvocationInstance.
