(* ===== verification/LlmAuthorization.v ===== *)
(** * Agent authorization of the LLM gateway

    Model of [crates/llm-gateway/src/authorization.rs]: the registration bindings of agents,
    their validation, and the verification of a user token with an optional workload token.
    The verification of a signed token belongs to [light-security] and is an argument, as are
    the HTTP header library and the text of a [Uuid]. *)

From S2P Require Import Prelude RustStr RustChar JsonTree GatewayCore.
From Stdlib Require Import Ascii.

(** ** Configuration *)

Record AgentBinding := {
  gb_client_id : Uuid;
  gb_agent_def_id : Uuid;
  gb_host_id : Uuid;
  gb_environment : string;
  gb_issuer : string;
  gb_audience : string;
  gb_scopes : gset string;
  gb_route_alias : string;
  gb_policy_digest : string;
  gb_registration_version : N;
  gb_expires_at : Z;
}.

Record AgentDelegationConfig := {
  gd_endpoints : gmap string bool;
  gd_bindings : list AgentBinding;
  gd_user_issuer : string;
  gd_user_audience : string;
}.

Definition is_ascii_hexdigit (b : ascii) : bool :=
  is_ascii_digit b || in_range 97 102 (byte b) || in_range 65 70 (byte b).

Definition GENERATION_ROUTES : list string :=
  ["/v1/chat/completions@post"; "/v1/responses@post"; "/anthropic/v1/messages@post"].

(** A binding that [validate] refuses for its own fields. *)
Definition binding_invalid (b : AgentBinding) : bool :=
  is_nil (gb_client_id b) || is_nil (gb_agent_def_id b) || is_nil (gb_host_id b)
  || blank (gb_environment b) || blank (gb_issuer b) || blank (gb_audience b)
  || blank (gb_route_alias b) || bool_decide (gb_scopes b = ∅)
  || existsb (λ s, is_empty s || existsb is_whitespace (chars (bytes s))) (bs_iter (gb_scopes b))
  || (gb_registration_version b =? 0)%N
  || negb (starts_with (gb_policy_digest b) "sha256:") || negb (slen (gb_policy_digest b) =? 71)%N
  || negb (forallb is_ascii_hexdigit (drop 7 (bytes (gb_policy_digest b)))).

Fixpoint check_bindings (seen : list (string * Uuid)) (bindings : list AgentBinding) :
    result string unit :=
  match bindings with
  | [] => Ok ()
  | b :: rest =>
      if binding_invalid b || bool_decide ((gb_issuer b, gb_client_id b) ∈ seen)
      then Err "agentDelegation has invalid or ambiguous registration binding"
      else check_bindings ((gb_issuer b, gb_client_id b) :: seen) rest
  end.

Definition AgentDelegationConfig_validate (c : AgentDelegationConfig) : result string unit :=
  if bool_decide (gd_endpoints c = ∅) then Err "agentDelegation requires endpoint profiles" else
  if blank (gd_user_issuer c) || blank (gd_user_audience c)
  then Err "agentDelegation requires user issuer/audience" else
  _ ← check_all (λ endpoint,
        if bool_decide (endpoint ∈ GENERATION_ROUTES) then Ok ()
        else Err "agentDelegation endpoint is not a supported generation route")
      (bt_keys (gd_endpoints c));
  check_bindings [] (gd_bindings c).

(** ** Audit and identity *)

Record AuthorizationAudit := {
  aa_user_id : option string;
  aa_user_issuer : option string;
  aa_workload_client_id : option string;
  aa_workload_issuer : option string;
  aa_agent_def_id : option string;
  aa_host_id : option string;
  aa_environment : option string;
  aa_policy_digest : option string;
  aa_registration_version : option N;
  aa_correlation_id : option string;
  aa_decision : string;
  aa_user_access_decision : option string;
  aa_agent_assignment_decision : option string;
}.
Definition AuthorizationAudit_default : AuthorizationAudit :=
  {| aa_user_id := None; aa_user_issuer := None; aa_workload_client_id := None;
     aa_workload_issuer := None; aa_agent_def_id := None; aa_host_id := None; aa_environment := None;
     aa_policy_digest := None; aa_registration_version := None; aa_correlation_id := None;
     aa_decision := ""; aa_user_access_decision := None; aa_agent_assignment_decision := None |}.

Definition set_decision (decision : string) (a : AuthorizationAudit) : AuthorizationAudit :=
  {| aa_user_id := aa_user_id a; aa_user_issuer := aa_user_issuer a;
     aa_workload_client_id := aa_workload_client_id a; aa_workload_issuer := aa_workload_issuer a;
     aa_agent_def_id := aa_agent_def_id a; aa_host_id := aa_host_id a;
     aa_environment := aa_environment a; aa_policy_digest := aa_policy_digest a;
     aa_registration_version := aa_registration_version a; aa_correlation_id := aa_correlation_id a;
     aa_decision := decision; aa_user_access_decision := aa_user_access_decision a;
     aa_agent_assignment_decision := aa_agent_assignment_decision a |}.

Definition assignment_allowed (a : AuthorizationAudit) : AuthorizationAudit :=
  {| aa_user_id := aa_user_id a; aa_user_issuer := aa_user_issuer a;
     aa_workload_client_id := aa_workload_client_id a; aa_workload_issuer := aa_workload_issuer a;
     aa_agent_def_id := aa_agent_def_id a; aa_host_id := aa_host_id a;
     aa_environment := aa_environment a; aa_policy_digest := aa_policy_digest a;
     aa_registration_version := aa_registration_version a; aa_correlation_id := aa_correlation_id a;
     aa_decision := "allowed"; aa_user_access_decision := aa_user_access_decision a;
     aa_agent_assignment_decision :=
       Some (match aa_agent_def_id a with Some _ => "allowed" | None => "not_applicable" end) |}.

Abbreviation Principal := (AuthPrincipal Json).

Record VerifiedIdentity := {
  vi_user : Principal;
  vi_principal_id : string;
  vi_billing_subject : string;
  vi_bound_alias : option string;
  vi_audit : AuthorizationAudit;
}.

Record AuthorizationFailure := {
  af_status : N;
  af_reason : string;
  af_audit : AuthorizationAudit;
}.
Definition failure (status : N) (reason : string) (audit : AuthorizationAudit) : AuthorizationFailure :=
  {| af_status := status; af_reason := reason; af_audit := set_decision reason audit |}.

(** ** Claims and credentials *)

(** [string]: a claim that is a non-empty string. *)
Definition claim_string (p : Principal) (k : string) : option string :=
  v ← JsonTree.get k (au_claims p); s ← as_str v; if is_empty s then None else Some s.

Definition claim_i64 (p : Principal) (k : string) : option Z := JsonTree.get k (au_claims p) ≫= as_i64.

(** The claim is there and is not an integer at or before [now]. *)
Definition claim_late (p : Principal) (k : string) (now : Z) : bool :=
  match JsonTree.get k (au_claims p) with
  | Some v => match as_i64 v with Some t => (now <? t)%Z | None => true end
  | None => false
  end.

Definition expired (p : Principal) (now : Z) : bool :=
  match claim_i64 p "exp" with Some v => (v <=? now)%Z | None => true end.

Definition names_audience (audience : string) (v : Json) : bool :=
  bool_decide (as_str v = Some audience)
  || match as_array v with
     | Some a => existsb (λ x, bool_decide (as_str x = Some audience)) a
     | None => false
     end.

Definition strict_claims (p : Principal) (issuer audience : string) (now : Z) : result unit unit :=
  let aud := match JsonTree.get "aud" (au_claims p) with
             | Some v => names_audience audience v | None => false end in
  if negb (bool_decide (au_issuer p = Some issuer)) || negb aud || expired p now
     || claim_late p "nbf" now || claim_late p "iat" now
  then Err () else Ok ().

Definition is_ascii_whitespace (b : ascii) : bool :=
  (byte b =? 32)%N || (byte b =? 9)%N || (byte b =? 10)%N || (byte b =? 12)%N || (byte b =? 13)%N.

Section gateway.
Context {http : HttpLib}.

Definition bearer (headers : HeaderMap) (name : string) : result string (option string) :=
  match get_all headers name with
  | [] => Ok None
  | _ :: _ :: _ => Err "duplicate_credential_header"
  | [value] =>
      raw ← ok_or "invalid_credential_header" (to_str value);
      '(scheme, token) ← ok_or "invalid_credential_header" (split_once " " raw);
      if negb (eq_ignore_ascii_case scheme "bearer") || is_empty token
         || existsb (λ b, is_ascii_whitespace b || Ascii.eqb b ",") (bytes token)
      then Err "invalid_credential_header" else Ok (Some token)
  end.

(** The configuration of [SecurityRuntime] the function reads, and [verify_jwt_token] with
    expiry enforced. *)
Record SecurityRuntime := {
  sr_enable_verify_jwt : bool;
  sr_enable_mock_jwt : bool;
  sr_verify_jwt_token : string → option Principal;
}.

Context (uuid_to_string : Uuid → string).

Definition find_binding (workload : Principal) (bindings : list AgentBinding) : option AgentBinding :=
  head (filter (λ b, au_client_id workload = Some (uuid_to_string (gb_client_id b))
                     ∧ au_issuer workload = Some (gb_issuer b)) bindings).

Definition workload_environment (workload : Principal) : option string :=
  match claim_string workload "env" with
  | Some e => Some e
  | None => claim_string workload "environment"
  end.

Definition workload_scopes (workload : Principal) : gset string :=
  list_to_set
    (match JsonTree.get "scp" (au_claims workload) with
     | Some (JArray v) => omap as_str v
     | _ => split_whitespace (default "" (claim_string workload "scope"))
     end).

Definition or_failure {E A} (f : AuthorizationFailure) (r : result E A) : result AuthorizationFailure A :=
  map_err (λ _, f) r.

(** The part of [authenticate] after the user has been verified and a workload token is
    there. *)
Definition authenticate_workload (c : AgentDelegationConfig) (runtime : SecurityRuntime)
    (user : Principal) (token : string) (now : Z) (audit : AuthorizationAudit) :
    result AuthorizationFailure VerifiedIdentity :=
  workload ← ok_or (failure 401 "invalid_workload_token" audit) (sr_verify_jwt_token runtime token);
  if expired workload now then Err (failure 401 "invalid_workload_token" audit) else
  b ← ok_or (failure 403 "workload_registration_denied" audit)
        (find_binding workload (gd_bindings c));
  _ ← or_failure (failure 401 "invalid_workload_token" audit)
        (strict_claims workload (gb_issuer b) (gb_audience b) now);
  let audit :=
    {| aa_user_id := aa_user_id audit; aa_user_issuer := aa_user_issuer audit;
       aa_workload_client_id := au_client_id workload; aa_workload_issuer := au_issuer workload;
       aa_agent_def_id := Some (uuid_to_string (gb_agent_def_id b)); aa_host_id := aa_host_id audit;
       aa_environment := Some (gb_environment b); aa_policy_digest := Some (gb_policy_digest b);
       aa_registration_version := Some (gb_registration_version b);
       aa_correlation_id := aa_correlation_id audit; aa_decision := aa_decision audit;
       aa_user_access_decision := aa_user_access_decision audit;
       aa_agent_assignment_decision := aa_agent_assignment_decision audit |} in
  if negb (bool_decide (au_host user = Some (uuid_to_string (gb_host_id b))))
     || negb (bool_decide (au_host workload = au_host user))
     || negb (bool_decide (workload_environment workload = Some (gb_environment b)))
  then Err (failure 403 "workload_context_denied" audit) else
  if negb (bool_decide (gb_scopes b ⊆ workload_scopes workload))
  then Err (failure 403 "workload_scope_denied" audit) else
  _ ← check_all (λ restriction,
        match restriction with
        | Some v => if bool_decide (v = gb_route_alias b) then Ok ()
                    else Err (failure 403 "route_restriction_conflict" audit)
        | None => Ok ()
        end) [claim_string user "routeAlias"; claim_string workload "routeAlias"];
  let principal_id := uuid_to_string (gb_agent_def_id b) in
  Ok {| vi_user := user; vi_principal_id := principal_id;
        vi_billing_subject := default principal_id (claim_string workload "billingSubject");
        vi_bound_alias := Some (gb_route_alias b);
        vi_audit := set_decision "identity_verified" audit |}.

Definition authenticate (c : AgentDelegationConfig) (runtime : SecurityRuntime)
    (headers : HeaderMap) (required : bool) (now : Z) :
    result AuthorizationFailure VerifiedIdentity :=
  let audit := AuthorizationAudit_default in
  user_token ← map_err (λ r, failure 401 r audit) (bearer headers "authorization");
  user_token ← ok_or (failure 401 "user_token_required" audit) user_token;
  workload_token ← map_err (λ r, failure 401 r audit) (bearer headers "x-scope-token");
  if starts_with user_token "lad1."
     || match workload_token with Some t => starts_with t "lad1." | None => false end
  then Err (failure 401 "delegation_kind_not_supported" audit) else
  if negb (sr_enable_verify_jwt runtime) || sr_enable_mock_jwt runtime
  then Err (failure 503 "jwt_verification_unavailable" audit) else
  user ← ok_or (failure 401 "invalid_user_token" audit) (sr_verify_jwt_token runtime user_token);
  _ ← or_failure (failure 401 "invalid_user_token" audit)
        (strict_claims user (gd_user_issuer c) (gd_user_audience c) now);
  uid ← ok_or (failure 401 "user_identity_required" audit)
          (uid ← match au_user_id user with Some u => Some u | None => claim_string user "uid" end;
           if is_empty uid then None else Some uid);
  let audit :=
    {| aa_user_id := Some uid; aa_user_issuer := au_issuer user; aa_workload_client_id := None;
       aa_workload_issuer := None; aa_agent_def_id := None; aa_host_id := au_host user;
       aa_environment := None; aa_policy_digest := None; aa_registration_version := None;
       aa_correlation_id := None; aa_decision := ""; aa_user_access_decision := None;
       aa_agent_assignment_decision := None |} in
  match workload_token with
  | Some token => authenticate_workload c runtime user token now audit
  | None =>
      if required : bool then Err (failure 401 "workload_token_required" audit) else
      let principal_id :=
        match au_client_id user with Some id => id | None => default "" (au_user_id user) end in
      Ok {| vi_user := user; vi_principal_id := principal_id;
            vi_billing_subject := default principal_id (claim_string user "billingSubject");
            vi_bound_alias := claim_string user "routeAlias"; vi_audit := audit |}
  end.
End gateway.

(** ** What a verified identity rests on *)

(** Claims that name the issuer and the audience and are valid at [now]. *)
Definition claims_accepted (p : Principal) (issuer audience : string) (now : Z) : Prop :=
  au_issuer p = Some issuer
  ∧ (∃ v, JsonTree.get "aud" (au_claims p) = Some v
       ∧ (v = JString audience ∨ ∃ l, v = JArray l ∧ JString audience ∈ l))
  ∧ (∃ e, claim_i64 p "exp" = Some e ∧ (now < e)%Z)
  ∧ (∀ k v, k = "nbf" ∨ k = "iat" → JsonTree.get k (au_claims p) = Some v →
            ∃ t, as_i64 v = Some t ∧ (t ≤ now)%Z).

Lemma as_str_Some v s : as_str v = Some s ↔ v = JString s.
Proof. destruct v; naive_solver. Qed.

Lemma names_audience_true audience v :
  names_audience audience v = true ↔ (v = JString audience ∨ ∃ l, v = JArray l ∧ JString audience ∈ l).
Proof.
  unfold names_audience. rewrite orb_true_iff, bool_decide_eq_true, as_str_Some.
  apply or_iff_compat_l. destruct v as [| | | |l|]; cbn [as_array]; try naive_solver.
  rewrite existsb_exists. setoid_rewrite bool_decide_eq_true. setoid_rewrite as_str_Some.
  setoid_rewrite <- list_elem_of_In. naive_solver.
Qed.

Lemma expired_false p now : expired p now = false ↔ ∃ e, claim_i64 p "exp" = Some e ∧ (now < e)%Z.
Proof.
  unfold expired. destruct (claim_i64 p "exp") as [e|]; [|naive_solver]. rewrite Z.leb_gt. naive_solver.
Qed.

Lemma claim_late_false p k now :
  claim_late p k now = false ↔
  ∀ v, JsonTree.get k (au_claims p) = Some v → ∃ t, as_i64 v = Some t ∧ (t ≤ now)%Z.
Proof.
  unfold claim_late. destruct (JsonTree.get k (au_claims p)) as [v|]; [|naive_solver].
  destruct (as_i64 v) as [t|] eqn:E; [rewrite Z.ltb_ge|]; naive_solver.
Qed.

Lemma strict_claims_Ok p issuer audience now :
  strict_claims p issuer audience now = Ok () ↔ claims_accepted p issuer audience now.
Proof.
  unfold strict_claims, claims_accepted.
  assert (∀ c : bool, (if c then Err () else Ok ()) = Ok () ↔ c = false) as Hif.
  { by intros []. }
  rewrite Hif, !orb_false_iff, !negb_false_iff, bool_decide_eq_true, expired_false, !claim_late_false.
  destruct (JsonTree.get "aud" (au_claims p)) as [v|]; [rewrite names_audience_true|]; naive_solver.
Qed.

Lemma check_bindings_Ok seen bindings :
  check_bindings seen bindings = Ok () →
  NoDup ((λ b, (gb_issuer b, gb_client_id b)) <$> bindings)
  ∧ ∀ b, b ∈ bindings → ((gb_issuer b, gb_client_id b) ∉ seen) ∧ binding_invalid b = false.
Proof.
  revert seen. induction bindings as [|b rest IH]; intros seen; cbn.
  { split; [constructor|]. by intros b ?%not_elem_of_nil. }
  destruct (binding_invalid b) eqn:Eb; cbn [orb]; [done|]. case_bool_decide as Hs; [done|].
  intros [Hd Hrest]%IH. split.
  - constructor; [|done]. rewrite list_elem_of_fmap. intros (b' & E & Hb').
    destruct (Hrest b' Hb') as [Hn _]. apply Hn. rewrite <- E. left.
  - intros b' [->|Hb']%elem_of_cons; [done|]. destruct (Hrest b' Hb') as [Hn ?].
    split; [|done]. intros ?. apply Hn. by right.
Qed.

Lemma validated_binding_unique c b b' :
  AgentDelegationConfig_validate c = Ok () → b ∈ gd_bindings c → b' ∈ gd_bindings c →
  gb_issuer b = gb_issuer b' → gb_client_id b = gb_client_id b' → b = b'.
Proof.
  unfold AgentDelegationConfig_validate. do 2 (case_match; [done|]). rewrite check_Ok.
  intros [_ [Hd _]%check_bindings_Ok] [i Hi]%list_elem_of_lookup [j Hj]%list_elem_of_lookup E1 E2.
  assert (i = j) as <-; [|congruence].
  eapply (NoDup_lookup _ i j); [exact Hd|..]; rewrite list_lookup_fmap; [by rewrite Hi|].
  rewrite Hj. cbn. by rewrite E1, E2.
Qed.

Section identity.
Context {http : HttpLib} (uuid_to_string : Uuid → string).

(** The registration [b] covers the workload and the user it acts for. *)
Definition registered (b : AgentBinding) (user workload : Principal) (now : Z) : Prop :=
  au_client_id workload = Some (uuid_to_string (gb_client_id b))
  ∧ claims_accepted workload (gb_issuer b) (gb_audience b) now
  ∧ au_host user = Some (uuid_to_string (gb_host_id b)) ∧ au_host workload = au_host user
  ∧ workload_environment workload = Some (gb_environment b)
  ∧ gb_scopes b ⊆ workload_scopes workload
  ∧ ∀ alias, (claim_string user "routeAlias" = Some alias
              ∨ claim_string workload "routeAlias" = Some alias) → alias = gb_route_alias b.

Lemma authenticate_workload_Ok c runtime user token now audit id :
  authenticate_workload uuid_to_string c runtime user token now audit = Ok id →
  ∃ workload b, sr_verify_jwt_token runtime token = Some workload ∧ b ∈ gd_bindings c
    ∧ registered b user workload now ∧ vi_user id = user
    ∧ vi_principal_id id = uuid_to_string (gb_agent_def_id b)
    ∧ vi_bound_alias id = Some (gb_route_alias b)
    ∧ aa_agent_def_id (vi_audit id) = Some (uuid_to_string (gb_agent_def_id b)).
Proof.
  unfold authenticate_workload, or_failure. intros H.
  apply bind_Ok in H as (workload & Hv%ok_or_Ok & H). destruct (expired workload now); [done|].
  apply bind_Ok in H as (b & Hb%ok_or_Ok & H). apply check_Ok in H as [Hs%map_err_Ok H].
  cbn zeta in H. destruct (negb _ || negb _ || negb _) eqn:Ec in H; [done|].
  rewrite !orb_false_iff, !negb_false_iff, !bool_decide_eq_true in Ec. destruct Ec as [[Eh Ew] Ee].
  destruct (negb _) eqn:Es in H; [done|]. apply negb_false_iff, bool_decide_eq_true in Es.
  apply check_Ok in H as [Hr [= <-]]. rewrite check_all_Ok in Hr.
  unfold find_binding in Hb. apply head_Some_elem_of, list_elem_of_filter in Hb as [[Hc _] Hb].
  exists workload, b. cbn. split_and!; try done. unfold registered.
  split_and!; try done; [by apply strict_claims_Ok|].
  intros alias [Ha|Ha]; specialize (Hr (Some alias)); rewrite <- Ha in Hr;
    [specialize (Hr ltac:(left))|specialize (Hr ltac:(right; left))]; rewrite Ha in Hr;
    by case_bool_decide.
Qed.

(** C35 An identity is verified only from a single well-formed bearer credential whose token
    carries the configured issuer and audience and is valid now.  Without a workload token it
    is the user's and only where no workload is required.  With one it is that of a registered
    agent, in a validated configuration the only registration of that client and issuer, which matches the host of the user
    and the host, environment, scopes and route of the workload. *)
Theorem identity_verified c runtime headers required now id :
  authenticate uuid_to_string c runtime headers required now = Ok id →
  sr_enable_verify_jwt runtime = true ∧ sr_enable_mock_jwt runtime = false
  ∧ (∃ token, bearer headers "authorization" = Ok (Some token)
       ∧ sr_verify_jwt_token runtime token = Some (vi_user id)
       ∧ claims_accepted (vi_user id) (gd_user_issuer c) (gd_user_audience c) now)
  ∧ (bearer headers "x-scope-token" = Ok None ∧ required = false
       ∧ aa_agent_def_id (vi_audit id) = None
       ∧ vi_bound_alias id = claim_string (vi_user id) "routeAlias"
     ∨ ∃ token workload b, bearer headers "x-scope-token" = Ok (Some token)
         ∧ sr_verify_jwt_token runtime token = Some workload
         ∧ b ∈ gd_bindings c ∧ registered b (vi_user id) workload now
         ∧ vi_principal_id id = uuid_to_string (gb_agent_def_id b)
         ∧ vi_bound_alias id = Some (gb_route_alias b)
         ∧ aa_agent_def_id (vi_audit id) = Some (uuid_to_string (gb_agent_def_id b))
         ∧ (AgentDelegationConfig_validate c = Ok () → ∀ b', b' ∈ gd_bindings c →
              gb_issuer b' = gb_issuer b → gb_client_id b' = gb_client_id b → b' = b)).
Proof.
  unfold authenticate, or_failure. intros H.
  apply bind_Ok in H as (ut & Hu%map_err_Ok & H). apply bind_Ok in H as (token & Ht%ok_or_Ok & H). subst ut.
  apply bind_Ok in H as (wt & Hw%map_err_Ok & H). destruct (_ || _) in H; [done|].
  destruct (negb _ || _) eqn:Ec in H; [done|].
  apply orb_false_iff in Ec as [Ev%negb_false_iff Em].
  apply bind_Ok in H as (user & Hv%ok_or_Ok & H). apply check_Ok in H as [Hs%map_err_Ok H].
  apply bind_Ok in H as (uid & _ & H). cbn zeta in H. apply strict_claims_Ok in Hs.
  split; [done|]. split; [done|]. destruct wt as [wtoken|].
  - apply authenticate_workload_Ok in H as (workload & b & Hwv & Hb & Hr & Huser & Hp & Ha & Hd).
    rewrite Huser. split; [by exists token|]. right. exists wtoken, workload, b.
    split_and!; try done. intros Hval b' Hb' E1 E2. by eapply validated_binding_unique.
  - destruct required; [done|]. injection H as <-. cbn. split; [by exists token|]. by left.
Qed.
End identity.

(** ** A concrete run *)

Module AuthorizationInstance.

#[local] Instance headers_lib : HttpLib := {|
  HeaderMap := list (string * string);
  get_all := λ h name, (filter (λ x, x.1 = name) h).*2;
  to_str := Some;
|}.

Definition uuid_text (u : Uuid) : string := "id-" +:+ dec u.
Definition principal (client : option string) (issuer : string) (claims : list (string * Json)) : Principal :=
  {| au_client_id := client; au_user_id := Some "user-1"; au_issuer := Some issuer; au_email := None;
     au_host := Some "id-9"; au_role := None;
     au_claims := JObject (("aud", JArray [JString "gateway"]) :: ("exp", JNumber (PosInt 200)) :: claims) |}.
Definition the_user : Principal := principal None "users" [].
Definition the_workload : Principal :=
  principal (Some "id-1") "agents" [("env", JString "prod"); ("scope", JString "llm.call llm.list")].
Definition runtime : SecurityRuntime :=
  {| sr_enable_verify_jwt := true; sr_enable_mock_jwt := false;
     sr_verify_jwt_token := λ token,
       if bool_decide (token = "user-token") then Some the_user else
       if bool_decide (token = "agent-token") then Some the_workload else None |}.
Definition binding : AgentBinding :=
  {| gb_client_id := 1; gb_agent_def_id := 2; gb_host_id := 9; gb_environment := "prod";
     gb_issuer := "agents"; gb_audience := "gateway"; gb_scopes := {["llm.call"]};
     gb_route_alias := "fast"; gb_policy_digest := "sha256:"; gb_registration_version := 1;
     gb_expires_at := 0 |}.
Definition config : AgentDelegationConfig :=
  {| gd_endpoints := {["/v1/responses@post" := true]}; gd_bindings := [binding];
     gd_user_issuer := "users"; gd_user_audience := "gateway" |}.
Definition request : list (string * string) :=
  [("authorization", "Bearer user-token"); ("x-scope-token", "bearer agent-token")].

Definition agent_identity : VerifiedIdentity :=
  {| vi_user := the_user; vi_principal_id := "id-2"; vi_billing_subject := "id-2";
     vi_bound_alias := Some "fast";
     vi_audit := {| aa_user_id := Some "user-1"; aa_user_issuer := Some "users";
       aa_workload_client_id := Some "id-1"; aa_workload_issuer := Some "agents";
       aa_agent_def_id := Some "id-2"; aa_host_id := Some "id-9"; aa_environment := Some "prod";
       aa_policy_digest := Some "sha256:"; aa_registration_version := Some 1%N;
       aa_correlation_id := None; aa_decision := "identity_verified"; aa_user_access_decision := None;
       aa_agent_assignment_decision := None |} |}.

Lemma identity_verified_witness :
  authenticate uuid_text config runtime request true 100 = Ok agent_identity
  ∧ sr_enable_verify_jwt runtime = true ∧ sr_enable_mock_jwt runtime = false.
Proof.
  assert (authenticate uuid_text config runtime request true 100 = Ok agent_identity) as H
    by (vm_compute; reflexivity).
  split; [exact H|]. destruct (@identity_verified headers_lib uuid_text config runtime request true 100 agent_identity H)
    as (H1 & H2 & _). split; [exact H1|exact H2].
Defined.
End AuthorizationInstance.
