(* ===== verification/AuditWal.v ===== *)
(** * The audit log of the LLM gateway

    Model of [crates/llm-gateway/src/audit/wal.rs] and of the event types of
    [audit/mod.rs]: the segmented append-only log with its record format, the single writer
    with group commit, recovery, replay for the sink, and the reclaiming of acknowledged
    segments.  A file is its bytes and the number of bytes known to be on the medium.
    Operations of the file system succeed; the digest of a record and the JSON of an event
    are classes. *)

From S2P Require Import Prelude RustStr LlmError LlmAuthorization.
From Stdlib Require Import Ascii.

Abbreviation bytestring := (list ascii) (only parsing).

(** ** Events *)

Inductive AuditEventKind := RequestAdmitted | AttemptStarted | AttemptFinished | RequestFinished.

Record AuditTransportContext := {
  tc_network_profile_mode : string;
  tc_termination : string;
  tc_provider_endpoint_id : string;
  tc_profile_digest : string;
  tc_physical_runtime_id : option string;
  tc_capacity_domain_id : option string;
  tc_pricing_basis : string;
  tc_trust_digest_prefix : option string;
}.

Record AuditEvent := {
  ev_authorization : option AuthorizationAudit;
  ev_schema_version : N;
  ev_event_id : string;
  ev_kind : AuditEventKind;
  ev_request_id : string;
  ev_attempt : option N;
  ev_attempt_count : option N;
  ev_timestamp : string;
  ev_request_day : string;
  ev_generation : N;
  ev_snapshot_digest : string;
  ev_host_id : string;
  ev_public_alias : string;
  ev_operation : string;
  ev_status : string;
  ev_category : string;
  ev_deployment_id : option string;
  ev_transport_context : option AuditTransportContext;
  ev_duration_ms : N;
  ev_content_mode : string;
  ev_pii_profile : string;
  ev_expected_embedding_space_id : option string;
  ev_expected_embedding_space_revision : option N;
  ev_selected_embedding_space_id : option string;
  ev_selected_embedding_space_revision : option N;
  ev_principal_digest : string;
  ev_billing_subject_digest : option string;
  ev_charged_micros : option N;
  ev_usage_complete : option bool;
}.

(** [serde_json] on events, and SHA-256 as 32 bytes. *)
Class EventCodec := {
  event_to_vec : AuditEvent → option bytestring;
  event_from_slice : bytestring → option AuditEvent;
}.
Class Sha256Bytes := sha256 : bytestring → bytestring.

(** ** Format *)

Definition MAGIC : bytestring := bytes "LLMAUD01".
Definition FORMAT_VERSION : N := 1.
Definition GATEWAY_BYTES : nat := 64.
Definition HEADER_BYTES : N := 98.
Definition RECORD_PREFIX_BYTES : N := 44.

Definition corruption : LlmGatewayError := Config "LLM audit WAL corruption detected".

Record WalConfig := {
  wc_gateway_instance : string;
  wc_max_record_bytes : N;
  wc_max_segment_bytes : N;
  wc_max_spool_bytes : N;
  wc_queue_records : N;
  wc_batch_records : N;
  wc_batch_bytes : N;
  wc_commit_delay : N;
  wc_terminal_commit_before_response : bool;
  wc_persistent_volume : bool;
}.

Definition validate_config (c : WalConfig) : result LlmGatewayError unit :=
  if is_empty (wc_gateway_instance c) || (N.of_nat GATEWAY_BYTES <? slen (wc_gateway_instance c))%N
     || (wc_max_record_bytes c =? 0)%N
     || (wc_max_segment_bytes c <? HEADER_BYTES + RECORD_PREFIX_BYTES + 1)%N
     || (wc_max_spool_bytes c <? wc_max_segment_bytes c)%N || (wc_queue_records c =? 0)%N
     || (wc_batch_records c =? 0)%N || (wc_batch_bytes c <? wc_max_record_bytes c)%N
     || (wc_commit_delay c =? 0)%N
  then Err (Config "invalid LLM audit WAL bounds") else Ok ().

(** ** Files *)

Record WalFile := { wf_bytes : bytestring; wf_synced : nat }.
Definition flen (f : WalFile) : N := N.of_nat (length (wf_bytes f)).
Definition write_all (data : bytestring) (f : WalFile) : WalFile :=
  {| wf_bytes := wf_bytes f ++ data; wf_synced := wf_synced f |}.
Definition sync_data (f : WalFile) : WalFile :=
  {| wf_bytes := wf_bytes f; wf_synced := length (wf_bytes f) |}.
Definition set_len (n : nat) (f : WalFile) : WalFile :=
  {| wf_bytes := take n (wf_bytes f); wf_synced := Nat.min n (wf_synced f) |}.

(** The sink's checkpoint: the file [sink-checkpoint.json]. *)
Inductive Checkpoint := NoCheckpoint | Acknowledged (sequence : N) | Unreadable.

(** The directory: its segments under the identifiers their names contain. *)
Record Disk := { dk_segments : list (Uuid * WalFile); dk_checkpoint : Checkpoint }.
Definition set_segments (l : list (Uuid * WalFile)) (d : Disk) : Disk :=
  {| dk_segments := l; dk_checkpoint := dk_checkpoint d |}.

(** [wal_paths] and [paths.sort()]: names sort as the identifiers in them. *)
Definition sorted_paths (d : Disk) : list (Uuid * WalFile) :=
  stable_sort (λ a b, (a.1 <=? b.1)%N) (dk_segments d).
Definition update_file (id : Uuid) (f : WalFile → WalFile) (d : Disk) : Disk :=
  set_segments ((λ '(i, file), if (i =? id)%N then (i, f file) else (i, file)) <$> dk_segments d) d.

(** [read_exact]: the bytes and the rest of the file. *)
Definition read_exact (n : nat) (file : bytestring) : option (bytestring * bytestring) :=
  if (length file <? n)%nat then None else Some (take n file, drop n file).

Section wal.
Context {codec : EventCodec} {sha : Sha256Bytes}.

(** ** Records *)

Definition record_checksum (sequence : N) (payload : bytestring) : bytestring :=
  sha256 (be_bytes 8 sequence ++ payload).

(** The bytes [append_batch] writes for a command. *)
Definition encode_record (sequence : N) (payload : bytestring) : bytestring :=
  be_bytes 4 (N.of_nat (length payload)) ++ record_checksum sequence payload
  ++ be_bytes 8 sequence ++ payload.

(** The checksum, sequence and payload after a length. *)
Definition read_tail (len : nat) (file : bytestring) :
    option (bytestring * N * bytestring * bytestring) :=
  '(checksum, file) ← read_exact 32 file;
  '(sequence_bytes, file) ← read_exact 8 file;
  '(payload, file) ← read_exact len file;
  Some (checksum, be_value sequence_bytes, payload, file).

Definition read_record (max_record_bytes : N) (file : bytestring) :
    result LlmGatewayError (option (N * bytestring * bytestring)) :=
  match read_exact 4 file with
  | None => Ok None
  | Some (length_bytes, file) =>
      let len := be_value length_bytes in
      if (len =? 0)%N || (max_record_bytes <? len)%N then Err corruption else
      match read_tail (N.to_nat len) file with
      | None => Ok None
      | Some (checksum, sequence, payload, file) =>
          if negb (bool_decide (record_checksum sequence payload = checksum)) then Err corruption
          else Ok (Some (sequence, payload, file))
      end
  end.

(** ** Headers *)

Definition header (c : WalConfig) (segment_id : Uuid) (created : N) : bytestring :=
  MAGIC ++ be_bytes 2 FORMAT_VERSION ++ be_bytes 16 segment_id
  ++ bytes (wc_gateway_instance c)
  ++ replicate (GATEWAY_BYTES - String.length (wc_gateway_instance c)) Ascii.zero
  ++ be_bytes 8 created.

Definition create_segment (c : WalConfig) (segment_id : Uuid) (created : N) (d : Disk) :
    result LlmGatewayError (Disk * N) :=
  if bool_decide (segment_id ∈ (dk_segments d).*1)
  then Err (Config "LLM audit WAL unavailable: file exists") else
  let file := sync_data {| wf_bytes := header c segment_id created; wf_synced := 0 |} in
  Ok (set_segments (dk_segments d ++ [(segment_id, file)]) d, HEADER_BYTES).

(** The bytes before the first zero. *)
Fixpoint until_zero (l : bytestring) : bytestring :=
  match l with [] => [] | b :: rest => if (byte b =? 0)%N then [] else b :: until_zero rest end.

Definition verify_header (gateway_instance : string) (file : bytestring) :
    result LlmGatewayError bytestring :=
  '(h, rest) ← ok_or corruption (read_exact (N.to_nat HEADER_BYTES) file);
  if negb (bool_decide (take 8 h = MAGIC)) || negb (be_value (take 2 (drop 8 h)) =? FORMAT_VERSION)%N
  then Err corruption else
  let stored_gateway := take GATEWAY_BYTES (drop 26 h) in
  if negb (bool_decide (until_zero stored_gateway = bytes gateway_instance))
  then Err (Config "LLM audit WAL belongs to a different gateway instance") else Ok rest.

(** ** Recovery *)

(** The loop of [recover_segment] over the rest of a file: the events, the last sequence and
    the offset at which a torn tail is cut off.  Every record takes more than 44 bytes, so
    the length of the file is enough fuel. *)
Fixpoint recover_loop (fuel : nat) (last : bool) (max_record_bytes last_sequence : N)
    (offset : nat) (file : bytestring) :
    result LlmGatewayError (list AuditEvent * N * option nat) :=
  match fuel with
  | O => Err corruption
  | S fuel =>
      match read_exact 4 file with
      | None =>
          match file with
          | [] => Ok ([], last_sequence, None)
          | _ => if last then Ok ([], last_sequence, Some offset) else Err corruption
          end
      | Some (length_bytes, file) =>
          let len := be_value length_bytes in
          if (len =? 0)%N || (max_record_bytes <? len)%N then Err corruption else
          match read_tail (N.to_nat len) file with
          | None => if last then Ok ([], last_sequence, Some offset) else Err corruption
          | Some (checksum, sequence, payload, file) =>
              if (sequence <=? last_sequence)%N then Err corruption else
              if negb (bool_decide (record_checksum sequence payload = checksum)) then Err corruption else
              event ← ok_or corruption (event_from_slice payload);
              '(events, last_sequence, cut) ←
                recover_loop fuel last max_record_bytes sequence
                  (offset + N.to_nat (RECORD_PREFIX_BYTES + len)) file;
              Ok (event :: events, last_sequence, cut)
          end
      end
  end.

Definition recover_segment (c : WalConfig) (last : bool) (last_sequence : N) (file : WalFile) :
    result LlmGatewayError (list AuditEvent * N * WalFile) :=
  rest ← verify_header (wc_gateway_instance c) (wf_bytes file);
  '(events, last_sequence, cut) ←
    recover_loop (S (length rest)) last (wc_max_record_bytes c) last_sequence
      (N.to_nat HEADER_BYTES) rest;
  Ok (events, last_sequence,
      match cut with Some n => sync_data (set_len n file) | None => file end).

Record Recovery := {
  rc_last_sequence : N;
  rc_bytes : N;
  rc_segments : N;
  rc_active_attempts : gset (string * N);
}.
Definition incomplete_attempts (r : Recovery) : N := N.of_nat (size (rc_active_attempts r)).

Definition track_attempt (active : gset (string * N)) (event : AuditEvent) : gset (string * N) :=
  let key := (ev_request_id event, default 0%N (ev_attempt event)) in
  match ev_kind event with
  | AttemptStarted => active ∪ {[key]}
  | AttemptFinished => active ∖ {[key]}
  | _ => active
  end.

(** The loop of [recover] over the sorted paths, the last of which may be cut off. *)
Fixpoint recover_paths (c : WalConfig) (paths : list (Uuid * WalFile)) (r : Recovery) (d : Disk) :
    result LlmGatewayError (Recovery * Disk) :=
  match paths with
  | [] => Ok (r, d)
  | (id, file) :: rest =>
      let final := match rest with [] => true | _ => false end in
      '(events, last_sequence, file) ← recover_segment c final (rc_last_sequence r) file;
      recover_paths c rest
        {| rc_last_sequence := last_sequence; rc_bytes := sat_add u64_max (rc_bytes r) (flen file);
           rc_segments := rc_segments r;
           rc_active_attempts := foldl track_attempt (rc_active_attempts r) events |}
        (update_file id (λ _, file) d)
  end.
Definition recover (c : WalConfig) (d : Disk) : result LlmGatewayError (Recovery * Disk) :=
  let paths := sorted_paths d in
  recover_paths c paths
    {| rc_last_sequence := 0; rc_bytes := 0; rc_segments := N.of_nat (length paths);
       rc_active_attempts := ∅ |} d.

Definition load_checkpoint (d : Disk) : result LlmGatewayError N :=
  match dk_checkpoint d with
  | NoCheckpoint => Ok 0%N
  | Acknowledged sequence => Ok sequence
  | Unreadable => Err corruption
  end.

(** ** Replay *)

Record WalRecord := { wr_sequence : N; wr_event : AuditEvent; wr_encoded_bytes : N }.

(** One file of [read_records]: the batch so far and its bytes, and whether the batch is
    complete. *)
Fixpoint replay_file (fuel : nat) (max_record_bytes after max_records max_bytes : N)
    (records : list WalRecord) (used prior_sequence : N) (file : bytestring) :
    result LlmGatewayError (list WalRecord * N * N * bool) :=
  match fuel with
  | O => Err corruption
  | S fuel =>
      next ← read_record max_record_bytes file;
      match next with
      | None => Ok (records, used, prior_sequence, false)
      | Some (sequence, payload, file) =>
          if (sequence <=? prior_sequence)%N then Err corruption else
          if (sequence <=? after)%N
          then replay_file fuel max_record_bytes after max_records max_bytes records used sequence file
          else
          let encoded_bytes := (RECORD_PREFIX_BYTES + N.of_nat (length payload))%N in
          if negb (bool_decide (records = []))
             && ((max_records <=? N.of_nat (length records))%N
                 || (max_bytes <? sat_add u64_max used encoded_bytes)%N)
          then Ok (records, used, sequence, true) else
          event ← ok_or corruption (event_from_slice payload);
          let used := sat_add u64_max used encoded_bytes in
          let records := records ++ [{| wr_sequence := sequence; wr_event := event;
                                        wr_encoded_bytes := encoded_bytes |}] in
          if (max_records <=? N.of_nat (length records))%N || (max_bytes <=? used)%N
          then Ok (records, used, sequence, true)
          else replay_file fuel max_record_bytes after max_records max_bytes records used sequence file
      end
  end.

Fixpoint replay_paths (c : WalConfig) (after max_records max_bytes : N)
    (records : list WalRecord) (used prior_sequence : N) (paths : list (Uuid * WalFile)) :
    result LlmGatewayError (list WalRecord) :=
  match paths with
  | [] => Ok records
  | (_, file) :: rest =>
      body ← verify_header (wc_gateway_instance c) (wf_bytes file);
      '(records, used, prior_sequence, complete) ←
        replay_file (S (length body)) (wc_max_record_bytes c) after max_records max_bytes
          records used prior_sequence body;
      if complete : bool then Ok records
      else replay_paths c after max_records max_bytes records used prior_sequence rest
  end.

Definition read_records (c : WalConfig) (d : Disk) (after max_records max_bytes : N) :
    result LlmGatewayError (list WalRecord) :=
  replay_paths c after max_records max_bytes [] 0 0 (sorted_paths d).

(** [AuditWal::replay_batch], given the acknowledged sequence. *)
Definition replay_batch (c : WalConfig) (d : Disk) (acknowledged max_records max_bytes : N) :
    result LlmGatewayError (list WalRecord) :=
  if (max_records =? 0)%N || (max_bytes =? 0)%N then Ok []
  else read_records c d acknowledged max_records max_bytes.

(** ** Reclaiming *)

Fixpoint segment_loop (fuel : nat) (max_record_bytes : N) (file : bytestring) :
    result LlmGatewayError (list WalRecord) :=
  match fuel with
  | O => Err corruption
  | S fuel =>
      next ← read_record max_record_bytes file;
      match next with
      | None => Ok []
      | Some (sequence, payload, file) =>
          event ← ok_or corruption (event_from_slice payload);
          records ← segment_loop fuel max_record_bytes file;
          Ok ({| wr_sequence := sequence; wr_event := event;
                 wr_encoded_bytes := RECORD_PREFIX_BYTES + N.of_nat (length payload) |} :: records)
      end
  end.
Definition read_segment_records (c : WalConfig) (file : WalFile) :
    result LlmGatewayError (list WalRecord) :=
  body ← verify_header (wc_gateway_instance c) (wf_bytes file);
  segment_loop (S (length body)) (wc_max_record_bytes c) body.

Definition remove_file (id : Uuid) (d : Disk) : Disk :=
  set_segments (filter (λ x, x.1 ≠ id) (dk_segments d)) d.

(** The loop of [reclaim_segments]: the directory and the bytes it has freed, kept when it
    stops at a segment that cannot be read. *)
Fixpoint reclaim_paths (c : WalConfig) (acknowledged : N) (paths : list (Uuid * WalFile))
    (reclaimed : N) (d : Disk) : Disk * result LlmGatewayError N :=
  match paths with
  | [] => (d, Ok reclaimed)
  | (id, file) :: rest =>
      match read_segment_records c file with
      | Err e => (d, Err e)
      | Ok records =>
          match last records with
          | Some record =>
              if (wr_sequence record <=? acknowledged)%N
              then reclaim_paths c acknowledged rest (sat_add u64_max reclaimed (flen file))
                     (remove_file id d)
              else reclaim_paths c acknowledged rest reclaimed d
          | None => reclaim_paths c acknowledged rest reclaimed d
          end
      end
  end.
(** All but the newest segment, which belongs to the active writer. *)
Definition reclaim_segments (c : WalConfig) (acknowledged : N) (d : Disk) :
    Disk * result LlmGatewayError N :=
  let paths := sorted_paths d in
  reclaim_paths c acknowledged (take (length paths - 1) paths) 0 d.
Definition disk_bytes (d : Disk) : N :=
  foldl (λ total x, sat_add u64_max total (flen x.2)) 0%N (dk_segments d).

(** ** The writer *)

Record AppendCommand := {
  cm_sequence : N;
  cm_payload : bytestring;
  cm_durable : bool;
}.

Record SegmentWriter := {
  sw_file : Uuid;
  sw_current_bytes : N;
  sw_total_bytes : N;
  sw_segment_count : N;
}.

Definition SegmentWriter_open (c : WalConfig) (segment_id : Uuid) (created : N) (d : Disk) :
    result LlmGatewayError (SegmentWriter * Disk) :=
  let existing_bytes := total (λ x, flen x.2) (dk_segments d) in
  let existing := N.of_nat (length (dk_segments d)) in
  '(d, current_bytes) ← create_segment c segment_id created d;
  Ok ({| sw_file := segment_id; sw_current_bytes := current_bytes;
         sw_total_bytes := sat_add u64_max existing_bytes current_bytes;
         sw_segment_count := existing + 1 |}, d).

(** The failures of [append_batch]; what it has written before stays in the file. *)
Inductive WriteError := StorageFull | SegmentFailed (e : LlmGatewayError).

(** A new segment when the record does not fit into the current one.  [fresh] holds the
    identifiers and times of the segments that may be created. *)
Definition rotate (c : WalConfig) (fresh : list (Uuid * N)) (record_bytes : N) (w : SegmentWriter)
    (d : Disk) : result WriteError (SegmentWriter * Disk * list (Uuid * N)) :=
  if (wc_max_segment_bytes c <? sat_add u64_max (sw_current_bytes w) record_bytes)%N then
    match fresh with
    | [] => Err (SegmentFailed (Config "LLM audit WAL unavailable"))
    | (segment_id, created) :: fresh =>
        '(d, n) ← map_err SegmentFailed (create_segment c segment_id created d);
        Ok ({| sw_file := segment_id; sw_current_bytes := n;
               sw_total_bytes := sat_add u64_max (sw_total_bytes w) n;
               sw_segment_count := sat_add u64_max (sw_segment_count w) 1 |}, d, fresh)
    end
  else Ok (w, d, fresh).

Fixpoint append_batch (c : WalConfig) (fresh : list (Uuid * N)) (batch : list AppendCommand)
    (last_sequence : N) (w : SegmentWriter) (d : Disk) :
    SegmentWriter * Disk * result WriteError N :=
  match batch with
  | [] => (w, d, Ok last_sequence)
  | command :: rest =>
      let record_bytes := (RECORD_PREFIX_BYTES + N.of_nat (length (cm_payload command)))%N in
      match rotate c fresh record_bytes w d with
      | Err e => (w, d, Err e)
      | Ok (w, d, fresh) =>
          if (wc_max_spool_bytes c <? sat_add u64_max (sw_total_bytes w) record_bytes)%N
          then (w, d, Err StorageFull) else
          let record := encode_record (cm_sequence command) (cm_payload command) in
          append_batch c fresh rest (cm_sequence command)
            {| sw_file := sw_file w; sw_current_bytes := sat_add u64_max (sw_current_bytes w) record_bytes;
               sw_total_bytes := sat_add u64_max (sw_total_bytes w) record_bytes;
               sw_segment_count := sw_segment_count w |}
            (update_file (sw_file w) (write_all record) d)
      end
  end.

(** ** The log *)

Record AuditWal := {
  aw_config : WalConfig;
  aw_queue : list AppendCommand;
  aw_next_sequence : N;
  aw_durable_sequence : N;
  aw_acknowledged_sequence : N;
  aw_wal_bytes : N;
  aw_segments : N;
  aw_writer_failed : bool;
  aw_reserved_bytes : N;
  aw_reclaimed_bytes : N;
  aw_incomplete_attempts : N;
  aw_writer : SegmentWriter;
}.

Definition AuditWal_open (c : WalConfig) (segment_id : Uuid) (created : N) (d : Disk) :
    result LlmGatewayError (AuditWal * Disk) :=
  _ ← validate_config c;
  '(recovered, d) ← recover c d;
  acknowledged_sequence ← load_checkpoint d;
  '(writer, d) ← SegmentWriter_open c segment_id created d;
  Ok ({| aw_config := c; aw_queue := []; aw_next_sequence := rc_last_sequence recovered;
         aw_durable_sequence := rc_last_sequence recovered;
         aw_acknowledged_sequence := acknowledged_sequence; aw_wal_bytes := rc_bytes recovered;
         aw_segments := rc_segments recovered; aw_writer_failed := false; aw_reserved_bytes := 0;
         aw_reclaimed_bytes := 0; aw_incomplete_attempts := incomplete_attempts recovered;
         aw_writer := writer |}, d).

(** The first half of [append]: the record is numbered and queued. *)
Definition enqueue (event : AuditEvent) (durable : bool) (a : AuditWal) :
    AuditWal * result LlmGatewayError N :=
  let fail := (a, Err AuditUnavailable) in
  if aw_writer_failed a then fail else
  match event_to_vec event with
  | None => fail
  | Some payload =>
      if (wc_max_record_bytes (aw_config a) <? N.of_nat (length payload))%N then fail else
      let sequence := sat_add u64_max (aw_next_sequence a) 1 in
      if (wc_queue_records (aw_config a) <=? N.of_nat (length (aw_queue a)))%N then fail else
      ({| aw_config := aw_config a;
          aw_queue := aw_queue a ++ [{| cm_sequence := sequence; cm_payload := payload; cm_durable := durable |}];
          aw_next_sequence := sequence; aw_durable_sequence := aw_durable_sequence a;
          aw_acknowledged_sequence := aw_acknowledged_sequence a; aw_wal_bytes := aw_wal_bytes a;
          aw_segments := aw_segments a; aw_writer_failed := aw_writer_failed a;
          aw_reserved_bytes := aw_reserved_bytes a; aw_reclaimed_bytes := aw_reclaimed_bytes a;
          aw_incomplete_attempts := aw_incomplete_attempts a; aw_writer := aw_writer a |}, Ok sequence)
  end.

(** One turn of the writer thread on the first [n] commands of the queue.  A durable append
    waits for its result, which is the last sequence of the batch. *)
Definition commit (fresh : list (Uuid * N)) (n : nat) (a : AuditWal) (d : Disk) :
    AuditWal * Disk * result WriteError N :=
  let batch := take n (aw_queue a) in
  let w := aw_writer a in
  let w := {| sw_file := sw_file w; sw_current_bytes := sw_current_bytes w;
              sw_total_bytes := sw_total_bytes w - aw_reclaimed_bytes a;
              sw_segment_count := sw_segment_count w |} in
  let '(w, d, res) := append_batch (aw_config a) fresh batch 0 w d in
  let set ok durable bytes segments :=
    {| aw_config := aw_config a; aw_queue := drop n (aw_queue a);
       aw_next_sequence := aw_next_sequence a; aw_durable_sequence := durable;
       aw_acknowledged_sequence := aw_acknowledged_sequence a; aw_wal_bytes := bytes;
       aw_segments := segments; aw_writer_failed := aw_writer_failed a || negb ok;
       aw_reserved_bytes := aw_reserved_bytes a; aw_reclaimed_bytes := 0;
       aw_incomplete_attempts := aw_incomplete_attempts a; aw_writer := w |} in
  match res with
  | Err e => (set false (aw_durable_sequence a) (aw_wal_bytes a) (aw_segments a), d, Err e)
  | Ok sequence => (set true sequence (sw_total_bytes w) (sw_segment_count w),
                    update_file (sw_file w) sync_data d, Ok sequence)
  end.

(** [acknowledge]: the checkpoint is persisted before segments are reclaimed. *)
Definition acknowledge (sequence : N) (a : AuditWal) (d : Disk) :
    AuditWal * Disk * result LlmGatewayError unit :=
  if (sequence <? aw_acknowledged_sequence a)%N || (aw_durable_sequence a <? sequence)%N
  then (a, d, Err AuditUnavailable) else
  let d := {| dk_segments := dk_segments d; dk_checkpoint := Acknowledged sequence |} in
  let '(d, res) := reclaim_segments (aw_config a) sequence d in
  let set bytes segments reclaimed :=
    {| aw_config := aw_config a; aw_queue := aw_queue a; aw_next_sequence := aw_next_sequence a;
       aw_durable_sequence := aw_durable_sequence a; aw_acknowledged_sequence := sequence;
       aw_wal_bytes := bytes; aw_segments := segments; aw_writer_failed := aw_writer_failed a;
       aw_reserved_bytes := aw_reserved_bytes a; aw_reclaimed_bytes := reclaimed;
       aw_incomplete_attempts := aw_incomplete_attempts a; aw_writer := aw_writer a |} in
  match res with
  | Err e => (set (aw_wal_bytes a) (aw_segments a) (aw_reclaimed_bytes a), d, Err e)
  | Ok reclaimed =>
      (set (disk_bytes d) (N.of_nat (length (dk_segments d)))
         (wrap_add u64_max (aw_reclaimed_bytes a) reclaimed), d, Ok ())
  end.

(** [reserve_envelope] when no other thread runs: the bytes of the envelope.  [Drop] returns
    them. *)
Definition set_reserved (n : N) (a : AuditWal) : AuditWal :=
  {| aw_config := aw_config a; aw_queue := aw_queue a; aw_next_sequence := aw_next_sequence a;
     aw_durable_sequence := aw_durable_sequence a;
     aw_acknowledged_sequence := aw_acknowledged_sequence a; aw_wal_bytes := aw_wal_bytes a;
     aw_segments := aw_segments a; aw_writer_failed := aw_writer_failed a; aw_reserved_bytes := n;
     aw_reclaimed_bytes := aw_reclaimed_bytes a; aw_incomplete_attempts := aw_incomplete_attempts a;
     aw_writer := aw_writer a |}.
Definition reserve_envelope (max_attempts : N) (a : AuditWal) : AuditWal * result LlmGatewayError N :=
  if aw_writer_failed a then (a, Err AuditUnavailable) else
  let records := sat_add u64_max 2 (sat_mul u64_max max_attempts 2) in
  match checked_mul u64_max records
          (sat_add u64_max (sat_add u64_max (wc_max_record_bytes (aw_config a)) RECORD_PREFIX_BYTES)
             HEADER_BYTES) with
  | None => (a, Err AuditUnavailable)
  | Some n =>
      let projected := sat_add u64_max (sat_add u64_max (aw_wal_bytes a) (aw_reserved_bytes a)) n in
      if (wc_max_spool_bytes (aw_config a) <? projected)%N then (a, Err AuditUnavailable)
      else (set_reserved (sat_add u64_max (aw_reserved_bytes a) n) a, Ok n)
  end.
Definition drop_envelope (n : N) (a : AuditWal) : AuditWal :=
  set_reserved (wrap_sub u64_max (aw_reserved_bytes a) n) a.

Record WalStatus := {
  ws_durable_sequence : N;
  ws_acknowledged_sequence : N;
  ws_sink_lag_records : N;
  ws_wal_bytes : N;
  ws_segments : N;
  ws_writer_failed : bool;
  ws_recovered_incomplete_attempts : N;
}.
Definition status (a : AuditWal) : WalStatus :=
  {| ws_durable_sequence := aw_durable_sequence a;
     ws_acknowledged_sequence := aw_acknowledged_sequence a;
     ws_sink_lag_records := aw_durable_sequence a - aw_acknowledged_sequence a;
     ws_wal_bytes := aw_wal_bytes a; ws_segments := aw_segments a;
     ws_writer_failed := aw_writer_failed a;
     ws_recovered_incomplete_attempts := aw_incomplete_attempts a |}.
End wal.
