(* ===== verification/AuditWalFacts.v ===== *)
(** * Theorems on the audit log

    Records and segments read back as they were written, recovery keeps exactly the complete
    records of a torn log, replay makes progress, and reclaiming keeps every record that is
    not acknowledged. *)

From S2P Require Import Prelude RustStr LlmError AuditWal.
From Stdlib Require Import Ascii.

(** A SHA-256 digest has 32 bytes. *)
Class Sha256BytesLaws {sha : Sha256Bytes} : Prop := length_sha256 text : length (sha256 text) = 32%nat.

Section format.
Context {codec : EventCodec} {sha : Sha256Bytes} {laws : Sha256BytesLaws}.

(** ** Entries *)

(** A record as it was appended, with the event its payload encodes. *)
Record Entry := { en_sequence : N; en_payload : list ascii; en_event : AuditEvent }.

Definition entry_ok (c : WalConfig) (e : Entry) : Prop :=
  event_from_slice (en_payload e) = Some (en_event e)
  ∧ (0 < N.of_nat (length (en_payload e)) ≤ wc_max_record_bytes c)%N
  ∧ (N.of_nat (length (en_payload e)) < 2 ^ 32)%N ∧ (en_sequence e < 2 ^ 64)%N.

Definition entry_text (e : Entry) : list ascii := encode_record (en_sequence e) (en_payload e).
Definition entries_text (es : list Entry) : list ascii := es ≫= entry_text.

Lemma length_entry_text e : length (entry_text e) = (44 + length (en_payload e))%nat.
Proof.
  unfold entry_text, encode_record, record_checksum.
  rewrite !length_app, !length_be_bytes, length_sha256. lia.
Qed.

Lemma read_exact_app n l rest : length l = n → read_exact n (l ++ rest) = Some (l, rest).
Proof.
  intros <-. unfold read_exact. rewrite length_app, (proj2 (Nat.ltb_ge _ _)) by lia.
  by rewrite take_app_length, drop_app_length.
Qed.
Lemma read_exact_short n l : (length l < n)%nat → read_exact n l = None.
Proof. intros H. unfold read_exact. by rewrite (proj2 (Nat.ltb_lt _ _)). Qed.

Lemma read_tail_entry e rest :
  (en_sequence e < 2 ^ 64)%N →
  read_tail (length (en_payload e))
    (record_checksum (en_sequence e) (en_payload e) ++ be_bytes 8 (en_sequence e) ++ en_payload e ++ rest)
  = Some (record_checksum (en_sequence e) (en_payload e), en_sequence e, en_payload e, rest).
Proof.
  intros Hs. unfold read_tail. rewrite read_exact_app by apply length_sha256. cbn [mbind option_bind].
  rewrite read_exact_app by apply length_be_bytes. cbn [mbind option_bind].
  rewrite read_exact_app by done. cbn [mbind option_bind]. by rewrite be_value_bytes.
Qed.

(** A torn record: reading it runs out of bytes. *)
Lemma read_tail_short len l : (length l < 40 + len)%nat → read_tail len l = None.
Proof.
  intros H. unfold read_tail. destruct (Nat.lt_ge_cases (length l) 32) as [H1|H1].
  { by rewrite read_exact_short. }
  assert (∀ n, (n ≤ length l)%nat → read_exact n l = Some (take n l, drop n l)) as Hl.
  { intros n Hn. unfold read_exact. by rewrite (proj2 (Nat.ltb_ge _ _)). }
  rewrite Hl by done. cbn [mbind option_bind]. destruct (Nat.lt_ge_cases (length l) 40) as [H2|H2].
  { by rewrite (read_exact_short 8) by (rewrite length_drop; lia). }
  assert (read_exact 8 (drop 32 l) = Some (take 8 (drop 32 l), drop 8 (drop 32 l))) as ->.
  { unfold read_exact. rewrite length_drop. by rewrite (proj2 (Nat.ltb_ge _ _)) by lia. }
  cbn [mbind option_bind]. by rewrite read_exact_short by (rewrite !length_drop; lia).
Qed.

Lemma entry_text_app e rest :
  entry_text e ++ rest =
  be_bytes 4 (N.of_nat (length (en_payload e)))
  ++ record_checksum (en_sequence e) (en_payload e) ++ be_bytes 8 (en_sequence e) ++ en_payload e ++ rest.
Proof. unfold entry_text, encode_record. by rewrite <- !app_assoc. Qed.

Lemma length_in_range c e :
  entry_ok c e →
  (N.of_nat (length (en_payload e)) =? 0)%N || (wc_max_record_bytes c <? N.of_nat (length (en_payload e)))%N
  = false.
Proof. intros (_ & ? & _ & _). rewrite orb_false_iff, N.eqb_neq, N.ltb_ge. lia. Qed.

Lemma read_record_entry c e rest :
  entry_ok c e →
  read_record (wc_max_record_bytes c) (entry_text e ++ rest)
  = Ok (Some (en_sequence e, en_payload e, rest)).
Proof.
  intros He. pose proof He as (_ & _ & Hl & Hs). rewrite entry_text_app. unfold read_record.
  rewrite read_exact_app by apply length_be_bytes. rewrite be_value_bytes by done.
  rewrite length_in_range by done. rewrite Nat2N.id, read_tail_entry by done.
  by rewrite bool_decide_true.
Qed.

(** ** Torn tails *)

(** A proper part of the text of some record, or nothing. *)
Definition torn (c : WalConfig) (t : list ascii) : Prop :=
  t = [] ∨ ∃ e k, entry_ok c e ∧ (0 < k < length (entry_text e))%nat ∧ t = take k (entry_text e).

Lemma torn_cases c t :
  torn c t →
  t = [] ∨ (t ≠ [] ∧ read_exact 4 t = None)
  ∨ ∃ n rest, read_exact 4 t = Some (n, rest)
      ∧ (be_value n =? 0)%N || (wc_max_record_bytes c <? be_value n)%N = false
      ∧ read_tail (N.to_nat (be_value n)) rest = None.
Proof.
  intros [->|(e & k & He & Hk & ->)]; [by left|]. right. rewrite length_entry_text in Hk.
  destruct (Nat.lt_ge_cases k 4) as [Hs|Hs].
  { left. split.
    - intros E%(f_equal length). rewrite length_take, length_entry_text in E. cbn in E. lia.
    - apply read_exact_short. rewrite length_take. lia. }
  right. exists (be_bytes 4 (N.of_nat (length (en_payload e)))).
  pose proof He as (_ & _ & Hl & _).
  exists (take (k - 4) (record_checksum (en_sequence e) (en_payload e) ++ be_bytes 8 (en_sequence e)
                          ++ en_payload e)).
  rewrite be_value_bytes by done. split_and!; [|by apply length_in_range|].
  - rewrite <- (app_nil_r (entry_text e)), entry_text_app, app_nil_r.
    rewrite take_app_ge by (rewrite length_be_bytes; lia). rewrite length_be_bytes.
    apply read_exact_app, length_be_bytes.
  - rewrite Nat2N.id. apply read_tail_short. rewrite length_take. lia.
Qed.

Lemma read_record_torn c t : torn c t → read_record (wc_max_record_bytes c) t = Ok None.
Proof.
  intros [->|[[_ H]|(n & rest & H & Hn & Ht)]]%torn_cases; unfold read_record; [done|by rewrite H|].
  by rewrite H, Hn, Ht.
Qed.

(** The entries whose text lies within the first [n] bytes. *)
Fixpoint complete (n : nat) (es : list Entry) : list Entry :=
  match es with
  | [] => []
  | e :: rest =>
      if (length (entry_text e) <=? n)%nat then e :: complete (n - length (entry_text e)) rest else []
  end.

Lemma take_entries c n es :
  Forall (entry_ok c) es →
  ∃ t, take n (entries_text es) = entries_text (complete n es) ++ t ∧ torn c t.
Proof.
  revert n. induction es as [|e es IH]; intros n Hok; cbn [complete].
  { exists []. split; [by destruct n|by left]. }
  apply Forall_cons in Hok as [He Hok]. unfold entries_text in *. rewrite bind_cons.
  destruct (Nat.leb_spec (length (entry_text e)) n) as [Hn|Hn].
  - destruct (IH (n - length (entry_text e))%nat Hok) as (t & Ht & Htorn). exists t.
    rewrite take_app_ge, Ht by done. rewrite bind_cons, app_assoc. done.
  - exists (take n (entry_text e)). rewrite take_app_le by lia. split; [done|].
    destruct n; [by left|]. right. exists e, (S n). split_and!; [done|lia|lia|done].
Qed.

Lemma complete_prefix n es : complete n es `prefix_of` es.
Proof.
  revert n. induction es as [|e es IH]; intros n; cbn; [done|]. case_match; [|apply prefix_nil].
  by apply prefix_cons.
Qed.

(** Everything is complete when nothing is cut off. *)
Lemma complete_all n es : (length (entries_text es) ≤ n)%nat → complete n es = es.
Proof.
  revert n. induction es as [|e es IH]; intros n; cbn [complete]; [done|]. unfold entries_text in *.
  rewrite bind_cons, length_app. intros H. rewrite (proj2 (Nat.leb_le _ _)) by lia.
  f_equal. apply IH. lia.
Qed.

(** ** Headers *)

(** A valid configuration whose instance name has no zero byte. *)
Definition config_ok (c : WalConfig) : Prop :=
  validate_config c = Ok () ∧ Forall (λ b, byte b ≠ 0%N) (bytes (wc_gateway_instance c)).

Lemma gateway_length c : config_ok c → (length (bytes (wc_gateway_instance c)) ≤ 64)%nat.
Proof.
  intros [H _]. unfold validate_config in H. case_match eqn:E; [done|]. repeat (apply orb_false_iff in E as [E ?]).
  match goal with H : (_ <? slen _)%N = false |- _ => apply N.ltb_ge in H; rename H into Hl end.
  rewrite <- length_bytes in Hl. unfold GATEWAY_BYTES in Hl. lia.
Qed.

Lemma until_zero_app l k :
  Forall (λ b, byte b ≠ 0%N) l → until_zero (l ++ replicate k Ascii.zero) = l.
Proof.
  induction 1 as [|b l Hb _ IH]; [by destruct k|]. cbn. by rewrite (proj2 (N.eqb_neq _ _) Hb), IH.
Qed.

Lemma string_length_bytes s : String.length s = length (bytes s).
Proof. pose proof (length_bytes s). unfold slen in *. lia. Qed.

Lemma length_segment_header c id created : config_ok c → length (header c id created) = 98%nat.
Proof.
  intros Hc%gateway_length. unfold header, GATEWAY_BYTES.
  rewrite !length_app, !length_be_bytes, length_replicate, string_length_bytes.
  change (length MAGIC) with 8%nat. lia.
Qed.

Lemma verify_header_Ok c id created rest :
  config_ok c → verify_header (wc_gateway_instance c) (header c id created ++ rest) = Ok rest.
Proof.
  intros Hc. unfold verify_header. rewrite read_exact_app by (by apply length_segment_header).
  cbn [ok_or mbind result_bind].
  assert (take 8 (header c id created) = MAGIC) as -> by done.
  assert (take 2 (drop 8 (header c id created)) = be_bytes 2 FORMAT_VERSION) as -> by done.
  change (be_value (be_bytes 2 FORMAT_VERSION)) with FORMAT_VERSION.
  rewrite bool_decide_true by done. rewrite N.eqb_refl. cbn [negb orb].
  assert (drop 26 (header c id created) = bytes (wc_gateway_instance c)
    ++ replicate (GATEWAY_BYTES - String.length (wc_gateway_instance c)) Ascii.zero ++ be_bytes 8 created) as ->.
  { unfold header. rewrite !app_assoc, <- app_assoc, <- app_assoc, (app_assoc _ _ (be_bytes 8 created)).
    rewrite drop_app_ge by (rewrite !length_app, !length_be_bytes; cbn; lia).
    rewrite !length_app, !length_be_bytes. by rewrite drop_0. }
  assert (take GATEWAY_BYTES (bytes (wc_gateway_instance c)
    ++ replicate (GATEWAY_BYTES - String.length (wc_gateway_instance c)) Ascii.zero ++ be_bytes 8 created)
    = bytes (wc_gateway_instance c) ++ replicate (GATEWAY_BYTES - String.length (wc_gateway_instance c)) Ascii.zero) as ->.
  { rewrite app_assoc. apply take_app_length'. rewrite length_app, length_replicate, string_length_bytes.
    apply gateway_length in Hc. unfold GATEWAY_BYTES. lia. }
  rewrite until_zero_app by apply Hc. by rewrite bool_decide_true.
Qed.

(** ** Recovery of a segment *)

Fixpoint increasing (sequence : N) (es : list Entry) : Prop :=
  match es with [] => True | e :: rest => (sequence < en_sequence e)%N ∧ increasing (en_sequence e) rest end.
Definition last_of (sequence : N) (es : list Entry) : N := foldl (λ _ e, en_sequence e) sequence es.

Lemma last_of_app sequence es es' : last_of sequence (es ++ es') = last_of (last_of sequence es) es'.
Proof. unfold last_of. by rewrite foldl_app. Qed.

Lemma increasing_app sequence es es' :
  increasing sequence (es ++ es') ↔ increasing sequence es ∧ increasing (last_of sequence es) es'.
Proof.
  revert sequence. induction es as [|e es IH]; intros sequence; cbn; [naive_solver|].
  rewrite IH. unfold last_of. cbn. tauto.
Qed.

Lemma recover_loop_exact c final es t sequence offset fuel :
  Forall (entry_ok c) es → increasing sequence es → torn c t → final = true ∨ t = [] →
  (length es < fuel)%nat →
  recover_loop fuel final (wc_max_record_bytes c) sequence offset (entries_text es ++ t)
  = Ok (en_event <$> es, last_of sequence es,
        if decide (t = []) then None else Some (offset + length (entries_text es))%nat).
Proof.
  intros Hok. revert sequence offset fuel.
  induction Hok as [|e es He Hok IH]; intros sequence offset [|fuel] Hinc Ht Hf Hfuel; try (cbn in *; lia).
  - cbn [recover_loop]. unfold entries_text. cbn [mbind list_bind app]. rewrite Nat.add_0_r.
    destruct (torn_cases c t Ht) as [->|[[Hne H4]|(n & rest & H4 & Hn & Hr)]].
    + done.
    + rewrite H4, decide_False by done. destruct t; [done|]. by destruct Hf as [->|].
    + rewrite H4, Hn, Hr. destruct Hf as [->| ->]; [|done]. rewrite decide_False; [done|]. by intros ->.
  - destruct Hinc as [Hlt Hinc]. pose proof He as (Hev & _ & Hl & Hs).
    unfold entries_text in *. rewrite bind_cons, <- app_assoc, entry_text_app. cbn [recover_loop].
    rewrite read_exact_app by apply length_be_bytes. rewrite be_value_bytes by done.
    rewrite length_in_range by done. rewrite Nat2N.id, read_tail_entry by done.
    rewrite (proj2 (N.leb_gt _ _)) by done. rewrite bool_decide_true by done. cbn [negb].
    rewrite Hev. cbn [ok_or mbind result_bind].
    rewrite IH by (done || (cbn in Hfuel; lia)). cbn [mbind result_bind].
    rewrite length_app, length_entry_text. f_equal. f_equal. case_decide; [done|]. f_equal.
    unfold RECORD_PREFIX_BYTES. lia.
Qed.

Lemma length_entries_text es : (length es ≤ length (entries_text es))%nat.
Proof.
  unfold entries_text. induction es as [|e es IH]; [done|].
  rewrite bind_cons, length_app, length_entry_text. cbn [length]. lia.
Qed.

Lemma recover_segment_exact c final id created es n sequence f :
  config_ok c → Forall (entry_ok c) es → increasing sequence (complete n es) →
  final = true ∨ (length (entries_text es) ≤ n)%nat →
  wf_bytes f = header c id created ++ take n (entries_text es) →
  ∃ f', recover_segment c final sequence f
          = Ok (en_event <$> complete n es, last_of sequence (complete n es), f')
    ∧ wf_bytes f' = header c id created ++ entries_text (complete n es)
    ∧ ((length (entries_text es) ≤ n)%nat → f' = f).
Proof.
  intros Hc Hok Hinc Hf Hbytes. destruct (take_entries c n es Hok) as (t & Ht & Htorn).
  assert (Forall (entry_ok c) (complete n es)) as Hok'.
  { destruct (complete_prefix n es) as [k E]. rewrite E in Hok. by apply Forall_app in Hok as [? _]. }
  assert ((length (entries_text es) ≤ n)%nat → t = []) as Hfull.
  { intros Hn. rewrite complete_all, take_ge in Ht by done.
    rewrite <- (app_nil_r (entries_text es)) in Ht at 1. by apply app_inv_head in Ht. }
  assert (final = true ∨ t = []) as Hf' by (destruct Hf; auto).
  unfold recover_segment. rewrite Hbytes, verify_header_Ok by done. cbn [mbind result_bind].
  rewrite Ht, recover_loop_exact; [|done..|].
  2: { rewrite length_app. pose proof (length_entries_text (complete n es)). lia. }
  cbn [mbind result_bind]. case_decide as Et.
  - exists f. split_and!; [done| |done]. by rewrite Hbytes, Ht, Et, app_nil_r.
  - eexists. split_and!; [done| |by intros ?%Hfull]. cbn [sync_data set_len wf_bytes]. rewrite Hbytes, Ht, app_assoc.
    apply take_app_length'. rewrite length_app, length_segment_header by done. unfold HEADER_BYTES. lia.
Qed.

(** ** Directories *)

(** The segment [x] consists of a header and the entries [s]. *)
Definition holds (c : WalConfig) (x : Uuid * WalFile) (s : Uuid * list Entry) : Prop :=
  x.1 = s.1 ∧ ∃ created, wf_bytes x.2 = header c s.1 created ++ entries_text s.2.

(** The directory consists of the segments [segs], oldest first. *)
Definition disk_holds (c : WalConfig) (d : Disk) (segs : list (Uuid * list Entry)) : Prop :=
  NoDup (dk_segments d).*1 ∧ Forall2 (holds c) (sorted_paths d) segs.

Definition entries (segs : list (Uuid * list Entry)) : list Entry := segs ≫= snd.

(** The entries of a log: readable and numbered upwards. *)
Definition log_ok (c : WalConfig) (es : list Entry) : Prop :=
  Forall (entry_ok c) es ∧ increasing 0 es.

Definition change (id : Uuid) (g : WalFile → WalFile) (x : Uuid * WalFile) : Uuid * WalFile :=
  if (x.1 =? id)%N then (x.1, g x.2) else x.

Lemma update_file_change id g d :
  dk_segments (update_file id g d) = change id g <$> dk_segments d.
Proof. unfold update_file, change. cbn. by apply list_fmap_ext; intros _ [i f] _. Qed.

Lemma sorted_paths_update id g d : sorted_paths (update_file id g d) = change id g <$> sorted_paths d.
Proof.
  unfold sorted_paths. rewrite update_file_change.
  rewrite (stable_sort_fmap (change id g) (λ a b, (a.1 <=? b.1)%N)). f_equal. apply stable_sort_ext.
  intros [] []. unfold change. cbn. by repeat case_match.
Qed.

Lemma sorted_paths_perm d : sorted_paths d ≡ₚ dk_segments d.
Proof. apply stable_sort_perm. Qed.

Lemma change_keys id g l : (change id g <$> l).*1 = l.*1.
Proof.
  induction l as [|[i f] l IH]; [done|]. rewrite !fmap_cons, IH. f_equal. unfold change. cbn.
  by destruct (i =? id)%N.
Qed.

Lemma update_keys id g d : (dk_segments (update_file id g d)).*1 = (dk_segments d).*1.
Proof. rewrite update_file_change. apply change_keys. Qed.

Lemma change_other id g l : id ∉ l.*1 → change id g <$> l = l.
Proof.
  induction l as [|[i f] l IH]; [done|]. rewrite !fmap_cons, not_elem_of_cons. intros [Hi Hl].
  rewrite IH by done. unfold change. cbn. by rewrite (proj2 (N.eqb_neq _ _)).
Qed.

Lemma change_last id g l f : id ∉ l.*1 → change id g <$> (l ++ [(id, f)]) = l ++ [(id, g f)].
Proof. intros H. rewrite fmap_app, change_other by done. unfold change. cbn. by rewrite N.eqb_refl. Qed.

(** Writing back a file that is there changes nothing. *)
Lemma update_same id f d : NoDup (dk_segments d).*1 → (id, f) ∈ dk_segments d → update_file id (λ _, f) d = d.
Proof.
  intros Hd Hin. destruct d as [l cp]. cbn in *.
  assert (change id (λ _, f) <$> l = l) as E.
  { induction l as [|[i g] l IH]; [done|]. apply NoDup_cons in Hd as [Hi Hd].
    apply elem_of_cons in Hin as [[= <- <-]|Hin]; rewrite fmap_cons.
    - rewrite change_other by done. unfold change. cbn. by rewrite N.eqb_refl.
    - rewrite IH by done. unfold change. cbn. destruct (N.eqb_spec i id) as [->|]; [|done].
      destruct Hi. apply list_elem_of_fmap. by exists (id, f). }
  pose proof (update_file_change id (λ _, f) {| dk_segments := l; dk_checkpoint := cp |}) as H.
  cbn [dk_segments] in H. rewrite E in H. unfold update_file, set_segments in *. cbn in *. by rewrite H.
Qed.

(** The segments before the newest are read in full and left as they are. *)
Lemma recover_paths_older c pre segs x r d :
  config_ok c → NoDup (dk_segments d).*1 → Forall (λ x, x ∈ dk_segments d) pre →
  Forall2 (holds c) pre segs → Forall (entry_ok c) (entries segs) →
  increasing (rc_last_sequence r) (entries segs) →
  ∃ r', recover_paths c (pre ++ [x]) r d = recover_paths c [x] r' d
    ∧ rc_last_sequence r' = last_of (rc_last_sequence r) (entries segs)
    ∧ rc_active_attempts r' = foldl track_attempt (rc_active_attempts r) (en_event <$> entries segs).
Proof.
  intros Hc Hd Hin HF. revert r Hin. induction HF as [|[i g] [i' es'] pre segs [Hi (cr & Hg)] HF IH];
    intros r Hin Hok Hinc; [by exists r|]. cbn [app recover_paths].
  cbn in Hi, Hg. subst i'. apply Forall_cons in Hin as [Hi Hin].
  unfold entries in Hok, Hinc. rewrite bind_cons in Hok, Hinc. cbn [snd] in Hok, Hinc.
  apply Forall_app in Hok as [Hok' Hok]. apply increasing_app in Hinc as [Hinc' Hinc].
  edestruct (recover_segment_exact c false i cr es' (length (entries_text es'))) as (g' & Hr & _ & Hsame);
    [done..|by rewrite complete_all|by right|by rewrite take_ge|].
  rewrite complete_all in Hr by done. rewrite Hsame in Hr by done.
  destruct (pre ++ [x]) as [|y l] eqn:El; [by destruct pre|]. rewrite <- El in *. rewrite Hr.
  cbn [mbind result_bind]. rewrite update_same by done.
  edestruct IH as (r' & -> & Hl & Ha); [done|exact Hok|exact Hinc|].
  exists r'. split; [done|]. cbn in Hl, Ha. rewrite Hl, Ha. unfold entries. rewrite bind_cons.
  cbn [snd]. by rewrite !last_of_app, (fmap_app _ es'), foldl_app.
Qed.

Lemma recover_paths_exact c pre segs id created es n f r d :
  config_ok c → NoDup (dk_segments d).*1 → Forall (λ x, x ∈ dk_segments d) pre →
  Forall2 (holds c) pre segs → Forall (entry_ok c) (entries segs ++ es) →
  increasing (rc_last_sequence r) (entries segs ++ complete n es) →
  wf_bytes f = header c id created ++ take n (entries_text es) →
  ∃ r' f', recover_paths c (pre ++ [(id, f)]) r d = Ok (r', update_file id (λ _, f') d)
    ∧ rc_last_sequence r' = last_of (rc_last_sequence r) (entries segs ++ complete n es)
    ∧ rc_active_attempts r' = foldl track_attempt (rc_active_attempts r)
                                (en_event <$> (entries segs ++ complete n es))
    ∧ wf_bytes f' = header c id created ++ entries_text (complete n es).
Proof.
  intros Hc Hd Hin HF [Hok1 Hok2]%Forall_app [Hi1 Hi2]%increasing_app Hf.
  destruct (recover_paths_older c pre segs (id, f) r d) as (r1 & -> & Hl & Ha); [done..|].
  rewrite last_of_app, fmap_app, foldl_app, <- Hl, <- Ha. rewrite <- Hl in Hi2. cbn [recover_paths].
  edestruct (recover_segment_exact c true id created es n) as (f' & -> & Hf' & _); [done..|by left|done|].
  cbn [mbind result_bind]. eexists _, f'. by split.
Qed.

(** A newest segment that does not have its whole header is corrupt. *)
Lemma recover_paths_headerless c pre segs id f r d :
  config_ok c → NoDup (dk_segments d).*1 → Forall (λ x, x ∈ dk_segments d) pre →
  Forall2 (holds c) pre segs → Forall (entry_ok c) (entries segs) →
  increasing (rc_last_sequence r) (entries segs) → (length (wf_bytes f) < N.to_nat HEADER_BYTES)%nat →
  recover_paths c (pre ++ [(id, f)]) r d = Err corruption.
Proof.
  intros Hc Hd Hin HF Hok Hi Hf.
  destruct (recover_paths_older c pre segs (id, f) r d) as (r1 & -> & _ & _); [done..|].
  cbn [recover_paths]. unfold recover_segment, verify_header, read_exact.
  by rewrite (proj2 (Nat.ltb_lt _ _)).
Qed.

(** ** Crashes *)

(** A crash that leaves only the first [n] bytes of the newest segment. *)
Definition crash (n : nat) (d : Disk) : Disk :=
  match last (sorted_paths d) with
  | Some (id, _) => update_file id (set_len n) d
  | None => d
  end.

(** The directory after a crash: the older segments, and what is left of the newest. *)
Record crashed (c : WalConfig) (n : nat) (d : Disk) (segs : list (Uuid * list Entry)) (id : Uuid)
    (es : list Entry) (pre : list (Uuid * WalFile)) (f : WalFile) (created : N) : Prop := {
  cd_update : crash n d = update_file id (set_len n) d;
  cd_older : Forall2 (holds c) pre segs;
  cd_present : Forall (λ x, x ∈ dk_segments (crash n d)) pre;
  cd_paths : sorted_paths (crash n d) = pre ++ [(id, set_len n f)];
  cd_bytes : wf_bytes f = header c id created ++ entries_text es;
  cd_fresh : id ∉ pre.*1;
  cd_keys : NoDup (dk_segments (crash n d)).*1;
}.
Lemma crash_crashed c n d segs id es :
  disk_holds c d (segs ++ [(id, es)]) → ∃ pre f created, crashed c n d segs id es pre f created.
Proof.
  intros [Hd HF]. apply Forall2_app_inv_r in HF as (pre & l & Hpre & Hl & Hpaths).
  apply Forall2_cons_inv_r in Hl as ([i f] & l' & [Hi (created & Hf)] & Hl & ->).
  apply Forall2_nil_inv_r in Hl as ->. cbn [fst snd] in Hi, Hf. subst i.
  assert (id ∉ pre.*1) as Hid.
  { assert (NoDup (sorted_paths d).*1) as Hd' by (by rewrite sorted_paths_perm).
    rewrite Hpaths, fmap_app in Hd'. apply NoDup_app in Hd' as (_ & Hn & _).
    intros Hin. apply (Hn id Hin). cbn. left. }
  assert (crash n d = update_file id (set_len n) d) as Hc by (unfold crash; by rewrite Hpaths, last_snoc).
  assert (sorted_paths (crash n d) = pre ++ [(id, set_len n f)]) as Hcut
    by (by rewrite Hc, sorted_paths_update, Hpaths, change_last).
  exists pre, f, created. split; try done.
  - apply Forall_forall. intros x Hx. rewrite <- (sorted_paths_perm (crash n d)), Hcut. apply elem_of_app. by left.
  - by rewrite Hc, update_keys.
Qed.

(** Recovery after a crash behind the header of the newest segment keeps exactly the records
    that are complete and cuts off the torn tail. *)
Lemma recover_crash c d segs id es n :
  config_ok c → disk_holds c d (segs ++ [(id, es)]) → log_ok c (entries segs ++ es) →
  ∃ r d', recover c (crash (N.to_nat HEADER_BYTES + n) d) = Ok (r, d')
    ∧ disk_holds c d' (segs ++ [(id, complete n es)])
    ∧ (dk_segments d').*1 = (dk_segments d).*1 ∧ dk_checkpoint d' = dk_checkpoint d
    ∧ rc_last_sequence r = last_of 0 (entries segs ++ complete n es)
    ∧ rc_active_attempts r
        = foldl track_attempt ∅ (en_event <$> (entries segs ++ complete n es)).
Proof.
  intros Hc Hh [Hok Hinc].
  destruct (crash_crashed c (N.to_nat HEADER_BYTES + n) d segs id es Hh) as (pre & f & created & [E Hpre Hin Hcut Hf Hid Hk]).
  unfold recover. rewrite Hcut.
  edestruct (recover_paths_exact c pre segs id created es n (set_len (N.to_nat HEADER_BYTES + n) f))
    as (r' & f' & -> & Hlast & Hact & Hf'); try done.
  - cbn. apply increasing_app. apply increasing_app in Hinc as [H1 H2]. split; [done|].
    destruct (complete_prefix n es) as [k Ek]. rewrite Ek in H2. by apply increasing_app in H2 as [? _].
  - cbn [set_len wf_bytes]. rewrite Hf. rewrite take_app_ge by (rewrite length_segment_header by done; unfold HEADER_BYTES; lia).
    rewrite length_segment_header by done. do 2 f_equal. unfold HEADER_BYTES. lia.
  - eexists _, _. split; [done|]. split_and!; [|by rewrite update_keys, E, update_keys|by rewrite E|done|done]. split.
    + by rewrite update_keys.
    + rewrite sorted_paths_update, Hcut, change_last by done. apply Forall2_app; [done|].
      constructor; [|constructor]. split; [done|]. by exists created.
Qed.

(** After a crash inside the header the log is corrupt. *)
Lemma recover_headerless c d segs id es n :
  config_ok c → disk_holds c d (segs ++ [(id, es)]) → log_ok c (entries segs ++ es) →
  (n < N.to_nat HEADER_BYTES)%nat → recover c (crash n d) = Err corruption.
Proof.
  intros Hc Hh [[Hok _]%Forall_app [Hinc _]%increasing_app] Hn.
  destruct (crash_crashed c n d segs id es Hh) as (pre & f & created & [E Hpre Hin Hcut Hf Hid Hk]).
  unfold recover. rewrite Hcut. apply (recover_paths_headerless c pre segs); try done.
  cbn [set_len wf_bytes]. rewrite length_take. lia.
Qed.

(** ** Writing *)

(** The command writes the entry. *)
Definition writes (command : AppendCommand) (e : Entry) : Prop :=
  cm_sequence command = en_sequence e ∧ cm_payload command = en_payload e.

(** Identifiers for new segments, in increasing order above those of the directory. *)
Definition fresh_ids (d : Disk) (fresh : list (Uuid * N)) : Prop :=
  StronglySorted N.lt fresh.*1 ∧ Forall (λ i, Forall (λ j, j < i)%N (dk_segments d).*1) fresh.*1.

Lemma sorted_paths_snoc d x l :
  Forall (λ j, j < x.1)%N (dk_segments d).*1 → l = dk_segments d ++ [x] →
  sorted_paths (set_segments l d) = sorted_paths d ++ [x].
Proof.
  intros H ->. unfold sorted_paths. cbn. apply stable_sort_snoc. rewrite Forall_fmap in H.
  eapply Forall_impl; [exact H|]. intros y Hy. cbn in *. apply N.leb_le. lia.
Qed.

Lemma create_segment_holds c d segs id created :
  disk_holds c d segs → Forall (λ j, j < id)%N (dk_segments d).*1 →
  ∃ d', create_segment c id created d = Ok (d', HEADER_BYTES)
    ∧ (dk_segments d').*1 = (dk_segments d).*1 ++ [id] ∧ disk_holds c d' (segs ++ [(id, [])]).
Proof.
  intros [Hd HF] Hlt. unfold create_segment.
  assert (id ∉ (dk_segments d).*1) as Hid.
  { rewrite Forall_forall in Hlt. intros Hin%Hlt. lia. }
  rewrite bool_decide_false by done. eexists. split; [done|].
  cbn [dk_segments set_segments]. rewrite fmap_app. split; [done|]. split.
  - cbn. rewrite fmap_app. apply NoDup_app. split_and!; [done| |repeat constructor; set_solver].
    intros x Hx. cbn. set_solver.
  - rewrite (sorted_paths_snoc d (id, sync_data {| wf_bytes := header c id created; wf_synced := 0 |}))
      by done.
    apply Forall2_app; [done|]. constructor; [|done]. split; [done|]. exists created.
    by rewrite app_nil_r.
Qed.

Lemma write_holds c d segs id es e :
  disk_holds c d (segs ++ [(id, es)]) →
  disk_holds c (update_file id (write_all (entry_text e)) d) (segs ++ [(id, es ++ [e])]).
Proof.
  intros [Hd HF]. split; [by rewrite update_keys|].
  assert (NoDup (sorted_paths d).*1) as Hd' by (by rewrite sorted_paths_perm).
  rewrite sorted_paths_update. apply Forall2_app_inv_r in HF as (pre & l & Hpre & Hl & Hpaths).
  apply Forall2_cons_inv_r in Hl as ([i f] & l' & [Hi (created & Hf)] & Hl & ->).
  apply Forall2_nil_inv_r in Hl as ->. cbn [fst snd] in Hi, Hf. subst i. rewrite Hpaths in *.
  rewrite fmap_app in Hd'. apply NoDup_app in Hd' as (_ & Hn & _).
  rewrite change_last by (intros Hin; apply (Hn id Hin); left).
  apply Forall2_app; [done|]. constructor; [|done]. split; [done|]. exists created.
  cbn [write_all wf_bytes snd fst]. rewrite Hf. unfold entries_text. by rewrite bind_app, <- app_assoc, bind_singleton.
Qed.

Lemma fresh_ids_tail d d' i created fresh :
  fresh_ids d ((i, created) :: fresh) → (dk_segments d').*1 = (dk_segments d).*1 ++ [i] → fresh_ids d' fresh.
Proof.
  intros [Hs HF] E. cbn in Hs, HF. apply StronglySorted_inv in Hs as [Hs Hi].
  apply Forall_cons in HF as [_ HF]. split; [done|]. rewrite E.
  rewrite Forall_forall in *. intros j Hj. apply Forall_app. split; [by apply HF|].
  constructor; [by apply Hi|done].
Qed.

Lemma fresh_ids_same d d' fresh :
  (dk_segments d').*1 = (dk_segments d).*1 → fresh_ids d fresh → fresh_ids d' fresh.
Proof. unfold fresh_ids. by intros ->. Qed.

Lemma rotate_exact c fresh n w d segs es w' d' fresh' :
  disk_holds c d (segs ++ [(sw_file w, es)]) → fresh_ids d fresh →
  rotate c fresh n w d = Ok (w', d', fresh') →
  ∃ segs' es', disk_holds c d' (segs' ++ [(sw_file w', es')])
    ∧ entries segs' ++ es' = entries segs ++ es ∧ fresh_ids d' fresh'.
Proof.
  intros Hd Hf. unfold rotate. case_match.
  - destruct fresh as [|[i created] fresh]; [done|].
    pose proof Hf as [_ Hi]. cbn in Hi. apply Forall_cons in Hi as [Hi _].
    destruct (create_segment_holds c d _ i created Hd Hi) as (d1 & -> & Ek & Hd1). cbn.
    intros [= <- <- <-]. exists (segs ++ [(sw_file w, es)]), []. split_and!; [done| |by eapply fresh_ids_tail].
    unfold entries. by rewrite bind_app, bind_singleton, app_nil_r.
  - intros [= <- <- <-]. by exists segs, es.
Qed.

(** What a batch leaves in the directory: a prefix of it after the entries that were there,
    all of it when it succeeds. *)
Lemma append_batch_exact c fresh batch b last w d segs es w' d' res :
  disk_holds c d (segs ++ [(sw_file w, es)]) → fresh_ids d fresh → Forall2 writes batch b →
  append_batch c fresh batch last w d = (w', d', res) →
  ∃ segs' es' k, disk_holds c d' (segs' ++ [(sw_file w', es')])
    ∧ entries segs' ++ es' = entries segs ++ es ++ take k b
    ∧ match res with
      | Ok sequence => k = length b ∧ sequence = last_of last b
      | Err _ => (k < length b)%nat
      end.
Proof.
  intros Hd Hf HF. revert fresh last w d segs es Hd Hf.
  induction HF as [|command e batch b [Hs Hp] HF IH]; intros fresh last w d segs es Hd Hf H;
    cbn [append_batch] in H.
  { injection H as <- <- <-. exists segs, es, 0%nat. cbn. by rewrite app_nil_r. }
  destruct (rotate _ _ _ _ _) as [[[w1 d1] fresh1]|err] eqn:Er in H.
  2: { injection H as <- <- <-. exists segs, es, 0%nat. cbn. rewrite app_nil_r. split_and!; [done..|lia]. }
  destruct (rotate_exact _ _ _ _ _ _ _ _ _ _ Hd Hf Er) as (segs1 & es1 & Hd1 & He1 & Hf1).
  case_match.
  { injection H as <- <- <-. exists segs1, es1, 0%nat. cbn. rewrite app_nil_r. split_and!; [done..|lia]. }
  rewrite Hs, Hp in H. apply (write_holds _ _ _ _ _ e) in Hd1.
  eapply fresh_ids_same in Hf1; [|apply update_keys].
  pose proof (λ A B, IH _ _ _ _ segs1 (es1 ++ [e]) A B H) as IH'.
  destruct (IH' Hd1 Hf1) as (segs' & es' & k & Hd' & He' & Hk).
  exists segs', es', (S k). split; [done|]. split.
  - rewrite He', app_assoc. cbn [take]. rewrite !app_assoc, <- He1, <- !app_assoc. done.
  - destruct res; cbn [length]; [|lia]. by destruct Hk as [-> ->].
Qed.

(** ** Replay *)

Definition pending (after : N) (es : list Entry) : list Entry := filter (λ e, after < en_sequence e)%N es.
Definition size_of (e : Entry) : N := RECORD_PREFIX_BYTES + N.of_nat (length (en_payload e)).
Definition record_of (e : Entry) : WalRecord :=
  {| wr_sequence := en_sequence e; wr_event := en_event e; wr_encoded_bytes := size_of e |}.

(** A batch within the limits; a single record may exceed the bytes. *)
Definition batch_ok (max_records max_bytes : N) (l : list Entry) (used : N) : Prop :=
  used = N.min (total size_of l) u64_max ∧ (N.of_nat (length l) ≤ max_records)%N
  ∧ ((used ≤ max_bytes)%N ∨ (length l ≤ 1)%nat).

Lemma batch_ok_snoc max_records max_bytes l e used :
  batch_ok max_records max_bytes l used → (0 < max_records)%N →
  l = [] ∨ ((N.of_nat (length l) < max_records)%N ∧ (sat_add u64_max used (size_of e) ≤ max_bytes)%N) →
  batch_ok max_records max_bytes (l ++ [e]) (sat_add u64_max used (size_of e)).
Proof.
  intros (-> & Hl & _) Hm Hcase. unfold batch_ok. rewrite length_app. cbn [length]. split_and!.
  - rewrite total_app. cbn [total]. unfold sat_add. lia.
  - destruct Hcase as [->|[? _]]; cbn; lia.
  - destruct Hcase as [->|[_ ?]]; [right; cbn; lia|by left].
Qed.

Lemma pending_cons after e es :
  pending after (e :: es) = if (after <? en_sequence e)%N then e :: pending after es else pending after es.
Proof.
  unfold pending. rewrite filter_cons. destruct (N.ltb_spec after (en_sequence e)).
  - by rewrite decide_True.
  - rewrite decide_False by lia. done.
Qed.

Lemma replay_file_exact c after max_records max_bytes es t acc used prior fuel :
  Forall (entry_ok c) es → increasing prior es → torn c t → (0 < max_records)%N →
  batch_ok max_records max_bytes acc used → (length es < fuel)%nat →
  ∃ b used' prior' stop,
    replay_file fuel (wc_max_record_bytes c) after max_records max_bytes (record_of <$> acc) used prior
      (entries_text es ++ t) = Ok (record_of <$> (acc ++ b), used', prior', stop)
    ∧ b `prefix_of` pending after es ∧ batch_ok max_records max_bytes (acc ++ b) used'
    ∧ if stop : bool then acc ++ b ≠ [] else b = pending after es ∧ prior' = last_of prior es.
Proof.
  intros Hok. revert acc used prior fuel.
  induction Hok as [|e es He Hok IH]; intros acc used prior [|fuel] Hinc Ht Hm Hb Hfuel;
    try (cbn in Hfuel; lia); cbn [replay_file].
  { unfold entries_text. cbn [mbind list_bind app]. rewrite read_record_torn by done. cbn.
    exists [], used, prior, false. by rewrite app_nil_r. }
  destruct Hinc as [Hlt Hinc]. pose proof He as (Hev & _).
  unfold entries_text in *. rewrite bind_cons, <- app_assoc, read_record_entry by done.
  cbn [mbind result_bind]. rewrite (proj2 (N.leb_gt _ _)) by done. rewrite pending_cons.
  destruct (N.leb_spec (en_sequence e) after) as [Ha|Ha].
  { rewrite (proj2 (N.ltb_ge after (en_sequence e))) by done.
    destruct (IH acc used (en_sequence e) fuel) as (b & u & p & stop & E & Hrest);
      [done..|cbn in Hfuel; lia|]. exists b, u, p, stop. rewrite E. done. }
  rewrite (proj2 (N.ltb_lt after (en_sequence e))) by done. rewrite length_fmap.
  destruct (negb _ && _) eqn:Efull.
  { exists [], used, (en_sequence e), true. rewrite app_nil_r. split_and!; [done|apply prefix_nil|done|].
    apply andb_true_iff in Efull as [Hne _]. apply negb_true_iff, bool_decide_eq_false in Hne.
    intros ->. done. }
  rewrite Hev. cbn [ok_or mbind result_bind]. fold (size_of e).
  assert (batch_ok max_records max_bytes (acc ++ [e]) (sat_add u64_max used (size_of e))) as Hb'.
  { apply batch_ok_snoc; [done..|]. apply andb_false_iff in Efull as [Hne|Hfit].
    - left. apply negb_false_iff, bool_decide_eq_true in Hne. by destruct acc.
    - right. apply orb_false_iff in Hfit as [?%N.leb_gt ?%N.ltb_ge]. done. }
  assert ((record_of <$> acc) ++ [{| wr_sequence := en_sequence e; wr_event := en_event e;
            wr_encoded_bytes := size_of e |}] = record_of <$> (acc ++ [e])) as -> by (by rewrite fmap_app).
  case_match.
  { eexists [e], _, _, true. split; [done|]. split_and!; [|done|by destruct acc].
    apply prefix_cons, prefix_nil. }
  destruct (IH (acc ++ [e]) (sat_add u64_max used (size_of e)) (en_sequence e) fuel)
    as (b & u & p & stop & E & Hpre & Hb2 & Hstop); [done..|cbn in Hfuel; lia|].
  rewrite E. exists (e :: b), u, p, stop. rewrite <- app_assoc in *. split_and!; [done|by apply prefix_cons|done|].
  destruct stop; [done|]. by destruct Hstop as [-> ->].
Qed.

(** The segment consists of a header, the entries [s] and perhaps a torn record. *)
Definition reads (c : WalConfig) (x : Uuid * WalFile) (s : list Entry) : Prop :=
  ∃ created t, torn c t ∧ wf_bytes x.2 = header c x.1 created ++ entries_text s ++ t.

Lemma holds_reads c x s : holds c x s → reads c x s.2.
Proof.
  intros [E (created & H)]. exists created, []. rewrite app_nil_r, E. split; [by left|done].
Qed.

Lemma pending_app after es es' : pending after (es ++ es') = pending after es ++ pending after es'.
Proof. apply filter_app. Qed.

Lemma replay_paths_exact c after max_records max_bytes paths segs acc used prior :
  config_ok c → Forall2 (reads c) paths segs → Forall (entry_ok c) (concat segs) →
  increasing prior (concat segs) → (0 < max_records)%N → batch_ok max_records max_bytes acc used →
  ∃ b used', replay_paths c after max_records max_bytes (record_of <$> acc) used prior paths
               = Ok (record_of <$> (acc ++ b))
    ∧ b `prefix_of` pending after (concat segs) ∧ batch_ok max_records max_bytes (acc ++ b) used'
    ∧ (pending after (concat segs) ≠ [] → acc ++ b ≠ []).
Proof.
  intros Hc HF. revert acc used prior.
  induction HF as [|[i f] es paths segs (created & t & Ht & Hf) _ IH]; intros acc used prior Hok Hinc Hm Hb;
    cbn [replay_paths concat].
  { exists [], used. rewrite app_nil_r. by split_and!. }
  cbn [fst snd] in Hf. cbn [concat] in Hok, Hinc. apply Forall_app in Hok as [Hes Hok]. apply increasing_app in Hinc as [Hie Hinc].
  rewrite Hf, verify_header_Ok by done. cbn [mbind result_bind].
  destruct (replay_file_exact c after max_records max_bytes es t acc used prior (S (length (entries_text es ++ t))))
    as (b & u & p & stop & -> & Hpre & Hb' & Hstop); [done..| |].
  { rewrite length_app. pose proof (length_entries_text es). lia. }
  cbn [mbind result_bind]. rewrite pending_app. destruct stop.
  - exists b, u. split_and!; [done| |done|done]. by apply prefix_app_r.
  - destruct Hstop as [-> ->].
    destruct (IH (acc ++ pending after es) u (last_of prior es)) as (b' & u' & -> & Hpre' & Hb2 & Hne); [done..|].
    rewrite <- app_assoc in *. exists (pending after es ++ b'), u'. split_and!; [done| |done|].
    + destruct Hpre' as [k ->]. exists k. by rewrite app_assoc.
    + intros Hp. destruct (pending after es); [by apply Hne|]. by destruct acc.
Qed.

(** A batch for the sink is a prefix of the records after the acknowledged one, in order
    and with their events.  It is empty only when there is no such record, so that replay
    and acknowledgement reach every record; it has at most the configured number of records,
    and more than the configured bytes only when it is a single record. *)
Theorem replay_exact c d segs after max_records max_bytes :
  config_ok c → Forall2 (reads c) (sorted_paths d) segs → log_ok c (concat segs) →
  (0 < max_records)%N → (0 < max_bytes)%N →
  ∃ b, replay_batch c d after max_records max_bytes = Ok (record_of <$> b)
    ∧ b `prefix_of` pending after (concat segs) ∧ (pending after (concat segs) ≠ [] → b ≠ [])
    ∧ (N.of_nat (length b) ≤ max_records)%N
    ∧ ((N.min (total size_of b) u64_max ≤ max_bytes)%N ∨ (length b ≤ 1)%nat).
Proof.
  intros Hc HF [Hok Hinc] Hr Hm. unfold replay_batch, read_records.
  rewrite (proj2 (N.eqb_neq _ _)), (proj2 (N.eqb_neq _ _)) by lia. cbn [orb].
  destruct (replay_paths_exact c after max_records max_bytes (sorted_paths d) segs [] 0 0)
    as (b & u & E & Hpre & (Hu & Hl & Hsize) & Hne); [done..| |].
  { split_and!; [done|cbn; lia|right; cbn; lia]. }
  exists b. cbn [app] in *. subst u. done.
Qed.

(** ** Acknowledgement *)

Lemma segment_loop_exact c es fuel :
  Forall (entry_ok c) es → (length es < fuel)%nat →
  segment_loop fuel (wc_max_record_bytes c) (entries_text es) = Ok (record_of <$> es).
Proof.
  intros Hok. revert fuel. induction Hok as [|e es He Hok IH]; intros [|fuel] Hf; try (cbn in Hf; lia);
    cbn [segment_loop].
  { by rewrite read_record_torn by (by left). }
  unfold entries_text in *. rewrite bind_cons, read_record_entry by done. cbn [mbind result_bind].
  pose proof He as (-> & _). cbn [ok_or mbind result_bind]. rewrite IH by (cbn in Hf; lia). done.
Qed.

Lemma increasing_last sequence es : increasing sequence es → (sequence ≤ last_of sequence es)%N.
Proof.
  revert sequence. induction es as [|e es IH]; intros sequence; [done|]. intros [Hlt Hinc%IH].
  unfold last_of in *. cbn [foldl]. lia.
Qed.

Lemma increasing_le sequence es e :
  increasing sequence es → e ∈ es → (sequence < en_sequence e ≤ last_of sequence es)%N.
Proof.
  revert sequence. induction es as [|x es IH]; intros sequence; [by intros _ ?%not_elem_of_nil|].
  intros [Hlt Hinc] Hin. pose proof (increasing_last _ _ Hinc) as Hx.
  unfold last_of in *. cbn [foldl].
  apply elem_of_cons in Hin as [->|Hin]; [lia|]. specialize (IH _ Hinc Hin). lia.
Qed.

Lemma increasing_weaken sequence sequence' es :
  (sequence' ≤ sequence)%N → increasing sequence es → increasing sequence' es.
Proof. destruct es; [done|]. cbn. intros ? [? ?]. split; [lia|done]. Qed.

Lemma increasing_sublist sequence es es' : es `sublist_of` es' → increasing sequence es' → increasing sequence es.
Proof.
  intros H. revert sequence. induction H as [|e es es' H IH|e es es' H IH]; intros sequence; [done| |].
  - intros [? ?]. split; [done|by apply IH].
  - intros [? ?]. apply IH. eapply increasing_weaken; [|done]. lia.
Qed.

Lemma increasing_snoc sequence es e :
  increasing sequence es → (sequence < en_sequence e)%N → Forall (λ x, en_sequence x < en_sequence e)%N es →
  increasing sequence (es ++ [e]).
Proof.
  revert sequence. induction es as [|x es IH]; intros sequence; [done|].
  intros [? ?] ? [? ?]%Forall_cons. split; [done|]. by apply IH.
Qed.

Lemma pending_acknowledged after es : Forall (λ e, en_sequence e ≤ after)%N es → pending after es = [].
Proof.
  unfold pending. induction 1 as [|e es He _ IH]; [done|]. rewrite filter_cons_False, IH; [done|lia].
Qed.

(** The sink has acknowledged every record of the segment, and there is one. *)
Definition reclaimable (sequence : N) (s : Uuid * list Entry) : Prop :=
  s.2 ≠ [] ∧ (last_of 0 s.2 ≤ sequence)%N.
#[export] Instance reclaimable_dec sequence s : Decision (reclaimable sequence s).
Proof. unfold reclaimable. apply _. Defined.

Lemma last_record es sequence :
  match last (record_of <$> es) with
  | Some record => es ≠ [] ∧ wr_sequence record = last_of sequence es
  | None => es = []
  end.
Proof.
  destruct es as [|e es] using rev_ind; [done|]. rewrite fmap_last, last_snoc. cbn [fmap option_fmap option_map]. split; [by destruct es|].
  rewrite last_of_app. done.
Qed.

Lemma read_segment_records_exact c x s :
  config_ok c → holds c x s → Forall (entry_ok c) s.2 → read_segment_records c x.2 = Ok (record_of <$> s.2).
Proof.
  intros Hc [_ (created & E)] Hok. unfold read_segment_records. rewrite E, verify_header_Ok by done.
  cbn [mbind result_bind]. apply segment_loop_exact; [done|]. pose proof (length_entries_text s.2). lia.
Qed.

Lemma reclaim_paths_exact c sequence paths segs reclaimed d :
  config_ok c → Forall2 (holds c) paths segs → Forall (entry_ok c) (entries segs) →
  ∃ n, reclaim_paths c sequence paths reclaimed d
    = (set_segments (filter (λ x, x.1 ∉ (filter (reclaimable sequence) segs).*1) (dk_segments d)) d, Ok n).
Proof.
  intros Hc HF. revert reclaimed d.
  induction HF as [|[i f] s paths segs Hs _ IH]; intros reclaimed d Hok; cbn [reclaim_paths].
  { exists reclaimed. f_equal. destruct d as [l k]. unfold set_segments. cbn. f_equal.
    symmetry. apply filter_all, Forall_forall. intros x _. cbn. apply not_elem_of_nil. }
  unfold entries in Hok. rewrite bind_cons in Hok. apply Forall_app in Hok as [Hes Hok].
  pose proof (read_segment_records_exact c (i, f) s Hc Hs Hes) as E. cbn [snd] in E. rewrite E.
  destruct Hs as [Hi _]. cbn [fst] in Hi. pose proof (last_record s.2 0) as Hl.
  rewrite filter_cons. destruct (last _) as [r|].
  - destruct Hl as [Hne ->]. destruct (N.leb_spec (last_of 0 s.2) sequence) as [Hle|Hlt].
    + rewrite decide_True by (by split).
      destruct (IH (sat_add u64_max reclaimed (flen f)) (remove_file i d) Hok) as [n ->]. exists n.
      f_equal. unfold remove_file, set_segments. cbn. f_equal. rewrite list_filter_filter.
      apply list_filter_iff. intros x. rewrite not_elem_of_cons, Hi. tauto.
    + rewrite decide_False by (intros [_ ?]; lia). by apply IH.
  - rewrite decide_False by (intros [? _]; congruence). by apply IH.
Qed.

Lemma reclaim_segments_exact c sequence segs id es d :
  config_ok c → disk_holds c d (segs ++ [(id, es)]) → Forall (entry_ok c) (entries segs) →
  ∃ d' n, reclaim_segments c sequence d = (d', Ok n)
    ∧ disk_holds c d' (filter (λ s, ¬ reclaimable sequence s) segs ++ [(id, es)])
    ∧ (dk_segments d').*1 ⊆ (dk_segments d).*1 ∧ dk_checkpoint d' = dk_checkpoint d.
Proof.
  intros Hc [Hd HF] Hok. unfold reclaim_segments.
  assert (NoDup (segs ++ [(id, es)]).*1) as Hn.
  { assert ((sorted_paths d).*1 = (segs ++ [(id, es)]).*1) as <-.
    { clear Hok. induction HF as [|x s ? ? [E _] _ IH]; [done|]. rewrite !fmap_cons. by f_equal. }
    by rewrite sorted_paths_perm. }
  pose proof HF as HF'. apply Forall2_app_inv_r in HF' as (pre & l & Hpre & Hl & Hpaths).
  pose proof (Forall2_length _ _ _ Hl) as Hl1. cbn in Hl1. rewrite Hpaths, length_app, Hl1.
  rewrite Nat.add_sub, take_app_length.
  destruct (reclaim_paths_exact c sequence pre segs 0 d Hc Hpre Hok) as [n ->].
  eexists _, n. split; [done|]. split_and!; [| |done].
  - split; cbn [set_segments dk_segments].
    + eapply sublist_NoDup; [exact Hd|apply fmap_sublist, sublist_filter].
    + unfold sorted_paths. cbn [set_segments dk_segments]. rewrite stable_sort_select.
      2, 3: intros *; rewrite ?N.leb_le; lia.
      change (stable_sort _ (dk_segments d)) with (sorted_paths d). rewrite Hpaths, filter_app.
      rewrite fmap_app in Hn. apply NoDup_app in Hn as (Hn & Hid & _).
      apply Forall2_app.
      * eapply (Forall2_impl (λ x s, holds c x s ∧ s ∈ segs)); [|by intros ? ? [? _]].
        apply Forall2_filter; [|by apply Forall2_elem_r].
        intros x s [[-> _] Hs]. split.
        -- intros Hx Hr. apply Hx, list_elem_of_fmap. exists s. split; [done|]. by apply list_elem_of_filter.
        -- intros Hr (s' & E & [Hr' Hs']%list_elem_of_filter)%list_elem_of_fmap. apply Hr.
           by rewrite (NoDup_fmap_elem fst segs s s').
      * rewrite filter_all; [done|].
        apply Forall2_cons_inv_r in Hl as ([i f] & l' & [Hi _] & Hl & ->). cbn in Hi. subst i.
        apply Forall2_nil_inv_r in Hl as ->. constructor; [|done]. cbn.
        intros Hin. apply (Hid id); [|left]. revert Hin. apply sublist_subseteq, fmap_sublist, sublist_filter.
  - cbn [set_segments dk_segments]. apply sublist_subseteq, fmap_sublist, sublist_filter.
Qed.

Lemma entries_app segs segs' : entries (segs ++ segs') = entries segs ++ entries segs'.
Proof. unfold entries. apply bind_app. Qed.

Lemma entries_kept sequence segs :
  entries (filter (λ s, ¬ reclaimable sequence s) segs) `sublist_of` entries segs.
Proof.
  induction segs as [|s segs IH]; [done|]. rewrite filter_cons. unfold entries in *. rewrite bind_cons.
  case_match; [rewrite bind_cons; by apply sublist_app|by apply sublist_inserts_l].
Qed.

(** The records of a reclaimed segment have all been acknowledged. *)
Lemma pending_kept sequence first segs :
  increasing first (entries segs) →
  pending sequence (entries (filter (λ s, ¬ reclaimable sequence s) segs)) = pending sequence (entries segs).
Proof.
  revert first. induction segs as [|s segs IH]; intros first; [done|]. unfold entries in *.
  rewrite filter_cons, bind_cons. intros [Hs Hinc]%increasing_app. rewrite pending_app.
  case_match; [rewrite bind_cons, pending_app; f_equal; by eapply IH|].
  rewrite (IH (last_of first s.2)) by done. rewrite (pending_acknowledged _ s.2); [done|].
  apply Forall_forall. intros e He. assert (reclaimable sequence s) as [Hne Hle] by (by apply dec_stable).
  pose proof (increasing_le _ _ _ (increasing_weaken first 0 _ ltac:(lia) Hs) He). lia.
Qed.

Lemma acknowledge_holds c sequence a d segs id es :
  config_ok c → aw_config a = c → disk_holds c d (segs ++ [(id, es)]) →
  Forall (entry_ok c) (entries segs) →
  (aw_acknowledged_sequence a ≤ sequence ≤ aw_durable_sequence a)%N →
  ∃ a' d', acknowledge sequence a d = (a', d', Ok ())
    ∧ aw_config a' = aw_config a ∧ aw_queue a' = aw_queue a ∧ aw_writer a' = aw_writer a
    ∧ aw_next_sequence a' = aw_next_sequence a ∧ aw_acknowledged_sequence a' = sequence
    ∧ disk_holds c d' (filter (λ s, ¬ reclaimable sequence s) segs ++ [(id, es)])
    ∧ (dk_segments d').*1 ⊆ (dk_segments d).*1 ∧ dk_checkpoint d' = Acknowledged sequence.
Proof.
  intros Hc Ha Hd Hok Hs. unfold acknowledge.
  rewrite (proj2 (N.ltb_ge sequence _)), (proj2 (N.ltb_ge _ sequence)) by lia. cbn [orb].
  rewrite Ha.
  destruct (reclaim_segments_exact c sequence segs id es
    {| dk_segments := dk_segments d; dk_checkpoint := Acknowledged sequence |}) as (d' & n & -> & H); [done..|].
  by eexists _, _.
Qed.

(** C34 Acknowledging a durable record always succeeds.  It persists the checkpoint and removes
    from the directory exactly the segments that are not the newest, hold a record and whose
    records have all been acknowledged; so every record the sink has not acknowledged is still
    in the log, and a sequence that is not durable or goes back changes nothing. *)
Theorem acknowledge_exact c sequence a d segs id es :
  config_ok c → aw_config a = c → disk_holds c d (segs ++ [(id, es)]) → log_ok c (entries segs ++ es) →
  if ((aw_acknowledged_sequence a <=? sequence) && (sequence <=? aw_durable_sequence a))%N then
    ∃ a' d' segs', acknowledge sequence a d = (a', d', Ok ())
      ∧ segs' = filter (λ s, ¬ reclaimable sequence s) segs
      ∧ disk_holds c d' (segs' ++ [(id, es)])
      ∧ dk_checkpoint d' = Acknowledged sequence ∧ aw_acknowledged_sequence a' = sequence
      ∧ pending sequence (entries segs' ++ es) = pending sequence (entries segs ++ es)
  else acknowledge sequence a d = (a, d, Err AuditUnavailable).
Proof.
  intros Hc Ha Hd [Hok Hinc]. apply Forall_app in Hok as [Hok _]. apply increasing_app in Hinc as [Hinc _].
  destruct (_ && _) eqn:E.
  - apply andb_true_iff in E as [H1%N.leb_le H2%N.leb_le].
    destruct (acknowledge_holds c sequence a d segs id es) as (a' & d' & H & _ & _ & _ & _ & Hs & Hd' & _ & Hk); [done..|].
    eexists _, _, _. split_and!; [done..|]. rewrite !pending_app. f_equal. by eapply pending_kept.
  - unfold acknowledge. apply andb_false_iff in E as [E%N.leb_gt|E%N.leb_gt].
    + by rewrite (proj2 (N.ltb_lt sequence _)).
    + by rewrite (proj2 (N.ltb_lt _ sequence)), orb_true_r.
Qed.
End format.
