(* ===== verification/AuditWalHistory.v ===== *)
(** * The life of the audit log

    The write-ahead log as a state machine: events are queued, the writer commits batches,
    the sink acknowledges, and the process stops at any byte and opens the log again.  The
    invariant of the reachable states gives that every one of them can be opened again. *)

From Stdlib Require Import Ascii.
From S2P Require Import Prelude RustStr LlmError LlmAuthorization AuditWal AuditWalFacts.

(** [serde_json] reads back an event it has written, and what it writes is not empty. *)
Class EventCodecLaws {codec : EventCodec} : Prop := {
  event_roundtrip event text : event_to_vec event = Some text → event_from_slice text = Some event;
  event_text event : event_to_vec event ≠ Some [];
}.

Section history.
Context {codec : EventCodec} {sha : Sha256Bytes} {sha_laws : Sha256BytesLaws}
  {codec_laws : EventCodecLaws} (c : WalConfig).

(** ** Steps *)

(** A segment identifier later than those of the directory. *)
Definition newer (id : Uuid) (d : Disk) : Prop := Forall (λ j, j < id)%N (dk_segments d).*1.

Inductive step : AuditWal * Disk → AuditWal * Disk → Prop :=
  | step_enqueue event durable sequence a a' d :
      (aw_next_sequence a < u64_max)%N → enqueue event durable a = (a', Ok sequence) → step (a, d) (a', d)
  | step_commit fresh n res a a' d d' :
      aw_writer_failed a = false → (0 < n ≤ length (aw_queue a))%nat → fresh_ids d fresh →
      commit fresh n a d = (a', d', res) → step (a, d) (a', d')
  | step_acknowledge sequence res a a' d d' :
      acknowledge sequence a d = (a', d', res) → step (a, d) (a', d')
  | step_restart n id created a a' d d' :
      newer id d → AuditWal_open c id created (crash n d) = Ok (a', d') → step (a, d) (a', d').

(** The states of a log that starts in an empty directory. *)
Inductive reachable : AuditWal * Disk → Prop :=
  | reachable_open id created a d :
      AuditWal_open c id created {| dk_segments := []; dk_checkpoint := NoCheckpoint |} = Ok (a, d) →
      reachable (a, d)
  | reachable_step σ σ' : reachable σ → step σ σ' → reachable σ'.

(** ** The invariant *)

(** The entries [segs] and [es] are on disk and the entries [q] are queued. *)
Definition represents (a : AuditWal) (d : Disk) (segs : list (Uuid * list Entry)) (es q : list Entry) : Prop :=
  disk_holds c d (segs ++ [(sw_file (aw_writer a), es)]) ∧ Forall2 writes (aw_queue a) q.

Definition wal_ok (a : AuditWal) (d : Disk) : Prop :=
  aw_config a = c ∧ dk_checkpoint d ≠ Unreadable ∧ (aw_next_sequence a ≤ u64_max)%N
  ∧ ∃ segs es q, represents a d segs es q ∧ log_ok c (entries segs ++ es ++ q)
    ∧ Forall (λ e, en_sequence e ≤ aw_next_sequence a)%N (entries segs ++ es ++ q).

Lemma log_ok_sublist l k : l `sublist_of` k → log_ok c k → log_ok c l.
Proof.
  intros H [Hok Hinc]. split; [|by eapply increasing_sublist].
  rewrite Forall_forall in *. intros e He. apply Hok. by eapply sublist_subseteq.
Qed.

Lemma log_bound l : log_ok c l → Forall (λ e, en_sequence e ≤ last_of 0 l)%N l ∧ (last_of 0 l ≤ u64_max)%N.
Proof.
  intros [Hok Hinc]. split.
  - apply Forall_forall. intros e He. by apply (increasing_le 0 l e).
  - destruct l as [|e l] using rev_ind; [done|]. rewrite last_of_app. cbn.
    apply Forall_app in Hok as [_ Hok]. apply Forall_cons in Hok as [(_ & _ & _ & He) _].
    unfold u64_max. lia.
Qed.

(** Opening a directory with the entries [l] in its segments. *)
Lemma open_holds d d1 r segs id created l :
  config_ok c → recover c d = Ok (r, d1) → disk_holds c d1 segs → dk_checkpoint d1 ≠ Unreadable →
  newer id d1 → rc_last_sequence r = last_of 0 l → log_ok c l → entries segs = l →
  ∃ a' d', AuditWal_open c id created d = Ok (a', d') ∧ wal_ok a' d'
    ∧ sw_file (aw_writer a') = id ∧ disk_holds c d' (segs ++ [(id, [])])
    ∧ aw_durable_sequence a' = last_of 0 l ∧ aw_incomplete_attempts a' = incomplete_attempts r.
Proof.
  intros Hc Hr Hd Hk Hid Hl Hlog El. unfold AuditWal_open. rewrite (proj1 Hc), Hr. cbn [mbind result_bind].
  destruct (log_bound l Hlog) as [Hle Hmax].
  assert (∃ k, load_checkpoint d1 = Ok k) as [k ->].
  { unfold load_checkpoint. destruct (dk_checkpoint d1); eauto. done. }
  unfold SegmentWriter_open. cbn [mbind result_bind].
  destruct (create_segment_holds c d1 segs id created Hd Hid) as (d' & E & _ & Hd').
  pose proof E as E'. rewrite E'. cbn [mbind result_bind].
  eexists _, d'. split; [done|]. cbn. split_and!; [|done|done|done|done].
  unfold wal_ok, represents. cbn. rewrite Hl. split_and!; [done| |done|].
  - revert E. unfold create_segment. case_match; [done|]. by intros [= <-].
  - exists segs, [], []. rewrite app_nil_r, El. split_and!; [done|constructor|done|done].
Qed.

(** The process stops with [n] bytes after the header of the newest segment and opens the log
    again. *)
Lemma restart_holds a d segs es q n id created :
  config_ok c → dk_checkpoint d ≠ Unreadable → represents a d segs es q → log_ok c (entries segs ++ es ++ q) →
  newer id d →
  ∃ a' d', AuditWal_open c id created (crash (N.to_nat HEADER_BYTES + n) d) = Ok (a', d') ∧ wal_ok a' d'
    ∧ sw_file (aw_writer a') = id
    ∧ disk_holds c d' (segs ++ [(sw_file (aw_writer a), complete n es); (id, [])])
    ∧ aw_durable_sequence a' = last_of 0 (entries segs ++ complete n es)
    ∧ aw_incomplete_attempts a'
      = N.of_nat (size (foldl track_attempt ∅ (en_event <$> (entries segs ++ complete n es)))).
Proof.
  intros Hc Hk [Hd _] Hlog Hid.
  assert (log_ok c (entries segs ++ es)) as Hlog1.
  { eapply log_ok_sublist; [|exact Hlog]. rewrite app_assoc. by apply sublist_inserts_r. }
  destruct (recover_crash c d segs _ es n Hc Hd Hlog1) as (r & d1 & Hr & Hd1 & Ek & Ec & El & Ea).
  destruct (open_holds (crash (N.to_nat HEADER_BYTES + n) d) d1 r (segs ++ [(sw_file (aw_writer a), complete n es)]) id created
    (entries segs ++ complete n es)) as (a' & d' & Ho & Hw & Hf & Hd' & Hq & Hi); try done.
  - by rewrite Ec.
  - unfold newer. by rewrite Ek.
  - eapply log_ok_sublist; [|exact Hlog1]. apply sublist_app; [done|].
    destruct (complete_prefix n es) as [k E]. rewrite E at 2. by apply sublist_inserts_r.
  - rewrite entries_app. unfold entries. by rewrite bind_singleton.
  - exists a', d'. split_and!; [done..| |done|].
    + by rewrite <- app_assoc in Hd'.
    + rewrite Hi. unfold incomplete_attempts. by rewrite Ea.
Qed.

(** It stops inside the header, and the log cannot be opened. *)
Lemma restart_headerless a d segs es q n id created :
  config_ok c → represents a d segs es q → log_ok c (entries segs ++ es ++ q) →
  (n < N.to_nat HEADER_BYTES)%nat → AuditWal_open c id created (crash n d) = Err corruption.
Proof.
  intros Hc [Hd _] Hlog Hn. unfold AuditWal_open. rewrite (proj1 Hc). cbn [mbind result_bind].
  rewrite (recover_headerless c d segs _ es n Hc Hd); [done| |done].
  eapply log_ok_sublist; [|exact Hlog]. rewrite app_assoc. by apply sublist_inserts_r.
Qed.
Lemma header_split n : (n < N.to_nat HEADER_BYTES)%nat ∨ ∃ m, n = (N.to_nat HEADER_BYTES + m)%nat.
Proof.
  destruct (decide (n < N.to_nat HEADER_BYTES)%nat); [by left|right]. exists (n - N.to_nat HEADER_BYTES)%nat. lia.
Qed.

(** An event that is queued is read back as it is. *)
Lemma enqueue_holds event durable sequence a a' d :
  (wc_max_record_bytes c < 2 ^ 32)%N → wal_ok a d → (aw_next_sequence a < u64_max)%N →
  enqueue event durable a = (a', Ok sequence) → wal_ok a' d.
Proof.
  intros Hmax (Ha & Hk & _ & segs & es & q & [Hd Hq] & [Hok Hinc] & Hle) Hlt. unfold enqueue.
  case_match; [done|]. destruct (event_to_vec event) as [payload|] eqn:Et; [|done].
  case_match eqn:El; [done|]. case_match; [done|]. intros [= <- <-]. rewrite Ha in El. apply N.ltb_ge in El.
  assert (sat_add u64_max (aw_next_sequence a) 1 = aw_next_sequence a + 1)%N as E by (unfold sat_add; lia).
  set (e := {| en_sequence := aw_next_sequence a + 1; en_payload := payload; en_event := event |}).
  unfold wal_ok, represents. cbn. rewrite E. split_and!; [done..|lia|].
  exists segs, es, (q ++ [e]). rewrite !app_assoc, <- (app_assoc (entries segs)). split_and!.
  - done.
  - apply Forall2_app; [done|]. constructor; [|done]. split; [done|done].
  - split.
    + apply Forall_app. split; [done|]. constructor; [|done]. split_and!; cbn.
      * by apply event_roundtrip.
      * destruct payload; [by apply event_text in Et|cbn; lia].
      * done.
      * lia.
      * unfold u64_max in Hlt. lia.
    + apply increasing_snoc; [done|cbn; lia|]. eapply Forall_impl; [exact Hle|]. intros x Hx. cbn in *. lia.
  - apply Forall_app. split; [|constructor; [cbn; lia|done]].
    eapply Forall_impl; [exact Hle|]. intros x Hx. cbn in *. lia.
Qed.

Lemma sync_holds d segs id : disk_holds c d segs → disk_holds c (update_file id sync_data d) segs.
Proof.
  intros [Hd HF]. split; [by rewrite update_keys|]. rewrite sorted_paths_update. apply Forall2_fmap_l.
  eapply Forall2_impl; [exact HF|]. intros x s [Hi (created & Hb)].
  unfold change, compose. destruct (x.1 =? id)%N; (split; [done|]; by exists created).
Qed.

(** A turn of the writer adds the commands of its batch to the log, all of them unless it
    fails. *)
Lemma commit_holds fresh n a a' d d' res segs es q :
  aw_config a = c → represents a d segs es q → fresh_ids d fresh → commit fresh n a d = (a', d', res) →
  ∃ segs' es' k, represents a' d' segs' es' (drop n q)
    ∧ entries segs' ++ es' = entries segs ++ es ++ take k (take n q)
    ∧ match res with
      | Ok sequence => k = n ∧ sequence = last_of 0 (take n q) ∧ aw_durable_sequence a' = sequence
      | Err _ => aw_writer_failed a' = true ∧ aw_durable_sequence a' = aw_durable_sequence a
      end
    ∧ aw_config a' = c ∧ aw_next_sequence a' = aw_next_sequence a.
Proof.
  intros Ha [Hd Hq] Hf. unfold commit. rewrite Ha.
  set (w0 := {| sw_file := _ |}). assert (sw_file w0 = sw_file (aw_writer a)) as Hw0 by done. rewrite <- Hw0 in Hd.
  destruct (append_batch _ _ _ _ _ _) as [[w d1] r] eqn:E.
  destruct (append_batch_exact c fresh _ (take n q) 0 w0 _ segs es _ _ _ Hd Hf (Forall2_take _ _ _ n Hq) E)
    as (segs' & es' & k & Hd' & He & Hr).
  destruct r as [sequence|err]; intros [= <- <- <-]; cbn.
  - destruct Hr as [-> ->]. exists segs', es', n. rewrite firstn_all in He.
    split_and!; [split; [by apply sync_holds|by apply Forall2_drop]| |done..].
    by rewrite take_take, Nat.min_id.
  - exists segs', es', k. split_and!; [split; [done|by apply Forall2_drop]|done|by rewrite orb_true_r|done..].
Qed.

Lemma rotate_checkpoint fresh n w w' d d' fresh' :
  AuditWal.rotate c fresh n w d = Ok (w', d', fresh') → dk_checkpoint d' = dk_checkpoint d.
Proof.
  unfold AuditWal.rotate, create_segment. destruct (_ <? _)%N; [|by intros [= <- <- <-]].
  destruct fresh as [|[i created] fresh]; [done|]. destruct (bool_decide _); [done|].
  by intros [= <- <- <-].
Qed.
Lemma commit_checkpoint fresh n a a' d d' res :
  aw_config a = c → commit fresh n a d = (a', d', res) → dk_checkpoint d' = dk_checkpoint d.
Proof.
  unfold commit. intros ->. generalize (take n (aw_queue a)) as batch. intros batch.
  assert (∀ last w fresh d w' d' r, append_batch c fresh batch last w d = (w', d', r) →
    dk_checkpoint d' = dk_checkpoint d) as H.
  { induction batch as [|command batch IH]; intros last w fresh0 d0 w' d0' r; cbn [append_batch]; [by intros [= <- <- <-]|].
    destruct (AuditWal.rotate _ _ _ _ _) as [[[w1 d1] fresh1]|] eqn:Er; [|by intros [= <- <- <-]].
    apply rotate_checkpoint in Er. case_match; [by intros [= <- <- <-]|]. by intros ->%IH. }
  destruct (append_batch _ _ _ _ _ _) as [[w d1] r] eqn:E. apply H in E.
  destruct r; by intros [= <- <- <-].
Qed.

(** The invariant is preserved by every step. *)
Lemma step_wal_ok σ σ' :
  config_ok c → (wc_max_record_bytes c < 2 ^ 32)%N → step σ σ' → wal_ok σ.1 σ.2 → wal_ok σ'.1 σ'.2.
Proof.
  intros Hc Hmax Hs Hw. destruct Hs as [event durable sequence a a' d Hlt E|fresh n res a a' d d' Hf Hn Hfr E
    |sequence res a a' d d' E|n id created a a' d d' Hid E]; cbn [fst snd] in *.
  - by eapply enqueue_holds.
  - destruct Hw as (Ha & Hk & Hnext & segs & es & q & Hrep & Hlog & Hle).
    destruct (commit_holds _ _ _ _ _ _ _ _ _ _ Ha Hrep Hfr E) as (segs' & es' & k & Hrep' & He & _ & Ha' & Hn').
    assert (entries segs' ++ es' ++ drop n q `sublist_of` entries segs ++ es ++ q) as Hsub.
    { rewrite app_assoc, He, <- !app_assoc. do 2 (apply sublist_app; [done|]).
      rewrite <- (take_drop n q) at 3. apply sublist_app; [|done]. apply sublist_take. }
    split_and!; [done|by rewrite (commit_checkpoint _ _ _ _ _ _ _ Ha E)|by rewrite Hn'|].
    exists segs', es', (drop n q). split_and!; [done|by eapply log_ok_sublist|]. rewrite Hn'.
    rewrite Forall_forall in *. intros e He'. apply Hle. by eapply sublist_subseteq.
  - destruct Hw as (Ha & Hk & Hnext & segs & es & q & [Hd Hq] & Hlog & Hle).
    destruct (decide (aw_acknowledged_sequence a ≤ sequence ≤ aw_durable_sequence a)%N) as [H|H].
    + destruct (acknowledge_holds c sequence a d segs _ es Hc Ha Hd) as (a1 & d1 & E1 & H1 & H2 & H3 & H4 & _ & Hd' & _ & Hk').
      { by destruct Hlog as [[? _]%Forall_app _]. } { done. }
      rewrite E1 in E. injection E as <- <- <-.
      assert (entries (filter (λ s, ¬ reclaimable sequence s) segs) ++ es ++ q `sublist_of` entries segs ++ es ++ q) as Hsub.
      { apply sublist_app; [apply entries_kept|done]. }
      split_and!; [congruence|by rewrite Hk'|by rewrite H4|].
      eexists _, es, q. split_and!; [|by eapply log_ok_sublist|].
      * split; [by rewrite H3|by rewrite H2].
      * rewrite H4. rewrite Forall_forall in *. intros e He'. apply Hle. by eapply sublist_subseteq.
    + assert (acknowledge sequence a d = (a, d, Err AuditUnavailable)) as E1.
      { unfold acknowledge. case_match eqn:Eb; [done|]. apply orb_false_iff in Eb as [?%N.ltb_ge ?%N.ltb_ge]. lia. }
      rewrite E1 in E. injection E as <- <- <-. split_and!; [done..|]. by exists segs, es, q.
  - destruct Hw as (Ha & Hk & Hnext & segs & es & q & Hrep & Hlog & Hle).
    destruct (header_split n) as [Hn|[m ->]]; [by rewrite (restart_headerless a d segs es q) in E|].
    destruct (restart_holds a d segs es q m id created Hc Hk Hrep Hlog Hid) as (a1 & d1 & E1 & Hw & _).
    rewrite E1 in E. by injection E as <- <-.
Qed.

Lemma reachable_wal_ok σ :
  config_ok c → (wc_max_record_bytes c < 2 ^ 32)%N → reachable σ → wal_ok σ.1 σ.2.
Proof.
  intros Hc Hmax. induction 1 as [id created a d E|σ σ' _ IH Hs]; [|by eapply step_wal_ok].
  set (d0 := {| dk_segments := []; dk_checkpoint := NoCheckpoint |}) in E.
  destruct (open_holds d0 d0 {| rc_last_sequence := 0; rc_bytes := 0; rc_segments := 0; rc_active_attempts := ∅ |}
    [] id created []) as (a' & d' & E' & Hw & _); try done.
  - split; constructor.
  - constructor.
  - rewrite E' in E. by injection E as <- <-.
Qed.

(** C11 Whatever has been queued, written, acknowledged or interrupted since the log was
    created, when the process stops with any number of bytes in the newest segment: if its
    header is complete the log can be opened again, and it is refused as corrupt otherwise.
    The log that is opened has the records on disk that are complete, in order, with a new
    empty segment after them.  It continues with the sequence of the last one and reports the
    attempts among them that have started and not finished. *)
Theorem recovery_exact a d :
  config_ok c → (wc_max_record_bytes c < 2 ^ 32)%N → reachable (a, d) →
  ∃ segs es q, represents a d segs es q ∧ log_ok c (entries segs ++ es ++ q)
  ∧ ∀ n id created, newer id d →
    if (N.of_nat n <? HEADER_BYTES)%N then AuditWal_open c id created (crash n d) = Err corruption
    else
      let left := complete (n - N.to_nat HEADER_BYTES) es in let kept := entries segs ++ left in
      ∃ a' d', AuditWal_open c id created (crash n d) = Ok (a', d')
        ∧ disk_holds c d' (segs ++ [(sw_file (aw_writer a), left); (id, [])])
        ∧ aw_durable_sequence a' = last_of 0 kept
        ∧ aw_incomplete_attempts a' = N.of_nat (size (foldl track_attempt ∅ (en_event <$> kept))).
Proof.
  intros Hc Hmax (Ha & Hk & _ & segs & es & q & Hrep & Hlog & _)%reachable_wal_ok; [|done..].
  exists segs, es, q. split_and!; [done..|]. intros n id created Hid.
  destruct (header_split n) as [Hn|[m ->]].
  - rewrite (proj2 (N.ltb_lt _ _)) by lia. by apply (restart_headerless a d segs es q).
  - rewrite (proj2 (N.ltb_ge _ _)) by lia. rewrite Nat.add_comm, Nat.add_sub, Nat.add_comm. cbv zeta.
    destruct (restart_holds a d segs es q m id created Hc Hk Hrep Hlog Hid) as (a' & d' & E & _ & _ & Hd & Hl & Hi).
    by exists a', d'.
Qed.
End history.

(** ** A concrete log *)

Module AuditWalInstance.

#[export] Instance AuditEventKind_eq_dec : EqDecision AuditEventKind.
Proof. solve_decision. Defined.
#[export] Instance AuditTransportContext_eq_dec : EqDecision AuditTransportContext.
Proof. solve_decision. Defined.
#[export] Instance AuthorizationAudit_eq_dec : EqDecision AuthorizationAudit.
Proof. solve_decision. Defined.
#[export] Instance AuditEvent_eq_dec : EqDecision AuditEvent.
Proof. solve_decision. Defined.

Definition event (kind : AuditEventKind) : AuditEvent :=
  {| ev_authorization := None; ev_schema_version := 1; ev_event_id := "event"; ev_kind := kind;
     ev_request_id := "request-1"; ev_attempt := Some 1%N; ev_attempt_count := None;
     ev_timestamp := "2026-01-01T00:00:00Z"; ev_request_day := "2026-01-01"; ev_generation := 1;
     ev_snapshot_digest := "digest"; ev_host_id := "host"; ev_public_alias := "alias";
     ev_operation := "chat"; ev_status := "ok"; ev_category := "none"; ev_deployment_id := None;
     ev_transport_context := None; ev_duration_ms := 0; ev_content_mode := "metadata";
     ev_pii_profile := "off"; ev_expected_embedding_space_id := None;
     ev_expected_embedding_space_revision := None; ev_selected_embedding_space_id := None;
     ev_selected_embedding_space_revision := None; ev_principal_digest := "principal";
     ev_billing_subject_digest := None; ev_charged_micros := None; ev_usage_complete := None |}.

(** A codec for the events above: the name of their kind. *)
Definition kind_text (kind : AuditEventKind) : list ascii :=
  bytes (match kind with
         | RequestAdmitted => "admitted" | AttemptStarted => "started"
         | AttemptFinished => "finished" | RequestFinished => "closed"
         end).
#[export] Instance codec : EventCodec :=
  {| event_to_vec e := if decide (e = event (ev_kind e)) then Some (kind_text (ev_kind e)) else None;
     event_from_slice text :=
       event <$> head (filter (λ kind, kind_text kind = text)
                         [RequestAdmitted; AttemptStarted; AttemptFinished; RequestFinished]) |}.
#[export] Instance sha : Sha256Bytes := λ _, replicate 32 Ascii.zero.
#[export] Instance sha_laws : Sha256BytesLaws.
Proof. intros text. apply length_replicate. Qed.
#[export] Instance codec_laws : EventCodecLaws.
Proof.
  split.
  - cbn. intros e text. case_decide as E; [|done]. intros [= <-]. rewrite E. by destruct (ev_kind e).
  - cbn. intros e. case_decide; [|done]. by destruct (ev_kind e).
Qed.

Definition config : WalConfig :=
  {| wc_gateway_instance := "gateway-1"; wc_max_record_bytes := 256; wc_max_segment_bytes := 200;
     wc_max_spool_bytes := 4096; wc_queue_records := 16; wc_batch_records := 4; wc_batch_bytes := 1024;
     wc_commit_delay := 5; wc_terminal_commit_before_response := true; wc_persistent_volume := true |}.

Lemma config_valid : config_ok config.
Proof. split; [done|]. repeat (constructor; [done|]). constructor. Qed.

(** Sequences of operations on the log, for the examples.  A restart keeps all bytes. *)
Inductive Op := Append (kind : AuditEventKind) | Commit (fresh : Uuid) (n : nat) | Acknowledge (sequence : N)
  | Restart (id : Uuid).
Definition allowed (op : Op) (a : AuditWal) (d : Disk) : bool :=
  match op with
  | Append _ => (aw_next_sequence a <? u64_max)%N
  | Commit id n =>
      negb (aw_writer_failed a) && (0 <? n)%nat && (n <=? length (aw_queue a))%nat && bool_decide (newer id d)
  | Acknowledge _ => true
  | Restart id => bool_decide (newer id d)
  end.
Definition run_op (op : Op) (a : AuditWal) (d : Disk) : option (AuditWal * Disk) :=
  match op with
  | Append kind => match enqueue (event kind) true a with (a, Ok _) => Some (a, d) | _ => None end
  | Commit id n => Some (commit [(id, 0%N)] n a d).1
  | Acknowledge sequence => Some (acknowledge sequence a d).1
  | Restart id =>
      match AuditWal_open config id 0 (crash 4096 d) with Ok σ => Some σ | Err _ => None end
  end.
Fixpoint run_from (ops : list Op) (σ : AuditWal * Disk) : option (AuditWal * Disk) :=
  match ops with
  | [] => Some σ
  | op :: ops => if allowed op σ.1 σ.2 then σ ← run_op op σ.1 σ.2; run_from ops σ else None
  end.
Definition run (ops : list Op) : option (AuditWal * Disk) :=
  match AuditWal_open config 1 0 {| dk_segments := []; dk_checkpoint := NoCheckpoint |} with
  | Ok σ => run_from ops σ
  | Err _ => None
  end.

Lemma run_op_step op a d σ : allowed op a d = true → run_op op a d = Some σ → step config (a, d) σ.
Proof.
  destruct op as [kind|id n|sequence|id]; cbn [allowed run_op].
  - intros H%N.ltb_lt. destruct (enqueue _ _ _) as [a' [sequence|]] eqn:E; [|done]. intros [= <-].
    by eapply step_enqueue.
  - rewrite !andb_true_iff, negb_true_iff, Nat.ltb_lt, Nat.leb_le, bool_decide_eq_true.
    intros (((Hf & H0) & Hn) & Hid). destruct (commit _ _ _ _) as [[a' d'] res] eqn:E. intros [= <-].
    eapply step_commit; [done|done| |exact E]. split; [repeat constructor|]. by constructor.
  - intros _. destruct (acknowledge _ _ _) as [[a' d'] res] eqn:E. intros [= <-]. by eapply step_acknowledge.
  - rewrite bool_decide_eq_true. intros Hid. destruct (AuditWal_open _ _ _ _) as [[a' d']|] eqn:E; [|done].
    intros [= <-]. by eapply step_restart.
Qed.
Lemma run_reachable ops σ : run ops = Some σ → reachable config σ.
Proof.
  unfold run. destruct (AuditWal_open _ _ _ _) as [[a d]|] eqn:E; [|done].
  apply reachable_open in E. revert E. generalize (a, d) as σ0. clear a d.
  induction ops as [|op ops IH]; intros [a d] Hr; cbn; [by intros [= <-]|].
  destruct (allowed _ _ _) eqn:Ea; [|done]. destruct (run_op _ _ _) as [σ1|] eqn:Eo; [|done]. cbn.
  apply IH. eapply reachable_step; [exact Hr|]. by eapply run_op_step.
Qed.

Definition kinds (records : list WalRecord) : list AuditEventKind := (λ r, ev_kind (wr_event r)) <$> records.
Definition events_on_disk (d : Disk) : list (N * option (list AuditEventKind)) :=
  (λ x : Uuid * WalFile,
     (x.1, match read_segment_records config x.2 with Ok records => Some (kinds records) | Err _ => None end))
    <$> sorted_paths d.

(** Once the sink has acknowledged every record and the segments are reclaimed, a restart
    numbers records from 1 again while the checkpoint keeps its sequence.  The next record is
    then durable, it has not been acknowledged, and it is not replayed to the sink. *)
Example renumbered_record_lost :
  match run [Append AttemptStarted; Commit 2 1; Restart 3; Acknowledge 1; Restart 4;
             Append AttemptFinished; Commit 5 1] with
  | Some (a, d) =>
      events_on_disk d = [(3%N, Some []); (4%N, Some [AttemptFinished])]
      ∧ (aw_durable_sequence a, aw_acknowledged_sequence a) = (1, 1)%N
      ∧ ws_sink_lag_records (status a) = 0%N
      ∧ replay_batch config d (aw_acknowledged_sequence a) 100 4096 = Ok []
  | None => False
  end.
Proof. vm_compute. by split_and!. Qed.

(** A batch that fills a segment continues in a new one.  Only the new one is synced before
    the batch is reported durable. *)
Example rotated_segment_unsynced :
  match run [Append AttemptStarted; Append AttemptFinished; Commit 2 2] with
  | Some (a, d) =>
      aw_durable_sequence a = 2%N
      ∧ (λ x, (x.1, wf_synced x.2, length (wf_bytes x.2))) <$> sorted_paths d
        = [(1%N, 98%nat, 149%nat); (2%N, 150%nat, 150%nat)]
  | None => False
  end.
Proof. vm_compute. by split. Qed.

(** A crash after a segment is created and before its header is on disk leaves a log that
    cannot be opened. *)
Example headerless_segment_fatal :
  match run [Append AttemptStarted; Commit 2 1] with
  | Some (a, d) =>
      AuditWal_open config 3 0
        (set_segments (dk_segments d ++ [(2%N, {| wf_bytes := []; wf_synced := 0 |})]) d) = Err corruption
  | None => False
  end.
Proof. vm_compute. done. Qed.

(** One record on disk and one in the queue. *)
Definition sample_ops : list Op := [Append AttemptStarted; Commit 2 1; Append AttemptFinished].

Lemma recovery_exact_witness :
  match run sample_ops with
  | Some (a, d) =>
      ∃ segs es q, represents config a d segs es q ∧ log_ok config (entries segs ++ es ++ q)
      ∧ ∀ n id created, newer id d →
        if (N.of_nat n <? HEADER_BYTES)%N then AuditWal_open config id created (crash n d) = Err corruption
        else
          let left := complete (n - N.to_nat HEADER_BYTES) es in let kept := entries segs ++ left in
          ∃ a' d', AuditWal_open config id created (crash n d) = Ok (a', d')
            ∧ disk_holds config d' (segs ++ [(sw_file (aw_writer a), left); (id, [])])
            ∧ aw_durable_sequence a' = last_of 0 kept
            ∧ aw_incomplete_attempts a' = N.of_nat (size (foldl track_attempt ∅ (en_event <$> kept)))
  | None => False
  end.
Proof.
  destruct (run sample_ops) as [[a d]|] eqn:E; [|by vm_compute in E].
  apply (recovery_exact config a d); [apply config_valid|done|]. by eapply run_reachable.
Defined.

(** Two segments, the older one acknowledged. *)
Definition entry (sequence : N) (kind : AuditEventKind) : Entry :=
  {| en_sequence := sequence; en_payload := kind_text kind; en_event := event kind |}.
Definition segment (id : Uuid) (es : list Entry) : Uuid * WalFile :=
  (id, sync_data {| wf_bytes := header config id 0 ++ entries_text es; wf_synced := 0 |}).
Definition older : list Entry := [entry 1 AttemptStarted].
Definition newest : list Entry := [entry 2 AttemptFinished; entry 3 RequestFinished].
Definition two_segments : Disk :=
  {| dk_segments := [segment 2 newest; segment 1 older]; dk_checkpoint := NoCheckpoint |}.
Definition writer_of (d : Disk) : AuditWal :=
  {| aw_config := config; aw_queue := []; aw_next_sequence := 3; aw_durable_sequence := 3;
     aw_acknowledged_sequence := 0; aw_wal_bytes := disk_bytes d; aw_segments := 2;
     aw_writer_failed := false; aw_reserved_bytes := 0; aw_reclaimed_bytes := 0; aw_incomplete_attempts := 0;
     aw_writer := {| sw_file := 2; sw_current_bytes := 0; sw_total_bytes := 0; sw_segment_count := 2 |} |}.

Lemma two_segments_hold : disk_holds config two_segments ([(1%N, older)] ++ [(2%N, newest)]).
Proof.
  split; [repeat constructor; set_solver|].
  assert (sorted_paths two_segments = [segment 1 older; segment 2 newest]) as -> by done.
  repeat constructor; by exists 0%N.
Qed.
Lemma two_segments_log : log_ok config (older ++ newest).
Proof. split; [|done]. repeat constructor; done. Qed.

Lemma replay_exact_witness :
  ∃ b, replay_batch config two_segments 1 10 60 = Ok (record_of <$> b)
    ∧ b `prefix_of` pending 1 (concat [older; newest]) ∧ (pending 1 (concat [older; newest]) ≠ [] → b ≠ [])
    ∧ (N.of_nat (length b) ≤ 10)%N ∧ ((N.min (total size_of b) u64_max ≤ 60)%N ∨ (length b ≤ 1)%nat).
Proof.
  apply (replay_exact config two_segments [older; newest] 1 10 60);
    [apply config_valid| |apply two_segments_log|done|done].
  destruct two_segments_hold as [_ HF]. change [older; newest] with (snd <$> [(1%N, older); (2%N, newest)]). apply Forall2_fmap_r.
  eapply Forall2_impl; [exact HF|]. intros x y. apply holds_reads.
Defined.

Lemma acknowledge_exact_witness :
  ∃ a' d' segs', acknowledge 1 (writer_of two_segments) two_segments = (a', d', Ok ())
    ∧ segs' = filter (λ s, ¬ reclaimable 1 s) [(1%N, older)]
    ∧ disk_holds config d' (segs' ++ [(2%N, newest)])
    ∧ dk_checkpoint d' = Acknowledged 1 ∧ aw_acknowledged_sequence a' = 1%N
    ∧ pending 1 (entries segs' ++ newest) = pending 1 (entries [(1%N, older)] ++ newest).
Proof.
  apply (acknowledge_exact config 1 (writer_of two_segments) two_segments [(1%N, older)] 2 newest);
    [apply config_valid|done|apply two_segments_hold|apply two_segments_log].
Defined.
End AuditWalInstance.
