(* ===== verification/ReasoningSeal.v ===== *)
(** * Sealed reasoning state

    Model of [crates/llm-gateway/src/reasoning_seal.rs]: the state of a provider's reasoning
    is handed to the client encrypted, bound to tenant, alias, protocol and deployment, and is
    opened again when the client continues.  Base64, HMAC, AES-GCM and the reading of an
    envelope are classes; the texts that are encrypted and authenticated are the JSON
    serde writes. *)

From Stdlib Require Import Ascii.
From S2P Require Import Prelude RustStr JsonText InferenceError LlmError.

(** ** Configuration *)

Inductive ReasoningSealState := StateDisabled | Prepared | Active.
#[export] Instance ReasoningSealState_eq_dec : EqDecision ReasoningSealState.
Proof. solve_decision. Defined.

Record ReasoningSealKeyReference := { kr_key_id : string; kr_credential_ref : string }.

Record ReasoningStateLimits := {
  rl_max_encoded_item_bytes : N;
  rl_max_decoded_provider_state_bytes : N;
  rl_max_items_per_request : N;
  rl_max_cumulative_encoded_bytes : N;
  rl_max_cumulative_decoded_bytes : N;
}.
Definition ReasoningStateLimits_default : ReasoningStateLimits :=
  {| rl_max_encoded_item_bytes := 128 * 1024; rl_max_decoded_provider_state_bytes := 96 * 1024;
     rl_max_items_per_request := 8; rl_max_cumulative_encoded_bytes := 256 * 1024;
     rl_max_cumulative_decoded_bytes := 192 * 1024 |}.

Record ReasoningSealConfig := {
  rc_state : ReasoningSealState;
  rc_key_set_generation : N;
  rc_current : option ReasoningSealKeyReference;
  rc_previous : option ReasoningSealKeyReference;
  rc_limits : ReasoningStateLimits;
}.
Definition ReasoningSealConfig_default : ReasoningSealConfig :=
  {| rc_state := StateDisabled; rc_key_set_generation := 0; rc_current := None; rc_previous := None;
     rc_limits := ReasoningStateLimits_default |}.

Definition validate_reference (reference : ReasoningSealKeyReference) : result ReasoningSealError unit :=
  if is_empty (kr_key_id reference) || (128 <? slen (kr_key_id reference))%N
     || is_empty (kr_credential_ref reference)
  then Err KeyConfigInvalid else Ok ().

Definition validate_seal_config (c : ReasoningSealConfig) : result ReasoningSealError unit :=
  let limits := rc_limits c in
  if (rl_max_encoded_item_bytes limits =? 0)%N
     || (rl_max_decoded_provider_state_bytes limits =? 0)%N
     || (rl_max_items_per_request limits =? 0)%N
     || (rl_max_cumulative_encoded_bytes limits <? rl_max_encoded_item_bytes limits)%N
     || (rl_max_cumulative_decoded_bytes limits <? rl_max_decoded_provider_state_bytes limits)%N
  then Err KeyConfigInvalid else
  if bool_decide (rc_state c = StateDisabled) then Ok () else
  if (rc_key_set_generation c =? 0)%N then Err KeyConfigInvalid else
  match rc_current c with
  | None => Err KeyConfigInvalid
  | Some current =>
      _ ← validate_reference current;
      match rc_previous c with
      | None => Ok ()
      | Some previous =>
          _ ← validate_reference previous;
          if bool_decide (kr_key_id previous = kr_key_id current) then Err KeyConfigInvalid else Ok ()
      end
  end.

(** ** Bindings and envelopes *)

Definition ENVELOPE_VERSION : N := 1.
Definition NONCE_BYTES : nat := 12.
Definition ROUTE_BINDING_BYTES : nat := 16.
Definition MAX_ENVELOPE_METADATA_BYTES : N := 2 * 1024.
(** [aead::MAX_TAG_LEN]. *)
Definition MAX_TAG_LEN : N := 16.

(** [ClientProtocol] of [model-provider], with the names it is written with. *)
Inductive ClientProtocol :=
| OpenAiChat | OpenAiResponses | OpenAiEmbeddings | AnthropicMessages | InternalCanonical.
Definition protocol_name (p : ClientProtocol) : string :=
  match p with
  | OpenAiChat => "openai_chat"
  | OpenAiResponses => "openai_responses"
  | OpenAiEmbeddings => "openai_embeddings"
  | AnthropicMessages => "anthropic_messages"
  | InternalCanonical => "internal_canonical"
  end.

Record ReasoningBinding := {
  rb_tenant_id : string;
  rb_alias : string;
  rb_client_protocol : ClientProtocol;
  rb_deployment_id : string;
  rb_provider_material_generation : N;
}.
Record RouteCandidate := { cd_deployment_id : string; cd_provider_material_generation : N }.
Record ResolvedReasoningState := { rs_deployment_id : string; rs_provider_state : list ascii }.

Record Envelope := {
  el_version : N;
  el_key_id : string;
  el_key_set_generation : N;
  el_provider_material_generation : N;
  el_route_binding : string;
  el_nonce : string;
  el_ciphertext : string;
}.

(** [serde_json::to_vec] of a struct: its members in order. *)
Definition member_text (x : string * string) : string := json_string x.1 +:+ ":" +:+ x.2.
Definition struct_text (l : list (string * string)) : list ascii := bytes (enclosed "{" "}" (member_text <$> l)).
Definition envelope_to_vec (e : Envelope) : list ascii :=
  struct_text
    [("version", dec (el_version e)); ("keyId", json_string (el_key_id e));
     ("keySetGeneration", dec (el_key_set_generation e));
     ("providerMaterialGeneration", dec (el_provider_material_generation e));
     ("routeBinding", json_string (el_route_binding e)); ("nonce", json_string (el_nonce e));
     ("ciphertext", json_string (el_ciphertext e))].
Definition associated_data (key_id : string) (key_set_generation : N) (b : ReasoningBinding) : list ascii :=
  struct_text
    [("version", dec ENVELOPE_VERSION); ("keyId", json_string key_id);
     ("keySetGeneration", dec key_set_generation); ("tenantId", json_string (rb_tenant_id b));
     ("alias", json_string (rb_alias b));
     ("clientProtocol", json_string (protocol_name (rb_client_protocol b)));
     ("deploymentId", json_string (rb_deployment_id b));
     ("providerMaterialGeneration", dec (rb_provider_material_generation b))].

(** [URL_SAFE_NO_PAD], [Hmac<Sha256>], [AES_256_GCM] ([aead_seal] appends the tag) and
    [serde_json::from_slice] on an envelope. *)
Class SealPrimitives := {
  base64url_encode : list ascii → string;
  base64url_decode : string → option (list ascii);
  hmac_sha256 : list ascii → list ascii → list ascii;
  aead_seal : list ascii → list ascii → list ascii → list ascii → option (list ascii);
  aead_open : list ascii → list ascii → list ascii → list ascii → option (list ascii);
  envelope_from_slice : list ascii → option Envelope;
}.

Section sealer.
Context {prims : SealPrimitives}.

(** The route and the sealing key have the same 32 bytes. *)
Definition route_binding (key : list ascii) (deployment_id : string) : string :=
  base64url_encode (take ROUTE_BINDING_BYTES
    (hmac_sha256 key (bytes "light-gateway/reasoning-route/v1" ++ [Ascii.zero] ++ bytes deployment_id))).

(** ** The sealer *)

Record ReasoningSealer := {
  sl_state : ReasoningSealState;
  sl_key_set_generation : N;
  sl_current_key_id : option string;
  sl_keys : gmap string (list ascii);
  sl_limits : ReasoningStateLimits;
}.

(** [SecretResolver]. *)
Definition key_material (resolve_secret : string → result LlmGatewayError string)
    (reference : ReasoningSealKeyReference) : result ReasoningSealError (list ascii) :=
  material ← map_err (λ _, KeyUnavailable) (resolve_secret (kr_credential_ref reference));
  decoded ← ok_or KeyConfigInvalid
    (base64url_decode (default (trim material) (strip_prefix "base64:" (trim material))));
  if (length decoded =? 32)%nat then Ok decoded else Err KeyConfigInvalid.
Definition add_key (resolve_secret : string → result LlmGatewayError string)
    (keys : gmap string (list ascii)) (reference : ReasoningSealKeyReference) :
    result ReasoningSealError (gmap string (list ascii)) :=
  key ← key_material resolve_secret reference; Ok (<[kr_key_id reference := key]> keys).
Definition resolve (c : ReasoningSealConfig) (resolve_secret : string → result LlmGatewayError string) :
    result ReasoningSealError ReasoningSealer :=
  _ ← validate_seal_config c;
  keys ← for_each (add_key resolve_secret) ∅
    (option_list (rc_current c) ++ option_list (rc_previous c));
  Ok {| sl_state := rc_state c; sl_key_set_generation := rc_key_set_generation c;
        sl_current_key_id := kr_key_id <$> rc_current c; sl_keys := keys; sl_limits := rc_limits c |}.

Definition is_ready (s : ReasoningSealer) : bool :=
  bool_decide (sl_state s = StateDisabled)
  || (bool_decide (is_Some (sl_current_key_id s)) && negb (bool_decide (sl_keys s = ∅))).

(** [seal] with the random bytes of the nonce. *)
Definition seal (s : ReasoningSealer) (nonce : option (list ascii)) (b : ReasoningBinding)
    (provider_state : list ascii) : result ReasoningSealError string :=
  if negb (bool_decide (sl_state s = Active)) then Err Disabled else
  if (rl_max_decoded_provider_state_bytes (sl_limits s) <? N.of_nat (length provider_state))%N
  then Err TooLarge else
  key_id ← ok_or KeyUnavailable (sl_current_key_id s);
  key ← ok_or KeyUnavailable (sl_keys s !! key_id);
  nonce_bytes ← ok_or KeyUnavailable nonce;
  let aad := associated_data key_id (sl_key_set_generation s) b in
  ciphertext ← ok_or KeyUnavailable (aead_seal key nonce_bytes aad provider_state);
  let envelope :=
    {| el_version := ENVELOPE_VERSION; el_key_id := key_id;
       el_key_set_generation := sl_key_set_generation s;
       el_provider_material_generation := rb_provider_material_generation b;
       el_route_binding := route_binding key (rb_deployment_id b);
       el_nonce := base64url_encode nonce_bytes; el_ciphertext := base64url_encode ciphertext |} in
  let encoded := base64url_encode (envelope_to_vec envelope) in
  if (rl_max_encoded_item_bytes (sl_limits s) <? slen encoded)%N then Err TooLarge else Ok encoded.

(** ** Opening *)

Definition count_item (limits : ReasoningStateLimits) (acc : N * N) (item : string) :
    result ReasoningSealError (N * N) :=
  let '(count, cumulative) := acc in
  count ← ok_or TooManyItems (checked_add u64_max count 1);
  if (rl_max_items_per_request limits <? count)%N then Err TooManyItems else
  if (rl_max_encoded_item_bytes limits <? slen item)%N then Err TooLarge else
  cumulative ← ok_or TooLarge (checked_add u64_max cumulative (slen item));
  if (rl_max_cumulative_encoded_bytes limits <? cumulative)%N then Err TooLarge
  else Ok (count, cumulative).
Definition validate_request_items (s : ReasoningSealer) (items : list string) :
    result ReasoningSealError unit :=
  _ ← for_each (count_item (sl_limits s)) (0, 0)%N items; Ok ().

Definition parse_envelope (s : ReasoningSealer) (encoded : string) : result ReasoningSealError Envelope :=
  _ ← validate_request_items s [encoded];
  estimated_decoded ← ok_or TooLarge ((λ n, n / 4)%N <$> checked_mul u64_max (slen encoded) 3);
  if (wrap_add u64_max (wrap_add u64_max (rl_max_decoded_provider_state_bytes (sl_limits s))
        MAX_ENVELOPE_METADATA_BYTES) MAX_TAG_LEN <? estimated_decoded)%N
  then Err TooLarge else
  decoded ← ok_or Invalid (base64url_decode encoded);
  envelope ← ok_or Invalid (envelope_from_slice decoded);
  if negb (el_version envelope =? ENVELOPE_VERSION)%N || is_empty (el_key_id envelope)
     || (128 <? slen (el_key_id envelope))%N || (el_key_set_generation envelope =? 0)%N
     || (sl_key_set_generation s <? el_key_set_generation envelope)%N
     || (64 <? slen (el_route_binding envelope))%N || (64 <? slen (el_nonce envelope))%N
  then Err Invalid else Ok envelope.

Definition unseal (s : ReasoningSealer) (encoded tenant_id alias : string)
    (client_protocol : ClientProtocol) (candidates : list RouteCandidate) :
    result ReasoningSealError ResolvedReasoningState :=
  envelope ← parse_envelope s encoded;
  key ← ok_or KeyUnavailable (sl_keys s !! el_key_id envelope);
  candidate ← ok_or RouteUnavailable
    (List.find (λ c, bool_decide (route_binding key (cd_deployment_id c) = el_route_binding envelope)) candidates);
  if negb (cd_provider_material_generation candidate =? el_provider_material_generation envelope)%N
  then Err Stale else
  let binding :=
    {| rb_tenant_id := tenant_id; rb_alias := alias; rb_client_protocol := client_protocol;
       rb_deployment_id := cd_deployment_id candidate;
       rb_provider_material_generation := cd_provider_material_generation candidate |} in
  let aad := associated_data (el_key_id envelope) (el_key_set_generation envelope) binding in
  nonce ← ok_or Invalid (base64url_decode (el_nonce envelope));
  if negb (length nonce =? NONCE_BYTES)%nat then Err Invalid else
  ciphertext ← ok_or Invalid (base64url_decode (el_ciphertext envelope));
  if (wrap_add u64_max (rl_max_decoded_provider_state_bytes (sl_limits s)) MAX_TAG_LEN
        <? N.of_nat (length ciphertext))%N
  then Err TooLarge else
  plaintext ← ok_or Tampered (aead_open key nonce aad ciphertext);
  if (rl_max_decoded_provider_state_bytes (sl_limits s) <? N.of_nat (length plaintext))%N
  then Err TooLarge
  else Ok {| rs_deployment_id := cd_deployment_id candidate; rs_provider_state := plaintext |}.

(** The loop of [unseal_request_items]: the states so far and their bytes. *)
Definition unseal_item (s : ReasoningSealer) (tenant_id alias : string) (client_protocol : ClientProtocol)
    (candidates : list RouteCandidate) (acc : list ResolvedReasoningState * N) (item : string) :
    result ReasoningSealError (list ResolvedReasoningState * N) :=
  let '(resolved, cumulative_decoded) := acc in
  state ← unseal s item tenant_id alias client_protocol candidates;
  cumulative_decoded ← ok_or TooLarge
    (checked_add u64_max cumulative_decoded (N.of_nat (length (rs_provider_state state))));
  if (rl_max_cumulative_decoded_bytes (sl_limits s) <? cumulative_decoded)%N then Err TooLarge
  else Ok (resolved ++ [state], cumulative_decoded).
Definition unseal_request_items (s : ReasoningSealer) (items : list string) (tenant_id alias : string)
    (client_protocol : ClientProtocol) (candidates : list RouteCandidate) :
    result ReasoningSealError (list ResolvedReasoningState) :=
  _ ← validate_request_items s items;
  '(resolved, _) ← for_each (unseal_item s tenant_id alias client_protocol candidates) ([], 0%N) items;
  Ok resolved.
End sealer.
