(* ===== verification/ReasoningSealFacts.v ===== *)
(** * Theorems on sealed reasoning state *)

From Stdlib Require Import Ascii.
From S2P Require Import Prelude RustStr JsonText InferenceError LlmError ReasoningSeal.

(** An envelope of valid strings with numbers of their width. *)
Definition envelope_typed (e : Envelope) : Prop :=
  (el_version e ≤ 255)%N ∧ (el_key_set_generation e ≤ u64_max)%N
  ∧ (el_provider_material_generation e ≤ u64_max)%N
  ∧ Forall (λ s, utf8_valid (bytes s) = true) [el_key_id e; el_route_binding e; el_nonce e; el_ciphertext e].

(** Base64 without padding; HMAC-SHA-256 has 32 bytes; AES-GCM is deterministic, opens what it
    has sealed and nothing else, and adds a tag of 16 bytes; serde reads back an envelope. *)
Class SealLaws {prims : SealPrimitives} : Prop := {
  base64url_inverse b : base64url_decode (base64url_encode b) = Some b;
  base64url_length b : slen (base64url_encode b) = ((4 * N.of_nat (length b) + 2) / 3)%N;
  base64url_utf8 b : utf8_valid (bytes (base64url_encode b)) = true;
  hmac_length key text : length (hmac_sha256 key text) = 32%nat;
  aead_open_sealed key nonce aad p c : aead_open key nonce aad c = Some p ↔ aead_seal key nonce aad p = Some c;
  aead_length key nonce aad p c : aead_seal key nonce aad p = Some c → length c = (length p + 16)%nat;
  envelope_inverse e : envelope_typed e → envelope_from_slice (envelope_to_vec e) = Some e;
}.

(** ** Associated data *)

Lemma protocol_name_inj p p' : protocol_name p = protocol_name p' → p = p'.
Proof. by destruct p, p'. Qed.

Ltac peel E :=
  match type of E with
  | json_string ?a +:+ _ = json_string ?a +:+ _ => apply sapp_inj in E
  | json_string _ +:+ _ = json_string _ +:+ _ => apply json_string_readable in E as [? E]
  | dec _ +:+ _ = dec _ +:+ _ => apply dec_readable in E as [? E]; [|reflexivity|reflexivity]
  | _ +:+ _ = _ +:+ _ => apply sapp_inj in E
  end.

(** The associated data determine the binding. *)
Lemma associated_data_inj key_id generation b key_id' generation' b' :
  associated_data key_id generation b = associated_data key_id' generation' b' → b = b'.
Proof.
  unfold associated_data, struct_text. intros E%bytes_inj. unfold enclosed in E.
  apply (f_equal (λ s, match s with String _ t => t | _ => s end)) in E.
  cbn [fmap list_fmap String.concat] in E. unfold member_text in E. cbn [fst snd] in E.
  rewrite !sapp_assoc in E. repeat peel E.
  destruct b, b'; cbn in *; f_equal; try done. by apply protocol_name_inj.
Qed.

#[local] Opaque associated_data envelope_to_vec.

Section sealing.
Context {prims : SealPrimitives} {laws : SealLaws}.

(** ** Sealing *)

Definition sealed_envelope (s : ReasoningSealer) (key_id : string) (key nonce ciphertext : list ascii)
    (b : ReasoningBinding) : Envelope :=
  {| el_version := ENVELOPE_VERSION; el_key_id := key_id;
     el_key_set_generation := sl_key_set_generation s;
     el_provider_material_generation := rb_provider_material_generation b;
     el_route_binding := route_binding key (rb_deployment_id b);
     el_nonce := base64url_encode nonce; el_ciphertext := base64url_encode ciphertext |}.

Lemma seal_Ok s nonce b state encoded :
  seal s nonce b state = Ok encoded →
  ∃ key_id key nonce_bytes ciphertext, sl_state s = Active ∧ nonce = Some nonce_bytes
    ∧ sl_current_key_id s = Some key_id ∧ sl_keys s !! key_id = Some key
    ∧ aead_seal key nonce_bytes (associated_data key_id (sl_key_set_generation s) b) state = Some ciphertext
    ∧ encoded = base64url_encode (envelope_to_vec (sealed_envelope s key_id key nonce_bytes ciphertext b))
    ∧ (N.of_nat (length state) ≤ rl_max_decoded_provider_state_bytes (sl_limits s))%N
    ∧ (slen encoded ≤ rl_max_encoded_item_bytes (sl_limits s))%N.
Proof.
  unfold seal. case_bool_decide as Ha; [|done]. cbn [negb]. destruct (_ <? _)%N eqn:El; [done|].
  intros H. inv_ok. destruct (_ <? slen _)%N eqn:Ee; [done|]. inv_ok. subst encoded.
  apply N.ltb_ge in El, Ee. by eexists _, _, _, _.
Qed.

(** What the sealer requires of names and numbers: valid text, and the widths of the code. *)
Definition sealer_typed (s : ReasoningSealer) : Prop :=
  (sl_key_set_generation s ≤ u64_max)%N
  ∧ (∀ key_id, sl_current_key_id s = Some key_id → utf8_valid (bytes key_id) = true).

Lemma base64url_short b n : (length b ≤ n)%nat → (slen (base64url_encode b) ≤ (4 * N.of_nat n + 2) / 3)%N.
Proof. intros H. rewrite base64url_length. apply N.Div0.div_le_mono. lia. Qed.

Lemma route_binding_short key id : (slen (route_binding key id) ≤ 22)%N.
Proof.
  unfold route_binding. etrans; [apply (base64url_short _ 16)|done]. rewrite length_take.
  unfold ROUTE_BINDING_BYTES. lia.
Qed.

Lemma sealed_envelope_read s key_id key nonce ciphertext b :
  sealer_typed s → sl_current_key_id s = Some key_id → (rb_provider_material_generation b ≤ u64_max)%N →
  base64url_decode (base64url_encode (envelope_to_vec (sealed_envelope s key_id key nonce ciphertext b)))
    ≫= envelope_from_slice = Some (sealed_envelope s key_id key nonce ciphertext b).
Proof.
  intros [Hg Hk] Hc Hb. rewrite base64url_inverse. cbn [mbind option_bind]. apply envelope_inverse.
  split_and!; [done..|]. repeat constructor; [by apply Hk|apply base64url_utf8..].
Qed.

(** ** Opening *)

(** Two texts or associated data with one ciphertext under one key and nonce. *)
Definition aead_collision : Prop :=
  ∃ key nonce aad aad' p p' c, (aad, p) ≠ (aad', p')
    ∧ aead_seal key nonce aad p = Some c ∧ aead_seal key nonce aad' p' = Some c.

Lemma parse_envelope_Ok s encoded e :
  parse_envelope s encoded = Ok e → base64url_decode encoded ≫= envelope_from_slice = Some e.
Proof.
  unfold parse_envelope. intros H. inv_ok. destruct (_ <? _)%N; [done|]. inv_ok.
  destruct (negb _ || _ || _ || _ || _ || _ || _); [done|]. inv_ok. subst.
  match goal with H : base64url_decode _ = Some _ |- _ => rewrite H end. done.
Qed.

Lemma unseal_Ok s encoded tenant alias protocol candidates out :
  unseal s encoded tenant alias protocol candidates = Ok out →
  ∃ e key candidate nonce ciphertext, parse_envelope s encoded = Ok e ∧ sl_keys s !! el_key_id e = Some key
    ∧ candidate ∈ candidates ∧ cd_provider_material_generation candidate = el_provider_material_generation e
    ∧ base64url_decode (el_nonce e) = Some nonce ∧ base64url_decode (el_ciphertext e) = Some ciphertext
    ∧ rs_deployment_id out = cd_deployment_id candidate
    ∧ aead_open key nonce (associated_data (el_key_id e) (el_key_set_generation e)
        {| rb_tenant_id := tenant; rb_alias := alias; rb_client_protocol := protocol;
           rb_deployment_id := cd_deployment_id candidate;
           rb_provider_material_generation := cd_provider_material_generation candidate |}) ciphertext
      = Some (rs_provider_state out).
Proof.
  unfold unseal. intros H. inv_ok. destruct (negb (_ =? _)%N) eqn:Eg; [done|]. inv_ok.
  destruct (negb (_ =? _)%nat); [done|]. inv_ok. destruct (_ <? _)%N; [done|]. inv_ok.
  destruct (_ <? _)%N; [done|]. inv_ok. subst out. apply negb_false_iff, N.eqb_eq in Eg.
  eexists _, _, _, _, _. split_and!; try done.
  match goal with H : List.find _ _ = Some _ |- _ => apply List.find_some in H as [H _]; by apply list_elem_of_In in H end.
Qed.

(** C20 A sealed state opens only where it belongs: when an item that was sealed for a binding
    is opened, by any replica with the same key, the tenant, the alias, the protocol and the
    deployment are those of the binding and the state is the one that was sealed; otherwise
    two messages have one AES-GCM ciphertext. *)
Theorem sealed_state_bound s r nonce b state encoded tenant alias protocol candidates out :
  seal s nonce b state = Ok encoded →
  unseal r encoded tenant alias protocol candidates = Ok out →
  sealer_typed s → (rb_provider_material_generation b ≤ u64_max)%N →
  (∀ key_id, sl_current_key_id s = Some key_id → sl_keys r !! key_id = sl_keys s !! key_id) →
  (b = {| rb_tenant_id := tenant; rb_alias := alias; rb_client_protocol := protocol;
          rb_deployment_id := rs_deployment_id out;
          rb_provider_material_generation := rb_provider_material_generation b |}
   ∧ rs_provider_state out = state) ∨ aead_collision.
Proof.
  intros (key_id & key & n & c & _ & -> & Hcur & Hkey & Hseal & -> & _)%seal_Ok
    (e & key' & cand & n' & c' & He & Hkey' & _ & Hg & Hn & Hc & -> & Hopen)%unseal_Ok Ht Hb Hsame.
  apply parse_envelope_Ok in He. rewrite sealed_envelope_read in He by done. injection He as <-.
  cbn [sealed_envelope el_key_id el_provider_material_generation el_nonce el_ciphertext
    el_key_set_generation] in Hkey', Hg, Hn, Hc, Hopen. rewrite base64url_inverse in Hn, Hc. injection Hn as <-. injection Hc as <-.
  rewrite Hsame, Hkey in Hkey' by done. injection Hkey' as <-.
  apply aead_open_sealed in Hopen.
  set (b' := {| rb_tenant_id := tenant |}) in Hopen.
  destruct (decide ((associated_data key_id (sl_key_set_generation s) b', rs_provider_state out)
    = (associated_data key_id (sl_key_set_generation s) b, state))) as [E|E].
  - left. apply pair_eq in E as [Ea ->]. split; [|done]. apply associated_data_inj in Ea. by rewrite <- Ea.
  - right. by exists key, n, (associated_data key_id (sl_key_set_generation s) b'),
      (associated_data key_id (sl_key_set_generation s) b), (rs_provider_state out), state, c.
Qed.

(** ** Round trip *)

Lemma resolve_Ok c secrets s :
  resolve c secrets = Ok s →
  validate_seal_config c = Ok () ∧ sl_state s = rc_state c ∧ sl_key_set_generation s = rc_key_set_generation c
  ∧ sl_current_key_id s = kr_key_id <$> rc_current c ∧ sl_limits s = rc_limits c.
Proof. unfold resolve. intros H. inv_ok. by subst s. Qed.

Lemma validate_reference_Ok k :
  validate_reference k = Ok () ↔ kr_key_id k ≠ "" ∧ (slen (kr_key_id k) ≤ 128)%N ∧ kr_credential_ref k ≠ "".
Proof.
  unfold validate_reference. destruct (_ || _) eqn:E; (split; [try done|]).
  - rewrite !orb_true_iff, !is_empty_true, N.ltb_lt in E. intros (? & ? & ?). naive_solver lia.
  - rewrite !orb_false_iff, !is_empty_false, N.ltb_ge in E. naive_solver.
  - done.
Qed.

Lemma valid_limits c :
  validate_seal_config c = Ok () → let l := rc_limits c in
  (0 < rl_max_items_per_request l)%N ∧ (rl_max_encoded_item_bytes l ≤ rl_max_cumulative_encoded_bytes l)%N
  ∧ (rl_max_decoded_provider_state_bytes l ≤ rl_max_cumulative_decoded_bytes l)%N.
Proof.
  unfold validate_seal_config. destruct (_ || _ || _ || _ || _) eqn:E; [done|]. intros _. cbn.
  rewrite !orb_false_iff, !N.eqb_neq, !N.ltb_ge in E. lia.
Qed.
Lemma valid_current c :
  validate_seal_config c = Ok () → rc_state c = Active →
  (0 < rc_key_set_generation c)%N ∧ ∃ k, rc_current c = Some k ∧ validate_reference k = Ok ().
Proof.
  unfold validate_seal_config. intros H Ha. rewrite Ha in H. destruct (_ || _ || _ || _ || _); [done|].
  cbn [bool_decide decide_rel ReasoningSealState_eq_dec] in H. destruct (bool_decide _) eqn:Ed; [done|].
  destruct (_ =? 0)%N eqn:Eg; [done|]. apply N.eqb_neq in Eg. split; [lia|].
  destruct (rc_current c) as [k|]; [|done]. inv_ok. by exists k.
Qed.

(** The limits do not exceed what the arithmetic of the code can hold. *)
Definition limits_wide (l : ReasoningStateLimits) : Prop :=
  (rl_max_decoded_provider_state_bytes l + MAX_ENVELOPE_METADATA_BYTES + MAX_TAG_LEN ≤ u64_max)%N
  ∧ (rl_max_encoded_item_bytes l * 3 ≤ u64_max)%N.

(** The bytes of an envelope with a state within the limit, without the growth of its
    ciphertext in base64. *)
Definition allowed_bytes (l : ReasoningStateLimits) : N :=
  (rl_max_decoded_provider_state_bytes l + MAX_ENVELOPE_METADATA_BYTES + MAX_TAG_LEN)%N.

Lemma single_item_valid r encoded c :
  validate_seal_config c = Ok () → sl_limits r = rc_limits c → limits_wide (rc_limits c) →
  (slen encoded ≤ rl_max_encoded_item_bytes (sl_limits r))%N → validate_request_items r [encoded] = Ok ().
Proof.
  intros Hv%valid_limits El [_ Hw] Hs. rewrite <- El in *. cbn in Hv. unfold validate_request_items.
  cbn [for_each count_item]. unfold checked_add. rewrite (proj2 (N.leb_le (0 + 1) _)) by done.
  cbn [ok_or mbind result_bind]. rewrite (proj2 (N.ltb_ge _ (0 + 1))) by lia.
  rewrite (proj2 (N.ltb_ge _ (slen encoded))) by done.
  rewrite (proj2 (N.leb_le (0 + slen encoded) _)) by lia. cbn [ok_or mbind result_bind].
  rewrite (proj2 (N.ltb_ge _ (0 + slen encoded))) by lia. done.
Qed.

Lemma parse_envelope_sealed c c' secrets secrets' s r key_id key nonce ciphertext b encoded :
  resolve c secrets = Ok s → resolve c' secrets' = Ok r → sealer_typed s → sl_state s = Active →
  sl_current_key_id s = Some key_id → (rb_provider_material_generation b ≤ u64_max)%N →
  length nonce = NONCE_BYTES → rc_limits c' = rc_limits c → limits_wide (rc_limits c) →
  (rc_key_set_generation c ≤ rc_key_set_generation c')%N →
  encoded = base64url_encode (envelope_to_vec (sealed_envelope s key_id key nonce ciphertext b)) →
  (slen encoded ≤ rl_max_encoded_item_bytes (sl_limits s))%N →
  parse_envelope r encoded =
    if (slen encoded * 3 / 4 <=? allowed_bytes (rc_limits c))%N
    then Ok (sealed_envelope s key_id key nonce ciphertext b) else Err TooLarge.
Proof.
  intros (Hv & Est & Eg & Ek & El)%resolve_Ok (Hv' & _ & Eg' & _ & El')%resolve_Ok Ht Ha Hcur Hb Hn Hll [Hw1 Hw2]
    Hgen Henc Hsize.
  unfold parse_envelope. rewrite El in Hsize. rewrite (single_item_valid r encoded c'); [|done|done|by rewrite Hll|by rewrite El', Hll].
  cbn [mbind result_bind]. unfold checked_mul. rewrite (proj2 (N.leb_le (slen encoded * 3) _)) by lia.
  cbn [fmap option_fmap option_map ok_or mbind result_bind]. rewrite El', Hll.
  rewrite (wrap_add_small u64_max (rl_max_decoded_provider_state_bytes (rc_limits c))), wrap_add_small by lia.
  fold (allowed_bytes (rc_limits c)). rewrite N.ltb_antisym.
  destruct (_ <=? allowed_bytes _)%N; [|done]. cbn [negb].
  pose proof (sealed_envelope_read s key_id key nonce ciphertext b Ht Hcur Hb) as E. rewrite <- Henc in E.
  destruct (base64url_decode encoded) as [d|]; [|done]. cbn in E. cbn [ok_or mbind result_bind]. rewrite E.
  cbn [ok_or mbind result_bind].
  destruct (valid_current c Hv) as (Hpos & k & Hk & (Hne & Hlen & _)%validate_reference_Ok); [congruence|].
  rewrite Ek, Hk in Hcur. injection Hcur as <-.
  cbn [sealed_envelope el_version el_key_id el_key_set_generation el_route_binding el_nonce].
  apply is_empty_false in Hne. rewrite Hne, Eg, Eg'.
  rewrite (proj2 (N.ltb_ge 128 _)), (proj2 (N.eqb_neq (rc_key_set_generation c) 0)), (proj2 (N.ltb_ge (rc_key_set_generation c') _)) by lia.
  pose proof (route_binding_short key (rb_deployment_id b)). rewrite (proj2 (N.ltb_ge 64 (slen (route_binding _ _)))) by lia.
  rewrite (base64url_length nonce), Hn. done.
Qed.

Definition candidate_of (b : ReasoningBinding) : RouteCandidate :=
  {| cd_deployment_id := rb_deployment_id b;
     cd_provider_material_generation := rb_provider_material_generation b |}.

Lemma find_unique {A} (P : A → bool) l x :
  x ∈ l → P x = true → (∀ y, y ∈ l → P y = true → y = x) → List.find P l = Some x.
Proof.
  induction l as [|y l IH]; intros Hx HP Hu; [by apply not_elem_of_nil in Hx|]. cbn.
  destruct (P y) eqn:E; [by rewrite (Hu y ltac:(left) E)|].
  apply elem_of_cons in Hx as [->|Hx]; [congruence|]. apply IH; [done|done|].
  intros z Hz. apply Hu. by right.
Qed.

(** C33 A sealed state is opened again by every replica that has the key: one with the same
    limits, whose sums fit in 64 bits, and the same or a later key set, when the candidates
    contain the deployment with its generation and no other candidate has its route binding.
    The result is the state that was sealed if three quarters of the length of the item are within the limit on a
    state and the allowances for the envelope, and a refusal as too large otherwise; there is
    no such refusal when three quarters of the limit on an item are within them. *)
Theorem sealed_state_roundtrip c c' secrets secrets' s r nonce b state encoded candidates :
  resolve c secrets = Ok s → resolve c' secrets' = Ok r → sealer_typed s →
  seal s (Some nonce) b state = Ok encoded → length nonce = NONCE_BYTES →
  (rb_provider_material_generation b ≤ u64_max)%N →
  rc_limits c' = rc_limits c → limits_wide (rc_limits c) →
  (rc_key_set_generation c ≤ rc_key_set_generation c')%N →
  (∀ key_id key, sl_current_key_id s = Some key_id → sl_keys s !! key_id = Some key →
     sl_keys r !! key_id = Some key ∧
     ∀ x, x ∈ candidates → route_binding key (cd_deployment_id x) = route_binding key (rb_deployment_id b) →
       x = candidate_of b) →
  candidate_of b ∈ candidates →
  unseal r encoded (rb_tenant_id b) (rb_alias b) (rb_client_protocol b) candidates =
    (if (slen encoded * 3 / 4 <=? allowed_bytes (rc_limits c))%N
     then Ok {| rs_deployment_id := rb_deployment_id b; rs_provider_state := state |}
     else Err TooLarge)
  ∧ ((rl_max_encoded_item_bytes (rc_limits c) * 3 / 4 ≤ allowed_bytes (rc_limits c))%N →
     (slen encoded * 3 / 4 ≤ allowed_bytes (rc_limits c))%N).
Proof.
  intros Hs Hr Ht (key_id & key & n & ct & Ha & [= <-] & Hcur & Hkey & Hseal & Henc & Hlen & Hsize)%seal_Ok
    Hn Hb Hll Hw Hgen Hkeys Hin.
  destruct (Hkeys _ _ Hcur Hkey) as [Hkey' Hroute].
  split; [|intros Hlim; destruct (resolve_Ok _ _ _ Hs) as (_ & _ & _ & _ & El0); rewrite El0 in Hsize;
           etrans; [|exact Hlim]; apply N.Div0.div_le_mono; lia].
  unfold unseal. rewrite (parse_envelope_sealed c c' secrets secrets' s r key_id key nonce ct b) by done.
  destruct (_ <=? allowed_bytes _)%N; [|done].
  cbn [sealed_envelope el_key_id el_route_binding el_provider_material_generation el_nonce el_ciphertext
    el_key_set_generation mbind result_bind]. rewrite Hkey'. cbn [ok_or mbind result_bind].
  rewrite (find_unique _ candidates (candidate_of b)); [|done|by apply bool_decide_eq_true|].
  2: { intros y Hy E%bool_decide_eq_true. by apply Hroute. }
  cbn [ok_or mbind result_bind candidate_of cd_deployment_id cd_provider_material_generation].
  rewrite N.eqb_refl, !base64url_inverse. cbn [negb ok_or mbind result_bind].
  rewrite Hn. cbn [Nat.eqb NONCE_BYTES negb ok_or mbind result_bind].
  destruct (resolve_Ok _ _ _ Hr) as (_ & _ & _ & _ & El'). destruct (resolve_Ok _ _ _ Hs) as (_ & _ & _ & _ & El).
  rewrite El', Hll, <- El, wrap_add_small by (destruct Hw as [Hw _]; rewrite El; unfold MAX_ENVELOPE_METADATA_BYTES in Hw; lia).
  pose proof (aead_length _ _ _ _ _ Hseal) as Hct.
  rewrite (proj2 (N.ltb_ge _ (N.of_nat (length ct)))) by (unfold MAX_TAG_LEN; lia).
  destruct b as [tenant alias proto dep gen]. cbn [rb_tenant_id rb_alias rb_client_protocol rb_deployment_id
    rb_provider_material_generation] in *.
  apply aead_open_sealed in Hseal. rewrite Hseal. cbn [ok_or mbind result_bind].
  by rewrite (proj2 (N.ltb_ge _ (N.of_nat (length state)))).
Qed.

(** ** Requests *)

Definition encoded_total (items : list string) : N := total slen items.
Definition decoded_total (states : list ResolvedReasoningState) : N :=
  total (λ x, N.of_nat (length (rs_provider_state x))) states.

Lemma total_cons {A} (f : A → N) x l : total f (x :: l) = (f x + total f l)%N.
Proof. done. Qed.

Lemma count_item_Ok l n k x acc :
  (rl_max_items_per_request l ≤ u64_max)%N → (rl_max_cumulative_encoded_bytes l ≤ u64_max)%N →
  count_item l (n, k) x = Ok acc ↔
  acc = (n + 1, k + slen x)%N ∧ (n + 1 ≤ rl_max_items_per_request l)%N
  ∧ (slen x ≤ rl_max_encoded_item_bytes l)%N ∧ (k + slen x ≤ rl_max_cumulative_encoded_bytes l)%N.
Proof.
  intros Hi Hc. unfold count_item, checked_add.
  destruct (N.leb_spec (n + 1) u64_max); cbn [ok_or mbind result_bind]; [|split; [done|lia]].
  destruct (N.ltb_spec (rl_max_items_per_request l) (n + 1)); [split; [done|lia]|].
  destruct (N.ltb_spec (rl_max_encoded_item_bytes l) (slen x)); [split; [done|lia]|].
  destruct (N.leb_spec (k + slen x) u64_max); cbn [ok_or mbind result_bind]; [|split; [done|lia]].
  destruct (N.ltb_spec (rl_max_cumulative_encoded_bytes l) (k + slen x)); [split; [done|lia]|].
  split; [by intros [= <-]|by intros [-> _]].
Qed.

Lemma count_items_Ok l items n k :
  (rl_max_items_per_request l ≤ u64_max)%N → (rl_max_cumulative_encoded_bytes l ≤ u64_max)%N →
  (∃ acc, for_each (count_item l) (n, k) items = Ok acc)
  ↔ items = [] ∨ (n + N.of_nat (length items) ≤ rl_max_items_per_request l)%N
    ∧ Forall (λ x, slen x ≤ rl_max_encoded_item_bytes l)%N items
    ∧ (k + encoded_total items ≤ rl_max_cumulative_encoded_bytes l)%N.
Proof.
  intros Hi Hc. unfold encoded_total. revert n k. induction items as [|x items IH]; intros n k; cbn [for_each].
  { split; [by left|]. intros _. by eexists. }
  rewrite total_cons. cbn [length]. split.
  - intros [acc H]. apply bind_Ok in H as (acc' & (-> & H1 & H2 & H3)%count_item_Ok & Hrest); [|done..]. right.
    destruct (proj1 (IH _ _) (ex_intro _ _ Hrest)) as [->|(H4 & H5 & H6)].
    + split_and!; [cbn; lia|by constructor|unfold total; cbn; lia].
    + split_and!; [lia|by constructor|lia].
  - intros [|(H1 & [H2 H2']%Forall_cons & H3)]; [done|].
    setoid_rewrite bind_Ok. destruct (proj2 (IH (n + 1) (k + slen x)))%N as [acc Hacc].
    { right. split_and!; [lia|done|lia]. }
    exists acc, (n + 1, k + slen x)%N. split; [|done]. apply count_item_Ok; [done..|]. split_and!; [done|lia|done|lia].
Qed.

(** The limits are of type [usize]. *)
Definition limits_usize (l : ReasoningStateLimits) : Prop :=
  (rl_max_items_per_request l ≤ u64_max)%N ∧ (rl_max_cumulative_encoded_bytes l ≤ u64_max)%N
  ∧ (rl_max_cumulative_decoded_bytes l ≤ u64_max)%N.

Lemma validate_request_items_Ok s items :
  limits_usize (sl_limits s) →
  validate_request_items s items = Ok () ↔
  items = [] ∨ (N.of_nat (length items) ≤ rl_max_items_per_request (sl_limits s))%N
    ∧ Forall (λ x, slen x ≤ rl_max_encoded_item_bytes (sl_limits s))%N items
    ∧ (encoded_total items ≤ rl_max_cumulative_encoded_bytes (sl_limits s))%N.
Proof.
  intros (Hi & Hc & _). unfold validate_request_items. rewrite bind_Ok.
  rewrite <- (count_items_Ok (sl_limits s) items 0 0) by done. naive_solver.
Qed.

Lemma unseal_item_size s item tenant alias protocol candidates out :
  limits_usize (sl_limits s) → unseal s item tenant alias protocol candidates = Ok out →
  (slen item ≤ rl_max_encoded_item_bytes (sl_limits s))%N.
Proof.
  intros Hl H. unfold unseal, parse_envelope in H. apply bind_Ok in H as (e & H & _).
  apply bind_Ok in H as ([] & H & _). apply validate_request_items_Ok in H as [|(_ & H & _)]; [done| |done].
  by apply Forall_cons in H as [? _].
Qed.

Lemma unseal_items_Ok s items tenant alias protocol candidates acc k out :
  limits_usize (sl_limits s) → (k ≤ rl_max_cumulative_decoded_bytes (sl_limits s))%N →
  for_each (unseal_item s tenant alias protocol candidates) (acc, k) items = Ok out ↔
  ∃ states, out = (acc ++ states, k + decoded_total states)%N
    ∧ Forall2 (λ item x, unseal s item tenant alias protocol candidates = Ok x) items states
    ∧ (k + decoded_total states ≤ rl_max_cumulative_decoded_bytes (sl_limits s))%N.
Proof.
  intros Hl. pose proof Hl as (_ & _ & Hw). unfold decoded_total. revert acc k.
  induction items as [|item items IH]; intros acc k Hk; cbn [for_each].
  { split.
    - intros [= <-]. exists []. rewrite app_nil_r. split_and!; [f_equal; unfold total; cbn; lia|constructor|unfold total; cbn; lia].
    - intros (states & -> & ->%Forall2_nil_inv_l & _). rewrite app_nil_r. do 2 f_equal. unfold total. cbn. lia. }
  rewrite bind_Ok. unfold unseal_item at 1. unfold checked_add. split.
  - intros (acc' & H & Hrest). apply bind_Ok in H as (x & Hx & H).
    destruct (_ <=? _)%N; [|done]. cbn [ok_or mbind result_bind] in H.
    destruct (N.ltb_spec (rl_max_cumulative_decoded_bytes (sl_limits s)) (k + N.of_nat (length (rs_provider_state x)))); [done|].
    injection H as <-. apply IH in Hrest as (states & -> & HF & Hle); [|done].
    exists (x :: states). rewrite total_cons, <- app_assoc. split_and!; [f_equal; lia|by constructor|lia].
  - intros (states & -> & (x & states' & Hx & HF & ->)%Forall2_cons_inv_l & Hle). rewrite total_cons in *.
    exists (acc ++ [x], k + N.of_nat (length (rs_provider_state x)))%N. split.
    + rewrite Hx. cbn [mbind result_bind]. rewrite (proj2 (N.leb_le (k + _) _)) by lia.
      cbn [ok_or mbind result_bind]. by rewrite (proj2 (N.ltb_ge _ (k + _))) by lia.
    + apply IH; [lia|]. exists states'. rewrite <- app_assoc. split_and!; [f_equal; lia|done|lia].
Qed.

(** Opening the items of a request succeeds exactly when every item opens and the request
    is within the limits on the number of items, on their encoded bytes and on the decoded
    bytes of all states together; the result has the state of each item in order. *)
Theorem request_items_exact s items tenant alias protocol candidates states :
  limits_usize (sl_limits s) →
  unseal_request_items s items tenant alias protocol candidates = Ok states ↔
  Forall2 (λ item x, unseal s item tenant alias protocol candidates = Ok x) items states
  ∧ (N.of_nat (length items) ≤ rl_max_items_per_request (sl_limits s))%N
  ∧ (encoded_total items ≤ rl_max_cumulative_encoded_bytes (sl_limits s))%N
  ∧ (decoded_total states ≤ rl_max_cumulative_decoded_bytes (sl_limits s))%N.
Proof.
  intros Hl. unfold unseal_request_items. rewrite bind_Ok. split.
  - intros ([] & Hv & ([out k] & H & [= ->])%bind_Ok).
    apply unseal_items_Ok in H as (states' & [= -> _] & HF & Hd); [|done|lia].
    split; [done|]. apply validate_request_items_Ok in Hv as [->|(H1 & _ & H2)]; [|done..].
    cbn. unfold encoded_total, total in *. cbn. split_and!; [lia..|done].
  - intros (HF & H1 & H2 & H3). exists (). split.
    + apply validate_request_items_Ok; [done|]. right. split_and!; [done| |done].
      eapply Forall2_Forall_l; [exact HF|]. apply Forall_forall. intros x _ item Hx. by eapply unseal_item_size.
    + apply bind_Ok. exists (states, 0 + decoded_total states)%N. split; [|done].
      apply unseal_items_Ok; [done|lia|]. exists states. by split_and!.
Qed.
End sealing.
