(* ===== verification/ReasoningSealExamples.v ===== *)
(** * Sealed reasoning state on concrete primitives

    Base64 as the standard has it, a reader of the envelopes that are written, and stand-ins
    for HMAC and AES-GCM that have the properties the theorems use.  The theorems apply to
    them; a last example has limits under which a state is sealed and not opened again. *)

From Stdlib Require Import Ascii ZifyN.
From S2P Require Import Prelude RustStr JsonText InferenceError LlmError ReasoningSeal ReasoningSealFacts.

Module SealInstance.

(** ** Base64 *)

Definition digit (d : N) : ascii :=
  ascii_of_N (if (d <? 26)%N then 65 + d else if (d <? 52)%N then 71 + d
              else if (d <? 62)%N then d - 4 else if (d =? 62)%N then 45 else 95).
Definition value (c : ascii) : option N :=
  let b := byte c in
  if in_range 65 90 b then Some (b - 65)%N else
  if in_range 97 122 b then Some (b - 71)%N else
  if in_range 48 57 b then Some (b + 4)%N else
  if (b =? 45)%N then Some 62%N else if (b =? 95)%N then Some 63%N else None.

Fixpoint encode (l : list ascii) : list ascii :=
  match l with
  | a :: b :: c :: rest =>
      let v := (byte a * 65536 + byte b * 256 + byte c)%N in
      digit (v / 262144) :: digit (v / 4096 mod 64) :: digit (v / 64 mod 64) :: digit (v mod 64) :: encode rest
  | [a; b] =>
      let v := (byte a * 256 + byte b)%N in
      [digit (v / 1024); digit (v / 16 mod 64); digit (v mod 16 * 4)]
  | [a] => [digit (byte a / 4); digit (byte a mod 4 * 16)]
  | [] => []
  end.
Fixpoint decode (l : list ascii) : option (list ascii) :=
  match l with
  | w :: x :: y :: z :: rest =>
      w ← value w; x ← value x; y ← value y; z ← value z;
      let v := (w * 262144 + x * 4096 + y * 64 + z)%N in
      rest ← decode rest;
      Some (ascii_of_N (v / 65536) :: ascii_of_N (v / 256 mod 256) :: ascii_of_N (v mod 256) :: rest)
  | [w; x; y] =>
      w ← value w; x ← value x; y ← value y;
      if negb (y mod 4 =? 0)%N then None else
      let v := (w * 1024 + x * 16 + y / 4)%N in
      Some [ascii_of_N (v / 256); ascii_of_N (v mod 256)]
  | [w; x] =>
      w ← value w; x ← value x;
      if negb (x mod 16 =? 0)%N then None else Some [ascii_of_N (w * 4 + x / 16)]
  | [_] => None
  | [] => Some []
  end.

Definition digits : list N := N.of_nat <$> seq 0 64.
Lemma in_digits d : (d < 64)%N → d ∈ digits.
Proof.
  intros H. apply list_elem_of_fmap. exists (N.to_nat d). split; [lia|]. apply elem_of_seq. lia.
Qed.
Lemma value_digit d : (d < 64)%N → value (digit d) = Some d.
Proof.
  intros H%in_digits. assert (Forall (λ d, value (digit d) = Some d) digits) as HF by (by repeat constructor).
  rewrite Forall_forall in HF. by apply HF.
Qed.
Lemma digit_ascii d : (d < 64)%N → (byte (digit d) <? 128)%N = true.
Proof.
  intros H%in_digits. assert (Forall (λ d, (byte (digit d) <? 128)%N = true) digits) as HF by (by repeat constructor).
  rewrite Forall_forall in HF. by apply HF.
Qed.

Lemma list_ind3 (P : list ascii → Prop) :
  P [] → (∀ a, P [a]) → (∀ a b, P [a; b]) → (∀ a b c l, P l → P (a :: b :: c :: l)) → ∀ l, P l.
Proof.
  intros H0 H1 H2 H3 l.
  enough (∀ n l, (length l < n)%nat → P l) as H by (apply (H (S (length l))); lia).
  clear l. induction n as [|n IH]; intros l Hl; [lia|].
  destruct l as [|a [|b [|c l]]]; [done..|]. apply H3, IH. cbn in Hl. lia.
Qed.

Ltac divs := zify; Z.div_mod_to_equations; lia.

Lemma base64_decode_encode l : decode (encode l) = Some l.
Proof.
  induction l as [|a|a b|a b c l IH] using list_ind3; [done|..]; cbn [encode decode].
  - pose proof (byte_lt a). rewrite !value_digit by divs. cbn [mbind option_bind].
    replace (byte a mod 4 * 16 mod 16)%N with 0%N by divs. cbn.
    replace (byte a / 4 * 4 + byte a mod 4 * 16 / 16)%N with (byte a) by divs. by rewrite ascii_byte.
  - pose proof (byte_lt a). pose proof (byte_lt b). rewrite !value_digit by divs. cbn [mbind option_bind].
    set (v := (byte a * 256 + byte b)%N). replace (v mod 16 * 4 mod 4)%N with 0%N by divs. cbn [N.eqb negb].
    replace (v / 1024 * 1024 + (v / 16) mod 64 * 16 + v mod 16 * 4 / 4)%N with v by divs.
    replace (v / 256)%N with (byte a) by divs. replace (v mod 256)%N with (byte b) by divs.
    by rewrite !ascii_byte.
  - pose proof (byte_lt a). pose proof (byte_lt b). pose proof (byte_lt c).
    rewrite !value_digit by divs. rewrite IH. cbn [mbind option_bind].
    set (v := (byte a * 65536 + byte b * 256 + byte c)%N).
    replace (v / 262144 * 262144 + (v / 4096) mod 64 * 4096 + (v / 64) mod 64 * 64 + v mod 64)%N with v by divs.
    replace (v / 65536)%N with (byte a) by divs. replace ((v / 256) mod 256)%N with (byte b) by divs.
    replace (v mod 256)%N with (byte c) by divs. by rewrite !ascii_byte.
Qed.

Lemma base64_length_encode l : N.of_nat (length (encode l)) = ((4 * N.of_nat (length l) + 2) / 3)%N.
Proof. induction l as [|a|a b|a b c l IH] using list_ind3; cbn [encode length]; [done..|]. divs. Qed.

Lemma encode_utf8_valid l : utf8_valid (encode l) = true.
Proof.
  enough (Forall (λ c, (byte c <? 128)%N = true) (encode l)) as H.
  { induction H as [|c l' Hc _ IH]; [done|]. cbn [utf8_valid]. by rewrite Hc. }
  induction l as [|a|a b|a b c l IH] using list_ind3; cbn [encode].
  - constructor.
  - pose proof (byte_lt a). repeat (constructor; [apply digit_ascii; divs|]). constructor.
  - pose proof (byte_lt a). pose proof (byte_lt b). repeat (constructor; [apply digit_ascii; divs|]). constructor.
  - pose proof (byte_lt a). pose proof (byte_lt b). pose proof (byte_lt c).
    repeat (constructor; [apply digit_ascii; divs|]). done.
Qed.

(** ** Reading an envelope *)

Fixpoint span_digits (s : string) : list ascii * string :=
  match s with
  | String c rest =>
      if is_ascii_digit c then let '(ds, rest) := span_digits rest in (c :: ds, rest) else ([], s)
  | EmptyString => ([], s)
  end.
Definition read_dec (s : string) : option (N * string) :=
  let '(ds, rest) := span_digits s in n ← digits_value 0 ds; Some (n, rest).
Fixpoint read_chars (fuel : nat) (s : string) : option (string * string) :=
  match fuel with
  | O => None
  | S fuel =>
      match unescape s with
      | Some (c, rest) => '(text, rest) ← read_chars fuel rest; Some (String c text, rest)
      | None => rest ← strip_prefix (String (ascii_of_N 34) EmptyString) s; Some (EmptyString, rest)
      end
  end.
Definition read_string (s : string) : option (string * string) :=
  rest ← strip_prefix (String (ascii_of_N 34) EmptyString) s; read_chars (S (String.length rest)) rest.

Definition key_text (opening : ascii) (name : string) : string := String opening (json_string name +:+ ":").
Definition read_envelope (l : list ascii) : option Envelope :=
  s ← strip_prefix (key_text "{" "version") (of_bytes l); '(version, s) ← read_dec s;
  s ← strip_prefix (key_text "," "keyId") s; '(key_id, s) ← read_string s;
  s ← strip_prefix (key_text "," "keySetGeneration") s; '(generation, s) ← read_dec s;
  s ← strip_prefix (key_text "," "providerMaterialGeneration") s; '(material, s) ← read_dec s;
  s ← strip_prefix (key_text "," "routeBinding") s; '(route, s) ← read_string s;
  s ← strip_prefix (key_text "," "nonce") s; '(nonce, s) ← read_string s;
  s ← strip_prefix (key_text "," "ciphertext") s; '(ciphertext, s) ← read_string s;
  _ ← strip_prefix "}" s;
  Some {| el_version := version; el_key_id := key_id; el_key_set_generation := generation;
          el_provider_material_generation := material; el_route_binding := route; el_nonce := nonce;
          el_ciphertext := ciphertext |}.

Lemma strip_prefix_app p t : strip_prefix p (p +:+ t) = Some t.
Proof. by apply strip_prefix_Some. Qed.

Lemma digits_value_dec n : digits_value 0 (bytes (dec n)) = Some n.
Proof.
  unfold dec, pretty, pretty_N. case_decide as H0; [by subst|].
  assert (∀ n s, digits_value 0 (bytes (pretty_N_go n s)) = digits_value n (bytes s)) as H; [|by rewrite H].
  intros m. induction (N.lt_wf_0 m) as [m _ IH]. intros s. destruct (decide (0 < m)%N) as [Hm|Hm].
  - rewrite pretty_N_go_step, IH by (done || (apply N.div_lt; lia)).
    change (bytes (String ?c s)) with (c :: bytes s). cbn [digits_value].
    assert (m mod 10 < 10)%N as Hd by (by apply N.mod_lt). rewrite pretty_N_char_digit by done.
    f_equal. assert (byte (pretty_N_char (m mod 10)) = 48 + m mod 10)%N as ->; [|divs].
    revert Hd. generalize (m mod 10)%N as d. intros d Hd.
    assert (d ∈ [0; 1; 2; 3; 4; 5; 6; 7; 8; 9]%N) as Hn by (rewrite !elem_of_cons; lia).
    repeat (apply elem_of_cons in Hn as [->|Hn]; [reflexivity|]). by apply not_elem_of_nil in Hn.
  - replace m with 0%N by lia. by rewrite pretty_N_go_0.
Qed.

Lemma span_digits_app s t :
  Forall (λ c, is_ascii_digit c = true) (bytes s) → no_digit t = true → span_digits (s +:+ t) = (bytes s, t).
Proof.
  intros Hs Ht. induction s as [|c s IH].
  - destruct t as [|c t]; [done|]. cbn [no_digit] in Ht. apply negb_true_iff in Ht.
    change (EmptyString +:+ String c t) with (String c t). cbn [span_digits]. by rewrite Ht.
  - apply Forall_cons in Hs as [Hc Hs]. rewrite sapp_cons. cbn [span_digits]. by rewrite Hc, IH.
Qed.
Lemma read_dec_app n t : no_digit t = true → read_dec (dec n +:+ t) = Some (n, t).
Proof. intros Ht. unfold read_dec. rewrite span_digits_app by (done || apply dec_digits). by rewrite digits_value_dec. Qed.

Lemma read_chars_app s t fuel :
  (String.length s < fuel)%nat → read_chars fuel (escape s +:+ String (ascii_of_N 34) t) = Some (s, t).
Proof.
  revert fuel. induction s as [|c s IH]; intros [|fuel] Hf; try (cbn in Hf; lia); cbn [read_chars escape].
  - change (EmptyString +:+ String (ascii_of_N 34) t) with (String (ascii_of_N 34) EmptyString +:+ t).
    by rewrite strip_prefix_app.
  - rewrite sapp_assoc, unescape_escape_byte, IH by (cbn in Hf; lia). done.
Qed.
Lemma escape_length s : (String.length s ≤ String.length (escape s))%nat.
Proof.
  induction s as [|c s IH]; [done|]. cbn [escape String.length]. rewrite length_sapp.
  enough (1 ≤ String.length (escape_byte c))%nat by lia. by destruct c as [[] [] [] [] [] [] [] []]; vm_compute; lia.
Qed.
Lemma read_string_app s t : read_string (json_string s +:+ t) = Some (s, t).
Proof.
  rewrite json_string_app. unfold read_string.
  change (String (ascii_of_N 34) (escape s +:+ String (ascii_of_N 34) t))
    with (String (ascii_of_N 34) EmptyString +:+ (escape s +:+ String (ascii_of_N 34) t)).
  rewrite strip_prefix_app. cbn [mbind option_bind]. apply read_chars_app.
  rewrite length_sapp. pose proof (escape_length s). cbn. lia.
Qed.

Lemma envelope_text e :
  of_bytes (envelope_to_vec e)
  = key_text "{" "version" +:+ dec (el_version e)
    +:+ key_text "," "keyId" +:+ json_string (el_key_id e)
    +:+ key_text "," "keySetGeneration" +:+ dec (el_key_set_generation e)
    +:+ key_text "," "providerMaterialGeneration" +:+ dec (el_provider_material_generation e)
    +:+ key_text "," "routeBinding" +:+ json_string (el_route_binding e)
    +:+ key_text "," "nonce" +:+ json_string (el_nonce e)
    +:+ key_text "," "ciphertext" +:+ json_string (el_ciphertext e) +:+ "}".
Proof.
  unfold envelope_to_vec, struct_text, enclosed, member_text. rewrite of_bytes_bytes.
  cbn [fmap list_fmap String.concat fst snd]. rewrite !sapp_assoc. done.
Qed.

Lemma read_envelope_written e : read_envelope (envelope_to_vec e) = Some e.
Proof.
  unfold read_envelope. rewrite envelope_text.
  repeat (rewrite strip_prefix_app; cbn [mbind option_bind];
          first [rewrite read_dec_app by reflexivity|rewrite read_string_app]; cbn [mbind option_bind]).
  change "}" with ("}" +:+ ""). rewrite strip_prefix_app. by destruct e.
Qed.

(** ** The primitives *)

(** Sixteen bytes from a text, as a stand-in for a tag. *)
Definition tag (l : list ascii) : list ascii :=
  be_bytes 16 (foldl (λ h c, h + byte c)%N 0%N l).
Definition hmac (key text : list ascii) : list ascii := tag (key ++ text) ++ tag (text ++ key).
Definition sealed (key nonce aad p : list ascii) : list ascii := p ++ tag (key ++ nonce ++ aad ++ p).
Definition open_sealed (key nonce aad c : list ascii) : option (list ascii) :=
  let p := take (length c - 16) c in if bool_decide (c = sealed key nonce aad p) then Some p else None.

#[export] Instance prims : SealPrimitives :=
  {| base64url_encode b := of_bytes (encode b); base64url_decode s := decode (bytes s);
     hmac_sha256 := hmac; aead_seal key nonce aad p := Some (sealed key nonce aad p);
     aead_open := open_sealed; envelope_from_slice := read_envelope |}.

Lemma length_tag l : length (tag l) = 16%nat.
Proof. apply length_be_bytes. Qed.

Lemma take_sealed key nonce aad p :
  take (length (sealed key nonce aad p) - 16) (sealed key nonce aad p) = p.
Proof. unfold sealed. rewrite length_app, length_tag, Nat.add_sub. apply take_app_length. Qed.

#[export] Instance laws : SealLaws.
Proof.
  split.
  - intros b. cbn [base64url_decode base64url_encode prims]. rewrite bytes_of_bytes. apply base64_decode_encode.
  - intros b. cbn [base64url_encode prims]. by rewrite <- length_bytes, bytes_of_bytes, base64_length_encode.
  - intros b. cbn [base64url_encode prims]. rewrite bytes_of_bytes. apply encode_utf8_valid.
  - intros key text. cbn [hmac_sha256 prims]. unfold hmac. by rewrite length_app, !length_tag.
  - intros key nonce aad p c. cbn [aead_open aead_seal prims]. unfold open_sealed. split.
    + case_bool_decide as E; [|done]. intros [= <-]. by f_equal.
    + intros [= <-]. by rewrite take_sealed, bool_decide_true.
  - intros key nonce aad p c. cbn [aead_seal prims]. intros [= <-]. unfold sealed. by rewrite length_app, length_tag.
  - intros e _. apply read_envelope_written.
Qed.

(** ** Two replicas *)

Definition secrets (reference : string) : result LlmGatewayError string :=
  Ok (of_bytes (encode (replicate 32 (if bool_decide (reference = "ref-1") then "a"%char else "b"%char)))).
Definition limits : ReasoningStateLimits := ReasoningStateLimits_default.
Definition config1 : ReasoningSealConfig :=
  {| rc_state := Active; rc_key_set_generation := 1;
     rc_current := Some {| kr_key_id := "key-1"; kr_credential_ref := "ref-1" |}; rc_previous := None;
     rc_limits := limits |}.
(** The next key set, in which the key of [config1] is the previous one. *)
Definition config2 : ReasoningSealConfig :=
  {| rc_state := Active; rc_key_set_generation := 2;
     rc_current := Some {| kr_key_id := "key-2"; kr_credential_ref := "ref-2" |};
     rc_previous := Some {| kr_key_id := "key-1"; kr_credential_ref := "ref-1" |}; rc_limits := limits |}.
Definition sealer_of (c : ReasoningSealConfig) (l : ReasoningStateLimits) : ReasoningSealer :=
  match resolve c secrets with
  | Ok s => s
  | Err _ => {| sl_state := StateDisabled; sl_key_set_generation := 0; sl_current_key_id := None;
                sl_keys := ∅; sl_limits := l |}
  end.
Definition sealer1 : ReasoningSealer := sealer_of config1 limits.
Definition sealer2 : ReasoningSealer := sealer_of config2 limits.
Definition binding : ReasoningBinding :=
  {| rb_tenant_id := "tenant-a"; rb_alias := "claude"; rb_client_protocol := OpenAiResponses;
     rb_deployment_id := "deployment-a"; rb_provider_material_generation := 7 |}.
Definition candidates : list RouteCandidate :=
  [{| cd_deployment_id := "deployment-b"; cd_provider_material_generation := 3 |};
   {| cd_deployment_id := "deployment-a"; cd_provider_material_generation := 7 |}].
Definition nonce : list ascii := replicate 12 "n"%char.
Definition item : string :=
  match seal sealer1 (Some nonce) binding (bytes "signed-state") with Ok s => s | Err _ => "" end.

Lemma sealer1_typed : sealer_typed sealer1.
Proof. split; [by vm_compute|]. intros key_id H. vm_compute in H. by injection H as <-. Qed.
Lemma sealed_item : seal sealer1 (Some nonce) binding (bytes "signed-state") = Ok item.
Proof. by vm_compute. Qed.

Lemma sealed_state_roundtrip_witness :
  unseal sealer2 item "tenant-a" "claude" OpenAiResponses candidates
  = Ok {| rs_deployment_id := "deployment-a"; rs_provider_state := bytes "signed-state" |}.
Proof.
  destruct (sealed_state_roundtrip config1 config2 secrets secrets sealer1 sealer2 nonce binding
    (bytes "signed-state") item candidates) as [E H].
  - by vm_compute.
  - by vm_compute.
  - apply sealer1_typed.
  - apply sealed_item.
  - done.
  - done.
  - done.
  - split; by vm_compute.
  - done.
  - intros key_id key Hk Hkey. vm_compute in Hk. injection Hk as <-. vm_compute in Hkey. injection Hkey as <-.
    split; [by vm_compute|]. intros x Hx. unfold candidates in Hx.
    repeat (apply elem_of_cons in Hx as [->|Hx]; [intros E; vm_compute in E; done|]).
    destruct (not_elem_of_nil _ Hx).
  - right. left.
  - rewrite (proj2 (N.leb_le _ _)) in E; [exact E|]. apply H. by vm_compute.
Defined.

Lemma sealed_state_bound_witness :
  (binding = {| rb_tenant_id := "tenant-a"; rb_alias := "claude"; rb_client_protocol := OpenAiResponses;
                rb_deployment_id := "deployment-a"; rb_provider_material_generation := 7 |}
   ∧ bytes "signed-state" = bytes "signed-state") ∨ aead_collision.
Proof.
  apply (sealed_state_bound sealer1 sealer2 (Some nonce) binding (bytes "signed-state") item "tenant-a" "claude"
    OpenAiResponses candidates {| rs_deployment_id := "deployment-a"; rs_provider_state := bytes "signed-state" |}).
  - apply sealed_item.
  - by vm_compute.
  - apply sealer1_typed.
  - done.
  - intros key_id Hk. vm_compute in Hk. injection Hk as <-. by vm_compute.
Defined.

Lemma request_items_exact_witness :
  limits_usize (sl_limits sealer2) ∧
  ∃ states, unseal_request_items sealer2 [item; item] "tenant-a" "claude" OpenAiResponses candidates = Ok states.
Proof.
  assert (limits_usize (sl_limits sealer2)) as Hl by (split_and!; by vm_compute).
  set (x := {| rs_deployment_id := "deployment-a"; rs_provider_state := bytes "signed-state" |}).
  split; [exact Hl|]. exists [x; x].
  apply (request_items_exact sealer2 [item; item] "tenant-a" "claude" OpenAiResponses candidates [x; x] Hl).
  split_and!; [repeat constructor; by vm_compute|by vm_compute..].
Defined.

(** With a smaller limit on the decoded state than the default, a state within it is sealed,
    and opening estimates the size of its envelope to be beyond the limit. *)
Definition narrow : ReasoningSealConfig :=
  {| rc_state := Active; rc_key_set_generation := 1;
     rc_current := Some {| kr_key_id := "key-1"; kr_credential_ref := "ref-1" |}; rc_previous := None;
     rc_limits := {| rl_max_encoded_item_bytes := 128 * 1024; rl_max_decoded_provider_state_bytes := 6200;
                     rl_max_items_per_request := 8; rl_max_cumulative_encoded_bytes := 256 * 1024;
                     rl_max_cumulative_decoded_bytes := 192 * 1024 |} |}.
Example sealed_state_not_opened :
  match resolve narrow secrets with
  | Ok s =>
      match seal s (Some nonce) binding (replicate (N.to_nat 6200) "x"%char) with
      | Ok item => unseal s item "tenant-a" "claude" OpenAiResponses candidates = Err TooLarge
      | Err _ => False
      end
  | Err _ => False
  end.
Proof. by vm_compute. Qed.
End SealInstance.
