(* ===== verification/Pii.v ===== *)
(** * Personal data in requests to a model

    Model of [crates/llm-gateway/src/pii.rs] without the database vault: the profile and its
    promotion, the session that replaces detected values by tokens, the recovery of a
    response, and the recovery of a stream.  Texts are their bytes.  The regular expressions,
    HMAC-SHA-256 and the reading of an attestation are parameters. *)

From Stdlib Require Import Ascii.
From S2P Require Import Prelude RustStr JsonTree JsonText InferenceError LlmError.

Abbreviation text := (list ascii) (only parsing).

Definition TOKEN_PREFIX : text := bytes "[[PII:v1:".
Definition TOKEN_SUFFIX : text := bytes "]]".

(** ** Profiles *)

Inductive PiiScope := RequestScope | SessionScope | HostScope.
Inductive UnresolvedPiiBehavior := LeaveMasked | RejectBuffered.
Inductive PiiKind := Email | UsSsn | Phone.
#[export] Instance PiiScope_eq_dec : EqDecision PiiScope.
Proof. solve_decision. Defined.
#[export] Instance UnresolvedPiiBehavior_eq_dec : EqDecision UnresolvedPiiBehavior.
Proof. solve_decision. Defined.
#[export] Instance PiiKind_eq_dec : EqDecision PiiKind.
Proof. solve_decision. Defined.

Definition label (kind : PiiKind) : string :=
  match kind with Email => "email" | UsSsn => "us_ssn" | Phone => "phone" end.

(** [kinds] is a [BTreeSet] and lists them in order. *)
Record PiiProfile := {
  pf_enabled : bool;
  pf_scope : PiiScope;
  pf_unresolved : UnresolvedPiiBehavior;
  pf_kinds : list PiiKind;
  pf_max_placeholders : N;
  pf_max_value_bytes : N;
  pf_detector_version : string;
  pf_token_format_version : string;
  pf_minimum_placeholder_preservation_percent : N;
}.
Definition PiiProfile_default : PiiProfile :=
  {| pf_enabled := false; pf_scope := RequestScope; pf_unresolved := LeaveMasked; pf_kinds := [];
     pf_max_placeholders := 128; pf_max_value_bytes := 4096; pf_detector_version := "local-regex-v1";
     pf_token_format_version := "v1"; pf_minimum_placeholder_preservation_percent := 100 |}.

Definition profile_id (p : PiiProfile) : string :=
  if negb (pf_enabled p) then "none" else
  pf_detector_version p +:+ ":" +:+ pf_token_format_version p +:+ ":" +:+
  match pf_scope p with RequestScope => "request" | SessionScope => "session" | HostScope => "host" end.

Definition durable_vault_required : LlmGatewayError :=
  Config "session/host PII requires a separately promoted durable vault".
Definition PiiProfile_validate (p : PiiProfile) : result LlmGatewayError unit :=
  if negb (pf_enabled p) then Ok () else
  if negb (bool_decide (pf_scope p = RequestScope)) then Err durable_vault_required else
  if bool_decide (pf_kinds p = []) || (pf_max_placeholders p =? 0)%N || (pf_max_value_bytes p =? 0)%N
     || is_empty (pf_detector_version p) || negb (bool_decide (pf_token_format_version p = "v1"))
     || (pf_minimum_placeholder_preservation_percent p =? 0)%N
     || (100 <? pf_minimum_placeholder_preservation_percent p)%N
  then Err (Config "invalid request-scoped PII profile") else Ok ().

(** ** Promotion *)

(** A lane has only the state [Pass]. *)
Record PiiPromotionLane := { ln_digest : string }.
Record PiiPromotionAttestation := {
  at_schema_version : string;
  at_physical_model : string;
  at_detector_version : string;
  at_token_format_version : string;
  at_scope : PiiScope;
  at_vault_implementation_version : string;
  at_placeholder_preservation_percent : N;
  at_valid_until : DateTime;
  at_functional : PiiPromotionLane;
  at_security : PiiPromotionLane;
  at_durability : PiiPromotionLane;
  at_performance : PiiPromotionLane;
}.

Definition lower_hex_digit (c : ascii) : bool := is_ascii_digit c || in_range 97 102 (byte c).
Definition valid_lane (lane : PiiPromotionLane) : bool :=
  (slen (ln_digest lane) =? 64)%N && forallb lower_hex_digit (bytes (ln_digest lane)).

Definition validate_pii_promotion (from_value : Json → option PiiPromotionAttestation) (p : PiiProfile)
    (physical_model : string) (evidence : option Json) (now : DateTime) : result LlmGatewayError unit :=
  if negb (pf_enabled p) then Ok () else
  evidence ← ok_or (Config ("PII profile `" +:+ profile_id p +:+ "` has no promotion attestation for model `"
                            +:+ physical_model +:+ "`")) evidence;
  attestation ← ok_or (Config "invalid PII promotion attestation") (from_value evidence);
  if negb (bool_decide (pf_scope p = RequestScope)) then Err durable_vault_required else
  if negb (bool_decide (at_schema_version attestation = "1"))
     || negb (bool_decide (at_physical_model attestation = physical_model))
     || negb (bool_decide (at_detector_version attestation = pf_detector_version p))
     || negb (bool_decide (at_token_format_version attestation = pf_token_format_version p))
     || negb (bool_decide (at_scope attestation = pf_scope p))
     || negb (bool_decide (at_vault_implementation_version attestation = "none"))
     || (at_placeholder_preservation_percent attestation <? pf_minimum_placeholder_preservation_percent p)%N
     || (at_valid_until attestation <=? now)%Z
     || negb (forallb valid_lane [at_functional attestation; at_security attestation;
                                  at_durability attestation; at_performance attestation])
  then Err (Config ("PII profile `" +:+ profile_id p +:+ "` is not independently promoted for model `"
                    +:+ physical_model +:+ "`"))
  else Ok ().

(** ** Operations on texts *)

Fixpoint prefixb (p l : text) : bool :=
  match p, l with
  | [], _ => true
  | a :: p, b :: l => Ascii.eqb a b && prefixb p l
  | _, [] => false
  end.
Definition suffixb (p l : text) : bool := prefixb (rev p) (rev l).
Fixpoint containsb (p l : text) : bool :=
  prefixb p l || match l with [] => false | _ :: l => containsb p l end.

(** [str::replace] and the count of [str::matches] for a pattern that is not empty: the
    matches from the left that do not overlap. *)
Fixpoint replace_from (skip : nat) (p v l : text) : text :=
  match l with
  | [] => []
  | c :: l' =>
      match skip with
      | S skip => replace_from skip p v l'
      | O => if prefixb p l then v ++ replace_from (length p - 1) p v l' else c :: replace_from 0 p v l'
      end
  end.
Definition replace (p v l : text) : text := replace_from 0 p v l.
Fixpoint count_from (skip : nat) (p l : text) : N :=
  match l with
  | [] => 0
  | c :: l' =>
      match skip with
      | S skip => count_from skip p l'
      | O => if prefixb p l then 1 + count_from (length p - 1) p l' else count_from 0 p l'
      end
  end.
Definition count_matches (p l : text) : N := count_from 0 p l.

Definition slice (a b : nat) (l : text) : text := take (b - a) (drop a l).
(** [is_char_boundary]. *)
Definition is_char_boundary (n : nat) (l : text) : bool :=
  match drop n l with c :: _ => negb (is_cont c) | [] => true end.

(** ** Sessions *)

(** [Regex::find_iter] of the pattern of a kind, and HMAC-SHA-256. *)
Class PiiDetector := find_iter : PiiKind → text → list (nat * nat).
Class PiiMac := hmac_digest : text → text → text.

Record PiiTransformStats := { st_detected : N; st_unique : N; st_recovered : N; st_unresolved : N }.
Definition PiiTransformStats_default : PiiTransformStats :=
  {| st_detected := 0; st_unique := 0; st_recovered := 0; st_unresolved := 0 |}.

Record RequestPiiSession := {
  ps_profile : PiiProfile;
  ps_key : text;
  ps_by_token : gmap string string;
  ps_counter : N;
  ps_stats : PiiTransformStats;
}.
Definition set_stats (f : PiiTransformStats → PiiTransformStats) (s : RequestPiiSession) : RequestPiiSession :=
  {| ps_profile := ps_profile s; ps_key := ps_key s; ps_by_token := ps_by_token s;
     ps_counter := ps_counter s; ps_stats := f (ps_stats s) |}.

(** [new] with the random key. *)
Definition RequestPiiSession_new (p : PiiProfile) (key : text) : result LlmGatewayError RequestPiiSession :=
  _ ← PiiProfile_validate p;
  Ok {| ps_profile := p; ps_key := key; ps_by_token := ∅; ps_counter := 0;
        ps_stats := PiiTransformStats_default |}.

(** Methods of a session: they change it and may fail. *)
Definition M (A : Type) : Type := RequestPiiSession → RequestPiiSession * result LlmGatewayError A.
#[export] Instance M_ret : MRet M := λ A x s, (s, Ok x).
#[export] Instance M_bind : MBind M := λ A B k m s,
  match m s with (s, Ok x) => k x s | (s, Err e) => (s, Err e) end.
Definition fail {A} (e : LlmGatewayError) : M A := λ s, (s, Err e).
Definition get_session : M RequestPiiSession := λ s, (s, Ok s).
Definition count_stats (f : PiiTransformStats → PiiTransformStats) : M unit := λ s, (set_stats f s, Ok ()).

Definition count_detected (t : PiiTransformStats) : PiiTransformStats :=
  {| st_detected := sat_add u64_max (st_detected t) 1; st_unique := st_unique t;
     st_recovered := st_recovered t; st_unresolved := st_unresolved t |}.
Definition count_unique (t : PiiTransformStats) : PiiTransformStats :=
  {| st_detected := st_detected t; st_unique := sat_add u64_max (st_unique t) 1;
     st_recovered := st_recovered t; st_unresolved := st_unresolved t |}.
Definition count_recovered (n : N) (t : PiiTransformStats) : PiiTransformStats :=
  {| st_detected := st_detected t; st_unique := st_unique t;
     st_recovered := sat_add u64_max (st_recovered t) n; st_unresolved := st_unresolved t |}.
Definition count_unresolved (t : PiiTransformStats) : PiiTransformStats :=
  {| st_detected := st_detected t; st_unique := st_unique t; st_recovered := st_recovered t;
     st_unresolved := sat_add u64_max (st_unresolved t) 1 |}.

Section session.
Context {detector : PiiDetector} {mac : PiiMac}.

(** ** Tokens *)

Definition hex_text (l : text) : text := l ≫= λ c, [hex (byte c / 16); hex (byte c mod 16)].
Definition token_text (kind : PiiKind) (tag : text) : text :=
  TOKEN_PREFIX ++ bytes (label kind) ++ bytes ":" ++ tag ++ TOKEN_SUFFIX.
Definition token_tag (key : text) (kind : PiiKind) (counter : N) (value : text) : text :=
  hex_text (take 16 (hmac_digest key (bytes (label kind) ++ be_bytes 8 counter ++ value))).

Definition token_for (kind : PiiKind) (value : text) : M text :=
  s ← get_session;
  match List.find (λ x, bool_decide (x.2 = of_bytes value)) (bt_iter (ps_by_token s)) with
  | Some (token, _) => mret (bytes token)
  | None =>
      if (pf_max_placeholders (ps_profile s) <=? N.of_nat (size (ps_by_token s)))%N
      then fail (InvalidRequest "PII placeholder limit exceeded") else
      let counter := sat_add u64_max (ps_counter s) 1 in
      let token := token_text kind (token_tag (ps_key s) kind counter value) in
      λ s, ({| ps_profile := ps_profile s; ps_key := ps_key s;
               ps_by_token := <[of_bytes token := of_bytes value]> (ps_by_token s);
               ps_counter := counter; ps_stats := count_unique (ps_stats s) |}, Ok token)
  end.

(** ** Tokenization *)

Definition detections (kinds : list PiiKind) (l : text) : list (nat * nat * PiiKind) :=
  kinds ≫= λ kind, (λ '(a, b), (a, b, kind)) <$> find_iter kind l.
(** [(start, Reverse(end))]. *)
Definition detection_leb (x y : nat * nat * PiiKind) : bool :=
  let '(a, b, _) := x in let '(a', b', _) := y in
  (a <? a')%nat || (a =? a')%nat && (b' <=? b)%nat.

(** The loop over the detections: what it still appends to the output. *)
Fixpoint tokenize_loop (l : text) (cursor : nat) (ds : list (nat * nat * PiiKind)) : M text :=
  match ds with
  | [] => mret (drop cursor l)
  | (a, b, kind) :: ds =>
      if (a <? cursor)%nat then tokenize_loop l cursor ds else
      s ← get_session;
      let value := slice a b l in
      if (pf_max_value_bytes (ps_profile s) <? N.of_nat (length value))%N
      then fail (InvalidRequest "detected PII value exceeds the configured bound") else
      token ← token_for kind value;
      _ ← count_stats count_detected;
      rest ← tokenize_loop l b ds;
      mret (slice cursor a l ++ token ++ rest)
  end.
Definition tokenize_text (t : string) : M string :=
  s ← get_session;
  let l := bytes t in
  out ← tokenize_loop l 0 (stable_sort detection_leb (detections (pf_kinds (ps_profile s)) l));
  mret (of_bytes out).

(** ** Recovery *)

Definition recover_token (acc : text * PiiTransformStats) (x : string * string) : text * PiiTransformStats :=
  let '(output, stats) := acc in
  let '(token, value) := x in
  let count := count_matches (bytes token) output in
  if (0 <? count)%N then (replace (bytes token) (bytes value) output, count_recovered count stats)
  else (output, stats).
Definition recover_text (t : string) : M string :=
  s ← get_session;
  let '(output, stats) := foldl recover_token (bytes t, ps_stats s) (bt_iter (ps_by_token s)) in
  _ ← count_stats (λ _, stats);
  if containsb TOKEN_PREFIX output then
    _ ← count_stats count_unresolved;
    if bool_decide (pf_unresolved (ps_profile s) = RejectBuffered) then fail ProviderUnavailable
    else mret (of_bytes output)
  else mret (of_bytes output).

(** ** Values, blocks and messages *)

Section each.
Context {A B : Type} (f : A → M B).
Fixpoint each (l : list A) : M (list B) :=
  match l with [] => mret [] | x :: l => y ← f x; ys ← each l; mret (y :: ys) end.
End each.

Section strings.
Context (on_text : string → M string).

(** [tokenize_json] and [recover_json], which differ only in what they do to a string. *)
Fixpoint map_json (v : Json) : M Json :=
  match v with
  | JString t => t ← on_text t; mret (JString t)
  | JArray items => items ← each map_json items; mret (JArray items)
  | JObject members =>
      members ← each (λ '(k, v), v ← map_json v; mret (k, v)) members; mret (JObject members)
  | _ => mret v
  end.
End strings.

Record ToolCall := { tc_id : string; tc_name : string; tc_arguments : Json }.
Inductive ContentBlock {ImageSource : Type} :=
| Text (t : string)
| Refusal (t : string)
| Image (source : ImageSource)
| ToolCallBlock (call : ToolCall)
| ToolResultBlock (tool_call_id : string) (content : list ContentBlock) (is_error : bool).
Arguments ContentBlock : clear implicits.

Context {ImageSource Role ItemStatus : Type}.
Abbreviation Block := (ContentBlock ImageSource) (only parsing).

(** [tokenize_blocks] and [recover_blocks]. *)
Fixpoint map_block (on_text : string → M string) (b : Block) : M Block :=
  match b with
  | Text t => t ← on_text t; mret (Text t)
  | Refusal t => t ← on_text t; mret (Refusal t)
  | ToolCallBlock call =>
      arguments ← map_json on_text (tc_arguments call);
      mret (ToolCallBlock {| tc_id := tc_id call; tc_name := tc_name call; tc_arguments := arguments |})
  | ToolResultBlock id content is_error =>
      content ← each (map_block on_text) content; mret (ToolResultBlock id content is_error)
  | Image source => mret (Image source)
  end.
Definition tokenize_blocks : list Block → M (list Block) := each (map_block tokenize_text).
Definition recover_blocks : list Block → M (list Block) := each (map_block recover_text).

Record Message := { mg_role : Role; mg_content : list Block }.
(** [tokenize_request] on the messages of a request, the part it changes. *)
Definition tokenize_request (messages : list Message) : M (list Message) :=
  s ← get_session;
  if negb (pf_enabled (ps_profile s)) then mret messages else
  each (λ m, content ← tokenize_blocks (mg_content m);
             mret {| mg_role := mg_role m; mg_content := content |}) messages.

Inductive GenerateOutputItem :=
| MessageItem (id : string) (role : Role) (content : list Block) (status : ItemStatus)
| FunctionCall (id call_id name : string) (arguments : Json) (status : ItemStatus)
| ReasoningSummary (id : string) (summary : list string) (status : ItemStatus).
(** [recover_response] on the output of a response. *)
Definition recover_response (output : list GenerateOutputItem) : M (list GenerateOutputItem) :=
  s ← get_session;
  if negb (pf_enabled (ps_profile s)) then mret output else
  each (λ item,
    match item with
    | MessageItem id role content status =>
        content ← recover_blocks content; mret (MessageItem id role content status)
    | FunctionCall id call_id name arguments status =>
        arguments ← map_json recover_text arguments; mret (FunctionCall id call_id name arguments status)
    | ReasoningSummary id summary status =>
        summary ← each recover_text summary; mret (ReasoningSummary id summary status)
    end) output.

(** ** Streams *)

Definition longest_suffix_prefix (value token : text) : nat :=
  let max := Nat.min (length value) (length token - 1) in
  default 0%nat (List.find (λ n, suffixb (take n token) value) (rev (seq 1 max))).

(** [recover_stream_fragment]: the session, the bytes that are still pending and the
    recovered text. *)
Definition recover_stream_fragment (s : RequestPiiSession) (pending fragment : string) :
    RequestPiiSession * string * result LlmGatewayError string :=
  let value := bytes pending ++ bytes fragment in
  let keep := max_list_with (λ token, longest_suffix_prefix value (bytes token)) (bt_keys (ps_by_token s)) in
  let split := (length value - keep)%nat in
  if negb (is_char_boundary split value) then (s, of_bytes value, Err ProviderUnavailable) else
  let '(s, res) := recover_text (of_bytes (take split value)) s in
  (s, of_bytes (drop split value), res).

Record ToolCallDelta := {
  td_index : N;
  td_id : option string;
  td_name : option string;
  td_arguments_fragment : string;
}.
Context {ProviderEvidence ProviderContinuationState NormalizedUsage FinishReason TerminalState : Type}.
Inductive InferenceEvent :=
| MessageStart (evidence : ProviderEvidence)
| TextDelta (t : string)
| RefusalDelta (t : string)
| ReasoningSummaryDelta (index : N) (t : string)
| ToolCallDeltaEvent (delta : ToolCallDelta)
| ProviderContinuation (state : ProviderContinuationState)
| Usage (usage : NormalizedUsage)
| MessageEnd (finish_reason : FinishReason) (terminal_state : TerminalState).

Record PiiStreamRecoverer := {
  sr_session : RequestPiiSession;
  sr_text_pending : string;
  sr_tool_pending : gmap N string;
}.
Definition stream_recoverer (s : RequestPiiSession) : PiiStreamRecoverer :=
  {| sr_session := s; sr_text_pending := ""; sr_tool_pending := ∅ |}.

Definition PiiStreamRecoverer_recover (r : PiiStreamRecoverer) (event : InferenceEvent) :
    PiiStreamRecoverer * result LlmGatewayError (option InferenceEvent) :=
  match event with
  | TextDelta t =>
      let '(s, pending, res) := recover_stream_fragment (sr_session r) (sr_text_pending r) t in
      ({| sr_session := s; sr_text_pending := pending; sr_tool_pending := sr_tool_pending r |},
       recovered ← res; Ok (if is_empty recovered then None else Some (TextDelta recovered)))
  | ToolCallDeltaEvent delta =>
      let '(s, pending, res) :=
        recover_stream_fragment (sr_session r) (default "" (sr_tool_pending r !! td_index delta))
          (td_arguments_fragment delta) in
      ({| sr_session := s; sr_text_pending := sr_text_pending r;
          sr_tool_pending := <[td_index delta := pending]> (sr_tool_pending r) |},
       recovered ← res;
       Ok (if bool_decide (is_Some (td_id delta)) || bool_decide (is_Some (td_name delta))
              || negb (is_empty recovered)
           then Some (ToolCallDeltaEvent {| td_index := td_index delta; td_id := td_id delta;
                                            td_name := td_name delta; td_arguments_fragment := recovered |})
           else None))
  | other => (r, Ok (Some other))
  end.

(** The pending tool calls in the order of their indexes. *)
Definition finish_tool (x : N * string) : M (list InferenceEvent) :=
  let '(index, pending) := x in
  recovered ← recover_text pending;
  mret (if is_empty recovered then []
        else [ToolCallDeltaEvent {| td_index := index; td_id := None; td_name := None;
                                    td_arguments_fragment := recovered |}]).
Definition PiiStreamRecoverer_finish (r : PiiStreamRecoverer) : result LlmGatewayError (list InferenceEvent) :=
  ((first ← (if is_empty (sr_text_pending r) then mret []
             else recovered ← recover_text (sr_text_pending r);
                  mret (if is_empty recovered then [] else [TextDelta recovered]));
    tools ← each finish_tool
      (stable_sort (λ a b, (a.1 <=? b.1)%N) (map_to_list (sr_tool_pending r)));
    mret (first ++ mjoin tools)) (sr_session r)).2.
End session.
Arguments ContentBlock : clear implicits.
Arguments Message : clear implicits.
Arguments GenerateOutputItem : clear implicits.
Arguments InferenceEvent : clear implicits.
