(* ===== verification/PiiSubstitution.v ===== *)
(** * Replacing tokens by their values

    Recovery replaces one token after the other; it is shown equal to [substitute], which
    replaces all of them in one pass, and [substitute] distributes over a cut of the text that
    no token crosses. *)

From Stdlib Require Import Ascii.
From S2P Require Import Prelude RustStr JsonTree JsonText InferenceError LlmError Pii.

(** ** Texts *)

Lemma prefixb_app p l : prefixb p l = true ↔ ∃ r, l = p ++ r.
Proof.
  revert l. induction p as [|a p IH]; intros l; cbn.
  - split; [by exists l|done].
  - destruct l as [|b l]; [split; [done|by intros []]|]. rewrite andb_true_iff, IH. split.
    + intros [->%Ascii.eqb_eq [r ->]]. by exists r.
    + intros [r [= <- ->]]. split; [apply Ascii.eqb_refl|]. by exists r.
Qed.
Lemma prefixb_app_r p r : prefixb p (p ++ r) = true.
Proof. apply prefixb_app. by exists r. Qed.

Lemma suffixb_app p l : suffixb p l = true ↔ ∃ r, l = r ++ p.
Proof.
  unfold suffixb. rewrite prefixb_app. split.
  - intros [r E]. exists (rev r). apply (f_equal (@rev ascii)) in E. by rewrite rev_app_distr, !rev_involutive in E.
  - intros [r ->]. exists (rev r). apply rev_app_distr.
Qed.

Lemma containsb_app p l : containsb p l = true ↔ ∃ a b, l = a ++ p ++ b.
Proof.
  induction l as [|c l IH]; cbn [containsb].
  - rewrite orb_false_r, prefixb_app. split.
    + intros [r E]. exists [], r. done.
    + intros (a & b & E). exists b. by destruct a.
  - rewrite orb_true_iff, prefixb_app, IH. split.
    + intros [[r E]|(a & b & ->)]; [by exists [], r|by exists (c :: a), b].
    + intros (a & b & E). destruct a as [|d a]; [left; by exists b|]. injection E as -> ->. right. by exists a, b.
Qed.

Lemma replace_skip u p v l : replace_from (length u) p v (u ++ l) = replace p v l.
Proof. induction u as [|c u IH]; [done|]. cbn. apply IH. Qed.
Lemma replace_match p v l : p ≠ [] → replace p v (p ++ l) = v ++ replace p v l.
Proof.
  intros Hp. unfold replace. destruct p as [|c p]; [done|]. cbn [app replace_from].
  change (c :: p ++ l) with ((c :: p) ++ l). rewrite prefixb_app_r. f_equal.
  cbn [length]. rewrite Nat.sub_succ, Nat.sub_0_r. apply replace_skip.
Qed.
Lemma replace_char p v c l : prefixb p (c :: l) = false → replace p v (c :: l) = c :: replace p v l.
Proof. intros H. unfold replace. cbn [replace_from]. by rewrite H. Qed.
Lemma replace_absent p v l : count_matches p l = 0%N → replace p v l = l.
Proof.
  unfold count_matches, replace. induction l as [|c l IH]; [done|]. cbn [count_from replace_from].
  destruct (prefixb p (c :: l)); [lia|]. intros H. by rewrite IH.
Qed.

(** ** Substitution *)

Definition find_token (m : list (list ascii * list ascii)) (l : list ascii) : option (list ascii * list ascii) :=
  List.find (λ x, prefixb x.1 l) m.
Fixpoint substitute_from (skip : nat) (m : list (list ascii * list ascii)) (l : list ascii) : list ascii :=
  match l with
  | [] => []
  | c :: l' =>
      match skip with
      | S skip => substitute_from skip m l'
      | O =>
          match find_token m l with
          | Some (t, v) => v ++ substitute_from (length t - 1) m l'
          | None => c :: substitute_from 0 m l'
          end
      end
  end.
(** Every occurrence of a token becomes its value, in one pass from the left. *)
Definition substitute (m : list (list ascii * list ascii)) (l : list ascii) : list ascii := substitute_from 0 m l.

Lemma substitute_skip m u l : substitute_from (length u) m (u ++ l) = substitute m l.
Proof. induction u as [|c u IH]; [done|]. cbn. apply IH. Qed.
Lemma substitute_match m t v l :
  t ≠ [] → find_token m (t ++ l) = Some (t, v) → substitute m (t ++ l) = v ++ substitute m l.
Proof.
  intros Ht H. unfold substitute. destruct t as [|c t]; [done|]. cbn [app substitute_from].
  change (c :: t ++ l) with ((c :: t) ++ l). rewrite H. f_equal. cbn [length].
  rewrite Nat.sub_succ, Nat.sub_0_r. apply substitute_skip.
Qed.
Lemma substitute_char m c l : find_token m (c :: l) = None → substitute m (c :: l) = c :: substitute m l.
Proof. intros H. unfold substitute. cbn [substitute_from]. by rewrite H. Qed.
Lemma substitute_none l : substitute [] l = l.
Proof. induction l as [|c l IH]; [done|]. rewrite substitute_char by done. by rewrite IH. Qed.

(** ** Tokens and values *)

Definition bracket (c : ascii) : Prop := c = "["%char ∨ c = "]"%char.
(** A token has its brackets only at its ends. *)
Definition token_shape (t : list ascii) : Prop :=
  ∃ c body, t = bytes "[[" ++ (c :: body) ++ bytes "]]" ∧ Forall (λ c, ¬ bracket c) (c :: body).
(** A character no token contains. *)
Definition foreign (c : ascii) : Prop := c ∈ bytes "@-. ".
Definition value_shape (v : list ascii) : Prop := Forall (λ c, ¬ bracket c) v ∧ Exists foreign v.
Definition token_alphabet (t : list ascii) : Prop := Forall (λ c, ¬ foreign c) t.

Definition dictionary_ok (m : list (list ascii * list ascii)) : Prop :=
  NoDup m.*1 ∧ Forall (λ x, token_shape x.1 ∧ token_alphabet x.1 ∧ value_shape x.2) m.

(** No token starts inside another one, and none is the start of another one. *)
Lemma token_prefix_free t u l r : token_shape t → token_shape u → t ++ l = u ++ r → t = u.
Proof.
  intros (c & b & -> & Hb) (c' & b' & -> & Hb') E. cbn in E. injection E as <- E. do 2 f_equal.
  rewrite <- !app_assoc in E. cbn in E.
  apply Forall_cons in Hb as [_ Hb]. apply Forall_cons in Hb' as [_ Hb'].
  enough (b = b') by (by subst). revert b' Hb' E. induction Hb as [|x b Hx _ IH]; intros b' Hb' E.
  - destruct b' as [|y b']; [done|]. injection E as <- _. apply Forall_cons in Hb' as [Hy _]. destruct Hy. by right.
  - destruct b' as [|y b']; cbn in E.
    + injection E as -> _. destruct Hx. by right.
    + injection E as <- E. apply Forall_cons in Hb' as [_ Hb']. by rewrite (IH b').
Qed.

Lemma token_inner l r :
  token_shape (l ++ "["%char :: r) → l ≠ [] → l = bytes "[" ∧ ∃ d r', r = d :: r' ∧ ¬ bracket d.
Proof.
  intros (d & b & E & Hb) Hl. destruct l as [|x l]; [done|]. destruct l as [|y l].
  - cbn in E. injection E as -> ->. split; [done|]. apply Forall_cons in Hb as [Hd _]. by eexists _, _.
  - exfalso. change (bytes "[[" ++ (d :: b) ++ bytes "]]") with ("["%char :: "["%char :: (d :: b) ++ bytes "]]") in E.
    remember ((d :: b) ++ bytes "]]") as z eqn:Ez. injection E as _ _ E.
    assert ("["%char ∈ (d :: b) ++ bytes "]]") as Hin by (rewrite <- Ez, <- E; apply elem_of_app; right; left).
    apply elem_of_app in Hin as [Hin|Hin].
    + rewrite Forall_forall in Hb. apply (Hb _ Hin). by left.
    + apply list_elem_of_In in Hin. cbn in Hin. by destruct Hin as [?|[?|[]]].
Qed.
Lemma token_open t : token_shape t → ∃ r, t = "["%char :: "["%char :: r.
Proof. intros (d & b & -> & _). by eexists. Qed.
Lemma token_close t : token_shape t → ∃ r, t = r ++ ["]"%char].
Proof. intros (d & b & -> & _). exists (bytes "[[" ++ (d :: b) ++ bytes "]"). rewrite <- !app_assoc. done. Qed.

(** A token does not overlap the start of another one. *)
Lemma token_no_overlap x y t r s :
  token_shape (x ++ y) → token_shape t → x ≠ [] → y ≠ [] → y ++ r = t ++ s → False.
Proof.
  intros Hxy Ht Hx Hy E. destruct (token_open _ Ht) as [u ->]. destruct y as [|c y]; [done|].
  injection E as -> E. destruct (token_inner _ _ Hxy Hx) as [_ (d & y' & -> & Hd)].
  injection E as -> _. apply Hd. by left.
Qed.

Lemma find_token_Some m l t v : find_token m l = Some (t, v) → (t, v) ∈ m ∧ ∃ r, l = t ++ r.
Proof. intros [Hin H]%List.find_some. split; [by apply list_elem_of_In|by apply prefixb_app]. Qed.
Lemma find_token_None m l t v r : find_token m l = None → (t, v) ∈ m → l = t ++ r → False.
Proof.
  intros H Hin ->. apply list_elem_of_In in Hin. pose proof (List.find_none _ _ H _ Hin) as Hf.
  cbn in Hf. by rewrite prefixb_app_r in Hf.
Qed.
Lemma find_token_unique m t v r : dictionary_ok m → (t, v) ∈ m → find_token m (t ++ r) = Some (t, v).
Proof.
  intros [Hnd Hall] Hin. rewrite Forall_forall in Hall. destruct (find_token m (t ++ r)) as [[u w]|] eqn:E.
  - apply find_token_Some in E as [Hin' [r' E]].
    assert (t = u) as <- by (eapply token_prefix_free; [apply (Hall _ Hin)|apply (Hall _ Hin')|done]).
    by rewrite (NoDup_fmap_elem fst m (t, v) (t, w)).
  - exfalso. by eapply find_token_None.
Qed.
Lemma dictionary_token m t v : dictionary_ok m → (t, v) ∈ m → token_shape t ∧ token_alphabet t ∧ value_shape v.
Proof. intros [_ H] Hin. rewrite Forall_forall in H. apply (H _ Hin). Qed.
Lemma token_nonempty t : token_shape t → t ≠ [].
Proof. intros (d & b & -> & _). done. Qed.
#[local] Hint Resolve token_nonempty : core.

Lemma substitute_token m t v l : dictionary_ok m → (t, v) ∈ m → substitute m (t ++ l) = v ++ substitute m l.
Proof.
  intros Hm Hin. apply substitute_match; [apply token_nonempty; by eapply dictionary_token|].
  by apply find_token_unique.
Qed.

(** ** One token after the other *)

Lemma replace_plain t v w l :
  token_shape t → Forall (λ c, ¬ bracket c) w → replace t v (w ++ l) = w ++ replace t v l.
Proof.
  intros Ht Hw. destruct (token_open _ Ht) as [u ->]. induction Hw as [|c w Hc _ IH]; [done|].
  cbn [app]. rewrite replace_char, IH; [done|]. cbn [prefixb]. apply andb_false_iff. left.
  apply Ascii.eqb_neq. intros <-. apply Hc. by left.
Qed.

(** The end of a token in a text with values is there without them. *)
Lemma substitute_reflects m u l r :
  dictionary_ok m → Forall (λ c, ¬ foreign c) u → (u = [] ∨ ∃ x, u = x ++ ["]"%char]) →
  substitute m l = u ++ r → ∃ r', l = u ++ r'.
Proof.
  intros Hm. revert l r. induction u as [|a u IH]; intros l r Hu Hlast E; [by exists l|].
  destruct (find_token m l) as [[t v]|] eqn:Hf.
  - exfalso. pose proof (find_token_Some _ _ _ _ Hf) as [Hin [l' ->]].
    destruct (dictionary_token _ _ _ Hm Hin) as (Ht & _ & Hb & Hv).
    rewrite (substitute_token m t v) in E by done. symmetry in E. apply app_eq_inv in E as [[k [E _]]|[k [-> _]]].
    + rewrite E in Hu. apply Forall_app in Hu as [Hu _]. apply Exists_exists in Hv as (c & Hc & Hf').
      rewrite Forall_forall in Hu. by apply (Hu c).
    + destruct Hlast as [?|[x Hx]]; [done|]. rewrite Hx in Hb. rewrite Forall_forall in Hb.
      apply (Hb "]"%char); [|by right]. rewrite !elem_of_app, elem_of_cons. auto.
  - destruct l as [|c l]; [done|]. rewrite substitute_char in E by done. injection E as -> E.
    apply Forall_cons in Hu as [_ Hu]. destruct (IH l r) as [r' ->]; [done| |done|by exists r'].
    destruct Hlast as [?|[x Hx]]; [done|]. destruct x as [|y x]; [injection Hx as -> ->; by left|].
    injection Hx as -> ->. right. by exists x.
Qed.

Lemma find_token_inside m t l x y :
  dictionary_ok m → token_shape t → t = x ++ y → x ≠ [] → y ≠ [] → find_token m (y ++ l) = None.
Proof.
  intros Hm Ht E Hx Hy. destruct (find_token m (y ++ l)) as [[u w]|] eqn:Hf; [|done]. exfalso.
  apply find_token_Some in Hf as [Hin [r E']]. subst t.
  eapply (token_no_overlap x y u l r); [done|by eapply dictionary_token|done..].
Qed.
Lemma substitute_through m t l :
  dictionary_ok m → token_shape t → find_token m (t ++ l) = None → substitute m (t ++ l) = t ++ substitute m l.
Proof.
  intros Hm Ht H0. assert (∀ x y, t = x ++ y → substitute m (y ++ l) = y ++ substitute m l) as H; [|by apply (H [] t)].
  intros x y. revert x. induction y as [|c y IH]; intros x E; [done|].
  cbn [app]. rewrite substitute_char.
  - f_equal. apply (IH (x ++ [c])). by rewrite <- app_assoc.
  - destruct x as [|z x]; [cbn in E; subst t; exact H0|].
    by apply (find_token_inside m t l (z :: x) (c :: y)).
Qed.

(** Replacing one more token is substituting with one more token. *)
Lemma replace_substitute m t v l :
  dictionary_ok ((t, v) :: m) → replace t v (substitute m l) = substitute ((t, v) :: m) l.
Proof.
  intros Hm'. pose proof Hm' as [Hnd Hall]. apply NoDup_cons in Hnd as [Hnin Hnd].
  apply Forall_cons in Hall as [(Ht & Hta & Hb & Hv) Hall]. assert (dictionary_ok m) as Hm by done. cbn in *.
  induction l as [l IH] using (induction_ltof1 _ length); unfold ltof in IH.
  destruct (find_token m l) as [[s w]|] eqn:Hf.
  - pose proof (find_token_Some _ _ _ _ Hf) as [Hin [l' ->]].
    destruct (dictionary_token _ _ _ Hm Hin) as (Hs & _ & Hwb & _).
    rewrite (substitute_token m s w), (substitute_token ((t, v) :: m) s w) by (done || by right).
    rewrite replace_plain by done. f_equal. apply IH. rewrite length_app.
    destruct (token_open _ Hs) as [? ->]. cbn. lia.
  - destruct (prefixb t l) eqn:Hp.
    + apply prefixb_app in Hp as [l' ->]. rewrite substitute_through by done.
      rewrite (substitute_token ((t, v) :: m) t v) by (done || left). rewrite replace_match by auto.
      f_equal. apply IH. rewrite length_app. destruct (token_open _ Ht) as [? ->]. cbn. lia.
    + destruct l as [|c l]; [done|]. rewrite substitute_char by done.
      rewrite (substitute_char ((t, v) :: m)) by (cbn [find_token List.find fst]; by rewrite Hp).
      rewrite replace_char; [f_equal; apply IH; cbn; lia|].
      destruct (prefixb t (c :: substitute m l)) eqn:Hq; [|done]. exfalso.
      apply prefixb_app in Hq as [r E]. destruct (token_close _ Ht) as [x Hx].
      destruct t as [|d u]; [by apply token_nonempty in Ht|]. injection E as <- E.
      apply Forall_cons in Hta as [_ Hta].
      destruct (substitute_reflects m u l r) as [r' ->]; [done..| |done|].
      * destruct x as [|y x]; [injection Hx as -> ->; by left|]. injection Hx as -> ->. right. by exists x.
      * change (c :: u ++ r') with ((c :: u) ++ r') in Hp. by rewrite prefixb_app_r in Hp.
Qed.

(** ** Order and splitting *)

Lemma substitute_ext m m' l : dictionary_ok m → dictionary_ok m' → m ≡ₚ m' → substitute m l = substitute m' l.
Proof.
  intros Hm Hm' Hp. assert (∀ l, find_token m l = find_token m' l) as H.
  { clear l. intros l. destruct (find_token m l) as [[t v]|] eqn:E.
    - apply find_token_Some in E as [Hin [r ->]]. symmetry. apply find_token_unique; [done|]. by rewrite <- Hp.
    - destruct (find_token m' l) as [[t v]|] eqn:E'; [|done]. exfalso.
      apply find_token_Some in E' as [Hin [r ->]]. rewrite <- Hp in Hin. by eapply find_token_None. }
  unfold substitute. generalize 0%nat. induction l as [|c l IH]; intros [|n]; cbn [substitute_from]; [done..| |apply IH].
  rewrite <- H. destruct (find_token m (c :: l)) as [[t v]|]; by rewrite IH.
Qed.

(** A text can be cut where no token crosses. *)
Definition crosses (m : list (list ascii * list ascii)) (a r : list ascii) : Prop :=
  ∃ t v x y a' r', (t, v) ∈ m ∧ t = x ++ y ∧ x ≠ [] ∧ y ≠ [] ∧ a = a' ++ x ∧ r = y ++ r'.
Lemma substitute_app m a r :
  dictionary_ok m → ¬ crosses m a r → substitute m (a ++ r) = substitute m a ++ substitute m r.
Proof.
  intros Hm. induction a as [a IH] using (induction_ltof1 _ length); unfold ltof in IH. intros Hx.
  destruct a as [|c a]; [done|].
  destruct (find_token m ((c :: a) ++ r)) as [[t v]|] eqn:Hf.
  - pose proof (find_token_Some _ _ _ _ Hf) as [Hin [l' E]].
    destruct (dictionary_token _ _ _ Hm Hin) as (Ht & _).
    apply app_eq_inv in E as [[k [E ->]]|[k [E Er]]].
    + rewrite E, <- app_assoc, !(substitute_token m t v), <- app_assoc by done. f_equal. apply IH.
      * rewrite E, length_app. destruct (token_open _ Ht) as [? ->]. cbn. lia.
      * intros (u & w & x & y & a' & r' & Hu & E1 & ? & ? & -> & E3). apply Hx.
        exists u, w, x, y, (t ++ a'), r'. split_and!; try done. by rewrite E, app_assoc.
    + destruct k as [|d k].
      * rewrite app_nil_r in E. cbn in Er. subst l'. rewrite <- E.
        rewrite (substitute_token m t v) by done. f_equal.
        rewrite <- (app_nil_r t), (substitute_token m t v) by done. cbn. by rewrite app_nil_r.
      * destruct Hx. exists t, v, (c :: a), (d :: k), [], l'. by split_and!.
  - rewrite <- app_comm_cons in *. rewrite !substitute_char; [|clear IH Hx|done].
    + cbn. f_equal. apply IH; [cbn; lia|]. intros (u & w & x & y & a' & r' & Hu & E1 & ? & ? & -> & E3).
      apply Hx. by exists u, w, x, y, (c :: a'), r'.
    + destruct (find_token m (c :: a)) as [[t v]|] eqn:E; [|done]. exfalso.
      apply find_token_Some in E as [Hin [l' E]]. apply (find_token_None m _ t v (l' ++ r) Hf Hin).
      by rewrite app_comm_cons, E, app_assoc.
Qed.

Lemma substitute_plain m l :
  dictionary_ok m → (∀ t v, (t, v) ∈ m → containsb t l = false) → substitute m l = l.
Proof.
  intros Hm. induction l as [|c l IH]; intros H; [done|]. rewrite substitute_char.
  - f_equal. apply IH. intros t v Hin. specialize (H t v Hin). cbn [containsb] in H.
    by apply orb_false_iff in H as [_ H].
  - destruct (find_token m (c :: l)) as [[t v]|] eqn:E; [|done]. exfalso.
    apply find_token_Some in E as [Hin [r E]]. specialize (H t v Hin).
    assert (containsb t (c :: l) = true) by (apply containsb_app; by exists [], r). congruence.
Qed.

(** ** The recovery of a text *)

Definition entry (x : string * string) : list ascii * list ascii := (bytes x.1, bytes x.2).
Definition dictionary (s : RequestPiiSession) : list (list ascii * list ascii) := entry <$> bt_iter (ps_by_token s).

Lemma recover_token_output o st x : (recover_token (o, st) x).1 = replace (bytes x.1) (bytes x.2) o.
Proof.
  unfold recover_token. destruct x as [t v]. destruct (0 <? _)%N eqn:E; [done|]. cbn.
  symmetry. by apply replace_absent, N.le_0_r, N.ltb_ge.
Qed.

Lemma dictionary_ok_perm m m' : m ≡ₚ m' → dictionary_ok m → dictionary_ok m'.
Proof. intros Hp [Hn Ha]. split; by rewrite <- Hp. Qed.

Lemma recover_fold xs m t st :
  dictionary_ok (reverse (entry <$> xs) ++ m) →
  (foldl recover_token (substitute m t, st) xs).1 = substitute (reverse (entry <$> xs) ++ m) t.
Proof.
  revert m st. induction xs as [|x xs IH]; intros m st Hm; [done|]. cbn [foldl].
  destruct (recover_token (substitute m t, st) x) as [o st'] eqn:E.
  rewrite fmap_cons, reverse_cons, <- app_assoc in *. cbn [app] in *.
  assert (o = substitute (entry x :: m) t) as ->; [|by apply IH].
  change o with ((o, st').1). rewrite <- E, recover_token_output. apply replace_substitute.
  destruct Hm as [Hn Ha]. rewrite fmap_app in Hn. apply NoDup_app in Hn as (_ & _ & Hn).
  by apply Forall_app in Ha as [_ Ha].
Qed.

Definition recovered (s : RequestPiiSession) (t : string) : string := of_bytes (substitute (dictionary s) (bytes t)).

Lemma recover_text_result t s :
  dictionary_ok (dictionary s) →
  ∃ st, recover_text t s =
    (set_stats (λ _, st) s,
     if containsb TOKEN_PREFIX (bytes (recovered s t)) && bool_decide (pf_unresolved (ps_profile s) = RejectBuffered)
     then Err ProviderUnavailable else Ok (recovered s t)).
Proof.
  intros Hm. unfold recover_text, mbind, M_bind, get_session.
  destruct (foldl recover_token (bytes t, ps_stats s) (bt_iter (ps_by_token s))) as [o st] eqn:E.
  assert (o = substitute (dictionary s) (bytes t)) as ->.
  { change o with ((o, st).1). rewrite <- E, <- (substitute_none (bytes t)).
    assert (dictionary_ok (reverse (dictionary s) ++ [])) as Hr.
    { eapply dictionary_ok_perm; [|exact Hm]. by rewrite app_nil_r, reverse_Permutation. }
    rewrite recover_fold by done. rewrite substitute_none. apply substitute_ext; [done..|].
    by rewrite app_nil_r, reverse_Permutation. }
  unfold recovered. rewrite bytes_of_bytes. cbn [count_stats].
  destruct (containsb TOKEN_PREFIX _).
  - exists (count_unresolved st). by destruct (bool_decide _).
  - by exists st.
Qed.
