(* ===== verification/PiiFacts.v ===== *)
(** * Theorems on personal data in requests

    The tokens of a session and their shape, what tokenization masks, and that recovery undoes
    it for a whole request. *)

From Stdlib Require Import Ascii ZifyN.
From S2P Require Import Prelude RustStr JsonTree JsonText InferenceError LlmError Pii PiiSubstitution.

(** ** What the patterns promise *)

Definition one_of (s : string) (c : ascii) : bool := bool_decide (c ∈ bytes s).
(** The bytes a match of each pattern consists of; case folding beyond ASCII adds bytes of 128
    and more to an address. *)
Definition pattern_byte (kind : PiiKind) (c : ascii) : bool :=
  match kind with
  | Email => is_ascii_alphanumeric c || one_of "._%+-@" c || (128 <=? byte c)%N
  | UsSsn => is_ascii_digit c || one_of "-" c
  | Phone => is_ascii_digit c || one_of "+-. ()" c
  end.
(** A byte that every match has. *)
Definition pattern_mark (kind : PiiKind) (c : ascii) : bool :=
  match kind with Email => one_of "@" c | UsSsn => one_of "-" c | Phone => one_of "-. " c end.

Class PiiDetectorLaws {detector : PiiDetector} : Prop := find_iter_match kind l a b :
  (a, b) ∈ find_iter kind l →
  (a ≤ b ∧ b ≤ length l)%nat ∧ Forall (λ c, pattern_byte kind c = true) (slice a b l) ∧
  Exists (λ c, pattern_mark kind c = true) (slice a b l).
Arguments PiiDetectorLaws : clear implicits.

Lemma pattern_byte_plain kind c : pattern_byte kind c = true → ¬ bracket c.
Proof. intros H [-> | ->]; destruct kind; vm_compute in H; done. Qed.
Lemma pattern_mark_foreign kind c : pattern_mark kind c = true → foreign c.
Proof.
  unfold foreign. destruct kind; cbn [pattern_mark]; unfold one_of; rewrite bool_decide_eq_true;
    cbn [bytes String.list_ascii_of_string]; rewrite !elem_of_cons; tauto.
Qed.

(** ** The shape of tokens *)

Lemma hex_text_plain l c : c ∈ hex_text l → is_ascii_digit c || in_range 97 102 (byte c) = true.
Proof.
  unfold hex_text. rewrite list_elem_of_bind. intros (x & Hc & _). pose proof (byte_lt x) as Hx.
  assert (∀ n, (n < 16)%N → is_ascii_digit (hex n) || in_range 97 102 (byte (hex n)) = true) as H.
  { intros n Hn. destruct n as [|p]; [done|]. do 4 (try destruct p as [p|p|]); done || (exfalso; lia). }
  rewrite !elem_of_cons in Hc. destruct Hc as [-> |[-> |Hc]].
  - apply H. zify. Z.div_mod_to_equations. lia.
  - apply H. zify. Z.div_mod_to_equations. lia.
  - by destruct (not_elem_of_nil _ Hc).
Qed.

Lemma token_text_shape kind l : token_shape (token_text kind (hex_text l)) ∧ token_alphabet (token_text kind (hex_text l)).
Proof.
  assert (Forall (λ c, ¬ bracket c ∧ ¬ foreign c) (hex_text l)) as Hh.
  { apply Forall_forall. intros c Hc%hex_text_plain. split.
    - intros [-> | ->]; vm_compute in Hc; done.
    - unfold foreign. cbn. rewrite !elem_of_cons. intros [-> |[-> |[-> |[-> |H]]]]; [vm_compute in Hc; done..|].
      by destruct (not_elem_of_nil _ H). }
  assert (∀ b t, forallb (λ c, negb (one_of "[]@-. " c)) b = true → Forall (λ c, ¬ bracket c ∧ ¬ foreign c) t →
    Forall (λ c, ¬ bracket c ∧ ¬ foreign c) (b ++ t)) as Hb.
  { intros b t H Ht. apply Forall_app. split; [|done]. apply forallb_Forall in H. eapply Forall_impl; [exact H|].
    intros c Hc. apply negb_true_iff, bool_decide_eq_false in Hc. cbn in Hc. unfold bracket, foreign. cbn.
    rewrite !elem_of_cons in *. tauto. }
  assert (Forall (λ c, ¬ bracket c ∧ ¬ foreign c) (bytes "PII:v1:" ++ bytes (label kind) ++ bytes ":" ++ hex_text l)) as Hall.
  { apply Hb; [done|]. apply Hb; [by destruct kind|]. by apply Hb. }
  assert (token_text kind (hex_text l) = bytes "[[" ++ (bytes "PII:v1:" ++ bytes (label kind) ++ bytes ":" ++ hex_text l) ++ bytes "]]") as E.
  { unfold token_text, TOKEN_PREFIX. by rewrite <- !app_assoc. }
  rewrite E. split.
  - eexists _, _. split; [reflexivity|]. eapply Forall_impl; [exact Hall|]. by intros c [].
  - assert (∀ b, forallb (λ c, negb (one_of "@-. " c)) b = true → Forall (λ c, ¬ foreign c) b) as Hf.
    { intros b H. apply forallb_Forall in H. eapply Forall_impl; [exact H|].
      intros c Hc. by apply negb_true_iff, bool_decide_eq_false in Hc. }
    repeat (apply Forall_app; split); try (apply Hf; done); [apply Hf; by destruct kind|].
    eapply Forall_impl; [exact Hh|]. by intros c [].
Qed.

Lemma token_text_inj kind kind' t t' : token_text kind t = token_text kind' t' → kind = kind' ∧ t = t'.
Proof.
  unfold token_text. intros E%app_inv_head. assert (kind = kind') as <- by (by destruct kind, kind').
  apply app_inv_head in E. apply app_inv_head in E. by apply app_inv_tail in E.
Qed.

(** ** The tokens of a session *)

Lemma size_insert_bound (m : gmap string string) k v : m !! k = None → size (<[k:=v]> m) = S (size m).
Proof. apply map_size_insert_None. Qed.

Section session.
Context {detector : PiiDetector} {laws : PiiDetectorLaws detector} {mac : PiiMac}.

(** Every token of the session was made from its value. *)
Definition session_wf (s : RequestPiiSession) : Prop :=
  ∀ t v, ps_by_token s !! t = Some v →
    value_shape (bytes v) ∧ ∃ kind c, bytes t = token_text kind (token_tag (ps_key s) kind c (bytes v)).

Lemma session_dictionary s : session_wf s → dictionary_ok (dictionary s).
Proof.
  intros Hs. unfold dictionary. split.
  - rewrite <- list_fmap_compose. change (fst ∘ entry) with (bytes ∘ @fst string string).
    rewrite list_fmap_compose. apply NoDup_fmap_2; [intros ??; apply bytes_inj|].
    rewrite bt_iter_perm. apply NoDup_fst_map_to_list.
  - apply Forall_fmap, Forall_forall. intros [t v] Hin%elem_of_bt_iter.
    change (token_shape (bytes t) ∧ token_alphabet (bytes t) ∧ value_shape (bytes v)).
    destruct (Hs _ _ Hin) as [Hv (kind & c & ->)]. split; [apply token_text_shape|].
    split; [apply token_text_shape|done].
Qed.

Lemma elem_of_dictionary s t v : (t, v) ∈ dictionary s ↔ ps_by_token s !! of_bytes t = Some (of_bytes v).
Proof.
  unfold dictionary. rewrite list_elem_of_fmap. split.
  - intros ([t' v'] & [= -> ->] & H%elem_of_bt_iter). by rewrite !of_bytes_bytes.
  - intros H. exists (of_bytes t, of_bytes v). unfold entry. cbn [fst snd]. by rewrite !bytes_of_bytes, elem_of_bt_iter.
Qed.

(** What a method keeps, whether it succeeds or not. *)
Definition preserves {A} (P : RequestPiiSession → Prop) (m : M A) : Prop := ∀ s, P s → P (m s).1.
Section preserves.
Context (P : RequestPiiSession → Prop).
Lemma preserves_ret {A} (x : A) : preserves P (mret x).
Proof. intros s Hs. exact Hs. Qed.
Lemma preserves_fail {A} e : preserves P (@fail A e).
Proof. intros s Hs. exact Hs. Qed.
Lemma preserves_get : preserves P get_session.
Proof. intros s Hs. exact Hs. Qed.
Lemma preserves_bind {A B} (m : M A) (k : A → M B) :
  preserves P m → (∀ x, preserves P (k x)) → preserves P (m ≫= k).
Proof.
  intros Hm Hk s Hs. unfold mbind, M_bind. specialize (Hm s Hs). destruct (m s) as [s' [x|e]]; [|done].
  by apply Hk.
Qed.
Lemma preserves_each {A B} (f : A → M B) l : Forall (λ x, preserves P (f x)) l → preserves P (each f l).
Proof.
  induction 1 as [|x l Hx _ IH]; [apply preserves_ret|]. cbn [each]. apply preserves_bind; [done|]. intros y.
  apply preserves_bind; [done|]. intros. apply preserves_ret.
Qed.
Lemma preserves_json f v : (∀ t, preserves P (f t)) → preserves P (map_json f v).
Proof.
  intros Hf. induction v as [| | |t|l IH|m IH] using Json_tree_ind; cbn [map_json]; try apply preserves_ret.
  - apply preserves_bind; [done|]. intros. apply preserves_ret.
  - apply preserves_bind; [by apply preserves_each|]. intros. apply preserves_ret.
  - apply preserves_bind; [|intros; apply preserves_ret]. apply preserves_each. eapply Forall_impl; [exact IH|].
    intros [k v] Hv. apply preserves_bind; [done|]. intros. apply preserves_ret.
Qed.
End preserves.

Section content_induction.
Context {ImageSource : Type} (P : ContentBlock ImageSource → Prop)
  (Htext : ∀ t, P (Text t)) (Hrefusal : ∀ t, P (Refusal t)) (Himage : ∀ i, P (Image i))
  (Hcall : ∀ c, P (ToolCallBlock c)) (Hresult : ∀ id l e, Forall P l → P (ToolResultBlock id l e)).
Fixpoint ContentBlock_tree_ind (b : ContentBlock ImageSource) : P b :=
  match b with
  | Text t => Htext t
  | Refusal t => Hrefusal t
  | Image i => Himage i
  | ToolCallBlock c => Hcall c
  | ToolResultBlock id l e =>
      Hresult id l e ((fix go l : Forall P l :=
                         match l with
                         | [] => Forall_nil_2 _
                         | x :: rest => Forall_cons_2 _ _ _ (ContentBlock_tree_ind x) (go rest)
                         end) l)
  end.
End content_induction.

Lemma preserves_block {ImageSource} P f (b : ContentBlock ImageSource) :
  (∀ t, preserves P (f t)) → preserves P (map_block f b).
Proof.
  intros Hf. induction b as [t|t|i|c|id l e IH] using ContentBlock_tree_ind; cbn [map_block].
  - apply preserves_bind; [done|]. intros. apply preserves_ret.
  - apply preserves_bind; [done|]. intros. apply preserves_ret.
  - apply preserves_ret.
  - apply preserves_bind; [by apply preserves_json|]. intros. apply preserves_ret.
  - apply preserves_bind; [by apply preserves_each|]. intros. apply preserves_ret.
Qed.

Lemma recover_text_stats t s : ∃ st, (recover_text t s).1 = set_stats (λ _, st) s.
Proof.
  unfold recover_text, mbind, M_bind, get_session.
  destruct (foldl recover_token _ _) as [o st]. cbn [count_stats].
  destruct (containsb TOKEN_PREFIX o); [|by exists st].
  exists (count_unresolved st). by destruct (bool_decide _).
Qed.
Lemma preserves_recover P t : (∀ st s, P s → P (set_stats (λ _, st) s)) → preserves P (recover_text t).
Proof. intros H s Hs. destruct (recover_text_stats t s) as [st ->]. by apply H. Qed.

Lemma detection_value kinds l a b kind :
  (a, b, kind) ∈ detections kinds l → (a ≤ b ∧ b ≤ length l)%nat ∧ value_shape (slice a b l).
Proof.
  unfold detections. rewrite list_elem_of_bind. intros (k & Hin & _).
  apply list_elem_of_fmap in Hin as ([a' b'] & [= -> -> ->] & Hin).
  destruct (find_iter_match _ _ _ _ Hin) as (Hab & Hall & Hex). split; [done|]. split.
  - eapply Forall_impl; [exact Hall|]. intros c. apply pattern_byte_plain.
  - eapply Exists_impl; [exact Hex|]. intros c. apply pattern_mark_foreign.
Qed.

Lemma session_wf_stats f s : session_wf (set_stats f s) ↔ session_wf s.
Proof. done. Qed.
Lemma token_for_wf kind value : value_shape value → preserves session_wf (token_for kind value).
Proof.
  intros Hv s Hs. unfold token_for, mbind, M_bind, get_session.
  destruct (List.find _ _) as [[t v]|]; [exact Hs|]. destruct (_ <=? _)%N; [exact Hs|].
  intros t v. cbn [ps_by_token fst ps_key]. intros [[<- <-]|[_ H]]%lookup_insert_Some; [|by apply Hs].
  rewrite !bytes_of_bytes. split; [done|]. by eexists _, _.
Qed.
Lemma tokenize_loop_wf l cursor ds :
  Forall (λ '(a, b, _), value_shape (slice a b l)) ds → preserves session_wf (tokenize_loop l cursor ds).
Proof.
  intros H. revert cursor. induction H as [|[[a b] kind] ds Hv _ IH]; intros cursor; cbn [tokenize_loop];
    [apply preserves_ret|].
  destruct (a <? cursor)%nat; [apply IH|]. apply preserves_bind; [apply preserves_get|]. intros s0.
  destruct (_ <? _)%N; [apply preserves_fail|]. apply preserves_bind; [by apply token_for_wf|]. intros token.
  apply preserves_bind; [intros s Hs; exact Hs|]. intros _. apply preserves_bind; [apply IH|].
  intros. apply preserves_ret.
Qed.
Lemma sorted_detections kinds l x :
  x ∈ stable_sort detection_leb (detections kinds l) ↔ x ∈ detections kinds l.
Proof. by rewrite (stable_sort_perm detection_leb). Qed.
Lemma tokenize_text_wf t : preserves session_wf (tokenize_text t).
Proof.
  apply preserves_bind; [apply preserves_get|]. intros s. apply preserves_bind; [|intros; apply preserves_ret].
  apply tokenize_loop_wf, Forall_forall. intros [[a b] kind] Hin%sorted_detections.
  by eapply detection_value.
Qed.

(** ** The sessions of the gateway *)

Section requests.
Context {ImageSource Role ItemStatus : Type}.

(** A session is made for a request, masks messages and recovers responses. *)
Inductive reachable (p : PiiProfile) (key : list ascii) : RequestPiiSession → Prop :=
| reachable_new s : RequestPiiSession_new p key = Ok s → reachable p key s
| reachable_tokenize s (messages : list (Message ImageSource Role)) :
    reachable p key s → reachable p key (tokenize_request messages s).1
| reachable_recover s (output : list (GenerateOutputItem ImageSource Role ItemStatus)) :
    reachable p key s → reachable p key (recover_response output s).1.

Lemma tokenize_request_preserves P (messages : list (Message ImageSource Role)) :
  (∀ t, preserves P (tokenize_text t)) → preserves P (tokenize_request messages).
Proof.
  intros H. apply preserves_bind; [apply preserves_get|]. intros s. destruct (negb _); [apply preserves_ret|].
  apply preserves_each, Forall_forall. intros m _. apply preserves_bind; [|intros; apply preserves_ret].
  apply preserves_each, Forall_forall. intros b _. by apply preserves_block.
Qed.
Lemma recover_response_preserves P (output : list (GenerateOutputItem ImageSource Role ItemStatus)) :
  (∀ t, preserves P (recover_text t)) → preserves P (recover_response output).
Proof.
  intros H. apply preserves_bind; [apply preserves_get|]. intros s. destruct (negb _); [apply preserves_ret|].
  apply preserves_each, Forall_forall.
  intros [id role content status|id call_id name arguments status|id summary status] _;
    (apply preserves_bind; [|intros; apply preserves_ret]).
  - apply preserves_each, Forall_forall. intros b _. by apply preserves_block.
  - by apply preserves_json.
  - by apply preserves_each, Forall_forall.
Qed.

Lemma reachable_wf p key s : reachable p key s → session_wf s.
Proof.
  induction 1 as [s E|s messages _ IH|s output _ IH].
  - unfold RequestPiiSession_new in E. apply bind_Ok in E as (_ & _ & [= <-]). intros t v H.
    cbn in H. by rewrite lookup_empty in H.
  - apply tokenize_request_preserves; [|done]. apply tokenize_text_wf.
  - apply recover_response_preserves; [|done]. intros t. apply preserves_recover. done.
Qed.
End requests.

(** ** Masking *)

Lemma bind_M_Ok {A B} (m : M A) (k : A → M B) s s' y :
  (m ≫= k) s = (s', Ok y) → ∃ s1 x, m s = (s1, Ok x) ∧ k x s1 = (s', Ok y).
Proof. unfold mbind, M_bind. destruct (m s) as [s1 [x|e]]; [|done]. intros H. by exists s1, x. Qed.

Lemma bind_M_eq {A B} (m : M A) (k : A → M B) s s1 x : m s = (s1, Ok x) → (m ≫= k) s = k x s1.
Proof. unfold mbind, M_bind. by intros ->. Qed.

(** The text with the spans replaced, from the cursor on. *)
Fixpoint render (l : list ascii) (cursor : nat) (spans : list (nat * nat * list ascii)) : list ascii :=
  match spans with
  | [] => drop cursor l
  | (a, b, token) :: spans => slice cursor a l ++ token ++ render l b spans
  end.
Fixpoint spans_in (l : list ascii) (cursor : nat) (spans : list (nat * nat * list ascii)) : Prop :=
  match spans with
  | [] => (cursor ≤ length l)%nat
  | (a, b, _) :: spans => (cursor ≤ a ∧ a < b)%nat ∧ spans_in l b spans
  end.

Lemma spans_in_bound l cursor spans : spans_in l cursor spans → (cursor ≤ length l)%nat.
Proof.
  revert cursor. induction spans as [|[[a b] tok] spans IH]; intros cursor; [done|].
  cbn. intros [? H%IH]. lia.
Qed.

Section masking.
(** What holds of the session, how it grows, and what it then knows of a token. *)
Context (Inv : RequestPiiSession → Prop) (Ext : relation RequestPiiSession) `{!PreOrder Ext}
  (Holds : RequestPiiSession → list ascii → list ascii → Prop) (Value : list ascii → Prop).
Context (Holds_ext : ∀ s s' t v, Ext s s' → Holds s t v → Holds s' t v)
  (Inv_stats : ∀ f s, Inv s → Inv (set_stats f s)) (Ext_stats : ∀ f s, Ext s (set_stats f s))
  (Token : ∀ kind v s s' token, Inv s → Value v → token_for kind v s = (s', Ok token) →
     Inv s' ∧ Ext s s' ∧ Holds s' token v).

Lemma tokenize_loop_spec l cursor ds s s' out :
  Inv s → (cursor ≤ length l)%nat →
  Forall (λ '(a, b, _), (a < b ∧ b ≤ length l)%nat ∧ Value (slice a b l)) ds →
  tokenize_loop l cursor ds s = (s', Ok out) →
  Inv s' ∧ Ext s s' ∧ ∃ spans,
    out = render l cursor spans ∧ spans_in l cursor spans ∧
    Forall (λ '(a, b, token), (∃ kind, (a, b, kind) ∈ ds) ∧ Holds s' token (slice a b l)) spans ∧
    (StronglySorted (λ x y, detection_leb x y = true) ds →
     Forall (λ '(a, b, _), (a < cursor)%nat ∨ ∃ a' b' token, (a', b', token) ∈ spans ∧ (a' ≤ a ∧ a < b')%nat) ds).
Proof.
  intros Hs Hc Hds. revert cursor s out Hs Hc.
  induction Hds as [|[[a b] kind] ds [Hab Hv] _ IH]; intros cursor s out Hs Hc; cbn [tokenize_loop].
  - intros [= <- <-]. split_and!; [done..|]. exists []. by split_and!.
  - destruct (a <? cursor)%nat eqn:Ea.
    + intros E. destruct (IH _ _ _ Hs Hc E) as (? & ? & spans & ? & ? & Hsp & Hcov). split_and!; [done..|].
      exists spans. split_and!; [done..| |].
      * eapply Forall_impl; [exact Hsp|]. intros [[a' b'] tok] [[k Hk] ?]. split; [|done]. exists k. by right.
      * intros Hsort. apply StronglySorted_inv in Hsort as [Hsort _]. constructor; [|by apply Hcov].
        left. by apply Nat.ltb_lt.
    + apply Nat.ltb_ge in Ea. intros (s0 & x0 & [= <- <-] & E)%bind_M_Ok.
      destruct (_ <? _)%N; [done|]. apply bind_M_Ok in E as (s1 & token & Ht & E).
      apply bind_M_Ok in E as (s2 & [] & [= <-] & E). apply bind_M_Ok in E as (s3 & rest & Hr & [= -> <-]).
      destruct (Token _ _ _ _ _ Hs Hv Ht) as (Hs1 & He1 & Hh).
      destruct (IH b _ _ (Inv_stats count_detected _ Hs1) (proj2 Hab) Hr) as (Hs' & He & spans & -> & Hin & Hsp & Hcov).
      split_and!; [done|by rewrite He1, <- He|]. exists ((a, b, token) :: spans). cbn [render spans_in].
      split_and!; [done|lia|lia|done| |].
      * constructor.
        { split; [exists kind; left|]. eapply Holds_ext; [|exact Hh]. by rewrite <- He. }
        eapply Forall_impl; [exact Hsp|]. intros [[a' b'] tok] [[k Hk] ?]. split; [|done]. exists k. by right.
      * intros Hsort. apply StronglySorted_inv in Hsort as [Hsort Hle]. constructor.
        { right. exists a, b, token. split; [left|lia]. }
        specialize (Hcov Hsort). rewrite Forall_forall in Hle, Hcov |- *. intros [[a' b'] k] Hk.
        specialize (Hle _ Hk). right. destruct (Hcov _ Hk) as [Hlt|(a2 & b2 & t2 & ? & ?)].
        { exists a, b, token. split; [left|]. cbn in Hle. apply orb_true_iff in Hle as [Hle|Hle].
          - apply Nat.ltb_lt in Hle. lia.
          - apply andb_true_iff in Hle as [Hle _]. apply Nat.eqb_eq in Hle. lia. }
        exists a2, b2, t2. split; [by right|done].
Qed.
End masking.

Lemma slice_nonempty a b (l : list ascii) : slice a b l ≠ [] → (a < b)%nat.
Proof. unfold slice. intros H. destruct (decide (a < b)%nat); [done|]. by replace (b - a)%nat with 0%nat in H by lia. Qed.
Lemma value_nonempty v : value_shape v → v ≠ [].
Proof. intros [_ H] ->. by apply Exists_nil in H. Qed.
Lemma detection_span kinds l a b kind :
  (a, b, kind) ∈ detections kinds l → (a < b ∧ b ≤ length l)%nat ∧ value_shape (slice a b l).
Proof.
  intros [? Hv]%detection_value. split; [|done]. pose proof (slice_nonempty _ _ _ (value_nonempty _ Hv)). lia.
Qed.

Lemma detection_leb_total x y : detection_leb x y = true ∨ detection_leb y x = true.
Proof. destruct x as [[a b] k], y as [[a' b'] k']. cbn [detection_leb]. rewrite !orb_true_iff, !andb_true_iff, !Nat.ltb_lt, !Nat.eqb_eq, !Nat.leb_le. lia. Qed.
Lemma detection_leb_trans x y z : detection_leb x y = true → detection_leb y z = true → detection_leb x z = true.
Proof.
  destruct x as [[a b] k], y as [[a' b'] k'], z as [[a2 b2] k2]. cbn [detection_leb].
  rewrite !orb_true_iff, !andb_true_iff, !Nat.ltb_lt, !Nat.eqb_eq, !Nat.leb_le. lia.
Qed.

(** The tokens a session has it keeps. *)
Definition keeps_tokens (s s' : RequestPiiSession) : Prop :=
  ∀ t, is_Some (ps_by_token s !! t) → is_Some (ps_by_token s' !! t).
#[local] Instance keeps_tokens_preorder : PreOrder keeps_tokens.
Proof. split; unfold keeps_tokens; [by intros s|]. intros s1 s2 s3 H1 H2 t Ht. auto. Qed.

Lemma token_for_known kind v s s' token :
  token_for kind v s = (s', Ok token) →
  ps_by_token s' !! of_bytes token = Some (of_bytes v) ∧ keeps_tokens s s'.
Proof.
  unfold token_for, mbind, M_bind, get_session. destruct (List.find _ _) as [[t w]|] eqn:Hf.
  - intros [= <- <-]. apply List.find_some in Hf as [Hin E]. apply bool_decide_eq_true in E. cbn in E. subst w.
    apply list_elem_of_In, elem_of_bt_iter in Hin. rewrite of_bytes_bytes. split; [done|]. by intros u.
  - destruct (_ <=? _)%N; [done|]. intros [= <- <-]. cbn [ps_by_token]. split; [apply lookup_insert_eq|].
    intros t Ht. apply lookup_insert_is_Some'. by right.
Qed.

(** C32 Every value the patterns find in a text starts inside a span that masking replaced by a
    token the session knows; the replaced spans are values the patterns found, they follow one
    another without overlap, and the rest of the text is unchanged. *)
Theorem detections_masked t s s' out :
  tokenize_text t s = (s', Ok out) →
  let l := bytes t in
  let found := detections (pf_kinds (ps_profile s)) l in
  ∃ spans,
    bytes out = render l 0 spans ∧ spans_in l 0 spans ∧
    (∀ a b token, (a, b, token) ∈ spans →
       (∃ kind, (a, b, kind) ∈ found) ∧ is_Some (ps_by_token s' !! of_bytes token)) ∧
    (∀ a b kind, (a, b, kind) ∈ found →
       ∃ a' b' token, (a', b', token) ∈ spans ∧ (a' ≤ a ∧ a < b')%nat).
Proof.
  intros (s0 & x0 & [= <- <-] & E)%bind_M_Ok l found. apply bind_M_Ok in E as (s1 & o & E & [= -> <-]).
  rewrite bytes_of_bytes.
  unshelve epose proof (tokenize_loop_spec (λ _, True) keeps_tokens
    (λ s token _, is_Some (ps_by_token s !! of_bytes token)) value_shape _ _ _ _ _ _ _ _ _ _ I _ _ E)
    as (_ & _ & spans & -> & Hin & Hsp & Hcov); try done.
  - intros s1 s2 token v H. apply H.
  - intros f s1 u Hu. exact Hu.
  - intros kind v s1 s2 token _ _ [Hk He]%token_for_known. by rewrite Hk.
  - lia.
  - apply Forall_forall. intros [[a b] kind] Hd%sorted_detections. by eapply detection_span.
  - exists spans. split_and!; [done..| |].
    + intros a b token Hs. rewrite Forall_forall in Hsp. destruct (Hsp _ Hs) as [[k Hk] ?].
      split; [exists k; by apply sorted_detections|done].
    + intros a b kind Hd.
      pose proof (Hcov (stable_sort_sorted _ detection_leb_total detection_leb_trans _)) as Hall.
      rewrite Forall_forall in Hall. apply sorted_detections, Hall in Hd as [?|?]; [lia|done].
Qed.
End session.
