(* ===== verification/PiiRoundtrip.v ===== *)
(** * Recovery undoes masking

    A text, a JSON value, a content block and the messages of a request are restored by
    recovery from what masking made of them, when the tags of their values differ. *)

From Stdlib Require Import Ascii.
From S2P Require Import Prelude RustStr JsonTree JsonText InferenceError LlmError Pii PiiSubstitution PiiFacts.

Lemma token_text_prefix kind tag : ∃ r, token_text kind tag = TOKEN_PREFIX ++ r.
Proof. by eexists. Qed.

Lemma containsb_slice p a b l : containsb p l = false → containsb p (slice a b l) = false.
Proof.
  intros H. destruct (containsb p (slice a b l)) eqn:E; [|done]. rewrite <- H. symmetry.
  apply containsb_app in E as (x & y & E). apply containsb_app. unfold slice in E.
  exists (take a l ++ x), (y ++ drop (b - a) (drop a l)).
  rewrite <- (take_drop a l) at 1. rewrite <- app_assoc. f_equal.
  rewrite <- (take_drop (b - a) (drop a l)) at 1. by rewrite E, <- !app_assoc.
Qed.
Lemma containsb_drop p a l : containsb p l = false → containsb p (drop a l) = false.
Proof.
  intros H. apply (containsb_slice p a (length l)) in H. unfold slice in H.
  by rewrite take_ge in H by (rewrite length_drop; lia).
Qed.
Lemma slice_split a b c (l : list ascii) :
  (a ≤ b)%nat → (b ≤ c)%nat → (c ≤ length l)%nat → slice a b l ++ slice b c l ++ drop c l = drop a l.
Proof.
  intros Hab Hbc Hc. assert (∀ x y, (x ≤ y)%nat → slice x y l ++ drop y l = drop x l) as H.
  { intros x y Hxy. unfold slice. rewrite <- (take_drop (y - x) (drop x l)) at 2. f_equal. rewrite drop_drop. f_equal. lia. }
  by rewrite !H.
Qed.

(** The texts of a value, of a block and of a message. *)
Fixpoint json_texts (v : Json) : list string :=
  match v with
  | JString t => [t]
  | JArray items => items ≫= json_texts
  | JObject members => members ≫= λ x, json_texts x.2
  | _ => []
  end.
Fixpoint block_texts {ImageSource} (b : ContentBlock ImageSource) : list string :=
  match b with
  | Text t | Refusal t => [t]
  | ToolCallBlock call => json_texts (tc_arguments call)
  | ToolResultBlock _ content _ => content ≫= block_texts
  | Image _ => []
  end.
Definition message_texts {ImageSource Role} (m : Message ImageSource Role) : list string :=
  mg_content m ≫= block_texts.

Section session.
Context {detector : PiiDetector} {laws : PiiDetectorLaws detector} {mac : PiiMac}.

(** No two of the values get the same tag under the counters a session can use. *)
Definition distinct_tags (key : list ascii) (n : N) (vs : list (list ascii)) : Prop :=
  ∀ kind c c' v v', (c ≤ n)%N → (c' ≤ n)%N → v ∈ vs → v' ∈ vs →
    token_tag key kind c v = token_tag key kind c' v' → v = v'.

Section values.
Context (p : PiiProfile) (key : list ascii) (vs : list (list ascii)).
Context (Hdistinct : distinct_tags key (pf_max_placeholders p) vs).

(** The session holds tokens of the values only. *)
Record holds_values (s : RequestPiiSession) : Prop := {
  hv_profile : ps_profile s = p;
  hv_key : ps_key s = key;
  hv_counter : (ps_counter s ≤ N.of_nat (size (ps_by_token s)))%N;
  hv_tokens : ∀ t v, ps_by_token s !! t = Some v →
    bytes v ∈ vs ∧ value_shape (bytes v) ∧
    ∃ kind c, (c ≤ pf_max_placeholders p)%N ∧ bytes t = token_text kind (token_tag key kind c (bytes v));
}.
Definition extends (s s' : RequestPiiSession) : Prop := ps_by_token s ⊆ ps_by_token s'.
#[local] Instance extends_preorder : PreOrder extends.
Proof. split; unfold extends; [by intros s|intros s1 s2 s3; apply transitivity]. Qed.

Lemma holds_values_wf s : holds_values s → session_wf s.
Proof.
  intros [_ Hk _ Ht] t v H. destruct (Ht _ _ H) as (_ & Hv & kind & c & _ & E). split; [done|].
  exists kind, c. by rewrite Hk.
Qed.
Lemma holds_values_stats f s : holds_values s → holds_values (set_stats f s).
Proof. intros []. by split. Qed.

Lemma token_for_holds kind v s s' token :
  holds_values s → v ∈ vs ∧ value_shape v → token_for kind v s = (s', Ok token) →
  holds_values s' ∧ extends s s' ∧ ps_by_token s' !! of_bytes token = Some (of_bytes v).
Proof.
  intros Hs [Hv Hshape] E. pose proof (proj1 (token_for_known _ _ _ _ _ E)) as Hknown.
  unfold token_for, mbind, M_bind, get_session in E. destruct (List.find _ _) as [[t w]|] eqn:Hf.
  { by injection E as <- _. }
  destruct (_ <=? _)%N eqn:Hmax; [done|]. apply N.leb_gt in Hmax. rewrite (hv_profile s Hs) in Hmax.
  set (counter := sat_add _ _ _) in E.
  assert (counter ≤ ps_counter s + 1)%N as Hcounter by (unfold counter, sat_add; lia).
  pose proof (hv_counter s Hs) as Hsize. apply pair_eq in E as [<- <-%(inj Ok)].
  set (token := token_text _ _) in *. cbn [ps_by_token] in *.
  assert (ps_by_token s !! of_bytes token = None) as Hnew.
  { destruct (ps_by_token s !! of_bytes token) as [w|] eqn:Hw; [|done]. exfalso.
    destruct (hv_tokens s Hs _ _ Hw) as (Hwv & _ & kind' & c & Hc & E). rewrite bytes_of_bytes in E.
    apply token_text_inj in E as [<- E]. rewrite (hv_key s Hs) in E.
    apply (Hdistinct _ _ _ _ _) in E; [|lia|done..]. subst v. apply elem_of_bt_iter, list_elem_of_In in Hw.
    pose proof (List.find_none _ _ Hf _ Hw) as H. cbn in H. rewrite of_bytes_bytes in H.
    by apply bool_decide_eq_false in H. }
  split_and!; [|by apply (insert_subseteq (ps_by_token s))|done]. split; cbn [ps_profile ps_key ps_counter ps_by_token].
  - apply Hs.
  - apply Hs.
  - rewrite map_size_insert_None by done. lia.
  - intros t w. rewrite lookup_insert_Some. intros [[Et Ew]|[_ H]]; [|by apply (hv_tokens s Hs)].
    subst t w. rewrite !bytes_of_bytes. split_and!; [done..|]. exists kind, counter. split; [lia|].
    unfold token. by rewrite (hv_key s Hs).
Qed.

(** ** Texts *)

Lemma substitute_render m l cursor spans :
  dictionary_ok m → (∀ t v, (t, v) ∈ m → ∃ r, t = TOKEN_PREFIX ++ r) → containsb TOKEN_PREFIX l = false →
  spans_in l cursor spans → Forall (λ '(a, b, token), (token, slice a b l) ∈ m) spans →
  substitute m (render l cursor spans) = drop cursor l.
Proof.
  intros Hm Hprefix Hl.
  assert (∀ u, containsb TOKEN_PREFIX u = false → substitute m u = u) as Hplain.
  { intros u Hu. apply substitute_plain; [done|]. intros t v Hin. destruct (containsb t u) eqn:E; [|done].
    destruct (Hprefix _ _ Hin) as [r ->]. apply containsb_app in E as (x & y & ->). rewrite <- Hu. symmetry.
    apply containsb_app. exists x, (r ++ y). by rewrite <- !app_assoc. }
  revert cursor. induction spans as [|[[a b] token] spans IH]; intros cursor Hin Hall; cbn [render].
  - by apply Hplain, containsb_drop.
  - destruct Hin as [[? ?] Hin]. apply Forall_cons in Hall as [Htok Hall].
    destruct (dictionary_token _ _ _ Hm Htok) as (Hshape & _).
    rewrite substitute_app; [|done|].
    + rewrite (substitute_token m token (slice a b l)) by done. rewrite IH by done.
      rewrite Hplain by by apply containsb_slice. pose proof (spans_in_bound _ _ _ Hin). apply slice_split; lia.
    + intros (t & v & x & y & a' & r' & Ht & -> & Hx & Hy & _ & E).
      destruct (dictionary_token _ _ _ Hm Ht) as (Ht' & _).
      by apply (token_no_overlap x y token r' (render l b spans)).
Qed.

Definition text_values (t : string) : list (list ascii) :=
  (λ '(a, b, _), slice a b (bytes t)) <$> detections (pf_kinds p) (bytes t).
(** A text without a token whose values are among those considered. *)
Definition admissible (t : string) : Prop := containsb TOKEN_PREFIX (bytes t) = false ∧ text_values t ⊆ vs.

(** What [f] made of [x] is turned back by [g] in every later session. *)
Definition restores {A} (ts : list string) (f : M A) (g : A → M A) (x : A) : Prop :=
  Forall admissible ts → ∀ s s' y, holds_values s → f s = (s', Ok y) →
  holds_values s' ∧ extends s s' ∧
  ∀ s2, holds_values s2 → extends s' s2 → ∃ st, g y s2 = (set_stats (λ _, st) s2, Ok x).

Lemma tokenize_text_restores t : restores [t] (tokenize_text t) recover_text t.
Proof.
  intros [[Hplain Hvs] _]%Forall_cons s s' y Hs (s0 & x0 & [= <- <-] & E)%bind_M_Ok.
  apply bind_M_Ok in E as (s1 & o & E & [= -> <-]). rewrite (hv_profile s Hs) in E.
  unshelve epose proof (tokenize_loop_spec holds_values extends
    (λ s token v, ps_by_token s !! of_bytes token = Some (of_bytes v)) (λ v, v ∈ vs ∧ value_shape v)
    _ holds_values_stats _ token_for_holds _ _ _ _ _ _ Hs _ _ E) as (Hs' & He & spans & -> & Hin & Hsp & _).
  - intros s1 s2 u v H Hu. exact (lookup_weaken _ _ _ _ Hu H).
  - intros f s1. by unfold extends.
  - lia.
  - apply Forall_forall. intros [[a b] kind] Hd%sorted_detections.
    destruct (detection_span _ _ _ _ _ Hd) as [Hab Hv]. split; [done|]. split; [|done].
    apply Hvs, list_elem_of_fmap. by exists (a, b, kind).
  - split_and!; [done..|]. intros s2 Hs2 He2.
    pose proof (session_dictionary _ (holds_values_wf _ Hs2)) as Hm.
    destruct (recover_text_result (of_bytes (render (bytes t) 0 spans)) s2 Hm) as [st ->]. exists st. f_equal.
    assert (recovered s2 (of_bytes (render (bytes t) 0 spans)) = t) as ->; [|by rewrite Hplain].
    unfold recovered. rewrite bytes_of_bytes, (substitute_render _ (bytes t)); [apply of_bytes_bytes|done| |done..|].
    + intros u v Hu%elem_of_dictionary. destruct (hv_tokens _ Hs2 _ _ Hu) as (_ & _ & kind & c & _ & E').
      rewrite bytes_of_bytes in E'. rewrite E'. apply token_text_prefix.
    + eapply Forall_impl; [exact Hsp|]. intros [[a b] u] [_ Hu]. apply elem_of_dictionary. by eapply lookup_weaken.
Qed.

(** ** Structures *)

Lemma restores_ret {A} ts (g : A → M A) x : (∀ s, g x s = (s, Ok x)) → restores ts (mret x) g x.
Proof.
  intros Hg _ s s' y Hs [= <- <-]. split_and!; [done..|]. intros s2 _ _. exists (ps_stats s2).
  rewrite Hg. by destruct s2.
Qed.
Lemma restores_map {A B} ts (c : A → B) f g (g' : B → M B) x :
  restores ts f g x → (∀ y s, g' (c y) s = (z ← g y; mret (c z)) s) →
  restores ts (y ← f; mret (c y)) g' (c x).
Proof.
  intros H Hg Hts s s' y Hs (s1 & z & E & [= -> <-])%bind_M_Ok.
  destruct (H Hts _ _ _ Hs E) as (? & ? & Hr). split_and!; [done..|]. intros s2 Hs2 He2.
  destruct (Hr s2 Hs2 He2) as [st E2]. exists st. rewrite Hg. unfold mbind, M_bind. by rewrite E2.
Qed.
Lemma restores_each {A} (texts : A → list string) f g l :
  Forall (λ x, restores (texts x) (f x) g x) l → restores (l ≫= texts) (each f l) (each g) l.
Proof.
  induction 1 as [|x l Hx _ IH]; [by apply restores_ret|]. rewrite bind_cons. intros [Ht Hts]%Forall_app s s' y Hs.
  cbn [each]. intros (s1 & z & Ef & E)%bind_M_Ok. apply bind_M_Ok in E as (s3 & zs & Es & [= -> <-]).
  destruct (Hx Ht _ _ _ Hs Ef) as (Hs1 & He1 & Hr1). destruct (IH Hts _ _ _ Hs1 Es) as (Hs3 & He3 & Hr3).
  split_and!; [done|by rewrite He1|]. intros s2 Hs2 He2. cbn [each].
  destruct (Hr1 s2 Hs2) as [st1 E1]; [by rewrite He3|].
  destruct (Hr3 (set_stats (λ _, st1) s2)) as [st2 E2]; [by apply holds_values_stats|done|].
  exists st2. unfold mbind, M_bind. by rewrite E1, E2.
Qed.

Lemma json_restores v : restores (json_texts v) (map_json tokenize_text v) (map_json recover_text) v.
Proof.
  induction v as [| | |t|l IH|m IH] using Json_tree_ind; cbn [map_json json_texts]; try (by apply restores_ret).
  - apply (restores_map _ JString _ recover_text); [apply tokenize_text_restores|done].
  - apply (restores_map _ JArray _ (each (map_json recover_text))); [|done]. by apply restores_each.
  - apply (restores_map _ JObject _ (each (λ '(k, v), v ← map_json recover_text v; mret (k, v)))); [|done].
    apply restores_each. eapply Forall_impl; [exact IH|]. intros [k v] Hv.
    by apply (restores_map _ (pair k) _ (map_json recover_text)).
Qed.

Lemma block_restores {ImageSource} (b : ContentBlock ImageSource) :
  restores (block_texts b) (map_block tokenize_text b) (map_block recover_text) b.
Proof.
  induction b as [t|t|i|[id name arguments]|id l e IH] using ContentBlock_tree_ind; cbn [map_block block_texts tc_arguments tc_id tc_name].
  - apply (restores_map _ Text _ recover_text); [apply tokenize_text_restores|done].
  - apply (restores_map _ Refusal _ recover_text); [apply tokenize_text_restores|done].
  - by apply restores_ret.
  - apply (restores_map _ (λ a, ToolCallBlock {| tc_id := id; tc_name := name; tc_arguments := a |}) _ (map_json recover_text));
      [|done]. apply json_restores.
  - apply (restores_map _ (λ l, ToolResultBlock id l e) _ (each (map_block recover_text))); [|done].
    by apply restores_each.
Qed.

Definition recover_message {ImageSource Role} (m : Message ImageSource Role) : M (Message ImageSource Role) :=
  content ← recover_blocks (mg_content m); mret {| mg_role := mg_role m; mg_content := content |}.
Lemma message_restores {ImageSource Role} (m : Message ImageSource Role) :
  restores (message_texts m)
    (content ← tokenize_blocks (mg_content m); mret {| mg_role := mg_role m; mg_content := content |})
    recover_message m.
Proof.
  destruct m as [role content].
  apply (restores_map _ (λ c, {| mg_role := role; mg_content := c |}) _ recover_blocks); [|done].
  apply restores_each, Forall_forall. intros b _. apply block_restores.
Qed.

Lemma holds_values_new s : RequestPiiSession_new p key = Ok s → holds_values s.
Proof.
  intros (_ & _ & [= <-])%bind_Ok. split; cbn; [done..|]. intros t v H. by rewrite lookup_empty in H.
Qed.
End values.

(** ** Requests *)

Lemma each_fmap {A B} (f : A → M A) (f' : B → M B) (h : B → A) l s :
  (∀ x s, f (h x) s = (y ← f' x; mret (h y)) s) → each f (h <$> l) s = (ys ← each f' l; mret (h <$> ys)) s.
Proof.
  intros H. revert s. induction l as [|x l IH]; intros s; [done|]. rewrite fmap_cons. cbn [each].
  unfold mbind, M_bind at 1. rewrite H. unfold mbind, M_bind. destruct (f' x s) as [s1 [y|e]]; [|done]. cbn.
  rewrite IH. unfold mbind, M_bind. by destruct (each f' l s1) as [s2 [ys|e]].
Qed.

(** C18 When a new session has masked a request, the messages of a response that repeats the
    masked messages are recovered to the original ones, with their tool calls and tool
    results, whatever is done with unresolved tokens.  The original texts contain no token
    prefix and their values get different tags. *)
Theorem masked_request_recovered {ImageSource Role ItemStatus} p key
    (messages masked : list (Message ImageSource Role)) s s' id (status : ItemStatus) :
  let echo m := MessageItem id (mg_role m) (mg_content m) status in
  let texts := messages ≫= message_texts in
  RequestPiiSession_new p key = Ok s →
  tokenize_request messages s = (s', Ok masked) →
  Forall (λ t, containsb TOKEN_PREFIX (bytes t) = false) texts →
  distinct_tags key (pf_max_placeholders p) (texts ≫= text_values p) →
  ∃ s2, recover_response (echo <$> masked) s' = (s2, Ok (echo <$> messages)).
Proof.
  intros echo texts Hnew Htok Hplain Hdistinct. set (vs := texts ≫= text_values p) in *.
  pose proof (holds_values_new p key vs s Hnew) as Hs.
  apply bind_M_Ok in Htok as (s0 & x0 & [= <- <-] & Htok). unfold recover_response, mbind at 1, M_bind at 1, get_session.
  destruct (pf_enabled (ps_profile s)) eqn:Hen; cbn [negb] in Htok.
  - unshelve epose proof (restores_each p key vs message_texts _ recover_message messages _ _ _ _ _ Hs Htok) as (Hs' & _ & Hr).
    + apply Forall_forall. intros m _. by apply message_restores.
    + rewrite Forall_forall in *. intros t Ht. split; [by apply Hplain|]. intros v Hv. apply list_elem_of_bind. by exists t.
    + destruct (Hr s' Hs') as [st E]; [by unfold extends|]. exists (set_stats (λ _, st) s').
      rewrite (hv_profile _ _ _ _ Hs'), <- (hv_profile _ _ _ _ Hs), Hen. cbn [negb].
      rewrite (each_fmap _ recover_message echo).
      * unfold mbind, M_bind. by rewrite E.
      * intros [role content] s1. unfold recover_message, echo, mbind, M_bind. cbn [mg_role mg_content].
        by destruct (recover_blocks content s1) as [s2 [c|e]].
  - injection Htok as <- <-. rewrite Hen. by exists s.
Qed.
End session.
