(* ===== verification/PiiStream.v ===== *)
(** * Recovery of a stream

    What a stream recovers from the fragments of a text, of tool arguments and of the end of
    the stream is what the recovery of the whole text gives. *)

From Stdlib Require Import Ascii.
From S2P Require Import Prelude RustStr JsonTree JsonText InferenceError LlmError Pii PiiSubstitution PiiFacts.

(** ** The bytes that are kept back *)

Lemma find_rev_seq (f : nat → bool) max n :
  List.find f (rev (seq 1 max)) = Some n → f n = true ∧ (1 ≤ n ∧ n ≤ max)%nat ∧ ∀ k, f k = true → (k ≤ max)%nat → (k ≤ n)%nat.
Proof.
  induction max as [|max IH]; [done|]. rewrite seq_S, rev_app_distr. cbn [rev app List.find Nat.add].
  destruct (f (S max)) eqn:E.
  - intros [= <-]. split_and!; [done|lia..|]. lia.
  - intros (Hf & Hb & Hmax)%IH. split_and!; [done|lia..|]. intros k Hk Hle.
    destruct (decide (k = S max)) as [->|]; [congruence|]. apply Hmax; [done|lia].
Qed.
Lemma find_rev_seq_none (f : nat → bool) max k :
  List.find f (rev (seq 1 max)) = None → (1 ≤ k ∧ k ≤ max)%nat → f k = false.
Proof. intros H Hk. apply (List.find_none _ _ H). apply in_rev. rewrite rev_involutive. apply in_seq. lia. Qed.

Lemma longest_suffix_prefix_match value token n :
  longest_suffix_prefix value token = n → n ≠ 0%nat →
  (n < length token)%nat ∧ ∃ a, value = a ++ take n token.
Proof.
  unfold longest_suffix_prefix. destruct (List.find _ _) as [k|] eqn:E; [|by intros <-].
  cbn [default from_option id]. intros <- _. apply find_rev_seq in E as (Hs & Hb & _). split; [lia|]. by apply suffixb_app.
Qed.
Lemma longest_suffix_prefix_max value token a x y :
  value = a ++ x → token = x ++ y → y ≠ [] → (length x ≤ longest_suffix_prefix value token)%nat.
Proof.
  intros Hv Ht Hy. destruct (decide (length x = 0)%nat) as [->|Hx]; [lia|]. unfold longest_suffix_prefix.
  assert (length x ≤ Nat.min (length value) (length token - 1))%nat as Hle.
  { subst. rewrite !length_app. destruct y; [done|]. cbn. lia. }
  assert (suffixb (take (length x) token) value = true) as Hs.
  { apply suffixb_app. exists a. by rewrite Ht, take_app_length. }
  destruct (List.find _ _) as [k|] eqn:E; cbn [default from_option id].
  - apply find_rev_seq in E as (_ & _ & H). by apply H.
  - apply (find_rev_seq_none _ _ (length x)) in E; [congruence|lia].
Qed.

Lemma max_list_with_ge {A} (f : A → nat) l x : x ∈ l → (f x ≤ max_list_with f l)%nat.
Proof. induction l as [|y l IH]; [by intros ?%not_elem_of_nil|]. intros [->|H%IH]%elem_of_cons; cbn; lia. Qed.
Lemma max_list_with_attained {A} (f : A → nat) l :
  max_list_with f l = 0%nat ∨ ∃ x, x ∈ l ∧ f x = max_list_with f l.
Proof.
  induction l as [|y l [IH|(x & Hx & IH)]]; cbn; [by left|..].
  - rewrite IH. right. exists y. split; [left|lia].
  - destruct (decide (f y ≤ f x)%nat); right; [exists x|exists y]; (split; [by constructor|lia]).
Qed.

Lemma mjoin_cons {A} (x : list A) l : mjoin (x :: l) = x ++ mjoin l.
Proof. done. Qed.

(** ** Fragments *)

Section fragments.
Context (s : RequestPiiSession) (Hs : dictionary_ok (dictionary s)).
Abbreviation m := (dictionary s).

Definition kept (value : list ascii) : nat :=
  max_list_with (λ token, longest_suffix_prefix value (bytes token)) (bt_keys (ps_by_token s)).

Lemma dictionary_key t v : (t, v) ∈ m → of_bytes t ∈ bt_keys (ps_by_token s).
Proof. intros H%elem_of_dictionary. apply elem_of_bt_keys. by eexists. Qed.
Lemma key_dictionary k : k ∈ bt_keys (ps_by_token s) → ∃ v, (bytes k, v) ∈ m.
Proof.
  intros [v H]%elem_of_bt_keys. exists (bytes v). apply elem_of_dictionary. by rewrite !of_bytes_bytes.
Qed.

(** What is kept back is the start of a token. *)
Lemma kept_token value :
  kept value ≠ 0%nat → ∃ a t v, (t, v) ∈ m ∧ value = a ++ take (kept value) t ∧ (kept value < length t)%nat.
Proof.
  intros Hk. unfold kept in *. destruct (max_list_with_attained (λ token, longest_suffix_prefix value (bytes token))
    (bt_keys (ps_by_token s))) as [H|(k & Hin & H)]; [done|].
  destruct (key_dictionary _ Hin) as [v Hv]. rewrite <- H in *.
  destruct (longest_suffix_prefix_match _ _ _ eq_refl Hk) as [Hl [a Ha]]. by exists a, (bytes k), v.
Qed.
Lemma kept_max value t v a x y :
  (t, v) ∈ m → value = a ++ x → t = x ++ y → y ≠ [] → (length x ≤ kept value)%nat.
Proof.
  intros Hin Hv Ht Hy. etransitivity; [by apply (longest_suffix_prefix_max value t a x y)|].
  rewrite <- (bytes_of_bytes t). apply (max_list_with_ge (λ token, longest_suffix_prefix value (bytes token))).
  by eapply dictionary_key.
Qed.

(** No token crosses the place where the text is cut, whatever follows. *)
Lemma cut_not_crossed a b c : length b = kept (a ++ b) → ¬ crosses m a (b ++ c).
Proof.
  intros Hb (t & v & x & y & a' & r' & Hin & -> & Hx & Hy & -> & E).
  destruct (dictionary_token _ _ _ Hs Hin) as (Hshape & _). symmetry in E.
  assert (kept ((a' ++ x) ++ b) ≠ 0%nat ∨ b = []) as [Hk| ->].
  { destruct b; [by right|left]. rewrite <- Hb. done. }
  - destruct (kept_token _ Hk) as (z & t0 & v0 & Hin0 & Ev & Hlt). rewrite <- Hb in Ev, Hlt.
    destruct (dictionary_token _ _ _ Hs Hin0) as (Hshape0 & _).
    apply app_inj_2 in Ev as [_ Ev]; [|rewrite length_take; lia].
    apply app_eq_inv in E as [[k [Ey _]]|[k [Eb _]]].
    + destruct k as [|d k].
      { rewrite app_nil_r in Ey. subst y. eapply (token_no_overlap x b t0 (drop (length b) t0) []); [done..|].
        rewrite app_nil_r. rewrite Ev at 1. apply take_drop. }
      assert (length (x ++ b) ≤ length b)%nat as Hle; [|destruct x; [done|rewrite length_app in Hle; cbn in Hle; lia]].
      rewrite Hb. apply (kept_max _ (x ++ y) v a' (x ++ b) (d :: k)); [done|by rewrite <- app_assoc| |done].
      by rewrite Ey, app_assoc.
    + eapply (token_no_overlap x y t0 (k ++ drop (length b) t0) []); [done..|].
      rewrite app_nil_r, app_assoc, <- Eb. rewrite Ev at 1. apply take_drop.
  - cbn in Hb. rewrite app_nil_r in Hb.
    pose proof (kept_max _ (x ++ y) v a' x y Hin eq_refl eq_refl Hy). destruct x; [done|]. cbn in *. lia.
Qed.

Lemma recover_stream_fragment_spec pending fragment :
  pf_unresolved (ps_profile s) = LeaveMasked →
  ∃ st rest out, recover_stream_fragment s pending fragment = (set_stats (λ _, st) s, rest, Ok out) ∧
    ∀ c, substitute m (bytes pending ++ bytes fragment ++ c) = bytes out ++ substitute m (bytes rest ++ c).
Proof.
  intros Hleave. unfold recover_stream_fragment. set (value := bytes pending ++ bytes fragment).
  change (max_list_with _ _) with (kept value). set (split := (length value - kept value)%nat).
  assert (kept value ≤ length value)%nat as Hle.
  { destruct (decide (kept value = 0)%nat) as [->|Hk]; [lia|].
    destruct (kept_token _ Hk) as (a & t & v & _ & E & Hl). rewrite E at 2. rewrite length_app, length_take. lia. }
  assert (is_char_boundary split value = true) as ->.
  { unfold is_char_boundary. destruct (decide (kept value = 0)%nat) as [E0|Hk].
    - by rewrite drop_ge by lia.
    - destruct (kept_token _ Hk) as (a & t & v & Hin & E & Hl).
      destruct (dictionary_token _ _ _ Hs Hin) as (Ht & _). destruct (token_open _ Ht) as [r ->].
      assert (split = length a) as ->.
      { unfold split. rewrite E at 1. rewrite length_app, length_take. lia. }
      rewrite E, drop_app_length. destruct (kept value); done. }
  cbn [negb]. destruct (recover_text_result (of_bytes (take split value)) s Hs) as [st ->].
  rewrite Hleave, bool_decide_eq_false_2, andb_false_r by done.
  eexists st, _, _. split; [reflexivity|]. intros c. unfold recovered. rewrite !bytes_of_bytes, app_assoc.
  change (bytes pending ++ bytes fragment) with value. rewrite <- (take_drop split value) at 1.
  rewrite <- app_assoc. apply substitute_app; [done|]. apply cut_not_crossed.
  rewrite take_drop, length_drop. lia.
Qed.
End fragments.

(** ** Events *)

Section events.
Context {detector : PiiDetector} {laws : PiiDetectorLaws detector} {mac : PiiMac}.
Context {ProviderEvidence ProviderContinuationState NormalizedUsage FinishReason TerminalState : Type}.
Abbreviation event :=
  (InferenceEvent ProviderEvidence ProviderContinuationState NormalizedUsage FinishReason TerminalState) (only parsing).

(** A stream of events through the recoverer: what it emits for each of them and at the end. *)
Fixpoint recover_events (r : PiiStreamRecoverer) (events : list event) :
    PiiStreamRecoverer * result LlmGatewayError (list event) :=
  match events with
  | [] => (r, Ok [])
  | e :: events =>
      match PiiStreamRecoverer_recover r e with
      | (r, Err err) => (r, Err err)
      | (r, Ok emitted) =>
          let '(r, rest) := recover_events r events in
          (r, rest ← rest; Ok (option_list emitted ++ rest))
      end
  end.
Definition recover_stream (s : RequestPiiSession) (events : list event) : result LlmGatewayError (list event) :=
  let '(r, emitted) := recover_events (stream_recoverer s) events in
  emitted ← emitted;
  rest ← PiiStreamRecoverer_finish r;
  Ok (emitted ++ rest).

(** The text of a stream, the arguments of one of its tool calls, and everything else. *)
Definition event_text (e : event) : list ascii := match e with TextDelta t => bytes t | _ => [] end.
Definition event_arguments (i : N) (e : event) : list ascii :=
  match e with
  | ToolCallDeltaEvent d => if bool_decide (td_index d = i) then bytes (td_arguments_fragment d) else []
  | _ => []
  end.
Definition event_mark (e : event) : list event :=
  match e with
  | TextDelta _ => []
  | ToolCallDeltaEvent d =>
      if bool_decide (is_Some (td_id d)) || bool_decide (is_Some (td_name d)) then
        [ToolCallDeltaEvent {| td_index := td_index d; td_id := td_id d; td_name := td_name d;
                               td_arguments_fragment := "" |}]
      else []
  | other => [other]
  end.

Definition tool_pending (r : PiiStreamRecoverer) (i : N) : string := default "" (sr_tool_pending r !! i).

Section run.
Context (s : RequestPiiSession) (Hs : dictionary_ok (dictionary s))
  (Hleave : pf_unresolved (ps_profile s) = LeaveMasked).
Abbreviation m := (dictionary s).
Definition same_tokens (s' : RequestPiiSession) : Prop := ∃ st, s' = set_stats (λ _, st) s.

Lemma same_tokens_fragment s1 pending fragment :
  same_tokens s1 → ∃ s2 rest out, recover_stream_fragment s1 pending fragment = (s2, rest, Ok out) ∧ same_tokens s2 ∧
    ∀ c, substitute m (bytes pending ++ bytes fragment ++ c) = bytes out ++ substitute m (bytes rest ++ c).
Proof.
  intros [st ->]. destruct (recover_stream_fragment_spec (set_stats (λ _, st) s) Hs pending fragment Hleave)
    as (st' & rest & out & E & H). eexists _, rest, out. split; [exact E|]. split; [by exists st'|exact H].
Qed.
Lemma same_tokens_recover s1 t :
  same_tokens s1 → ∃ s2, recover_text t s1 = (s2, Ok (recovered s t)) ∧ same_tokens s2.
Proof.
  intros [st ->]. destruct (recover_text_result t (set_stats (λ _, st) s) Hs) as [st' ->].
  eexists. split; [|by exists st']. cbn [ps_profile set_stats].
  by rewrite Hleave, bool_decide_eq_false_2, andb_false_r.
Qed.

(** What one event and what it emits add to the text and to the arguments. *)
Definition step_ok (r r' : PiiStreamRecoverer) (input output : list event) : Prop :=
  same_tokens (sr_session r') ∧
  (∀ c, substitute m (bytes (sr_text_pending r) ++ (input ≫= event_text) ++ c)
        = (output ≫= event_text) ++ substitute m (bytes (sr_text_pending r') ++ c)) ∧
  (∀ i c, substitute m (bytes (tool_pending r i) ++ (input ≫= event_arguments i) ++ c)
          = (output ≫= event_arguments i) ++ substitute m (bytes (tool_pending r' i) ++ c)) ∧
  output ≫= event_mark = input ≫= event_mark.

Lemma event_text_option t : (option_list (if is_empty t then None else Some (TextDelta t)) : list event) ≫= event_text = bytes t.
Proof. destruct t; [done|]. cbn. by rewrite app_nil_r. Qed.

Lemma recover_step r e :
  same_tokens (sr_session r) →
  ∃ r' emitted, PiiStreamRecoverer_recover r e = (r', Ok emitted) ∧ step_ok r r' [e] (option_list emitted).
Proof.
  intros Hr. destruct e as [|t| | |d| | |]; cbn [PiiStreamRecoverer_recover]; try (by eexists r, _).
  - destruct (same_tokens_fragment (sr_session r) (sr_text_pending r) t Hr) as (s2 & rest & out & -> & H2 & H).
    eexists _, _. split; [reflexivity|]. split_and!; [done| | |].
    + intros c. rewrite event_text_option. cbn. rewrite app_nil_r. apply H.
    + intros i c. by destruct (is_empty out).
    + by destruct (is_empty out).
  - destruct (same_tokens_fragment (sr_session r) (tool_pending r (td_index d)) (td_arguments_fragment d) Hr)
      as (s2 & rest & out & E & H2 & H). unfold tool_pending in E. rewrite E.
    eexists _, _. split; [reflexivity|]. split_and!; [done| | |].
    + intros c. by destruct (_ || _).
    + intros i c. unfold tool_pending at 2. cbn [sr_tool_pending mbind list_bind app event_arguments]. rewrite app_nil_r.
      case_bool_decide as Hi.
      * subst i. rewrite lookup_insert_eq. cbn [default from_option]. rewrite H. f_equal.
        destruct out; [by destruct (_ || _); cbn; rewrite ?bool_decide_eq_true_2|].
        rewrite orb_true_r. cbn. rewrite bool_decide_eq_true_2 by done. by rewrite app_nil_r.
      * rewrite lookup_insert_ne by done. change (default "" (sr_tool_pending r !! i)) with (tool_pending r i).
        assert (∀ b : bool, (option_list (if b then Some (ToolCallDeltaEvent {| td_index := td_index d; td_id := td_id d;
          td_name := td_name d; td_arguments_fragment := out |}) else None) : list event) ≫= event_arguments i = []) as Hn.
        { intros []; [|done]. cbn. by rewrite bool_decide_eq_false_2. }
        by rewrite Hn.
    + cbn [mbind list_bind app event_mark]. rewrite app_nil_r.
      destruct (bool_decide (is_Some (td_id d)) || bool_decide (is_Some (td_name d))) eqn:Eh; cbn [orb].
      * cbn. by rewrite Eh.
      * destruct (negb _); cbn; [by rewrite Eh|done].
Qed.

Lemma step_ok_trans r1 r2 r3 i1 i2 o1 o2 :
  step_ok r1 r2 i1 o1 → step_ok r2 r3 i2 o2 → step_ok r1 r3 (i1 ++ i2) (o1 ++ o2).
Proof.
  intros (_ & Ht1 & Ha1 & Hm1) (Hs2 & Ht2 & Ha2 & Hm2). split_and!; [done| | |].
  - intros c. rewrite !bind_app, <- !app_assoc, <- Ht2. apply Ht1.
  - intros i c. rewrite !bind_app, <- !app_assoc, <- Ha2. apply Ha1.
  - by rewrite !bind_app, Hm1, Hm2.
Qed.

Lemma recover_events_ok r events :
  same_tokens (sr_session r) → ∃ r' out, recover_events r events = (r', Ok out) ∧ step_ok r r' events out.
Proof.
  revert r. induction events as [|e events IH]; intros r Hr; cbn [recover_events].
  - exists r, []. by split_and!.
  - destruct (recover_step r e Hr) as (r1 & emitted & -> & H1). destruct (IH r1) as (r2 & out & -> & H2); [apply H1|].
    eexists r2, _. split; [reflexivity|]. by apply (step_ok_trans r r1 r2 [e] events).
Qed.

(** ** The end of a stream *)

(** Events of the pending arguments. *)
Definition flushes (l : list (N * string)) (out : list event) : Prop :=
  out ≫= event_text = [] ∧ out ≫= event_mark = [] ∧
  ∀ i, out ≫= event_arguments i
       = l ≫= λ x, if bool_decide (x.1 = i) then substitute m (bytes x.2) else [].

Lemma finish_tools_ok l s1 :
  same_tokens s1 → ∃ s2 outs, each finish_tool l s1 = (s2, Ok outs) ∧ flushes l (mjoin outs).
Proof.
  revert s1. induction l as [|[i pending] l IH]; intros s1 H1.
  - by exists s1, [].
  - cbn [each]. destruct (same_tokens_recover s1 pending H1) as (s2 & E2 & H2).
    destruct (IH s2 H2) as (s3 & outs & E & Ht & Hm & Ha).
    eexists s3, _. split.
    { erewrite bind_M_eq by (cbn [finish_tool]; rewrite (bind_M_eq _ _ _ _ _ E2); reflexivity). by rewrite (bind_M_eq _ _ _ _ _ E). } unfold flushes. rewrite !mjoin_cons, !bind_app.
    split_and!.
    + rewrite Ht, app_nil_r. by destruct (is_empty _).
    + rewrite Hm, app_nil_r. by destruct (is_empty _).
    + intros j. rewrite bind_app, bind_cons, Ha. f_equal. cbn [fst snd].
      assert (bytes (recovered s pending) = substitute m (bytes pending)) as <- by apply bytes_of_bytes.
      destruct (recovered s pending) as [|c u]; [by case_bool_decide|].
      cbn [is_empty mbind list_bind event_arguments td_index td_arguments_fragment]. by rewrite app_nil_r.
Qed.

Lemma bind_key {A} (l : list (N * string)) i (f : string → list A) :
  NoDup l.*1 → (l ≫= λ x, if bool_decide (x.1 = i) then f x.2 else []) =
  match List.find (λ x, bool_decide (x.1 = i)) l with Some x => f x.2 | None => [] end.
Proof.
  induction l as [|[j v] l IH]; [done|]. rewrite fmap_cons, bind_cons. intros [Hj Hl]%NoDup_cons. cbn [fst snd List.find].
  case_bool_decide as E; [|by apply IH]. subst j. rewrite (IH Hl). destruct (List.find _ l) as [x|] eqn:Hf; [|by rewrite app_nil_r].
  exfalso. apply List.find_some in Hf as [Hin Hx]. apply bool_decide_eq_true in Hx. apply Hj. cbn. rewrite <- Hx.
  by apply list_elem_of_fmap_2, list_elem_of_In.
Qed.

Lemma pending_arguments r i :
  (stable_sort (λ a b, (a.1 <=? b.1)%N) (map_to_list (sr_tool_pending r)) ≫=
     λ x, if bool_decide (x.1 = i) then substitute m (bytes x.2) else [])
  = substitute m (bytes (tool_pending r i)).
Proof.
  set (l := stable_sort _ _). assert (l ≡ₚ map_to_list (sr_tool_pending r)) as Hp by apply stable_sort_perm.
  rewrite (bind_key l i (λ v, substitute m (bytes v))) by (rewrite Hp; apply NoDup_fst_map_to_list). unfold tool_pending.
  destruct (List.find _ l) as [[j v]|] eqn:Hf.
  - apply List.find_some in Hf as [Hin Hj]. apply bool_decide_eq_true in Hj. cbn in Hj. subst j.
    apply list_elem_of_In in Hin. rewrite Hp in Hin. apply elem_of_map_to_list in Hin. by rewrite Hin.
  - destruct (sr_tool_pending r !! i) as [v|] eqn:E; [|done]. exfalso.
    apply elem_of_map_to_list in E. rewrite <- Hp in E. apply list_elem_of_In in E.
    pose proof (List.find_none _ _ Hf _ E) as H. cbn in H. by rewrite bool_decide_eq_true_2 in H.
Qed.

Lemma finish_ok r :
  same_tokens (sr_session r) →
  ∃ out : list event, PiiStreamRecoverer_finish r = Ok out ∧
    out ≫= event_text = substitute m (bytes (sr_text_pending r)) ∧ out ≫= event_mark = [] ∧
    ∀ i, out ≫= event_arguments i = substitute m (bytes (tool_pending r i)).
Proof.
  intros Hr. unfold PiiStreamRecoverer_finish.
  assert (∃ s2 (first : list event),
    (if is_empty (sr_text_pending r) then mret []
     else recovered ← recover_text (sr_text_pending r);
          mret (if is_empty recovered then [] else [TextDelta recovered])) (sr_session r) = (s2, Ok first) ∧
    same_tokens s2 ∧ first ≫= event_text = substitute m (bytes (sr_text_pending r)) ∧
    first ≫= event_mark = [] ∧ ∀ i, first ≫= event_arguments i = []) as (s2 & first & E & H2 & Ht & Hm & Ha).
  { destruct (sr_text_pending r) as [|c u] eqn:Et; [by eexists _, []|]. cbn [is_empty].
    destruct (same_tokens_recover (sr_session r) (String c u) Hr) as (s2 & E2 & H2).
    eexists s2, _. rewrite (bind_M_eq _ _ _ _ _ E2). split; [reflexivity|]. rewrite <- (bytes_of_bytes (substitute m _)).
    change (of_bytes (substitute m _)) with (recovered s (String c u)).
    destruct (recovered s (String c u)) as [|d v]; split_and!; try done. cbn. by rewrite app_nil_r. }
  rewrite (bind_M_eq _ _ _ _ _ E).
  destruct (finish_tools_ok (stable_sort (λ a b, (a.1 <=? b.1)%N) (map_to_list (sr_tool_pending r))) s2 H2)
    as (s3 & outs & E3 & Ht3 & Hm3 & Ha3).
  rewrite (bind_M_eq _ _ _ _ _ E3). eexists. split; [reflexivity|]. rewrite !bind_app.
  split_and!; [by rewrite Ht, Ht3, app_nil_r|by rewrite Hm, Hm3|].
  intros i. by rewrite bind_app, Ha, Ha3, pending_arguments.
Qed.
End run.

(** ** The theorems *)

Context {ImageSource Role ItemStatus : Type}.
Abbreviation session_of := (@reachable detector mac ImageSource Role ItemStatus) (only parsing).

(** In every session of a request, recovery changes nothing of the session but its
    counters, and what it gives for a text, replacing one token after the other, is the text
    with every token of the session replaced at once; it fails exactly when a token prefix is
    left and the profile rejects that. *)
Theorem recovery_substitutes p key s t :
  session_of p key s →
  ∃ st, recover_text t s =
    (set_stats (λ _, st) s,
     if containsb TOKEN_PREFIX (substitute (dictionary s) (bytes t))
        && bool_decide (pf_unresolved (ps_profile s) = RejectBuffered)
     then Err ProviderUnavailable else Ok (of_bytes (substitute (dictionary s) (bytes t)))).
Proof.
  intros Hr. destruct (recover_text_result t s) as [st E]; [by eapply session_dictionary, reachable_wf|].
  exists st. rewrite E. unfold recovered. by rewrite bytes_of_bytes.
Qed.

(** A session whose tokens have their shape recovers a stream as a whole. *)
Lemma stream_whole s (events : list event) :
  dictionary_ok (dictionary s) → pf_unresolved (ps_profile s) = LeaveMasked →
  ∃ out, recover_stream s events = Ok out ∧
    (recover_text (of_bytes (events ≫= event_text)) s).2 = Ok (of_bytes (out ≫= event_text)) ∧
    (∀ i, (recover_text (of_bytes (events ≫= event_arguments i)) s).2 = Ok (of_bytes (out ≫= event_arguments i))) ∧
    out ≫= event_mark = events ≫= event_mark.
Proof.
  intros Hs Hleave.
  assert (same_tokens s s) as Hsame by (exists (ps_stats s); by destruct s).
  destruct (recover_events_ok s Hs Hleave (stream_recoverer s) events Hsame) as (r & out & E & H1 & Ht & Ha & Hm).
  destruct (finish_ok s Hs Hleave r H1) as (rest & Ef & Ht2 & Hm2 & Ha2).
  exists (out ++ rest). unfold recover_stream. rewrite E. cbn. rewrite Ef.
  specialize (Ht []). rewrite !app_nil_r in Ht. cbn [app sr_text_pending stream_recoverer] in Ht.
  split_and!; [done| | |by rewrite bind_app, Hm, Hm2, app_nil_r].
  - destruct (same_tokens_recover s Hs Hleave s (of_bytes (events ≫= event_text)) Hsame) as (s2 & -> & _).
    cbn. unfold recovered. by rewrite bytes_of_bytes, bind_app, Ht2, <- Ht.
  - intros i. specialize (Ha i []). rewrite !app_nil_r in Ha.
    destruct (same_tokens_recover s Hs Hleave s (of_bytes (events ≫= event_arguments i)) Hsame) as (s2 & -> & _).
    cbn. unfold recovered. by rewrite bytes_of_bytes, bind_app, Ha2, <- Ha.
Qed.

(** C17 A profile that leaves unknown tokens in place recovers every stream, however its text
    and the arguments of its tool calls are cut into fragments: the text it emits, and the
    arguments of each tool call, are what the recovery of the whole text gives, and every
    other event and the start of every tool call is passed on in order. *)
Theorem stream_recovers_as_whole p key s (events : list event) :
  session_of p key s → pf_unresolved (ps_profile s) = LeaveMasked →
  ∃ out, recover_stream s events = Ok out ∧
    (recover_text (of_bytes (events ≫= event_text)) s).2 = Ok (of_bytes (out ≫= event_text)) ∧
    (∀ i, (recover_text (of_bytes (events ≫= event_arguments i)) s).2 = Ok (of_bytes (out ≫= event_arguments i))) ∧
    out ≫= event_mark = events ≫= event_mark.
Proof. intros Hr. apply stream_whole. by eapply session_dictionary, reachable_wf. Qed.
End events.
