(* ===== verification/PiiExamples.v ===== *)
(** * Examples on personal data

    The patterns of the detectors on ASCII texts, run by a small backtracking matcher, and what
    the theorems say of concrete requests and streams. *)

From Stdlib Require Import Ascii.
From S2P Require Import Prelude RustStr JsonTree JsonText InferenceError LlmError Pii PiiSubstitution PiiFacts PiiRoundtrip PiiStream.

(** ** Patterns *)

(** A class repeated between two bounds, as often as possible first, or a word boundary. *)
Inductive item :=
| Repeat (class : ascii → bool) (least : nat) (most : option nat)
| WordBoundary.

Definition is_word (c : ascii) : bool := is_ascii_alphanumeric c || one_of "_" c.
Definition at_boundary (before : option ascii) (l : list ascii) : bool :=
  xorb (from_option is_word false before) (match l with c :: _ => is_word c | [] => false end).

Section repeat.
Context (class : ascii → bool) (least : nat) (most : option nat)
  (next : option ascii → list ascii → option nat).
Fixpoint match_repeat (n : nat) (before : option ascii) (l : list ascii) : option nat :=
  let stop := if (least <=? n)%nat then next before l else None in
  match l with
  | c :: l' =>
      if class c && match most with Some k => (n <? k)%nat | None => true end then
        match match_repeat (S n) (Some c) l' with Some k => Some (S k) | None => stop end
      else stop
  | [] => stop
  end.
End repeat.
(** The length of the first match at the start of the text. *)
Fixpoint match_items (items : list item) (before : option ascii) (l : list ascii) : option nat :=
  match items with
  | [] => Some 0%nat
  | WordBoundary :: items => if at_boundary before l then match_items items before l else None
  | Repeat class least most :: items => match_repeat class least most (match_items items) 0 before l
  end.

Definition chars (s : string) : item := Repeat (one_of s) 1 (Some 1%nat).
Definition maybe (s : string) : item := Repeat (one_of s) 0 (Some 1%nat).
Definition digits (n : nat) : item := Repeat is_ascii_digit n (Some n).
Definition phone_number : list item :=
  [maybe "("; chars "23456789"; digits 2; maybe ")"; chars "-. "; digits 3; chars "-. "; digits 4; WordBoundary].
(** The alternatives of each pattern, in the order in which they are tried. *)
Definition pattern (kind : PiiKind) : list (list item) :=
  match kind with
  | Email =>
      [[WordBoundary; Repeat (λ c, is_ascii_alphanumeric c || one_of "._%+-" c) 1 None; chars "@";
        Repeat (λ c, is_ascii_alphanumeric c || one_of ".-" c) 1 None; chars ".";
        Repeat is_ascii_alphabetic 2 None; WordBoundary]]
  | UsSsn => [[WordBoundary; digits 3; chars "-"; digits 2; chars "-"; digits 4; WordBoundary]]
  | Phone =>
      [WordBoundary :: maybe "+" :: chars "1" :: maybe "-. " :: phone_number; WordBoundary :: phone_number]
  end.

Fixpoint first_match (alternatives : list (list item)) (before : option ascii) (l : list ascii) : option nat :=
  match alternatives with
  | [] => None
  | items :: alternatives =>
      match match_items items before l with Some k => Some k | None => first_match alternatives before l end
  end.
Fixpoint scan (kind : PiiKind) (skip i : nat) (before : option ascii) (l : list ascii) : list (nat * nat) :=
  match l with
  | [] => []
  | c :: l' =>
      match skip with
      | S skip => scan kind skip (S i) (Some c) l'
      | O =>
          match first_match (pattern kind) before l with
          | Some (S k) => (i, i + S k)%nat :: scan kind k (S i) (Some c) l'
          | _ => scan kind 0 (S i) (Some c) l'
          end
      end
  end.
#[local] Instance pattern_detector : PiiDetector := λ kind l, scan kind 0 0 None l.

(** ** The matches of a pattern *)

Inductive matches : list item → list ascii → Prop :=
| matches_nil : matches [] []
| matches_boundary items w : matches items w → matches (WordBoundary :: items) w
| matches_repeat class least most items u w :
    Forall (λ c, class c = true) u → (least ≤ length u)%nat → matches items w →
    matches (Repeat class least most :: items) (u ++ w).

(** How a repetition splits the text between itself and what follows. *)
Definition splits class (least : nat) (next : option ascii → list ascii → option nat) (n : nat) (l : list ascii) (k : nat) : Prop :=
  ∃ u before' l' k', l = u ++ l' ∧ Forall (λ c, class c = true) u ∧ (least ≤ n + length u)%nat ∧
    next before' l' = Some k' ∧ k = (length u + k')%nat.
Lemma splits_stop class least next n before l k :
  (if (least <=? n)%nat then next before l else None) = Some k → splits class least next n l k.
Proof.
  destruct (least <=? n)%nat eqn:E; [|done]. apply Nat.leb_le in E. intros H.
  exists [], before, l, k. split_and!; [done..|cbn; lia|done|done].
Qed.
Lemma match_repeat_matches class least most next n before l k :
  match_repeat class least most next n before l = Some k → splits class least next n l k.
Proof.
  revert n before k. induction l as [|c l IH]; intros n before k; cbn [match_repeat]; [apply splits_stop|].
  destruct (class c) eqn:Ec; cbn [andb]; [|apply splits_stop].
  destruct (match most with Some _ => _ | None => _ end); [|apply splits_stop].
  destruct (match_repeat class least most next (S n) (Some c) l) as [j|] eqn:E; [|apply splits_stop].
  intros [= <-]. apply IH in E as (u & before' & l' & k' & -> & Hu & Hn & Hk & ->).
  exists (c :: u), before', l', k'. split_and!; [done|by constructor|cbn; lia|done|done].
Qed.
Lemma match_items_matches items before l k :
  match_items items before l = Some k → (k ≤ length l)%nat ∧ matches items (take k l).
Proof.
  revert before l k. induction items as [|[class least most|] items IH]; intros before l k; cbn [match_items].
  - intros [= <-]. split; [lia|constructor].
  - intros (u & before' & l' & k' & -> & Hu & Hn & [Hk Hm]%IH & ->)%match_repeat_matches.
    rewrite length_app, take_app_add. split; [lia|]. by constructor.
  - destruct (at_boundary before l); [|done]. intros [Hk Hm]%IH. split; [done|]. by constructor.
Qed.
Lemma first_match_matches alternatives before l k :
  first_match alternatives before l = Some k → (k ≤ length l)%nat ∧ ∃ items, items ∈ alternatives ∧ matches items (take k l).
Proof.
  induction alternatives as [|items alternatives IH]; [done|]. cbn [first_match].
  destruct (match_items items before l) as [j|] eqn:E.
  - intros [= <-]. apply match_items_matches in E as [Hj Hm]. split; [done|]. exists items. split; [left|done].
  - intros [Hk (items' & Hin & Hm)]%IH. split; [done|]. exists items'. split; [by right|done].
Qed.
Lemma scan_matches kind skip i before l a b pre :
  i = length pre → (a, b) ∈ scan kind skip i before l →
  (a < b ∧ b ≤ length (pre ++ l))%nat ∧ ∃ items, items ∈ pattern kind ∧ matches items (slice a b (pre ++ l)).
Proof.
  revert skip i before pre. induction l as [|c l IH]; intros skip i before pre Hi; [by intros ?%not_elem_of_nil|].
  assert (∀ n, (a, b) ∈ scan kind n (S i) (Some c) l →
    (a < b ∧ b ≤ length (pre ++ c :: l))%nat ∧ ∃ items, items ∈ pattern kind ∧ matches items (slice a b (pre ++ c :: l))) as Hrec.
  { intros n H. change (c :: l) with ([c] ++ l). rewrite app_assoc. eapply (IH n); [|exact H].
    rewrite length_app. cbn. lia. }
  cbn [scan]. destruct skip as [|skip]; [|apply Hrec].
  destruct (first_match (pattern kind) before (c :: l)) as [[|k]|] eqn:E; [apply Hrec| |apply Hrec].
  intros [[= -> ->]|H]%elem_of_cons; [|by apply (Hrec k)].
  apply first_match_matches in E as [Hk (items & Hin & Hm)]. rewrite length_app. split; [lia|].
  exists items. split; [done|]. unfold slice. rewrite Hi, drop_app_length.
  by replace (length pre + S k - length pre)%nat with (S k) by lia.
Qed.

Lemma matches_bytes (P : ascii → Prop) items w :
  matches items w → Forall (λ x, match x with Repeat f _ _ => ∀ c, f c = true → P c | WordBoundary => True end) items →
  Forall P w.
Proof.
  induction 1 as [|items w _ IH|class least most items u w Hu _ _ IH]; intros H; [done|..];
    apply Forall_cons in H as [Hi H]; [by apply IH|].
  apply Forall_app. split; [|by apply IH]. eapply Forall_impl; [exact Hu|]. apply Hi.
Qed.
Lemma matches_mark f least most items w :
  matches items w → Repeat f (S least) most ∈ items → Exists (λ c, f c = true) w.
Proof.
  induction 1 as [|items w _ IH|class n m items u w Hu Hn _ IH]; intros H.
  - by apply not_elem_of_nil in H.
  - apply elem_of_cons in H as [?|H]; [done|by apply IH].
  - apply Exists_app. apply elem_of_cons in H as [[= -> <- ->]|H]; [left|right; by apply IH].
    destruct u as [|c u]; [cbn in Hn; lia|]. apply Forall_cons in Hu as [Hc _]. by left.
Qed.

(** A property of bytes, tested on each of them. *)
Lemma every_byte (P : ascii → bool) : forallb (λ n, P (ascii_of_nat n)) (seq 0 256) = true → ∀ c, P c = true.
Proof.
  intros H%forallb_Forall c. rewrite Forall_forall in H. rewrite <- (ascii_nat_embedding c). apply H.
  apply list_elem_of_In, in_seq. pose proof (nat_ascii_bounded c). lia.
Qed.
Definition class_in (kind : PiiKind) (x : item) : bool :=
  match x with
  | Repeat f _ _ => forallb (λ n, implb (f (ascii_of_nat n)) (pattern_byte kind (ascii_of_nat n))) (seq 0 256)
  | WordBoundary => true
  end.
Lemma pattern_classes kind : forallb (forallb (class_in kind)) (pattern kind) = true.
Proof. destruct kind; vm_compute; reflexivity. Qed.

#[local] Instance pattern_laws : PiiDetectorLaws pattern_detector.
Proof.
  intros kind l a b Hin. destruct (scan_matches kind 0 0 None l a b [] eq_refl Hin) as [Hab (items & Hi & Hm)].
  cbn [app] in *. split; [lia|]. split.
  - apply (matches_bytes _ _ _ Hm). pose proof (pattern_classes kind) as H. apply forallb_Forall in H.
    rewrite Forall_forall in H. specialize (H _ Hi). apply forallb_Forall in H. eapply Forall_impl; [exact H|].
    intros [f least most|] Hf; [|done]. intros c Hc. pose proof (every_byte (λ c, implb (f c) (pattern_byte kind c)) Hf c) as Hc'. cbn beta in Hc'. by rewrite Hc in Hc'.
  - destruct kind; cbn [pattern] in Hi; rewrite ?elem_of_cons in Hi;
      repeat match goal with H : _ ∨ _ |- _ => destruct H as [H|H] end; try (by apply not_elem_of_nil in Hi); subst items;
      (eapply matches_mark; [exact Hm|]); cbn [pattern_mark]; unfold phone_number, chars, digits; rewrite !elem_of_cons; eauto 20.
Qed.

(** ** A request *)

(** Any function with outputs of sixteen bytes will do for the theorems. *)
#[local] Instance sample_mac : PiiMac := λ _ data, rev data.
Definition sample_profile : PiiProfile :=
  {| pf_enabled := true; pf_scope := RequestScope; pf_unresolved := LeaveMasked; pf_kinds := [Email; UsSsn; Phone];
     pf_max_placeholders := 2; pf_max_value_bytes := 64; pf_detector_version := "local-regex-v1";
     pf_token_format_version := "v1"; pf_minimum_placeholder_preservation_percent := 100 |}.
Definition sample_session : RequestPiiSession :=
  {| ps_profile := sample_profile; ps_key := bytes "k"; ps_by_token := ∅; ps_counter := 0;
     ps_stats := PiiTransformStats_default |}.
Definition sample_text : string := "mail a@b.co, not 123-45-6789".
Definition sample_block (t : string) : ContentBlock unit :=
  ToolCallBlock {| tc_id := "c"; tc_name := "n"; tc_arguments := JObject [("to", JString t)] |}.
Definition sample_messages : list (Message unit unit) :=
  [ {| mg_role := (); mg_content := [Text sample_text] |};
    {| mg_role := (); mg_content := [ToolResultBlock "c" [sample_block "a@b.co"] false] |} ].
Definition masked_session : RequestPiiSession := (tokenize_request sample_messages sample_session).1.
Definition masked_messages : list (Message unit unit) := default [] (match (tokenize_request sample_messages sample_session).2 with Ok m => Some m | Err _ => None end).

Example sample_masked :
  (tokenize_text sample_text sample_session).2 =
  Ok ("mail [[PII:v1:email:6f632e62406101000000000000006c69]], not [[PII:v1:us_ssn:" +:+
      "393837362d35342d3332310200000000]]").
Proof. vm_compute. reflexivity. Qed.

Lemma detections_masked_witness :
  ∃ s' out, tokenize_text sample_text sample_session = (s', Ok out) ∧
    ∃ spans, bytes out = render (bytes sample_text) 0 spans ∧ (5, 11, Email)%nat ∈ detections [Email; UsSsn; Phone] (bytes sample_text) ∧
      ∃ a b token, (a, b, token) ∈ spans ∧ (a ≤ 5 ∧ 5 < b)%nat.
Proof.
  destruct (tokenize_text sample_text sample_session) as [s' [out|e]] eqn:E; [|exfalso; vm_compute in E; discriminate E].
  exists s', out. split; [done|].
  assert ((5, 11, Email)%nat ∈ detections [Email; UsSsn; Phone] (bytes sample_text)) as Hd by (vm_compute; left).
  destruct (detections_masked sample_text sample_session s' out E) as (spans & Hr & _ & _ & Hcov).
  exists spans. split; [done|]. split; [done|]. exact (Hcov 5%nat 11%nat Email Hd).
Defined.

Lemma masked_request_recovered_witness :
  ∃ s2, recover_response ((λ m, MessageItem "i" (mg_role m) (mg_content m) ()) <$> masked_messages) masked_session
        = (s2, Ok ((λ m, MessageItem "i" (mg_role m) (mg_content m) ()) <$> sample_messages)).
Proof.
  apply (masked_request_recovered sample_profile (bytes "k") sample_messages masked_messages sample_session masked_session "i" ()).
  - vm_compute. reflexivity.
  - vm_compute. reflexivity.
  - vm_compute. repeat constructor.
  - intros kind c c' v v' Hc Hc' Hv Hv' E. cbn [pf_max_placeholders sample_profile] in *.
    assert ((sample_messages ≫= message_texts) ≫= text_values sample_profile = [bytes "a@b.co"; bytes "123-45-6789"; bytes "a@b.co"])
      as Hvs by (vm_compute; reflexivity).
    rewrite Hvs in *. rewrite !elem_of_cons, elem_of_nil in *.
    assert (c = 0 ∨ c = 1 ∨ c = 2)%N as Hc3 by lia. assert (c' = 0 ∨ c' = 1 ∨ c' = 2)%N as Hc3' by lia. clear Hvs Hc Hc'.
    destruct Hv as [->|[->|[->|[]]]], Hv' as [->|[->|[->|[]]]]; try reflexivity; exfalso; revert E;
      destruct kind, Hc3 as [->|[->| ->]], Hc3' as [->|[->| ->]]; vm_compute; discriminate.
Defined.

Lemma masked_session_reachable : reachable (ImageSource := unit) (Role := unit) (ItemStatus := unit) sample_profile (bytes "k") masked_session.
Proof. apply reachable_tokenize, reachable_new. vm_compute. reflexivity. Qed.

Lemma recovery_substitutes_witness :
  ∃ st t, recover_text "for [[PII:v1:email:6f632e62406101000000000000006c69]]!" masked_session
        = (set_stats (λ _, st) masked_session, Ok t) ∧ t = "for a@b.co!".
Proof.
  destruct (recovery_substitutes sample_profile (bytes "k") masked_session
    "for [[PII:v1:email:6f632e62406101000000000000006c69]]!" masked_session_reachable) as [st ->].
  exists st. eexists. split; [f_equal; vm_compute; reflexivity|reflexivity].
Defined.

(** ** A stream *)

Definition sample_events : list (InferenceEvent unit unit unit unit unit) :=
  [MessageStart (); TextDelta "for [[PII:v1:email:6f632e6"; TextDelta "2406101000000000000006c69]]!";
   MessageEnd () ()].
Lemma stream_recovers_as_whole_witness :
  ∃ out, recover_stream masked_session sample_events = Ok out ∧ of_bytes (out ≫= event_text) = "for a@b.co!".
Proof.
  destruct (stream_recovers_as_whole sample_profile (bytes "k") masked_session sample_events masked_session_reachable eq_refl)
    as (out & E & Ht & _ & _).
  exists out. split; [done|]. assert (∀ a b : string, @Ok LlmGatewayError string a = Ok b → a = b) as Hinj by (by intros a b [=]).
  apply Hinj. rewrite <- Ht. vm_compute. reflexivity.
Defined.

(** ** What is not masked and not recovered *)

(** A value that starts inside another one is not masked: its end stays in the text. *)
Example overlapping_address_visible :
  detections [Email; Phone] (bytes "555 123-4567@x.co") = [(4, 17, Email); (0, 12, Phone)]%nat ∧
  ∃ token, (tokenize_text "555 123-4567@x.co" sample_session).2 = Ok (of_bytes (token ++ bytes "@x.co")).
Proof.
  split; [vm_compute; reflexivity|]. exists (bytes "[[PII:v1:phone:373635342d3332312035353501000000]]"). vm_compute. reflexivity.
Qed.

(** A refusal is recovered in a response and not in a stream. *)
Definition masked_address : string := "[[PII:v1:email:6f632e62406101000000000000006c69]]".
Example refusal_not_recovered_in_stream :
  (recover_response [MessageItem "i" () [@Refusal unit masked_address] ()] masked_session).2
  = Ok [MessageItem "i" () [Refusal "a@b.co"] ()] ∧
  recover_stream masked_session [@RefusalDelta unit unit unit unit unit masked_address] = Ok [RefusalDelta masked_address].
Proof. vm_compute. done. Qed.
