(* ===== verification/StreamEncoder.v ===== *)
(** * The stream a client reads

    Model of [ClientStreamEncoder] and of the events it encodes in
    [crates/llm-gateway/src/runtime/streaming.rs]: the frames of server-sent events for the
    three client protocols, their sequence numbers, the indexes of output items and the bound
    on the bytes of a response.  The text of a JSON value is a parameter. *)

From Stdlib Require Import Ascii.
From S2P Require Import Prelude RustStr JsonTree JsonText InferenceError LlmError Usage ReasoningSeal Pii.

(** ** Events *)

Inductive FinishReason := Stop | Length | ToolCalls | ContentFilter | Cancelled | Error | Unknown.
#[export] Instance FinishReason_eq_dec : EqDecision FinishReason.
Proof. solve_decision. Defined.
(** The name it is serialized with. *)
Definition finish_reason_name (r : FinishReason) : string :=
  match r with
  | Stop => "stop" | Length => "length" | ToolCalls => "tool_calls" | ContentFilter => "content_filter"
  | Cancelled => "cancelled" | Error => "error" | Unknown => "unknown"
  end.

Inductive ProviderProtocol := POpenAiChat | POpenAiResponses | POpenAiEmbeddings | PAnthropicMessages | PBedrockConverse.
Record ProviderContinuationState := { cs_protocol : ProviderProtocol; cs_payload : list ascii }.

Inductive GatewayStreamEvent :=
| GMessageStart
| GUsage (usage : NormalizedUsage)
| GTextDelta (t : string)
| GRefusalDelta (t : string)
| GReasoningSummaryDelta (index : N) (t : string)
| GToolCallDelta (delta : ToolCallDelta)
| GReasoningContinuation (encrypted : string)
| GAnthropicReasoningContinuation (state : ProviderContinuationState)
| GCompleted (finish_reason : FinishReason) (usage : option NormalizedUsage) (include_usage : bool)
| GFailed.

(** ** Frames *)

(** [json!] of an object, whose members are kept sorted. *)
Definition obj (members : list (string * Json)) : Json :=
  JObject (foldl (λ m x, obj_insert x.1 x.2 m) [] members).
Definition num (n : N) : Json := JNumber (PosInt n).
Definition str (s : string) : Json := JString s.
Definition onum (n : option N) : Json := from_option num JNull n.
Definition ostr (s : option string) : Json := from_option str JNull s.
(** The decimal text of a number in an identifier. *)
Definition tagged (prefix request_id : string) (n : N) : string := prefix +:+ request_id +:+ "_" +:+ dec n.

Inductive Frame :=
| Sse (event : option string) (data : Json)
| SseDone.
Class JsonDisplay := json_display : Json → string.
Definition newline : string := String "010" "".
Definition frame_text {display : JsonDisplay} (f : Frame) : string :=
  match f with
  | Sse (Some name) data => "event: " +:+ name +:+ newline +:+ "data: " +:+ json_display data +:+ newline +:+ newline
  | Sse None data => "data: " +:+ json_display data +:+ newline +:+ newline
  | SseDone => "data: [DONE]" +:+ newline +:+ newline
  end.
Definition named_sse (name : string) (data : Json) : Frame := Sse (Some name) data.
Definition sse_json (data : Json) : Frame := Sse None data.

(** ** Settings of the request a response repeats *)

Definition metadata_defaults : list (string * Json) :=
  [("instructions", JNull); ("max_output_tokens", JNull); ("parallel_tool_calls", JBool false);
   ("reasoning", obj [("effort", JNull); ("summary", JNull)]); ("temperature", JNull);
   ("text", obj [("format", obj [("type", str "text")])]); ("tool_choice", str "auto"); ("tools", JArray []);
   ("top_p", JNull); ("truncation", str "disabled"); ("metadata", obj [])].
(** [from_validated_request]. *)
Definition ResponsesResponseMetadata_from (request : Json) : list (string * Json) :=
  foldl (λ m x,
    let v := match get x.1 request with Some JNull | None => x.2 | Some v => v end in
    obj_insert x.1 v m) [] metadata_defaults.
(** [apply]. *)
Definition metadata_apply (fields : list (string * Json)) (response : Json) : Json :=
  match response with
  | JObject m => JObject (foldl (λ m x, obj_insert x.1 x.2 m) m fields)
  | other => other
  end.

(** ** The state of an encoder

    The fields of [ClientStreamEncoder]: those that do not change, those [push_named] counts
    with, the content of the response, and those of the Anthropic protocol. *)

Record EncoderSettings := {
  es_protocol : ClientProtocol;
  es_request_id : string;
  es_alias : string;
  es_created_at : N;
  es_max_response_bytes : N;
  es_responses_metadata : list (string * Json);
}.
Record Wire := {
  wi_sequence_number : N;
  wi_pending : list Frame;
  wi_response_bytes : N;
  wi_limit_exceeded : bool;
}.
Record EncodedToolCall := {
  ec_output_index : N; ec_call_id : string; ec_name : string; ec_arguments : string;
}.
Record EncodedReasoningSummary := { eu_output_index : N; eu_text : string }.
Record EncodedReasoningContinuation := { eo_output_index : N; eo_encrypted_content : string }.
Record Content := {
  co_text : string;
  co_text_started : bool;
  co_refusal : string;
  co_refusal_started : bool;
  co_message_output_index : option N;
  co_tool_calls : gmap N EncodedToolCall;
  co_reasoning_summaries : gmap N EncodedReasoningSummary;
  co_reasoning_continuation : option EncodedReasoningContinuation;
  co_next_output_index : N;
}.
Record AnthropicState := {
  as_started : bool;
  as_usage : option NormalizedUsage;
  as_open_blocks : gset N;
}.
Record ClientStreamEncoder := {
  en_settings : EncoderSettings;
  en_responses_started : bool;
  en_wire : Wire;
  en_content : Content;
  en_anthropic : AnthropicState;
}.

Definition Content_new : Content :=
  {| co_text := ""; co_text_started := false; co_refusal := ""; co_refusal_started := false;
     co_message_output_index := None; co_tool_calls := ∅; co_reasoning_summaries := ∅;
     co_reasoning_continuation := None; co_next_output_index := 0 |}.
(** [new] with the time it reads. *)
Definition ClientStreamEncoder_new (settings : EncoderSettings) : ClientStreamEncoder :=
  {| en_settings := settings; en_responses_started := false;
     en_wire := {| wi_sequence_number := 0; wi_pending := []; wi_response_bytes := 0; wi_limit_exceeded := false |};
     en_content := Content_new;
     en_anthropic := {| as_started := false; as_usage := None; as_open_blocks := ∅ |} |}.

(** Updates of single fields. *)

Definition set_text (v : string) (c : Content) : Content :=
  {| co_text := v; co_text_started := co_text_started c; co_refusal := co_refusal c;
     co_refusal_started := co_refusal_started c; co_message_output_index := co_message_output_index c;
     co_tool_calls := co_tool_calls c; co_reasoning_summaries := co_reasoning_summaries c;
     co_reasoning_continuation := co_reasoning_continuation c;
     co_next_output_index := co_next_output_index c |}.
Definition set_text_started (v : bool) (c : Content) : Content :=
  {| co_text := co_text c; co_text_started := v; co_refusal := co_refusal c;
     co_refusal_started := co_refusal_started c; co_message_output_index := co_message_output_index c;
     co_tool_calls := co_tool_calls c; co_reasoning_summaries := co_reasoning_summaries c;
     co_reasoning_continuation := co_reasoning_continuation c;
     co_next_output_index := co_next_output_index c |}.
Definition set_refusal (v : string) (c : Content) : Content :=
  {| co_text := co_text c; co_text_started := co_text_started c; co_refusal := v;
     co_refusal_started := co_refusal_started c; co_message_output_index := co_message_output_index c;
     co_tool_calls := co_tool_calls c; co_reasoning_summaries := co_reasoning_summaries c;
     co_reasoning_continuation := co_reasoning_continuation c;
     co_next_output_index := co_next_output_index c |}.
Definition set_refusal_started (v : bool) (c : Content) : Content :=
  {| co_text := co_text c; co_text_started := co_text_started c; co_refusal := co_refusal c;
     co_refusal_started := v; co_message_output_index := co_message_output_index c;
     co_tool_calls := co_tool_calls c; co_reasoning_summaries := co_reasoning_summaries c;
     co_reasoning_continuation := co_reasoning_continuation c;
     co_next_output_index := co_next_output_index c |}.
Definition set_message_output_index (v : option N) (c : Content) : Content :=
  {| co_text := co_text c; co_text_started := co_text_started c; co_refusal := co_refusal c;
     co_refusal_started := co_refusal_started c; co_message_output_index := v;
     co_tool_calls := co_tool_calls c; co_reasoning_summaries := co_reasoning_summaries c;
     co_reasoning_continuation := co_reasoning_continuation c;
     co_next_output_index := co_next_output_index c |}.
Definition set_tool_calls (v : gmap N EncodedToolCall) (c : Content) : Content :=
  {| co_text := co_text c; co_text_started := co_text_started c; co_refusal := co_refusal c;
     co_refusal_started := co_refusal_started c; co_message_output_index := co_message_output_index c;
     co_tool_calls := v; co_reasoning_summaries := co_reasoning_summaries c;
     co_reasoning_continuation := co_reasoning_continuation c;
     co_next_output_index := co_next_output_index c |}.
Definition set_reasoning_summaries (v : gmap N EncodedReasoningSummary) (c : Content) : Content :=
  {| co_text := co_text c; co_text_started := co_text_started c; co_refusal := co_refusal c;
     co_refusal_started := co_refusal_started c; co_message_output_index := co_message_output_index c;
     co_tool_calls := co_tool_calls c; co_reasoning_summaries := v;
     co_reasoning_continuation := co_reasoning_continuation c;
     co_next_output_index := co_next_output_index c |}.
Definition set_reasoning_continuation (v : option EncodedReasoningContinuation) (c : Content) : Content :=
  {| co_text := co_text c; co_text_started := co_text_started c; co_refusal := co_refusal c;
     co_refusal_started := co_refusal_started c; co_message_output_index := co_message_output_index c;
     co_tool_calls := co_tool_calls c; co_reasoning_summaries := co_reasoning_summaries c;
     co_reasoning_continuation := v; co_next_output_index := co_next_output_index c |}.
Definition set_next_output_index (v : N) (c : Content) : Content :=
  {| co_text := co_text c; co_text_started := co_text_started c; co_refusal := co_refusal c;
     co_refusal_started := co_refusal_started c; co_message_output_index := co_message_output_index c;
     co_tool_calls := co_tool_calls c; co_reasoning_summaries := co_reasoning_summaries c;
     co_reasoning_continuation := co_reasoning_continuation c; co_next_output_index := v |}.
Definition set_responses_started (v : bool) (s : ClientStreamEncoder) : ClientStreamEncoder :=
  {| en_settings := en_settings s; en_responses_started := v; en_wire := en_wire s; en_content := en_content s;
     en_anthropic := en_anthropic s |}.
Definition set_wire (v : Wire) (s : ClientStreamEncoder) : ClientStreamEncoder :=
  {| en_settings := en_settings s; en_responses_started := en_responses_started s; en_wire := v;
     en_content := en_content s; en_anthropic := en_anthropic s |}.
Definition set_content (v : Content) (s : ClientStreamEncoder) : ClientStreamEncoder :=
  {| en_settings := en_settings s; en_responses_started := en_responses_started s; en_wire := en_wire s;
     en_content := v; en_anthropic := en_anthropic s |}.
Definition set_anthropic (v : AnthropicState) (s : ClientStreamEncoder) : ClientStreamEncoder :=
  {| en_settings := en_settings s; en_responses_started := en_responses_started s; en_wire := en_wire s;
     en_content := en_content s; en_anthropic := v |}.
Definition on_content (f : Content → Content) (s : ClientStreamEncoder) : ClientStreamEncoder :=
  set_content (f (en_content s)) s.

Section encoder.
Context {display : JsonDisplay} {from_slice : list ascii → option Json}.

(** ** Indexes and frames *)

Definition allocate_output_index (c : Content) : Content * N :=
  (set_next_output_index (sat_add u32_max (co_next_output_index c) 1) c, co_next_output_index c).
Definition ensure_message_output_index (c : Content) : Content * N :=
  match co_message_output_index c with
  | Some index => (c, index)
  | None => let '(c, index) := allocate_output_index c in (set_message_output_index (Some index) c, index)
  end.

Definition response_id (s : ClientStreamEncoder) : string := "resp_" +:+ es_request_id (en_settings s).
Definition failed_response (id code message : string) : Json :=
  obj [("id", str id); ("object", str "response"); ("status", str "failed"); ("store", JBool false);
       ("output", JArray []); ("error", obj [("code", str code); ("message", str message)])].

Definition fail_response_limit (s : ClientStreamEncoder) : ClientStreamEncoder :=
  let c := en_content s in
  let w := en_wire s in
  {| en_settings := en_settings s; en_responses_started := en_responses_started s;
     en_wire :=
       {| wi_sequence_number := wi_sequence_number w;
          wi_pending := [named_sse "response.failed"
            (obj [("type", str "response.failed"); ("sequence_number", num (wi_sequence_number w));
                  ("response", failed_response (response_id s) "response_too_large"
                     "The model response exceeded the gateway output limit.")])];
          wi_response_bytes := wi_response_bytes w; wi_limit_exceeded := true |};
     en_content :=
       {| co_text := ""; co_text_started := co_text_started c; co_refusal := "";
          co_refusal_started := co_refusal_started c; co_message_output_index := co_message_output_index c;
          co_tool_calls := ∅; co_reasoning_summaries := ∅; co_reasoning_continuation := None;
          co_next_output_index := co_next_output_index c |};
     en_anthropic :=
       {| as_started := false; as_usage := as_usage (en_anthropic s);
          as_open_blocks := as_open_blocks (en_anthropic s) |} |}.

Definition push_named (name : string) (value : Json) (s : ClientStreamEncoder) : ClientStreamEncoder :=
  let w := en_wire s in
  if wi_limit_exceeded w then s else
  let value :=
    match value with
    | JObject m => JObject (obj_insert "sequence_number" (num (wi_sequence_number w)) m)
    | other => other
    end in
  let counted := {| wi_sequence_number := sat_add u64_max (wi_sequence_number w) 1; wi_pending := wi_pending w;
                    wi_response_bytes := wi_response_bytes w; wi_limit_exceeded := wi_limit_exceeded w |} in
  let s := set_wire counted s in
  let frame := named_sse name value in
  match checked_add u64_max (wi_response_bytes w) (slen (frame_text frame)) with
  | None => fail_response_limit s
  | Some total =>
      if (es_max_response_bytes (en_settings s) <? total)%N then fail_response_limit s else
      set_wire {| wi_sequence_number := wi_sequence_number counted; wi_pending := wi_pending w ++ [frame];
                  wi_response_bytes := total; wi_limit_exceeded := false |} s
  end.

(** A frame outside the limit: [self.pending.push_back]. *)
Definition push_back (f : Frame) (s : ClientStreamEncoder) : ClientStreamEncoder :=
  let w := en_wire s in
  set_wire {| wi_sequence_number := wi_sequence_number w; wi_pending := wi_pending w ++ [f];
              wi_response_bytes := wi_response_bytes w; wi_limit_exceeded := wi_limit_exceeded w |} s.

(** ** The Responses protocol *)

Definition message_id (s : ClientStreamEncoder) (index : N) : string := tagged "msg_" (es_request_id (en_settings s)) index.
Definition reasoning_id (s : ClientStreamEncoder) (index : N) : string := tagged "rs_" (es_request_id (en_settings s)) index.
Definition call_item_id (s : ClientStreamEncoder) (index : N) : string := tagged "fc_" (es_request_id (en_settings s)) index.
Definition continuation_id (s : ClientStreamEncoder) : string :=
  "rs_" +:+ es_request_id (en_settings s) +:+ "_continuation".

Definition item_event (name : string) (index : N) (item : Json) (s : ClientStreamEncoder) : ClientStreamEncoder :=
  push_named name (obj [("type", str name); ("output_index", num index); ("item", item)]) s.
Definition part_event (name id : string) (index content_index : N) (part : Json) (s : ClientStreamEncoder) : ClientStreamEncoder :=
  push_named name (obj [("type", str name); ("item_id", str id); ("output_index", num index);
                        ("content_index", num content_index); ("part", part)]) s.
Definition text_part (t : string) : Json :=
  obj [("type", str "output_text"); ("text", str t); ("annotations", JArray [])].
Definition refusal_part (t : string) : Json := obj [("type", str "refusal"); ("refusal", str t)].
Definition message_item (id status : string) (content : list Json) : Json :=
  obj [("id", str id); ("type", str "message"); ("role", str "assistant"); ("status", str status);
       ("content", JArray content)].

(** The response that was started. *)
Definition start_responses (s : ClientStreamEncoder) : ClientStreamEncoder :=
  if en_responses_started s then s else
  let s := set_responses_started true s in
  let response := metadata_apply (es_responses_metadata (en_settings s))
    (obj [("id", str (response_id s)); ("object", str "response"); ("created_at", num (es_created_at (en_settings s)));
          ("status", str "in_progress"); ("background", JBool false); ("error", JNull);
          ("incomplete_details", JNull); ("model", str (es_alias (en_settings s))); ("output", JArray []);
          ("previous_response_id", JNull); ("store", JBool false); ("usage", JNull)]) in
  push_named "response.created" (obj [("type", str "response.created"); ("response", response)]) s.

Definition encode_text_delta (delta : string) (s : ClientStreamEncoder) : ClientStreamEncoder :=
  let s :=
    if co_text_started (en_content s) then s else
    let '(c, index) := ensure_message_output_index (set_text_started true (en_content s)) in
    let s := set_content c s in
    let id := message_id s index in
    let s := item_event "response.output_item.added" index (message_item id "in_progress" []) s in
    part_event "response.content_part.added" id index 0 (text_part "") s in
  let s := on_content (λ c, set_text (co_text c +:+ delta) c) s in
  let index := default 0%N (co_message_output_index (en_content s)) in
  push_named "response.output_text.delta"
    (obj [("type", str "response.output_text.delta"); ("item_id", str (message_id s index));
          ("output_index", num index); ("content_index", num 0); ("delta", str delta)]) s.

Definition encode_refusal_delta (delta : string) (s : ClientStreamEncoder) : ClientStreamEncoder :=
  let '(c, index) := ensure_message_output_index (en_content s) in
  let s := set_content c s in
  let id := message_id s index in
  let content_index := if co_text_started c then 1%N else 0%N in
  let s :=
    if co_refusal_started c then s else
    let s := on_content (set_refusal_started true) s in
    let s :=
      if co_text_started (en_content s) then s
      else item_event "response.output_item.added" index (message_item id "in_progress" []) s in
    part_event "response.content_part.added" id index content_index (refusal_part "") s in
  let s := on_content (λ c, set_refusal (co_refusal c +:+ delta) c) s in
  push_named "response.refusal.delta"
    (obj [("type", str "response.refusal.delta"); ("item_id", str id); ("output_index", num index);
          ("content_index", num content_index); ("delta", str delta)]) s.

Definition summary_part (t : string) : Json := obj [("type", str "summary_text"); ("text", str t)].
Definition summary_part_event (name id : string) (index : N) (part : Json) (s : ClientStreamEncoder) : ClientStreamEncoder :=
  push_named name (obj [("type", str name); ("item_id", str id); ("output_index", num index);
                        ("summary_index", num 0); ("part", part)]) s.
Definition encode_reasoning_delta (key : N) (t : string) (s : ClientStreamEncoder) : ClientStreamEncoder :=
  let s :=
    match co_reasoning_summaries (en_content s) !! key with
    | Some _ => s
    | None =>
        let '(c, index) := allocate_output_index (en_content s) in
        let s := set_content (set_reasoning_summaries
          (<[key := {| eu_output_index := index; eu_text := "" |}]> (co_reasoning_summaries c)) c) s in
        let id := reasoning_id s index in
        let s := item_event "response.output_item.added" index
          (obj [("id", str id); ("type", str "reasoning"); ("status", str "in_progress"); ("summary", JArray [])]) s in
        summary_part_event "response.reasoning_summary_part.added" id index (summary_part "") s
    end in
  let index := from_option eu_output_index 0%N (co_reasoning_summaries (en_content s) !! key) in
  let s := on_content (λ c, set_reasoning_summaries
    (alter (λ u, {| eu_output_index := eu_output_index u; eu_text := eu_text u +:+ t |}) key (co_reasoning_summaries c)) c) s in
  push_named "response.reasoning_summary_text.delta"
    (obj [("type", str "response.reasoning_summary_text.delta"); ("item_id", str (reasoning_id s index));
          ("output_index", num index); ("summary_index", num 0); ("delta", str t)]) s.

(** What a fragment adds to a tool call. *)
Definition extend_call (delta : ToolCallDelta) (c : EncodedToolCall) : EncodedToolCall :=
  {| ec_output_index := ec_output_index c; ec_call_id := default (ec_call_id c) (td_id delta);
     ec_name := default (ec_name c) (td_name delta); ec_arguments := ec_arguments c +:+ td_arguments_fragment delta |}.
(** The entry of a new tool call. *)
Definition new_call (prefix : string) (s : ClientStreamEncoder) (delta : ToolCallDelta) (index : N) : EncodedToolCall :=
  {| ec_output_index := index;
     ec_call_id := default (tagged prefix (es_request_id (en_settings s)) (td_index delta)) (td_id delta);
     ec_name := default "" (td_name delta); ec_arguments := "" |}.
Definition call_item (id status arguments : string) (c : EncodedToolCall) : Json :=
  obj [("id", str id); ("type", str "function_call"); ("call_id", str (ec_call_id c)); ("name", str (ec_name c));
       ("arguments", str arguments); ("status", str status)].
Definition encode_tool_delta (delta : ToolCallDelta) (s : ClientStreamEncoder) : ClientStreamEncoder :=
  let s :=
    match co_tool_calls (en_content s) !! td_index delta with
    | Some _ => s
    | None =>
        let '(c, index) := allocate_output_index (en_content s) in
        let call := new_call "call_" s delta index in
        let s := set_content (set_tool_calls (<[td_index delta := call]> (co_tool_calls c)) c) s in
        item_event "response.output_item.added" index (call_item (call_item_id s index) "in_progress" "" call) s
    end in
  let index := from_option ec_output_index 0%N (co_tool_calls (en_content s) !! td_index delta) in
  let s := on_content (λ c, set_tool_calls (alter (extend_call delta) (td_index delta) (co_tool_calls c)) c) s in
  push_named "response.function_call_arguments.delta"
    (obj [("type", str "response.function_call_arguments.delta"); ("item_id", str (call_item_id s index));
          ("output_index", num index); ("delta", str (td_arguments_fragment delta))]) s.

Definition continuation_item (s : ClientStreamEncoder) (encrypted : string) : Json :=
  obj [("id", str (continuation_id s)); ("type", str "reasoning"); ("status", str "completed");
       ("summary", JArray []); ("encrypted_content", str encrypted)].
Definition encode_continuation (encrypted : string) (s : ClientStreamEncoder) : ClientStreamEncoder :=
  if bool_decide (is_Some (co_reasoning_continuation (en_content s))) then fail_response_limit s else
  let '(c, index) := allocate_output_index (en_content s) in
  let s := set_content c s in
  let item := continuation_item s encrypted in
  let s := item_event "response.output_item.added" index item s in
  let s := item_event "response.output_item.done" index item s in
  on_content (set_reasoning_continuation (Some {| eo_output_index := index; eo_encrypted_content := encrypted |})) s.

(** The end of a response: the items that are done, with their indexes. *)
Definition complete_message (s : ClientStreamEncoder) : ClientStreamEncoder * list (N * Json) :=
  match co_message_output_index (en_content s) with
  | None => (s, [])
  | Some index =>
      let id := message_id s index in
      let '(s, texts) :=
        if co_text_started (en_content s) then
          let s := push_named "response.output_text.done"
            (obj [("type", str "response.output_text.done"); ("item_id", str id); ("output_index", num index);
                  ("content_index", num 0); ("text", str (co_text (en_content s)))]) s in
          let s := part_event "response.content_part.done" id index 0 (text_part (co_text (en_content s))) s in
          (s, [text_part (co_text (en_content s))])
        else (s, []) in
      let '(s, refusals) :=
        if co_refusal_started (en_content s) then
          let content_index := if co_text_started (en_content s) then 1%N else 0%N in
          let s := push_named "response.refusal.done"
            (obj [("type", str "response.refusal.done"); ("item_id", str id); ("output_index", num index);
                  ("content_index", num content_index); ("refusal", str (co_refusal (en_content s)))]) s in
          let s := part_event "response.content_part.done" id index content_index
            (refusal_part (co_refusal (en_content s))) s in
          (s, [refusal_part (co_refusal (en_content s))])
        else (s, []) in
      let item := message_item id "completed" (texts ++ refusals) in
      (item_event "response.output_item.done" index item s, [(index, item)])
  end.
Definition complete_call (s : ClientStreamEncoder) (call : EncodedToolCall) : ClientStreamEncoder * (N * Json) :=
  let index := ec_output_index call in
  let id := call_item_id s index in
  let s := push_named "response.function_call_arguments.done"
    (obj [("type", str "response.function_call_arguments.done"); ("item_id", str id); ("output_index", num index);
          ("arguments", str (ec_arguments call))]) s in
  let item := call_item id "completed" (ec_arguments call) call in
  (item_event "response.output_item.done" index item s, (index, item)).
Definition complete_summary (s : ClientStreamEncoder) (u : EncodedReasoningSummary) : ClientStreamEncoder * (N * Json) :=
  let index := eu_output_index u in
  let id := reasoning_id s index in
  let s := push_named "response.reasoning_summary_text.done"
    (obj [("type", str "response.reasoning_summary_text.done"); ("item_id", str id); ("output_index", num index);
          ("summary_index", num 0); ("text", str (eu_text u))]) s in
  let s := summary_part_event "response.reasoning_summary_part.done" id index (summary_part (eu_text u)) s in
  let item := obj [("id", str id); ("type", str "reasoning"); ("status", str "completed");
                   ("summary", JArray [summary_part (eu_text u)])] in
  (item_event "response.output_item.done" index item s, (index, item)).
Fixpoint complete_each {A} (f : ClientStreamEncoder → A → ClientStreamEncoder * (N * Json)) (s : ClientStreamEncoder)
    (l : list A) : ClientStreamEncoder * list (N * Json) :=
  match l with
  | [] => (s, [])
  | x :: l => let '(s, y) := f s x in let '(s, ys) := complete_each f s l in (s, y :: ys)
  end.

Definition responses_usage (u : NormalizedUsage) : Json :=
  obj [("input_tokens", onum (nu_input_tokens u)); ("output_tokens", onum (nu_output_tokens u));
       ("total_tokens", onum (i ← nu_input_tokens u; o ← nu_output_tokens u; Some (sat_add u64_max i o)));
       ("input_tokens_details", obj [("cached_tokens", onum (nu_cached_input_tokens u))]);
       ("output_tokens_details", obj [("reasoning_tokens", onum (nu_reasoning_tokens u))])].
Definition final_response (s : ClientStreamEncoder) (finish_reason : FinishReason) (usage : option NormalizedUsage)
    (output : list Json) : Json :=
  let cut := bool_decide (finish_reason = Length) in
  metadata_apply (es_responses_metadata (en_settings s))
    (obj [("id", str (response_id s)); ("object", str "response"); ("created_at", num (es_created_at (en_settings s)));
          ("status", str (if cut then "incomplete" else "completed")); ("background", JBool false); ("error", JNull);
          ("incomplete_details", if cut then obj [("reason", str "max_output_tokens")] else JNull);
          ("model", str (es_alias (en_settings s))); ("output", JArray output); ("previous_response_id", JNull);
          ("store", JBool false); ("usage", from_option responses_usage JNull usage)]).
Definition terminal_event (finish_reason : FinishReason) : string :=
  if bool_decide (finish_reason = Length) then "response.incomplete" else "response.completed".
Definition encode_completed (finish_reason : FinishReason) (usage : option NormalizedUsage) (s : ClientStreamEncoder) :
    ClientStreamEncoder :=
  let '(s, messages) := complete_message s in
  let '(s, calls) := complete_each complete_call s
    (snd <$> stable_sort (λ a b, (a.1 <=? b.1)%N) (map_to_list (co_tool_calls (en_content s)))) in
  let '(s, summaries) := complete_each complete_summary s
    (snd <$> stable_sort (λ a b, (a.1 <=? b.1)%N) (map_to_list (co_reasoning_summaries (en_content s)))) in
  let continuations :=
    match co_reasoning_continuation (en_content s) with
    | Some c => [(eo_output_index c, continuation_item s (eo_encrypted_content c))]
    | None => []
    end in
  let output := stable_sort (λ a b, (a.1 <=? b.1)%N) (messages ++ calls ++ summaries ++ continuations) in
  push_named (terminal_event finish_reason)
    (obj [("type", str (terminal_event finish_reason)); ("response", final_response s finish_reason usage output.*2)]) s.

Definition encode_responses (event : GatewayStreamEvent) (s : ClientStreamEncoder) : ClientStreamEncoder :=
  if wi_limit_exceeded (en_wire s) then s else
  let s := start_responses s in
  match event with
  | GMessageStart | GUsage _ => s
  | GTextDelta delta => encode_text_delta delta s
  | GRefusalDelta delta => encode_refusal_delta delta s
  | GReasoningSummaryDelta index t => encode_reasoning_delta index t s
  | GToolCallDelta delta => encode_tool_delta delta s
  | GReasoningContinuation encrypted => encode_continuation encrypted s
  | GAnthropicReasoningContinuation _ => fail_response_limit s
  | GCompleted finish_reason usage _ => encode_completed finish_reason usage s
  | GFailed =>
      push_named "response.failed"
        (obj [("type", str "response.failed");
              ("response", failed_response (response_id s) "provider_error" "The model stream terminated before completion.")]) s
  end.

(** ** The Chat protocol *)

Definition chat_chunk (s : ClientStreamEncoder) (delta finish_reason : Json) : Json :=
  obj [("id", str ("chatcmpl-" +:+ es_request_id (en_settings s))); ("object", str "chat.completion.chunk");
       ("choices", JArray [obj [("index", num 0); ("delta", delta); ("finish_reason", finish_reason)]])].
Definition chat_error (message type code : string) : Json :=
  obj [("error", obj [("message", str message); ("type", str type); ("code", str code)])].
Definition encode_chat (event : GatewayStreamEvent) (s : ClientStreamEncoder) : ClientStreamEncoder :=
  let chunk delta := push_back (sse_json (chat_chunk s (obj delta) JNull)) s in
  match event with
  | GMessageStart => chunk [("role", str "assistant")]
  | GUsage _ | GReasoningSummaryDelta _ _ => s
  | GTextDelta t => chunk [("content", str t)]
  | GRefusalDelta t => chunk [("refusal", str t)]
  | GToolCallDelta delta =>
      chunk [("tool_calls", JArray [obj
        [("index", num (td_index delta)); ("id", ostr (td_id delta)); ("type", str "function");
         ("function", obj [("name", ostr (td_name delta)); ("arguments", str (td_arguments_fragment delta))])]])]
  | GReasoningContinuation _ =>
      push_back (sse_json (chat_error "Reasoning continuation is not available through Chat Completions."
                             "invalid_request_error" "unsupported_feature")) s
  | GAnthropicReasoningContinuation _ =>
      push_back (sse_json (chat_error "Anthropic reasoning state cannot cross into Chat Completions."
                             "invalid_request_error" "unsupported_feature")) s
  | GCompleted finish_reason usage include_usage =>
      let s := push_back (sse_json (chat_chunk s (obj []) (str (finish_reason_name finish_reason)))) s in
      let s :=
        match usage with
        | Some u =>
            if include_usage then
              push_back (sse_json (obj
                [("id", str ("chatcmpl-" +:+ es_request_id (en_settings s))); ("object", str "chat.completion.chunk");
                 ("choices", JArray []);
                 ("usage", obj [("prompt_tokens", onum (nu_input_tokens u)); ("completion_tokens", onum (nu_output_tokens u));
                                ("total_tokens", onum (i ← nu_input_tokens u; o ← nu_output_tokens u; Some (sat_add u64_max i o)))])])) s
            else s
        | None => s
        end in
      push_back SseDone s
  | GFailed =>
      push_back (sse_json (chat_error "The model stream terminated before completion." "provider_error" "provider_error")) s
  end.

(** ** The Anthropic protocol *)

Definition usage_default : NormalizedUsage :=
  {| nu_input_tokens := None; nu_output_tokens := None; nu_cached_input_tokens := None; nu_reasoning_tokens := None |}.
Definition anthropic_usage_json (u : NormalizedUsage) : Json :=
  obj [("input_tokens", num (default 0%N (nu_input_tokens u))); ("output_tokens", num (default 0%N (nu_output_tokens u)));
       ("cache_read_input_tokens", num (default 0%N (nu_cached_input_tokens u)))].
Definition anthropic_stop_reason (r : FinishReason) : string :=
  match r with
  | Length => "max_tokens" | ToolCalls => "tool_use" | ContentFilter => "refusal"
  | Stop | Cancelled | Error | Unknown => "end_turn"
  end.

Definition set_started (s : ClientStreamEncoder) : ClientStreamEncoder :=
  set_anthropic {| as_started := true; as_usage := as_usage (en_anthropic s); as_open_blocks := as_open_blocks (en_anthropic s) |} s.
Definition set_usage (u : NormalizedUsage) (s : ClientStreamEncoder) : ClientStreamEncoder :=
  set_anthropic {| as_started := as_started (en_anthropic s); as_usage := Some u; as_open_blocks := as_open_blocks (en_anthropic s) |} s.
Definition set_open_blocks (b : gset N) (s : ClientStreamEncoder) : ClientStreamEncoder :=
  set_anthropic {| as_started := as_started (en_anthropic s); as_usage := as_usage (en_anthropic s); as_open_blocks := b |} s.

Definition ensure_anthropic_started (s : ClientStreamEncoder) : ClientStreamEncoder :=
  if as_started (en_anthropic s) then s else
  let s := set_started s in
  push_back (named_sse "message_start"
    (obj [("type", str "message_start");
          ("message", obj
             [("id", str ("msg_" +:+ es_request_id (en_settings s))); ("type", str "message"); ("role", str "assistant");
              ("model", str (es_alias (en_settings s))); ("content", JArray []); ("stop_reason", JNull);
              ("stop_sequence", JNull); ("usage", anthropic_usage_json (default usage_default (as_usage (en_anthropic s))))])])) s.
Definition block_start (index : N) (block : Json) : Frame :=
  named_sse "content_block_start" (obj [("type", str "content_block_start"); ("index", num index); ("content_block", block)]).
Definition block_delta (index : N) (delta : Json) : Frame :=
  named_sse "content_block_delta" (obj [("type", str "content_block_delta"); ("index", num index); ("delta", delta)]).
Definition block_stop (index : N) : Frame :=
  named_sse "content_block_stop" (obj [("type", str "content_block_stop"); ("index", num index)]).
Definition anthropic_error (message : string) : Frame :=
  named_sse "error" (obj [("type", str "error"); ("error", obj [("type", str "api_error"); ("message", str message)])]).
Definition close_anthropic_blocks (s : ClientStreamEncoder) : ClientStreamEncoder :=
  foldl (λ s index, push_back (block_stop index) s) (set_open_blocks ∅ s)
    (stable_sort N.leb (elements (as_open_blocks (en_anthropic s)))).

Definition anthropic_text (delta : string) (s : ClientStreamEncoder) : ClientStreamEncoder :=
  let s := ensure_anthropic_started s in
  let '(s, index) :=
    match co_message_output_index (en_content s) with
    | Some index => (s, index)
    | None =>
        let '(c, index) := allocate_output_index (en_content s) in
        let s := set_content (set_message_output_index (Some index) c) s in
        let s := push_back (block_start index (obj [("type", str "text"); ("text", str "")])) s in
        (set_open_blocks ({[index]} ∪ as_open_blocks (en_anthropic s)) s, index)
    end in
  push_back (block_delta index (obj [("type", str "text_delta"); ("text", str delta)])) s.

Definition anthropic_tool (delta : ToolCallDelta) (s : ClientStreamEncoder) : ClientStreamEncoder :=
  let s := ensure_anthropic_started s in
  let s :=
    match co_tool_calls (en_content s) !! td_index delta with
    | Some _ => s
    | None =>
        let '(c, index) := allocate_output_index (en_content s) in
        let call := new_call "toolu_" s delta index in
        let s := set_content (set_tool_calls (<[td_index delta := call]> (co_tool_calls c)) c) s in
        let s := push_back (block_start index (obj
          [("type", str "tool_use"); ("id", str (ec_call_id call)); ("name", str (ec_name call)); ("input", obj [])])) s in
        set_open_blocks ({[index]} ∪ as_open_blocks (en_anthropic s)) s
    end in
  let s := on_content (λ c, set_tool_calls (alter (extend_call delta) (td_index delta) (co_tool_calls c)) c) s in
  if is_empty (td_arguments_fragment delta) then s else
  let index := from_option ec_output_index 0%N (co_tool_calls (en_content s) !! td_index delta) in
  push_back (block_delta index
    (obj [("type", str "input_json_delta"); ("partial_json", str (td_arguments_fragment delta))])) s.

Definition text_of (key : string) (block : Json) : string := default "" (get key block ≫= as_str).
(** The blocks of a continuation state, until one that is not supported. *)
Fixpoint anthropic_blocks (blocks : list Json) (s : ClientStreamEncoder) : ClientStreamEncoder :=
  match blocks with
  | [] => s
  | block :: blocks =>
      let '(c, index) := allocate_output_index (en_content s) in
      let s := set_content c s in
      let type := get "type" block ≫= as_str in
      if bool_decide (type = Some "reasoning_text") then
        let text := text_of "text" block in
        let signature := text_of "signature" block in
        let s := push_back (block_start index
          (obj [("type", str "thinking"); ("thinking", str ""); ("signature", str "")])) s in
        let s := if is_empty text then s else
          push_back (block_delta index (obj [("type", str "thinking_delta"); ("thinking", str text)])) s in
        let s := if is_empty signature then s else
          push_back (block_delta index (obj [("type", str "signature_delta"); ("signature", str signature)])) s in
        anthropic_blocks blocks (push_back (block_stop index) s)
      else if bool_decide (type = Some "redacted_content") then
        let s := push_back (block_start index
          (obj [("type", str "redacted_thinking"); ("data", str (text_of "data" block))])) s in
        anthropic_blocks blocks (push_back (block_stop index) s)
      else push_back (anthropic_error "Unsupported provider reasoning state.") s
  end.
Definition anthropic_continuation (state : ProviderContinuationState) (s : ClientStreamEncoder) : ClientStreamEncoder :=
  let s := close_anthropic_blocks (ensure_anthropic_started s) in
  let invalid := push_back (anthropic_error "Invalid provider reasoning state.") s in
  match from_slice (cs_payload state) with
  | None => invalid
  | Some value =>
      match get "turns" value ≫= as_array with
      | None => invalid
      | Some turns => anthropic_blocks (turns ≫= λ turn, default [] (get "blocks" turn ≫= as_array)) s
      end
  end.

Definition encode_anthropic (event : GatewayStreamEvent) (s : ClientStreamEncoder) : ClientStreamEncoder :=
  match event with
  | GMessageStart | GReasoningSummaryDelta _ _ => s
  | GUsage usage => set_usage usage s
  | GTextDelta delta | GRefusalDelta delta => anthropic_text delta s
  | GToolCallDelta delta => anthropic_tool delta s
  | GAnthropicReasoningContinuation state => anthropic_continuation state s
  | GReasoningContinuation _ => push_back (anthropic_error "Invalid Anthropic continuation state.") s
  | GCompleted finish_reason usage _ =>
      let usage := default usage_default usage in
      let s := close_anthropic_blocks (ensure_anthropic_started (set_usage usage s)) in
      let s := push_back (named_sse "message_delta"
        (obj [("type", str "message_delta");
              ("delta", obj [("stop_reason", str (anthropic_stop_reason finish_reason)); ("stop_sequence", JNull)]);
              ("usage", anthropic_usage_json usage)])) s in
      push_back (named_sse "message_stop" (obj [("type", str "message_stop")])) s
  | GFailed => push_back (anthropic_error "The model stream terminated before completion.") s
  end.

(** ** All protocols *)

Definition encode (event : GatewayStreamEvent) (s : ClientStreamEncoder) : ClientStreamEncoder :=
  match es_protocol (en_settings s) with
  | OpenAiResponses => encode_responses event s
  | OpenAiChat | InternalCanonical => encode_chat event s
  | OpenAiEmbeddings =>
      push_back (sse_json (chat_error "Invalid streaming protocol." "server_error" "internal_error")) s
  | AnthropicMessages => encode_anthropic event s
  end.

(** [next_frame]: an event is read only when no frame is pending, so what one event makes
    pending is delivered before the next. *)
Definition take_frames (s : ClientStreamEncoder) : ClientStreamEncoder * list Frame :=
  let w := en_wire s in
  (set_wire {| wi_sequence_number := wi_sequence_number w; wi_pending := []; wi_response_bytes := wi_response_bytes w;
               wi_limit_exceeded := wi_limit_exceeded w |} s, wi_pending w).
Fixpoint deliver (events : list GatewayStreamEvent) (s : ClientStreamEncoder) : ClientStreamEncoder * list Frame :=
  match events with
  | [] => (s, [])
  | e :: events =>
      let '(s, frames) := take_frames (encode e s) in
      let '(s, rest) := deliver events s in (s, frames ++ rest)
  end.
End encoder.
