(* ===== verification/StreamEncoderFacts.v ===== *)
(** * Theorems on the stream a client reads

    For the Responses protocol: the numbers and the size of the frames, and that the final
    response is the list of items a client would assemble from the events. *)

From Stdlib Require Import Ascii.
From S2P Require Import Prelude RustStr JsonTree JsonText InferenceError LlmError Usage ReasoningSeal Pii StreamEncoder.

Section encoder.
Context {display : JsonDisplay} {from_slice : list ascii → option Json}.
Abbreviation encode := (@encode display from_slice) (only parsing).
Abbreviation deliver := (@deliver display from_slice) (only parsing).

Definition exceeded (s : ClientStreamEncoder) : bool := wi_limit_exceeded (en_wire s).

(** ** What a handler does to the wire *)

(** Frames are pushed, the limit is reported, or only the content changes. *)
Inductive emits (s : ClientStreamEncoder) : ClientStreamEncoder → Prop :=
| emits_refl : emits s s
| emits_state s1 s2 : emits s s1 → en_wire s2 = en_wire s1 → en_settings s2 = en_settings s1 → emits s s2
| emits_push s1 name m : emits s s1 → emits s (push_named name (obj m) s1)
| emits_fail s1 : emits s s1 → emits s (fail_response_limit s1).

Lemma emits_content s s1 c : emits s s1 → emits s (set_content c s1).
Proof. intros H. by eapply emits_state. Qed.
Lemma emits_item s s1 name index item : emits s s1 → emits s (item_event name index item s1).
Proof. apply emits_push. Qed.
Lemma emits_part s s1 name id index ci part : emits s s1 → emits s (part_event name id index ci part s1).
Proof. apply emits_push. Qed.
Lemma emits_summary s s1 name id index part : emits s s1 → emits s (summary_part_event name id index part s1).
Proof. apply emits_push. Qed.
#[local] Hint Resolve emits_refl emits_push emits_fail emits_content emits_item emits_part emits_summary : core.
#[local] Hint Extern 1 (emits _ (on_content _ _)) => unfold on_content : core.

Lemma start_emits s : emits s (start_responses s).
Proof. unfold start_responses. destruct (en_responses_started s); [auto|]. apply emits_push. by eapply emits_state. Qed.
Lemma text_delta_emits s0 delta s : emits s0 s → emits s0 (encode_text_delta delta s).
Proof.
  intros H. unfold encode_text_delta. apply emits_push. unfold on_content. apply emits_content.
  destruct (co_text_started (en_content s)); [done|]. destruct (ensure_message_output_index _) as [c index]. auto.
Qed.
Lemma refusal_delta_emits s0 delta s : emits s0 s → emits s0 (encode_refusal_delta delta s).
Proof.
  intros H. unfold encode_refusal_delta. destruct (ensure_message_output_index _) as [c index].
  apply emits_push. unfold on_content. apply emits_content. destruct (co_refusal_started c); [auto|].
  apply emits_part. match goal with |- context [if ?b then _ else _] => destruct b end; auto.
Qed.
Lemma reasoning_delta_emits s0 key t s : emits s0 s → emits s0 (encode_reasoning_delta key t s).
Proof.
  intros H. unfold encode_reasoning_delta. apply emits_push. unfold on_content. apply emits_content.
  destruct (_ !! key); [done|]. unfold allocate_output_index. auto.
Qed.
Lemma tool_delta_emits s0 delta s : emits s0 s → emits s0 (encode_tool_delta delta s).
Proof.
  intros H. unfold encode_tool_delta. apply emits_push. unfold on_content. apply emits_content.
  destruct (_ !! td_index delta); [done|]. unfold allocate_output_index. auto.
Qed.
Lemma continuation_emits s0 e s : emits s0 s → emits s0 (encode_continuation e s).
Proof.
  intros H. unfold encode_continuation. case_bool_decide; [auto|]. unfold allocate_output_index, on_content. auto 8.
Qed.
Lemma complete_each_emits {A} (f : ClientStreamEncoder → A → ClientStreamEncoder * (N * Json)) s0 s l :
  (∀ s x, emits s0 s → emits s0 (f s x).1) → emits s0 s → emits s0 (complete_each f s l).1.
Proof.
  intros Hf. revert s. induction l as [|x l IH]; intros s H; [done|]. cbn [complete_each].
  specialize (Hf s x H). destruct (f s x) as [s1 y]. specialize (IH s1 Hf). by destruct (complete_each f s1 l).
Qed.
Lemma complete_message_emits s0 s : emits s0 s → emits s0 (complete_message s).1.
Proof.
  intros H. unfold complete_message. destruct (co_message_output_index _) as [index|]; [|done].
  destruct (co_text_started _).
  - match goal with |- context [co_refusal_started ?c] => destruct (co_refusal_started c) end; cbn [fst]; auto 8.
  - match goal with |- context [co_refusal_started ?c] => destruct (co_refusal_started c) end; cbn [fst]; auto 8.
Qed.
Lemma completed_emits s0 fr usage s : emits s0 s → emits s0 (encode_completed fr usage s).
Proof.
  intros H. unfold encode_completed. pose proof (complete_message_emits s0 s H) as H1.
  destruct (complete_message s) as [s1 ms]. cbn [fst] in H1.
  match goal with |- context [complete_each complete_call s1 ?l] =>
    pose proof (complete_each_emits complete_call s0 s1 l) as H2; destruct (complete_each complete_call s1 l) as [s2 cs] end.
  match goal with |- context [complete_each complete_summary s2 ?l] =>
    pose proof (complete_each_emits complete_summary s0 s2 l) as H3; destruct (complete_each complete_summary s2 l) as [s3 us] end.
  cbn [fst] in *. apply emits_push, H3; [unfold complete_summary; cbn [fst]; auto|].
  apply H2; [unfold complete_call; cbn [fst]; auto|done].
Qed.
Lemma responses_emits e s : emits s (encode_responses e s).
Proof.
  unfold encode_responses. destruct (wi_limit_exceeded _); [auto|]. pose proof (start_emits s) as H.
  destruct e; auto using text_delta_emits, refusal_delta_emits, reasoning_delta_emits, tool_delta_emits,
    continuation_emits, completed_emits.
Qed.

(** ** Numbers and sizes *)

Definition frame_number (f : Frame) : option N :=
  match f with Sse _ data => get "sequence_number" data ≫= as_u64 | SseDone => None end.
Definition numbered (first : N) (frames : list Frame) : Prop :=
  ∀ i f, frames !! i = Some f → frame_number f = Some (first + N.of_nat i)%N.
Definition total_bytes (frames : list Frame) : N := foldr (λ f n, slen (frame_text f) + n)%N 0%N frames.
(** The frame that reports that the response is too large. *)
Definition limit_frame (settings : EncoderSettings) (number : N) : Frame :=
  named_sse "response.failed"
    (obj [("type", str "response.failed"); ("sequence_number", num number);
          ("response", failed_response ("resp_" +:+ es_request_id settings) "response_too_large"
             "The model response exceeded the gateway output limit.")]).

Lemma numbered_app n l l' : numbered n l → numbered (n + N.of_nat (length l)) l' → numbered n (l ++ l').
Proof.
  intros H H' i f. rewrite lookup_app_Some. intros [Hi|[Hle Hi]]; [by apply H|].
  rewrite (H' _ _ Hi). f_equal. lia.
Qed.
Lemma total_bytes_app l l' : total_bytes (l ++ l') = (total_bytes l + total_bytes l')%N.
Proof. unfold total_bytes. induction l as [|f l IH]; [done|]. cbn [app foldr]. lia. Qed.
Lemma frame_nonempty f : (1 ≤ slen (frame_text f))%N.
Proof.
  destruct f as [[name|] data|]; cbn [frame_text]; rewrite slen_app.
  - change (slen "event: ") with 7%N. lia.
  - change (slen "data: ") with 6%N. lia.
  - change (slen "data: [DONE]") with 12%N. lia.
Qed.

(** The counters never pass the limit. *)
Definition wire_inv (s : ClientStreamEncoder) : Prop :=
  (wi_response_bytes (en_wire s) ≤ es_max_response_bytes (en_settings s) ∧
   wi_response_bytes (en_wire s) ≤ u64_max ∧
   (exceeded s = false → wi_sequence_number (en_wire s) ≤ wi_response_bytes (en_wire s)))%N.
(** What happened to the wire since no frame was pending. *)
Definition wire_run (s0 s : ClientStreamEncoder) : Prop :=
  en_settings s = en_settings s0 ∧ wire_inv s ∧
  let w0 := en_wire s0 in
  let w := en_wire s in
  if exceeded s then
    (wi_sequence_number w0 ≤ wi_sequence_number w)%N ∧
    wi_pending w = [limit_frame (en_settings s0) (wi_sequence_number w)]
  else
    numbered (wi_sequence_number w0) (wi_pending w) ∧
    wi_sequence_number w = (wi_sequence_number w0 + N.of_nat (length (wi_pending w)))%N ∧
    wi_response_bytes w = (wi_response_bytes w0 + total_bytes (wi_pending w))%N.

Lemma fail_run s0 s : wire_run s0 s → wire_run s0 (fail_response_limit s).
Proof.
  intros (Hset & (Hb & Hu & _) & H). split; [done|]. split; [done|]. cbn.
  unfold limit_frame, response_id. rewrite Hset. split; [|done].
  destruct (exceeded s); destruct H as [H1 H2]; [done|]. destruct H2 as [H2 _]. lia.
Qed.
Lemma push_frame_number name m n :
  frame_number (named_sse name (JObject (obj_insert "sequence_number" (num n) m))) = Some n.
Proof. cbn [frame_number named_sse get]. by rewrite member_obj_insert, decide_True. Qed.

Lemma push_run s0 s name m : wire_run s0 s → wire_run s0 (push_named name (obj m) s).
Proof.
  intros Hrun. unfold push_named. destruct (wi_limit_exceeded (en_wire s)) eqn:Ex; [done|].
  pose proof Hrun as (Hset & (Hb & Hu & Hq) & H). unfold exceeded in *. rewrite Ex in H, Hq. destruct H as (Hn & Hseq & Hbytes).
  specialize (Hq eq_refl). cbn [obj].
  set (frame := named_sse name _). pose proof (frame_nonempty frame) as Hone.
  remember (slen (frame_text frame)) as len eqn:Elen. set (counted := set_wire _ s).
  assert (wire_run s0 (fail_response_limit counted)) as Hfail.
  { split; [done|]. split; [done|]. cbn. unfold limit_frame, response_id. cbn. rewrite Hset. split; [|done].
    unfold sat_add. lia. }
  destruct (checked_add _ _ _) as [total|] eqn:Et; [|done]. unfold checked_add in Et. case_match eqn:Ele; [|done]. injection Et as <-.
  apply N.leb_le in Ele. destruct (_ <? _)%N eqn:El; [done|]. apply N.ltb_ge in El. cbn [en_settings set_wire counted] in El.
  assert (sat_add u64_max (wi_sequence_number (en_wire s)) 1 = wi_sequence_number (en_wire s) + 1)%N as Esat by (unfold sat_add; lia).
  split; [done|]. unfold wire_inv, exceeded. cbn [en_wire set_wire wi_response_bytes wi_sequence_number wi_limit_exceeded wi_pending en_settings].
  rewrite Esat. split_and!; [done|done|intros _; lia| | |].
  - apply numbered_app; [done|]. intros [|i] f; [|done]. intros [= <-]. unfold frame. rewrite push_frame_number. f_equal. lia.
  - rewrite length_app. cbn. lia.
  - rewrite total_bytes_app. unfold total_bytes at 2. cbn [foldr]. rewrite <- Elen. lia.
Qed.

Lemma emits_run s0 s :
  exceeded s0 = false → wi_pending (en_wire s0) = [] → wire_inv s0 → emits s0 s → wire_run s0 s.
Proof.
  intros Hx Hp Hinv. induction 1 as [|s1 s2 _ IH Hw Hs|s1 name m _ IH|s1 _ IH].
  - split; [done|]. split; [done|]. cbn zeta. rewrite Hx, Hp. split_and!; [by intros i f|cbn; lia|cbn; lia].
  - unfold wire_run, wire_inv, exceeded in *. by rewrite Hw, Hs.
  - by apply push_run.
  - by apply fail_run.
Qed.

(** ** What is delivered *)

Lemma deliver_exceeded events s :
  es_protocol (en_settings s) = OpenAiResponses → exceeded s = true → wi_pending (en_wire s) = [] →
  deliver events s = (s, []).
Proof.
  intros Hp Hx Hn. induction events as [|e events IH]; [done|]. cbn [StreamEncoder.deliver].
  unfold StreamEncoder.encode. rewrite Hp. unfold encode_responses. unfold exceeded in Hx. rewrite Hx.
  assert (take_frames s = (s, [])) as ->.
  { destruct s as [? ? [] ? ?]. cbn in *. by subst. }
  by rewrite IH.
Qed.

Lemma deliver_cons e events s s' frames :
  es_protocol (en_settings s) = OpenAiResponses → deliver (e :: events) s = (s', frames) →
  ∃ rest, frames = wi_pending (en_wire (encode_responses e s)) ++ rest ∧
    deliver events (take_frames (encode_responses e s)).1 = (s', rest).
Proof.
  intros Hp. cbn [StreamEncoder.deliver]. unfold StreamEncoder.encode. rewrite Hp.
  change (take_frames (encode_responses e s))
    with ((take_frames (encode_responses e s)).1, wi_pending (en_wire (encode_responses e s))).
  cbv beta iota. destruct (deliver events _) as [s2 rest] eqn:Er. intros [= <- <-]. by exists rest.
Qed.

Lemma deliver_run events s s' frames :
  es_protocol (en_settings s) = OpenAiResponses → exceeded s = false → wi_pending (en_wire s) = [] → wire_inv s →
  deliver events s = (s', frames) →
  ∃ good, numbered (wi_sequence_number (en_wire s)) good ∧
    (wi_response_bytes (en_wire s) + total_bytes good ≤ es_max_response_bytes (en_settings s))%N ∧
    (exceeded s' = false ∧ frames = good ∨
     exceeded s' = true ∧ ∃ k, (wi_sequence_number (en_wire s) + N.of_nat (length good) ≤ k)%N ∧
       frames = good ++ [limit_frame (en_settings s) k]).
Proof.
  revert s frames. induction events as [|e events IH]; intros s frames Hp Hx Hn Hinv.
  - intros [= <- <-]. exists []. destruct Hinv as (Hb & _). split; [by intros i f|].
    split; [cbn; lia|]. left. done.
  - intros (rest & -> & E)%deliver_cons; [|done].
    pose proof (emits_run s (encode_responses e s) Hx Hn Hinv (responses_emits e s)) as (Hset & Hinv' & Hrun).
    set (s1 := encode_responses e s) in *. cbn zeta in Hrun. destruct (exceeded s1) eqn:Hx1.
    + destruct Hrun as [Hk Hpend]. rewrite deliver_exceeded in E; [|by cbn; rewrite Hset|done|done].
      injection E as <- <-. exists []. destruct Hinv as (Hb & _). split; [by intros i f|]. split; [cbn; lia|].
      right. split; [done|]. eexists. split; [|by rewrite Hpend]. cbn. lia.
    + destruct Hrun as (Hnum & Hseq & Hbytes).
      destruct (IH (take_frames s1).1 rest) as (good & Hg & Hgb & Hend); [by cbn; rewrite Hset|done|done|done|done|].
      cbn [take_frames fst en_wire set_wire wi_sequence_number wi_response_bytes en_settings] in *.
      rewrite Hset in *. exists (wi_pending (en_wire s1) ++ good). split_and!.
      * apply numbered_app; [done|]. by rewrite <- Hseq.
      * rewrite total_bytes_app. lia.
      * destruct Hend as [[Hs ->]|[Hs (k & Hk & ->)]]; [by left|right]. split; [done|]. exists k.
        rewrite length_app, <- app_assoc. split; [lia|done].
Qed.

(** C31 Under the Responses protocol the frames a client reads are numbered from 0 without gaps
    and their bytes stay within the limit of the configuration; when an event does not fit,
    one more frame with a higher number reports that the response is too large, and it is the
    last one whatever events follow. *)
Theorem responses_frames_bounded settings events s' frames :
  es_protocol settings = OpenAiResponses →
  deliver events (ClientStreamEncoder_new settings) = (s', frames) →
  ∃ good, numbered 0 good ∧ (total_bytes good ≤ es_max_response_bytes settings)%N ∧
    (exceeded s' = false ∧ frames = good ∨
     exceeded s' = true ∧ ∃ k, (N.of_nat (length good) ≤ k)%N ∧ frames = good ++ [limit_frame settings k]).
Proof.
  intros Hp E. apply (deliver_run events (ClientStreamEncoder_new settings)) in E; [|done|done|done|].
  - exact E.
  - split; cbn; [lia|]. split; [done|]. done.
Qed.
End encoder.
