(* ===== verification/StreamOutput.v ===== *)
(** * The final response of a stream

    The items a client would assemble from the events of a stream, in the order in which they
    first appear, and the proof that the indexes, maps and the final sort of the encoder give
    exactly that list. *)

From Stdlib Require Import Ascii.
From S2P Require Import Prelude RustStr JsonTree JsonText InferenceError LlmError Usage ReasoningSeal Pii StreamEncoder StreamEncoderFacts.

(** ** Items in order *)

Inductive Item :=
| MessageOut (text refusal : option string)
| CallOut (key : N) (call_id name arguments : string)
| SummaryOut (key : N) (text : string)
| ContinuationOut (encrypted : string).
Inductive Key := KMessage | KCall (key : N) | KSummary (key : N) | KContinuation.
#[export] Instance Key_eq_dec : EqDecision Key.
Proof. solve_decision. Defined.
Definition item_key (x : Item) : Key :=
  match x with
  | MessageOut _ _ => KMessage
  | CallOut k _ _ _ => KCall k
  | SummaryOut k _ => KSummary k
  | ContinuationOut _ => KContinuation
  end.

(** Change the item of a key, or add it at the end. *)
Fixpoint upsert (k : Key) (new : Item) (f : Item → Item) (l : list Item) : list Item :=
  match l with
  | [] => [f new]
  | x :: l => if decide (item_key x = k) then f x :: l else x :: upsert k new f l
  end.

Definition append_text (t : string) (x : Item) : Item :=
  match x with MessageOut text refusal => MessageOut (Some (default "" text +:+ t)) refusal | x => x end.
Definition append_refusal (t : string) (x : Item) : Item :=
  match x with MessageOut text refusal => MessageOut text (Some (default "" refusal +:+ t)) | x => x end.
Definition append_summary (t : string) (x : Item) : Item :=
  match x with SummaryOut k text => SummaryOut k (text +:+ t) | x => x end.
Definition append_call (delta : ToolCallDelta) (x : Item) : Item :=
  match x with
  | CallOut k call_id name arguments =>
      CallOut k (default call_id (td_id delta)) (default name (td_name delta)) (arguments +:+ td_arguments_fragment delta)
  | x => x
  end.

(** What an event means for the items of the response of a request. *)
Definition assemble_event (request_id : string) (l : list Item) (e : GatewayStreamEvent) : list Item :=
  match e with
  | GTextDelta t => upsert KMessage (MessageOut None None) (append_text t) l
  | GRefusalDelta t => upsert KMessage (MessageOut None None) (append_refusal t) l
  | GReasoningSummaryDelta k t => upsert (KSummary k) (SummaryOut k "") (append_summary t) l
  | GToolCallDelta d =>
      upsert (KCall (td_index d))
        (CallOut (td_index d) (tagged "call_" request_id (td_index d)) "" "") (append_call d) l
  | GReasoningContinuation encrypted => l ++ [ContinuationOut encrypted]
  | _ => l
  end.
Definition assemble (request_id : string) (events : list GatewayStreamEvent) : list Item :=
  foldl (assemble_event request_id) [] events.

Lemma upsert_new k new f l : k ∉ item_key <$> l → upsert k new f l = l ++ [f new].
Proof.
  induction l as [|x l IH]; [done|]. rewrite fmap_cons. intros [Hx Hl]%not_elem_of_cons. cbn [upsert].
  rewrite decide_False by done. cbn. by rewrite IH.
Qed.
Lemma upsert_old k new f l i x :
  NoDup (item_key <$> l) → l !! i = Some x → item_key x = k → upsert k new f l = <[i := f x]> l.
Proof.
  revert i. induction l as [|y l IH]; intros i Hnd Hi Hk; [done|]. rewrite fmap_cons in Hnd.
  apply NoDup_cons in Hnd as [Hy Hnd]. cbn [upsert]. destruct i as [|i].
  - injection Hi as ->. by rewrite decide_True.
  - rewrite decide_False; [cbn; f_equal; by apply IH|]. intros E. apply Hy. rewrite E, <- Hk.
    apply list_elem_of_fmap_2. by eapply list_elem_of_lookup_2.
Qed.

(** ** Items with their indexes *)

Definition indexed (l : list Item) : list (N * Item) := imap (λ i x, (N.of_nat i, x)) l.
Lemma indexed_snoc l x : indexed (l ++ [x]) = indexed l ++ [(N.of_nat (length l), x)].
Proof. unfold indexed. rewrite imap_app. cbn. by rewrite Nat.add_0_r. Qed.
Lemma elem_of_item_indexes l i x : (i, x) ∈ indexed l ↔ ∃ n, i = N.of_nat n ∧ l !! n = Some x.
Proof.
  unfold indexed. rewrite elem_of_lookup_imap. split.
  - intros (n & y & [= -> ->] & H). by exists n.
  - intros (n & -> & H). by exists n, x.
Qed.
Lemma indexed_keys l : item_key <$> (indexed l).*2 = item_key <$> l.
Proof.
  f_equal. unfold indexed. rewrite fmap_imap. apply list_eq. intros i. rewrite list_lookup_imap. by destruct (l !! i).
Qed.
Lemma indexed_insert l n x :
  l !! n = Some x → ∃ rest, indexed l ≡ₚ (N.of_nat n, x) :: rest ∧ ∀ y, indexed (<[n := y]> l) ≡ₚ (N.of_nat n, y) :: rest.
Proof.
  intros H. pose proof (lookup_lt_Some _ _ _ H) as Hlt.
  exists (indexed (take n l) ++ imap (λ i y, (N.of_nat (length (take n l) + S i), y)) (drop (S n) l)).
  assert (∀ y, indexed (take n l ++ y :: drop (S n) l) ≡ₚ
    (N.of_nat n, y) :: indexed (take n l) ++ imap (λ i y, (N.of_nat (length (take n l) + S i), y)) (drop (S n) l)) as Hy.
  { intros y. unfold indexed. rewrite imap_app. cbn [imap]. rewrite Nat.add_0_r, length_take_le by lia.
    by rewrite <- Permutation_middle. }
  split.
  - rewrite <- (take_drop_middle l n x) at 1 by done. apply Hy.
  - intros y. rewrite insert_take_drop by done. apply Hy.
Qed.

(** ** The content of an encoder as items *)

Definition when_started (b : bool) (t : string) : option string := if b then Some t else None.
Definition message_entry (c : Content) : list (N * Item) :=
  match co_message_output_index c with
  | Some i => [(i, MessageOut (when_started (co_text_started c) (co_text c)) (when_started (co_refusal_started c) (co_refusal c)))]
  | None => []
  end.
Definition call_entry (x : N * EncodedToolCall) : N * Item :=
  (ec_output_index x.2, CallOut x.1 (ec_call_id x.2) (ec_name x.2) (ec_arguments x.2)).
Definition summary_entry (x : N * EncodedReasoningSummary) : N * Item :=
  (eu_output_index x.2, SummaryOut x.1 (eu_text x.2)).
Definition continuation_entry (c : Content) : list (N * Item) :=
  match co_reasoning_continuation c with
  | Some o => [(eo_output_index o, ContinuationOut (eo_encrypted_content o))]
  | None => []
  end.
Definition entries (c : Content) : list (N * Item) :=
  message_entry c ++ (call_entry <$> map_to_list (co_tool_calls c)) ++
  (summary_entry <$> map_to_list (co_reasoning_summaries c)) ++ continuation_entry c.

(** The encoder holds the items, each with its position as its index. *)
Record holds (l : list Item) (c : Content) : Prop := {
  hd_entries : entries c ≡ₚ indexed l;
  hd_next : co_next_output_index c = N.of_nat (length l);
  hd_message : co_message_output_index c = None → co_text_started c = false ∧ co_refusal_started c = false;
  hd_text : co_text_started c = false → co_text c = "";
  hd_refusal : co_refusal_started c = false → co_refusal c = "";
}.

Lemma call_keys m : item_key <$> (call_entry <$> map_to_list m).*2 = KCall <$> (map_to_list m).*1.
Proof. by rewrite <- !list_fmap_compose. Qed.
Lemma summary_keys m : item_key <$> (summary_entry <$> map_to_list m).*2 = KSummary <$> (map_to_list m).*1.
Proof. by rewrite <- !list_fmap_compose. Qed.
Lemma entries_keys c :
  item_key <$> (entries c).*2 =
  (match co_message_output_index c with Some _ => [KMessage] | None => [] end) ++ (KCall <$> (map_to_list (co_tool_calls c)).*1) ++
  (KSummary <$> (map_to_list (co_reasoning_summaries c)).*1) ++ (match co_reasoning_continuation c with Some _ => [KContinuation] | None => [] end).
Proof.
  unfold entries, message_entry, continuation_entry. rewrite !fmap_app, call_keys, summary_keys.
  by destruct (co_message_output_index c), (co_reasoning_continuation c).
Qed.
Lemma entries_keys_NoDup c : NoDup (item_key <$> (entries c).*2).
Proof.
  rewrite entries_keys.
  assert (∀ (f : N → Key) (ks : list N), (∀ a b, f a = f b → a = b) → NoDup ks → NoDup (f <$> ks)) as Hf.
  { intros f ks Hf. apply NoDup_fmap_2. intros a b. apply Hf. }
  apply NoDup_app. split_and!; [destruct (co_message_output_index c); [apply NoDup_singleton|apply NoDup_nil_2]| |].
  - intros x Hx. destruct (co_message_output_index c); [|by apply not_elem_of_nil in Hx].
    apply list_elem_of_singleton in Hx as ->. rewrite !elem_of_app, !list_elem_of_fmap.
    intros [(? & ? & _)|[(? & ? & _)|H]]; [done..|]. destruct (co_reasoning_continuation c); [|by apply not_elem_of_nil in H].
    by apply list_elem_of_singleton in H.
  - apply NoDup_app. split_and!; [apply Hf; [by intros ?? [=]|apply NoDup_fst_map_to_list]| |].
    + intros x (k & -> & _)%list_elem_of_fmap. rewrite elem_of_app, list_elem_of_fmap.
      intros [(? & ? & _)|H]; [done|]. destruct (co_reasoning_continuation c); [|by apply not_elem_of_nil in H].
      by apply list_elem_of_singleton in H.
    + apply NoDup_app. split_and!; [apply Hf; [by intros ?? [=]|apply NoDup_fst_map_to_list]| |].
      * intros x (k & -> & _)%list_elem_of_fmap H. destruct (co_reasoning_continuation c); [|by apply not_elem_of_nil in H].
        by apply list_elem_of_singleton in H.
      * destruct (co_reasoning_continuation c); [apply NoDup_singleton|apply NoDup_nil_2].
Qed.

Lemma holds_keys l c : holds l c → item_key <$> l ≡ₚ item_key <$> (entries c).*2.
Proof. intros H. by rewrite <- (indexed_keys l), (hd_entries _ _ H). Qed.
Lemma holds_NoDup l c : holds l c → NoDup (item_key <$> l).
Proof. intros H. rewrite (holds_keys _ _ H). apply entries_keys_NoDup. Qed.

(** An item of the encoder that changes, and one that is new. *)
Lemma holds_update l c k new f i x rest c' :
  holds l c → entries c ≡ₚ (i, x) :: rest → item_key x = k → entries c' ≡ₚ (i, f x) :: rest →
  entries c' ≡ₚ indexed (upsert k new f l) ∧ length (upsert k new f l) = length l.
Proof.
  intros H He Hk He'. assert ((i, x) ∈ indexed l) as Hin by (rewrite <- (hd_entries _ _ H), He; left).
  apply elem_of_item_indexes in Hin as (n & -> & Hn). rewrite (upsert_old _ _ _ _ n x) by (done || by eapply holds_NoDup).
  rewrite length_insert. split; [|done]. destruct (indexed_insert l n x Hn) as (rest' & E & E').
  rewrite E', He'. constructor. apply (Permutation_cons_inv (a := (N.of_nat n, x))).
  by rewrite <- He, <- E, (hd_entries _ _ H).
Qed.
Lemma holds_add l c k new f c' :
  holds l c → k ∉ item_key <$> (entries c).*2 → entries c' ≡ₚ (co_next_output_index c, f new) :: entries c →
  entries c' ≡ₚ indexed (upsert k new f l) ∧ length (upsert k new f l) = S (length l).
Proof.
  intros H Hk He. rewrite <- (holds_keys _ _ H) in Hk. rewrite (upsert_new _ _ _ _ Hk), length_app.
  split; [|cbn; lia]. rewrite indexed_snoc, He, (hd_entries _ _ H), (hd_next _ _ H). by rewrite Permutation_app_comm.
Qed.

(** ** Events on the content *)

Definition text_content (delta : string) (c : Content) : Content :=
  let c := if co_text_started c then c else (ensure_message_output_index (set_text_started true c)).1 in
  set_text (co_text c +:+ delta) c.
Definition refusal_content (delta : string) (c : Content) : Content :=
  let c := (ensure_message_output_index c).1 in
  let c := if co_refusal_started c then c else set_refusal_started true c in
  set_refusal (co_refusal c +:+ delta) c.
Definition extend_summary (t : string) (u : EncodedReasoningSummary) : EncodedReasoningSummary :=
  {| eu_output_index := eu_output_index u; eu_text := eu_text u +:+ t |}.
Definition reasoning_content (key : N) (t : string) (c : Content) : Content :=
  let c :=
    match co_reasoning_summaries c !! key with
    | Some _ => c
    | None =>
        let '(c, index) := allocate_output_index c in
        set_reasoning_summaries (<[key := {| eu_output_index := index; eu_text := "" |}]> (co_reasoning_summaries c)) c
    end in
  set_reasoning_summaries (alter (extend_summary t) key (co_reasoning_summaries c)) c.
Definition tool_content (request_id : string) (d : ToolCallDelta) (c : Content) : Content :=
  let c :=
    match co_tool_calls c !! td_index d with
    | Some _ => c
    | None =>
        let '(c, index) := allocate_output_index c in
        set_tool_calls (<[td_index d :=
          {| ec_output_index := index; ec_call_id := default (tagged "call_" request_id (td_index d)) (td_id d);
             ec_name := default "" (td_name d); ec_arguments := "" |}]> (co_tool_calls c)) c
    end in
  set_tool_calls (alter (extend_call d) (td_index d) (co_tool_calls c)) c.
Definition continuation_content (encrypted : string) (c : Content) : Content :=
  let '(c, index) := allocate_output_index c in
  set_reasoning_continuation (Some {| eo_output_index := index; eo_encrypted_content := encrypted |}) c.

Lemma map_alter_perm {A} (f : A → A) (m : gmap N A) k x :
  m !! k = Some x →
  ∃ rest, map_to_list m ≡ₚ (k, x) :: rest ∧ map_to_list (alter f k m) ≡ₚ (k, f x) :: rest.
Proof.
  intros H. exists (map_to_list (delete k m)). split; [symmetry; by apply map_to_list_delete|].
  assert (alter f k m = <[k := f x]> (delete k m)) as ->.
  { apply map_eq. intros j. destruct (decide (j = k)) as [->|Hj].
    - by rewrite lookup_alter_eq, H, lookup_insert_eq.
    - by rewrite lookup_alter_ne, lookup_insert_ne, lookup_delete_ne by done. }
  apply map_to_list_insert, lookup_delete_eq.
Qed.
Lemma map_fresh_perm {A} (f : A → A) (m : gmap N A) k x :
  m !! k = None → map_to_list (alter f k (<[k := x]> m)) ≡ₚ (k, f x) :: map_to_list m.
Proof.
  intros H. rewrite alter_insert_eq. by apply map_to_list_insert.
Qed.

Lemma elem_of_entries_keys c k :
  k ∈ item_key <$> (entries c).*2 ↔
  k = KMessage ∧ is_Some (co_message_output_index c) ∨
  (∃ i, k = KCall i ∧ is_Some (co_tool_calls c !! i)) ∨
  (∃ i, k = KSummary i ∧ is_Some (co_reasoning_summaries c !! i)) ∨
  k = KContinuation ∧ is_Some (co_reasoning_continuation c).
Proof.
  assert (∀ (A : Type) (o : option A) x, k ∈ (match o with Some _ => [x] | None => [] end) ↔ k = x ∧ is_Some o) as Ho.
  { intros A [a|] x; [rewrite list_elem_of_singleton; naive_solver|].
    split; [intros Hn; by apply not_elem_of_nil in Hn|by intros [_ []]]. }
  assert (∀ A (m : gmap N A) (f : N → Key), k ∈ f <$> (map_to_list m).*1 ↔ ∃ i, k = f i ∧ is_Some (m !! i)) as Hm.
  { intros A m f. rewrite list_elem_of_fmap. split.
    - intros (i & -> & ([j x] & -> & Hin%elem_of_map_to_list)%list_elem_of_fmap). cbn. by eauto.
    - intros (i & -> & [x Hx%elem_of_map_to_list]). exists i. split; [done|]. by apply (list_elem_of_fmap_2 fst) in Hx. }
  by rewrite entries_keys, !elem_of_app, !Ho, !Hm.
Qed.

Section content.
Context (l : list Item) (c : Content) (H : holds l c) (Hsmall : (N.of_nat (length l) < u32_max)%N).

Lemma next_index : sat_add u32_max (co_next_output_index c) 1 = N.of_nat (S (length l)).
Proof. rewrite (hd_next _ _ H). unfold sat_add. lia. Qed.

Lemma message_key_new : co_message_output_index c = None → KMessage ∉ item_key <$> (entries c).*2.
Proof. intros Em. rewrite elem_of_entries_keys, Em. by intros [[_ []]|[(? & ? & _)|[(? & ? & _)|[? _]]]]. Qed.

Lemma text_holds delta : holds (upsert KMessage (MessageOut None None) (append_text delta) l) (text_content delta c).
Proof.
  unfold text_content, ensure_message_output_index, allocate_output_index.
  destruct (co_message_output_index c) as [i|] eqn:Em.
  - assert (co_text_started c = false → co_text c = "") as Ht by apply (hd_text _ _ H).
    destruct (holds_update l c KMessage (MessageOut None None) (append_text delta) i
      (MessageOut (when_started (co_text_started c) (co_text c)) (when_started (co_refusal_started c) (co_refusal c)))
      ((call_entry <$> map_to_list (co_tool_calls c)) ++ (summary_entry <$> map_to_list (co_reasoning_summaries c)) ++ continuation_entry c)
      (set_text (co_text c +:+ delta) (set_text_started true c)) H) as [He Hl]; [|done| |].
    + unfold entries, message_entry. by rewrite Em.
    + unfold entries, message_entry. cbn. rewrite Em. cbn. destruct (co_text_started c); cbn; [done|]. by rewrite Ht.
    + assert (set_text (co_text (if co_text_started c then c else set_text_started true c) +:+ delta)
        (if co_text_started c then c else set_text_started true c) = set_text (co_text c +:+ delta) (set_text_started true c)) as E.
      { destruct (co_text_started c) eqn:Es; [|done]. destruct c. cbn in *. by subst. }
      cbn [co_message_output_index set_text_started fst]. rewrite Em. cbn [fst]. rewrite E. split; cbn; try done.
      * by rewrite Hl, (hd_next _ _ H).
      * by rewrite Em.
      * apply (hd_refusal _ _ H).
  - destruct (hd_message _ _ H Em) as [Ht Hr]. rewrite Ht. cbn [co_message_output_index set_text_started]. rewrite Em. cbn [fst].
    destruct (holds_add l c KMessage (MessageOut None None) (append_text delta)
      (set_text (co_text c +:+ delta) (set_message_output_index (Some (co_next_output_index c))
        (set_next_output_index (sat_add u32_max (co_next_output_index c) 1) (set_text_started true c)))) H) as [He Hl].
    + by apply message_key_new.
    + unfold entries, message_entry. cbn. by rewrite Em, Hr, (hd_text _ _ H Ht).
    + split; cbn; try done.
      * by rewrite Hl, next_index.
      * apply (hd_refusal _ _ H).
Qed.

Lemma refusal_holds delta : holds (upsert KMessage (MessageOut None None) (append_refusal delta) l) (refusal_content delta c).
Proof.
  unfold refusal_content, ensure_message_output_index, allocate_output_index.
  destruct (co_message_output_index c) as [i|] eqn:Em; cbn [fst].
  - assert (co_refusal_started c = false → co_refusal c = "") as Ht by apply (hd_refusal _ _ H).
    destruct (holds_update l c KMessage (MessageOut None None) (append_refusal delta) i
      (MessageOut (when_started (co_text_started c) (co_text c)) (when_started (co_refusal_started c) (co_refusal c)))
      ((call_entry <$> map_to_list (co_tool_calls c)) ++ (summary_entry <$> map_to_list (co_reasoning_summaries c)) ++ continuation_entry c)
      (set_refusal (co_refusal c +:+ delta) (set_refusal_started true c)) H) as [He Hl]; [|done| |].
    + unfold entries, message_entry. by rewrite Em.
    + unfold entries, message_entry. cbn. rewrite Em. cbn. destruct (co_refusal_started c); cbn; [done|]. by rewrite Ht.
    + assert (set_refusal (co_refusal (if co_refusal_started c then c else set_refusal_started true c) +:+ delta)
        (if co_refusal_started c then c else set_refusal_started true c) = set_refusal (co_refusal c +:+ delta) (set_refusal_started true c)) as E.
      { destruct (co_refusal_started c) eqn:Es; [|done]. destruct c. cbn in *. by subst. }
      rewrite E. split; cbn; try done.
      * by rewrite Hl, (hd_next _ _ H).
      * by rewrite Em.
      * apply (hd_text _ _ H).
  - destruct (hd_message _ _ H Em) as [Ht Hr]. cbn [co_refusal_started set_message_output_index set_next_output_index]. rewrite Hr.
    destruct (holds_add l c KMessage (MessageOut None None) (append_refusal delta)
      (set_refusal (co_refusal c +:+ delta) (set_refusal_started true (set_message_output_index (Some (co_next_output_index c))
        (set_next_output_index (sat_add u32_max (co_next_output_index c) 1) c)))) H) as [He Hl].
    + by apply message_key_new.
    + unfold entries, message_entry. cbn. by rewrite Em, Ht, (hd_refusal _ _ H Hr).
    + split; cbn; try done.
      * by rewrite Hl, next_index.
      * apply (hd_text _ _ H).
Qed.

Lemma reasoning_holds key t : holds (upsert (KSummary key) (SummaryOut key "") (append_summary t) l) (reasoning_content key t c).
Proof.
  unfold reasoning_content, allocate_output_index. destruct (co_reasoning_summaries c !! key) as [u|] eqn:Eu.
  - destruct (map_alter_perm (extend_summary t) _ _ _ Eu) as (rest & E1 & E2).
    destruct (holds_update l c (KSummary key) (SummaryOut key "") (append_summary t) (eu_output_index u) (SummaryOut key (eu_text u))
      (message_entry c ++ (call_entry <$> map_to_list (co_tool_calls c)) ++ (summary_entry <$> rest) ++ continuation_entry c)
      (set_reasoning_summaries (alter (extend_summary t) key (co_reasoning_summaries c)) c) H) as [He Hl]; [|done| |].
    + unfold entries. rewrite E1, fmap_cons. solve_Permutation.
    + unfold entries. cbn [co_reasoning_summaries set_reasoning_summaries]. rewrite E2, fmap_cons. solve_Permutation.
    + split; cbn; [done|by rewrite Hl, (hd_next _ _ H)|apply (hd_message _ _ H)|apply (hd_text _ _ H)|apply (hd_refusal _ _ H)].
  - cbn [co_reasoning_summaries set_reasoning_summaries set_next_output_index].
    destruct (holds_add l c (KSummary key) (SummaryOut key "") (append_summary t)
      (set_reasoning_summaries (alter (extend_summary t) key (<[key := {| eu_output_index := co_next_output_index c; eu_text := "" |}]>
        (co_reasoning_summaries c))) (set_next_output_index (sat_add u32_max (co_next_output_index c) 1) c)) H) as [He Hl].
    + rewrite elem_of_entries_keys. intros [[? _]|[(? & ? & _)|[(i & [= <-] & Hi)|[? _]]]]; try done. by rewrite Eu in Hi; destruct Hi.
    + unfold entries. cbn [co_reasoning_summaries set_reasoning_summaries]. rewrite map_fresh_perm by done.
      rewrite fmap_cons. solve_Permutation.
    + split; cbn; [done|by rewrite Hl, next_index|apply (hd_message _ _ H)|apply (hd_text _ _ H)|apply (hd_refusal _ _ H)].
Qed.

Lemma tool_holds request_id d :
  holds (upsert (KCall (td_index d)) (CallOut (td_index d) (tagged "call_" request_id (td_index d)) "" "") (append_call d) l)
    (tool_content request_id d c).
Proof.
  unfold tool_content, allocate_output_index. set (new := CallOut _ _ _ _).
  destruct (co_tool_calls c !! td_index d) as [u|] eqn:Eu.
  - destruct (map_alter_perm (extend_call d) _ _ _ Eu) as (rest & E1 & E2).
    destruct (holds_update l c (KCall (td_index d)) new (append_call d) (ec_output_index u)
      (CallOut (td_index d) (ec_call_id u) (ec_name u) (ec_arguments u))
      (message_entry c ++ (call_entry <$> rest) ++ (summary_entry <$> map_to_list (co_reasoning_summaries c)) ++ continuation_entry c)
      (set_tool_calls (alter (extend_call d) (td_index d) (co_tool_calls c)) c) H) as [He Hl]; [|done| |].
    + unfold entries. rewrite E1, fmap_cons. solve_Permutation.
    + unfold entries. cbn [co_tool_calls set_tool_calls]. rewrite E2, fmap_cons. solve_Permutation.
    + split; cbn; [done|by rewrite Hl, (hd_next _ _ H)|apply (hd_message _ _ H)|apply (hd_text _ _ H)|apply (hd_refusal _ _ H)].
  - cbn [co_tool_calls set_tool_calls set_next_output_index].
    match goal with |- holds _ ?c' => destruct (holds_add l c (KCall (td_index d)) new (append_call d) c' H) as [He Hl] end.
    + rewrite elem_of_entries_keys. intros [[? _]|[(i & [= <-] & Hi)|[(? & ? & _)|[? _]]]]; try done. by rewrite Eu in Hi; destruct Hi.
    + unfold entries. cbn [co_tool_calls set_tool_calls]. rewrite map_fresh_perm by done.
      rewrite fmap_cons. unfold new, call_entry at 1. cbn. destruct (td_id d), (td_name d); solve_Permutation.
    + split; cbn; [done|by rewrite Hl, next_index|apply (hd_message _ _ H)|apply (hd_text _ _ H)|apply (hd_refusal _ _ H)].
Qed.

Lemma continuation_holds encrypted :
  co_reasoning_continuation c = None → holds (l ++ [ContinuationOut encrypted]) (continuation_content encrypted c).
Proof.
  intros Ec. assert (KContinuation ∉ item_key <$> (entries c).*2) as Hk.
  { rewrite elem_of_entries_keys, Ec. by intros [[? _]|[(? & ? & _)|[(? & ? & _)|[_ []]]]]. }
  destruct (holds_add l c KContinuation (ContinuationOut encrypted) id (continuation_content encrypted c) H Hk) as [He Hl].
  - unfold entries, continuation_entry, continuation_content. cbn. rewrite Ec. solve_Permutation.
  - rewrite upsert_new in He, Hl by (by rewrite (holds_keys _ _ H)). unfold id in *.
    split; [done| |apply (hd_message _ _ H)|apply (hd_text _ _ H)|apply (hd_refusal _ _ H)].
    cbn. by rewrite Hl, next_index.
Qed.
End content.

(** ** The handlers when nothing exceeds the limit *)

Definition frame_delta (f : Frame) : option (string * string) :=
  match f with Sse (Some name) data => d ← get "delta" data ≫= as_str; Some (name, d) | _ => None end.

Section handlers.
Context {display : JsonDisplay}.

(** From [s] to [s'] the deltas were emitted, and the content became [c]. *)
Definition reaches (s s' : ClientStreamEncoder) (c : Content) (deltas : list (string * string)) : Prop :=
  exceeded s = false ∧ en_settings s' = en_settings s ∧ en_content s' = c ∧
  omap frame_delta (wi_pending (en_wire s')) = omap frame_delta (wi_pending (en_wire s)) ++ deltas.

Lemma push_ok name m s :
  exceeded (push_named name (obj m) s) = false →
  exceeded s = false ∧ en_content (push_named name (obj m) s) = en_content s ∧
  en_settings (push_named name (obj m) s) = en_settings s ∧
  ∃ n, wi_pending (en_wire (push_named name (obj m) s)) =
    wi_pending (en_wire s) ++ [named_sse name (JObject (obj_insert "sequence_number" (num n) (foldl (λ m x, obj_insert x.1 x.2 m) [] m)))].
Proof.
  unfold push_named, exceeded. destruct (wi_limit_exceeded (en_wire s)) eqn:E; [by rewrite E|]. cbn [obj].
  destruct (checked_add _ _ _); [|done]. destruct (_ <? _)%N; [done|]. intros _. split_and!; [done..|]. by eexists.
Qed.
Lemma frame_delta_obj name n m :
  frame_delta (named_sse name (JObject (obj_insert "sequence_number" n m))) = (d ← member "delta" m ≫= as_str; Some (name, d)).
Proof. cbn [frame_delta named_sse get]. by rewrite member_obj_insert, decide_False. Qed.
(** The delta of the object of a frame. *)
Definition obj_delta (name : string) (m : list (string * Json)) : list (string * string) :=
  option_list (d ← member "delta" (foldl (λ m x, obj_insert x.1 x.2 m) [] m) ≫= as_str; Some (name, d)).

Lemma reaches_refl s : exceeded s = false → reaches s s (en_content s) [].
Proof. intros H. split_and!; [done..|]. by rewrite app_nil_r. Qed.
Lemma reaches_push name m s s1 c ds :
  (exceeded s1 = false → reaches s s1 c ds) → exceeded (push_named name (obj m) s1) = false →
  reaches s (push_named name (obj m) s1) c (ds ++ obj_delta name m).
Proof.
  intros H (Hx & Hc & Hs & n & Hp)%push_ok. destruct (H Hx) as (H1 & H2 & H3 & H4). split_and!; [done|by rewrite Hs|by rewrite Hc|].
  rewrite Hp, omap_app, H4, <- app_assoc. do 2 f_equal. cbn [omap list_omap]. rewrite frame_delta_obj. unfold obj_delta.
  by destruct (d ← _; _).
Qed.
Lemma reaches_content f s s1 c ds : reaches s s1 c ds → reaches s (on_content f s1) (f c) ds.
Proof. intros (H1 & H2 & H3 & H4). split_and!; [done..| |done]. cbn. by rewrite H3. Qed.

Lemma reaches_set c' s s1 c ds : reaches s s1 c ds → reaches s (set_content c' s1) c' ds.
Proof. intros (H1 & H2 & H3 & H4). by split_and!. Qed.
Lemma reaches_quiet name m s s1 c ds :
  obj_delta name m = [] → (exceeded s1 = false → reaches s s1 c ds) → exceeded (push_named name (obj m) s1) = false →
  reaches s (push_named name (obj m) s1) c ds.
Proof. intros E H Hx. rewrite <- (app_nil_r ds), <- E. by apply reaches_push. Qed.

Lemma reaches_delta name m s s1 c ds :
  obj_delta name m = ds → (exceeded s1 = false → reaches s s1 c []) → exceeded (push_named name (obj m) s1) = false →
  reaches s (push_named name (obj m) s1) c ds.
Proof. intros <- H Hx. by apply (reaches_push name m s s1 c []). Qed.

(** What each event adds to the deltas of the client. *)
Definition event_deltas (e : GatewayStreamEvent) : list (string * string) :=
  match e with
  | GTextDelta t => [("response.output_text.delta", t)]
  | GRefusalDelta t => [("response.refusal.delta", t)]
  | GReasoningSummaryDelta _ t => [("response.reasoning_summary_text.delta", t)]
  | GToolCallDelta d => [("response.function_call_arguments.delta", td_arguments_fragment d)]
  | _ => []
  end.

Lemma text_reaches t s :
  exceeded (encode_text_delta t s) = false →
  reaches s (encode_text_delta t s) (text_content t (en_content s)) (event_deltas (GTextDelta t)).
Proof.
  unfold encode_text_delta, text_content. destruct (co_text_started (en_content s)).
  - apply reaches_delta; [reflexivity|]. intros Hx. by apply (reaches_content (λ c, set_text (co_text c +:+ t) c)), reaches_refl.
  - destruct (ensure_message_output_index _) as [c i]. cbn [fst]. apply reaches_delta; [reflexivity|]. intros Hx.
    apply (reaches_content (λ c, set_text (co_text c +:+ t) c)). revert Hx. apply reaches_quiet; [done|].
    apply reaches_quiet; [done|]. intros Hx. by eapply reaches_set, reaches_refl.
Qed.
Lemma refusal_reaches t s :
  exceeded (encode_refusal_delta t s) = false →
  reaches s (encode_refusal_delta t s) (refusal_content t (en_content s)) (event_deltas (GRefusalDelta t)).
Proof.
  unfold encode_refusal_delta, refusal_content. destruct (ensure_message_output_index _) as [c i]. cbn [fst].
  apply reaches_delta; [reflexivity|]. intros Hx. apply (reaches_content (λ c, set_refusal (co_refusal c +:+ t) c)). revert Hx.
  destruct (co_refusal_started c); [intros Hx; by eapply reaches_set, reaches_refl|].
  apply reaches_quiet; [done|]. cbn [en_content on_content set_content set_refusal_started co_text_started].
  destruct (co_text_started c).
  - intros Hx. by eapply (reaches_content (set_refusal_started true)), reaches_set, reaches_refl.
  - apply reaches_quiet; [done|]. intros Hx. by eapply (reaches_content (set_refusal_started true)), reaches_set, reaches_refl.
Qed.
Lemma reasoning_reaches k t s :
  exceeded (encode_reasoning_delta k t s) = false →
  reaches s (encode_reasoning_delta k t s) (reasoning_content k t (en_content s)) (event_deltas (GReasoningSummaryDelta k t)).
Proof.
  unfold encode_reasoning_delta, reasoning_content. apply reaches_delta; [reflexivity|]. intros Hx.
  apply (reaches_content (λ c, set_reasoning_summaries (alter (extend_summary t) k (co_reasoning_summaries c)) c)). revert Hx.
  destruct (co_reasoning_summaries (en_content s) !! k); [intros Hx; by apply reaches_refl|].
  unfold allocate_output_index. apply reaches_quiet; [done|]. apply reaches_quiet; [done|]. intros Hx.
  by eapply reaches_set, reaches_refl.
Qed.
Lemma tool_reaches d s :
  exceeded (encode_tool_delta d s) = false →
  reaches s (encode_tool_delta d s) (tool_content (es_request_id (en_settings s)) d (en_content s)) (event_deltas (GToolCallDelta d)).
Proof.
  unfold encode_tool_delta, tool_content. apply reaches_delta; [reflexivity|]. intros Hx.
  apply (reaches_content (λ c, set_tool_calls (alter (extend_call d) (td_index d) (co_tool_calls c)) c)). revert Hx.
  destruct (co_tool_calls (en_content s) !! td_index d); [intros Hx; by apply reaches_refl|].
  unfold allocate_output_index. apply reaches_quiet; [done|]. intros Hx. by eapply reaches_set, reaches_refl.
Qed.
Lemma continuation_reaches e s :
  exceeded (encode_continuation e s) = false →
  co_reasoning_continuation (en_content s) = None ∧
  reaches s (encode_continuation e s) (continuation_content e (en_content s)) [].
Proof.
  unfold encode_continuation, continuation_content. case_bool_decide as Hc; [done|]. intros Hx.
  split; [by apply eq_None_not_Some|]. revert Hx. unfold allocate_output_index. intros Hx.
  apply (reaches_content (set_reasoning_continuation _)). revert Hx. apply reaches_quiet; [done|].
  apply reaches_quiet; [done|]. intros Hx. by eapply reaches_set, reaches_refl.
Qed.

Lemma reaches_trans s s1 s2 c1 c2 d1 d2 : reaches s s1 c1 d1 → reaches s1 s2 c2 d2 → reaches s s2 c2 (d1 ++ d2).
Proof.
  intros (H1 & H2 & H3 & H4) (H1' & H2' & H3' & H4'). split_and!; [done|congruence|done|].
  by rewrite H4', H4, app_assoc.
Qed.
Lemma start_reaches s : exceeded (start_responses s) = false → reaches s (start_responses s) (en_content s) [].
Proof.
  unfold start_responses. destruct (en_responses_started s); [apply reaches_refl|].
  apply reaches_quiet; [done|]. intros Hx. split_and!; [done..|]. cbn. by rewrite app_nil_r.
Qed.

Definition is_final (e : GatewayStreamEvent) : bool := match e with GCompleted _ _ _ | GFailed => true | _ => false end.

(** An event that is not the last one. *)
Lemma event_reaches e s l :
  is_final e = false → exceeded s = false → exceeded (encode_responses e s) = false → holds l (en_content s) →
  (N.of_nat (length l) < u32_max)%N →
  ∃ c, reaches s (encode_responses e s) c (event_deltas e) ∧ holds (assemble_event (es_request_id (en_settings s)) l e) c.
Proof.
  intros He H0 Hx Hh Hl. unfold encode_responses in *. unfold exceeded in H0. rewrite H0 in *. set (s1 := start_responses s) in *.
  assert (∀ s2 c ds, reaches s1 s2 c ds → reaches s s1 (en_content s) [] ∧ reaches s s2 c ds) as Hgo.
  { intros s2 c ds H. assert (reaches s s1 (en_content s) []) as Hs1 by (apply start_reaches, H). split; [done|].
    by apply (reaches_trans _ _ _ _ _ [] ds Hs1). }
  destruct e; try done; cbn [assemble_event event_deltas].
  - exists (en_content s). split; [by apply start_reaches|done].
  - exists (en_content s). split; [by apply start_reaches|done].
  - apply text_reaches, Hgo in Hx as [(_ & _ & Hc & _) Hx]. rewrite Hc in Hx. eexists. split; [exact Hx|by apply text_holds].
  - apply refusal_reaches, Hgo in Hx as [(_ & _ & Hc & _) Hx]. rewrite Hc in Hx. eexists. split; [exact Hx|by apply refusal_holds].
  - apply reasoning_reaches, Hgo in Hx as [(_ & _ & Hc & _) Hx]. rewrite Hc in Hx. eexists. split; [exact Hx|by apply reasoning_holds].
  - apply tool_reaches, Hgo in Hx as [(_ & Hs & Hc & _) Hx]. rewrite Hc, Hs in Hx. eexists. split; [exact Hx|by apply tool_holds].
  - apply continuation_reaches in Hx as [Hn Hx]. apply Hgo in Hx as [(_ & _ & Hc & _) Hx]. rewrite Hc in Hx, Hn.
    eexists. split; [exact Hx|by apply continuation_holds].
Qed.
End handlers.

(** ** The end of a response *)

Definition render_item (request_id : string) (i : N) (x : Item) : Json :=
  match x with
  | MessageOut text refusal =>
      message_item (tagged "msg_" request_id i) "completed"
        ((text_part <$> option_list text) ++ (refusal_part <$> option_list refusal))
  | CallOut _ call_id name arguments =>
      obj [("id", str (tagged "fc_" request_id i)); ("type", str "function_call"); ("call_id", str call_id); ("name", str name);
           ("arguments", str arguments); ("status", str "completed")]
  | SummaryOut _ text =>
      obj [("id", str (tagged "rs_" request_id i)); ("type", str "reasoning"); ("status", str "completed");
           ("summary", JArray [summary_part text])]
  | ContinuationOut encrypted =>
      obj [("id", str ("rs_" +:+ request_id +:+ "_continuation")); ("type", str "reasoning"); ("status", str "completed");
           ("summary", JArray []); ("encrypted_content", str encrypted)]
  end.
Definition render_entry (request_id : string) (x : N * Item) : N * Json := (x.1, render_item request_id x.1 x.2).

Section completion.
Context {display : JsonDisplay}.

Lemma complete_message_ok s :
  exceeded (complete_message s).1 = false →
  reaches s (complete_message s).1 (en_content s) [] ∧
  (complete_message s).2 = render_entry (es_request_id (en_settings s)) <$> message_entry (en_content s).
Proof.
  unfold complete_message, message_entry. destruct (co_message_output_index (en_content s)) as [i|]; [|intros Hx; split; [by apply reaches_refl|done]].
  match goal with |- context [if co_text_started (en_content s) then ?x else ?y] =>
    destruct (if co_text_started (en_content s) then x else y) as [s1 texts] eqn:E1 end.
  assert (exceeded s1 = false → reaches s s1 (en_content s) [] ∧
    texts = text_part <$> option_list (when_started (co_text_started (en_content s)) (co_text (en_content s)))) as H1.
  { intros Hx. destruct (co_text_started (en_content s)); injection E1 as <- <-; [|split; [by apply reaches_refl|done]].
    eassert (reaches s _ (en_content s) []) as Hr.
    { revert Hx. apply reaches_quiet; [done|]. apply reaches_quiet; [done|]. apply reaches_refl. }
    split; [exact Hr|]. destruct Hr as (_ & _ & Hc & _). cbn [when_started option_list]. unfold part_event. by rewrite Hc. }
  clear E1. match goal with |- context [if co_refusal_started (en_content s1) then ?x else ?y] =>
    destruct (if co_refusal_started (en_content s1) then x else y) as [s2 refusals] eqn:E2 end.
  assert (exceeded s2 = false → reaches s1 s2 (en_content s1) [] ∧
    refusals = refusal_part <$> option_list (when_started (co_refusal_started (en_content s1)) (co_refusal (en_content s1)))) as H2.
  { intros Hx. destruct (co_refusal_started (en_content s1)); injection E2 as <- <-; [|split; [by apply reaches_refl|done]].
    eassert (reaches s1 _ (en_content s1) []) as Hr.
    { revert Hx. apply reaches_quiet; [done|]. apply reaches_quiet; [done|]. apply reaches_refl. }
    split; [exact Hr|]. destruct Hr as (_ & _ & Hc & _). cbn [when_started option_list]. unfold part_event. by rewrite Hc. }
  clear E2. cbn [fst snd]. intros Hx. pose proof (push_ok _ _ _ Hx) as (Hx2 & _).
  destruct (H2 Hx2) as [R2 ->]. destruct (H1 (proj1 R2)) as [R1 ->]. pose proof R1 as (_ & _ & Hc & _). rewrite Hc in *.
  split; [|done]. revert Hx. apply reaches_quiet; [done|]. intros _. by apply (reaches_trans _ _ _ _ _ [] [] R1).
Qed.

Lemma complete_call_ok s x :
  exceeded (complete_call s x.2).1 = false →
  reaches s (complete_call s x.2).1 (en_content s) [] ∧
  (complete_call s x.2).2 = render_entry (es_request_id (en_settings s)) (call_entry x).
Proof.
  unfold complete_call. cbn [fst snd]. intros Hx. split; [|done]. revert Hx.
  apply reaches_quiet; [done|]. apply reaches_quiet; [done|]. apply reaches_refl.
Qed.
Lemma complete_summary_ok s x :
  exceeded (complete_summary s x.2).1 = false →
  reaches s (complete_summary s x.2).1 (en_content s) [] ∧
  (complete_summary s x.2).2 = render_entry (es_request_id (en_settings s)) (summary_entry x).
Proof.
  unfold complete_summary. cbn [fst snd]. intros Hx. split; [|done]. revert Hx.
  apply reaches_quiet; [done|]. apply reaches_quiet; [done|]. apply reaches_quiet; [done|]. apply reaches_refl.
Qed.
Lemma complete_each_ok {A} f (g : N * A → N * Item) (l : list (N * A)) s :
  (∀ s x, exceeded (f s x.2).1 = false →
     reaches s (f s x.2).1 (en_content s) [] ∧ (f s x.2).2 = render_entry (es_request_id (en_settings s)) (g x)) →
  exceeded (complete_each f s l.*2).1 = false →
  reaches s (complete_each f s l.*2).1 (en_content s) [] ∧
  (complete_each f s l.*2).2 = render_entry (es_request_id (en_settings s)) <$> (g <$> l).
Proof.
  intros Hf. revert s. induction l as [|x l IH]; intros s; [intros Hx; split; [by apply reaches_refl|done]|].
  rewrite fmap_cons. cbn [complete_each]. specialize (Hf s x). destruct (f s x.2) as [s1 y] eqn:E1.
  specialize (IH s1). destruct (complete_each f s1 l.*2) as [s2 ys] eqn:E2. cbn [fst snd] in *. intros Hx.
  destruct (IH Hx) as [R2 ->]. destruct (Hf (proj1 R2)) as [R1 ->]. pose proof R1 as (_ & Hs & Hc & _).
  rewrite Hc in R2. split; [by apply (reaches_trans _ _ _ _ _ [] [] R1)|]. by rewrite Hs, fmap_cons.
Qed.

(** ** Sorting by index *)

Definition index_leb (a b : N * Json) : bool := (a.1 <=? b.1)%N.
Lemma indexed_sorted request_id k l :
  StronglySorted (λ a b, index_leb a b = true) (imap (λ i x, (N.of_nat (k + i), render_item request_id (N.of_nat (k + i)) x)) l).
Proof.
  revert k. induction l as [|x l IH]; intros k; [constructor|]. rewrite imap_cons. constructor.
  - assert (imap ((λ i x, (N.of_nat (k + i), render_item request_id (N.of_nat (k + i)) x)) ∘ S) l =
      imap (λ i x, (N.of_nat (S k + i), render_item request_id (N.of_nat (S k + i)) x)) l) as ->; [|apply IH].
    apply imap_ext. intros i y _. cbn [compose]. by rewrite Nat.add_succ_r.
  - apply Forall_forall. intros [i j] (n & y & [= -> _] & _)%elem_of_lookup_imap. apply N.leb_le. cbn. lia.
Qed.
Lemma render_indexed request_id l :
  render_entry request_id <$> indexed l = imap (λ i x, (N.of_nat (0 + i), render_item request_id (N.of_nat (0 + i)) x)) l.
Proof. unfold indexed. by rewrite fmap_imap. Qed.
Lemma sort_indexed request_id l out :
  out ≡ₚ render_entry request_id <$> indexed l → stable_sort index_leb out = render_entry request_id <$> indexed l.
Proof.
  intros Hp. assert (stable_sort index_leb out ≡ₚ render_entry request_id <$> indexed l) as Hp' by (by rewrite stable_sort_perm).
  apply (StronglySorted_unique_strong (λ a b, index_leb a b = true)); [| | |done].
  - intros x1 x2. rewrite Hp'. intros ([i x] & -> & Hx)%list_elem_of_fmap ([j y] & -> & Hy)%list_elem_of_fmap.
    unfold index_leb. cbn. rewrite !N.leb_le. intros H1 H2. assert (i = j) as <- by lia.
    apply elem_of_item_indexes in Hx as (n & -> & Hx). apply elem_of_item_indexes in Hy as (n' & E & Hy).
    assert (n = n') as <- by lia. rewrite Hx in Hy. by injection Hy as <-.
  - apply stable_sort_sorted.
    + intros [i x] [j y]. unfold index_leb. cbn. rewrite !N.leb_le. lia.
    + intros [i x] [j y] [k z]. unfold index_leb. cbn. rewrite !N.leb_le. lia.
  - rewrite render_indexed. apply indexed_sorted.
Qed.

Definition rendered (request_id : string) (l : list Item) : list Json := imap (λ i x, render_item request_id (N.of_nat i) x) l.

(** The last frame of a response that fits carries the items. *)
Lemma completed_ok fr usage s l :
  exceeded (encode_completed fr usage s) = false → holds l (en_content s) →
  exceeded s = false ∧ ∃ pre n,
    omap frame_delta pre = omap frame_delta (wi_pending (en_wire s)) ∧
    wi_pending (en_wire (encode_completed fr usage s)) = pre ++ [named_sse (terminal_event fr) (JObject
      (obj_insert "sequence_number" (num n) (foldl (λ m x, obj_insert x.1 x.2 m) []
         [("type", str (terminal_event fr));
          ("response", final_response s fr usage (rendered (es_request_id (en_settings s)) l))])))].
Proof.
  unfold encode_completed. pose proof (complete_message_ok s) as H1. destruct (complete_message s) as [s1 ms]. cbn [fst snd] in H1.
  match goal with |- context [complete_each complete_call s1 (snd <$> ?l)] =>
    set (calls := l); pose proof (complete_each_ok complete_call call_entry calls s1 complete_call_ok) as H2 end.
  destruct (complete_each complete_call s1 (snd <$> calls)) as [s2 cs] eqn:E2. cbn [fst snd] in H2.
  match goal with |- context [complete_each complete_summary s2 (snd <$> ?l)] =>
    set (sums := l); pose proof (complete_each_ok complete_summary summary_entry sums s2 complete_summary_ok) as H3 end.
  destruct (complete_each complete_summary s2 (snd <$> sums)) as [s3 us] eqn:E3. cbn [fst snd] in H3.
  intros (Hx & _ & _ & n & Hp)%push_ok Hh. rewrite Hp. clear Hp.
  destruct (H3 Hx) as [R3 ->]. destruct (H2 (proj1 R3)) as [R2 ->]. destruct (H1 (proj1 R2)) as [R1 ->]. clear H1 H2 H3.
  destruct R1 as (Hx0 & Hs1 & Hc1 & Hd1). destruct R2 as (_ & Hs2 & Hc2 & Hd2). destruct R3 as (_ & Hs3 & Hc3 & Hd3).
  split; [done|]. exists (wi_pending (en_wire s3)), n. split; [by rewrite Hd3, Hd2, Hd1, !app_nil_r|].
  do 3 f_equal. unfold final_response, response_id. rewrite Hs3, Hs2, Hs1, Hc3, Hc2, Hc1 in *.
  set (rid := es_request_id (en_settings s)). do 2 f_equal.
  assert (∀ out, out ≡ₚ render_entry rid <$> indexed l → (stable_sort (λ a b : N * Json, (a.1 <=? b.1)%N) out).*2 = rendered rid l) as Hsort.
  { intros out Ho. change (λ a b : N * Json, (a.1 <=? b.1)%N) with index_leb. rewrite (sort_indexed rid l out Ho). unfold rendered. rewrite render_indexed, fmap_imap. done. }
  rewrite Hsort; [done|]. rewrite <- (hd_entries _ _ Hh). unfold entries. rewrite !fmap_app.
  unfold calls, sums. rewrite !stable_sort_perm, Hc2, Hc1. do 3 f_equiv.
  unfold continuation_entry, continuation_item, continuation_id. rewrite Hs3. by destruct (co_reasoning_continuation _).
Qed.
End completion.

Section delivery.
Context {display : JsonDisplay} {from_slice : list ascii → option Json}.
Abbreviation deliver := (@deliver display from_slice) (only parsing).

Lemma upsert_length k new f l : (length (upsert k new f l) ≤ S (length l))%nat.
Proof. induction l as [|x l IH]; [done|]. cbn [upsert]. destruct (decide _); cbn; lia. Qed.
Lemma assemble_length rid l e : (length (assemble_event rid l e) ≤ S (length l))%nat.
Proof. destruct e; cbn [assemble_event]; try apply upsert_length; rewrite ?length_app; cbn; lia. Qed.

Lemma deliver_assembles events s l s' frames :
  es_protocol (en_settings s) = OpenAiResponses → wi_pending (en_wire s) = [] → wire_inv s →
  Forall (λ e, is_final e = false) events → holds l (en_content s) →
  (N.of_nat (length l + length events) ≤ u32_max)%N →
  deliver events s = (s', frames) → exceeded s' = false →
  exceeded s = false ∧ en_settings s' = en_settings s ∧ wi_pending (en_wire s') = [] ∧ wire_inv s' ∧
  holds (foldl (assemble_event (es_request_id (en_settings s))) l events) (en_content s') ∧
  omap frame_delta frames = events ≫= event_deltas.
Proof.
  intros Hp Hn Hinv Hev. revert s l frames Hp Hn Hinv. induction Hev as [|e events He _ IH]; intros s l frames Hp Hn Hinv Hh Hl E Hx.
  - injection E as <- <-. by split_and!.
  - destruct (exceeded s) eqn:H0.
    { rewrite deliver_exceeded in E by done. injection E as <- <-. congruence. }
    apply deliver_cons in E as (rest & -> & E); [|done].
    pose proof (emits_run s (encode_responses e s) H0 Hn Hinv (responses_emits e s)) as (Hset & Hinv' & _).
    assert (exceeded (encode_responses e s) = false) as Hx1.
    { destruct (exceeded (encode_responses e s)) eqn:H1; [|done]. rewrite deliver_exceeded in E; [|by cbn; rewrite Hset|done|done].
      injection E as <- _. cbn in Hx. unfold exceeded in H1. congruence. }
    destruct (event_reaches e s l He H0 Hx1 Hh) as (c & (_ & Hs1 & Hc & Hd) & Hh'); [cbn in Hl; lia|].
    rewrite Hn in Hd. cbn in Hd. pose proof (assemble_length (es_request_id (en_settings s)) l e) as Hlen. cbn in Hl.
    edestruct (IH (take_frames (encode_responses e s)).1 (assemble_event (es_request_id (en_settings s)) l e) rest)
      as (_ & Hs2 & Hp2 & Hi2 & Hh2 & Hd2); [by cbn; rewrite Hset|done|done|by cbn; rewrite Hc|lia|exact E|done|].
    cbn [take_frames fst en_settings set_wire] in *. rewrite Hset in *. split_and!; [done..|].
    rewrite omap_app, Hd, Hd2. done.
Qed.

Lemma deliver_app events events' s :
  deliver (events ++ events') s =
  let '(s1, f1) := deliver events s in let '(s2, f2) := deliver events' s1 in (s2, f1 ++ f2).
Proof.
  revert s. induction events as [|e events IH]; intros s; cbn [app StreamEncoder.deliver].
  - by destruct (deliver events' s).
  - destruct (take_frames _) as [s1 f]. rewrite IH. destruct (deliver events s1) as [s2 f2].
    destruct (deliver events' s2) as [s3 f3]. by rewrite app_assoc.
Qed.

Lemma emits_settings s s' : emits s s' → en_settings s' = en_settings s.
Proof.
  induction 1 as [|s1 s2 _ IH Hw Hs|s1 name m _ IH|s1 _ IH]; [done|congruence| |done]. rewrite <- IH.
  unfold push_named. destruct (wi_limit_exceeded _); [done|]. destruct (checked_add _ _ _); [|done]. by destruct (_ <? _)%N.
Qed.
Lemma deliver_settled events s s' frames :
  es_protocol (en_settings s) = OpenAiResponses → wi_pending (en_wire s) = [] → deliver events s = (s', frames) →
  en_settings s' = en_settings s ∧ wi_pending (en_wire s') = [].
Proof.
  revert s frames. induction events as [|e events IH]; intros s frames Hp Hn; [by intros [= <- <-]|].
  intros (rest & _ & E)%deliver_cons; [|done]. pose proof (emits_settings _ _ (responses_emits e s)) as Hs.
  destruct (IH (take_frames (encode_responses e s)).1 rest) as [Hs' Hp']; [by cbn; rewrite Hs|done|done|].
  split; [|done]. rewrite Hs'. exact Hs.
Qed.
(** Only a stream within the limit can be completed within it. *)
Lemma emits_exceeded s s' : emits s s' → exceeded s = true → exceeded s' = true.
Proof.
  intros H Hx. induction H as [|s1 s2 _ IH Hw Hs|s1 name m _ IH|s1 _ IH]; [done| | |done].
  - unfold exceeded in *. by rewrite Hw.
  - unfold push_named, exceeded in *. by rewrite IH.
Qed.
Lemma completed_exceeded fr usage s : exceeded (encode_completed fr usage s) = false → exceeded s = false.
Proof.
  intros H. destruct (exceeded s) eqn:E; [|done]. rewrite <- H. symmetry. eapply emits_exceeded; [|exact E].
  apply completed_emits, emits_refl.
Qed.

(** The output of the response that ends a stream. *)
Definition final_output (frames : list Frame) : option (list Json) :=
  f ← last frames;
  match f with
  | Sse (Some name) data =>
      if bool_decide (name ∈ ["response.completed"; "response.incomplete"])
      then (get "response" data ≫= get "output") ≫= as_array else None
  | _ => None
  end.

Lemma member_fold k fields m :
  k ∉ fields.*1 → member k (foldl (λ m x, obj_insert x.1 x.2 m) m fields) = member k m.
Proof.
  revert m. induction fields as [|[k' v] fields IH]; intros m; [done|]. rewrite fmap_cons.
  intros [Hk Hf]%not_elem_of_cons. cbn [foldl]. rewrite IH by done. rewrite member_obj_insert. by rewrite decide_False.
Qed.
Lemma obj_keys (fields : list (string * Json)) m k :
  k ∈ (foldl (λ m x, obj_insert x.1 x.2 m) m fields).*1 → k ∈ fields.*1 ∨ k ∈ m.*1.
Proof.
  intros H. destruct (decide (k ∈ fields.*1)) as [Hf|Hf]; [by left|right]. revert m H.
  assert (∀ l, k ∈ l.*1 ↔ is_Some (member k l)) as Hk.
  { intros l. induction l as [|[k' v] l IHl]; cbn; [split; [intros Hn; by apply not_elem_of_nil in Hn|by intros []]|].
    rewrite elem_of_cons, IHl. case_decide; naive_solver. }
  intros m. rewrite !Hk. by rewrite member_fold.
Qed.
Lemma metadata_keys request k : k ∈ (ResponsesResponseMetadata_from request).*1 → k ∈ metadata_defaults.*1.
Proof.
  unfold ResponsesResponseMetadata_from.
  set (value := λ x : string * Json, match get x.1 request with Some JNull | None => x.2 | Some v => v end).
  assert (∀ l m, foldl (λ m x, obj_insert x.1 (value x) m) m l
    = foldl (λ m x, obj_insert x.1 x.2 m) m ((λ x, (x.1, value x)) <$> l)) as E.
  { intros l. induction l as [|x l IH]; intros m; [done|]. rewrite fmap_cons. cbn [foldl fst snd]. apply IH. }
  intros H. change (foldl _ [] metadata_defaults) with (foldl (λ m x, obj_insert x.1 (value x) m) [] metadata_defaults) in H.
  rewrite E in H. apply obj_keys in H as [H|H]; [|by apply not_elem_of_nil in H].
  by rewrite <- list_fmap_compose in H.
Qed.
Lemma final_response_output s fr usage output request :
  es_responses_metadata (en_settings s) = ResponsesResponseMetadata_from request →
  get "output" (final_response s fr usage output) = Some (JArray output).
Proof.
  intros E. unfold final_response, metadata_apply, obj. cbn [get]. rewrite E, member_fold; [done|].
  intros H%metadata_keys. vm_compute in H. by repeat (apply elem_of_cons in H as [H|H]; [done|]); apply not_elem_of_nil in H.
Qed.

Lemma deliver_final l s request events fr usage include_usage s' frames :
  es_protocol (en_settings s) = OpenAiResponses →
  es_responses_metadata (en_settings s) = ResponsesResponseMetadata_from request →
  wi_pending (en_wire s) = [] → wire_inv s → holds l (en_content s) →
  Forall (λ e, is_final e = false) events → (N.of_nat (length l + length events) ≤ u32_max)%N →
  deliver (events ++ [GCompleted fr usage include_usage]) s = (s', frames) → exceeded s' = false →
  let rid := es_request_id (en_settings s) in
  final_output frames = Some (rendered rid (foldl (assemble_event rid) l events)) ∧
  omap frame_delta frames = events ≫= event_deltas.
Proof.
  intros Hp Hmeta Hpend Hinv Hh0 Hev Hlen E Hx rid. rewrite deliver_app in E.
  destruct (deliver events s) as [s1 f1] eqn:E1.
  destruct (deliver [GCompleted fr usage include_usage] s1) as [s2 f2] eqn:E2. injection E as <- <-.
  destruct (deliver_settled events s s1 f1) as [Hset1 Hpend1]; [done..|].
  assert (exceeded s1 = false) as Hx1.
  { destruct (exceeded s1) eqn:H1; [|done]. rewrite deliver_exceeded in E2 by (done || by rewrite Hset1).
    injection E2 as <- _. congruence. }
  destruct (deliver_assembles events s l s1 f1) as (_ & _ & _ & _ & Hh & Hd); [done..|].
  apply deliver_cons in E2 as (rest & -> & E2); [|by rewrite Hset1]. injection E2 as <- <-. rewrite app_nil_r.
  change (exceeded (encode_responses (GCompleted fr usage include_usage) s1) = false) in Hx.
  unfold encode_responses in *. unfold exceeded in Hx1. rewrite Hx1 in *.
  pose proof (start_reaches s1 (completed_exceeded _ _ _ Hx)) as (_ & Hs & Hc & Hds). rewrite Hpend1 in Hds. cbn in Hds.
  destruct (completed_ok fr usage (start_responses s1) (foldl (assemble_event rid) l events) Hx) as (_ & pre & n & Hpre & ->).
  { by rewrite Hc. }
  rewrite Hs, Hset1. split.
  - unfold final_output. rewrite app_assoc, last_snoc. cbn [mbind option_bind named_sse].
    rewrite bool_decide_eq_true_2 by (unfold terminal_event; case_bool_decide; set_solver).
    cbn [get]. rewrite member_obj_insert, decide_False by done.
    change (member "response" _) with (Some (final_response (start_responses s1) fr usage
      (rendered rid (foldl (assemble_event rid) l events)))).
    cbn [mbind option_bind]. rewrite (final_response_output _ _ _ _ request) by (by rewrite Hs, Hset1). done.
  - rewrite !omap_app, Hd, Hpre, Hds. cbn. rewrite member_obj_insert, decide_False by done. cbn. by rewrite !app_nil_r.
Qed.

(** C19 A Responses stream that completes within its limit ends with a response whose output is
    the list of items a client assembles from the events: in the order in which they first
    appear, each with its whole text, refusal, arguments or summary.  Every fragment is
    delivered once and in order. *)
Theorem final_response_assembled settings request events fr usage include_usage s' frames :
  es_protocol settings = OpenAiResponses →
  es_responses_metadata settings = ResponsesResponseMetadata_from request →
  Forall (λ e, is_final e = false) events → (N.of_nat (length events) ≤ u32_max)%N →
  deliver (events ++ [GCompleted fr usage include_usage]) (ClientStreamEncoder_new settings) = (s', frames) →
  exceeded s' = false →
  final_output frames = Some (rendered (es_request_id settings) (assemble (es_request_id settings) events)) ∧
  omap frame_delta frames = events ≫= event_deltas.
Proof.
  intros Hp Hmeta Hev Hlen E Hx. apply (deliver_final [] (ClientStreamEncoder_new settings) request) in E; try done.
  split; cbn; [lia|done].
Qed.
End delivery.
