(* ===== verification/StreamProducer.v ===== *)
(** * The stream of a request

    Model of the task that reads the events of a provider and sends events to the client in
    [crates/llm-gateway/src/runtime/streaming.rs]: the terminal event, the recovery of personal
    data, the sealing of reasoning state, and what is reported at the end.  The scheduler
    decides what the task reads next and whether an event could be sent. *)

From Stdlib Require Import Ascii.
From S2P Require Import Prelude RustStr JsonTree JsonText InferenceError LlmError Usage ReasoningSeal Pii StreamEncoder.

#[export] Instance ClientProtocol_eq_dec : EqDecision ClientProtocol.
Proof. solve_decision. Defined.

Definition continuation_is_eligible (client : ClientProtocol) (provider : ProviderProtocol) : bool :=
  match client, provider with
  | OpenAiResponses, PBedrockConverse => true
  | AnthropicMessages, (PBedrockConverse | PAnthropicMessages) => true
  | _, _ => false
  end.

Record ProducerSettings := {
  sp_client_protocol : ClientProtocol;
  sp_tenant_id : option string;
  sp_alias : string;
  sp_deployment_id : string;
  sp_material_generation : N;
  sp_include_usage : bool;
  sp_sealer : ReasoningSealer;
}.

Section producer.
Context {seal_primitives : SealPrimitives}.
Context {ProviderEvidence TerminalState : Type}.
Abbreviation event :=
  (InferenceEvent ProviderEvidence ProviderContinuationState NormalizedUsage FinishReason TerminalState) (only parsing).

Definition from_provider (e : event) : option GatewayStreamEvent :=
  match e with
  | MessageStart _ => Some GMessageStart
  | TextDelta t => Some (GTextDelta t)
  | RefusalDelta t => Some (GRefusalDelta t)
  | ReasoningSummaryDelta index t => Some (GReasoningSummaryDelta index t)
  | ToolCallDeltaEvent delta => Some (GToolCallDelta delta)
  | ProviderContinuation _ | Pii.Usage _ | MessageEnd _ _ => None
  end.

(** What the task reads next: an item of the provider stream, or one of the timers. *)
Inductive Next :=
| NextItem (item : result InferenceError event)
| NextCancelled
| NextDeadline
| NextIdle.

Record Producer := {
  pd_usage : option NormalizedUsage;
  pd_finish_reason : option FinishReason;
  pd_visible : bool;
  pd_error : option InferenceError;
  pd_cancelled : bool;
  pd_pii : PiiStreamRecoverer;
  pd_sent : list GatewayStreamEvent;
}.
Definition set_error (e : InferenceError) (p : Producer) : Producer :=
  {| pd_usage := pd_usage p; pd_finish_reason := pd_finish_reason p; pd_visible := pd_visible p; pd_error := Some e;
     pd_cancelled := pd_cancelled p; pd_pii := pd_pii p; pd_sent := pd_sent p |}.
Definition cancel (p : Producer) : Producer :=
  {| pd_usage := pd_usage p; pd_finish_reason := pd_finish_reason p; pd_visible := pd_visible p; pd_error := pd_error p;
     pd_cancelled := true; pd_pii := pd_pii p; pd_sent := pd_sent p |}.
Definition set_pii (r : PiiStreamRecoverer) (p : Producer) : Producer :=
  {| pd_usage := pd_usage p; pd_finish_reason := pd_finish_reason p; pd_visible := pd_visible p; pd_error := pd_error p;
     pd_cancelled := pd_cancelled p; pd_pii := r; pd_sent := pd_sent p |}.
Definition set_pd_usage (u : NormalizedUsage) (p : Producer) : Producer :=
  {| pd_usage := Some u; pd_finish_reason := pd_finish_reason p; pd_visible := pd_visible p; pd_error := pd_error p;
     pd_cancelled := pd_cancelled p; pd_pii := pd_pii p; pd_sent := pd_sent p |}.
Definition set_finish_reason (r : FinishReason) (p : Producer) : Producer :=
  {| pd_usage := pd_usage p; pd_finish_reason := Some r; pd_visible := pd_visible p; pd_error := pd_error p;
     pd_cancelled := pd_cancelled p; pd_pii := pd_pii p; pd_sent := pd_sent p |}.
Definition set_visible (p : Producer) : Producer :=
  {| pd_usage := pd_usage p; pd_finish_reason := pd_finish_reason p; pd_visible := true; pd_error := pd_error p;
     pd_cancelled := pd_cancelled p; pd_pii := pd_pii p; pd_sent := pd_sent p |}.
Definition add_sent (e : GatewayStreamEvent) (p : Producer) : Producer :=
  {| pd_usage := pd_usage p; pd_finish_reason := pd_finish_reason p; pd_visible := pd_visible p; pd_error := pd_error p;
     pd_cancelled := pd_cancelled p; pd_pii := pd_pii p; pd_sent := pd_sent p ++ [e] |}.

(** Whether the next event can be sent, given those sent before, and the random bytes of a
    nonce drawn then. *)
Context (settings : ProducerSettings) (send_error : list GatewayStreamEvent → option InferenceError)
  (nonce : list GatewayStreamEvent → option (list ascii)).

(** A step of the loop goes on or breaks it. *)
Inductive Flow := Continue (p : Producer) | Break (p : Producer).
Definition stop_with (e : InferenceError) (p : Producer) : Flow := Break (set_error e p).

(** [send_event] and what its callers do when it fails. *)
Definition send_event (e : GatewayStreamEvent) (p : Producer) : Flow :=
  match send_error (pd_sent p) with
  | None => Continue (add_sent e p)
  | Some error => Break (set_error error (cancel p))
  end.
(** An event the client sees. *)
Definition send_visible (e : GatewayStreamEvent) (p : Producer) : Flow :=
  match send_event e p with Continue p => Continue (set_visible p) | Break p => Break p end.

Definition not_eligible : InferenceError :=
  protocol "provider reasoning continuation is not eligible for this client protocol".
(** The event that carries a continuation to the client. *)
Definition continuation_event (p : Producer) (state : ProviderContinuationState) : result InferenceError GatewayStreamEvent :=
  if bool_decide (is_Some (pd_finish_reason p))
     || negb (continuation_is_eligible (sp_client_protocol settings) (cs_protocol state))
  then Err not_eligible else
  match sp_client_protocol settings with
  | OpenAiResponses =>
      tenant_id ← ok_or (protocol "authenticated tenant identity is required for reasoning continuation")
        (sp_tenant_id settings);
      encrypted ← map_err (λ e, protocol (ReasoningSealError_code e))
        (seal (sp_sealer settings) (nonce (pd_sent p))
           {| rb_tenant_id := tenant_id; rb_alias := sp_alias settings;
              rb_client_protocol := sp_client_protocol settings; rb_deployment_id := sp_deployment_id settings;
              rb_provider_material_generation := sp_material_generation settings |} (cs_payload state));
      Ok (GReasoningContinuation encrypted)
  | AnthropicMessages => Ok (GAnthropicReasoningContinuation state)
  | _ => Err not_eligible
  end.

(** An event of the model's answer. *)
Definition handle_semantic (e : event) (p : Producer) : Flow :=
  if bool_decide (is_Some (pd_finish_reason p))
  then stop_with (protocol "provider emitted semantic output after the terminal stream event") p else
  let '(pii, recovered) := PiiStreamRecoverer_recover (pd_pii p) e in
  let p := set_pii pii p in
  match recovered with
  | Err _ => stop_with (protocol "PII stream recovery failed") p
  | Ok emitted =>
      match emitted ≫= from_provider with
      | Some e => send_visible e p
      | None => Continue p
      end
  end.

Definition handle_event (e : event) (p : Producer) : Flow :=
  match e with
  | Pii.Usage usage =>
      let p := set_pd_usage usage p in
      if bool_decide (sp_client_protocol settings = AnthropicMessages) then send_event (GUsage usage) p else Continue p
  | ProviderContinuation state =>
      match continuation_event p state with
      | Err error => stop_with error p
      | Ok e => send_visible e p
      end
  | MessageEnd reason _ =>
      let again := bool_decide (is_Some (pd_finish_reason p)) in
      let p := set_finish_reason reason p in
      if again then stop_with (protocol "provider emitted more than one terminal stream event") p else Continue p
  | other => handle_semantic other p
  end.

Definition handle_next (n : Next) (p : Producer) : Flow :=
  match n with
  | NextCancelled => stop_with cancelled (cancel p)
  | NextDeadline | NextIdle => stop_with timeout_after_possible_acceptance (cancel p)
  | NextItem (Err error) => stop_with error p
  | NextItem (Ok e) => handle_event e p
  end.

(** The loop, over what is read until the provider stream ends. *)
Fixpoint produce (ns : list Next) (p : Producer) : Producer :=
  match ns with
  | [] => p
  | n :: ns => match handle_next n p with Continue p => produce ns p | Break p => p end
  end.

(** The events left in the recoverer. *)
Fixpoint flush (events : list event) (p : Producer) : Producer :=
  match events with
  | [] => p
  | e :: events =>
      match from_provider e with
      | None => flush events p
      | Some e => match send_visible e p with Continue p => flush events p | Break p => p end
      end
  end.

(** The end of the stream: the producer, and whether it was completed. *)
Definition finish_stream (p : Producer) : Producer * bool :=
  if bool_decide (is_Some (pd_error p)) then (p, false) else
  match pd_finish_reason p with
  | None => (set_error (protocol "provider stream ended without a terminal event") p, false)
  | Some reason =>
      let p :=
        match PiiStreamRecoverer_finish (pd_pii p) with
        | Err _ => set_error (protocol "PII stream recovery failed") p
        | Ok events => flush events p
        end in
      if bool_decide (is_Some (pd_error p)) then (p, false) else
      let p :=
        match send_event (GCompleted reason (pd_usage p) (sp_include_usage settings)) p with
        | Continue p => p
        | Break p => p
        end in
      (set_visible p, negb (bool_decide (is_Some (pd_error p))))
  end.
(** A failure is reported unless the request was cancelled; [late] is a cancellation by the
    client, before this read of the token, that the task has not noticed. *)
Definition report_failure (late : bool) (p : Producer) : Producer :=
  if bool_decide (is_Some (pd_error p)) && negb (pd_cancelled p || late)
  then match send_event GFailed p with Continue p => p | Break _ => p end
  else p.

(** What the audit, the reservation and the circuit are told. *)
Record StreamOutcome := {
  so_sent : list GatewayStreamEvent;
  so_completed : bool;
  so_usage : option NormalizedUsage;
  so_acceptance : AcceptanceEvidence;
  so_error : option InferenceError;
  so_terminal : string;
  so_status : N;
}.
Definition Producer_new (pii : RequestPiiSession) : Producer :=
  {| pd_usage := None; pd_finish_reason := None; pd_visible := false; pd_error := None; pd_cancelled := false;
     pd_pii := stream_recoverer pii; pd_sent := [] |}.
(** The token is read again for the terminal; [later] is a cancellation between the two reads,
    and a token that is cancelled stays so. *)
Definition run_stream (pii : RequestPiiSession) (first : event) (ns : list Next) (late later : bool) : StreamOutcome :=
  let '(p, completed) := finish_stream (produce (NextItem (Ok first) :: ns) (Producer_new pii)) in
  let p := report_failure late p in
  {| so_sent := pd_sent p; so_completed := completed; so_usage := pd_usage p;
     so_acceptance :=
       if completed then Accepted else if pd_visible p then PossiblyAccepted
       else from_option ie_acceptance PossiblyAccepted (pd_error p);
     so_error := pd_error p;
     so_terminal := if completed then "complete" else if pd_cancelled p || late || later then "cancelled" else "failed";
     so_status := if completed then 200 else 502 |}.
End producer.
