(* ===== verification/StreamProducerFacts.v ===== *)
(** * Theorems on the stream of a request

    How a stream ends, what a completed one has sent, and what the client's final response then
    contains. *)

From Stdlib Require Import Ascii.
From S2P Require Import Prelude RustStr JsonTree JsonText InferenceError LlmError Usage ReasoningSeal Pii PiiSubstitution PiiFacts PiiStream StreamEncoder StreamEncoderFacts StreamOutput StreamProducer.

(** ** The text and the arguments of assembled items *)

Definition item_of (k : Key) (l : list Item) : option Item := List.find (λ x, bool_decide (item_key x = k)) l.
Definition message_text (l : list Item) : string :=
  match item_of KMessage l with Some (MessageOut (Some t) _) => t | _ => "" end.
Definition call_arguments (i : N) (l : list Item) : string :=
  match item_of (KCall i) l with Some (CallOut _ _ _ a) => a | _ => "" end.

Definition sent_text (e : GatewayStreamEvent) : list ascii := match e with GTextDelta t => bytes t | _ => [] end.
Definition sent_arguments (i : N) (e : GatewayStreamEvent) : list ascii :=
  match e with
  | GToolCallDelta d => if bool_decide (td_index d = i) then bytes (td_arguments_fragment d) else []
  | _ => []
  end.

Lemma item_of_key k l x : item_of k l = Some x → item_key x = k.
Proof. intros [_ H]%List.find_some. by apply bool_decide_eq_true in H. Qed.
Lemma item_of_upsert k k' new f l :
  (∀ x, item_key (f x) = item_key x) → item_key new = k →
  item_of k' (upsert k new f l) = if decide (k = k') then Some (f (default new (item_of k l))) else item_of k' l.
Proof.
  intros Hf Hn. induction l as [|x l IH]; cbn [upsert].
  - cbn. rewrite Hf, Hn. case_decide; [by rewrite bool_decide_eq_true_2|by rewrite bool_decide_eq_false_2].
  - unfold item_of in *. cbn [List.find]. destruct (decide (item_key x = k)) as [Hk|Hk]; cbn [List.find].
    + rewrite Hf, (bool_decide_eq_true_2 (item_key x = k)) by done. rewrite Hk. case_decide as Hkk.
      * by rewrite bool_decide_eq_true_2.
      * by rewrite bool_decide_eq_false_2.
    + rewrite (bool_decide_eq_false_2 (item_key x = k)) by done. rewrite IH. case_bool_decide as Hx; [|done].
      subst k'. by rewrite decide_False.
Qed.
Lemma item_of_snoc k l x : item_key x ≠ k → item_of k (l ++ [x]) = item_of k l.
Proof.
  intros Hx. unfold item_of. induction l as [|y l IH]; cbn; [by rewrite bool_decide_eq_false_2|]. by case_bool_decide.
Qed.

Lemma append_text_key t x : item_key (append_text t x) = item_key x.
Proof. by destruct x. Qed.
Lemma append_refusal_key t x : item_key (append_refusal t x) = item_key x.
Proof. by destruct x. Qed.
Lemma append_summary_key t x : item_key (append_summary t x) = item_key x.
Proof. by destruct x. Qed.
Lemma append_call_key d x : item_key (append_call d x) = item_key x.
Proof. by destruct x. Qed.
Ltac find_upserted :=
  rewrite ?item_of_upsert by (first [done | apply append_text_key | apply append_refusal_key
    | apply append_summary_key | apply append_call_key]).

Lemma message_text_event rid l e : bytes (message_text (assemble_event rid l e)) = bytes (message_text l) ++ sent_text e.
Proof.
  unfold message_text. destruct e; cbn [assemble_event sent_text]; rewrite ?app_nil_r; try done; find_upserted.
  - rewrite decide_True by done. destruct (item_of KMessage l) as [x|] eqn:E; [|done]. apply item_of_key in E.
    destruct x as [[u|] r| | |]; try done. cbn. apply bytes_app.
  - rewrite decide_True by done. destruct (item_of KMessage l) as [x|] eqn:E; [|done]. apply item_of_key in E.
    by destruct x as [[u|] r| | |].
  - done.
  - done.
  - by rewrite item_of_snoc.
Qed.
Lemma call_arguments_event i rid l e :
  bytes (call_arguments i (assemble_event rid l e)) = bytes (call_arguments i l) ++ sent_arguments i e.
Proof.
  unfold call_arguments. destruct e; cbn [assemble_event sent_arguments]; rewrite ?app_nil_r; try done; find_upserted; try done.
  - case_bool_decide as Hi.
    + subst i. rewrite decide_True by done. destruct (item_of _ l) as [x|] eqn:E; [|done]. apply item_of_key in E.
      destruct x; try done. cbn. apply bytes_app.
    + rewrite decide_False by (by intros [=]). by rewrite app_nil_r.
  - by rewrite item_of_snoc.
Qed.
Lemma assemble_view (f : GatewayStreamEvent → list ascii) (g : list Item → string) rid events :
  g [] = "" → (∀ l e, bytes (g (assemble_event rid l e)) = bytes (g l) ++ f e) →
  bytes (g (assemble rid events)) = events ≫= f.
Proof.
  intros H0 Hg. unfold assemble. assert (∀ l, bytes (g (foldl (assemble_event rid) l events)) = bytes (g l) ++ (events ≫= f)) as H.
  { induction events as [|e events IH]; intros l; cbn [foldl]; [by rewrite app_nil_r|]. by rewrite IH, Hg, bind_cons, app_assoc. }
  by rewrite H, H0.
Qed.

Section producer.
Context {seal_primitives : SealPrimitives} {ProviderEvidence TerminalState : Type}.
Context (settings : ProducerSettings) (send_error : list GatewayStreamEvent → option InferenceError)
  (nonce : list GatewayStreamEvent → option (list ascii)).
Abbreviation event :=
  (InferenceEvent ProviderEvidence ProviderContinuationState NormalizedUsage FinishReason TerminalState) (only parsing).
Abbreviation Next := (@Next ProviderEvidence TerminalState) (only parsing).
Abbreviation send_event := (send_event send_error).
Abbreviation send_visible := (send_visible send_error).
Abbreviation handle_event := (@handle_event seal_primitives ProviderEvidence TerminalState settings send_error nonce).
Abbreviation handle_next := (@handle_next seal_primitives ProviderEvidence TerminalState settings send_error nonce).
Abbreviation produce := (@produce seal_primitives ProviderEvidence TerminalState settings send_error nonce).
Abbreviation flush := (@flush ProviderEvidence TerminalState send_error).
Abbreviation finish_stream := (@finish_stream ProviderEvidence TerminalState settings send_error).
Abbreviation run_stream := (@run_stream seal_primitives ProviderEvidence TerminalState settings send_error nonce).

(** ** What steps keep *)

Definition flow_state (f : Flow) : Producer := match f with Continue p | Break p => p end.

(** No terminal event was sent, and what was sent before anything became visible is usage. *)
Definition only_usage (l : list GatewayStreamEvent) : Prop := Forall (λ e, match e with GUsage _ => True | _ => False end) l.
Definition ongoing (p : Producer) : Prop :=
  Forall (λ e, is_final e = false) (pd_sent p) ∧ (pd_visible p = false → only_usage (pd_sent p)).

Lemma send_ongoing e p :
  is_final e = false → ongoing p → ongoing (flow_state (send_visible e p)).
Proof.
  intros He [Hp Hv]. unfold StreamProducer.send_visible, StreamProducer.send_event. destruct (send_error _); [by split|].
  split; cbn; [|done]. apply Forall_app. by repeat constructor.
Qed.
Lemma from_provider_not_final (e : event) g : from_provider e = Some g → is_final g = false.
Proof. by destruct e; intros [= <-]. Qed.

Lemma handle_semantic_ongoing (e : event) p : ongoing p → ongoing (flow_state (handle_semantic send_error e p)).
Proof.
  intros Hp. unfold handle_semantic. case_bool_decide; [done|]. destruct (PiiStreamRecoverer_recover _ e) as [r [emitted|err]]; [|done].
  destruct (emitted ≫= from_provider) as [g|] eqn:E; [|done]. apply send_ongoing; [|done].
  destruct emitted as [e'|]; [|done]. by apply from_provider_not_final in E.
Qed.
Lemma handle_event_ongoing e p : ongoing p → ongoing (flow_state (handle_event e p)).
Proof.
  intros Hp. destruct e; cbn [StreamProducer.handle_event]; try (by apply handle_semantic_ongoing).
  - destruct (continuation_event _ _ _ _) as [g|err] eqn:E; [|done]. apply send_ongoing; [|done].
    unfold continuation_event in E. destruct (_ || _); [done|]. destruct (sp_client_protocol settings); try done.
    + apply bind_Ok in E as (tid & _ & E). apply bind_Ok in E as (enc & _ & [= <-]). done.
    + by injection E as <-.
  - case_bool_decide; [|done]. unfold StreamProducer.send_event. cbn. destruct (send_error _); [done|]. destruct Hp as [Hp Hv].
    split; cbn; [apply Forall_app; by repeat constructor|]. intros H0. apply Forall_app. split; [by apply Hv|by repeat constructor].
  - by case_bool_decide.
Qed.
Lemma produce_ongoing ns p : ongoing p → ongoing (produce ns p).
Proof.
  revert p. induction ns as [|n ns IH]; intros p Hp; [done|]. cbn [StreamProducer.produce].
  assert (ongoing (flow_state (handle_next n p))) as H.
  { destruct n as [[e|err]| | |]; [by apply handle_event_ongoing|done..]. }
  destruct (handle_next n p); [by apply IH|done].
Qed.
Lemma flush_ongoing events p : ongoing p → ongoing (flush events p).
Proof.
  revert p. induction events as [|e events IH]; intros p Hp; [done|]. cbn [StreamProducer.flush].
  destruct (from_provider e) as [g|] eqn:E; [|by apply IH].
  pose proof (send_ongoing g p (from_provider_not_final _ _ E) Hp) as H. destruct (send_visible g p); [by apply IH|done].
Qed.

(** ** The end of a stream *)

Lemma finish_ends p p' completed :
  ongoing p → finish_stream p = (p', completed) →
  if completed then
    pd_error p' = None ∧ ∃ p1 reason, ongoing p1 ∧ pd_finish_reason p = Some reason ∧ pd_error p = None ∧
      (∃ events, PiiStreamRecoverer_finish (pd_pii p) = Ok events ∧ p1 = flush events p ∧ pd_error p1 = None) ∧
      pd_usage p' = pd_usage p1 ∧
      pd_sent p' = pd_sent p1 ++ [GCompleted reason (pd_usage p1) (sp_include_usage settings)]
  else is_Some (pd_error p') ∧ ongoing p'.
Proof.
  intros Hp. unfold StreamProducer.finish_stream. case_bool_decide as He; [by intros [= <- <-]|].
  destruct (pd_finish_reason p) as [reason|] eqn:Er; [|intros [= <- <-]; by split].
  destruct (PiiStreamRecoverer_finish (pd_pii p)) as [events|err] eqn:Ef.
  - pose proof (flush_ongoing events p Hp) as Hp1. set (p1 := flush events p) in *.
    case_bool_decide as He1; [by intros [= <- <-]|]. unfold StreamProducer.send_event.
    destruct (send_error (pd_sent p1)) as [err|]; intros [= <- <-]; cbn.
    + destruct Hp1 as [Hf Hv]. split; [done|]. by split.
    + apply eq_None_not_Some in He, He1. rewrite He1, bool_decide_eq_false_2 by (by intros []). cbn. split; [done|].
      exists p1, reason. split_and!; [done..| |done|done]. by exists events.
  - cbn. intros [= <- <-]. by split.
Qed.

(** C30 A stream sends at most one terminal event and nothing after it.  It reports completion to
    the audit, to the usage ledger and to the circuit exactly when its last event is the
    completion; a failure it has sent is recorded as one, unless the client cancels after it was
    sent; and it counts as not accepted by the provider only when the client has seen nothing
    but usage. *)
Theorem stream_terminal_once pii first ns late later :
  let o := run_stream pii first ns late later in
  ∃ pre, Forall (λ e, is_final e = false) pre ∧
    (so_completed o = true ∧ so_error o = None ∧ so_terminal o = "complete" ∧ so_acceptance o = Accepted ∧
       (∃ reason, so_sent o = pre ++ [GCompleted reason (so_usage o) (sp_include_usage settings)]) ∨
     so_completed o = false ∧ is_Some (so_error o) ∧ so_terminal o ≠ "complete" ∧
       (so_sent o = pre ∨ so_sent o = pre ++ [GFailed] ∧ so_terminal o = if later then "cancelled" else "failed") ∧
       (so_acceptance o = NotAccepted → only_usage pre)).
Proof.
  cbn zeta. unfold StreamProducer.run_stream.
  assert (ongoing (produce (NextItem (Ok first) :: ns) (Producer_new pii))) as Hp by (apply produce_ongoing; split; [|intros _]; constructor).
  destruct (finish_stream _) as [p completed] eqn:E. apply finish_ends in E; [|done]. destruct completed.
  - destruct E as (He & p1 & reason & [Hp1 _] & _ & _ & _ & Hu & Hs). exists (pd_sent p1). split; [done|]. left.
    unfold report_failure. rewrite He, bool_decide_eq_false_2 by (by intros []). cbn. split_and!; [done..|].
    exists reason. by rewrite Hs, Hu.
  - destruct E as [He [Hf Hv]]. exists (pd_sent p). split; [done|]. right.
    assert (∀ q, pd_error q = pd_error p → pd_visible q = pd_visible p →
      (if pd_visible q then PossiblyAccepted else from_option ie_acceptance PossiblyAccepted (pd_error q)) = NotAccepted →
      only_usage (pd_sent p)) as Hacc.
    { intros q _ -> H. apply Hv. by destruct (pd_visible p). }
    unfold report_failure. rewrite bool_decide_eq_true_2 by done. cbn [andb].
    destruct (pd_cancelled p || late) eqn:Ec; cbn [negb].
    + cbn. rewrite Ec. split_and!; [done..| |by apply (Hacc p)]. by left.
    + unfold StreamProducer.send_event. destruct (send_error (pd_sent p)); cbn; rewrite Ec; split_and!; try (by destruct later).
      * by left.
      * by apply (Hacc p).
      * by right.
      * by apply (Hacc p).
Qed.

(** ** What a completed stream has sent *)

Definition is_usage (e : event) : bool := match e with Pii.Usage _ => true | _ => false end.
Definition is_end (e : event) : bool := match e with MessageEnd _ _ => true | _ => false end.
Definition semantic (e : event) : bool :=
  match e with Pii.Usage _ | ProviderContinuation _ | MessageEnd _ _ => false | _ => true end.

(** A reading of the events sent that agrees with a reading of the provider's events. *)
Record view_ok (f : GatewayStreamEvent → list ascii) (g : event → list ascii) : Prop := {
  vw_same : ∀ e x, from_provider e = Some x → f x = g e;
  vw_none : ∀ e, from_provider e = None → g e = [];
  vw_usage : ∀ u, f (GUsage u) = [];
  vw_continuation : ∀ c, f (GReasoningContinuation c) = [];
  vw_anthropic : ∀ c, f (GAnthropicReasoningContinuation c) = [];
}.
Lemma text_view : view_ok sent_text event_text.
Proof. split; try done; intros []; try done; by intros ? [= <-]. Qed.
Lemma arguments_view i : view_ok (sent_arguments i) (event_arguments i).
Proof. split; try done; intros []; try done; by intros ? [= <-]. Qed.

(** What one event of a stream that goes on has done. *)
Definition stepped (e : event) (p p' : Producer) (out : list event) : Prop :=
  pd_error p' = pd_error p ∧
  (if semantic e then ∃ emitted, PiiStreamRecoverer_recover (pd_pii p) e = (pd_pii p', Ok emitted) ∧ out = option_list emitted
   else pd_pii p' = pd_pii p ∧ out = []) ∧
  (∀ f g, view_ok f g → pd_sent p' ≫= f = (pd_sent p ≫= f) ++ (out ≫= g)) ∧
  (if is_usage e then pd_finish_reason p' = pd_finish_reason p
   else pd_finish_reason p = None ∧
     match e with MessageEnd r _ => pd_finish_reason p' = Some r | _ => pd_finish_reason p' = None end).

Lemma send_continue e p p' :
  send_visible e p = Continue p' →
  pd_error p' = pd_error p ∧ pd_pii p' = pd_pii p ∧ pd_finish_reason p' = pd_finish_reason p ∧ pd_sent p' = pd_sent p ++ [e].
Proof.
  unfold StreamProducer.send_visible, StreamProducer.send_event. destruct (send_error _); [done|]. by intros [= <-].
Qed.
Lemma semantic_stepped e p p' :
  semantic e = true → handle_semantic send_error e p = Continue p' → ∃ out, stepped e p p' out.
Proof.
  intros He. unfold handle_semantic. case_bool_decide as Hf; [done|]. apply eq_None_not_Some in Hf.
  destruct (PiiStreamRecoverer_recover (pd_pii p) e) as [r [emitted|err]] eqn:Er; [|done]. intros H. exists (option_list emitted).
  unfold stepped. rewrite He. assert (is_usage e = false) as -> by (by destruct e).
  assert (match e with MessageEnd r _ => pd_finish_reason p' = Some r | _ => pd_finish_reason p' = None end
    ↔ pd_finish_reason p' = None) as -> by (by destruct e).
  destruct (emitted ≫= from_provider) as [g|] eqn:Eg.
  - apply send_continue in H as (E1 & E2 & E3 & E4). cbn in E1, E2, E3, E4. rewrite E1, E2, E3, E4. split_and!; [done|by eexists| |done|done].
    intros f h Hv. destruct emitted as [e'|]; [|done]. cbn in Eg. rewrite bind_app. cbn. by rewrite (vw_same _ _ Hv _ _ Eg).
  - injection H as <-. cbn. split_and!; [done|by eexists| |done|done]. intros f h Hv.
    destruct emitted as [e'|]; cbn; rewrite ?app_nil_r; [|done]. cbn in Eg. by rewrite (vw_none _ _ Hv _ Eg), app_nil_r.
Qed.
Lemma handle_stepped e p p' : handle_event e p = Continue p' → ∃ out, stepped e p p' out.
Proof.
  destruct e; cbn [StreamProducer.handle_event]; try (by apply semantic_stepped).
  - destruct (continuation_event _ _ _ _) as [g|err] eqn:E; [|done]. intros (E1 & E2 & E3 & E4)%send_continue. exists [].
    unfold continuation_event in E. destruct (bool_decide (is_Some (pd_finish_reason p))) eqn:Hf; [done|]. cbn [orb] in E.
    apply bool_decide_eq_false, eq_None_not_Some in Hf. destruct (negb _); [done|].
    unfold stepped. cbn [semantic is_usage]. rewrite E1, E2, E3, E4, Hf. split_and!; [done..| |done|done].
    intros f h Hv. rewrite bind_app, app_nil_r. destruct (sp_client_protocol settings); try done.
    + apply bind_Ok in E as (tid & _ & E). apply bind_Ok in E as (enc & _ & [= <-]). cbn. by rewrite (vw_continuation _ _ Hv), !app_nil_r.
    + injection E as <-. cbn. by rewrite (vw_anthropic _ _ Hv), !app_nil_r.
  - intros H. exists []. unfold stepped. cbn [semantic is_usage]. revert H. case_bool_decide.
    + unfold StreamProducer.send_event. cbn. destruct (send_error _); [done|]. intros [= <-]. cbn. split_and!; [done..| |done].
      intros f h Hv. rewrite bind_app. cbn. by rewrite (vw_usage _ _ Hv), !app_nil_r.
    + intros [= <-]. cbn. split_and!; [done..| |done]. intros f h Hv. by rewrite app_nil_r.
  - intros H. exists []. unfold stepped. cbn [semantic is_usage]. revert H. case_bool_decide as Hf; [done|]. apply eq_None_not_Some in Hf.
    intros [= <-]. cbn. split_and!; [done..| |done|done]. intros f h Hv. by rewrite app_nil_r.
Qed.
Lemma break_error n p p' : handle_next n p = Break p' → is_Some (pd_error p').
Proof.
  assert (∀ e p p', send_visible e p = Break p' → is_Some (pd_error p')) as Hsend.
  { intros e q q'. unfold StreamProducer.send_visible, StreamProducer.send_event. destruct (send_error _); [|done]. by intros [= <-]. }
  assert (∀ (e : event) p p', handle_semantic send_error e p = Break p' → is_Some (pd_error p')) as Hsem.
  { intros e q q'. unfold handle_semantic. case_bool_decide; [by intros [= <-]|].
    destruct (PiiStreamRecoverer_recover _ e) as [r [emitted|err]]; [|by intros [= <-]].
    destruct (emitted ≫= from_provider); [apply Hsend|done]. }
  destruct n as [[e|err]| | |]; cbn [StreamProducer.handle_next]; try (by intros [= <-]).
  destruct e; cbn [StreamProducer.handle_event]; try apply Hsem.
  - destruct (continuation_event _ _ _ _); [apply Hsend|by intros [= <-]].
  - case_bool_decide; [|done]. unfold StreamProducer.send_event. cbn. destruct (send_error _); [by intros [= <-]|done].
  - case_bool_decide; [by intros [= <-]|done].
Qed.

(** The terminal event among those read: none, or one that only usage follows. *)
Definition ends_with (reason : option FinishReason) (events : list event) : Prop :=
  match reason with
  | None => Forall (λ e, is_end e = false) events
  | Some r => ∃ pre t post, events = pre ++ MessageEnd r t :: post ∧ Forall (λ e, is_end e = false) pre ∧
                            Forall (λ e, is_usage e = true) post
  end.

Lemma ends_with_cons reason e events : is_end e = false → ends_with reason events → ends_with reason (e :: events).
Proof.
  intros He. destruct reason as [r|]; [|by constructor].
  intros (pre & t & post & -> & Hpre & Hpost). exists (e :: pre), t, post. split_and!; [done|by constructor|done].
Qed.

(** A stream without an error has read events only, and recovered those of the answer. *)
Lemma produce_trace ns p :
  pd_error (produce ns p) = None →
  ∃ events out, ns = (λ e, NextItem (Ok e)) <$> events ∧
    recover_events (pd_pii p) (filter (λ e, semantic e = true) events) = (pd_pii (produce ns p), Ok out) ∧
    (∀ f g, view_ok f g → pd_sent (produce ns p) ≫= f = (pd_sent p ≫= f) ++ (out ≫= g)) ∧
    match pd_finish_reason p with
    | Some _ => pd_finish_reason (produce ns p) = pd_finish_reason p ∧ Forall (λ e, is_usage e = true) events
    | None => ends_with (pd_finish_reason (produce ns p)) events
    end.
Proof.
  revert p. induction ns as [|n ns IH]; intros p Hok; cbn [StreamProducer.produce] in *.
  - exists [], []. split_and!; [done..| |].
    + intros f g _. by rewrite app_nil_r.
    + destruct (pd_finish_reason p) eqn:E; [done|]. constructor.
  - destruct (handle_next n p) as [p1|p1] eqn:E; [|by apply break_error in E as []; congruence].
    assert (∃ e, n = NextItem (Ok e)) as [e ->].
    { destruct n as [[e|err]| | |]; cbn in E; try done. by exists e. }
    cbn [StreamProducer.handle_next] in E. apply handle_stepped in E as (out1 & _ & Hrec & Hsent & Hfin).
    destruct (IH p1 Hok) as (events & out & -> & Hrest & Hsent' & Hend). exists (e :: events), (out1 ++ out). split_and!; [done| | |].
    + rewrite filter_cons. destruct (semantic e).
      * rewrite decide_True by done. destruct Hrec as (emitted & Er & ->). cbn [recover_events]. by rewrite Er, Hrest.
      * rewrite decide_False by done. destruct Hrec as [<- ->]. exact Hrest.
    + intros f g Hv. by rewrite (Hsent' f g Hv), (Hsent f g Hv), bind_app, app_assoc.
    + destruct (is_usage e) eqn:Eu.
      * rewrite Hfin in Hend. destruct (pd_finish_reason p).
        { destruct Hend as [-> ?]. split; [done|by constructor]. }
        apply ends_with_cons; [by destruct e|done].
      * destruct Hfin as [-> Hfin]. destruct (is_end e) eqn:Ee.
        { destruct e as [| | | | | | |r t]; try done. rewrite Hfin in Hend. destruct Hend as [-> Hend]. exists [], t, events. by split_and!. }
        apply ends_with_cons; [done|]. assert (pd_finish_reason p1 = None) as E1 by (by destruct e). by rewrite E1 in Hend.
Qed.

Lemma flush_sent events p :
  pd_error (flush events p) = None →
  ∀ f g, view_ok f g → pd_sent (flush events p) ≫= f = (pd_sent p ≫= f) ++ (events ≫= g).
Proof.
  intros Hok f g Hv. revert p Hok. induction events as [|e events IH]; intros p Hok; cbn [StreamProducer.flush] in *.
  - cbn. by rewrite app_nil_r.
  - rewrite bind_cons. destruct (from_provider e) as [x|] eqn:E.
    + destruct (send_visible x p) as [p1|p1] eqn:Es.
      * rewrite IH by done. apply send_continue in Es as (_ & _ & _ & ->). rewrite bind_app. cbn.
        by rewrite (vw_same _ _ Hv _ _ E), app_nil_r, app_assoc.
      * exfalso. unfold StreamProducer.send_visible, StreamProducer.send_event in Es. destruct (send_error _); [|done].
        injection Es as <-. done.
    + rewrite IH by done. by rewrite (vw_none _ _ Hv _ E).
Qed.

Lemma filter_semantic (g : event → list ascii) events :
  (∀ e, semantic e = false → g e = []) → filter (λ e, semantic e = true) events ≫= g = events ≫= g.
Proof.
  intros Hg. induction events as [|e events IH]; [done|]. rewrite filter_cons, bind_cons.
  destruct (semantic e) eqn:E; [by rewrite decide_True, bind_cons, IH|]. by rewrite decide_False, (Hg e E), IH.
Qed.

Section recovery.
Context {detector : PiiDetector} {laws : PiiDetectorLaws detector} {mac : PiiMac}.
Context {ImageSource Role ItemStatus : Type}.

(** What a completed stream has read and sent. *)
Lemma completed_stream p key pii first ns late later :
  @reachable detector mac ImageSource Role ItemStatus p key pii → pf_unresolved (ps_profile pii) = LeaveMasked →
  so_completed (run_stream pii first ns late later) = true →
  ∃ events reason pre, NextItem (Ok first) :: ns = (λ e, NextItem (Ok e)) <$> events ∧ ends_with (Some reason) events ∧
    Forall (λ e, is_final e = false) pre ∧
    so_sent (run_stream pii first ns late later) =
      pre ++ [GCompleted reason (so_usage (run_stream pii first ns late later)) (sp_include_usage settings)] ∧
    (recover_text (of_bytes (events ≫= event_text)) pii).2 = Ok (of_bytes (pre ≫= sent_text)) ∧
    ∀ i, (recover_text (of_bytes (events ≫= event_arguments i)) pii).2 = Ok (of_bytes (pre ≫= sent_arguments i)).
Proof.
  intros Hr Hleave. assert (dictionary_ok (dictionary pii)) as Hm by by eapply session_dictionary, reachable_wf.
  unfold StreamProducer.run_stream. set (ns' := NextItem (Ok first) :: ns). set (p0 := Producer_new pii).
  assert (ongoing (produce ns' p0)) as Hp by (apply produce_ongoing; split; [|intros _]; constructor).
  destruct (finish_stream (produce ns' p0)) as [p' completed] eqn:E. cbn [so_completed]. intros ->.
  apply finish_ends in E as (He & p1 & reason & [Hp1 _] & Hreason & Hok & (rest & Hfin & -> & Hok1) & Hu & Hs); [|done].
  destruct (produce_trace ns' p0 Hok) as (events & out & Hns & Hrec & Hsent & Hend). rewrite Hreason in Hend. cbn [p0 Producer_new pd_finish_reason] in Hend.
  exists events, reason, (pd_sent (flush rest (produce ns' p0))). cbn [so_sent so_usage].
  unfold report_failure. rewrite He, bool_decide_eq_false_2 by (by intros []). cbn [andb]. rewrite Hs, Hu.
  destruct (stream_whole pii (filter (λ e, semantic e = true) events) Hm Hleave) as (all & Hall & Ht & Ha & _).
  unfold recover_stream in Hall. cbn [pd_pii p0 Producer_new] in Hrec. rewrite Hrec in Hall. cbv beta iota in Hall.
  apply bind_Ok in Hall as (o & [= <-] & Hall). apply bind_Ok in Hall as (rest' & Hf & [= <-]). rewrite Hfin in Hf. injection Hf as <-.
  assert (∀ f g, view_ok f g → pd_sent (flush rest (produce ns' p0)) ≫= f = (out ++ rest) ≫= g) as Hview.
  { intros f g Hv. rewrite (flush_sent rest _ Hok1 f g Hv), (Hsent f g Hv), bind_app. done. }
  split_and!; [done..| |].
  - rewrite <- (filter_semantic event_text) by (by intros []). by rewrite Ht, (Hview _ _ text_view).
  - intros i. rewrite <- (filter_semantic (event_arguments i)) by (by intros []). by rewrite Ha, (Hview _ _ (arguments_view i)).
Qed.

(** C16 When a stream whose profile leaves unresolved tokens masked is completed for a client of
    the Responses protocol within its limit, the provider's stream had exactly one terminal event that only usage followed, and the final
    response holds the provider's answer with personal data restored: the text of its message
    is what recovering the whole text of the provider gives, and so are the arguments of each
    of its function calls. *)
Theorem client_reads_recovered {display : JsonDisplay} {from_slice : list ascii → option Json} p key pii first ns late later enc request s' frames :
  @reachable detector mac ImageSource Role ItemStatus p key pii → pf_unresolved (ps_profile pii) = LeaveMasked →
  es_protocol enc = OpenAiResponses → es_responses_metadata enc = ResponsesResponseMetadata_from request →
  let o := run_stream pii first ns late later in
  so_completed o = true → (N.of_nat (length (so_sent o)) ≤ u32_max)%N →
  @deliver display from_slice (so_sent o) (ClientStreamEncoder_new enc) = (s', frames) → exceeded s' = false →
  ∃ events reason items, NextItem (Ok first) :: ns = (λ e, NextItem (Ok e)) <$> events ∧ ends_with (Some reason) events ∧
    final_output frames = Some (rendered (es_request_id enc) items) ∧
    (recover_text (of_bytes (events ≫= event_text)) pii).2 = Ok (message_text items) ∧
    ∀ i, (recover_text (of_bytes (events ≫= event_arguments i)) pii).2 = Ok (call_arguments i items).
Proof.
  intros Hr Hleave Hp Hmeta o Hc Hlen E Hx.
  destruct (completed_stream p key pii first ns late later Hr Hleave Hc) as (events & reason & pre & Hns & Hend & Hpre & Hsent & Ht & Ha).
  change (run_stream pii first ns late later) with o in Hsent. rewrite Hsent in E, Hlen. rewrite length_app in Hlen.
  apply (deliver_final [] (ClientStreamEncoder_new enc) request) in E as [Hout _]; try done; [| |cbn; lia].
  2: { split; cbn; [lia|done]. }
  exists events, reason, (assemble (es_request_id enc) pre). split_and!; [done..| |].
  - rewrite Ht, <- (assemble_view sent_text message_text (es_request_id enc) pre eq_refl (message_text_event _)). by rewrite of_bytes_bytes.
  - intros i. rewrite Ha, <- (assemble_view (sent_arguments i) (call_arguments i) (es_request_id enc) pre eq_refl (call_arguments_event i _)).
    by rewrite of_bytes_bytes.
Qed.
End recovery.
End producer.
