(* ===== verification/StreamExamples.v ===== *)
(** * Examples on streams

    Concrete streams for the theorems, and streams in which the frames do not fit the protocol
    of the client. *)

From Stdlib Require Import Ascii.
From S2P Require Import Prelude RustStr JsonTree JsonText InferenceError LlmError Usage ReasoningSeal ReasoningSealExamples Pii PiiSubstitution PiiFacts PiiStream PiiExamples StreamEncoder StreamEncoderFacts StreamOutput StreamProducer StreamProducerFacts.

(** The compact text of a JSON value with unsigned numbers. *)
Definition commas (l : list string) : string := String.concat "," l.
Fixpoint compact (v : Json) : string :=
  match v with
  | JNull => "null"
  | JBool b => if b then "true" else "false"
  | JNumber (PosInt n) => dec n
  | JNumber _ => "0"
  | JString s => json_string s
  | JArray l => "[" +:+ commas (compact <$> l) +:+ "]"
  | JObject m => "{" +:+ commas ((λ x, json_string x.1 +:+ ":" +:+ compact x.2) <$> m) +:+ "}"
  end.
#[local] Instance compact_display : JsonDisplay := compact.
#[local] Existing Instance pattern_detector.
#[local] Existing Instance pattern_laws.
#[local] Existing Instance sample_mac.
#[local] Existing Instance SealInstance.prims.

Definition sample_settings (protocol : ClientProtocol) (limit : N) : EncoderSettings :=
  {| es_protocol := protocol; es_request_id := "r"; es_alias := "m"; es_created_at := 0; es_max_response_bytes := limit;
     es_responses_metadata := ResponsesResponseMetadata_from JNull |}.
Definition sample_call (id : option string) (arguments : string) : ToolCallDelta :=
  {| td_index := 0; td_id := id; td_name := None; td_arguments_fragment := arguments |}.

Definition no_turns (_ : list ascii) : option Json := Some (obj [("turns", JArray [])]).
Definition frames_of (protocol : ClientProtocol) (limit : N) (events : list GatewayStreamEvent) : ClientStreamEncoder * list Frame :=
  deliver (from_slice := no_turns) events (ClientStreamEncoder_new (sample_settings protocol limit)).

(** ** The limit *)

Lemma responses_frames_bounded_witness :
  ∃ good k, numbered 0 good ∧ (total_bytes good ≤ 1200)%N ∧
    (frames_of OpenAiResponses 1200 [GTextDelta "a"; GTextDelta "b"; GTextDelta "c"; GFailed]).2
    = good ++ [limit_frame (sample_settings OpenAiResponses 1200) k].
Proof.
  set (events := [GTextDelta "a"; GTextDelta "b"; GTextDelta "c"; GFailed]).
  destruct (frames_of OpenAiResponses 1200 events) as [s' frames] eqn:E.
  assert (exceeded (frames_of OpenAiResponses 1200 events).1 = true) as Hx by (vm_compute; reflexivity). rewrite E in Hx. cbn in Hx.
  destruct (responses_frames_bounded (from_slice := no_turns) (sample_settings OpenAiResponses 1200) events s' frames eq_refl E)
    as (good & Hn & Hb & [[Hs _]|[_ (k & _ & Hf)]]); [congruence|].
  exists good, k. split; [exact Hn|]. split; [exact Hb|exact Hf].
Defined.

(** ** The final response *)

Definition sample_stream : list GatewayStreamEvent :=
  [GToolCallDelta (sample_call (Some "c1") "{"); GTextDelta "he"; GReasoningSummaryDelta 3 "why"; GTextDelta "llo";
   GToolCallDelta (sample_call None "}"); GReasoningContinuation "sealed"].
Lemma final_response_assembled_witness :
  final_output (frames_of OpenAiResponses 100000 (sample_stream ++ [GCompleted Stop None false])).2
  = Some (rendered "r" [CallOut 0 "c1" "" "{}"; MessageOut (Some "hello") None; SummaryOut 3 "why"; ContinuationOut "sealed"]).
Proof.
  destruct (frames_of OpenAiResponses 100000 (sample_stream ++ [GCompleted Stop None false])) as [s' frames] eqn:E.
  assert (exceeded (frames_of OpenAiResponses 100000 (sample_stream ++ [GCompleted Stop None false])).1 = false) as Hx
    by (vm_compute; reflexivity). rewrite E in Hx. cbn in Hx.
  destruct (final_response_assembled (from_slice := no_turns) (sample_settings OpenAiResponses 100000) JNull sample_stream Stop None false s' frames)
    as [Hout _]; [reflexivity|reflexivity|repeat constructor|vm_compute; discriminate|exact E|exact Hx|]. exact Hout.
Defined.

(** ** A stream with personal data *)

Definition sample_producer : ProducerSettings :=
  {| sp_client_protocol := OpenAiResponses; sp_tenant_id := Some "t"; sp_alias := "m"; sp_deployment_id := "d";
     sp_material_generation := 1; sp_include_usage := false;
     sp_sealer := {| sl_state := StateDisabled; sl_key_set_generation := 0; sl_limits := ReasoningStateLimits_default;
                     sl_current_key_id := None; sl_keys := ∅ |} |}.
Definition provider_event : Type := InferenceEvent unit ProviderContinuationState NormalizedUsage FinishReason unit.
Definition provider_events : list provider_event :=
  [MessageStart (); TextDelta "for [[PII:v1:email:6f632e6";
   ToolCallDeltaEvent (sample_call (Some "c") "[[PII:v1:us_ssn:393837362d35342d3332");
   TextDelta "2406101000000000000006c69]]!"; ToolCallDeltaEvent (sample_call None "310200000000]]"); MessageEnd Stop ();
   Pii.Usage usage_default].
Definition sample_outcome : StreamOutcome :=
  run_stream sample_producer (λ _, None) (λ _, None) masked_session (MessageStart ())
    ((λ e, NextItem (Ok e)) <$> drop 1 provider_events) false false.

Lemma client_reads_recovered_witness :
  ∃ items, final_output (frames_of OpenAiResponses 100000 (so_sent sample_outcome)).2 = Some (rendered "r" items) ∧
    message_text items = "for a@b.co!" ∧ call_arguments 0 items = "123-45-6789".
Proof.
  destruct (frames_of OpenAiResponses 100000 (so_sent sample_outcome)) as [s' frames] eqn:E.
  assert (exceeded (frames_of OpenAiResponses 100000 (so_sent sample_outcome)).1 = false) as Hx by (vm_compute; reflexivity).
  rewrite E in Hx. cbn in Hx.
  destruct (client_reads_recovered (from_slice := no_turns) sample_producer (λ _, None) (λ _, None) sample_profile (bytes "k") masked_session (MessageStart ())
    ((λ e, NextItem (Ok e)) <$> drop 1 provider_events) false false (sample_settings OpenAiResponses 100000) JNull s' frames
    masked_session_reachable) as (events & reason & items & Hev & _ & Hout & Ht & Ha);
    [reflexivity|reflexivity|reflexivity|vm_compute; reflexivity|vm_compute; discriminate|exact E|exact Hx|].
  exists items. split; [exact Hout|].
  assert (events = provider_events) as ->.
  { assert (Inj eq eq (λ e : provider_event, NextItem (Ok e))) as Hinj by (by intros a b [=]).
    symmetry. apply (list_fmap_eq_inj _ Hinj). exact Hev. }
  specialize (Ha 0%N). assert (∀ a b : string, @Ok LlmGatewayError string a = Ok b → b = a) as Hok by (by intros a b [=]).
  split; [rewrite (Hok _ _ Ht)|rewrite (Hok _ _ Ha)]; vm_compute; reflexivity.
Defined.

(** ** Frames that do not fit the protocol *)

(** A continuation closes the block of the text; text that follows is sent for the closed
    block, which is not started again. *)
Definition frame_name (f : Frame) : option (string * option Json) :=
  match f with Sse (Some name) data => Some (name, get "index" data) | _ => None end.
Example text_after_closed_block :
  omap frame_name (frames_of AnthropicMessages 100000
    [GTextDelta "a"; GAnthropicReasoningContinuation {| cs_protocol := PAnthropicMessages; cs_payload := [] |}; GTextDelta "b"]).2
  = [("message_start", None); ("content_block_start", Some (num 0)); ("content_block_delta", Some (num 0));
     ("content_block_stop", Some (num 0)); ("content_block_delta", Some (num 0))].
Proof. vm_compute. reflexivity. Qed.

(** A refusal before the first text: the message is announced twice, and both of its parts
    have the content index 0, while the refusal goes on under the index 1. *)
Definition announced (f : Frame) : option (string * option Json * option Json) :=
  match f with
  | Sse (Some name) data =>
      if bool_decide (name ∈ ["response.output_item.added"; "response.content_part.added"; "response.refusal.delta"])
      then Some (name, get "output_index" data, get "content_index" data) else None
  | _ => None
  end.
Example message_announced_twice :
  omap announced (frames_of OpenAiResponses 100000 [GRefusalDelta "n"; GTextDelta "a"; GRefusalDelta "o"]).2
  = [("response.output_item.added", Some (num 0), None); ("response.content_part.added", Some (num 0), Some (num 0));
     ("response.refusal.delta", Some (num 0), Some (num 0));
     ("response.output_item.added", Some (num 0), None); ("response.content_part.added", Some (num 0), Some (num 0));
     ("response.refusal.delta", Some (num 0), Some (num 1))].
Proof. vm_compute. reflexivity. Qed.

(** The limit is not applied to the other protocols. *)
Example chat_not_limited :
  (10 <? total_bytes (frames_of OpenAiChat 10 [GTextDelta "a"; GTextDelta "b"]).2)%N = true.
Proof. vm_compute. reflexivity. Qed.
