(* ===== verification/Deployment.v ===== *)
(** * Deployments and the requests they serve

    Model of the deployments, aliases and snapshots of
    [crates/llm-gateway/src/runtime/snapshot.rs], of the requests and responses of
    [crates/model-provider/src/inference], and of the capabilities a conformance result
    proves ([crates/model-provider/src/conformance/runner.rs]).  What a deployment shares
    between requests, its readiness, circuit and permits, is not here but in the state of
    the component that runs requests.  The digest of a conformance result is a parameter. *)

From Stdlib Require Import Ascii SpecFloat.
From S2P Require Import Prelude RustStr JsonTree RustF64 InferenceError LlmError Usage ReasoningSeal Pii StreamEncoder.
From S2P Require Import LlmAuthorization AuditWal.

(** ** Requests and responses *)

Inductive Operation := OpGenerate | OpEmbed.
#[export] Instance Operation_eq_dec : EqDecision Operation.
Proof. solve_decision. Defined.
#[export] Program Instance Operation_countable : Countable Operation :=
  inj_countable' (λ o, match o with OpGenerate => true | OpEmbed => false end)
    (λ b : bool, if b then OpGenerate else OpEmbed) _.
Next Obligation. by intros []. Qed.

#[export] Instance ProviderProtocol_eq_dec : EqDecision ProviderProtocol.
Proof. solve_decision. Defined.
#[export] Instance ClientProtocol_eq_dec : EqDecision ClientProtocol.
Proof. solve_decision. Defined.
Definition protocol_operation (p : ProviderProtocol) : Operation :=
  match p with
  | POpenAiChat | POpenAiResponses | PAnthropicMessages | PBedrockConverse => OpGenerate
  | POpenAiEmbeddings => OpEmbed
  end.

Inductive Role := System | User | Assistant | Tool.
#[export] Instance Role_eq_dec : EqDecision Role.
Proof. solve_decision. Defined.
Record ImageSource := { im_url : string; im_media_type : option string }.
Inductive ItemStatus := InProgress | ItemCompleted | Incomplete.
Inductive TerminalState := TerminalComplete | TerminalCancelled | TerminalFailed.

Record ToolDefinition := { tf_name : string; tf_description : string; tf_input_schema : Json }.
Inductive ToolChoice := ChoiceAuto | ChoiceNone | ChoiceRequired | ChoiceTool (name : string).
Inductive ResponseFormat :=
| FormatText | FormatJsonObject | FormatJsonSchema (name : string) (schema : Json) (strict : option bool).
Record SamplingOptions := {
  so_temperature : option spec_float; so_top_p : option spec_float; so_stop : list string;
}.
Record ReasoningOptions := { ro_effort : option string; ro_summary : option string }.
Definition ReasoningOptions_default : ReasoningOptions := {| ro_effort := None; ro_summary := None |}.

Record InferenceRequest := {
  rq_model : string;
  rq_messages : list (Message ImageSource Role);
  rq_tools : list ToolDefinition;
  rq_tool_choice : option ToolChoice;
  rq_response_format : option ResponseFormat;
  rq_parallel_tool_calls : bool;
  rq_reasoning : option ReasoningOptions;
  rq_sampling : SamplingOptions;
  rq_max_output_tokens : option N;
  rq_extensions : list (string * Json);
  rq_provider_continuation : option ProviderContinuationState;
}.
Definition set_model (model : string) (r : InferenceRequest) : InferenceRequest :=
  {| rq_model := model; rq_messages := rq_messages r; rq_tools := rq_tools r; rq_tool_choice := rq_tool_choice r;
     rq_response_format := rq_response_format r; rq_parallel_tool_calls := rq_parallel_tool_calls r;
     rq_reasoning := rq_reasoning r; rq_sampling := rq_sampling r; rq_max_output_tokens := rq_max_output_tokens r;
     rq_extensions := rq_extensions r; rq_provider_continuation := rq_provider_continuation r |}.
Definition set_messages (messages : list (Message ImageSource Role)) (r : InferenceRequest) : InferenceRequest :=
  {| rq_model := rq_model r; rq_messages := messages; rq_tools := rq_tools r; rq_tool_choice := rq_tool_choice r;
     rq_response_format := rq_response_format r; rq_parallel_tool_calls := rq_parallel_tool_calls r;
     rq_reasoning := rq_reasoning r; rq_sampling := rq_sampling r; rq_max_output_tokens := rq_max_output_tokens r;
     rq_extensions := rq_extensions r; rq_provider_continuation := rq_provider_continuation r |}.
Definition set_reasoning (o : option ReasoningOptions) (r : InferenceRequest) : InferenceRequest :=
  {| rq_model := rq_model r; rq_messages := rq_messages r; rq_tools := rq_tools r; rq_tool_choice := rq_tool_choice r;
     rq_response_format := rq_response_format r; rq_parallel_tool_calls := rq_parallel_tool_calls r;
     rq_reasoning := o; rq_sampling := rq_sampling r; rq_max_output_tokens := rq_max_output_tokens r;
     rq_extensions := rq_extensions r; rq_provider_continuation := rq_provider_continuation r |}.
Definition set_continuation (c : option ProviderContinuationState) (r : InferenceRequest) : InferenceRequest :=
  {| rq_model := rq_model r; rq_messages := rq_messages r; rq_tools := rq_tools r; rq_tool_choice := rq_tool_choice r;
     rq_response_format := rq_response_format r; rq_parallel_tool_calls := rq_parallel_tool_calls r;
     rq_reasoning := rq_reasoning r; rq_sampling := rq_sampling r; rq_max_output_tokens := rq_max_output_tokens r;
     rq_extensions := rq_extensions r; rq_provider_continuation := c |}.

Record ProviderEvidence := {
  pe_request_id : option string;
  pe_physical_model : option string;
  pe_api_version : option string;
  pe_raw_finish_reason : option string;
  pe_continuation : option ProviderContinuationState;
}.
Record InferenceResponse := {
  rp_output : list (GenerateOutputItem ImageSource Role ItemStatus);
  rp_finish_reason : FinishReason;
  rp_usage : option NormalizedUsage;
  rp_evidence : ProviderEvidence;
  rp_terminal_state : TerminalState;
}.
Definition set_output (output : list (GenerateOutputItem ImageSource Role ItemStatus)) (r : InferenceResponse) :
    InferenceResponse :=
  {| rp_output := output; rp_finish_reason := rp_finish_reason r; rp_usage := rp_usage r;
     rp_evidence := rp_evidence r; rp_terminal_state := rp_terminal_state r |}.

(** ** Capabilities *)

Record ContentCapabilities := {
  cc_text : bool; cc_images : bool; cc_tools : bool; cc_parallel_tools : bool;
  cc_structured_json : bool; cc_reasoning_usage : bool;
}.
Record GenerationCapabilities := { gc_content : ContentCapabilities; gc_streaming : bool }.

Inductive EmbeddingEncoding := EncodingFloat | EncodingBase64.
Inductive EmbeddingNormalization := NormalizationNone | NormalizationL2.
Inductive EmbeddingDistanceMetric := Cosine | InnerProduct | L2.
Record EmbeddingSpaceContract := {
  sc_space_id : string;
  sc_revision : N;
  sc_dimension : N;
  sc_normalization : EmbeddingNormalization;
  sc_distance_metric : EmbeddingDistanceMetric;
  sc_document_input_transform_version : string;
}.
Record EmbeddingCapabilities := {
  em_max_batch_items : N;
  em_max_input_tokens_per_item : N;
  em_max_aggregate_input_tokens : N;
  em_supported_dimensions : gset N;
  em_supported_encodings : list EmbeddingEncoding;
  em_max_response_bytes : N;
  em_space : option EmbeddingSpaceContract;
}.
Record ProviderCapabilities := {
  pv_operations : gset Operation;
  pv_generation : option GenerationCapabilities;
  pv_embedding : option EmbeddingCapabilities;
}.
Definition ProviderCapabilities_supports (c : ProviderCapabilities) (operation : Operation) : bool :=
  bool_decide (operation ∈ pv_operations c)
  && match operation with
     | OpGenerate => bool_decide (is_Some (pv_generation c))
     | OpEmbed => bool_decide (is_Some (pv_embedding c))
     end.

Inductive FixtureProvenance := SyntheticSpecDerived | CapturedSanitized.
#[export] Instance FixtureProvenance_eq_dec : EqDecision FixtureProvenance.
Proof. solve_decision. Defined.
Inductive ConformanceCapability :=
| CapGenerate | CapEmbed | CapText | CapImages | CapTools | CapParallelTools | CapStructuredJson
| CapReasoningUsage | CapStreaming.
#[export] Instance ConformanceCapability_eq_dec : EqDecision ConformanceCapability.
Proof. solve_decision. Defined.
Inductive ConformanceState := Pass | Fail | Quarantined.
#[export] Instance ConformanceState_eq_dec : EqDecision ConformanceState.
Proof. solve_decision. Defined.

Record CapabilityRequirements := {
  cr_operation : Operation;
  cr_images : bool;
  cr_tools : bool;
  cr_parallel_tools : bool;
  cr_structured_json : bool;
  cr_reasoning : bool;
  cr_streaming : bool;
  cr_required_provenance : option FixtureProvenance;
}.
Definition set_required_provenance (p : option FixtureProvenance) (r : CapabilityRequirements) :
    CapabilityRequirements :=
  {| cr_operation := cr_operation r; cr_images := cr_images r; cr_tools := cr_tools r;
     cr_parallel_tools := cr_parallel_tools r; cr_structured_json := cr_structured_json r;
     cr_reasoning := cr_reasoning r; cr_streaming := cr_streaming r; cr_required_provenance := p |}.
(** The set, in the order of its elements. *)
Definition required_attestations (r : CapabilityRequirements) : list ConformanceCapability :=
  (match cr_operation r with OpGenerate => [CapGenerate] | OpEmbed => [CapEmbed] end)
  ++ (if cr_images r then [CapImages] else []) ++ (if cr_tools r then [CapTools] else [])
  ++ (if cr_parallel_tools r then [CapParallelTools] else [])
  ++ (if cr_structured_json r then [CapStructuredJson] else [])
  ++ (if cr_reasoning r then [CapReasoningUsage] else [])
  ++ (if cr_streaming r then [CapStreaming] else []).

(** A conformance result; [cf_rest] stands for the members nothing here reads. *)
Record ConformanceResult {Rest : Type} := {
  cf_provider : ProviderProtocol;
  cf_capabilities : ProviderCapabilities;
  cf_capability_evidence : list (ConformanceCapability * list FixtureProvenance);
  cf_state : ConformanceState;
  cf_valid_until : DateTime;
  cf_digest : string;
  cf_rest : Rest;
}.
Arguments ConformanceResult : clear implicits.

Section conformance.
Context {Rest : Type}.
Class ConformanceDigest := digest_serializable : ConformanceResult Rest → string.
Context {digest : ConformanceDigest}.

Definition clear_digest (r : ConformanceResult Rest) : ConformanceResult Rest :=
  {| cf_provider := cf_provider r; cf_capabilities := cf_capabilities r;
     cf_capability_evidence := cf_capability_evidence r; cf_state := cf_state r;
     cf_valid_until := cf_valid_until r; cf_digest := ""; cf_rest := cf_rest r |}.
Definition verify_digest (r : ConformanceResult Rest) : bool :=
  bool_decide (digest_serializable (clear_digest r) = cf_digest r).
Definition is_current_and_passing (r : ConformanceResult Rest) (now : DateTime) : bool :=
  bool_decide (cf_state r = Pass) && (now <? cf_valid_until r)%Z && verify_digest r.
Definition capability_has_provenance (r : ConformanceResult Rest) (capability : ConformanceCapability)
    (provenance : FixtureProvenance) : bool :=
  match List.find (λ x, bool_decide (x.1 = capability)) (cf_capability_evidence r) with
  | Some evidence => bool_decide (provenance ∈ evidence.2)
  | None => false
  end.

(** [generation.is_some_and(|value| value.content...)]. *)
Definition generation_has (f : GenerationCapabilities → bool) (g : option GenerationCapabilities) : bool :=
  match g with Some value => f value | None => false end.
Definition satisfied_by (required : CapabilityRequirements) (r : ConformanceResult Rest) : bool :=
  let generation := pv_generation (cf_capabilities r) in
  ProviderCapabilities_supports (cf_capabilities r) (cr_operation required)
  && (negb (cr_images required) || generation_has (λ v, cc_images (gc_content v)) generation)
  && (negb (cr_tools required) || generation_has (λ v, cc_tools (gc_content v)) generation)
  && (negb (cr_parallel_tools required) || generation_has (λ v, cc_parallel_tools (gc_content v)) generation)
  && (negb (cr_structured_json required) || generation_has (λ v, cc_structured_json (gc_content v)) generation)
  && (negb (cr_reasoning required)
      || (bool_decide (cf_provider r = POpenAiResponses)
          && generation_has (λ v, cc_reasoning_usage (gc_content v)) generation))
  && (negb (cr_streaming required) || generation_has gc_streaming generation)
  && match cr_required_provenance required with
     | None => true
     | Some provenance =>
         forallb (λ capability, capability_has_provenance r capability provenance) (required_attestations required)
     end.
Definition satisfies (r : ConformanceResult Rest) (required : CapabilityRequirements) (now : DateTime) : bool :=
  is_current_and_passing r now && satisfied_by required r.
End conformance.

(** ** The policy of a Bedrock deployment *)

Inductive SamplingParameterPolicy :=
| SamplingUnsupported | SamplingRange (minimum maximum : spec_float) | SamplingFixed (value : spec_float).
Inductive ReasoningMode := ReasoningUnsupported | OptionalAdaptive | AlwaysOnAdaptive.
Record BedrockDeploymentPolicy := {
  bp_temperature : SamplingParameterPolicy;
  bp_top_p : SamplingParameterPolicy;
  bp_allow_temperature_and_top_p : bool;
  bp_mode : ReasoningMode;
  bp_supported_efforts : gset string;
}.
Definition is_finite (x : spec_float) : bool :=
  match x with S754_zero _ | S754_finite _ _ _ => true | _ => false end.
(** [f64::EPSILON]. *)
Definition f64_epsilon : spec_float := f64_of_bits 4372995238176751616.
Definition validate_sampling_parameter (name : string) (supplied : option spec_float)
    (policy : SamplingParameterPolicy) : result LlmGatewayError unit :=
  match supplied with
  | None => Ok ()
  | Some value =>
      let valid :=
        match policy with
        | SamplingUnsupported => false
        | SamplingRange minimum maximum => is_finite value && f64_leb minimum value && f64_leb value maximum
        | SamplingFixed fixed =>
            is_finite value && f64_leb (SFabs (SFsub prec emax value fixed)) f64_epsilon
        end in
      if valid then Ok ()
      else Err (UnsupportedCapability (name +:+ " is not accepted by the selected deployment"))
  end.

(** ** Deployments *)

(** [CompiledProvider]: which operation it performs, and in which protocol. *)
Inductive CompiledProvider := Generation (protocol : ProviderProtocol) | Embedding (protocol : ProviderProtocol).
Definition provider_protocol_of (p : CompiledProvider) : ProviderProtocol :=
  match p with Generation protocol | Embedding protocol => protocol end.
Definition provider_operation (p : CompiledProvider) : Operation :=
  match p with Generation _ => OpGenerate | Embedding _ => OpEmbed end.

Section deployments.
Context {Rest : Type} {digest : ConformanceDigest (Rest:=Rest)}.

Record DeploymentRuntime := {
  dp_id : string;
  dp_model : string;
  dp_provider : CompiledProvider;
  dp_provider_client_generation : N;
  dp_audit_transport : AuditTransportContext;
  dp_capabilities : ProviderCapabilities;
  dp_conformance_result : option (ConformanceResult Rest);
  dp_required_conformance_provenance : option FixtureProvenance;
  dp_request_timeout_ms : N;
  dp_prices : gmap Operation OperationPrice;
  dp_bedrock_policy : option BedrockDeploymentPolicy;
}.

(** The effort a request asks for is one the deployment has. *)
Definition check_effort (policy : BedrockDeploymentPolicy) (request : InferenceRequest) :
    result LlmGatewayError unit :=
  match rq_reasoning request ≫= ro_effort with
  | Some effort =>
      if bool_decide (effort ∈ bp_supported_efforts policy) then Ok ()
      else Err (UnsupportedCapability
             ("reasoning effort `" +:+ effort +:+ "` is not supported by the selected deployment"))
  | None => Ok ()
  end.
Definition prepare_generate_request (d : DeploymentRuntime) (request : InferenceRequest)
    (client_protocol : ClientProtocol) : result LlmGatewayError InferenceRequest :=
  if negb (bool_decide (provider_protocol_of (dp_provider d) = PBedrockConverse)) then Ok request else
  policy ← ok_or (UnsupportedCapability "Bedrock deployment has no typed request policy") (dp_bedrock_policy d);
  _ ← validate_sampling_parameter "temperature" (so_temperature (rq_sampling request)) (bp_temperature policy);
  _ ← validate_sampling_parameter "top_p" (so_top_p (rq_sampling request)) (bp_top_p policy);
  _ ← (if bool_decide (is_Some (so_temperature (rq_sampling request)))
          && bool_decide (is_Some (so_top_p (rq_sampling request)))
          && negb (bp_allow_temperature_and_top_p policy)
       then Err (UnsupportedCapability "selected deployment does not allow temperature and top_p together")
       else Ok ());
  request ←
    match bp_mode policy with
    | ReasoningUnsupported =>
        if bool_decide (is_Some (rq_reasoning request)) || bool_decide (is_Some (rq_provider_continuation request))
        then Err (UnsupportedCapability "selected deployment does not support reasoning continuation")
        else Ok request
    | AlwaysOnAdaptive =>
        if bool_decide (client_protocol = OpenAiChat)
        then Err (UnsupportedCapability "always-on reasoning is not available through Chat Completions")
        else match rq_reasoning request with
             | None => Ok (set_reasoning (Some ReasoningOptions_default) request)
             | Some _ => Ok request
             end
    | OptionalAdaptive => Ok request
    end;
  _ ← check_effort policy request;
  Ok request.

Definition generation_price (d : DeploymentRuntime) : option GenerationPrice :=
  match dp_prices d !! OpGenerate with Some (Generate price) => Some price | _ => None end.
Definition embedding_price (d : DeploymentRuntime) : option EmbeddingPrice :=
  match dp_prices d !! OpEmbed with Some (Embed price) => Some price | _ => None end.

(** What [supports] and [supports_static] both ask of the capabilities. *)
Definition content_supported (d : DeploymentRuntime) (required : CapabilityRequirements) : bool :=
  let generation := pv_generation (dp_capabilities d) in
  (negb (cr_images required) || generation_has (λ v, cc_images (gc_content v)) generation)
  && (negb (cr_tools required) || generation_has (λ v, cc_tools (gc_content v)) generation)
  && (negb (cr_parallel_tools required) || generation_has (λ v, cc_parallel_tools (gc_content v)) generation)
  && (negb (cr_structured_json required) || generation_has (λ v, cc_structured_json (gc_content v)) generation)
  && (negb (cr_reasoning required)
      || (bool_decide (provider_protocol_of (dp_provider d) = POpenAiResponses)
          && generation_has (λ v, cc_reasoning_usage (gc_content v)) generation))
  && (negb (cr_streaming required) || generation_has gc_streaming generation).

(** [supports] once the deployment is ready, at the time [now]. *)
Definition supports_when_ready (d : DeploymentRuntime) (required : CapabilityRequirements) (now : DateTime) : bool :=
  let required := set_required_provenance (dp_required_conformance_provenance d) required in
  match dp_conformance_result d with
  | Some r => satisfies r required now
  | None =>
      bool_decide (dp_required_conformance_provenance d = None)
      && ProviderCapabilities_supports (dp_capabilities d) (cr_operation required)
      && (negb (bool_decide (cr_operation required = OpGenerate))
          || bool_decide (is_Some (pv_generation (dp_capabilities d))))
      && content_supported d required
  end.
Definition supports_static (d : DeploymentRuntime) (required : CapabilityRequirements) : bool :=
  ProviderCapabilities_supports (dp_capabilities d) (cr_operation required)
  && bool_decide (is_Some (dp_prices d !! cr_operation required))
  && bool_decide (provider_operation (dp_provider d) = cr_operation required)
  && content_supported d required.

(** ** Aliases and snapshots *)

Record AliasCapabilityRequirements := {
  ac_images : bool; ac_tools : bool; ac_parallel_tools : bool; ac_structured_json : bool; ac_streaming : bool;
  ac_embedding_space : option EmbeddingSpaceContract;
}.
Inductive AuditMode :=
| AuditDisabled | BestEffort | BoundedAsync | LocalDurable | RemoteDurable | AuditRequired | Durable.
Record AliasPlan := {
  ap_public_name : string;
  ap_deployments : list DeploymentRuntime;
  ap_operations : gset Operation;
  ap_max_attempts : nat;
  ap_max_input_tokens : option N;
  ap_max_output_tokens : option N;
  ap_max_cost_micros : option N;
  ap_internal : bool;
  ap_bound_principal : option string;
  ap_audit : AuditMode;
  ap_pii : PiiProfile;
  ap_required_capabilities : AliasCapabilityRequirements;
}.
Definition merge_requirements (a : AliasPlan) (required : CapabilityRequirements) : CapabilityRequirements :=
  let own := ap_required_capabilities a in
  {| cr_operation := cr_operation required; cr_images := cr_images required || ac_images own;
     cr_tools := cr_tools required || ac_tools own;
     cr_parallel_tools := cr_parallel_tools required || ac_parallel_tools own;
     cr_structured_json := cr_structured_json required || ac_structured_json own;
     cr_reasoning := cr_reasoning required; cr_streaming := cr_streaming required || ac_streaming own;
     cr_required_provenance := cr_required_provenance required |}.

Definition is_image (b : ContentBlock ImageSource) : bool := match b with Image _ => true | _ => false end.
Definition request_capabilities (request : InferenceRequest) (streaming : bool) : CapabilityRequirements :=
  {| cr_operation := OpGenerate;
     cr_images := existsb is_image (rq_messages request ≫= mg_content);
     cr_tools := negb (bool_decide (length (rq_tools request) = 0));
     cr_parallel_tools := rq_parallel_tool_calls request;
     cr_structured_json := bool_decide (is_Some (rq_response_format request));
     cr_reasoning := bool_decide (is_Some (rq_reasoning request));
     cr_streaming := streaming;
     cr_required_provenance := None |}.

Record LlmPublishedSnapshot := {
  sn_generation : N;
  sn_digest : string;
  sn_max_replay_bytes : N;
  sn_aliases : gmap string AliasPlan;
  sn_principal_stripes : N;
  sn_reasoning_sealer : ReasoningSealer;
}.

(** ** Preparing a request *)

(** Whether a deployment takes a request does not depend on the model it names, and
    preparing it leaves the messages alone. *)
Lemma prepare_set_model d r p model :
  prepare_generate_request d (set_model model r) p = set_model model <$> prepare_generate_request d r p.
Proof.
  unfold prepare_generate_request. destruct (negb _); [done|]. destruct (dp_bedrock_policy d) as [policy|]; [|done].
  cbn [set_model rq_sampling rq_reasoning rq_provider_continuation ok_or mbind result_bind].
  destruct (validate_sampling_parameter "temperature" _ _) as [[]|]; [|done]. cbn [mbind result_bind].
  destruct (validate_sampling_parameter "top_p" _ _) as [[]|]; [|done]. cbn [mbind result_bind].
  destruct (_ && negb (bp_allow_temperature_and_top_p policy)); [done|]. cbn [mbind result_bind].
  assert (∀ x, check_effort policy (set_model model x) = check_effort policy x) as Hx by done.
  destruct (bp_mode policy).
  - destruct (_ || _); [done|]. cbn [mbind result_bind]. rewrite Hx. by destruct (check_effort policy r) as [[]|].
  - cbn [mbind result_bind]. rewrite Hx. by destruct (check_effort policy r) as [[]|].
  - destruct (bool_decide _); [done|]. destruct (rq_reasoning r); cbn [mbind result_bind]; [|done].
    rewrite Hx. by destruct (check_effort policy r) as [[]|].
Qed.

Lemma prepare_messages d r p r' : prepare_generate_request d r p = Ok r' → rq_messages r' = rq_messages r.
Proof.
  unfold prepare_generate_request. destruct (negb _); [by intros [= ->]|]. intros H. inv_ok.
  repeat case_match; by simplify_eq/=.
Qed.

(** A request with reasoning options has no Bedrock route, so that the efforts a Bedrock
    policy lists are never compared with a request that is sent. *)
Lemma reasoning_not_bedrock d r a streaming :
  provider_protocol_of (dp_provider d) = PBedrockConverse → is_Some (rq_reasoning r) →
  supports_static d (merge_requirements a (request_capabilities r streaming)) = false.
Proof.
  intros Hp Hr. unfold supports_static, content_supported. cbn [merge_requirements request_capabilities cr_reasoning].
  rewrite Hp, (bool_decide_eq_true_2 _ Hr). cbn [negb orb andb]. by rewrite !andb_false_r.
Qed.
End deployments.
