(* ===== verification/Generation.v ===== *)
(** * Generation requests

    Model of [execute_with_snapshot_protocol] of [crates/llm-gateway/src/runtime/mod.rs],
    from admission to the settled response, with [fail_fast_permits] of [admission.rs] and
    the dispatch of [runtime/snapshot.rs].  The request runs in a world it shares with
    others: semaphores, circuits, readiness and the usage ledger, which the others may
    change before every operation.  What the request does is logged as events.  The
    audit trait, the providers, the other requests and the scheduler are an environment
    that answers from the log; an answer may also be that the future was dropped.  The size
    of a serialized request and the hash of a principal are parameters. *)

From Stdlib Require Import Ascii.
From stdpp Require Import functions.
From S2P Require Import Prelude RustStr InferenceError LlmError Circuit Usage Readiness LlmAuthorization AuditWal.
From S2P Require Import ReasoningSeal Pii StreamEncoder Deployment.

(** ** Audit *)

Record LlmRequestContext := {
  lc_authorization : option AuthorizationAudit;
  lc_request_id : string;
  lc_principal_id : string;
  lc_billing_subject : string;
  lc_tenant_id : option string;
  lc_deadline : N;
}.
Record AuditStart := {
  au_authorization : option AuthorizationAudit;
  au_request_id : string;
  au_principal_id : string;
  au_billing_subject : string;
  au_alias : string;
  au_operation : Operation;
  au_generation : N;
  au_snapshot_digest : string;
  au_max_attempts : nat;
  au_pii_profile : string;
  au_expected_embedding_space_id : option string;
  au_expected_embedding_space_revision : option N;
  au_selected_embedding_space_id : option string;
  au_selected_embedding_space_revision : option N;
}.
Record AuditFinish := {
  fn_terminal : string; fn_attempts : nat; fn_charged_micros : N; fn_usage_complete : bool;
}.
(** The methods of [AuditAdmission] and [AuditReservation]. *)
Inductive AuditCall :=
| CallReserve (mode : AuditMode) (start : AuditStart)
| CallStarted (attempt : nat) (deployment_id : string) (transport_context : option AuditTransportContext)
| CallFinished (attempt : nat) (terminal category : string)
| CallFinish (finish : AuditFinish).
Definition rejected_finish : AuditFinish :=
  {| fn_terminal := "rejected"; fn_attempts := 0; fn_charged_micros := 0; fn_usage_complete := true |}.
Definition audited (terminal : string) (attempts : nat) (usage : ReconciledUsage) : AuditFinish :=
  {| fn_terminal := terminal; fn_attempts := attempts; fn_charged_micros := ru_charged_micros usage;
     fn_usage_complete := ru_complete usage |}.

(** ** The world of a request *)

Record ProviderRequestContext := { pr_deadline : N; pr_attempt_id : string }.

(** What is awaited is answered, or the future that awaits it is dropped. *)
Inductive awaited (A : Type) := Answered (a : A) | Abandoned.
Arguments Answered {_} _.
Arguments Abandoned {_}.

Inductive CircuitReport := PermitAcquired | ReportedSuccess | ReportedFailure (e : InferenceError) | PermitDropped.
(** The answer of a provider; [None] when the timeout of the attempt elapses first. *)
Abbreviation ProviderAnswer := (option (result InferenceError InferenceResponse)) (only parsing).
Inductive Event :=
| EvAudit (call : AuditCall) (answer : awaited (result LlmGatewayError unit))
| EvReserved (micros : N)
| EvSettled (micros : N) (usage : ReconciledUsage)
| EvReleased (micros : N)
| EvCircuit (deployment : string) (report : CircuitReport)
| EvGenerate (deployment : string) (context : ProviderRequestContext) (request : InferenceRequest)
    (answer : awaited ProviderAnswer).

(** The state of a deployment all requests share. *)
Record DeploymentState := { ds_readiness : DeploymentReadiness; ds_circuit : PassiveCircuit; ds_permits : N }.
(** The clocks, the deployments, and the semaphores and the ledger the request uses. *)
Record World := {
  wo_instant : N;
  wo_utc : DateTime;
  wo_deployments : string → DeploymentState;
  wo_global_permits : N;
  wo_principal_permits : N → N;
  wo_alias_permits : N;
  wo_ledger : UsageLedger;
}.
(** The values with a destructor the function owns. *)
Record Held := {
  hd_admission : option N;
  hd_reservation : option N;
  hd_circuit : option (string * CircuitPermit);
  hd_permit : option string;
}.
Definition holds_nothing : Held :=
  {| hd_admission := None; hd_reservation := None; hd_circuit := None; hd_permit := None |}.
Definition set_admission (x : option N) (g : Held) : Held :=
  {| hd_admission := x; hd_reservation := hd_reservation g; hd_circuit := hd_circuit g; hd_permit := hd_permit g |}.
Definition set_reservation (x : option N) (g : Held) : Held :=
  {| hd_admission := hd_admission g; hd_reservation := x; hd_circuit := hd_circuit g; hd_permit := hd_permit g |}.
Definition set_circuit (x : option (string * CircuitPermit)) (g : Held) : Held :=
  {| hd_admission := hd_admission g; hd_reservation := hd_reservation g; hd_circuit := x; hd_permit := hd_permit g |}.
Definition set_permit (x : option string) (g : Held) : Held :=
  {| hd_admission := hd_admission g; hd_reservation := hd_reservation g; hd_circuit := hd_circuit g; hd_permit := x |}.

Class Environment := {
  interfere : list Event → World → World;
  audit_answer : list Event → AuditCall → awaited (result LlmGatewayError unit);
  generate_answer :
    list Event → string → ProviderRequestContext → InferenceRequest → awaited ProviderAnswer;
}.
(** The length of [serde_json::to_vec], and [DefaultHasher] on a principal. *)
Class RequestText := request_bytes : InferenceRequest → option N.
Class PrincipalHash := hash_principal : string → N.

(** ** Computations *)

Inductive exit := ReturnErr (e : LlmGatewayError) | Panic | Abandon.
Inductive outcome (A : Type) := Done (a : A) | Exit (x : exit).
Arguments Done {_} _.
Arguments Exit {_} _.
(** From the world, the log so far and what is held, to the new world, the new events,
    what is held then and the outcome. *)
Definition Exec (A : Type) : Type :=
  World → list Event → Held → World * list Event * Held * outcome A.
#[export] Instance Exec_ret : MRet Exec := λ A a w h g, (w, [], g, Done a).
#[export] Instance Exec_bind : MBind Exec := λ A B k m w h g,
  match m w h g with
  | (w, es, g, Done a) =>
      match k a w (h ++ es) g with (w, es', g, o) => (w, es ++ es', g, o) end
  | (w, es, g, Exit x) => (w, es, g, Exit x)
  end.
Definition exit_with {A} (x : exit) : Exec A := λ w h g, (w, [], g, Exit x).
Definition fail {A} (e : LlmGatewayError) : Exec A := exit_with (ReturnErr e).
(** The [?] operator. *)
Definition ok {A} (r : result LlmGatewayError A) : Exec A :=
  match r with Ok a => mret a | Err e => fail e end.
Definition emit (e : Event) : Exec unit := λ w h g, (w, [e], g, Done ()).
Definition holding : Exec Held := λ w h g, (w, [], g, Done g).
Definition hold (f : Held → Held) : Exec unit := λ w h g, (w, [], f g, Done ()).
(** Destructors run however the body ends. *)
Definition finally {A} (cleanup : Exec unit) (body : Exec A) : Exec A := λ w h g,
  match body w h g with
  | (w, es, g, o) => match cleanup w (h ++ es) g with (w, es', g, _) => (w, es ++ es', g, o) end
  end.

Section generation.
Context {environment : Environment} {request_text : RequestText} {principal_hash : PrincipalHash}.
Context {prims : SealPrimitives} {detector : PiiDetector} {mac : PiiMac}.
Context {Rest : Type} {digest : ConformanceDigest (Rest:=Rest)}.
Abbreviation Deployment := (DeploymentRuntime (Rest:=Rest)) (only parsing).
Abbreviation Alias := (AliasPlan (Rest:=Rest)) (only parsing).
Abbreviation Snapshot := (LlmPublishedSnapshot (Rest:=Rest)) (only parsing).

(** An operation on the shared world, after what the others did. *)
Definition atomic {A} (f : World → World * A) : Exec A := λ w h g,
  match f (interfere h w) with (w, a) => (w, [], g, Done a) end.
Definition instant_now : Exec N := atomic (λ w, (w, wo_instant w)).
Definition utc_now : Exec DateTime := atomic (λ w, (w, wo_utc w)).

Definition tell_audit (call : AuditCall) : Exec (result LlmGatewayError unit) := λ w h g,
  let a := audit_answer h call in
  (w, [EvAudit call a], g, match a with Answered r => Done r | Abandoned => Exit Abandon end).
Definition finish_audit (finish : AuditFinish) : Exec unit :=
  answer ← tell_audit (CallFinish finish); ok answer.
Definition reject {A} (error : LlmGatewayError) : Exec A :=
  _ ← finish_audit rejected_finish; fail error.

(** [tokio::time::timeout] around [provider.generate]. *)
Definition generate (deployment : string) (context : ProviderRequestContext) (request : InferenceRequest) :
    Exec ProviderAnswer := λ w h g,
  let a := generate_answer h deployment context request in
  (w, [EvGenerate deployment context request a], g,
   match a with Answered r => Done r | Abandoned => Exit Abandon end).

(** ** Permits *)

Definition set_deployment (d : string) (s : DeploymentState) (w : World) : World :=
  {| wo_instant := wo_instant w; wo_utc := wo_utc w; wo_deployments := <[d := s]> (wo_deployments w);
     wo_global_permits := wo_global_permits w; wo_principal_permits := wo_principal_permits w;
     wo_alias_permits := wo_alias_permits w; wo_ledger := wo_ledger w |}.
Definition set_permits (global : N) (principals : N → N) (alias : N) (w : World) : World :=
  {| wo_instant := wo_instant w; wo_utc := wo_utc w; wo_deployments := wo_deployments w;
     wo_global_permits := global; wo_principal_permits := principals; wo_alias_permits := alias;
     wo_ledger := wo_ledger w |}.
Definition set_ledger (l : UsageLedger) (w : World) : World :=
  {| wo_instant := wo_instant w; wo_utc := wo_utc w; wo_deployments := wo_deployments w;
     wo_global_permits := wo_global_permits w; wo_principal_permits := wo_principal_permits w;
     wo_alias_permits := wo_alias_permits w; wo_ledger := l |}.

(** [Semaphore::try_acquire_owned] on a number of available permits. *)
Definition try_acquire (available : N) : N * bool :=
  if (available =? 0)%N then (available, false) else ((available - 1)%N, true).

Definition try_global : Exec bool := atomic (λ w,
  let '(n, b) := try_acquire (wo_global_permits w) in
  (set_permits n (wo_principal_permits w) (wo_alias_permits w) w, b)).
Definition try_principal (stripe : N) : Exec bool := atomic (λ w,
  let '(n, b) := try_acquire (wo_principal_permits w stripe) in
  (set_permits (wo_global_permits w) (<[stripe := n]> (wo_principal_permits w)) (wo_alias_permits w) w, b)).
Definition try_alias : Exec bool := atomic (λ w,
  let '(n, b) := try_acquire (wo_alias_permits w) in
  (set_permits (wo_global_permits w) (wo_principal_permits w) n w, b)).
Definition release_global : Exec unit := atomic (λ w,
  (set_permits (wo_global_permits w + 1) (wo_principal_permits w) (wo_alias_permits w) w, ())).
Definition release_principal (stripe : N) : Exec unit := atomic (λ w,
  (set_permits (wo_global_permits w) (<[stripe := (wo_principal_permits w stripe + 1)%N]> (wo_principal_permits w))
     (wo_alias_permits w) w, ())).
Definition release_alias : Exec unit := atomic (λ w,
  (set_permits (wo_global_permits w) (wo_principal_permits w) (wo_alias_permits w + 1) w, ())).

(** An early return drops the permits acquired before. *)
Definition fail_fast_permits (stripe : N) : Exec unit :=
  global ← try_global;
  if negb global then fail Capacity else
  principal ← try_principal stripe;
  if negb principal then (_ ← release_global; fail Capacity) else
  alias ← try_alias;
  if negb alias then (_ ← release_principal stripe; _ ← release_global; fail Capacity) else
  hold (set_admission (Some stripe)).
Definition permits_for (root : Snapshot) (principal : string) : N :=
  (hash_principal principal mod sn_principal_stripes root)%N.

(** ** Dispatch *)

Definition readiness_of (d : string) : Exec bool :=
  atomic (λ w, (w, Readiness.is_ready (ds_readiness (wo_deployments w d)))).
Definition supports (d : Deployment) (required : CapabilityRequirements) : Exec bool :=
  ready ← readiness_of (dp_id d);
  if negb ready then mret false else
  now ← utc_now;
  mret (supports_when_ready d required now).

Definition with_circuit {A} (d : string) (f : PassiveCircuit → PassiveCircuit * A) : Exec A := atomic (λ w,
  let s := wo_deployments w d in
  let '(c, a) := f (ds_circuit s) in
  (set_deployment d {| ds_readiness := ds_readiness s; ds_circuit := c; ds_permits := ds_permits s |} w, a)).
Definition acquire_circuit (d : string) (now : N) : Exec (option CircuitPermit) :=
  permit ← with_circuit d (λ c, acquire_owned c now);
  match permit with
  | Some p => _ ← emit (EvCircuit d PermitAcquired); _ ← hold (set_circuit (Some (d, p))); mret (Some p)
  | None => mret None
  end.
Definition acquire_dispatch_health (d : Deployment) (now : N) : Exec (option CircuitPermit) :=
  ready ← readiness_of (dp_id d);
  if negb ready then mret None else acquire_circuit (dp_id d) now.
Definition report_succeeded (d : string) (p : CircuitPermit) : Exec unit :=
  _ ← with_circuit d (λ c, (permit_success c p, ()));
  _ ← emit (EvCircuit d ReportedSuccess); hold (set_circuit None).
Definition report_failed (d : string) (p : CircuitPermit) (error : InferenceError) (now : N) : Exec unit :=
  _ ← with_circuit d (λ c, (permit_failure c p error now, ()));
  _ ← emit (EvCircuit d (ReportedFailure error)); hold (set_circuit None).

Definition try_deployment_permit (d : string) : Exec bool :=
  acquired ← atomic (λ w,
    let s := wo_deployments w d in
    let '(n, b) := try_acquire (ds_permits s) in
    (set_deployment d {| ds_readiness := ds_readiness s; ds_circuit := ds_circuit s; ds_permits := n |} w, b));
  if (acquired : bool) then (_ ← hold (set_permit (Some d)); mret true) else mret false.
Definition release_deployment_permit (d : string) : Exec unit := atomic (λ w,
  let s := wo_deployments w d in
  (set_deployment d {| ds_readiness := ds_readiness s; ds_circuit := ds_circuit s;
                       ds_permits := (ds_permits s + 1)%N |} w, ())).

(** ** Usage *)

Definition with_ledger {A} (f : UsageLedger → UsageLedger * A) : Exec A := atomic (λ w,
  let '(l, a) := f (wo_ledger w) in (set_ledger l w, a)).
Definition reserve_usage (micros : N) (budget : option N) : Exec (result LlmGatewayError N) :=
  r ← with_ledger (λ l, Usage.reserve l micros budget);
  match r with
  | Ok m => _ ← emit (EvReserved m); _ ← hold (set_reservation (Some m)); mret (Ok m)
  | Err e => mret (Err e)
  end.
Definition reconcile_bound (m : N) (price : GenerationPrice) (usage : option NormalizedUsage)
    (acceptance : AcceptanceEvidence) (ambiguous : N) : Exec ReconciledUsage :=
  u ← with_ledger (λ l, reconcile_with_ambiguous_bound l m price usage acceptance ambiguous);
  _ ← emit (EvSettled m u); _ ← hold (set_reservation None); mret u.
Definition reconcile_usage (m : N) (price : GenerationPrice) (usage : option NormalizedUsage)
    (acceptance : AcceptanceEvidence) : Exec ReconciledUsage :=
  reconcile_bound m price usage acceptance m.

(** ** Destructors *)

Definition drop_circuit : Exec unit :=
  g ← holding;
  match hd_circuit g with
  | Some (d, p) =>
      _ ← with_circuit d (λ c, (drop_permit c p, ()));
      _ ← emit (EvCircuit d PermitDropped); hold (set_circuit None)
  | None => mret ()
  end.
Definition drop_permit_of : Exec unit :=
  g ← holding;
  match hd_permit g with
  | Some d => _ ← release_deployment_permit d; hold (set_permit None)
  | None => mret ()
  end.
Definition drop_usage : Exec unit :=
  g ← holding;
  match hd_reservation g with
  | Some m => _ ← with_ledger (λ l, (drop_reservation l m, ())); _ ← emit (EvReleased m); hold (set_reservation None)
  | None => mret ()
  end.
Definition drop_admission : Exec unit :=
  g ← holding;
  match hd_admission g with
  | Some stripe =>
      _ ← release_global; _ ← release_principal stripe; _ ← release_alias; hold (set_admission None)
  | None => mret ()
  end.
(** The end of an iteration of the attempt loop, and of the function. *)
Definition end_attempt : Exec unit := _ ← drop_permit_of; drop_circuit.
Definition end_request : Exec unit := _ ← drop_usage; drop_admission.

(** ** Admission of a request *)

(** [estimate_tokens]. *)
Definition estimate_tokens (request : InferenceRequest) : N :=
  (sat_add u64_max (default 0 (request_bytes request)) 3 / 4)%N.

Definition audit_start (context : LlmRequestContext) (root : Snapshot) (alias : Alias) (pii : RequestPiiSession) :
    AuditStart :=
  {| au_authorization := assignment_allowed <$> lc_authorization context;
     au_request_id := lc_request_id context; au_principal_id := lc_principal_id context;
     au_billing_subject := lc_billing_subject context; au_alias := ap_public_name alias;
     au_operation := OpGenerate; au_generation := sn_generation root; au_snapshot_digest := sn_digest root;
     au_max_attempts := ap_max_attempts alias; au_pii_profile := profile_id (ps_profile pii);
     au_expected_embedding_space_id := None; au_expected_embedding_space_revision := None;
     au_selected_embedding_space_id := None; au_selected_embedding_space_revision := None |}.

Definition is_tool_result (b : ContentBlock ImageSource) : bool :=
  match b with ToolResultBlock _ _ _ => true | _ => false end.
Definition is_tool_call (b : ContentBlock ImageSource) : bool :=
  match b with ToolCallBlock _ => true | _ => false end.
Definition has_tool_result (request : InferenceRequest) : bool :=
  existsb (λ m, existsb is_tool_result (mg_content m)) (rq_messages request).
Definition has_assistant_tool_call (request : InferenceRequest) : bool :=
  existsb (λ m, bool_decide (mg_role m = Assistant) && existsb is_tool_call (mg_content m)) (rq_messages request).

Definition route_candidates (alias : Alias) : list RouteCandidate :=
  (λ d, {| cd_deployment_id := dp_id d; cd_provider_material_generation := dp_provider_client_generation d |})
    <$> ap_deployments alias.
Definition resolve_continuation (context : LlmRequestContext) (root : Snapshot) (alias : Alias)
    (client_protocol : ClientProtocol) (sealed : ProviderContinuationState) :
    result LlmGatewayError ResolvedReasoningState :=
  if negb (bool_decide (client_protocol = OpenAiResponses)) || negb (bool_decide (cs_protocol sealed = POpenAiResponses))
  then Err (ReasoningState Invalid) else
  tenant_id ← ok_or (LlmError.InvalidRequest
    "authenticated tenant identity is required for reasoning continuation") (lc_tenant_id context);
  if negb (utf8_valid (cs_payload sealed)) then Err (ReasoningState Invalid) else
  map_err ReasoningState
    (unseal (sn_reasoning_sealer root) (of_bytes (cs_payload sealed)) tenant_id (ap_public_name alias)
       client_protocol (route_candidates alias)).

(** The request with the state it continues from, the deployment it is pinned to, and
    whether it carries such a state. *)
Definition take_continuation (context : LlmRequestContext) (root : Snapshot) (alias : Alias)
    (request : InferenceRequest) (client_protocol : ClientProtocol) :
    Exec (InferenceRequest * option string * bool) :=
  match rq_provider_continuation request with
  | Some sealed =>
      if bool_decide (client_protocol = AnthropicMessages) && bool_decide (cs_protocol sealed = PAnthropicMessages)
      then mret (set_continuation (Some sealed) request, None, true)
      else match resolve_continuation context root alias client_protocol sealed with
           | Ok resolved =>
               mret (set_continuation (Some {| cs_protocol := PBedrockConverse;
                                               cs_payload := rs_provider_state resolved |}) request,
                     Some (rs_deployment_id resolved), true)
           | Err error => reject error
           end
  | None =>
      if bool_decide (client_protocol = OpenAiResponses) && bool_decide (is_Some (rq_reasoning request))
         && has_assistant_tool_call request && has_tool_result request
      then reject (ReasoningState Required)
      else mret (request, None, false)
  end.

Definition takes_request (d : Deployment) (request : InferenceRequest) (client_protocol : ClientProtocol) : bool :=
  is_ok (prepare_generate_request d request client_protocol).
(** The filter of the candidates. *)
Definition is_candidate (request : InferenceRequest) (client_protocol : ClientProtocol)
    (required : CapabilityRequirements) (pinned : option string) (d : Deployment) : Exec bool :=
  if negb (match pinned with None => true | Some id => bool_decide (id = dp_id d) end) then mret false else
  supported ← supports d required;
  mret (supported && takes_request d request client_protocol
        && (bool_decide (pinned = None)
            || bool_decide (provider_protocol_of (dp_provider d) = PBedrockConverse))).
Fixpoint select_candidates (request : InferenceRequest) (client_protocol : ClientProtocol)
    (required : CapabilityRequirements) (pinned : option string) (l : list Deployment) : Exec (list Deployment) :=
  match l with
  | [] => mret []
  | d :: l =>
      keep ← is_candidate request client_protocol required pinned d;
      rest ← select_candidates request client_protocol required pinned l;
      mret (if (keep : bool) then d :: rest else rest)
  end.

(** [generation_price().expect(...)]. *)
Definition price_of (d : Deployment) : Exec GenerationPrice :=
  match generation_price d with Some price => mret price | None => exit_with Panic end.
Fixpoint costs_of (estimated_input max_output : N) (l : list Deployment) : Exec (list N) :=
  match l with
  | [] => mret []
  | d :: l =>
      price ← price_of d;
      rest ← costs_of estimated_input max_output l;
      mret (cost price estimated_input max_output :: rest)
  end.

(** ** Attempts *)

Record LlmExecution := {
  xe_response : InferenceResponse;
  xe_request_id : string;
  xe_alias : string;
  xe_attempts : nat;
  xe_usage : ReconciledUsage;
  xe_generation : N;
  xe_deployment_id : string;
  xe_provider_material_generation : N;
}.
(** What the loop reads: the admitted request and its reservation. *)
Record AdmissionContext := {
  ad_context : LlmRequestContext;
  ad_root : Snapshot;
  ad_alias : Alias;
  ad_request : InferenceRequest;
  ad_client_protocol : ClientProtocol;
  ad_pinned : option string;
  ad_carries_continuation : bool;
  ad_estimated_input : N;
  ad_max_output : N;
  ad_pii : RequestPiiSession;
  ad_reserved : N;
}.
(** What it changes. *)
Record Progress := { pg_attempts : nat; pg_envelope : N; pg_last_error : option InferenceError }.
Inductive control := Continue (p : Progress) | Break (p : Progress) | Return (x : LlmExecution).

Definition continuation_eligible (client_protocol : ClientProtocol) (response : InferenceResponse) : bool :=
  match client_protocol, cs_protocol <$> pe_continuation (rp_evidence response) with
  | _, None => true
  | OpenAiResponses, Some PBedrockConverse => true
  | AnthropicMessages, Some (PBedrockConverse | PAnthropicMessages) => true
  | _, _ => false
  end.
Definition ineligible_continuation : InferenceError :=
  provider_protocol (Some 502%N) "provider reasoning continuation is not eligible for this client protocol".
Definition provider_result (client_protocol : ClientProtocol) (answer : ProviderAnswer) :
    result InferenceError InferenceResponse :=
  match answer with
  | None => Err timeout_after_possible_acceptance
  | Some (Err e) => Err e
  | Some (Ok response) =>
      if continuation_eligible client_protocol response then Ok response else Err ineligible_continuation
  end.
Definition inference_error_category (category : InferenceErrorCategory) : string :=
  match category with
  | InferenceError.InvalidRequest => "invalid_request"
  | Authentication => "authentication"
  | PermissionDenied => "permission_denied"
  | RateLimited => "rate_limited"
  | TimeoutBeforeAcceptance => "timeout_before_acceptance"
  | TimeoutAfterPossibleAcceptance => "timeout_after_possible_acceptance"
  | ProviderOverload => "provider_overload"
  | Network => "network"
  | SecurityInvariant => "security_invariant"
  | Protocol => "protocol"
  | Cancelled_ => "cancelled"
  | UnsupportedFeature => "unsupported_feature"
  end.

(** Settle, finish the audit as failed and return the audit error. *)
Definition audit_failed {A} (attempts : nat) (usage : ReconciledUsage) (error : LlmGatewayError) : Exec A :=
  _ ← finish_audit (audited "audit_failed" attempts usage); fail error.

Definition on_success (a : AdmissionContext) (d : Deployment) (permit : CircuitPermit) (attempts : nat)
    (response : InferenceResponse) : Exec control :=
  _ ← report_succeeded (dp_id d) permit;
  price ← price_of d;
  usage ← reconcile_usage (ad_reserved a) price (rp_usage response) Accepted;
  match (recover_response (rp_output response) (ad_pii a)).2 with
  | Err error =>
      finished ← tell_audit (CallFinished attempts "failed" "pii_unresolved");
      _ ← ok finished;
      _ ← finish_audit (audited "pii_recovery_failed" attempts usage);
      fail error
  | Ok output =>
      finished ← tell_audit (CallFinished attempts "complete" "success");
      match finished with
      | Err audit_error => audit_failed attempts usage audit_error
      | Ok _ =>
          _ ← finish_audit (audited "complete" attempts usage);
          mret (Return
            {| xe_response := set_output output response; xe_request_id := lc_request_id (ad_context a);
               xe_alias := ap_public_name (ad_alias a); xe_attempts := attempts; xe_usage := usage;
               xe_generation := sn_generation (ad_root a); xe_deployment_id := dp_id d;
               xe_provider_material_generation := dp_provider_client_generation d |})
      end
  end.

Definition on_failure (a : AdmissionContext) (d : Deployment) (permit : CircuitPermit) (attempts : nat) (envelope : N)
    (error : InferenceError) : Exec control :=
  now ← instant_now;
  _ ← report_failed (dp_id d) permit error now;
  finished ← tell_audit (CallFinished attempts "failed" (inference_error_category (ie_category error)));
  match finished with
  | Err audit_error =>
      price ← price_of d;
      usage ← reconcile_bound (ad_reserved a) price None (ie_acceptance error) envelope;
      audit_failed attempts usage audit_error
  | Ok _ =>
      let can_retry := negb (ad_carries_continuation a) && bool_decide (ad_pinned a = None) && retryable error
                       && (attempts <? ap_max_attempts (ad_alias a))%nat in
      let p := {| pg_attempts := attempts; pg_envelope := envelope; pg_last_error := Some error |} in
      mret (if can_retry then Continue p else Break p)
  end.

(** The part of an iteration after the permits. *)
Definition dispatch (a : AdmissionContext) (d : Deployment) (permit : CircuitPermit) (p : Progress) : Exec control :=
  started ← tell_audit (CallStarted (S (pg_attempts p)) (dp_id d) (Some (dp_audit_transport d)));
  match started with
  | Err audit_error =>
      price ← price_of d;
      usage ← reconcile_usage (ad_reserved a) price None NotAccepted;
      audit_failed (pg_attempts p) usage audit_error
  | Ok _ =>
      let attempts := S (pg_attempts p) in
      price ← price_of d;
      let envelope := sat_add u64_max (pg_envelope p) (cost price (ad_estimated_input a) (ad_max_output a)) in
      request ← ok (prepare_generate_request d (set_model (dp_model d) (ad_request a)) (ad_client_protocol a));
      now ← instant_now;
      let deadline := N.min (lc_deadline (ad_context a)) (now + from_millis (dp_request_timeout_ms d)) in
      let context := {| pr_deadline := deadline;
                        pr_attempt_id := lc_request_id (ad_context a) +:+ "-" +:+ dec (N.of_nat attempts) |} in
      _ ← match dp_provider d with
          | Generation _ => mret ()
          | Embedding _ => fail (Invariant "generate route selected an embedding executor")
          end;
      _ ← instant_now;
      answer ← generate (dp_id d) context request;
      match provider_result (ad_client_protocol a) answer with
      | Ok response => on_success a d permit attempts response
      | Err error => on_failure a d permit attempts envelope error
      end
  end.

Definition attempt (a : AdmissionContext) (d : Deployment) (p : Progress) : Exec control :=
  if (ap_max_attempts (ad_alias a) <=? pg_attempts p)%nat then mret (Break p) else
  now ← instant_now;
  if (lc_deadline (ad_context a) <=? now)%N then
    mret (Break {| pg_attempts := pg_attempts p; pg_envelope := pg_envelope p;
                   pg_last_error := Some timeout_before_acceptance |}) else
  now ← instant_now;
  finally end_attempt (
    permit ← acquire_dispatch_health d now;
    match permit with
    | None => mret (Continue p)
    | Some permit =>
        acquired ← try_deployment_permit (dp_id d);
        if negb acquired then mret (Continue p) else dispatch a d permit p
    end).

Fixpoint attempt_loop (a : AdmissionContext) (candidates : list Deployment) (p : Progress) : Exec control :=
  match candidates with
  | [] => mret (Break p)
  | d :: candidates =>
      c ← attempt a d p;
      match c with
      | Continue p => attempt_loop a candidates p
      | other => mret other
      end
  end.

Definition nothing_available : InferenceError :=
  {| ie_category := ProviderOverload; ie_provider_status := None; ie_retry := Safe; ie_acceptance := NotAccepted;
     ie_retry_after_ms := None; ie_detail := "no deployment is currently available" |}.
Definition public_error (error : InferenceError) : LlmGatewayError :=
  match ie_category error with
  | UnsupportedFeature => Invariant "eligible generation provider returned UnsupportedFeature"
  | _ => Provider error
  end.
(** The attempts, and what follows when none succeeds. *)
Definition run_attempts (a : AdmissionContext) (first_price : GenerationPrice) (candidates : list Deployment) :
    Exec LlmExecution :=
  c ← attempt_loop a candidates {| pg_attempts := 0; pg_envelope := 0; pg_last_error := None |};
  match c with
  | Return x => mret x
  | Break p | Continue p =>
      let error := default nothing_available (pg_last_error p) in
      usage ← reconcile_bound (ad_reserved a) first_price None (ie_acceptance error) (pg_envelope p);
      _ ← finish_audit (audited "failed" (pg_attempts p) usage);
      fail (public_error error)
  end.

(** ** The request *)

(** From the masked request on: limits, candidates, reservation and attempts. *)
Definition execute_admitted (context : LlmRequestContext) (root : Snapshot) (alias : Alias)
    (request : InferenceRequest) (client_protocol : ClientProtocol) (pinned : option string)
    (carries_continuation : bool) (pii : RequestPiiSession) : Exec LlmExecution :=
  let estimated_input := estimate_tokens request in
  let max_output := default (default 1024%N (ap_max_output_tokens alias)) (rq_max_output_tokens request) in
  if (match ap_max_input_tokens alias with Some limit => (limit <? estimated_input)%N | None => false end)
     || (match ap_max_output_tokens alias with Some limit => (limit <? max_output)%N | None => false end)
  then reject (LlmError.InvalidRequest "token limit exceeded") else
  if (1 <? ap_max_attempts alias)%nat
     && match request_bytes request with Some n => (sn_max_replay_bytes root <? n)%N | None => true end
  then reject (LlmError.InvalidRequest "request exceeds replay bound required by retry policy") else
  let required := merge_requirements alias (request_capabilities request false) in
  if negb (existsb (λ d, supports_static d required && takes_request d request client_protocol) (ap_deployments alias))
  then reject (UnsupportedCapability "no configured route preserves the requested generate capabilities") else
  candidates ← select_candidates request client_protocol required pinned (ap_deployments alias);
  if carries_continuation && bool_decide (pinned = None) && negb (length candidates =? 1)%nat
  then reject (ReasoningState RouteUnavailable) else
  if bool_decide (is_Some pinned) && (length candidates =? 0)%nat
  then reject (ReasoningState RouteUnavailable) else
  match candidates with
  | [] => reject NoReadyDeployment
  | first :: _ =>
      first_price ← price_of first;
      costs ← costs_of estimated_input max_output candidates;
      let envelope := default u64_max (maximum_attempt_envelope costs (ap_max_attempts alias)) in
      reserved ← reserve_usage envelope (ap_max_cost_micros alias);
      match reserved with
      | Err error => reject error
      | Ok m =>
          run_attempts
            {| ad_context := context; ad_root := root; ad_alias := alias; ad_request := request;
               ad_client_protocol := client_protocol; ad_pinned := pinned;
               ad_carries_continuation := carries_continuation; ad_estimated_input := estimated_input;
               ad_max_output := max_output; ad_pii := pii; ad_reserved := m |} first_price candidates
      end
  end.

(** With the key the session of personal data draws. *)
Definition execute_with_snapshot_protocol (key : text) (context : LlmRequestContext) (root : Snapshot)
    (request : InferenceRequest) (client_protocol : ClientProtocol) : Exec LlmExecution :=
  now ← instant_now;
  if (lc_deadline context <=? now)%N then fail (Provider timeout_before_acceptance) else
  alias ← ok (ok_or AliasNotFound (sn_aliases root !! rq_model request));
  if ap_internal alias && negb (bool_decide (ap_bound_principal alias = Some (lc_principal_id context)))
  then fail AliasNotFound else
  if negb (bool_decide (OpGenerate ∈ ap_operations alias))
  then fail (UnsupportedCapability "model alias does not support generate") else
  finally end_request (
    _ ← fail_fast_permits (permits_for root (lc_principal_id context));
    pii ← ok (RequestPiiSession_new (ap_pii alias) key);
    reserved ← tell_audit (CallReserve (ap_audit alias) (audit_start context root alias pii));
    _ ← ok reserved;
    '(request, pinned, carries_continuation) ← take_continuation context root alias request client_protocol;
    match tokenize_request (rq_messages request) pii with
    | (_, Err error) => reject error
    | (pii, Ok messages) =>
        execute_admitted context root alias (set_messages messages request) client_protocol pinned
          carries_continuation pii
    end).
End generation.
