(* ===== verification/GenerationFacts.v ===== *)
(** * What the log of a generation request says

    The log grammar of [Generation]: which events an attempt, the attempts and a whole
    request can leave behind, whatever the environment answers and the other requests do.
    The theorems read the dispatches to providers, the ledger and the audit trail off it. *)

From S2P Require Import Prelude RustStr InferenceError LlmError Circuit Usage Readiness LlmAuthorization AuditWal.
From S2P Require Import ReasoningSeal Pii StreamEncoder Deployment Generation.

(** ** Runs *)

Definition runs {A} (m : Exec A) (g : Held) (es : list Event) (g' : Held) (o : outcome A) : Prop :=
  ∃ w h w', m w h g = (w', es, g', o).

Lemma runs_ret {A} (a : A) g es g' o : runs (mret a) g es g' o → es = [] ∧ g' = g ∧ o = Done a.
Proof. by intros (w & h & w' & [= <- <- <- <-]). Qed.
Lemma runs_exit {A} x g es g' (o : outcome A) : runs (exit_with x) g es g' o → es = [] ∧ g' = g ∧ o = Exit x.
Proof. by intros (w & h & w' & [= <- <- <- <-]). Qed.
Lemma runs_emit e g es g' o : runs (emit e) g es g' o → es = [e] ∧ g' = g ∧ o = Done ().
Proof. by intros (w & h & w' & [= <- <- <- <-]). Qed.
Lemma runs_hold f g es g' o : runs (hold f) g es g' o → es = [] ∧ g' = f g ∧ o = Done ().
Proof. by intros (w & h & w' & [= <- <- <- <-]). Qed.
Lemma runs_holding g es g' o : runs holding g es g' o → es = [] ∧ g' = g ∧ o = Done g.
Proof. by intros (w & h & w' & [= <- <- <- <-]). Qed.
Lemma runs_ok {A} (r : result LlmGatewayError A) g es g' o :
  runs (ok r) g es g' o →
  es = [] ∧ g' = g ∧ o = match r with Ok a => Done a | Err e => Exit (ReturnErr e) end.
Proof. destruct r; cbn; [apply runs_ret|apply runs_exit]. Qed.

Lemma runs_bind {A B} (m : Exec A) (k : A → Exec B) g es g' o :
  runs (x ← m; k x) g es g' o →
  (∃ a es1 g1 es2, runs m g es1 g1 (Done a) ∧ runs (k a) g1 es2 g' o ∧ es = es1 ++ es2)
  ∨ (∃ x, runs m g es g' (Exit x) ∧ o = Exit x).
Proof.
  intros (w & h & w' & H). unfold mbind, Exec_bind in H.
  destruct (m w h g) as [[[w1 es1] g1] [a|x]] eqn:Em.
  - destruct (k a w1 (h ++ es1) g1) as [[[w2 es2] g2] o2] eqn:Ek. simplify_eq. left.
    exists a, es1, g1, es2. split_and!; [by eexists _, _, _|by eexists _, _, _|done].
  - simplify_eq. right. exists x. split; [by eexists _, _, _|done].
Qed.
Lemma runs_finally {A} cleanup (body : Exec A) g es g' o :
  runs (finally cleanup body) g es g' o →
  ∃ es1 g1 es2 u, runs body g es1 g1 o ∧ runs cleanup g1 es2 g' u ∧ es = es1 ++ es2.
Proof.
  intros (w & h & w' & H). unfold finally in H. destruct (body w h g) as [[[w1 es1] g1] o1] eqn:Em.
  destruct (cleanup w1 (h ++ es1) g1) as [[[w2 es2] g2] o2] eqn:Ek. simplify_eq.
  exists es1, g1, es2, o2. split_and!; [by eexists _, _, _|by eexists _, _, _|done].
Qed.

Section facts.
Context {environment : Environment} {request_text : RequestText} {principal_hash : PrincipalHash}.
Context {prims : SealPrimitives} {detector : PiiDetector} {mac : PiiMac}.
Context {Rest : Type} {digest : ConformanceDigest (Rest:=Rest)}.
Abbreviation Deployment := (DeploymentRuntime (Rest:=Rest)) (only parsing).

Lemma runs_atomic {A} (f : World → World * A) g es g' o :
  runs (atomic f) g es g' o → es = [] ∧ g' = g ∧ ∃ w, o = Done (f w).2.
Proof.
  intros (w & h & w' & H). unfold atomic in H. destruct (f (interfere h w)) as [w1 a] eqn:E. simplify_eq.
  split_and!; [done..|]. exists (interfere h w). by rewrite E.
Qed.
Lemma runs_audit call g es g' o :
  runs (tell_audit call) g es g' o →
  ∃ r, es = [EvAudit call r] ∧ g' = g ∧ o = match r with Answered a => Done a | Abandoned => Exit Abandon end.
Proof. intros (w & h & w' & H). injection H as <- <- <- <-. by eexists. Qed.
Lemma runs_generate d c q g es g' o :
  runs (generate d c q) g es g' o →
  ∃ r, es = [EvGenerate d c q r] ∧ g' = g ∧ o = match r with Answered a => Done a | Abandoned => Exit Abandon end.
Proof. intros (w & h & w' & H). injection H as <- <- <- <-. by eexists. Qed.

(** Take the runs of a computation apart. *)
Ltac inv_run :=
  match goal with
  | H : runs (mret _) _ _ _ _ |- _ => apply runs_ret in H as (-> & -> & ?); simplify_eq
  | H : runs (exit_with _) _ _ _ _ |- _ => apply runs_exit in H as (-> & -> & ?); simplify_eq
  | H : runs (fail _) _ _ _ _ |- _ => apply runs_exit in H as (-> & -> & ?); simplify_eq
  | H : runs (emit _) _ _ _ _ |- _ => apply runs_emit in H as (-> & -> & ?); simplify_eq
  | H : runs (hold _) _ _ _ _ |- _ => apply runs_hold in H as (-> & -> & ?); simplify_eq
  | H : runs holding _ _ _ _ |- _ => apply runs_holding in H as (-> & -> & ?); simplify_eq
  | H : runs (ok _) _ _ _ _ |- _ => apply runs_ok in H as (-> & -> & ?); simplify_eq
  | H : runs (mbind _ _) _ _ _ _ |- _ =>
      apply runs_bind in H as [(? & ? & ? & ? & H & ? & ->)|(? & H & ->)]
  end.

(** What the operations on shared state leave behind. *)
Lemma runs_instant g es g' o : runs instant_now g es g' o → es = [] ∧ g' = g ∧ ∃ n, o = Done n.
Proof. unfold instant_now. intros (-> & -> & w & ->)%runs_atomic. by eauto. Qed.
Lemma runs_ready d g es g' o : runs (readiness_of d) g es g' o → es = [] ∧ g' = g ∧ ∃ b, o = Done b.
Proof. unfold readiness_of. intros (-> & -> & w & ->)%runs_atomic. by eauto. Qed.
Lemma runs_circuit {A} d (f : PassiveCircuit → PassiveCircuit * A) g es g' o :
  runs (with_circuit d f) g es g' o → es = [] ∧ g' = g ∧ ∃ c, o = Done (f c).2.
Proof.
  unfold with_circuit. intros (-> & -> & w & ->)%runs_atomic. split_and!; [done..|]. exists (ds_circuit (wo_deployments w d)).
  by destruct (f _) as [c a].
Qed.
Lemma runs_ledger {A} (f : UsageLedger → UsageLedger * A) g es g' o :
  runs (with_ledger f) g es g' o → es = [] ∧ g' = g ∧ ∃ l, o = Done (f l).2.
Proof.
  unfold with_ledger. intros (-> & -> & w & ->)%runs_atomic. split_and!; [done..|]. exists (wo_ledger w). by destruct (f _) as [c a].
Qed.

Lemma runs_acquire_circuit d now g es g' o :
  runs (acquire_circuit d now) g es g' o →
  es = [] ∧ g' = g ∧ o = Done None
  ∨ ∃ p, es = [EvCircuit d PermitAcquired] ∧ g' = set_circuit (Some (d, p)) g ∧ o = Done (Some p).
Proof.
  unfold acquire_circuit. intros H. inv_run; apply runs_circuit in H as (-> & -> & c & ?); simplify_eq.
  destruct (acquire_owned c now).2; repeat inv_run; eauto.
Qed.
Lemma runs_dispatch_health (d : Deployment) now g es g' o :
  runs (acquire_dispatch_health d now) g es g' o →
  es = [] ∧ g' = g ∧ o = Done None
  ∨ ∃ p, es = [EvCircuit (dp_id d) PermitAcquired] ∧ g' = set_circuit (Some (dp_id d, p)) g ∧ o = Done (Some p).
Proof.
  unfold acquire_dispatch_health. intros H. inv_run; apply runs_ready in H as (-> & -> & b & ?); simplify_eq.
  destruct b; cbn [negb] in *; [by eapply runs_acquire_circuit|]. inv_run. by left.
Qed.
Lemma runs_deployment_permit d g es g' o :
  runs (try_deployment_permit d) g es g' o →
  es = [] ∧ (g' = set_permit (Some d) g ∧ o = Done true ∨ g' = g ∧ o = Done false).
Proof.
  unfold try_deployment_permit. intros H. inv_run; apply runs_atomic in H as (-> & -> & w & ?); simplify_eq.
  destruct (_ : bool); repeat inv_run; eauto.
Qed.
Lemma runs_circuit_success d p g es g' o :
  runs (report_succeeded d p) g es g' o →
  es = [EvCircuit d ReportedSuccess] ∧ g' = set_circuit None g ∧ o = Done ().
Proof. unfold report_succeeded. intros H. inv_run; apply runs_circuit in H as (-> & -> & c & ?); simplify_eq. by repeat inv_run. Qed.
Lemma runs_circuit_failure d p e now g es g' o :
  runs (report_failed d p e now) g es g' o →
  es = [EvCircuit d (ReportedFailure e)] ∧ g' = set_circuit None g ∧ o = Done ().
Proof. unfold report_failed. intros H. inv_run; apply runs_circuit in H as (-> & -> & c & ?); simplify_eq. by repeat inv_run. Qed.

(** The usage a settlement reports does not depend on the ledger. *)
Definition settled_usage (m : N) (price : GenerationPrice) (usage : option NormalizedUsage)
    (acceptance : AcceptanceEvidence) (ambiguous : N) : ReconciledUsage :=
  let '(charged, complete) := generation_charge price usage acceptance m ambiguous in
  {| ru_charged_micros := charged; ru_complete := complete; ru_price_version := gp_version price |}.
Lemma runs_reconcile_bound m price usage acceptance ambiguous g es g' o :
  runs (reconcile_bound m price usage acceptance ambiguous) g es g' o →
  es = [EvSettled m (settled_usage m price usage acceptance ambiguous)] ∧ g' = set_reservation None g
  ∧ o = Done (settled_usage m price usage acceptance ambiguous).
Proof.
  unfold reconcile_bound. intros H. inv_run; apply runs_ledger in H as (-> & -> & l & ?); simplify_eq. repeat inv_run.
  assert ((reconcile_with_ambiguous_bound l m price usage acceptance ambiguous).2
    = settled_usage m price usage acceptance ambiguous) as ->; [|done].
  unfold reconcile_with_ambiguous_bound, settled_usage. by destruct (generation_charge _ _ _ _ _).
Qed.
Lemma runs_reserve_usage micros budget g es g' o :
  runs (reserve_usage micros budget) g es g' o →
  es = [EvReserved micros] ∧ g' = set_reservation (Some micros) g ∧ o = Done (Ok micros)
  ∨ es = [] ∧ g' = g ∧ o = Done (Err Budget).
Proof.
  unfold reserve_usage. intros H. inv_run; apply runs_ledger in H as (-> & -> & l & ?); simplify_eq.
  unfold Usage.reserve in *. destruct (within_budget _ _ _); cbn [snd] in *; repeat inv_run; eauto.
Qed.
Lemma runs_drop_permit g es g' o : runs drop_permit_of g es g' o → es = [] ∧ g' = set_permit None g ∧ o = Done ().
Proof.
  unfold drop_permit_of. intros H. inv_run; inv_run. destruct g as [ga gr gc [d|]]; cbn [hd_permit] in *; repeat inv_run; try done.
  all: match goal with H : runs (release_deployment_permit _) _ _ _ _ |- _ =>
    unfold release_deployment_permit in H; apply runs_atomic in H as (-> & -> & w & ?); simplify_eq end; done.
Qed.
Definition circuit_dropped (g : Held) : list Event :=
  match hd_circuit g with Some (d, _) => [EvCircuit d PermitDropped] | None => [] end.
Lemma runs_drop_circuit g es g' o :
  runs drop_circuit g es g' o → es = circuit_dropped g ∧ g' = set_circuit None g ∧ o = Done ().
Proof.
  unfold drop_circuit. intros H. inv_run; inv_run. destruct g as [ga gr [[d p]|] gp]; unfold circuit_dropped; cbn [hd_circuit] in *;
    [|by repeat inv_run].
  inv_run; match goal with H : runs (with_circuit _ _) _ _ _ _ |- _ =>
    apply runs_circuit in H as (-> & -> & c & ?); simplify_eq end. by repeat inv_run.
Qed.
Lemma runs_end_attempt g es g' o :
  runs end_attempt g es g' o → es = circuit_dropped g ∧ g' = set_circuit None (set_permit None g).
Proof.
  unfold end_attempt. intros H. inv_run.
  - apply runs_drop_permit in H as (-> & -> & _). match goal with H : runs drop_circuit _ _ _ _ |- _ =>
      apply runs_drop_circuit in H as (-> & -> & _) end. done.
  - by apply runs_drop_permit in H as (_ & _ & [=]).
Qed.

(** ** The log of one attempt *)

(** The outcome after the audit has answered to the end of a request. *)
Definition finish_outcome {A} (r : awaited (result LlmGatewayError unit)) (o : outcome A) : outcome A :=
  match r with
  | Answered (Ok _) => o
  | Answered (Err e) => Exit (ReturnErr e)
  | Abandoned => Exit Abandon
  end.
Abbreviation answered_ok := (Answered (Ok ())) (only parsing).

Section attempt.
Context (a : AdmissionContext (Rest:=Rest)) (d : Deployment) (price : GenerationPrice).
Abbreviation m := (ad_reserved a) (only parsing).

(** After the provider has answered with a response and its usage [u] is settled. *)
Inductive success_log (n : nat) (u : ReconciledUsage) (response : InferenceResponse) :
    list Event → outcome control → Prop :=
| sl_unresolved error r :
    (recover_response (rp_output response) (ad_pii a)).2 = Err error →
    success_log n u response
      [EvAudit (CallFinished n "failed" "pii_unresolved") answered_ok;
       EvAudit (CallFinish (audited "pii_recovery_failed" n u)) r] (finish_outcome r (Exit (ReturnErr error)))
| sl_unresolved_unaudited error r :
    (recover_response (rp_output response) (ad_pii a)).2 = Err error → r ≠ answered_ok →
    success_log n u response
      [EvAudit (CallFinished n "failed" "pii_unresolved") r] (finish_outcome r (Exit (ReturnErr error)))
| sl_abandoned output :
    (recover_response (rp_output response) (ad_pii a)).2 = Ok output →
    success_log n u response [EvAudit (CallFinished n "complete" "success") Abandoned] (Exit Abandon)
| sl_unaudited output e r :
    (recover_response (rp_output response) (ad_pii a)).2 = Ok output →
    success_log n u response
      [EvAudit (CallFinished n "complete" "success") (Answered (Err e));
       EvAudit (CallFinish (audited "audit_failed" n u)) r] (finish_outcome r (Exit (ReturnErr e)))
| sl_complete output r :
    (recover_response (rp_output response) (ad_pii a)).2 = Ok output →
    success_log n u response
      [EvAudit (CallFinished n "complete" "success") answered_ok;
       EvAudit (CallFinish (audited "complete" n u)) r]
      (finish_outcome r (Done (Return
         {| xe_response := set_output output response; xe_request_id := lc_request_id (ad_context a);
            xe_alias := ap_public_name (ad_alias a); xe_attempts := n; xe_usage := u;
            xe_generation := sn_generation (ad_root a); xe_deployment_id := dp_id d;
            xe_provider_material_generation := dp_provider_client_generation d |}))).

(** Whether a failed attempt is followed by another. *)
Definition can_retry (n : nat) (error : InferenceError) : bool :=
  negb (ad_carries_continuation a) && bool_decide (ad_pinned a = None) && retryable error
  && (n <? ap_max_attempts (ad_alias a))%nat.
Inductive failure_log (n : nat) (envelope : N) (error : InferenceError) : list Event → outcome control → Prop :=
| fl_abandoned :
    failure_log n envelope error
      [EvAudit (CallFinished n "failed" (inference_error_category (ie_category error))) Abandoned] (Exit Abandon)
| fl_unaudited e r :
    let u := settled_usage m price None (ie_acceptance error) envelope in
    failure_log n envelope error
      [EvAudit (CallFinished n "failed" (inference_error_category (ie_category error))) (Answered (Err e));
       EvSettled m u; EvAudit (CallFinish (audited "audit_failed" n u)) r] (finish_outcome r (Exit (ReturnErr e)))
| fl_failed :
    let p := {| pg_attempts := n; pg_envelope := envelope; pg_last_error := Some error |} in
    failure_log n envelope error
      [EvAudit (CallFinished n "failed" (inference_error_category (ie_category error))) answered_ok]
      (Done (if can_retry n error then Continue p else Break p)).

Definition envelope_after (p : Progress) : N :=
  sat_add u64_max (pg_envelope p) (cost price (ad_estimated_input a) (ad_max_output a)).
Definition prepared (q : InferenceRequest) : Prop :=
  prepare_generate_request d (set_model (dp_model d) (ad_request a)) (ad_client_protocol a) = Ok q.
Abbreviation start_call p := (CallStarted (S (pg_attempts p)) (dp_id d) (Some (dp_audit_transport d))) (only parsing).
Inductive dispatch_log (p : Progress) : list Event → outcome control → Prop :=
| dl_abandoned : dispatch_log p [EvAudit (start_call p) Abandoned] (Exit Abandon)
| dl_unaudited e r :
    let u := settled_usage m price None NotAccepted m in
    dispatch_log p
      [EvAudit (start_call p) (Answered (Err e)); EvSettled m u;
       EvAudit (CallFinish (audited "audit_failed" (pg_attempts p) u)) r] (finish_outcome r (Exit (ReturnErr e)))
| dl_no_executor :
    provider_operation (dp_provider d) = OpEmbed →
    dispatch_log p [EvAudit (start_call p) answered_ok]
      (Exit (ReturnErr (Invariant "generate route selected an embedding executor")))
| dl_no_answer c q :
    prepared q →
    dispatch_log p [EvAudit (start_call p) answered_ok; EvGenerate (dp_id d) c q Abandoned] (Exit Abandon)
| dl_success c q answer response es o :
    let u := settled_usage m price (rp_usage response) Accepted m in
    prepared q → provider_result (ad_client_protocol a) answer = Ok response →
    success_log (S (pg_attempts p)) u response es o →
    dispatch_log p
      ([EvAudit (start_call p) answered_ok; EvGenerate (dp_id d) c q (Answered answer);
        EvCircuit (dp_id d) ReportedSuccess; EvSettled m u] ++ es) o
| dl_failure c q answer error es o :
    prepared q → provider_result (ad_client_protocol a) answer = Err error →
    failure_log (S (pg_attempts p)) (envelope_after p) error es o →
    dispatch_log p
      ([EvAudit (start_call p) answered_ok; EvGenerate (dp_id d) c q (Answered answer);
        EvCircuit (dp_id d) (ReportedFailure error)] ++ es) o.

(** What is held after the events. *)
Definition held_after (es : list Event) (g : Held) : Held :=
  foldl (λ g e, match e with
    | EvSettled _ _ => set_reservation None g
    | EvCircuit _ (ReportedSuccess | ReportedFailure _ | PermitDropped) => set_circuit None g
    | _ => g
    end) g es.

Lemma runs_price g es g' o :
  generation_price d = Some price → runs (price_of d) g es g' o → es = [] ∧ g' = g ∧ o = Done price.
Proof. unfold price_of. intros ->. apply runs_ret. Qed.
Lemma runs_finish f g es g' o :
  runs (finish_audit f) g es g' o →
  ∃ r, es = [EvAudit (CallFinish f) r] ∧ g' = g ∧ o = finish_outcome r (Done ()).
Proof.
  unfold finish_audit. intros H. inv_run.
  - apply runs_audit in H as ([r|] & -> & -> & E); simplify_eq. inv_run.
    exists (Answered r). split_and!; [done..|]. by destruct r as [[]|].
  - apply runs_audit in H as ([r|] & -> & -> & E); simplify_eq. by exists Abandoned.
Qed.
(** The end of the audit, and an error after it. *)
Lemma runs_finish_fail {A} f e g es g' (o : outcome A) :
  runs (_ ← finish_audit f; fail e) g es g' o →
  ∃ r, es = [EvAudit (CallFinish f) r] ∧ g' = g ∧ o = finish_outcome r (Exit (ReturnErr e)).
Proof.
  intros H. inv_run; apply runs_finish in H as (r & -> & -> & E); exists r; repeat inv_run.
  - split_and!; [done..|]. by destruct r as [[|]|]; simplify_eq/=.
  - split_and!; [done..|]. by destruct r as [[|]|]; simplify_eq/=.
Qed.

Lemma runs_finish_ret {A} f (x : A) g es g' o :
  runs (_ ← finish_audit f; mret x) g es g' o →
  ∃ r, es = [EvAudit (CallFinish f) r] ∧ g' = g ∧ o = finish_outcome r (Done x).
Proof.
  intros H. inv_run; apply runs_finish in H as (r & -> & -> & E); exists r; repeat inv_run.
  - split_and!; [done..|]. by destruct r as [[|]|]; simplify_eq/=.
  - split_and!; [done..|]. by destruct r as [[|]|]; simplify_eq/=.
Qed.
Lemma audit_failed_runs n u e g es g' o :
  runs (audit_failed n u e) g es g' o →
  ∃ r, es = [EvAudit (CallFinish (audited "audit_failed" n u)) r] ∧ g' = g
    ∧ o = finish_outcome (A:=control) r (Exit (ReturnErr e)).
Proof. apply runs_finish_fail. Qed.

(** Continue with the operations on shared state and on the audit. *)
Ltac inv_runs :=
  repeat first
  [ match goal with
    | H : runs (mbind (λ _, fail _) (finish_audit _)) _ _ _ _ |- _ =>
        apply runs_finish_fail in H as (? & -> & -> & ->)
    | H : runs (mbind (λ _, mret _) (finish_audit _)) _ _ _ _ |- _ =>
        apply runs_finish_ret in H as (? & -> & -> & ->)
    end
  | inv_run
  | match goal with
    | H : runs instant_now _ _ _ _ |- _ => apply runs_instant in H as (-> & -> & ? & ?); simplify_eq
    | H : runs (tell_audit _) _ _ _ _ |- _ => apply runs_audit in H as ([[[]|]|] & -> & -> & ?); simplify_eq
    | H : runs (report_succeeded _ _) _ _ _ _ |- _ => apply runs_circuit_success in H as (-> & -> & ?); simplify_eq
    | H : runs (report_failed _ _ _ _) _ _ _ _ |- _ =>
        apply runs_circuit_failure in H as (-> & -> & ?); simplify_eq
    | H : runs (reconcile_bound _ _ _ _ _) _ _ _ _ |- _ =>
        apply runs_reconcile_bound in H as (-> & -> & ?); simplify_eq
    | H : runs (reconcile_usage _ _ _ _) _ _ _ _ |- _ =>
        apply runs_reconcile_bound in H as (-> & -> & ?); simplify_eq
    | H : runs (audit_failed _ _ _) _ _ _ _ |- _ => apply audit_failed_runs in H as (? & -> & -> & ->)
    | Hp : generation_price d = Some price, H : runs (price_of d) _ _ _ _ |- _ =>
        apply (runs_price _ _ _ _ Hp) in H as (-> & -> & ?); simplify_eq
    end ].

Lemma on_failure_runs permit n envelope error g es g' o :
  generation_price d = Some price →
  runs (on_failure a d permit n envelope error) g es g' o →
  ∃ es', es = EvCircuit (dp_id d) (ReportedFailure error) :: es' ∧ failure_log n envelope error es' o
    ∧ g' = held_after es g.
Proof.
  intros Hp. unfold on_failure. intros H. inv_runs; eexists; split_and!; try done; try constructor.
Qed.
Lemma on_success_runs permit n response g es g' o :
  generation_price d = Some price →
  runs (on_success a d permit n response) g es g' o →
  let u := settled_usage m price (rp_usage response) Accepted m in
  ∃ es', es = [EvCircuit (dp_id d) ReportedSuccess; EvSettled m u] ++ es' ∧ success_log n u response es' o
    ∧ g' = held_after es g.
Proof.
  intros Hp. unfold on_success. intros H.
  destruct (recover_response (rp_output response) (ad_pii a)).2 as [output|error] eqn:Er.
  - inv_runs; eexists; (split_and!; [reflexivity| |reflexivity]); by econstructor.
  - inv_runs; eexists; (split_and!; [reflexivity| |reflexivity]).
    + by apply (sl_unresolved _ _ _ error).
    + by apply (sl_unresolved_unaudited _ _ _ error (Answered (Err _))).
    + by apply (sl_unresolved_unaudited _ _ _ error Abandoned).
Qed.

Lemma dispatch_runs permit p g es g' o q :
  generation_price d = Some price → prepared q →
  runs (dispatch a d permit p) g es g' o → dispatch_log p es o ∧ g' = held_after es g.
Proof.
  intros Hp Hq. unfold dispatch. rewrite Hq. intros H.
  destruct (dp_provider d) as [protocol|protocol] eqn:Ed; inv_runs.
  all: try (by split; [constructor|]).
  - match goal with H : runs (generate _ _ _) _ _ _ _ |- _ =>
      apply runs_generate in H as ([answer|] & -> & -> & ?); simplify_eq end.
    destruct (provider_result _ _) as [response|error] eqn:Er.
    + match goal with H : runs (on_success _ _ _ _ _) _ _ _ _ |- _ =>
        apply on_success_runs in H as (es' & -> & Hl & ->); [|done] end.
      split; [|done]. by eapply dl_success.
    + match goal with H : runs (on_failure _ _ _ _ _ _) _ _ _ _ |- _ =>
        apply on_failure_runs in H as (es' & -> & Hl & ->); [|done] end.
      split; [|done]. by eapply dl_failure.
  - match goal with H : runs (generate _ _ _) _ _ _ _ |- _ =>
      apply runs_generate in H as ([answer|] & -> & -> & ?); simplify_eq end.
    split; [by eapply dl_no_answer|done].
  - split; [|done]. apply dl_no_executor. by rewrite Ed.
Qed.

Definition is_report (e : Event) : bool :=
  match e with EvCircuit _ (ReportedSuccess | ReportedFailure _) => true | _ => false end.
Definition is_settled (e : Event) : bool := match e with EvSettled _ _ => true | _ => false end.
Inductive attempt_log (p : Progress) : list Event → outcome control → Prop :=
| al_limit : ap_max_attempts (ad_alias a) ≤ pg_attempts p → attempt_log p [] (Done (Break p))
| al_deadline :
    attempt_log p [] (Done (Break {| pg_attempts := pg_attempts p; pg_envelope := pg_envelope p;
                                     pg_last_error := Some timeout_before_acceptance |}))
| al_unavailable : attempt_log p [] (Done (Continue p))
| al_no_capacity :
    attempt_log p [EvCircuit (dp_id d) PermitAcquired; EvCircuit (dp_id d) PermitDropped] (Done (Continue p))
| al_dispatch es o :
    pg_attempts p < ap_max_attempts (ad_alias a) → dispatch_log p es o →
    attempt_log p (EvCircuit (dp_id d) PermitAcquired
                   :: es ++ (if existsb is_report es then [] else [EvCircuit (dp_id d) PermitDropped])) o.

(** Between two attempts no circuit and no deployment is held. *)
Definition idle (g : Held) : Prop := hd_circuit g = None ∧ hd_permit g = None.
Definition keeps (g : Held) (es : list Event) (g' : Held) : Prop :=
  hd_admission g' = hd_admission g ∧ idle g'
  ∧ hd_reservation g' = if existsb is_settled es then None else hd_reservation g.

(** The parts of what is held, after events that do not drop a permit. *)
Lemma held_after_parts es g :
  hd_admission (held_after es g) = hd_admission g
  ∧ hd_permit (held_after es g) = hd_permit g
  ∧ hd_reservation (held_after es g) = (if existsb is_settled es then None else hd_reservation g)
  ∧ (Forall (λ e, ∀ i, e ≠ EvCircuit i PermitDropped) es →
     hd_circuit (held_after es g) = if existsb is_report es then None else hd_circuit g).
Proof.
  unfold held_after. revert g. induction es as [|e es IH]; intros g; [done|]. cbn [foldl existsb].
  specialize (IH (match e with EvSettled _ _ => set_reservation None g
    | EvCircuit _ (ReportedSuccess | ReportedFailure _ | PermitDropped) => set_circuit None g | _ => g end))
    as (-> & -> & -> & Hc).
  split_and!; try (by repeat case_match).
  intros [He Hes]%Forall_cons. rewrite Hc by done. destruct e as [| | | |i []|]; cbn; try done; try (by case_match).
  by destruct (He i).
Qed.
Lemma dispatch_log_undropped p es o :
  dispatch_log p es o → Forall (λ e, ∀ i, e ≠ EvCircuit i PermitDropped) es.
Proof.
  assert (∀ n u response es o, success_log n u response es o → Forall (λ e, ∀ i, e ≠ EvCircuit i PermitDropped) es)
    as Hs by (by destruct 1; repeat constructor).
  assert (∀ n v error es o, failure_log n v error es o → Forall (λ e, ∀ i, e ≠ EvCircuit i PermitDropped) es)
    as Hf by (by destruct 1; repeat constructor).
  destruct 1; try (by repeat constructor); (apply Forall_app; split; [by repeat constructor|eauto]).
Qed.

Lemma attempt_runs p g es g' o q :
  generation_price d = Some price → prepared q → idle g →
  runs (attempt a d p) g es g' o → attempt_log p es o ∧ keeps g es g'.
Proof.
  intros Hp Hq [Hc Hd]. unfold attempt.
  destruct (_ <=? _)%nat eqn:En; [intros H; inv_run; split; [constructor; by apply Nat.leb_le|done]|].
  apply Nat.leb_gt in En. intros H. inv_runs. destruct (_ <=? _)%N; [inv_run; split; [constructor|done]|]. inv_runs.
  match goal with H : runs (finally _ _) _ _ _ _ |- _ =>
    apply runs_finally in H as (es1 & g1 & es2 & u & H & He & ->) end.
  apply runs_end_attempt in He as [-> ->].
  apply runs_bind in H as [(permit & es3 & g3 & es4 & H & Hk & ->)|(x & H & ->)].
  2: { by apply runs_dispatch_health in H as [(_ & _ & [=])|(? & _ & _ & [=])]. }
  apply runs_dispatch_health in H as [(-> & -> & [= ->])|(c & -> & -> & [= ->])].
  { inv_run. unfold circuit_dropped. rewrite Hc. split; [constructor|done]. }
  apply runs_bind in Hk as [(b & es3 & g3 & es5 & H & Hk & ->)|(x & H & ->)].
  2: { by apply runs_deployment_permit in H as (_ & [[_ [=]]|[_ [=]]]). }
  apply runs_deployment_permit in H as (-> & [[-> [= ->]]|[-> [= ->]]]); cbn [negb] in Hk.
  2: { inv_run. split; [constructor|]. by split_and!. }
  eapply dispatch_runs in Hk as [Hl ->]; [|done|exact Hq].
  pose proof (dispatch_log_undropped _ _ _ Hl) as Hu.
  destruct (held_after_parts es5 (set_permit (Some (dp_id d)) (set_circuit (Some (dp_id d, c)) g)))
    as (H1 & H2 & H3 & H4). specialize (H4 Hu). unfold circuit_dropped. rewrite H4. cbn in H1, H2, H3 |- *.
  split.
  - destruct (existsb is_report es5) eqn:E.
    + pose proof (al_dispatch p es5 o En Hl) as Ha. by rewrite E in Ha.
    + pose proof (al_dispatch p es5 o En Hl) as Ha. by rewrite E in Ha.
  - split_and!; [done|done|]. cbn. rewrite H3, existsb_app. by destruct (existsb is_report es5); rewrite ?orb_false_r.
Qed.
End attempt.

(** ** The log of the attempts *)

Section attempts.
Context (a : AdmissionContext (Rest:=Rest)).

Inductive loop_log : list Deployment → Progress → list Event → outcome control → Prop :=
| ll_nil p : loop_log [] p [] (Done (Break p))
| ll_next d ds price p p' es es' o :
    generation_price d = Some price →
    attempt_log a d price p es (Done (Continue p')) → loop_log ds p' es' o → loop_log (d :: ds) p (es ++ es') o
| ll_stop d ds price p es o :
    generation_price d = Some price →
    attempt_log a d price p es o → (∀ p', o ≠ Done (Continue p')) → loop_log (d :: ds) p es o.

(** An attempt that is followed by another has settled nothing. *)
Lemma continue_unsettled d price p es p' :
  attempt_log a d price p es (Done (Continue p')) → existsb is_settled es = false.
Proof.
  intros H. remember (Done (Continue p')) as o eqn:Eo. destruct H as [| | | |es o Hn Hl]; try done.
  cbn [existsb is_settled]. rewrite existsb_app.
  assert (existsb is_settled es = false) as ->; [|by destruct (existsb is_report es)].
  destruct Hl as [|e r| |c q|c q answer response es o u Hq Hr Hs|c q answer error es o Hq Hr Hf]; try done.
  - by destruct r as [[]|].
  - by destruct Hs as [? r| ? r| |? ? r|? r]; try destruct r as [[]|].
  - destruct Hf as [|e r|]; [done|by destruct r as [[]|]|done].
Qed.

(** What the selection of candidates and their prices give. *)
Definition dispatchable (d : Deployment) : Prop := is_Some (generation_price d) ∧ ∃ q, prepared a d q.

Lemma loop_runs ds p g es g' o :
  Forall dispatchable ds → idle g →
  runs (attempt_loop a ds p) g es g' o → loop_log ds p es o ∧ keeps g es g'.
Proof.
  intros Hds. revert p g es g' o. induction Hds as [|d ds [[price Hp] [q Hq]] Hds IH]; intros p g es g' o Hg H.
  { cbn [attempt_loop] in H. inv_run. split; [constructor|]. by destruct Hg. }
  cbn [attempt_loop] in H. apply runs_bind in H as [(c & es1 & g1 & es2 & H & Hk & ->)|(x & H & ->)].
  - eapply attempt_runs in H as [Hl (Ha & Hi & Hr)]; [|exact Hp|exact Hq|exact Hg]. destruct c as [p'|p'|x].
    + apply IH in Hk as [Hk (Ha' & Hi' & Hr')]; [|done]. split; [by eapply ll_next|].
      split_and!; [congruence|apply Hi'..|]. rewrite Hr', existsb_app, Hr, (continue_unsettled _ _ _ _ _ Hl). done.
    + inv_run. rewrite app_nil_r. split; [by eapply ll_stop|done].
    + inv_run. rewrite app_nil_r. split; [by eapply ll_stop|done].
  - eapply attempt_runs in H as [Hl Hk]; [|exact Hp|exact Hq|exact Hg]. split; [by eapply ll_stop|done].
Qed.
Lemma loop_no_continue ds p es p' : ¬ loop_log ds p es (Done (Continue p')).
Proof.
  revert p es. induction ds as [|d ds IH]; intros p es H; inversion H; subst; [by eapply IH|naive_solver].
Qed.

Definition no_progress : Progress := {| pg_attempts := 0; pg_envelope := 0; pg_last_error := None |}.
Inductive attempts_log (first_price : GenerationPrice) (ds : list Deployment) :
    list Event → outcome LlmExecution → Prop :=
| tl_returned es x : loop_log ds no_progress es (Done (Return x)) → attempts_log first_price ds es (Done x)
| tl_exited es x : loop_log ds no_progress es (Exit x) → attempts_log first_price ds es (Exit x)
| tl_failed es p r :
    let error := default nothing_available (pg_last_error p) in
    let u := settled_usage (ad_reserved a) first_price None (ie_acceptance error) (pg_envelope p) in
    loop_log ds no_progress es (Done (Break p)) →
    attempts_log first_price ds
      (es ++ [EvSettled (ad_reserved a) u; EvAudit (CallFinish (audited "failed" (pg_attempts p) u)) r])
      (finish_outcome r (Exit (ReturnErr (public_error error)))).

Lemma attempts_runs first_price ds g es g' o :
  Forall dispatchable ds → idle g →
  runs (run_attempts a first_price ds) g es g' o → attempts_log first_price ds es o ∧ keeps g es g'.
Proof.
  intros Hds Hg. unfold run_attempts. intros H.
  apply runs_bind in H as [(c & es1 & g1 & es2 & H & Hk & ->)|(x & H & ->)].
  - apply loop_runs in H as [Hl (Ha & Hi & Hr)]; [|done|done]. destruct c as [p|p|x].
    + by apply loop_no_continue in Hl.
    + apply runs_bind in Hk as [(u & es3 & g3 & es4 & H & Hk & ->)|(x & H & ->)];
        apply runs_reconcile_bound in H as (-> & -> & E); simplify_eq.
      apply runs_finish_fail in Hk as (r & -> & -> & ->). split; [by apply tl_failed|].
      split_and!; [done|apply Hi..|]. rewrite existsb_app. cbn. by rewrite orb_true_r.
    + inv_run. rewrite app_nil_r. split; [by constructor|done].
  - apply loop_runs in H as [Hl Hk]; [|done|done]. split; [by constructor|done].
Qed.
End attempts.

(** ** The log of a request *)

Section request.
Context (key : text) (context : LlmRequestContext) (root : LlmPublishedSnapshot (Rest:=Rest)).
Context (request : InferenceRequest) (client_protocol : ClientProtocol).

(** What reaches the attempts: the masked request, the candidates and the reservation. *)
Record admits (a : AdmissionContext (Rest:=Rest)) (ds : list Deployment) : Prop := {
  am_alias : sn_aliases root !! rq_model request = Some (ad_alias a);
  am_context : ad_context a = context ∧ ad_root a = root ∧ ad_client_protocol a = client_protocol;
  am_masked : ∃ s, RequestPiiSession_new (ap_pii (ad_alias a)) key = Ok s
    ∧ tokenize_request (rq_messages request) s = (ad_pii a, Ok (rq_messages (ad_request a)));
  am_carries : ad_carries_continuation a = bool_decide (is_Some (rq_provider_continuation request));
  am_candidates : ds `sublist_of` ap_deployments (ad_alias a);
  am_reserved : ∃ prices, Forall2 (λ d price, generation_price d = Some price) ds prices
    ∧ ad_reserved a = default u64_max (maximum_attempt_envelope
        ((λ price, cost price (ad_estimated_input a) (ad_max_output a)) <$> prices)
        (ap_max_attempts (ad_alias a)));
  am_dispatchable : Forall (dispatchable a) ds;
}.

(** The audit is opened with the mode of the alias, for this request. *)
Definition opens (mode : AuditMode) (start : AuditStart) : Prop :=
  ∃ alias s, sn_aliases root !! rq_model request = Some alias ∧ RequestPiiSession_new (ap_pii alias) key = Ok s
    ∧ mode = ap_audit alias ∧ start = audit_start context root alias s.

Inductive request_log : list Event → outcome LlmExecution → Prop :=
| rl_refused e : request_log [] (Exit (ReturnErr e))
| rl_unaudited mode start r e :
    opens mode start → r ≠ answered_ok →
    request_log [EvAudit (CallReserve mode start) r] (finish_outcome r (Exit (ReturnErr e)))
| rl_rejected mode start r e :
    opens mode start →
    request_log [EvAudit (CallReserve mode start) answered_ok; EvAudit (CallFinish rejected_finish) r]
      (finish_outcome r (Exit (ReturnErr e)))
| rl_panicked mode start : opens mode start → request_log [EvAudit (CallReserve mode start) answered_ok] (Exit Panic)
| rl_attempted mode start a first_price ds es o :
    opens mode start → admits a ds → attempts_log a first_price ds es o →
    request_log
      (EvAudit (CallReserve mode start) answered_ok :: EvReserved (ad_reserved a)
       :: es ++ (if existsb is_settled es then [] else [EvReleased (ad_reserved a)])) o.

Lemma runs_reject {A} e g es g' (o : outcome A) :
  runs (reject e) g es g' o →
  ∃ r, es = [EvAudit (CallFinish rejected_finish) r] ∧ g' = g ∧ o = finish_outcome r (Exit (ReturnErr e)).
Proof. apply runs_finish_fail. Qed.

Lemma runs_take alias g es g' o :
  runs (take_continuation context root alias request client_protocol) g es g' o →
  g' = g ∧
  ((∃ request' pinned, es = []
      ∧ o = Done (request', pinned, bool_decide (is_Some (rq_provider_continuation request)))
      ∧ rq_messages request' = rq_messages request)
   ∨ ∃ e r, es = [EvAudit (CallFinish rejected_finish) r] ∧ o = finish_outcome r (Exit (ReturnErr e))).
Proof.
  unfold take_continuation. destruct (rq_provider_continuation request) as [sealed|].
  - destruct (_ && _); [intros H; inv_run; split; [done|]; left; by eexists _, _|].
    destruct (resolve_continuation _ _ _ _ _) as [resolved|e].
    + intros H. inv_run. split; [done|]. left. by eexists _, _.
    + intros (r & -> & -> & ->)%runs_reject. split; [done|]. right. by eexists _, _.
  - destruct (_ && _).
    + intros (r & -> & -> & ->)%runs_reject. split; [done|]. right. by eexists _, _.
    + intros H. inv_run. split; [done|]. left. by eexists _, _.
Qed.

Lemma runs_supports (d : Deployment) required g es g' o :
  runs (supports d required) g es g' o → es = [] ∧ g' = g ∧ ∃ b, o = Done b.
Proof.
  unfold supports, utc_now. intros H.
  apply runs_bind in H as [(b & es1 & g1 & es2 & H & Hk & ->)|(x & H & ->)];
    apply runs_ready in H as (-> & -> & b' & E); simplify_eq.
  destruct b'; cbn [negb] in Hk; [|inv_run; eauto].
  apply runs_bind in Hk as [(n & es3 & g3 & es4 & H & Hk & ->)|(x & H & ->)];
    apply runs_atomic in H as (-> & -> & w & E); simplify_eq. inv_run. eauto.
Qed.
Lemma runs_candidate req required pinned (d : Deployment) g es g' o :
  runs (is_candidate req client_protocol required pinned d) g es g' o →
  es = [] ∧ g' = g ∧ ∃ b, o = Done b ∧ (b = true → takes_request d req client_protocol = true).
Proof.
  unfold is_candidate. destruct (negb _); intros H.
  { inv_run. split_and!; [done..|]. by exists false. }
  apply runs_bind in H as [(b & es1 & g1 & es2 & H & Hk & ->)|(x & H & ->)];
    apply runs_supports in H as (-> & -> & b' & E); simplify_eq.
  inv_run. split_and!; [done..|]. eexists. split; [done|]. intros H. bool_prop. tauto.
Qed.
Lemma runs_select req required pinned l g es g' o :
  runs (select_candidates (Rest:=Rest) req client_protocol required pinned l) g es g' o →
  es = [] ∧ g' = g ∧ ∃ ds, o = Done ds ∧ ds `sublist_of` l
    ∧ Forall (λ d, takes_request d req client_protocol = true) ds.
Proof.
  revert g es g' o. induction l as [|d l IH]; intros g es g' o H; cbn [select_candidates] in H.
  { inv_run. split_and!; [done..|]. by exists []. }
  apply runs_bind in H as [(b & es1 & g1 & es2 & H & Hk & ->)|(x & H & ->)];
    apply runs_candidate in H as (-> & -> & b' & E & Hb); simplify_eq.
  apply runs_bind in Hk as [(ds & es3 & g3 & es4 & H & Hk & ->)|(x & H & ->)];
    apply IH in H as (-> & -> & ds' & E & Hs & Hf); simplify_eq.
  inv_run. split_and!; [done..|]. eexists. split; [done|]. destruct b'; split; eauto using sublist_cons, sublist_skip.
Qed.
Lemma runs_costs i o' l g es g' o :
  runs (costs_of (Rest:=Rest) i o' l) g es g' o →
  es = [] ∧ g' = g ∧
  (o = Exit Panic ∨ ∃ prices, Forall2 (λ d price, generation_price d = Some price) l prices
     ∧ o = Done ((λ price, cost price i o') <$> prices)).
Proof.
  revert g es g' o. induction l as [|d l IH]; intros g es g' o H; cbn [costs_of] in H.
  { inv_run. split_and!; [done..|]. right. by exists []. }
  unfold price_of in H. destruct (generation_price d) as [price|] eqn:Ep; [|inv_run; inv_run; eauto].
  inv_run; inv_run.
  match goal with H : runs (mbind _ (costs_of _ _ _)) _ _ _ _ |- _ =>
    apply runs_bind in H as [(cs & es3 & g3 & es4 & H & Hk & ->)|(x & H & ->)];
    apply IH in H as (-> & -> & [E|(prices & Hf & E)]) end; simplify_eq.
  - inv_run. split_and!; [done..|]. right. exists (price :: prices). split; [by constructor|done].
  - split_and!; [done..|]. by left.
Qed.

Lemma runs_permits stripe g es g' o :
  runs (fail_fast_permits stripe) g es g' o →
  es = [] ∧ (o = Done () ∧ g' = set_admission (Some stripe) g ∨ o = Exit (ReturnErr Capacity) ∧ g' = g).
Proof.
  unfold fail_fast_permits, try_global, try_principal, try_alias, release_global, release_principal. intros H.
  repeat first
    [ inv_run
    | match goal with
      | H : runs (atomic _) _ _ _ _ |- _ => apply runs_atomic in H as (-> & -> & ? & ?); simplify_eq
      | H : runs (if negb ?b then _ else _) _ _ _ _ |- _ => destruct b; cbn [negb] in H
      end ]; eauto.
Qed.
Lemma runs_drop_usage g es g' u :
  runs drop_usage g es g' u →
  es = (match hd_reservation g with Some m => [EvReleased m] | None => [] end) ∧ g' = set_reservation None g
  ∧ u = Done ().
Proof.
  unfold drop_usage. intros H. inv_run; inv_run. destruct g as [ga [m|] gc gp]; cbn [hd_reservation] in *;
    [|by inv_run].
  inv_run; match goal with H : runs (with_ledger _) _ _ _ _ |- _ =>
    apply runs_ledger in H as (-> & -> & ? & ?); simplify_eq end. by repeat inv_run.
Qed.
Lemma runs_drop_admission g es g' u :
  runs drop_admission g es g' u → es = [] ∧ g' = set_admission None g.
Proof.
  unfold drop_admission, release_global, release_principal, release_alias. intros H. inv_run; inv_run.
  destruct g as [[stripe|] gr gc gp]; cbn [hd_admission] in *; [|by inv_run].
  by repeat first
    [ inv_run
    | match goal with H : runs (atomic _) _ _ _ _ |- _ => apply runs_atomic in H as (-> & -> & ? & ?); simplify_eq end ].
Qed.
Lemma runs_end_request g es g' u :
  runs end_request g es g' u →
  es = (match hd_reservation g with Some m => [EvReleased m] | None => [] end)
  ∧ g' = set_admission None (set_reservation None g).
Proof.
  unfold end_request. intros H.
  apply runs_bind in H as [(x & es1 & g1 & es2 & H & Hk & ->)|(x & H & ->)];
    apply runs_drop_usage in H as (-> & -> & E); simplify_eq.
  apply runs_drop_admission in Hk as [-> ->]. by rewrite app_nil_r.
Qed.

Lemma admitted_runs alias req pinned carried pii g es g' o :
  idle g → hd_reservation g = None →
  runs (execute_admitted context root alias req client_protocol pinned carried pii) g es g' o →
  (∃ e r, es = [EvAudit (CallFinish rejected_finish) r] ∧ g' = g ∧ o = finish_outcome r (Exit (ReturnErr e)))
  ∨ (es = [] ∧ g' = g ∧ o = Exit Panic)
  ∨ (∃ a first_price ds es',
      es = EvReserved (ad_reserved a) :: es' ∧ attempts_log a first_price ds es' o
      ∧ keeps (set_reservation (Some (ad_reserved a)) g) es' g'
      ∧ (ad_context a = context ∧ ad_root a = root ∧ ad_client_protocol a = client_protocol)
      ∧ ad_alias a = alias ∧ ad_request a = req ∧ ad_carries_continuation a = carried ∧ ad_pii a = pii
      ∧ ds `sublist_of` ap_deployments alias ∧ Forall (dispatchable a) ds
      ∧ ∃ prices, Forall2 (λ d price, generation_price d = Some price) ds prices
          ∧ ad_reserved a = default u64_max (maximum_attempt_envelope
              ((λ price, cost price (ad_estimated_input a) (ad_max_output a)) <$> prices) (ap_max_attempts alias))).
Proof.
  intros Hg Hr. unfold execute_admitted.
  assert (∀ e, runs (reject (A:=LlmExecution) e) g es g' o → ∃ e' r,
    es = [EvAudit (CallFinish rejected_finish) r] ∧ g' = g ∧ o = finish_outcome r (Exit (ReturnErr e'))) as Hrej.
  { intros e (r & ? & ? & ?)%runs_reject. eauto. }
  destruct (_ || _); [intros H; left; by eapply Hrej|]. destruct (_ && _); [intros H; left; by eapply Hrej|].
  destruct (negb _); [intros H; left; by eapply Hrej|]. intros H.
  apply runs_bind in H as [(ds & es1 & g1 & es2 & H & Hk & ->)|(x & H & ->)];
    apply runs_select in H as (-> & -> & ds' & E & Hs & Hf); simplify_eq.
  destruct (carried && _ && _); [left; by eapply Hrej|]. destruct (_ && _); [left; by eapply Hrej|].
  destruct ds' as [|first ds]; [left; by eapply Hrej|].
  unfold price_of in Hk. destruct (generation_price first) as [first_price|] eqn:Ef.
  2: { inv_run; inv_run. eauto. }
  inv_run; inv_run.
  match goal with H : runs (mbind _ (costs_of _ _ _)) _ _ _ _ |- _ =>
    apply runs_bind in H as [(cs & es3 & g3 & es4 & H & Hk' & ->)|(x & H & ->)];
    apply runs_costs in H as (-> & -> & [E|(prices & Hprices & E)]) end; simplify_eq; [|eauto].
  apply runs_bind in Hk' as [(rs & es3 & g3 & es5 & H & Hk & ->)|(x & H & ->)].
  2: { by apply runs_reserve_usage in H as [(_ & _ & [=])|(_ & _ & [=])]. }
  apply runs_reserve_usage in H as [(-> & -> & [= ->])|(-> & -> & [= ->])]; [|left; by eapply Hrej].
  match type of Hk with runs (run_attempts ?x _ _) _ _ _ _ => set (a := x) in Hk end.
  assert (Forall (dispatchable a) (first :: ds)) as Hd.
  { apply Forall_forall. intros d Hin. split.
    - apply list_elem_of_lookup in Hin as [i Hi]. by destruct (Forall2_lookup_l _ _ _ _ _ Hprices Hi) as (price & _ & ->).
    - rewrite Forall_forall in Hf. specialize (Hf d Hin). unfold takes_request in Hf. apply is_ok_true in Hf as [q Hq].
      exists (set_model (dp_model d) q).
      change (prepare_generate_request d (set_model (dp_model d) req) client_protocol = Ok (set_model (dp_model d) q)).
      rewrite prepare_set_model. by rewrite Hq. }
  apply attempts_runs in Hk as [Hl Hk]; [|done|done].
  right; right. exists a, first_price, (first :: ds), es5.
  do 8 (split; [done|]). split; [exact Hs|]. split; [done|]. by exists prices.
Qed.

(** Whatever the environment does, the log of a request is one of these, and nothing is
    held when it is over. *)
Lemma execute_runs es g' o :
  runs (execute_with_snapshot_protocol key context root request client_protocol) holds_nothing es g' o →
  request_log es o ∧ g' = holds_nothing.
Proof.
  unfold execute_with_snapshot_protocol. intros H.
  apply runs_bind in H as [(now & es1 & g1 & es2 & H & Hk & ->)|(x & H & ->)];
    apply runs_instant in H as (-> & -> & n & E); simplify_eq.
  destruct (_ <=? _)%N; [inv_run; split; [apply rl_refused|done]|].
  apply runs_bind in Hk as [(alias & es1 & g1 & es3 & H & Hk & ->)|(x & H & ->)];
    apply runs_ok in H as (-> & -> & E); destruct (sn_aliases root !! rq_model request) as [alias'|] eqn:Ea;
    cbn [ok_or] in E; simplify_eq.
  2: { split; [apply rl_refused|done]. }
  destruct (_ && _); [inv_run; split; [apply rl_refused|done]|].
  destruct (negb _); [inv_run; split; [apply rl_refused|done]|].
  apply runs_finally in Hk as (es1 & g1 & es2 & u & Hk & He & ->). apply runs_end_request in He as [-> ->].
  cbn [app]. revert Hk. generalize es1. clear es1. intros es1 Hk.
  apply runs_bind in Hk as [(x & es2 & g2 & es3 & H & Hk & ->)|(x & H & ->)];
    apply runs_permits in H as (-> & [[E ->]|[E ->]]); simplify_eq; [|split; [apply rl_refused|done]].
  apply runs_bind in Hk as [(pii & es2 & g2 & es4 & H & Hk & ->)|(x0 & H & ->)];
    apply runs_ok in H as (-> & -> & E); destruct (RequestPiiSession_new (ap_pii alias') key) as [s|e] eqn:Es;
    simplify_eq; [|split; [apply rl_refused|done]].
  assert (opens (ap_audit alias') (audit_start context root alias' s)) as Hop by (by exists alias', s).
  apply runs_bind in Hk as [(ar & es2 & g2 & es5 & H & Hk & ->)|(x0 & H & ->)];
    apply runs_audit in H as ([r|] & -> & -> & E); simplify_eq.
  2: { split; [by apply (rl_unaudited _ _ Abandoned AuditUnavailable)|done]. }
  apply runs_bind in Hk as [(x1 & es2 & g2 & es6 & H & Hk & ->)|(x1 & H & ->)];
    apply runs_ok in H as (-> & -> & E); destruct r as [[]|e]; simplify_eq.
  2: { split; [by apply (rl_unaudited _ _ (Answered (Err e)) AuditUnavailable)|done]. }
  apply runs_bind in Hk as [([[req pinned] carried] & es2 & g2 & es7 & H & Hk & ->)|(x1 & H & ->)];
    apply runs_take in H as [-> [(req' & pinned' & -> & E & Hm)|(e & r & -> & E)]]; simplify_eq.
  2: { destruct r as [[]|]; simplify_eq/=. }
  2: { split; [|done].
       replace (Exit x1) with (finish_outcome (A:=LlmExecution) r (Exit (ReturnErr e)))
         by (by destruct r as [[]|]; simplify_eq/=).
       by apply rl_rejected. }
  destruct (tokenize_request (rq_messages req') s) as [pii [messages|e]] eqn:Et.
  2: { apply runs_reject in Hk as (r & -> & -> & ->). split; [by apply rl_rejected|done]. }
  apply admitted_runs in Hk as [(e & r & -> & -> & ->)|[(-> & -> & ->)|(a & fp & ds & es8 & -> & Hl & (Ka & Ki & Kr) & Hc
    & Hal & Hrq & Hca & Hpi & Hds & Hdi & Hpr)]]; [| | |done|done].
  - split; [by apply rl_rejected|done].
  - split; [by apply rl_panicked|done].
  - split.
    + cbn in Kr. rewrite Kr.
      assert (admits a ds) as Had.
      { split; [by rewrite Hal|done| | |by rewrite Hal|by rewrite Hal|done].
        - exists s. rewrite Hal, Hpi, Hrq, <- Hm. cbn [set_messages rq_messages]. done.
        - done. }
      pose proof (rl_attempted (ap_audit alias') (audit_start context root alias' s) a fp ds es8 o Hop Had Hl) as Hrl.
      destruct (existsb is_settled es8); [|exact Hrl]. cbn [app]. rewrite ?app_nil_r in *. exact Hrl.
    + destruct g1 as [ga gr gc gp]. destruct Ki as [? ?]. cbn in *. by subst.
Qed.
End request.
End facts.
