(* ===== verification/GenerationResults.v ===== *)
(** * What a generation request guarantees

    The theorems of [Generation], read off the log grammar of [GenerationFacts]: which
    providers see the request, how its usage is settled, and what its audit trail says. *)

From S2P Require Import Prelude RustStr InferenceError LlmError Circuit Usage Readiness LlmAuthorization AuditWal.
From S2P Require Import ReasoningSeal Pii StreamEncoder Deployment Generation GenerationFacts.

(** ** Dispatches *)

Record Call := {
  cl_deployment : string;
  cl_request : InferenceRequest;
  cl_answer : awaited (option (result InferenceError InferenceResponse));
}.
Definition call_of (e : Event) : option Call :=
  match e with
  | EvGenerate d _ q r => Some {| cl_deployment := d; cl_request := q; cl_answer := r |}
  | _ => None
  end.
(** The dispatches in a log. *)
Definition calls (es : list Event) : list Call := omap call_of es.
(** The log of a computation. *)
Definition log_of {A} (x : World * list Event * Held * outcome A) : list Event := x.1.1.2.
Definition outcome_of {A} (x : World * list Event * Held * outcome A) : outcome A := x.2.

(** The operations on the ledger and the ends of the audit. *)
Definition ledger_of (e : Event) : option Event :=
  match e with EvReserved _ | EvSettled _ _ | EvReleased _ => Some e | _ => None end.
Definition ledger (es : list Event) : list Event := omap ledger_of es.
Definition finish_of (e : Event) : option AuditFinish :=
  match e with EvAudit (CallFinish f) _ => Some f | _ => None end.
Definition finishes (es : list Event) : list AuditFinish := omap finish_of es.

Lemma calls_app l k : calls (l ++ k) = calls l ++ calls k.
Proof. apply omap_app. Qed.

Lemma fmap_sublist_of {A B} (f : A → B) l k : l `sublist_of` k → (f <$> l) `sublist_of` (f <$> k).
Proof. induction 1; cbn; by constructor. Qed.

Lemma ledger_app l k : ledger (l ++ k) = ledger l ++ ledger k.
Proof. apply omap_app. Qed.
Lemma finishes_app l k : finishes (l ++ k) = finishes l ++ finishes k.
Proof. apply omap_app. Qed.

Section results.
Context {environment : Environment} {request_text : RequestText} {principal_hash : PrincipalHash}.
Context {prims : SealPrimitives} {detector : PiiDetector} {mac : PiiMac}.
Context {Rest : Type} {digest : ConformanceDigest (Rest:=Rest)}.
Abbreviation Deployment := (DeploymentRuntime (Rest:=Rest)) (only parsing).

Section attempts.
Context (a : AdmissionContext (Rest:=Rest)).

(** A call that was followed by another attempt. *)
Definition retried (c : Call) : Prop :=
  ∃ answer e, cl_answer c = Answered answer ∧ provider_result (ad_client_protocol a) answer = Err e
    ∧ retryable e = true ∧ ad_carries_continuation a = false.

Lemma success_log_calls d n u response es o : success_log a d n u response es o → calls es = [].
Proof. by destruct 1. Qed.
Lemma failure_log_calls price n v e es o : failure_log a price n v e es o → calls es = [].
Proof. by destruct 1. Qed.

Lemma can_retry_spec n e :
  can_retry a n e = true → ad_carries_continuation a = false ∧ retryable e = true ∧ n < ap_max_attempts (ad_alias a).
Proof.
  unfold can_retry. intros H. bool_prop. destruct H as [[[H1 _] H2] H3].
  split_and!; [by destruct (ad_carries_continuation a)|done|]. by apply Nat.ltb_lt.
Qed.

Lemma dispatch_calls d price p es o :
  dispatch_log a d price p es o →
  (calls es = [] ∧ ∀ p', o ≠ Done (Continue p'))
  ∨ ∃ c, calls es = [c] ∧ cl_deployment c = dp_id d ∧ prepared a d (cl_request c)
      ∧ (∀ p', o = Done (Continue p') → pg_attempts p' = S (pg_attempts p) ∧ retried c
           ∧ pg_attempts p' < ap_max_attempts (ad_alias a)).
Proof.
  destruct 1 as [|e r ?| |c q Hq|c q answer response es o u Hq Hr Hs|c q answer error es o Hq Hr Hf].
  - by left.
  - left. split; [done|]. by destruct r as [[]|].
  - by left.
  - right. eexists. by split_and!.
  - right. eexists. rewrite calls_app, (success_log_calls _ _ _ _ _ _ Hs). split_and!; [done..|].
    destruct Hs as [? r| ? r| |? ? r|? r]; try destruct r as [[]|]; done.
  - right. eexists. rewrite calls_app, (failure_log_calls _ _ _ _ _ _ Hf). split_and!; [done..|].
    destruct Hf as [|e r|]; [done|by destruct r as [[]|]|]. intros p'. cbn zeta.
    destruct (can_retry _ _ _) eqn:Ec; [|done]. intros [= <-]. apply can_retry_spec in Ec as (H1 & H2 & H3).
    split_and!; [done| |done]. by exists answer, error.
Qed.
Lemma attempt_calls d price p es o :
  attempt_log a d price p es o →
  (calls es = [] ∧ ∀ p', o = Done (Continue p') → p' = p)
  ∨ ∃ c, calls es = [c] ∧ cl_deployment c = dp_id d ∧ prepared a d (cl_request c)
      ∧ pg_attempts p < ap_max_attempts (ad_alias a)
      ∧ (∀ p', o = Done (Continue p') → pg_attempts p' = S (pg_attempts p) ∧ retried c
           ∧ pg_attempts p' < ap_max_attempts (ad_alias a)).
Proof.
  destruct 1 as [| | | |es o Hn Hl]; try (left; split; [done|]; naive_solver).
  assert (calls (EvCircuit (dp_id d) PermitAcquired
    :: es ++ (if existsb is_report es then [] else [EvCircuit (dp_id d) PermitDropped])) = calls es) as ->.
  { change (calls (?e :: ?l)) with (calls ([e] ++ l)). rewrite !calls_app. cbn.
    by destruct (existsb _ _); rewrite app_nil_r. }
  apply dispatch_calls in Hl as [[H1 H2]|(c & H1 & H2 & H3 & H4)]; [left|right].
  - split; [done|]. intros p' Hp. by destruct (H2 p').
  - by exists c.
Qed.

(** The calls of the loop over the candidates. *)
Record loop_calls (ds : list Deployment) (p : Progress) (cs : list Call) : Prop := {
  lc_count : length cs + pg_attempts p ≤ pg_attempts p `max` ap_max_attempts (ad_alias a);
  lc_order : (cl_deployment <$> cs) `sublist_of` (dp_id <$> ds);
  lc_prepared : Forall (λ c, ∃ d, d ∈ ds ∧ cl_deployment c = dp_id d ∧ prepared a d (cl_request c)) cs;
  lc_retried : ∀ i c, cs !! i = Some c → S i < length cs → retried c;
}.
Lemma loop_log_calls ds p es o : loop_log a ds p es o → loop_calls ds p (calls es).
Proof.
  induction 1 as [p|d ds price p p' es es' o Hp Hl _ [IH1 IH2 IH3 IH4]|d ds price p es o Hp Hl Hc].
  - split; cbn; [lia|apply sublist_nil_l|done|done].
  - rewrite calls_app. apply attempt_calls in Hl as [[-> Hc]|(c & -> & Hd & Hq & Hn & Hc)].
    + rewrite (Hc p' eq_refl) in *. split; [done|by apply sublist_cons| |done].
      eapply Forall_impl; [exact IH3|]. intros c (d' & ? & ?). exists d'. split; [by right|done].
    + destruct (Hc p' eq_refl) as (Ha & Hr & Hm). split; cbn.
      * lia.
      * rewrite Hd. by apply sublist_skip.
      * constructor; [exists d; split; [left|done]|].
        eapply Forall_impl; [exact IH3|]. intros c' (d' & ? & ?). exists d'. split; [by right|done].
      * intros [|i] c' Hi Hlt; cbn in Hi; [by simplify_eq|]. apply (IH4 i); [done|lia].
  - apply attempt_calls in Hl as [[-> _]|(c & -> & Hd & Hq & Hn & _)].
    + split; cbn; [lia|apply sublist_nil_l|done|done].
    + split; cbn; [lia| | |].
      * rewrite Hd. apply sublist_skip, sublist_nil_l.
      * constructor; [exists d; split; [left|done]|constructor].
      * intros i c' _ Hlt. lia.
Qed.
Lemma attempts_log_calls first_price ds es o :
  attempts_log a first_price ds es o → loop_calls ds no_progress (calls es).
Proof.
  destruct 1 as [es x H|es x H|es p r error u H]; [by eapply loop_log_calls..|].
  rewrite calls_app. cbn. rewrite app_nil_r. by eapply loop_log_calls.
Qed.
(** ** Usage *)

Definition states (u : ReconciledUsage) (f : AuditFinish) : Prop :=
  fn_charged_micros f = ru_charged_micros u ∧ fn_usage_complete f = ru_complete u.
(** The charge is the price of the tokens the provider reported last. *)
Definition reported_charge (es : list Event) (u : ReconciledUsage) : Prop :=
  ∃ c answer response usage i t (d : Deployment) price,
    last (calls es) = Some c ∧ cl_answer c = Answered answer ∧ cl_deployment c = dp_id d
    ∧ provider_result (ad_client_protocol a) answer = Ok response ∧ rp_usage response = Some usage
    ∧ nu_input_tokens usage = Some i ∧ nu_output_tokens usage = Some t
    ∧ generation_price d = Some price ∧ ru_charged_micros u = cost price i t.
Record settled_well (es : list Event) (u : ReconciledUsage) : Prop := {
  sw_stated : Forall (states u) (finishes es);
  sw_uncalled : calls es = [] → ru_charged_micros u = 0%N;
  sw_bounded : (ru_charged_micros u <= ad_reserved a)%N ∨ reported_charge es u;
}.
Definition no_executor : LlmGatewayError := Invariant "generate route selected an embedding executor".

Lemma ambiguous_bounded acceptance m v : ((ambiguous_charge acceptance m v).1 <= m)%N.
Proof. unfold ambiguous_charge. case_decide; cbn; [lia|]. destruct (m =? 0)%N eqn:E; cbn -[N.max N.min]; bool_prop; lia. Qed.
Lemma unreported_bounded m price acceptance v :
  (ru_charged_micros (settled_usage m price None acceptance v) <= m)%N
  ∧ (acceptance = NotAccepted → ru_charged_micros (settled_usage m price None acceptance v) = 0%N).
Proof.
  unfold settled_usage, generation_charge. pose proof (ambiguous_bounded acceptance m v) as H.
  destruct (ambiguous_charge acceptance m v) as [n b] eqn:E. split; [done|].
  intros ->. unfold ambiguous_charge in E. rewrite decide_True in E by done. by injection E as <- <-.
Qed.

(** What an attempt does to the ledger. *)
Record unsettled (p : Progress) (es : list Event) (o : outcome control) : Prop := {
  us_ledger : ledger es = [] ∧ finishes es = [];
  us_exit : match o with
    | Done (Continue p') | Done (Break p') =>
        calls es = [] → pg_last_error p' = pg_last_error p ∨ pg_last_error p' = Some timeout_before_acceptance
    | Done (Return _) => False
    | Exit x => x = Abandon ∨ x = ReturnErr no_executor
    end;
}.
Record settled (es : list Event) (o : outcome control) (u : ReconciledUsage) : Prop := {
  st_ledger : ledger es = [EvSettled (ad_reserved a) u];
  st_well : settled_well es u;
  st_exit : match o with Done (Continue _) | Done (Break _) => False | Done (Return x) => xe_usage x = u | Exit _ => True end;
}.
Lemma settled_success d price p c q answer response es o :
  let u := settled_usage (ad_reserved a) price (rp_usage response) Accepted (ad_reserved a) in
  generation_price d = Some price → provider_result (ad_client_protocol a) answer = Ok response →
  success_log a d (S (pg_attempts p)) u response es o →
  settled ([EvAudit (CallStarted (S (pg_attempts p)) (dp_id d) (Some (dp_audit_transport d))) (Answered (Ok ()));
            EvGenerate (dp_id d) c q (Answered answer); EvCircuit (dp_id d) ReportedSuccess;
            EvSettled (ad_reserved a) u] ++ es) o u.
Proof.
  intros u Hp Hr Hs. pose proof (success_log_calls _ _ _ _ _ _ Hs) as Hc.
  assert (ledger es = [] ∧ Forall (states u) (finishes es)) as [Hl Hf] by (by destruct Hs; repeat constructor).
  split.
  - by rewrite ledger_app, Hl.
  - split.
    + by rewrite finishes_app.
    + by rewrite calls_app.
    + unfold u, settled_usage, generation_charge. clear Hs Hf.
      pose proof (ambiguous_bounded Accepted (ad_reserved a) (ad_reserved a)) as Hb.
      destruct (rp_usage response) as [[[i|] [t|] ci rt]|] eqn:Eu;
        try (left; by destruct (ambiguous_charge _ _ _)).
      right. eexists _, answer, response, _, i, t, d, price. rewrite calls_app, Hc. by split_and!.
  - destruct Hs as [? r| ? r| |? ? r|? r]; try destruct r as [[]|]; done.
Qed.
Lemma dispatch_ledger d price p es o :
  generation_price d = Some price → dispatch_log a d price p es o → unsettled p es o ∨ ∃ u, settled es o u.
Proof.
  intros Hp. destruct 1 as [|e r u| |c q Hq|c q answer response es o u Hq Hr Hs|c q answer error es o Hq Hr Hf].
  - left. split; [done|by left].
  - right. exists u. destruct (unreported_bounded (ad_reserved a) price NotAccepted (ad_reserved a)) as [H1 H2].
    split; [done| |by destruct r as [[]|]]. split; [by repeat constructor|auto|by left].
  - left. split; [done|by right].
  - left. split; [done|by left].
  - right. exists u. by eapply settled_success.
  - destruct Hf as [|e r u|]; cbn zeta.
    + left. split; [done|by left].
    + right. exists u. destruct (unreported_bounded (ad_reserved a) price (ie_acceptance error) (envelope_after a price p)).
      split; [done| |by destruct r as [[]|]]. split; [by repeat constructor|done|by left].
    + left. split; [done|]. by destruct (can_retry _ _ _).
Qed.

(** Events that say nothing about usage, before and after. *)
Definition silent (es : list Event) : Prop := ledger es = [] ∧ finishes es = [] ∧ calls es = [].
Lemma silent_around l es k :
  silent l → silent k →
  ledger (l ++ es ++ k) = ledger es ∧ finishes (l ++ es ++ k) = finishes es ∧ calls (l ++ es ++ k) = calls es.
Proof.
  intros (L1 & L2 & L3) (K1 & K2 & K3).
  by rewrite !ledger_app, !finishes_app, !calls_app, L1, L2, L3, K1, K2, K3, !app_nil_r.
Qed.
Lemma attempt_ledger d price p es o :
  generation_price d = Some price → attempt_log a d price p es o → unsettled p es o ∨ ∃ u, settled es o u.
Proof.
  intros Hp. destruct 1 as [| | | |es o Hn Hl]; try (left; split; [done|by eauto]).
  destruct (silent_around [EvCircuit (dp_id d) PermitAcquired] es
    (if existsb is_report es then [] else [EvCircuit (dp_id d) PermitDropped])) as (E1 & E2 & E3);
    [done|by destruct (existsb is_report es)|]. cbn [app] in E1, E2, E3.
  destruct (dispatch_ledger _ _ _ _ _ Hp Hl) as [[H1 H2]|[u [H1 [W1 W2 W3] H3]]]; [left|right; exists u].
  - split; [by rewrite E1, E2|]. by rewrite E3.
  - split; [by rewrite E1| |done]. split; [by rewrite E2|by rewrite E3|].
    unfold reported_charge in *. by rewrite E3.
Qed.
Lemma settled_well_app l es u : finishes l = [] → settled_well es u → settled_well (l ++ es) u.
Proof.
  intros Hl [W1 W2 W3]. split.
  - by rewrite finishes_app, Hl.
  - rewrite calls_app. intros [_ H]%app_eq_nil. auto.
  - destruct W3 as [?|(c & answer & response & usage & i & t & d & price & H & W)]; [by left|]. right.
    exists c, answer, response, usage, i, t, d, price. split; [|done]. by rewrite calls_app, last_app, H.
Qed.
Lemma loop_ledger ds p es o : loop_log a ds p es o → unsettled p es o ∨ ∃ u, settled es o u.
Proof.
  induction 1 as [p|d ds price p p' es es' o Hp Hl _ IH|d ds price p es o Hp Hl Hc].
  - left. split; [done|by left].
  - apply (attempt_ledger _ _ _ _ _ Hp) in Hl as [[[H1 H2] H3]|[u [_ _ []]]].
    destruct IH as [[[I1 I2] I3]|[u [I1 I2 I3]]]; [left|right; exists u].
    + split; [by rewrite ledger_app, finishes_app, H1, H2, I1, I2|]. rewrite calls_app.
      destruct o as [[q|q|x]|x]; try done; intros [C1 C2]%app_eq_nil;
        (destruct (I3 C2) as [-> | ->]; [by apply H3|by right]).
    + split; [by rewrite ledger_app, H1|by apply settled_well_app|done].
  - by eapply attempt_ledger.
Qed.

(** What the attempts do to it. *)
Lemma attempts_ledger first_price ds es o :
  attempts_log a first_price ds es o →
  (ledger es = [] ∧ finishes es = [] ∧ existsb is_settled es = false
   ∧ (o = Exit Abandon ∨ o = Exit (ReturnErr no_executor)))
  ∨ ∃ u, ledger es = [EvSettled (ad_reserved a) u] ∧ existsb is_settled es = true ∧ settled_well es u
      ∧ ∀ x, o = Done x → xe_usage x = u.
Proof.
  assert (∀ es, existsb is_settled es = true ↔ ∃ m u, EvSettled m u ∈ ledger es) as Hs.
  { intros es'. rewrite existsb_exists. split.
    - intros (e & Hin & He). destruct e; try done. eexists _, _. apply list_elem_of_omap. eexists. split; [by apply list_elem_of_In|done].
    - intros (m & u & (e & Hin & He)%list_elem_of_omap). exists e. split; [by apply list_elem_of_In|].
      destruct e; cbn in He; by simplify_eq. }
  assert (∀ es, ledger es = [] → existsb is_settled es = false) as Hn.
  { intros es' E. apply not_true_iff_false. rewrite Hs, E. intros (m & u & H). by apply not_elem_of_nil in H. }
  destruct 1 as [es x H|es x H|es p r error u H]; apply loop_ledger in H as [[[H1 H2] H3]|[u' [H1 H2 H3]]]; try done.
  - right. exists u'. split_and!; [done| |done|by intros ? [= <-]]. apply Hs. rewrite H1. eexists _, _. by left.
  - left. split_and!; [done..|by apply Hn|]. destruct H3 as [-> | ->]; by eauto.
  - right. exists u'. split_and!; [done| |done|done]. apply Hs. rewrite H1. eexists _, _. by left.
  - right. exists u. rewrite ledger_app, H1.
    destruct (unreported_bounded (ad_reserved a) first_price (ie_acceptance error) (pg_envelope p)) as [B1 B2].
    split_and!; [done| | |by destruct r as [[]|]].
    + apply Hs. rewrite ledger_app, H1. eexists _, _. by left.
    + split; [by rewrite finishes_app, H2; repeat constructor| |by left].
      rewrite calls_app, app_nil_r. intros Hc. apply B2. unfold error.
      destruct (H3 Hc) as [-> | ->]; done.
Qed.
End attempts.

Section request.
Context (key : text) (context : LlmRequestContext) (root : LlmPublishedSnapshot (Rest:=Rest)).
Context (request : InferenceRequest) (client_protocol : ClientProtocol).
Abbreviation execute := (execute_with_snapshot_protocol key context root request client_protocol).

Lemma execute_log w h :
  request_log key context root request client_protocol (log_of (execute w h holds_nothing))
    (outcome_of (execute w h holds_nothing)).
Proof.
  destruct (execute w h holds_nothing) as [[[w' es] g'] o] eqn:E.
  apply (execute_runs _ _ _ _ _ es g' o). by exists w, h, w'.
Qed.

Lemma request_log_calls es o :
  request_log key context root request client_protocol es o →
  calls es = [] ∨ ∃ a ds, admits key context root request client_protocol a ds
    ∧ loop_calls a ds no_progress (calls es).
Proof.
  destruct 1 as [| | | |mode start a first_price ds es o _ Ha Hl]; try (by left). right. exists a, ds. split; [done|].
  assert (calls (EvAudit (CallReserve mode start) (Answered (Ok ())) :: EvReserved (ad_reserved a)
    :: es ++ (if existsb is_settled es then [] else [EvReleased (ad_reserved a)])) = calls es) as ->.
  { cbn. change (omap call_of ?l) with (calls l). rewrite calls_app. by destruct (existsb _ _); rewrite app_nil_r. }
  by eapply attempts_log_calls.
Qed.

(** C13 A request is dispatched with discipline, whatever the providers, the audit and other
    requests do.  Every provider it is sent to sees the messages with personal data
    masked; it goes to deployments of the alias in their order, each at most once as long as
    their ids differ and at most [max_attempts] in all, and to no second one when it
    continues a sealed state; and it is sent on only after an error that the provider
    called safe to retry. *)
Theorem dispatch_disciplined w h :
  let cs := calls (log_of (execute w h holds_nothing)) in
  cs = [] ∨ ∃ alias s s' masked,
    sn_aliases root !! rq_model request = Some alias
    ∧ RequestPiiSession_new (ap_pii alias) key = Ok s
    ∧ tokenize_request (rq_messages request) s = (s', Ok masked)
    ∧ Forall (λ c, rq_messages (cl_request c) = masked) cs
    ∧ (cl_deployment <$> cs) `sublist_of` (dp_id <$> ap_deployments alias)
    ∧ length cs ≤ ap_max_attempts alias
    ∧ (rq_provider_continuation request ≠ None → length cs ≤ 1)
    ∧ (∀ i c, cs !! i = Some c → S i < length cs →
         ∃ answer e, cl_answer c = Answered answer ∧ provider_result client_protocol answer = Err e ∧ ie_retry e = Safe).
Proof.
  intros cs. destruct (request_log_calls _ _ (execute_log w h)) as [H|(a & ds & Ha & Hl)]; [by left|right].
  fold cs in Hl. destruct Ha as [Hal (_ & _ & Hcp) (s & Hs & Ht) Hc Hds _ _], Hl as [L1 L2 L3 L4].
  exists (ad_alias a), s, (ad_pii a), (rq_messages (ad_request a)). split_and!; [done..| | | | |].
  - eapply Forall_impl; [exact L3|]. intros c (d & _ & _ & Hq). apply prepare_messages in Hq. by rewrite Hq.
  - etrans; [exact L2|]. by apply fmap_sublist_of.
  - cbn in L1. lia.
  - intros Hn. destruct cs as [|c [|c' cs']]; cbn; [lia|lia|]. destruct (L4 0 c eq_refl) as (? & ? & _ & _ & _ & Hf); [cbn; lia|].
    rewrite Hc, bool_decide_eq_false in Hf. destruct Hf. by destruct (rq_provider_continuation request).
  - intros i c Hi Hlt. destruct (L4 i c Hi Hlt) as (answer & e & H1 & H2 & H3 & _). exists answer, e.
    rewrite Hcp in H2. unfold retryable in H3. rewrite bool_decide_eq_true in H3. done.
Qed.

(** C14 The usage of a request is settled once and audited truthfully, whatever happens.
    The ledger sees nothing, and then the audit is told that nothing was charged; or a
    reservation that is released again, when the future was dropped or the route had no
    executor; or a reservation that is settled.  The charge of a settlement is the one
    every end of the audit states and the one the caller gets; it is zero when the request
    was sent to no provider, and at most the reservation unless it is the price of the
    tokens that the last provider called reported, at the rate of a deployment with the id
    of the one that was called. *)
Theorem usage_settled_once w h :
  let es := log_of (execute w h holds_nothing) in
  let o := outcome_of (execute w h holds_nothing) in
  (ledger es = [] ∧ Forall (λ f, f = rejected_finish) (finishes es) ∧ ∀ x, o ≠ Done x)
  ∨ (∃ m, ledger es = [EvReserved m; EvReleased m] ∧ finishes es = []
       ∧ (o = Exit Abandon ∨ o = Exit (ReturnErr no_executor)))
  ∨ (∃ m u, ledger es = [EvReserved m; EvSettled m u]
       ∧ Forall (states u) (finishes es) ∧ (∀ x, o = Done x → xe_usage x = u)
       ∧ (calls es = [] → ru_charged_micros u = 0%N)
       ∧ ((ru_charged_micros u <= m)%N
          ∨ ∃ a ds, admits key context root request client_protocol a ds ∧ reported_charge a es u)).
Proof.
  intros es o. pose proof (execute_log w h) as H. fold es o in H. clearbody es o.
  destruct H as [e|mode start r e _ Hr|mode start r e _|mode start _|mode start a first_price ds es o _ Ha Hl].
  - left. by split_and!.
  - left. split_and!; [done..|]. by destruct r as [[]|].
  - left. split_and!; [done|by repeat constructor|]. by destruct r as [[]|].
  - left. by split_and!.
  - right. apply attempts_ledger in Hl as [(H1 & H2 & H3 & H4)|(u & H1 & H2 & [W1 W2 W3] & H4)].
    + left. exists (ad_reserved a). rewrite H3. cbn.
      change (omap ledger_of ?l) with (ledger l). change (omap finish_of ?l) with (finishes l).
      by rewrite ledger_app, finishes_app, H1, H2.
    + right. exists (ad_reserved a), u. rewrite H2, app_nil_r. cbn.
      change (omap ledger_of ?l) with (ledger l). change (omap finish_of ?l) with (finishes l).
      change (omap call_of ?l) with (calls l). rewrite H1. split_and!; [done..|].
      destruct W3 as [?|W3]; [by left|]. right. by exists a, ds.
Qed.
(** ** Acceptance *)

(** The provider may have accepted the request: it answered with a response or an error
    that does not exclude it, or no answer was awaited. *)
Definition may_be_accepted (c : Call) : bool :=
  match cl_answer c with
  | Abandoned => true
  | Answered answer =>
      match provider_result client_protocol answer with
      | Ok _ => true
      | Err e => negb (bool_decide (ie_acceptance e = NotAccepted))
      end
  end.
(** An error of [crates/model-provider/src/inference/error.rs]. *)
Definition provider_raised (c : Call) : Prop :=
  ∀ e, cl_answer c = Answered (Some (Err e)) → ∃ parse now, raised parse now e.

Lemma retried_not_accepted a c :
  ad_client_protocol a = client_protocol → provider_raised c → retried a c → may_be_accepted c = false.
Proof.
  intros Hcp Hr (answer & e & H1 & H2 & H3 & _). unfold may_be_accepted. rewrite H1. rewrite Hcp in H2. rewrite H2.
  unfold retryable in H3. apply bool_decide_eq_true in H3. apply negb_false_iff, bool_decide_eq_true.
  unfold provider_result in H2. destruct answer as [[response|e']|]; simplify_eq.
  - by destruct (continuation_eligible _ _); simplify_eq.
  - destruct (Hr e) as (parse & now & He); [done|]. by eapply safe_retry_not_accepted.
Qed.

(** C12 At most one provider may have accepted a request, and none before the last one it was
    sent to, as long as the providers return the errors of the crate. *)
Theorem accepted_at_most_once w h :
  let cs := calls (log_of (execute w h holds_nothing)) in
  Forall provider_raised cs →
  length (filter (λ c, may_be_accepted c = true) cs) ≤ 1
  ∧ ∀ i c, cs !! i = Some c → may_be_accepted c = true → S i = length cs.
Proof.
  intros cs Hr.
  assert (∀ i c, cs !! i = Some c → may_be_accepted c = true → S i = length cs) as Hlast.
  { intros i c Hi Hm. pose proof (lookup_lt_Some _ _ _ Hi). destruct (decide (S i = length cs)) as [|Hne]; [done|].
    destruct (request_log_calls _ _ (execute_log w h)) as [H0|(a & ds & Ha & Hl)]; fold cs in H0 || fold cs in Hl.
    - rewrite H0 in Hi. by rewrite lookup_nil in Hi.
    - rewrite (retried_not_accepted a c) in Hm; [done|by destruct Ha as [_ (_ & _ & ->)]| |].
      + rewrite Forall_lookup in Hr. by eapply Hr.
      + apply (lc_retried _ _ _ _ Hl i); [done|lia]. }
  split; [|done]. clear Hr. clearbody cs. induction cs as [|c cs IH]; [cbn; lia|]. rewrite filter_cons.
  destruct (decide (may_be_accepted c = true)) as [Hm|Hm].
  - specialize (Hlast 0 c eq_refl Hm). destruct cs; [cbn; lia|done].
  - apply IH. intros i c' Hi Hm'. specialize (Hlast (S i) c' Hi Hm'). cbn in Hlast. lia.
Qed.

End request.
End results.
