(* ===== verification/GenerationAudit.v ===== *)
(** * The audit trail of a generation request

    What the audit is told about a request of [Generation], read off the log grammar of
    [GenerationFacts]. *)

From S2P Require Import Prelude RustStr InferenceError LlmError Circuit Usage Readiness LlmAuthorization AuditWal.
From S2P Require Import ReasoningSeal Pii StreamEncoder Deployment Generation GenerationFacts GenerationResults.

Abbreviation Answer := (awaited (result LlmGatewayError unit)) (only parsing).
Abbreviation accepted := (Answered (Ok ())) (only parsing).
Definition audit_of (e : Event) : option (AuditCall * Answer) :=
  match e with EvAudit call r => Some (call, r) | _ => None end.
(** The calls of the audit with their answers. *)
Definition audits (es : list Event) : list (AuditCall * Answer) := omap audit_of es.
Lemma audits_app l k : audits (l ++ k) = audits l ++ audits k.
Proof. apply omap_app. Qed.

(** The trail after [n] finished attempts: attempts are numbered, each is finished before
    the next one starts, the end states how many there were, and nothing follows it or a call
    that was not accepted but the end. *)
Inductive trail (n : nat) : list (AuditCall * Answer) → Prop :=
| trail_nothing : trail n []
| trail_end f r : fn_attempts f = n → trail n [(CallFinish f, r)]
| trail_abandoned d t : trail n [(CallStarted (S n) d t, Abandoned)]
| trail_refused d t e f r :
    fn_attempts f = n → trail n [(CallStarted (S n) d t, Answered (Err e)); (CallFinish f, r)]
| trail_open d t : trail n [(CallStarted (S n) d t, accepted)]
| trail_unfinished d t terminal category r :
    r ≠ accepted → trail n [(CallStarted (S n) d t, accepted); (CallFinished (S n) terminal category, r)]
| trail_unfinished_end d t terminal category e f r :
    fn_attempts f = S n →
    trail n [(CallStarted (S n) d t, accepted); (CallFinished (S n) terminal category, Answered (Err e));
             (CallFinish f, r)]
| trail_attempt d t terminal category rest :
    trail (S n) rest →
    trail n ((CallStarted (S n) d t, accepted) :: (CallFinished (S n) terminal category, accepted) :: rest).

(** How the trail of a request that returns ends. *)
Definition closes (l : list (AuditCall * Answer)) (e : LlmGatewayError) : Prop :=
  (∃ f r, last l = Some (CallFinish f, r))
  ∨ (∃ n, last l = Some (CallFinished n "failed" "pii_unresolved", Answered (Err e)))
  ∨ e = no_executor.

Section audit.
Context {environment : Environment} {request_text : RequestText} {principal_hash : PrincipalHash}.
Context {prims : SealPrimitives} {detector : PiiDetector} {mac : PiiMac}.
Context {Rest : Type} {digest : ConformanceDigest (Rest:=Rest)}.
Abbreviation Deployment := (DeploymentRuntime (Rest:=Rest)) (only parsing).

Section attempts.
Context (a : AdmissionContext (Rest:=Rest)).

Definition completed (l : list (AuditCall * Answer)) (x : LlmExecution) : Prop :=
  last l = Some (CallFinish (audited "complete" (xe_attempts x) (xe_usage x)), accepted).
(** The trail of one or more attempts from [n] on, by how they end. *)
Definition trail_of (n : nat) (l : list (AuditCall * Answer)) (o : outcome control) : Prop :=
  match o with
  | Done (Continue p) | Done (Break p) => ∀ rest, trail (pg_attempts p) rest → trail n (l ++ rest)
  | Done (Return x) => trail n l ∧ completed l x
  | Exit x => trail n l ∧ ∀ e, x = ReturnErr e → closes l e
  end.

Lemma finish_trail {n l f} r (o : outcome control) :
  trail n (l ++ [(CallFinish f, r)]) →
  match o with
  | Exit (ReturnErr _) => True
  | Done (Return x) => f = audited "complete" (xe_attempts x) (xe_usage x)
  | _ => False
  end →
  trail_of n (l ++ [(CallFinish f, r)]) (finish_outcome r o).
Proof.
  intros Ht Ho. destruct r as [[[]|e]|]; cbn.
  - destruct o as [[p|p|x]|[e| |]]; try done; (split; [done|]).
    + unfold completed. by rewrite last_snoc, Ho.
    + intros e' [= <-]. left. eexists _, _. by rewrite last_snoc.
  - split; [done|]. intros e' [= <-]. left. eexists _, _. by rewrite last_snoc.
  - by split.
Qed.

Lemma success_trail d n d' t u response es o :
  success_log a d (S n) u response es o →
  trail_of n ((CallStarted (S n) d' t, accepted) :: audits es) o.
Proof.
  destruct 1 as [error r|error r E Hr|output|output e r|output r]; cbn [audits omap list_omap audit_of].
  - apply (finish_trail (l := [_; _]) r (Exit (ReturnErr error))); [|done]. cbn. by repeat constructor.
  - destruct r as [[[]|e]|]; [done|..]; (split; [by constructor|]); [|done].
    intros e' [= <-]. right. left. by exists (S n).
  - split; [by constructor|done].
  - apply (finish_trail (l := [_; _]) r (Exit (ReturnErr e))); [|done]. by constructor.
  - apply (finish_trail (l := [_; _]) r (Done (Return _))); [|done]. cbn. by repeat constructor.
Qed.
Lemma failure_trail price n d' t v error es o :
  failure_log a price (S n) v error es o → trail_of n ((CallStarted (S n) d' t, accepted) :: audits es) o.
Proof.
  destruct 1 as [|e r u|p]; cbn [audits omap list_omap audit_of].
  - split; [by constructor|done].
  - apply (finish_trail (l := [_; _]) r (Exit (ReturnErr e))); [|done]. by constructor.
  - destruct (can_retry a (S n) error); cbn; intros rest Hr; by constructor.
Qed.
Lemma dispatch_trail d price p es o : dispatch_log a d price p es o → trail_of (pg_attempts p) (audits es) o.
Proof.
  destruct 1 as [|e r u| |c q Hq|c q answer response es o u Hq Hr Hs|c q answer error es o Hq Hr Hf].
  - by split; [constructor|].
  - apply (finish_trail (l := [_]) r (Exit (ReturnErr e))); [|done]. by constructor.
  - split; [by constructor|]. intros e [= <-]. by right; right.
  - by split; [constructor|].
  - rewrite audits_app. by eapply success_trail.
  - rewrite audits_app. by eapply failure_trail.
Qed.
Lemma attempt_trail d price p es o : attempt_log a d price p es o → trail_of (pg_attempts p) (audits es) o.
Proof.
  destruct 1 as [| | | |es o Hn Hl]; try (by intros rest).
  change (audits (EvCircuit ?i ?c :: ?l)) with (audits l). rewrite audits_app.
  destruct (existsb is_report es); cbn [audits omap list_omap audit_of]; rewrite app_nil_r;
    by eapply dispatch_trail.
Qed.

(** A trail continues after failed attempts. *)
Lemma trail_of_app n p l l' o :
  (∀ rest, trail (pg_attempts p) rest → trail n (l ++ rest)) →
  trail_of (pg_attempts p) l' o → trail_of n (l ++ l') o.
Proof.
  intros Hl. destruct o as [[q|q|x]|x]; cbn.
  - intros H rest Hr. rewrite <- app_assoc. eauto.
  - intros H rest Hr. rewrite <- app_assoc. eauto.
  - intros [H1 H2]. split; [by apply Hl|]. unfold completed in *. by rewrite last_app, H2.
  - intros [H1 H2]. split; [by apply Hl|]. intros e He.
    destruct (H2 e He) as [(f & r & E)|[(k & E)|E]]; [left|right; left|by right; right].
    + exists f, r. by rewrite last_app, E.
    + exists k. by rewrite last_app, E.
Qed.
Lemma loop_trail ds p es o : loop_log a ds p es o → trail_of (pg_attempts p) (audits es) o.
Proof.
  induction 1 as [p|d ds price p p' es es' o Hp Hl _ IH|d ds price p es o Hp Hl Hc].
  - by intros rest.
  - rewrite audits_app. apply attempt_trail in Hl. by eapply trail_of_app.
  - by eapply attempt_trail.
Qed.

Definition request_trail (l : list (AuditCall * Answer)) (o : outcome LlmExecution) : Prop :=
  match o with
  | Done x => completed l x
  | Exit (ReturnErr e) => closes l e
  | Exit _ => True
  end.
Lemma attempts_trail first_price ds es o :
  attempts_log a first_price ds es o → trail 0 (audits es) ∧ request_trail (audits es) o.
Proof.
  destruct 1 as [es x H|es x H|es p r error u H]; apply loop_trail in H.
  - done.
  - destruct H as [H1 H2]. split; [done|]. destruct x; cbn; auto.
  - rewrite audits_app. cbn [audits omap list_omap audit_of] in *. split; [by apply H, trail_end|].
    destruct r as [[[]|e]|]; cbn; [| |done]; left; eexists _, _; by rewrite last_snoc.
Qed.
End attempts.

Section request.
Context (key : text) (context : LlmRequestContext) (root : LlmPublishedSnapshot (Rest:=Rest)).
Context (request : InferenceRequest) (client_protocol : ClientProtocol).
Abbreviation execute := (execute_with_snapshot_protocol key context root request client_protocol).

(** The trail of a request: nothing, or its opening; nothing follows an opening that was
    not accepted. *)
Definition opened (l : list (AuditCall * Answer)) (o : outcome LlmExecution) : Prop :=
  ∃ mode start r rest,
    l = (CallReserve mode start, r) :: rest ∧ opens key context root request mode start
    ∧ ((r ≠ accepted ∧ rest = [] ∧ ∀ x, o ≠ Done x)
       ∨ (r = accepted ∧ trail 0 rest ∧ request_trail rest o)).

(** C15 The audit trail of a request is in order and complete.  A request that does not tell
    the audit anything fails; otherwise its first call is the opening with what the
    caller asked for.  Attempts are numbered from 1 and each is finished before the
    next one starts; the end states how many there were and is the last call.  A
    request succeeds only after the audit accepted the end with the attempts and the
    usage that the caller gets, and a request that fails after its opening tells the
    audit its end, except when the audit refuses the end of an attempt that left
    personal data unresolved, or the route has no executor.  Runs in which the code panics
    are not covered. *)
Theorem audit_trail_complete w h :
  let l := audits (log_of (execute w h holds_nothing)) in
  let o := outcome_of (execute w h holds_nothing) in
  (l = [] ∧ ∃ e, o = Exit (ReturnErr e)) ∨ opened l o.
Proof.
  intros l o. pose proof (execute_log key context root request client_protocol w h) as H. subst l. fold o in H.
  revert H. generalize (log_of (execute w h holds_nothing)). clearbody o. intros es H.
  destruct H as [e|mode start r e Ho Hr|mode start r e Ho|mode start Ho|mode start a first_price ds es o Ho Ha Hl].
  - left. eauto.
  - right. exists mode, start, r, []. split_and!; [done..|]. left. split_and!; [done..|]. by destruct r as [[]|].
  - right. eexists mode, start, _, _. split_and!; [done..|]. right. split_and!; [done|by apply trail_end|].
    destruct r as [[[]|e']|]; cbn; [left; by eexists _, _..|done].
  - right. eexists mode, start, _, _. split_and!; [done..|]. right. split_and!; [done|apply trail_nothing|done].
  - right. exists mode, start, accepted, (audits es). split_and!; [|done|].
    + change (audits (EvAudit ?c ?r :: EvReserved ?m :: ?l)) with ((c, r) :: audits l). rewrite audits_app.
      destruct (existsb is_settled es); cbn [audits omap list_omap audit_of]; by rewrite app_nil_r.
    + right. split; [done|]. by eapply attempts_trail.
Qed.
End request.
End audit.
