(* ===== verification/GenerationExamples.v ===== *)
(** * Examples on generation requests

    An alias with two deployments, and requests to it: one that the second deployment
    answers after the first one was rate limited, and one whose audit trail has no end. *)

From Stdlib Require Import Ascii.
From S2P Require Import Prelude RustStr InferenceError LlmError Circuit Usage Readiness LlmAuthorization AuditWal.
From S2P Require Import ReasoningSeal ReasoningSealExamples Pii PiiExamples StreamEncoder.
From S2P Require Import Deployment Generation GenerationFacts GenerationResults GenerationAudit.

#[local] Existing Instance pattern_detector.
#[local] Existing Instance sample_mac.
#[local] Existing Instance SealInstance.prims.
#[local] Instance fixed_size : RequestText := λ _, Some 4000%N.
#[local] Instance one_principal : PrincipalHash := λ _, 7%N.
#[local] Instance no_digest : ConformanceDigest (Rest:=unit) := λ _, "".

(** ** A snapshot *)

Definition sample_transport : AuditTransportContext :=
  {| tc_network_profile_mode := "public"; tc_termination := "provider"; tc_provider_endpoint_id := "e";
     tc_profile_digest := "d"; tc_physical_runtime_id := None; tc_capacity_domain_id := None;
     tc_pricing_basis := "token"; tc_trust_digest_prefix := None |}.
Definition sample_deployment (id : string) : DeploymentRuntime (Rest:=unit) :=
  {| dp_id := id; dp_model := "model-" +:+ id; dp_provider := Generation POpenAiChat;
     dp_provider_client_generation := 1; dp_audit_transport := sample_transport;
     dp_capabilities :=
       {| pv_operations := {[ OpGenerate ]};
          pv_generation := Some
            {| gc_content := {| cc_text := true; cc_images := false; cc_tools := false; cc_parallel_tools := false;
                                cc_structured_json := false; cc_reasoning_usage := false |};
               gc_streaming := false |};
          pv_embedding := None |};
     dp_conformance_result := None; dp_required_conformance_provenance := None; dp_request_timeout_ms := 1000;
     dp_prices := {[ OpGenerate := Generate {| gp_version := 3; gp_input_micros_per_million := 1000000;
                                               gp_output_micros_per_million := 2000000 |} ]};
     dp_bedrock_policy := None |}.
Definition rejecting_profile : PiiProfile :=
  {| pf_enabled := true; pf_scope := RequestScope; pf_unresolved := RejectBuffered; pf_kinds := [Email];
     pf_max_placeholders := 2; pf_max_value_bytes := 64; pf_detector_version := "local-regex-v1";
     pf_token_format_version := "v1"; pf_minimum_placeholder_preservation_percent := 100 |}.
Definition sample_alias : AliasPlan (Rest:=unit) :=
  {| ap_public_name := "chat"; ap_deployments := [sample_deployment "a"; sample_deployment "b"];
     ap_operations := {[ OpGenerate ]}; ap_max_attempts := 2; ap_max_input_tokens := None;
     ap_max_output_tokens := Some 100%N; ap_max_cost_micros := None; ap_internal := false;
     ap_bound_principal := None; ap_audit := AuditRequired; ap_pii := rejecting_profile;
     ap_required_capabilities :=
       {| ac_images := false; ac_tools := false; ac_parallel_tools := false; ac_structured_json := false;
          ac_streaming := false; ac_embedding_space := None |} |}.
Definition sample_root : LlmPublishedSnapshot (Rest:=unit) :=
  {| sn_generation := 5; sn_digest := "s"; sn_max_replay_bytes := 65536; sn_aliases := {[ "chat" := sample_alias ]};
     sn_principal_stripes := 4;
     sn_reasoning_sealer :=
       {| sl_state := StateDisabled; sl_key_set_generation := 0; sl_current_key_id := None; sl_keys := ∅;
          sl_limits := ReasoningStateLimits_default |} |}.

(** ** A request *)

Definition sample_context : LlmRequestContext :=
  {| lc_authorization := None; lc_request_id := "r"; lc_principal_id := "p"; lc_billing_subject := "s";
     lc_tenant_id := None; lc_deadline := 60000000000 |}.
Definition sample_request : InferenceRequest :=
  {| rq_model := "chat"; rq_messages := [ {| mg_role := User; mg_content := [Text "mail a@b.co"] |} ];
     rq_tools := []; rq_tool_choice := None; rq_response_format := None; rq_parallel_tool_calls := false;
     rq_reasoning := None; rq_sampling := {| so_temperature := None; so_top_p := None; so_stop := [] |};
     rq_max_output_tokens := None; rq_extensions := []; rq_provider_continuation := None |}.
Definition sample_world : World :=
  {| wo_instant := 1; wo_utc := 0%Z;
     wo_deployments := λ _, {| ds_readiness := DeploymentReadiness_new Ready;
                               ds_circuit := PassiveCircuit_new 3 1000 0; ds_permits := 1 |};
     wo_global_permits := 1; wo_principal_permits := λ _, 1%N; wo_alias_permits := 1;
     wo_ledger := UsageLedger_default |}.

Definition rate_limited : InferenceError := from_status (λ _, None) 0 429 None "slow down".
Definition response_of (content : list (ContentBlock ImageSource)) : InferenceResponse :=
  {| rp_output := [MessageItem "m" Assistant content ItemCompleted]; rp_finish_reason := Stop;
     rp_usage := Some {| nu_input_tokens := Some 10%N; nu_output_tokens := Some 5%N;
                         nu_cached_input_tokens := None; nu_reasoning_tokens := None |};
     rp_evidence := {| pe_request_id := None; pe_physical_model := None; pe_api_version := None;
                       pe_raw_finish_reason := None; pe_continuation := None |};
     rp_terminal_state := TerminalComplete |}.
(** The provider [a] is rate limited; [b] answers with what it was sent. *)
Definition echo (d : string) (request : InferenceRequest) : result InferenceError InferenceResponse :=
  if bool_decide (d = "a") then Err rate_limited else Ok (response_of (rq_messages request ≫= mg_content)).
Definition alone (on_audit : AuditCall → result LlmGatewayError unit)
    (provider : string → InferenceRequest → result InferenceError InferenceResponse) : Environment :=
  {| interfere := λ _ w, w; audit_answer := λ _ call, Answered (on_audit call);
     generate_answer := λ _ d _ request, Answered (Some (provider d request)) |}.
Definition runs_in (environment : Environment) :=
  execute_with_snapshot_protocol (environment:=environment) (bytes "k") sample_context sample_root sample_request
    OpenAiChat sample_world [] holds_nothing.
Definition answered : Environment := alone (λ _, Ok ()) echo.

Definition sent (es : list Event) : list (string * list (ContentBlock ImageSource)) :=
  (λ c, (cl_deployment c, rq_messages (cl_request c) ≫= mg_content)) <$> calls es.

(** The second deployment answers; the providers see a token in place of the address, and the
    caller gets the address back and pays for the tokens the provider reports. *)
Example second_deployment_answers :
  let es := log_of (runs_in answered) in
  let masked := [Text "mail [[PII:v1:email:6f632e62406101000000000000006c69]]"] in
  sent es = [("a", masked); ("b", masked)]
  ∧ ledger es = [EvReserved 2400; EvSettled 2400 {| ru_charged_micros := 20; ru_complete := true; ru_price_version := 3 |}]
  ∧ match outcome_of (runs_in answered) with
    | Done x => rp_output (xe_response x) = [MessageItem "m" Assistant [Text "mail a@b.co"] ItemCompleted]
                ∧ xe_attempts x = 2 ∧ xe_deployment_id x = "b"
    | Exit _ => False
    end.
Proof. vm_compute. by split_and!. Qed.

Lemma accepted_at_most_once_witness :
  let cs := calls (log_of (runs_in answered)) in
  length cs = 2 ∧ length (filter (λ c, may_be_accepted OpenAiChat c = true) cs) = 1
  ∧ length (filter (λ c, may_be_accepted OpenAiChat c = true) cs) ≤ 1
  ∧ ∀ i c, cs !! i = Some c → may_be_accepted OpenAiChat c = true → S i = length cs.
Proof.
  intros cs. split; [vm_compute; reflexivity|]. split; [vm_compute; reflexivity|].
  apply (accepted_at_most_once (environment:=answered)).
  vm_compute. repeat constructor; intros e [= <-].
  exists (λ _, None), 0%Z. exact (raised_status _ _ 429 None "slow down").
Defined.

(** ** An audit trail without an end *)

(** The provider answers with a token of its own, which is not resolved, and the audit
    refuses the end of the attempt: the request fails with its error, and the audit
    is not told that the request ended, nor what was charged. *)
Definition unresolved (d : string) (request : InferenceRequest) : result InferenceError InferenceResponse :=
  Ok (response_of [Text "mail [[PII:v1:email:00000000000000000000000000000000]]"]).
Definition refuses_attempt_end (call : AuditCall) : result LlmGatewayError unit :=
  match call with CallFinished _ _ _ => Err Capacity | _ => Ok () end.
Example unresolved_not_finished :
  let r := runs_in (alone refuses_attempt_end unresolved) in
  outcome_of r = Exit (ReturnErr Capacity) ∧ finishes (log_of r) = []
  ∧ ledger (log_of r) = [EvReserved 2400; EvSettled 2400 {| ru_charged_micros := 20; ru_complete := true; ru_price_version := 3 |}].
Proof. vm_compute. by split_and!. Qed.
